(* ===== verification/_CoqProject ===== *)
-Q . S2P
Prelude.v
State.v
RustStr.v
Resources.v
Process.v
Clock.v
Scheduler.v
Variables.v
Descriptors.v
DescriptorInv.v
DescriptorSystem.v
Paths.v
Vfs.v
VfsTree.v
VfsUsage.v
VfsSystem.v
Syntax.v
Arith.v
ArithSpec.v
ArithRef.v
Lexer.v
LexerSpec.v
ShellParser.v
ShellSpec.v
ShellPrint.v
ShellRound.v
ShellText.v
ProcessState.v
ShellVars.v
ScopeSpec.v
ExpandText.v
ExpandTextSpec.v
Machine.v
Expand.v
SplitSpec.v
PseudoFs.v
Kernel.v
Lifecycle.v
ExecData.v
ExecText.v
ExecVars.v
Redirects.v
ExecHost.v
ExecPrep.v
Exec.v
Driver.v
Boot.v
Images.v
CommandIo.v
BuiltinVars.v
BuiltinTest.v
BuiltinRead.v
BuiltinShell.v
BuiltinJobs.v
Commands.v
ProgramArgs.v
ProgramSystem.v
Filters.v
Launchers.v
NativePrograms.v
KernelInv.v
BootInv.v
KernelSafe.v
KernelTidy.v
LifecycleInv.v
ExpandInv.v
ExpandSpec.v
LifecycleSafe.v
KernelSystem.v
ScriptHost.v
ExecMachine.v
RedirectSpec.v
DispatchSpec.v
ExecFrames.v
ExecStack.v
ExecSpec.v
StreamSpec.v
FilterSpec.v
ProgramSafe.v
CommandSpec.v
