(* ===== verification/Prelude.v ===== *)
(** * Shellsim: a verified model of the simulated machine

    Shellsim runs shell programs in a deterministic, resource-limited machine inside one Rust
    process: no host file, process, clock or socket is involved. The machine is a record of
    components shared by simulated processes. This library models the components function by
    function, the machine that composes them (process contexts, system calls, forking, exits,
    signals, memory), the front end of the shell, its executor, its builtins and the programs beside
    it, and proves what each promises.

    ** Files and sources

    - [Prelude], [State], [RustStr]: machine integers ([u64], [i64], [u32], [i32] as [Z] with
      saturating, checked and wrapping operations written out), [result] for [Result], [run] for
      code that can panic or run out of model fuel, the state monad [stm] with its total-
      correctness judgement [wp], UTF-8 strings as lists of characters, and the parts of the
      Rust string and integer library the source calls.
    - [Resources] (src/src/resources.rs): CPU, memory, output and per-command accounting.
    - [Process] (src/src/process.rs): the process table, signals, wait statuses.
    - [Clock] (src/src/clock.rs): the virtual timeline, its events, cancellation, blocking.
    - [Scheduler] (src/src/scheduler.rs): the cooperative run queue, waiting, stopping.
    - [Variables] (src/src/variables.rs): scalar and array storage with byte estimates.
    - [Descriptors], [DescriptorInv], [DescriptorSystem] (src/src/descriptors.rs): the arena of
      open descriptions, per-process tables, pipes, file locks; the invariant; the system of
      several processes that interleave operations.
    - [Paths], [Vfs], [VfsTree], [VfsUsage], [VfsSystem] (src/src/vfs.rs): path normalisation,
      the layered tree with its operations, what reading shows after writing, the usage
      accounting, and the system of filesystems reachable by seeding, forking and running.
    - [ProcessState], [Machine], [PseudoFs] (src/src/interp.rs, src/src/pseudo_fs.rs,
      src/src/realtime.rs): the context of a process and what a fork copies; the record [Machine]
      that owns every component, the host as a machine sees it ([HostView]: its clock and the
      requests it has not answered), and the primitive steps of its operations; the generated
      [/proc] and [/dev].
    - [Kernel] (src/src/syscalls.rs, src/src/interp.rs): system calls as functions on [Machine].
    - [Lifecycle], [Boot] (src/src/interp.rs): fork, exit, signals and job control, the memory of a
      context; the construction of a machine.
    - [KernelInv], [KernelSafe], [KernelTidy], [BootInv], [LifecycleInv], [LifecycleSafe]: the
      invariant of the machine and a judgement [safe] for "returns, in the invariant"; a rule per
      operation; [KernelSystem]: the operations as one type and the theorems on all of them.
    - [Arith], [ArithSpec], [ArithRef] (src/src/arith.rs): the [$((...))] evaluator over an
      interface [ArithVars] for the variables, its totality and purity, and its refinement of a
      reference grammar that has its own numerals, symbols, binding strengths and arithmetic.
    - [Syntax], [Lexer], [LexerSpec] (src/src/shell.rs): the syntax tree, tokens, errors, the
      lexer and what it emits.
    - [ShellParser], [ShellSpec] (src/src/shell.rs, src/src/stack.rs): the recursive-descent
      parser with its nesting counter; that it returns, what trees it builds, how high they are.
    - [ShellPrint], [ShellRound], [ShellText]: a canonical printer, parsing inverts it on tokens,
      and from any spelling of the tokens as source text.
    - [ShellVars], [ScopeSpec] (src/src/interp.rs): parameters, arrays and function scopes of a
      shell context; what a function call restores.
    - [ExpandText], [ExpandTextSpec] (src/src/expand.rs): the text side of word expansion (command
      substitutions, braces, delimiters, patterns) and what it yields.
    - [Expand], [SplitSpec], [ExpandInv], [ExpandSpec] (src/src/expand.rs): word expansion on the
      machine; field splitting against a reference; a judgement [runs] that carries the invariant
      through the recursion; what quoting guarantees.
    - [ExecData], [ExecText], [ExecVars], [Redirects], [ExecHost], [ExecPrep], [Exec]
      (src/src/exec.rs): the shell executor: its frames and continuation; the texts it scans and
      prints; variables, assignments and control state; redirections and their scopes; the
      interface [Host] of what it calls, pushing and aborting; substitutions and preparation; one
      [step] per frame and the poll of a shell.
    - [Driver] (src/src/exec.rs, src/src/program.rs, src/src/realtime.rs): the host's clock, events, dispatch, delivery of signals, the
      poll of the machine, the actions of the host.
    - [Images] (src/src/interp.rs, src/src/syscalls.rs): what a process loads and runs: shells,
      native programs, commands of the registry; [posix_spawn] with its actions and what is undone
      when one fails.
    - [CommandIo], [BuiltinVars], [BuiltinTest], [BuiltinRead], [BuiltinShell], [BuiltinJobs],
      [Commands] (src/src/commands/mod.rs, src/src/commands/builtins.rs): a command and its buffers;
      the builtins on variables and options, [test], [read] and [mapfile], on the shell's text and
      directories, and on jobs; the registry and the dispatch of a command with its accounting.
    - [ProgramArgs], [ProgramSystem], [Filters], [Launchers], [NativePrograms]
      (src/src/program.rs, src/src/program/, src/src/commands/): the programs that are processes of
      their own. Their options, [echo] and [printf]; the class [System] of the kernel calls they
      make, and chunked writing; [cat], [tee], [head] and [sleep]; [nice], [nohup], [env],
      [timeout] and [xargs]; the poll of a native program, the instance [active_system] of the
      kernel, and the host that joins them to the executor.
    - [ScriptHost]: two instances of [Host] and scripts run on the whole model, from their text to
      their output.
    - [StreamSpec], [FilterSpec], [ProgramSafe], [CommandSpec]: an interface [Streams] of what a
      kernel promises to a program, with an instance that records what is read and written; what
      [cat] and [head] write over it; its instance for the modelled kernel; what the texts of
      [xargs], [read] and [test] come to.
    - [ExecFrames], [ExecStack]: the bound of a shell's stack, and that a step leaves the frames
      below it; [ExecSpec]: a recursive interpreter of the shell's constructs and the proof that
      the executor implements it; [ExecMachine], [RedirectSpec]: what the executor's operations
      keep of the machine, and the scope of redirections; [DispatchSpec]: choosing a process.

    A method on [&mut self] is a function from the state to the state it leaves and its result,
    so an error path shows what it leaves behind. Hash maps are [gmap]s; ordered maps are [gmap]s
    iterated through a sorted list of keys where the order shows.

    ** What the theorems show

    - Accounting: counters never pass their limits and stay in their machine type, exhaustion is
      final, charging is additive, reservations balance ([Resources]); byte estimates equal a
      recount ([Variables]); the kept disk usage equals the measured one in every reachable
      filesystem ([VfsSystem]).
    - Identities: process IDs, orphan IDs and event IDs are never reused; the process tree is
      the reachable set ([Process], [VfsSystem], [Clock]).
    - Time and scheduling: time never rewinds, due events fire in order, blocking terminates;
      the queues stay consistent, dispatch is first come first served, stopped tasks keep their
      wake-ups ([Clock], [Scheduler]).
    - Descriptors: over every interleaving reference counts are exact and nothing panics, a pipe
      refines a FIFO channel, fork is atomic, exec closes what is flagged, locks exclude,
      readiness agrees with reading and writing.
    - Filesystem: failed mutations, renaming included, change nothing, reading returns what was written, unlinked
      open files survive, [realpath] is canonical, the streaming merge is the visible tree.
    - Machine: booting establishes the invariant, every operation that returns keeps it, and only
      five calls may panic instead, so in every reachable machine the memory in use is exactly what
      contexts and pipes hold and every descriptor reference is counted; a fork is all or nothing,
      an exit returns everything, timers included, closing leaves nothing behind ([KernelSystem], [BootInv],
      [KernelTidy]).
    - Arithmetic: evaluation is total, skipped operands are pure, constants are exact, and
      precedence, associativity and wrap-around are those of the reference grammar.
    - Shell syntax: lexing and parsing return on every text, trees are well formed and of bounded
      height, and parsing inverts printing, on tokens and on source text.
    - Expansion: it returns on every word and keeps the machine, splitting is the reference's,
      quoted text and quoted lists come out as they are, brace expansion is bounded, patterns
      remove the shortest or longest match, and a function call restores what it shadowed
      ([ExpandSpec], [SplitSpec], [ExpandTextSpec], [ScopeSpec]).
    - Executor: the frames implement the recursive reading of every construct, quantum by quantum,
      whatever other processes do in between ([ExecSpec]); a step touches nothing below its frame
      ([ExecStack]) and the stack is bounded ([ExecFrames]); redirections are undone exactly
      ([RedirectSpec]); choosing a process ends and finds one unless everything is blocked, on
      virtual time for good, and on real time it follows the clock of the host ([DispatchSpec]).
    - Programs: [cat] and [head] write exactly what they should of their input, chunk by chunk,
      over any kernel that keeps its promises and whatever runs between their polls
      ([FilterSpec]); on the modelled kernel a poll of a filter returns and keeps the invariant
      ([ProgramSafe]). [test] evaluates by its grammar, [read] takes the record that the executor
      gathered for it, up to the size it scans, [xargs] runs its command on every word of its input
      or refuses it for a stated reason ([CommandSpec]).

    ** Bounds and fuel

    Loops and recursion that are not structural take fuel, and a theorem shows it to be enough:
    [realpath_inner] 41 levels (the code's own limit of 40); the arithmetic parser 32 levels per
    character ([evaluate_total]), nested evaluation [MAX_RECURSION] levels, exponentiation 64
    rounds; the lexer's loops two rounds per character left and two more, the parser's loops one
    round per token left and one more, its recursion four levels per level of the nesting limit
    ([parse_total]); the walk of the process tree and the blocking loop of the timeline as many
    rounds as there are processes and events ([process_tree_exact], [block_task_outcome]); signal
    delivery 12 rounds, one per signal and one more ([deliver_total]); word expansion one level per
    byte of the word and one more, as nested text is shorter, and its loops one round per character
    ([expand_words_returns]); the driver one round per event that is ready or pending and one more
    ([dispatch_finds_a_process]); writing a text one round per byte, and a poll that writes 4097
    rounds, one per byte of its quantum and one more ([poll_write_ok]); [test] the levels of
    [MAX_SYNTAX_DEPTH], as in the source, and its parentheses one round per token
    ([test_follows_grammar]); [read] one round per byte it may take ([read_takes_one_record]); the
    other loops of builtins and programs one round per argument or character. [drive] and [run_node] take the
    number of polls from their caller, as the source's loop over a script has no bound.

    ** Not modelled

    Cancellation tokens and action generations, which let the host end an action early, are absent:
    the lexer and parser are [parse], which passes none. [Machine] leaves out the telemetry logs,
    the display and the virtual network, of which the modelled operations read only whether a
    request to the host is unanswered. That, and the readings of the host's clock, are inputs of the
    machine ([HostView]); what sleeps the thread of the host, and what answers a request, is outside.
    The build is the release profile, without overflow checks: where the source can overflow, sums
    wrap ([number_range] is given for both builds). The stack of the host is taken to be unbounded.
    Of a resumable program [Machine] keeps only whether there is one; the programs themselves are in
    [World]. The regular expressions with their captures, the Unicode case tables and the formatting
    of floating-point numbers are parameters. So are the programs [find] and [make], the guests of
    WebAssembly, and the registered system commands other than [echo] and [printf] (text tools,
    archives, diffs and the like), each a function of its arguments and input that the adapter in
    [NativePrograms] runs. The log of invocations is left out. The harness, replay and network
    adapters are above the machine; WebAssembly and git are built on third-party engines; the
    sandbox and the command line are host I/O. *)

From Stdlib Require Import Strings.Byte.
From stdpp Require Export sorting.
From stdpp Require Export base numbers strings gmap list_relations list.

#[export] Set Default Goal Selector "!".
Open Scope Z_scope.

(** ** Machine integers

    A [w]-bit Rust integer is a [Z] together with the range predicate of its type; the checked,
    saturating and wrapping operations of the source are the functions below. *)

Definition U64_MAX : Z := 18446744073709551615.
Definition U32_MAX : Z := 4294967295.
Definition I64_MIN : Z := -9223372036854775808.
Definition I64_MAX : Z := 9223372036854775807.
Definition I128_MIN : Z := - 2 ^ 127.
Definition I128_MAX : Z := 2 ^ 127 - 1.

Definition in_u64 (z : Z) : Prop := 0 ≤ z ≤ U64_MAX.
Definition in_u32 (z : Z) : Prop := 0 ≤ z ≤ U32_MAX.
Definition in_i64 (z : Z) : Prop := I64_MIN ≤ z ≤ I64_MAX.
Definition in_i128 (z : Z) : Prop := I128_MIN ≤ z ≤ I128_MAX.

(** [u64::checked_add], [u64::saturating_add], [u64::saturating_sub], [u64::saturating_mul]. *)
Definition checked_add64 (a b : Z) : option Z :=
  if a + b <=? U64_MAX then Some (a + b) else None.
Definition sat_add64 (a b : Z) : Z := Z.min (a + b) U64_MAX.
Definition sat_sub (a b : Z) : Z := Z.max 0 (a - b).
Definition sat_mul64 (a b : Z) : Z := Z.min (a * b) U64_MAX.

(** [u32::checked_add]. *)
Definition checked_add32 (a b : Z) : option Z :=
  if a + b <=? U32_MAX then Some (a + b) else None.

(** [i128::checked_add]. *)
Definition checked_add128 (a b : Z) : option Z :=
  if (I128_MIN <=? a + b) && (a + b <=? I128_MAX) then Some (a + b) else None.

(** Two's complement wrap-around to [i64], and the reinterpretation of a [u64]. *)
Definition wrap64 (z : Z) : Z := (z + 2 ^ 63) mod 2 ^ 64 - 2 ^ 63.
Definition wrap_u64 (z : Z) : Z := z mod 2 ^ 64.

(** ** Results

    Rust's [Result<A, E>]. A method on [&mut self] is a function from the state to the new state
    paired with a result, so that what an error path leaves behind is visible. *)

Inductive result (E A : Type) : Type :=
| Ok (a : A)
| Err (e : E).
Arguments Ok {E A} a.
Arguments Err {E A} e.

#[export] Instance result_eq_dec {E A} `{EqDecision E, EqDecision A} : EqDecision (result E A).
Proof. solve_decision. Defined.

#[export] Instance result_ret {E} : MRet (result E) := λ A a, Ok a.
#[export] Instance result_bind {E} : MBind (result E) := λ A B k r,
  match r with Ok a => k a | Err e => Err e end.
#[export] Instance result_fmap {E} : FMap (result E) := λ A B f r,
  match r with Ok a => Ok (f a) | Err e => Err e end.

(** [Option::ok_or]. *)
Definition ok_or {E A} (o : option A) (e : E) : result E A :=
  match o with Some a => Ok a | None => Err e end.

Definition is_ok {E A} (r : result E A) : bool :=
  match r with Ok _ => true | Err _ => false end.

(** ** Panics and fuel

    A function whose Rust body can reach [expect], [unwrap], [unreachable!] or an out-of-range
    index returns a [run]: [Panic] is that outcome. A loop that is not structurally recursive is
    given fuel, and [NoFuel] says the fuel ran out; the theorems about such a loop show that the
    fuel its caller passes is enough. *)

Inductive run (A : Type) : Type :=
| Ret (a : A)
| Panic
| NoFuel.
Arguments Ret {A} a.
Arguments Panic {A}.
Arguments NoFuel {A}.

#[export] Instance run_ret : MRet run := λ A a, Ret a.
#[export] Instance run_bind : MBind run := λ A B k r,
  match r with Ret a => k a | Panic => Panic | NoFuel => NoFuel end.
#[export] Instance run_fmap : FMap run := λ A B f r,
  match r with Ret a => Ret (f a) | Panic => Panic | NoFuel => NoFuel end.

(** [Option::expect]. *)
Definition expect {A} (o : option A) : run A :=
  match o with Some a => Ret a | None => Panic end.

(** ** Bytes *)

Abbreviation bytes := (list Byte.byte).

#[export] Instance byte_eq_dec : EqDecision Byte.byte := Byte.byte_eq_dec.

(** The length of a Rust slice or [Vec] as a [usize]. *)
Abbreviation zlen l := (Z.of_nat (length l)).

Lemma list_filter_ext_in {A} (P Q : A → Prop) `{∀ x, Decision (P x), ∀ x, Decision (Q x)} (l : list A) :
  (∀ x, x ∈ l → P x ↔ Q x) → filter P l = filter Q l.
Proof.
  induction l as [|x l IH]; intros HPQ; [done|]. rewrite !filter_cons.
  rewrite IH by (intros; apply HPQ; by right).
  pose proof (HPQ x (list_elem_of_here x l)). repeat case_decide; tauto.
Qed.

Lemma list_filter_id {A} (P : A → Prop) `{∀ x, Decision (P x)} (l : list A) :
  (∀ x, x ∈ l → P x) → filter P l = l.
Proof.
  induction l as [|x l IH]; intros HP; [done|]. rewrite filter_cons.
  rewrite decide_True by (apply HP; left). by rewrite IH by (intros; apply HP; by right).
Qed.

(** ** Proof automation *)

Create HintDb machine.
#[export] Hint Unfold in_u64 in_u32 in_i64 in_i128 U64_MAX U32_MAX I64_MIN I64_MAX
  checked_add64 checked_add32 sat_add64 sat_sub sat_mul64 : machine.

(** Unfold the fixed-width operations, turn boolean comparisons into propositions and call
    [lia]. The bounds enter as equations, so that the kernel never has to compare a goal with its
    unfolded form literal by literal. *)
Ltac unfold_machine :=
  unfold in_u64, in_u32, in_i64, checked_add64, checked_add32,
    sat_add64, sat_sub, sat_mul64 in *;
  pose proof (eq_refl : U64_MAX = 18446744073709551615);
  pose proof (eq_refl : U32_MAX = 4294967295);
  pose proof (eq_refl : I64_MIN = -9223372036854775808);
  pose proof (eq_refl : I64_MAX = 9223372036854775807).

Ltac bool_to_prop :=
  repeat match goal with
  | H : (_ <=? _) = true |- _ => apply Z.leb_le in H
  | H : (_ <=? _) = false |- _ => apply Z.leb_gt in H
  | H : (_ <? _) = true |- _ => apply Z.ltb_lt in H
  | H : (_ <? _) = false |- _ => apply Z.ltb_ge in H
  | H : (_ =? _) = true |- _ => apply Z.eqb_eq in H
  | H : (_ =? _) = false |- _ => apply Z.eqb_neq in H
  | H : (_ && _) = true |- _ => apply andb_true_iff in H; destruct H
  | H : (_ && _) = false |- _ => apply andb_false_iff in H
  | H : (_ || _) = false |- _ => apply orb_false_iff in H; destruct H
  | H : (_ || _) = true |- _ => apply orb_true_iff in H
  | H : negb _ = true |- _ => apply negb_true_iff in H
  | H : negb _ = false |- _ => apply negb_false_iff in H
  | H : bool_decide _ = true |- _ => apply bool_decide_eq_true_1 in H
  | H : bool_decide _ = false |- _ => apply bool_decide_eq_false_1 in H
  end.

Ltac mach := unfold_machine; bool_to_prop; lia.

(** Case on the innermost [if] or [match] scrutinee of the goal, keeping its equation. *)
Ltac case_step :=
  match goal with
  | |- context [if ?b then _ else _] => destruct b eqn:?
  | |- context [match ?x with _ => _ end] => destruct x eqn:?
  end.

(** ** Generic lemmas *)

Lemma checked_add64_Some a b c : checked_add64 a b = Some c ↔ c = a + b ∧ a + b ≤ U64_MAX.
Proof. unfold checked_add64. case_match; bool_to_prop; naive_solver lia. Qed.

Lemma checked_add64_None a b : checked_add64 a b = None ↔ U64_MAX < a + b.
Proof. unfold checked_add64. case_match; bool_to_prop; naive_solver lia. Qed.

Lemma checked_add32_Some a b c : checked_add32 a b = Some c ↔ c = a + b ∧ a + b ≤ U32_MAX.
Proof. unfold checked_add32. case_match; bool_to_prop; naive_solver lia. Qed.

Lemma sat_add64_exact a b : a + b ≤ U64_MAX → sat_add64 a b = a + b.
Proof. mach. Qed.

Lemma sat_sub_exact a b : b ≤ a → sat_sub a b = a - b.
Proof. mach. Qed.

Lemma wrap64_range z : in_i64 (wrap64 z).
Proof.
  unfold in_i64, wrap64, I64_MIN, I64_MAX.
  pose proof (Z.mod_pos_bound (z + 2 ^ 63) (2 ^ 64)). lia.
Qed.

Lemma wrap64_id z : in_i64 z → wrap64 z = z.
Proof. unfold in_i64, wrap64, I64_MIN, I64_MAX. intros. rewrite Z.mod_small; lia. Qed.

(** [wrap64] keeps the residue modulo [2 ^ 64]. *)
Lemma wrap64_mod z : wrap64 z mod 2 ^ 64 = z mod 2 ^ 64.
Proof.
  unfold wrap64. rewrite Zminus_mod_idemp_l. f_equal. lia.
Qed.

Lemma wrap64_eq a b : a mod 2 ^ 64 = b mod 2 ^ 64 → wrap64 a = wrap64 b.
Proof.
  intros Hab. unfold wrap64. f_equal.
  rewrite <- (Zplus_mod_idemp_l a), <- (Zplus_mod_idemp_l b). by rewrite Hab.
Qed.

(** ** Ordered maps

    A Rust [BTreeMap] is a stdpp [gmap] read in ascending key order. [OrdKey] is what the map
    asks of its keys: the order that [Ord] gives the type. *)

Class OrdKey (K : Type) := {
  key_le : relation K;
  key_le_dec :: RelDecision key_le;
  key_le_po :: PartialOrder key_le;
  key_le_total :: Total key_le
}.

#[export] Instance Z_ord : OrdKey Z := {| key_le := Z.le |}.
#[export] Instance string_ord : OrdKey string := {| key_le := String.le |}.

(** Lexicographic order of pairs, as [derive(Ord)] gives it. *)
Definition pair_le {A B} `{OrdKey A, OrdKey B} (x y : A * B) : Prop :=
  (key_le x.1 y.1 ∧ x.1 ≠ y.1) ∨ (x.1 = y.1 ∧ key_le x.2 y.2).

#[export] Instance pair_le_dec {A B} `{EqDecision A, OrdKey A, OrdKey B} :
  RelDecision (pair_le (A := A) (B := B)).
Proof. intros x y. unfold pair_le. apply _. Defined.

#[export] Program Instance pair_ord {A B} `{EqDecision A, OrdKey A, OrdKey B} : OrdKey (A * B) :=
  {| key_le := pair_le |}.
Next Obligation.
  intros A B ? ? ?. split; [split|].
  - intros [a b]. right. done.
  - intros [a b] [a' b'] [a'' b'']. unfold pair_le; simpl.
    intros [[Ha Hne]|[-> Hb]] [[Ha' Hne']|[-> Hb']].
    + left. split; [by etrans|]. intros ->. apply Hne'. by apply (anti_symm key_le).
    + left. done.
    + left. done.
    + right. split; [done|]. by etrans.
  - intros [a b] [a' b']. unfold pair_le; simpl.
    intros [[Ha Hne]|[-> Hb]] [[Ha' Hne']|[? Hb']]; try done.
    + by destruct Hne; apply (anti_symm key_le).
    + f_equal. by apply (anti_symm key_le).
Qed.
Next Obligation.
  intros A B ? ? ? [a b] [a' b']. unfold pair_le; simpl.
  destruct (decide (a = a')) as [->|Hne].
  - destruct (total key_le b b'); [left|right]; by right.
  - destruct (total key_le a a'); [left|right]; left; auto.
Qed.

Section btree.
Context {K V : Type} `{Countable K, OrdKey K}.
Implicit Types (m : gmap K V) (l : list (K * V)).

Definition entry_le (a b : K * V) : Prop := key_le a.1 b.1.

#[global] Instance entry_le_dec : RelDecision entry_le.
Proof. intros a b. unfold entry_le. apply _. Defined.
#[global] Instance entry_le_refl : Reflexive entry_le.
Proof. intros a. unfold entry_le. reflexivity. Qed.
#[global] Instance entry_le_trans : Transitive entry_le.
Proof. intros a b c. unfold entry_le. intros. by etrans. Qed.
#[global] Instance entry_le_total : Total entry_le.
Proof. intros a b. unfold entry_le. apply (total key_le). Qed.

(** [BTreeMap::iter]: the entries in ascending key order. *)
Definition btree_iter (m : gmap K V) : list (K * V) := merge_sort entry_le (map_to_list m).
(** [BTreeMap::keys], [BTreeMap::values] and [BTreeMap::first_key_value]. *)
Definition btree_keys (m : gmap K V) : list K := (btree_iter m).*1.
Definition btree_values (m : gmap K V) : list V := (btree_iter m).*2.
Definition btree_first (m : gmap K V) : option (K * V) := head (btree_iter m).

Lemma btree_iter_perm m : btree_iter m ≡ₚ map_to_list m.
Proof. apply merge_sort_Permutation. Qed.

Lemma elem_of_btree_iter m k v : (k, v) ∈ btree_iter m ↔ m !! k = Some v.
Proof. by rewrite btree_iter_perm, elem_of_map_to_list. Qed.

Lemma btree_iter_sorted m : StronglySorted entry_le (btree_iter m).
Proof. apply (StronglySorted_merge_sort _). Qed.

Lemma btree_iter_NoDup m : NoDup (btree_iter m).
Proof. rewrite btree_iter_perm. apply NoDup_map_to_list. Qed.

Lemma btree_keys_NoDup m : NoDup (btree_keys m).
Proof. unfold btree_keys. rewrite btree_iter_perm. apply NoDup_fst_map_to_list. Qed.

Lemma elem_of_btree_keys m k : k ∈ btree_keys m ↔ is_Some (m !! k).
Proof.
  unfold btree_keys. rewrite list_elem_of_fmap. split.
  - intros ([k' v] & -> & Hin). apply elem_of_btree_iter in Hin. eauto.
  - intros [v Hv]. exists (k, v). by rewrite elem_of_btree_iter.
Qed.

Lemma btree_iter_length m : length (btree_iter m) = size m.
Proof. by rewrite btree_iter_perm, length_map_to_list. Qed.

Lemma btree_iter_empty : btree_iter (∅ : gmap K V) = [].
Proof. apply nil_length_inv. by rewrite btree_iter_length, map_size_empty. Qed.

(** The iteration order is determined: any key-sorted list without duplicate keys that holds
    the entries of [m] is [btree_iter m]. *)
Lemma btree_iter_unique m l :
  StronglySorted entry_le l → NoDup l →
  (∀ k v, (k, v) ∈ l ↔ m !! k = Some v) → l = btree_iter m.
Proof.
  intros Hs Hnd Hl. eapply StronglySorted_unique_strong; [|exact Hs|apply btree_iter_sorted|].
  - intros [k1 v1] [k2 v2] H1 H2 Hle Hge. apply Hl in H1. apply elem_of_btree_iter in H2.
    assert (k1 = k2) as -> by (by apply (anti_symm key_le)). congruence.
  - apply NoDup_Permutation; [done|apply btree_iter_NoDup|].
    intros [k v]. by rewrite Hl, elem_of_btree_iter.
Qed.

Lemma btree_first_None m : btree_first m = None ↔ m = ∅.
Proof.
  unfold btree_first. split.
  - intros Hh. apply map_size_empty_iff. rewrite <- btree_iter_length.
    by destruct (btree_iter m).
  - intros ->. by rewrite btree_iter_empty.
Qed.

Lemma btree_first_Some m k v :
  btree_first m = Some (k, v) →
  m !! k = Some v ∧ ∀ k', is_Some (m !! k') → key_le k k'.
Proof.
  unfold btree_first. destruct (btree_iter m) as [|e l] eqn:E; simpl; [done|].
  intros [= ->]. split.
  - apply elem_of_btree_iter. rewrite E. by left.
  - intros k' [v' Hv']. apply elem_of_btree_iter in Hv'. rewrite E in Hv'.
    pose proof (btree_iter_sorted m) as Hs. rewrite E in Hs.
    apply StronglySorted_inv in Hs as [_ Hs]. rewrite Forall_forall in Hs.
    apply elem_of_cons in Hv' as [[= -> ->]|Hin]; [done|]. exact (Hs _ Hin).
Qed.
End btree.

(** ** Sums over the entries of a map *)

Section map_sum.
Context {K V : Type} `{Countable K}.
Implicit Types (f : K → V → Z) (m : gmap K V).

Definition map_sum (f : K → V → Z) (m : gmap K V) : Z :=
  map_fold (λ k v acc, f k v + acc) 0 m.

Lemma map_sum_empty f : map_sum f ∅ = 0.
Proof. apply map_fold_empty. Qed.

Lemma map_sum_insert f m k v :
  m !! k = None → map_sum f (<[k:=v]> m) = f k v + map_sum f m.
Proof. intros Hk. unfold map_sum. rewrite map_fold_insert_L; [done| |done]. lia. Qed.

Lemma map_sum_delete f m k v :
  m !! k = Some v → map_sum f (delete k m) = map_sum f m - f k v.
Proof.
  intros Hk. rewrite <- (insert_delete_id m k v Hk) at 2.
  rewrite map_sum_insert by apply lookup_delete_eq. lia.
Qed.

Lemma map_sum_replace f m k v w :
  m !! k = Some v → map_sum f (<[k:=w]> m) = map_sum f m - f k v + f k w.
Proof.
  intros Hk. rewrite <- insert_delete_eq, map_sum_insert by apply lookup_delete_eq.
  rewrite (map_sum_delete _ _ _ _ Hk). lia.
Qed.

Lemma map_sum_nonneg f m : (∀ k v, 0 ≤ f k v) → 0 ≤ map_sum f m.
Proof.
  intros Hf. induction m as [|k v m Hk IH] using map_ind.
  - by rewrite map_sum_empty.
  - rewrite map_sum_insert by done. specialize (Hf k v). lia.
Qed.

Lemma map_sum_ext f g m :
  (∀ k v, m !! k = Some v → f k v = g k v) → map_sum f m = map_sum g m.
Proof.
  induction m as [|k v m Hk IH] using map_ind; intros Hfg.
  - by rewrite !map_sum_empty.
  - rewrite !map_sum_insert by done. rewrite Hfg by apply lookup_insert_eq.
    rewrite IH; [done|]. intros k' v' Hk'. apply Hfg. rewrite lookup_insert_ne; congruence.
Qed.

Lemma map_sum_linear f g c m :
  map_sum (λ k v, f k v + c * g k v) m = map_sum f m + c * map_sum g m.
Proof.
  induction m as [|k v m Hk IH] using map_ind; [rewrite !map_sum_empty; lia|].
  rewrite !map_sum_insert by done. lia.
Qed.

Lemma map_sum_le f g m : (∀ k v, m !! k = Some v → f k v ≤ g k v) → map_sum f m ≤ map_sum g m.
Proof.
  induction m as [|k v m Hk IH] using map_ind; intros Hfg; [by rewrite !map_sum_empty|].
  rewrite !map_sum_insert by done. pose proof (Hfg k v (lookup_insert_eq _ _ _)).
  assert (map_sum f m ≤ map_sum g m); [|lia].
  apply IH. intros k' v' Hk'. apply Hfg. rewrite lookup_insert_ne; congruence.
Qed.

Lemma map_sum_elem_le f m k v :
  (∀ k v, 0 ≤ f k v) → m !! k = Some v → f k v ≤ map_sum f m.
Proof.
  intros Hf Hk. pose proof (map_sum_delete f m k v Hk).
  pose proof (map_sum_nonneg f (delete k m) Hf). lia.
Qed.

Lemma map_sum_list f m :
  map_sum f m = foldr (λ '(k, v) acc, f k v + acc) 0 (map_to_list m).
Proof.
  unfold map_sum. rewrite map_fold_foldr.
  induction (map_to_list m) as [|[k v] l IH]; simpl; congruence.
Qed.
End map_sum.

(** A list folded with a saturating [u64] addition gives the exact sum when it fits. *)
Definition sat_total {A} (f : A → Z) (l : list A) : Z :=
  foldl (λ total a, sat_add64 total (f a)) 0 l.

Definition exact_total {A} (f : A → Z) (l : list A) : Z := foldr (λ a acc, f a + acc) 0 l.

Lemma sat_total_exact {A} (f : A → Z) (l : list A) :
  (∀ a, 0 ≤ f a) → exact_total f l ≤ U64_MAX → sat_total f l = exact_total f l.
Proof.
  intros Hf. unfold sat_total.
  enough (∀ t, 0 ≤ t → t + exact_total f l ≤ U64_MAX →
    foldl (λ total a, sat_add64 total (f a)) t l = t + exact_total f l) as Haux.
  { intros Hle. rewrite Haux; lia. }
  assert (∀ l', 0 ≤ exact_total f l') as Hnn.
  { induction l' as [|a l' IH]; simpl; [lia|]. specialize (Hf a). lia. }
  induction l as [|a l IH]; simpl; intros t Ht Hle; [lia|].
  pose proof (Hf a). pose proof (Hnn l).
  rewrite sat_add64_exact by lia. rewrite IH; lia.
Qed.

Lemma exact_total_nonneg {A} (f : A → Z) l : (∀ a, 0 ≤ f a) → 0 ≤ exact_total f l.
Proof. intros Hf. induction l as [|a l IH]; simpl; [lia|]. specialize (Hf a). lia. Qed.

Lemma exact_total_app {A} (f : A → Z) l1 l2 :
  exact_total f (l1 ++ l2) = exact_total f l1 + exact_total f l2.
Proof. induction l1 as [|a l1 IH]; simpl; [done|]. lia. Qed.

Lemma exact_total_perm {A} (f : A → Z) l1 l2 : l1 ≡ₚ l2 → exact_total f l1 = exact_total f l2.
Proof. induction 1; simpl; lia. Qed.

Lemma exact_total_map {K V} `{Countable K} (f : K → V → Z) (m : gmap K V) :
  exact_total (uncurry f) (map_to_list m) = map_sum f m.
Proof.
  rewrite map_sum_list. unfold exact_total.
  induction (map_to_list m) as [|[k v] l IH]; simpl; [done|]. by rewrite IH.
Qed.

(** Folding the entries of a map with a saturating addition, in any iteration order. *)
Lemma sat_total_map {K V} `{Countable K} (f : K → V → Z) (m : gmap K V) l :
  (∀ k v, 0 ≤ f k v) → l ≡ₚ map_to_list m → map_sum f m ≤ U64_MAX →
  sat_total (uncurry f) l = map_sum f m.
Proof.
  intros Hf Hl Hle. rewrite sat_total_exact.
  - by rewrite (exact_total_perm _ _ _ Hl), exact_total_map.
  - intros []. apply Hf.
  - by rewrite (exact_total_perm _ _ _ Hl), exact_total_map.
Qed.

Lemma map_sum_filter {K V} `{Countable K} (f : K → V → Z) (keep : K → V → bool) (m : gmap K V) :
  map_sum f (filter (λ '(k, v), keep k v = true) m) =
    map_sum f m - map_sum (λ k v, if keep k v then 0 else f k v) m.
Proof.
  induction m as [|k v m Hk IH] using map_ind.
  { rewrite map_filter_empty, !map_sum_empty. done. }
  rewrite !map_sum_insert by done. destruct (keep k v) eqn:Hkeep.
  - rewrite map_filter_insert_True by done. rewrite map_sum_insert; [lia|].
    rewrite map_lookup_filter_None. by left.
  - rewrite map_filter_insert_False by (rewrite Hkeep; done).
    rewrite delete_id by done. lia.
Qed.

(** [BTreeMap::last_key_value]. *)
Definition btree_last {K V} `{Countable K, OrdKey K} (m : gmap K V) : option (K * V) :=
  last (btree_iter m).

Lemma StronglySorted_last {A} (R : A → A → Prop) `{!Reflexive R} l x y :
  StronglySorted R l → last l = Some x → y ∈ l → R y x.
Proof.
  induction 1 as [|a l Hs IH Hall]; [done|]. rewrite last_cons, elem_of_cons.
  destruct (last l) as [z|] eqn:Hl.
  - intros [= ->] [->|Hy]; [|by apply IH].
    apply (proj1 (Forall_forall _ _) Hall). by apply last_Some_elem_of.
  - intros [= ->]. apply last_None in Hl. subst. by intros [->|?%elem_of_nil].
Qed.

Lemma btree_last_spec {K V} `{Countable K, OrdKey K} (m : gmap K V) :
  match btree_last m with
  | None => m = ∅
  | Some (k, v) => m !! k = Some v ∧ ∀ k' v', m !! k' = Some v' → key_le k' k
  end.
Proof.
  unfold btree_last. destruct (last (btree_iter m)) as [[k v]|] eqn:Hl.
  - split; [by apply elem_of_btree_iter, last_Some_elem_of|]. intros k' v' Hk'.
    apply elem_of_btree_iter in Hk'.
    apply (StronglySorted_last entry_le _ _ _ (btree_iter_sorted m) Hl Hk').
  - apply last_None in Hl. apply map_size_empty_iff. rewrite <-btree_iter_length. by rewrite Hl.
Qed.

(** Saturating arithmetic computes the exact value clamped to the type. *)
Definition clamp64 (z : Z) : Z := Z.min z U64_MAX.

Lemma clamp64_id z : z ≤ U64_MAX → clamp64 z = z.
Proof. unfold clamp64. lia. Qed.

Lemma sat_add64_clamp a b : 0 ≤ a → 0 ≤ b → sat_add64 (clamp64 a) (clamp64 b) = clamp64 (a + b).
Proof. assert (0 ≤ U64_MAX) by done. unfold sat_add64, clamp64. lia. Qed.

Lemma sat_total_clamp {A} (f g : A → Z) l :
  (∀ a, 0 ≤ f a) → (∀ a, g a = clamp64 (f a)) → sat_total g l = clamp64 (exact_total f l).
Proof.
  intros Hf Hg. unfold sat_total. replace 0 with (clamp64 0) by done.
  enough (∀ t, 0 ≤ t → foldl (λ total a, sat_add64 total (g a)) (clamp64 t) l =
    clamp64 (t + exact_total f l)) as -> by done.
  induction l as [|a l IH]; simpl; intros t Ht.
  - by rewrite Z.add_0_r.
  - rewrite Hg, sat_add64_clamp by auto. specialize (Hf a). rewrite IH by lia. f_equal. lia.
Qed.
