(* ===== verification/State.v ===== *)
(** * Stateful code

    Methods on [&mut self] are functions of a state monad over [run]: from the state to the state
    they leave and their result. A Rust loop is [loop] with fuel; [wp] is total correctness, and
    [wp_loop] its rule for loops, a decreasing measure and an invariant. *)

From S2P Require Import Prelude.

Definition stm (St A : Type) : Type := St → run (St * A).

#[export] Instance stm_ret {St} : MRet (stm St) := λ A a s, Ret (s, a).
#[export] Instance stm_bind {St} : MBind (stm St) := λ A B k m s,
  match m s with
  | Ret (s, a) => k a s
  | Panic => Panic
  | NoFuel => NoFuel
  end.

Section state.
Context {St : Type}.
Implicit Types (s : St).

Definition gets {A} (f : St → A) : stm St A := λ s, Ret (s, f s).
Definition lift_run {A} (f : St → run A) : stm St A := λ s, a ← f s; Ret (s, a).
Definition modify (f : St → St) : stm St unit := λ s, Ret (f s, tt).
Definition panic {A} : stm St A := λ _, Panic.
Definition out_of_fuel {A} : stm St A := λ _, NoFuel.

(** A loop: the body computes the next value of the loop's own variables and whether to go on. *)
Fixpoint loop {A} (fuel : nat) (body : A → stm St (A * bool)) (a : A) : stm St A :=
  match fuel with
  | O => out_of_fuel
  | S fuel =>
      '(a, again) ← body a;
      if again : bool then loop fuel body a else mret a
  end.

(** [m] returns from [s], and what it returns satisfies [Q]. *)
Definition wp {A} (m : stm St A) s (Q : A → St → Prop) : Prop := ∃ s' a, m s = Ret (s', a) ∧ Q a s'.

Lemma wp_ret {A} (a : A) s (Q : A → St → Prop) : Q a s → wp (mret a) s Q.
Proof. intros HQ. by exists s, a. Qed.

Lemma wp_bind {A B} (m : stm St A) (k : A → stm St B) s Q :
  wp m s (λ a s', wp (k a) s' Q) → wp (m ≫= k) s Q.
Proof.
  intros (s' & a & Hm & s'' & b & Hk & HQ). exists s'', b. split; [|done].
  unfold mbind, stm_bind. by rewrite Hm.
Qed.

Lemma wp_mono {A} (m : stm St A) s (Q Q' : A → St → Prop) :
  wp m s Q → (∀ a s', Q a s' → Q' a s') → wp m s Q'.
Proof. intros (s' & a & Hm & HQ) HQQ. exists s', a. eauto. Qed.

Lemma wp_gets {A} (f : St → A) s (Q : A → St → Prop) : Q (f s) s → wp (gets f) s Q.
Proof. intros HQ. by exists s, (f s). Qed.

Lemma wp_modify (f : St → St) s (Q : unit → St → Prop) : Q tt (f s) → wp (modify f) s Q.
Proof. intros HQ. by exists (f s), tt. Qed.

Lemma wp_Ret {A} (m : stm St A) s (Q : A → St → Prop) s' a : wp m s Q → m s = Ret (s', a) → Q a s'.
Proof. intros (s'' & a' & Hm & HQ). rewrite Hm. by intros [= -> ->]. Qed.

(** A computation that returns, with what it returned. *)
Lemma wp_eq {A} (m : stm St A) s s' a (Q : A → St → Prop) : m s = Ret (s', a) → Q a s' → wp m s Q.
Proof. intros. by exists s', a. Qed.

(** The rule of loops: [I] holds at the head of every round, and a round that goes on decreases
    [μ]. *)
Lemma wp_loop {A} (I : A → St → Prop) (μ : A → St → nat) (body : A → stm St (A * bool)) fuel a s Q :
  (∀ a s, I a s → wp (body a) s (λ r s',
     if r.2 : bool then I r.1 s' ∧ (μ r.1 s' < μ a s)%nat else Q r.1 s')) →
  I a s → (μ a s < fuel)%nat → wp (loop fuel body a) s Q.
Proof.
  intros Hbody. revert a s. induction fuel as [|fuel IH]; intros a s HI Hf; [lia|].
  cbn [loop]. apply wp_bind. eapply wp_mono; [by apply Hbody|].
  intros [a' []] s'; simpl; [|apply wp_ret]. intros [HI' Hμ]. apply IH; [done|lia].
Qed.

Lemma wp_lift_run {A} (f : St → run A) s a (Q : A → St → Prop) : f s = Ret a → Q a s → wp (lift_run f) s Q.
Proof. intros Hf HQ. exists s, a. unfold lift_run. by rewrite Hf. Qed.

End state.
