(* ===== verification/RustStr.v ===== *)
(** * Rust strings

    A Rust [&str] is its UTF-8 byte sequence, a Rocq [string]. This file holds the [str] methods
    the modelled code calls, written out as the standard library documents them, and their
    lemmas. *)

From Stdlib Require Export Ascii.
From S2P Require Import Prelude.

(** [u8::to_ascii_uppercase]. *)
Definition ascii_upper (c : ascii) : ascii :=
  let n := Ascii.N_of_ascii c in
  if (97 <=? n)%N && (n <=? 122)%N then Ascii.ascii_of_N (n - 32) else c.

Fixpoint to_ascii_uppercase (s : string) : string :=
  match s with
  | EmptyString => EmptyString
  | String c rest => String (ascii_upper c) (to_ascii_uppercase rest)
  end.

(** [str::strip_prefix]. *)
Fixpoint strip_prefix (prefix s : string) : option string :=
  match prefix, s with
  | EmptyString, _ => Some s
  | String a prefix', String b s' => if bool_decide (a = b) then strip_prefix prefix' s' else None
  | String _ _, EmptyString => None
  end.

(** The length of a [&str] in bytes. *)
Definition str_len (s : string) : Z := Z.of_nat (String.length s).

(** A UTF-8 continuation byte, [0x80..=0xBF]. *)
Definition is_continuation (c : ascii) : bool :=
  let n := Ascii.N_of_ascii c in (128 <=? n)%N && (n <=? 191)%N.

Definition starts_inside_char (s : string) : bool :=
  match s with String c _ => is_continuation c | EmptyString => false end.

(** [str::is_char_boundary]. *)
Definition is_char_boundary (s : string) (index : nat) : bool :=
  match index with
  | O => true
  | S _ =>
      match String.get index s with
      | Some c => negb (is_continuation c)
      | None => bool_decide (index = String.length s)
      end
  end.

(** [str::chars], each character given by its UTF-8 bytes: a byte and the continuation bytes
    that follow it. *)
Fixpoint utf8_chars (s : string) : list string :=
  match s with
  | EmptyString => []
  | String b rest =>
      match utf8_chars rest with
      | [] => [String b EmptyString]
      | chunk :: chunks =>
          if starts_inside_char chunk then String b chunk :: chunks
          else String b EmptyString :: chunk :: chunks
      end
  end.

(** [&s[..n]]. *)
Definition str_take (n : nat) (s : string) : string := String.substring 0 n s.


(** ** Splitting, joining and searching *)

(** [&s[n..]]. *)
Fixpoint str_drop (n : nat) (s : string) : string :=
  match n, s with
  | O, _ => s
  | S n, String _ rest => str_drop n rest
  | S _, EmptyString => EmptyString
  end.

Definition slash : ascii := "/"%char.

(** [s.split('/')]: at least one piece, and empty pieces between adjacent separators. *)
Fixpoint split_slash (s : string) : list string :=
  match s with
  | EmptyString => [""]
  | String c rest =>
      match split_slash rest with
      | [] => []
      | piece :: pieces =>
          if bool_decide (c = slash) then "" :: piece :: pieces else String c piece :: pieces
      end
  end.

(** [s.rfind('/')]. *)
Fixpoint rfind_slash (s : string) : option nat :=
  match s with
  | EmptyString => None
  | String c rest =>
      match rfind_slash rest with
      | Some i => Some (S i)
      | None => if bool_decide (c = slash) then Some O else None
      end
  end.

(** [s.contains('/')]. *)
Fixpoint has_slash (s : string) : bool :=
  match s with
  | EmptyString => false
  | String c rest => bool_decide (c = slash) || has_slash rest
  end.

(** [s.starts_with(prefix)]. *)
Definition starts_with (prefix s : string) : bool := bool_decide (is_Some (strip_prefix prefix s)).

Lemma append_cons c s t : (String c s +:+ t)%stdpp = String c (s +:+ t).
Proof. reflexivity. Qed.
Lemma append_nil_l t : (EmptyString +:+ t)%stdpp = t.
Proof. reflexivity. Qed.
Lemma append_nil_r s : (s +:+ EmptyString)%stdpp = s.
Proof. induction s as [|c s IH]; [done|]. by rewrite append_cons, IH. Qed.
Lemma append_assoc s t u : (s +:+ (t +:+ u))%stdpp = ((s +:+ t) +:+ u)%stdpp.
Proof. induction s as [|c s IH]; [done|]. by rewrite !append_cons, IH. Qed.
Lemma length_append s t : String.length (s +:+ t)%stdpp = (String.length s + String.length t)%nat.
Proof. induction s as [|c s IH]; [done|]. rewrite append_cons. simpl. by rewrite IH. Qed.

Lemma has_slash_append s t : has_slash (s +:+ t)%stdpp = has_slash s || has_slash t.
Proof.
  induction s as [|c s IH]; [done|]. rewrite append_cons. simpl. by rewrite IH, orb_assoc.
Qed.

Lemma split_slash_nonempty s : split_slash s ≠ [].
Proof.
  induction s as [|c s IH]; simpl; [done|]. destruct (split_slash s); [done|]. by case_bool_decide.
Qed.

Lemma split_slash_plain s : has_slash s = false → split_slash s = [s].
Proof.
  induction s as [|c s IH]; [done|]. simpl. intros [Hc Hs]%orb_false_iff. rewrite IH by done.
  by rewrite Hc.
Qed.

Lemma split_slash_app s t :
  has_slash s = false → split_slash (s +:+ String slash t)%stdpp = s :: split_slash t.
Proof.
  induction s as [|c s IH]; intros Hs.
  - rewrite append_nil_l. simpl. pose proof (split_slash_nonempty t). by destruct (split_slash t).
  - simpl in Hs. apply orb_false_iff in Hs as [Hc Hs]. rewrite append_cons. simpl.
    rewrite IH by done. by rewrite Hc.
Qed.

Lemma split_slash_pieces s : Forall (λ piece, has_slash piece = false) (split_slash s).
Proof.
  induction s as [|c s IH]; simpl; [by repeat constructor|].
  destruct (split_slash s) as [|piece pieces]; [done|]. apply Forall_cons in IH as [Hp IH].
  destruct (bool_decide (c = slash)) eqn:Hc; repeat constructor; try done. simpl. by rewrite Hc, Hp.
Qed.

Lemma rfind_slash_plain s : has_slash s = false → rfind_slash s = None.
Proof.
  induction s as [|c s IH]; [done|]. simpl. intros [Hc Hs]%orb_false_iff.
  rewrite IH by done. by rewrite Hc.
Qed.

Lemma rfind_slash_app s t :
  has_slash t = false → rfind_slash (s +:+ String slash t)%stdpp = Some (String.length s).
Proof.
  intros Ht. induction s as [|c s IH].
  - rewrite append_nil_l. simpl. by rewrite rfind_slash_plain.
  - rewrite append_cons. simpl. by rewrite IH.
Qed.

Lemma str_take_append s t : str_take (String.length s) (s +:+ t)%stdpp = s.
Proof.
  unfold str_take. induction s as [|c s IH]; [by destruct t|]. rewrite append_cons. simpl.
  by rewrite IH.
Qed.

Lemma str_drop_append s t : str_drop (String.length s) (s +:+ t)%stdpp = t.
Proof. induction s as [|c s IH]; [done|]. rewrite append_cons. simpl. done. Qed.

Lemma str_drop_S n c s : str_drop (S n) (String c s) = str_drop n s.
Proof. reflexivity. Qed.

Lemma strip_prefix_append prefix s : strip_prefix prefix (prefix +:+ s)%stdpp = Some s.
Proof.
  induction prefix as [|c prefix IH]; [by destruct s|]. rewrite append_cons. simpl.
  by rewrite bool_decide_eq_true_2.
Qed.

Lemma strip_prefix_Some prefix s rest :
  strip_prefix prefix s = Some rest → s = (prefix +:+ rest)%stdpp.
Proof.
  revert s. induction prefix as [|c prefix IH]; intros s; [by intros [= <-]|].
  destruct s as [|c' s]; [done|]. simpl. case_bool_decide as Hc; [|done]. subst.
  intros Hs. rewrite append_cons. f_equal. by apply IH.
Qed.

(** ** Characters

    A Rust [char] of a string is given by its UTF-8 bytes, as [utf8_chars] cuts them. *)

Definition utf8 (codes : list nat) : string :=
  foldr (λ code rest, String (Ascii.ascii_of_nat code) rest) EmptyString codes.

(** The characters with the [White_Space] property: [char::is_whitespace]. *)
Definition whitespace_chars : list string :=
  map utf8
    ([[9]; [10]; [11]; [12]; [13]; [32]; [194; 133]; [194; 160]; [225; 154; 128]]
     ++ map (λ last, [226; 128; last]) [128; 129; 130; 131; 132; 133; 134; 135; 136; 137; 138; 168; 169; 175]
     ++ [[226; 129; 159]; [227; 128; 128]])%nat.

Definition is_whitespace (c : string) : bool := bool_decide (c ∈ whitespace_chars).

(** The code of a one-byte character. *)
Definition char_code (c : string) : option N :=
  match c with String b EmptyString => Some (Ascii.N_of_ascii b) | _ => None end.

Definition in_range (lo hi n : N) : bool := ((lo <=? n) && (n <=? hi))%N.
Definition code_is (p : N → bool) (c : string) : bool :=
  match char_code c with Some n => p n | None => false end.

(** [char::is_ascii_digit], [char::is_ascii_alphabetic], [char::is_ascii_alphanumeric]. *)
Definition digit_code (n : N) : bool := in_range 48 57 n.
Definition alpha_code (n : N) : bool := in_range 65 90 n || in_range 97 122 n.
Definition is_ascii_digit : string → bool := code_is digit_code.
Definition is_ascii_alphabetic : string → bool := code_is alpha_code.
Definition is_ascii_alphanumeric (c : string) : bool := is_ascii_alphabetic c || is_ascii_digit c.

Fixpoint drop_while {A} (p : A → bool) (l : list A) : list A :=
  match l with [] => [] | x :: l' => if p x then drop_while p l' else l end.
Fixpoint take_while {A} (p : A → bool) (l : list A) : list A :=
  match l with [] => [] | x :: l' => if p x then x :: take_while p l' else [] end.

Lemma drop_take_while {A} (f : A → bool) l : drop (length (take_while f l)) l = drop_while f l.
Proof. induction l as [|x l IH]; simpl; [done|]. by destruct (f x). Qed.

(** [iter().collect::<String>()] of characters. *)
Definition collect (cs : list string) : string := String.concat "" cs.

(** [str::trim] and [str::trim_start]. *)
Definition trim_start (s : string) : string := collect (drop_while is_whitespace (utf8_chars s)).
Definition trim (s : string) : string :=
  collect (reverse (drop_while is_whitespace (reverse (drop_while is_whitespace (utf8_chars s))))).

(** ** Parsing integers *)

Definition digit_value (c : ascii) : option Z :=
  if digit_code (Ascii.N_of_ascii c) then Some (Z.of_N (Ascii.N_of_ascii c) - 48) else None.

(** The value of a string of decimal digits, [None] when a byte is not a digit. *)
Fixpoint decimal_value (s : string) (acc : Z) : option Z :=
  match s with
  | EmptyString => Some acc
  | String c rest => d ← digit_value c; decimal_value rest (acc * 10 + d)
  end.

Definition decimal (s : string) : option Z :=
  match s with EmptyString => None | _ => decimal_value s 0 end.

(** [str::parse] for an unsigned type with the given maximum: an optional [+] and digits. *)
Definition parse_unsigned (maximum : Z) (s : string) : option Z :=
  let digits := match s with String c rest => if bool_decide (c = "+"%char) then rest else s | _ => s end in
  v ← decimal digits;
  if v <=? maximum then Some v else None.

(** [str::parse] for a signed type with the given range: an optional sign and digits. *)
Definition parse_signed (lo hi : Z) (s : string) : option Z :=
  let '(sign, digits) :=
    match s with
    | String c rest =>
        if bool_decide (c = "+"%char) then (1, rest)
        else if bool_decide (c = "-"%char) then (-1, rest) else (1, s)
    | _ => (1, s)
    end in
  v ← decimal digits;
  if (lo <=? sign * v) && (sign * v <=? hi) then Some (sign * v) else None.

(** [str::parse::<i64>] and [str::parse::<i32>]. *)
Definition parse_i64 : string → option Z := parse_signed I64_MIN I64_MAX.
Definition parse_i32 : string → option Z := parse_signed (-2147483648) 2147483647.

(** [s.split_once(c)]. *)
Fixpoint split_once (sep : ascii) (s : string) : option (string * string) :=
  match s with
  | EmptyString => None
  | String c rest =>
      if bool_decide (c = sep) then Some (EmptyString, rest)
      else '(l, r) ← split_once sep rest; Some (String c l, r)
  end.

(** ** More methods of [str] *)

Definition dquote : string := String (Ascii.ascii_of_nat 34) EmptyString.
Definition newline : string := String (Ascii.ascii_of_nat 10) EmptyString.
Definition tab : string := String (Ascii.ascii_of_nat 9) EmptyString.

(** [s.strip_suffix(suffix)] and [s.ends_with(suffix)]. *)
Definition strip_suffix (suffix s : string) : option string :=
  let n := (String.length s - String.length suffix)%nat in
  if bool_decide (s = str_take n s +:+ suffix) then Some (str_take n s) else None.
Definition ends_with (suffix s : string) : bool := bool_decide (is_Some (strip_suffix suffix s)).

Lemma collect_cons c cs : collect (c :: cs) = c +:+ collect cs.
Proof. destruct cs as [|c' cs]; [|done]. simpl. by rewrite append_nil_r. Qed.

Lemma collect_app cs ds : collect (cs ++ ds) = collect cs +:+ collect ds.
Proof.
  induction cs as [|c cs IH]; [done|]. cbn [app]. by rewrite !collect_cons, IH, append_assoc.
Qed.

Lemma collect_utf8_chars s : collect (utf8_chars s) = s.
Proof.
  induction s as [|b s IH]; [done|]. cbn [utf8_chars]. destruct (utf8_chars s) as [|chunk chunks].
  - rewrite <-IH. done.
  - rewrite collect_cons in IH. case_match; rewrite !collect_cons; rewrite <-IH; done.
Qed.

(** A character below 128. *)
Definition ascii_char (c : string) : bool :=
  match c with String b EmptyString => (Ascii.N_of_ascii b <? 128)%N | _ => false end.

Lemma ascii_not_inside c : ascii_char c = true → starts_inside_char c = false.
Proof.
  unfold ascii_char. destruct c as [|b [|]]; try done. simpl. unfold is_continuation. intros Hc.
  apply N.ltb_lt in Hc. by rewrite (proj2 (N.leb_gt 128 (Ascii.N_of_ascii b))).
Qed.

Lemma utf8_chars_ascii l : forallb ascii_char l = true → utf8_chars (collect l) = l.
Proof.
  induction l as [|c l IH]; [done|]. cbn [forallb]. intros [Hc Hl]%andb_true_iff. rewrite collect_cons.
  unfold ascii_char in Hc. destruct c as [|b [|]]; try done. rewrite append_cons, append_nil_l. cbn [utf8_chars].
  rewrite IH by done. destruct l as [|c' l]; [done|].
  cbn [forallb] in Hl. apply andb_true_iff in Hl as [Hc' _]. by rewrite ascii_not_inside.
Qed.

(** The characters of a concatenation, when the second part starts a character. *)
Lemma utf8_chars_append s t :
  starts_inside_char t = false → utf8_chars (s +:+ t) = utf8_chars s ++ utf8_chars t.
Proof.
  intros Ht. induction s as [|b s IH]; [done|]. rewrite append_cons. cbn [utf8_chars]. rewrite IH.
  destruct (utf8_chars s) as [|chunk chunks]; [|simpl; by case_match].
  cbn [app]. destruct t as [|b' t]; [done|]. cbn [starts_inside_char] in Ht. cbn [utf8_chars].
  destruct (utf8_chars t) as [|c cs]; [|destruct (starts_inside_char c)];
    cbn [starts_inside_char app]; by rewrite Ht.
Qed.
