(* ===== verification/Resources.v ===== *)
(** * Resource accounting (src/src/resources.rs)

    CPU fuel, the modelled working set, the output guardrail and the per-command usage trace of
    one machine. Every method of [Resources] is a function on the [Resources] record; a charge
    returns the new state and whether it was granted. The theorems show that no sequence of
    operations takes a counter over its limit or outside [u64], that the first exhausted resource
    stops the machine for good, that charging fuel piecewise and at once agree, and that the usage
    trace keeps one entry per command. *)

From S2P Require Import Prelude.

(** ** Data *)

Definition COST_MODEL_VERSION : Z := 2.
Definition CPU_UNIT_NANOS : Z := 1000.

Record Limits := MkLimits {
  lim_cpu : Z;
  lim_memory : Z;
  lim_disk : Z;
  lim_output : Z
}.

Definition limits_unlimited : Limits := MkLimits U64_MAX U64_MAX U64_MAX U64_MAX.

Definition limits_default : Limits :=
  MkLimits 100000000 (64 * 1024 * 1024) (64 * 1024 * 1024) (4 * 1024 * 1024).

Inductive StopReason :=
| CpuExhausted
| MemoryExhausted
| OutputLimitExceeded.

#[export] Instance StopReason_eq_dec : EqDecision StopReason.
Proof. solve_decision. Defined.

Definition stop_exit_status (r : StopReason) : Z := 137.

Definition stop_reason_display (r : StopReason) : string :=
  match r with
  | CpuExhausted => "CPU exhausted"
  | MemoryExhausted => "memory exhausted"
  | OutputLimitExceeded => "output limit exceeded"
  end.

Record Usage := MkUsage {
  us_cpu_used : Z;
  us_memory_current : Z;
  us_memory_peak : Z;
  us_disk_current : Z;
  us_disk_peak : Z;
  us_output_bytes : Z
}.

Record CommandUsage := MkCommandUsage {
  cu_command : string;
  cu_cpu : Z;
  cu_disk_delta : Z
}.

Record RunOutcome := MkRunOutcome {
  ro_exit_status : Z;
  ro_interrupted : bool;
  ro_stop_reason : option StopReason;
  ro_limits : Limits;
  ro_usage : Usage;
  ro_command_usage : list CommandUsage;
  ro_cost_model_version : Z
}.

Record Resources := MkResources {
  rs_limits : Limits;
  rs_cpu_used : Z;
  rs_memory_current : Z;
  rs_memory_peak : Z;
  rs_output_bytes : Z;
  rs_stop_reason : option StopReason;
  rs_command_usage : list CommandUsage
}.

(** ** Operations *)

Definition resources_new (limits : Limits) : Resources :=
  MkResources limits 0 0 0 0 None [].

Definition set_cpu (r : Resources) (cpu : Z) (stop : option StopReason) : Resources :=
  MkResources (rs_limits r) cpu (rs_memory_current r) (rs_memory_peak r)
    (rs_output_bytes r) stop (rs_command_usage r).
Definition set_memory (r : Resources) (current peak : Z) (stop : option StopReason) : Resources :=
  MkResources (rs_limits r) (rs_cpu_used r) current peak
    (rs_output_bytes r) stop (rs_command_usage r).
Definition set_output (r : Resources) (output : Z) (stop : option StopReason) : Resources :=
  MkResources (rs_limits r) (rs_cpu_used r) (rs_memory_current r) (rs_memory_peak r)
    output stop (rs_command_usage r).
Definition set_usage (r : Resources) (usage : list CommandUsage) : Resources :=
  MkResources (rs_limits r) (rs_cpu_used r) (rs_memory_current r) (rs_memory_peak r)
    (rs_output_bytes r) (rs_stop_reason r) usage.

Definition is_stopped (r : Resources) : bool := bool_decide (is_Some (rs_stop_reason r)).

Definition charge_cpu (r : Resources) (units : Z) : Resources * bool :=
  if is_stopped r then (r, false) else
  match checked_add64 (rs_cpu_used r) units with
  | None => (set_cpu r (lim_cpu (rs_limits r)) (Some CpuExhausted), false)
  | Some next =>
      if lim_cpu (rs_limits r) <? next
      then (set_cpu r (lim_cpu (rs_limits r)) (Some CpuExhausted), false)
      else (set_cpu r next (rs_stop_reason r), true)
  end.

Definition reserve_memory (r : Resources) (n : Z) : Resources * bool :=
  if is_stopped r then (r, false) else
  match checked_add64 (rs_memory_current r) n with
  | None =>
      (set_memory r (rs_memory_current r) (rs_memory_peak r) (Some MemoryExhausted), false)
  | Some next =>
      if lim_memory (rs_limits r) <? next
      then (set_memory r (rs_memory_current r) (rs_memory_peak r) (Some MemoryExhausted), false)
      else (set_memory r next (Z.max (rs_memory_peak r) next) (rs_stop_reason r), true)
  end.

Definition memory_mark (r : Resources) : Z := rs_memory_current r.

Definition memory_remaining (r : Resources) : Z :=
  sat_sub (lim_memory (rs_limits r)) (rs_memory_current r).

Definition restore_memory (r : Resources) (mark : Z) : Resources :=
  set_memory r (Z.min mark (rs_memory_current r)) (rs_memory_peak r) (rs_stop_reason r).

Definition release_memory (r : Resources) (n : Z) : Resources :=
  set_memory r (sat_sub (rs_memory_current r) n) (rs_memory_peak r) (rs_stop_reason r).

Definition charge_output (r : Resources) (n : Z) : Resources * bool :=
  if is_stopped r then (r, false) else
  match checked_add64 (rs_output_bytes r) n with
  | None => (set_output r (rs_output_bytes r) (Some OutputLimitExceeded), false)
  | Some next =>
      if lim_output (rs_limits r) <? next
      then (set_output r (lim_output (rs_limits r)) (Some OutputLimitExceeded), false)
      else (set_output r next (rs_stop_reason r), true)
  end.

Definition output_remaining (r : Resources) : Z :=
  sat_sub (lim_output (rs_limits r)) (rs_output_bytes r).

Definition cpu_remaining (r : Resources) : Z :=
  sat_sub (lim_cpu (rs_limits r)) (rs_cpu_used r).

Definition process_time_ns (r : Resources) : Z := sat_mul64 (rs_cpu_used r) CPU_UNIT_NANOS.

(** [i64::saturating_add]. *)
Definition sat_add_i64 (a b : Z) : Z := Z.max I64_MIN (Z.min I64_MAX (a + b)).

(** [iter_mut().find(..)] followed by the in-place update, or the push of a new entry. *)
Fixpoint add_command_usage (command : string) (cpu disk_delta : Z) (usage : list CommandUsage)
    : list CommandUsage :=
  match usage with
  | [] => [MkCommandUsage command cpu disk_delta]
  | u :: rest =>
      if bool_decide (cu_command u = command)
      then MkCommandUsage (cu_command u) (sat_add64 (cu_cpu u) cpu)
             (sat_add_i64 (cu_disk_delta u) disk_delta) :: rest
      else u :: add_command_usage command cpu disk_delta rest
  end.

Definition record_command (r : Resources) (command : string)
    (cpu_before disk_before disk_after : Z) : Resources :=
  let cpu := sat_sub (rs_cpu_used r) cpu_before in
  (* both operands are u64 values widened to i128, so the i128 subtraction is exact *)
  let disk_delta := wrap64 (disk_after - disk_before) in
  set_usage r (add_command_usage command cpu disk_delta (rs_command_usage r)).

Definition outcome (r : Resources) (exit_status disk_current disk_peak : Z) : RunOutcome :=
  {| ro_interrupted := false;
     ro_exit_status := from_option stop_exit_status exit_status (rs_stop_reason r);
     ro_stop_reason := rs_stop_reason r;
     ro_limits := rs_limits r;
     ro_usage :=
       {| us_cpu_used := rs_cpu_used r;
          us_memory_current := rs_memory_current r;
          us_memory_peak := rs_memory_peak r;
          us_disk_current := disk_current;
          us_disk_peak := disk_peak;
          us_output_bytes := rs_output_bytes r |};
     ro_command_usage := rs_command_usage r;
     ro_cost_model_version := COST_MODEL_VERSION |}.

(** ** The operations as one step relation

    Arguments are the [u64] values the callers pass. *)

Inductive resources_op :=
| OpChargeCpu (units : Z)
| OpReserveMemory (n : Z)
| OpRestoreMemory (mark : Z)
| OpReleaseMemory (n : Z)
| OpChargeOutput (n : Z)
| OpRecordCommand (command : string) (cpu_before disk_before disk_after : Z).

Definition resources_step (r : Resources) (op : resources_op) : Resources :=
  match op with
  | OpChargeCpu n => (charge_cpu r n).1
  | OpReserveMemory n => (reserve_memory r n).1
  | OpRestoreMemory mark => restore_memory r mark
  | OpReleaseMemory n => release_memory r n
  | OpChargeOutput n => (charge_output r n).1
  | OpRecordCommand c cb db da => record_command r c cb db da
  end.

Definition op_args_u64 (op : resources_op) : Prop :=
  match op with
  | OpChargeCpu n | OpReserveMemory n | OpReleaseMemory n | OpChargeOutput n => in_u64 n
  | OpRestoreMemory mark => in_u64 mark
  | OpRecordCommand _ cb db da => in_u64 cb ∧ in_u64 db ∧ in_u64 da
  end.

Definition resources_run (r : Resources) (ops : list resources_op) : Resources :=
  foldl resources_step r ops.

(** ** Invariant *)

Definition limits_wf (l : Limits) : Prop :=
  in_u64 (lim_cpu l) ∧ in_u64 (lim_memory l) ∧ in_u64 (lim_disk l) ∧ in_u64 (lim_output l).

Record resources_wf (r : Resources) : Prop := {
  rwf_limits : limits_wf (rs_limits r);
  rwf_cpu : 0 ≤ rs_cpu_used r ≤ lim_cpu (rs_limits r);
  rwf_memory : 0 ≤ rs_memory_current r ≤ rs_memory_peak r;
  rwf_peak : rs_memory_peak r ≤ lim_memory (rs_limits r);
  rwf_output : 0 ≤ rs_output_bytes r ≤ lim_output (rs_limits r);
  rwf_trace : NoDup (cu_command <$> rs_command_usage r);
  rwf_trace_range : Forall (λ u, in_u64 (cu_cpu u) ∧ in_i64 (cu_disk_delta u))
    (rs_command_usage r)
}.

Lemma add_command_usage_commands command cpu delta usage :
  cu_command <$> add_command_usage command cpu delta usage =
    if bool_decide (command ∈ (cu_command <$> usage))
    then cu_command <$> usage else (cu_command <$> usage) ++ [command].
Proof.
  induction usage as [|u rest IH]; simpl; [done|].
  repeat case_bool_decide; simplify_eq/=; rewrite ?IH; repeat case_bool_decide; set_solver.
Qed.

Lemma add_command_usage_NoDup command cpu delta usage :
  NoDup (cu_command <$> usage) →
  NoDup (cu_command <$> add_command_usage command cpu delta usage).
Proof.
  intros Hnd. rewrite add_command_usage_commands. case_bool_decide; [done|].
  apply NoDup_app; split; [done|]. split; [set_solver|apply NoDup_singleton].
Qed.

Lemma add_command_usage_range command cpu delta usage :
  in_u64 cpu → in_i64 delta →
  Forall (λ u, in_u64 (cu_cpu u) ∧ in_i64 (cu_disk_delta u)) usage →
  Forall (λ u, in_u64 (cu_cpu u) ∧ in_i64 (cu_disk_delta u))
    (add_command_usage command cpu delta usage).
Proof.
  intros Hc Hd. induction 1 as [|u rest [Hu Hv] Hrest IH]; simpl.
  - by constructor.
  - case_bool_decide; constructor; simpl; auto. unfold sat_add_i64. mach.
Qed.

Lemma resources_step_wf r op : resources_wf r → op_args_u64 op → resources_wf (resources_step r op).
Proof.
  intros [(? & ? & ? & ?) ? ? ? ? ? ?] Hop.
  destruct op; simpl in *;
    unfold charge_cpu, reserve_memory, charge_output, restore_memory, release_memory,
      record_command;
    repeat case_step; split; simpl; unfold limits_wf; simpl; auto;
    try (apply add_command_usage_NoDup; done);
    try (apply add_command_usage_range; [mach|apply wrap64_range|done]);
    try (match goal with H : checked_add64 _ _ = Some _ |- _ =>
           apply checked_add64_Some in H as [-> ?] end); mach.
Qed.

Lemma resources_run_wf r ops :
  resources_wf r → Forall op_args_u64 ops → resources_wf (resources_run r ops).
Proof.
  unfold resources_run. intros Hr Hops. revert r Hr.
  induction Hops as [|op ops Hop Hops IH]; simpl; auto using resources_step_wf.
Qed.

Lemma resources_new_wf limits : limits_wf limits → resources_wf (resources_new limits).
Proof. intros (? & ? & ? & ?). split; simpl; unfold limits_wf; auto; try constructor; mach. Qed.

(** whatever sequence of operations a run performs on a fresh machine, CPU use, memory,
    memory peak and output never exceed the configured limits, the trace holds one entry per
    command, and every counter stays inside its machine type. *)
Theorem resources_never_exceed_limits limits ops :
  limits_wf limits → Forall op_args_u64 ops →
  resources_wf (resources_run (resources_new limits) ops).
Proof. intros. apply resources_run_wf; auto using resources_new_wf. Qed.

Lemma resources_never_exceed_limits_witness :
  resources_wf (resources_run (resources_new limits_default)
    [OpChargeCpu 6; OpReserveMemory 70000000; OpChargeOutput 12;
     OpRecordCommand "ls" 0 10 4]) ∧
  rs_stop_reason (resources_run (resources_new limits_default)
    [OpChargeCpu 6; OpReserveMemory 70000000; OpChargeOutput 12]) = Some MemoryExhausted.
Proof.
  split; [|reflexivity].
  apply resources_never_exceed_limits;
    [unfold limits_wf|repeat constructor]; simpl; mach.
Defined.

(** ** Stopping *)

Lemma is_stopped_true r : is_stopped r = true ↔ is_Some (rs_stop_reason r).
Proof. apply bool_decide_eq_true. Qed.

Lemma is_stopped_false r : is_stopped r = false ↔ rs_stop_reason r = None.
Proof. unfold is_stopped. rewrite bool_decide_eq_false, <- eq_None_not_Some. done. Qed.

(** What stopping freezes: the reason, the spent fuel, the emitted output and the limits; the
    working set can only shrink. *)
Definition stop_frozen (r r' : Resources) : Prop :=
  rs_stop_reason r' = rs_stop_reason r ∧ rs_cpu_used r' = rs_cpu_used r ∧
  rs_output_bytes r' = rs_output_bytes r ∧ rs_limits r' = rs_limits r ∧
  rs_memory_peak r' = rs_memory_peak r ∧ rs_memory_current r' ≤ rs_memory_current r.

#[export] Instance stop_frozen_preorder : PreOrder stop_frozen.
Proof.
  split.
  - intros r. unfold stop_frozen. repeat split; lia.
  - intros r1 r2 r3. unfold stop_frozen. intros. destruct_and!. repeat split; try congruence. lia.
Qed.

Lemma resources_step_stopped r op :
  resources_wf r → op_args_u64 op → is_stopped r = true → stop_frozen r (resources_step r op).
Proof.
  intros Hwf Hop Hs. destruct Hwf.
  destruct op; simpl in *; unfold charge_cpu, reserve_memory, charge_output; rewrite ?Hs;
    unfold stop_frozen; simpl; repeat split; try done; mach.
Qed.

(** the first exhausted resource stops the machine for good. After that no operation changes
    the stop reason, the CPU and output counters or the memory peak, the working set only
    shrinks, every further charge is refused, and the run reports exit status 137 whatever
    status the program had. *)
Theorem resources_stop_is_final r ops :
  resources_wf r → Forall op_args_u64 ops → is_stopped r = true →
  stop_frozen r (resources_run r ops) ∧
  (∀ n, (charge_cpu (resources_run r ops) n).2 = false ∧
        (reserve_memory (resources_run r ops) n).2 = false ∧
        (charge_output (resources_run r ops) n).2 = false) ∧
  (∀ status dc dp, ro_exit_status (outcome (resources_run r ops) status dc dp) = 137).
Proof.
  intros Hwf Hops Hs.
  assert (stop_frozen r (resources_run r ops)) as Hfr.
  { unfold resources_run. revert r Hwf Hs.
    induction Hops as [|op ops Hop Hops IH]; intros r Hwf Hs; simpl; [done|].
    pose proof (resources_step_stopped r op Hwf Hop Hs) as Hst.
    etrans; [exact Hst|]. apply IH; [by apply resources_step_wf|].
    apply is_stopped_true. destruct Hst as [-> _]. by apply is_stopped_true. }
  assert (is_stopped (resources_run r ops) = true) as Hs'.
  { apply is_stopped_true. destruct Hfr as [-> _]. by apply is_stopped_true. }
  split; [done|]. split.
  - intros n. unfold charge_cpu, reserve_memory, charge_output. by rewrite Hs'.
  - intros status dc dp. unfold outcome; simpl.
    apply is_stopped_true in Hs' as [reason ->]. done.
Qed.

Definition cpu_stopped_example : Resources :=
  resources_run (resources_new (MkLimits 10 100 100 100)) [OpChargeCpu 6; OpChargeCpu 5].

Lemma resources_stop_is_final_witness :
  rs_cpu_used (resources_run cpu_stopped_example [OpChargeCpu 1; OpReserveMemory 1]) = 10 ∧
  rs_stop_reason (resources_run cpu_stopped_example [OpChargeCpu 1; OpReserveMemory 1])
    = Some CpuExhausted.
Proof.
  destruct (resources_stop_is_final cpu_stopped_example [OpChargeCpu 1; OpReserveMemory 1])
    as [(Hr & Hc & _) _].
  - apply resources_run_wf; [apply resources_new_wf; unfold limits_wf; simpl; mach|].
    repeat constructor; simpl; mach.
  - repeat constructor; simpl; mach.
  - reflexivity.
  - rewrite Hr, Hc. split; reflexivity.
Defined.

(** ** Charging fuel *)

(** A loop that charges one amount per iteration. *)
Definition charge_cpu_each (r : Resources) (units : list Z) : Resources :=
  foldl (λ r n, (charge_cpu r n).1) r units.

Lemma charge_cpu_each_stopped r units : is_stopped r = true → charge_cpu_each r units = r.
Proof.
  intros Hs. unfold charge_cpu_each. induction units as [|n units IH]; simpl; [done|].
  unfold charge_cpu. by rewrite Hs.
Qed.

Lemma charge_cpu_granted r n :
  is_stopped r = false → lim_cpu (rs_limits r) ≤ U64_MAX →
  rs_cpu_used r + n ≤ lim_cpu (rs_limits r) →
  charge_cpu r n = (set_cpu r (rs_cpu_used r + n) (rs_stop_reason r), true).
Proof.
  intros Hs Hl Hn. unfold charge_cpu, checked_add64. rewrite Hs.
  repeat case_step; try done; mach.
Qed.

Lemma charge_cpu_refused r n :
  is_stopped r = false → lim_cpu (rs_limits r) ≤ U64_MAX →
  lim_cpu (rs_limits r) < rs_cpu_used r + n →
  charge_cpu r n = (set_cpu r (lim_cpu (rs_limits r)) (Some CpuExhausted), false).
Proof.
  intros Hs Hl Hn. unfold charge_cpu, checked_add64. rewrite Hs.
  repeat case_step; try done; mach.
Qed.

(** metering is compositional. Charging a list of amounts one after the other leaves the
    machine in exactly the state that charging their sum once leaves it in, exhaustion
    included. *)
Theorem charge_cpu_piecewise r units :
  resources_wf r → Forall (λ n, 0 ≤ n) units →
  charge_cpu_each r units = (charge_cpu r (exact_total id units)).1.
Proof.
  intros [(? & ? & ? & ?) ? ? ? ? ? ?] Hu.
  destruct (is_stopped r) eqn:Hs.
  { rewrite charge_cpu_each_stopped by done. unfold charge_cpu. by rewrite Hs. }
  assert (∀ l, Forall (λ n, 0 ≤ n) l → 0 ≤ exact_total id l) as Hnn.
  { induction 1; simpl; unfold id in *; lia. }
  enough (∀ used, rs_cpu_used r ≤ used ≤ lim_cpu (rs_limits r) →
    charge_cpu_each (set_cpu r used None) units
      = (charge_cpu (set_cpu r used None) (exact_total id units)).1) as Haux.
  { replace r with (set_cpu r (rs_cpu_used r) None) at 1 2;
      [apply Haux; lia|].
    apply is_stopped_false in Hs. destruct r; unfold set_cpu; simpl in *. by subst. }
  clear Hs.
  induction Hu as [|n units Hn Hu IH]; intros used Hused; simpl.
  - rewrite charge_cpu_granted by (simpl; done || mach). simpl.
    unfold set_cpu; simpl. by rewrite Z.add_0_r.
  - specialize (Hnn _ Hu). change (id n) with n.
    destruct (decide (used + n ≤ lim_cpu (rs_limits r))) as [Hle|Hgt].
    + rewrite (charge_cpu_granted _ n) by (simpl; done || mach). simpl.
      change (set_cpu (set_cpu r used None) (used + n) None) with (set_cpu r (used + n) None).
      rewrite IH by lia. unfold charge_cpu, checked_add64; simpl.
      by rewrite <- Z.add_assoc.
    + rewrite (charge_cpu_refused _ n) by (simpl; done || mach).
      rewrite (charge_cpu_refused _ (n + _)) by (simpl; done || mach). simpl.
      by rewrite charge_cpu_each_stopped.
Qed.

Lemma charge_cpu_piecewise_witness :
  charge_cpu_each (resources_new (MkLimits 10 100 100 100)) [3; 4; 5]
    = (charge_cpu (resources_new (MkLimits 10 100 100 100)) 12).1.
Proof.
  apply (charge_cpu_piecewise _ [3; 4; 5]).
  - apply resources_new_wf. unfold limits_wf; simpl; mach.
  - repeat constructor; lia.
Defined.

(** ** The working set *)

(** Reserve each amount in turn; the result says whether all were granted. *)
Fixpoint reserve_each (r : Resources) (ns : list Z) : Resources * bool :=
  match ns with
  | [] => (r, true)
  | n :: rest =>
      let '(r', granted) := reserve_memory r n in
      if granted then reserve_each r' rest else (r', false)
  end.

Definition release_memory_each (r : Resources) (ns : list Z) : Resources := foldl release_memory r ns.

Lemma amounts_nonneg ns : Forall (λ n, 0 ≤ n) ns → 0 ≤ exact_total id ns.
Proof. induction 1; simpl; unfold id in *; lia. Qed.

Lemma reserve_memory_granted r n r' :
  reserve_memory r n = (r', true) →
  rs_memory_current r' = rs_memory_current r + n ∧
  rs_memory_peak r' = Z.max (rs_memory_peak r) (rs_memory_current r + n) ∧
  rs_stop_reason r' = rs_stop_reason r ∧ rs_cpu_used r' = rs_cpu_used r.
Proof.
  unfold reserve_memory. repeat case_step; intros [= <-].
  apply checked_add64_Some in Heqo as [-> _]. done.
Qed.

Lemma reserve_each_granted r ns r' :
  Forall (λ n, 0 ≤ n) ns → rs_memory_current r ≤ rs_memory_peak r →
  reserve_each r ns = (r', true) →
  rs_memory_current r' = rs_memory_current r + exact_total id ns ∧
  rs_memory_peak r' = Z.max (rs_memory_peak r) (rs_memory_current r + exact_total id ns).
Proof.
  intros Hns. revert r. induction Hns as [|n ns Hn Hns IH]; simpl; intros r Hle.
  - intros [= <-]. lia.
  - destruct (reserve_memory r n) as [r1 []] eqn:E; [|done].
    apply reserve_memory_granted in E as (Hc & Hp & _). intros Hr.
    apply IH in Hr as [-> ->]; [|lia]. pose proof (amounts_nonneg _ Hns).
    rewrite Hc, Hp. unfold id in *. lia.
Qed.

Lemma release_memory_each_current r ns :
  Forall (λ n, 0 ≤ n) ns → exact_total id ns ≤ rs_memory_current r →
  rs_memory_current (release_memory_each r ns) = rs_memory_current r - exact_total id ns.
Proof.
  intros Hns. unfold release_memory_each. revert r.
  induction Hns as [|n ns Hn Hns IH]; simpl; intros r Hle; [lia|].
  pose proof (amounts_nonneg _ Hns). unfold id in *.
  rewrite IH; simpl; rewrite sat_sub_exact; lia.
Qed.

(** independently owned reservations can be given back in any order. When a batch of
    reservations is granted, releasing the same amounts in any permutation returns the working
    set exactly to its size before the batch, and the peak records the whole batch. *)
Theorem memory_reservations_balance r ns ms r' :
  resources_wf r → Forall (λ n, 0 ≤ n) ns → ns ≡ₚ ms →
  reserve_each r ns = (r', true) →
  rs_memory_current (release_memory_each r' ms) = memory_mark r ∧
  rs_memory_peak r' = Z.max (rs_memory_peak r) (memory_mark r + exact_total id ns).
Proof.
  intros [? ? ? ? ? ? ?] Hns Hperm Hres. unfold memory_mark.
  apply reserve_each_granted in Hres as [Hc Hp]; [|done|lia].
  split; [|done].
  assert (Forall (λ n, 0 ≤ n) ms) by (by rewrite <- Hperm).
  rewrite release_memory_each_current; [|done|].
  - rewrite Hc, (exact_total_perm id ns ms) by done. lia.
  - rewrite Hc, (exact_total_perm id ns ms) by done. lia.
Qed.

Lemma memory_reservations_balance_witness :
  rs_memory_current (release_memory_each
    (reserve_each (resources_new limits_default) [10; 20]).1 [20; 10]) = 0.
Proof.
  refine (proj1 (memory_reservations_balance (resources_new limits_default)
    [10; 20] [20; 10] _ _ _ _ _)).
  - apply resources_new_wf. unfold limits_wf; simpl; mach.
  - repeat constructor; lia.
  - apply Permutation_swap.
  - reflexivity.
Defined.
