(* ===== verification/Process.v ===== *)
(** * Logical processes (src/src/process.rs)

    Signals, process records, the process table and the controlling terminal. The table is a map
    from PID to record, as the source's [BTreeMap]; iteration is in PID order. The theorems show
    that PIDs are never reused and the table stays bounded and consistent, that [process_tree]
    terminates with exactly the retained descendants, and that signal names and wait statuses
    decode to what was encoded. *)

From S2P Require Import Prelude.
From S2P Require Import RustStr.

(** ** Labels *)

Definition MAX_PROCESSES : Z := 1024.
Definition MAX_COMMAND_BYTES : Z := 4096.

(** The inner loop of [command_label]: push characters while they fit; [true] when the
    limit stopped it ([break 'arguments]). *)
Fixpoint push_chars (label : string) (chars : list string) : string * bool :=
  match chars with
  | [] => (label, false)
  | c :: rest =>
      if MAX_COMMAND_BYTES <? str_len label + str_len c then (label, true)
      else push_chars (label +:+ c) rest
  end.

(** The outer loop, with [first] for [index == 0]. *)
Fixpoint push_arguments (label : string) (first : bool) (argv : list string) : string :=
  match argv with
  | [] => label
  | argument :: rest =>
      if negb first && (str_len label =? MAX_COMMAND_BYTES) then label else
      let label := if first then label else label +:+ " " in
      match push_chars label (utf8_chars argument) with
      | (label, true) => label
      | (label, false) => push_arguments label false rest
      end
  end.

Definition command_label (argv : list string) : string := push_arguments "" true argv.

(** [while !command.is_char_boundary(end) { end -= 1 }]. *)
Fixpoint floor_boundary (command : string) (end_ : nat) : nat :=
  if is_char_boundary command end_ then end_
  else match end_ with O => O | S e => floor_boundary command e end.

Definition truncate_label (command : string) : string :=
  if str_len command <=? MAX_COMMAND_BYTES then command
  else str_take (floor_boundary command (Z.to_nat MAX_COMMAND_BYTES)) command.

(** ** Signals *)

Inductive Signal :=
| Hangup | Interrupt | Kill | User1 | User2 | Pipe | Terminate | Child | Continue | Stop
| FileSize.

#[export] Instance Signal_eq_dec : EqDecision Signal.
Proof. solve_decision. Defined.

Definition signal_number (s : Signal) : Z :=
  match s with
  | Hangup => 1 | Interrupt => 2 | Kill => 9 | User1 => 10 | User2 => 12 | Pipe => 13
  | Terminate => 15 | Child => 17 | Continue => 18 | Stop => 19 | FileSize => 25
  end.

Definition signal_terminates (s : Signal) : bool :=
  match s with
  | Hangup | Interrupt | Kill | User1 | User2 | Pipe | Terminate | FileSize => true
  | _ => false
  end.

Definition signal_name (s : Signal) : string :=
  match s with
  | Hangup => "HUP" | Interrupt => "INT" | Kill => "KILL" | User1 => "USR1" | User2 => "USR2"
  | Pipe => "PIPE" | Terminate => "TERM" | Child => "CHLD" | Continue => "CONT"
  | Stop => "STOP" | FileSize => "XFSZ"
  end.

Definition signal_parse (value : string) : option Signal :=
  let upper := to_ascii_uppercase value in
  let key := default upper (strip_prefix "SIG" upper) in
  if bool_decide (key = "1") || bool_decide (key = "HUP") then Some Hangup
  else if bool_decide (key = "2") || bool_decide (key = "INT") then Some Interrupt
  else if bool_decide (key = "9") || bool_decide (key = "KILL") then Some Kill
  else if bool_decide (key = "10") || bool_decide (key = "USR1") then Some User1
  else if bool_decide (key = "12") || bool_decide (key = "USR2") then Some User2
  else if bool_decide (key = "13") || bool_decide (key = "PIPE") then Some Pipe
  else if bool_decide (key = "15") || bool_decide (key = "TERM") then Some Terminate
  else if bool_decide (key = "17") || bool_decide (key = "CHLD") then Some Child
  else if bool_decide (key = "18") || bool_decide (key = "CONT") then Some Continue
  else if bool_decide (key = "19") || bool_decide (key = "STOP") then Some Stop
  else if bool_decide (key = "25") || bool_decide (key = "XFSZ") then Some FileSize
  else None.

(** ** Process records *)

Inductive ProcessStatus :=
| Running
| Stopped (signal : Signal)
| Exited (code : Z).

#[export] Instance ProcessStatus_eq_dec : EqDecision ProcessStatus.
Proof. solve_decision. Defined.

Definition has_exited (s : ProcessStatus) : bool :=
  match s with Exited _ => true | _ => false end.

Inductive ChildCompletion :=
| CompletedExit (code : Z)
| CompletedSignal (signal : Signal).

Definition wait_status (c : ChildCompletion) : Z :=
  match c with
  | CompletedExit code => Z.shiftl (Z.land code 255) 8
  | CompletedSignal signal => signal_number signal
  end.

Record ProcessRecord := MkProcessRecord {
  pr_pid : Z;
  pr_ppid : Z;
  pr_uid : Z;
  pr_process_group : Z;
  pr_session_id : Z;
  pr_command : string;
  pr_cwd : string;
  pr_environment : gmap string string;
  pr_descriptors : gmap Z string;
  pr_status : ProcessStatus;
  pr_terminating_signal : option Signal
}.

Inductive ChildPlacement :=
| Inherit
| NewProcessGroup
| NewSession.

Record ProcessTable := MkProcessTable {
  pt_next_pid : Z;
  pt_records : gmap Z ProcessRecord
}.

Record ControllingTerminal := MkControllingTerminal {
  ct_session_id : Z;
  ct_foreground_group : Z
}.

(** ** Operations of the table *)

Definition process_table_new (root_pid : Z) (cwd : string) (env : gmap string string)
    : ProcessTable :=
  {| pt_next_pid := Z.min (root_pid + 1) U32_MAX;
     pt_records := {[ root_pid :=
       {| pr_pid := root_pid; pr_ppid := 0; pr_uid := 0; pr_process_group := root_pid;
          pr_session_id := root_pid; pr_command := "bash"; pr_cwd := cwd;
          pr_environment := env; pr_descriptors := ∅; pr_status := Running;
          pr_terminating_signal := None |} ]} |}.

Definition I32_MAX : Z := 2147483647.

(** The PID counter is advanced before the parent is looked up, so a spawn under an unknown
    parent consumes a PID. *)
Definition process_spawn (t : ProcessTable) (ppid : Z) (placement : ChildPlacement)
    (command cwd : string) (env : gmap string string) : ProcessTable * option Z :=
  if (MAX_PROCESSES <=? Z.of_nat (size (pt_records t))) || (I32_MAX <? pt_next_pid t)
  then (t, None) else
  let command := truncate_label command in
  let pid := pt_next_pid t in
  match checked_add32 (pt_next_pid t) 1 with
  | None => (t, None)
  | Some next =>
      match pt_records t !! ppid with
      | None => (MkProcessTable next (pt_records t), None)
      | Some parent =>
          let '(process_group, session_id) :=
            match placement with
            | Inherit => (pr_process_group parent, pr_session_id parent)
            | NewProcessGroup => (pid, pr_session_id parent)
            | NewSession => (pid, pid)
            end in
          (MkProcessTable next (<[pid :=
             {| pr_pid := pid; pr_ppid := ppid; pr_uid := pr_uid parent;
                pr_process_group := process_group; pr_session_id := session_id;
                pr_command := command; pr_cwd := cwd; pr_environment := env;
                pr_descriptors := ∅; pr_status := Running;
                pr_terminating_signal := None |}]> (pt_records t)), Some pid)
      end
  end.

(** [if let Some(record) = self.records.get_mut(&pid) { .. }]. *)
Definition update_record (t : ProcessTable) (pid : Z) (f : ProcessRecord → ProcessRecord)
    : ProcessTable :=
  MkProcessTable (pt_next_pid t) (alter f pid (pt_records t)).

Definition with_status (r : ProcessRecord) (s : ProcessStatus) : ProcessRecord :=
  MkProcessRecord (pr_pid r) (pr_ppid r) (pr_uid r) (pr_process_group r) (pr_session_id r)
    (pr_command r) (pr_cwd r) (pr_environment r) (pr_descriptors r) s
    (pr_terminating_signal r).
Definition with_cwd_env (r : ProcessRecord) (cwd : string) (env : gmap string string)
    : ProcessRecord :=
  MkProcessRecord (pr_pid r) (pr_ppid r) (pr_uid r) (pr_process_group r) (pr_session_id r)
    (pr_command r) cwd env (pr_descriptors r) (pr_status r) (pr_terminating_signal r).

Definition set_command (t : ProcessTable) (pid : Z) (command : string) : ProcessTable :=
  update_record t pid (λ r,
    MkProcessRecord (pr_pid r) (pr_ppid r) (pr_uid r) (pr_process_group r) (pr_session_id r)
      command (pr_cwd r) (pr_environment r) (pr_descriptors r) (pr_status r)
      (pr_terminating_signal r)).

Definition set_uid (t : ProcessTable) (pid uid : Z) : ProcessTable :=
  update_record t pid (λ r,
    MkProcessRecord (pr_pid r) (pr_ppid r) uid (pr_process_group r) (pr_session_id r)
      (pr_command r) (pr_cwd r) (pr_environment r) (pr_descriptors r) (pr_status r)
      (pr_terminating_signal r)).

Definition process_exit (t : ProcessTable) (pid status : Z) (cwd : string) : ProcessTable :=
  update_record t pid (λ r,
    with_status (with_cwd_env r cwd (pr_environment r)) (Exited status)).

Definition mark_signal_termination (t : ProcessTable) (pid : Z) (signal : Signal)
    : ProcessTable :=
  update_record t pid (λ r,
    MkProcessRecord (pr_pid r) (pr_ppid r) (pr_uid r) (pr_process_group r) (pr_session_id r)
      (pr_command r) (pr_cwd r) (pr_environment r) (pr_descriptors r) (pr_status r)
      (Some signal)).

Definition completion (t : ProcessTable) (pid : Z) : option ChildCompletion :=
  match pt_records t !! pid with
  | None => None
  | Some r =>
      match pr_status r with
      | Exited code =>
          Some (match pr_terminating_signal r with
                | Some s => CompletedSignal s
                | None => CompletedExit code
                end)
      | _ => None
      end
  end.

Definition process_stop (t : ProcessTable) (pid : Z) (signal : Signal) : ProcessTable :=
  update_record t pid (λ r, if has_exited (pr_status r) then r else with_status r (Stopped signal)).

Definition continue_process (t : ProcessTable) (pid : Z) : ProcessTable :=
  update_record t pid (λ r,
    match pr_status r with Stopped _ => with_status r Running | _ => r end).

Definition update_current (t : ProcessTable) (pid : Z) (cwd : string) (env : gmap string string)
    : ProcessTable :=
  update_record t pid (λ r, with_cwd_env r cwd env).

Definition update_descriptors (t : ProcessTable) (pid : Z) (descriptors : gmap Z string)
    : ProcessTable :=
  update_record t pid (λ r,
    MkProcessRecord (pr_pid r) (pr_ppid r) (pr_uid r) (pr_process_group r) (pr_session_id r)
      (pr_command r) (pr_cwd r) (pr_environment r) descriptors (pr_status r)
      (pr_terminating_signal r)).

Definition process_reap (t : ProcessTable) (pid : Z) : ProcessTable * option ProcessRecord :=
  match pt_records t !! pid with
  | None => (t, None)
  | Some r =>
      if has_exited (pr_status r)
      then (MkProcessTable (pt_next_pid t) (delete pid (pt_records t)), Some r)
      else (t, None)
  end.

(** ** Queries *)

Definition process_iter (t : ProcessTable) : list ProcessRecord := btree_values (pt_records t).

Definition running_group (t : ProcessTable) (process_group : Z) : list Z :=
  pr_pid <$> filter (λ r, pr_process_group r = process_group ∧ pr_status r = Running)
    (process_iter t).

Definition live_group (t : ProcessTable) (process_group : Z) : list Z :=
  pr_pid <$> filter (λ r, pr_process_group r = process_group ∧ has_exited (pr_status r) = false)
    (process_iter t).

Definition set_foreground (term : ControllingTerminal) (t : ProcessTable) (process_group : Z)
    : ControllingTerminal * bool :=
  let valid := existsb (λ r,
    negb (has_exited (pr_status r)) && bool_decide (pr_session_id r = ct_session_id term)
      && bool_decide (pr_process_group r = process_group)) (process_iter t) in
  if valid then (MkControllingTerminal (ct_session_id term) process_group, true)
  else (term, false).

(** The inner [for] of [process_tree]: append each child of [parent] not yet selected. *)
Definition select_children (parent : Z) (records : list ProcessRecord) (selected : list Z)
    : list Z :=
  foldl (λ sel r,
    if bool_decide (pr_ppid r = parent) && negb (bool_decide (pr_pid r ∈ sel))
    then sel ++ [pr_pid r] else sel) selected records.

(** [while index < selected.len()]. *)
Fixpoint tree_loop (fuel : nat) (records : list ProcessRecord) (selected : list Z) (index : nat)
    : run (list Z) :=
  match fuel with
  | O => NoFuel
  | S fuel =>
      match selected !! index with
      | None => Ret selected
      | Some parent =>
          tree_loop fuel records (select_children parent records selected) (S index)
      end
  end.

Definition process_tree (t : ProcessTable) (root : Z) : run (list Z) :=
  selected ← tree_loop (size (pt_records t) + 2) (process_iter t) [root] 0;
  Ret (merge_sort Z.le (filter (λ pid, is_Some (pt_records t !! pid)) selected)).

Definition live_process_tree (t : ProcessTable) (root : Z) : run (list Z) :=
  tree ← process_tree t root;
  Ret (filter (λ pid,
    match pt_records t !! pid with
    | Some r => negb (has_exited (pr_status r))
    | None => false
    end = true) tree).

(** ** Invariant: bounded table, no PID reuse *)

Inductive process_op :=
| OpSpawn (ppid : Z) (placement : ChildPlacement) (command cwd : string) (env : gmap string string)
| OpSetCommand (pid : Z) (command : string)
| OpSetUid (pid uid : Z)
| OpExit (pid status : Z) (cwd : string)
| OpMarkSignal (pid : Z) (signal : Signal)
| OpStop (pid : Z) (signal : Signal)
| OpContinue (pid : Z)
| OpUpdateCurrent (pid : Z) (cwd : string) (env : gmap string string)
| OpUpdateDescriptors (pid : Z) (descriptors : gmap Z string)
| OpReap (pid : Z).

Definition process_step (t : ProcessTable) (op : process_op) : ProcessTable * option Z :=
  match op with
  | OpSpawn ppid pl cmd cwd env => process_spawn t ppid pl cmd cwd env
  | OpSetCommand pid cmd => (set_command t pid cmd, None)
  | OpSetUid pid uid => (set_uid t pid uid, None)
  | OpExit pid st cwd => (process_exit t pid st cwd, None)
  | OpMarkSignal pid s => (mark_signal_termination t pid s, None)
  | OpStop pid s => (process_stop t pid s, None)
  | OpContinue pid => (continue_process t pid, None)
  | OpUpdateCurrent pid cwd env => (update_current t pid cwd env, None)
  | OpUpdateDescriptors pid d => (update_descriptors t pid d, None)
  | OpReap pid => ((process_reap t pid).1, None)
  end.

(** Run the operations in order, collecting the PIDs that the spawns returned. *)
Fixpoint process_run (t : ProcessTable) (ops : list process_op) : ProcessTable * list Z :=
  match ops with
  | [] => (t, [])
  | op :: rest =>
      let '(t1, spawned) := process_step t op in
      let '(t2, pids) := process_run t1 rest in
      (t2, option_list spawned ++ pids)
  end.

Record process_table_wf (t : ProcessTable) : Prop := {
  ptwf_next : 1 ≤ pt_next_pid t ≤ U32_MAX;
  ptwf_pid : ∀ pid r, pt_records t !! pid = Some r → pr_pid r = pid ∧ 0 ≤ pid < pt_next_pid t;
  ptwf_size : Z.of_nat (size (pt_records t)) ≤ MAX_PROCESSES
}.

Lemma update_record_wf t pid f :
  (∀ r, pr_pid (f r) = pr_pid r) → process_table_wf t → process_table_wf (update_record t pid f).
Proof.
  intros Hf [? Hpid Hsz]. split; simpl; [done| |].
  - intros p r. rewrite lookup_alter. case_decide; [subst|apply Hpid].
    intros (r0 & Hr & ->)%fmap_Some. rewrite Hf. by apply Hpid.
  - by rewrite <- size_dom, dom_alter_L, size_dom.
Qed.

Lemma process_spawn_cases t ppid pl cmd cwd env t' o :
  process_table_wf t →
  process_spawn t ppid pl cmd cwd env = (t', o) →
  match o with
  | None => t' = t ∨
      (pt_records t !! ppid = None ∧ t' = MkProcessTable (pt_next_pid t + 1) (pt_records t) ∧
       pt_next_pid t ≤ I32_MAX)
  | Some pid =>
      pid = pt_next_pid t ∧ pid ≤ I32_MAX ∧ Z.of_nat (size (pt_records t)) < MAX_PROCESSES ∧
      ∃ parent r, pt_records t !! ppid = Some parent ∧
        t' = MkProcessTable (pid + 1) (<[pid := r]> (pt_records t)) ∧
        pr_pid r = pid ∧ pr_ppid r = ppid ∧ pr_uid r = pr_uid parent ∧ pr_status r = Running ∧
        pr_terminating_signal r = None ∧ pr_command r = truncate_label cmd ∧
        (pr_process_group r, pr_session_id r) =
          match pl with
          | Inherit => (pr_process_group parent, pr_session_id parent)
          | NewProcessGroup => (pid, pr_session_id parent)
          | NewSession => (pid, pid)
          end
  end.
Proof.
  intros Hwf. unfold process_spawn. destruct (_ || _) eqn:Hfull; [intros [= <- <-]; by left|].
  destruct (checked_add32 _ _) as [next|] eqn:Hn; [|intros [= <- <-]; by left].
  apply checked_add32_Some in Hn as [-> _].
  destruct (pt_records t !! ppid) as [parent|] eqn:Hp.
  - bool_to_prop.
    destruct pl; intros [= <- <-]; (split; [done|]; split; [lia|]; split; [lia|]);
      exists parent; eexists; (split; [done|]); (split; [reflexivity|]); split_and!; reflexivity.
  - intros [= <- <-]. bool_to_prop. right. split_and!; [done..|lia].
Qed.

Lemma process_step_wf t op t' o :
  process_table_wf t → process_step t op = (t', o) →
  process_table_wf t' ∧ pt_next_pid t ≤ pt_next_pid t' ∧
  ∀ pid, o = Some pid → pid = pt_next_pid t ∧ pt_next_pid t' = pid + 1.
Proof.
  intros Hwf Hstep. pose proof Hwf as [Hn Hpid Hsz].
  destruct op; simpl in Hstep;
    try (injection Hstep as <- <-; split; [by apply update_record_wf|];
         split; [simpl; lia|by intros]).
  - apply process_spawn_cases in Hstep; [|done]. destruct o as [pid|].
    + destruct Hstep as (-> & Hi & Hlt & parent & r & Hpar & -> & Hr & _).
      assert (pt_records t !! pt_next_pid t = None) as Hfresh.
      { destruct (pt_records t !! pt_next_pid t) eqn:E; [|done]. apply Hpid in E. lia. }
      split; [|simpl; split; [lia|intros ? [= <-]; lia]]. split; simpl.
      * unfold I32_MAX in *. mach.
      * intros p r'. rewrite lookup_insert. case_decide as E.
        -- intros [= <-]. subst. lia.
        -- intros Hp%Hpid. lia.
      * rewrite map_size_insert_None by done. lia.
    + destruct Hstep as [->|(Hno & -> & Hi)]; [split; [done|split; [lia|done]]|].
      split; [|split; [simpl; lia|done]]. split; simpl; [unfold I32_MAX in *; mach| |done].
      intros p r Hp%Hpid. lia.
  - apply update_record_wf with (pid := pid) (f := λ r, if has_exited (pr_status r) then r
      else with_status r (Stopped signal)) in Hwf; [|intros r; by destruct (has_exited _)].
    injection Hstep as <- <-. split; [done|]. split; [simpl; lia|done].
  - apply update_record_wf with (pid := pid) (f := λ r,
      match pr_status r with Stopped _ => with_status r Running | _ => r end) in Hwf;
      [|intros r; by destruct (pr_status r)].
    injection Hstep as <- <-. split; [done|]. split; [simpl; lia|done].
  - injection Hstep as <- <-. unfold process_reap.
    destruct (pt_records t !! pid) as [r|] eqn:Hr; [|split; [done|split; [simpl; lia|done]]].
    destruct (has_exited _); simpl; [|split; [done|split; [lia|done]]].
    split; [|split; [lia|done]]. split; simpl; [done| |].
    + intros p r'. rewrite lookup_delete_Some. intros [_ ?]. by apply Hpid.
    + rewrite map_size_delete_Some by eauto. lia.
Qed.

Lemma process_run_wf t ops t' pids :
  process_table_wf t → process_run t ops = (t', pids) →
  process_table_wf t' ∧ StronglySorted Z.lt pids ∧ Forall (λ pid, pt_next_pid t ≤ pid) pids ∧
  Forall (λ pid, pid < pt_next_pid t') pids ∧ pt_next_pid t ≤ pt_next_pid t'.
Proof.
  revert t pids. induction ops as [|op ops IH]; simpl; intros t pids Hwf.
  { intros [= <- <-]. split_and!; try done; constructor. }
  destruct (process_step t op) as [t1 o] eqn:Hs.
  destruct (process_run t1 ops) as [t2 ps] eqn:Hrun. intros [= -> <-].
  apply process_step_wf in Hs as (Hwf1 & Hle & Ho); [|done].
  apply IH in Hrun as (Hwf2 & Hsorted & Hlow & Hhigh & Hle2); [|done].
  destruct o as [pid|]; simpl.
  - destruct (Ho pid eq_refl) as [-> Hn1]. split_and!; try done; try lia.
    + constructor; [done|]. eapply Forall_impl; [exact Hlow|]. simpl. intros; lia.
    + constructor; [lia|]. eapply Forall_impl; [exact Hlow|]. simpl. intros; lia.
    + constructor; [lia|]. done.
  - split_and!; try done; try lia. eapply Forall_impl; [exact Hlow|]. simpl. intros; lia.
Qed.

Lemma process_table_new_wf root cwd env :
  0 ≤ root < U32_MAX → process_table_wf (process_table_new root cwd env).
Proof.
  intros Hroot. split; simpl; [mach| |].
  - intros pid r [<- <-]%lookup_singleton_Some. simpl. mach.
  - rewrite map_size_singleton. unfold MAX_PROCESSES. lia.
Qed.

Lemma process_run_new_wf root cwd env ops :
  0 ≤ root < U32_MAX → process_table_wf (process_run (process_table_new root cwd env) ops).1.
Proof.
  intros Hroot. destruct (process_run _ ops) as [t pids] eqn:E.
  by eapply process_run_wf; [apply process_table_new_wf|].
Qed.

(** PIDs are never reused. Along any sequence of table operations from a fresh table, spawns
    return strictly increasing PIDs above the root, reaping included, the table never holds more
    than [MAX_PROCESSES] records, and each record sits under its own PID. *)
Theorem pids_never_reused root cwd env ops t pids :
  0 ≤ root < U32_MAX →
  process_run (process_table_new root cwd env) ops = (t, pids) →
  process_table_wf t ∧ StronglySorted Z.lt (root :: pids).
Proof.
  intros Hroot Hrun.
  apply process_run_wf in Hrun as (Hwf' & Hsorted & Hlow & _); [|by apply process_table_new_wf].
  split; [done|]. constructor; [done|].
  eapply Forall_impl; [exact Hlow|]. simpl. intros; mach.
Qed.

Lemma pids_never_reused_witness :
  (process_run (process_table_new 1000 "/" ∅)
    [OpSpawn 1000 Inherit "a" "/" ∅; OpExit 1001 0 "/"; OpReap 1001;
     OpSpawn 7 Inherit "b" "/" ∅; OpSpawn 1000 NewSession "c" "/" ∅]).2 = [1001; 1003] ∧
  StronglySorted Z.lt [1000; 1001; 1003].
Proof.
  split; [vm_compute; reflexivity|].
  refine (proj2 (pids_never_reused 1000 "/" ∅
    [OpSpawn 1000 Inherit "a" "/" ∅; OpExit 1001 0 "/"; OpReap 1001;
     OpSpawn 7 Inherit "b" "/" ∅; OpSpawn 1000 NewSession "c" "/" ∅] _ _ _ _)).
  - mach.
  - vm_compute. reflexivity.
Defined.

(** ** Process trees *)

(** [b] is a retained record whose parent is [a]. *)
Definition child_of (t : ProcessTable) (a b : Z) : Prop :=
  ∃ r, pt_records t !! b = Some r ∧ pr_ppid r = a.

Lemma elem_of_process_iter t r :
  process_table_wf t → r ∈ process_iter t ↔ pt_records t !! pr_pid r = Some r.
Proof.
  intros Hwf. unfold process_iter, btree_values. rewrite list_elem_of_fmap. split.
  - intros ([p r'] & -> & Hin). apply elem_of_btree_iter in Hin. simpl.
    destruct (ptwf_pid t Hwf _ _ Hin) as [-> _]. done.
  - intros Hr. exists (pr_pid r, r). by rewrite elem_of_btree_iter.
Qed.

Lemma select_children_elem parent records sel x :
  x ∈ select_children parent records sel ↔
  x ∈ sel ∨ ∃ r, r ∈ records ∧ pr_ppid r = parent ∧ pr_pid r = x.
Proof.
  unfold select_children. revert sel. induction records as [|r rs IH]; intros sel; simpl.
  { set_solver. }
  rewrite IH. destruct (bool_decide (pr_ppid r = parent)) eqn:E1; simpl.
  - destruct (bool_decide (pr_pid r ∈ sel)) eqn:E2; simpl; bool_to_prop; set_solver.
  - bool_to_prop. set_solver.
Qed.

Lemma select_children_NoDup parent records sel :
  NoDup sel → NoDup (select_children parent records sel).
Proof.
  unfold select_children. revert sel. induction records as [|r rs IH]; intros sel Hnd; simpl.
  { done. }
  apply IH. destruct (_ && _) eqn:E; [|done]. bool_to_prop.
  apply NoDup_app. split_and!; [done|set_solver|apply NoDup_singleton].
Qed.

Lemma select_children_prefix parent records sel :
  sel `prefix_of` select_children parent records sel.
Proof.
  unfold select_children. revert sel. induction records as [|r rs IH]; intros sel; simpl.
  { done. }
  etrans; [|apply IH]. case_match; [apply prefix_app_r|]; done.
Qed.

(** What the loop has established when it has processed the first [index] selected PIDs. *)
Record tree_inv (t : ProcessTable) (root : Z) (selected : list Z) (index : nat) : Prop := {
  ti_nodup : NoDup selected;
  ti_root : root ∈ selected;
  ti_reach : ∀ x, x ∈ selected → rtc (child_of t) root x;
  ti_known : ∀ x, x ∈ selected → x = root ∨ is_Some (pt_records t !! x);
  ti_closed : ∀ i x y, (i < index)%nat → selected !! i = Some x → child_of t x y → y ∈ selected
}.

Lemma tree_inv_step t root selected index parent :
  process_table_wf t → tree_inv t root selected index → selected !! index = Some parent →
  tree_inv t root (select_children parent (process_iter t) selected) (S index).
Proof.
  intros Hwf [Hnd Hroot Hreach Hknown Hclosed] Hp. split.
  - by apply select_children_NoDup.
  - apply select_children_elem. by left.
  - intros x [Hx|(r & Hr & Hpp & <-)]%select_children_elem; [by apply Hreach|].
    apply elem_of_process_iter in Hr; [|done].
    eapply rtc_r; [apply Hreach; by eapply list_elem_of_lookup_2|]. by exists r.
  - intros x [Hx|(r & Hr & Hpp & <-)]%select_children_elem; [by apply Hknown|].
    apply elem_of_process_iter in Hr; [|done]. right. eauto.
  - intros i x y Hi Hx [r [Hr Hpp]]. apply select_children_elem.
    assert (selected !! i = Some x) as Hx'.
    { rewrite <- Hx. eapply prefix_lookup_lt; [|apply select_children_prefix].
      apply lookup_lt_Some in Hp. lia. }
    destruct (decide (i = index)) as [->|Hne].
    + assert (parent = x) as -> by congruence. right. exists r.
      destruct (ptwf_pid t Hwf _ _ Hr) as [Hpid _]. rewrite elem_of_process_iter by done.
      by rewrite Hpid.
    + left. eapply Hclosed; [|exact Hx'|by exists r]. lia.
Qed.

Lemma tree_inv_length t root selected index :
  tree_inv t root selected index → (length selected ≤ S (size (pt_records t)))%nat.
Proof.
  intros [Hnd _ _ Hknown _].
  assert (list_to_set selected ⊆@{gset Z} {[root]} ∪ dom (pt_records t)) as Hsub.
  { intros x Hx%elem_of_list_to_set. destruct (Hknown x Hx) as [->|Hs]; [set_solver|].
    apply elem_of_union_r, elem_of_dom. done. }
  apply subseteq_size in Hsub. rewrite size_list_to_set in Hsub by done.
  etrans; [exact Hsub|]. rewrite size_union_alt, size_singleton.
  assert (size (dom (pt_records t) ∖ {[root]}) ≤ size (dom (pt_records t)))%nat
    by (apply subseteq_size; set_solver).
  rewrite size_dom in *. lia.
Qed.

Lemma tree_loop_spec t root fuel selected index :
  process_table_wf t → tree_inv t root selected index →
  (index ≤ length selected)%nat → (fuel + index = size (pt_records t) + 2)%nat →
  ∃ sel, tree_loop fuel (process_iter t) selected index = Ret sel ∧
         tree_inv t root sel (length sel).
Proof.
  intros Hwf. revert selected index.
  induction fuel as [|fuel IH]; intros selected index Hinv Hle Hfuel; simpl.
  - pose proof (tree_inv_length _ _ _ _ Hinv). lia.
  - destruct (selected !! index) as [parent|] eqn:Hp.
    + apply IH; [by apply tree_inv_step| |lia].
      apply lookup_lt_Some in Hp.
      pose proof (prefix_length _ _ (select_children_prefix parent (process_iter t) selected)).
      lia.
    + exists selected. split; [done|]. destruct Hinv as [? ? ? ? Hclosed]. split; try done.
      intros i x y _ Hx. eapply Hclosed; [|exact Hx].
      apply lookup_ge_None in Hp. apply lookup_lt_Some in Hx. lia.
Qed.

Lemma tree_inv_init t root : tree_inv t root [root] 0.
Proof.
  split; try lia.
  - apply NoDup_singleton.
  - set_solver.
  - intros x ->%list_elem_of_singleton. done.
  - intros x ->%list_elem_of_singleton. by left.
Qed.

(** A completed selection is closed under children, hence holds every descendant. *)
Lemma tree_inv_complete t root sel x :
  tree_inv t root sel (length sel) → rtc (child_of t) root x → x ∈ sel.
Proof.
  intros [_ Hroot _ _ Hclosed] Hrtc. revert x Hrtc. apply rtc_ind_r; [done|].
  intros y z _ Hyz Hy. apply list_elem_of_lookup in Hy as [i Hi].
  eapply Hclosed; [|exact Hi|exact Hyz]. by eapply lookup_lt_Some.
Qed.

Lemma live_tree_returns t root : process_table_wf t → ∃ tree, live_process_tree t root = Ret tree.
Proof.
  intros Hwf. unfold live_process_tree, process_tree.
  destruct (tree_loop_spec t root (size (pt_records t) + 2) [root] 0)
    as (sel & -> & _); [done|apply tree_inv_init|simpl; lia|lia|]. by eexists.
Qed.

(** [process_tree] terminates and returns, in strictly increasing PID order, exactly the
    retained processes that descend from the root through parent links (the root itself
    included when it is retained). *)
Theorem process_tree_exact t root :
  process_table_wf t →
  ∃ tree, process_tree t root = Ret tree ∧ StronglySorted Z.lt tree ∧
    ∀ pid, pid ∈ tree ↔ is_Some (pt_records t !! pid) ∧ rtc (child_of t) root pid.
Proof.
  intros Hwf. unfold process_tree.
  destruct (tree_loop_spec t root (size (pt_records t) + 2) [root] 0)
    as (sel & -> & Hinv); [done|apply tree_inv_init|simpl; lia|lia|]. simpl.
  set (kept := filter _ sel). eexists; split; [reflexivity|].
  assert (∀ pid, pid ∈ merge_sort Z.le kept ↔
    is_Some (pt_records t !! pid) ∧ rtc (child_of t) root pid) as Helem.
  { intros pid. rewrite merge_sort_Permutation. unfold kept. rewrite list_elem_of_filter.
    split; intros [Hs Hx]; (split; [done|]).
    - by apply (ti_reach _ _ _ _ Hinv).
    - by apply (tree_inv_complete t root). }
  split; [|done].
  assert (NoDup (merge_sort Z.le kept)) as Hnd.
  { rewrite merge_sort_Permutation. apply NoDup_filter, Hinv. }
  pose proof (StronglySorted_merge_sort Z.le kept) as Hs. revert Hnd Hs. clear.
  induction (merge_sort Z.le kept) as [|x l IH]; intros Hnd Hs; [constructor|].
  apply NoDup_cons in Hnd as [Hx Hnd]. apply StronglySorted_inv in Hs as [Hs Hall].
  constructor; [auto|]. rewrite Forall_forall in *. intros y Hy. specialize (Hall y Hy).
  assert (x ≠ y) by (intros ->; done). lia.
Qed.

Definition tree_example : ProcessTable :=
  (process_run (process_table_new 1000 "/" ∅)
    [OpSpawn 1000 Inherit "a" "/" ∅; OpSpawn 1001 Inherit "b" "/" ∅;
     OpSpawn 1000 Inherit "c" "/" ∅; OpSpawn 1002 Inherit "d" "/" ∅;
     OpExit 1002 0 "/"; OpReap 1002]).1.

Lemma process_tree_exact_witness :
  process_tree tree_example 1001 = Ret [1001] ∧
  (∃ tree, process_tree tree_example 1000 = Ret tree ∧ StronglySorted Z.lt tree).
Proof.
  split; [vm_compute; reflexivity|].
  assert (process_table_wf tree_example) as Hwf by (apply process_run_new_wf; mach).
  destruct (process_tree_exact tree_example 1000 Hwf) as (tree & Htree & Hs & _).
  exists tree. split; [exact Htree|exact Hs].
Defined.

(** ** Signals and wait statuses *)

(** The decimal spelling of each signal number. *)
Definition signal_decimal (s : Signal) : string :=
  match s with
  | Hangup => "1" | Interrupt => "2" | Kill => "9" | User1 => "10" | User2 => "12"
  | Pipe => "13" | Terminate => "15" | Child => "17" | Continue => "18" | Stop => "19"
  | FileSize => "25"
  end.

(** a signal specification is accepted exactly when, up to ASCII case and an optional [SIG]
    prefix, it is the name or the decimal number of a modelled signal, and it denotes that
    signal. In particular every name parses back to its signal. *)
Theorem signal_parse_exact value s :
  signal_parse value = Some s ↔
  default (to_ascii_uppercase value) (strip_prefix "SIG" (to_ascii_uppercase value))
    ∈ [signal_name s; signal_decimal s].
Proof.
  unfold signal_parse.
  set (key := default _ _). clearbody key. split.
  - intros H. repeat (case_match; [match goal with E : _ = true |- _ => revert E end;
      rewrite orb_true_iff, !bool_decide_eq_true; intros Hk; injection H as <-; set_solver|]).
    done.
  - rewrite !elem_of_cons. intros [->|[->|[]%elem_of_nil]]; destruct s; reflexivity.
Qed.

(** The POSIX accessors of a wait status: [WIFSIGNALED]/[WTERMSIG] read the low seven bits,
    [WEXITSTATUS] the next byte. *)
Definition wait_termsig (status : Z) : Z := Z.land status 127.
Definition wait_exitstatus (status : Z) : Z := Z.land (Z.shiftr status 8) 255.

(** The wait status keeps a death by signal apart from an exit with code [128 + n]: the low
    seven bits are the signal number of a signalled child and zero for an exited one, and the
    next byte is the low byte of the exit code. *)
Theorem wait_status_decodes c :
  match c with
  | CompletedExit code =>
      wait_termsig (wait_status c) = 0 ∧ wait_exitstatus (wait_status c) = code mod 256
  | CompletedSignal s =>
      wait_termsig (wait_status c) = signal_number s ∧ 0 < signal_number s < 127
  end.
Proof.
  destruct c as [code|s]; [|destruct s; vm_compute; split_and!; done].
  unfold wait_termsig, wait_exitstatus, wait_status. split.
  - apply Z.bits_inj'. intros n Hn. rewrite Z.land_spec, Z.bits_0.
    destruct (decide (n < 8)).
    + by rewrite Z.shiftl_spec_low by lia.
    + rewrite (Z.bits_above_log2 127 n); [apply andb_false_r|lia|]. simpl. lia.
  - rewrite Z.shiftr_shiftl_l, Z.sub_diag, Z.shiftl_0_r, <- Z.land_assoc, Z.land_diag by lia.
    change 255 with (Z.ones 8). by rewrite Z.land_ones.
Qed.
