(* ===== verification/Clock.v ===== *)
(** * Virtual time (src/src/clock.rs)

    The [Timeline]: a monotonic clock that only jumps forward, a wall clock that is an offset from
    it, the pending events ordered by deadline and insertion sequence, and the queue of events
    that have fired. The theorems show that the clock never rewinds and the event store stays
    bounded with unique identities, that [advance_to] fires exactly the due events in stable
    order, that the loop of [block_task] always ends and at which instant, and that cancelling a
    task's events touches no other event. *)

From S2P Require Import Prelude.
From S2P Require Import RustStr.
From S2P Require Import Process.

Definition NANOS_PER_MICROSECOND : Z := 1000.
Definition NANOS_PER_MILLISECOND : Z := 1000000.
Definition NANOS_PER_SECOND : Z := 1000000000.
Definition DEFAULT_EPOCH_UTC_NS : Z := 1735689600000000000.
Definition MAIN_TASK_ID : Z := 0.

(** ** Events *)

Record EventId := MkEventId {
  ev_deadline_ns : Z;
  ev_sequence : Z
}.

#[export] Instance EventId_eq_dec : EqDecision EventId.
Proof. solve_decision. Defined.
#[export] Program Instance EventId_countable : Countable EventId :=
  inj_countable' (λ e, (ev_deadline_ns e, ev_sequence e)) (λ p, MkEventId p.1 p.2) _.
Next Obligation. by intros []. Qed.

(** The derived order: deadline first, then insertion sequence. *)
Definition event_le (a b : EventId) : Prop :=
  ev_deadline_ns a < ev_deadline_ns b ∨
  (ev_deadline_ns a = ev_deadline_ns b ∧ ev_sequence a ≤ ev_sequence b).

#[export] Instance event_le_dec : RelDecision event_le.
Proof. intros a b. unfold event_le. apply _. Defined.

#[export] Program Instance EventId_ord : OrdKey EventId := {| key_le := event_le |}.
Next Obligation.
  unfold event_le. split; [split|].
  - intros a. lia.
  - intros a b c. lia.
  - intros [d s] [d' s']; simpl. intros ? ?. f_equal; lia.
Qed.
Next Obligation. unfold event_le. intros a b. lia. Qed.

Inductive EventKind :=
| WakeTask (task : Z)
| Deadline (task : Z)
| SignalTask (task : Z) (signal : Signal) (descendants : bool)
| External (source payload : string).

#[export] Instance EventKind_eq_dec : EqDecision EventKind.
Proof. solve_decision. Defined.

Record ScheduledEvent := MkScheduledEvent {
  se_id : EventId;
  se_kind : EventKind
}.

#[export] Instance ScheduledEvent_eq_dec : EqDecision ScheduledEvent.
Proof. solve_decision. Defined.

Record TimelineLimits := MkTimelineLimits {
  tl_max_pending_events : Z;
  tl_max_event_horizon_ns : Z
}.

Definition timeline_limits_default : TimelineLimits :=
  MkTimelineLimits 16384 (100 * 365 * 24 * 60 * 60 * NANOS_PER_SECOND).

Inductive TimelineError :=
| Overflow
| WouldRewind (now_ns requested_ns : Z)
| EventLimit (limit : Z)
| EventBeyondHorizon (horizon_ns : Z).

#[export] Instance TimelineError_eq_dec : EqDecision TimelineError.
Proof. solve_decision. Defined.

Inductive BlockOutcome :=
| Completed
| Interrupted (event : ScheduledEvent).

(** ** State *)

Record Timeline := MkTimeline {
  tm_monotonic_ns : Z;
  tm_epoch_utc_ns : Z;
  tm_wall_adjustment_ns : Z;
  tm_next_sequence : Z;
  tm_pending : gmap EventId EventKind;
  tm_ready : list ScheduledEvent;
  tm_limits : TimelineLimits;
  tm_slept_ns : Z
}.

Definition tm_set_monotonic (t : Timeline) (now : Z) : Timeline :=
  MkTimeline now (tm_epoch_utc_ns t) (tm_wall_adjustment_ns t) (tm_next_sequence t)
    (tm_pending t) (tm_ready t) (tm_limits t) (tm_slept_ns t).
Definition tm_set_events (t : Timeline) (pending : gmap EventId EventKind)
    (ready : list ScheduledEvent) : Timeline :=
  MkTimeline (tm_monotonic_ns t) (tm_epoch_utc_ns t) (tm_wall_adjustment_ns t)
    (tm_next_sequence t) pending ready (tm_limits t) (tm_slept_ns t).
Definition tm_set_sequence (t : Timeline) (next : Z) : Timeline :=
  MkTimeline (tm_monotonic_ns t) (tm_epoch_utc_ns t) (tm_wall_adjustment_ns t) next
    (tm_pending t) (tm_ready t) (tm_limits t) (tm_slept_ns t).
Definition tm_set_slept (t : Timeline) (slept : Z) : Timeline :=
  MkTimeline (tm_monotonic_ns t) (tm_epoch_utc_ns t) (tm_wall_adjustment_ns t)
    (tm_next_sequence t) (tm_pending t) (tm_ready t) (tm_limits t) slept.
Definition tm_set_adjustment (t : Timeline) (adjustment : Z) : Timeline :=
  MkTimeline (tm_monotonic_ns t) (tm_epoch_utc_ns t) adjustment (tm_next_sequence t)
    (tm_pending t) (tm_ready t) (tm_limits t) (tm_slept_ns t).

Definition timeline_with_epoch_and_limits (epoch : Z) (limits : TimelineLimits) : Timeline :=
  MkTimeline 0 epoch 0 0 ∅ [] limits 0.
Definition timeline_with_epoch (epoch : Z) : Timeline :=
  timeline_with_epoch_and_limits epoch timeline_limits_default.
Definition timeline_new : Timeline :=
  timeline_with_epoch_and_limits DEFAULT_EPOCH_UTC_NS timeline_limits_default.

(** ** Wall time *)

Definition wall_time_at (t : Timeline) (adjustment : Z) : result TimelineError Z :=
  ok_or (checked_add128 (tm_epoch_utc_ns t) (tm_monotonic_ns t) ≫= λ value,
         checked_add128 value adjustment) Overflow.

Definition wall_time_ns (t : Timeline) : result TimelineError Z :=
  wall_time_at t (tm_wall_adjustment_ns t).

(** [div_euclid] by a positive divisor is floor division. *)
Definition wall_time_millis (t : Timeline) : result TimelineError Z :=
  value ← wall_time_ns t; Ok (value / NANOS_PER_MILLISECOND).

Definition wall_time_seconds_floor (t : Timeline) : result TimelineError Z :=
  value ← wall_time_ns t; Ok (value / NANOS_PER_SECOND).

Definition adjust_wall_time (t : Timeline) (delta_ns : Z) : Timeline * result TimelineError unit :=
  match checked_add128 (tm_wall_adjustment_ns t) delta_ns with
  | None => (t, Err Overflow)
  | Some adjustment =>
      match wall_time_at t adjustment with
      | Err e => (t, Err e)
      | Ok _ => (tm_set_adjustment t adjustment, Ok ())
      end
  end.

(** [u64::try_from(value).ok()], then [unwrap_or_default]. *)
Definition u64_or_default (r : result TimelineError Z) : Z :=
  match r with
  | Ok value => if (0 <=? value) && (value <=? U64_MAX) then value else 0
  | Err _ => 0
  end.

Definition now_ms (t : Timeline) : Z := tm_monotonic_ns t / NANOS_PER_MILLISECOND.
Definition unix_ms (t : Timeline) : Z := u64_or_default (wall_time_millis t).
Definition unix_secs (t : Timeline) : Z := u64_or_default (wall_time_seconds_floor t).

(** ** Scheduling *)

Definition next_deadline_ns (t : Timeline) : option Z :=
  (λ e, ev_deadline_ns e.1) <$> btree_first (tm_pending t).

Definition schedule_at (t : Timeline) (deadline_ns : Z) (kind : EventKind)
    : Timeline * result TimelineError EventId :=
  if deadline_ns <? tm_monotonic_ns t
  then (t, Err (WouldRewind (tm_monotonic_ns t) deadline_ns))
  else if tl_max_pending_events (tm_limits t) <=?
          sat_add64 (Z.of_nat (size (tm_pending t))) (zlen (tm_ready t))
  then (t, Err (EventLimit (tl_max_pending_events (tm_limits t))))
  else if tl_max_event_horizon_ns (tm_limits t) <? deadline_ns - tm_monotonic_ns t
  then (t, Err (EventBeyondHorizon (tl_max_event_horizon_ns (tm_limits t))))
  else
    let id := MkEventId deadline_ns (tm_next_sequence t) in
    match checked_add64 (tm_next_sequence t) 1 with
    | None => (t, Err Overflow)
    | Some next =>
        (tm_set_events (tm_set_sequence t next) (<[id := kind]> (tm_pending t)) (tm_ready t), Ok id)
    end.

Definition schedule_after (t : Timeline) (delay_ns : Z) (kind : EventKind)
    : Timeline * result TimelineError EventId :=
  match checked_add64 (tm_monotonic_ns t) delay_ns with
  | None => (t, Err Overflow)
  | Some deadline => schedule_at t deadline kind
  end.

Definition schedule_wake_after (t : Timeline) (task duration_ns : Z)
    : Timeline * result TimelineError EventId :=
  match schedule_after t duration_ns (WakeTask task) with
  | (t, Err e) => (t, Err e)
  | (t, Ok event) => (tm_set_slept t (sat_add64 (tm_slept_ns t) duration_ns), Ok event)
  end.

Definition timeline_cancel (t : Timeline) (id : EventId) : Timeline * bool :=
  (tm_set_events t (delete id (tm_pending t)) (tm_ready t),
   bool_decide (is_Some (tm_pending t !! id))).

(** The guard shared by the two filters of [cancel_task_events]. *)
Definition owned_by (task : Z) (kind : EventKind) : bool :=
  match kind with
  | WakeTask owner | Deadline owner | SignalTask owner _ _ => bool_decide (owner = task)
  | External _ _ => false
  end.

Definition cancel_task_events (t : Timeline) (task : Z) : Timeline * Z :=
  let ids := (filter (λ e, owned_by task e.2 = true) (btree_iter (tm_pending t))).*1 in
  (tm_set_events t
     (foldl (λ pending id, delete id pending) (tm_pending t) ids)
     (filter (λ event, owned_by task (se_kind event) = false) (tm_ready t)),
   zlen ids).

(** ** Advancing *)

(** [for id in due_ids { pending.remove(&id).expect(..); ready.push_back(..); fired.push(..) }]. *)
Fixpoint fire_due (ids : list EventId) (pending : gmap EventId EventKind)
    (ready fired : list ScheduledEvent)
    : run (gmap EventId EventKind * list ScheduledEvent * list ScheduledEvent) :=
  match ids with
  | [] => Ret (pending, ready, fired)
  | id :: rest =>
      kind ← expect (pending !! id);
      let event := MkScheduledEvent id kind in
      fire_due rest (delete id pending) (ready ++ [event]) (fired ++ [event])
  end.

Definition due_ids (t : Timeline) (target_ns : Z) : list EventId :=
  filter (λ id, event_le id (MkEventId target_ns U64_MAX)) (btree_keys (tm_pending t)).

Definition advance_to (t : Timeline) (target_ns : Z)
    : run (Timeline * result TimelineError (list ScheduledEvent)) :=
  if target_ns <? tm_monotonic_ns t
  then Ret (t, Err (WouldRewind (tm_monotonic_ns t) target_ns))
  else
    let t := tm_set_monotonic t target_ns in
    '(pending, ready, fired) ← fire_due (due_ids t target_ns) (tm_pending t) (tm_ready t) [];
    Ret (tm_set_events t pending ready, Ok fired).

Definition advance_by (t : Timeline) (duration_ns : Z)
    : run (Timeline * result TimelineError (list ScheduledEvent)) :=
  match checked_add64 (tm_monotonic_ns t) duration_ns with
  | None => Ret (t, Err Overflow)
  | Some target => advance_to t target
  end.

Definition advance_to_next (t : Timeline)
    : run (Timeline * result TimelineError (list ScheduledEvent)) :=
  match next_deadline_ns t with
  | Some deadline => advance_to t deadline
  | None => Ret (t, Ok [])
  end.

Definition pop_ready (t : Timeline) : Timeline * option ScheduledEvent :=
  match tm_ready t with
  | [] => (t, None)
  | event :: rest => (tm_set_events t (tm_pending t) rest, Some event)
  end.

Definition remove_ready (t : Timeline) (id : EventId) : Timeline :=
  tm_set_events t (tm_pending t) (filter (λ event, se_id event ≠ id) (tm_ready t)).

(** The [for event in fired] of [block_task]: the first event that ends the wait. *)
Fixpoint scan_fired (t : Timeline) (task : Z) (wake : EventId) (fired : list ScheduledEvent)
    : option (Timeline * BlockOutcome) :=
  match fired with
  | [] => None
  | event :: rest =>
      match se_kind event with
      | WakeTask owner =>
          if bool_decide (se_id event = wake) && bool_decide (owner = task)
          then Some (remove_ready t (se_id event), Completed)
          else scan_fired t task wake rest
      | Deadline owner =>
          if bool_decide (owner = task)
          then Some (remove_ready (remove_ready (timeline_cancel t wake).1 wake) (se_id event),
                     Interrupted event)
          else scan_fired t task wake rest
      | _ => scan_fired t task wake rest
      end
  end.

Fixpoint block_loop (fuel : nat) (t : Timeline) (task : Z) (wake : EventId)
    : run (Timeline * result TimelineError BlockOutcome) :=
  match fuel with
  | O => NoFuel
  | S fuel =>
      '(t, fired) ← advance_to_next t;
      match fired with
      | Err e => Ret (t, Err e)
      | Ok fired =>
          match scan_fired t task wake fired with
          | Some (t, outcome) => Ret (t, Ok outcome)
          | None => block_loop fuel t task wake
          end
      end
  end.

(** Every iteration fires at least one pending event, so the number of pending events bounds the
    iterations. *)
Definition block_task (t : Timeline) (task duration_ns : Z)
    : run (Timeline * result TimelineError BlockOutcome) :=
  match schedule_wake_after t task duration_ns with
  | (t, Err e) => Ret (t, Err e)
  | (t, Ok wake) => block_loop (size (tm_pending t)) t task wake
  end.

Definition sleep_ms (t : Timeline) (millis : Z) : run Timeline :=
  fst <$> block_task t MAIN_TASK_ID (sat_mul64 millis NANOS_PER_MILLISECOND).

Definition tick (t : Timeline) (ticks : Z) : run Timeline :=
  fst <$> advance_by t (sat_mul64 ticks NANOS_PER_MILLISECOND).

(** ** Firing events *)

Lemma btree_keys_delete {V} (m : gmap EventId V) id :
  is_Some (m !! id) → id :: btree_keys (delete id m) ≡ₚ btree_keys m.
Proof.
  intros [v Hv]. unfold btree_keys. rewrite !btree_iter_perm.
  by rewrite <- (map_to_list_delete m id v Hv).
Qed.

Lemma fire_due_spec ids pending ready fired :
  NoDup ids → (∀ id, id ∈ ids → is_Some (pending !! id)) →
  ∃ pending' evs,
    fire_due ids pending ready fired = Ret (pending', ready ++ evs, fired ++ evs) ∧
    se_id <$> evs = ids ∧
    (∀ e, e ∈ evs → pending !! se_id e = Some (se_kind e)) ∧
    (∀ id, pending' !! id = if decide (id ∈ ids) then None else pending !! id) ∧
    ids ++ btree_keys pending' ≡ₚ btree_keys pending.
Proof.
  revert pending ready fired. induction ids as [|id ids IH]; intros pending ready fired Hnd Hin.
  { exists pending, []. simpl. rewrite !app_nil_r. split_and!; try done.
    intros e []%elem_of_nil. }
  apply NoDup_cons in Hnd as [Hid Hnd]. simpl.
  destruct (Hin id) as [kind Hk]; [by left|]. rewrite Hk. simpl.
  destruct (IH (delete id pending) (ready ++ [MkScheduledEvent id kind])
    (fired ++ [MkScheduledEvent id kind])) as (p' & evs & -> & Hids & Hevs & Hlk & Hperm); [done| |].
  { intros id' Hid'. rewrite lookup_delete_ne; [apply Hin; by right|]. by intros ->. }
  exists p', (MkScheduledEvent id kind :: evs). rewrite <- !app_assoc. split_and!; simpl.
  - done.
  - f_equal. exact Hids.
  - intros e [->|He]%elem_of_cons; [done|]. apply Hevs in He as He'.
    rewrite lookup_delete_ne in He'; [done|]. intros Heq. apply Hid.
    rewrite <- Hids, Heq. by apply list_elem_of_fmap_2.
  - intros id'. rewrite Hlk, lookup_delete. repeat case_decide; set_solver.
  - rewrite Hperm. by apply btree_keys_delete.
Qed.

Definition to_event (entry : EventId * EventKind) : ScheduledEvent :=
  MkScheduledEvent entry.1 entry.2.

(** The pending events due at [target_ns], in firing order. *)
Definition due_events (t : Timeline) (target_ns : Z) : list ScheduledEvent :=
  to_event <$> filter (λ e, ev_deadline_ns e.1 ≤ target_ns) (btree_iter (tm_pending t)).

(** Identities of the events a timeline still owns, pending or fired. *)
Definition live_ids (t : Timeline) : list EventId :=
  btree_keys (tm_pending t) ++ (se_id <$> tm_ready t).

Record timeline_wf (t : Timeline) : Prop := {
  twf_now : in_u64 (tm_monotonic_ns t);
  twf_next : in_u64 (tm_next_sequence t);
  twf_pending : ∀ id, is_Some (tm_pending t !! id) →
    tm_monotonic_ns t ≤ ev_deadline_ns id ≤ U64_MAX;
  twf_ready : ∀ e, e ∈ tm_ready t → ev_deadline_ns (se_id e) ≤ tm_monotonic_ns t;
  twf_seq : ∀ id, id ∈ live_ids t → 0 ≤ ev_sequence id < tm_next_sequence t;
  twf_unique : NoDup (ev_sequence <$> live_ids t);
  twf_limits : in_u64 (tl_max_pending_events (tm_limits t));
  twf_bound : zlen (live_ids t) ≤ tl_max_pending_events (tm_limits t)
}.

Lemma elem_of_live_ids t id :
  id ∈ live_ids t ↔ is_Some (tm_pending t !! id) ∨ ∃ e, e ∈ tm_ready t ∧ se_id e = id.
Proof.
  unfold live_ids. rewrite elem_of_app, elem_of_btree_keys, list_elem_of_fmap. naive_solver.
Qed.

Lemma due_ids_events t target :
  (∀ id, is_Some (tm_pending t !! id) → ev_sequence id ≤ U64_MAX) →
  due_ids t target = se_id <$> due_events t target.
Proof.
  intros Hseq. unfold due_ids, due_events, btree_keys.
  assert (∀ e, e ∈ btree_iter (tm_pending t) → ev_sequence e.1 ≤ U64_MAX) as Hle.
  { intros [id k] He. apply elem_of_btree_iter in He. apply Hseq. eauto. }
  induction (btree_iter (tm_pending t)) as [|[id k] l IH]; [done|].
  rewrite fmap_cons, !filter_cons. simpl.
  assert (event_le id (MkEventId target U64_MAX) ↔ ev_deadline_ns id ≤ target) as Hiff.
  { pose proof (Hle (id, k) ltac:(by left)) as Hs. simpl in Hs. unfold event_le. simpl. lia. }
  rewrite IH by (intros; apply Hle; by right).
  by repeat case_decide; try tauto.
Qed.

Lemma due_events_elem t target e :
  e ∈ due_events t target ↔
  tm_pending t !! se_id e = Some (se_kind e) ∧ ev_deadline_ns (se_id e) ≤ target.
Proof.
  unfold due_events. rewrite list_elem_of_fmap. split.
  - intros ([id k] & -> & [Hd Hin]%list_elem_of_filter). simpl in *.
    by rewrite elem_of_btree_iter in Hin.
  - intros [Hp Hd]. exists (se_id e, se_kind e). split; [by destruct e|].
    apply list_elem_of_filter. by rewrite elem_of_btree_iter.
Qed.

(** The shape of a successful advance: everything due moves, in order, from the pending map to
    the back of the ready queue, and nothing else changes. *)
Record advanced (t : Timeline) (target : Z) (t' : Timeline) : Prop := {
  adv_now : tm_monotonic_ns t' = target;
  adv_ready : tm_ready t' = tm_ready t ++ due_events t target;
  adv_pending : ∀ id, tm_pending t' !! id =
    if decide (ev_deadline_ns id ≤ target) then None else tm_pending t !! id;
  adv_ids : live_ids t' ≡ₚ live_ids t;
  adv_frame : tm_epoch_utc_ns t' = tm_epoch_utc_ns t ∧
    tm_wall_adjustment_ns t' = tm_wall_adjustment_ns t ∧
    tm_next_sequence t' = tm_next_sequence t ∧ tm_limits t' = tm_limits t ∧
    tm_slept_ns t' = tm_slept_ns t
}.

Lemma evs_due_events t target (evs : list ScheduledEvent) :
  se_id <$> evs = se_id <$> due_events t target →
  (∀ e, e ∈ evs → tm_pending t !! se_id e = Some (se_kind e)) →
  evs = due_events t target.
Proof.
  intros Hids Hevs. assert (∀ e, e ∈ due_events t target →
    tm_pending t !! se_id e = Some (se_kind e)) as Hdue by (intros e; rewrite due_events_elem; tauto).
  revert Hids Hevs Hdue. generalize (due_events t target) as ds.
  induction evs as [|e evs IH]; intros [|d ds]; simpl; try done.
  intros [= Hid Hids] Hevs Hdue. f_equal.
  - pose proof (Hevs e ltac:(by left)) as He. pose proof (Hdue d ltac:(by left)) as Hd.
    rewrite Hid, Hd in He. destruct e, d; simpl in *; congruence.
  - apply IH; [done|..]; intros; [apply Hevs|apply Hdue]; by right.
Qed.

Lemma advance_to_spec t target :
  timeline_wf t → tm_monotonic_ns t ≤ target →
  ∃ t', advance_to t target = Ret (t', Ok (due_events t target)) ∧ advanced t target t'.
Proof.
  intros Hwf Hle. unfold advance_to. destruct (target <? _) eqn:E; [mach|].
  assert (due_ids (tm_set_monotonic t target) target = se_id <$> due_events t target) as Hdue.
  { change (due_ids (tm_set_monotonic t target) target) with (due_ids t target).
    apply due_ids_events. intros id Hid. pose proof (twf_seq t Hwf id) as Hs.
    rewrite elem_of_live_ids in Hs. pose proof (twf_next t Hwf). specialize (Hs (or_introl Hid)).
    mach. }
  rewrite Hdue.
  destruct (fire_due_spec (se_id <$> due_events t target) (tm_pending t) (tm_ready t) [])
    as (p' & evs & Hfire & Hids & Hevs & Hlk & Hperm).
  - rewrite <- Hdue. apply NoDup_filter, btree_keys_NoDup.
  - intros id (e & -> & He)%list_elem_of_fmap. apply due_events_elem in He as [He _]. eauto.
  - simpl. rewrite Hfire. simpl. rewrite (evs_due_events t target evs) by done.
    eexists; split; [reflexivity|]. split; simpl; try done.
    + intros id. rewrite Hlk. destruct (tm_pending t !! id) as [k|] eqn:Hk;
        [|by repeat case_decide].
      assert (id ∈ (se_id <$> due_events t target) ↔ ev_deadline_ns id ≤ target) as Hiff.
      { rewrite list_elem_of_fmap. split.
        - intros (e & -> & He). by apply due_events_elem in He as [_ ?].
        - intros Hd. exists (MkScheduledEvent id k). by rewrite due_events_elem. }
      by repeat case_decide; try tauto.
    + unfold live_ids. simpl. rewrite fmap_app. rewrite <- Hperm.
      rewrite (Permutation_app_comm (se_id <$> tm_ready t)), app_assoc.
      by rewrite (Permutation_app_comm (btree_keys p')).
Qed.

Lemma advanced_wf t target t' :
  timeline_wf t → tm_monotonic_ns t ≤ target → target ≤ U64_MAX →
  advanced t target t' → timeline_wf t'.
Proof.
  intros [Hnow Hnext Hp Hr Hs Hu Hlim Hb] Hle Hmax [Hn' Hr' Hp' Hids (He & Hw & Hq & Hl & Hsl)].
  split.
  - rewrite Hn'. mach.
  - by rewrite Hq.
  - intros id. rewrite Hp', Hn'. case_decide; [by intros []|]. intros Hid%Hp. lia.
  - intros e. rewrite Hr', Hn', elem_of_app, due_events_elem. intros [He'%Hr|]; [lia|tauto].
  - intros id. rewrite Hids, Hq. apply Hs.
  - by rewrite Hids.
  - by rewrite Hl.
  - by rewrite Hids, Hl.
Qed.

(** ** Removing events *)

Definition drop_event (t : Timeline) (id : EventId) : Timeline :=
  tm_set_events t (delete id (tm_pending t)) (filter (λ event, se_id event ≠ id) (tm_ready t)).

(** A timeline whose events are a subset of a well-formed one's is well formed. *)
Lemma tm_set_events_wf t pending ready :
  timeline_wf t →
  (∀ id, is_Some (pending !! id) → is_Some (tm_pending t !! id)) →
  (∀ e, e ∈ ready → e ∈ tm_ready t) →
  live_ids (tm_set_events t pending ready) ⊆+ live_ids t →
  timeline_wf (tm_set_events t pending ready).
Proof.
  intros [Hnow Hnext Hp Hr Hs Hu Hlim Hb] Hpend Hready Hsub. split; simpl; try done.
  - intros id Hid. by apply Hp, Hpend.
  - intros e He. by apply Hr, Hready.
  - intros id Hid. apply Hs. by eapply elem_of_submseteq.
  - apply submseteq_Permutation in Hsub as [k Hk]. rewrite Hk, fmap_app in Hu.
    by apply NoDup_app in Hu as [? _].
  - apply submseteq_length in Hsub. lia.
Qed.

Lemma filter_ne_perm (l : list EventId) id :
  NoDup l → id ∈ l → l ≡ₚ id :: filter (λ x, x ≠ id) l.
Proof.
  intros Hnd Hin. apply NoDup_Permutation; [done| |].
  - apply NoDup_cons; split; [rewrite list_elem_of_filter; tauto|by apply NoDup_filter].
  - intros x. rewrite elem_of_cons, list_elem_of_filter.
    destruct (decide (x = id)); naive_solver.
Qed.

Lemma live_ids_NoDup t : timeline_wf t → NoDup (live_ids t).
Proof. intros Hwf. by eapply NoDup_fmap_1, (twf_unique t). Qed.

Lemma live_ids_drop_filter t id :
  live_ids (drop_event t id) ≡ₚ filter (λ x, x ≠ id) (live_ids t).
Proof.
  unfold live_ids, drop_event; simpl. rewrite filter_app. f_equiv.
  - apply NoDup_Permutation; [apply btree_keys_NoDup|apply NoDup_filter, btree_keys_NoDup|].
    intros x. rewrite list_elem_of_filter, !elem_of_btree_keys, lookup_delete.
    case_decide; [subst|naive_solver]. split; [by intros []|naive_solver].
  - induction (tm_ready t) as [|e l IH]; [done|].
    rewrite fmap_cons, !filter_cons. case_decide; [rewrite fmap_cons|]; by rewrite IH.
Qed.

Lemma live_ids_drop t id :
  timeline_wf t → id ∈ live_ids t → live_ids t ≡ₚ id :: live_ids (drop_event t id).
Proof.
  intros Hwf Hid. rewrite live_ids_drop_filter.
  apply filter_ne_perm; [by apply live_ids_NoDup|done].
Qed.

Lemma drop_event_wf t id : timeline_wf t → timeline_wf (drop_event t id).
Proof.
  intros Hwf. apply tm_set_events_wf; [done|..].
  - intros x. rewrite lookup_delete. case_decide; [by intros []|done].
  - intros e. rewrite list_elem_of_filter. tauto.
  - fold (drop_event t id). rewrite live_ids_drop_filter. apply sublist_submseteq, sublist_filter.
Qed.

Lemma remove_ready_drop t id : tm_pending t !! id = None → remove_ready t id = drop_event t id.
Proof. intros Hid. unfold remove_ready, drop_event. by rewrite delete_id. Qed.

Lemma drop_event_gone t id : id ∉ live_ids (drop_event t id).
Proof. rewrite live_ids_drop_filter, list_elem_of_filter. tauto. Qed.

(** ** Blocking one task *)

Lemma scan_fired_spec t task wake fired :
  match scan_fired t task wake fired with
  | None => ∀ e, e ∈ fired → (se_id e = wake → se_kind e ≠ WakeTask task) ∧ se_kind e ≠ Deadline task
  | Some (t', Completed) =>
      t' = remove_ready t wake ∧
      ∃ before e after, fired = before ++ e :: after ∧ se_id e = wake ∧
        ∀ x, x ∈ before → se_kind x ≠ Deadline task
  | Some (t', Interrupted e) =>
      t' = remove_ready (remove_ready (timeline_cancel t wake).1 wake) (se_id e) ∧
      e ∈ fired ∧ se_kind e = Deadline task
  end.
Proof.
  induction fired as [|e fired IH]; simpl; [by intros e []%elem_of_nil|].
  assert (se_kind e ≠ Deadline task →
    (se_id e = wake → se_kind e ≠ WakeTask task) →
    match scan_fired t task wake fired with
    | None => ∀ e', e' ∈ e :: fired →
        (se_id e' = wake → se_kind e' ≠ WakeTask task) ∧ se_kind e' ≠ Deadline task
    | Some (t', Completed) =>
        t' = remove_ready t wake ∧
        ∃ before e' after, e :: fired = before ++ e' :: after ∧ se_id e' = wake ∧
          ∀ x, x ∈ before → se_kind x ≠ Deadline task
    | Some (t', Interrupted e') =>
        t' = remove_ready (remove_ready (timeline_cancel t wake).1 wake) (se_id e') ∧
        e' ∈ e :: fired ∧ se_kind e' = Deadline task
    end) as Hskip.
  { intros Hd Hw. destruct (scan_fired t task wake fired) as [[t' []]|].
    - destruct IH as (-> & before & e' & after & -> & Hid & Hb). split; [done|].
      exists (e :: before), e', after. split_and!; try done.
      intros x [->|Hx]%elem_of_cons; [done|by apply Hb].
    - destruct IH as (-> & Hin & Hk). split_and!; try done. by right.
    - intros e' [->|He']%elem_of_cons; [done|]. by apply IH. }
  destruct (se_kind e) as [owner|owner|owner sig desc|src pay] eqn:Hk; try (apply Hskip; congruence).
  - destruct (bool_decide (se_id e = wake)) eqn:E1; simpl; bool_to_prop.
    + destruct (bool_decide (owner = task)) eqn:E2; bool_to_prop.
      * rewrite E1. split; [done|]. exists [], e, fired. split_and!; try done.
        intros x []%elem_of_nil.
      * apply Hskip; congruence.
    + apply Hskip; congruence.
  - destruct (bool_decide (owner = task)) eqn:E; bool_to_prop.
    + subst owner. split_and!; [done|by left|done].
    + apply Hskip; congruence.
Qed.

Lemma due_events_sorted t target :
  StronglySorted event_le (se_id <$> due_events t target).
Proof.
  unfold due_events. pose proof (btree_iter_sorted (tm_pending t)) as Hs.
  induction Hs as [|[id k] l Hs IH Hall]; [constructor|].
  rewrite filter_cons. case_decide; [|done].
  rewrite !fmap_cons. constructor; [done|]. rewrite Forall_forall.
  intros x (e & -> & ([id' k'] & -> & [_ Hin]%list_elem_of_filter)%list_elem_of_fmap)
    %list_elem_of_fmap. exact (proj1 (Forall_forall _ _) Hall _ Hin).
Qed.

(** What holds each time the loop of [block_task] is entered. *)
Record block_inv (t : Timeline) (task : Z) (wake : EventId) : Prop := {
  bi_wf : timeline_wf t;
  bi_wake : tm_pending t !! wake = Some (WakeTask task);
  bi_newest : ∀ id, is_Some (tm_pending t !! id) → ev_sequence id ≤ ev_sequence wake
}.

(** What [block_task] returns: when the clock stops, which event ended the wait, and that only
    the wake-up and that event leave the timeline. *)
Definition block_post (t : Timeline) (task : Z) (wake : EventId) (t' : Timeline)
    (out : BlockOutcome) : Prop :=
  timeline_wf t' ∧ tm_monotonic_ns t ≤ tm_monotonic_ns t' ∧
  match out with
  | Completed =>
      tm_monotonic_ns t' = ev_deadline_ns wake ∧
      (∀ id, tm_pending t !! id = Some (Deadline task) → ev_deadline_ns wake < ev_deadline_ns id) ∧
      live_ids t ≡ₚ wake :: live_ids t'
  | Interrupted e =>
      tm_pending t !! se_id e = Some (Deadline task) ∧ se_kind e = Deadline task ∧
      ev_deadline_ns (se_id e) ≤ ev_deadline_ns wake ∧
      tm_monotonic_ns t' = ev_deadline_ns (se_id e) ∧
      live_ids t ≡ₚ wake :: se_id e :: live_ids t'
  end.

Lemma block_inv_advance t task wake t1 target :
  block_inv t task wake → tm_monotonic_ns t ≤ target < ev_deadline_ns wake →
  advanced t target t1 → block_inv t1 task wake.
Proof.
  intros [Hwf Hwake Hnew] Htgt Hadv. destruct (twf_pending t Hwf wake); [eauto|].
  split.
  - eapply advanced_wf; [exact Hwf| | |exact Hadv]; lia.
  - rewrite (adv_pending _ _ _ Hadv). case_decide; [lia|done].
  - intros id. rewrite (adv_pending _ _ _ Hadv). case_decide; [by intros []|apply Hnew].
Qed.

(** The wait ends in the batch that fires the wake-up. *)
Lemma block_completes t task wake t1 before e after :
  block_inv t task wake → advanced t (ev_deadline_ns wake) t1 →
  due_events t (ev_deadline_ns wake) = before ++ e :: after → se_id e = wake →
  (∀ x, x ∈ before → se_kind x ≠ Deadline task) →
  block_post t task wake (remove_ready t1 wake) Completed.
Proof.
  intros [Hwf Hwake Hnew] Hadv Hdue Hid Hbefore.
  destruct (twf_pending t Hwf wake) as [Hlow Hhigh]; [eauto|].
  pose proof (advanced_wf t _ t1 Hwf Hlow Hhigh Hadv) as Hwf1.
  assert (tm_pending t1 !! wake = None) as Hnone.
  { rewrite (adv_pending _ _ _ Hadv). by case_decide; [|lia]. }
  rewrite remove_ready_drop by done. unfold block_post.
  split; [by apply drop_event_wf|]. simpl. rewrite (adv_now _ _ _ Hadv). split; [done|].
  split; [done|]. split.
  - intros id Hdl. destruct (decide (ev_deadline_ns wake < ev_deadline_ns id)); [done|exfalso].
    assert (MkScheduledEvent id (Deadline task) ∈ before ++ e :: after) as Hin.
    { rewrite <- Hdue, due_events_elem. simpl. split; [done|lia]. }
    apply elem_of_app in Hin as [Hin|Hin]; [by apply Hbefore in Hin|].
    pose proof (due_events_sorted t (ev_deadline_ns wake)) as Hs.
    rewrite Hdue, fmap_app in Hs. apply StronglySorted_app_1_r in Hs. simpl in Hs.
    apply StronglySorted_inv in Hs as [_ Hall]. apply elem_of_cons in Hin as [<-|Hin].
    + simpl in Hid. congruence.
    + apply (list_elem_of_fmap_2 se_id) in Hin.
      pose proof (proj1 (Forall_forall _ _) Hall _ Hin) as Hle. rewrite Hid in Hle. simpl in Hle.
      specialize (Hnew id ltac:(eauto)). unfold event_le in Hle.
      assert (id = wake); [|congruence]. destruct id, wake; simpl in *. f_equal; lia.
  - rewrite <- (adv_ids _ _ _ Hadv). apply live_ids_drop; [done|].
    rewrite (adv_ids _ _ _ Hadv), elem_of_live_ids. left. eauto.
Qed.

(** The wait ends early, in a batch that fires one of the task's deadlines. *)
Lemma block_interrupted t task wake t1 target e :
  block_inv t task wake → advanced t target t1 →
  tm_monotonic_ns t ≤ target ≤ ev_deadline_ns wake →
  (∀ id, is_Some (tm_pending t !! id) → target ≤ ev_deadline_ns id) →
  e ∈ due_events t target → se_kind e = Deadline task →
  block_post t task wake
    (remove_ready (remove_ready (timeline_cancel t1 wake).1 wake) (se_id e)) (Interrupted e).
Proof.
  intros [Hwf Hwake Hnew] Hadv Htgt Hmin [He Hd]%due_events_elem Hk.
  destruct (twf_pending t Hwf wake) as [Hlow Hhigh]; [eauto|].
  assert (timeline_wf t1) as Hwf1 by (eapply advanced_wf; [exact Hwf| | |exact Hadv]; lia).
  assert (tm_monotonic_ns t1 = ev_deadline_ns (se_id e)) as Hnow.
  { rewrite (adv_now _ _ _ Hadv). specialize (Hmin (se_id e) ltac:(eauto)). lia. }
  change (remove_ready (timeline_cancel t1 wake).1 wake) with (drop_event t1 wake).
  assert (se_id e ≠ wake) as Hne by congruence.
  rewrite remove_ready_drop.
  2:{ simpl. rewrite lookup_delete_ne by done. rewrite (adv_pending _ _ _ Hadv).
      by case_decide; [|lia]. }
  unfold block_post. split; [by apply drop_event_wf, drop_event_wf|]. simpl. rewrite Hnow.
  specialize (Hmin (se_id e) ltac:(eauto)).
  split; [lia|]. split_and!; try done; [congruence|lia|].
  assert (wake ∈ live_ids t1) as Hw1.
  { rewrite (adv_ids _ _ _ Hadv), elem_of_live_ids. left. eauto. }
  rewrite <- (adv_ids _ _ _ Hadv), (live_ids_drop t1 wake) by done. apply Permutation_skip.
  apply live_ids_drop; [by apply drop_event_wf|].
  rewrite live_ids_drop_filter, list_elem_of_filter. split; [done|].
  rewrite (adv_ids _ _ _ Hadv), elem_of_live_ids. left. eauto.
Qed.

(** An iteration that does not end the wait leaves the task's deadlines pending. *)
Lemma block_post_shift t task wake t1 target t' out :
  block_inv t task wake → advanced t target t1 → tm_monotonic_ns t ≤ target →
  (∀ e, e ∈ due_events t target → se_kind e ≠ Deadline task) →
  block_post t1 task wake t' out → block_post t task wake t' out.
Proof.
  intros Hinv Hadv Htgt Hno (Hwf' & Hmono & Hout).
  rewrite (adv_now _ _ _ Hadv) in Hmono. split; [done|]. split; [lia|].
  destruct out as [|e].
  - destruct Hout as (Hnow & Hdl & Hids). split_and!; [done| |by rewrite <- (adv_ids _ _ _ Hadv)].
    intros id Hid. apply Hdl. rewrite (adv_pending _ _ _ Hadv). case_decide; [exfalso|done].
    apply (Hno (MkScheduledEvent id (Deadline task))); [|done]. by apply due_events_elem.
  - destruct Hout as (Hp & Hk & Hle & Hnow & Hids).
    rewrite (adv_pending _ _ _ Hadv) in Hp. case_decide; [done|].
    split_and!; try done. by rewrite <- (adv_ids _ _ _ Hadv).
Qed.

Lemma advanced_size t target t1 e :
  advanced t target t1 → e ∈ due_events t target →
  (size (tm_pending t1) < size (tm_pending t))%nat.
Proof.
  intros Hadv [He Hd]%due_events_elem. rewrite <- !size_dom. apply subset_size. split.
  - intros id. rewrite !elem_of_dom, (adv_pending _ _ _ Hadv). case_decide; [by intros []|done].
  - intros Hsub. specialize (Hsub (se_id e)).
    rewrite !elem_of_dom, (adv_pending _ _ _ Hadv) in Hsub.
    case_decide; [|done]. destruct (Hsub ltac:(eauto)) as [? [=]].
Qed.

Lemma block_loop_spec fuel t task wake :
  block_inv t task wake → (size (tm_pending t) ≤ fuel)%nat →
  ∃ t' out, block_loop fuel t task wake = Ret (t', Ok out) ∧ block_post t task wake t' out.
Proof.
  revert t. induction fuel as [|fuel IH]; intros t Hinv Hfuel.
  { exfalso. assert (tm_pending t = ∅) as Hemp by (apply map_size_empty_iff; lia).
    pose proof (bi_wake _ _ _ Hinv) as Hw. by rewrite Hemp in Hw. }
  simpl. unfold advance_to_next, next_deadline_ns.
  destruct (btree_first (tm_pending t)) as [[first kind]|] eqn:Hfirst; simpl.
  2:{ apply btree_first_None in Hfirst. pose proof (bi_wake _ _ _ Hinv) as Hw.
      by rewrite Hfirst in Hw. }
  apply btree_first_Some in Hfirst as [Hf Hmin].
  pose proof Hinv as [Hwf Hwake Hnew].
  assert (∀ id, is_Some (tm_pending t !! id) → ev_deadline_ns first ≤ ev_deadline_ns id) as Hle.
  { intros id Hid. specialize (Hmin id Hid). simpl in Hmin. unfold event_le in Hmin. lia. }
  destruct (twf_pending t Hwf first) as [Hlow _]; [eauto|].
  destruct (advance_to_spec t (ev_deadline_ns first)) as (t1 & -> & Hadv); [done..|]. simpl.
  pose proof (Hle wake ltac:(eauto)) as Hfw.
  pose proof (scan_fired_spec t1 task wake (due_events t (ev_deadline_ns first))) as Hscan.
  destruct (scan_fired _ _ _ _) as [[t2 [|e]]|].
  - destruct Hscan as (-> & before & e & after & Hdue & Hid & Hb).
    assert (ev_deadline_ns first = ev_deadline_ns wake) as Heq.
    { assert (e ∈ due_events t (ev_deadline_ns first)) as He by (rewrite Hdue; set_solver).
      apply due_events_elem in He as [_ He]. rewrite Hid in He. lia. }
    rewrite Heq in *. eexists _, _; split; [done|]. by eapply block_completes.
  - destruct Hscan as (-> & He & Hk). eexists _, _; split; [done|].
    by eapply block_interrupted.
  - assert (ev_deadline_ns first < ev_deadline_ns wake) as Hlt.
    { destruct (decide (ev_deadline_ns first < ev_deadline_ns wake)); [done|exfalso].
      eapply (proj1 (Hscan (MkScheduledEvent wake (WakeTask task)) _)); [done|done].
      Unshelve. apply due_events_elem. simpl. split; [done|lia]. }
    destruct (IH t1) as (t' & out & -> & Hpost).
    + eapply block_inv_advance; [exact Hinv| |exact Hadv]. lia.
    + assert (size (tm_pending t1) < size (tm_pending t))%nat; [|lia].
      apply (advanced_size t (ev_deadline_ns first) t1 (MkScheduledEvent first kind)); [done|].
      by apply due_events_elem.
    + eexists _, _; split; [done|]. eapply block_post_shift; [exact Hinv|exact Hadv|done| |done].
      intros e He. by apply Hscan.
Qed.

(** ** Scheduling *)

Lemma btree_keys_insert {V} (m : gmap EventId V) id v :
  m !! id = None → btree_keys (<[id:=v]> m) ≡ₚ id :: btree_keys m.
Proof.
  intros Hid. unfold btree_keys. rewrite !btree_iter_perm.
  by rewrite (map_to_list_insert m id v Hid).
Qed.

Lemma schedule_at_spec t deadline kind :
  timeline_wf t → deadline ≤ U64_MAX →
  match schedule_at t deadline kind with
  | (t', Err _) => t' = t
  | (t', Ok id) =>
      timeline_wf t' ∧ id = MkEventId deadline (tm_next_sequence t) ∧
      id ∉ live_ids t ∧ tm_monotonic_ns t ≤ deadline ∧
      t' = tm_set_events (tm_set_sequence t (tm_next_sequence t + 1))
             (<[id := kind]> (tm_pending t)) (tm_ready t) ∧
      live_ids t' ≡ₚ id :: live_ids t
  end.
Proof.
  intros Hwf Hmax. pose proof Hwf as [Hnow Hnext Hp Hr Hs Hu Hlim Hb].
  unfold schedule_at. destruct (deadline <? _) eqn:E1; [done|].
  destruct (tl_max_pending_events _ <=? _) eqn:E2; [done|].
  destruct (tl_max_event_horizon_ns _ <? _) eqn:E3; [done|].
  destruct (checked_add64 _ _) as [next|] eqn:E4; [|done].
  apply checked_add64_Some in E4 as [-> Hn].
  remember (MkEventId deadline (tm_next_sequence t)) as id eqn:Hid.
  assert (id ∉ live_ids t) as Hfresh by (intros Hin; apply Hs in Hin; rewrite Hid in Hin; simpl in Hin; lia).
  assert (tm_pending t !! id = None) as Hnone.
  { destruct (tm_pending t !! id) eqn:E; [|done]. destruct Hfresh. apply elem_of_live_ids. eauto. }
  assert (live_ids (tm_set_events (tm_set_sequence t (tm_next_sequence t + 1))
    (<[id := kind]> (tm_pending t)) (tm_ready t)) ≡ₚ id :: live_ids t) as Hids.
  { unfold live_ids; simpl. by rewrite btree_keys_insert. }
  assert (Z.of_nat (length (live_ids t)) < tl_max_pending_events (tm_limits t)).
  { unfold live_ids. rewrite length_app, length_fmap. unfold btree_keys.
    rewrite length_fmap, btree_iter_length. mach. }
  split; [|split_and!; [done|done|bool_to_prop; lia|done|done]]. split; simpl; try done.
  - mach.
  - intros x. rewrite lookup_insert. case_decide; [subst; simpl; mach|apply Hp].
  - intros x. rewrite Hids, elem_of_cons. intros [->|Hx%Hs]; [rewrite Hid; simpl|]; mach.
  - rewrite Hids, fmap_cons, NoDup_cons. split; [|done].
    intros (x & Hx & Hin%Hs)%list_elem_of_fmap. rewrite Hid in Hx. simpl in Hx. lia.
  - rewrite Hids. simpl. lia.
Qed.

Lemma schedule_after_spec t delay kind :
  timeline_wf t →
  match schedule_after t delay kind with
  | (t', Err _) => t' = t
  | (t', Ok id) =>
      timeline_wf t' ∧ id = MkEventId (tm_monotonic_ns t + delay) (tm_next_sequence t) ∧
      id ∉ live_ids t ∧
      t' = tm_set_events (tm_set_sequence t (tm_next_sequence t + 1))
             (<[id := kind]> (tm_pending t)) (tm_ready t) ∧
      live_ids t' ≡ₚ id :: live_ids t
  end.
Proof.
  intros Hwf. unfold schedule_after.
  destruct (checked_add64 _ _) as [d|] eqn:E; [|done]. apply checked_add64_Some in E as [-> Hd].
  pose proof (schedule_at_spec t (tm_monotonic_ns t + delay) kind Hwf Hd) as Hspec.
  destruct (schedule_at _ _ _) as [t' []]; naive_solver.
Qed.

Lemma tm_set_slept_wf t n : timeline_wf t → timeline_wf (tm_set_slept t n).
Proof. intros []. by split. Qed.

(** The outcome of [block_task] in terms of [block_post]. *)
Lemma block_task_spec t task duration :
  timeline_wf t →
  (∃ e, block_task t task duration = Ret (t, Err e)) ∨
  ∃ t' out, block_task t task duration = Ret (t', Ok out) ∧ timeline_wf t' ∧
    tm_monotonic_ns t ≤ tm_monotonic_ns t' ∧
    match out with
    | Completed =>
        tm_monotonic_ns t' = tm_monotonic_ns t + duration ∧
        (∀ id, tm_pending t !! id = Some (Deadline task) →
          tm_monotonic_ns t + duration < ev_deadline_ns id) ∧
        live_ids t ≡ₚ live_ids t'
    | Interrupted e =>
        tm_pending t !! se_id e = Some (Deadline task) ∧ se_kind e = Deadline task ∧
        ev_deadline_ns (se_id e) ≤ tm_monotonic_ns t + duration ∧
        tm_monotonic_ns t' = ev_deadline_ns (se_id e) ∧
        live_ids t ≡ₚ se_id e :: live_ids t'
    end.
Proof.
  intros Hwf. unfold block_task, schedule_wake_after.
  pose proof (schedule_after_spec t duration (WakeTask task) Hwf) as Hsch.
  destruct (schedule_after t duration (WakeTask task)) as [t1 [wake|e]].
  2:{ left. exists e. by rewrite Hsch. }
  destruct Hsch as (Hwf1 & Hid & Hfresh & -> & Hids). right.
  match goal with |- context [block_loop _ ?s _ _] => set (t2 := s) end.
  assert (block_inv t2 task wake) as Hinv.
  { split; [by apply tm_set_slept_wf|simpl; by rewrite lookup_insert_eq|].
    intros id Hin. pose proof (twf_seq _ Hwf1 id) as Hseq.
    rewrite elem_of_live_ids in Hseq. specialize (Hseq (or_introl Hin)).
    simpl in Hseq. rewrite Hid. simpl. lia. }
  destruct (block_loop_spec (size (tm_pending t2)) t2 task wake Hinv)
    as (t' & out & -> & Hwf' & Hmono & Hpost); [done|].
  change (live_ids t2) with (live_ids (tm_set_events (tm_set_sequence t (tm_next_sequence t + 1))
    (<[wake := WakeTask task]> (tm_pending t)) (tm_ready t))) in Hpost.
  assert (ev_deadline_ns wake = tm_monotonic_ns t + duration) as Hd by (by rewrite Hid).
  assert (∀ id, tm_pending t2 !! id = Some (Deadline task) ↔
    tm_pending t !! id = Some (Deadline task)) as Hdl.
  { intros id. simpl. rewrite lookup_insert. case_decide; [subst id|done].
    split; [done|]. intros Hp. destruct Hfresh. apply elem_of_live_ids. eauto. }
  exists t', out. split; [done|]. split; [done|]. split; [done|]. destruct out as [|e].
  - destruct Hpost as (Hnow & Hno & Hp). rewrite Hids in Hp. apply (inj (cons wake)) in Hp.
    rewrite Hd in *. split_and!; [done| |done]. intros id. rewrite <- Hdl. apply Hno.
  - destruct Hpost as (Hp & Hk & Hle & Hnow & Hperm). rewrite Hids in Hperm.
    apply (inj (cons wake)) in Hperm. rewrite Hd in *. rewrite Hdl in Hp. done.
Qed.

(** blocking a task always returns, never panicking or looping forever. Either the wait
    cannot be scheduled and the timeline is unchanged, or the clock stops exactly at the wake-up
    instant when the task has no deadline event due by then, or it stops exactly at the first
    instant one of the task's own deadline events fires. In both cases no event other than the
    wake-up and that deadline leaves the timeline: what else became due waits in the ready
    queue. *)
Theorem block_task_outcome t task duration :
  timeline_wf t →
  (∃ e, block_task t task duration = Ret (t, Err e)) ∨
  ∃ t' out, block_task t task duration = Ret (t', Ok out) ∧ timeline_wf t' ∧
    match out with
    | Completed =>
        tm_monotonic_ns t' = tm_monotonic_ns t + duration ∧
        (∀ id, tm_pending t !! id = Some (Deadline task) →
          tm_monotonic_ns t + duration < ev_deadline_ns id) ∧
        live_ids t ≡ₚ live_ids t'
    | Interrupted e =>
        tm_pending t !! se_id e = Some (Deadline task) ∧ se_kind e = Deadline task ∧
        ev_deadline_ns (se_id e) ≤ tm_monotonic_ns t + duration ∧
        tm_monotonic_ns t' = ev_deadline_ns (se_id e) ∧
        live_ids t ≡ₚ se_id e :: live_ids t'
    end.
Proof.
  intros Hwf. destruct (block_task_spec t task duration Hwf) as [?|(t' & out & ? & ? & _ & ?)];
    [by left|right]. by exists t', out.
Qed.

Lemma timeline_new_wf epoch limits :
  in_u64 (tl_max_pending_events limits) → timeline_wf (timeline_with_epoch_and_limits epoch limits).
Proof.
  intros Hl. assert (live_ids (timeline_with_epoch_and_limits epoch limits) = []) as Hids.
  { unfold live_ids, btree_keys; simpl. by rewrite btree_iter_empty. }
  split; simpl; rewrite ?Hids; try done; try mach.
  - intros id. rewrite lookup_empty. by intros [].
  - intros e []%elem_of_nil.
  - intros id []%elem_of_nil.
  - constructor.
  - simpl. mach.
Qed.

(** A timeline at instant 0 with a foreign timer at 30 ns and a deadline of task 7 at 50 ns. *)
Definition clock_example : Timeline :=
  (schedule_at (schedule_at timeline_new 30 (WakeTask 3)).1 50 (Deadline 7)).1.

Lemma clock_example_wf : timeline_wf clock_example.
Proof.
  assert (timeline_wf timeline_new) as H0 by (apply timeline_new_wf; simpl; mach).
  unfold clock_example.
  pose proof (schedule_at_spec timeline_new 30 (WakeTask 3) H0 ltac:(mach)) as H1.
  destruct (schedule_at timeline_new 30 (WakeTask 3)) as [t1 [id|e]]; [|subst t1].
  - destruct H1 as [Hwf1 _]. simpl.
    pose proof (schedule_at_spec t1 50 (Deadline 7) Hwf1 ltac:(mach)) as H2.
    destruct (schedule_at t1 50 (Deadline 7)) as [t2 [id'|e']]; [apply H2|by subst].
  - simpl. pose proof (schedule_at_spec timeline_new 50 (Deadline 7) H0 ltac:(mach)) as H2.
    destruct (schedule_at timeline_new 50 (Deadline 7)) as [t2 [id'|e']]; [apply H2|by subst].
Qed.

Lemma block_task_outcome_witness :
  (∃ t', block_task clock_example 7 40 = Ret (t', Ok Completed)) ∧
  (∃ t' e, block_task clock_example 7 60 = Ret (t', Ok (Interrupted e)) ∧
    tm_monotonic_ns t' = 50) ∧
  ((∃ e, block_task clock_example 7 60 = Ret (clock_example, Err e)) ∨
   ∃ t' out, block_task clock_example 7 60 = Ret (t', Ok out) ∧ timeline_wf t').
Proof.
  split; [|split].
  - eexists. vm_compute. reflexivity.
  - eexists _, _. split; [vm_compute; reflexivity|reflexivity].
  - destruct (block_task_outcome clock_example 7 60 clock_example_wf)
      as [?|(t' & out & Hb & Hwf & _)]; [by left|right].
    exists t', out. split; [exact Hb|exact Hwf].
Defined.

Lemma ids_sorted_strict (l : list ScheduledEvent) :
  NoDup (se_id <$> l) → StronglySorted event_le (se_id <$> l) →
  StronglySorted (λ a b, event_le (se_id a) (se_id b) ∧ se_id a ≠ se_id b) l.
Proof.
  induction l as [|e l IH]; [constructor|].
  rewrite fmap_cons. intros [Hx Hnd]%NoDup_cons [Hs Hall]%StronglySorted_inv.
  constructor; [by apply IH|]. rewrite Forall_forall. intros x Hx'.
  apply (list_elem_of_fmap_2 se_id) in Hx'. split; [|by intros Heq; rewrite Heq in Hx].
  exact (proj1 (Forall_forall _ _) Hall _ Hx').
Qed.

(** C40: advancing to an instant fires exactly the pending events whose deadline has come, in
    order of deadline and, at equal deadlines, of insertion; they leave the pending set for the
    back of the ready queue, and later events stay pending. The advance fails, without changing
    anything, only when the instant is in the past. *)
Theorem advance_to_fires_due_in_order t target :
  timeline_wf t →
  if decide (tm_monotonic_ns t ≤ target)
  then ∃ t' fired, advance_to t target = Ret (t', Ok fired) ∧
    StronglySorted (λ a b, event_le (se_id a) (se_id b) ∧ se_id a ≠ se_id b) fired ∧
    (∀ e, e ∈ fired ↔ tm_pending t !! se_id e = Some (se_kind e) ∧ ev_deadline_ns (se_id e) ≤ target) ∧
    tm_ready t' = tm_ready t ++ fired ∧ tm_monotonic_ns t' = target ∧
    (∀ id, tm_pending t' !! id =
       if decide (ev_deadline_ns id ≤ target) then None else tm_pending t !! id)
  else advance_to t target = Ret (t, Err (WouldRewind (tm_monotonic_ns t) target)).
Proof.
  intros Hwf. case_decide as Hle.
  - destruct (advance_to_spec t target Hwf Hle) as (t' & Hadv & Hspec).
    exists t', (due_events t target). split; [done|]. split_and!; try apply Hspec.
    + assert (NoDup (se_id <$> due_events t target)) as Hnd.
      { rewrite <- due_ids_events; [apply NoDup_filter, btree_keys_NoDup|].
        intros id Hid. pose proof (twf_seq t Hwf id) as Hs. rewrite elem_of_live_ids in Hs.
        specialize (Hs (or_introl Hid)). pose proof (twf_next t Hwf). mach. }
      by apply ids_sorted_strict; [|apply due_events_sorted].
    + apply due_events_elem.
  - unfold advance_to. destruct (target <? tm_monotonic_ns t) eqn:E; [done|mach].
Qed.

Lemma advance_to_fires_due_in_order_witness :
  ∃ t' fired, advance_to clock_example 50 = Ret (t', Ok fired) ∧ length fired = 2%nat ∧
    tm_monotonic_ns t' = 50.
Proof.
  pose proof (advance_to_fires_due_in_order clock_example 50 clock_example_wf) as H.
  destruct (decide _) as [Hle|Hn]; [|exfalso; apply Hn; vm_compute; congruence].
  destruct H as (t' & fired & Hadv & _ & _ & _ & Hnow & _).
  exists t', fired. split; [exact Hadv|]. split; [|exact Hnow].
  revert Hadv. vm_compute. by intros [= _ <-].
Defined.

Lemma cancel_task_events_spec t task :
  let '(t', count) := cancel_task_events t task in
  (∀ id, tm_pending t' !! id =
     (k ← tm_pending t !! id; if owned_by task k then None else Some k)) ∧
  tm_ready t' = filter (λ e, owned_by task (se_kind e) = false) (tm_ready t) ∧
  count = Z.of_nat (size (tm_pending t)) - Z.of_nat (size (tm_pending t')) ∧
  tm_monotonic_ns t' = tm_monotonic_ns t ∧ tm_slept_ns t' = tm_slept_ns t.
Proof.
  unfold cancel_task_events. simpl.
  set (es := filter (λ e, owned_by task e.2 = true) (btree_iter (tm_pending t))).
  assert (∀ id k, (id, k) ∈ es ↔ tm_pending t !! id = Some k ∧ owned_by task k = true) as Hes.
  { intros id k. unfold es. rewrite list_elem_of_filter, elem_of_btree_iter. simpl. tauto. }
  assert (NoDup es.*1) as Hnd.
  { eapply sublist_NoDup; [apply (btree_keys_NoDup (tm_pending t))|].
    unfold btree_keys. apply fmap_sublist, sublist_filter. }
  assert (∀ ids (m : gmap EventId EventKind), NoDup ids → (∀ id, id ∈ ids → is_Some (m !! id)) →
    (∀ id, foldl (λ p id, delete id p) m ids !! id = if decide (id ∈ ids) then None else m !! id) ∧
    (size (foldl (λ p id, delete id p) m ids) + length ids = size m)%nat) as Hfold.
  { induction ids as [|id ids IH]; intros m Hn Hin; simpl; [split; [done|lia]|].
    apply NoDup_cons in Hn as [Hid Hn]. destruct (IH (delete id m) Hn) as [Hl Hsz].
    { intros id' Hid'. rewrite lookup_delete_ne; [apply Hin; by right|by intros ->]. }
    split.
    - intros id'. rewrite Hl, lookup_delete. repeat case_decide; set_solver.
    - destruct (Hin id) as [k Hk]; [by left|].
      rewrite (map_size_delete_Some id m) in Hsz by (by exists k).
      assert (size m ≠ 0%nat); [|lia]. intros Hz%map_size_empty_iff. by rewrite Hz in Hk. }
  destruct (Hfold es.*1 (tm_pending t) Hnd) as [Hl Hsz].
  { intros id ([id' k] & -> & Hin)%list_elem_of_fmap. apply Hes in Hin as [? _]. eauto. }
  split_and!; try done; [|lia].
  intros id. rewrite Hl. destruct (tm_pending t !! id) as [k|] eqn:Hk; [|by case_decide].
  simpl. destruct (owned_by task k) eqn:Ho; case_decide as Hd; try done.
  - destruct Hd. apply list_elem_of_fmap. exists (id, k). by rewrite Hes.
  - apply list_elem_of_fmap in Hd as ([id' k'] & -> & Hin). apply Hes in Hin. simpl in *.
    destruct Hin. congruence.
Qed.

(** cancelling a task's events removes every event the task owns, wake-ups, deadlines and
    signals, pending or already fired, and leaves every other event and the clock untouched; the
    returned count is the number of pending events removed. *)
Theorem cancel_task_events_exact t task :
  let '(t', count) := cancel_task_events t task in
  (∀ id, tm_pending t' !! id =
     (k ← tm_pending t !! id; if owned_by task k then None else Some k)) ∧
  tm_ready t' = filter (λ e, owned_by task (se_kind e) = false) (tm_ready t) ∧
  count = Z.of_nat (size (tm_pending t)) - Z.of_nat (size (tm_pending t')) ∧
  tm_monotonic_ns t' = tm_monotonic_ns t ∧ tm_slept_ns t' = tm_slept_ns t.
Proof. apply cancel_task_events_spec. Qed.

(** ** The timeline as a state machine *)

Inductive timeline_op :=
| TScheduleAt (deadline : Z) (kind : EventKind)
| TScheduleAfter (delay : Z) (kind : EventKind)
| TScheduleWake (task duration : Z)
| TAdjustWall (delta : Z)
| TCancel (id : EventId)
| TCancelTask (task : Z)
| TAdvanceTo (target : Z)
| TAdvanceBy (duration : Z)
| TAdvanceNext
| TPopReady
| TBlock (task duration : Z).

Definition timeline_step (t : Timeline) (op : timeline_op) : run Timeline :=
  match op with
  | TScheduleAt d k => Ret (schedule_at t d k).1
  | TScheduleAfter d k => Ret (schedule_after t d k).1
  | TScheduleWake task d => Ret (schedule_wake_after t task d).1
  | TAdjustWall d => Ret (adjust_wall_time t d).1
  | TCancel id => Ret (timeline_cancel t id).1
  | TCancelTask task => Ret (cancel_task_events t task).1
  | TAdvanceTo target => fst <$> advance_to t target
  | TAdvanceBy d => fst <$> advance_by t d
  | TAdvanceNext => fst <$> advance_to_next t
  | TPopReady => Ret (pop_ready t).1
  | TBlock task d => fst <$> block_task t task d
  end.

Fixpoint timeline_run (t : Timeline) (ops : list timeline_op) : run Timeline :=
  match ops with
  | [] => Ret t
  | op :: rest => t ← timeline_step t op; timeline_run t rest
  end.

(** Instants and durations are [u64] values. *)
Definition timeline_op_u64 (op : timeline_op) : Prop :=
  match op with
  | TScheduleAt d _ | TScheduleAfter d _ | TScheduleWake _ d | TAdvanceTo d | TAdvanceBy d
  | TBlock _ d => in_u64 d
  | _ => True
  end.

Lemma advance_to_step t target :
  timeline_wf t → target ≤ U64_MAX →
  ∃ t', fst <$> advance_to t target = Ret t' ∧ timeline_wf t' ∧
    tm_monotonic_ns t ≤ tm_monotonic_ns t'.
Proof.
  intros Hwf Hmax. destruct (decide (tm_monotonic_ns t ≤ target)) as [Hle|Hgt].
  - destruct (advance_to_spec t target Hwf Hle) as (t' & -> & Hadv). exists t'.
    split; [done|]. split; [by eapply advanced_wf|]. by rewrite (adv_now _ _ _ Hadv).
  - exists t. unfold advance_to. destruct (target <? tm_monotonic_ns t) eqn:E; [|mach].
    done.
Qed.

Lemma timeline_step_wf t op :
  timeline_wf t → timeline_op_u64 op →
  ∃ t', timeline_step t op = Ret t' ∧ timeline_wf t' ∧ tm_monotonic_ns t ≤ tm_monotonic_ns t'.
Proof.
  intros Hwf Hop. destruct op; simpl in *.
  - eexists; split; [done|].
    pose proof (schedule_at_spec t deadline kind Hwf ltac:(mach)) as Hs.
    destruct (schedule_at t deadline kind) as [t' []]; [|by subst].
    destruct Hs as (? & _ & _ & _ & -> & _). done.
  - eexists; split; [done|]. pose proof (schedule_after_spec t delay kind Hwf) as Hs.
    destruct (schedule_after t delay kind) as [t' []]; [|by subst].
    destruct Hs as (? & _ & _ & -> & _). done.
  - eexists; split; [done|]. unfold schedule_wake_after.
    pose proof (schedule_after_spec t duration (WakeTask task) Hwf) as Hs.
    destruct (schedule_after t duration _) as [t' []]; [|by subst].
    destruct Hs as (? & _ & _ & -> & _). split; [by apply tm_set_slept_wf|done].
  - eexists; split; [done|]. unfold adjust_wall_time. repeat case_step; try done.
    split; [|done]. destruct Hwf. by split.
  - eexists; split; [done|]. split; [|done]. apply tm_set_events_wf; [done| |done|].
    + intros x. rewrite lookup_delete. case_decide; [by intros []|done].
    + unfold live_ids; simpl. apply submseteq_app; [|done].
      apply NoDup_submseteq; [apply btree_keys_NoDup|]. intros x.
      rewrite !elem_of_btree_keys, lookup_delete. case_decide; [by intros []|done].
  - eexists; split; [done|].
    pose proof (cancel_task_events_spec t task) as Hc.
    unfold cancel_task_events in *. simpl in *. destruct Hc as (Hp & Hr & _).
    split; [|done]. apply tm_set_events_wf; [done|..].
    + intros x. rewrite Hp. destruct (tm_pending t !! x); [eauto|by intros []].
    + intros e. rewrite list_elem_of_filter. tauto.
    + unfold live_ids; simpl. apply submseteq_app.
      * apply NoDup_submseteq; [apply btree_keys_NoDup|]. intros x.
        rewrite !elem_of_btree_keys, Hp. destruct (tm_pending t !! x); [eauto|by intros []].
      * apply fmap_submseteq, sublist_submseteq, sublist_filter.
  - apply advance_to_step; [done|mach].
  - unfold advance_by. destruct (checked_add64 _ _) as [d|] eqn:E; [|by exists t].
    apply checked_add64_Some in E as [-> ?]. by apply advance_to_step.
  - unfold advance_to_next, next_deadline_ns.
    destruct (btree_first _) as [[id k]|] eqn:E; simpl; [|by exists t].
    apply btree_first_Some in E as [Hid _]. destruct (twf_pending t Hwf id); [eauto|].
    by apply advance_to_step.
  - eexists; split; [done|]. unfold pop_ready.
    destruct (tm_ready t) as [|e l] eqn:Hr; simpl; [done|]. split; [|done].
    apply tm_set_events_wf; [done|done|rewrite Hr; set_solver|].
    unfold live_ids; simpl. rewrite Hr. apply submseteq_app; [done|]. simpl.
    by apply submseteq_cons.
  - destruct (block_task_spec t task duration Hwf) as [[e ->]|(t' & out & -> & ? & ? & _)];
      [by exists t|by exists t'].
Qed.

(** no sequence of timeline operations rewinds the clock, panics, diverges or breaks the
    event store: the machine always reaches a state in which events have unique sequence numbers,
    pending deadlines are not in the past, and at most [max_pending_events] events are held. *)
Theorem timeline_never_rewinds epoch limits ops :
  in_u64 (tl_max_pending_events limits) → Forall timeline_op_u64 ops →
  ∃ t', timeline_run (timeline_with_epoch_and_limits epoch limits) ops = Ret t' ∧
    timeline_wf t' ∧
    ∀ prefix rest t1, ops = prefix ++ rest →
      timeline_run (timeline_with_epoch_and_limits epoch limits) prefix = Ret t1 →
      tm_monotonic_ns t1 ≤ tm_monotonic_ns t'.
Proof.
  intros Hl Hops.
  assert (timeline_wf (timeline_with_epoch_and_limits epoch limits)) as Hwf
    by (by apply timeline_new_wf).
  revert Hwf. generalize (timeline_with_epoch_and_limits epoch limits) as t.
  induction Hops as [|op ops Hop Hops IH]; intros t Hwf.
  - exists t. split; [done|]. split; [done|]. intros prefix rest t1 Hp.
    symmetry in Hp. apply app_nil in Hp as [-> _]. simpl. by intros [= ->].
  - simpl. destruct (timeline_step_wf t op Hwf Hop) as (t1 & Hs & Hwf1 & Hm1). rewrite Hs. simpl.
    destruct (IH t1 Hwf1) as (t' & Hrun & Hwf' & Hpre). exists t'. split; [done|]. split; [done|].
    assert (tm_monotonic_ns t1 ≤ tm_monotonic_ns t') as Hm by (by apply (Hpre [] ops)).
    intros [|op' prefix] rest t2; simpl.
    + intros _ [= <-]. lia.
    + intros [= <- Hp]. rewrite Hs. simpl. by apply (Hpre prefix rest).
Qed.

Lemma timeline_never_rewinds_witness :
  ∃ t', timeline_run timeline_new
      [TScheduleAt 30 (Deadline 7); TBlock 7 60; TAdvanceBy 5; TCancelTask 7] = Ret t' ∧
    timeline_wf t' ∧ tm_monotonic_ns t' = 35.
Proof.
  destruct (timeline_never_rewinds DEFAULT_EPOCH_UTC_NS timeline_limits_default
    [TScheduleAt 30 (Deadline 7); TBlock 7 60; TAdvanceBy 5; TCancelTask 7])
    as (t' & Hrun & Hwf & _).
  - simpl; mach.
  - repeat constructor; simpl; mach.
  - exists t'. split; [exact Hrun|]. split; [exact Hwf|].
    revert Hrun. vm_compute. by intros [= <-].
Defined.

(** the wall clock is a presentation of the monotonic clock. A successful adjustment by
    [delta] shifts the reported wall time by exactly [delta] and changes nothing that orders
    events; a refused one changes nothing at all. *)
Theorem wall_adjustment_is_presentation t delta :
  match adjust_wall_time t delta with
  | (t', Err _) => t' = t
  | (t', Ok _) =>
      (∀ w, wall_time_ns t = Ok w → wall_time_ns t' = Ok (w + delta)) ∧
      tm_monotonic_ns t' = tm_monotonic_ns t ∧ tm_pending t' = tm_pending t ∧
      tm_ready t' = tm_ready t ∧ tm_next_sequence t' = tm_next_sequence t ∧
      next_deadline_ns t' = next_deadline_ns t
  end.
Proof.
  unfold adjust_wall_time. destruct (checked_add128 _ delta) as [adj|] eqn:E; [|done].
  destruct (wall_time_at t adj) as [w'|] eqn:Ew; [|done]. split_and!; try done.
  intros w. unfold wall_time_ns, wall_time_at in *. simpl. revert E Ew. unfold checked_add128.
  repeat (case_match; simpl; try done). intros [= <-] [= <-] [= <-]. f_equal. lia.
Qed.
