(* ===== verification/Scheduler.v ===== *)
(** * The cooperative scheduler (src/src/scheduler.rs)

    Task states, the FIFO queue of runnable tasks, the queue of blocked tasks in blocking order
    and the one running task. A method on [&mut self] returns the new scheduler with its result;
    the wake-all methods, which call [expect], return a [run]. The theorems show the invariant
    that ties queues, states and the running task together, that a refused transition changes
    nothing, what a wake-all does and in which order, that a queued task is dispatched after at
    most as many dispatches as tasks stand ahead of it, and that a stopped task neither runs nor
    loses a wake-up. *)

From S2P Require Import Prelude.
From S2P Require Import Process.

Definition MAX_TASKS : Z := MAX_PROCESSES.

(** ** Wait conditions *)

Inductive WaitReason :=
| ShellSession (pid : Z)
| Timer (deadline : Z)
| InputReadable (fd : Z)
| PipeReadable (pipe : Z)
| PipeWritable (pipe : Z)
| FileLock (id : Z)
| HostHttp (id : Z)
| Child (pid : Z)
| ChildActivity (pid : Z)
| ChildDeadline (pid deadline : Z)
| ChildActivityDeadline (pid deadline : Z)
| Any (reasons : list WaitReason).

(** The derived [PartialEq]. *)
Fixpoint wait_reason_eqb (a b : WaitReason) {struct a} : bool :=
  match a, b with
  | ShellSession x, ShellSession y | Timer x, Timer y | InputReadable x, InputReadable y
  | PipeReadable x, PipeReadable y | PipeWritable x, PipeWritable y | FileLock x, FileLock y
  | HostHttp x, HostHttp y | Child x, Child y | ChildActivity x, ChildActivity y => x =? y
  | ChildDeadline x d, ChildDeadline y e
  | ChildActivityDeadline x d, ChildActivityDeadline y e => (x =? y) && (d =? e)
  | Any xs, Any ys =>
      (fix go (xs ys : list WaitReason) : bool :=
         match xs, ys with
         | [], [] => true
         | x :: xs, y :: ys => wait_reason_eqb x y && go xs ys
         | _, _ => false
         end) xs ys
  | _, _ => false
  end.

Lemma wait_reason_eqb_eq : ∀ a b, wait_reason_eqb a b = true ↔ a = b.
Proof.
  fix IH 1. intros [] []; simpl;
    try (rewrite ?andb_true_iff, ?Z.eqb_eq; intuition congruence).
  rename reasons into xs, reasons0 into ys. revert ys.
  induction xs as [|x xs IHxs]; intros [|y ys]; try (by split).
  rewrite andb_true_iff, IH, IHxs. intuition congruence.
Qed.

Fixpoint accepts (self wake : WaitReason) : bool :=
  match self with
  | Any reasons => existsb (λ reason, accepts reason wake) reasons
  | reason => wait_reason_eqb reason wake
  end.

Fixpoint accepts_timer (self : WaitReason) (deadline_ns : Z) : bool :=
  match self with
  | Timer deadline | ChildDeadline _ deadline | ChildActivityDeadline _ deadline =>
      deadline =? deadline_ns
  | Any reasons => existsb (λ reason, accepts_timer reason deadline_ns) reasons
  | _ => false
  end.

Fixpoint waits_for_child (self : WaitReason) (child : Z) : bool :=
  match self with
  | Child pid | ChildDeadline pid _ => pid =? child
  | Any reasons => existsb (λ reason, waits_for_child reason child) reasons
  | _ => false
  end.

Fixpoint waits_for_child_activity (self : WaitReason) (child : Z) : bool :=
  match self with
  | ChildActivity pid | ChildActivityDeadline pid _ => pid =? child
  | Any reasons => existsb (λ reason, waits_for_child_activity reason child) reasons
  | _ => false
  end.

Fixpoint has_timer (self : WaitReason) : bool :=
  match self with
  | Timer _ => true
  | Any reasons => existsb has_timer reasons
  | _ => false
  end.

(** The [contains_lock] of [wake_file_lock_waiters]. *)
Fixpoint contains_lock (reason : WaitReason) : bool :=
  match reason with
  | FileLock _ => true
  | Any reasons => existsb contains_lock reasons
  | _ => false
  end.

(** ** Scheduler state *)

Inductive StoppedTask :=
| ResumeRunnable
| ResumeBlocked (reason : WaitReason).

Inductive TaskState :=
| TaskRunnable
| TaskRunning
| TaskBlocked (reason : WaitReason)
| TaskStopped (resume : StoppedTask)
| TaskExited (status : Z).

Inductive SchedulerError :=
| Capacity
| DuplicateTask
| UnknownTask
| NoRunningTask
| TaskAlreadyRunning
| InvalidTransition.

Record Scheduler := MkScheduler {
  sc_states : gmap Z TaskState;
  sc_runnable : list Z;
  sc_blocked : list Z;
  sc_current : option Z
}.

Definition scheduler_new (root : Z) : Scheduler :=
  MkScheduler {[root := TaskRunning]} [] [] (Some root).

(** [queue.retain(|queued| *queued != pid)]. *)
Definition retain_other (pid : Z) (queue : list Z) : list Z := filter (λ q, q ≠ pid) queue.

(** ** Operations *)

Definition scheduler_spawn (s : Scheduler) (pid : Z) : Scheduler * result SchedulerError unit :=
  if bool_decide (is_Some (sc_states s !! pid)) then (s, Err DuplicateTask)
  else if MAX_TASKS <=? Z.of_nat (size (sc_states s)) then (s, Err Capacity)
  else (MkScheduler (<[pid := TaskRunnable]> (sc_states s)) (sc_runnable s ++ [pid])
          (sc_blocked s) (sc_current s), Ok tt).

Definition park_runnable (s : Scheduler) (pid : Z) (reason : WaitReason)
    : Scheduler * result SchedulerError unit :=
  match sc_states s !! pid with
  | Some TaskRunnable =>
      (MkScheduler (<[pid := TaskBlocked reason]> (sc_states s)) (retain_other pid (sc_runnable s))
         (sc_blocked s ++ [pid]) (sc_current s), Ok tt)
  | _ => (s, Err InvalidTransition)
  end.

Definition dispatch_pid (s : Scheduler) (pid : Z) : Scheduler * result SchedulerError unit :=
  match sc_current s with
  | Some _ => (s, Err TaskAlreadyRunning)
  | None =>
      match sc_states s !! pid with
      | Some TaskRunnable =>
          (MkScheduler (<[pid := TaskRunning]> (sc_states s)) (retain_other pid (sc_runnable s))
             (sc_blocked s) (Some pid), Ok tt)
      | _ => (s, Err InvalidTransition)
      end
  end.

Definition yield_current (s : Scheduler) : Scheduler * result SchedulerError Z :=
  match sc_current s with
  | None => (s, Err NoRunningTask)
  | Some pid =>
      (MkScheduler (<[pid := TaskRunnable]> (sc_states s)) (sc_runnable s ++ [pid])
         (sc_blocked s) None, Ok pid)
  end.

Definition block_current (s : Scheduler) (reason : WaitReason)
    : Scheduler * result SchedulerError Z :=
  match sc_current s with
  | None => (s, Err NoRunningTask)
  | Some pid =>
      (MkScheduler (<[pid := TaskBlocked reason]> (sc_states s)) (sc_runnable s)
         (sc_blocked s ++ [pid]) None, Ok pid)
  end.

Definition exit_current (s : Scheduler) (status : Z) : Scheduler * result SchedulerError Z :=
  match sc_current s with
  | None => (s, Err NoRunningTask)
  | Some pid =>
      (MkScheduler (<[pid := TaskExited status]> (sc_states s)) (sc_runnable s) (sc_blocked s)
         None, Ok pid)
  end.

Definition scheduler_wake (s : Scheduler) (pid : Z) : Scheduler * result SchedulerError unit :=
  match sc_states s !! pid with
  | Some (TaskBlocked _) =>
      (MkScheduler (<[pid := TaskRunnable]> (sc_states s)) (sc_runnable s ++ [pid])
         (retain_other pid (sc_blocked s)) (sc_current s), Ok tt)
  | Some TaskRunnable => (s, Ok tt)
  | Some (TaskStopped (ResumeBlocked _)) =>
      (MkScheduler (<[pid := TaskStopped ResumeRunnable]> (sc_states s)) (sc_runnable s)
         (retain_other pid (sc_blocked s)) (sc_current s), Ok tt)
  | Some (TaskStopped ResumeRunnable) => (s, Ok tt)
  | Some (TaskRunning | TaskExited _) => (s, Err InvalidTransition)
  | None => (s, Err UnknownTask)
  end.

Definition scheduler_stop (s : Scheduler) (pid : Z) : Scheduler * result SchedulerError unit :=
  match sc_states s !! pid with
  | Some TaskRunnable =>
      (MkScheduler (<[pid := TaskStopped ResumeRunnable]> (sc_states s))
         (retain_other pid (sc_runnable s)) (sc_blocked s) (sc_current s), Ok tt)
  | Some TaskRunning =>
      if bool_decide (sc_current s = Some pid)
      then (MkScheduler (<[pid := TaskStopped ResumeRunnable]> (sc_states s)) (sc_runnable s)
              (sc_blocked s) None, Ok tt)
      else (s, Err InvalidTransition)
  | Some (TaskBlocked reason) =>
      (MkScheduler (<[pid := TaskStopped (ResumeBlocked reason)]> (sc_states s)) (sc_runnable s)
         (sc_blocked s) (sc_current s), Ok tt)
  | Some (TaskStopped _) => (s, Ok tt)
  | Some (TaskExited _) => (s, Err InvalidTransition)
  | None => (s, Err UnknownTask)
  end.

Definition continue_task (s : Scheduler) (pid : Z) : Scheduler * result SchedulerError unit :=
  match sc_states s !! pid with
  | Some (TaskStopped ResumeRunnable) =>
      (MkScheduler (<[pid := TaskRunnable]> (sc_states s)) (sc_runnable s ++ [pid])
         (sc_blocked s) (sc_current s), Ok tt)
  | Some (TaskStopped (ResumeBlocked reason)) =>
      (MkScheduler (<[pid := TaskBlocked reason]> (sc_states s)) (sc_runnable s)
         (sc_blocked s) (sc_current s), Ok tt)
  | Some (TaskRunnable | TaskRunning | TaskBlocked _) => (s, Ok tt)
  | Some (TaskExited _) => (s, Err InvalidTransition)
  | None => (s, Err UnknownTask)
  end.

(** The condition a task in the blocked queue waits on, stopped or not. *)
Definition waiting_on (s : Scheduler) (pid : Z) : option WaitReason :=
  match sc_states s !! pid with
  | Some (TaskBlocked reason) | Some (TaskStopped (ResumeBlocked reason)) => Some reason
  | _ => None
  end.

Definition waits_matching (s : Scheduler) (predicate : WaitReason → bool) (pid : Z) : bool :=
  match waiting_on s pid with Some reason => predicate reason | None => false end.

(** [for pid in &waiting { self.wake( *pid).expect(..) }]. *)
Fixpoint wake_each (s : Scheduler) (waiting : list Z) : run Scheduler :=
  match waiting with
  | [] => Ret s
  | pid :: rest =>
      match scheduler_wake s pid with
      | (s, Ok _) => wake_each s rest
      | (_, Err _) => Panic
      end
  end.

Definition wake_matching (s : Scheduler) (predicate : WaitReason → bool) : run (Scheduler * Z) :=
  let waiting := filter (λ pid, waits_matching s predicate pid = true) (sc_blocked s) in
  s ← wake_each s waiting;
  Ret (s, zlen waiting).

Definition wake_waiters (s : Scheduler) (reason : WaitReason) : run (Scheduler * Z) :=
  let waiting :=
    filter (λ pid, waits_matching s (λ blocked, accepts blocked reason) pid = true)
      (sc_blocked s) in
  s ← wake_each s waiting;
  Ret (s, zlen waiting).

Definition wake_child_waiters (s : Scheduler) (child : Z) : run (Scheduler * Z) :=
  wake_matching s (λ reason, waits_for_child reason child).
Definition wake_child_activity_waiters (s : Scheduler) (child : Z) : run (Scheduler * Z) :=
  wake_matching s (λ reason, waits_for_child_activity reason child).
Definition wake_file_lock_waiters (s : Scheduler) : run (Scheduler * Z) :=
  wake_matching s contains_lock.

Definition dispatch (s : Scheduler) : Scheduler * result SchedulerError (option Z) :=
  match sc_current s with
  | Some _ => (s, Err TaskAlreadyRunning)
  | None =>
      match sc_runnable s with
      | [] => (s, Ok None)
      | pid :: queue =>
          let popped := MkScheduler (sc_states s) queue (sc_blocked s) (sc_current s) in
          match sc_states s !! pid with
          | None => (popped, Err UnknownTask)
          | Some TaskRunnable =>
              (MkScheduler (<[pid := TaskRunning]> (sc_states s)) queue (sc_blocked s) (Some pid),
               Ok (Some pid))
          | Some _ => (popped, Err InvalidTransition)
          end
      end
  end.

Definition has_runnable (s : Scheduler) : bool :=
  match sc_runnable s with [] => false | _ => true end.

Definition timer_waiters (s : Scheduler) : list Z :=
  filter (λ pid, waits_matching s has_timer pid = true) (sc_blocked s).

Definition scheduler_reap (s : Scheduler) (pid : Z) : Scheduler * result SchedulerError Z :=
  match sc_states s !! pid with
  | Some (TaskExited status) =>
      (MkScheduler (delete pid (sc_states s)) (sc_runnable s) (sc_blocked s) (sc_current s),
       Ok status)
  | Some _ => (s, Err InvalidTransition)
  | None => (s, Err UnknownTask)
  end.

Definition discard_runnable (s : Scheduler) (pid : Z) : Scheduler * result SchedulerError unit :=
  match sc_states s !! pid with
  | Some TaskRunnable =>
      (MkScheduler (delete pid (sc_states s)) (retain_other pid (sc_runnable s)) (sc_blocked s)
         (sc_current s), Ok tt)
  | _ => (s, Err InvalidTransition)
  end.

(** ** The invariant *)

Record sched_wf (s : Scheduler) : Prop := {
  sw_size : Z.of_nat (size (sc_states s)) ≤ MAX_TASKS;
  sw_runnable_nodup : NoDup (sc_runnable s);
  sw_runnable : ∀ pid, pid ∈ sc_runnable s ↔ sc_states s !! pid = Some TaskRunnable;
  sw_blocked_nodup : NoDup (sc_blocked s);
  sw_blocked : ∀ pid, pid ∈ sc_blocked s ↔ is_Some (waiting_on s pid);
  sw_current : ∀ pid, sc_current s = Some pid ↔ sc_states s !! pid = Some TaskRunning
}.

Definition is_waiting (st : TaskState) : bool :=
  match st with TaskBlocked _ | TaskStopped (ResumeBlocked _) => true | _ => false end.

Lemma waiting_on_is_waiting s pid :
  is_Some (waiting_on s pid) ↔ ∃ st, sc_states s !! pid = Some st ∧ is_waiting st = true.
Proof.
  unfold waiting_on. split.
  - intros [r Hr]. destruct (sc_states s !! pid) as [st|]; [|done].
    exists st. split; [done|]. repeat case_match; simplify_eq/=; done.
  - intros (st & -> & Hst). repeat case_match; simplify_eq/=; by eexists.
Qed.

Lemma elem_of_retain_other pid queue q : q ∈ retain_other pid queue ↔ q ∈ queue ∧ q ≠ pid.
Proof. unfold retain_other. rewrite list_elem_of_filter. naive_solver. Qed.

Lemma retain_other_NoDup pid queue : NoDup queue → NoDup (retain_other pid queue).
Proof. apply NoDup_filter. Qed.

Lemma NoDup_snoc (l : list Z) x : NoDup l → x ∉ l → NoDup (l ++ [x]).
Proof.
  intros Hl Hx. apply NoDup_app. split; [done|]. split; [|apply NoDup_singleton].
  intros y Hy ->%list_elem_of_singleton. done.
Qed.

Lemma retain_other_notin pid queue : pid ∉ queue → retain_other pid queue = queue.
Proof.
  unfold retain_other. induction queue as [|q queue IH]; intros Hn; [done|].
  rewrite filter_cons. rewrite not_elem_of_cons in Hn.
  rewrite decide_True by naive_solver. by rewrite IH by naive_solver.
Qed.

(** Replacing the state of one task: the queues and the running task follow its class. *)
Lemma sched_wf_update s pid st runnable blocked current :
  sched_wf s →
  (is_Some (sc_states s !! pid) ∨ Z.of_nat (size (sc_states s)) < MAX_TASKS) →
  NoDup runnable → NoDup blocked →
  (∀ q, q ∈ runnable ↔ if decide (q = pid) then st = TaskRunnable else q ∈ sc_runnable s) →
  (∀ q, q ∈ blocked ↔ if decide (q = pid) then is_waiting st = true else q ∈ sc_blocked s) →
  (∀ q, current = Some q ↔ if decide (q = pid) then st = TaskRunning else sc_current s = Some q) →
  sched_wf (MkScheduler (<[pid := st]> (sc_states s)) runnable blocked current).
Proof.
  intros [] Hsize ? ? Hrun Hblk Hcur. split; simpl; try done.
  - destruct (sc_states s !! pid) as [old|] eqn:Hold.
    + erewrite map_size_insert_Some by done. lia.
    + rewrite map_size_insert_None by done.
      destruct Hsize as [[? Hs]|]; [done|lia].
  - intros q. rewrite Hrun. destruct (decide (q = pid)) as [->|].
    + rewrite lookup_insert_eq. split; congruence.
    + rewrite lookup_insert_ne by done. apply sw_runnable0.
  - intros q. rewrite Hblk, waiting_on_is_waiting. simpl.
    destruct (decide (q = pid)) as [->|].
    + rewrite lookup_insert_eq. split; [by eauto|]. intros (? & [= <-] & ?). done.
    + rewrite lookup_insert_ne by done. rewrite sw_blocked0. apply waiting_on_is_waiting.
  - intros q. rewrite Hcur. destruct (decide (q = pid)) as [->|].
    + rewrite lookup_insert_eq. split; congruence.
    + rewrite lookup_insert_ne by done. apply sw_current0.
Qed.

Lemma sched_wf_delete s pid st runnable :
  sched_wf s → sc_states s !! pid = Some st →
  is_waiting st = false → st ≠ TaskRunning → NoDup runnable →
  (∀ q, q ∈ runnable ↔ q ∈ sc_runnable s ∧ q ≠ pid) →
  sched_wf (MkScheduler (delete pid (sc_states s)) runnable (sc_blocked s) (sc_current s)).
Proof.
  intros [] Hst Hw Hr ? Hrun. split; simpl; try done.
  - pose proof (map_size_delete_Some pid (sc_states s) (ex_intro _ _ Hst)). lia.
  - intros q. rewrite Hrun, sw_runnable0, lookup_delete_Some. naive_solver.
  - intros q. rewrite sw_blocked0, !waiting_on_is_waiting. simpl.
    setoid_rewrite lookup_delete_Some. split; [|naive_solver].
    intros (st' & ? & ?). exists st'. repeat split; [|done..]. intros ->. congruence.
  - intros q. rewrite sw_current0, lookup_delete_Some. split; [|by intros []].
    intros ?. split; [|done]. intros ->. congruence.
Qed.

(** Membership of one task in the queues and the running slot, from its state. *)
Lemma sched_wf_at s pid st :
  sched_wf s → sc_states s !! pid = Some st →
  match st with TaskRunnable => pid ∈ sc_runnable s | _ => pid ∉ sc_runnable s end ∧
  (if is_waiting st then pid ∈ sc_blocked s else pid ∉ sc_blocked s) ∧
  match st with TaskRunning => sc_current s = Some pid | _ => sc_current s ≠ Some pid end.
Proof.
  intros [] Hst. repeat split.
  - destruct st; rewrite sw_runnable0; congruence.
  - destruct (is_waiting st) eqn:Hw; rewrite sw_blocked0, waiting_on_is_waiting; [by eauto|].
    intros (? & ? & ?). congruence.
  - destruct st; rewrite sw_current0; congruence.
Qed.

Ltac queue_step :=
  intros;
  rewrite ?elem_of_app, ?elem_of_retain_other, ?list_elem_of_singleton;
  case_decide; subst; simpl in *; intuition congruence.

Ltac wf_update H st :=
  let Hat := fresh "Hat" in
  pose proof (sched_wf_at _ _ _ H st) as Hat; simpl in Hat;
  destruct Hat as (? & ? & ?);
  apply (sched_wf_update _ _ _ _ _ _ H);
  [ left; eexists; exact st
  | first [apply NoDup_snoc | apply retain_other_NoDup | idtac];
    [apply (sw_runnable_nodup _ H)|done..]
  | first [apply NoDup_snoc | apply retain_other_NoDup | idtac];
    [apply (sw_blocked_nodup _ H)|done..]
  | queue_step..].

Lemma current_state s pid : sched_wf s → sc_current s = Some pid →
  sc_states s !! pid = Some TaskRunning.
Proof. intros [] ?. by apply sw_current0. Qed.

Lemma yield_current_wf s : sched_wf s → sched_wf (yield_current s).1.
Proof.
  intros H. unfold yield_current. destruct (sc_current s) as [pid|] eqn:Hc; [|done]. simpl.
  pose proof (current_state _ _ H Hc) as Hst.
  wf_update H Hst.
Qed.

Lemma block_current_wf s r : sched_wf s → sched_wf (block_current s r).1.
Proof.
  intros H. unfold block_current. destruct (sc_current s) as [pid|] eqn:Hc; [|done]. simpl.
  pose proof (current_state _ _ H Hc) as Hst. wf_update H Hst.
Qed.

Lemma exit_current_wf s st : sched_wf s → sched_wf (exit_current s st).1.
Proof.
  intros H. unfold exit_current. destruct (sc_current s) as [pid|] eqn:Hc; [|done]. simpl.
  pose proof (current_state _ _ H Hc) as Hst. wf_update H Hst.
Qed.

Lemma park_runnable_wf s pid r : sched_wf s → sched_wf (park_runnable s pid r).1.
Proof.
  intros H. unfold park_runnable. repeat case_match; try done. simpl.
  rename select (sc_states s !! pid = _) into Hst. wf_update H Hst.
Qed.

Lemma scheduler_wake_wf s pid : sched_wf s → sched_wf (scheduler_wake s pid).1.
Proof.
  intros H. unfold scheduler_wake. repeat case_match; try done; simpl;
    rename select (sc_states s !! pid = _) into Hst; wf_update H Hst.
Qed.

Lemma continue_task_wf s pid : sched_wf s → sched_wf (continue_task s pid).1.
Proof.
  intros H. unfold continue_task. repeat case_match; try done; simpl;
    rename select (sc_states s !! pid = _) into Hst; wf_update H Hst.
Qed.

Lemma scheduler_stop_wf s pid : sched_wf s → sched_wf (scheduler_stop s pid).1.
Proof.
  intros H. unfold scheduler_stop. repeat case_match; bool_to_prop; try done; simpl;
    rename select (sc_states s !! pid = _) into Hst; wf_update H Hst.
Qed.

Lemma dispatch_pid_wf s pid : sched_wf s → sched_wf (dispatch_pid s pid).1.
Proof.
  intros H. unfold dispatch_pid. destruct (sc_current s) eqn:Hc; [done|].
  repeat case_match; try done; simpl.
  rename select (sc_states s !! pid = _) into Hst. wf_update H Hst.
Qed.

Lemma scheduler_spawn_wf s pid : sched_wf s → sched_wf (scheduler_spawn s pid).1.
Proof.
  intros H. unfold scheduler_spawn. case_bool_decide as Hin; [done|].
  destruct (_ <=? _) eqn:Hcap; [done|]. simpl. apply Z.leb_gt in Hcap.
  assert (Hnone : sc_states s !! pid = None) by (by apply eq_None_not_Some).
  assert (Hnr : pid ∉ sc_runnable s) by (rewrite (sw_runnable _ H); congruence).
  assert (Hnb : pid ∉ sc_blocked s).
  { rewrite (sw_blocked _ H), waiting_on_is_waiting. intros (? & ? & ?). congruence. }
  assert (Hnc : sc_current s ≠ Some pid) by (rewrite (sw_current _ H); congruence).
  apply (sched_wf_update _ _ _ _ _ _ H); [by right| | |queue_step..].
  - by apply NoDup_snoc; [apply H|].
  - apply H.
Qed.

(** What [dispatch] does under the invariant: its two error paths are unreachable. *)
Lemma dispatch_cases s : sched_wf s → sc_current s = None →
  match sc_runnable s with
  | [] => dispatch s = (s, Ok None)
  | pid :: queue =>
      dispatch s = (MkScheduler (<[pid := TaskRunning]> (sc_states s)) queue (sc_blocked s)
                      (Some pid), Ok (Some pid)) ∧
      sc_states s !! pid = Some TaskRunnable ∧ pid ∉ queue
  end.
Proof.
  intros H Hc. unfold dispatch. rewrite Hc. destruct (sc_runnable s) as [|pid queue] eqn:Hq; [done|].
  assert (Hst : sc_states s !! pid = Some TaskRunnable).
  { apply (sw_runnable _ H). rewrite Hq. set_solver. }
  rewrite Hst. split; [done|]. split; [done|].
  pose proof (sw_runnable_nodup _ H) as Hnd. rewrite Hq in Hnd. by apply NoDup_cons in Hnd as [].
Qed.

Lemma dispatch_wf s : sched_wf s → sched_wf (dispatch s).1.
Proof.
  intros H. destruct (sc_current s) as [c|] eqn:Hc; [unfold dispatch; by rewrite Hc|].
  pose proof (dispatch_cases s H Hc) as Hd. pose proof (sw_runnable_nodup _ H) as Hnd.
  destruct (sc_runnable s) as [|pid queue] eqn:Hq; [by rewrite Hd|].
  destruct Hd as (-> & Hst & Hnq). simpl. apply NoDup_cons in Hnd as [_ Hnd].
  destruct (sched_wf_at _ _ _ H Hst) as (? & ? & ?).
  apply (sched_wf_update _ _ _ _ _ _ H); [by left; eexists|done|apply H|..].
  - intros q. case_decide; [subst; intuition congruence|]. rewrite Hq, elem_of_cons.
    intuition congruence.
  - queue_step.
  - queue_step.
Qed.

Lemma scheduler_reap_wf s pid : sched_wf s → sched_wf (scheduler_reap s pid).1.
Proof.
  intros H. unfold scheduler_reap. repeat case_match; try done. simpl.
  rename select (sc_states s !! pid = _) into Hst.
  apply (sched_wf_delete _ _ _ _ H Hst); [done..|apply H|].
  destruct (sched_wf_at _ _ _ H Hst) as (? & _). intros q. split; [|by intros []].
  intros ?. split; [done|]. intros ->. done.
Qed.

Lemma discard_runnable_wf s pid : sched_wf s → sched_wf (discard_runnable s pid).1.
Proof.
  intros H. unfold discard_runnable. repeat case_match; try done. simpl.
  rename select (sc_states s !! pid = _) into Hst.
  apply (sched_wf_delete _ _ _ _ H Hst); [done..|apply retain_other_NoDup, H|].
  intros q. apply elem_of_retain_other.
Qed.

Lemma scheduler_new_wf root : sched_wf (scheduler_new root).
Proof.
  split; simpl.
  - rewrite map_size_singleton. done.
  - constructor.
  - intros pid. rewrite elem_of_nil, lookup_singleton_Some. naive_solver.
  - constructor.
  - intros pid. rewrite elem_of_nil, waiting_on_is_waiting. simpl.
    setoid_rewrite lookup_singleton_Some. split; [done|]. intros (st & [_ <-] & ?). done.
  - intros pid. rewrite lookup_singleton_Some. naive_solver.
Qed.

Create HintDb sched.
#[export] Hint Resolve yield_current_wf block_current_wf exit_current_wf park_runnable_wf
  scheduler_wake_wf continue_task_wf scheduler_stop_wf dispatch_pid_wf scheduler_spawn_wf
  dispatch_wf scheduler_reap_wf discard_runnable_wf scheduler_new_wf : sched.

(** ** Waking every matching task *)

(** What a wake does to a waiting task: it becomes runnable, behind its stop if it is stopped. *)
Definition woken (st : TaskState) : TaskState :=
  match st with
  | TaskBlocked _ => TaskRunnable
  | TaskStopped (ResumeBlocked _) => TaskStopped ResumeRunnable
  | st => st
  end.

Definition is_blocked_state (st : option TaskState) : bool :=
  match st with Some (TaskBlocked _) => true | _ => false end.

(** The scheduler after the tasks [waiting] have been woken in order. *)
Record woke (s : Scheduler) (waiting : list Z) (s' : Scheduler) : Prop := {
  wo_states : ∀ q, sc_states s' !! q =
    if decide (q ∈ waiting) then woken <$> sc_states s !! q else sc_states s !! q;
  wo_runnable : sc_runnable s' =
    sc_runnable s ++ filter (λ q, is_blocked_state (sc_states s !! q) = true) waiting;
  wo_blocked : sc_blocked s' = filter (λ q, q ∉ waiting) (sc_blocked s);
  wo_current : sc_current s' = sc_current s
}.

(** Waking one waiting task succeeds. *)
Lemma scheduler_wake_waiting s pid : is_Some (waiting_on s pid) →
  ∃ s', scheduler_wake s pid = (s', Ok tt) ∧ woke s [pid] s'.
Proof.
  rewrite waiting_on_is_waiting. intros (st & Hst & Hw). unfold scheduler_wake. rewrite Hst.
  assert (Hf : ∀ l : list Z, filter (λ q, q ∉ [pid]) l = retain_other pid l).
  { intros l. apply list_filter_iff. intros q. by rewrite list_elem_of_singleton. }
  destruct st as [| |r|[|r]|]; try done; eexists; (split; [done|]);
    (split; simpl; [intros q|by rewrite filter_cons, filter_nil, Hst; simpl; rewrite ?app_nil_r
      |by rewrite Hf|done]);
    (destruct (decide (q ∈ [pid])) as [->%list_elem_of_singleton|Hn];
      [by simplify_map_eq|rewrite list_elem_of_singleton in Hn; by simplify_map_eq]).
Qed.

Lemma woke_cons s pid waiting s1 s2 :
  pid ∉ waiting → woke s [pid] s1 → woke s1 waiting s2 → woke s (pid :: waiting) s2.
Proof.
  intros Hn [] []. split; [| | |congruence].
  - intros q. rewrite wo_states1, wo_states0.
    repeat case_decide; rewrite ?elem_of_cons, ?elem_of_nil in *; first [done|naive_solver].
  - rewrite wo_runnable1, wo_runnable0, <-app_assoc. f_equal.
    rewrite filter_cons, filter_nil.
    rewrite (list_filter_ext_in (λ q, is_blocked_state (sc_states s1 !! q) = true)
      (λ q, is_blocked_state (sc_states s !! q) = true) waiting).
    + rewrite (filter_cons _ pid waiting). by case_decide.
    + intros q Hq. rewrite wo_states0. rewrite decide_False; [done|].
      rewrite list_elem_of_singleton. by intros ->.
  - rewrite wo_blocked1, wo_blocked0, list_filter_filter. apply list_filter_iff.
    intros q. rewrite !elem_of_cons, elem_of_nil. naive_solver.
Qed.

Lemma wake_each_spec waiting s :
  NoDup waiting → (∀ q, q ∈ waiting → is_Some (waiting_on s q)) →
  ∃ s', wake_each s waiting = Ret s' ∧ woke s waiting s' ∧ (sched_wf s → sched_wf s').
Proof.
  revert s. induction waiting as [|pid waiting IH]; intros s Hnd Hw; simpl.
  { exists s. split; [done|]. split; [|done]. split; [done|by rewrite app_nil_r| |done].
    symmetry. apply list_filter_id. intros ? _. apply not_elem_of_nil. }
  apply NoDup_cons in Hnd as [Hn Hnd].
  destruct (scheduler_wake_waiting s pid) as (s1 & Hwake & Hs1); [apply Hw; left|].
  pose proof (scheduler_wake_wf s pid) as Hwf1. rewrite Hwake in Hwf1 |- *. simpl in Hwf1.
  destruct (IH s1 Hnd) as (s2 & -> & Hs2 & Hwf2).
  { intros q Hq. unfold waiting_on. rewrite (wo_states _ _ _ Hs1).
    rewrite decide_False; [apply Hw; by right|]. rewrite list_elem_of_singleton. by intros ->. }
  exists s2. split; [done|]. split; [by eapply woke_cons|auto].
Qed.

Lemma waiting_subset s p q :
  q ∈ filter (λ pid, waits_matching s p pid = true) (sc_blocked s) → is_Some (waiting_on s q).
Proof.
  rewrite list_elem_of_filter. intros [Hq _]. unfold waits_matching in Hq.
  destruct (waiting_on s q); [by eexists|done].
Qed.

Lemma wake_matching_spec s p : sched_wf s →
  let waiting := filter (λ pid, waits_matching s p pid = true) (sc_blocked s) in
  ∃ s', wake_matching s p = Ret (s', zlen waiting) ∧ woke s waiting s' ∧ sched_wf s'.
Proof.
  intros H waiting. unfold wake_matching. fold waiting.
  destruct (wake_each_spec waiting s) as (s' & -> & Hs' & Hwf).
  - by apply NoDup_filter, H.
  - apply waiting_subset.
  - exists s'. split; [done|]. split; [done|auto].
Qed.

(** ** Sequences of operations *)

Inductive sched_op :=
| SSpawn (pid : Z)
| SPark (pid : Z) (reason : WaitReason)
| SDispatchPid (pid : Z)
| SYield
| SBlock (reason : WaitReason)
| SExit (status : Z)
| SWake (pid : Z)
| SStop (pid : Z)
| SContinue (pid : Z)
| SWakeWaiters (reason : WaitReason)
| SWakeChild (child : Z)
| SWakeActivity (child : Z)
| SWakeLocks
| SDispatch
| SReap (pid : Z)
| SDiscard (pid : Z).

(** What a caller observes: a refusal, a task taken from the front of the queue, a task selected
    by name, or any other success. *)
Inductive sched_event :=
| Refused (e : SchedulerError)
| Dispatched (pid : Z)
| Selected (pid : Z)
| Done.

Definition observe {A} (out : Scheduler * result SchedulerError A) (event : A → sched_event)
    : run (Scheduler * sched_event) :=
  match out with
  | (s, Ok a) => Ret (s, event a)
  | (s, Err e) => Ret (s, Refused e)
  end.

Definition sched_step (s : Scheduler) (op : sched_op) : run (Scheduler * sched_event) :=
  match op with
  | SSpawn pid => observe (scheduler_spawn s pid) (λ _, Done)
  | SPark pid reason => observe (park_runnable s pid reason) (λ _, Done)
  | SDispatchPid pid => observe (dispatch_pid s pid) (λ _, Selected pid)
  | SYield => observe (yield_current s) (λ _, Done)
  | SBlock reason => observe (block_current s reason) (λ _, Done)
  | SExit status => observe (exit_current s status) (λ _, Done)
  | SWake pid => observe (scheduler_wake s pid) (λ _, Done)
  | SStop pid => observe (scheduler_stop s pid) (λ _, Done)
  | SContinue pid => observe (continue_task s pid) (λ _, Done)
  | SWakeWaiters reason => '(s, _) ← wake_waiters s reason; Ret (s, Done)
  | SWakeChild child => '(s, _) ← wake_child_waiters s child; Ret (s, Done)
  | SWakeActivity child => '(s, _) ← wake_child_activity_waiters s child; Ret (s, Done)
  | SWakeLocks => '(s, _) ← wake_file_lock_waiters s; Ret (s, Done)
  | SDispatch =>
      observe (dispatch s) (λ pid, match pid with Some pid => Dispatched pid | None => Done end)
  | SReap pid => observe (scheduler_reap s pid) (λ _, Done)
  | SDiscard pid => observe (discard_runnable s pid) (λ _, Done)
  end.

Fixpoint sched_run (s : Scheduler) (ops : list sched_op) : run (Scheduler * list sched_event) :=
  match ops with
  | [] => Ret (s, [])
  | op :: ops =>
      '(s, event) ← sched_step s op;
      '(s, events) ← sched_run s ops;
      Ret (s, event :: events)
  end.

(** The predicate a wake-all applies to wait conditions. *)
Definition wake_predicate (op : sched_op) : option (WaitReason → bool) :=
  match op with
  | SWakeWaiters reason => Some (λ blocked, accepts blocked reason)
  | SWakeChild child => Some (λ reason, waits_for_child reason child)
  | SWakeActivity child => Some (λ reason, waits_for_child_activity reason child)
  | SWakeLocks => Some contains_lock
  | _ => None
  end.

Lemma wake_op_spec s op p : sched_wf s → wake_predicate op = Some p →
  let waiting := filter (λ pid, waits_matching s p pid = true) (sc_blocked s) in
  ∃ s', sched_step s op = Ret (s', Done) ∧ woke s waiting s' ∧ sched_wf s'.
Proof.
  intros H Hp. destruct (wake_matching_spec s p H) as (s' & Hrun & Hw & Hwf).
  exists s'. split; [|done].
  destruct op; simplify_eq/=; unfold wake_waiters, wake_child_waiters,
    wake_child_activity_waiters, wake_file_lock_waiters; try rewrite Hrun; try done.
  unfold wake_matching in Hrun. by rewrite Hrun.
Qed.

Lemma observe_wf {A} (out : Scheduler * result SchedulerError A) event :
  sched_wf out.1 → ∃ s' e, observe out event = Ret (s', e) ∧ sched_wf s'.
Proof. destruct out as [s' []]; simpl; eauto. Qed.

Lemma sched_step_wf s op : sched_wf s → ∃ s' e, sched_step s op = Ret (s', e) ∧ sched_wf s'.
Proof.
  intros H. destruct (wake_predicate op) as [p|] eqn:Hp.
  { destruct (wake_op_spec s op p H Hp) as (s' & ? & _ & ?). eauto. }
  destruct op; try done; apply observe_wf; eauto with sched.
Qed.

Lemma sched_run_wf s ops : sched_wf s → ∃ s' es, sched_run s ops = Ret (s', es) ∧ sched_wf s'.
Proof.
  revert s. induction ops as [|op ops IH]; intros s H; simpl; [by eauto|].
  destruct (sched_step_wf s op H) as (s1 & e & -> & H1).
  destruct (IH s1 H1) as (s2 & es & Hs2 & H2). exists s2, (e :: es). simpl. by rewrite Hs2.
Qed.

Lemma sched_run_split ops1 ops2 s s2 es :
  sched_run s (ops1 ++ ops2) = Ret (s2, es) →
  ∃ s1 es1 es2, sched_run s ops1 = Ret (s1, es1) ∧ sched_run s1 ops2 = Ret (s2, es2) ∧
    es = es1 ++ es2.
Proof.
  revert s es. induction ops1 as [|op ops1 IH]; intros s es; simpl; [by eauto 10|].
  destruct (sched_step s op) as [[s1 e]| |]; try done; simpl.
  destruct (sched_run s1 (ops1 ++ ops2)) as [[s3 es3]| |] eqn:Hr; try done; simpl.
  intros [= -> <-]. destruct (IH _ _ Hr) as (s4 & es1 & es2 & Hr1 & ? & ->).
  rewrite Hr1. simpl. by eauto 10.
Qed.

(** A refused operation leaves the scheduler as it was. *)
Lemma dispatch_refused s e s' : sched_wf s → dispatch s = (s', Err e) → s' = s.
Proof.
  intros H. destruct (sc_current s) as [c|] eqn:Hc.
  - unfold dispatch. rewrite Hc. congruence.
  - pose proof (dispatch_cases s H Hc) as Hd. destruct (sc_runnable s).
    + congruence.
    + destruct Hd as [-> _]. congruence.
Qed.

Lemma observe_refused {A} (out : Scheduler * result SchedulerError A) event s' e :
  (∀ a, event a ≠ Refused e) → observe out event = Ret (s', Refused e) → out = (s', Err e).
Proof. destruct out as [s1 []]; simpl; intros Hne [= -> Heq]; [by destruct (Hne a)|by subst]. Qed.

Lemma sched_step_refused s op s' e : sched_wf s → sched_step s op = Ret (s', Refused e) → s' = s.
Proof.
  intros H. destruct (wake_predicate op) as [p|] eqn:Hp.
  { destruct (wake_op_spec s op p H Hp) as (s1 & -> & _ & _). done. }
  destruct op; try done; simpl; intros Hr%observe_refused; try done;
    try (by eapply dispatch_refused); try (by intros []); revert Hr;
    unfold scheduler_spawn, park_runnable, dispatch_pid, yield_current, block_current,
      exit_current, scheduler_wake, scheduler_stop, continue_task, scheduler_reap,
      discard_runnable;
    repeat case_match; congruence.
Qed.

(** Starting from one running root task, any sequence of scheduler operations runs without
    reaching an [expect] failure and keeps the invariant: the runnable queue holds exactly the
    runnable tasks once each, the blocked queue exactly the waiting ones, the current task is the
    one running task, and at most [MAX_TASKS] tasks exist; and an operation that is refused at
    the end of it leaves the scheduler unchanged. *)
Theorem scheduler_queues_consistent root ops op :
  ∃ s events, sched_run (scheduler_new root) ops = Ret (s, events) ∧ sched_wf s ∧
    ∃ s' event, sched_step s op = Ret (s', event) ∧
      (∀ e, event = Refused e → s' = s).
Proof.
  destruct (sched_run_wf _ ops (scheduler_new_wf root)) as (s & es & Hrun & H).
  exists s, es. split; [done|]. split; [done|].
  destruct (sched_step_wf s op H) as (s' & ev & Hstep & _). exists s', ev. split; [done|].
  intros e ->. by eapply sched_step_refused.
Qed.

(** A wake-all wakes exactly the tasks whose wait condition matches: it never panics, it
    returns their number, each is made runnable (a stopped one keeps its stop and will resume
    runnable), the ones not stopped join the back of the runnable queue in the order in which
    they blocked, and every other task keeps its state and its place. *)
Theorem wake_matching_exact s p : sched_wf s →
  let waiting := filter (λ pid, waits_matching s p pid = true) (sc_blocked s) in
  ∃ s', wake_matching s p = Ret (s', zlen waiting) ∧ sched_wf s' ∧
    (∀ q, sc_states s' !! q =
       if waits_matching s p q then woken <$> sc_states s !! q else sc_states s !! q) ∧
    sc_runnable s' = sc_runnable s ++
      filter (λ q, is_blocked_state (sc_states s !! q) = true) waiting ∧
    sc_blocked s' = filter (λ q, waits_matching s p q = false) (sc_blocked s) ∧
    sc_current s' = sc_current s.
Proof.
  intros H waiting. destruct (wake_matching_spec s p H) as (s' & Hrun & [] & Hwf).
  exists s'. split; [done|]. split; [done|]. split; [|split; [done|split; [|done]]].
  - intros q. rewrite wo_states0.
    case_decide as Hq; rewrite list_elem_of_filter in Hq.
    + destruct Hq as [-> _]. done.
    + destruct (waits_matching s p q) eqn:Hm; [|done]. destruct Hq. split; [done|].
      apply (sw_blocked _ H). unfold waits_matching in Hm. by destruct (waiting_on s q).
  - rewrite wo_blocked0. apply list_filter_ext_in. intros q Hq.
    rewrite list_elem_of_filter. destruct (waits_matching s p q); naive_solver.
Qed.

Definition scheduler_example : run (Scheduler * list sched_event) :=
  sched_run (scheduler_new 1)
    [SSpawn 2; SSpawn 3; SSpawn 4; SBlock (Child 4); SDispatch; SBlock (Any [Timer 9; Child 4]);
     SDispatch; SBlock (Child 2); SStop 2].

Definition scheduler_example_state : Scheduler :=
  match scheduler_example with Ret (s, _) => s | _ => scheduler_new 1 end.

Lemma scheduler_example_wf : sched_wf scheduler_example_state.
Proof.
  unfold scheduler_example_state, scheduler_example.
  destruct (sched_run_wf (scheduler_new 1)
    [SSpawn 2; SSpawn 3; SSpawn 4; SBlock (Child 4); SDispatch; SBlock (Any [Timer 9; Child 4]);
     SDispatch; SBlock (Child 2); SStop 2] (scheduler_new_wf 1)) as (s & es & -> & ?). done.
Qed.

Lemma wake_matching_exact_witness :
  ∃ s', wake_matching scheduler_example_state (λ r, waits_for_child r 4) = Ret (s', 2) ∧
    sc_runnable s' = [4; 1] ∧ sc_blocked s' = [3].
Proof.
  destruct (wake_matching_exact scheduler_example_state (λ r, waits_for_child r 4)
    scheduler_example_wf) as (s' & Hrun & _ & _ & Hr & Hb & _).
  exists s'. split; [exact Hrun|]. rewrite Hr, Hb. split; vm_compute; reflexivity.
Defined.

(** ** FIFO order *)

(** [pid] is queued with at most [n] tasks ahead of it. *)
Definition queued (queue : list Z) (pid : Z) (n : nat) : Prop :=
  ∃ ahead behind, queue = ahead ++ pid :: behind ∧ (length ahead ≤ n)%nat.

Lemma queued_app queue more pid n : queued queue pid n → queued (queue ++ more) pid n.
Proof.
  intros (l1 & l2 & -> & ?). exists l1, (l2 ++ more). by rewrite <-app_assoc.
Qed.

Lemma queued_retain queue pid q n : q ≠ pid → queued queue pid n →
  queued (retain_other q queue) pid n.
Proof.
  intros Hne (l1 & l2 & -> & ?). exists (retain_other q l1), (retain_other q l2). split.
  - unfold retain_other. rewrite filter_app, filter_cons. by rewrite decide_True by done.
  - etrans; [apply length_filter|done].
Qed.

#[export] Hint Resolve queued_app queued_retain : sched.

(** The operations that take a queued task out of the queue other than by running it. *)
Definition withdraws (pid : Z) (op : sched_op) : bool :=
  match op with
  | SPark q _ | SStop q | SDiscard q => q =? pid
  | _ => false
  end.

Definition is_dispatch (event : sched_event) : bool :=
  match event with Dispatched _ => true | _ => false end.

Definition dispatch_count (events : list sched_event) : nat :=
  length (filter (λ e, is_dispatch e = true) events).

Definition runs (pid : Z) (event : sched_event) : Prop :=
  event = Dispatched pid ∨ event = Selected pid.

Lemma dispatch_queued s pid n s' ev :
  sched_wf s → queued (sc_runnable s) pid n → sched_step s SDispatch = Ret (s', ev) →
  runs pid ev ∨ (is_dispatch ev = false ∧ queued (sc_runnable s') pid n) ∨
  ∃ m, n = S m ∧ queued (sc_runnable s') pid m.
Proof.
  intros H Hq. simpl. destruct (sc_current s) as [c|] eqn:Hc.
  { unfold dispatch. rewrite Hc. intros [= <- <-]. auto. }
  pose proof (dispatch_cases s H Hc) as Hd. destruct Hq as (l1 & l2 & Hq & Hlen).
  rewrite Hq in Hd. destruct l1 as [|h l1]; simpl in Hd; destruct Hd as (-> & _ & _).
  - intros [= <- <-]. by left; left.
  - intros [= <- <-]. right; right. simpl in Hlen. destruct n as [|m]; [lia|].
    exists m. split; [done|]. exists l1, l2. split; [done|lia].
Qed.

Lemma step_queued s op pid n s' ev :
  sched_wf s → queued (sc_runnable s) pid n → withdraws pid op = false →
  sched_step s op = Ret (s', ev) →
  runs pid ev ∨ (is_dispatch ev = false ∧ queued (sc_runnable s') pid n) ∨
  ∃ m, n = S m ∧ queued (sc_runnable s') pid m.
Proof.
  intros H Hq Hw. destruct (wake_predicate op) as [p|] eqn:Hp.
  { destruct (wake_op_spec s op p H Hp) as (s1 & -> & [] & _). intros [= <- <-].
    right; left. split; [done|]. rewrite wo_runnable0. auto with sched. }
  destruct op; try done; try (by apply dispatch_queued); clear H Hp; simpl in *;
    unfold scheduler_spawn, park_runnable, dispatch_pid, yield_current, block_current,
      exit_current, scheduler_wake, scheduler_stop, continue_task, scheduler_reap,
      discard_runnable;
    bool_to_prop; repeat case_match; simpl; intros [= <- <-]; unfold runs;
    try (right; left; split; [done|]; simpl; by auto with sched).
  destruct (decide (pid0 = pid)) as [->|]; [by left; right|].
  right; left. split; [done|]. simpl. auto with sched.
Qed.

(** No task overtakes a queued one more than its position allows: over any sequence of
    operations that does not withdraw the task from the queue, once more dispatches have happened
    than tasks stood ahead of it, the task itself has been run. *)
Theorem fifo_bounded_bypass s ops s' events pid ahead behind :
  sched_wf s → sc_runnable s = ahead ++ pid :: behind →
  Forall (λ op, withdraws pid op = false) ops →
  sched_run s ops = Ret (s', events) →
  (length ahead < dispatch_count events)%nat →
  Exists (runs pid) events.
Proof.
  intros H Hq. assert (Hqd : queued (sc_runnable s) pid (length ahead)) by (exists ahead, behind; auto).
  clear Hq. generalize dependent (length ahead). intros n. revert s n events H.
  induction ops as [|op ops IH]; intros s n events H Hqd Hops; simpl.
  { intros [= <- <-]. unfold dispatch_count. simpl. lia. }
  apply Forall_cons in Hops as [Hop Hops].
  destruct (sched_step_wf s op H) as (s1 & ev & Hstep & H1). rewrite Hstep. simpl.
  destruct (sched_run s1 ops) as [[s2 es]| |] eqn:Hrun; try done. simpl. intros [= <- <-] Hlt.
  apply Exists_cons. unfold dispatch_count in Hlt. rewrite filter_cons in Hlt.
  destruct (step_queued s op pid n s1 ev H Hqd Hop Hstep) as [|[[Hnd Hq1]|(m & -> & Hq1)]].
  - by left.
  - right. rewrite Hnd in Hlt. simpl in Hlt. by apply (IH s1 n es).
  - right. apply (IH s1 m es H1 Hq1 Hops Hrun). unfold dispatch_count.
    case_decide; simpl in Hlt; lia.
Qed.

Definition fifo_example : Scheduler :=
  match sched_run (scheduler_new 1) [SSpawn 2; SSpawn 3; SSpawn 4; SYield] with
  | Ret (s, _) => s
  | _ => scheduler_new 1
  end.

Lemma fifo_example_wf : sched_wf fifo_example.
Proof.
  unfold fifo_example.
  destruct (sched_run_wf (scheduler_new 1) [SSpawn 2; SSpawn 3; SSpawn 4; SYield]
    (scheduler_new_wf 1)) as (s & es & -> & ?). done.
Qed.

Definition fifo_example_ops : list sched_op :=
  [SDispatch; SYield; SStop 3; SDispatch; SYield; SSpawn 9; SDispatch].

Lemma fifo_bounded_bypass_witness :
  ∃ s' events, sched_run fifo_example fifo_example_ops = Ret (s', events) ∧
    Exists (runs 4) events.
Proof.
  assert (Hr : ∃ s', sched_run fifo_example fifo_example_ops =
    Ret (s', [Dispatched 2; Done; Done; Dispatched 4; Done; Done; Dispatched 1])).
  { eexists. vm_compute. reflexivity. }
  destruct Hr as [s' Hr]. exists s', [Dispatched 2; Done; Done; Dispatched 4; Done; Done; Dispatched 1].
  split; [exact Hr|].
  apply (fifo_bounded_bypass fifo_example fifo_example_ops s' _ 4 [2; 3] [1]).
  - exact fifo_example_wf.
  - vm_compute. reflexivity.
  - repeat constructor.
  - exact Hr.
  - vm_compute. lia.
Defined.

(** The operations by which the running task gives up the processor. *)
Definition gives_up (op : sched_op) : bool :=
  match op with SYield | SBlock _ | SExit _ => true | _ => false end.

Definition rounds (ops : list sched_op) : list sched_op := ops ≫= λ op, [SDispatch; op].

Lemma give_up_step s op c : sc_current s = Some c → gives_up op = true →
  ∃ s', sched_step s op = Ret (s', Done) ∧ sc_current s' = None ∧
    ∃ more, sc_runnable s' = sc_runnable s ++ more.
Proof.
  intros Hc Hop. destruct op; try done; simpl;
    unfold yield_current, block_current, exit_current; rewrite Hc; simpl; eexists;
    (split; [done|]); (split; [done|]); simpl; eauto using app_nil_r.
Qed.

(** Round-robin progress: with no task running, if each dispatched task in turn gives up the
    processor by yielding, blocking or exiting, then as many rounds as the queue position of a
    task dispatch that task. *)
Theorem round_robin_progress s pid ahead behind ops :
  sched_wf s → sc_current s = None → sc_runnable s = ahead ++ pid :: behind →
  Forall (λ op, gives_up op = true) ops → (length ahead < length ops)%nat →
  ∃ s' events, sched_run s (rounds ops) = Ret (s', events) ∧
    events !! (2 * length ahead)%nat = Some (Dispatched pid).
Proof.
  revert s behind ops. induction ahead as [|h ahead IH]; intros s behind ops H Hc Hq Hops Hlen;
    (destruct ops as [|op ops]; [simpl in Hlen; lia|]); apply Forall_cons in Hops as [Hop Hops];
    pose proof (dispatch_cases s H Hc) as Hd; rewrite Hq in Hd; simpl in Hd;
    destruct Hd as (Hd & _ & _); pose proof (dispatch_wf s H) as H1; rewrite Hd in H1; simpl in H1;
    cbn [rounds mbind list_bind app sched_run]; simpl (sched_step s _); rewrite Hd; simpl;
    match goal with H : sched_wf ?s1 |- context [sched_step ?s1 _] =>
      destruct (give_up_step s1 op _ eq_refl Hop) as (s2 & Hs2 & Hc2 & more & Hq2);
      destruct (sched_step_wf s1 op H) as (s2' & e & Hs2' & H2)
    end; rewrite Hs2 in Hs2' |- *; simplify_eq/=.
  - destruct (sched_run_wf s2' (rounds ops) H2) as (s3 & es & Hr & _).
    change (ops ≫= _) with (rounds ops). rewrite Hr. simpl. eauto.
  - destruct (IH s2' (behind ++ more) ops H2 Hc2) as (s3 & es & Hr & Hat); [|done|lia|].
    { by rewrite Hq2, <-app_assoc. }
    change (ops ≫= _) with (rounds ops). rewrite Hr. simpl. do 2 eexists. split; [done|].
    by replace (length ahead + S (length ahead + 0))%nat with (S (2 * length ahead)) by lia.
Qed.

Lemma round_robin_progress_witness :
  ∃ s' events, sched_run fifo_example (rounds [SYield; SBlock (Timer 5); SExit 0]) = Ret (s', events)
    ∧ events !! 4%nat = Some (Dispatched 4).
Proof.
  apply (round_robin_progress fifo_example 4 [2; 3] [1] [SYield; SBlock (Timer 5); SExit 0]).
  - exact fifo_example_wf.
  - vm_compute. reflexivity.
  - vm_compute. reflexivity.
  - repeat constructor.
  - simpl. lia.
Defined.

(** ** Stopped tasks *)

(** Whether an operation wakes a task that waits on [reason]. *)
Definition op_wakes (pid : Z) (reason : WaitReason) (op : sched_op) : bool :=
  match op with
  | SWake q => q =? pid
  | _ => match wake_predicate op with Some p => p reason | None => false end
  end.

Definition resume_after (woke : bool) (reason : WaitReason) : StoppedTask :=
  if woke then ResumeRunnable else ResumeBlocked reason.

Lemma stopped_step s op pid r w s' ev :
  sched_wf s → sc_states s !! pid = Some (TaskStopped (resume_after w r)) →
  (∀ q, op = SContinue q → q ≠ pid) → sched_step s op = Ret (s', ev) →
  ¬ runs pid ev ∧
  sc_states s' !! pid = Some (TaskStopped (resume_after (w || op_wakes pid r op) r)).
Proof.
  intros H Hst Hop. unfold runs. destruct (wake_predicate op) as [p|] eqn:Hp.
  { destruct (wake_op_spec s op p H Hp) as (s1 & -> & [] & _). intros [= <- <-].
    split; [naive_solver|]. rewrite wo_states0.
    replace (op_wakes pid r op) with (p r) by (destruct op; simplify_eq/=; done).
    assert (Hw : pid ∈ filter (λ q, waits_matching s p q = true) (sc_blocked s) ↔
      w = false ∧ p r = true).
    { rewrite list_elem_of_filter, (sw_blocked _ H). unfold waits_matching, waiting_on.
      rewrite Hst. destruct w; simpl; [naive_solver|].
      split; [naive_solver|]. intros [_ ?]. split; [done|by eexists]. }
    case_decide as Hin; rewrite Hw in Hin; rewrite Hst; destruct w, (p r); simpl; naive_solver. }
  destruct (sched_wf_at _ _ _ H Hst) as (Hr & _ & Hc). simpl in Hr, Hc.
  destruct op; try done; simpl;
    unfold scheduler_spawn, park_runnable, dispatch_pid, yield_current, block_current, dispatch,
      exit_current, scheduler_wake, scheduler_stop, continue_task, scheduler_reap,
      discard_runnable; simpl; rewrite ?orb_false_r;
    try (destruct (decide (pid0 = pid)) as [->|];
      [rewrite ?Hst, ?Z.eqb_refl, ?orb_true_r|
       rewrite ?(proj2 (Z.eqb_neq _ _)), ?orb_false_r by done]);
    try (exfalso; by eapply Hop);
    repeat case_match; simpl; intros [= <- <-]; (split; [intros [?|?]; congruence|]); simpl;
    first [done | by rewrite lookup_insert_eq | by rewrite lookup_insert_ne by congruence
          | by rewrite lookup_delete_ne by congruence | by destruct w].
Qed.

(** What a stopped task resumes as once the operations are done: a task that was stopped while it was
    runnable is runnable again; one that was blocked is runnable when one of them woke it. *)
Definition resumes_runnable (pid : Z) (resume : StoppedTask) (ops : list sched_op) : bool :=
  match resume with ResumeRunnable => true | ResumeBlocked r => existsb (op_wakes pid r) ops end.
Definition resumed (resume : StoppedTask) : TaskState :=
  match resume with ResumeRunnable => TaskRunnable | ResumeBlocked r => TaskBlocked r end.

Lemma stopped_run pid r ops : ∀ w s s' events, SContinue pid ∉ ops → sched_wf s →
  sc_states s !! pid = Some (TaskStopped (resume_after w r)) → sched_run s ops = Ret (s', events) →
  ¬ Exists (runs pid) events ∧
  sc_states s' !! pid = Some (TaskStopped (resume_after (w || existsb (op_wakes pid r) ops) r)).
Proof.
  induction ops as [|op ops IH]; intros w s s' events Hn H Hst; simpl.
  { intros [= <- <-]. rewrite orb_false_r. split; [by intros ?%Exists_nil|done]. }
  rewrite not_elem_of_cons in Hn. destruct Hn as [Hne Hn].
  destruct (sched_step_wf s op H) as (s1 & ev & Hstep & H1). rewrite Hstep. simpl.
  destruct (sched_run s1 ops) as [[s2 es]| |] eqn:Hr; try done. simpl. intros [= <- <-].
  destruct (stopped_step s op pid r w s1 ev H Hst) as [Hev Hst1]; [congruence|done|].
  destruct (IH _ s1 s2 es Hn H1 Hst1 Hr) as [Hes Hst2]. rewrite orb_assoc. split; [|done].
  rewrite Exists_cons. tauto.
Qed.

(** C39: A stopped task is inert and forgets no wake-up: over any sequence of operations that does not
    continue it, it never runs and stays stopped. Continuing it then makes it runnable, at the end of
    the queue, exactly when it was runnable when it was stopped or an operation woke it (by name or by
    its wait condition) in the meantime; otherwise it is blocked on the condition it had. *)
Theorem stopped_task_keeps_wakeups s pid resume ops s' events :
  sched_wf s → sc_states s !! pid = Some (TaskStopped resume) →
  SContinue pid ∉ ops → sched_run s ops = Ret (s', events) →
  ¬ Exists (runs pid) events ∧
  let ready := resumes_runnable pid resume ops in
  sc_states s' !! pid = Some (TaskStopped (if ready then ResumeRunnable else resume)) ∧
  (continue_task s' pid).2 = Ok tt ∧
  sc_states (continue_task s' pid).1 !! pid = Some (if ready then TaskRunnable else resumed resume) ∧
  sc_runnable (continue_task s' pid).1 = sc_runnable s' ++ (if ready then [pid] else []).
Proof.
  intros H Hst Hn Hrun. unfold continue_task. destruct resume as [|r]; cbn [resumes_runnable resumed].
  - destruct (stopped_run pid (Timer 0) ops true s s' events Hn H Hst Hrun) as [Hev Hs']. cbn in Hs'.
    rewrite Hs'. split; [done|]. split; [done|]. split; [done|]. split; [apply lookup_insert_eq|done].
  - destruct (stopped_run pid r ops false s s' events Hn H Hst Hrun) as [Hev Hs']. cbn [orb] in Hs'.
    rewrite Hs'. split; [done|]. cbv zeta. destruct (existsb (op_wakes pid r) ops); cbn [resume_after];
      (split; [done|]; split; [done|]; split; [apply lookup_insert_eq|]); [done|by rewrite app_nil_r].
Qed.

Lemma stopped_task_keeps_wakeups_witness :
  ∃ s' events, sched_run scheduler_example_state [SDispatch; SWakeChild 4; SExit 0] = Ret (s', events)
    ∧ ¬ Exists (runs 2) events
    ∧ sc_states (continue_task s' 2).1 !! 2 = Some TaskRunnable.
Proof.
  assert (Hr : ∃ s' events, sched_run scheduler_example_state [SDispatch; SWakeChild 4; SExit 0] =
    Ret (s', events)) by (do 2 eexists; vm_compute; reflexivity).
  destruct Hr as (s' & events & Hr). exists s', events. split; [exact Hr|].
  destruct (stopped_task_keeps_wakeups scheduler_example_state 2 (ResumeBlocked (Any [Timer 9; Child 4]))
    [SDispatch; SWakeChild 4; SExit 0] s' events scheduler_example_wf) as (H1 & H2).
  - vm_compute. reflexivity.
  - set_solver.
  - exact Hr.
  - split; [exact H1|]. destruct H2 as (_ & _ & H2 & _). exact H2.
Defined.

