(* ===== verification/Variables.v ===== *)
(** * Shell variable storage (src/src/variables.rs)

    Scalar variables, arrays and positional parameters, each with a running estimate of its
    modelled bytes that every mutation updates with saturating arithmetic. The theorems show that
    the running estimate equals a recount of the contents after any sequence of mutations, as
    long as the bytes ever stored fit in a [u64]. *)

From S2P Require Import Prelude.
From S2P Require Import RustStr.

Definition ENTRY_OVERHEAD : Z := 48.

Definition string_bytes (value : string) : Z := sat_add64 (str_len value) ENTRY_OVERHEAD.
Definition entry_bytes (name value : string) : Z :=
  sat_add64 (string_bytes name) (string_bytes value).

(** ** Arrays values *)

Inductive ArrayVal :=
| Indexed (values : gmap Z string)
| Assoc (values : gmap string string).

Definition array_bytes (a : ArrayVal) : Z :=
  match a with
  | Indexed values => sat_total string_bytes (btree_values values)
  | Assoc values => sat_total (uncurry entry_bytes) (btree_iter values)
  end.

(** [end_index]: a [usize] addition that saturates. *)
Definition end_index (a : ArrayVal) : Z :=
  match a with
  | Indexed values =>
      match btree_last values with Some (index, _) => sat_add64 index 1 | None => 0 end
  | Assoc _ => 0
  end.

(** ** Scalar variables *)

Record Variables := MkVariables {
  va_values : gmap string string;
  va_bytes : Z
}.

Definition variables_default : Variables := MkVariables ∅ 0.

Definition variables_insert (v : Variables) (name value : string) : Variables * option string :=
  let bytes := sat_add64 (va_bytes v) (entry_bytes name value) in
  let previous := va_values v !! name in
  let bytes :=
    match previous with Some old => sat_sub bytes (entry_bytes name old) | None => bytes end in
  (MkVariables (<[name := value]> (va_values v)) bytes, previous).

Definition variables_remove (v : Variables) (name : string) : Variables * option string :=
  let previous := va_values v !! name in
  let bytes :=
    match previous with
    | Some old => sat_sub (va_bytes v) (entry_bytes name old)
    | None => va_bytes v
    end in
  (MkVariables (delete name (va_values v)) bytes, previous).

(** The [HashMap] is visited in an unspecified order; [map_to_list] is one. *)
Definition variables_retain (v : Variables) (keep : string → string → bool) : Variables :=
  let released :=
    sat_total (uncurry (λ name value, if keep name value then 0 else entry_bytes name value))
      (map_to_list (va_values v)) in
  MkVariables (filter (λ '(name, value), keep name value = true) (va_values v))
    (sat_sub (va_bytes v) released).

Definition variables_clear (v : Variables) : Variables := MkVariables ∅ 0.

Definition variables_from_iter (entries : list (string * string)) : Variables :=
  foldl (λ v '(name, value), (variables_insert v name value).1) variables_default entries.

(** ** Arrays *)

Record Arrays := MkArrays {
  ar_values : gmap string ArrayVal;
  ar_bytes : Z
}.

Definition arrays_default : Arrays := MkArrays ∅ 0.

Definition arrays_insert (a : Arrays) (name : string) (value : ArrayVal)
    : Arrays * option ArrayVal :=
  let bytes := sat_add64 (sat_add64 (ar_bytes a) (string_bytes name)) (array_bytes value) in
  let previous := ar_values a !! name in
  let bytes :=
    match previous with
    | Some old => sat_sub (sat_sub bytes (string_bytes name)) (array_bytes old)
    | None => bytes
    end in
  (MkArrays (<[name := value]> (ar_values a)) bytes, previous).

Definition arrays_remove (a : Arrays) (name : string) : Arrays * option ArrayVal :=
  let previous := ar_values a !! name in
  let bytes :=
    match previous with
    | Some old => sat_sub (sat_sub (ar_bytes a) (string_bytes name)) (array_bytes old)
    | None => ar_bytes a
    end in
  (MkArrays (delete name (ar_values a)) bytes, previous).

Definition arrays_clear (a : Arrays) : Arrays := MkArrays ∅ 0.

Inductive ArrayKey :=
| Index (index : Z)
| Name (name : string).

Definition set_element (a : Arrays) (name : string) (key : ArrayKey) (value : string)
    : Arrays * option unit :=
  let added := string_bytes value in
  let update (array : ArrayVal) (removed : option Z) (extra : Z) :=
    (MkArrays (<[name := array]> (ar_values a))
       (sat_sub (sat_add64 (sat_add64 (ar_bytes a) added) extra) (default 0 removed)),
     Some ()) in
  match ar_values a !! name, key with
  | Some (Indexed values), Index index =>
      update (Indexed (<[index := value]> values)) (string_bytes <$> values !! index) 0
  | Some (Assoc values), Name key =>
      let extra := string_bytes key in
      update (Assoc (<[key := value]> values))
        ((λ old, sat_add64 (string_bytes old) extra) <$> values !! key) extra
  | _, _ => (a, None)
  end.

Definition unset_element (a : Arrays) (name : string) (key : ArrayKey) : Arrays * option unit :=
  let update (array : ArrayVal) (removed : option Z) :=
    (MkArrays (<[name := array]> (ar_values a)) (sat_sub (ar_bytes a) (default 0 removed)),
     Some ()) in
  match ar_values a !! name, key with
  | Some (Indexed values), Index index =>
      update (Indexed (delete index values)) (string_bytes <$> values !! index)
  | Some (Assoc values), Name key =>
      update (Assoc (delete key values)) ((λ old, entry_bytes key old) <$> values !! key)
  | _, _ => (a, None)
  end.

Definition clear_elements (a : Arrays) (name : string) : Arrays :=
  match ar_values a !! name with
  | None => a
  | Some array =>
      let released := array_bytes array in
      let array := match array with Indexed _ => Indexed ∅ | Assoc _ => Assoc ∅ end in
      MkArrays (<[name := array]> (ar_values a)) (sat_sub (ar_bytes a) released)
  end.

(** ** Positional parameters *)

Record Positional := MkPositional {
  po_values : list string;
  po_bytes : Z
}.

Definition positional_from (values : list string) : Positional :=
  MkPositional values (sat_total string_bytes values).

Definition positional_replace (p : Positional) (values : list string) : Positional * Positional :=
  (positional_from values, p).

Definition positional_shift (p : Positional) (count : Z) : Positional :=
  let count := Z.min count (zlen (po_values p)) in
  let released := sat_total string_bytes (take (Z.to_nat count) (po_values p)) in
  MkPositional (drop (Z.to_nat count) (po_values p)) (sat_sub (po_bytes p) released).

(** ** The recount

    What the estimate should be, in unbounded arithmetic. *)

Definition string_cost (value : string) : Z := str_len value + ENTRY_OVERHEAD.
Definition entry_cost (name value : string) : Z := string_cost name + string_cost value.
Definition array_cost (a : ArrayVal) : Z :=
  match a with
  | Indexed values => map_sum (λ _ value, string_cost value) values
  | Assoc values => map_sum entry_cost values
  end.
Definition variables_recount (v : Variables) : Z := map_sum entry_cost (va_values v).
Definition arrays_recount (a : Arrays) : Z :=
  map_sum (λ name array, string_cost name + array_cost array) (ar_values a).

Lemma string_cost_pos value : 0 ≤ string_cost value.
Proof. unfold string_cost, str_len, ENTRY_OVERHEAD. lia. Qed.
Lemma entry_cost_pos name value : 0 ≤ entry_cost name value.
Proof. pose proof (string_cost_pos name). pose proof (string_cost_pos value). unfold entry_cost. lia. Qed.
Lemma array_cost_pos a : 0 ≤ array_cost a.
Proof.
  destruct a; apply map_sum_nonneg; intros; [apply string_cost_pos|apply entry_cost_pos].
Qed.
Lemma named_array_cost_pos name a : 0 ≤ string_cost name + array_cost a.
Proof. pose proof (string_cost_pos name). pose proof (array_cost_pos a). lia. Qed.

Create HintDb cost.
#[export] Hint Resolve string_cost_pos entry_cost_pos array_cost_pos named_array_cost_pos : cost.

Lemma string_bytes_clamp value : string_bytes value = clamp64 (string_cost value).
Proof. reflexivity. Qed.

Lemma entry_bytes_clamp name value : entry_bytes name value = clamp64 (entry_cost name value).
Proof.
  unfold entry_bytes. rewrite !string_bytes_clamp. by rewrite sat_add64_clamp by auto with cost.
Qed.

Lemma array_bytes_clamp a : array_bytes a = clamp64 (array_cost a).
Proof.
  destruct a as [values|values]; simpl.
  - rewrite (sat_total_clamp string_cost) by (auto using string_bytes_clamp with cost). f_equal.
    rewrite map_sum_list. unfold btree_values.
    rewrite (exact_total_perm string_cost _ (map_to_list values).*2)
      by (by rewrite btree_iter_perm).
    induction (map_to_list values) as [|[k v] l IH]; [done|]. simpl. by rewrite <-IH.
  - rewrite (sat_total_clamp (uncurry entry_cost)).
    + f_equal. by rewrite (exact_total_perm _ _ _ (btree_iter_perm values)), exact_total_map.
    + intros []. simpl. auto with cost.
    + intros []. apply entry_bytes_clamp.
Qed.

Ltac exact_bytes :=
  rewrite ?entry_bytes_clamp, ?string_bytes_clamp, ?array_bytes_clamp;
  unfold clamp64, sat_add64, sat_sub; lia.

(** ** Exactness of the running estimates *)

Inductive variables_op :=
| VInsert (name value : string)
| VRemove (name : string)
| VRetain (keep : string → string → bool)
| VClear.

Definition variables_step (v : Variables) (op : variables_op) : Variables :=
  match op with
  | VInsert name value => (variables_insert v name value).1
  | VRemove name => (variables_remove v name).1
  | VRetain keep => variables_retain v keep
  | VClear => variables_clear v
  end.

(** The bytes an operation stores. *)
Definition variables_stored (op : variables_op) : Z :=
  match op with VInsert name value => entry_cost name value | _ => 0 end.

Lemma variables_step_exact v op :
  va_bytes v = variables_recount v → variables_recount v + variables_stored op ≤ U64_MAX →
  let v' := variables_step v op in
  va_bytes v' = variables_recount v' ∧
  variables_recount v' ≤ variables_recount v + variables_stored op.
Proof.
  unfold variables_recount. intros Hb Hfit. destruct op as [name value|name|keep|]; simpl in *.
  - unfold variables_insert; simpl. rewrite Hb.
    pose proof (entry_cost_pos name value).
    pose proof (map_sum_nonneg entry_cost (va_values v) entry_cost_pos).
    destruct (va_values v !! name) as [old|] eqn:Hold.
    + pose proof (entry_cost_pos name old).
      pose proof (map_sum_elem_le entry_cost _ _ _ entry_cost_pos Hold).
      rewrite (map_sum_replace _ _ _ _ _ Hold). split; [exact_bytes|lia].
    + rewrite map_sum_insert by done. split; [exact_bytes|lia].
  - unfold variables_remove; simpl. rewrite Hb.
    destruct (va_values v !! name) as [old|] eqn:Hold.
    + pose proof (entry_cost_pos name old).
      pose proof (map_sum_elem_le entry_cost _ _ _ entry_cost_pos Hold).
      rewrite (map_sum_delete _ _ _ _ Hold). split; [exact_bytes|lia].
    + rewrite delete_id by done. split; [done|lia].
  - set (dropped := λ name value, if keep name value then 0 else entry_cost name value).
    assert (Hd : ∀ name value, 0 ≤ dropped name value).
    { intros. unfold dropped. pose proof (entry_cost_pos name value). case_match; lia. }
    rewrite (sat_total_clamp (uncurry dropped)).
    + rewrite exact_total_map, Hb, map_sum_filter. fold dropped.
      pose proof (map_sum_nonneg dropped (va_values v) Hd).
      assert (map_sum dropped (va_values v) ≤ map_sum entry_cost (va_values v)).
      { pose proof (map_sum_filter entry_cost keep (va_values v)) as Hf. fold dropped in Hf.
        pose proof (map_sum_nonneg entry_cost
          (filter (λ '(k, x), keep k x = true) (va_values v)) entry_cost_pos). lia. }
      split; [exact_bytes|lia].
    + intros []. apply Hd.
    + intros [name value]. simpl. unfold dropped. case_match; [done|]. apply entry_bytes_clamp.
  - rewrite map_sum_empty. pose proof (map_sum_nonneg entry_cost (va_values v) entry_cost_pos). lia.
Qed.

(** The running estimate of the scalar variables equals a recount of what they hold, after
    any sequence of inserts, removals, retains and clears whose stored bytes fit in a [u64]. *)
Theorem variables_bytes_exact ops :
  exact_total variables_stored ops ≤ U64_MAX →
  let v := foldl variables_step variables_default ops in
  va_bytes v = variables_recount v ∧ variables_recount v ≤ exact_total variables_stored ops.
Proof.
  intros Hfit v. unfold v. clear v.
  assert (Hpos : ∀ op, 0 ≤ variables_stored op).
  { intros []; simpl; auto using entry_cost_pos with lia. }
  enough (∀ v, va_bytes v = variables_recount v →
    variables_recount v + exact_total variables_stored ops ≤ U64_MAX →
    let v' := foldl variables_step v ops in
    va_bytes v' = variables_recount v' ∧
    variables_recount v' ≤ variables_recount v + exact_total variables_stored ops) as Hrun.
  { by apply (Hrun variables_default). }
  clear Hfit. induction ops as [|op ops IH]; simpl; intros v Hb Hfit; [split; [done|lia]|].
  pose proof (exact_total_nonneg variables_stored ops Hpos).
  destruct (variables_step_exact v op Hb) as [Hb1 Hle]; [lia|].
  destruct (IH (variables_step v op) Hb1) as [Hb2 Hle2]; [lia|]. split; [done|lia].
Qed.

Lemma variables_bytes_exact_witness :
  va_bytes (foldl variables_step variables_default
    [VInsert "x" "abc"; VInsert "y" ""; VInsert "x" "abcdef"; VRetain (λ n _, String.eqb n "x")])
  = entry_cost "x" "abcdef".
Proof.
  refine (eq_trans (proj1 (variables_bytes_exact
    [VInsert "x" "abc"; VInsert "y" ""; VInsert "x" "abcdef"; VRetain (λ n _, String.eqb n "x")] _)) _);
    vm_compute; [discriminate|reflexivity].
Defined.

Inductive arrays_op :=
| AInsert (name : string) (value : ArrayVal)
| ARemove (name : string)
| AClear
| ASet (name : string) (key : ArrayKey) (value : string)
| AUnset (name : string) (key : ArrayKey)
| AClearElements (name : string).

Definition arrays_step (a : Arrays) (op : arrays_op) : Arrays :=
  match op with
  | AInsert name value => (arrays_insert a name value).1
  | ARemove name => (arrays_remove a name).1
  | AClear => arrays_clear a
  | ASet name key value => (set_element a name key value).1
  | AUnset name key => (unset_element a name key).1
  | AClearElements name => clear_elements a name
  end.

Definition arrays_stored (op : arrays_op) : Z :=
  match op with
  | AInsert name value => string_cost name + array_cost value
  | ASet _ (Index _) value => string_cost value
  | ASet _ (Name key) value => entry_cost key value
  | _ => 0
  end.

(** What one element costs inside an array, and how an update of it moves the array's cost. *)
Lemma array_cost_set_index values index value :
  array_cost (Indexed (<[index := value]> values)) + default 0 (string_cost <$> values !! index) =
    array_cost (Indexed values) + string_cost value.
Proof.
  simpl. destruct (values !! index) as [old|] eqn:Hold; simpl.
  - rewrite (map_sum_replace _ _ _ _ _ Hold). lia.
  - rewrite map_sum_insert by done. lia.
Qed.

Lemma array_cost_set_name values key value :
  array_cost (Assoc (<[key := value]> values)) + default 0 (entry_cost key <$> values !! key) =
    array_cost (Assoc values) + entry_cost key value.
Proof.
  simpl. destruct (values !! key) as [old|] eqn:Hold; simpl.
  - rewrite (map_sum_replace _ _ _ _ _ Hold). lia.
  - rewrite map_sum_insert by done. lia.
Qed.

Lemma array_cost_unset_index values index :
  array_cost (Indexed (delete index values)) + default 0 (string_cost <$> values !! index) =
    array_cost (Indexed values).
Proof.
  simpl. destruct (values !! index) as [old|] eqn:Hold; simpl.
  - rewrite (map_sum_delete _ _ _ _ Hold). lia.
  - rewrite delete_id by done. lia.
Qed.

Lemma array_cost_unset_name values key :
  array_cost (Assoc (delete key values)) + default 0 (entry_cost key <$> values !! key) =
    array_cost (Assoc values).
Proof.
  simpl. destruct (values !! key) as [old|] eqn:Hold; simpl.
  - rewrite (map_sum_delete _ _ _ _ Hold). lia.
  - rewrite delete_id by done. lia.
Qed.

(** Replacing an array: the recount moves by the change of the array's cost. *)
Lemma arrays_recount_update a name old new bytes :
  ar_values a !! name = Some old →
  arrays_recount (MkArrays (<[name := new]> (ar_values a)) bytes) =
    arrays_recount a - array_cost old + array_cost new.
Proof. intros Hold. unfold arrays_recount. simpl. rewrite (map_sum_replace _ _ _ _ _ Hold). lia. Qed.

Lemma arrays_recount_fresh a name new bytes :
  ar_values a !! name = None →
  arrays_recount (MkArrays (<[name := new]> (ar_values a)) bytes) =
    arrays_recount a + (string_cost name + array_cost new).
Proof. intros Hnone. unfold arrays_recount. simpl. rewrite map_sum_insert by done. lia. Qed.

Lemma arrays_recount_delete a name old bytes :
  ar_values a !! name = Some old →
  arrays_recount (MkArrays (delete name (ar_values a)) bytes) =
    arrays_recount a - (string_cost name + array_cost old).
Proof. intros Hold. unfold arrays_recount. simpl. by rewrite (map_sum_delete _ _ _ _ Hold). Qed.

Lemma arrays_recount_has a name old :
  ar_values a !! name = Some old → string_cost name + array_cost old ≤ arrays_recount a.
Proof.
  intros Hold. apply (map_sum_elem_le _ _ _ _ named_array_cost_pos Hold).
Qed.

Lemma default_string_bytes o : default 0 (string_bytes <$> o) = clamp64 (default 0 (string_cost <$> o)).
Proof. by destruct o. Qed.
Lemma default_entry_bytes key o :
  default 0 (entry_bytes key <$> o) = clamp64 (default 0 (entry_cost key <$> o)).
Proof. destruct o; simpl; [apply entry_bytes_clamp|done]. Qed.
Lemma default_extra_bytes key o :
  default 0 ((λ old, sat_add64 (string_bytes old) (string_bytes key)) <$> o) =
    clamp64 (default 0 (entry_cost key <$> o)).
Proof.
  destruct o; simpl; [|done]. rewrite !string_bytes_clamp, sat_add64_clamp by auto with cost.
  unfold entry_cost. f_equal. lia.
Qed.
Lemma default_cost_pos {A} (f : A → Z) o : (∀ a, 0 ≤ f a) → 0 ≤ default 0 (f <$> o).
Proof. destruct o; simpl; auto with lia. Qed.

Lemma set_element_exact a name key value :
  ar_bytes a = arrays_recount a → arrays_recount a + arrays_stored (ASet name key value) ≤ U64_MAX →
  let a' := (set_element a name key value).1 in
  ar_bytes a' = arrays_recount a' ∧
  arrays_recount a' ≤ arrays_recount a + arrays_stored (ASet name key value).
Proof.
  intros Hb Hfit. unfold set_element.
  pose proof (map_sum_nonneg _ (ar_values a) named_array_cost_pos) as Hnn.
  change (map_sum _ _) with (arrays_recount a) in Hnn.
  assert (0 ≤ arrays_stored (ASet name key value)) by (destruct key; simpl; auto with cost).
  destruct (ar_values a !! name) as [array|] eqn:Ha; [|cbn [fst]; cbn zeta; split; [done|lia]].
  pose proof (arrays_recount_has _ _ _ Ha). pose proof (string_cost_pos name).
  destruct array as [values|values], key as [index|key]; cbn [arrays_stored fst] in *;
    try (split; [done|first [reflexivity|lia]]); rewrite (arrays_recount_update _ _ _ _ _ Ha);
    cbn [ar_bytes]; rewrite Hb.
  - pose proof (array_cost_set_index values index value).
    pose proof (default_cost_pos _ (values !! index) string_cost_pos).
    pose proof (array_cost_pos (Indexed (<[index := value]> values))).
    rewrite default_string_bytes. split; [exact_bytes|lia].
  - pose proof (array_cost_set_name values key value).
    pose proof (default_cost_pos _ (values !! key) (entry_cost_pos key)).
    pose proof (array_cost_pos (Assoc (<[key := value]> values))).
    pose proof (string_cost_pos key). pose proof (string_cost_pos value).
    rewrite default_extra_bytes.
    assert (entry_cost key value = string_cost key + string_cost value) by done.
    split; [exact_bytes|lia].
Qed.

Lemma unset_element_exact a name key :
  ar_bytes a = arrays_recount a → arrays_recount a ≤ U64_MAX →
  let a' := (unset_element a name key).1 in
  ar_bytes a' = arrays_recount a' ∧ arrays_recount a' ≤ arrays_recount a.
Proof.
  intros Hb Hfit. unfold unset_element.
  destruct (ar_values a !! name) as [array|] eqn:Ha; [|simpl; split; [done|lia]].
  pose proof (arrays_recount_has _ _ _ Ha). pose proof (string_cost_pos name).
  destruct array as [values|values], key as [index|key]; cbn [fst];
    try (split; [done|first [reflexivity|lia]]); rewrite (arrays_recount_update _ _ _ _ _ Ha);
    cbn [ar_bytes]; rewrite Hb.
  - pose proof (array_cost_unset_index values index).
    pose proof (default_cost_pos _ (values !! index) string_cost_pos).
    pose proof (array_cost_pos (Indexed (delete index values))).
    rewrite default_string_bytes. split; [exact_bytes|lia].
  - pose proof (array_cost_unset_name values key).
    pose proof (default_cost_pos _ (values !! key) (entry_cost_pos key)).
    pose proof (array_cost_pos (Assoc (delete key values))).
    change (λ old, entry_bytes key old) with (entry_bytes key).
    rewrite default_entry_bytes. split; [exact_bytes|lia].
Qed.

Lemma arrays_step_exact a op :
  ar_bytes a = arrays_recount a → arrays_recount a + arrays_stored op ≤ U64_MAX →
  let a' := arrays_step a op in
  ar_bytes a' = arrays_recount a' ∧ arrays_recount a' ≤ arrays_recount a + arrays_stored op.
Proof.
  intros Hb Hfit.
  pose proof (map_sum_nonneg _ (ar_values a) named_array_cost_pos) as Hnn.
  change (map_sum _ _) with (arrays_recount a) in Hnn.
  destruct op as [name value|name| |name key value|name key|name].
  - cbn [arrays_step arrays_insert fst arrays_stored] in *. cbn zeta.
    pose proof (string_cost_pos name). pose proof (array_cost_pos value).
    destruct (ar_values a !! name) as [old|] eqn:Hold.
    + pose proof (arrays_recount_has _ _ _ Hold). pose proof (array_cost_pos old).
      rewrite (arrays_recount_update _ _ _ _ _ Hold). cbn [ar_bytes]. rewrite Hb.
      split; [exact_bytes|lia].
    + rewrite (arrays_recount_fresh _ _ _ _ Hold). cbn [ar_bytes]. rewrite Hb.
      split; [exact_bytes|lia].
  - cbn [arrays_step arrays_remove fst arrays_stored] in *. cbn zeta.
    destruct (ar_values a !! name) as [old|] eqn:Hold.
    + pose proof (arrays_recount_has _ _ _ Hold). pose proof (array_cost_pos old).
      pose proof (string_cost_pos name).
      rewrite (arrays_recount_delete _ _ _ _ Hold). cbn [ar_bytes]. rewrite Hb.
      split; [exact_bytes|lia].
    + rewrite delete_id by done. destruct a. simpl in *. split; [done|lia].
  - assert (Hz : arrays_recount (arrays_clear a) = 0) by apply map_sum_empty.
    cbn [arrays_step arrays_stored] in *. cbn zeta. rewrite Hz. split; [done|lia].
  - by apply set_element_exact.
  - cbn [arrays_stored] in *. destruct (unset_element_exact a name key Hb) as [? ?]; [lia|].
    cbn [arrays_step]. split; [done|lia].
  - cbn [arrays_step arrays_stored] in *. unfold clear_elements.
    destruct (ar_values a !! name) as [array|] eqn:Ha; [|split; [done|lia]].
    pose proof (arrays_recount_has _ _ _ Ha). pose proof (array_cost_pos array).
    pose proof (string_cost_pos name).
    rewrite (arrays_recount_update _ _ _ _ _ Ha). cbn [ar_bytes]. rewrite Hb.
    assert (Hz : array_cost (match array with Indexed _ => Indexed ∅ | Assoc _ => Assoc ∅ end) = 0)
      by (destruct array; apply map_sum_empty).
    rewrite Hz. split; [exact_bytes|lia].
Qed.

(** The running estimate of the arrays equals a recount of every name, key and element, after
    any sequence of array and element operations whose stored bytes fit in a [u64]; an operation
    whose key kind does not match the array changes nothing. *)
Theorem arrays_bytes_exact ops :
  exact_total arrays_stored ops ≤ U64_MAX →
  let a := foldl arrays_step arrays_default ops in
  ar_bytes a = arrays_recount a ∧ arrays_recount a ≤ exact_total arrays_stored ops ∧
  (∀ name key value, (set_element a name key value).2 = None → (set_element a name key value).1 = a) ∧
  (∀ name key, (unset_element a name key).2 = None → (unset_element a name key).1 = a).
Proof.
  intros Hfit a. unfold a. clear a.
  assert (Hpos : ∀ op, 0 ≤ arrays_stored op).
  { intros [| | |? [] ?| |]; simpl; auto with cost lia. }
  enough (∀ a, ar_bytes a = arrays_recount a →
    arrays_recount a + exact_total arrays_stored ops ≤ U64_MAX →
    let a' := foldl arrays_step a ops in
    ar_bytes a' = arrays_recount a' ∧
    arrays_recount a' ≤ arrays_recount a + exact_total arrays_stored ops) as Hrun.
  { destruct (Hrun arrays_default) as [Hb Hle]; [done..|].
    split; [done|]. split; [done|]. unfold set_element, unset_element.
    split; intros; repeat case_match; done. }
  clear Hfit. induction ops as [|op ops IH]; simpl; intros a Hb Hfit; [split; [done|lia]|].
  pose proof (exact_total_nonneg arrays_stored ops Hpos).
  destruct (arrays_step_exact a op Hb) as [Hb1 Hle]; [lia|].
  destruct (IH (arrays_step a op) Hb1) as [Hb2 Hle2]; [lia|]. split; [done|lia].
Qed.

Lemma arrays_bytes_exact_witness :
  ar_bytes (foldl arrays_step arrays_default
    [AInsert "a" (Indexed ∅); ASet "a" (Index 9999999999) "x"; ASet "a" (Index 9999999999) "xyz";
     AInsert "m" (Assoc ∅); ASet "m" (Name "k") "v"; AUnset "m" (Name "k"); AClearElements "a"])
  = 98.
Proof.
  refine (eq_trans (proj1 (arrays_bytes_exact
    [AInsert "a" (Indexed ∅); ASet "a" (Index 9999999999) "x"; ASet "a" (Index 9999999999) "xyz";
     AInsert "m" (Assoc ∅); ASet "m" (Name "k") "v"; AUnset "m" (Name "k"); AClearElements "a"] _)) _);
    vm_compute; [discriminate|reflexivity].
Defined.

(** [shift n] drops the first [n] positional parameters, or all of them, and keeps the
    estimate equal to the recount of what is left. *)
Theorem positional_shift_exact values counts :
  exact_total string_cost values ≤ U64_MAX → Forall (λ n, 0 ≤ n) counts →
  let p := foldl positional_shift (positional_from values) counts in
  po_values p = drop (Z.to_nat (exact_total id counts)) values ∧
  po_bytes p = exact_total string_cost (po_values p).
Proof.
  intros Hfit Hcounts.
  enough (∀ p, exact_total string_cost (po_values p) ≤ U64_MAX →
    po_bytes p = exact_total string_cost (po_values p) →
    let p' := foldl positional_shift p counts in
    po_values p' = drop (Z.to_nat (exact_total id counts)) (po_values p) ∧
    po_bytes p' = exact_total string_cost (po_values p')) as Hrun.
  { apply (Hrun (positional_from values)); [done|]. simpl.
    rewrite (sat_total_clamp string_cost) by auto using string_bytes_clamp with cost.
    by apply clamp64_id. }
  clear values Hfit. induction Hcounts as [|n counts Hn Hcounts IH]; intros p Hfit Hb; cbn [foldl].
  { split; [by rewrite drop_0|done]. }
  change (exact_total id (n :: counts)) with (n + exact_total id counts).
  set (k := Z.to_nat (Z.min n (zlen (po_values p)))).
  assert (Hsplit : exact_total string_cost (po_values p) =
    exact_total string_cost (take k (po_values p)) + exact_total string_cost (drop k (po_values p))).
  { by rewrite <-exact_total_app, take_drop. }
  pose proof (exact_total_nonneg string_cost (take k (po_values p)) string_cost_pos).
  pose proof (exact_total_nonneg string_cost (drop k (po_values p)) string_cost_pos).
  destruct (IH (positional_shift p n)) as [Hv Hb'].
  - simpl. fold k. lia.
  - simpl. fold k. rewrite (sat_total_clamp string_cost) by auto using string_bytes_clamp with cost.
    rewrite clamp64_id by lia. unfold sat_sub. lia.
  - split; [|done]. rewrite Hv. simpl. fold k. rewrite drop_drop.
    assert (0 ≤ exact_total id counts).
    { clear -Hcounts. induction Hcounts; simpl in *; unfold id in *; lia. }
    destruct (decide (n ≤ zlen (po_values p))) as [Hle|Hgt].
    + f_equal. unfold k. lia.
    + rewrite !drop_ge; [done|unfold k; lia..].
Qed.

Lemma positional_shift_exact_witness :
  po_values (foldl positional_shift (positional_from ["a"; "bb"; "ccc"]) [1; 1]) = ["ccc"] ∧
  po_bytes (foldl positional_shift (positional_from ["a"; "bb"; "ccc"]) [1; 1]) = 51.
Proof.
  destruct (positional_shift_exact ["a"; "bb"; "ccc"] [1; 1]) as [Hv Hb].
  - vm_compute. discriminate.
  - repeat constructor; lia.
  - split; [exact Hv|]. rewrite Hb, Hv. reflexivity.
Defined.

(** [end_index] of an indexed array is the least index above every set element, so that an
    append at it overwrites nothing. *)
Theorem end_index_fresh values :
  (∀ i, is_Some (values !! i) → 0 ≤ i < U64_MAX) →
  (∀ i, is_Some (values !! i) → i < end_index (Indexed values)) ∧
  values !! end_index (Indexed values) = None ∧
  (end_index (Indexed values) = 0 ∨ is_Some (values !! (end_index (Indexed values) - 1))).
Proof.
  intros Hrange.
  assert (Hlt : ∀ i, is_Some (values !! i) → i < end_index (Indexed values)).
  { intros i Hi. pose proof (Hrange i Hi). simpl. pose proof (btree_last_spec values) as Hlast.
    destruct (btree_last values) as [[k v]|].
    - destruct Hlast as [Hk Hmax]. destruct Hi as [w Hw]. pose proof (Hmax i w Hw) as Hle.
      simpl in Hle. pose proof (Hrange k (ex_intro _ _ Hk)). mach.
    - subst. destruct Hi as [? Hi]. by rewrite lookup_empty in Hi. }
  split; [done|]. split.
  - apply eq_None_not_Some. intros Hs%Hlt. lia.
  - simpl. pose proof (btree_last_spec values) as Hlast.
    destruct (btree_last values) as [[k v]|]; [right|by left].
    destruct Hlast as [Hk _]. pose proof (Hrange k (ex_intro _ _ Hk)).
    rewrite sat_add64_exact by lia. replace (k + 1 - 1) with k by lia. by eexists.
Qed.

Lemma end_index_fresh_witness :
  end_index (Indexed {[3 := "x"; 7 := "y"]}) = 8 ∧ ({[3 := "x"; 7 := "y"]} : gmap Z string) !! 8 = None.
Proof.
  split; [vm_compute; reflexivity|].
  refine (proj1 (proj2 (end_index_fresh {[3 := "x"; 7 := "y"]} _))).
  intros i [v Hv]. apply lookup_insert_Some in Hv as [[<- _]|[_ Hv]]; [done|].
  apply lookup_singleton_Some in Hv as [<- _]. done.
Defined.
