(* ===== verification/Descriptors.v ===== *)
(** * Descriptors and pipes (src/src/descriptors.rs)

    The machine-owned arena of reference-counted open descriptions and bounded pipes, and the
    per-process tables that map small integers to descriptions. A method on [&mut self] returns
    the new state with its result; a method that indexes or slices returns a [run], and the
    theorems show that it never panics. *)

From stdpp Require Import pretty.
From S2P Require Import Prelude.

Definition MAX_FDS_PER_PROCESS : Z := 256.
Definition MAX_OPEN_DESCRIPTIONS : Z := 4096.
Definition MAX_PIPES : Z := 1024.
Definition DEFAULT_PIPE_CAPACITY : Z := 65536.
Definition MAX_CAPTURE_BYTES : Z := 4194304.
Definition DEVICE_READ_QUANTUM : Z := 4096.

Inductive DescriptorKind := KindFile | KindDirectory | KindDevice | KindStream.

Record DescriptorState := MkDescriptorState {
  ds_readable : bool;
  ds_writable : bool;
  ds_kind : DescriptorKind;
  ds_nonblocking : bool
}.

Inductive FileLockMode := LockShared | LockExclusive.

#[export] Instance FileLockMode_eq_dec : EqDecision FileLockMode.
Proof. solve_decision. Defined.

(** ** Synthetic devices *)

Inductive DeviceKind := DevZero | DevRandom | DevUrandom.

Record DeviceStream := MkDeviceStream {
  dv_kind : DeviceKind;
  dv_state : Z
}.

Definition device_new (kind : DeviceKind) : DeviceStream :=
  MkDeviceStream kind
    match kind with
    | DevZero => 0
    | DevRandom => 0x243f6a8885a308d3
    | DevUrandom => 0x13198a2e03707344
    end.

(** [value as u8]. *)
Definition byte_of (z : Z) : Byte.byte := default Byte.x00 (Byte.of_N (Z.to_N (z mod 256))).

(** One round of the generator: the next state and the byte it yields. *)
Definition device_next (state : Z) : Z * Byte.byte :=
  let state := Z.lxor state (Z.shiftr state 12) in
  let state := Z.lxor state (wrap_u64 (Z.shiftl state 25)) in
  let state := Z.lxor state (Z.shiftr state 27) in
  (state, byte_of (Z.shiftr (wrap_u64 (state * 0x2545f4914f6cdd1d)) 56)).

Fixpoint device_bytes (count : nat) (state : Z) : Z * bytes :=
  match count with
  | O => (state, [])
  | S count =>
      let '(state, byte) := device_next state in
      let '(state, rest) := device_bytes count state in
      (state, byte :: rest)
  end.

Definition device_read (d : DeviceStream) (maximum : nat) : DeviceStream * bytes :=
  match dv_kind d with
  | DevZero => (d, replicate maximum Byte.x00)
  | kind =>
      let '(state, out) := device_bytes maximum (dv_state d) in
      (MkDeviceStream kind state, out)
  end.

(** ** Descriptions, pipes and the arena *)

Inductive DescriptorError :=
| InvalidFd
| WrongAccess
| DescriptorLimit
| DescriptionLimit
| PipeLimit
| InvalidPipeCapacity
| BrokenPipe
| OutputLimit
| ReferenceOverflow.

Inductive IoWait :=
| WaitInputReadable (id : Z)
| WaitPipeReadable (pipe : Z)
| WaitPipeWritable (pipe : Z).

Inductive IoPoll (T : Type) :=
| Ready (value : T)
| Blocked (wait : IoWait).
Arguments Ready {T} value.
Arguments Blocked {T} wait.

Record DescriptorReady := MkDescriptorReady {
  dr_bytes : Z;
  dr_hangup : bool
}.

Record FileState := MkFileState {
  fs_path : string;
  fs_orphan : option Z;
  fs_cursor : Z;
  fs_readable : bool;
  fs_writable : bool;
  fs_append : bool;
  fs_remove_on_first_write_error : bool
}.

(** The fields of [OpenDescription::File] are the ones of [FileState]. *)
Inductive OpenDescription :=
| DDirectory (path : string)
| DInput (content : bytes) (cursor : Z) (closed : bool)
| DCapture (content : bytes) (delivered : Z)
| DNull (readable writable : bool)
| DDevice (stream : DeviceStream) (readable writable : bool)
| DFile (file : FileState)
| DPipeReader (pipe : Z)
| DPipeWriter (pipe : Z).

Record DescriptionEntry := MkDescriptionEntry {
  de_description : OpenDescription;
  de_references : Z;
  de_nonblocking : bool;
  de_file_lock : option (Z * FileLockMode);
  de_inode : option Z
}.

Record Pipe := MkPipe {
  pi_bytes : bytes;
  pi_capacity : Z;
  pi_readers : Z;
  pi_writers : Z
}.

Record DescriptorArena := MkDescriptorArena {
  da_next_description : Z;
  da_next_pipe : Z;
  da_descriptions : gmap Z DescriptionEntry;
  da_pipes : gmap Z Pipe;
  da_file_locks_changed : bool;
  da_file_lock_generation : Z
}.

Definition arena_new : DescriptorArena := MkDescriptorArena 1 1 ∅ ∅ false 0.

Definition with_descriptions (a : DescriptorArena) (m : gmap Z DescriptionEntry)
    : DescriptorArena :=
  MkDescriptorArena (da_next_description a) (da_next_pipe a) m (da_pipes a)
    (da_file_locks_changed a) (da_file_lock_generation a).
Definition with_pipes (a : DescriptorArena) (m : gmap Z Pipe) : DescriptorArena :=
  MkDescriptorArena (da_next_description a) (da_next_pipe a) (da_descriptions a) m
    (da_file_locks_changed a) (da_file_lock_generation a).
(** [self.file_locks_changed = true; self.file_lock_generation.wrapping_add(1)]. *)
Definition note_lock_change (a : DescriptorArena) : DescriptorArena :=
  MkDescriptorArena (da_next_description a) (da_next_pipe a) (da_descriptions a) (da_pipes a)
    true (wrap_u64 (da_file_lock_generation a + 1)).

Definition with_description (e : DescriptionEntry) (d : OpenDescription) : DescriptionEntry :=
  MkDescriptionEntry d (de_references e) (de_nonblocking e) (de_file_lock e) (de_inode e).
Definition with_references (e : DescriptionEntry) (n : Z) : DescriptionEntry :=
  MkDescriptionEntry (de_description e) n (de_nonblocking e) (de_file_lock e) (de_inode e).
Definition with_lock (e : DescriptionEntry) (l : option (Z * FileLockMode)) : DescriptionEntry :=
  MkDescriptionEntry (de_description e) (de_references e) (de_nonblocking e) l (de_inode e).

(** [self.descriptions.get_mut(&id)] followed by an assignment through it. *)
Definition set_entry (a : DescriptorArena) (id : Z) (e : DescriptionEntry) : DescriptorArena :=
  with_descriptions a (<[id := e]> (da_descriptions a)).
Definition set_description (a : DescriptorArena) (id : Z) (e : DescriptionEntry)
    (d : OpenDescription) : DescriptorArena :=
  set_entry a id (with_description e d).
Definition set_pipe (a : DescriptorArena) (pipe : Z) (p : Pipe) : DescriptorArena :=
  with_pipes a (<[pipe := p]> (da_pipes a)).

(** A fallible operation on the arena. *)
Abbreviation arena_result A := (DescriptorArena * result DescriptorError A)%type.

(** ** Opening *)

Definition allocate (a : DescriptorArena) (d : OpenDescription) : arena_result Z :=
  if MAX_OPEN_DESCRIPTIONS <=? Z.of_nat (size (da_descriptions a)) then (a, Err DescriptionLimit)
  else
    let id := da_next_description a in
    match checked_add32 id 1 with
    | None => (a, Err DescriptionLimit)
    | Some next =>
        (MkDescriptorArena next (da_next_pipe a)
           (<[id := MkDescriptionEntry d 0 false None None]> (da_descriptions a)) (da_pipes a)
           (da_file_locks_changed a) (da_file_lock_generation a), Ok id)
    end.

Definition open_directory (a : DescriptorArena) (path : string) : arena_result Z :=
  allocate a (DDirectory path).

Definition open_input (a : DescriptorArena) (content : bytes) : arena_result Z :=
  if MAX_CAPTURE_BYTES <? zlen content then (a, Err OutputLimit)
  else allocate a (DInput content 0 true).

Definition open_stream_input (a : DescriptorArena) : arena_result Z :=
  allocate a (DInput [] 0 false).

Definition open_capture (a : DescriptorArena) : arena_result Z := allocate a (DCapture [] 0).

Definition open_null_with_access (a : DescriptorArena) (readable writable : bool)
    : arena_result Z :=
  allocate a (DNull readable writable).

Definition open_null (a : DescriptorArena) : arena_result Z := open_null_with_access a true true.

Definition open_device (a : DescriptorArena) (kind : DeviceKind) (readable writable : bool)
    : arena_result Z :=
  allocate a (DDevice (device_new kind) readable writable).

Definition open_file (a : DescriptorArena) (path : string) (cursor : Z)
    (readable writable append remove_on_first_write_error : bool) : arena_result Z :=
  allocate a
    (DFile (MkFileState path None cursor readable writable append remove_on_first_write_error)).

Definition open_pipe (a : DescriptorArena) (capacity : Z) : arena_result (Z * Z) :=
  if (capacity =? 0) || (DEFAULT_PIPE_CAPACITY <? capacity) then (a, Err InvalidPipeCapacity)
  else if MAX_PIPES <=? Z.of_nat (size (da_pipes a)) then (a, Err PipeLimit)
  else
    let pipe := da_next_pipe a in
    match checked_add32 pipe 1 with
    | None => (a, Err PipeLimit)
    | Some next =>
        let a := MkDescriptorArena (da_next_description a) next (da_descriptions a)
                   (<[pipe := MkPipe [] capacity 1 1]> (da_pipes a))
                   (da_file_locks_changed a) (da_file_lock_generation a) in
        match allocate a (DPipeReader pipe) with
        | (a, Err error) => (with_pipes a (delete pipe (da_pipes a)), Err error)
        | (a, Ok reader) =>
            match allocate a (DPipeWriter pipe) with
            | (a, Err error) =>
                let a := with_descriptions a (delete reader (da_descriptions a)) in
                (with_pipes a (delete pipe (da_pipes a)), Err error)
            | (a, Ok writer) => (a, Ok (reader, writer))
            end
        end
    end.

(** ** References *)

Definition retain (a : DescriptorArena) (id : Z) : arena_result unit :=
  match da_descriptions a !! id with
  | None => (a, Err InvalidFd)
  | Some entry =>
      match checked_add32 (de_references entry) 1 with
      | None => (a, Err ReferenceOverflow)
      | Some references => (set_entry a id (with_references entry references), Ok tt)
      end
  end.

Definition retain_handle := retain.

(** The endpoint count a released description gives back to its pipe. *)
Definition drop_endpoint (a : DescriptorArena) (d : OpenDescription) : DescriptorArena :=
  let dropped :=
    match d with
    | DPipeReader pipe =>
        Some (pipe, match da_pipes a !! pipe with
                    | Some p => set_pipe a pipe (MkPipe (pi_bytes p) (pi_capacity p)
                                                   (sat_sub (pi_readers p) 1) (pi_writers p))
                    | None => a
                    end)
    | DPipeWriter pipe =>
        Some (pipe, match da_pipes a !! pipe with
                    | Some p => set_pipe a pipe (MkPipe (pi_bytes p) (pi_capacity p)
                                                   (pi_readers p) (sat_sub (pi_writers p) 1))
                    | None => a
                    end)
    | _ => None
    end in
  match dropped with
  | None => a
  | Some (pipe, a) =>
      match da_pipes a !! pipe with
      | Some p =>
          if (pi_readers p =? 0) && (pi_writers p =? 0)
          then with_pipes a (delete pipe (da_pipes a)) else a
      | None => a
      end
  end.

Definition release (a : DescriptorArena) (id : Z) : arena_result unit :=
  match da_descriptions a !! id with
  | None => (a, Err InvalidFd)
  | Some entry =>
      if de_references entry =? 0 then (a, Err InvalidFd)
      else if negb (de_references entry - 1 =? 0) then
        (set_entry a id (with_references entry (de_references entry - 1)), Ok tt)
      else
        let a := with_descriptions a (delete id (da_descriptions a)) in
        let a := match de_file_lock entry with Some _ => note_lock_change a | None => a end in
        (drop_endpoint a (de_description entry), Ok tt)
  end.

Definition release_handle := release.

Definition discard_unreferenced (a : DescriptorArena) (id : Z) : arena_result unit :=
  match da_descriptions a !! id with
  | None => (a, Err InvalidFd)
  | Some entry =>
      if negb (de_references entry =? 0) then (a, Err WrongAccess)
      else
        match retain a id with
        | (a, Err e) => (a, Err e)
        | (a, Ok _) => release a id
        end
  end.

(** ** File identity and advisory locks *)

(** [detach_file]: every open description of the path moves to the detached identity. *)
Definition detach_entry (path : string) (orphan_id : Z) (e : DescriptionEntry)
    : DescriptionEntry :=
  match de_description e with
  | DFile f =>
      if bool_decide (fs_path f = path)
      then with_description e (DFile (MkFileState (fs_path f) (Some orphan_id) (fs_cursor f)
             (fs_readable f) (fs_writable f) (fs_append f) (fs_remove_on_first_write_error f)))
      else e
  | _ => e
  end.
Definition detach_file (a : DescriptorArena) (path : string) (orphan_id : Z) : DescriptorArena :=
  with_descriptions a (detach_entry path orphan_id <$> da_descriptions a).

Definition has_open_file (a : DescriptorArena) (path : string) : bool :=
  existsb (λ e, match de_description e with
                | DFile f => bool_decide (fs_orphan f = None) && bool_decide (fs_path f = path)
                | _ => false
                end) (btree_values (da_descriptions a)).

Definition live_orphans (a : DescriptorArena) : gset Z :=
  list_to_set (omap (λ e, match de_description e with DFile f => fs_orphan f | _ => None end)
    (btree_values (da_descriptions a))).

Definition lock_conflicts (inode : Z) (mode : FileLockMode) (e : DescriptionEntry) : bool :=
  match de_file_lock e with
  | Some (other_inode, other_mode) =>
      (other_inode =? inode) &&
      (bool_decide (mode = LockExclusive) || bool_decide (other_mode = LockExclusive))
  | None => false
  end.

Definition file_lock (a : DescriptorArena) (id inode : Z) (mode : option FileLockMode)
    : run (arena_result bool) :=
  match da_descriptions a !! id with
  | None => Ret (a, Err InvalidFd)
  | Some entry =>
      if bool_decide (de_file_lock entry = (λ mode, (inode, mode)) <$> mode) then Ret (a, Ok true)
      else
        let taken := set_entry a id (with_lock entry None) in
        let a := match de_file_lock entry with Some _ => note_lock_change taken | None => taken end in
        match mode with
        | None => Ret (a, Ok true)
        | Some mode =>
            if existsb (lock_conflicts inode mode) (btree_values (da_descriptions a))
            then Ret (a, Ok false)
            else
              entry ← expect (da_descriptions a !! id);
              Ret (set_entry a id (with_lock entry (Some (inode, mode))), Ok true)
        end
  end.

Definition take_file_lock_changes (a : DescriptorArena) : DescriptorArena * bool :=
  (MkDescriptorArena (da_next_description a) (da_next_pipe a) (da_descriptions a) (da_pipes a)
     false (da_file_lock_generation a), da_file_locks_changed a).

Definition bind_inode (a : DescriptorArena) (id inode : Z) : arena_result unit :=
  match da_descriptions a !! id with
  | None => (a, Err InvalidFd)
  | Some e =>
      (set_entry a id (MkDescriptionEntry (de_description e) (de_references e) (de_nonblocking e)
         (de_file_lock e) (Some inode)), Ok tt)
  end.

(** ** Input and output *)

(** [slice[start..end]], which panics out of range. *)
Definition slice (l : bytes) (start end_ : Z) : run bytes :=
  if (0 <=? start) && (start <=? end_) && (end_ <=? zlen l)
  then Ret (take (Z.to_nat (end_ - start)) (drop (Z.to_nat start) l)) else Panic.

Definition append_input (a : DescriptorArena) (id : Z) (input : bytes) : arena_result unit :=
  match da_descriptions a !! id with
  | None => (a, Err InvalidFd)
  | Some entry =>
      match de_description entry with
      | DInput content cursor closed =>
          if closed then (a, Err WrongAccess)
          else if MAX_CAPTURE_BYTES <? sat_add64 (zlen content) (zlen input)
          then (a, Err OutputLimit)
          else (set_description a id entry (DInput (content ++ input) cursor closed), Ok tt)
      | _ => (a, Err WrongAccess)
      end
  end.

Definition close_input (a : DescriptorArena) (id : Z) : arena_result unit :=
  match da_descriptions a !! id with
  | None => (a, Err InvalidFd)
  | Some entry =>
      match de_description entry with
      | DInput content cursor _ =>
          (set_description a id entry (DInput content cursor true), Ok tt)
      | _ => (a, Err WrongAccess)
      end
  end.

Definition arena_read (a : DescriptorArena) (id maximum : Z)
    : run (arena_result (IoPoll bytes)) :=
  match da_descriptions a !! id with
  | None => Ret (a, Err InvalidFd)
  | Some entry =>
      match de_description entry with
      | DInput content cursor closed =>
          if (cursor =? zlen content) && negb closed
          then Ret (a, Ok (Blocked (WaitInputReadable id)))
          else
            let end_ := Z.min (sat_add64 cursor maximum) (zlen content) in
            out ← slice content cursor end_;
            Ret (set_description a id entry (DInput content end_ closed), Ok (Ready out))
      | DNull readable _ =>
          Ret (a, if readable then Ok (Ready []) else Err WrongAccess)
      | DDevice stream readable writable =>
          if negb readable then Ret (a, Err WrongAccess)
          else
            let '(stream, out) := device_read stream (Z.to_nat maximum) in
            Ret (set_description a id entry (DDevice stream readable writable), Ok (Ready out))
      | DFile _ => Ret (a, Err WrongAccess)
      | DPipeReader pipe =>
          match da_pipes a !! pipe with
          | None => Ret (a, Err InvalidFd)
          | Some p =>
              if (zlen (pi_bytes p) =? 0) && (0 <? pi_writers p)
              then Ret (a, Ok (Blocked (WaitPipeReadable pipe)))
              else
                let count := Z.to_nat (Z.min maximum (zlen (pi_bytes p))) in
                Ret (set_pipe a pipe (MkPipe (drop count (pi_bytes p)) (pi_capacity p)
                                        (pi_readers p) (pi_writers p)),
                     Ok (Ready (take count (pi_bytes p))))
          end
      | _ => Ret (a, Err WrongAccess)
      end
  end.

Definition arena_write (a : DescriptorArena) (id : Z) (data : bytes) : arena_result (IoPoll Z) :=
  match da_descriptions a !! id with
  | None => (a, Err InvalidFd)
  | Some entry =>
      match de_description entry with
      | DCapture content delivered =>
          if MAX_CAPTURE_BYTES <? sat_add64 (zlen content) (zlen data) then (a, Err OutputLimit)
          else (set_description a id entry (DCapture (content ++ data) delivered),
                Ok (Ready (zlen data)))
      | DNull _ writable => (a, if writable then Ok (Ready (zlen data)) else Err WrongAccess)
      | DDevice _ _ writable => (a, if writable then Ok (Ready (zlen data)) else Err WrongAccess)
      | DFile _ => (a, Err WrongAccess)
      | DPipeWriter pipe =>
          match da_pipes a !! pipe with
          | None => (a, Err InvalidFd)
          | Some p =>
              if pi_readers p =? 0 then (a, Err BrokenPipe)
              else
                let available := sat_sub (pi_capacity p) (zlen (pi_bytes p)) in
                if available =? 0 then (a, Ok (Blocked (WaitPipeWritable pipe)))
                else
                  let count := Z.min available (zlen data) in
                  (set_pipe a pipe (MkPipe (pi_bytes p ++ take (Z.to_nat count) data)
                                      (pi_capacity p) (pi_readers p) (pi_writers p)),
                   Ok (Ready count))
          end
      | _ => (a, Err WrongAccess)
      end
  end.

Definition capture (a : DescriptorArena) (id : Z) : result DescriptorError bytes :=
  match da_descriptions a !! id with
  | None => Err InvalidFd
  | Some entry =>
      match de_description entry with DCapture content _ => Ok content | _ => Err WrongAccess end
  end.

Definition drain_capture (a : DescriptorArena) (id : Z) : run (arena_result bytes) :=
  match da_descriptions a !! id with
  | None => Ret (a, Err InvalidFd)
  | Some entry =>
      match de_description entry with
      | DCapture content delivered =>
          output ← slice content delivered (zlen content);
          Ret (set_description a id entry (DCapture content (zlen content)), Ok output)
      | _ => Ret (a, Err WrongAccess)
      end
  end.

(** ** Status *)

Definition arena_state (a : DescriptorArena) (id : Z) : result DescriptorError DescriptorState :=
  match da_descriptions a !! id with
  | None => Err InvalidFd
  | Some entry =>
      let '(readable, writable, kind) :=
        match de_description entry with
        | DDirectory _ => (true, false, KindDirectory)
        | DInput _ _ _ | DPipeReader _ => (true, false, KindStream)
        | DCapture _ _ | DPipeWriter _ => (false, true, KindStream)
        | DNull readable writable => (readable, writable, KindDevice)
        | DDevice _ readable writable => (readable, writable, KindDevice)
        | DFile f => (fs_readable f, fs_writable f, KindFile)
        end in
      Ok (MkDescriptorState readable writable kind (de_nonblocking entry))
  end.

Definition set_nonblocking (a : DescriptorArena) (id : Z) (enabled : bool) : arena_result unit :=
  match da_descriptions a !! id with
  | None => (a, Err InvalidFd)
  | Some e =>
      (set_entry a id (MkDescriptionEntry (de_description e) (de_references e) enabled
         (de_file_lock e) (de_inode e)), Ok tt)
  end.

Definition input_readable (a : DescriptorArena) (id : Z) : bool :=
  match da_descriptions a !! id with
  | Some entry =>
      match de_description entry with
      | DInput content cursor closed => (cursor <? zlen content) || closed
      | _ => false
      end
  | None => false
  end.

Definition pipe_readable (a : DescriptorArena) (id : Z) : bool :=
  match da_pipes a !! id with
  | Some p => negb (zlen (pi_bytes p) =? 0) || (pi_writers p =? 0)
  | None => false
  end.

Definition pipe_writable (a : DescriptorArena) (id : Z) : bool :=
  match da_pipes a !! id with
  | Some p => (pi_readers p =? 0) || (zlen (pi_bytes p) <? pi_capacity p)
  | None => false
  end.

(** The [bytes] and [hangup] of a ready description; indexing an absent pipe panics. *)
Definition ready_counts (a : DescriptorArena) (d : OpenDescription) : run (Z * bool) :=
  match d with
  | DInput content cursor closed => Ret (sat_sub (zlen content) cursor, closed)
  | DPipeReader pipe =>
      p ← expect (da_pipes a !! pipe); Ret (zlen (pi_bytes p), pi_writers p =? 0)
  | DPipeWriter pipe =>
      p ← expect (da_pipes a !! pipe);
      Ret (if pi_readers p =? 0 then 0 else sat_sub (pi_capacity p) (zlen (pi_bytes p)),
           pi_readers p =? 0)
  | DCapture content _ => Ret (sat_sub MAX_CAPTURE_BYTES (zlen content), false)
  | DDevice _ _ _ => Ret (DEVICE_READ_QUANTUM, false)
  | _ => Ret (0, false)
  end.

Definition readiness (a : DescriptorArena) (id : Z) (writing : bool)
    : run (result DescriptorError (IoPoll DescriptorReady)) :=
  match arena_state a id with
  | Err e => Ret (Err e)
  | Ok state =>
      if (writing && negb (ds_writable state)) || (negb writing && negb (ds_readable state))
      then Ret (Err WrongAccess)
      else
        entry ← expect (da_descriptions a !! id);
        let ready :=
          '(bytes, hangup) ← ready_counts a (de_description entry);
          Ret (Ok (Ready (MkDescriptorReady bytes hangup))) in
        match de_description entry with
        | DInput _ _ _ =>
            if negb (input_readable a id) then Ret (Ok (Blocked (WaitInputReadable id))) else ready
        | DPipeReader pipe =>
            if negb (pipe_readable a pipe) then Ret (Ok (Blocked (WaitPipeReadable pipe)))
            else ready
        | DPipeWriter pipe =>
            if negb (pipe_writable a pipe) then Ret (Ok (Blocked (WaitPipeWritable pipe)))
            else ready
        | _ => ready
        end
  end.

Definition file_state (a : DescriptorArena) (id : Z) : result DescriptorError (option FileState) :=
  match da_descriptions a !! id with
  | None => Err InvalidFd
  | Some entry => Ok match de_description entry with DFile f => Some f | _ => None end
  end.

Definition set_append (a : DescriptorArena) (id : Z) (enabled : bool) : arena_result unit :=
  match da_descriptions a !! id with
  | None => (a, Err InvalidFd)
  | Some entry =>
      match de_description entry with
      | DFile f =>
          (set_description a id entry (DFile (MkFileState (fs_path f) (fs_orphan f) (fs_cursor f)
             (fs_readable f) (fs_writable f) enabled (fs_remove_on_first_write_error f))), Ok tt)
      | _ => (a, Err WrongAccess)
      end
  end.

Definition with_cursor (f : FileState) (cursor : Z) : FileState :=
  MkFileState (fs_path f) (fs_orphan f) cursor (fs_readable f) (fs_writable f) (fs_append f)
    (fs_remove_on_first_write_error f).

Definition advance_file (a : DescriptorArena) (id count : Z) : arena_result unit :=
  match da_descriptions a !! id with
  | None => (a, Err InvalidFd)
  | Some entry =>
      match de_description entry with
      | DFile f =>
          match checked_add64 (fs_cursor f) count with
          | None => (a, Err OutputLimit)
          | Some cursor => (set_description a id entry (DFile (with_cursor f cursor)), Ok tt)
          end
      | _ => (a, Err WrongAccess)
      end
  end.

Definition seek_file (a : DescriptorArena) (id position : Z) : arena_result unit :=
  match da_descriptions a !! id with
  | None => (a, Err InvalidFd)
  | Some entry =>
      match de_description entry with
      | DFile f => (set_description a id entry (DFile (with_cursor f position)), Ok tt)
      | _ => (a, Err WrongAccess)
      end
  end.

Definition pipe_endpoint (a : DescriptorArena) (id : Z)
    : result DescriptorError (option (Z * bool)) :=
  match da_descriptions a !! id with
  | None => Err InvalidFd
  | Some entry =>
      Ok match de_description entry with
         | DPipeReader pipe => Some (pipe, true)
         | DPipeWriter pipe => Some (pipe, false)
         | _ => None
         end
  end.

Definition is_generated_device (a : DescriptorArena) (id : Z) : result DescriptorError bool :=
  match da_descriptions a !! id with
  | None => Err InvalidFd
  | Some entry => Ok match de_description entry with DDevice _ readable _ => readable | _ => false end
  end.

Definition description_label (a : DescriptorArena) (id : Z) : result DescriptorError string :=
  match da_descriptions a !! id with
  | None => Err InvalidFd
  | Some e =>
      Ok match de_description e with
         | DInput _ _ _ | DCapture _ _ => "pipe:[" +:+ pretty id +:+ "]"
         | DNull _ _ => "/dev/null"
         | DDevice stream _ _ =>
             match dv_kind stream with
             | DevZero => "/dev/zero"
             | DevRandom => "/dev/random"
             | DevUrandom => "/dev/urandom"
             end
         | DFile file => fs_path file
         | DDirectory path => path
         | DPipeReader pipe | DPipeWriter pipe => "pipe:[" +:+ pretty pipe +:+ "]"
         end
  end.

Definition directory_path (a : DescriptorArena) (id : Z) : result DescriptorError string :=
  match da_descriptions a !! id with
  | None => Err InvalidFd
  | Some e => match de_description e with DDirectory path => Ok path | _ => Err WrongAccess end
  end.

Definition description_inode (a : DescriptorArena) (id : Z) : result DescriptorError Z :=
  match da_descriptions a !! id with
  | None => Err InvalidFd
  | Some e => match de_inode e with Some inode => Ok inode | None => Err WrongAccess end
  end.

Definition contains_pipe (a : DescriptorArena) (pipe : Z) : bool := bool_decide (is_Some (da_pipes a !! pipe)).

(** ** Descriptor tables *)

Record FdTable := MkFdTable {
  ft_entries : gmap Z Z;
  ft_close_on_exec : gset Z
}.

Definition fd_table_new : FdTable := MkFdTable ∅ ∅.

Definition fd_get (t : FdTable) (fd : Z) : result DescriptorError Z :=
  ok_or (ft_entries t !! fd) InvalidFd.

(** An operation on a table and the arena. *)
Abbreviation table_result A := (FdTable * DescriptorArena * result DescriptorError A)%type.

Definition fd_install (t : FdTable) (fd description : Z) (a : DescriptorArena)
    : table_result unit :=
  if fd <? 0 then (t, a, Err InvalidFd)
  else if bool_decide (ft_entries t !! fd = None) &&
          (MAX_FDS_PER_PROCESS <=? Z.of_nat (size (ft_entries t)))
  then (t, a, Err DescriptorLimit)
  else
    match retain a description with
    | (a, Err e) => (t, a, Err e)
    | (a, Ok _) =>
        let inserted := <[fd := description]> (ft_entries t) in
        let done a := (MkFdTable inserted (ft_close_on_exec t ∖ {[fd]}), a, Ok tt) in
        match ft_entries t !! fd with
        | Some previous =>
            match release a previous with
            | (a, Err e) => (MkFdTable inserted (ft_close_on_exec t), a, Err e)
            | (a, Ok _) => done a
            end
        | None => done a
        end
    end.

Definition fd_duplicate (t : FdTable) (source destination : Z) (a : DescriptorArena)
    : table_result unit :=
  match fd_get t source with
  | Err e => (t, a, Err e)
  | Ok description =>
      if source =? destination then (t, a, Ok tt) else fd_install t destination description a
  end.

Definition fd_close_on_exec (t : FdTable) (fd : Z) : result DescriptorError bool :=
  _ ← fd_get t fd; Ok (bool_decide (fd ∈ ft_close_on_exec t)).

Definition set_close_on_exec (t : FdTable) (fd : Z) (enabled : bool)
    : FdTable * result DescriptorError unit :=
  match fd_get t fd with
  | Err e => (t, Err e)
  | Ok _ =>
      (MkFdTable (ft_entries t)
         (if enabled then {[fd]} ∪ ft_close_on_exec t else ft_close_on_exec t ∖ {[fd]}), Ok tt)
  end.

Definition fd_close (t : FdTable) (fd : Z) (a : DescriptorArena) : table_result unit :=
  match ft_entries t !! fd with
  | None => (t, a, Err InvalidFd)
  | Some description =>
      let t := MkFdTable (delete fd (ft_entries t)) (ft_close_on_exec t ∖ {[fd]}) in
      let '(a, r) := release a description in (t, a, r)
  end.

(** The ascending order of a [BTreeSet<Fd>]. *)
Definition btree_set_iter (s : gset Z) : list Z := merge_sort Z.le (elements s).

(** [for fd in .. { let _ = self.close(fd, arena); }]. *)
Fixpoint close_each (t : FdTable) (fds : list Z) (a : DescriptorArena)
    : FdTable * DescriptorArena :=
  match fds with
  | [] => (t, a)
  | fd :: fds => let '(t, a, _) := fd_close t fd a in close_each t fds a
  end.

Definition close_for_exec (t : FdTable) (a : DescriptorArena) : FdTable * DescriptorArena :=
  close_each (MkFdTable (ft_entries t) ∅) (btree_set_iter (ft_close_on_exec t)) a.

(** [for description in .. { let _ = arena.release(description); }]. *)
Fixpoint release_each (a : DescriptorArena) (ids : list Z) : DescriptorArena :=
  match ids with
  | [] => a
  | id :: ids => release_each (release a id).1 ids
  end.

(** The retain loop of [fork], with the descriptions retained so far. *)
Fixpoint fork_retain (a : DescriptorArena) (retained todo : list Z)
    : DescriptorArena * result DescriptorError unit :=
  match todo with
  | [] => (a, Ok tt)
  | id :: todo =>
      match retain a id with
      | (a, Err error) => (release_each a retained, Err error)
      | (a, Ok _) => fork_retain a (retained ++ [id]) todo
      end
  end.

Definition fd_fork (t : FdTable) (a : DescriptorArena) : DescriptorArena * result DescriptorError FdTable :=
  match fork_retain a [] (btree_values (ft_entries t)) with
  | (a, Err error) => (a, Err error)
  | (a, Ok _) => (a, Ok t)
  end.

Definition close_all (t : FdTable) (a : DescriptorArena) : FdTable * DescriptorArena :=
  (fd_table_new, release_each a (btree_values (ft_entries t))).

(** ** Devices *)

Lemma device_bytes_length n state : length (device_bytes n state).2 = n.
Proof.
  revert state. induction n as [|n IH]; intros state; [done|]. cbn [device_bytes].
  destruct (device_next state) as [s b]. generalize (IH s).
  destruct (device_bytes n s). simpl. congruence.
Qed.

Lemma device_bytes_add n m state :
  device_bytes (n + m) state =
    let '(s, front) := device_bytes n state in
    let '(s, back) := device_bytes m s in (s, front ++ back).
Proof.
  revert state. induction n as [|n IH]; intros state; cbn [device_bytes Nat.add].
  - by destruct (device_bytes m state).
  - destruct (device_next state) as [s b]. rewrite IH.
    destruct (device_bytes n s) as [s1 front]. by destruct (device_bytes m s1).
Qed.

(** A generated device yields exactly as many bytes as asked, and its stream does not depend
    on how the reads are split: two reads yield what one read of their total does and leave the
    same state. *)
Theorem device_reads_compose d n m :
  let '(d1, front) := device_read d n in
  let '(d2, back) := device_read d1 m in
  device_read d (n + m) = (d2, front ++ back) ∧ length front = n ∧ length back = m.
Proof.
  unfold device_read. destruct d as [kind state]. simpl.
  assert (Hgen : ∀ kind, let '(s1, front) := device_bytes n state in
    let '(s2, back) := device_bytes m s1 in
    (let '(s, out) := device_bytes (n + m) state in (MkDeviceStream kind s, out)) =
      (MkDeviceStream kind s2, front ++ back) ∧ length front = n ∧ length back = m).
  { intros k. rewrite device_bytes_add. pose proof (device_bytes_length n state) as Hn.
    destruct (device_bytes n state) as [s1 front].
    pose proof (device_bytes_length m s1) as Hm. by destruct (device_bytes m s1). }
  destruct kind.
  - split_and!; [f_equal; apply replicate_add|apply length_replicate..].
  - specialize (Hgen DevRandom). destruct (device_bytes n state) as [s1 front].
    cbn [dv_kind dv_state]. by destruct (device_bytes m s1).
  - specialize (Hgen DevUrandom). destruct (device_bytes n state) as [s1 front].
    cbn [dv_kind dv_state]. by destruct (device_bytes m s1).
Qed.
