(* ===== verification/DescriptorInv.v ===== *)
(** * The descriptor arena invariant

    The invariant of the arena of [Descriptors.v] and the many-process system built on it: every
    reference count equals the number of table entries and machine handles that hold the
    description, every pipe counts its open endpoints and stays within its capacity, and no two
    descriptions hold conflicting locks. *)

From S2P Require Import Prelude.
From S2P Require Import Descriptors.

(** ** The arena invariant *)

Definition endpoint_of (d : OpenDescription) : option (Z * bool) :=
  match d with
  | DPipeReader pipe => Some (pipe, true)
  | DPipeWriter pipe => Some (pipe, false)
  | _ => None
  end.

(** The open ends of a pipe on one side ([true]: readers). *)
Definition is_end (pipe : Z) (side : bool) (e : DescriptionEntry) : Z :=
  if bool_decide (endpoint_of (de_description e) = Some (pipe, side)) then 1 else 0.
Definition ends_of (m : gmap Z DescriptionEntry) (pipe : Z) (side : bool) : Z :=
  map_sum (λ _ e, is_end pipe side e) m.

Definition description_wf (d : OpenDescription) : Prop :=
  match d with
  | DInput content cursor _ => 0 ≤ cursor ≤ zlen content ∧ zlen content ≤ MAX_CAPTURE_BYTES
  | DCapture content delivered =>
      0 ≤ delivered ≤ zlen content ∧ zlen content ≤ MAX_CAPTURE_BYTES
  | _ => True
  end.

Definition locks_compatible (m : gmap Z DescriptionEntry) : Prop :=
  ∀ id1 id2 e1 e2 inode mode1 mode2, id1 ≠ id2 →
    m !! id1 = Some e1 → m !! id2 = Some e2 →
    de_file_lock e1 = Some (inode, mode1) → de_file_lock e2 = Some (inode, mode2) →
    mode1 = LockShared ∧ mode2 = LockShared.

Definition pipe_wf (m : gmap Z DescriptionEntry) (pipe : Z) (p : Pipe) : Prop :=
  zlen (pi_bytes p) ≤ pi_capacity p ∧ 0 < pi_capacity p ≤ DEFAULT_PIPE_CAPACITY ∧
  pi_readers p = ends_of m pipe true ∧ pi_writers p = ends_of m pipe false ∧
  0 < pi_readers p + pi_writers p.

Record arena_wf (a : DescriptorArena) : Prop := {
  aw_next : 0 < da_next_description a ≤ U32_MAX;
  aw_next_pipe : 0 < da_next_pipe a ≤ U32_MAX;
  aw_ids : ∀ id, is_Some (da_descriptions a !! id) → 0 < id < da_next_description a;
  aw_pipe_ids : ∀ pipe, is_Some (da_pipes a !! pipe) → 0 < pipe < da_next_pipe a;
  aw_size : Z.of_nat (size (da_descriptions a)) ≤ MAX_OPEN_DESCRIPTIONS;
  aw_pipes_size : Z.of_nat (size (da_pipes a)) ≤ MAX_PIPES;
  aw_entry : ∀ id e, da_descriptions a !! id = Some e →
    description_wf (de_description e) ∧ 0 ≤ de_references e ≤ U32_MAX;
  aw_pipe : ∀ pipe p, da_pipes a !! pipe = Some p → pipe_wf (da_descriptions a) pipe p;
  aw_endpoint : ∀ id e pipe side, da_descriptions a !! id = Some e →
    endpoint_of (de_description e) = Some (pipe, side) → is_Some (da_pipes a !! pipe);
  aw_locks : locks_compatible (da_descriptions a)
}.

Lemma is_end_pos pipe side (k : Z) e : 0 ≤ is_end pipe side e.
Proof. unfold is_end. case_bool_decide; lia. Qed.

Lemma ends_of_pos m pipe side : 0 ≤ ends_of m pipe side.
Proof. apply map_sum_nonneg. intros. by apply is_end_pos. Qed.

Lemma is_end_eq pipe side e e' :
  endpoint_of (de_description e') = endpoint_of (de_description e) →
  is_end pipe side e' = is_end pipe side e.
Proof. unfold is_end. by intros ->. Qed.

Lemma ends_of_replace m id e e' pipe side :
  m !! id = Some e → endpoint_of (de_description e') = endpoint_of (de_description e) →
  ends_of (<[id := e']> m) pipe side = ends_of m pipe side.
Proof.
  intros He Heq. unfold ends_of. rewrite (map_sum_replace _ _ _ _ _ He).
  rewrite (is_end_eq _ _ _ _ Heq). lia.
Qed.

Lemma ends_of_elem m id e pipe side :
  m !! id = Some e → endpoint_of (de_description e) = Some (pipe, side) →
  1 ≤ ends_of m pipe side.
Proof.
  intros He Hend.
  pose proof (map_sum_elem_le (λ _ e, is_end pipe side e) m id e
    (λ k e, is_end_pos pipe side k e) He) as Hle.
  simpl in Hle. unfold is_end in Hle at 1. rewrite bool_decide_eq_true_2 in Hle by done. done.
Qed.

(** Replacing an entry in place, keeping its pipe end and strengthening no lock. *)
Lemma locks_compatible_replace m id e e' :
  locks_compatible m → m !! id = Some e →
  (de_file_lock e' = de_file_lock e ∨ de_file_lock e' = None) →
  locks_compatible (<[id := e']> m).
Proof.
  intros Hm He Hl id1 id2 e1 e2 inode m1 m2 Hne H1 H2 L1 L2.
  assert (Hback : ∀ i x mode, <[id := e']> m !! i = Some x → de_file_lock x = Some (inode, mode) →
    ∃ y, m !! i = Some y ∧ de_file_lock y = Some (inode, mode)).
  { intros i x mode [[<- <-]|[_ ?]]%lookup_insert_Some Hx; [|by eauto].
    exists e. split; [done|]. destruct Hl; congruence. }
  destruct (Hback _ _ _ H1 L1) as (y1 & ? & ?), (Hback _ _ _ H2 L2) as (y2 & ? & ?).
  exact (Hm id1 id2 y1 y2 inode m1 m2 Hne ltac:(done) ltac:(done) ltac:(done) ltac:(done)).
Qed.

Lemma arena_wf_replace a id e e' :
  arena_wf a → da_descriptions a !! id = Some e →
  endpoint_of (de_description e') = endpoint_of (de_description e) →
  description_wf (de_description e') → 0 ≤ de_references e' ≤ U32_MAX →
  locks_compatible (<[id := e']> (da_descriptions a)) →
  arena_wf (set_entry a id e').
Proof.
  intros [] He Hend Hd Href Hl. split; try done; simpl.
  - intros i [<-|[_ ?]]%lookup_insert_is_Some; eauto.
  - erewrite map_size_insert_Some by done. done.
  - intros i x [[<- <-]|[_ ?]]%lookup_insert_Some; eauto.
  - intros pipe p Hp. destruct (aw_pipe0 pipe p Hp) as (? & ? & Hr & Hw & ?).
    unfold pipe_wf. by rewrite !(ends_of_replace _ _ _ _ _ _ He Hend).
  - intros i x pipe side [[<- <-]|[_ ?]]%lookup_insert_Some ?; [|eauto].
    apply (aw_endpoint0 id e pipe side He). congruence.
Qed.

(** Changing the buffer of a pipe. *)
Lemma arena_wf_set_pipe a pipe p content :
  arena_wf a → da_pipes a !! pipe = Some p → zlen content ≤ pi_capacity p →
  arena_wf (set_pipe a pipe (MkPipe content (pi_capacity p) (pi_readers p) (pi_writers p))).
Proof.
  intros [] Hp Hlen. split; try done; simpl.
  - intros i [<-|[_ ?]]%lookup_insert_is_Some; eauto.
  - erewrite map_size_insert_Some by done. done.
  - intros i x [[<- <-]|[_ ?]]%lookup_insert_Some; [|eauto].
    destruct (aw_pipe0 pipe p Hp) as (? & ? & ? & ? & ?). done.
  - intros i e q side He Hend. destruct (decide (q = pipe)) as [->|].
    + rewrite lookup_insert_eq. by eexists.
    + rewrite lookup_insert_ne by done. eauto.
Qed.

Lemma arena_wf_note a : arena_wf a → arena_wf (note_lock_change a).
Proof. intros []. by split. Qed.

Lemma arena_new_wf : arena_wf arena_new.
Proof.
  split; simpl; try done; try (intros *; rewrite lookup_empty; by intros []).
Qed.

Lemma lookup_next_None a : arena_wf a → da_descriptions a !! da_next_description a = None.
Proof.
  intros H. destruct (da_descriptions a !! _) as [e|] eqn:He; [|done].
  destruct (aw_ids a H (da_next_description a)) as [_ ?]; [by eexists|lia].
Qed.

Lemma lookup_next_pipe_None a : arena_wf a → da_pipes a !! da_next_pipe a = None.
Proof.
  intros H. destruct (da_pipes a !! _) as [e|] eqn:He; [|done].
  destruct (aw_pipe_ids a H (da_next_pipe a)) as [_ ?]; [by eexists|lia].
Qed.

(** No description names a pipe that does not exist. *)
Lemma ends_of_absent a pipe side :
  arena_wf a → da_pipes a !! pipe = None → ends_of (da_descriptions a) pipe side = 0.
Proof.
  intros H Hp. unfold ends_of. rewrite (map_sum_ext _ (λ _ _, 0)).
  - generalize (da_descriptions a). intros m. induction m as [|k v m Hk IH] using map_ind.
    + apply map_sum_empty.
    + by rewrite map_sum_insert, IH by done.
  - intros id e He. unfold is_end. case_bool_decide as Hend; [|done].
    destruct (aw_endpoint a H id e pipe side He Hend) as [? Hs]. congruence.
Qed.

Lemma locks_compatible_fresh m id e :
  locks_compatible m → de_file_lock e = None → locks_compatible (<[id := e]> m).
Proof.
  intros Hm He id1 id2 e1 e2 inode m1 m2 Hne H1 H2 L1 L2.
  apply lookup_insert_Some in H1 as [[<- <-]|[_ H1]]; [congruence|].
  apply lookup_insert_Some in H2 as [[<- <-]|[_ H2]]; [congruence|].
  exact (Hm id1 id2 e1 e2 inode m1 m2 Hne H1 H2 L1 L2).
Qed.

Lemma locks_compatible_delete m id : locks_compatible m → locks_compatible (delete id m).
Proof.
  intros Hm id1 id2 e1 e2 inode m1 m2 Hne [_ H1]%lookup_delete_Some [_ H2]%lookup_delete_Some.
  by apply (Hm id1 id2).
Qed.

Lemma ends_of_insert m id e pipe side : m !! id = None →
  ends_of (<[id := e]> m) pipe side = is_end pipe side e + ends_of m pipe side.
Proof. intros. unfold ends_of. by rewrite map_sum_insert. Qed.

Lemma ends_of_delete m id e pipe side : m !! id = Some e →
  ends_of (delete id m) pipe side = ends_of m pipe side - is_end pipe side e.
Proof. intros. unfold ends_of. by rewrite (map_sum_delete _ _ _ e). Qed.

Definition fresh_entry (d : OpenDescription) : DescriptionEntry :=
  MkDescriptionEntry d 0 false None None.

(** The two outcomes of [allocate]. *)
Lemma allocate_cases a d a' r : allocate a d = (a', r) →
  (a' = a ∧ r = Err DescriptionLimit) ∨
  (r = Ok (da_next_description a) ∧ da_next_description a + 1 ≤ U32_MAX ∧
   Z.of_nat (size (da_descriptions a)) < MAX_OPEN_DESCRIPTIONS ∧
   a' = MkDescriptorArena (da_next_description a + 1) (da_next_pipe a)
     (<[da_next_description a := fresh_entry d]> (da_descriptions a)) (da_pipes a)
     (da_file_locks_changed a) (da_file_lock_generation a)).
Proof.
  unfold allocate. destruct (_ <=? _) eqn:Hsize; [intros [= <- <-]; auto|].
  apply Z.leb_gt in Hsize. unfold checked_add32.
  destruct (_ <=? _) eqn:Hnext; intros [= <- <-]; [|auto]. apply Z.leb_le in Hnext. auto.
Qed.

(** Adding an entry that is no pipe end. *)
Lemma allocate_wf a d a' r :
  arena_wf a → endpoint_of d = None → description_wf d → allocate a d = (a', r) → arena_wf a'.
Proof.
  intros H Hend Hd [[-> _]|(-> & Hnext & Hsize & ->)]%allocate_cases; [done|].
  pose proof (lookup_next_None a H) as Hnone. destruct H. split; simpl; try done.
  - lia.
  - intros i [<-|[_ Hi]]%lookup_insert_is_Some; [lia|]. apply aw_ids0 in Hi. lia.
  - rewrite map_size_insert_None by done. lia.
  - intros i x [[<- <-]|[_ ?]]%lookup_insert_Some; [|eauto]. simpl. split; [done|]. done.
  - intros pipe p Hp. destruct (aw_pipe0 pipe p Hp) as (? & ? & Hr & Hw & ?).
    unfold pipe_wf. rewrite !ends_of_insert by done. unfold is_end. simpl. rewrite Hend.
    rewrite !bool_decide_eq_false_2 by done. by rewrite !Z.add_0_l.
  - intros i x pipe side [[<- <-]|[_ ?]]%lookup_insert_Some; [simpl; congruence|eauto].
  - by apply locks_compatible_fresh.
Qed.

(** The descriptions and pipes decide the invariant; the counters only have to stay above. *)
Lemma arena_wf_counters a nd np changed generation :
  arena_wf a → da_next_description a ≤ nd ≤ U32_MAX → da_next_pipe a ≤ np ≤ U32_MAX →
  arena_wf (MkDescriptorArena nd np (da_descriptions a) (da_pipes a) changed generation).
Proof.
  intros [] ? ?. split; simpl; try done; try lia.
  - intros i Hi. apply aw_ids0 in Hi. lia.
  - intros i Hi. apply aw_pipe_ids0 in Hi. lia.
Qed.

(** The arena after both ends of a new pipe are in place. *)
Definition piped (a : DescriptorArena) (capacity : Z) : DescriptorArena :=
  let pipe := da_next_pipe a in
  let reader := da_next_description a in
  MkDescriptorArena (reader + 2) (pipe + 1)
    (<[reader + 1 := fresh_entry (DPipeWriter pipe)]>
       (<[reader := fresh_entry (DPipeReader pipe)]> (da_descriptions a)))
    (<[pipe := MkPipe [] capacity 1 1]> (da_pipes a))
    (da_file_locks_changed a) (da_file_lock_generation a).

Lemma piped_wf a capacity :
  arena_wf a → 0 < capacity ≤ DEFAULT_PIPE_CAPACITY → da_next_pipe a + 1 ≤ U32_MAX →
  da_next_description a + 2 ≤ U32_MAX → Z.of_nat (size (da_pipes a)) < MAX_PIPES →
  Z.of_nat (size (da_descriptions a)) + 1 < MAX_OPEN_DESCRIPTIONS →
  arena_wf (piped a capacity).
Proof.
  intros H Hcap Hnp Hnd Hps Hds.
  pose proof (lookup_next_None a H) as Hn1. pose proof (lookup_next_pipe_None a H) as Hp.
  pose proof (λ side, ends_of_absent a _ side H Hp) as Hends.
  assert (Hn2 : da_descriptions a !! (da_next_description a + 1) = None).
  { apply eq_None_not_Some. intros Hs%(aw_ids a H). lia. }
  assert (Hn2' : (<[da_next_description a := fresh_entry (DPipeReader (da_next_pipe a))]>
    (da_descriptions a)) !! (da_next_description a + 1) = None) by (rewrite lookup_insert_ne; lia || done).
  destruct H. split; simpl; try lia.
  - intros i [<-|[_ [<-|[_ Hi]]%lookup_insert_is_Some]]%lookup_insert_is_Some; [lia..|].
    apply aw_ids0 in Hi. lia.
  - intros i [<-|[_ Hi]]%lookup_insert_is_Some; [lia|]. apply aw_pipe_ids0 in Hi. lia.
  - rewrite !map_size_insert_None by done. lia.
  - rewrite map_size_insert_None by done. lia.
  - intros i x [[<- <-]|[_ [[<- <-]|[_ ?]]%lookup_insert_Some]]%lookup_insert_Some;
      [simpl; split; [done|split; done]..|eauto].
  - intros pipe p [[<- <-]|[Hne Hpp]]%lookup_insert_Some; unfold pipe_wf;
      rewrite !ends_of_insert by done; unfold is_end; simpl.
    + rewrite !Hends. repeat case_bool_decide; simplify_eq/=; first [done|lia].
    + rewrite !bool_decide_eq_false_2 by congruence. rewrite !Z.add_0_l. by apply aw_pipe0.
  - intros i x pipe side [[<- <-]|[_ [[<- <-]|[_ Hx]]%lookup_insert_Some]]%lookup_insert_Some;
      simpl; [intros [= <- <-]; rewrite lookup_insert_eq; by eexists..|].
    intros Hend. destruct (aw_endpoint0 i x pipe side Hx Hend) as [? Hs].
    rewrite lookup_insert_ne by congruence. by eexists.
  - apply locks_compatible_fresh; [|done]. by apply locks_compatible_fresh.
Qed.

(** [open_pipe] adds both ends or neither. *)
Lemma open_pipe_cases a capacity a' r :
  arena_wf a → 0 ≤ capacity → open_pipe a capacity = (a', r) →
  (r = Ok (da_next_description a, da_next_description a + 1) ∧ a' = piped a capacity ∧ arena_wf a') ∨
  ((∃ e, r = Err e) ∧ arena_wf a' ∧
   da_descriptions a' = da_descriptions a ∧ da_pipes a' = da_pipes a ∧
   da_next_description a ≤ da_next_description a' ∧ da_next_pipe a ≤ da_next_pipe a').
Proof.
  intros H Hcap. pose proof (aw_next a H). pose proof (aw_next_pipe a H).
  pose proof (lookup_next_None a H) as Hn1. pose proof (lookup_next_pipe_None a H) as Hp.
  assert (Hrefuse : ∀ e, (a, Err e : result DescriptorError (Z * Z)) = (a', r) →
    (∃ e, r = Err e) ∧ arena_wf a' ∧ da_descriptions a' = da_descriptions a ∧
    da_pipes a' = da_pipes a ∧ da_next_description a ≤ da_next_description a' ∧
    da_next_pipe a ≤ da_next_pipe a') by (intros e [= <- <-]; eauto 10 with lia).
  unfold open_pipe. destruct ((_ =? _) || (_ <? _)) eqn:Hc; [by eauto|].
  destruct (_ <=? _) eqn:Hs; [by eauto|]. unfold checked_add32.
  destruct (da_next_pipe a + 1 <=? U32_MAX) eqn:Hnp; [|by eauto].
  apply orb_false_iff in Hc as [Hc1 Hc2]. apply Z.eqb_neq in Hc1. apply Z.ltb_ge in Hc2.
  apply Z.leb_gt in Hs. apply Z.leb_le in Hnp. clear Hrefuse.
  destruct (allocate _ _) as [a1 r1] eqn:Ha1.
  apply allocate_cases in Ha1 as [[-> ->]|(-> & Hnd & Hds & ->)]; simpl in *.
  { intros [= <- <-]. right. split; [by eauto|].
    unfold with_pipes. simpl. rewrite delete_insert_id by done.
    split; [apply arena_wf_counters; [done|lia..]|simpl; repeat split; lia || done]. }
  destruct (allocate _ _) as [a2 r2] eqn:Ha2.
  apply allocate_cases in Ha2 as [[-> ->]|(-> & Hnd2 & Hds2 & ->)]; simpl in *.
  { intros [= <- <-]. right. split; [by eauto|].
    unfold with_pipes. simpl. rewrite !delete_insert_id by done.
    split; [apply arena_wf_counters; [done|lia..]|simpl; repeat split; lia || done]. }
  rewrite map_size_insert_None in Hds2 by done.
  intros [= <- <-]. left. split; [done|].
  assert (Heq : MkDescriptorArena (da_next_description a + 1 + 1) (da_next_pipe a + 1)
    (<[da_next_description a + 1 := fresh_entry (DPipeWriter (da_next_pipe a))]>
      (<[da_next_description a := fresh_entry (DPipeReader (da_next_pipe a))]> (da_descriptions a)))
    (<[da_next_pipe a := MkPipe [] capacity 1 1]> (da_pipes a)) (da_file_locks_changed a)
    (da_file_lock_generation a) = piped a capacity).
  { unfold piped. f_equal. lia. }
  rewrite Heq. split; [done|]. apply piped_wf; [done|lia..].
Qed.

(** ** Releasing the last reference *)

(** The pipe table after the description [e], no longer in [m], gave its end back. *)
Lemma arena_wf_drop a id e pipe side p p' :
  arena_wf a → da_descriptions a !! id = Some e →
  endpoint_of (de_description e) = Some (pipe, side) →
  da_pipes a !! pipe = Some p →
  pi_bytes p' = pi_bytes p → pi_capacity p' = pi_capacity p →
  (∀ s : bool, (if s then pi_readers p' else pi_writers p') =
    (if s then pi_readers p else pi_writers p) - (if bool_decide (s = side) then 1 else 0)) →
  arena_wf (MkDescriptorArena (da_next_description a) (da_next_pipe a)
    (delete id (da_descriptions a))
    (if (pi_readers p' =? 0) && (pi_writers p' =? 0) then delete pipe (da_pipes a)
     else <[pipe := p']> (da_pipes a))
    (da_file_locks_changed a) (da_file_lock_generation a)).
Proof.
  intros H He Hend Hp Hb Hcap Hcount. destruct (aw_pipe a H pipe p Hp) as (? & ? & Hr & Hw & ?).
  assert (Hends : ∀ q s, ends_of (delete id (da_descriptions a)) q s =
    ends_of (da_descriptions a) q s - (if bool_decide (q = pipe ∧ s = side) then 1 else 0)).
  { intros q s. rewrite (ends_of_delete _ _ e) by done. unfold is_end. rewrite Hend.
    repeat case_bool_decide; naive_solver lia. }
  assert (Hnew : ∀ s : bool, (if s then pi_readers p' else pi_writers p') =
    ends_of (delete id (da_descriptions a)) pipe s).
  { intros s. rewrite Hcount, Hends. destruct s; rewrite ?Hr, ?Hw;
      repeat case_bool_decide; naive_solver lia. }
  pose proof (Hnew true) as Hr'. pose proof (Hnew false) as Hw'. simpl in Hr', Hw'.
  pose proof (ends_of_pos (delete id (da_descriptions a)) pipe) as Hpos.
  pose proof (Hpos true). pose proof (Hpos false).
  assert (Hother : ∀ q x, q ≠ pipe → da_pipes a !! q = Some x →
    pipe_wf (delete id (da_descriptions a)) q x).
  { intros q x Hq Hx. destruct (aw_pipe a H q x Hx) as (? & ? & ? & ? & ?). unfold pipe_wf.
    rewrite !Hends, !bool_decide_eq_false_2 by naive_solver. by rewrite !Z.sub_0_r. }
  pose proof (map_size_delete_Some id (da_descriptions a) (ex_intro _ _ He)) as Hsz.
  destruct H. split; simpl; try done.
  - intros i Hi%lookup_delete_is_Some. apply aw_ids0. tauto.
  - intros i Hi. apply aw_pipe_ids0. destruct (_ && _).
    + apply lookup_delete_is_Some in Hi. tauto.
    + apply lookup_insert_is_Some in Hi as [<-|[_ ?]]; [by eexists|done].
  - lia.
  - destruct (_ && _).
    + pose proof (map_size_delete_Some pipe (da_pipes a) (ex_intro _ _ Hp)). lia.
    + erewrite map_size_insert_Some by done. done.
  - intros i x [_ ?]%lookup_delete_Some. eauto.
  - intros q x. destruct (_ && _) eqn:Hzero.
    + intros [? ?]%lookup_delete_Some. by apply Hother.
    + intros [[<- <-]|[? ?]]%lookup_insert_Some; [|by apply Hother].
      apply andb_false_iff in Hzero. rewrite !Z.eqb_neq in Hzero. unfold pipe_wf.
      rewrite Hb, Hcap, <-Hr', <-Hw'. repeat split; try done; try lia.
  - intros i x q s [Hne Hx]%lookup_delete_Some Hxe.
    destruct (aw_endpoint0 i x q s Hx Hxe) as [y Hy].
    assert (1 ≤ ends_of (delete id (da_descriptions a)) q s).
    { apply (ends_of_elem _ i x); [by rewrite lookup_delete_ne|done]. }
    destruct (_ && _) eqn:Hzero.
    + apply andb_true_iff in Hzero as [Hz1%Z.eqb_eq Hz2%Z.eqb_eq].
      rewrite lookup_delete_ne; [by eexists|]. intros ->. destruct s; lia.
    + destruct (decide (q = pipe)) as [->|]; [rewrite lookup_insert_eq|rewrite lookup_insert_ne by done];
        by eexists.
  - by apply locks_compatible_delete.
Qed.

(** ** Reference counts *)

Definition refs (a : DescriptorArena) : gmap Z Z := de_references <$> da_descriptions a.

Lemma refs_lookup a id : refs a !! id = de_references <$> da_descriptions a !! id.
Proof. apply lookup_fmap. Qed.

(** Pipes only gain or lose bytes by reads and writes: between [a] and [a'], a pipe that is still
    there kept its bytes, and a new one is empty. *)
Record pipes_kept (a a' : DescriptorArena) : Prop := {
  pk_next : da_next_pipe a ≤ da_next_pipe a';
  pk_bytes : ∀ pipe p', da_pipes a' !! pipe = Some p' →
    (∃ p, da_pipes a !! pipe = Some p ∧ pi_bytes p' = pi_bytes p ∧ pi_capacity p' = pi_capacity p) ∨
    (da_next_pipe a ≤ pipe ∧ pi_bytes p' = [])
}.

#[export] Instance pipes_kept_refl : Reflexive pipes_kept.
Proof. intros a. split; [done|]. eauto. Qed.

Lemma pipes_kept_trans a b c : arena_wf b → pipes_kept a b → pipes_kept b c → pipes_kept a c.
Proof.
  intros Hb [Hn1 H1] [Hn2 H2]. split; [lia|]. intros pipe p' Hp'.
  destruct (H2 pipe p' Hp') as [(p & Hp & -> & ->)|[Hle ->]].
  - destruct (H1 pipe p Hp) as [(q & Hq & -> & ->)|[Hle ->]]; [left; eauto|right; auto].
  - right. split; [lia|done].
Qed.

Lemma pipes_kept_same a a' :
  da_pipes a' = da_pipes a → da_next_pipe a' = da_next_pipe a → pipes_kept a a'.
Proof. intros Hp Hn. split; [lia|]. rewrite Hp. eauto. Qed.

Lemma retain_spec a id a' r : arena_wf a → retain a id = (a', r) →
  (a' = a ∧ ∃ e, r = Err e) ∨
  (r = Ok tt ∧ ∃ n, refs a !! id = Some n ∧ refs a' = <[id := n + 1]> (refs a) ∧ arena_wf a' ∧
    pipes_kept a a').
Proof.
  intros H. unfold retain. rewrite refs_lookup.
  destruct (da_descriptions a !! id) as [e|] eqn:He; [|intros [= <- <-]; eauto].
  destruct (aw_entry a H id e He) as [Hd Hr]. unfold checked_add32.
  destruct (_ <=? _) eqn:Hle; intros [= <- <-]; [|eauto]. apply Z.leb_le in Hle.
  right. split; [done|]. exists (de_references e). split; [done|].
  split; [unfold refs; simpl; by rewrite fmap_insert|]. split; [|by apply pipes_kept_same].
  apply (arena_wf_replace _ _ e); try done; simpl; [lia|].
  apply (locks_compatible_replace _ _ e); [apply H|done|by left].
Qed.

(** The effect of [release] on the counts. *)
Definition release_refs (id : Z) (R : gmap Z Z) : gmap Z Z :=
  match R !! id with
  | Some n => if n =? 1 then delete id R else <[id := n - 1]> R
  | None => R
  end.

Lemma release_last_wf a id e :
  arena_wf a → da_descriptions a !! id = Some e →
  let a' := drop_endpoint (with_descriptions a (delete id (da_descriptions a))) (de_description e) in
  arena_wf a' ∧ da_descriptions a' = delete id (da_descriptions a) ∧ pipes_kept a a'.
Proof.
  intros H He. destruct (endpoint_of (de_description e)) as [[pipe side]|] eqn:Hend.
  - destruct (aw_endpoint a H id e pipe side He Hend) as [p Hp].
    pose proof (aw_pipe a H pipe p Hp) as (? & ? & Hr & Hw & ?).
    pose proof (ends_of_elem _ _ _ _ _ He Hend) as Helem.
    set (p' := if side then MkPipe (pi_bytes p) (pi_capacity p) (sat_sub (pi_readers p) 1) (pi_writers p)
               else MkPipe (pi_bytes p) (pi_capacity p) (pi_readers p) (sat_sub (pi_writers p) 1)).
    pose proof (arena_wf_drop a id e pipe side p p' H He Hend Hp) as Hwf.
    match type of Hwf with _ → _ → _ → arena_wf ?x => set (a1 := x) in Hwf end.
    assert (Heq : drop_endpoint (with_descriptions a (delete id (da_descriptions a)))
      (de_description e) = a1).
    { unfold drop_endpoint. destruct (de_description e); simplify_eq/=; rewrite Hp; simpl;
        rewrite lookup_insert_eq; subst a1 p'; simpl; destruct (_ && _); unfold with_pipes; simpl;
        by rewrite ?delete_insert_eq. }
    rewrite Heq. split; [|split; [done|]].
    + apply Hwf; [by destruct side..|]. unfold sat_sub in p'. intros s.
      destruct side, s; simpl; lia.
    + split; [done|]. intros q x Hx. left. subst a1. simpl in Hx. destruct (_ && _).
      * apply lookup_delete_Some in Hx as [_ Hx]. eauto.
      * apply lookup_insert_Some in Hx as [[<- <-]|[_ Hx]]; [|eauto].
        exists p. split; [done|]. by destruct side.
  - assert (Heq : drop_endpoint (with_descriptions a (delete id (da_descriptions a)))
      (de_description e) = with_descriptions a (delete id (da_descriptions a))).
    { unfold drop_endpoint. by destruct (de_description e). }
    rewrite Heq. split; [|split; [done|by apply pipes_kept_same]].
    pose proof (map_size_delete_Some id (da_descriptions a) (ex_intro _ _ He)) as Hsz.
    destruct H. split; simpl; try done.
    + intros i Hi%lookup_delete_is_Some. apply aw_ids0. tauto.
    + lia.
    + intros i x [_ ?]%lookup_delete_Some. eauto.
    + intros q x Hx. destruct (aw_pipe0 q x Hx) as (? & ? & ? & ? & ?). unfold pipe_wf.
      rewrite !(ends_of_delete _ _ e) by done. unfold is_end. rewrite Hend.
      rewrite !bool_decide_eq_false_2 by done. by rewrite !Z.sub_0_r.
    + intros i x q s [_ ?]%lookup_delete_Some. eauto.
    + by apply locks_compatible_delete.
Qed.

Definition with_flags (a : DescriptorArena) (changed : bool) (generation : Z) : DescriptorArena :=
  MkDescriptorArena (da_next_description a) (da_next_pipe a) (da_descriptions a) (da_pipes a)
    changed generation.

Lemma drop_endpoint_flags a d changed generation :
  drop_endpoint (with_flags a changed generation) d =
    with_flags (drop_endpoint a d) changed generation.
Proof.
  unfold drop_endpoint. destruct d; try reflexivity; simpl;
    (destruct (da_pipes a !! pipe) as [p|] eqn:Hp; simpl;
      [rewrite lookup_insert_eq; by destruct (_ && _)|by rewrite Hp]).
Qed.

Lemma release_spec a id n : arena_wf a → refs a !! id = Some n → 0 < n →
  ∃ a', release a id = (a', Ok tt) ∧ arena_wf a' ∧ refs a' = release_refs id (refs a) ∧
    pipes_kept a a'.
Proof.
  intros H Hn Hpos. unfold release_refs. rewrite Hn. rewrite refs_lookup in Hn.
  destruct (da_descriptions a !! id) as [e|] eqn:He; simplify_eq/=.
  unfold release. rewrite He. rewrite (proj2 (Z.eqb_neq _ _)) by lia.
  destruct (aw_entry a H id e He) as [Hd Hr].
  destruct (de_references e =? 1) eqn:H1.
  - apply Z.eqb_eq in H1. rewrite H1. simpl.
    destruct (release_last_wf a id e H He) as (Hwf & Hdesc & Hkept).
    assert (Hflags : ∃ c g,
      match de_file_lock e with
      | Some _ => note_lock_change (with_descriptions a (delete id (da_descriptions a)))
      | None => with_descriptions a (delete id (da_descriptions a))
      end = with_flags (with_descriptions a (delete id (da_descriptions a))) c g).
    { destruct (de_file_lock e); by do 2 eexists. }
    destruct Hflags as (c & g & ->). rewrite drop_endpoint_flags.
    eexists. split; [done|]. split; [|split].
    + apply arena_wf_counters; [done| |]; pose proof (aw_next _ Hwf); pose proof (aw_next_pipe _ Hwf); lia.
    + unfold refs. simpl. rewrite Hdesc. by rewrite fmap_delete.
    + destruct Hkept. by split.
  - apply Z.eqb_neq in H1. rewrite (proj2 (Z.eqb_neq _ _)) by lia. simpl.
    eexists. split; [done|]. split; [|split; [|by apply pipes_kept_same]].
    + apply (arena_wf_replace _ _ e); try done; simpl; [lia|].
      apply (locks_compatible_replace _ _ e); [apply H|done|by left].
    + unfold refs. simpl. by rewrite fmap_insert.
Qed.

(** ** Operations that move no reference *)

(** [a'] keeps the invariant of [a], its reference counts and its pipes. *)
Record inert (a a' : DescriptorArena) : Prop := {
  in_wf : arena_wf a';
  in_refs : refs a' = refs a;
  in_pipes : pipes_kept a a'
}.

Lemma inert_refl a : arena_wf a → inert a a.
Proof. by split. Qed.

Lemma inert_replace a id e e' :
  arena_wf a → da_descriptions a !! id = Some e →
  endpoint_of (de_description e') = endpoint_of (de_description e) →
  description_wf (de_description e') → de_references e' = de_references e →
  (de_file_lock e' = de_file_lock e ∨ de_file_lock e' = None) →
  inert a (set_entry a id e').
Proof.
  intros H He Hend Hd Href Hl. destruct (aw_entry a H id e He) as [? ?]. split.
  - apply (arena_wf_replace _ _ e); try done; [by rewrite Href|].
    by apply (locks_compatible_replace _ _ e); [apply H| |].
  - unfold refs. simpl. rewrite fmap_insert, Href. apply insert_id. by rewrite lookup_fmap, He.
  - by apply pipes_kept_same.
Qed.

Ltac inert_entry a H :=
  match goal with
  | He : da_descriptions a !! ?id = Some ?e |- _ =>
      let Hd := fresh "Hd" in
      destruct (aw_entry a H id e He) as [Hd _];
      apply (inert_replace a id e); [exact H|exact He|..]; simpl;
      try (by left); try done;
      try match goal with Hk : de_description e = _ |- _ => rewrite Hk in *; simpl in * end;
      try done
  end.

Lemma append_input_inert a id input : arena_wf a → inert a (append_input a id input).1.
Proof.
  intros H. unfold append_input. repeat case_match; try (by apply inert_refl). simpl.
  inert_entry a H. rewrite length_app.
  rename select (_ <? _ = false) into Hle. apply Z.ltb_ge in Hle.
  assert (MAX_CAPTURE_BYTES < U64_MAX) by done. unfold sat_add64 in Hle. lia.
Qed.

Lemma close_input_inert a id : arena_wf a → inert a (close_input a id).1.
Proof.
  intros H. unfold close_input. repeat case_match; try (by apply inert_refl). simpl.
  inert_entry a H.
Qed.

Lemma bind_inode_inert a id inode : arena_wf a → inert a (bind_inode a id inode).1.
Proof.
  intros H. unfold bind_inode. repeat case_match; try (by apply inert_refl). simpl.
  inert_entry a H.
Qed.

Lemma set_nonblocking_inert a id b : arena_wf a → inert a (set_nonblocking a id b).1.
Proof.
  intros H. unfold set_nonblocking. repeat case_match; try (by apply inert_refl). simpl.
  inert_entry a H.
Qed.

Lemma set_append_inert a id b : arena_wf a → inert a (set_append a id b).1.
Proof.
  intros H. unfold set_append. repeat case_match; try (by apply inert_refl). simpl.
  inert_entry a H.
Qed.

Lemma advance_file_inert a id n : arena_wf a → inert a (advance_file a id n).1.
Proof.
  intros H. unfold advance_file. repeat case_match; try (by apply inert_refl). simpl.
  inert_entry a H.
Qed.

Lemma seek_file_inert a id n : arena_wf a → inert a (seek_file a id n).1.
Proof.
  intros H. unfold seek_file. repeat case_match; try (by apply inert_refl). simpl.
  inert_entry a H.
Qed.

Lemma slice_in_range l start end_ : 0 ≤ start → start ≤ end_ → end_ ≤ zlen l →
  slice l start end_ = Ret (take (Z.to_nat (end_ - start)) (drop (Z.to_nat start) l)).
Proof.
  intros. unfold slice. rewrite !(proj2 (Z.leb_le _ _)) by lia. done.
Qed.

Lemma drain_capture_inert a id : arena_wf a →
  ∃ a' r, drain_capture a id = Ret (a', r) ∧ inert a a'.
Proof.
  intros H. unfold drain_capture.
  destruct (da_descriptions a !! id) as [e|] eqn:He; [|eauto using inert_refl].
  destruct (de_description e) eqn:Hd; eauto using inert_refl.
  destruct (aw_entry a H id e He) as [Hw _]. rewrite Hd in Hw. simpl in Hw.
  rewrite slice_in_range by lia. do 2 eexists. split; [done|]. inert_entry a H. lia.
Qed.

Lemma detach_file_inert a path orphan : arena_wf a → inert a (detach_file a path orphan).
Proof.
  intros H. assert (Hsame : ∀ e,
    endpoint_of (de_description (detach_entry path orphan e)) = endpoint_of (de_description e) ∧
    de_references (detach_entry path orphan e) = de_references e ∧
    de_file_lock (detach_entry path orphan e) = de_file_lock e ∧
    (description_wf (de_description e) →
     description_wf (de_description (detach_entry path orphan e)))).
  { intros e. unfold detach_entry. destruct (de_description e) eqn:Hd; rewrite ?Hd; try done.
    case_bool_decide; simpl; rewrite ?Hd; done. }
  assert (Hends : ∀ pipe side, ends_of (detach_entry path orphan <$> da_descriptions a) pipe side =
    ends_of (da_descriptions a) pipe side).
  { intros pipe side. unfold ends_of, map_sum. rewrite map_fold_fmap.
    apply (map_sum_ext (λ _ e, is_end pipe side (detach_entry path orphan e))).
    intros k e _. apply is_end_eq, Hsame. }
  split; [| |by apply pipes_kept_same].
  - destruct H. split; simpl; try done.
    + intros i. rewrite lookup_fmap, fmap_is_Some. auto.
    + by rewrite map_size_fmap.
    + intros i x. rewrite lookup_fmap_Some. intros (e & <- & He).
      destruct (Hsame e) as (_ & -> & _ & Hd). destruct (aw_entry0 i e He). auto.
    + intros pipe p Hp. unfold pipe_wf. rewrite !Hends. by apply aw_pipe0.
    + intros i x pipe side. rewrite lookup_fmap_Some. intros (e & <- & He).
      rewrite (proj1 (Hsame e)). eauto.
    + intros id1 id2 e1 e2 inode m1 m2 Hne. rewrite !lookup_fmap_Some.
      intros (x1 & <- & H1) (x2 & <- & H2).
      destruct (Hsame x1) as (_ & _ & -> & _), (Hsame x2) as (_ & _ & -> & _).
      by apply (aw_locks0 id1 id2).
  - unfold refs. simpl. rewrite <-map_fmap_compose. apply map_fmap_ext. intros i e _. apply Hsame.
Qed.

Lemma take_file_lock_changes_inert a : arena_wf a → inert a (take_file_lock_changes a).1.
Proof.
  intros H. split; [|done|by apply pipes_kept_same].
  apply arena_wf_counters; [done| |]; pose proof (aw_next a H); pose proof (aw_next_pipe a H); lia.
Qed.

(** ** Advisory locks *)

Definition lock_of (a : DescriptorArena) (id : Z) : option (Z * FileLockMode) :=
  da_descriptions a !! id ≫= de_file_lock.

Lemma lock_of_replace a id e id' : lock_of (set_entry a id e) id' =
  if decide (id' = id) then de_file_lock e else lock_of a id'.
Proof.
  unfold lock_of. simpl. case_decide as Hid; [subst; by rewrite lookup_insert_eq|].
  by rewrite lookup_insert_ne.
Qed.

Lemma elem_of_btree_values {K V} `{Countable K, OrdKey K} (m : gmap K V) v :
  v ∈ btree_values m ↔ ∃ k, m !! k = Some v.
Proof.
  unfold btree_values. rewrite list_elem_of_fmap. split.
  - intros ([k v'] & -> & Hin). apply elem_of_btree_iter in Hin. eauto.
  - intros [k Hk]. exists (k, v). by rewrite elem_of_btree_iter.
Qed.

Lemma existsb_lock_conflicts a inode mode :
  existsb (lock_conflicts inode mode) (btree_values (da_descriptions a)) = true ↔
  ∃ id other, lock_of a id = Some (inode, other) ∧ (mode = LockExclusive ∨ other = LockExclusive).
Proof.
  rewrite existsb_exists. setoid_rewrite <-list_elem_of_In. setoid_rewrite elem_of_btree_values.
  unfold lock_of, lock_conflicts. split.
  - intros (e & [id He] & Hc). exists id. rewrite He. simpl.
    destruct (de_file_lock e) as [[i m]|]; [|done].
    apply andb_true_iff in Hc as [->%Z.eqb_eq Hc]. exists m. split; [done|].
    apply orb_true_iff in Hc as [Hc|Hc]; apply bool_decide_eq_true in Hc; auto.
  - intros (id & other & Hl & Hc). destruct (da_descriptions a !! id) as [e|] eqn:He; [|done].
    simpl in Hl. exists e. split; [eauto|]. rewrite Hl. apply andb_true_iff. split; [lia|].
    apply orb_true_iff. rewrite !bool_decide_eq_true. tauto.
Qed.

(** Granting a lock that conflicts with no other description. *)
Lemma lock_grant_inert a id e inode m :
  arena_wf a → da_descriptions a !! id = Some e →
  (∀ id' o, id' ≠ id → lock_of a id' = Some (inode, o) → m = LockShared ∧ o = LockShared) →
  inert a (set_entry a id (with_lock e (Some (inode, m)))).
Proof.
  intros H He Hno. destruct (aw_entry a H id e He) as [Hd Href].
  set (locked := with_lock e (Some (inode, m))).
  assert (Hother : ∀ id' e' o, id' ≠ id → <[id := locked]> (da_descriptions a) !! id' = Some e' →
    de_file_lock e' = Some (inode, o) → m = LockShared ∧ o = LockShared).
  { intros id' e' o Hid Hl Ho. rewrite lookup_insert_ne in Hl by done.
    apply (Hno id' o Hid). unfold lock_of. by rewrite Hl. }
  split; [|unfold refs; simpl; rewrite fmap_insert; apply insert_id; by rewrite lookup_fmap, He
          |by apply pipes_kept_same].
  apply (arena_wf_replace _ _ e); try done.
  intros id1 id2 e1 e2 i m1 m2 Hne H1 H2 L1 L2.
  destruct (decide (id1 = id)) as [->|]; [|destruct (decide (id2 = id)) as [->|]].
  - rewrite lookup_insert_eq in H1. simplify_eq/=. destruct (Hother id2 e2 m2) as [-> ->]; done.
  - rewrite lookup_insert_eq in H2. simplify_eq/=. destruct (Hother id1 e1 m1) as [-> ->]; done.
  - rewrite lookup_insert_ne in H1, H2 by done. by apply (aw_locks a H id1 id2 e1 e2 i m1 m2).
Qed.

(** The arena after a request dropped the previous lock of its description. *)
Definition lock_dropped (a : DescriptorArena) (id : Z) (e : DescriptionEntry) : DescriptorArena :=
  let taken := set_entry a id (with_lock e None) in
  match de_file_lock e with Some _ => note_lock_change taken | None => taken end.

Lemma lock_dropped_spec a id e : arena_wf a → da_descriptions a !! id = Some e →
  inert a (lock_dropped a id e) ∧
  da_descriptions (lock_dropped a id e) !! id = Some (with_lock e None) ∧
  ∀ id', lock_of (lock_dropped a id e) id' = if decide (id' = id) then None else lock_of a id'.
Proof.
  intros H He.
  assert (Hdesc : da_descriptions (lock_dropped a id e) = <[id := with_lock e None]> (da_descriptions a))
    by (unfold lock_dropped; by destruct (de_file_lock e)).
  split; [|split].
  - assert (Htaken : inert a (set_entry a id (with_lock e None))).
    { inert_entry a H. by right. }
    destruct Htaken as [Hw Hr Hp]. unfold lock_dropped. destruct (de_file_lock e); [|done]. split.
    + by apply arena_wf_note.
    + exact Hr.
    + destruct Hp. by split.
  - by rewrite Hdesc, lookup_insert_eq.
  - intros id'. rewrite <-(lock_of_replace a id (with_lock e None)). unfold lock_of. by rewrite Hdesc.
Qed.

Lemma inert_trans a b c : arena_wf b → inert a b → inert b c → inert a c.
Proof.
  intros Hb [? Hr1 Hp1] [? Hr2 Hp2]. split; [done|congruence|by apply (pipes_kept_trans _ b)].
Qed.

(** What a lock request does to the locks: [b] is its answer. *)
Lemma file_lock_spec a id inode mode : arena_wf a → is_Some (da_descriptions a !! id) →
  ∃ a' b, file_lock a id inode mode = Ret (a', Ok b) ∧ inert a a' ∧
    (∀ id', id' ≠ id → lock_of a' id' = lock_of a id') ∧
    lock_of a' id = (if b then (λ mode, (inode, mode)) <$> mode else None) ∧
    (b = false ↔ ∃ m, mode = Some m ∧ lock_of a id ≠ Some (inode, m) ∧ ∃ id' other, id' ≠ id ∧
      lock_of a id' = Some (inode, other) ∧ (m = LockExclusive ∨ other = LockExclusive)).
Proof.
  intros H [e He]. unfold file_lock. rewrite He.
  assert (Hown : lock_of a id = de_file_lock e) by (unfold lock_of; by rewrite He).
  case_bool_decide as Hsame.
  { exists a, true. split; [done|]. split; [by apply inert_refl|]. split; [done|].
    split; [congruence|]. split; [done|]. intros (m & -> & Hne & _). simpl in Hsame. congruence. }
  change (match de_file_lock e with Some _ => _ | None => _ end) with (lock_dropped a id e).
  destruct (lock_dropped_spec a id e H He) as (Ha1 & He1 & Hlock).
  set (a1 := lock_dropped a id e) in *.
  assert (Hrest : ∀ id', id' ≠ id → lock_of a1 id' = lock_of a id')
    by (intros id' ?; by rewrite Hlock, decide_False).
  assert (Hnone : lock_of a1 id = None) by (by rewrite Hlock, decide_True).
  destruct mode as [m|].
  2: { exists a1, true. split; [done|]. do 3 (split; [done|]). split; [done|].
    by intros (m & [=] & _). }
  assert (Hiff : existsb (lock_conflicts inode m) (btree_values (da_descriptions a1)) = true ↔
    ∃ id' other, id' ≠ id ∧ lock_of a id' = Some (inode, other) ∧
      (m = LockExclusive ∨ other = LockExclusive)).
  { rewrite existsb_lock_conflicts. split.
    - intros (i & o & Hl & Hm). rewrite Hlock in Hl. case_decide; [done|]. eauto 10.
    - intros (i & o & Hne & Hl & Hm). exists i, o. rewrite Hrest by done. auto. }
  destruct (existsb _ _).
  { exists a1, false. split; [done|]. do 3 (split; [done|]). split; [|done].
    intros _. exists m. split; [done|]. split; [by rewrite Hown|by apply Hiff]. }
  rewrite He1. simpl. eexists _, true. split; [done|]. split; [|split; [|split]].
  - apply (inert_trans _ a1); [apply Ha1|done|]. apply lock_grant_inert; [apply Ha1|done|].
    intros id' o Hne Ho. rewrite Hrest in Ho by done.
    destruct m, o; try done; exfalso; cut (false = true); try done; apply Hiff; eauto 10.
  - intros id' Hne. rewrite lock_of_replace, decide_False by done. auto.
  - rewrite lock_of_replace. by rewrite decide_True.
  - split; [done|]. intros (m' & [= <-] & _ & Hc). apply Hiff in Hc. done.
Qed.

(** ** Reads and writes *)

(** What an operation does to the pipes, as a caller sees it. *)
Inductive pipe_event :=
| EvRead (pipe : Z) (data : bytes)
| EvWrite (pipe : Z) (data : bytes)
| EvQuiet.

Definition pipe_transition (a : DescriptorArena) (event : pipe_event) (a' : DescriptorArena)
    : Prop :=
  match event with
  | EvQuiet => pipes_kept a a'
  | EvRead pipe data => ∃ p rest, da_pipes a !! pipe = Some p ∧ pi_bytes p = data ++ rest ∧
      da_next_pipe a' = da_next_pipe a ∧
      da_pipes a' = <[pipe := MkPipe rest (pi_capacity p) (pi_readers p) (pi_writers p)]> (da_pipes a)
  | EvWrite pipe data => ∃ p, da_pipes a !! pipe = Some p ∧
      da_next_pipe a' = da_next_pipe a ∧
      da_pipes a' = <[pipe := MkPipe (pi_bytes p ++ data) (pi_capacity p) (pi_readers p)
                                (pi_writers p)]> (da_pipes a)
  end.

Definition read_event (a : DescriptorArena) (id : Z) (r : result DescriptorError (IoPoll bytes))
    : pipe_event :=
  match r, pipe_endpoint a id with
  | Ok (Ready data), Ok (Some (pipe, true)) => EvRead pipe data
  | _, _ => EvQuiet
  end.

Definition write_event (a : DescriptorArena) (id : Z) (data : bytes)
    (r : result DescriptorError (IoPoll Z)) : pipe_event :=
  match r, pipe_endpoint a id with
  | Ok (Ready count), Ok (Some (pipe, false)) => EvWrite pipe (take (Z.to_nat count) data)
  | _, _ => EvQuiet
  end.

(** The arena is left as it was and no pipe moved. *)
Ltac stay H := do 2 eexists; split; [reflexivity|]; apply inert_refl in H; destruct H; simpl; done.

Lemma arena_read_spec a id maximum : arena_wf a → 0 ≤ maximum →
  ∃ a' r, arena_read a id maximum = Ret (a', r) ∧ arena_wf a' ∧ refs a' = refs a ∧
    pipe_transition a (read_event a id r) a'.
Proof.
  intros H Hmax. unfold arena_read, read_event, pipe_endpoint.
  assert (Hquiet : ∀ a', inert a a' → arena_wf a' ∧ refs a' = refs a ∧ pipe_transition a EvQuiet a')
    by (intros a' []; done).
  destruct (da_descriptions a !! id) as [e|] eqn:He; [|stay H].
  destruct (aw_entry a H id e He) as [Hw _].
  destruct (de_description e) as [|content cursor closed| | |stream readable writable| |pipe|] eqn:Hd;
    try (stay H).
  - destruct (_ && _) eqn:Hblk; [stay H|]. simpl in Hw.
    assert (MAX_CAPTURE_BYTES < U64_MAX) by done. unfold sat_add64.
    rewrite slice_in_range by lia. simpl.
    do 2 eexists. split; [done|]. apply Hquiet. inert_entry a H. lia.
  - destruct readable; stay H.
  - destruct readable; simpl; [|stay H].
    destruct (device_read stream (Z.to_nat maximum)) as [stream' out].
    do 2 eexists. split; [done|]. apply Hquiet. inert_entry a H.
  - destruct (da_pipes a !! pipe) as [p|] eqn:Hp; [|stay H].
    destruct (_ && _); [stay H|].
    destruct (aw_pipe a H pipe p Hp) as (? & _).
    do 2 eexists. split; [done|]. split; [|split; [done|]].
    + apply arena_wf_set_pipe; [done..|]. rewrite length_drop. lia.
    + simpl. eexists p, _. split; [done|]. split; [by rewrite take_drop|]. done.
Qed.

Lemma arena_write_spec a id data : arena_wf a →
  let '(a', r) := arena_write a id data in
  arena_wf a' ∧ refs a' = refs a ∧ pipe_transition a (write_event a id data r) a'.
Proof.
  intros H. unfold arena_write, write_event, pipe_endpoint.
  assert (Hquiet : ∀ a', inert a a' → arena_wf a' ∧ refs a' = refs a ∧ pipe_transition a EvQuiet a')
    by (intros a' []; done).
  destruct (da_descriptions a !! id) as [e|] eqn:He; [|auto using inert_refl].
  destruct (aw_entry a H id e He) as [Hw _].
  destruct (de_description e) as [| |content delivered|readable writable| stream readable writable
    | | |pipe] eqn:Hd; auto using inert_refl.
  - destruct (_ <? _) eqn:Hle; [auto using inert_refl|]. apply Z.ltb_ge in Hle. simpl in Hw.
    apply Hquiet. inert_entry a H. rewrite length_app.
    assert (MAX_CAPTURE_BYTES < U64_MAX) by done. unfold sat_add64 in Hle. lia.
  - destruct writable; auto using inert_refl.
  - destruct writable; auto using inert_refl.
  - destruct (da_pipes a !! pipe) as [p|] eqn:Hp; [|auto using inert_refl].
    destruct (pi_readers p =? 0); [auto using inert_refl|].
    destruct (_ =? 0) eqn:Hav; [auto using inert_refl|].
    destruct (aw_pipe a H pipe p Hp) as (? & _). unfold sat_sub in *.
    split; [|split; [done|]].
    + apply arena_wf_set_pipe; [done..|]. rewrite length_app, length_take. lia.
    + simpl. by exists p.
Qed.

(** C30: Advisory locks: a request on a live description never fails. It is refused exactly when
    another description holds a lock on the inode and one of the two is exclusive; it is granted
    otherwise; either way the previous lock of the description is gone and the locks of every
    other description are untouched, so that no two descriptions ever hold an exclusive lock on
    one inode together with any other. *)
Theorem file_lock_exclusion a id inode mode : arena_wf a → is_Some (da_descriptions a !! id) →
  ∃ a' granted, file_lock a id inode mode = Ret (a', Ok granted) ∧
    lock_of a' id = (if granted then (λ mode, (inode, mode)) <$> mode else None) ∧
    (∀ other, other ≠ id → lock_of a' other = lock_of a other) ∧
    (granted = false ↔ ∃ m, mode = Some m ∧ lock_of a id ≠ Some (inode, m) ∧ ∃ other held,
      other ≠ id ∧ lock_of a other = Some (inode, held) ∧
      (m = LockExclusive ∨ held = LockExclusive)) ∧
    (∀ x y mx my i, x ≠ y → lock_of a' x = Some (i, mx) → lock_of a' y = Some (i, my) →
      mx = LockShared ∧ my = LockShared).
Proof.
  intros H Hid. destruct (file_lock_spec a id inode mode H Hid) as (a' & b & Hrun & [] & Ho & Hl & Hb).
  exists a', b. do 4 (split; [done|]). unfold lock_of. intros x y mx my i Hne Hx Hy.
  apply bind_Some in Hx as (ex & Hex & Hx), Hy as (ey & Hey & Hy).
  by apply (aw_locks a' in_wf0 x y ex ey i mx my).
Qed.

Definition lock_example : DescriptorArena :=
  let a := (open_capture (open_capture arena_new).1).1 in
  match file_lock a 1 7 (Some LockShared) with Ret (a, _) => a | _ => a end.

Lemma lock_example_wf : arena_wf lock_example.
Proof.
  unfold lock_example. set (a := (open_capture (open_capture arena_new).1).1).
  assert (Ha : arena_wf a).
  { apply (allocate_wf (open_capture arena_new).1 (DCapture [] 0) a (Ok 2)); [|done|done|done].
    apply (allocate_wf arena_new (DCapture [] 0) _ (Ok 1)); [apply arena_new_wf|done|done|done]. }
  destruct (file_lock_spec a 1 7 (Some LockShared) Ha) as (a' & b & -> & [] & _); [by eexists|done].
Qed.

Lemma file_lock_exclusion_witness :
  ∃ a', file_lock lock_example 2 7 (Some LockExclusive) = Ret (a', Ok false) ∧
    lock_of a' 1 = Some (7, LockShared).
Proof.
  destruct (file_lock_exclusion lock_example 2 7 (Some LockExclusive) lock_example_wf)
    as (a' & granted & Hrun & _ & Hother & Hiff & _).
  { vm_compute. by eexists. }
  assert (Hg : granted = false).
  { apply Hiff. exists LockExclusive. split; [reflexivity|]. split; [vm_compute; discriminate|].
    exists 1, LockShared. split; [lia|]. split; [vm_compute; reflexivity|by left]. }
  subst. exists a'. split; [exact Hrun|]. rewrite Hother by lia. vm_compute. reflexivity.
Defined.

Ltac io_simpl :=
  cbn [ds_readable ds_writable ds_kind negb andb orb expect ready_counts mbind run_bind fmap
       option_fmap option_map dr_bytes dr_hangup].

(** Readiness for reading agrees with reading: it reports an error exactly as a read does, it
    reports the wait on which a read would block, and a ready input or pipe end yields exactly as
    many of the reported bytes as are asked for. The check never panics. *)
Theorem read_readiness_agrees a id maximum : arena_wf a → 0 ≤ maximum →
  ∃ r, readiness a id false = Ret r ∧
    match r with
    | Err e => arena_read a id maximum = Ret (a, Err e)
    | Ok (Blocked wait) => arena_read a id maximum = Ret (a, Ok (Blocked wait))
    | Ok (Ready ready) =>
        match de_description <$> da_descriptions a !! id with
        | Some (DFile _ | DDirectory _) => arena_read a id maximum = Ret (a, Err WrongAccess)
        | Some (DInput _ _ _ | DPipeReader _) => ∃ a' data,
            arena_read a id maximum = Ret (a', Ok (Ready data)) ∧
            zlen data = Z.min maximum (dr_bytes ready)
        | _ => ∃ a' data, arena_read a id maximum = Ret (a', Ok (Ready data))
        end
    end.
Proof.
  intros H Hmax. unfold readiness, arena_state, arena_read.
  destruct (da_descriptions a !! id) as [e|] eqn:He; [|by eexists].
  destruct (aw_entry a H id e He) as [Hw _].
  destruct (de_description e) as [|content cursor closed| |readable writable
    |stream readable writable|f|pipe|pipe] eqn:Hd;
    io_simpl; rewrite ?Hd; io_simpl; try (by eexists).
  - unfold input_readable. rewrite He, Hd. simpl in Hw.
    assert (MAX_CAPTURE_BYTES < U64_MAX) by done.
    destruct (cursor <? zlen content) eqn:Hlt; simpl.
    + apply Z.ltb_lt in Hlt. eexists. split; [done|]. simpl.
      rewrite (proj2 (Z.eqb_neq _ _)) by lia. simpl. unfold sat_add64.
      rewrite slice_in_range by lia. simpl. do 2 eexists. split; [done|].
      rewrite length_take, length_drop. unfold sat_sub. lia.
    + apply Z.ltb_ge in Hlt. rewrite (proj2 (Z.eqb_eq _ _)) by lia.
      destruct closed; simpl; eexists; (split; [done|]); [|done]. unfold sat_add64.
      rewrite slice_in_range by lia. simpl. do 2 eexists. split; [done|].
      rewrite length_take, length_drop. unfold sat_sub. lia.
  - destruct readable; eexists; (split; [done|]); simpl; [by do 2 eexists|done].
  - destruct readable; eexists; (split; [done|]); simpl; [|done].
    destruct (device_read _ _). by do 2 eexists.
  - destruct (fs_readable f); by eexists.
  - destruct (aw_endpoint a H id e pipe true He) as [p Hp]; [by rewrite Hd|].
    unfold pipe_readable. rewrite !Hp. io_simpl.
    destruct (aw_pipe a H pipe p Hp) as (_ & _ & _ & Hwr & _).
    pose proof (ends_of_pos (da_descriptions a) pipe false).
    destruct (zlen (pi_bytes p) =? 0) eqn:Hz; simpl.
    + destruct (pi_writers p =? 0) eqn:Hwz; simpl.
      * eexists. split; [done|]. apply Z.eqb_eq in Hwz, Hz. rewrite Hwz. simpl.
        do 2 eexists. split; [done|]. rewrite length_take. lia.
      * apply Z.eqb_neq in Hwz. eexists. split; [done|]. simpl.
        by rewrite (proj2 (Z.ltb_lt _ _)) by lia.
    + eexists. split; [done|]. simpl. do 2 eexists. split; [done|]. rewrite length_take. lia.
Qed.

Lemma read_readiness_agrees_witness :
  ∃ r, readiness lock_example 1 false = Ret r ∧
    match r with Err WrongAccess => arena_read lock_example 1 5 = Ret (lock_example, Err WrongAccess)
            | _ => False end.
Proof.
  destruct (read_readiness_agrees lock_example 1 5 lock_example_wf) as (r & Hr & Hread); [lia|].
  exists r. split; [exact Hr|]. assert (Heq : Ret r = Ret (Err WrongAccess)).
  { rewrite <-Hr. vm_compute. reflexivity. }
  injection Heq as ->. exact Hread.
Defined.

(** Readiness for writing agrees with writing: it reports an error or a wait exactly as a
    write does; on a ready pipe a write of [data] accepts as many bytes as were reported free, or
    fails with a broken pipe when a hangup was reported; on a ready capture a write fits exactly
    when it is no longer than the reported space. *)
Theorem write_readiness_agrees a id data : arena_wf a →
  ∃ r, readiness a id true = Ret r ∧
    match r with
    | Err e => arena_write a id data = (a, Err e)
    | Ok (Blocked wait) => arena_write a id data = (a, Ok (Blocked wait))
    | Ok (Ready ready) =>
        match de_description <$> da_descriptions a !! id with
        | Some (DFile _) => arena_write a id data = (a, Err WrongAccess)
        | Some (DPipeWriter _) =>
            (arena_write a id data).2 =
              if dr_hangup ready then Err BrokenPipe
              else Ok (Ready (Z.min (dr_bytes ready) (zlen data)))
        | Some (DCapture _ _) =>
            (arena_write a id data).2 =
              if zlen data <=? dr_bytes ready then Ok (Ready (zlen data)) else Err OutputLimit
        | _ => (arena_write a id data).2 = Ok (Ready (zlen data))
        end
    end.
Proof.
  intros H. unfold readiness, arena_state, arena_write.
  destruct (da_descriptions a !! id) as [e|] eqn:He; [|by eexists].
  destruct (aw_entry a H id e He) as [Hw _].
  destruct (de_description e) as [|content cursor closed|content delivered|readable writable
    |stream readable writable|f|pipe|pipe] eqn:Hd;
    io_simpl; rewrite ?Hd; io_simpl; try (by eexists).
  - eexists. split; [done|]. io_simpl. simpl in Hw. assert (MAX_CAPTURE_BYTES < U64_MAX) by done.
    destruct (zlen data <=? _) eqn:Hle; bool_to_prop; unfold sat_sub, sat_add64 in *.
    + by rewrite (proj2 (Z.ltb_ge _ _)) by lia.
    + by rewrite (proj2 (Z.ltb_lt _ _)) by lia.
  - destruct writable; by eexists.
  - destruct writable; by eexists.
  - destruct (fs_writable f); by eexists.
  - destruct (aw_endpoint a H id e pipe false He) as [p Hp]; [by rewrite Hd|].
    unfold pipe_writable. rewrite !Hp. io_simpl.
    destruct (aw_pipe a H pipe p Hp) as (Hlen & Hcap & _).
    destruct (pi_readers p =? 0) eqn:Hz; io_simpl;
      [eexists; split; [reflexivity|reflexivity]|].
    destruct (zlen (pi_bytes p) <? pi_capacity p) eqn:Hlt; io_simpl; bool_to_prop; unfold sat_sub in *.
    + eexists. split; [done|]. io_simpl. by rewrite (proj2 (Z.eqb_neq _ _)) by lia.
    + eexists. split; [done|]. io_simpl. by rewrite (proj2 (Z.eqb_eq _ _)) by lia.
Qed.

Lemma write_readiness_agrees_witness :
  ∃ r, readiness lock_example 1 true = Ret r ∧
    match r with
    | Ok (Ready _) => (arena_write lock_example 1 [Byte.x41]).2 = Ok (Ready 1)
    | _ => False
    end.
Proof.
  destruct (write_readiness_agrees lock_example 1 [Byte.x41] lock_example_wf) as (r & Hr & Hwrite).
  exists r. split; [exact Hr|].
  assert (Heq : Ret r = Ret (Ok (Ready (MkDescriptorReady MAX_CAPTURE_BYTES false)))).
  { rewrite <-Hr. vm_compute. reflexivity. }
  injection Heq as ->. exact Hwrite.
Defined.

(** ** Detaching twice

    [detach_file] moves every description that was opened under the path, also one that an
    earlier unlink of the same path already detached: its previous identity is lost although the
    description is still open. *)
Definition detach_example : DescriptorArena :=
  let a := (open_file arena_new "/a" 0 true true false false).1 in
  let a := detach_file a "/a" 1 in
  let a := (open_file a "/a" 0 true true false false).1 in
  detach_file a "/a" 2.

Lemma detach_file_retargets_detached :
  (fs_orphan <$> match file_state detach_example 1 with Ok (Some f) => Some f | _ => None end) =
    Some (Some 2) ∧
  live_orphans detach_example = {[2]}.
Proof. split; vm_compute; reflexivity. Qed.
