(* ===== verification/DescriptorSystem.v ===== *)
(** * Descriptor tables of many processes over one arena

    The machine as the descriptor layer sees it: the arena of [Descriptors.v], the tables of the
    live processes and the handles the machine itself retains. The theorems are about every
    interleaving of descriptor operations: reference counts are exact, nothing dangles and
    nothing leaks, pipes deliver what was written in order, and a fork takes all its references
    or none. *)

From S2P Require Import Prelude.
From S2P Require Import Descriptors.
From S2P Require Import DescriptorInv.

(** ** Counting holders *)

Definition delta (id i : Z) : Z := if i =? id then 1 else 0.

Definition list_count (ids : list Z) (i : Z) : Z := exact_total (λ id, delta id i) ids.
Definition table_count (t : FdTable) (i : Z) : Z := map_sum (λ _ id, delta id i) (ft_entries t).

Lemma delta_pos id i : 0 ≤ delta id i.
Proof. unfold delta. case_match; lia. Qed.
Lemma delta_eq id : delta id id = 1.
Proof. unfold delta. by rewrite Z.eqb_refl. Qed.
Lemma delta_ne id i : i ≠ id → delta id i = 0.
Proof. unfold delta. intros ?. by rewrite (proj2 (Z.eqb_neq _ _)). Qed.

Lemma list_count_pos ids i : 0 ≤ list_count ids i.
Proof. apply exact_total_nonneg. intros. apply delta_pos. Qed.

Lemma list_count_elem ids i : i ∈ ids ↔ 0 < list_count ids i.
Proof.
  unfold list_count. induction ids as [|id ids IH]; cbn [exact_total foldr].
  - rewrite elem_of_nil. split; [done|lia].
  - rewrite elem_of_cons, IH. pose proof (list_count_pos ids i) as Hp. unfold list_count in Hp.
    fold (exact_total (λ id, delta id i) ids). destruct (decide (i = id)) as [->|Hne].
    + rewrite delta_eq. split; [lia|by left].
    + rewrite delta_ne by done. rewrite Z.add_0_l. naive_solver.
Qed.

Lemma table_count_values t i : list_count (btree_values (ft_entries t)) i = table_count t i.
Proof.
  unfold list_count, table_count, btree_values.
  rewrite (exact_total_perm _ _ (map_to_list (ft_entries t)).*2) by (by rewrite btree_iter_perm).
  rewrite map_sum_list. induction (map_to_list (ft_entries t)) as [|[k v] l IH]; [done|].
  cbn [fmap list_fmap exact_total foldr snd]. by rewrite <-IH.
Qed.

Lemma table_count_pos t i : 0 ≤ table_count t i.
Proof. apply map_sum_nonneg. intros. apply delta_pos. Qed.

Lemma table_count_has t fd id : ft_entries t !! fd = Some id → 1 ≤ table_count t id.
Proof.
  intros Hfd. rewrite <-(delta_eq id).
  exact (map_sum_elem_le (λ _ d, delta d id) _ _ _ (λ _ d, delta_pos d id) Hfd).
Qed.

(** ** Counts that match their holders *)

(** [R] gives the count of every live description, [H] the number of its holders and [U] the
    descriptions allocated but not yet installed anywhere. *)
Record counts_ok (R : gmap Z Z) (H : Z → Z) (U : gset Z) : Prop := {
  co_count : ∀ id n, R !! id = Some n → n = H id ∧ (n = 0 → id ∈ U);
  co_live : ∀ id, 0 < H id → is_Some (R !! id);
  co_pos : ∀ id, 0 ≤ H id;
  co_unowned : ∀ id, id ∈ U → R !! id = Some 0
}.

Lemma counts_ext R H H' U : (∀ i, H i = H' i) → counts_ok R H U → counts_ok R H' U.
Proof.
  intros Heq [Hc Hl Hp Hu]. split; [| | |done].
  - intros id n Hn. rewrite <-Heq. auto.
  - intros id. rewrite <-Heq. auto.
  - intros id. rewrite <-Heq. auto.
Qed.

Lemma counts_retain R H U id n :
  counts_ok R H U → R !! id = Some n →
  counts_ok (<[id := n + 1]> R) (λ i, H i + delta id i) (U ∖ {[id]}).
Proof.
  intros [Hc Hl Hp Hu] Hn. destruct (Hc id n Hn) as [-> _]. split.
  - intros i k [[<- <-]|[Hne Hk]]%lookup_insert_Some.
    + rewrite delta_eq. split; [done|]. specialize (Hp id). lia.
    + rewrite delta_ne by done. destruct (Hc i k Hk) as [-> HU]. split; [lia|].
      intros Hz. apply elem_of_difference. split; [auto|]. by rewrite elem_of_singleton.
  - intros i Hi. destruct (decide (i = id)) as [->|Hne]; [rewrite lookup_insert_eq; by eexists|].
    rewrite lookup_insert_ne by done. rewrite delta_ne in Hi by done. apply Hl. lia.
  - intros i. pose proof (delta_pos id i). specialize (Hp i). lia.
  - intros i [Hi Hne]%elem_of_difference. rewrite elem_of_singleton in Hne.
    rewrite lookup_insert_ne by done. auto.
Qed.

Lemma counts_held R H U id : counts_ok R H U → 0 < H id → U ∖ {[id]} = U.
Proof.
  intros [Hc _ _ Hu] Hid. apply leibniz_equiv. intros x.
  rewrite elem_of_difference, elem_of_singleton. split; [by intros []|].
  intros Hx. split; [done|]. intros ->. apply Hu in Hx. apply Hc in Hx as [? _]. lia.
Qed.

Lemma counts_release R H U id :
  counts_ok R H U → 0 < H id → counts_ok (release_refs id R) (λ i, H i - delta id i) U.
Proof.
  intros [Hc Hl Hp Hu] Hid. destruct (Hl id Hid) as [n Hn]. destruct (Hc id n Hn) as [-> _].
  assert (Hother : ∀ i, i ≠ id → release_refs id R !! i = R !! i).
  { intros i Hne. unfold release_refs. rewrite Hn. destruct (H id =? 1);
      [by rewrite lookup_delete_ne|by rewrite lookup_insert_ne]. }
  assert (Hself : release_refs id R !! id = if H id =? 1 then None else Some (H id - 1)).
  { unfold release_refs. rewrite Hn. destruct (H id =? 1);
      [by rewrite lookup_delete_eq|by rewrite lookup_insert_eq]. }
  split.
  - intros i k. destruct (decide (i = id)) as [->|Hne].
    + rewrite Hself, delta_eq. destruct (H id =? 1) eqn:H1; [done|]. apply Z.eqb_neq in H1.
      intros [= <-]. lia.
    + rewrite Hother, delta_ne, Z.sub_0_r by done. auto.
  - intros i. destruct (decide (i = id)) as [->|Hne].
    + rewrite Hself, delta_eq. intros Hpos. rewrite (proj2 (Z.eqb_neq _ _)) by lia. by eexists.
    + rewrite Hother, delta_ne, Z.sub_0_r by done. auto.
  - intros i. specialize (Hp i). unfold delta. destruct (i =? id) eqn:Hi; [|lia].
    apply Z.eqb_eq in Hi. subst. lia.
  - intros i Hi. rewrite Hother; [auto|]. intros ->. apply Hu in Hi. apply Hc in Hi as [? _]. lia.
Qed.

Lemma counts_refs a H U id n : counts_ok (refs a) H U → refs a !! id = Some n → n = H id.
Proof. intros [Hc _ _ _] Hn. by destruct (Hc id n Hn). Qed.

(** One release of a held description. *)
Lemma release_counts a H U id :
  arena_wf a → counts_ok (refs a) H U → 0 < H id →
  ∃ a', release a id = (a', Ok tt) ∧ arena_wf a' ∧ pipes_kept a a' ∧
    counts_ok (refs a') (λ i, H i - delta id i) U.
Proof.
  intros Hwf Hc Hid. destruct (co_live _ _ _ Hc id Hid) as [n Hn].
  pose proof (counts_refs _ _ _ _ _ Hc Hn) as ->.
  destruct (release_spec a id (H id) Hwf Hn Hid) as (a' & Hrel & Hwf' & Hr & Hk).
  exists a'. do 3 (split; [done|]). rewrite Hr. by apply counts_release.
Qed.

Lemma release_each_counts a H U ids :
  arena_wf a → counts_ok (refs a) H U → (∀ i, list_count ids i ≤ H i) →
  arena_wf (release_each a ids) ∧ pipes_kept a (release_each a ids) ∧
  counts_ok (refs (release_each a ids)) (λ i, H i - list_count ids i) U.
Proof.
  revert a H. induction ids as [|id ids IH]; intros a H Hwf Hc Hle; cbn [release_each].
  { split; [done|]. split; [done|]. apply (counts_ext _ H); [|done]. intros i.
    unfold list_count. simpl. lia. }
  assert (Hcons : ∀ i, list_count (id :: ids) i = delta id i + list_count ids i) by done.
  destruct (release_counts a H U id) as (a1 & Hrel & Hwf1 & Hk1 & Hc1); [done..| |].
  { specialize (Hle id). rewrite Hcons, delta_eq in Hle. pose proof (list_count_pos ids id). lia. }
  rewrite Hrel. cbn [fst].
  destruct (IH a1 _ Hwf1 Hc1) as (Hwf2 & Hk2 & Hc2).
  { intros i. specialize (Hle i). rewrite Hcons in Hle. lia. }
  split; [done|]. split; [by apply (pipes_kept_trans _ a1)|].
  apply (counts_ext _ (λ i, H i - delta id i - list_count ids i)); [|done].
  intros i. rewrite Hcons. lia.
Qed.

(** ** Fork takes every reference or none *)

(** The arena with [f id] more references to every description. *)
Definition bump (a : DescriptorArena) (f : Z → Z) : DescriptorArena :=
  with_descriptions a
    (map_imap (λ id e, Some (with_references e (de_references e + f id))) (da_descriptions a)).

Lemma bump_lookup a f id : da_descriptions (bump a f) !! id =
  (λ e, with_references e (de_references e + f id)) <$> da_descriptions a !! id.
Proof. simpl. rewrite map_lookup_imap. by destruct (da_descriptions a !! id). Qed.

Lemma arena_descriptions_eq a m : da_descriptions a = m → with_descriptions a m = a.
Proof. intros <-. by destruct a. Qed.

Lemma bump_ext a f g : (∀ i, f i = g i) → bump a f = bump a g.
Proof.
  intros Hfg. unfold bump. f_equal. apply map_eq. intros i. rewrite !map_lookup_imap, Hfg. done.
Qed.

Lemma bump_zero a f : (∀ i, f i = 0) → bump a f = a.
Proof.
  intros Hf. apply arena_descriptions_eq, map_eq. intros i. rewrite map_lookup_imap, Hf.
  destruct (da_descriptions a !! i) as [[]|]; simpl; [|done]. unfold with_references. simpl.
  by rewrite Z.add_0_r.
Qed.

(** Overwriting one count of a bumped arena. *)
Lemma bump_set a f g id e :
  da_descriptions a !! id = Some e → (∀ i, i ≠ id → g i = f i) →
  set_entry (bump a f) id (with_references e (de_references e + g id)) = bump a g.
Proof.
  intros He Hg. unfold set_entry, bump, with_descriptions. simpl. f_equal. apply map_eq. intros i.
  rewrite map_lookup_imap. destruct (decide (i = id)) as [->|Hne].
  - by rewrite lookup_insert_eq, He.
  - rewrite lookup_insert_ne, map_lookup_imap, Hg by done. done.
Qed.

Lemma retain_bump a f id :
  match retain (bump a f) id with
  | (a', Ok _) => a' = bump a (λ i, f i + delta id i)
  | (a', Err _) => a' = bump a f
  end.
Proof.
  unfold retain. rewrite bump_lookup. destruct (da_descriptions a !! id) as [e|] eqn:He; [|done].
  simpl. unfold checked_add32. destruct (_ <=? _); [|done].
  unfold with_references at 1. simpl.
  rewrite <-(bump_set a f (λ i, f i + delta id i) id e He).
  - unfold with_references. by rewrite delta_eq, Z.add_assoc.
  - intros i Hne. rewrite delta_ne by done. lia.
Qed.

Lemma release_bump a f id e :
  da_descriptions a !! id = Some e → 1 < de_references e + f id →
  (release (bump a f) id).1 = bump a (λ i, f i - delta id i).
Proof.
  intros He Hpos. unfold release. rewrite bump_lookup, He. cbn [fmap option_fmap option_map].
  cbn [with_references de_references]. rewrite !(proj2 (Z.eqb_neq _ _)) by lia. cbn [negb fst].
  rewrite <-(bump_set a f (λ i, f i - delta id i) id e He).
  - unfold with_references. simpl. by rewrite delta_eq, Z.add_sub_assoc.
  - intros i Hne. rewrite delta_ne by done. lia.
Qed.

Lemma release_each_bump a ids f :
  (∀ id, id ∈ ids → ∃ e, da_descriptions a !! id = Some e ∧ 1 ≤ de_references e) →
  (∀ i, list_count ids i ≤ f i) →
  release_each (bump a f) ids = bump a (λ i, f i - list_count ids i).
Proof.
  revert f. induction ids as [|id ids IH]; intros f Hheld Hle; cbn [release_each].
  { apply bump_ext. intros i. unfold list_count. simpl. lia. }
  assert (Hcons : ∀ i, list_count (id :: ids) i = delta id i + list_count ids i) by done.
  destruct (Hheld id) as (e & He & Hr); [left|].
  rewrite (release_bump a f id e He).
  - rewrite IH.
    + apply bump_ext. intros i. rewrite Hcons. lia.
    + intros i Hi. apply Hheld. by right.
    + intros i. specialize (Hle i). rewrite Hcons in Hle. lia.
  - specialize (Hle id). rewrite Hcons, delta_eq in Hle. pose proof (list_count_pos ids id). lia.
Qed.

Lemma list_count_app l1 l2 i : list_count (l1 ++ l2) i = list_count l1 i + list_count l2 i.
Proof. apply exact_total_app. Qed.

Lemma fork_retain_bump a retained todo :
  (∀ id, id ∈ retained ++ todo → ∃ e, da_descriptions a !! id = Some e ∧ 1 ≤ de_references e) →
  match fork_retain (bump a (list_count retained)) retained todo with
  | (a', Ok _) => a' = bump a (list_count (retained ++ todo))
  | (a', Err _) => a' = a
  end.
Proof.
  revert retained. induction todo as [|id todo IH]; intros retained Hheld; cbn [fork_retain].
  { by rewrite app_nil_r. }
  pose proof (retain_bump a (list_count retained) id) as Hret.
  destruct (retain _ id) as [a1 [[]|e]].
  - subst a1. rewrite (bump_ext a _ (list_count (retained ++ [id]))).
    + specialize (IH (retained ++ [id])). rewrite <-!app_assoc in IH.
      cbn [app] in IH. by apply IH.
    + intros i. rewrite list_count_app. unfold list_count. simpl. lia.
  - subst a1. rewrite release_each_bump.
    + apply bump_zero. intros i. lia.
    + intros i Hi. apply Hheld. apply elem_of_app. by left.
    + done.
Qed.

Lemma fd_fork_bump t a :
  (∀ fd id, ft_entries t !! fd = Some id →
    ∃ e, da_descriptions a !! id = Some e ∧ 1 ≤ de_references e) →
  match fd_fork t a with
  | (a', Ok t') => t' = t ∧ a' = bump a (table_count t)
  | (a', Err _) => a' = a
  end.
Proof.
  intros Hheld. unfold fd_fork.
  pose proof (fork_retain_bump a [] (btree_values (ft_entries t))) as Hfork.
  rewrite (bump_zero a (list_count [])) in Hfork by done.
  destruct (fork_retain a [] _) as [a' [[]|e]].
  - split; [done|]. rewrite Hfork.
    + apply bump_ext. apply table_count_values.
    + intros id [fd Hfd]%elem_of_btree_values. eauto.
  - apply Hfork. intros id [fd Hfd]%elem_of_btree_values. eauto.
Qed.

(** The successful fork, in terms of counts. *)
Lemma fork_retain_counts a H U retained todo a' :
  arena_wf a → counts_ok (refs a) H U → (∀ id, id ∈ todo → 0 < H id) →
  fork_retain a retained todo = (a', Ok tt) →
  arena_wf a' ∧ pipes_kept a a' ∧ counts_ok (refs a') (λ i, H i + list_count todo i) U.
Proof.
  revert a H retained. induction todo as [|id todo IH]; intros a H retained Hwf Hc Hheld;
    cbn [fork_retain].
  { intros [= <-]. split; [done|]. split; [done|].
    apply (counts_ext _ H); [|done]. intros i. unfold list_count. simpl. lia. }
  destruct (retain a id) as [a1 r] eqn:Hret.
  destruct (retain_spec a id a1 r Hwf Hret) as [[-> [e ->]]|(-> & n & Hn & Hr & Hwf1 & Hk1)]; [done|].
  intros Hfork. pose proof (counts_retain _ _ _ _ _ Hc Hn) as Hc1. rewrite <-Hr in Hc1.
  rewrite (counts_held _ _ _ _ Hc) in Hc1 by (apply Hheld; left).
  destruct (IH a1 _ (retained ++ [id]) Hwf1 Hc1) as (Hwf2 & Hk2 & Hc2); [|done|].
  { intros i Hi. pose proof (delta_pos id i). specialize (Hheld i (list_elem_of_further _ _ _ Hi)). lia. }
  split; [done|]. split; [by apply (pipes_kept_trans _ a1)|].
  apply (counts_ext _ (λ i, H i + delta id i + list_count todo i)); [|done].
  intros i. unfold list_count. simpl. lia.
Qed.

(** ** One table among other holders *)

Record table_wf (t : FdTable) : Prop := {
  tw_size : Z.of_nat (size (ft_entries t)) ≤ MAX_FDS_PER_PROCESS;
  tw_fds : ∀ fd, is_Some (ft_entries t !! fd) → 0 ≤ fd;
  tw_cloexec : ∀ fd, fd ∈ ft_close_on_exec t → is_Some (ft_entries t !! fd)
}.

Lemma fd_table_new_wf : table_wf fd_table_new.
Proof. split; simpl; [done|by intros fd [? ?]|set_solver]. Qed.

Lemma table_count_insert t fd id cloexec i :
  table_count (MkFdTable (<[fd := id]> (ft_entries t)) cloexec) i =
    table_count t i + delta id i - default 0 ((λ d, delta d i) <$> ft_entries t !! fd).
Proof.
  unfold table_count. simpl. destruct (ft_entries t !! fd) as [old|] eqn:Hold; simpl.
  - rewrite (map_sum_replace _ _ _ _ _ Hold). lia.
  - rewrite map_sum_insert by done. lia.
Qed.

Lemma table_count_delete t fd id cloexec i : ft_entries t !! fd = Some id →
  table_count (MkFdTable (delete fd (ft_entries t)) cloexec) i = table_count t i - delta id i.
Proof. intros Hfd. unfold table_count. simpl. by rewrite (map_sum_delete _ _ _ _ Hfd). Qed.

Section table_ops.
Context (Hrest : Z → Z) (Hrest_pos : ∀ i, 0 ≤ Hrest i).

(** The state of one table and the arena while the other holders stay fixed. *)
Record table_ok (t : FdTable) (a : DescriptorArena) (U : gset Z) : Prop := {
  tk_arena : arena_wf a;
  tk_table : table_wf t;
  tk_counts : counts_ok (refs a) (λ i, table_count t i + Hrest i) U
}.

Lemma table_held t a U fd id : table_ok t a U → ft_entries t !! fd = Some id →
  0 < table_count t id + Hrest id.
Proof.
  intros _ Hfd. pose proof (table_count_has t fd id Hfd). specialize (Hrest_pos id). lia.
Qed.

(** [install] installs, or changes nothing. *)
Lemma fd_install_spec t a U fd id : table_ok t a U →
  let '(t', a', r) := fd_install t fd id a in
  (∃ e, r = Err e ∧ t' = t ∧ a' = a) ∨
  (r = Ok tt ∧ 0 ≤ fd ∧ is_Some (refs a !! id) ∧ pipes_kept a a' ∧
   ft_entries t' = <[fd := id]> (ft_entries t) ∧
   ft_close_on_exec t' = ft_close_on_exec t ∖ {[fd]} ∧ table_ok t' a' (U ∖ {[id]})).
Proof.
  intros Hok. unfold fd_install. destruct (fd <? 0) eqn:Hneg; [by eauto|]. apply Z.ltb_ge in Hneg.
  destruct (_ && _) eqn:Hfull; [by eauto|].
  destruct (retain a id) as [a1 r1] eqn:Hret. destruct Hok as [Hwf Ht Hc].
  destruct (retain_spec a id a1 r1 Hwf Hret) as [[-> [e ->]]|(-> & n & Hn & Hr & Hwf1 & Hk1)];
    [by eauto|].
  pose proof (counts_retain _ _ _ _ _ Hc Hn) as Hc1. rewrite <-Hr in Hc1.
  assert (Htwf : table_wf (MkFdTable (<[fd := id]> (ft_entries t)) (ft_close_on_exec t ∖ {[fd]}))).
  { destruct Ht. split; simpl.
    - destruct (ft_entries t !! fd) as [old|] eqn:Hold.
      + erewrite map_size_insert_Some by done. done.
      + rewrite map_size_insert_None by done. rewrite bool_decide_eq_true_2 in Hfull by done.
        simpl in Hfull. apply Z.leb_gt in Hfull. lia.
    - intros x [<-|[_ ?]]%lookup_insert_is_Some; auto.
    - intros x [Hx Hne]%elem_of_difference. rewrite elem_of_singleton in Hne.
      rewrite lookup_insert_ne by done. auto. }
  destruct (ft_entries t !! fd) as [old|] eqn:Hold.
  - destruct (release_counts a1 _ _ old Hwf1 Hc1) as (a2 & Hrel & Hwf2 & Hk2 & Hc2).
    { pose proof (table_count_has t fd old Hold). pose proof (delta_pos id old).
      specialize (Hrest_pos old). lia. }
    rewrite Hrel. right. split; [done|]. split; [done|]. split; [by eexists|].
    split; [by apply (pipes_kept_trans _ a1)|]. do 2 (split; [done|]). split; [done..|].
    eapply counts_ext; [|exact Hc2]. intros i. cbv beta. rewrite table_count_insert, Hold. simpl. lia.
  - right. split; [done|]. split; [done|]. split; [by eexists|]. split; [done|].
    do 2 (split; [done|]). split; [done..|].
    eapply counts_ext; [|exact Hc1]. intros i. cbv beta. rewrite table_count_insert, Hold. simpl. lia.
Qed.

Lemma fd_close_spec t a U fd : table_ok t a U →
  let '(t', a', r) := fd_close t fd a in
  table_ok t' a' U ∧ pipes_kept a a' ∧
  ft_entries t' = delete fd (ft_entries t) ∧
  (ft_close_on_exec t' = ft_close_on_exec t ∖ {[fd]}) ∧
  match ft_entries t !! fd with
  | None => r = Err InvalidFd ∧ t' = t ∧ a' = a
  | Some _ => r = Ok tt
  end.
Proof.
  intros Hok. unfold fd_close. destruct (ft_entries t !! fd) as [id|] eqn:Hfd.
  - destruct Hok as [Hwf Ht Hc]. destruct (release_counts a _ _ id Hwf Hc) as (a1 & Hrel & Hwf1 & Hk1 & Hc1).
    { by eapply table_held. }
    rewrite Hrel. split; [|by auto]. split; [done| |].
    + destruct Ht. split; simpl.
      * pose proof (map_size_delete_Some fd (ft_entries t) (ex_intro _ _ Hfd)). lia.
      * intros x Hx%lookup_delete_is_Some. apply tw_fds0. tauto.
      * intros x [Hx Hne]%elem_of_difference. rewrite elem_of_singleton in Hne.
        rewrite lookup_delete_ne by done. auto.
    + eapply counts_ext; [|exact Hc1]. intros i. cbv beta.
      rewrite (table_count_delete _ _ id) by done. lia.
  - split; [done|]. split; [done|]. split; [by rewrite delete_id|]. split; [|by auto].
    destruct Hok as [_ [_ _ Hce] _]. apply leibniz_equiv. intros x.
    rewrite elem_of_difference, elem_of_singleton. split; [|by intros []].
    intros Hx. split; [done|]. intros ->. destruct (Hce fd Hx). congruence.
Qed.

(** [close_each] removes exactly the named descriptors. *)
Lemma close_each_spec fds t a U : table_ok t a U →
  let '(t', a') := close_each t fds a in
  table_ok t' a' U ∧ pipes_kept a a' ∧
  ft_entries t' = filter (λ '(fd, _), fd ∉ fds) (ft_entries t) ∧
  ft_close_on_exec t' ⊆ ft_close_on_exec t.
Proof.
  revert t a. induction fds as [|fd fds IH]; intros t a Hok; cbn [close_each].
  { split; [done|]. split; [done|]. split; [|done]. symmetry. apply map_filter_id.
    intros. set_solver. }
  pose proof (fd_close_spec t a U fd Hok) as Hcl. destruct (fd_close t fd a) as [[t1 a1] r].
  destruct Hcl as (Hok1 & Hk1 & He1 & Hc1 & _).
  specialize (IH t1 a1 Hok1). destruct (close_each t1 fds a1) as [t2 a2].
  destruct IH as (Hok2 & Hk2 & He2 & Hc2). split; [done|].
  split; [apply (pipes_kept_trans _ a1); [apply Hok1|done..]|]. split; [|set_solver].
  rewrite He2, He1. apply map_eq. intros i. apply option_eq. intros x.
  rewrite !map_lookup_filter_Some, lookup_delete_Some, not_elem_of_cons. naive_solver.
Qed.

End table_ops.

(** ** The system *)

(** The arena, the tables of the live processes by PID, the handles retained by the machine, and
    the descriptions opened but not yet installed or discarded. *)
Record DescSystem := MkDescSystem {
  dy_arena : DescriptorArena;
  dy_tables : gmap Z FdTable;
  dy_handles : list Z;
  dy_unowned : gset Z
}.

Definition desc_system_new : DescSystem :=
  MkDescSystem arena_new {[1 := fd_table_new]} [] ∅.

Inductive open_request :=
| OpenDirectory (path : string)
| OpenInput (content : bytes)
| OpenStreamInput
| OpenCapture
| OpenNull (readable writable : bool)
| OpenDevice (kind : DeviceKind) (readable writable : bool)
| OpenFile (path : string) (cursor : Z) (readable writable append remove_on_error : bool).

Definition run_open (a : DescriptorArena) (request : open_request)
    : DescriptorArena * result DescriptorError Z :=
  match request with
  | OpenDirectory path => open_directory a path
  | OpenInput content => open_input a content
  | OpenStreamInput => open_stream_input a
  | OpenCapture => open_capture a
  | OpenNull readable writable => open_null_with_access a readable writable
  | OpenDevice kind readable writable => open_device a kind readable writable
  | OpenFile path cursor readable writable append remove =>
      open_file a path cursor readable writable append remove
  end.

(** The operations on one table that change it. *)
Inductive table_op :=
| TInstall (fd id : Z)
| TDuplicate (source destination : Z)
| TClose (fd : Z)
| TSetCloseOnExec (fd : Z) (enabled : bool)
| TExec.

Definition table_step (t : FdTable) (a : DescriptorArena) (op : table_op)
    : FdTable * DescriptorArena * result DescriptorError unit :=
  match op with
  | TInstall fd id => fd_install t fd id a
  | TDuplicate source destination => fd_duplicate t source destination a
  | TClose fd => fd_close t fd a
  | TSetCloseOnExec fd enabled => let '(t, r) := set_close_on_exec t fd enabled in (t, a, r)
  | TExec => let '(t, a) := close_for_exec t a in (t, a, Ok tt)
  end.

Inductive desc_op :=
| OOpen (request : open_request)
| OOpenPipe (capacity : Z)
| OTable (pid : Z) (op : table_op)
| OFork (parent child : Z)
| OExit (pid : Z)
| ORetainHandle (id : Z)
| OReleaseHandle (id : Z)
| ODiscard (id : Z)
| ORead (id maximum : Z)
| OWrite (id : Z) (data : bytes)
| OAppendInput (id : Z) (data : bytes)
| OCloseInput (id : Z)
| ODrainCapture (id : Z)
| OFileLock (id inode : Z) (mode : option FileLockMode)
| OTakeLockChanges
| OBindInode (id inode : Z)
| OSetNonblocking (id : Z) (enabled : bool)
| OSetAppend (id : Z) (enabled : bool)
| OAdvance (id count : Z)
| OSeek (id position : Z)
| ODetach (path : string) (orphan : Z).

Definition with_arena (y : DescSystem) (a : DescriptorArena) : DescSystem :=
  MkDescSystem a (dy_tables y) (dy_handles y) (dy_unowned y).

(** Remove one occurrence of a handle. *)
Fixpoint drop_handle (id : Z) (handles : list Z) : list Z :=
  match handles with
  | [] => []
  | h :: rest => if h =? id then rest else h :: drop_handle id rest
  end.

Definition quiet (y : DescSystem) (a : DescriptorArena) : run (DescSystem * pipe_event) :=
  Ret (with_arena y a, EvQuiet).

(** One operation. A table operation of a process that does not exist, a fork onto a live PID and
    the release of a handle the machine does not hold do not occur and leave the system alone. *)
Definition desc_step (y : DescSystem) (op : desc_op) : run (DescSystem * pipe_event) :=
  let a := dy_arena y in
  match op with
  | OOpen request =>
      match run_open a request with
      | (a, Ok id) => Ret (MkDescSystem a (dy_tables y) (dy_handles y) ({[id]} ∪ dy_unowned y), EvQuiet)
      | (a, Err _) => quiet y a
      end
  | OOpenPipe capacity =>
      match open_pipe a capacity with
      | (a, Ok (reader, writer)) =>
          Ret (MkDescSystem a (dy_tables y) (dy_handles y) ({[reader; writer]} ∪ dy_unowned y), EvQuiet)
      | (a, Err _) => quiet y a
      end
  | OTable pid op =>
      match dy_tables y !! pid with
      | None => quiet y a
      | Some t =>
          let '(t', a', r) := table_step t a op in
          let unowned :=
            match op, r with
            | TInstall _ id, Ok _ => dy_unowned y ∖ {[id]}
            | _, _ => dy_unowned y
            end in
          Ret (MkDescSystem a' (<[pid := t']> (dy_tables y)) (dy_handles y) unowned, EvQuiet)
      end
  | OFork parent child =>
      match dy_tables y !! parent, dy_tables y !! child with
      | Some t, None =>
          match fd_fork t a with
          | (a, Ok t') =>
              Ret (MkDescSystem a (<[child := t']> (dy_tables y)) (dy_handles y) (dy_unowned y), EvQuiet)
          | (a, Err _) => quiet y a
          end
      | _, _ => quiet y a
      end
  | OExit pid =>
      match dy_tables y !! pid with
      | None => quiet y a
      | Some t =>
          let '(_, a) := close_all t a in
          Ret (MkDescSystem a (delete pid (dy_tables y)) (dy_handles y) (dy_unowned y), EvQuiet)
      end
  | ORetainHandle id =>
      match retain_handle a id with
      | (a, Ok _) =>
          Ret (MkDescSystem a (dy_tables y) (id :: dy_handles y) (dy_unowned y ∖ {[id]}), EvQuiet)
      | (a, Err _) => quiet y a
      end
  | OReleaseHandle id =>
      if bool_decide (id ∈ dy_handles y)
      then Ret (MkDescSystem (release_handle a id).1 (dy_tables y) (drop_handle id (dy_handles y))
                  (dy_unowned y), EvQuiet)
      else quiet y a
  | ODiscard id =>
      match discard_unreferenced a id with
      | (a, Ok _) => Ret (MkDescSystem a (dy_tables y) (dy_handles y) (dy_unowned y ∖ {[id]}), EvQuiet)
      | (a, Err _) => quiet y a
      end
  | ORead id maximum =>
      '(a', r) ← arena_read a id maximum; Ret (with_arena y a', read_event a id r)
  | OWrite id data =>
      let '(a', r) := arena_write a id data in Ret (with_arena y a', write_event a id data r)
  | OAppendInput id data => quiet y (append_input a id data).1
  | OCloseInput id => quiet y (close_input a id).1
  | ODrainCapture id => '(a, _) ← drain_capture a id; quiet y a
  | OFileLock id inode mode => '(a, _) ← file_lock a id inode mode; quiet y a
  | OTakeLockChanges => quiet y (take_file_lock_changes a).1
  | OBindInode id inode => quiet y (bind_inode a id inode).1
  | OSetNonblocking id enabled => quiet y (set_nonblocking a id enabled).1
  | OSetAppend id enabled => quiet y (set_append a id enabled).1
  | OAdvance id count => quiet y (advance_file a id count).1
  | OSeek id position => quiet y (seek_file a id position).1
  | ODetach path orphan => quiet y (detach_file a path orphan)
  end.

Fixpoint desc_run (y : DescSystem) (ops : list desc_op) : run (DescSystem * list pipe_event) :=
  match ops with
  | [] => Ret (y, [])
  | op :: ops =>
      '(y, event) ← desc_step y op;
      '(y, events) ← desc_run y ops;
      Ret (y, event :: events)
  end.

(** The arguments are values of their Rust types. *)
Definition desc_op_valid (op : desc_op) : Prop :=
  match op with
  | OOpenPipe capacity => 0 ≤ capacity
  | ORead _ maximum => 0 ≤ maximum
  | _ => True
  end.

(** ** The system invariant *)

Definition holders (y : DescSystem) (i : Z) : Z :=
  map_sum (λ _ t, table_count t i) (dy_tables y) + list_count (dy_handles y) i.

Record desc_wf (y : DescSystem) : Prop := {
  dw_arena : arena_wf (dy_arena y);
  dw_tables : ∀ pid t, dy_tables y !! pid = Some t → table_wf t;
  dw_counts : counts_ok (refs (dy_arena y)) (holders y) (dy_unowned y)
}.

(** The holders outside the table of [pid]. *)
Definition other_holders (y : DescSystem) (pid : Z) (i : Z) : Z :=
  map_sum (λ _ t, table_count t i) (delete pid (dy_tables y)) + list_count (dy_handles y) i.

Lemma other_holders_pos y pid i : 0 ≤ other_holders y pid i.
Proof.
  unfold other_holders. pose proof (list_count_pos (dy_handles y) i).
  pose proof (map_sum_nonneg (λ _ t, table_count t i) (delete pid (dy_tables y))
    (λ _ t, table_count_pos t i)). lia.
Qed.

Lemma holders_split y pid t i : dy_tables y !! pid = Some t →
  holders y i = table_count t i + other_holders y pid i.
Proof.
  intros Ht. unfold holders, other_holders. rewrite (map_sum_delete _ _ _ _ Ht). lia.
Qed.

Lemma holders_insert y pid t a U i :
  holders (MkDescSystem a (<[pid := t]> (dy_tables y)) (dy_handles y) U) i =
    table_count t i + other_holders y pid i.
Proof.
  unfold holders, other_holders. simpl. rewrite <-insert_delete_eq.
  rewrite map_sum_insert by apply lookup_delete_eq. lia.
Qed.

Lemma desc_wf_table_ok y pid t : desc_wf y → dy_tables y !! pid = Some t →
  table_ok (other_holders y pid) t (dy_arena y) (dy_unowned y).
Proof.
  intros [Ha Ht Hc] Hpid. split; [done|eauto|].
  eapply counts_ext; [|exact Hc]. intros i. by apply holders_split.
Qed.

Lemma desc_wf_insert y pid t a U :
  desc_wf y → table_ok (other_holders y pid) t a U →
  desc_wf (MkDescSystem a (<[pid := t]> (dy_tables y)) (dy_handles y) U).
Proof.
  intros [Ha Ht Hc] [Ha' Ht' Hc']. split; [done| |].
  - simpl. intros q x [[<- <-]|[_ ?]]%lookup_insert_Some; eauto.
  - eapply counts_ext; [|exact Hc']. intros i. symmetry. apply holders_insert.
Qed.

(** What a step of the system does: it keeps the invariant and moves pipe bytes only as its event
    says. *)
Definition step_ok (y : DescSystem) (out : run (DescSystem * pipe_event)) : Prop :=
  ∃ y' event, out = Ret (y', event) ∧ desc_wf y' ∧
    pipe_transition (dy_arena y) event (dy_arena y').

Lemma step_ok_arena y a event :
  desc_wf y → arena_wf a → refs a = refs (dy_arena y) → pipe_transition (dy_arena y) event a →
  step_ok y (Ret (with_arena y a, event)).
Proof.
  intros [Ha Ht Hc] Hwf Hr Hp. do 2 eexists. split; [done|]. split; [|done].
  split; [done..|]. simpl. by rewrite Hr.
Qed.

Lemma step_ok_inert y a : desc_wf y → inert (dy_arena y) a → step_ok y (quiet y a).
Proof. intros Hy []. by apply step_ok_arena. Qed.

Lemma run_open_wf a request a' r : arena_wf a → run_open a request = (a', r) →
  arena_wf a' ∧ pipes_kept a a' ∧
  match r with
  | Ok id => refs a !! id = None ∧ refs a' = <[id := 0]> (refs a)
  | Err _ => a' = a
  end.
Proof.
  intros H Hopen. assert (Hcase : (a' = a ∧ ∃ e, r = Err e) ∨
    ∃ d, endpoint_of d = None ∧ description_wf d ∧ allocate a d = (a', r)).
  { destruct request; simpl in Hopen; try (right; eexists; split; [|split; [|exact Hopen]]; done).
    - unfold open_input in Hopen. destruct (_ <? _) eqn:Hle; [injection Hopen as <- <-; eauto|].
      apply Z.ltb_ge in Hle. right. eexists. split; [|split; [|exact Hopen]]; [done|]. simpl. lia. }
  destruct Hcase as [[-> [e ->]]|(d & Hend & Hd & Hall)]; [done|].
  split; [by eapply allocate_wf|]. pose proof (lookup_next_None a H) as Hnone.
  apply allocate_cases in Hall as [[-> ->]|(-> & _ & _ & ->)]; [done|].
  split; [by apply pipes_kept_same|]. split; [by rewrite refs_lookup, Hnone|].
  unfold refs. simpl. by rewrite fmap_insert.
Qed.

(** Adding unowned descriptions. *)
Lemma counts_fresh R H U id : counts_ok R H U → R !! id = None →
  counts_ok (<[id := 0]> R) H ({[id]} ∪ U).
Proof.
  intros [Hc Hl Hp Hu] Hn. assert (Hz : H id = 0).
  { destruct (decide (0 < H id)) as [Hpos|]; [|specialize (Hp id); lia].
    destruct (Hl id Hpos). congruence. }
  split.
  - intros i n [[<- <-]|[_ Hi]]%lookup_insert_Some; [split; [done|set_solver]|].
    destruct (Hc i n Hi). split; [done|set_solver].
  - intros i Hi. destruct (decide (i = id)) as [->|]; [lia|]. rewrite lookup_insert_ne by done. auto.
  - done.
  - intros i Hi. destruct (decide (i = id)) as [->|]; [apply lookup_insert_eq|].
    rewrite lookup_insert_ne by done. apply Hu. set_solver.
Qed.

Lemma open_step_ok y request : desc_wf y → step_ok y (desc_step y (OOpen request)).
Proof.
  intros Hy. simpl. destruct (run_open (dy_arena y) request) as [a' r] eqn:Hopen.
  pose proof (dw_arena y Hy) as Ha.
  destruct (run_open_wf _ _ _ _ Ha Hopen) as (Hwf & Hk & Hr). destruct r as [id|e].
  - destruct Hr as [Hn Hr]. do 2 eexists. split; [done|]. split; [|done]. destruct Hy as [_ Ht Hc].
    split; [done..|]. simpl. rewrite Hr. by apply counts_fresh.
  - subst. by apply step_ok_inert, inert_refl.
Qed.

Lemma open_pipe_step_ok y capacity : desc_wf y → 0 ≤ capacity →
  step_ok y (desc_step y (OOpenPipe capacity)).
Proof.
  intros Hy Hcap. simpl. destruct (open_pipe (dy_arena y) capacity) as [a' r] eqn:Hopen.
  pose proof (dw_arena y Hy) as Ha. pose proof (lookup_next_None _ Ha) as Hn.
  destruct (open_pipe_cases _ _ _ _ Ha Hcap Hopen) as
    [(-> & -> & Hwf)|([e ->] & Hwf & Hd & Hp & _ & Hnp)].
  - do 2 eexists. split; [done|]. destruct Hy as [_ Ht Hc]. split.
    + split; [done..|]. simpl.
      replace (refs (piped (dy_arena y) capacity)) with
        (<[da_next_description (dy_arena y) + 1 := 0]>
          (<[da_next_description (dy_arena y) := 0]> (refs (dy_arena y))))
        by (unfold refs, piped; simpl; by rewrite !fmap_insert).
      replace ({[da_next_description (dy_arena y); da_next_description (dy_arena y) + 1]} ∪
        dy_unowned y) with ({[da_next_description (dy_arena y) + 1]} ∪
        ({[da_next_description (dy_arena y)]} ∪ dy_unowned y)) by set_solver.
      apply counts_fresh; [apply counts_fresh; [done|by rewrite refs_lookup, Hn]|].
      rewrite lookup_insert_ne by lia. rewrite refs_lookup, fmap_None. apply eq_None_not_Some.
      intros Hs%(aw_ids _ Ha). lia.
    + split; simpl; [lia|]. intros pipe p [[<- <-]|[_ ?]]%lookup_insert_Some;
        [right; split; [lia|done]|left; eauto].
  - apply step_ok_inert; [done|]. split; [done|unfold refs; by rewrite Hd|].
    split; [done|]. rewrite Hp. eauto.
Qed.

Lemma table_step_ok y pid op : desc_wf y → step_ok y (desc_step y (OTable pid op)).
Proof.
  intros Hy. simpl. destruct (dy_tables y !! pid) as [t|] eqn:Ht.
  2: { by apply step_ok_inert, inert_refl, Hy. }
  pose proof (desc_wf_table_ok y pid t Hy Ht) as Hok.
  pose proof (other_holders_pos y pid) as Hrest.
  assert (Hstep : let '(t', a', r) := table_step t (dy_arena y) op in
    table_ok (other_holders y pid) t' a' (match op, r with
      | TInstall _ id, Ok _ => dy_unowned y ∖ {[id]} | _, _ => dy_unowned y end) ∧
    pipes_kept (dy_arena y) a').
  { destruct op as [fd id|source destination|fd|fd enabled|]; simpl.
    - pose proof (fd_install_spec _ Hrest t _ _ fd id Hok) as Hi.
      destruct (fd_install t fd id (dy_arena y)) as [[t' a'] r].
      destruct Hi as [(e & -> & -> & ->)|(-> & _ & _ & Hk & _ & _ & Hok')]; done.
    - unfold fd_duplicate, fd_get. destruct (ft_entries t !! source) as [id|] eqn:Hs; simpl; [|done].
      destruct (source =? destination); [done|].
      pose proof (fd_install_spec _ Hrest t _ _ destination id Hok) as Hi.
      destruct (fd_install t destination id (dy_arena y)) as [[t' a'] r].
      destruct Hi as [(e & -> & -> & ->)|(-> & _ & _ & Hk & _ & _ & Hok')]; [done|].
      split; [|done]. destruct Hok as [? ? Hc].
      rewrite (counts_held _ _ _ id Hc) in Hok'; [done|]. by eapply table_held.
    - pose proof (fd_close_spec _ Hrest t _ _ fd Hok) as Hi.
      destruct (fd_close t fd (dy_arena y)) as [[t' a'] r]. tauto.
    - unfold set_close_on_exec, fd_get. destruct (ft_entries t !! fd) as [id|] eqn:Hs; simpl; [|done].
      split; [|done]. destruct Hok as [? [Hsz Hfds Hce] Hc]. split; [done| |done].
      split; [done..|]. simpl. intros x Hx. destruct (decide (x = fd)) as [->|]; [by eexists|].
      apply Hce. destruct enabled; set_solver.
    - unfold close_for_exec.
      assert (Hok' : table_ok (other_holders y pid) (MkFdTable (ft_entries t) ∅) (dy_arena y)
        (dy_unowned y)).
      { destruct Hok as [? [] ?]. split; [done| |done]. split; [done..|]. simpl. set_solver. }
      pose proof (close_each_spec _ Hrest (btree_set_iter (ft_close_on_exec t)) _ _ _ Hok') as Hi.
      destruct (close_each _ _ _) as [t' a']. tauto. }
  destruct (table_step t (dy_arena y) op) as [[t' a'] r]. destruct Hstep as [Hok' Hk].
  do 2 eexists. split; [done|]. split; [by apply desc_wf_insert|done].
Qed.

Lemma fork_step_ok y parent child : desc_wf y → step_ok y (desc_step y (OFork parent child)).
Proof.
  intros Hy. simpl.
  assert (Hstay : step_ok y (quiet y (dy_arena y))) by (by apply step_ok_inert, inert_refl, Hy).
  destruct (dy_tables y !! parent) as [t|] eqn:Ht; [|done].
  destruct (dy_tables y !! child) as [?|] eqn:Hchild; [done|].
  assert (Hheld : ∀ fd id, ft_entries t !! fd = Some id → 0 < holders y id).
  { intros fd id Hfd. rewrite (holders_split y parent t) by done.
    pose proof (table_count_has t fd id Hfd). pose proof (other_holders_pos y parent id). lia. }
  pose proof (dw_counts y Hy) as Hc.
  pose proof (fd_fork_bump t (dy_arena y)) as Hatomic.
  destruct (fd_fork t (dy_arena y)) as [a' [t'|e]] eqn:Hfork.
  - unfold fd_fork in Hfork. destruct (fork_retain _ _ _) as [a1 [[]|]] eqn:Hr; simplify_eq.
    destruct (fork_retain_counts (dy_arena y) (holders y) (dy_unowned y) []
      (btree_values (ft_entries t')) a' (dw_arena y Hy) Hc) as (Hwf & Hk & Hc'); [|done|].
    { intros id [fd Hfd]%elem_of_btree_values. eauto. }
    do 2 eexists. split; [done|]. split; [|done]. split; [done| |].
    + simpl. intros q x [[<- <-]|[_ ?]]%lookup_insert_Some; [by eapply dw_tables|by eapply dw_tables].
    + simpl. eapply counts_ext; [|exact Hc']. intros i. cbv beta.
      rewrite table_count_values, holders_insert. unfold holders, other_holders.
      rewrite delete_id by done. lia.
  - rewrite Hatomic; [done|]. intros fd id Hfd. specialize (Hheld fd id Hfd).
    destruct (co_live _ _ _ Hc id Hheld) as [n Hn].
    pose proof (counts_refs _ _ _ _ _ Hc Hn) as ->. rewrite refs_lookup in Hn.
    destruct (da_descriptions (dy_arena y) !! id) as [en|]; [|done].
    exists en. split; [done|]. simpl in Hn. injection Hn as Hn. lia.
Qed.

Lemma exit_step_ok y pid : desc_wf y → step_ok y (desc_step y (OExit pid)).
Proof.
  intros Hy. simpl. destruct (dy_tables y !! pid) as [t|] eqn:Ht.
  2: { by apply step_ok_inert, inert_refl, Hy. }
  destruct (release_each_counts (dy_arena y) (holders y) (dy_unowned y)
    (btree_values (ft_entries t)) (dw_arena y Hy) (dw_counts y Hy)) as (Hwf & Hk & Hc).
  { intros i. rewrite table_count_values, (holders_split y pid t) by done.
    pose proof (other_holders_pos y pid i). lia. }
  do 2 eexists. split; [done|]. split; [|done]. split; [done| |].
  - simpl. intros q x [_ ?]%lookup_delete_Some. by eapply dw_tables.
  - simpl. eapply counts_ext; [|exact Hc]. intros i. cbv beta.
    rewrite table_count_values, (holders_split y pid t) by done. unfold holders, other_holders. simpl. lia.
Qed.

Lemma drop_handle_count id handles i : id ∈ handles →
  list_count (drop_handle id handles) i = list_count handles i - delta id i.
Proof.
  induction handles as [|h handles IH]; [by intros ?%elem_of_nil|]. cbn [drop_handle].
  assert (Hcons : ∀ x l, list_count (x :: l) i = delta x i + list_count l i) by done.
  destruct (h =? id) eqn:Hh.
  - apply Z.eqb_eq in Hh. subst. rewrite Hcons. lia.
  - apply Z.eqb_neq in Hh. intros [->|Hin]%elem_of_cons; [done|]. rewrite !Hcons, IH by done. lia.
Qed.

Lemma handle_step_ok y id : desc_wf y →
  step_ok y (desc_step y (ORetainHandle id)) ∧ step_ok y (desc_step y (OReleaseHandle id)).
Proof.
  intros Hy. pose proof (dw_arena y Hy) as Ha. pose proof (dw_counts y Hy) as Hc. split; simpl.
  - destruct (retain_handle (dy_arena y) id) as [a' r] eqn:Hret.
    destruct (retain_spec _ _ _ _ Ha Hret) as [[-> [e ->]]|(-> & n & Hn & Hr & Hwf & Hk)].
    { by apply step_ok_inert, inert_refl. }
    do 2 eexists. split; [done|]. split; [|done]. split; [done|apply Hy|]. simpl. rewrite Hr.
    eapply counts_ext; [|by apply counts_retain]. intros i. unfold holders, list_count. simpl. lia.
  - case_bool_decide as Hin; [|by apply step_ok_inert, inert_refl].
    assert (Hpos : 0 < holders y id).
    { unfold holders. apply list_count_elem in Hin.
      pose proof (map_sum_nonneg (λ _ t, table_count t id) (dy_tables y)
        (λ _ t, table_count_pos t id)). lia. }
    destruct (release_counts _ _ _ id Ha Hc Hpos) as (a' & Hrel & Hwf & Hk & Hc').
    unfold release_handle. rewrite Hrel. do 2 eexists. split; [done|]. split; [|done].
    split; [done|apply Hy|]. simpl. eapply counts_ext; [|exact Hc']. intros i. cbv beta.
    unfold holders. simpl. rewrite drop_handle_count by done. lia.
Qed.

(** Discarding removes an unowned description and refuses an installed one. *)
Lemma discard_step_ok y id : desc_wf y → step_ok y (desc_step y (ODiscard id)).
Proof.
  intros Hy. simpl. pose proof (dw_arena y Hy) as Ha. pose proof (dw_counts y Hy) as Hc.
  assert (Hstay : step_ok y (quiet y (dy_arena y))) by (by apply step_ok_inert, inert_refl).
  unfold discard_unreferenced.
  destruct (da_descriptions (dy_arena y) !! id) as [e|] eqn:He; [|done].
  destruct (de_references e =? 0) eqn:Hz; simpl; [|done]. apply Z.eqb_eq in Hz.
  assert (Hn : refs (dy_arena y) !! id = Some 0) by (rewrite refs_lookup, He; simpl; congruence).
  destruct (retain (dy_arena y) id) as [a1 r] eqn:Hret.
  destruct (retain_spec _ _ _ _ Ha Hret) as [[-> [e' ->]]|(-> & n & Hn' & Hr & Hwf1 & Hk1)]; [done|].
  rewrite Hn in Hn'. injection Hn' as <-.
  pose proof (counts_retain _ _ _ _ _ Hc Hn) as Hc1. rewrite <-Hr in Hc1.
  destruct (release_counts a1 _ _ id Hwf1 Hc1) as (a2 & Hrel & Hwf2 & Hk2 & Hc2).
  { rewrite delta_eq. pose proof (co_pos _ _ _ Hc id). lia. }
  rewrite Hrel. do 2 eexists. split; [done|]. split; [|by apply (pipes_kept_trans _ a1)].
  split; [done|apply Hy|]. simpl. eapply counts_ext; [|exact Hc2]. intros i. cbv beta.
  unfold holders. simpl. lia.
Qed.

Lemma io_step_ok y op : desc_wf y → desc_op_valid op →
  match op with
  | ORead _ _ | OWrite _ _ | ODrainCapture _ | OFileLock _ _ _ => step_ok y (desc_step y op)
  | _ => True
  end.
Proof.
  intros Hy Hv. pose proof (dw_arena y Hy) as Ha. destruct op as [| | | | | | | |id maximum|id data| |
    |id|id inode mode| | | | | | |]; try done; simpl.
  - destruct (arena_read_spec (dy_arena y) id maximum Ha Hv) as (a' & r & -> & Hwf & Hr & Hp). simpl.
    by apply step_ok_arena.
  - pose proof (arena_write_spec (dy_arena y) id data Ha) as Hw.
    destruct (arena_write (dy_arena y) id data) as [a' r]. destruct Hw as (Hwf & Hr & Hp).
    by apply step_ok_arena.
  - destruct (drain_capture_inert (dy_arena y) id Ha) as (a' & r & -> & Hin). simpl.
    by apply step_ok_inert.
  - destruct (da_descriptions (dy_arena y) !! id) as [e|] eqn:He.
    + destruct (file_lock_spec (dy_arena y) id inode mode Ha) as (a' & b & -> & Hin & _); [by eexists|].
      simpl. by apply step_ok_inert.
    + unfold file_lock. rewrite He. simpl. by apply step_ok_inert, inert_refl.
Qed.

#[local] Hint Resolve append_input_inert close_input_inert take_file_lock_changes_inert
  bind_inode_inert set_nonblocking_inert set_append_inert advance_file_inert seek_file_inert
  detach_file_inert : core.

Lemma desc_step_ok y op : desc_wf y → desc_op_valid op → step_ok y (desc_step y op).
Proof.
  intros Hy Hv. pose proof (dw_arena y Hy) as Ha. pose proof (io_step_ok y op Hy Hv) as Hio.
  destruct op; try exact Hio; try (apply step_ok_inert; by auto).
  - by apply open_step_ok.
  - by apply open_pipe_step_ok.
  - by apply table_step_ok.
  - by apply fork_step_ok.
  - by apply exit_step_ok.
  - by apply handle_step_ok.
  - by apply handle_step_ok.
  - by apply discard_step_ok.
Qed.

Lemma desc_run_ok y ops : desc_wf y → Forall desc_op_valid ops →
  ∃ y' events, desc_run y ops = Ret (y', events) ∧ desc_wf y'.
Proof.
  revert y. induction ops as [|op ops IH]; intros y Hy Hv; simpl; [by eauto|].
  apply Forall_cons in Hv as [Hop Hv].
  destruct (desc_step_ok y op Hy Hop) as (y1 & ev & -> & Hy1 & _). simpl.
  destruct (IH y1 Hy1 Hv) as (y2 & evs & -> & Hy2). simpl. eauto.
Qed.

Lemma desc_system_new_wf : desc_wf desc_system_new.
Proof.
  assert (Hz : ∀ i, holders desc_system_new i = 0).
  { intros i. unfold holders, desc_system_new. simpl. rewrite <-insert_empty.
    rewrite map_sum_insert by apply lookup_empty. unfold table_count. simpl.
    by rewrite !map_sum_empty. }
  split; [apply arena_new_wf| |].
  - simpl. intros pid t [_ <-]%lookup_singleton_Some. apply fd_table_new_wf.
  - split; simpl.
    + intros id n. unfold refs. simpl. by rewrite fmap_empty, lookup_empty.
    + intros id. rewrite Hz. lia.
    + intros id. rewrite Hz. lia.
    + set_solver.
Qed.

(** C28: Over every interleaving of descriptor operations by any number of processes, nothing
    panics and the reference count of every open description equals the number of table entries
    and machine handles that hold it; no table entry dangles; each pipe counts its open reading
    and writing ends; and once no process and no handle is left and nothing opened is still to be
    installed, no description and no pipe remains. *)
Theorem descriptor_references_exact ops : Forall desc_op_valid ops →
  ∃ y events, desc_run desc_system_new ops = Ret (y, events) ∧
    (∀ id e, da_descriptions (dy_arena y) !! id = Some e → de_references e = holders y id) ∧
    (∀ pid t fd id, dy_tables y !! pid = Some t → ft_entries t !! fd = Some id →
      ∃ e, da_descriptions (dy_arena y) !! id = Some e ∧ 0 < de_references e) ∧
    (∀ pipe p, da_pipes (dy_arena y) !! pipe = Some p →
      pi_readers p = ends_of (da_descriptions (dy_arena y)) pipe true ∧
      pi_writers p = ends_of (da_descriptions (dy_arena y)) pipe false ∧
      zlen (pi_bytes p) ≤ pi_capacity p ≤ DEFAULT_PIPE_CAPACITY) ∧
    (dy_tables y = ∅ → dy_handles y = [] → dy_unowned y = ∅ →
      da_descriptions (dy_arena y) = ∅ ∧ da_pipes (dy_arena y) = ∅).
Proof.
  intros Hv. destruct (desc_run_ok _ ops desc_system_new_wf Hv) as (y & evs & Hrun & [Ha Ht Hc]).
  assert (Hcount : ∀ id e, da_descriptions (dy_arena y) !! id = Some e →
    de_references e = holders y id ∧ (de_references e = 0 → id ∈ dy_unowned y)).
  { intros id e He. apply (co_count _ _ _ Hc). by rewrite refs_lookup, He. }
  exists y, evs. split; [done|]. split; [intros id e He; by apply Hcount|]. split; [|split].
  - intros pid t fd id Hpid Hfd.
    assert (Hpos : 0 < holders y id).
    { rewrite (holders_split y pid t) by done. pose proof (table_count_has t fd id Hfd).
      pose proof (other_holders_pos y pid id). lia. }
    destruct (co_live _ _ _ Hc id Hpos) as [n Hn]. rewrite refs_lookup in Hn.
    destruct (da_descriptions (dy_arena y) !! id) as [e|] eqn:He; [|done].
    exists e. split; [done|]. destruct (Hcount id e He). lia.
  - intros pipe p Hp. destruct (aw_pipe _ Ha pipe p Hp) as (? & ? & ? & ? & _). auto with lia.
  - intros Hnt Hnh Hnu.
    assert (Hnone : da_descriptions (dy_arena y) = ∅).
    { apply map_empty. intros id. apply eq_None_not_Some. intros [e He].
      destruct (Hcount id e He) as [Hr Hu]. rewrite Hnu in Hu.
      assert (holders y id = 0) by (unfold holders; rewrite Hnt, Hnh, map_sum_empty; done).
      rewrite elem_of_empty in Hu. lia. }
    split; [done|]. apply map_empty. intros pipe. apply eq_None_not_Some. intros [p Hp].
    destruct (aw_pipe _ Ha pipe p Hp) as (_ & _ & Hr & Hw & Hpos). rewrite Hnone in Hr, Hw.
    unfold ends_of in Hr, Hw. rewrite map_sum_empty in Hr, Hw. lia.
Qed.

Definition desc_example_ops : list desc_op :=
  [OOpenPipe 4; OTable 1 (TInstall 3 1); OTable 1 (TInstall 4 2); OFork 1 2; OTable 2 (TClose 4);
   OWrite 2 [Byte.x61; Byte.x62; Byte.x63]; ORead 1 2; OTable 1 (TDuplicate 4 9);
   OTable 1 (TSetCloseOnExec 9 true); OTable 1 TExec; OExit 1; ORead 1 5; OExit 2].

Lemma desc_example_valid : Forall desc_op_valid desc_example_ops.
Proof. repeat constructor; simpl; lia. Qed.

Lemma descriptor_references_exact_witness :
  ∃ y events, desc_run desc_system_new desc_example_ops = Ret (y, events) ∧
    da_descriptions (dy_arena y) = ∅ ∧ da_pipes (dy_arena y) = ∅.
Proof.
  destruct (descriptor_references_exact desc_example_ops desc_example_valid)
    as (y & evs & Hrun & _ & _ & _ & Hleak).
  exists y, evs. split; [exact Hrun|].
  assert (Heq : ∃ a, Ret (y, evs) = Ret (MkDescSystem a ∅ [] ∅,
    [EvQuiet; EvQuiet; EvQuiet; EvQuiet; EvQuiet; EvWrite 1 [Byte.x61; Byte.x62; Byte.x63];
     EvRead 1 [Byte.x61; Byte.x62]; EvQuiet; EvQuiet; EvQuiet; EvQuiet; EvRead 1 [Byte.x63]; EvQuiet])).
  { eexists. rewrite <-Hrun. vm_compute. reflexivity. }
  destruct Heq as [a Heq]. injection Heq as Hy He. apply Hleak; rewrite Hy; reflexivity.
Defined.

(** ** Pipes are FIFO *)

Definition written (pipe : Z) (events : list pipe_event) : bytes :=
  events ≫= λ e, match e with EvWrite q data => if q =? pipe then data else [] | _ => [] end.
Definition received (pipe : Z) (events : list pipe_event) : bytes :=
  events ≫= λ e, match e with EvRead q data => if q =? pipe then data else [] | _ => [] end.

(** The bytes a pipe still holds explain the difference between what was written and read. *)
Record fifo_inv (a : DescriptorArena) (events : list pipe_event) : Prop := {
  fi_live : ∀ pipe p, da_pipes a !! pipe = Some p →
    written pipe events = received pipe events ++ pi_bytes p;
  fi_prefix : ∀ pipe, received pipe events `prefix_of` written pipe events;
  fi_future : ∀ pipe, da_next_pipe a ≤ pipe →
    written pipe events = [] ∧ received pipe events = []
}.

Lemma written_snoc pipe events e : written pipe (events ++ [e]) =
  written pipe events ++ match e with EvWrite q data => if q =? pipe then data else [] | _ => [] end.
Proof. unfold written. rewrite bind_app. simpl. by rewrite app_nil_r. Qed.
Lemma received_snoc pipe events e : received pipe (events ++ [e]) =
  received pipe events ++ match e with EvRead q data => if q =? pipe then data else [] | _ => [] end.
Proof. unfold received. rewrite bind_app. simpl. by rewrite app_nil_r. Qed.

Lemma fifo_inv_quiet a a' events :
  fifo_inv a events → pipes_kept a a' → fifo_inv a' (events ++ [EvQuiet]).
Proof.
  intros [Hl Hp Hf] [Hn Hk]. split; intros pipe; rewrite written_snoc, received_snoc, !app_nil_r.
  - intros p Hpipe. destruct (Hk pipe p Hpipe) as [(q & Hq & -> & _)|[Hle ->]]; [by apply Hl|].
    destruct (Hf pipe Hle) as [-> ->]. done.
  - apply Hp.
  - intros Hle. apply Hf. lia.
Qed.

Lemma fifo_inv_read a a' events pipe data :
  arena_wf a → fifo_inv a events → pipe_transition a (EvRead pipe data) a' →
  fifo_inv a' (events ++ [EvRead pipe data]).
Proof.
  intros Hwf [Hl Hp Hf] (p & rest & Hpipe & Hb & Hn & Hpipes).
  pose proof (Hl pipe p Hpipe) as Hhere. rewrite Hb in Hhere.
  pose proof (aw_pipe_ids a Hwf pipe (ex_intro _ _ Hpipe)) as Hid.
  split; intros q; rewrite written_snoc, received_snoc; destruct (Z.eqb_spec pipe q) as [<-|Hq];
    rewrite ?app_nil_r, ?Hpipes.
  - intros x. rewrite lookup_insert_eq. intros [= <-]. simpl. by rewrite <-app_assoc.
  - intros x. rewrite lookup_insert_ne by done. apply Hl.
  - rewrite Hhere, app_assoc. by eexists.
  - apply Hp.
  - lia.
  - rewrite Hn. apply Hf.
Qed.

Lemma fifo_inv_write a a' events pipe data :
  arena_wf a → fifo_inv a events → pipe_transition a (EvWrite pipe data) a' →
  fifo_inv a' (events ++ [EvWrite pipe data]).
Proof.
  intros Hwf [Hl Hp Hf] (p & Hpipe & Hn & Hpipes). pose proof (Hl pipe p Hpipe) as Hhere.
  pose proof (aw_pipe_ids a Hwf pipe (ex_intro _ _ Hpipe)) as Hid.
  split; intros q; rewrite written_snoc, received_snoc; destruct (Z.eqb_spec pipe q) as [<-|Hq];
    rewrite ?app_nil_r, ?Hpipes.
  - intros x. rewrite lookup_insert_eq. intros [= <-]. simpl. by rewrite Hhere, app_assoc.
  - intros x. rewrite lookup_insert_ne by done. apply Hl.
  - apply prefix_app_r, Hp.
  - apply Hp.
  - lia.
  - rewrite Hn. apply Hf.
Qed.

Lemma fifo_inv_run ops y events : desc_wf y → fifo_inv (dy_arena y) events →
  Forall desc_op_valid ops →
  ∃ y' more, desc_run y ops = Ret (y', more) ∧ desc_wf y' ∧
    fifo_inv (dy_arena y') (events ++ more).
Proof.
  revert y events. induction ops as [|op ops IH]; intros y events Hy Hi Hv; simpl.
  { exists y, []. by rewrite app_nil_r. }
  apply Forall_cons in Hv as [Hop Hv].
  destruct (desc_step_ok y op Hy Hop) as (y1 & ev & -> & Hy1 & Htr). simpl.
  assert (Hi1 : fifo_inv (dy_arena y1) (events ++ [ev])).
  { destruct ev.
    - by apply (fifo_inv_read (dy_arena y)); [apply Hy| |].
    - by apply (fifo_inv_write (dy_arena y)); [apply Hy| |].
    - by apply (fifo_inv_quiet (dy_arena y)). }
  destruct (IH y1 _ Hy1 Hi1 Hv) as (y2 & more & -> & Hy2 & Hi2). simpl.
  exists y2, (ev :: more). rewrite <-app_assoc in Hi2. done.
Qed.

(** C29: Pipes are FIFO channels: over every interleaving of descriptor operations, the bytes
    received from a pipe are a prefix of the bytes it accepted, in order, and while the pipe is
    open the bytes accepted and not yet received are exactly the ones it buffers. *)
Theorem pipes_are_fifo ops : Forall desc_op_valid ops →
  ∃ y events, desc_run desc_system_new ops = Ret (y, events) ∧
    (∀ pipe, received pipe events `prefix_of` written pipe events) ∧
    (∀ pipe p, da_pipes (dy_arena y) !! pipe = Some p →
      written pipe events = received pipe events ++ pi_bytes p).
Proof.
  intros Hv. destruct (fifo_inv_run ops desc_system_new [] desc_system_new_wf) as
    (y & events & Hrun & _ & []); [by split|done|]. by exists y, events.
Qed.

Lemma pipes_are_fifo_witness :
  ∃ y events, desc_run desc_system_new (take 7 desc_example_ops) = Ret (y, events) ∧
    received 1 events `prefix_of` written 1 events ∧ written 1 events = [Byte.x61; Byte.x62; Byte.x63].
Proof.
  destruct (pipes_are_fifo (take 7 desc_example_ops)) as (y & events & Hrun & Hpre & _).
  { repeat constructor; simpl; lia. }
  exists y, events. split; [exact Hrun|]. split; [apply Hpre|].
  assert (Hev : ∃ y', desc_run desc_system_new (take 7 desc_example_ops) =
    Ret (y', [EvQuiet; EvQuiet; EvQuiet; EvQuiet; EvQuiet;
              EvWrite 1 [Byte.x61; Byte.x62; Byte.x63]; EvRead 1 [Byte.x61; Byte.x62]]))
    by (eexists; vm_compute; reflexivity).
  destruct Hev as [y' Hev]. rewrite Hrun in Hev. injection Hev as _ ->. reflexivity.
Defined.

(** [fork] is atomic: when every description of the table is live, it either fails and leaves
    the arena exactly as it was, or returns an equal table and adds to the count of every
    description exactly the number of entries the table has for it. *)
Theorem fork_is_atomic t a :
  (∀ fd id, ft_entries t !! fd = Some id →
    ∃ e, da_descriptions a !! id = Some e ∧ 1 ≤ de_references e) →
  match fd_fork t a with
  | (a', Ok t') => t' = t ∧ ∀ id, refs a' !! id = (λ n, n + table_count t id) <$> refs a !! id
  | (a', Err _) => a' = a
  end.
Proof.
  intros Hheld. pose proof (fd_fork_bump t a Hheld) as Hfork.
  destruct (fd_fork t a) as [a' [t'|e]]; [|done]. destruct Hfork as [-> ->]. split; [done|].
  intros id. rewrite !refs_lookup, bump_lookup. by destruct (da_descriptions a !! id).
Qed.

(** One description on two descriptors of a table. *)
Definition fork_example_arena : DescriptorArena :=
  set_entry (open_null arena_new).1 1 (MkDescriptionEntry (DNull true true) 2 false None None).
Definition fork_example_table : FdTable := MkFdTable {[0 := 1; 1 := 1]} ∅.

Lemma fork_is_atomic_witness :
  ∃ a', fd_fork fork_example_table fork_example_arena = (a', Ok fork_example_table) ∧
    refs a' !! 1 = Some 4.
Proof.
  pose proof (fork_is_atomic fork_example_table fork_example_arena) as Hfork.
  assert (Hok : ∃ a', fd_fork fork_example_table fork_example_arena = (a', Ok fork_example_table))
    by (eexists; vm_compute; reflexivity).
  destruct Hok as [a' Hok]. exists a'. split; [exact Hok|]. rewrite Hok in Hfork.
  destruct Hfork as [_ Hrefs]; [|rewrite Hrefs; vm_compute; reflexivity].
  intros fd id Hfd. assert (id = 1) as ->.
  { unfold fork_example_table in Hfd. simpl in Hfd.
    apply lookup_insert_Some in Hfd as [[_ <-]|[_ Hl]]; [reflexivity|].
    by apply lookup_singleton_Some in Hl as [_ <-]. }
  eexists. split; [vm_compute; reflexivity|]. simpl. lia.
Defined.

(** [close_for_exec] closes exactly the descriptors flagged close-on-exec and leaves no flag. *)
Lemma btree_set_iter_elem s fd : fd ∈ btree_set_iter s ↔ fd ∈ s.
Proof. unfold btree_set_iter. by rewrite merge_sort_Permutation, elem_of_elements. Qed.

(** When a process commits an exec, exactly its descriptors flagged close-on-exec are closed:
    the table keeps the other entries, no flag stays, and the references the closed entries held
    are given back. *)
Theorem exec_closes_flagged y pid t : desc_wf y → dy_tables y !! pid = Some t →
  ∃ y', desc_step y (OTable pid TExec) = Ret (y', EvQuiet) ∧ desc_wf y' ∧
    ∃ t', dy_tables y' !! pid = Some t' ∧
      (∀ fd, ft_entries t' !! fd =
        if decide (fd ∈ ft_close_on_exec t) then None else ft_entries t !! fd) ∧
      ft_close_on_exec t' = ∅ ∧ dy_unowned y' = dy_unowned y.
Proof.
  intros Hy Ht. destruct (desc_step_ok y (OTable pid TExec) Hy) as (y' & ev & Hstep & Hy' & _); [done|].
  assert (Hok' : table_ok (other_holders y pid) (MkFdTable (ft_entries t) ∅) (dy_arena y)
    (dy_unowned y)).
  { destruct (desc_wf_table_ok y pid t Hy Ht) as [? [] ?]. split; [done| |done]. split; [done..|].
    simpl. set_solver. }
  pose proof (close_each_spec _ (other_holders_pos y pid) (btree_set_iter (ft_close_on_exec t)) _ _ _
    Hok') as Hi.
  pose proof Hstep as Heq. simpl in Heq. rewrite Ht in Heq. unfold close_for_exec in Heq.
  destruct (close_each _ _ _) as [t' a']. destruct Hi as (_ & _ & He & Hce).
  injection Heq as Hy'' Hev. exists y'. split; [by rewrite Hstep, Hev|]. split; [done|].
  rewrite <-Hy''. exists t'. simpl. rewrite lookup_insert_eq. split; [done|].
  split; [|split; [set_solver|done]].
  intros fd. rewrite He. apply option_eq. intros id. rewrite map_lookup_filter_Some.
  rewrite btree_set_iter_elem. case_decide; naive_solver.
Qed.

Definition desc_example_state : DescSystem :=
  match desc_run desc_system_new (take 9 desc_example_ops) with
  | Ret (y, _) => y
  | _ => desc_system_new
  end.

Lemma desc_example_state_wf : desc_wf desc_example_state.
Proof.
  unfold desc_example_state.
  destruct (desc_run_ok desc_system_new (take 9 desc_example_ops) desc_system_new_wf)
    as (y & evs & -> & Hy); [|done].
  apply Forall_take, desc_example_valid.
Qed.

Lemma exec_closes_flagged_witness :
  ∃ y' t', desc_step desc_example_state (OTable 1 TExec) = Ret (y', EvQuiet) ∧
    dy_tables y' !! 1 = Some t' ∧ ft_entries t' !! 9 = None ∧ ft_entries t' !! 4 = Some 2.
Proof.
  destruct (exec_closes_flagged desc_example_state 1 (MkFdTable {[3 := 1; 4 := 2; 9 := 2]} {[9]})
    desc_example_state_wf) as (y' & Hstep & _ & t' & Ht' & He & _).
  - vm_compute. reflexivity.
  - exists y', t'. split; [exact Hstep|]. split; [exact Ht'|]. rewrite !He.
    split; vm_compute; reflexivity.
Defined.
