(* ===== verification/Paths.v ===== *)
(** * Virtual paths (the path functions of src/src/vfs.rs)

    Lexical normalisation, joining onto a working directory, parents and base names, and the
    checks every mutation makes on a path. The theorems relate the string functions to lists of
    components: normalisation is idempotent and gives one canonical string per component list,
    and a canonical path is its parent joined with its base name. *)

From S2P Require Import Prelude.
From S2P Require Import RustStr.

(** ** The functions of the source *)

(** One step of the loop of [normalize] over the pieces of the path. *)
Definition push_component (out : list string) (comp : string) : list string :=
  if bool_decide (comp = "") || bool_decide (comp = ".") then out
  else if bool_decide (comp = "..") then removelast out
  else out ++ [comp].

Definition normalize (path : string) : string :=
  let out := foldl push_component [] (split_slash path) in
  match out with
  | [] => "/"
  | _ => "/" +:+ String.concat "/" out
  end.

Definition PATH_MAX : Z := 4096.
Definition NAME_MAX : Z := 255.

Inductive VfsError :=
| NotFound (path : string)
| NotADir (path : string)
| IsADir (path : string)
| NotEmpty (path : string)
| Exists_ (path : string)
| Loop (path : string)
| Invalid (path : string)
| NameTooLong (path : string)
| NoSpace
| TooLarge (path : string) (limit : Z)
| ReadOnly (path : string).

Definition check_path_limits (abs : string) : result VfsError unit :=
  if (PATH_MAX <=? str_len abs) || existsb (λ component, NAME_MAX <? str_len component) (split_slash abs)
  then Err (NameTooLong abs) else Ok tt.

Definition reject_pseudo_mutation (path : string) : result VfsError unit :=
  if existsb (λ root, bool_decide (path = root) || starts_with (root +:+ "/") path) ["/proc"; "/dev"]
  then Err (ReadOnly path) else Ok tt.

Definition resolve_against (cwd path : string) : string :=
  if starts_with "/" path then normalize path else normalize (cwd +:+ "/" +:+ path).

Definition parent_of (path : string) : option string :=
  if bool_decide (path = "/") then None
  else
    match rfind_slash path with
    | Some O => Some "/"
    | Some i => Some (str_take i path)
    | None => None
    end.

Definition basename (path : string) : string :=
  if bool_decide (path = "/") then "/"
  else
    match rfind_slash path with
    | Some i => str_drop (S i) path
    | None => path
    end.

(** [if parent == "/" { format!("/{name}") } else { format!("{parent}/{name}") }], which the
    source writes wherever it appends a name to a directory. *)
Definition child_path (parent name : string) : string :=
  if bool_decide (parent = "/") then "/" +:+ name else parent +:+ "/" +:+ name.

(** ** Component lists *)

(** A component that normalisation keeps. *)
Definition clean (c : string) : Prop :=
  c ≠ "" ∧ c ≠ "." ∧ c ≠ ".." ∧ has_slash c = false.

#[export] Instance clean_dec c : Decision (clean c).
Proof. unfold clean. apply _. Defined.

Lemma Forall_clean_snoc cs c : Forall clean cs → clean c → Forall clean (cs ++ [c]).
Proof. intros Hcs Hc. apply Forall_app. split; [done|]. by apply (Forall_singleton clean c). Qed.

(** The canonical path of a component list. *)
Definition path_of (comps : list string) : string :=
  match comps with [] => "/" | _ => "/" +:+ String.concat "/" comps end.

Definition components (path : string) : list string := foldl push_component [] (split_slash path).

Lemma normalize_path_of path : normalize path = path_of (components path).
Proof. reflexivity. Qed.

Lemma push_component_clean out comp : Forall clean out → has_slash comp = false →
  Forall clean (push_component out comp).
Proof.
  intros Hout Hc. unfold push_component. repeat case_bool_decide; simpl; try done.
  - apply Forall_forall. intros x Hx. apply (proj1 (Forall_forall _ _) Hout).
    clear -Hx. induction out as [|a [|b out] IH]; [by apply elem_of_nil in Hx..|].
    change (x ∈ a :: removelast (b :: out)) in Hx. rewrite elem_of_cons in Hx |- *. destruct Hx as [->|Hx]; [by left|right; auto].
  - apply Forall_app. split; [done|]. by repeat constructor.
Qed.

Lemma components_clean path : Forall clean (components path).
Proof.
  unfold components. pose proof (split_slash_pieces path) as Hp.
  assert (Hout : Forall clean []) by constructor. revert Hout. generalize (@nil string) as out.
  induction Hp as [|piece pieces Hpiece Hp IH]; intros out Hout; [done|]. simpl.
  apply IH. by apply push_component_clean.
Qed.

Lemma concat_cons c d cs :
  String.concat "/" (c :: d :: cs) = c +:+ String slash (String.concat "/" (d :: cs)).
Proof. reflexivity. Qed.

Lemma split_slash_concat c cs : Forall clean (c :: cs) →
  split_slash (String.concat "/" (c :: cs)) = c :: cs.
Proof.
  revert c. induction cs as [|d cs IH]; intros c Hcs; apply Forall_cons in Hcs as [(_ & _ & _ & Hc) Hcs].
  - simpl. by apply split_slash_plain.
  - rewrite concat_cons, split_slash_app by done. by rewrite IH.
Qed.

Lemma push_component_keep out c : clean c → push_component out c = out ++ [c].
Proof.
  intros (? & ? & ? & _). unfold push_component. by rewrite !bool_decide_eq_false_2.
Qed.

Lemma foldl_push_clean out cs : Forall clean cs → foldl push_component out cs = out ++ cs.
Proof.
  intros Hcs. revert out. induction Hcs as [|c cs Hc Hcs IH]; intros out; simpl.
  - by rewrite app_nil_r.
  - rewrite push_component_keep, IH by done. by rewrite <-app_assoc.
Qed.

(** A canonical path has the components it was built from. *)
Lemma components_path_of cs : Forall clean cs → components (path_of cs) = cs.
Proof.
  intros Hcs. unfold components, path_of. destruct cs as [|c cs]; [done|].
  change ("/" +:+ String.concat "/" (c :: cs)) with
    (EmptyString +:+ String slash (String.concat "/" (c :: cs))).
  rewrite split_slash_app by done. cbn [foldl]. change (push_component [] "") with (@nil string).
  rewrite split_slash_concat by done.
  by rewrite foldl_push_clean.
Qed.

Lemma normalize_path_of_clean cs : Forall clean cs → normalize (path_of cs) = path_of cs.
Proof. intros Hcs. by rewrite normalize_path_of, components_path_of. Qed.

Lemma path_of_inj cs ds : Forall clean cs → Forall clean ds → path_of cs = path_of ds → cs = ds.
Proof.
  intros Hcs Hds Heq. rewrite <-(components_path_of cs), <-(components_path_of ds) by done.
  by rewrite Heq.
Qed.

Lemma path_of_root cs : Forall clean cs → path_of cs = "/" ↔ cs = [].
Proof. intros Hcs. split; [|by intros ->]. intros Heq. by apply (path_of_inj cs []). Qed.

Lemma resolve_against_clean cwd path : ∃ cs, Forall clean cs ∧ resolve_against cwd path = path_of cs.
Proof.
  unfold resolve_against. case_match; rewrite normalize_path_of; eauto using components_clean.
Qed.

(** ** Parents and base names *)

Lemma concat_snoc cs c : cs ≠ [] →
  String.concat "/" (cs ++ [c]) = String.concat "/" cs +:+ String slash c.
Proof.
  induction cs as [|a cs IH]; [done|]. intros _. destruct cs as [|b cs]; [done|].
  rewrite <-!app_comm_cons. rewrite !concat_cons. rewrite app_comm_cons, IH by done.
  by rewrite <-append_assoc, append_cons.
Qed.

(** A canonical path with its last component split off. *)
Lemma path_of_snoc cs c :
  path_of (cs ++ [c]) = (if decide (cs = []) then "" else path_of cs) +:+ String slash c.
Proof.
  destruct cs as [|a cs]; [done|]. rewrite decide_False by done.
  unfold path_of. change ((a :: cs) ++ [c]) with (a :: (cs ++ [c])).
  cbv beta iota. change (a :: (cs ++ [c])) with ((a :: cs) ++ [c]).
  rewrite concat_snoc by done. by rewrite append_assoc.
Qed.

Lemma path_of_snoc_child cs c : Forall clean cs → path_of (cs ++ [c]) = child_path (path_of cs) c.
Proof.
  intros Hcs. rewrite path_of_snoc. unfold child_path. destruct (decide (cs = [])) as [->|Hne].
  - done.
  - rewrite bool_decide_eq_false_2 by (by rewrite path_of_root). done.
Qed.

Lemma path_of_snoc_not_root cs c : clean c → path_of (cs ++ [c]) ≠ "/".
Proof.
  intros (Hc & _). rewrite path_of_snoc. destruct (decide (cs = [])).
  - rewrite append_nil_l. intros [= ?]. done.
  - destruct cs as [|a cs]; [done|]. unfold path_of. destruct (String.concat "/" (a :: cs)); done.
Qed.

Lemma path_of_length_pos cs : cs ≠ [] → ∃ n, String.length (path_of cs) = S n.
Proof. destruct cs; [done|]. intros _. by eexists. Qed.

Lemma parent_of_snoc cs c : Forall clean cs → clean c → parent_of (path_of (cs ++ [c])) = Some (path_of cs).
Proof.
  intros Hcs Hc. unfold parent_of. rewrite bool_decide_eq_false_2 by (by apply path_of_snoc_not_root).
  rewrite path_of_snoc. destruct Hc as (_ & _ & _ & Hs). rewrite rfind_slash_app by done.
  destruct (decide (cs = [])) as [->|Hne]; [done|].
  destruct (path_of_length_pos cs Hne) as [n Hn]. rewrite Hn, <-Hn. by rewrite str_take_append.
Qed.

Lemma basename_snoc cs c : clean c → basename (path_of (cs ++ [c])) = c.
Proof.
  intros Hc. unfold basename. rewrite bool_decide_eq_false_2 by (by apply path_of_snoc_not_root).
  rewrite path_of_snoc. destruct Hc as (_ & _ & _ & Hs). rewrite rfind_slash_app by done.
  generalize (if decide (cs = []) then "" else path_of cs). intros s.
  clear. induction s as [|a s IH]; [done|]. by rewrite append_cons.
Qed.

(** Normalisation is a canonical form: it is idempotent, its result is the absolute path of a
    list of components of which none is empty, [.], [..] or contains a slash, and two paths
    normalise to the same string exactly when they have the same components. *)
Theorem normalize_canonical p q :
  normalize (normalize p) = normalize p ∧
  Forall clean (components p) ∧ normalize p = path_of (components p) ∧
  components (normalize p) = components p ∧
  (normalize p = normalize q ↔ components p = components q).
Proof.
  pose proof (components_clean p) as Hp. pose proof (components_clean q) as Hq.
  split; [by rewrite !normalize_path_of, components_path_of|]. split; [done|]. split; [done|].
  split; [by rewrite normalize_path_of, components_path_of|].
  rewrite !normalize_path_of. split; [by apply path_of_inj|by intros ->].
Qed.

(** A resolved path other than the root is its parent joined with its base name, the parent is
    itself canonical, and the base name is a clean component; the root has no parent. *)
Theorem parent_basename_split cwd path :
  let abs := resolve_against cwd path in
  (abs = "/" ∧ parent_of abs = None) ∨
  ∃ parent, parent_of abs = Some parent ∧ normalize parent = parent ∧ clean (basename abs) ∧
    abs = child_path parent (basename abs).
Proof.
  intros abs. destruct (resolve_against_clean cwd path) as (cs & Hcs & Habs).
  subst abs. rewrite Habs. destruct cs as [|c cs _] using rev_ind; [by left|]. right.
  apply Forall_app in Hcs as [Hcs Hc]. apply (Forall_singleton clean c) in Hc.
  exists (path_of cs). rewrite parent_of_snoc, basename_snoc by done. split; [done|].
  split; [by apply normalize_path_of_clean|]. split; [done|by apply path_of_snoc_child].
Qed.
