(* ===== verification/Vfs.v ===== *)
(** * The virtual filesystem (src/src/vfs.rs)

    An immutable installed tree under a private overlay with tombstones, the files unlinked while
    open, and the disk accounting. A file's shared buffer ([Arc<Vec<u8>>]) is its contents: the
    model has values where the source shares buffers copy-on-write. A method on [&mut self]
    returns the new state with its result; a method that can reach [expect], [unwrap] or
    [unreachable!] returns a [run]. *)

From stdpp Require Import pretty.
From S2P Require Import Prelude.
From S2P Require Import RustStr.
From S2P Require Import Paths.

(** ** Nodes *)

Inductive NativeProgram :=
| NpTrue | NpFalse | NpPwd | NpYes | NpCat | NpTee | NpHead | NpXargs | NpFind | NpEnv | NpSleep
| NpUsleep | NpTimeout | NpNohup | NpNice | NpMake
| Registered (path : string)
| LegacyRegistered (name : string).

#[export] Instance NativeProgram_eq_dec : EqDecision NativeProgram.
Proof. solve_decision. Defined.

Definition native_from_name (name : string) : option NativeProgram :=
  if bool_decide (name = "true") then Some NpTrue
  else if bool_decide (name = "false") then Some NpFalse
  else if bool_decide (name = "pwd") then Some NpPwd
  else if bool_decide (name = "yes") then Some NpYes
  else if bool_decide (name = "cat") then Some NpCat
  else if bool_decide (name = "tee") then Some NpTee
  else if bool_decide (name = "head") then Some NpHead
  else if bool_decide (name = "xargs") then Some NpXargs
  else if bool_decide (name = "find") then Some NpFind
  else if bool_decide (name = "env") then Some NpEnv
  else if bool_decide (name = "sleep") then Some NpSleep
  else if bool_decide (name = "usleep") then Some NpUsleep
  else if bool_decide (name = "timeout") then Some NpTimeout
  else if bool_decide (name = "nohup") then Some NpNohup
  else if bool_decide (name = "nice") then Some NpNice
  else if bool_decide (name = "make") then Some NpMake
  else None.

Definition native_name (p : NativeProgram) : string :=
  match p with
  | NpTrue => "true" | NpFalse => "false" | NpPwd => "pwd" | NpYes => "yes" | NpCat => "cat"
  | NpTee => "tee" | NpHead => "head" | NpXargs => "xargs" | NpFind => "find" | NpEnv => "env"
  | NpSleep => "sleep" | NpUsleep => "usleep" | NpTimeout => "timeout" | NpNohup => "nohup"
  | NpNice => "nice" | NpMake => "make"
  | Registered path => default path (last (split_slash path))
  | LegacyRegistered name => name
  end.

Inductive NodeKind :=
| File (content : bytes)
| Dir
| Symlink (target : string)
| NativeExecutable (program : NativeProgram).

Record Node := MkNode {
  nd_inode : Z;
  nd_kind : NodeKind;
  nd_mode : Z;
  nd_uid : Z;
  nd_gid : Z;
  nd_mtime : Z
}.

Definition node_dir (inode mode mtime : Z) : Node := MkNode inode Dir mode 0 0 mtime.
Definition node_file (inode : Z) (data : bytes) (mode mtime : Z) : Node :=
  MkNode inode (File data) mode 0 0 mtime.

Definition with_kind (n : Node) (kind : NodeKind) : Node :=
  MkNode (nd_inode n) kind (nd_mode n) (nd_uid n) (nd_gid n) (nd_mtime n).
Definition with_mtime (n : Node) (mtime : Z) : Node :=
  MkNode (nd_inode n) (nd_kind n) (nd_mode n) (nd_uid n) (nd_gid n) mtime.
Definition with_mode (n : Node) (mode : Z) : Node :=
  MkNode (nd_inode n) (nd_kind n) mode (nd_uid n) (nd_gid n) (nd_mtime n).

(** ** State *)

Record FrozenTree := MkFrozenTree {
  fz_nodes : gmap string Node;
  fz_baseline_dirs : gset string;
  fz_baseline_native : gmap string NativeProgram;
  fz_next_inode : Z;
  fz_disk_used : Z
}.

Inductive OverlayEntry :=
| Present (node : Node)
| Deleted.

Record Vfs := MkVfs {
  vf_base : FrozenTree;
  vf_overlay : gmap string OverlayEntry;
  vf_node_count : Z;
  vf_orphaned : gmap Z Node;
  vf_next_orphan : Z;
  vf_next_inode : Z;
  vf_mutation_time : Z;
  vf_disk_limit : Z;
  vf_baseline_dirs : gset string;
  vf_baseline_native : gmap string NativeProgram;
  vf_disk_used : Z;
  vf_disk_peak : Z;
  vf_read_bytes : Z
}.

(** Assignments to one field. *)
Definition set_tree (v : Vfs) (overlay : gmap string OverlayEntry) (count : Z) : Vfs :=
  MkVfs (vf_base v) overlay count (vf_orphaned v) (vf_next_orphan v) (vf_next_inode v)
    (vf_mutation_time v) (vf_disk_limit v) (vf_baseline_dirs v) (vf_baseline_native v)
    (vf_disk_used v) (vf_disk_peak v) (vf_read_bytes v).
Definition set_overlay (v : Vfs) (overlay : gmap string OverlayEntry) : Vfs :=
  set_tree v overlay (vf_node_count v).
Definition set_orphaned (v : Vfs) (orphaned : gmap Z Node) (next : Z) : Vfs :=
  MkVfs (vf_base v) (vf_overlay v) (vf_node_count v) orphaned next (vf_next_inode v)
    (vf_mutation_time v) (vf_disk_limit v) (vf_baseline_dirs v) (vf_baseline_native v)
    (vf_disk_used v) (vf_disk_peak v) (vf_read_bytes v).
Definition set_next_inode (v : Vfs) (next : Z) : Vfs :=
  MkVfs (vf_base v) (vf_overlay v) (vf_node_count v) (vf_orphaned v) (vf_next_orphan v) next
    (vf_mutation_time v) (vf_disk_limit v) (vf_baseline_dirs v) (vf_baseline_native v)
    (vf_disk_used v) (vf_disk_peak v) (vf_read_bytes v).
Definition set_usage (v : Vfs) (used peak : Z) : Vfs :=
  MkVfs (vf_base v) (vf_overlay v) (vf_node_count v) (vf_orphaned v) (vf_next_orphan v)
    (vf_next_inode v) (vf_mutation_time v) (vf_disk_limit v) (vf_baseline_dirs v)
    (vf_baseline_native v) used peak (vf_read_bytes v).
Definition set_read_bytes (v : Vfs) (count : Z) : Vfs :=
  MkVfs (vf_base v) (vf_overlay v) (vf_node_count v) (vf_orphaned v) (vf_next_orphan v)
    (vf_next_inode v) (vf_mutation_time v) (vf_disk_limit v) (vf_baseline_dirs v)
    (vf_baseline_native v) (vf_disk_used v) (vf_disk_peak v) count.
Definition set_baseline (v : Vfs) (dirs : gset string) (native : gmap string NativeProgram) : Vfs :=
  MkVfs (vf_base v) (vf_overlay v) (vf_node_count v) (vf_orphaned v) (vf_next_orphan v)
    (vf_next_inode v) (vf_mutation_time v) (vf_disk_limit v) dirs native
    (vf_disk_used v) (vf_disk_peak v) (vf_read_bytes v).
Definition set_mutation_time (v : Vfs) (unix_ms : Z) : Vfs :=
  MkVfs (vf_base v) (vf_overlay v) (vf_node_count v) (vf_orphaned v) (vf_next_orphan v)
    (vf_next_inode v) unix_ms (vf_disk_limit v) (vf_baseline_dirs v) (vf_baseline_native v)
    (vf_disk_used v) (vf_disk_peak v) (vf_read_bytes v).

(** The result of a mutation, and the [?] operator inside one: an error returns early with the
    state reached so far. *)
Abbreviation vfs_result A := (Vfs * result VfsError A)%type.
Declare Scope vfs_scope.
Notation "'let?' x ':=' r 'orelse' v 'in' k" :=
  (match r with Ok x => k | Err e => (v, Err e) end)
  (at level 200, x name, r at level 100, v at level 100, k at level 200) : vfs_scope.
Open Scope vfs_scope.

(** ** Lookup and the two layers *)

Definition NODE_OVERHEAD : Z := 256.

Definition raw_get (v : Vfs) (abs : string) : option Node :=
  match vf_overlay v !! abs with
  | Some (Present node) => Some node
  | Some Deleted => None
  | None => fz_nodes (vf_base v) !! abs
  end.

Definition contains_node (v : Vfs) (path : string) : bool :=
  match raw_get v path with Some _ => true | None => false end.

(** [node_mut]: copy an installed node up, then borrow it. *)
Definition node_mut (v : Vfs) (path : string) : Vfs * option Node :=
  match vf_overlay v !! path with
  | Some (Present node) => (v, Some node)
  | Some Deleted => (v, None)
  | None =>
      match fz_nodes (vf_base v) !! path with
      | None => (v, None)
      | Some node => (set_overlay v (<[path := Present node]> (vf_overlay v)), Some node)
      end
  end.

(** An assignment through the borrow of [node_mut]. *)
Definition store_node (v : Vfs) (path : string) (node : Node) : Vfs :=
  set_overlay v (<[path := Present node]> (vf_overlay v)).

Definition insert_node (v : Vfs) (path : string) (node : Node) : Vfs :=
  let count := if contains_node v path then vf_node_count v else sat_add64 (vf_node_count v) 1 in
  set_tree v (<[path := Present node]> (vf_overlay v)) count.

Definition remove_node (v : Vfs) (path : string) : Vfs * option Node :=
  match raw_get v path with
  | None => (v, None)
  | Some node =>
      let count := sat_sub (vf_node_count v) 1 in
      let overlay :=
        if bool_decide (is_Some (fz_nodes (vf_base v) !! path))
        then <[path := Deleted]> (vf_overlay v) else delete path (vf_overlay v) in
      (set_tree v overlay count, Some node)
  end.

(** [all_paths]: the merge of the two sorted layers. The overlay wins at equal paths and a
    tombstone hides the installed node. *)
Definition overlay_yield (path : string) (entry : OverlayEntry) (rest : list (string * Node))
    : list (string * Node) :=
  match entry with Present node => (path, node) :: rest | Deleted => rest end.

Fixpoint merge_layers (base : list (string * Node)) : list (string * OverlayEntry) → list (string * Node) :=
  match base with
  | [] => fix go overlay :=
      match overlay with
      | [] => []
      | (path, entry) :: overlay => overlay_yield path entry (go overlay)
      end
  | (base_path, node) :: base' => fix go overlay :=
      match overlay with
      | [] => (base_path, node) :: base'
      | (path, entry) :: overlay' =>
          if bool_decide (base_path = path) then overlay_yield path entry (merge_layers base' overlay')
          else if bool_decide (String.le base_path path)
          then (base_path, node) :: merge_layers base' overlay
          else overlay_yield path entry (go overlay')
      end
  end.

Definition all_paths (v : Vfs) : list (string * Node) :=
  merge_layers (btree_iter (fz_nodes (vf_base v))) (btree_iter (vf_overlay v)).

(** ** Accounting *)

Definition node_payload_len (n : Node) : Z :=
  match nd_kind n with
  | File data => zlen data
  | Symlink target => str_len target
  | Dir | NativeExecutable _ => 0
  end.

Definition logical_usage (nodes : list (string * Node)) : Z :=
  foldl (λ total '(_, n), sat_add64 (sat_add64 total NODE_OVERHEAD) (node_payload_len n)) 0
    (filter (λ '(path, _), path ≠ "/") nodes).

Definition is_dir_node (n : option Node) : bool :=
  match n with Some (MkNode _ Dir _ _ _ _) => true | _ => false end.
Definition is_native_node (n : option Node) (program : NativeProgram) : bool :=
  match n with
  | Some (MkNode _ (NativeExecutable actual) _ _ _ _) => bool_decide (actual = program)
  | _ => false
  end.

Definition measured_usage (v : Vfs) : Z :=
  let present_baseline_dirs :=
    Z.of_nat (size (filter (λ path, is_dir_node (raw_get v path) = true) (vf_baseline_dirs v))) in
  let present_baseline_native :=
    Z.of_nat (size (filter (λ '(path, program), is_native_node (raw_get v path) program = true)
                      (vf_baseline_native v))) in
  sat_add64
    (sat_sub
       (sat_sub (logical_usage (all_paths v)) (sat_mul64 present_baseline_dirs NODE_OVERHEAD))
       (sat_mul64 present_baseline_native NODE_OVERHEAD))
    (sat_total (λ n, sat_add64 NODE_OVERHEAD (node_payload_len n)) (btree_values (vf_orphaned v))).

Definition node_usage (v : Vfs) (path : string) (n : Node) : Z :=
  match nd_kind n with
  | Dir => if bool_decide (path ∈ vf_baseline_dirs v) then 0
           else sat_add64 NODE_OVERHEAD (node_payload_len n)
  | NativeExecutable program =>
      if bool_decide (vf_baseline_native v !! path = Some program) then 0
      else sat_add64 NODE_OVERHEAD (node_payload_len n)
  | _ => sat_add64 NODE_OVERHEAD (node_payload_len n)
  end.

Definition usage_after_adding (v : Vfs) (added : Z) : result VfsError Z :=
  let used := sat_add64 (vf_disk_used v) added in
  if vf_disk_limit v <? used then Err NoSpace else Ok used.

(** The [i128] sum cannot overflow; the conversion back to [u64] clamps. *)
Definition usage_after_delta (v : Vfs) (delta : Z) : result VfsError Z :=
  let used := Z.min (Z.max (vf_disk_used v + delta) 0) U64_MAX in
  if vf_disk_limit v <? used then Err NoSpace else Ok used.

Definition refresh_usage (v : Vfs) : Vfs := set_usage v (measured_usage v) (vf_disk_peak v).

Definition projected_usage_after_replacement (v : Vfs) (path : string) (replacement : Z)
    : result VfsError Z :=
  let previous := match raw_get v path with Some n => node_usage v path n | None => 0 end in
  let used := sat_add64 (sat_sub (vf_disk_used v) previous) replacement in
  if vf_disk_limit v <? used then Err NoSpace else Ok used.

Definition record_usage (v : Vfs) (used : Z) : Vfs := set_usage v used (Z.max (vf_disk_peak v) used).

(** ** Identities *)

Definition check_inode_capacity (v : Vfs) (count : Z) : result VfsError unit :=
  match checked_add64 (vf_next_inode v) count with Some _ => Ok tt | None => Err NoSpace end.

Definition allocate_inode (v : Vfs) : vfs_result Z :=
  match check_inode_capacity v 1 with
  | Err e => (v, Err e)
  | Ok _ => (set_next_inode v (vf_next_inode v + 1), Ok (vf_next_inode v))
  end.

(** ** Construction *)

Definition with_disk_limit (disk_limit : Z) : Vfs :=
  let nodes : gmap string Node := {["/" := node_dir 1 493 0]} in
  let disk_used := logical_usage (btree_iter nodes) in
  MkVfs (MkFrozenTree nodes ∅ ∅ 2 disk_used) ∅ 1 ∅ 1 2 0 disk_limit ∅ ∅ disk_used disk_used 0.

Definition vfs_new : Vfs := with_disk_limit U64_MAX.

Definition freeze (v : Vfs) : FrozenTree :=
  let disk_used :=
    sat_sub (measured_usage v)
      (foldl (λ total n, sat_add64 (sat_add64 total NODE_OVERHEAD) (node_payload_len n)) 0
         (btree_values (vf_orphaned v))) in
  MkFrozenTree (list_to_map (all_paths v)) (vf_baseline_dirs v) (vf_baseline_native v)
    (vf_next_inode v) disk_used.

Definition from_base (base : FrozenTree) (disk_limit : Z) : result VfsError Vfs :=
  if disk_limit <? fz_disk_used base then Err NoSpace
  else Ok (MkVfs base ∅ (Z.of_nat (size (fz_nodes base))) ∅ 1 (fz_next_inode base) 0 disk_limit
             (fz_baseline_dirs base) (fz_baseline_native base) (fz_disk_used base)
             (fz_disk_used base) 0).

(** ** Path resolution *)

(** [realpath_inner] at [depth]: the fuel is [41 - depth], so that running out of it is the
    [depth > 40] of the source. *)
Fixpoint realpath_inner (v : Vfs) (fuel : nat) (abs : string) (follow_final : bool)
    : result VfsError string :=
  match fuel with
  | O => Err (Loop abs)
  | S fuel =>
      if bool_decide (abs = "/") then Ok "/"
      else
        let parent := default "/" (parent_of abs) in
        match realpath_inner v fuel parent true with
        | Err e => Err e
        | Ok real_parent =>
            let candidate := child_path real_parent (basename abs) in
            match raw_get v candidate with
            | Some (MkNode _ (Symlink target) _ _ _ _) =>
                if follow_final
                then realpath_inner v fuel (resolve_against real_parent target) true
                else Ok candidate
            | _ => Ok candidate
            end
        end
  end.

Definition realpath (v : Vfs) (abs : string) (follow_final : bool) : result VfsError string :=
  realpath_inner v 41 abs follow_final.

(** The node a path resolves to. *)
Definition resolved (v : Vfs) (cwd path : string) (follow : bool) : result VfsError (option Node) :=
  raw_get v <$> realpath v (resolve_against cwd path) follow.

Definition vfs_exists (v : Vfs) (cwd path : string) : bool :=
  match resolved v cwd path true with Ok (Some _) => true | _ => false end.
Definition vfs_lexists (v : Vfs) (cwd path : string) : bool :=
  match resolved v cwd path false with Ok (Some _) => true | _ => false end.
Definition vfs_is_dir (v : Vfs) (cwd path : string) : bool :=
  match resolved v cwd path true with Ok n => is_dir_node n | Err _ => false end.
Definition vfs_is_file (v : Vfs) (cwd path : string) : bool :=
  match resolved v cwd path true with
  | Ok (Some (MkNode _ (File _ | NativeExecutable _) _ _ _ _)) => true
  | _ => false
  end.
Definition vfs_is_symlink (v : Vfs) (cwd path : string) : bool :=
  match resolved v cwd path false with
  | Ok (Some (MkNode _ (Symlink _) _ _ _ _)) => true
  | _ => false
  end.

Definition file_len (v : Vfs) (cwd path : string) : result VfsError Z :=
  node ← resolved v cwd path true;
  match nd_kind <$> node with
  | Some (File data) => Ok (zlen data)
  | Some (NativeExecutable _) => Ok 0
  | Some Dir => Err (IsADir path)
  | _ => Err (NotFound path)
  end.

(** ** Reads *)

Definition opaque_native (path : string) : VfsError := Invalid ("opaque native executable: " +:+ path).

Definition vfs_read (v : Vfs) (cwd path : string) : vfs_result bytes :=
  let? node := resolved v cwd path true orelse v in
  match nd_kind <$> node with
  | Some (File data) =>
      (set_read_bytes v (sat_add64 (vf_read_bytes v) (zlen data)), Ok data)
  | Some Dir => (v, Err (IsADir path))
  | Some (NativeExecutable _) => (v, Err (opaque_native path))
  | _ => (v, Err (NotFound path))
  end.

(** [read_shared_limited] and [read_limited], which returns its contents. *)
Definition read_limited (v : Vfs) (cwd path : string) (limit : Z) : vfs_result bytes :=
  let? node := resolved v cwd path true orelse v in
  match nd_kind <$> node with
  | Some (File data) =>
      if limit <? zlen data then (v, Err (TooLarge path limit))
      else (set_read_bytes v (sat_add64 (vf_read_bytes v) (zlen data)), Ok data)
  | Some Dir => (v, Err (IsADir path))
  | Some (NativeExecutable _) => (v, Err (opaque_native path))
  | _ => (v, Err (NotFound path))
  end.

(** [data[start..end]] for [start = min(offset, len)] and [end = min(start + maximum, len)]. *)
Definition clipped (data : bytes) (offset maximum : Z) : bytes :=
  let start := Z.min offset (zlen data) in
  let end_ := Z.min (sat_add64 start maximum) (zlen data) in
  take (Z.to_nat (end_ - start)) (drop (Z.to_nat start) data).

Definition read_range (v : Vfs) (cwd path : string) (offset maximum : Z) : vfs_result bytes :=
  let? node := resolved v cwd path true orelse v in
  match nd_kind <$> node with
  | Some (File data) =>
      let out := clipped data offset maximum in
      (set_read_bytes v (sat_add64 (vf_read_bytes v) (zlen out)), Ok out)
  | Some Dir => (v, Err (IsADir path))
  | Some (NativeExecutable _) => (v, Err (opaque_native path))
  | _ => (v, Err (NotFound path))
  end.

Definition metadata (v : Vfs) (cwd path : string) (follow : bool) : result VfsError Node :=
  node ← resolved v cwd path follow; ok_or node (NotFound path).

(** The prefix of the paths below a directory. *)
Definition dir_prefix (dir : string) : string := if bool_decide (dir = "/") then "/" else dir +:+ "/".

Definition list_dir (v : Vfs) (cwd path : string) : result VfsError (list string) :=
  real ← realpath v (resolve_against cwd path) true;
  match raw_get v real with
  | Some (MkNode _ Dir _ _ _ _) =>
      Ok (merge_sort String.le
            (omap (λ '(key, _),
               match strip_prefix (dir_prefix real) key with
               | Some rest => if negb (bool_decide (rest = "")) && negb (has_slash rest)
                              then Some rest else None
               | None => None
               end) (all_paths v)))
  | Some _ => Err (NotADir path)
  | None => Err (NotFound path)
  end.

Definition walk (v : Vfs) (abs_dir : string) : list string :=
  (filter (λ '(key, _), (bool_decide (key = abs_dir) || starts_with (dir_prefix abs_dir) key) = true)
     (all_paths v)).*1.

Definition read_link (v : Vfs) (cwd path : string) : result VfsError string :=
  node ← resolved v cwd path false;
  match nd_kind <$> node with Some (Symlink target) => Ok target | _ => Err (Invalid path) end.

Definition read_link_prefix (v : Vfs) (cwd path : string) (maximum : Z) : result VfsError bytes :=
  node ← metadata v cwd path false;
  match nd_kind node with
  | Symlink target => Ok (take (Z.to_nat maximum) (String.list_byte_of_string target))
  | _ => Err (Invalid path)
  end.

(** ** Where a mutation lands *)

Definition require_parent_dir (v : Vfs) (abs : string) : result VfsError unit :=
  let parent := default "/" (parent_of abs) in
  real_parent ← realpath v parent true;
  match nd_kind <$> raw_get v real_parent with
  | Some Dir => Ok tt
  | Some _ => Err (NotADir parent)
  | None => Err (NotFound parent)
  end.

Definition write_target (v : Vfs) (cwd path : string) : result VfsError string :=
  let abs := resolve_against cwd path in
  _ ← reject_pseudo_mutation abs;
  _ ← check_path_limits abs;
  let parent := default "/" (parent_of abs) in
  real_parent ← realpath v parent true;
  Ok (child_path real_parent (basename abs)).

(** ** Copies before a mutation

    Contents installed with the machine, or with another owner on the host, are copied before
    they change. [aliased] is [Arc::strong_count(contents) > 1]. *)

Inductive FileMutation := MutWrite | MutResize (size : Z).

Definition cow_copy_bytes (aliased : bool) (n : Node) (installed : bool) (mutation : FileMutation) : Z :=
  match nd_kind n with
  | File content =>
      if negb installed && negb aliased then 0
      else match mutation with
           | MutWrite => zlen content
           | MutResize size => if size =? zlen content then 0 else Z.min size (zlen content)
           end
  | _ => 0
  end.

Definition file_cow_bytes (v : Vfs) (aliased : bool) (cwd path : string) (mutation : FileMutation)
    : result VfsError Z :=
  target ← write_target v cwd path;
  Ok match raw_get v target with
     | None => 0
     | Some node => cow_copy_bytes aliased node (bool_decide (vf_overlay v !! target = None)) mutation
     end.

(** ** Writes *)

(** The tail of [write] and [append]: replace the contents of a file, or put a new file over
    whatever else is there. *)
Definition put_content (v : Vfs) (target : string) (content : bytes → bytes) (data : bytes)
    (mode used : Z) : vfs_result unit :=
  let '(v, borrowed) := node_mut v target in
  match borrowed with
  | Some (MkNode inode (File d) m uid gid _) =>
      (record_usage (store_node v target (MkNode inode (File (content d)) m uid gid (vf_mutation_time v)))
         used, Ok tt)
  | _ =>
      let '(v, inode) := allocate_inode v in
      let? inode := inode orelse v in
      (record_usage (insert_node v target (node_file inode data mode (vf_mutation_time v))) used, Ok tt)
  end.

Definition vfs_write (v : Vfs) (cwd path : string) (data : bytes) (mode : Z) : vfs_result unit :=
  let? target := write_target v cwd path orelse v in
  let? _u := require_parent_dir v target orelse v in
  if is_dir_node (raw_get v target) then (v, Err (IsADir path))
  else
    let replacement_usage := sat_add64 NODE_OVERHEAD (zlen data) in
    let? used := projected_usage_after_replacement v target replacement_usage orelse v in
    put_content v target (λ _, data) data mode used.

Definition vfs_append (v : Vfs) (cwd path : string) (data : bytes) (mode : Z) : vfs_result unit :=
  let? target := write_target v cwd path orelse v in
  let? _u := require_parent_dir v target orelse v in
  let? added :=
    match raw_get v target with
    | None => Ok (sat_add64 NODE_OVERHEAD (zlen data))
    | Some existing =>
        match nd_kind existing with
        | File _ => Ok (zlen data)
        | Dir => Err (IsADir path)
        | _ => Ok (sat_sub (sat_add64 NODE_OVERHEAD (zlen data)) (node_usage v target existing))
        end
    end orelse v in
  let? used := usage_after_adding v added orelse v in
  put_content v target (λ d, d ++ data) data mode used.

(** [Vec::resize] with zeroes, and the copy into [offset..offset + data.len()]. *)
Definition resize_vec (content : bytes) (size : Z) : bytes :=
  take (Z.to_nat size) content ++ replicate (Z.to_nat size - length content) Byte.x00.
Definition overwrite (content : bytes) (offset : Z) (data : bytes) : bytes :=
  take (Z.to_nat offset) content ++ data ++ drop (Z.to_nat offset + length data) content.
Definition write_content (content : bytes) (offset : Z) (data : bytes) : bytes :=
  let end_ := offset + zlen data in
  let content := if zlen content <? end_ then resize_vec content end_ else content in
  overwrite content offset data.

Definition write_at (v : Vfs) (cwd path : string) (offset : Z) (data : bytes) : run (vfs_result unit) :=
  match write_target v cwd path with
  | Err e => Ret (v, Err e)
  | Ok target =>
      match checked_add64 offset (zlen data) with
      | None => Ret (v, Err (Invalid path))
      | Some end_ =>
          match nd_kind <$> raw_get v target with
          | Some (File content) =>
              match usage_after_adding v (sat_sub end_ (zlen content)) with
              | Err e => Ret (v, Err e)
              | Ok used =>
                  let '(v, borrowed) := node_mut v target in
                  node ← expect borrowed;
                  match nd_kind node with
                  | File content =>
                      let node := with_kind node (File (write_content content offset data)) in
                      Ret (record_usage (store_node v target (with_mtime node (vf_mutation_time v))) used, Ok tt)
                  | _ => Panic
                  end
              end
          | Some Dir => Ret (v, Err (IsADir path))
          | Some _ => Ret (v, Err (Invalid path))
          | None => Ret (v, Err (NotFound path))
          end
      end
  end.

(** The usage after a resize: growth is checked against the limit, shrinkage given back. *)
Definition usage_after_resize (v : Vfs) (old_size size : Z) : result VfsError Z :=
  used ← usage_after_adding v (sat_sub size old_size);
  Ok (sat_sub used (sat_sub old_size size)).

Definition resize_file (v : Vfs) (cwd path : string) (size : Z) : run (vfs_result unit) :=
  match write_target v cwd path with
  | Err e => Ret (v, Err e)
  | Ok target =>
      match file_len v "/" target with
      | Err e => Ret (v, Err e)
      | Ok old_size =>
          match usage_after_resize v old_size size with
          | Err e => Ret (v, Err e)
          | Ok used =>
              let '(v, borrowed) := node_mut v target in
              node ← expect borrowed;
              match nd_kind node with
              | File content =>
                  let node := with_kind node (File (resize_vec content size)) in
                  Ret (record_usage (store_node v target (with_mtime node (vf_mutation_time v))) used, Ok tt)
              | _ => Panic
              end
          end
      end
  end.

(** ** Directories *)

Definition vfs_mkdir (v : Vfs) (cwd path : string) : vfs_result unit :=
  let? target := write_target v cwd path orelse v in
  if contains_node v target then (v, Err (Exists_ path))
  else
    let? _u := require_parent_dir v target orelse v in
    let '(v, inode) := allocate_inode v in
    let? inode := inode orelse v in
    let node := node_dir inode 493 (vf_mutation_time v) in
    let? used := usage_after_adding v (node_usage v target node) orelse v in
    (record_usage (insert_node v target node) used, Ok tt).

(** The loop of [missing_directories] over the components, with the additions so far (the source
    keeps them both as the set [planned] and as a list in order). *)
Fixpoint missing_loop (v : Vfs) (comps : list string) (additions : list string) (current : string)
    : result VfsError (list string) :=
  match comps with
  | [] => Ok additions
  | component :: comps =>
      let next := child_path current component in
      let real := match realpath v next true with Ok real => real | Err _ => next end in
      match raw_get v real with
      | Some (MkNode _ Dir _ _ _ _) => missing_loop v comps additions real
      | Some _ => Err (NotADir real)
      | None =>
          if bool_decide (real ∈ additions) then missing_loop v comps additions real
          else missing_loop v comps (additions ++ [real]) real
      end
  end.

Definition missing_directories (v : Vfs) (abs : string) : result VfsError (list string) :=
  missing_loop v (filter (λ c, c ≠ "") (split_slash abs)) [] "/".

Definition directory_addition_usage (v : Vfs) (additions : list string) : Z :=
  sat_total (λ _, NODE_OVERHEAD) (filter (λ path, path ∉ vf_baseline_dirs v) additions).

Fixpoint insert_each_directory (v : Vfs) (additions : list string) : vfs_result unit :=
  match additions with
  | [] => (v, Ok tt)
  | path :: additions =>
      let '(v, inode) := allocate_inode v in
      let? inode := inode orelse v in
      insert_each_directory (insert_node v path (node_dir inode 493 (vf_mutation_time v))) additions
  end.

Definition insert_directories (v : Vfs) (additions : list string) : vfs_result unit :=
  let? _u := check_inode_capacity v (zlen additions) orelse v in
  insert_each_directory v additions.

Definition mkdir_all (v : Vfs) (cwd path : string) : vfs_result unit :=
  let abs := resolve_against cwd path in
  let? _a := reject_pseudo_mutation abs orelse v in
  let? _b := check_path_limits abs orelse v in
  let? additions := missing_directories v abs orelse v in
  let used := sat_add64 (vf_disk_used v) (directory_addition_usage v additions) in
  if vf_disk_limit v <? used then (v, Err NoSpace)
  else
    let '(v, inserted) := insert_directories v additions in
    let? _c := inserted orelse v in
    (record_usage v used, Ok tt).

(** ** Removal and unlinked files *)

Definition remove_file (v : Vfs) (cwd path : string) : vfs_result unit :=
  let abs := resolve_against cwd path in
  let? _u := reject_pseudo_mutation abs orelse v in
  let? real := realpath v abs false orelse v in
  match nd_kind <$> raw_get v real with
  | Some Dir => (v, Err (IsADir path))
  | Some _ => (refresh_usage (remove_node v real).1, Ok tt)
  | None => (v, Err (NotFound path))
  end.

Definition unlink_open_file (v : Vfs) (cwd path : string) : run (vfs_result Z) :=
  let abs := resolve_against cwd path in
  match reject_pseudo_mutation abs with
  | Err e => Ret (v, Err e)
  | Ok _ =>
      match realpath v abs false with
      | Err e => Ret (v, Err e)
      | Ok real =>
          match nd_kind <$> raw_get v real with
          | Some (File _) =>
              let id := vf_next_orphan v in
              match checked_add64 id 1 with
              | None => Ret (v, Err NoSpace)
              | Some next =>
                  let '(v, removed) := remove_node (set_orphaned v (vf_orphaned v) next) real in
                  node ← expect removed;
                  Ret (refresh_usage (set_orphaned v (<[id := node]> (vf_orphaned v)) (vf_next_orphan v)),
                       Ok id)
              end
          | _ => Ret (v, Err (NotFound path))
          end
      end
  end.

(** The error for an identity that names no unlinked file. *)
Definition orphan_missing (id : Z) : VfsError := NotFound ("unlinked file " +:+ pretty id).

Definition orphan_metadata (v : Vfs) (id : Z) : result VfsError Node :=
  match vf_orphaned v !! id with Some node => Ok node | None => Err (orphan_missing id) end.

Definition orphan_cow_bytes (v : Vfs) (aliased : bool) (id : Z) (mutation : FileMutation) : result VfsError Z :=
  node ← orphan_metadata v id; Ok (cow_copy_bytes aliased node false mutation).

Definition orphan_len (v : Vfs) (id : Z) : run (result VfsError Z) :=
  match nd_kind <$> vf_orphaned v !! id with
  | None => Ret (Err (orphan_missing id))
  | Some (File content) => Ret (Ok (zlen content))
  | Some _ => Panic
  end.

Definition read_orphan_range (v : Vfs) (id offset maximum : Z) : run (vfs_result bytes) :=
  match nd_kind <$> vf_orphaned v !! id with
  | None => Ret (v, Err (orphan_missing id))
  | Some (File content) =>
      let out := clipped content offset maximum in
      Ret (set_read_bytes v (sat_add64 (vf_read_bytes v) (zlen out)), Ok out)
  | Some _ => Panic
  end.

Definition store_orphan (v : Vfs) (id : Z) (node : Node) : Vfs :=
  set_orphaned v (<[id := with_mtime node (vf_mutation_time v)]> (vf_orphaned v)) (vf_next_orphan v).

Definition write_orphan_at (v : Vfs) (id offset : Z) (data : bytes) : run (vfs_result unit) :=
  match checked_add64 offset (zlen data) with
  | None => Ret (v, Err NoSpace)
  | Some end_ =>
      match vf_orphaned v !! id with
      | None => Ret (v, Err (orphan_missing id))
      | Some node =>
          match nd_kind node with
          | File content =>
              let growth := sat_sub end_ (zlen content) in
              if vf_disk_limit v <? sat_add64 (vf_disk_used v) growth then Ret (v, Err NoSpace)
              else
                let v := store_orphan v id (with_kind node (File (write_content content offset data))) in
                Ret (record_usage v (sat_add64 (vf_disk_used v) growth), Ok tt)
          | _ => Panic
          end
      end
  end.

Definition resize_orphan (v : Vfs) (id size : Z) : run (vfs_result unit) :=
  match vf_orphaned v !! id with
  | None => Ret (v, Err (orphan_missing id))
  | Some node =>
      match nd_kind node with
      | File content =>
          match usage_after_resize v (zlen content) size with
          | Err e => Ret (v, Err e)
          | Ok used =>
              Ret (record_usage (store_orphan v id (with_kind node (File (resize_vec content size)))) used,
                   Ok tt)
          end
      | _ => Panic
      end
  end.

Definition retain_orphans (v : Vfs) (live : gset Z) : Vfs :=
  let freed :=
    sat_total (λ '(id, node), if bool_decide (id ∈ live) then 0
                              else sat_add64 NODE_OVERHEAD (node_payload_len node))
      (btree_iter (vf_orphaned v)) in
  let v := set_orphaned v (filter (λ '(id, _), id ∈ live) (vf_orphaned v)) (vf_next_orphan v) in
  if 0 <? freed then record_usage v (sat_sub (vf_disk_used v) freed) else v.

Definition remove_all (v : Vfs) (cwd path : string) : vfs_result unit :=
  let abs := resolve_against cwd path in
  let? _u := reject_pseudo_mutation abs orelse v in
  let? real := realpath v abs false orelse v in
  if negb (contains_node v real) then (v, Err (NotFound path))
  else (refresh_usage (foldl (λ v k, (remove_node v k).1) v (walk v real)), Ok tt).

Definition vfs_rmdir (v : Vfs) (cwd path : string) : vfs_result unit :=
  let abs := resolve_against cwd path in
  let? _u := reject_pseudo_mutation abs orelse v in
  let? real := realpath v abs true orelse v in
  match nd_kind <$> raw_get v real with
  | Some Dir =>
      let? entries := list_dir v cwd path orelse v in
      match entries with
      | [] => (refresh_usage (remove_node v real).1, Ok tt)
      | _ => (v, Err (NotEmpty path))
      end
  | Some _ => (v, Err (NotADir path))
  | None => (v, Err (NotFound path))
  end.

(** ** Renames and copies *)

(** Moving onto an existing directory goes below it. *)
Definition into_directory (v : Vfs) (to_target from_real : string) : string :=
  if is_dir_node (raw_get v to_target) then child_path to_target (basename from_real) else to_target.

(** [format!("{to_target}{}", &k[from_real.len()..])]. *)
Definition moved_path (from_real to_target k : string) : string :=
  to_target +:+ str_drop (String.length from_real) k.

Fixpoint rename_delta (v : Vfs) (from_real to_target : string) (subtree todo : list string) (delta : Z)
    : run (result VfsError Z) :=
  match todo with
  | [] => Ret (Ok delta)
  | k :: todo =>
      node ← expect (raw_get v k);
      let newk := moved_path from_real to_target k in
      match check_path_limits newk with
      | Err e => Ret (Err e)
      | Ok _ =>
          let delta := delta + node_usage v newk node - node_usage v k node in
          let delta :=
            match raw_get v newk with
            | Some replaced =>
                if bool_decide (newk ∈ subtree) then delta else delta - node_usage v newk replaced
            | None => delta
            end in
          rename_delta v from_real to_target subtree todo delta
      end
  end.

Fixpoint move_each (v : Vfs) (from_real to_target : string) (subtree : list string) : run Vfs :=
  match subtree with
  | [] => Ret v
  | k :: subtree =>
      let '(v, removed) := remove_node v k in
      node ← expect removed;
      move_each (insert_node v (moved_path from_real to_target k) node) from_real to_target subtree
  end.

Definition vfs_rename (v : Vfs) (cwd from to : string) : run (vfs_result unit) :=
  let from_abs := resolve_against cwd from in
  match reject_pseudo_mutation from_abs ≫= λ _, realpath v from_abs false with
  | Err e => Ret (v, Err e)
  | Ok from_real =>
      if negb (contains_node v from_real) then Ret (v, Err (NotFound from))
      else
        match write_target v cwd to with
        | Err e => Ret (v, Err e)
        | Ok to_target =>
            let to_target := into_directory v to_target from_real in
            let subtree := walk v from_real in
            delta ← rename_delta v from_real to_target subtree subtree 0;
            match delta ≫= usage_after_delta v with
            | Err e => Ret (v, Err e)
            | Ok used =>
                v ← move_each v from_real to_target subtree;
                Ret (record_usage v used, Ok tt)
            end
        end
  end.

Definition copy_file (v : Vfs) (cwd from to : string) : run (vfs_result unit) :=
  match reject_pseudo_mutation (resolve_against cwd to) ≫= λ _, metadata v cwd from true with
  | Err e => Ret (v, Err e)
  | Ok source =>
      match nd_kind source with
      | NativeExecutable program =>
          Ret (let? target := write_target v cwd to orelse v in
               let? _u := require_parent_dir v target orelse v in
               let '(v, inode) := allocate_inode v in
               let? inode := inode orelse v in
               let node := MkNode inode (NativeExecutable program) (nd_mode source) (nd_uid source)
                             (nd_gid source) (vf_mutation_time v) in
               let? used :=
                 projected_usage_after_replacement v target (node_usage v target node) orelse v in
               (record_usage (insert_node v target node) used, Ok tt))
      | File data =>
          Ret (let? target := write_target v cwd to orelse v in
               let? _u := require_parent_dir v target orelse v in
               if is_dir_node (raw_get v target) then (v, Err (IsADir to))
               else
                 let? used :=
                   projected_usage_after_replacement v target (sat_add64 NODE_OVERHEAD (zlen data))
                   orelse v in
                 let v := set_read_bytes v (sat_add64 (vf_read_bytes v) (zlen data)) in
                 put_content v target (λ _, data) data (nd_mode source) used)
      | _ =>
          match vfs_read v cwd from with
          | (v, Err e) => Ret (v, Err e)
          | (_, Ok _) => Panic
          end
      end
  end.

Definition vfs_symlink (v : Vfs) (cwd target linkpath : string) : vfs_result unit :=
  let? link_target := write_target v cwd linkpath orelse v in
  if contains_node v link_target then (v, Err (Exists_ linkpath))
  else
    let? _u := require_parent_dir v link_target orelse v in
    let '(v, inode) := allocate_inode v in
    let? inode := inode orelse v in
    let node := MkNode inode (Symlink target) 511 0 0 (vf_mutation_time v) in
    let? used := usage_after_adding v (node_usage v link_target node) orelse v in
    (record_usage (insert_node v link_target node) used, Ok tt).

Definition vfs_touch (v : Vfs) (cwd path : string) (mtime : Z) : vfs_result unit :=
  let? target := write_target v cwd path orelse v in
  match node_mut v target with
  | (v, Some node) => (store_node v target (with_mtime node mtime), Ok tt)
  | (v, None) =>
      let? _u := require_parent_dir v target orelse v in
      let '(v, inode) := allocate_inode v in
      let? inode := inode orelse v in
      let node := node_file inode [] 420 mtime in
      let? used := usage_after_adding v (node_usage v target node) orelse v in
      (record_usage (insert_node v target node) used, Ok tt)
  end.

Definition vfs_chmod (v : Vfs) (cwd path : string) (mode : Z) : vfs_result unit :=
  let abs := resolve_against cwd path in
  let? _u := reject_pseudo_mutation abs orelse v in
  let? real := realpath v abs true orelse v in
  match node_mut v real with
  | (v, Some node) => (store_node v real (with_mode node (Z.land mode 4095)), Ok tt)
  | (v, None) => (v, Err (NotFound path))
  end.

Definition vfs_chown (v : Vfs) (cwd path : string) (uid gid : option Z) : vfs_result unit :=
  let abs := resolve_against cwd path in
  let? _u := reject_pseudo_mutation abs orelse v in
  let? real := realpath v abs true orelse v in
  match node_mut v real with
  | (v, Some n) =>
      (store_node v real (MkNode (nd_inode n) (nd_kind n) (nd_mode n) (default (nd_uid n) uid)
                            (default (nd_gid n) gid) (nd_mtime n)), Ok tt)
  | (v, None) => (v, Err (NotFound path))
  end.

Definition set_mtime (v : Vfs) (abs_real : string) (mtime : Z) : Vfs :=
  match node_mut v abs_real with
  | (v, Some node) => store_node v abs_real (with_mtime node mtime)
  | (v, None) => v
  end.

(** The copy loops of [copy_recursive]. *)
Fixpoint copy_delta (v : Vfs) (from_real to_target : string) (todo : list string) (delta : Z)
    : run (result VfsError Z) :=
  match todo with
  | [] => Ret (Ok delta)
  | k :: todo =>
      node ← expect (raw_get v k);
      let newk := moved_path from_real to_target k in
      match check_path_limits newk with
      | Err e => Ret (Err e)
      | Ok _ =>
          let replaced := match raw_get v newk with Some r => node_usage v newk r | None => 0 end in
          copy_delta v from_real to_target todo (delta + node_usage v newk node - replaced)
      end
  end.

Fixpoint copy_each (v : Vfs) (from_real to_target : string) (preserve : bool) (subtree : list string)
    : run (vfs_result unit) :=
  match subtree with
  | [] => Ret (v, Ok tt)
  | k :: subtree =>
      node ← expect (raw_get v k);
      match allocate_inode v with
      | (v, Err e) => Ret (v, Err e)
      | (v, Ok inode) =>
          let node := MkNode inode (nd_kind node) (nd_mode node) (nd_uid node) (nd_gid node)
                        (if preserve then nd_mtime node else vf_mutation_time v) in
          copy_each (insert_node v (moved_path from_real to_target k) node) from_real to_target
            preserve subtree
      end
  end.

Definition copy_recursive (v : Vfs) (cwd from to : string) (preserve : bool) : run (vfs_result unit) :=
  match realpath v (resolve_against cwd from) true with
  | Err e => Ret (v, Err e)
  | Ok from_real =>
      if negb (vfs_is_dir v cwd from) then
        '(v, copied) ← copy_file v cwd from to;
        match copied with
        | Err e => Ret (v, Err e)
        | Ok _ =>
            if preserve then
              Ret (let? source := metadata v cwd from true orelse v in
                   let '(v, r) := vfs_chmod v cwd to (nd_mode source) in
                   let? _u := r orelse v in
                   vfs_touch v cwd to (nd_mtime source))
            else Ret (v, Ok tt)
        end
      else
        match write_target v cwd to with
        | Err e => Ret (v, Err e)
        | Ok to_target =>
            let to_target := into_directory v to_target from_real in
            let subtree := walk v from_real in
            delta ← copy_delta v from_real to_target subtree 0;
            match (used ← delta ≫= usage_after_delta v; _ ← check_inode_capacity v (zlen subtree); Ok used) with
            | Err e => Ret (v, Err e)
            | Ok used =>
                '(v, copied) ← copy_each v from_real to_target preserve subtree;
                match copied with
                | Err e => Ret (v, Err e)
                | Ok _ => Ret (record_usage v used, Ok tt)
                end
            end
        end
  end.

(** ** Loading an image *)

Definition put_file (v : Vfs) (abs : string) (data : bytes) (mode : Z) : vfs_result unit :=
  let norm := normalize abs in
  let? _a := reject_pseudo_mutation norm orelse v in
  let? _b := check_path_limits norm orelse v in
  if is_dir_node (raw_get v norm) then (v, Err (IsADir norm))
  else
    let? additions :=
      match parent_of norm with Some parent => missing_directories v parent | None => Ok [] end orelse v in
    let previous := match raw_get v norm with Some n => node_usage v norm n | None => 0 end in
    let file_usage := sat_add64 NODE_OVERHEAD (zlen data) in
    let used :=
      sat_add64 (sat_add64 (sat_sub (vf_disk_used v) previous) (directory_addition_usage v additions))
        file_usage in
    if vf_disk_limit v <? used then (v, Err NoSpace)
    else
      let? _c := check_inode_capacity v (sat_add64 (zlen additions) 1) orelse v in
      let '(v, inserted) := insert_directories v additions in
      let? _d := inserted orelse v in
      let '(v, inode) := allocate_inode v in
      let? inode := inode orelse v in
      (record_usage (insert_node v norm (node_file inode data mode (vf_mutation_time v))) used, Ok tt).

Definition put_dir (v : Vfs) (abs : string) (mode : Z) : vfs_result unit :=
  let norm := normalize abs in
  let? _a := reject_pseudo_mutation norm orelse v in
  let '(v, made) := mkdir_all v "/" norm in
  let? _b := made orelse v in
  match node_mut v norm with
  | (v, Some node) => (store_node v norm (with_mode node mode), Ok tt)
  | (v, None) => (v, Ok tt)
  end.

Fixpoint seed_each (v : Vfs) (paths : list string) : run Vfs :=
  match paths with
  | [] => Ret v
  | path :: paths =>
      let path := normalize path in
      match allocate_inode v with
      | (_, Err _) => Panic
      | (v, Ok inode) =>
          let v := insert_node v path (node_dir inode 493 (vf_mutation_time v)) in
          seed_each (set_baseline v ({[path]} ∪ vf_baseline_dirs v) (vf_baseline_native v)) paths
      end
  end.

Definition seed_dirs (v : Vfs) (paths : list string) : run Vfs :=
  v ← seed_each v paths;
  let v := refresh_usage v in
  Ret (set_usage v (vf_disk_used v) (Z.max (vf_disk_peak v) (vf_disk_used v))).

Definition seed_native_executable (v : Vfs) (abs : string) (program : NativeProgram) : run Vfs :=
  let norm := normalize abs in
  match allocate_inode v with
  | (_, Err _) => Panic
  | (v, Ok inode) =>
      let v := insert_node v norm
                 (MkNode inode (NativeExecutable program) 493 0 0 (vf_mutation_time v)) in
      Ret (refresh_usage (set_baseline v (vf_baseline_dirs v) (<[norm := program]> (vf_baseline_native v))))
  end.
