(* ===== verification/VfsTree.v ===== *)
(** * The two-layer tree of the filesystem

    The tree a [Vfs] shows: installed nodes under the overlay. The theorems show that the merged
    iteration [all_paths] visits exactly the visible nodes in path order, and how path resolution
    depends on the tree. *)

From S2P Require Import Prelude.
From S2P Require Import RustStr.
From S2P Require Import Paths.
From S2P Require Import Vfs.

(** ** The visible tree *)

Definition see (installed : option Node) (entry : option OverlayEntry) : option Node :=
  match entry with
  | Some (Present node) => Some node
  | Some Deleted => None
  | None => installed
  end.

Definition visible (v : Vfs) : gmap string Node := merge see (fz_nodes (vf_base v)) (vf_overlay v).

Lemma visible_lookup v path : visible v !! path = raw_get v path.
Proof.
  unfold visible, raw_get, see. rewrite lookup_merge.
  destruct (fz_nodes (vf_base v) !! path), (vf_overlay v !! path) as [[]|]; done.
Qed.

(** ** Merging sorted layers *)

Definition below (a b : string) : Prop := String.le a b ∧ a ≠ b.

#[local] Instance below_trans : Transitive below.
Proof.
  intros a b c [Hab Hne] [Hbc _]. split; [by etrans|]. intros ->. apply Hne.
  by apply (anti_symm String.le).
Qed.

Lemma below_total a b : a ≠ b → ¬ String.le a b → below b a.
Proof. intros Hne Hn. split; [|done]. by destruct (total String.le a b). Qed.

Lemma btree_keys_below {V} (m : gmap string V) : StronglySorted below (btree_iter m).*1.
Proof.
  pose proof (btree_iter_sorted m) as Hs. pose proof (btree_keys_NoDup m) as Hnd.
  unfold btree_keys in Hnd. induction Hs as [|[k x] l Hs IH Hall]; simpl; [constructor|].
  simpl in Hnd. apply NoDup_cons in Hnd as [Hn Hnd]. constructor; [by apply IH|].
  apply Forall_forall. intros k' Hk'. split.
  - apply list_elem_of_fmap in Hk' as ([k2 y] & -> & Hin).
    exact (proj1 (Forall_forall _ _) Hall _ Hin).
  - by intros ->.
Qed.

Lemma merge_layers_cons bp n base op e over :
  merge_layers ((bp, n) :: base) ((op, e) :: over) =
    if bool_decide (bp = op) then overlay_yield op e (merge_layers base over)
    else if bool_decide (String.le bp op) then (bp, n) :: merge_layers base ((op, e) :: over)
    else overlay_yield op e (merge_layers ((bp, n) :: base) over).
Proof. reflexivity. Qed.

Lemma overlay_yield_elem path e rest k n :
  (k, n) ∈ overlay_yield path e rest ↔ (k = path ∧ e = Present n) ∨ (k, n) ∈ rest.
Proof.
  destruct e; simpl; rewrite ?elem_of_cons, ?pair_equal_spec; intuition congruence.
Qed.

(** What the merge yields, for strictly sorted layers. *)
Definition merged (base : list (string * Node)) (over : list (string * OverlayEntry)) (k : string) (n : Node)
    : Prop :=
  (k, Present n) ∈ over ∨ ((k, n) ∈ base ∧ k ∉ over.*1).

Lemma not_in_above (k : string) (l : list string) : Forall (below k) l → k ∉ l.
Proof. intros Hl Hin. by destruct (proj1 (Forall_forall _ _) Hl _ Hin). Qed.

Lemma key_in {A} (k : string) (x : A) l : (k, x) ∈ l → k ∈ l.*1.
Proof. intros Hin. apply list_elem_of_fmap. by exists (k, x). Qed.

Lemma merge_layers_elem base over k n :
  StronglySorted below base.*1 → StronglySorted below over.*1 →
  (k, n) ∈ merge_layers base over ↔ merged base over k n.
Proof.
  unfold merged. revert over. induction base as [|[bp bn] base IHb]; intros over Hb Ho.
  { induction over as [|[op e] over IHo]; simpl.
    - rewrite !elem_of_nil. tauto.
    - apply StronglySorted_inv in Ho as [Ho _]. rewrite overlay_yield_elem, (IHo Ho), elem_of_cons, !elem_of_nil,
        pair_equal_spec. intuition congruence. }
  induction over as [|[op e] over IHo].
  { simpl. rewrite !elem_of_nil. tauto. }
  pose proof Hb as Hb0. pose proof Ho as Ho0. simpl in Hb, Ho.
  apply StronglySorted_inv in Hb as [Hb Hbp], Ho as [Ho Hop].
  rewrite merge_layers_cons. simpl (fst <$> _). rewrite not_elem_of_cons, !elem_of_cons.
  case_bool_decide as Heq; [|case_bool_decide as Hle].
  - subst op. rewrite overlay_yield_elem, IHb by done. pose proof (not_in_above _ _ Hbp) as Hn.
    split.
    + intros [[-> ->]|[Hin|[Hin Hno]]]; [auto|auto|]. right. split; [auto|].
      split; [|done]. intros ->. apply Hn. by eapply key_in.
    + rewrite !pair_equal_spec. intros [[[-> <-]|?]|[[[-> ->]|?] [? ?]]]; auto; done.
  - rewrite elem_of_cons, IHb by done. simpl. rewrite not_elem_of_cons, elem_of_cons.
    assert (Hbel : below bp op) by done.
    assert (Hnew : bp ∉ over.*1).
    { apply not_in_above. apply Forall_forall. intros x Hx.
      etrans; [exact Hbel|]. exact (proj1 (Forall_forall _ _) Hop _ Hx). }
    split.
    + intros [[= -> ->]|[Hin|[Hin Hno]]]; [right; auto|auto|right; auto].
    + intros [Hin|[[[= -> ->]|Hin] Hno]]; auto.
  - rewrite overlay_yield_elem, IHo by done. rewrite elem_of_cons.
    pose proof (below_total _ _ Heq Hle) as Hbel.
    assert (Hnew : op ∉ base.*1).
    { apply not_in_above. apply Forall_forall. intros x Hx.
      etrans; [exact Hbel|]. exact (proj1 (Forall_forall _ _) Hbp _ Hx). }
    split.
    + intros [[-> ->]|[Hin|[Hin Hno]]]; [auto|auto|]. right. split; [done|]. split; [|done].
      intros ->. destruct Hin as [[= -> ->]|Hin]; [done|]. apply Hnew. by eapply key_in.
    + intros [[[= -> ->]|Hin]|[Hin [Hne Hno]]]; auto.
Qed.

Lemma merge_layers_sorted base over :
  StronglySorted below base.*1 → StronglySorted below over.*1 →
  StronglySorted below (merge_layers base over).*1.
Proof.
  assert (Hbound : ∀ x base over, StronglySorted below base.*1 → StronglySorted below over.*1 →
    Forall (below x) base.*1 → Forall (below x) over.*1 → Forall (below x) (merge_layers base over).*1).
  { intros x b o Hb Ho Hxb Hxo. apply Forall_forall. intros k Hk.
    apply list_elem_of_fmap in Hk as ([k' n] & -> & Hin). simpl.
    apply merge_layers_elem in Hin as [Hin|[Hin _]]; [|..|done|done]; apply key_in in Hin.
    - exact (proj1 (Forall_forall _ _) Hxo _ Hin).
    - exact (proj1 (Forall_forall _ _) Hxb _ Hin). }
  assert (Hyield : ∀ op e l, StronglySorted below l.*1 → Forall (below op) l.*1 →
    StronglySorted below (overlay_yield op e l).*1) by (intros op [] l ? ?; [by constructor|done]).
  assert (Hup : ∀ x y l, below x y → Forall (below y) l → Forall (below x) l).
  { intros x y l Hxy Hl. eapply Forall_impl; [exact Hl|]. intros z Hz. by etrans. }
  revert over. induction base as [|[bp bn] base IHb]; intros over Hb Ho.
  { induction over as [|[op e] over IHo]; [constructor|]. simpl in Ho.
    pose proof Ho as Ho0. apply StronglySorted_inv in Ho as [Ho Hop]. simpl.
    apply Hyield; [by apply IHo|]. apply (Hbound op [] over); [constructor|done|constructor|done]. }
  induction over as [|[op e] over IHo]; [done|].
  pose proof Hb as Hb0. pose proof Ho as Ho0. simpl in Hb, Ho.
  apply StronglySorted_inv in Hb as [Hb Hbp], Ho as [Ho Hop].
  rewrite merge_layers_cons. case_bool_decide as Heq; [|case_bool_decide as Hle].
  - subst op. apply Hyield; [by apply IHb|]. by apply Hbound.
  - assert (Hbel : below bp op) by done. simpl. constructor; [by apply IHb|].
    apply Hbound; [done|done|done|]. simpl. constructor; [done|]. by apply (Hup bp op).
  - pose proof (below_total _ _ Heq Hle) as Hbel. apply Hyield; [by apply IHo|].
    apply Hbound; [done..| |done]. simpl. constructor; [done|]. by apply (Hup op bp).
Qed.

Lemma below_sorted_entries (l : list (string * Node)) :
  StronglySorted below l.*1 → StronglySorted entry_le l ∧ NoDup l.
Proof.
  induction l as [|[k n] l IH]; simpl; [by repeat constructor|].
  intros [Hs Hall]%StronglySorted_inv. destruct (IH Hs) as [Hs' Hnd]. split.
  - constructor; [done|]. apply Forall_forall. intros [k' n'] Hin. unfold entry_le. simpl.
    exact (proj1 (proj1 (Forall_forall _ _) Hall _ (key_in _ _ _ Hin))).
  - constructor; [|done]. intros Hin%key_in. by apply (not_in_above _ _ Hall).
Qed.

Lemma elem_of_all_paths v path node : (path, node) ∈ all_paths v ↔ raw_get v path = Some node.
Proof.
  assert (Hb := btree_keys_below (fz_nodes (vf_base v))).
  assert (Ho := btree_keys_below (vf_overlay v)).
  unfold all_paths. rewrite merge_layers_elem by done. unfold merged, raw_get.
  rewrite !elem_of_btree_iter. change ((btree_iter (vf_overlay v)).*1) with (btree_keys (vf_overlay v)).
  rewrite elem_of_btree_keys. destruct (vf_overlay v !! path) as [[]|] eqn:Hov.
  - split; [|intros [= ->]; by left]. intros [[= ->]|[_ Hn]]; [done|]. destruct Hn. by eexists.
  - split; [|done]. intros [?|[_ Hn]]; [done|]. destruct Hn. by eexists.
  - split; [by intros [?|[? _]]|]. intros ?. right. split; [done|]. by intros [? ?].
Qed.

Lemma all_paths_iter v : all_paths v = btree_iter (visible v).
Proof.
  pose proof (merge_layers_sorted _ _ (btree_keys_below (fz_nodes (vf_base v)))
    (btree_keys_below (vf_overlay v))) as Hs.
  destruct (below_sorted_entries _ Hs) as [Hs' Hnd].
  apply btree_iter_unique; [exact Hs'|exact Hnd|].
  intros path node. rewrite visible_lookup. apply elem_of_all_paths.
Qed.

(** C27: [all_paths] visits exactly the visible nodes, each once, in path order: the streaming merge
    of the installed tree and the overlay is the sorted iteration of the tree that lookups show. *)
Theorem all_paths_visible v :
  all_paths v = btree_iter (visible v) ∧
  ∀ path node, (path, node) ∈ all_paths v ↔ raw_get v path = Some node.
Proof. split; [apply all_paths_iter|]. intros. apply elem_of_all_paths. Qed.

(** ** Path resolution *)

Definition symlink_at (v : Vfs) (path : string) : option string :=
  match raw_get v path with
  | Some (MkNode _ (Symlink target) _ _ _ _) => Some target
  | _ => None
  end.

(** One level of [realpath_inner], in terms of the links alone. *)
Lemma realpath_inner_S v fuel abs follow :
  realpath_inner v (S fuel) abs follow =
    if bool_decide (abs = "/") then Ok "/"
    else
      match realpath_inner v fuel (default "/" (parent_of abs)) true with
      | Err e => Err e
      | Ok real_parent =>
          let candidate := child_path real_parent (basename abs) in
          match symlink_at v candidate with
          | Some target =>
              if follow then realpath_inner v fuel (resolve_against real_parent target) true
              else Ok candidate
          | None => Ok candidate
          end
      end.
Proof.
  cbn [realpath_inner]. case_bool_decide; [done|]. destruct (realpath_inner v fuel _ true); [|done].
  unfold symlink_at. destruct (raw_get v _) as [[? [] ? ? ? ?]|]; done.
Qed.

(** Resolution depends only on where the links are and what they say. *)
Lemma realpath_inner_ext v v' fuel abs follow :
  (∀ p, symlink_at v' p = symlink_at v p) →
  realpath_inner v' fuel abs follow = realpath_inner v fuel abs follow.
Proof.
  intros Heq. revert abs follow. induction fuel as [|fuel IH]; intros abs follow; [done|].
  rewrite !realpath_inner_S, IH. case_bool_decide; [done|].
  destruct (realpath_inner v fuel _ true); [|done]. cbv zeta. rewrite Heq.
  destruct (symlink_at v _); [|done]. destruct follow; [apply IH|done].
Qed.

(** More fuel never changes a resolution that succeeded. *)
Lemma realpath_inner_more v fuel abs follow r :
  realpath_inner v fuel abs follow = Ok r → realpath_inner v (S fuel) abs follow = Ok r.
Proof.
  revert abs follow r. induction fuel as [|fuel IH]; intros abs follow r; [done|].
  rewrite realpath_inner_S, (realpath_inner_S v (S fuel)). case_bool_decide; [done|].
  destruct (realpath_inner v fuel (default "/" (parent_of abs)) true) as [rp|] eqn:Hp; [|done].
  rewrite (IH _ _ _ Hp). cbv zeta. destruct (symlink_at v _); [|done].
  destruct follow; [apply IH|done].
Qed.

(** No directory on the way to [path_of cs] is a link; [final] includes the path itself. *)
Definition link_free (v : Vfs) (cs : list string) : Prop :=
  ∀ pre, pre `prefix_of` cs → pre ≠ [] → symlink_at v (path_of pre) = None.

Lemma link_free_snoc v cs c :
  link_free v cs → symlink_at v (path_of (cs ++ [c])) = None → link_free v (cs ++ [c]).
Proof.
  intros Hcs Hc pre Hpre Hne. destruct Hpre as [suf Hsuf].
  destruct suf as [|x suf _] using rev_ind.
  - rewrite app_nil_r in Hsuf. by subst.
  - rewrite app_assoc in Hsuf. apply app_inj_tail in Hsuf as [Hsuf _]. apply Hcs; [|done].
    by exists suf.
Qed.

Lemma realpath_inner_canonical v fuel cs follow r :
  Forall clean cs → realpath_inner v fuel (path_of cs) follow = Ok r →
  ∃ rs, Forall clean rs ∧ r = path_of rs ∧
    (link_free v rs ∨ (follow = false ∧ ∃ rs' c, rs = rs' ++ [c] ∧ link_free v rs')).
Proof.
  revert cs follow r. induction fuel as [|fuel IH]; intros cs follow r Hcs; [done|].
  rewrite realpath_inner_S. case_bool_decide as Hroot.
  { intros [= <-]. exists []. split; [constructor|]. split; [done|]. left.
    intros pre [suf Hsuf] Hne. symmetry in Hsuf. by apply app_eq_nil in Hsuf as [-> _]. }
  destruct cs as [|c cs _] using rev_ind; [done|]. clear Hroot.
  apply Forall_app in Hcs as [Hcs Hc]. apply (Forall_singleton clean c) in Hc.
  rewrite parent_of_snoc, basename_snoc by done.
  change (default "/" (Some (path_of cs))) with (path_of cs).
  destruct (realpath_inner v fuel (path_of cs) true) as [rp|] eqn:Hp; [|done].
  destruct (IH cs true rp Hcs Hp) as (rs & Hrs & -> & Hfree). cbv zeta.
  destruct Hfree as [Hfree|[? _]]; [|done]. rewrite <-path_of_snoc_child by done.
  assert (Hrc : Forall clean (rs ++ [c])) by (by apply Forall_clean_snoc).
  destruct (symlink_at v (path_of (rs ++ [c]))) as [target|] eqn:Hlink.
  - destruct follow.
    + destruct (resolve_against_clean (path_of rs) target) as (cs' & Hcs' & ->). by apply IH.
    + intros [= <-]. exists (rs ++ [c]). split; [done|]. split; [done|]. right. eauto.
  - intros [= <-]. exists (rs ++ [c]). split; [done|]. split; [done|]. left. by apply link_free_snoc.
Qed.

Lemma link_free_prefix v cs c : link_free v (cs ++ [c]) → link_free v cs.
Proof. intros Hf pre Hpre. apply Hf. by apply prefix_app_r. Qed.

Lemma realpath_inner_fixed v fuel cs follow :
  Forall clean cs → link_free v cs → (length cs < fuel)%nat →
  realpath_inner v fuel (path_of cs) follow = Ok (path_of cs).
Proof.
  revert fuel follow. induction cs as [|c cs IH] using rev_ind; intros fuel follow Hcs Hfree Hlen.
  { destruct fuel; [lia|]. done. }
  rewrite length_app in Hlen. simpl in Hlen. destruct fuel as [|fuel]; [lia|].
  apply Forall_app in Hcs as [Hcs Hc]. apply (Forall_singleton clean c) in Hc.
  rewrite realpath_inner_S, bool_decide_eq_false_2 by (by apply path_of_snoc_not_root).
  rewrite parent_of_snoc, basename_snoc by done.
  change (default "/" (Some (path_of cs))) with (path_of cs).
  rewrite IH by (eauto using link_free_prefix with lia). cbv zeta.
  rewrite <-path_of_snoc_child by done. by rewrite Hfree; [|done|by destruct cs].
Qed.

Lemma realpath_shape v cs r :
  Forall clean cs → realpath v (path_of cs) true = Ok r →
  ∃ rs, Forall clean rs ∧ r = path_of rs ∧ link_free v rs.
Proof.
  unfold realpath. intros Hcs Hr.
  destruct (realpath_inner_canonical v 41 cs true r Hcs Hr) as (rs & Hrs & Heq & [Hfree|[? _]]); [|done].
  by exists rs.
Qed.

(** C26: What [realpath] returns is canonical: a normalised path on which no component, the last one
    included when it was followed, is a symbolic link; and resolving it again gives it back, when
    it has at most forty components. *)
Theorem realpath_canonical v cwd path r :
  realpath v (resolve_against cwd path) true = Ok r →
  ∃ rs, r = path_of rs ∧ Forall clean rs ∧ link_free v rs ∧
    ((length rs ≤ 40)%nat → ∀ follow, realpath v r follow = Ok r).
Proof.
  destruct (resolve_against_clean cwd path) as (cs & Hcs & ->). intros Hr.
  destruct (realpath_shape v cs r Hcs Hr) as (rs & Hrs & -> & Hfree).
  exists rs. do 3 (split; [done|]). intros Hlen follow. unfold realpath. apply realpath_inner_fixed; [done..|lia].
Qed.

Definition link_example : Vfs :=
  let v := (vfs_mkdir (with_disk_limit 100000) "/" "/a").1 in
  let v := (vfs_mkdir v "/" "/a/b").1 in
  (vfs_symlink v "/" "a/b/../b" "/l").1.

Lemma realpath_canonical_witness :
  realpath link_example (resolve_against "/" "l/x") true = Ok "/a/b/x" ∧
  realpath link_example "/a/b/x" true = Ok "/a/b/x".
Proof.
  assert (Hr : realpath link_example (resolve_against "/" "l/x") true = Ok "/a/b/x")
    by (vm_compute; reflexivity).
  destruct (realpath_canonical link_example "/" "l/x" "/a/b/x" Hr) as (rs & Heq & Hrs & _ & Hfix).
  split; [exact Hr|]. apply Hfix. assert (rs = ["a"; "b"; "x"]) as ->.
  { apply (path_of_inj rs ["a"; "b"; "x"]); [exact Hrs|repeat constructor; done|]. by rewrite <-Heq. }
  simpl. lia.
Defined.

(** ** How mutations change the visible tree *)

Lemma raw_get_set_tree v overlay count p :
  raw_get (set_tree v overlay count) p =
    match overlay !! p with
    | Some (Present node) => Some node | Some Deleted => None | None => fz_nodes (vf_base v) !! p
    end.
Proof. reflexivity. Qed.

Lemma raw_get_insert v p n q :
  raw_get (insert_node v p n) q = if decide (q = p) then Some n else raw_get v q.
Proof.
  unfold insert_node. rewrite raw_get_set_tree. case_decide as Hq.
  - subst. by rewrite lookup_insert_eq.
  - by rewrite lookup_insert_ne.
Qed.

Lemma raw_get_store v p n q :
  raw_get (store_node v p n) q = if decide (q = p) then Some n else raw_get v q.
Proof.
  unfold store_node, set_overlay. rewrite raw_get_set_tree. case_decide as Hq.
  - subst. by rewrite lookup_insert_eq.
  - by rewrite lookup_insert_ne.
Qed.

Lemma raw_get_remove v p q :
  raw_get (remove_node v p).1 q = if decide (q = p) then None else raw_get v q.
Proof.
  unfold remove_node. destruct (raw_get v p) as [n|] eqn:Hp; simpl.
  - rewrite raw_get_set_tree. case_bool_decide as Hb; case_decide as Hq; subst.
    + by rewrite lookup_insert_eq.
    + by rewrite lookup_insert_ne.
    + rewrite lookup_delete_eq. by apply eq_None_not_Some.
    + by rewrite lookup_delete_ne.
  - case_decide; by subst.
Qed.

(** [node_mut] borrows what is visible and shows the same tree. *)
Lemma node_mut_spec v p :
  (node_mut v p).2 = raw_get v p ∧ (∀ q, raw_get (node_mut v p).1 q = raw_get v q) ∧
  ∃ overlay, (node_mut v p).1 = set_overlay v overlay.
Proof.
  unfold node_mut.
  assert (Hid : v = set_overlay v (vf_overlay v)) by (by destruct v).
  destruct (vf_overlay v !! p) as [[n|]|] eqn:Hov; simpl.
  - unfold raw_get at 1. rewrite Hov. eauto.
  - unfold raw_get at 1. rewrite Hov. eauto.
  - destruct (fz_nodes (vf_base v) !! p) as [n|] eqn:Hb; simpl; unfold raw_get at 1; rewrite Hov, Hb.
    + split; [done|]. split; [|by eexists]. intros q. unfold set_overlay. rewrite raw_get_set_tree.
      destruct (decide (q = p)) as [->|Hq].
      * rewrite lookup_insert_eq. unfold raw_get. by rewrite Hov, Hb.
      * by rewrite lookup_insert_ne.
    + eauto.
Qed.

Lemma allocate_inode_spec v :
  ∃ next r, allocate_inode v = (set_next_inode v next, r) ∧
    match r with Ok inode => inode = vf_next_inode v | Err e => e = NoSpace ∧ next = vf_next_inode v end.
Proof.
  unfold allocate_inode, check_inode_capacity. destruct (checked_add64 _ _).
  - do 2 eexists. split; [reflexivity|]. done.
  - exists (vf_next_inode v), (Err NoSpace). split; [|done]. by destruct v.
Qed.

Lemma raw_get_next_inode v next q : raw_get (set_next_inode v next) q = raw_get v q.
Proof. reflexivity. Qed.
Lemma raw_get_usage v used peak q : raw_get (set_usage v used peak) q = raw_get v q.
Proof. reflexivity. Qed.
Lemma raw_get_read_bytes v n q : raw_get (set_read_bytes v n) q = raw_get v q.
Proof. reflexivity. Qed.
Lemma raw_get_orphaned v m next q : raw_get (set_orphaned v m next) q = raw_get v q.
Proof. reflexivity. Qed.

Create HintDb vfs_tree.
#[export] Hint Rewrite raw_get_insert raw_get_store raw_get_remove raw_get_next_inode raw_get_usage
  raw_get_read_bytes raw_get_orphaned : vfs_tree.

(** ** The disk

    What the mutations are about: the visible tree with its count, the unlinked files, and the
    accounting. Identities, copied-up nodes, the peak and the read counter are not part of it. *)

Record Disk := MkDisk {
  dk_tree : gmap string Node;
  dk_count : Z;
  dk_orphans : gmap Z Node;
  dk_next_orphan : Z;
  dk_limit : Z;
  dk_dirs : gset string;
  dk_native : gmap string NativeProgram;
  dk_used : Z
}.

Definition disk_of (v : Vfs) : Disk :=
  MkDisk (visible v) (vf_node_count v) (vf_orphaned v) (vf_next_orphan v) (vf_disk_limit v)
    (vf_baseline_dirs v) (vf_baseline_native v) (vf_disk_used v).

Definition disk_tree (d : Disk) (tree : gmap string Node) (count : Z) : Disk :=
  MkDisk tree count (dk_orphans d) (dk_next_orphan d) (dk_limit d) (dk_dirs d) (dk_native d) (dk_used d).
Definition disk_use (d : Disk) (used : Z) : Disk :=
  MkDisk (dk_tree d) (dk_count d) (dk_orphans d) (dk_next_orphan d) (dk_limit d) (dk_dirs d)
    (dk_native d) used.
Definition disk_orphans (d : Disk) (orphans : gmap Z Node) (next : Z) : Disk :=
  MkDisk (dk_tree d) (dk_count d) orphans next (dk_limit d) (dk_dirs d) (dk_native d) (dk_used d).

Definition disk_put (d : Disk) (p : string) (n : Node) : Disk :=
  disk_tree d (<[p := n]> (dk_tree d))
    (match dk_tree d !! p with Some _ => dk_count d | None => sat_add64 (dk_count d) 1 end).
Definition disk_remove (d : Disk) (p : string) : Disk :=
  match dk_tree d !! p with
  | Some _ => disk_tree d (delete p (dk_tree d)) (sat_sub (dk_count d) 1)
  | None => d
  end.

Lemma visible_ext v v' : (∀ q, raw_get v' q = raw_get v q) → visible v' = visible v.
Proof. intros Heq. apply map_eq. intros q. by rewrite !visible_lookup. Qed.

Lemma disk_insert v p n : disk_of (insert_node v p n) = disk_put (disk_of v) p n.
Proof.
  unfold disk_of, disk_put, disk_tree. simpl. rewrite visible_lookup. f_equal.
  - apply map_eq. intros q. rewrite visible_lookup, raw_get_insert, lookup_insert. case_decide as Hq.
    + subst. by rewrite decide_True.
    + rewrite decide_False by congruence. by rewrite visible_lookup.
  - unfold contains_node. by destruct (raw_get v p).
Qed.

Lemma disk_store v p n old : raw_get v p = Some old → disk_of (store_node v p n) = disk_put (disk_of v) p n.
Proof.
  intros Hp. unfold disk_of, disk_put, disk_tree. simpl. rewrite visible_lookup, Hp. f_equal.
  apply map_eq. intros q. rewrite visible_lookup, raw_get_store, lookup_insert. case_decide as Hq.
  - subst. by rewrite decide_True.
  - rewrite decide_False by congruence. by rewrite visible_lookup.
Qed.

Lemma disk_removed v p : disk_of (remove_node v p).1 = disk_remove (disk_of v) p.
Proof.
  unfold disk_remove. simpl. rewrite visible_lookup.
  pose proof (raw_get_remove v p) as Hget. unfold remove_node in *.
  destruct (raw_get v p) as [n|] eqn:Hp; simpl in *; [|done].
  unfold disk_of, disk_tree. simpl. f_equal. apply map_eq. intros q.
  rewrite visible_lookup, Hget, lookup_delete. case_decide as Hq.
  - subst. by rewrite decide_True.
  - rewrite decide_False by congruence. by rewrite visible_lookup.
Qed.

Lemma disk_node_mut v p : (node_mut v p).2 = raw_get v p ∧ disk_of (node_mut v p).1 = disk_of v ∧
  (∀ q, raw_get (node_mut v p).1 q = raw_get v q) ∧
  vf_mutation_time (node_mut v p).1 = vf_mutation_time v.
Proof.
  destruct (node_mut_spec v p) as (Hb & Hsame & ov & Hov). split; [done|].
  rewrite Hov in *. split; [|done]. unfold disk_of. simpl. f_equal. by apply visible_ext.
Qed.

Lemma disk_allocate v : disk_of (allocate_inode v).1 = disk_of v ∧
  (∀ q, raw_get (allocate_inode v).1 q = raw_get v q).
Proof. destruct (allocate_inode_spec v) as (next & r & -> & _). done. Qed.

(** What [put_content] leaves on the disk. *)
Lemma put_content_spec v target content data mode used v' r :
  put_content v target content data mode used = (v', r) →
  match r with
  | Err _ => disk_of v' = disk_of v
  | Ok _ => ∃ node, disk_of v' = disk_use (disk_put (disk_of v) target node) used ∧
      nd_kind node = File match nd_kind <$> raw_get v target with Some (File d) => content d | _ => data end
  end.
Proof.
  unfold put_content. destruct (disk_node_mut v target) as (Hb & Hdisk & Hsame & _).
  destruct (node_mut v target) as [v1 borrowed]. simpl in *. subst borrowed.
  assert (Hnew : (let '(v2, inode) := allocate_inode v1 in
    let? inode := inode orelse v2 in
    (record_usage (insert_node v2 target (node_file inode data mode (vf_mutation_time v2))) used, Ok tt)) =
      (v', r) →
    match r with
    | Err _ => disk_of v' = disk_of v
    | Ok _ => ∃ node, disk_of v' = disk_use (disk_put (disk_of v) target node) used ∧ nd_kind node = File data
    end).
  { destruct (disk_allocate v1) as [Ha _]. destruct (allocate_inode v1) as [v2 [inode|e]]; simpl in Ha.
    - intros [= <- <-]. exists (node_file inode data mode (vf_mutation_time v2)). split; [|done].
      rewrite <-Hdisk, <-Ha, <-disk_insert. done.
    - intros [= <- <-]. congruence. }
  destruct (raw_get v target) as [[inode [d| | |] m uid gid mt]|] eqn:Hget; simpl; try exact Hnew.
  intros [= <- <-]. exists (MkNode inode (File (content d)) m uid gid (vf_mutation_time v1)). split; [|done].
  rewrite <-Hdisk, <-(disk_store v1 target _ (MkNode inode (File d) m uid gid mt)) by (by rewrite Hsame).
  done.
Qed.

(** ** Reading back what was written *)

(** [path] names [real], which is not a link and not the root. *)
Definition names (v : Vfs) (cwd path real : string) : Prop :=
  resolve_against cwd path ≠ "/" ∧ realpath v (resolve_against cwd path) false = Ok real ∧
  symlink_at v real = None.

Lemma realpath_more v abs follow r : realpath_inner v 40 abs follow = Ok r → realpath v abs follow = Ok r.
Proof. apply (realpath_inner_more v 40). Qed.

Lemma realpath_S v abs follow : abs ≠ "/" →
  realpath v abs follow =
    match realpath_inner v 40 (default "/" (parent_of abs)) true with
    | Err e => Err e
    | Ok rp =>
        match symlink_at v (child_path rp (basename abs)) with
        | Some target =>
            if follow then realpath_inner v 40 (resolve_against rp target) true
            else Ok (child_path rp (basename abs))
        | None => Ok (child_path rp (basename abs))
        end
    end.
Proof. intros Hroot. etrans; [exact (realpath_inner_S v 40 abs follow)|]. by rewrite bool_decide_eq_false_2. Qed.

Lemma realpath_follow v abs real :
  abs ≠ "/" → realpath v abs false = Ok real → symlink_at v real = None → realpath v abs true = Ok real.
Proof.
  intros Hroot Hreal Hlink.
  rewrite (realpath_S v abs true) by exact Hroot. rewrite realpath_S in Hreal by exact Hroot.
  generalize dependent (realpath_inner v 40). intros inner Hreal.
  destruct (inner (default "/" (parent_of abs)) true) as [rp|]; [|discriminate].
  assert (Heq : real = child_path rp (basename abs))
    by (destruct (symlink_at v (child_path rp (basename abs))); congruence).
  rewrite <-Heq, Hlink. reflexivity.
Qed.

Lemma realpath_parent v abs real :
  abs ≠ "/" → realpath v abs false = Ok real →
  ∃ rp, realpath v (default "/" (parent_of abs)) true = Ok rp ∧ real = child_path rp (basename abs).
Proof.
  intros Hroot Hreal. rewrite realpath_S in Hreal by exact Hroot.
  destruct (realpath_inner v 40 (default "/" (parent_of abs)) true) as [rp|] eqn:Hp; [|discriminate].
  exists rp. split; [exact (realpath_more v _ true rp Hp)|].
  destruct (symlink_at v (child_path rp (basename abs))); congruence.
Qed.

Lemma names_follow v cwd path real :
  names v cwd path real → realpath v (resolve_against cwd path) true = Ok real.
Proof. intros (Hroot & Hreal & Hlink). exact (realpath_follow v _ real Hroot Hreal Hlink). Qed.

Lemma names_write_target v cwd path real target :
  names v cwd path real → write_target v cwd path = Ok target → target = real.
Proof.
  intros (Hroot & Hreal & _). destruct (realpath_parent _ _ _ Hroot Hreal) as (rp & Hrp & ->).
  unfold write_target, mbind, result_bind. destruct (reject_pseudo_mutation _); [|discriminate].
  destruct (check_path_limits _); [|discriminate]. cbv zeta. rewrite Hrp. intros [= <-]. reflexivity.
Qed.

(** Putting a node that is not a link where [path] points: [path] then leads to it, every other
    node stays, and no path resolves differently. *)
Lemma names_put v v' cwd path real node :
  names v cwd path real → visible v' = <[real := node]> (visible v) →
  (∀ target, nd_kind node ≠ Symlink target) →
  resolved v' cwd path true = Ok (Some node) ∧
  (∀ q, q ≠ real → raw_get v' q = raw_get v q) ∧
  (∀ p follow, realpath v' p follow = realpath v p follow).
Proof.
  intros Hn Htree Hkind. pose proof (names_follow _ _ _ _ Hn) as Hres.
  destruct Hn as (_ & _ & Hlink).
  assert (Hget : ∀ q, raw_get v' q = if decide (q = real) then Some node else raw_get v q).
  { intros q. rewrite <-!visible_lookup, Htree, lookup_insert. repeat case_decide; congruence. }
  assert (Hlinks : ∀ p, symlink_at v' p = symlink_at v p).
  { intros p. unfold symlink_at at 1. rewrite Hget. case_decide as Hp; [|done]. subst. rewrite Hlink.
    destruct node as [? [] ? ? ? ?]; try done. by destruct (Hkind target). }
  assert (Hreal : ∀ p follow, realpath v' p follow = realpath v p follow)
    by (intros; by apply realpath_inner_ext).
  split; [|split; [|done]].
  - unfold resolved. rewrite Hreal, Hres. simpl. by rewrite Hget, decide_True.
  - intros q Hq. by rewrite Hget, decide_False.
Qed.

Lemma read_resolved_file v cwd path node data :
  resolved v cwd path true = Ok (Some node) → nd_kind node = File data → (vfs_read v cwd path).2 = Ok data.
Proof. intros Hr Hk. unfold vfs_read. rewrite Hr. cbn [fmap option_fmap option_map]. by rewrite Hk. Qed.

Lemma put_content_tree v target content data mode used v' :
  put_content v target content data mode used = (v', Ok tt) →
  ∃ node, visible v' = <[target := node]> (visible v) ∧
    nd_kind node = File match nd_kind <$> raw_get v target with Some (File d) => content d | _ => data end.
Proof.
  intros (node & Hd & Hk)%put_content_spec. exists node. split; [|done]. by injection Hd.
Qed.



(** The bytes of a positioned write: the data over its range, the old contents elsewhere, and
    zeroes in a gap past the old end. *)
Lemma resize_vec_length content size : 0 ≤ size → length (resize_vec content size) = Z.to_nat size.
Proof. intros Hs. unfold resize_vec. rewrite length_app, length_take, length_replicate. lia. Qed.

Lemma resize_vec_lookup content size i : 0 ≤ size →
  resize_vec content size !! i =
    if decide (Z.to_nat size ≤ i)%nat then None
    else if decide (i < length content)%nat then content !! i else Some Byte.x00.
Proof.
  intros Hs. unfold resize_vec. case_decide as Hi; [|case_decide as Hc].
  - apply lookup_ge_None_2. rewrite length_app, length_take, length_replicate. lia.
  - rewrite lookup_app_l by (rewrite length_take; lia). by rewrite lookup_take_lt by lia.
  - rewrite lookup_app_r by (rewrite length_take; lia). apply lookup_replicate_2. rewrite length_take. lia.
Qed.

Lemma overwrite_lookup content offset data i :
  0 ≤ offset → offset + zlen data ≤ zlen content →
  overwrite content offset data !! i =
    if decide (Z.to_nat offset ≤ i < Z.to_nat offset + length data)%nat
    then data !! (i - Z.to_nat offset)%nat else content !! i.
Proof.
  intros Ho Hlen. unfold overwrite. case_decide as Hi.
  - rewrite lookup_app_r by (rewrite length_take; lia).
    rewrite lookup_app_l by (rewrite length_take; lia). f_equal. rewrite length_take. lia.
  - destruct (decide (i < Z.to_nat offset)%nat) as [Hlt|Hge].
    + rewrite lookup_app_l by (rewrite length_take; lia). by rewrite lookup_take_lt.
    + rewrite !lookup_app_r by (rewrite length_take; lia). rewrite lookup_drop, length_take. f_equal. lia.
Qed.

Lemma write_content_lookup content offset data i : 0 ≤ offset →
  write_content content offset data !! i =
    if decide (Z.to_nat offset ≤ i < Z.to_nat offset + length data)%nat
    then data !! (i - Z.to_nat offset)%nat
    else if decide (i < length content)%nat then content !! i
    else if decide (i < Z.to_nat offset)%nat then Some Byte.x00 else None.
Proof.
  intros Ho. unfold write_content. cbv zeta. case_match eqn:Hgrow; bool_to_prop.
  - rewrite overwrite_lookup by (rewrite ?resize_vec_length; lia). case_decide as Hi; [done|].
    rewrite resize_vec_lookup by lia. repeat case_decide; try lia; try done.
  - rewrite overwrite_lookup by lia. case_decide as Hi; [done|]. case_decide as Hc; [done|].
    rewrite decide_False by lia. by apply lookup_ge_None_2; lia.
Qed.

Lemma write_content_length content offset data : 0 ≤ offset →
  zlen (write_content content offset data) = Z.max (zlen content) (offset + zlen data).
Proof.
  intros Ho. unfold write_content, overwrite. cbv zeta. case_match eqn:Hgrow; bool_to_prop;
    rewrite !length_app, length_take, length_drop, ?resize_vec_length by lia; lia.
Qed.

Lemma names_read_file v cwd path real old :
  names v cwd path real → (vfs_read v cwd path).2 = Ok old → nd_kind <$> raw_get v real = Some (File old).
Proof.
  intros Hn. unfold vfs_read, resolved. rewrite (names_follow _ _ _ _ Hn). cbn [fmap result_fmap].
  destruct (nd_kind <$> raw_get v real) as [[]|]; cbn [snd]; congruence.
Qed.

Lemma write_at_tree v cwd path offset data v' target old :
  write_at v cwd path offset data = Ret (v', Ok tt) → write_target v cwd path = Ok target →
  nd_kind <$> raw_get v target = Some (File old) →
  ∃ node, visible v' = <[target := node]> (visible v) ∧ nd_kind node = File (write_content old offset data).
Proof.
  unfold write_at. intros Hw Ht Hk. rewrite Ht in Hw. destruct (checked_add64 _ _); [|done].
  rewrite Hk in Hw. destruct (usage_after_adding _ _); [|done].
  destruct (disk_node_mut v target) as (Hb & Hdisk & Hsame & _).
  destruct (node_mut v target) as [v1 borrowed]. simpl in *. subst borrowed.
  destruct (raw_get v target) as [node|] eqn:Hget; [|done]. simpl in *.
  assert (Hkind : nd_kind node = File old) by congruence. rewrite Hkind in Hw. injection Hw as <-.
  exists (with_mtime (with_kind node (File (write_content old offset data))) (vf_mutation_time v1)).
  split; [|done]. assert (Htree : visible v1 = visible v) by (by injection Hdisk). rewrite <-Htree.
  pose proof (disk_store v1 target
    (with_mtime (with_kind node (File (write_content old offset data))) (vf_mutation_time v1)) node) as Hst.
  rewrite Hsame in Hst. specialize (Hst Hget). by injection Hst.
Qed.

(** Positioned writes: after a successful [write_at] through a path that names a file, the path
    reads back as the old contents with the data at its offset and zeroes in any gap, [max] of the
    old length and the end of the write long; and nothing else of the tree has changed. *)
Theorem write_at_then_read v cwd path real offset data old v' :
  names v cwd path real → (vfs_read v cwd path).2 = Ok old → 0 ≤ offset →
  write_at v cwd path offset data = Ret (v', Ok tt) →
  ∃ new, (vfs_read v' cwd path).2 = Ok new ∧ zlen new = Z.max (zlen old) (offset + zlen data) ∧
    (∀ i, new !! i =
      if decide (Z.to_nat offset ≤ i < Z.to_nat offset + length data)%nat
      then data !! (i - Z.to_nat offset)%nat
      else if decide (i < length old)%nat then old !! i
      else if decide (i < Z.to_nat offset)%nat then Some Byte.x00 else None) ∧
    (∀ q, q ≠ real → raw_get v' q = raw_get v q) ∧
    (∀ p follow, realpath v' p follow = realpath v p follow).
Proof.
  intros Hn Hread Ho Hw. pose proof (names_read_file _ _ _ _ _ Hn Hread) as Hk.
  destruct (write_target v cwd path) as [target|] eqn:Ht; [|unfold write_at in Hw; by rewrite Ht in Hw].
  pose proof (names_write_target _ _ _ _ _ Hn Ht). subst target.
  destruct (write_at_tree _ _ _ _ _ _ _ _ Hw Ht Hk) as (node & Htree & Hnode).
  destruct (names_put _ _ _ _ _ _ Hn Htree) as (Hr & Hframe & Hreal); [by rewrite Hnode|].
  exists (write_content old offset data). split; [by eapply read_resolved_file|].
  split; [by apply write_content_length|]. split; [|done]. intros i. by apply write_content_lookup.
Qed.

Definition file_example : Vfs := (vfs_write link_example "/" "l/f" [Byte.x61] 420).1.

Lemma write_at_then_read_witness :
  (vfs_read file_example "/" "l/f").2 = Ok [Byte.x61] ∧
  ∃ new, zlen new = 4 ∧ new !! 3%nat = Some Byte.x62 ∧ new !! 1%nat = Some Byte.x00.
Proof.
  split; [vm_compute; reflexivity|].
  destruct (write_at_then_read file_example "/" "l/f" "/a/b/f" 3 [Byte.x62] [Byte.x61]
    match write_at file_example "/" "l/f" 3 [Byte.x62] with Ret (v', _) => v' | _ => file_example end)
    as (new & _ & Hlen & Hbytes & _).
  - split; [done|]. split; vm_compute; reflexivity.
  - vm_compute. reflexivity.
  - lia.
  - vm_compute. reflexivity.
  - exists new. split; [exact Hlen|]. split; rewrite Hbytes; reflexivity.
Defined.
