(* ===== verification/VfsUsage.v ===== *)
(** * Disk accounting of the filesystem

    What the nodes on a disk cost, and that the usage the source keeps up to date incrementally is
    that cost: after every modelled mutation, whether it succeeds or fails. *)

From S2P Require Import Prelude.
From S2P Require Import RustStr.
From S2P Require Import Paths.
From S2P Require Import Vfs.
From S2P Require Import VfsTree.

(** ** What a disk costs *)

Definition gross (n : Node) : Z := NODE_OVERHEAD + node_payload_len n.

(** A node the image installed for free. *)
Definition is_free (d : Disk) (path : string) (n : Node) : bool :=
  bool_decide (path = "/") ||
  match nd_kind n with
  | Dir => bool_decide (path ∈ dk_dirs d)
  | NativeExecutable program => bool_decide (dk_native d !! path = Some program)
  | _ => false
  end.

Definition cost (d : Disk) (path : string) (n : Node) : Z := if is_free d path n then 0 else gross n.

Definition usage (d : Disk) : Z := map_sum (cost d) (dk_tree d) + map_sum (λ _, gross) (dk_orphans d).

Lemma gross_pos n : 256 ≤ gross n.
Proof.
  unfold gross, NODE_OVERHEAD, node_payload_len, str_len. destruct (nd_kind n); lia.
Qed.

Lemma cost_nonneg d p n : 0 ≤ cost d p n.
Proof. unfold cost. pose proof (gross_pos n). case_match; lia. Qed.

(** The baseline images never list the root, the root is a directory, unlinked files are files
    whose identities have been handed out, the tree is counted, and the usage is exact and within
    a limit that leaves room for the free nodes below the end of the type. *)
Record disk_wf (d : Disk) : Prop := {
  wf_root : ∃ n, dk_tree d !! "/" = Some n ∧ nd_kind n = Dir;
  wf_dirs : "/" ∉ dk_dirs d;
  wf_native : dk_native d !! "/" = None;
  wf_orphans : ∀ id n, dk_orphans d !! id = Some n → id < dk_next_orphan d ∧ ∃ data, nd_kind n = File data;
  wf_count : dk_count d = Z.of_nat (size (dk_tree d));
  wf_used : dk_used d = usage d;
  wf_limit : dk_used d ≤ dk_limit d;
  wf_room : dk_limit d + 256 * (Z.of_nat (size (dk_dirs d)) + Z.of_nat (size (dk_native d))) < U64_MAX - 256
}.

(** ** The measured usage *)

Lemma size_filter_sum {V} (f : string → V → bool) (m : gmap string V) :
  Z.of_nat (size (filter (λ '(k, n), f k n = true) m)) = map_sum (λ k n, if f k n then 1 else 0) m.
Proof.
  induction m as [|k n m Hk IH] using map_ind.
  { by rewrite map_filter_empty, map_sum_empty, map_size_empty. }
  rewrite map_sum_insert by done. destruct (f k n) eqn:Hf.
  - rewrite map_filter_insert_True by done. rewrite map_size_insert_None; [lia|].
    rewrite map_lookup_filter_None. by left.
  - rewrite map_filter_insert_False by (rewrite Hf; done). rewrite delete_id by done. lia.
Qed.

Definition free_dir (d : Disk) (path : string) (n : Node) : bool :=
  match nd_kind n with Dir => bool_decide (path ∈ dk_dirs d) | _ => false end.
Definition free_native (d : Disk) (path : string) (n : Node) : bool :=
  match nd_kind n with
  | NativeExecutable program => bool_decide (dk_native d !! path = Some program)
  | _ => false
  end.

Lemma present_dirs v :
  Z.of_nat (size (filter (λ path, is_dir_node (raw_get v path) = true) (vf_baseline_dirs v))) =
    map_sum (λ k n, if free_dir (disk_of v) k n then 1 else 0) (visible v).
Proof.
  rewrite <-size_filter_sum. f_equal. rewrite <-size_dom. f_equal. apply set_eq. intros k.
  rewrite elem_of_filter, elem_of_dom. split.
  - intros [Hd Hk]. destruct (raw_get v k) as [n|] eqn:Hget; [|done]. exists n.
    rewrite map_lookup_filter_Some, visible_lookup. split; [done|]. unfold free_dir.
    destruct n as [? [] ? ? ? ?]; try done. simpl. by apply bool_decide_eq_true_2.
  - intros [n [Hget Hf]%map_lookup_filter_Some]. rewrite visible_lookup in Hget. rewrite Hget.
    unfold free_dir in Hf. destruct n as [? [] ? ? ? ?]; try done. simpl in *. by bool_to_prop.
Qed.

Lemma present_native v :
  Z.of_nat (size (filter (λ '(path, program), is_native_node (raw_get v path) program = true)
                    (vf_baseline_native v))) =
    map_sum (λ k n, if free_native (disk_of v) k n then 1 else 0) (visible v).
Proof.
  rewrite <-size_filter_sum. f_equal. rewrite <-!size_dom. f_equal. apply set_eq. intros k.
  rewrite !elem_of_dom. split.
  - intros [p [Hp Hk]%map_lookup_filter_Some]. destruct (raw_get v k) as [n|] eqn:Hget; [|done]. exists n.
    rewrite map_lookup_filter_Some, visible_lookup. split; [done|]. unfold free_native.
    destruct n as [? [] ? ? ? ?]; try done. simpl in *. bool_to_prop. subst. by apply bool_decide_eq_true_2.
  - intros [n [Hget Hf]%map_lookup_filter_Some]. rewrite visible_lookup in Hget.
    unfold free_native in Hf. destruct n as [? [| | |p] ? ? ? ?]; try done. simpl in *. bool_to_prop.
    exists p. rewrite map_lookup_filter_Some. split; [done|]. rewrite Hget. simpl. by apply bool_decide_eq_true_2.
Qed.

Definition listed (path : string) (n : Node) : Z := if bool_decide (path = "/") then 0 else gross n.

Lemma logical_usage_clamp (nodes : list (string * Node)) :
  logical_usage nodes = clamp64 (exact_total (uncurry listed) nodes).
Proof.
  unfold logical_usage. replace 0 with (clamp64 0) by done.
  enough (∀ t, 0 ≤ t → foldl (λ total '(_, n), sat_add64 (sat_add64 total NODE_OVERHEAD) (node_payload_len n))
    (clamp64 t) (filter (λ '(path, _), path ≠ "/") nodes) = clamp64 (t + exact_total (uncurry listed) nodes))
    as -> by done.
  induction nodes as [|[path n] nodes IH]; intros t Ht; [by rewrite Z.add_0_r|].
  rewrite filter_cons. simpl. unfold listed at 1. pose proof (gross_pos n).
  destruct (decide (path = "/")) as [->|Hp].
  - rewrite decide_False by tauto. rewrite IH by done. done.
  - rewrite decide_True, bool_decide_eq_false_2 by done. simpl.
    assert (Hstep : sat_add64 (sat_add64 (clamp64 t) NODE_OVERHEAD) (node_payload_len n) = clamp64 (t + gross n)).
    { assert (0 ≤ U64_MAX) by done. unfold sat_add64, clamp64, gross, NODE_OVERHEAD in *. lia. }
    rewrite Hstep, IH by lia. f_equal. lia.
Qed.

Lemma listed_split d path n :
  "/" ∉ dk_dirs d → dk_native d !! "/" = None →
  listed path n = cost d path n + 256 * (if free_dir d path n then 1 else 0)
    + 256 * (if free_native d path n then 1 else 0).
Proof.
  intros Hd Hn. unfold listed, cost, is_free, free_dir, free_native.
  destruct (bool_decide (path = "/")) eqn:Hp; bool_to_prop; simpl.
  - subst. destruct (nd_kind n); try lia.
    + by rewrite bool_decide_eq_false_2.
    + rewrite bool_decide_eq_false_2 by congruence. lia.
  - unfold gross, node_payload_len, NODE_OVERHEAD. destruct (nd_kind n); try lia; case_bool_decide; lia.
Qed.

Section measured.
Context (d : Disk) (Hdirs : "/" ∉ dk_dirs d) (Hnative : dk_native d !! "/" = None).

Lemma listed_total :
  map_sum listed (dk_tree d) = map_sum (cost d) (dk_tree d)
    + 256 * map_sum (λ k n, if free_dir d k n then 1 else 0) (dk_tree d)
    + 256 * map_sum (λ k n, if free_native d k n then 1 else 0) (dk_tree d).
Proof. rewrite <-!map_sum_linear. apply map_sum_ext. intros. by apply listed_split. Qed.

Lemma free_dirs_le :
  0 ≤ map_sum (λ k n, if free_dir d k n then 1 else 0) (dk_tree d) ≤ Z.of_nat (size (dk_dirs d)).
Proof.
  rewrite <-size_filter_sum. split; [lia|]. apply Nat2Z.inj_le. rewrite <-size_dom. apply subseteq_size.
  intros k [n [_ Hf]%map_lookup_filter_Some]%elem_of_dom. unfold free_dir in Hf.
  destruct (nd_kind n); try done. by bool_to_prop.
Qed.

Lemma free_native_le :
  0 ≤ map_sum (λ k n, if free_native d k n then 1 else 0) (dk_tree d) ≤ Z.of_nat (size (dk_native d)).
Proof.
  rewrite <-size_filter_sum. split; [lia|]. apply Nat2Z.inj_le. rewrite <-!size_dom. apply subseteq_size.
  intros k [n [_ Hf]%map_lookup_filter_Some]%elem_of_dom. unfold free_native in Hf.
  destruct (nd_kind n) as [| | |p]; try done. bool_to_prop. apply elem_of_dom. by exists p.
Qed.

Lemma tree_size_le : 256 * Z.of_nat (size (dk_tree d)) ≤ 256 + map_sum listed (dk_tree d).
Proof.
  assert (Hsize : Z.of_nat (size (dk_tree d)) = map_sum (λ _ _, 1) (dk_tree d)).
  { clear Hdirs Hnative. induction (dk_tree d) as [|k n m Hk IH] using map_ind; [done|].
    rewrite map_size_insert_None, map_sum_insert by done. lia. }
  rewrite Hsize. assert (Hroot : map_sum (λ k _, if bool_decide (k = "/") then 1 else 0) (dk_tree d) ≤ 1).
  { clear. induction (dk_tree d) as [|k n m Hk IH] using map_ind; [by rewrite map_sum_empty|].
    rewrite map_sum_insert by done. case_bool_decide as Hr; [|lia]. subst.
    rewrite (map_sum_ext _ (λ _ _, 0) m).
    - replace (map_sum (λ _ _, 0) m) with 0; [lia|]. clear.
      induction m as [|k n m Hk IH] using map_ind; [done|]. by rewrite map_sum_insert, <-IH.
    - intros k v Hkv. rewrite bool_decide_eq_false_2; congruence. }
  assert (Hle : map_sum (λ _ _, 0 + 256 * 1) (dk_tree d) ≤
    map_sum (λ k n, listed k n + 256 * (if bool_decide (k = "/") then 1 else 0)) (dk_tree d)).
  { apply map_sum_le. intros k n _. unfold listed. pose proof (gross_pos n). case_bool_decide; lia. }
  rewrite (map_sum_linear listed), (map_sum_linear (λ _ _, 0) (λ _ _, 1)) in Hle.
  pose proof (map_sum_nonneg (λ (_ : string) (_ : Node), 0) (dk_tree d) ltac:(done)). lia.
Qed.
End measured.

Lemma orphans_clamp (orphans : gmap Z Node) :
  sat_total (λ n, sat_add64 NODE_OVERHEAD (node_payload_len n)) (btree_values orphans) =
    clamp64 (map_sum (λ _, gross) orphans).
Proof.
  rewrite (sat_total_clamp gross); [|intros n; pose proof (gross_pos n); lia|done]. f_equal.
  unfold btree_values. rewrite <-exact_total_map, <-(exact_total_perm _ _ _ (btree_iter_perm orphans)).
  induction (btree_iter orphans) as [|[k n] l IH]; [done|]. exact (f_equal (Z.add (gross n)) IH).
Qed.

Definition fits (d : Disk) : Prop := map_sum listed (dk_tree d) + map_sum (λ _, gross) (dk_orphans d) ≤ U64_MAX.

Lemma orphans_nonneg (orphans : gmap Z Node) : 0 ≤ map_sum (λ _, gross) orphans.
Proof. apply map_sum_nonneg. intros _ n. pose proof (gross_pos n). lia. Qed.

Lemma listed_nonneg tree : 0 ≤ map_sum listed tree.
Proof.
  apply map_sum_nonneg. intros k n. unfold listed. pose proof (gross_pos n). case_bool_decide; lia.
Qed.

Lemma costs_nonneg d : 0 ≤ map_sum (cost d) (dk_tree d).
Proof. apply map_sum_nonneg. apply cost_nonneg. Qed.

(** Measuring an exact disk that fits in a [u64]. *)
Lemma measured_exact v :
  "/" ∉ vf_baseline_dirs v → vf_baseline_native v !! "/" = None → fits (disk_of v) →
  measured_usage v = usage (disk_of v).
Proof.
  intros Hd Hn Hfits. unfold measured_usage, fits in *.
  rewrite present_dirs, present_native, orphans_clamp, logical_usage_clamp, all_paths_iter.
  rewrite (exact_total_perm _ _ _ (btree_iter_perm _)), exact_total_map.
  pose proof (listed_total (disk_of v) Hd Hn) as Htotal.
  pose proof (free_dirs_le (disk_of v)) as Hfd. pose proof (free_native_le (disk_of v)) as Hfn.
  pose proof (orphans_nonneg (vf_orphaned v)) as Ho. pose proof (costs_nonneg (disk_of v)) as Hc.
  cbn [dk_tree dk_orphans disk_of dk_dirs dk_native] in *. fold (disk_of v) in *.
  unfold usage. cbn [dk_tree dk_orphans disk_of].
  unfold sat_mul64, sat_sub, sat_add64, clamp64, NODE_OVERHEAD. fold (disk_of v). lia.
Qed.

(** ** Steps that keep a disk well formed *)

Definition cost_at (d : Disk) (p : string) : Z :=
  match dk_tree d !! p with Some n => cost d p n | None => 0 end.

Lemma usage_put d p n : usage (disk_put d p n) = usage d - cost_at d p + cost d p n.
Proof.
  unfold usage, cost_at, disk_put. cbn [dk_tree dk_orphans disk_tree].
  change (cost (disk_tree d _ _)) with (cost d). destruct (dk_tree d !! p) as [old|] eqn:Hp.
  - rewrite (map_sum_replace _ _ _ _ _ Hp). lia.
  - rewrite (map_sum_insert _ _ _ _ Hp). lia.
Qed.

Lemma usage_remove d p : usage (disk_remove d p) = usage d - cost_at d p.
Proof.
  unfold usage, cost_at, disk_remove. destruct (dk_tree d !! p) as [old|] eqn:Hp; [|lia].
  cbn [dk_tree dk_orphans disk_tree]. change (cost (disk_tree d _ _)) with (cost d).
  rewrite (map_sum_delete _ _ _ _ Hp). lia.
Qed.

Lemma cost_at_le d p : 0 ≤ cost_at d p ≤ usage d.
Proof.
  unfold cost_at, usage. pose proof (orphans_nonneg (dk_orphans d)). pose proof (costs_nonneg d).
  destruct (dk_tree d !! p) as [n|] eqn:Hp; [|lia]. pose proof (cost_nonneg d p n).
  pose proof (map_sum_elem_le (cost d) _ _ _ (cost_nonneg d) Hp). lia.
Qed.

Lemma usage_fits d :
  "/" ∉ dk_dirs d → dk_native d !! "/" = None → usage d ≤ dk_limit d →
  dk_limit d + 256 * (Z.of_nat (size (dk_dirs d)) + Z.of_nat (size (dk_native d))) < U64_MAX - 256 →
  fits d ∧ Z.of_nat (size (dk_tree d)) ≤ U64_MAX.
Proof.
  intros Hd Hn Hlim Hroom. pose proof (listed_total d Hd Hn) as Ht.
  pose proof (free_dirs_le d). pose proof (free_native_le d). pose proof (tree_size_le d).
  pose proof (orphans_nonneg (dk_orphans d)). unfold fits, usage in *. lia.
Qed.

Lemma wf_put d p n used :
  disk_wf d → (p = "/" → nd_kind n = Dir) → used = dk_used d - cost_at d p + cost d p n →
  used ≤ dk_limit d → disk_wf (disk_use (disk_put d p n) used).
Proof.
  intros Hwf Hroot Hused Hle.
  assert (Hu : used = usage (disk_put d p n)) by (rewrite usage_put, <-(wf_used d Hwf); exact Hused).
  destruct (usage_fits (disk_put d p n)) as [_ Hsize]; [apply Hwf..|rewrite <-Hu; exact Hle|apply Hwf|].
  constructor; try apply Hwf; try done.
  - simpl. destruct (decide (p = "/")) as [->|Hp].
    + exists n. rewrite lookup_insert_eq. auto.
    + rewrite lookup_insert_ne by done. apply Hwf.
  - simpl in *. destruct (dk_tree d !! p) as [old|] eqn:Hp.
    + rewrite map_size_insert_Some by (by eexists). apply Hwf.
    + rewrite map_size_insert_None in * by done. rewrite (wf_count d Hwf), sat_add64_exact; lia.
Qed.

Lemma wf_remove d p : disk_wf d → p ≠ "/" →
  disk_wf (disk_use (disk_remove d p) (usage (disk_remove d p))).
Proof.
  intros Hwf Hp. pose proof (usage_remove d p) as Hu. pose proof (cost_at_le d p).
  pose proof (wf_used d Hwf). pose proof (wf_limit d Hwf). pose proof (wf_count d Hwf) as Hc.
  unfold disk_remove in *. destruct (dk_tree d !! p) as [old|] eqn:Hold.
  - constructor; try apply Hwf; try done.
    + simpl. rewrite lookup_delete_ne by done. apply Hwf.
    + simpl. rewrite Hc. rewrite map_size_delete_Some by (by eexists).
      assert (size (dk_tree d) ≠ 0%nat) by (apply map_size_ne_0_lookup; eauto). unfold sat_sub. lia.
    + simpl in *. lia.
  - constructor; try apply Hwf; try done. simpl. lia.
Qed.

Lemma sat_add64_below a b limit :
  limit < U64_MAX → (limit <? sat_add64 a b) = false → sat_add64 a b = a + b ∧ a + b ≤ limit.
Proof. unfold sat_add64. intros ? ?%Z.ltb_ge. lia. Qed.

Lemma clamp64_below a b limit :
  limit < U64_MAX → 0 ≤ a → (limit <? sat_add64 a (clamp64 b)) = false →
  sat_add64 a (clamp64 b) = a + b ∧ a + b ≤ limit.
Proof. unfold sat_add64, clamp64. intros ? ? ?%Z.ltb_ge. lia. Qed.

Lemma node_usage_clamp v p n : p ≠ "/" → node_usage v p n = clamp64 (cost (disk_of v) p n).
Proof.
  intros Hp. unfold node_usage, cost, is_free. rewrite (bool_decide_eq_false_2 (p = "/")) by done. simpl.
  destruct (nd_kind n); try case_bool_decide; done.
Qed.

Lemma gross_clamp n : sat_add64 NODE_OVERHEAD (node_payload_len n) = clamp64 (gross n).
Proof. reflexivity. Qed.

Lemma wf_limit_max d : disk_wf d → dk_limit d < U64_MAX.
Proof. intros Hwf. pose proof (wf_room d Hwf). lia. Qed.

(** ** What every mutation keeps

    A mutation leaves a well-formed disk, and one that fails leaves the disk as it was. *)

Definition keeps {A} (v : Vfs) (out : Vfs * result VfsError A) : Prop :=
  disk_wf (disk_of out.1) ∧ match out.2 with Err _ => disk_of out.1 = disk_of v | Ok _ => True end.

Definition run_keeps {A} (v : Vfs) (r : run (Vfs * result VfsError A)) : Prop :=
  match r with Ret out => keeps v out | Panic | NoFuel => True end.

Lemma keeps_same {A} v v' (r : result VfsError A) :
  disk_wf (disk_of v) → disk_of v' = disk_of v → keeps v (v', r).
Proof. intros Hwf Hd. split; simpl; [by rewrite Hd|by destruct r]. Qed.

Lemma keeps_from {A} v v1 (out : Vfs * result VfsError A) :
  disk_of v1 = disk_of v → keeps v1 out → keeps v out.
Proof. intros Hd [Hwf He]. split; [done|]. destruct (out.2); [done|]. congruence. Qed.

Lemma keeps_ok {A} v v' (a : A) d : disk_of v' = d → disk_wf d → keeps v (v', Ok a).
Proof. intros <- Hwf. done. Qed.

Lemma child_path_not_root parent name : name ≠ "" → child_path parent name ≠ "/".
Proof.
  unfold child_path. destruct name as [|c name]; [done|]. intros _. case_bool_decide; [done|].
  intros Heq%(f_equal String.length). rewrite !length_append in Heq. simpl in Heq. lia.
Qed.

Lemma resolved_basename_nonempty cwd path : basename (resolve_against cwd path) ≠ "".
Proof.
  destruct (resolve_against_clean cwd path) as (cs & Hcs & ->).
  destruct cs as [|c cs _] using rev_ind; [done|]. apply Forall_app in Hcs as [_ Hc].
  apply (Forall_singleton clean c) in Hc. rewrite basename_snoc by done. apply Hc.
Qed.

Lemma write_target_not_root v cwd path target : write_target v cwd path = Ok target → target ≠ "/".
Proof.
  unfold write_target, mbind, result_bind. destruct (reject_pseudo_mutation _); [|discriminate].
  destruct (check_path_limits _); [|discriminate]. cbv zeta.
  destruct (realpath v _ true) as [rp|]; [|discriminate]. intros [= <-].
  apply child_path_not_root, resolved_basename_nonempty.
Qed.

Section accounting.
Context (v : Vfs) (Hwf : disk_wf (disk_of v)).
Abbreviation d := (disk_of v).

Lemma limit_below : vf_disk_limit v < U64_MAX.
Proof. exact (wf_limit_max _ Hwf). Qed.

Lemma disk_used_range : 0 ≤ vf_disk_used v ≤ vf_disk_limit v.
Proof.
  pose proof (wf_used d Hwf) as Hu. pose proof (wf_limit d Hwf). pose proof (cost_at_le d "/").
  simpl in *. lia.
Qed.

Lemma adding_exact b used : 0 ≤ b →
  usage_after_adding v (clamp64 b) = Ok used → used = vf_disk_used v + b ∧ used ≤ vf_disk_limit v.
Proof.
  intros Hb. unfold usage_after_adding. cbv zeta. case_match eqn:Hlim; [done|]. intros [= <-].
  pose proof disk_used_range. destruct (clamp64_below (vf_disk_used v) b _ limit_below); [lia|done|lia].
Qed.

Lemma cost_at_clamp p : p ≠ "/" →
  (match raw_get v p with Some n => node_usage v p n | None => 0 end) = cost_at d p.
Proof.
  intros Hp. pose proof (cost_at_le d p). pose proof disk_used_range. pose proof limit_below.
  pose proof (wf_used d Hwf). unfold cost_at in *. simpl in *. rewrite visible_lookup in *.
  destruct (raw_get v p) as [n|]; [|done]. rewrite node_usage_clamp by done. apply clamp64_id. lia.
Qed.

Lemma projected_exact p b used : p ≠ "/" → 0 ≤ b →
  projected_usage_after_replacement v p (clamp64 b) = Ok used →
  used = vf_disk_used v - cost_at d p + b ∧ used ≤ vf_disk_limit v.
Proof.
  intros Hp Hb. unfold projected_usage_after_replacement. rewrite cost_at_clamp by done. cbv zeta.
  pose proof (cost_at_le d p) as Hc. pose proof (wf_used d Hwf). pose proof disk_used_range.
  simpl in *. rewrite sat_sub_exact by lia. case_match eqn:Hlim; [done|]. intros [= <-].
  destruct (clamp64_below (vf_disk_used v - cost_at d p) b _ limit_below); [lia|done|lia].
Qed.

Lemma file_cost p n data : p ≠ "/" → nd_kind n = File data → cost d p n = 256 + zlen data.
Proof.
  intros Hp Hk. unfold cost, is_free, gross, node_payload_len. rewrite Hk.
  by rewrite bool_decide_eq_false_2.
Qed.

Lemma put_content_keeps target content data mode used :
  target ≠ "/" →
  used = vf_disk_used v - cost_at d target +
    (256 + zlen match nd_kind <$> raw_get v target with Some (File c) => content c | _ => data end) →
  used ≤ vf_disk_limit v → keeps v (put_content v target content data mode used).
Proof.
  intros Hp Hused Hle. destruct (put_content v target content data mode used) as [v' r] eqn:Hput.
  apply put_content_spec in Hput. destruct r as [[]|e]; [|by apply keeps_same].
  destruct Hput as (node & Hd & Hk). eapply keeps_ok; [exact Hd|]. apply wf_put; [done|done| |done].
  by rewrite (file_cost _ _ _ Hp Hk).
Qed.

Lemma write_keeps cwd path data mode : keeps v (vfs_write v cwd path data mode).
Proof.
  unfold vfs_write. destruct (write_target v cwd path) as [target|] eqn:Ht; [|by apply keeps_same].
  apply write_target_not_root in Ht. destruct (require_parent_dir v target); [|by apply keeps_same].
  case_match; [by apply keeps_same|]. cbv zeta.
  destruct (projected_usage_after_replacement _ _ _) as [used|] eqn:Hproj; [|by apply keeps_same].
  change (sat_add64 NODE_OVERHEAD (zlen data)) with (clamp64 (256 + zlen data)) in Hproj.
  apply projected_exact in Hproj as [Hused Hle]; [|done|lia].
  apply put_content_keeps; [done| |done]. rewrite Hused.
  by destruct (nd_kind <$> raw_get v target) as [[]|].
Qed.

Lemma append_keeps cwd path data mode :
  (∀ target n, write_target v cwd path = Ok target → raw_get v target = Some n →
     ∃ c, nd_kind n = File c ∨ nd_kind n = Dir) →
  keeps v (vfs_append v cwd path data mode).
Proof.
  intros Hplain. unfold vfs_append. destruct (write_target v cwd path) as [target|] eqn:Ht; [|by apply keeps_same].
  specialize (Hplain target). apply write_target_not_root in Ht as Hroot.
  destruct (require_parent_dir v target); [|by apply keeps_same].
  assert (Hat := eq_refl (cost_at d target)). unfold cost_at at 2 in Hat. simpl in Hat.
  rewrite visible_lookup in Hat. destruct (raw_get v target) as [n|] eqn:Hget.
  - destruct (Hplain n) as [c [Hk|Hk]]; [done..| |]; rewrite Hk; [|by apply keeps_same].
    rewrite (file_cost _ _ _ Hroot Hk) in Hat.
    destruct (usage_after_adding v (zlen data)) as [used|] eqn:Hadd; [|by apply keeps_same].
    assert (Hused : used = vf_disk_used v + zlen data ∧ used ≤ vf_disk_limit v).
    { unfold usage_after_adding in Hadd. case_match eqn:Hlim; [done|]. injection Hadd as <-.
      destruct (sat_add64_below _ _ _ limit_below Hlim). lia. }
    apply put_content_keeps; [done| |lia]. rewrite Hget. simpl. rewrite Hk, length_app. lia.
  - change (sat_add64 NODE_OVERHEAD (zlen data)) with (clamp64 (256 + zlen data)).
    destruct (usage_after_adding v _) as [used|] eqn:Hadd; [|by apply keeps_same].
    apply adding_exact in Hadd as [Hused Hle]; [|lia].
    apply put_content_keeps; [done| |done]. rewrite Hget. simpl. lia.
Qed.

(** A new node at a free path. *)
Lemma fresh_keeps target (node : Z → Vfs → Node) :
  target ≠ "/" → raw_get v target = None →
  keeps v
    (let '(v1, inode) := allocate_inode v in
     let? inode := inode orelse v1 in
     let? used := usage_after_adding v1 (node_usage v1 target (node inode v1)) orelse v1 in
     (record_usage (insert_node v1 target (node inode v1)) used, Ok tt)).
Proof.
  intros Hroot Hget. destruct (allocate_inode_spec v) as (next & r & -> & _).
  destruct r as [inode|e]; [|by apply keeps_same].
  change (usage_after_adding (set_next_inode v next)) with (usage_after_adding v).
  change (node_usage (set_next_inode v next)) with (node_usage v).
  rewrite node_usage_clamp by done.
  destruct (usage_after_adding v _) as [used|] eqn:Hadd; [|by apply keeps_same].
  apply adding_exact in Hadd as [Hused Hle]; [|apply cost_nonneg].
  eapply keeps_ok; [exact (f_equal (λ d', disk_use d' used) (disk_insert _ target _))|].
  apply wf_put; [done|done| |done]. rewrite Hused. unfold cost_at. cbn [dk_tree disk_of].
  change (visible (set_next_inode v next)) with (visible v). rewrite visible_lookup, Hget. simpl.
  change (disk_of (set_next_inode v next)) with (disk_of v). lia.
Qed.

Lemma contains_node_false target : contains_node v target = false → raw_get v target = None.
Proof. unfold contains_node. by destruct (raw_get v target). Qed.

Lemma mkdir_keeps cwd path : keeps v (vfs_mkdir v cwd path).
Proof.
  unfold vfs_mkdir. destruct (write_target v cwd path) as [target|] eqn:Ht; [|by apply keeps_same].
  apply write_target_not_root in Ht. case_match eqn:Hc; [by apply keeps_same|].
  apply contains_node_false in Hc. destruct (require_parent_dir v target); [|by apply keeps_same].
  by apply (fresh_keeps target (λ inode v1, node_dir inode 493 (vf_mutation_time v1))).
Qed.

Lemma symlink_keeps cwd to path : keeps v (vfs_symlink v cwd to path).
Proof.
  unfold vfs_symlink. destruct (write_target v cwd path) as [target|] eqn:Ht; [|by apply keeps_same].
  apply write_target_not_root in Ht. case_match eqn:Hc; [by apply keeps_same|].
  apply contains_node_false in Hc. destruct (require_parent_dir v target); [|by apply keeps_same].
  by apply (fresh_keeps target (λ inode v1, MkNode inode (Symlink to) 511 0 0 (vf_mutation_time v1))).
Qed.

(** Replacing the node behind a borrow by one of the same kind. *)
Lemma same_kind_keeps p n m :
  raw_get v p = Some n → nd_kind m = nd_kind n →
  keeps v (store_node (node_mut v p).1 p m, Ok tt).
Proof.
  intros Hp Hk. destruct (disk_node_mut v p) as (_ & Hd & Hsame & _).
  eapply keeps_ok; [apply (disk_store _ p m n); by rewrite Hsame|]. rewrite Hd.
  replace (disk_put d p m) with (disk_use (disk_put d p m) (vf_disk_used v)) by done.
  assert (Hcost : cost d p m = cost d p n).
  { unfold cost, is_free, gross, node_payload_len. by rewrite Hk. }
  apply wf_put; [done| | |apply disk_used_range].
  - intros ->. destruct (wf_root d Hwf) as (n' & Hn' & Hdir). simpl in Hn'. rewrite visible_lookup in Hn'.
    congruence.
  - unfold cost_at. simpl. rewrite visible_lookup, Hp. lia.
Qed.

Lemma node_mut_pair p : node_mut v p = ((node_mut v p).1, raw_get v p).
Proof. destruct (disk_node_mut v p) as [<- _]. apply surjective_pairing. Qed.

(** New contents behind the borrow of a file. *)
Lemma store_file_keeps p n old new mtime used :
  p ≠ "/" → raw_get v p = Some n → nd_kind n = File old →
  used = vf_disk_used v - zlen old + zlen new → used ≤ vf_disk_limit v →
  keeps v (record_usage (store_node (node_mut v p).1 p (with_mtime (with_kind n (File new)) mtime)) used, Ok tt).
Proof.
  intros Hroot Hp Hk Hused Hle. destruct (disk_node_mut v p) as (_ & Hd & Hsame & _).
  eapply keeps_ok; [refine (f_equal (λ d', disk_use d' used) (disk_store _ p _ n _)); by rewrite Hsame|].
  simpl. rewrite Hd. apply wf_put; [done|done| |done]. unfold cost_at. simpl. rewrite visible_lookup, Hp.
  rewrite (file_cost p n old), (file_cost p _ new) by done. lia.
Qed.

End accounting.

Lemma touch_keeps v cwd path mtime : disk_wf (disk_of v) → keeps v (vfs_touch v cwd path mtime).
Proof.
  intros Hwf. unfold vfs_touch. destruct (write_target v cwd path) as [target|] eqn:Ht; [|by apply keeps_same].
  apply write_target_not_root in Ht. rewrite node_mut_pair.
  destruct (disk_node_mut v target) as (_ & Hd & Hsame & _).
  destruct (raw_get v target) as [n|] eqn:Hget; [by apply same_kind_keeps with n|].
  apply (keeps_from _ _ _ Hd). rewrite <-Hd in Hwf.
  destruct (require_parent_dir _ target); [|by apply keeps_same].
  apply (fresh_keeps _ Hwf target (λ inode _, node_file inode [] 420 mtime)); [done|]. by rewrite Hsame.
Qed.

Lemma chmod_keeps v cwd path mode : disk_wf (disk_of v) → keeps v (vfs_chmod v cwd path mode).
Proof.
  intros Hwf. unfold vfs_chmod. cbv zeta. destruct (reject_pseudo_mutation _); [|by apply keeps_same].
  destruct (realpath v _ true) as [real|]; [|by apply keeps_same]. rewrite node_mut_pair.
  destruct (raw_get v real) as [n|] eqn:Hget; [by apply same_kind_keeps with n|].
  apply keeps_same; [done|]. apply disk_node_mut.
Qed.

Lemma chown_keeps v cwd path uid gid : disk_wf (disk_of v) → keeps v (vfs_chown v cwd path uid gid).
Proof.
  intros Hwf. unfold vfs_chown. cbv zeta. destruct (reject_pseudo_mutation _); [|by apply keeps_same].
  destruct (realpath v _ true) as [real|]; [|by apply keeps_same]. rewrite node_mut_pair.
  destruct (raw_get v real) as [n|] eqn:Hget; [by apply same_kind_keeps with n|].
  apply keeps_same; [done|]. apply disk_node_mut.
Qed.

Lemma write_at_keeps v cwd path offset data : disk_wf (disk_of v) → 0 ≤ offset →
  run_keeps v (write_at v cwd path offset data).
Proof.
  intros Hwf Ho. unfold write_at.
  destruct (write_target v cwd path) as [target|] eqn:Ht; [|by apply keeps_same].
  apply write_target_not_root in Ht. destruct (checked_add64 _ _) as [end_|] eqn:Hend; [|by apply keeps_same].
  apply checked_add64_Some in Hend as [-> Hend]. rewrite node_mut_pair.
  destruct (raw_get v target) as [n|] eqn:Hget; [|by apply keeps_same]. simpl.
  destruct (nd_kind n) as [old| | |] eqn:Hk; try by apply keeps_same.
  destruct (usage_after_adding v _) as [used|] eqn:Hadd; [|by apply keeps_same].
  unfold usage_after_adding in Hadd. case_match eqn:Hlim; [done|]. injection Hadd as <-.
  destruct (sat_add64_below _ _ _ (limit_below v Hwf) Hlim) as [-> Hle].
  apply store_file_keeps with old; try done. rewrite write_content_length by done. unfold sat_sub. lia.
Qed.

(** Resolving a path on which nothing is a link. *)
Lemma realpath_inner_link_free v fuel cs follow r :
  Forall clean cs → link_free v cs → realpath_inner v fuel (path_of cs) follow = Ok r → r = path_of cs.
Proof.
  revert fuel follow r. induction cs as [|c cs IH] using rev_ind; intros [|fuel] follow r Hcs Hfree; try done.
  { by intros [= <-]. }
  apply Forall_app in Hcs as [Hcs Hc]. apply (Forall_singleton clean c) in Hc.
  rewrite realpath_inner_S, bool_decide_eq_false_2 by (by apply path_of_snoc_not_root).
  rewrite parent_of_snoc, basename_snoc by done.
  change (default "/" (Some (path_of cs))) with (path_of cs).
  destruct (realpath_inner v fuel (path_of cs) true) as [rp|] eqn:Hp; [|done].
  apply IH in Hp as ->; [|done|by eapply link_free_prefix]. cbv zeta.
  rewrite <-path_of_snoc_child by done. rewrite Hfree; [|done|by destruct cs]. by intros [= <-].
Qed.

(** Where a write lands: a canonical path below directories that are not links. *)
Lemma write_target_shape v cwd path target :
  resolve_against cwd path ≠ "/" → write_target v cwd path = Ok target →
  ∃ rs c, Forall clean rs ∧ clean c ∧ target = path_of (rs ++ [c]) ∧ link_free v rs.
Proof.
  destruct (resolve_against_clean cwd path) as (cs & Hcs & Habs).
  unfold write_target, mbind, result_bind. rewrite Habs. intros Hroot.
  destruct (reject_pseudo_mutation _); [|discriminate].
  destruct (check_path_limits _); [|discriminate]. cbv zeta.
  destruct cs as [|c cs _] using rev_ind; [done|]. apply Forall_app in Hcs as [Hcs Hc].
  apply (Forall_singleton clean c) in Hc. rewrite parent_of_snoc, basename_snoc by done.
  change (default "/" (Some (path_of cs))) with (path_of cs).
  destruct (realpath v (path_of cs) true) as [rp|] eqn:Hp; [|discriminate]. intros [= <-].
  destruct (realpath_shape v cs rp Hcs Hp) as (rs & Hrs & Heq & Hf). exists rs, c.
  rewrite path_of_snoc_child, Heq by exact Hrs. auto.
Qed.

Lemma starts_with_slash cs : starts_with "/" (path_of cs) = true.
Proof. unfold starts_with, path_of. destruct cs; [done|]. by apply bool_decide_eq_true_2; eexists. Qed.

Lemma resolve_path_of cwd cs : Forall clean cs → resolve_against cwd (path_of cs) = path_of cs.
Proof. intros Hcs. unfold resolve_against. rewrite starts_with_slash. by apply normalize_path_of_clean. Qed.

Lemma realpath_root v follow : realpath v "/" follow = Ok "/".
Proof. reflexivity. Qed.

Lemma write_target_root v cwd path target :
  resolve_against cwd path = "/" → write_target v cwd path = Ok target → target = "//".
Proof.
  unfold write_target, mbind, result_bind. intros ->.
  destruct (reject_pseudo_mutation "/"); [|discriminate].
  destruct (check_path_limits "/"); [|discriminate]. cbv zeta.
  change (default "/" (parent_of "/")) with "/". rewrite realpath_root. by intros [= <-].
Qed.

Lemma realpath_link_free v cs follow r :
  Forall clean cs → link_free v cs → realpath v (path_of cs) follow = Ok r → r = path_of cs.
Proof. unfold realpath. apply realpath_inner_link_free. Qed.

(** The length [resize_file] reads is that of the file it will resize. *)
Lemma resize_target_len v cwd path target n content old_size :
  disk_wf (disk_of v) → write_target v cwd path = Ok target → raw_get v target = Some n →
  nd_kind n = File content → file_len v "/" target = Ok old_size → old_size = zlen content.
Proof.
  intros Hwf Ht Hget Hk. unfold file_len, resolved, mbind, result_bind.
  destruct (decide (resolve_against cwd path = "/")) as [Hroot|Hroot].
  - apply write_target_root in Ht as ->; [|done].
    change (resolve_against "/" "//") with "/". rewrite realpath_root. cbn [fmap result_fmap].
    destruct (wf_root _ Hwf) as (rn & Hr & Hdir). simpl in Hr. rewrite visible_lookup in Hr.
    rewrite Hr. cbn [fmap option_fmap option_map]. by rewrite Hdir.
  - destruct (write_target_shape _ _ _ _ Hroot Ht) as (rs & c & Hrs & Hc & -> & Hfree).
    assert (Hall : Forall clean (rs ++ [c])) by (by apply Forall_clean_snoc).
    rewrite resolve_path_of by done.
    destruct (realpath v (path_of (rs ++ [c])) true) as [r|] eqn:Hr; [|discriminate].
    apply realpath_link_free in Hr as ->; [|done|].
    + cbn [fmap result_fmap]. rewrite Hget. cbn [fmap option_fmap option_map]. rewrite Hk. congruence.
    + apply link_free_snoc; [done|]. unfold symlink_at. rewrite Hget. by destruct n as [? [] ? ? ? ?].
Qed.

Lemma resize_exact v old size used p n content :
  disk_wf (disk_of v) → p ≠ "/" → raw_get v p = Some n → nd_kind n = File content → old = zlen content →
  0 ≤ size → usage_after_resize v old size = Ok used →
  used = vf_disk_used v - old + size ∧ used ≤ vf_disk_limit v.
Proof.
  intros Hwf Hp Hget Hk -> Hsize. unfold usage_after_resize, usage_after_adding, mbind, result_bind. cbv zeta.
  case_match eqn:Hlim; [|by case_match]. case_match eqn:Hmax; [done|]. simplify_eq.
  destruct (sat_add64_below _ _ _ (limit_below v Hwf) Hmax) as [-> Hle]. intros [= <-].
  pose proof (cost_at_le (disk_of v) p) as Hcost. pose proof (wf_used _ Hwf) as Hused.
  pose proof (disk_used_range v Hwf). unfold cost_at in Hcost. simpl in Hcost, Hused.
  rewrite visible_lookup, Hget, (file_cost v p n content) in Hcost by done. unfold sat_sub in *. lia.
Qed.

Lemma resize_file_keeps v cwd path size : disk_wf (disk_of v) → 0 ≤ size →
  run_keeps v (resize_file v cwd path size).
Proof.
  intros Hwf Hsize. unfold resize_file.
  destruct (write_target v cwd path) as [target|] eqn:Ht; [|by apply keeps_same].
  apply write_target_not_root in Ht as Hroot.
  destruct (file_len v "/" target) as [old_size|] eqn:Hlen; [|by apply keeps_same].
  destruct (usage_after_resize v old_size size) as [used|] eqn:Hu; [|by apply keeps_same].
  rewrite node_mut_pair. destruct (raw_get v target) as [n|] eqn:Hget; [|done]. simpl.
  destruct (nd_kind n) as [content| | |] eqn:Hk; try done.
  pose proof (resize_target_len _ _ _ _ _ _ _ Hwf Ht Hget Hk Hlen) as Hold.
  destruct (resize_exact _ _ _ _ _ _ _ Hwf Hroot Hget Hk Hold Hsize Hu).
  apply store_file_keeps with content; try done. rewrite resize_vec_length by done. lia.
Qed.

(** ** Removal *)

(** A disk that is well formed once its usage is measured. *)
Definition settled (d : Disk) : Prop := disk_wf (disk_use d (usage d)).

Lemma settled_wf d : disk_wf d → settled d.
Proof. intros Hwf. unfold settled. rewrite <-(wf_used d Hwf). by destruct d. Qed.

Lemma settled_remove d p : settled d → p ≠ "/" → settled (disk_remove d p).
Proof.
  intros Hs Hp. pose proof (wf_remove _ p Hs Hp) as Hw. unfold settled, disk_remove in *. simpl in *.
  by destruct (dk_tree d !! p).
Qed.

Lemma settled_remove_all d ks :
  settled d → Forall (λ k, k ≠ "/") ks → settled (foldl disk_remove d ks).
Proof.
  intros Hs Hks. revert d Hs. induction Hks as [|k ks Hk Hks IH]; intros d Hs; [done|].
  by apply IH, settled_remove.
Qed.

Lemma refresh_keeps {A} v v' (a : A) : settled (disk_of v') → keeps v (refresh_usage v', Ok a).
Proof.
  intros Hs. eapply keeps_ok; [reflexivity|]. unfold settled in Hs.
  destruct (usage_fits (disk_of v')) as [Hfits _]; [exact (wf_dirs _ Hs)|exact (wf_native _ Hs)
    |exact (wf_limit _ Hs)|exact (wf_room _ Hs)|].
  change (disk_of (refresh_usage v')) with (disk_use (disk_of v') (measured_usage v')).
  rewrite measured_exact; [exact Hs|exact (wf_dirs _ Hs)|exact (wf_native _ Hs)|exact Hfits].
Qed.

Lemma remove_node_keeps v p : disk_wf (disk_of v) → p ≠ "/" → keeps v (refresh_usage (remove_node v p).1, Ok tt).
Proof.
  intros Hwf Hp. apply refresh_keeps. rewrite disk_removed. by apply settled_remove; [apply settled_wf|].
Qed.

Lemma not_dir_not_root v p n : disk_wf (disk_of v) → raw_get v p = Some n → nd_kind n ≠ Dir → p ≠ "/".
Proof.
  intros Hwf Hget Hk ->. destruct (wf_root _ Hwf) as (rn & Hr & Hdir). simpl in Hr.
  rewrite visible_lookup in Hr. congruence.
Qed.

Lemma remove_file_keeps v cwd path : disk_wf (disk_of v) → keeps v (remove_file v cwd path).
Proof.
  intros Hwf. unfold remove_file. cbv zeta. destruct (reject_pseudo_mutation _); [|by apply keeps_same].
  destruct (realpath v _ false) as [real|]; [|by apply keeps_same].
  destruct (raw_get v real) as [n|] eqn:Hget; [|by apply keeps_same]. cbn [fmap option_fmap option_map].
  destruct (nd_kind n) eqn:Hk; [|by apply keeps_same| |].
  all: apply remove_node_keeps; [done|]; apply (not_dir_not_root v real n); congruence.
Qed.

Lemma rmdir_keeps v cwd path : disk_wf (disk_of v) → realpath v (resolve_against cwd path) true ≠ Ok "/" →
  keeps v (vfs_rmdir v cwd path).
Proof.
  intros Hwf Hroot. unfold vfs_rmdir. cbv zeta. destruct (reject_pseudo_mutation _); [|by apply keeps_same].
  destruct (realpath v _ true) as [real|]; [|by apply keeps_same].
  destruct (raw_get v real) as [n|] eqn:Hget; [|by apply keeps_same]. cbn [fmap option_fmap option_map].
  destruct (nd_kind n) eqn:Hk; [by apply keeps_same| |by apply keeps_same..].
  destruct (list_dir v cwd path) as [[|]|]; [|by apply keeps_same..].
  apply remove_node_keeps; [done|]. congruence.
Qed.

Lemma disk_removed_all v ks :
  disk_of (foldl (λ v k, (remove_node v k).1) v ks) = foldl disk_remove (disk_of v) ks.
Proof.
  revert v. induction ks as [|k ks IH]; intros v; [done|]. simpl. by rewrite IH, disk_removed.
Qed.

Lemma walk_not_root v real : real ≠ "/" → real ≠ "" → Forall (λ k, k ≠ "/") (walk v real).
Proof.
  intros Hr He. apply Forall_forall. intros k Hk. unfold walk in Hk.
  apply list_elem_of_fmap in Hk as ([k' n] & -> & Hin). simpl. apply list_elem_of_filter in Hin as [Hin _].
  apply orb_true_iff in Hin as [Heq|Hpre]; bool_to_prop; [congruence|]. intros ->.
  unfold starts_with, dir_prefix in Hpre. bool_to_prop. destruct Hpre as [rest Hrest].
  rewrite bool_decide_eq_false_2 in Hrest by done. apply strip_prefix_Some in Hrest.
  apply (f_equal String.length) in Hrest. rewrite !length_append in Hrest.
  destruct real; [done|]. simpl in Hrest. lia.
Qed.

Lemma realpath_nonempty v cwd path follow real :
  realpath v (resolve_against cwd path) follow = Ok real → real ≠ "".
Proof.
  destruct (resolve_against_clean cwd path) as (cs & Hcs & ->). unfold realpath. intros Hr.
  destruct (realpath_inner_canonical v 41 cs follow real Hcs Hr) as (rs & _ & -> & _). by destruct rs.
Qed.

Lemma remove_all_keeps v cwd path :
  disk_wf (disk_of v) → realpath v (resolve_against cwd path) false ≠ Ok "/" → keeps v (remove_all v cwd path).
Proof.
  intros Hwf Hroot. unfold remove_all. cbv zeta. destruct (reject_pseudo_mutation _); [|by apply keeps_same].
  destruct (realpath v _ false) as [real|] eqn:Hr; [|by apply keeps_same].
  case_match; [by apply keeps_same|]. apply refresh_keeps. rewrite disk_removed_all.
  apply settled_remove_all; [by apply settled_wf|]. apply walk_not_root; [congruence|].
  by eapply realpath_nonempty.
Qed.

(** ** Unlinked files *)

Lemma usage_orphans d orphans next :
  usage (disk_orphans d orphans next) = map_sum (cost d) (dk_tree d) + map_sum (λ _, gross) orphans.
Proof. reflexivity. Qed.

Lemma orphan_fresh d : disk_wf d → dk_orphans d !! dk_next_orphan d = None.
Proof.
  intros Hwf. destruct (dk_orphans d !! dk_next_orphan d) as [n|] eqn:Hn; [|done].
  apply Hwf in Hn as [? _]. lia.
Qed.

(** Moving a file from the tree to the unlinked files leaves the usage as it is. *)
Lemma settled_unlink d p n data :
  disk_wf d → p ≠ "/" → dk_tree d !! p = Some n → nd_kind n = File data →
  settled (disk_orphans (disk_remove d p) (<[dk_next_orphan d := n]> (dk_orphans d)) (dk_next_orphan d + 1)).
Proof.
  intros Hwf Hp Hget Hk. pose proof (settled_remove d p (settled_wf d Hwf) Hp) as Hs.
  assert (Hcost : cost d p n = gross n).
  { unfold cost, is_free. rewrite Hk. by rewrite bool_decide_eq_false_2. }
  unfold settled, disk_remove in *. rewrite Hget in *.
  assert (Hu : usage (disk_orphans (disk_tree d (delete p (dk_tree d)) (sat_sub (dk_count d) 1))
    (<[dk_next_orphan d := n]> (dk_orphans d)) (dk_next_orphan d + 1)) = usage d).
  { rewrite usage_orphans, map_sum_insert by (by apply orphan_fresh). simpl.
    change (cost (disk_tree d _ _)) with (cost d). rewrite (map_sum_delete _ _ _ _ Hget). unfold usage. lia. }
  constructor; try apply Hs; try done.
  - simpl. intros id m. rewrite lookup_insert. case_decide as Hid.
    + intros [= <-]. split; [lia|eauto].
    + intros Hm. apply (wf_orphans d Hwf) in Hm as [? ?]. split; [lia|done].
  - simpl. rewrite Hu, <-(wf_used d Hwf). apply Hwf.
Qed.

Lemma unlink_keeps v cwd path : disk_wf (disk_of v) → run_keeps v (unlink_open_file v cwd path).
Proof.
  intros Hwf. unfold unlink_open_file. cbv zeta. destruct (reject_pseudo_mutation _); [|by apply keeps_same].
  destruct (realpath v _ false) as [real|]; [|by apply keeps_same].
  destruct (raw_get v real) as [n|] eqn:Hget; [|by apply keeps_same]. cbn [fmap option_fmap option_map].
  destruct (nd_kind n) as [data| | |] eqn:Hk; [|by apply keeps_same..].
  destruct (checked_add64 _ _) as [next|] eqn:Hnext; [|by apply keeps_same].
  apply checked_add64_Some in Hnext as [-> _].
  assert (Hroot : real ≠ "/") by (apply (not_dir_not_root v real n); congruence).
  pose proof (disk_removed (set_orphaned v (vf_orphaned v) (vf_next_orphan v + 1)) real) as Hd.
  pose proof (settled_unlink (disk_of v) real n data Hwf Hroot) as Hs. simpl in Hs.
  rewrite visible_lookup in Hs. specialize (Hs Hget Hk).
  assert (Hrm : (remove_node (set_orphaned v (vf_orphaned v) (vf_next_orphan v + 1)) real).2 = Some n).
  { unfold remove_node. rewrite raw_get_orphaned, Hget. done. }
  destruct (remove_node _ real) as [v1 removed]. simpl in Hrm, Hd. subst removed. simpl.
  apply refresh_keeps.
  change (settled (disk_orphans (disk_of v1) (<[vf_next_orphan v := n]> (dk_orphans (disk_of v1)))
    (dk_next_orphan (disk_of v1)))).
  rewrite Hd. change (disk_of (set_orphaned v ?o ?k)) with (disk_orphans (disk_of v) o k).
  revert Hs. unfold disk_remove. simpl. by rewrite visible_lookup, Hget.
Qed.

Lemma wf_orphan_store d id n m data used :
  disk_wf d → dk_orphans d !! id = Some n → nd_kind m = File data →
  used = dk_used d - gross n + gross m → used ≤ dk_limit d →
  disk_wf (disk_use (disk_orphans d (<[id := m]> (dk_orphans d)) (dk_next_orphan d)) used).
Proof.
  intros Hwf Hid Hk Hused Hle. constructor; try apply Hwf; try done.
  - simpl. intros id' m'. rewrite lookup_insert. case_decide as Heq.
    + intros [= <-]. subst. split; [by eapply Hwf|eauto].
    + apply Hwf.
  - simpl. change (usage (disk_use ?d' _)) with (usage d'). rewrite usage_orphans.
    rewrite (map_sum_replace _ _ _ _ _ Hid), Hused, (wf_used d Hwf). unfold usage. lia.
Qed.

Lemma store_orphan_keeps v id n old new used :
  disk_wf (disk_of v) → vf_orphaned v !! id = Some n → nd_kind n = File old →
  used = vf_disk_used v - zlen old + zlen new → used ≤ vf_disk_limit v →
  keeps v (record_usage (store_orphan v id (with_kind n (File new))) used, Ok tt).
Proof.
  intros Hwf Hid Hk Hused Hle. eapply keeps_ok; [reflexivity|].
  apply (wf_orphan_store (disk_of v) id n (with_mtime (with_kind n (File new)) (vf_mutation_time v)) new);
    try done. simpl. unfold gross, node_payload_len. simpl. rewrite Hk. lia.
Qed.

Lemma orphan_used v id n old :
  disk_wf (disk_of v) → vf_orphaned v !! id = Some n → nd_kind n = File old → zlen old ≤ vf_disk_used v.
Proof.
  intros Hwf Hid Hk. pose proof (wf_used _ Hwf) as Hu. pose proof (costs_nonneg (disk_of v)).
  pose proof (map_sum_elem_le (λ _, gross) (vf_orphaned v) id n
    ltac:(intros ? m; pose proof (gross_pos m); lia) Hid) as Hle.
  unfold usage, gross, node_payload_len, NODE_OVERHEAD in *. simpl in *. rewrite Hk in Hle. lia.
Qed.

Lemma write_orphan_keeps v id offset data : disk_wf (disk_of v) → 0 ≤ offset →
  run_keeps v (write_orphan_at v id offset data).
Proof.
  intros Hwf Ho. unfold write_orphan_at.
  destruct (checked_add64 _ _) as [end_|] eqn:Hend; [|by apply keeps_same].
  apply checked_add64_Some in Hend as [-> _].
  destruct (vf_orphaned v !! id) as [n|] eqn:Hid; [|by apply keeps_same].
  destruct (nd_kind n) as [old| | |] eqn:Hk; [|done..]. cbv zeta.
  case_match eqn:Hlim; [by apply keeps_same|].
  destruct (sat_add64_below _ _ _ (limit_below v Hwf) Hlim) as [Heq Hle].
  change (vf_disk_used (store_orphan v id _)) with (vf_disk_used v). rewrite Heq.
  apply store_orphan_keeps with old; try done. rewrite write_content_length by done. unfold sat_sub. lia.
Qed.

Lemma resize_orphan_keeps v id size : disk_wf (disk_of v) → 0 ≤ size →
  run_keeps v (resize_orphan v id size).
Proof.
  intros Hwf Hsize. unfold resize_orphan.
  destruct (vf_orphaned v !! id) as [n|] eqn:Hid; [|by apply keeps_same].
  destruct (nd_kind n) as [old| | |] eqn:Hk; [|done..].
  destruct (usage_after_resize v (zlen old) size) as [used|] eqn:Hu; [|by apply keeps_same].
  unfold usage_after_resize, usage_after_adding, mbind, result_bind in Hu. cbv zeta in Hu.
  destruct (_ <? _) eqn:Hlim in Hu; [done|]. injection Hu as <-.
  destruct (sat_add64_below _ _ _ (limit_below v Hwf) Hlim) as [-> Hle].
  pose proof (orphan_used v id n old Hwf Hid Hk).
  apply store_orphan_keeps with old; try done; rewrite ?resize_vec_length by done; unfold sat_sub in *; lia.
Qed.

Lemma retained_sum (orphans : gmap Z Node) (live : gset Z) :
  map_sum (λ _, gross) (filter (λ '(id, _), id ∈ live) orphans) =
    map_sum (λ _, gross) orphans -
    map_sum (λ id n, if bool_decide (id ∈ live) then 0 else gross n) orphans.
Proof.
  rewrite <-(map_sum_filter (λ _, gross) (λ id _, bool_decide (id ∈ live))). f_equal.
  apply map_filter_ext. intros id n _. by rewrite bool_decide_eq_true.
Qed.

Lemma retain_freed (orphans : gmap Z Node) (live : gset Z) :
  sat_total (λ '(id, n), if bool_decide (id ∈ live) then 0 else sat_add64 NODE_OVERHEAD (node_payload_len n))
    (btree_iter orphans) =
  clamp64 (map_sum (λ id n, if bool_decide (id ∈ live) then 0 else gross n) orphans).
Proof.
  rewrite (sat_total_clamp (uncurry (λ id n, if bool_decide (id ∈ live) then 0 else gross n))).
  - by rewrite (exact_total_perm _ _ _ (btree_iter_perm orphans)), exact_total_map.
  - intros [id n]. simpl. pose proof (gross_pos n). case_bool_decide; lia.
  - intros [id n]. simpl. by case_bool_decide.
Qed.

Lemma retain_keeps v live : disk_wf (disk_of v) → disk_wf (disk_of (retain_orphans v live)).
Proof.
  intros Hwf. unfold retain_orphans. cbv zeta. rewrite retain_freed.
  pose proof (retained_sum (vf_orphaned v) live) as Hsum.
  set (freed := map_sum (λ id n, if bool_decide (id ∈ live) then 0 else gross n) (vf_orphaned v)) in *.
  assert (Hpos : 0 ≤ freed).
  { apply map_sum_nonneg. intros id n. pose proof (gross_pos n). case_bool_decide; lia. }
  pose proof (orphans_nonneg (filter (λ '(id, _), id ∈ live) (vf_orphaned v))) as Hkept.
  pose proof (costs_nonneg (disk_of v)) as Hc. pose proof (wf_used _ Hwf) as Hused.
  pose proof (disk_used_range v Hwf) as Hrange. pose proof (limit_below v Hwf) as Hmax.
  unfold usage in Hused. simpl in Hused, Hc. rewrite clamp64_id by lia.
  assert (Hwf' : disk_wf (disk_use (disk_orphans (disk_of v) (filter (λ '(id, _), id ∈ live) (vf_orphaned v))
    (vf_next_orphan v)) (vf_disk_used v - freed))).
  { constructor; try apply Hwf.
    - simpl. intros id n [Hid _]%map_lookup_filter_Some. by apply (wf_orphans _ Hwf).
    - change (usage (disk_use ?d' _)) with (usage d'). rewrite usage_orphans. simpl. lia.
    - simpl. lia. }
  case_match eqn:Hz; bool_to_prop.
  - cbn [vf_disk_used set_orphaned]. rewrite sat_sub_exact by lia. exact Hwf'.
  - replace (vf_disk_used v - freed) with (vf_disk_used v) in Hwf' by lia. exact Hwf'.
Qed.

(** ** Copies *)

Lemma replace_keeps v target (node : Z → Vfs → Node) :
  disk_wf (disk_of v) → target ≠ "/" →
  keeps v
    (let '(v1, inode) := allocate_inode v in
     let? inode := inode orelse v1 in
     let? used := projected_usage_after_replacement v1 target (node_usage v1 target (node inode v1)) orelse v1 in
     (record_usage (insert_node v1 target (node inode v1)) used, Ok tt)).
Proof.
  intros Hwf Hroot. destruct (allocate_inode_spec v) as (next & r & -> & _).
  destruct r as [inode|e]; [|by apply keeps_same].
  change (projected_usage_after_replacement (set_next_inode v next)) with (projected_usage_after_replacement v).
  change (node_usage (set_next_inode v next)) with (node_usage v).
  rewrite node_usage_clamp by done.
  destruct (projected_usage_after_replacement v _ _) as [used|] eqn:Hadd; [|by apply keeps_same].
  apply projected_exact in Hadd as [Hused Hle]; [|done|done|apply cost_nonneg].
  eapply keeps_ok; [exact (f_equal (λ d', disk_use d' used) (disk_insert _ target _))|].
  by apply wf_put.
Qed.

Lemma copy_file_keeps v cwd from to : disk_wf (disk_of v) → run_keeps v (copy_file v cwd from to).
Proof.
  intros Hwf. unfold copy_file, mbind at 1, result_bind at 1.
  destruct (reject_pseudo_mutation _); [|by apply keeps_same].
  destruct (metadata v cwd from true) as [source|]; [|by apply keeps_same].
  assert (Hother : run_keeps v match vfs_read v cwd from with
    | (v1, Err e) => Ret (v1, @Err VfsError unit e) | (_, Ok _) => Panic end).
  { unfold vfs_read. destruct (resolved v cwd from true) as [n|]; [|by apply keeps_same].
    destruct (nd_kind <$> n) as [[]|]; [done|by apply keeps_same..]. }
  destruct (nd_kind source) as [data| | |program] eqn:Hk; [|exact Hother..|]; clear Hother.
  - unfold run_keeps. destruct (write_target v cwd to) as [target|] eqn:Ht; [|by apply keeps_same].
    apply write_target_not_root in Ht. destruct (require_parent_dir v target); [|by apply keeps_same].
    case_match; [by apply keeps_same|].
    change (sat_add64 NODE_OVERHEAD (zlen data)) with (clamp64 (256 + zlen data)).
    destruct (projected_usage_after_replacement _ _ _) as [used|] eqn:Hproj; [|by apply keeps_same].
    apply projected_exact in Hproj as [Hused Hle]; [|done|done|lia]. cbv zeta.
    apply (keeps_from _ (set_read_bytes v (sat_add64 (vf_read_bytes v) (zlen data)))); [done|].
    apply put_content_keeps; [done|done| |done]. rewrite raw_get_read_bytes, Hused.
    by destruct (nd_kind <$> raw_get v target) as [[]|].
  - unfold run_keeps. destruct (write_target v cwd to) as [target|] eqn:Ht; [|by apply keeps_same].
    apply write_target_not_root in Ht. destruct (require_parent_dir v target); [|by apply keeps_same].
    by apply (replace_keeps v target (λ inode v1, MkNode inode (NativeExecutable program) (nd_mode source)
      (nd_uid source) (nd_gid source) (vf_mutation_time v1))).
Qed.

(** ** Creating several directories *)

(** The part of [disk_wf] that does not speak of the usage. *)
Definition sound (d : Disk) : Prop :=
  (∃ n, dk_tree d !! "/" = Some n ∧ nd_kind n = Dir) ∧ dk_count d = Z.of_nat (size (dk_tree d)).

Lemma sound_wf d d' used :
  disk_wf d → sound d' → dk_dirs d' = dk_dirs d → dk_native d' = dk_native d → dk_orphans d' = dk_orphans d →
  dk_next_orphan d' = dk_next_orphan d → dk_limit d' = dk_limit d → used = usage d' → used ≤ dk_limit d →
  disk_wf (disk_use d' used).
Proof.
  intros Hwf [Hroot Hcount] Hd Hn Ho Hnext Hl Hu Hle. constructor; simpl; try done.
  - rewrite Hd. apply Hwf.
  - rewrite Hn. apply Hwf.
  - rewrite Ho, Hnext. apply Hwf.
  - by rewrite Hl.
  - rewrite Hl, Hd, Hn. apply Hwf.
Qed.

Lemma sound_put d p n :
  sound d → (p = "/" → nd_kind n = Dir) → Z.of_nat (size (dk_tree d)) + 1 ≤ U64_MAX → sound (disk_put d p n).
Proof.
  intros [Hroot Hcount] Hdir Hsize. split; simpl.
  - destruct (decide (p = "/")) as [->|Hp].
    + exists n. rewrite lookup_insert_eq. auto.
    + by rewrite lookup_insert_ne.
  - destruct (dk_tree d !! p) as [old|] eqn:Hp.
    + by rewrite map_size_insert_Some by (by eexists).
    + rewrite map_size_insert_None, Hcount, sat_add64_exact by done. lia.
Qed.

Definition dirs_cost (dirs : gset string) (additions : list string) : Z :=
  exact_total (λ p, if bool_decide (p ∈ dirs) then 0 else 256) additions.

Lemma dirs_cost_nonneg dirs additions : 0 ≤ dirs_cost dirs additions.
Proof. apply exact_total_nonneg. intros p. case_bool_decide; lia. Qed.

Lemma directory_addition_exact v additions :
  directory_addition_usage v additions = clamp64 (dirs_cost (vf_baseline_dirs v) additions).
Proof.
  unfold directory_addition_usage.
  rewrite (sat_total_clamp (λ _, 256)) by done. f_equal.
  unfold dirs_cost. induction additions as [|p additions IH]; [done|]. rewrite filter_cons. simpl.
  case_bool_decide as Hp; [rewrite decide_False by tauto|rewrite decide_True by done]; simpl; lia.
Qed.

(** Everything but the tree and the identities is as it was. *)
Definition same_frame (v v' : Vfs) : Prop :=
  vf_orphaned v' = vf_orphaned v ∧ vf_next_orphan v' = vf_next_orphan v ∧
  vf_disk_limit v' = vf_disk_limit v ∧ vf_baseline_dirs v' = vf_baseline_dirs v ∧
  vf_baseline_native v' = vf_baseline_native v ∧ vf_disk_used v' = vf_disk_used v.

Lemma allocate_room v : vf_next_inode v + 1 ≤ U64_MAX →
  allocate_inode v = (set_next_inode v (vf_next_inode v + 1), Ok (vf_next_inode v)).
Proof.
  intros Hroom. unfold allocate_inode, check_inode_capacity.
  destruct (checked_add64 (vf_next_inode v) 1) eqn:Hc; [done|]. apply checked_add64_None in Hc. lia.
Qed.

Lemma dir_cost d p inode mode mtime : p ≠ "/" →
  cost d p (node_dir inode mode mtime) = if bool_decide (p ∈ dk_dirs d) then 0 else 256.
Proof.
  intros Hp. unfold cost, is_free. rewrite (bool_decide_eq_false_2 (p = "/")) by done. simpl.
  by case_bool_decide.
Qed.

Lemma insert_each_spec v additions :
  sound (disk_of v) → NoDup additions → (∀ a, a ∈ additions → raw_get v a = None ∧ a ≠ "/") →
  Z.of_nat (size (visible v)) + zlen additions ≤ U64_MAX → vf_next_inode v + zlen additions ≤ U64_MAX →
  ∃ v', insert_each_directory v additions = (v', Ok tt) ∧ sound (disk_of v') ∧ same_frame v v' ∧
    usage (disk_of v') = usage (disk_of v) + dirs_cost (vf_baseline_dirs v) additions ∧
    (∀ q, q ∉ additions → raw_get v' q = raw_get v q) ∧
    (∀ q, q ∈ additions → ∃ n, raw_get v' q = Some n ∧ nd_kind n = Dir) ∧
    vf_next_inode v' = vf_next_inode v + zlen additions ∧
    Z.of_nat (size (visible v')) = Z.of_nat (size (visible v)) + zlen additions.
Proof.
  revert v. induction additions as [|a additions IH]; intros v Hs Hnd Hnew Hsize Hinode.
  { exists v. simpl. unfold dirs_cost. simpl. split; [done|]. split; [done|]. split; [done|].
    split; [lia|]. split; [done|]. split; [by intros q ?%elem_of_nil|]. lia. }
  simpl in Hsize, Hinode. apply NoDup_cons in Hnd as [Ha Hnd].
  destruct (Hnew a (list_elem_of_here _ _)) as [Hnone Hroot].
  simpl. rewrite allocate_room by lia.
  set (v1 := insert_node (set_next_inode v (vf_next_inode v + 1)) a _).
  assert (Hd1 : disk_of v1 = disk_put (disk_of v) a (node_dir (vf_next_inode v) 493 (vf_mutation_time v)))
    by (unfold v1; by rewrite disk_insert).
  assert (Hget1 : ∀ q, raw_get v1 q = if decide (q = a)
    then Some (node_dir (vf_next_inode v) 493 (vf_mutation_time v)) else raw_get v q).
  { intros q. unfold v1. by rewrite raw_get_insert. }
  assert (Hsize1 : Z.of_nat (size (visible v1)) = Z.of_nat (size (visible v)) + 1).
  { change (visible v1) with (dk_tree (disk_of v1)). rewrite Hd1. simpl.
    rewrite map_size_insert_None by (by rewrite visible_lookup). lia. }
  destruct (IH v1) as (v' & Hrun & Hs' & Hframe & Hu & Hout & Hin & Hnext & Hsz).
  - rewrite Hd1. apply sound_put; [done|done|]. simpl. lia.
  - done.
  - intros b Hb. rewrite Hget1, decide_False by (intros ->; done). apply Hnew. by right.
  - lia.
  - simpl. lia.
  - exists v'. split; [exact Hrun|]. split; [done|]. split; [exact Hframe|].
    split; [|split; [|split; [|split; [simpl in Hnext; lia|lia]]]].
    + rewrite Hu, Hd1, usage_put, dir_cost by done. unfold cost_at. simpl.
      rewrite visible_lookup, Hnone. unfold dirs_cost. simpl. lia.
    + intros q Hq. apply not_elem_of_cons in Hq as [Hqa Hq]. by rewrite Hout, Hget1, decide_False by done.
    + intros q [->|Hq]%elem_of_cons; [|by apply Hin]. rewrite Hout, Hget1, decide_True by done. by eexists.
Qed.

(** The directories [missing_directories] plans: distinct, absent, on paths without links. *)
Definition plannable (v : Vfs) (a : string) : Prop :=
  raw_get v a = None ∧ ∃ rs, Forall clean rs ∧ a = path_of rs ∧ link_free v rs.

Lemma missing_step v cur comp :
  Forall clean cur → link_free v cur → clean comp →
  let next := child_path (path_of cur) comp in
  let real := match realpath v next true with Ok real => real | Err _ => next end in
  (∀ n, raw_get v real = Some n → nd_kind n = Dir) →
  ∃ rs, Forall clean rs ∧ real = path_of rs ∧ link_free v rs.
Proof.
  intros Hcur Hfree Hcomp next real. unfold real, next. clear real next.
  rewrite <-(path_of_snoc_child cur comp) by done.
  pose proof (Forall_clean_snoc _ _ Hcur Hcomp) as Hall.
  destruct (realpath v (path_of (cur ++ [comp])) true) as [r|] eqn:Hr.
  - intros _. exact (realpath_shape v _ _ Hall Hr).
  - intros Hdir. exists (cur ++ [comp]). split; [done|]. split; [done|]. apply link_free_snoc; [done|].
    unfold symlink_at. destruct (raw_get v _) as [[? [] ? ? ? ?]|] eqn:Hget; try done.
    by specialize (Hdir _ eq_refl).
Qed.

Lemma missing_loop_spec v comps additions cur r :
  Forall clean comps → Forall clean cur → link_free v cur → NoDup additions → Forall (plannable v) additions →
  missing_loop v comps additions (path_of cur) = Ok r →
  NoDup r ∧ Forall (plannable v) r ∧ (length r ≤ length additions + length comps)%nat.
Proof.
  intros Hcomps. revert additions cur. induction Hcomps as [|comp comps Hcomp Hcomps IH];
    intros additions cur Hcur Hfree Hnd Hpl; cbn [missing_loop].
  { intros [= <-]. split; [done|]. split; [done|]. simpl. lia. }
  pose proof (missing_step v cur comp Hcur Hfree Hcomp) as Hstep. cbv zeta in *.
  set (real := match realpath v (child_path (path_of cur) comp) true with Ok real => real | Err _ => _ end) in *.
  destruct (raw_get v real) as [n|] eqn:Hget.
  - destruct n as [inode [| | |] m u g t]; try done.
    destruct Hstep as (rs & Hrs & -> & Hrf); [by intros ? [= <-]|]. intros Hr.
    destruct (IH additions rs Hrs Hrf Hnd Hpl Hr) as (? & ? & ?). simpl. split_and!; [done|done|lia].
  - destruct Hstep as (rs & Hrs & Heq & Hrf); [done|]. rewrite Heq in *. clearbody real.
    case_bool_decide as Hin; intros Hr.
    + destruct (IH additions rs Hrs Hrf Hnd Hpl Hr) as (? & ? & ?). simpl. split_and!; [done|done|lia].
    + apply IH in Hr as (? & ? & Hlen); [|done|done|..].
      * rewrite length_app in Hlen. simpl in *. split_and!; [done|done|lia].
      * apply NoDup_app. split; [done|]. split; [|apply NoDup_singleton].
        by intros x Hx ->%list_elem_of_singleton.
      * apply Forall_app. split; [done|]. apply Forall_singleton. split; [done|eauto].
Qed.

(** Below directories that are not links the plan is literal. *)
Lemma missing_loop_literal v comps additions cur r :
  Forall clean comps → Forall clean cur → link_free v (cur ++ comps) →
  missing_loop v comps additions (path_of cur) = Ok r →
  ∀ a, a ∈ r → a ∈ additions ∨ ∃ pre, pre `prefix_of` comps ∧ a = path_of (cur ++ pre).
Proof.
  intros Hcomps. revert additions cur. induction Hcomps as [|comp comps Hcomp Hcomps IH];
    intros additions cur Hcur Hfree; cbn [missing_loop].
  { intros [= <-]. auto. }
  pose proof (Forall_clean_snoc _ _ Hcur Hcomp) as Hall. rewrite <-path_of_snoc_child by done.
  assert (Hcat : cur ++ comp :: comps = (cur ++ [comp]) ++ comps) by (by rewrite <-app_assoc).
  rewrite Hcat in Hfree.
  assert (Hreal : match realpath v (path_of (cur ++ [comp])) true with
    Ok real => real | Err _ => path_of (cur ++ [comp]) end = path_of (cur ++ [comp])).
  { destruct (realpath v _ true) as [r'|] eqn:Hr; [|done].
    apply realpath_link_free in Hr; [done|done|]. intros pre Hpre. apply Hfree. by apply prefix_app_r. }
  cbv zeta. rewrite Hreal.
  assert (Hnext : ∀ adds, missing_loop v comps adds (path_of (cur ++ [comp])) = Ok r →
    ∀ a, a ∈ r → a ∈ adds ∨ ∃ pre, pre `prefix_of` comp :: comps ∧ a = path_of (cur ++ pre)).
  { intros adds Hr a Ha. destruct (IH adds _ Hall Hfree Hr a Ha) as [?|(pre & Hpre & ->)]; [auto|].
    right. exists (comp :: pre). split; [by apply prefix_cons|]. by rewrite <-app_assoc. }
  destruct (raw_get v (path_of (cur ++ [comp]))) as [[? [] ? ? ? ?]|]; try done; [apply Hnext|].
  case_bool_decide; [apply Hnext|]. intros Hr a Ha. destruct (Hnext _ Hr a Ha) as [Ha'|?]; [|auto].
  apply elem_of_app in Ha' as [?|Heq%list_elem_of_singleton]; [auto|]. subst a. right. exists [comp].
  split; [apply prefix_cons, prefix_nil|done].
Qed.

Lemma path_components cs : Forall clean cs → filter (λ c, c ≠ "") (split_slash (path_of cs)) = cs.
Proof.
  intros Hcs. destruct cs as [|c cs]; [done|]. unfold path_of.
  change ("/" +:+ String.concat "/" (c :: cs)) with ("" +:+ String slash (String.concat "/" (c :: cs))).
  rewrite split_slash_app, split_slash_concat by done. rewrite filter_cons_False by tauto.
  apply list_filter_id. intros x Hx. apply (proj1 (Forall_forall _ _) Hcs _ Hx).
Qed.

Lemma path_of_length cs : Forall clean cs → (length cs ≤ String.length (path_of cs))%nat.
Proof.
  intros Hcs. destruct cs as [|c cs]; [simpl; lia|]. cbn [path_of]. rewrite length_append.
  revert c Hcs. induction cs as [|c' cs IH]; intros c Hcs; [simpl; lia|].
  apply Forall_cons in Hcs as [_ Hcs]. specialize (IH c' Hcs). rewrite concat_cons, length_append.
  cbn [length String.length] in *. lia.
Qed.

Lemma limited_components cs : Forall clean cs → check_path_limits (path_of cs) = Ok tt → zlen cs < 4096.
Proof.
  intros Hcs. unfold check_path_limits. case_match eqn:Hl; [done|]. intros _. bool_to_prop.
  pose proof (path_of_length cs Hcs). unfold PATH_MAX, str_len in *. lia.
Qed.

Lemma missing_directories_spec v cs adds :
  Forall clean cs → missing_directories v (path_of cs) = Ok adds →
  NoDup adds ∧ Forall (plannable v) adds ∧ (length adds ≤ length cs)%nat.
Proof.
  intros Hcs. unfold missing_directories. rewrite path_components by done. change "/" with (path_of []).
  intros Hr. apply missing_loop_spec in Hr as (? & ? & ?); [done|done|constructor| |constructor|constructor].
  intros pre [suf Hsuf] Hne. symmetry in Hsuf. by apply app_eq_nil in Hsuf as [-> _].
Qed.

Lemma wf_sound d : disk_wf d → sound d.
Proof. intros Hwf. split; apply Hwf. Qed.

Lemma wf_size d : disk_wf d → Z.of_nat (size (dk_tree d)) + 5000 ≤ U64_MAX.
Proof.
  intros Hwf. destruct (usage_fits d) as [Hfits _]; [apply Hwf|apply Hwf| |apply Hwf|].
  - rewrite <-(wf_used d Hwf). apply Hwf.
  - pose proof (tree_size_le d). pose proof (orphans_nonneg (dk_orphans d)). unfold fits in Hfits.
    assert (U64_MAX = 18446744073709551615) by done. lia.
Qed.

Lemma insert_directories_spec v adds :
  disk_wf (disk_of v) → NoDup adds → Forall (plannable v) adds → zlen adds < 4096 →
  (∃ e, insert_directories v adds = (v, Err e)) ∨
  ∃ v', insert_directories v adds = (v', Ok tt) ∧ sound (disk_of v') ∧ same_frame v v' ∧
    usage (disk_of v') = usage (disk_of v) + dirs_cost (vf_baseline_dirs v) adds ∧
    (∀ q, q ∉ adds → raw_get v' q = raw_get v q) ∧
    (∀ q, q ∈ adds → ∃ n, raw_get v' q = Some n ∧ nd_kind n = Dir) ∧
    vf_next_inode v' = vf_next_inode v + zlen adds ∧
    Z.of_nat (size (visible v')) = Z.of_nat (size (visible v)) + zlen adds.
Proof.
  intros Hwf Hnd Hpl Hlen. unfold insert_directories, check_inode_capacity.
  destruct (checked_add64 _ _) eqn:Hc; [|by left; eexists]. apply checked_add64_Some in Hc as [_ Hc]. right.
  pose proof (wf_size _ Hwf) as Hsize. simpl in Hsize.
  apply insert_each_spec; [by apply wf_sound|done| |lia|done].
  intros a Ha. destruct (proj1 (Forall_forall _ _) Hpl a Ha) as [Hnone _]. split; [done|]. intros ->.
  destruct (wf_root _ Hwf) as (n & Hn & _). simpl in Hn. rewrite visible_lookup in Hn. congruence.
Qed.

Lemma mkdir_all_keeps v cwd path : disk_wf (disk_of v) → keeps v (mkdir_all v cwd path).
Proof.
  intros Hwf. unfold mkdir_all. destruct (resolve_against_clean cwd path) as (cs & Hcs & ->). cbv zeta.
  destruct (reject_pseudo_mutation _); [|by apply keeps_same].
  destruct (check_path_limits _) as [[]|] eqn:Hlimits; [|by apply keeps_same].
  apply limited_components in Hlimits; [|done].
  destruct (missing_directories v (path_of cs)) as [adds|] eqn:Hm; [|by apply keeps_same].
  destruct (missing_directories_spec v cs adds Hcs Hm) as (Hnd & Hpl & Hlen).
  rewrite directory_addition_exact. pose proof (dirs_cost_nonneg (vf_baseline_dirs v) adds).
  case_match eqn:Hlim; [by apply keeps_same|]. pose proof (disk_used_range v Hwf).
  destruct (clamp64_below _ _ _ (limit_below v Hwf) (proj1 (disk_used_range v Hwf)) Hlim) as [-> Hle].
  destruct (insert_directories_spec v adds Hwf Hnd Hpl) as
    [[e ->]|(v' & -> & Hs & (Ho & Hno & Hl & Hd & Hn & Hu) & Husage & _)]; [lia|by apply keeps_same|].
  eapply keeps_ok; [reflexivity|].
  apply (sound_wf (disk_of v) (disk_of v')); try done. simpl. rewrite Husage, <-(wf_used _ Hwf). done.
Qed.

(** The file [put_file] loads is not one of the directories it creates for it. *)
Lemma missing_parent_not_file v cs c adds :
  Forall clean cs → clean c → missing_directories v (path_of cs) = Ok adds → path_of (cs ++ [c]) ∉ adds.
Proof.
  intros Hcs Hc Hm Hin. destruct (missing_directories_spec v cs adds Hcs Hm) as (_ & Hpl & _).
  destruct (proj1 (Forall_forall _ _) Hpl _ Hin) as (_ & rs & Hrs & Heq & Hfree).
  apply path_of_inj in Heq; [|by apply Forall_clean_snoc|done]. subst rs.
  unfold missing_directories in Hm. rewrite path_components in Hm by done. change "/" with (path_of []) in Hm.
  destruct (missing_loop_literal v cs [] [] adds Hcs ltac:(constructor) (link_free_prefix _ _ _ Hfree) Hm _ Hin)
    as [Hnil|(pre & Hpre & Heq)]; [by apply elem_of_nil in Hnil|].
  apply path_of_inj in Heq; [|by apply Forall_clean_snoc|].
  - apply (f_equal length) in Heq. apply prefix_length in Hpre. rewrite length_app in Heq. simpl in Heq. lia.
  - destruct Hpre as [suf ->]. by apply Forall_app in Hcs as [? _].
Qed.

(** The tail of [put_file]: the planned directories, then the file. *)
Lemma load_file_keeps v norm adds data mode used :
  disk_wf (disk_of v) → norm ≠ "/" → norm ∉ adds → NoDup adds → Forall (plannable v) adds → zlen adds < 4096 →
  check_inode_capacity v (sat_add64 (zlen adds) 1) = Ok tt →
  used = vf_disk_used v - cost_at (disk_of v) norm + dirs_cost (vf_baseline_dirs v) adds + (256 + zlen data) →
  used ≤ vf_disk_limit v →
  keeps v
    (let '(v1, inserted) := insert_directories v adds in
     let? _d := inserted orelse v1 in
     let '(v2, inode) := allocate_inode v1 in
     let? inode := inode orelse v2 in
     (record_usage (insert_node v2 norm (node_file inode data mode (vf_mutation_time v2))) used, Ok tt)).
Proof.
  intros Hwf Hroot Hnot Hnd Hpl Hlen Hcap Hused Hle.
  unfold check_inode_capacity in Hcap. destruct (checked_add64 _ _) eqn:Hc in Hcap; [|done].
  assert (Hmax : U64_MAX = 18446744073709551615) by done.
  apply checked_add64_Some in Hc as [_ Hc]. rewrite sat_add64_exact in Hc by lia.
  destruct (insert_directories_spec v adds Hwf Hnd Hpl Hlen) as
    [[e ->]|(v1 & -> & Hs & (Ho & Hno & Hl & Hd & Hn & Hu) & Husage & Hout & _ & Hnext & Hsize)];
    [by apply keeps_same|].
  rewrite allocate_room by lia.
  eapply keeps_ok; [exact (f_equal (λ d', disk_use d' used) (disk_insert _ norm _))|].
  change (disk_of (set_next_inode v1 _)) with (disk_of v1).
  set (node := node_file _ _ _ _). pose proof (wf_size _ Hwf) as Hsz. simpl in Hsz.
  assert (Hs' : sound (disk_put (disk_of v1) norm node)) by (apply sound_put; [done|done|simpl; lia]).
  apply (sound_wf (disk_of v)); try done. rewrite usage_put, Husage, (file_cost v1 norm node data) by done.
  assert (Hat : cost_at (disk_of v1) norm = cost_at (disk_of v) norm).
  { unfold cost_at, cost, is_free. simpl. rewrite !visible_lookup, Hout, Hd, Hn by done. done. }
  rewrite Hat, Hused, <-(wf_used _ Hwf). simpl. lia.
Qed.

Lemma put_file_keeps v abs data mode : disk_wf (disk_of v) → keeps v (put_file v abs data mode).
Proof.
  intros Hwf. unfold put_file. rewrite normalize_path_of. pose proof (components_clean abs) as Hall.
  cbv zeta. destruct (reject_pseudo_mutation _); [|by apply keeps_same].
  destruct (check_path_limits _) as [[]|] eqn:Hlimits; [|by apply keeps_same].
  apply limited_components in Hlimits; [|done].
  destruct (is_dir_node _) eqn:Hdir; [by apply keeps_same|].
  destruct (components abs) as [|c cs _] using rev_ind.
  { destruct (wf_root _ Hwf) as (n & Hn & Hk). simpl in Hn. rewrite visible_lookup in Hn.
    simpl in Hdir. rewrite Hn in Hdir. by destruct n as [? [] ? ? ? ?]. }
  apply Forall_app in Hall as [Hcs Hc]. apply (Forall_singleton clean c) in Hc.
  rewrite length_app in Hlimits. simpl in Hlimits.
  rewrite parent_of_snoc by done. pose proof (path_of_snoc_not_root cs c Hc) as Hroot.
  destruct (missing_directories v (path_of cs)) as [adds|] eqn:Hm; [|by apply keeps_same].
  pose proof (missing_parent_not_file v cs c adds Hcs Hc Hm) as Hnot.
  destruct (missing_directories_spec v cs adds Hcs Hm) as (Hnd & Hpl & Hlen).
  set (norm := path_of (cs ++ [c])) in *. rewrite (cost_at_clamp v Hwf) by done.
  rewrite directory_addition_exact. pose proof (dirs_cost_nonneg (vf_baseline_dirs v) adds) as Hdc.
  pose proof (disk_used_range v Hwf). pose proof (limit_below v Hwf). pose proof (cost_at_le (disk_of v) norm).
  pose proof (wf_used _ Hwf) as Hused. simpl in Hused. rewrite sat_sub_exact by lia.
  case_match eqn:Hlim; [by apply keeps_same|]. bool_to_prop.
  destruct (check_inode_capacity v _) as [[]|] eqn:Hcap; [|by apply keeps_same].
  apply load_file_keeps; try done; [lia|..]; unfold sat_add64, clamp64, NODE_OVERHEAD in *; lia.
Qed.

Lemma put_dir_keeps v abs mode : disk_wf (disk_of v) → keeps v (put_dir v abs mode).
Proof.
  intros Hwf. unfold put_dir. cbv zeta. destruct (reject_pseudo_mutation _); [|by apply keeps_same].
  pose proof (mkdir_all_keeps v "/" (normalize abs) Hwf) as [Hwf' He].
  destruct (mkdir_all v "/" (normalize abs)) as [v1 [[]|e]]; simpl in *; [|by apply keeps_same].
  rewrite node_mut_pair. destruct (raw_get v1 (normalize abs)) as [n|] eqn:Hget.
  - split; [|done]. by apply (same_kind_keeps v1 Hwf' (normalize abs) n).
  - split; [|done]. simpl. destruct (disk_node_mut v1 (normalize abs)) as (_ & -> & _). done.
Qed.
