(* ===== verification/VfsSystem.v ===== *)
(** * The filesystem as a system

    The mutations of the filesystem as the operations of one machine, the states that seeding an
    image, forking it and running operations reach, and the theorems over all of them: the disk
    usage is exact and within its limit in every reachable state, a failed operation leaves the
    disk as it was, and an unlinked file keeps its contents for the descriptors that hold it. *)

From S2P Require Import Prelude.
From S2P Require Import RustStr.
From S2P Require Import Paths.
From S2P Require Import Vfs.
From S2P Require Import VfsTree.
From S2P Require Import VfsUsage.

Inductive VfsOp :=
| OpWrite (cwd path : string) (data : bytes) (mode : Z)
| OpAppend (cwd path : string) (data : bytes) (mode : Z)
| OpWriteAt (cwd path : string) (offset : Z) (data : bytes)
| OpResize (cwd path : string) (size : Z)
| OpMkdir (cwd path : string)
| OpMkdirAll (cwd path : string)
| OpRemoveFile (cwd path : string)
| OpUnlink (cwd path : string)
| OpWriteOrphan (id offset : Z) (data : bytes)
| OpResizeOrphan (id size : Z)
| OpRetain (live : gset Z)
| OpRemoveAll (cwd path : string)
| OpRmdir (cwd path : string)
| OpCopyFile (cwd from to : string)
| OpSymlink (cwd target linkpath : string)
| OpTouch (cwd path : string) (mtime : Z)
| OpChmod (cwd path : string) (mode : Z)
| OpChown (cwd path : string) (uid gid : option Z)
| OpPutFile (abs : string) (data : bytes) (mode : Z)
| OpPutDir (abs : string) (mode : Z).

Definition vfs_exec (v : Vfs) (op : VfsOp) : run (vfs_result unit) :=
  match op with
  | OpWrite cwd path data mode => Ret (vfs_write v cwd path data mode)
  | OpAppend cwd path data mode => Ret (vfs_append v cwd path data mode)
  | OpWriteAt cwd path offset data => write_at v cwd path offset data
  | OpResize cwd path size => resize_file v cwd path size
  | OpMkdir cwd path => Ret (vfs_mkdir v cwd path)
  | OpMkdirAll cwd path => Ret (mkdir_all v cwd path)
  | OpRemoveFile cwd path => Ret (remove_file v cwd path)
  | OpUnlink cwd path =>
      match unlink_open_file v cwd path with
      | Ret (v, Ok _) => Ret (v, Ok tt)
      | Ret (v, Err e) => Ret (v, Err e)
      | Panic => Panic
      | NoFuel => NoFuel
      end
  | OpWriteOrphan id offset data => write_orphan_at v id offset data
  | OpResizeOrphan id size => resize_orphan v id size
  | OpRetain live => Ret (retain_orphans v live, Ok tt)
  | OpRemoveAll cwd path => Ret (remove_all v cwd path)
  | OpRmdir cwd path => Ret (vfs_rmdir v cwd path)
  | OpCopyFile cwd from to => copy_file v cwd from to
  | OpSymlink cwd target linkpath => Ret (vfs_symlink v cwd target linkpath)
  | OpTouch cwd path mtime => Ret (vfs_touch v cwd path mtime)
  | OpChmod cwd path mode => Ret (vfs_chmod v cwd path mode)
  | OpChown cwd path uid gid => Ret (vfs_chown v cwd path uid gid)
  | OpPutFile abs data mode => Ret (put_file v abs data mode)
  | OpPutDir abs mode => Ret (put_dir v abs mode)
  end.

(** The calls the theorems are about: offsets and sizes are unsigned, the root is not removed, and
    an append does not replace a link or a native executable (see the findings). *)
Definition op_plain (v : Vfs) (op : VfsOp) : Prop :=
  match op with
  | OpWriteAt _ _ offset _ | OpWriteOrphan _ offset _ => 0 ≤ offset
  | OpResize _ _ size | OpResizeOrphan _ size => 0 ≤ size
  | OpRemoveAll cwd path => realpath v (resolve_against cwd path) false ≠ Ok "/"
  | OpRmdir cwd path => realpath v (resolve_against cwd path) true ≠ Ok "/"
  | OpAppend cwd path _ _ =>
      ∀ target n, write_target v cwd path = Ok target → raw_get v target = Some n →
        ∃ content, nd_kind n = File content ∨ nd_kind n = Dir
  | _ => True
  end.

Lemma vfs_exec_keeps v op : disk_wf (disk_of v) → op_plain v op → run_keeps v (vfs_exec v op).
Proof.
  intros Hwf Hop. destruct op; cbn [vfs_exec op_plain run_keeps] in *.
  - by apply write_keeps.
  - by apply append_keeps.
  - by apply write_at_keeps.
  - by apply resize_file_keeps.
  - by apply mkdir_keeps.
  - by apply mkdir_all_keeps.
  - by apply remove_file_keeps.
  - pose proof (unlink_keeps v cwd path Hwf) as Hk.
    destruct (unlink_open_file v cwd path) as [[v' []]| |]; done.
  - by apply write_orphan_keeps.
  - by apply resize_orphan_keeps.
  - split; [by apply retain_keeps|done].
  - by apply remove_all_keeps.
  - by apply rmdir_keeps.
  - by apply copy_file_keeps.
  - by apply symlink_keeps.
  - by apply touch_keeps.
  - by apply chmod_keeps.
  - by apply chown_keeps.
  - by apply put_file_keeps.
  - by apply put_dir_keeps.
Qed.

(** ** Images *)

Lemma settled_seed d p n dirs native :
  settled d → p ≠ "/" → dk_dirs d ⊆ dirs → "/" ∉ dirs →
  (∀ k program, k ≠ p → dk_native d !! k = Some program → native !! k = Some program) → native !! "/" = None →
  dk_limit d + 256 * (Z.of_nat (size dirs) + Z.of_nat (size native)) < U64_MAX - 256 →
  let d' := MkDisk (dk_tree (disk_put d p n)) (dk_count (disk_put d p n)) (dk_orphans d) (dk_next_orphan d)
              (dk_limit d) dirs native (dk_used d) in
  is_free d' p n = true → settled d'.
Proof.
  intros Hs Hp Hdirs Hroot Hnat Hnroot Hroom d' Hfree.
  assert (Hless : ∀ k m, k ≠ p → cost d' k m ≤ cost d k m).
  { intros k m Hk. unfold cost, is_free. simpl. pose proof (gross_pos m).
    destruct (bool_decide (k = "/")); simpl; [lia|]. destruct (nd_kind m); try lia.
    - repeat case_bool_decide; try lia. set_solver.
    - repeat case_bool_decide; try lia. by destruct (Hnat k program). }
  assert (Hu : usage d' ≤ usage d).
  { unfold usage. change (dk_orphans d') with (dk_orphans d). change (dk_tree d') with (<[p := n]> (dk_tree d)).
    rewrite <-insert_delete_eq, map_sum_insert by apply lookup_delete_eq.
    assert (map_sum (cost d') (delete p (dk_tree d)) ≤ map_sum (cost d) (delete p (dk_tree d))).
    { apply map_sum_le. intros k m [Hk _]%lookup_delete_Some. by apply Hless. }
    assert (map_sum (cost d) (delete p (dk_tree d)) ≤ map_sum (cost d) (dk_tree d)).
    { destruct (dk_tree d !! p) as [old|] eqn:Hold; [|by rewrite delete_id].
      rewrite (map_sum_delete _ _ _ _ Hold). pose proof (cost_nonneg d p old). lia. }
    unfold cost at 1. rewrite Hfree. lia. }
  assert (Hsound : sound (disk_put d p n)).
  { apply sound_put; [exact (wf_sound _ Hs)|done|]. pose proof (wf_size _ Hs) as Hsz. simpl in Hsz. lia. }
  destruct Hsound as [Hr Hc]. pose proof (wf_limit _ Hs) as Hl. simpl in Hl.
  constructor; simpl; try done; [exact (wf_orphans _ Hs)|lia].
Qed.

Lemma allocate_inode_ok v v' inode :
  allocate_inode v = (v', Ok inode) → v' = set_next_inode v (vf_next_inode v + 1) ∧ inode = vf_next_inode v.
Proof.
  unfold allocate_inode. destruct (check_inode_capacity v 1); [|done]. by intros [= <- <-].
Qed.

Lemma disk_baseline v p n dirs native next :
  disk_of (set_baseline (insert_node (set_next_inode v next) p n) dirs native) =
    MkDisk (dk_tree (disk_put (disk_of v) p n)) (dk_count (disk_put (disk_of v) p n)) (vf_orphaned v)
      (vf_next_orphan v) (vf_disk_limit v) dirs native (vf_disk_used v).
Proof.
  pose proof (disk_insert (set_next_inode v next) p n) as Hd.
  change (disk_of (set_next_inode v next)) with (disk_of v) in Hd. rewrite <-Hd. reflexivity.
Qed.

Lemma seed_each_settled v paths v' :
  settled (disk_of v) → Forall (λ p, normalize p ≠ "/") paths →
  vf_disk_limit v + 256 * (Z.of_nat (size (vf_baseline_dirs v)) + zlen paths
    + Z.of_nat (size (vf_baseline_native v))) < U64_MAX - 256 →
  seed_each v paths = Ret v' → settled (disk_of v').
Proof.
  intros Hs Hp. revert v Hs. induction Hp as [|p paths Hp Hps IH]; intros v Hs Hroom; [by intros [= <-]|].
  cbn [seed_each]. cbv zeta. destruct (allocate_inode v) as [v1 [inode|]] eqn:Ha; [|done].
  apply allocate_inode_ok in Ha as [-> ->]. cbn [length] in Hroom.
  assert (Hsize : (size ({[normalize p]} ∪ vf_baseline_dirs v) ≤ 1 + size (vf_baseline_dirs v))%nat).
  { rewrite size_union_alt, size_singleton. apply Nat.add_le_mono_l, subseteq_size. set_solver. }
  apply IH.
  - rewrite disk_baseline. apply settled_seed; try done.
    + simpl. set_solver.
    + pose proof (wf_dirs _ Hs) as Hd. simpl in Hd. set_solver.
    + exact (wf_native _ Hs).
    + simpl. lia.
    + unfold is_free. simpl. rewrite (bool_decide_eq_true_2 (_ ∈ _)) by set_solver. apply orb_true_r.
  - simpl in *. lia.
Qed.

Lemma refresh_wf v : settled (disk_of v) → disk_wf (disk_of (refresh_usage v)).
Proof. intros Hs. by destruct (refresh_keeps v v tt Hs). Qed.

Lemma seed_dirs_wf v paths v' :
  disk_wf (disk_of v) → Forall (λ p, normalize p ≠ "/") paths →
  vf_disk_limit v + 256 * (Z.of_nat (size (vf_baseline_dirs v)) + zlen paths
    + Z.of_nat (size (vf_baseline_native v))) < U64_MAX - 256 →
  seed_dirs v paths = Ret v' → disk_wf (disk_of v').
Proof.
  intros Hwf Hp Hroom. unfold seed_dirs, mbind, run_bind.
  destruct (seed_each v paths) as [v1| |] eqn:Hseed; [|done..]. intros [= <-].
  apply (refresh_wf v1). by eapply seed_each_settled; [apply settled_wf| | |].
Qed.

Lemma seed_native_wf v abs program v' :
  disk_wf (disk_of v) → normalize abs ≠ "/" →
  vf_disk_limit v + 256 * (Z.of_nat (size (vf_baseline_dirs v)) + 1
    + Z.of_nat (size (vf_baseline_native v))) < U64_MAX - 256 →
  seed_native_executable v abs program = Ret v' → disk_wf (disk_of v').
Proof.
  intros Hwf Hp Hroom. unfold seed_native_executable. cbv zeta.
  destruct (allocate_inode v) as [v1 [inode|]] eqn:Ha; [|done].
  apply allocate_inode_ok in Ha as [-> ->]. intros [= <-]. apply refresh_wf. rewrite disk_baseline.
  apply settled_seed; try done.
  - by apply settled_wf.
  - apply Hwf.
  - intros k prog Hk. simpl. by rewrite lookup_insert_ne.
  - simpl. rewrite lookup_insert_ne by done. apply Hwf.
  - simpl. assert (Hsz : (size (<[normalize abs:=program]> (vf_baseline_native v)) ≤
      S (size (vf_baseline_native v)))%nat) by (rewrite map_size_insert; case_match; unfold id; lia). lia.
  - unfold is_free. simpl. rewrite lookup_insert_eq.
    rewrite (bool_decide_eq_true_2 (Some program = Some program)) by done. apply orb_true_r.
Qed.

Lemma visible_base base dirs native count next used limit :
  visible (MkVfs base ∅ count ∅ 1 next 0 limit dirs native used used 0) = fz_nodes base.
Proof. apply map_eq. intros p. rewrite visible_lookup. unfold raw_get. simpl. by rewrite lookup_empty. Qed.

Lemma freeze_nodes v : fz_nodes (freeze v) = visible v.
Proof.
  simpl. apply map_eq. intros p. rewrite visible_lookup. apply option_eq. intros n.
  rewrite <-elem_of_all_paths. symmetry. apply elem_of_list_to_map.
  rewrite all_paths_iter. apply btree_keys_NoDup.
Qed.

Lemma orphans_fold (orphans : list Node) :
  foldl (λ total n, sat_add64 (sat_add64 total NODE_OVERHEAD) (node_payload_len n)) 0 orphans =
    sat_total (λ n, sat_add64 NODE_OVERHEAD (node_payload_len n)) orphans.
Proof.
  unfold sat_total. assert (Hz : 0 ≤ 0) by done. revert Hz. generalize 0 at 2 3 4.
  induction orphans as [|n orphans IH]; intros t Ht; [done|]. simpl.
  pose proof (gross_pos n) as Hg. unfold gross in Hg. assert (0 ≤ node_payload_len n)
    by (unfold node_payload_len, str_len; destruct (nd_kind n); lia). assert (0 ≤ U64_MAX) by done.
  replace (sat_add64 t (sat_add64 NODE_OVERHEAD (node_payload_len n))) with
    (sat_add64 (sat_add64 t NODE_OVERHEAD) (node_payload_len n))
    by (unfold sat_add64, NODE_OVERHEAD; lia).
  apply IH. unfold sat_add64, NODE_OVERHEAD. lia.
Qed.

Lemma wf_measured v : disk_wf (disk_of v) → measured_usage v = vf_disk_used v.
Proof.
  intros Hwf. change (vf_disk_used v) with (dk_used (disk_of v)). rewrite (wf_used _ Hwf).
  destruct (usage_fits (disk_of v)) as [Hfits _]; [apply Hwf|apply Hwf| |apply Hwf|].
  - rewrite <-(wf_used _ Hwf). apply Hwf.
  - apply measured_exact; [apply (wf_dirs _ Hwf)|apply (wf_native _ Hwf)|done].
Qed.

Lemma freeze_used v : disk_wf (disk_of v) →
  fz_disk_used (freeze v) = map_sum (cost (disk_of v)) (visible v).
Proof.
  intros Hwf. simpl. rewrite wf_measured, orphans_fold, orphans_clamp by done.
  pose proof (disk_used_range v Hwf). pose proof (limit_below v Hwf). pose proof (wf_used _ Hwf) as Hu.
  pose proof (costs_nonneg (disk_of v)) as Hc. pose proof (orphans_nonneg (vf_orphaned v)).
  unfold usage in Hu. simpl in Hu, Hc. rewrite clamp64_id by lia. rewrite sat_sub_exact; lia.
Qed.

Lemma rebase_wf v limit v' :
  disk_wf (disk_of v) →
  limit + 256 * (Z.of_nat (size (vf_baseline_dirs v)) + Z.of_nat (size (vf_baseline_native v))) < U64_MAX - 256 →
  from_base (freeze v) limit = Ok v' → disk_wf (disk_of v') ∧ visible v' = visible v.
Proof.
  intros Hwf Hroom. pose proof (freeze_used v Hwf) as Hused. pose proof (freeze_nodes v) as Hnodes.
  assert (Hdirs : fz_baseline_dirs (freeze v) = vf_baseline_dirs v) by done.
  assert (Hnative : fz_baseline_native (freeze v) = vf_baseline_native v) by done.
  revert Hused Hnodes Hdirs Hnative. generalize (freeze v). intros base Hused Hnodes Hdirs Hnative.
  unfold from_base. case_match eqn:Hlim; [done|]. bool_to_prop. intros [= <-].
  unfold disk_of. rewrite visible_base, Hnodes. split; [|done]. rewrite Hused in *.
  constructor; cbn [dk_tree dk_count dk_orphans dk_next_orphan dk_limit dk_dirs dk_native dk_used
    vf_node_count vf_orphaned vf_next_orphan vf_disk_limit vf_baseline_dirs vf_baseline_native vf_disk_used];
    rewrite ?Hdirs, ?Hnative.
  - exact (wf_root _ Hwf).
  - exact (wf_dirs _ Hwf).
  - exact (wf_native _ Hwf).
  - by intros id n.
  - reflexivity.
  - unfold usage. cbn [dk_tree dk_orphans]. rewrite map_sum_empty, Z.add_0_r. reflexivity.
  - exact Hlim.
  - exact Hroom.
Qed.

Lemma with_disk_limit_wf limit : 0 ≤ limit < U64_MAX - 256 → disk_wf (disk_of (with_disk_limit limit)).
Proof.
  intros Hl. assert (Hv : visible (with_disk_limit limit) = {["/" := node_dir 1 493 0]}).
  { apply map_eq. intros p. rewrite visible_lookup. unfold raw_get, with_disk_limit.
    cbn [vf_overlay vf_base fz_nodes]. by rewrite lookup_empty. }
  assert (Hu : vf_disk_used (with_disk_limit limit) = 0) by (vm_compute; done).
  unfold disk_of. rewrite Hv, Hu. constructor; try done.
  - exists (node_dir 1 493 0). split; [apply lookup_singleton_eq|done].
  - simpl. lia.
  - cbn [dk_limit dk_dirs dk_native vf_disk_limit vf_baseline_dirs vf_baseline_native with_disk_limit].
    rewrite size_empty, map_size_empty. lia.
Qed.

(** ** Reachable filesystems *)

(** The free nodes an image may still add below the end of the type. *)
Definition room (v : Vfs) (limit : Z) (more : nat) : Prop :=
  limit + 256 * (Z.of_nat (size (vf_baseline_dirs v)) + Z.of_nat more
    + Z.of_nat (size (vf_baseline_native v))) < U64_MAX - 256.

Inductive vfs_reach : Vfs → Prop :=
| reach_new limit : 0 ≤ limit < U64_MAX - 256 → vfs_reach (with_disk_limit limit)
| reach_seed_dirs v paths v' :
    vfs_reach v → Forall (λ p, normalize p ≠ "/") paths → room v (vf_disk_limit v) (length paths) →
    seed_dirs v paths = Ret v' → vfs_reach v'
| reach_seed_native v abs program v' :
    vfs_reach v → normalize abs ≠ "/" → room v (vf_disk_limit v) 1 →
    seed_native_executable v abs program = Ret v' → vfs_reach v'
| reach_fork v limit v' :
    vfs_reach v → room v limit 0 → from_base (freeze v) limit = Ok v' → vfs_reach v'
| reach_exec v op v' r :
    vfs_reach v → op_plain v op → vfs_exec v op = Ret (v', r) → vfs_reach v'.

Lemma vfs_reach_wf v : vfs_reach v → disk_wf (disk_of v).
Proof.
  induction 1 as [limit Hl|v paths v' _ IH Hp Hr Hs|v abs program v' _ IH Hp Hr Hs|v limit v' _ IH Hr Hb
    |v op v' r _ IH Hop He].
  - by apply with_disk_limit_wf.
  - by eapply seed_dirs_wf.
  - eapply seed_native_wf; [exact IH|exact Hp|exact Hr|exact Hs].
  - refine (proj1 (rebase_wf v limit v' IH _ Hb)). unfold room in Hr. lia.
  - pose proof (vfs_exec_keeps v op IH Hop) as Hk. rewrite He in Hk. apply Hk.
Qed.

(** C22: In every filesystem that seeding, forking and running the operations of [VfsOp] reach, whether
    they succeed or fail, the disk usage kept incrementally is the usage measured from scratch, it is
    within the disk limit, every visible node and every unlinked file is charged exactly once, and the
    node count is the number of visible nodes. Renaming and copying a tree are not among the
    operations; appending over a link or a native executable, which lets the two usages drift apart,
    and removing the root are left out ([op_plain]). The limits stay below the end of the type by
    256 bytes and 256 for each node of an image ([room]), so the unlimited filesystem of [Vfs::new],
    where sums saturate, is left out too. *)
Theorem disk_accounting_exact v :
  vfs_reach v →
  vf_disk_used v = measured_usage v ∧ vf_disk_used v ≤ vf_disk_limit v ∧
  vf_disk_used v = map_sum (cost (disk_of v)) (visible v) + map_sum (λ _, gross) (vf_orphaned v) ∧
  vf_node_count v = Z.of_nat (size (visible v)).
Proof.
  intros Hwf%vfs_reach_wf. split; [by rewrite wf_measured|]. split; [apply (wf_limit _ Hwf)|].
  split; [exact (wf_used _ Hwf)|exact (wf_count _ Hwf)].
Qed.

Definition seeded_example : Vfs :=
  match seed_dirs (with_disk_limit 2000) ["/bin"; "/tmp"] with Ret v => v | _ => vfs_new end.

Lemma seeded_reach : vfs_reach seeded_example.
Proof.
  eapply (reach_seed_dirs (with_disk_limit 2000) ["/bin"; "/tmp"]).
  - apply reach_new. split; [lia|by vm_compute].
  - repeat constructor; done.
  - by vm_compute.
  - by vm_compute.
Qed.

Lemma disk_accounting_exact_witness :
  let v := (vfs_write seeded_example "/" "/tmp/f" [Byte.x61; Byte.x62] 420).1 in
  vf_disk_used v = measured_usage v ∧ vf_disk_used v = 258.
Proof.
  split; [|vm_compute; reflexivity].
  apply (disk_accounting_exact (vfs_write seeded_example "/" "/tmp/f" [Byte.x61; Byte.x62] 420).1).
  apply (reach_exec seeded_example (OpWrite "/" "/tmp/f" [Byte.x61; Byte.x62] 420) _
           (vfs_write seeded_example "/" "/tmp/f" [Byte.x61; Byte.x62] 420).2 seeded_reach I).
  vm_compute. reflexivity.
Defined.

(** A change of the tree by one request: an operation of [VfsOp], or a renaming. *)
Inductive Mutation := MutOp (op : VfsOp) | MutRename (cwd from to : string).
Definition mutate (v : Vfs) (m : Mutation) : run (vfs_result unit) :=
  match m with MutOp op => vfs_exec v op | MutRename cwd from to => vfs_rename v cwd from to end.
Definition mutation_plain (v : Vfs) (m : Mutation) : Prop :=
  match m with MutOp op => op_plain v op | MutRename _ _ _ => True end.

(** A renaming that is refused has not begun. *)
Lemma rename_refused v cwd from to v' e : vfs_rename v cwd from to = Ret (v', Err e) → v' = v.
Proof.
  unfold vfs_rename. cbv zeta. destruct (_ ≫= _) as [from_real|]; [|by intros [= <- _]].
  destruct (negb _); [by intros [= <- _]|]. destruct (write_target v cwd to) as [target|]; [|by intros [= <- _]].
  destruct (rename_delta _ _ _ _ _ _) as [delta| |]; [|done..]. cbn [mbind run_bind].
  destruct (_ ≫= usage_after_delta v) as [used|]; [|by intros [= <- _]].
  by destruct (move_each _ _ _ _).
Qed.

(** C23: A mutation that fails changes nothing: every path of the tree, the unlinked files, the number
    of nodes and the usage are what they were, whichever check failed. The mutations are the
    operations of [VfsOp] and renaming; appending over a link or a native executable and removing
    the root are left out ([op_plain]), and so is the copy of a tree, which is a sequence of
    mutations of which a later one can fail after the first ones succeeded. *)
Theorem failed_mutation_atomic v m v' e :
  vfs_reach v → mutation_plain v m → mutate v m = Ret (v', Err e) →
  (∀ path, raw_get v' path = raw_get v path) ∧ vf_orphaned v' = vf_orphaned v ∧
  vf_disk_used v' = vf_disk_used v ∧ vf_node_count v' = vf_node_count v.
Proof.
  intros Hwf%vfs_reach_wf Hop He. destruct m as [op|cwd from to]; cbn [mutate mutation_plain] in *.
  - pose proof (vfs_exec_keeps v op Hwf Hop) as Hk. rewrite He in Hk.
    destruct Hk as [_ Hd]. simpl in Hd. injection Hd as Ht Hc Ho _ _ _ _ Hu.
    split; [|done]. intros path. by rewrite <-!visible_lookup, Ht.
  - by apply rename_refused in He as ->.
Qed.

Lemma failed_mutation_atomic_witness :
  (let out := put_file seeded_example "/opt/big" (replicate 2000 Byte.x61) 420 in
   out.2 = Err NoSpace ∧ raw_get out.1 "/opt" = raw_get seeded_example "/opt") ∧
  ∃ v', vfs_rename seeded_example "/" "/bin/missing" "/tmp/f" = Ret (v', Err (NotFound "/bin/missing")) ∧
    raw_get v' "/tmp" = raw_get seeded_example "/tmp".
Proof.
  split; [split; [vm_compute; reflexivity|]|].
  - apply (failed_mutation_atomic seeded_example (MutOp (OpPutFile "/opt/big" (replicate 2000 Byte.x61) 420))
           (put_file seeded_example "/opt/big" (replicate 2000 Byte.x61) 420).1 NoSpace seeded_reach I).
    vm_compute. reflexivity.
  - eexists. split; [vm_compute; reflexivity|].
    apply (failed_mutation_atomic seeded_example (MutRename "/" "/bin/missing" "/tmp/f") _ (NotFound "/bin/missing") seeded_reach I).
    vm_compute. reflexivity.
Defined.

Lemma unlink_effect v cwd path v' id :
  unlink_open_file v cwd path = Ret (v', Ok id) →
  ∃ real n data, realpath v (resolve_against cwd path) false = Ok real ∧ raw_get v real = Some n ∧
    nd_kind n = File data ∧ id = vf_next_orphan v ∧ vf_orphaned v' = <[id := n]> (vf_orphaned v) ∧
    (∀ q, raw_get v' q = if decide (q = real) then None else raw_get v q).
Proof.
  unfold unlink_open_file. cbv zeta. destruct (reject_pseudo_mutation _); [|done].
  destruct (realpath v _ false) as [real|]; [|done].
  destruct (raw_get v real) as [n|] eqn:Hget; [|done]. cbn [fmap option_fmap option_map].
  destruct (nd_kind n) as [data| | |] eqn:Hk; [|done..]. destruct (checked_add64 _ _) as [next|]; [|done].
  pose proof (raw_get_remove (set_orphaned v (vf_orphaned v) next) real) as Hrm.
  assert (Hn : (remove_node (set_orphaned v (vf_orphaned v) next) real).2 = Some n ∧
    vf_orphaned (remove_node (set_orphaned v (vf_orphaned v) next) real).1 = vf_orphaned v).
  { unfold remove_node. rewrite raw_get_orphaned, Hget. done. }
  destruct (remove_node _ real) as [v1 removed]. destruct Hn as [Hn Ho]. simpl in Hn, Ho, Hrm. subst removed.
  simpl. intros [= <- <-]. exists real, n, data. simpl. rewrite Ho. auto 10.
Qed.

Lemma unlink_baseline v cwd path v' id :
  unlink_open_file v cwd path = Ret (v', Ok id) →
  vf_baseline_dirs v' = vf_baseline_dirs v ∧ vf_baseline_native v' = vf_baseline_native v.
Proof.
  unfold unlink_open_file. cbv zeta. destruct (reject_pseudo_mutation _); [|done].
  destruct (realpath v _ false) as [real|]; [|done]. destruct (nd_kind <$> _) as [[]|]; try done.
  destruct (checked_add64 _ _) as [next|]; [|done]. unfold remove_node.
  destruct (raw_get _ real); [|done]. simpl. by intros [= <- <-].
Qed.

(** C24: An unlinked file lives on: when [unlink_open_file] succeeds its path is gone and no other
    path has changed, the file has a fresh identity under which its length and every range of its
    contents read as before, the other unlinked files are untouched, and the disk usage still
    counts it. *)
Theorem unlinked_file_survives v cwd path v' id :
  vfs_reach v → unlink_open_file v cwd path = Ret (v', Ok id) →
  ∃ real data, realpath v (resolve_against cwd path) false = Ok real ∧
    nd_kind <$> raw_get v real = Some (File data) ∧
    (∀ q, raw_get v' q = if decide (q = real) then None else raw_get v q) ∧
    vf_orphaned v !! id = None ∧
    (∀ other, other ≠ id → vf_orphaned v' !! other = vf_orphaned v !! other) ∧
    orphan_len v' id = Ret (Ok (zlen data)) ∧
    (∀ offset maximum, ∃ v2, read_orphan_range v' id offset maximum = Ret (v2, Ok (clipped data offset maximum))) ∧
    vf_disk_used v' = vf_disk_used v.
Proof.
  intros Hwf%vfs_reach_wf Hun. destruct (unlink_effect _ _ _ _ _ Hun) as (real & n & data & Hr & Hget & Hk & -> & Ho & Hq).
  exists real, data. split; [done|]. split; [rewrite Hget; simpl; by rewrite Hk|]. split; [done|].
  split; [exact (orphan_fresh _ Hwf)|]. split; [intros other Hne; by rewrite Ho, lookup_insert_ne|].
  unfold orphan_len, read_orphan_range. rewrite Ho, lookup_insert_eq. simpl. rewrite Hk.
  split; [done|]. split; [eauto|].
  pose proof (unlink_keeps v cwd path Hwf) as Hkeep. rewrite Hun in Hkeep. destruct Hkeep as [Hwf' _].
  pose proof (wf_used _ Hwf) as Hu. pose proof (wf_used _ Hwf') as Hu'. simpl in Hu, Hu'. rewrite Hu, Hu'.
  unfold usage. simpl. rewrite Ho, map_sum_insert by exact (orphan_fresh _ Hwf).
  assert (Hroot : real ≠ "/") by (apply (not_dir_not_root v real n); congruence).
  assert (Ht : visible v' = delete real (visible v)).
  { apply map_eq. intros q. rewrite visible_lookup, Hq, lookup_delete. repeat case_decide; try congruence.
    by rewrite visible_lookup. }
  assert (Hcost : ∀ p m, cost (disk_of v') p m = cost (disk_of v) p m).
  { intros p m. unfold cost, is_free. cbn [dk_dirs dk_native disk_of].
    destruct (unlink_baseline _ _ _ _ _ Hun) as [-> ->]. done. }
  rewrite Ht, (map_sum_ext _ (cost (disk_of v))) by (intros; apply Hcost).
  rewrite (map_sum_delete _ _ real n) by (by rewrite visible_lookup).
  rewrite (file_cost v real n data Hroot Hk). unfold gross, node_payload_len, NODE_OVERHEAD. rewrite Hk. lia.
Qed.

Lemma unlinked_file_survives_witness :
  let v := (vfs_write seeded_example "/" "/tmp/f" [Byte.x61; Byte.x62] 420).1 in
  ∃ v' (data : bytes), unlink_open_file v "/" "/tmp/f" = Ret (v', Ok 1) ∧ orphan_len v' 1 = Ret (Ok (zlen data)).
Proof.
  set (v := (vfs_write seeded_example "/" "/tmp/f" [Byte.x61; Byte.x62] 420).1).
  assert (Hreach : vfs_reach v).
  { apply (reach_exec seeded_example (OpWrite "/" "/tmp/f" [Byte.x61; Byte.x62] 420) _
             (vfs_write seeded_example "/" "/tmp/f" [Byte.x61; Byte.x62] 420).2 seeded_reach I).
    vm_compute. reflexivity. }
  set (v' := match unlink_open_file v "/" "/tmp/f" with Ret (v', _) => v' | _ => v end).
  assert (Hun : unlink_open_file v "/" "/tmp/f" = Ret (v', Ok 1)) by (vm_compute; reflexivity).
  destruct (unlinked_file_survives v "/" "/tmp/f" v' 1 Hreach Hun)
    as (real & data & _ & _ & _ & _ & _ & Hlen & _).
  exists v', data. split; [exact Hun|exact Hlen].
Defined.
