(* ===== verification/Syntax.v ===== *)
(** * Shell syntax (src/src/shell.rs)

    The syntax tree of a shell action, the tokens it is read from and the errors of reading it. *)

From stdpp Require Import pretty.
From S2P Require Import Prelude.
From S2P Require Import RustStr.

(** ** Errors *)

Inductive ShellError :=
| UnexpectedEof (expected : string)
| UnexpectedToken (found expected : string)
| UnclosedQuote (quote : string)
| NestingTooDeep.

#[export] Instance ShellError_eq_dec : EqDecision ShellError.
Proof. solve_decision. Defined.

Definition shell_error_display (e : ShellError) : string :=
  match e with
  | UnexpectedEof expected => "unexpected end of file (expected " +:+ expected +:+ ")"
  | UnexpectedToken found expected => "unexpected token " +:+ found +:+ " (expected " +:+ expected +:+ ")"
  | UnclosedQuote quote => "unclosed " +:+ quote +:+ " quote"
  | NestingTooDeep => "commands are nested too deeply"
  end.

(** ** The syntax tree *)

Inductive RedirOp :=
| OpRead | OpWrite | OpAppend | OpReadWrite | OpDupOut | OpClose | OpHeredoc | OpHeredocRaw | OpHereString.

#[export] Instance RedirOp_eq_dec : EqDecision RedirOp.
Proof. solve_decision. Defined.

Record Redirect := MkRedirect { rd_fd : Z; rd_op : RedirOp; rd_target : string }.

#[export] Instance Redirect_eq_dec : EqDecision Redirect.
Proof. solve_decision. Defined.

Inductive Node :=
| NCommand (assigns : list (string * string)) (words : list string) (redirects : list Redirect)
| NArgvCommand (words : list string)
| NPipeline (stages : list Node)
| NAnd (lhs rhs : Node)
| NOr (lhs rhs : Node)
| NSeq (nodes : list Node)
| NBackground (node : Node)
| NSubshell (node : Node)
| NGroup (node : Node)
| NIf (cond then_ : Node) (elifs : list (Node * Node)) (els : option Node)
| NFor (var : string) (words : list string) (body : Node)
| NCFor (init cond update : string) (body : Node)
| NWhile (cond body : Node) (until : bool)
| NCase (word : string) (arms : list (list string * Node))
| NFuncDef (name : string) (body : Node)
| NArithmetic (expression : string)
| NNot (node : Node)
| NTimed (inner : Node) (posix : bool)
| NRedirected (node : Node) (redirects : list Redirect)
| NEmpty.

(** The children of a node, and induction over the tree through them. *)
Definition children (n : Node) : list Node :=
  match n with
  | NPipeline nodes | NSeq nodes => nodes
  | NAnd l r | NOr l r => [l; r]
  | NBackground n | NSubshell n | NGroup n | NNot n | NTimed n _ | NRedirected n _ => [n]
  | NIf cond then_ elifs els =>
      cond :: then_ :: flat_map (λ '(c, b), [c; b]) elifs ++ option_list els
  | NFor _ _ body | NCFor _ _ _ body | NFuncDef _ body => [body]
  | NWhile cond body _ => [cond; body]
  | NCase _ arms => map snd arms
  | NCommand _ _ _ | NArgvCommand _ | NArithmetic _ | NEmpty => []
  end.

Section node_ind.
Variable P : Node → Prop.
Hypothesis Hnode : ∀ n, Forall P (children n) → P n.

Lemma node_children_ind : ∀ n, P n.
Proof.
  fix rec 1.
  intros n. apply Hnode. destruct n as
    [| |stages|l r|l r|nodes|n|n|n|c t elifs els|v w b|i c u b|c b u|w arms|nm b| |n|n p|n rs|]; simpl;
    try (by repeat constructor); try (repeat apply Forall_cons_2; try apply rec; by constructor).
  - induction stages as [|n stages IH]; [constructor|]. constructor; [apply rec|exact IH].
  - induction nodes as [|n nodes IH]; [constructor|]. constructor; [apply rec|exact IH].
  - apply Forall_cons_2; [apply rec|]. apply Forall_cons_2; [apply rec|]. apply Forall_app. split.
    + induction elifs as [|[c' b'] elifs IH]; [constructor|]. simpl.
      apply Forall_cons_2; [apply rec|]. apply Forall_cons_2; [apply rec|]. exact IH.
    + destruct els as [e|]; [|constructor]. apply Forall_cons_2; [apply rec|constructor].
  - induction arms as [|[ps b] arms IH]; [constructor|]. simpl. apply Forall_cons_2; [apply rec|]. exact IH.
Qed.
End node_ind.

(** ** The size charged for a copy of the tree

    [size_of::<Node>()] and [size_of::<Redirect>()] are the compiler's. *)
Section size.
Context (NODE_SIZE REDIRECT_SIZE : Z).

Definition strings_bytes (values : list string) : Z :=
  foldl (λ total value, sat_add64 (sat_add64 total (str_len value)) 24) 0 values.
Definition redirects_bytes (values : list Redirect) : Z :=
  foldl (λ total value, sat_add64 (sat_add64 total (str_len (rd_target value))) REDIRECT_SIZE) 0 values.

Fixpoint estimated_bytes (n : Node) : Z :=
  sat_add64 NODE_SIZE
    match n with
    | NCommand assigns words redirects =>
        sat_add64
          (foldl (λ total '(name, value), sat_add64 (sat_add64 (sat_add64 total (str_len name)) (str_len value)) 48)
             (strings_bytes words) assigns)
          (redirects_bytes redirects)
    | NArgvCommand words => strings_bytes words
    | NPipeline nodes | NSeq nodes => foldl (λ total node, sat_add64 total (estimated_bytes node)) 0 nodes
    | NAnd l r | NOr l r => sat_add64 (estimated_bytes l) (estimated_bytes r)
    | NBackground node | NSubshell node | NGroup node | NNot node => estimated_bytes node
    | NTimed inner _ => estimated_bytes inner
    | NIf cond then_ elifs els =>
        sat_add64
          (foldl (λ total '(condition, body),
                    sat_add64 (sat_add64 total (estimated_bytes condition)) (estimated_bytes body))
             (sat_add64 (estimated_bytes cond) (estimated_bytes then_)) elifs)
          match els with Some els => estimated_bytes els | None => 0 end
    | NFor var words body => sat_add64 (sat_add64 (str_len var) (strings_bytes words)) (estimated_bytes body)
    | NCFor init cond update body =>
        sat_add64 (sat_add64 (sat_add64 (str_len init) (str_len cond)) (str_len update)) (estimated_bytes body)
    | NWhile cond body _ => sat_add64 (estimated_bytes cond) (estimated_bytes body)
    | NCase word arms =>
        foldl (λ total '(patterns, body),
                 sat_add64 (sat_add64 total (strings_bytes patterns)) (estimated_bytes body))
          (str_len word) arms
    | NFuncDef name body => sat_add64 (str_len name) (estimated_bytes body)
    | NArithmetic expression => str_len expression
    | NRedirected node redirects => sat_add64 (estimated_bytes node) (redirects_bytes redirects)
    | NEmpty => 0
    end.
End size.

(** ** Tokens *)

Inductive Tok :=
| TWord (w : string)
| TOp (o : string)
| TLess
| TGreat
| TDGreat
| THeredoc (body : string) (quoted : bool)
| TArithmetic (expression : string)
| THereString (word : string)
| TGreatAmp (fd : Z)
| TCloseOut
| TRedirFd (fd : Z) (op : string)
| TEof.

#[export] Instance Tok_eq_dec : EqDecision Tok.
Proof. solve_decision. Defined.

Definition token_description (token : Tok) : string :=
  match token with
  | TWord word => "`" +:+ word +:+ "`"
  | TOp op => "`" +:+ op +:+ "`"
  | TLess => "`<`"
  | TGreat => "`>`"
  | TDGreat => "`>>`"
  | THeredoc _ _ => "heredoc"
  | TArithmetic _ => "arithmetic command"
  | THereString _ => "here-string"
  | TGreatAmp _ | TCloseOut | TRedirFd _ _ => "redirection"
  | TEof => "end of file"
  end.

(** [w.find(c)]. *)
Fixpoint str_find (c : ascii) (s : string) : option nat :=
  match s with
  | EmptyString => None
  | String b rest => if bool_decide (b = c) then Some O else S <$> str_find c rest
  end.

(** The characters of a name: a letter or [_], then also digits. *)
Fixpoint name_chars (first : bool) (s : string) : bool :=
  match s with
  | EmptyString => true
  | String b rest =>
      let n := Ascii.N_of_ascii b in
      (bool_decide (b = "_"%char) || alpha_code n || negb first && digit_code n) && name_chars false rest
  end.

Definition is_assignment (w : string) : bool :=
  match str_find "="%char w with
  | None | Some O => false
  | Some eq =>
      let lhs := str_take eq w in
      let lhs := default lhs (strip_suffix "+" lhs) in
      let named name := negb (bool_decide (name = "")) && name_chars true name in
      match str_find "["%char lhs with
      | Some br => if ends_with "]" lhs then named (str_take br lhs) else false
      | None => named lhs
      end
  end.

(** [w.find('=').unwrap()]: the caller has tested [is_assignment]. *)
Definition split_assignment (w : string) : run (string * string) :=
  eq ← expect (str_find "="%char w);
  Ret (str_take eq w, str_drop (S eq) w).

(** ** The three parts of [for ((init; cond; update))] *)

Record ForScan := MkForScan {
  fs_quote : option string; fs_escaped : bool; fs_parens : Z; fs_braces : Z; fs_brackets : Z
}.

(** [u32::saturating_add] and [saturating_sub] of 1. *)
Definition sat_inc32 (n : Z) : Z := Z.min (n + 1) U32_MAX.

Definition for_scan_start : ForScan := MkForScan None false 0 0 0.

(** One character: the state after it, and whether it is a boundary. *)
Definition for_scan (st : ForScan) (ch : string) : ForScan * bool :=
  let with_quote q := MkForScan q (fs_escaped st) (fs_parens st) (fs_braces st) (fs_brackets st) in
  let with_escaped e := MkForScan (fs_quote st) e (fs_parens st) (fs_braces st) (fs_brackets st) in
  let with_depths p b k := MkForScan (fs_quote st) (fs_escaped st) p b k in
  let '(p, b, k) := (fs_parens st, fs_braces st, fs_brackets st) in
  if fs_escaped st then (with_escaped false, false)
  else if bool_decide (ch = "\") && negb (bool_decide (fs_quote st = Some "'")) then (with_escaped true, false)
  else if bool_decide (ch = "'") || bool_decide (ch = dquote) || bool_decide (ch = "`") then
    (with_quote (if bool_decide (fs_quote st = Some ch) then None
                 else if bool_decide (fs_quote st = None) then Some ch else fs_quote st), false)
  else if bool_decide (is_Some (fs_quote st)) then (st, false)
  else if bool_decide (ch = "(") then (with_depths (sat_inc32 p) b k, false)
  else if bool_decide (ch = ")") then (with_depths (sat_sub p 1) b k, false)
  else if bool_decide (ch = "{") then (with_depths p (sat_inc32 b) k, false)
  else if bool_decide (ch = "}") then (with_depths p (sat_sub b 1) k, false)
  else if bool_decide (ch = "[") then (with_depths p b (sat_inc32 k), false)
  else if bool_decide (ch = "]") then (with_depths p b (sat_sub k 1), false)
  else if bool_decide (ch = ";") && (p =? 0) && (b =? 0) && (k =? 0) then (st, true)
  else (st, false).

(** The characters before the next boundary, and those after it when there is one. *)
Fixpoint for_part (st : ForScan) (cs : list string) : list string * option (ForScan * list string) :=
  match cs with
  | [] => ([], None)
  | ch :: cs =>
      let '(st, boundary) := for_scan st ch in
      if boundary : bool then ([], Some (st, cs))
      else let '(part, rest) := for_part st cs in (ch :: part, rest)
  end.

Definition split_c_for_expression (expression : string) : string * string * string :=
  let part cs := trim (collect cs) in
  match for_part for_scan_start (utf8_chars expression) with
  | (init, None) => (part init, "", "")
  | (init, Some (st, rest)) =>
      match for_part st rest with
      | (cond, None) => (part init, part cond, "")
      | (cond, Some (_, update)) => (part init, part cond, part update)
      end
  end.
