(* ===== verification/Arith.v ===== *)
(** * Shell arithmetic (src/src/arith.rs)

    The evaluator of [$(( ))], a recursive-descent parser that computes as it reads. Its cursor is
    the state of a small monad, together with the variables behind [ArithVars]; an error ends the
    evaluation and keeps the assignments made before it. The parsing functions take fuel, and
    the theorems show that the fuel [evaluate] passes is enough for every expression. *)

From S2P Require Import Prelude.
From S2P Require Import RustStr.

(** ** Variables *)

(** The storage an evaluation reads and assigns. Every method may change the storage, as
    [&mut self] allows. *)
Class ArithVars (V : Type) := {
  arith_get : V → string → V * result string (option string);
  arith_get_element : V → string → Z → V * result string (option string);
  arith_set : V → string → Z → V * result string unit;
  arith_set_element : V → string → Z → Z → V * result string unit
}.

Record ArithError := MkArithError { ae_message : string; ae_variable : bool }.

Definition expression_error (message : string) : ArithError := MkArithError message false.
Definition variable_error (message : string) : ArithError := MkArithError message true.

Definition describe (e : ArithError) (expression : string) : string :=
  if ae_variable e then ae_message e else trim_start expression +:+ ": " +:+ ae_message e.

Definition MAX_RECURSION : nat := 128.
Definition MAX_NESTING : nat := 256.

Inductive Place := Scalar (name : string) | Element (name : string) (index : Z).

Record Operand := MkOperand { op_value : Z; op_place : option Place }.
Definition rvalue (value : Z) : Operand := MkOperand value None.

Definition ASSIGNMENT_OPERATORS : list string :=
  ["<<="; ">>="; "*="; "/="; "%="; "+="; "-="; "&="; "^="; "|="; "="].

Definition LEVELS : list (list string) :=
  [["|"]; ["^"]; ["&"]; ["=="; "!="]; ["<="; ">="; "<"; ">"]; ["<<"; ">>"]; ["+"; "-"]; ["*"; "/"; "%"]].

Definition LONGER : list string :=
  ["<<="; ">>="; "**"; "<<"; ">>"; "<="; ">="; "=="; "!="; "&&"; "||"; "*="; "/="; "%="; "+="; "-="; "&=";
   "^="; "|="].

(** ** Constants *)

Definition constant_digit (base : Z) (c : ascii) : option Z :=
  let n := Ascii.N_of_ascii c in
  if in_range 48 57 n then Some (Z.of_N n - 48)
  else if in_range 97 122 n then Some (Z.of_N n - 97 + 10)
  else if in_range 65 90 n && (base <=? 36) then Some (Z.of_N n - 65 + 10)
  else if in_range 65 90 n then Some (Z.of_N n - 65 + 36)
  else if bool_decide (c = "@"%char) then Some 62
  else if bool_decide (c = "_"%char) then Some 63
  else None.

Fixpoint constant_digits (base : Z) (digits : string) (value : Z) : result string Z :=
  match digits with
  | EmptyString => Ok value
  | String c rest =>
      match constant_digit base c with
      | None => Err "invalid integer constant"
      | Some digit =>
          if base <=? digit then Err "value too great for base"
          else constant_digits base rest (wrap64 (wrap64 (value * base) + digit))
      end
  end.

Definition constant_base (text : string) : result string (Z * string) :=
  match split_once "#"%char text with
  | Some (base, digits) =>
      base ← ok_or (parse_unsigned U32_MAX base) "invalid arithmetic base";
      if negb ((2 <=? base) && (base <=? 64)) then Err "invalid arithmetic base"
      else if bool_decide (digits = "") then Err "invalid integer constant"
      else Ok (base, digits)
  | None =>
      match strip_prefix "0x" text, strip_prefix "0X" text with
      | Some digits, _ | None, Some digits => Ok (16, digits)
      | None, None =>
          if (1 <? str_len text) && starts_with "0" text then Ok (8, str_drop 1 text) else Ok (10, text)
      end
  end.

Definition parse_constant (text : string) : result string Z :=
  '(base, digits) ← constant_base text; constant_digits base digits 0.

(** ** Operators *)

(** The loop of [wrapping_power]; 64 rounds are enough for an [i64] exponent. *)
Fixpoint power_loop (fuel : nat) (base exponent result : Z) : run Z :=
  if 0 <? exponent then
    match fuel with
    | O => NoFuel
    | S fuel =>
        let result := if Z.land exponent 1 =? 1 then wrap64 (result * base) else result in
        power_loop fuel (wrap64 (base * base)) (Z.shiftr exponent 1) result
    end
  else Ret result.

Definition wrapping_power (base exponent : Z) : run Z := power_loop 64 base exponent 1.

(** [wrapping_shl] and [wrapping_shr] take the count [as u32] modulo the width. *)
Definition shift_count (right : Z) : Z := Z.land (right mod 2 ^ 32) 63.
Definition i64_from (b : bool) : Z := if b then 1 else 0.

Definition apply_error (message : string) : run (result string Z) := Ret (Err message).

(** [apply]: the value, or the message of the error it reports. *)
Definition apply_op (operator : string) (left right : Z) : run (result string Z) :=
  let ok v := Ret (Ok v) in
  if bool_decide (operator = "|") then ok (Z.lor left right)
  else if bool_decide (operator = "^") then ok (Z.lxor left right)
  else if bool_decide (operator = "&") then ok (Z.land left right)
  else if bool_decide (operator = "==") then ok (i64_from (left =? right))
  else if bool_decide (operator = "!=") then ok (i64_from (negb (left =? right)))
  else if bool_decide (operator = "<=") then ok (i64_from (left <=? right))
  else if bool_decide (operator = ">=") then ok (i64_from (right <=? left))
  else if bool_decide (operator = "<") then ok (i64_from (left <? right))
  else if bool_decide (operator = ">") then ok (i64_from (right <? left))
  else if bool_decide (operator = "<<") then ok (wrap64 (Z.shiftl left (shift_count right)))
  else if bool_decide (operator = ">>") then ok (Z.shiftr left (shift_count right))
  else if bool_decide (operator = "+") then ok (wrap64 (left + right))
  else if bool_decide (operator = "-") then ok (wrap64 (left - right))
  else if bool_decide (operator = "*") then ok (wrap64 (left * right))
  else if (bool_decide (operator = "/") || bool_decide (operator = "%")) && (right =? 0)
  then apply_error "division by 0"
  else if bool_decide (operator = "/") then ok (wrap64 (Z.quot left right))
  else if bool_decide (operator = "%") then ok (wrap64 (Z.rem left right))
  else if bool_decide (operator = "**") && (right <? 0) then apply_error "exponent less than 0"
  else if bool_decide (operator = "**") then v ← wrapping_power left right; ok v
  else Panic.

(** ** The parser *)

Record Parser (V : Type) := MkParser {
  ps_vars : V;
  ps_position : nat;
  ps_token_start : nat;
  ps_nesting : nat
}.
Arguments MkParser {V}.
Arguments ps_vars {V}.
Arguments ps_position {V}.
Arguments ps_token_start {V}.
Arguments ps_nesting {V}.

(** A parsing function: from the cursor to the cursor it leaves and its result. *)
Definition parse (V A : Type) : Type := Parser V → run (Parser V * result ArithError A).

#[export] Instance parse_ret {V} : MRet (parse V) := λ A a p, Ret (p, Ok a).
#[export] Instance parse_bind {V} : MBind (parse V) := λ A B k m p,
  match m p with
  | Ret (p, Ok a) => k a p
  | Ret (p, Err e) => Ret (p, Err e)
  | Panic => Panic
  | NoFuel => NoFuel
  end.

Section parser.
Context {V : Type} `{ArithVars V}.
(** The characters of the expression, and the evaluation one level down, [None] at the limit. *)
Context (chars : list string) (deeper : option (V → string → run (V * result ArithError Z))).

Definition set_position (p : Parser V) (position : nat) : Parser V :=
  MkParser (ps_vars p) position (ps_token_start p) (ps_nesting p).
Definition set_token_start (p : Parser V) (start : nat) : Parser V :=
  MkParser (ps_vars p) (ps_position p) start (ps_nesting p).
Definition set_nesting (p : Parser V) (nesting : nat) : Parser V :=
  MkParser (ps_vars p) (ps_position p) (ps_token_start p) nesting.
Definition set_vars (p : Parser V) (vars : V) : Parser V :=
  MkParser vars (ps_position p) (ps_token_start p) (ps_nesting p).

Definition modify (f : Parser V → Parser V) : parse V unit := λ p, Ret (f p, Ok tt).
Definition gets {A} (f : Parser V → A) : parse V A := λ p, Ret (p, Ok (f p)).
Definition out_of_fuel {A} : parse V A := λ _, NoFuel.

Definition at_end (p : Parser V) : bool := bool_decide (length chars ≤ ps_position p)%nat.

(** The end of the run of characters satisfying [test] from [start]. *)
Definition scan (test : string → bool) (start : nat) : nat :=
  (start + length (take_while test (drop start chars)))%nat.

Definition skip_blanks : parse V unit :=
  modify (λ p, set_position p (scan is_whitespace (ps_position p))).

Definition char_at (i : nat) : option string := chars !! i.

Definition peek_char : parse V (option string) :=
  _ ← skip_blanks; gets (λ p, char_at (ps_position p)).

Fixpoint at_text (text : string) (i : nat) : bool :=
  match text with
  | EmptyString => true
  | String c rest => bool_decide (char_at i = Some (String c EmptyString)) && at_text rest (S i)
  end.

Definition looking_at (text : string) : parse V bool :=
  _ ← skip_blanks; gets (λ p, at_text text (ps_position p)).

Definition eat (text : string) : parse V bool :=
  here ← looking_at text;
  if here : bool then
    _ ← modify (λ p, set_position (set_token_start p (ps_position p)) (ps_position p + String.length text));
    mret true
  else mret false.

Definition shadowed (candidates : list string) (candidate : string) (position : nat) : bool :=
  existsb (λ operator,
    bool_decide (String.length candidate < String.length operator)%nat && starts_with candidate operator &&
    negb (bool_decide (operator ∈ candidates)) && at_text operator position) LONGER.

Definition binary_operator (candidates : list string) : parse V (option string) :=
  _ ← skip_blanks;
  gets (λ p, head (filter (λ candidate,
    (at_text candidate (ps_position p) && negb (shadowed candidates candidate (ps_position p))) = true)
    candidates)).

Definition error {A} (message : string) : parse V A := λ p,
  let token := collect (drop (Nat.min (ps_token_start p) (length chars)) chars) in
  Ret (p, Err (expression_error (message +:+ " (error token is " +:+ dquote +:+ token +:+ dquote +:+ ")"))).

(** [self.token_start = self.position] before an error. *)
Definition error_here {A} (message : string) : parse V A :=
  _ ← modify (λ p, set_token_start p (ps_position p)); error message.

Definition nest : parse V unit :=
  _ ← modify (λ p, set_nesting p (S (ps_nesting p)));
  nesting ← gets ps_nesting;
  if bool_decide (MAX_NESTING < nesting)%nat then error "expression nesting too deep" else mret tt.
Definition unnest : parse V unit := modify (λ p, set_nesting p (pred (ps_nesting p))).

Definition identifier_start (c : string) : bool := is_ascii_alphabetic c || bool_decide (c = "_").

Definition identifier_after (offset : nat) (p : Parser V) : bool :=
  match char_at (scan is_whitespace (ps_position p + offset)) with
  | Some c => identifier_start c
  | None => false
  end.

(** A call on the variables; its error carries the message of the storage. *)
Definition on_vars {A} (f : V → V * result string A) : parse V A := λ p,
  let '(vars, r) := f (ps_vars p) in
  Ret (set_vars p vars, match r with Ok a => Ok a | Err message => Err (variable_error message) end).

Definition store (place : Place) (value : Z) : parse V unit :=
  on_vars (λ vars, match place with
    | Scalar name => arith_set vars name value
    | Element name index => arith_set_element vars name index value
    end).

Definition apply (operator : string) (left right : Z) : parse V Z := λ p,
  match apply_op operator left right with
  | Ret (Ok v) => Ret (p, Ok v)
  | Ret (Err message) => error message p
  | Panic => Panic
  | NoFuel => NoFuel
  end.

Definition constant_char (c : string) : bool :=
  is_ascii_alphanumeric c || bool_decide (c = "#") || bool_decide (c = "@") || bool_decide (c = "_").
Definition name_char (c : string) : bool := is_ascii_alphanumeric c || bool_decide (c = "_").

(** Read a run of characters as the next token. *)
Definition read_token (test : string → bool) : parse V string :=
  start ← gets ps_position;
  _ ← modify (λ p, set_position (set_token_start p start) (scan test start));
  mret (collect (take_while test (drop start chars))).

Definition constant : parse V Z :=
  text ← read_token constant_char;
  match parse_constant text with Ok v => mret v | Err message => error message end.

Definition place_name (place : Place) : string :=
  match place with Scalar name | Element name _ => name end.

Definition variable_value (place : Place) (stored : option string) : parse V Z :=
  match stored with
  | None => mret 0
  | Some text =>
      let trimmed := trim text in
      if bool_decide (trimmed = "") then mret 0
      else
        match parse_i64 trimmed with
        | Some value => mret value
        | None =>
            match deeper with
            | None => λ p,
                Ret (p, Err (expression_error
                  ("expression recursion level exceeded (error token is " +:+ dquote +:+ place_name place
                   +:+ dquote +:+ ")")))
            | Some evaluate => λ p,
                match evaluate (ps_vars p) trimmed with
                | Ret (vars, r) => Ret (set_vars p vars, r)
                | Panic => Panic
                | NoFuel => NoFuel
                end
            end
        end
  end.

Definition read_place (place : Place) (skip : bool) : parse V Operand :=
  if skip then mret (MkOperand 0 (Some place))
  else
    stored ← on_vars (λ vars, match place with
      | Scalar name => arith_get vars name
      | Element name index => arith_get_element vars name index
      end);
    value ← variable_value place stored;
    mret (MkOperand value (Some place)).

(** [++] or [--] after an operand. *)
Definition post_step (operand : Operand) (place : Place) (skip : bool) (delta : Z) : parse V Operand :=
  _ ← (if skip then mret tt else store place (wrap64 (op_value operand + delta)));
  mret (rvalue (op_value operand)).

Definition unary_value (operator : string) (operand : Z) : Z :=
  if bool_decide (operator = "-") then wrap64 (- operand)
  else if bool_decide (operator = "+") then operand
  else if bool_decide (operator = "!") then i64_from (operand =? 0)
  else Z.lnot operand.

(** The [++] or [--] before an identifier, at the cursor. *)
Definition step_ahead : parse V (option (string * Z)) :=
  plus ← looking_at "++"; after ← gets (identifier_after 2);
  if plus && after then mret (Some ("++", 1))
  else
    minus ← looking_at "--"; after ← gets (identifier_after 2);
    mret (if minus && after then Some ("--", -1) else None).

Definition sign_ahead : parse V (option string) :=
  c ← peek_char;
  mret (head (filter (λ operator, c = Some operator) ["-"; "+"; "!"; "~"])).

(** [operator[..operator.len() - 1]]. *)
Definition binary_of (operator : string) : string := str_take (pred (String.length operator)) operator.

(** The functions of the parser, and the loops in them. Every function calls the others through
    [rec], the functions with one unit of fuel less. *)
Inductive Rule :=
| Comma | CommaLoop (operand : Operand)
| Assignment
| Conditional
| LogicalOr | OrLoop (left : Operand)
| LogicalAnd | AndLoop (left : Operand)
| BinaryLevel (level : nat) | BinaryLoop (level : nat) (operators : list string) (left : Operand)
| Power
| Unary
| Postfix
| Primary
| VariableRef.

Section rules.
Context (rec : Rule → bool → parse V Operand).

Definition comma (skip : bool) : parse V Operand :=
  operand ← rec Assignment skip; rec (CommaLoop operand) skip.

Definition comma_loop (skip : bool) (operand : Operand) : parse V Operand :=
  more ← eat ",";
  if more : bool then operand ← rec Assignment skip; rec (CommaLoop operand) skip else mret operand.

Definition assignment (skip : bool) : parse V Operand :=
  target ← rec Conditional skip;
  operator ← binary_operator ASSIGNMENT_OPERATORS;
  match operator with
  | None => mret target
  | Some operator =>
      _ ← eat operator;
      match op_place target with
      | None => error "attempted assignment to non-variable"
      | Some place =>
          right ← rec Assignment skip;
          if skip then mret (rvalue 0)
          else
            value ← (if bool_decide (operator = "=") then mret (op_value right)
                     else apply (binary_of operator) (op_value target) (op_value right));
            _ ← store place value;
            mret (rvalue value)
      end
  end.

Definition conditional (skip : bool) : parse V Operand :=
  condition ← rec LogicalOr skip;
  question ← eat "?";
  if question : bool then
    let take_first := negb (op_value condition =? 0) in
    _ ← nest;
    first ← rec Comma (skip || negb take_first);
    colon ← eat ":";
    if colon : bool then
      second ← rec Conditional (skip || take_first);
      _ ← unnest;
      mret (rvalue (if take_first then op_value first else op_value second))
    else error_here "`:' expected for conditional expression"
  else mret condition.

Definition logical_or (skip : bool) : parse V Operand :=
  left ← rec LogicalAnd skip; rec (OrLoop left) skip.

Definition or_loop (skip : bool) (left : Operand) : parse V Operand :=
  more ← eat "||";
  if more : bool then
    let decided := negb (op_value left =? 0) in
    right ← rec LogicalAnd (skip || decided);
    rec (OrLoop (rvalue (i64_from (decided || negb (op_value right =? 0))))) skip
  else mret left.

Definition logical_and (skip : bool) : parse V Operand :=
  left ← rec (BinaryLevel 0) skip; rec (AndLoop left) skip.

Definition and_loop (skip : bool) (left : Operand) : parse V Operand :=
  more ← eat "&&";
  if more : bool then
    let decided := op_value left =? 0 in
    right ← rec (BinaryLevel 0) (skip || decided);
    rec (AndLoop (rvalue (i64_from (negb decided && negb (op_value right =? 0))))) skip
  else mret left.

Definition binary_level (level : nat) (skip : bool) : parse V Operand :=
  match LEVELS !! level with
  | None => rec Power skip
  | Some operators => left ← rec (BinaryLevel (S level)) skip; rec (BinaryLoop level operators left) skip
  end.

Definition binary_loop (level : nat) (operators : list string) (skip : bool) (left : Operand)
    : parse V Operand :=
  operator ← binary_operator operators;
  match operator with
  | None => mret left
  | Some operator =>
      _ ← eat operator;
      right ← rec (BinaryLevel (S level)) skip;
      value ← (if skip then mret 0 else apply operator (op_value left) (op_value right));
      rec (BinaryLoop level operators (rvalue value)) skip
  end.

Definition power (skip : bool) : parse V Operand :=
  base ← rec Unary skip;
  operator ← binary_operator ["**"];
  match operator with
  | None => mret base
  | Some _ =>
      _ ← eat "**";
      _ ← nest;
      exponent ← rec Power skip;
      _ ← unnest;
      if skip then mret (rvalue 0)
      else value ← apply "**" (op_value base) (op_value exponent); mret (rvalue value)
  end.

Definition unary (skip : bool) : parse V Operand :=
  _ ← skip_blanks;
  step ← step_ahead;
  match step with
  | Some (operator, delta) =>
      _ ← eat operator;
      target ← rec Postfix skip;
      match op_place target with
      | None => error "attempted assignment to non-variable"
      | Some place =>
          if skip then mret (rvalue 0)
          else
            let value := wrap64 (op_value target + delta) in
            _ ← store place value;
            mret (rvalue value)
      end
  | None =>
      sign ← sign_ahead;
      match sign with
      | None => rec Postfix skip
      | Some operator =>
          _ ← eat operator;
          _ ← nest;
          operand ← rec Unary skip;
          _ ← unnest;
          mret (rvalue (unary_value operator (op_value operand)))
      end
  end.

Definition postfix (skip : bool) : parse V Operand :=
  operand ← rec Primary skip;
  match op_place operand with
  | None => mret operand
  | Some place =>
      plus ← eat "++";
      if plus : bool then post_step operand place skip 1
      else
        minus ← eat "--";
        if minus : bool then post_step operand place skip (-1) else mret operand
  end.

Definition primary (skip : bool) : parse V Operand :=
  first ← peek_char;
  match first with
  | None => error "arithmetic syntax error: operand expected"
  | Some first =>
      if bool_decide (first = "(") then
        _ ← eat "(";
        _ ← nest;
        value ← rec Comma skip;
        _ ← unnest;
        closed ← eat ")";
        if closed : bool then mret (rvalue (op_value value)) else error_here "missing `)'"
      else if is_ascii_digit first then value ← constant; mret (rvalue value)
      else if identifier_start first then rec VariableRef skip
      else error_here "arithmetic syntax error: operand expected"
  end.

Definition variable (skip : bool) : parse V Operand :=
  name ← read_token name_char;
  bracket ← gets (λ p, bool_decide (char_at (ps_position p) = Some "["));
  if bracket : bool then
    _ ← modify (λ p, set_position p (S (ps_position p)));
    _ ← nest;
    index ← rec Comma skip;
    _ ← unnest;
    closed ← eat "]";
    if closed : bool then read_place (Element name (op_value index)) skip else error_here "missing `]'"
  else read_place (Scalar name) skip.

Definition rule_body (rule : Rule) (skip : bool) : parse V Operand :=
  match rule with
  | Comma => comma skip
  | CommaLoop operand => comma_loop skip operand
  | Assignment => assignment skip
  | Conditional => conditional skip
  | LogicalOr => logical_or skip
  | OrLoop lhs => or_loop skip lhs
  | LogicalAnd => logical_and skip
  | AndLoop lhs => and_loop skip lhs
  | BinaryLevel level => binary_level level skip
  | BinaryLoop level operators lhs => binary_loop level operators skip lhs
  | Power => power skip
  | Unary => unary skip
  | Postfix => postfix skip
  | Primary => primary skip
  | VariableRef => variable skip
  end.
End rules.

Fixpoint parse_rule (fuel : nat) : Rule → bool → parse V Operand :=
  match fuel with
  | O => λ _ _, out_of_fuel
  | S fuel => rule_body (parse_rule fuel)
  end.

(** The body of [evaluate_at_depth] once the parser is made. *)
Definition parse_expression (fuel : nat) : parse V Z :=
  _ ← skip_blanks;
  ended ← gets at_end;
  if ended : bool then mret 0
  else
    value ← parse_rule fuel Comma false;
    _ ← skip_blanks;
    ended ← gets at_end;
    if ended : bool then mret (op_value value) else error_here "arithmetic syntax error in expression".
End parser.

(** Each character is read by at most a fixed number of nested calls. *)
Definition parse_fuel (chars : list string) : nat := 32 * S (length chars).

(** [evaluate_at_depth], by the number of levels still allowed: [MAX_RECURSION - depth]. *)
Fixpoint evaluate_at {V} `{ArithVars V} (levels : nat) (vars : V) (expression : string)
    : run (V * result ArithError Z) :=
  let deeper := match levels with O => None | S levels => Some (evaluate_at levels) end in
  let chars := utf8_chars expression in
  match parse_expression chars deeper (parse_fuel chars) (MkParser vars 0 0 0) with
  | Ret (p, r) => Ret (ps_vars p, r)
  | Panic => Panic
  | NoFuel => NoFuel
  end.

Definition evaluate {V} `{ArithVars V} (vars : V) (expression : string) : run (V * result ArithError Z) :=
  evaluate_at MAX_RECURSION vars expression.
