(* ===== verification/ArithSpec.v ===== *)
(** * The arithmetic evaluator always returns

    Every parsing function, with fuel for the characters it has left, returns within the
    expression: its value is an [i64], it consumes input when it succeeds, and with [skip] it
    never touches the variables. The constants and [**] compute their mathematical value modulo
    [2 ^ 64]. *)

From stdpp Require Import pretty.
From S2P Require Import Prelude.
From S2P Require Import RustStr.
From S2P Require Import Arith.

(** ** Machine arithmetic *)

Lemma in_i64_small z : -1 ≤ z ≤ 64 → in_i64 z.
Proof. unfold in_i64, I64_MIN, I64_MAX. lia. Qed.

Lemma i64_from_range b : in_i64 (i64_from b).
Proof. apply in_i64_small. destruct b; simpl; lia. Qed.

(** An [i64] is a number whose bits from 63 up are all its sign. *)
Lemma in_i64_shiftr z : in_i64 z ↔ Z.shiftr z 63 = 0 ∨ Z.shiftr z 63 = -1.
Proof.
  rewrite Z.shiftr_div_pow2 by lia. unfold in_i64, I64_MIN, I64_MAX.
  change (2 ^ 63) with 9223372036854775808.
  pose proof (Z.div_mod z 9223372036854775808 ltac:(done)).
  pose proof (Z.mod_pos_bound z 9223372036854775808 ltac:(done)). lia.
Qed.

Lemma in_i64_bitwise (f : Z → Z → Z) a b :
  Z.shiftr (f a b) 63 = f (Z.shiftr a 63) (Z.shiftr b 63) →
  (f 0 0 = 0 ∨ f 0 0 = -1) → (f 0 (-1) = 0 ∨ f 0 (-1) = -1) →
  (f (-1) 0 = 0 ∨ f (-1) 0 = -1) → (f (-1) (-1) = 0 ∨ f (-1) (-1) = -1) →
  in_i64 a → in_i64 b → in_i64 (f a b).
Proof.
  rewrite !in_i64_shiftr. intros -> H00 H01 H10 H11 [-> | ->] [-> | ->]; done.
Qed.

Lemma in_i64_shr a n : in_i64 a → 0 ≤ n → in_i64 (Z.shiftr a n).
Proof.
  unfold in_i64, I64_MIN, I64_MAX. intros Ha Hn. rewrite Z.shiftr_div_pow2 by done.
  assert (1 ≤ 2 ^ n) by (pose proof (Z.pow_pos_nonneg 2 n); lia).
  split; [apply Z.div_le_lower_bound|apply Z.div_le_upper_bound]; nia.
Qed.

Lemma shift_count_nonneg z : 0 ≤ shift_count z.
Proof. unfold shift_count. apply Z.land_nonneg. right. lia. Qed.

(** ** The operators *)

Lemma power_loop_exact fuel base exponent result :
  0 ≤ exponent < 2 ^ Z.of_nat fuel →
  power_loop fuel base exponent result = Ret (if exponent =? 0 then result else wrap64 (result * base ^ exponent)).
Proof.
  revert base exponent result. induction fuel as [|fuel IH]; intros base exponent result He.
  { simpl in He. replace exponent with 0 by lia. done. }
  cbn [power_loop]. destruct (Z.ltb_spec 0 exponent) as [Hpos|]; [|replace exponent with 0 by lia; done].
  rewrite (proj2 (Z.eqb_neq exponent 0)) by lia.
  rewrite Z.shiftr_div_pow2, Z.pow_1_r by lia. change 1 with (Z.ones 1) at 1. rewrite Z.land_ones, Z.pow_1_r by lia.
  pose proof (Z.div_mod exponent 2 ltac:(done)) as Hdm. pose proof (Z.mod_pos_bound exponent 2 ltac:(done)).
  rewrite Nat2Z.inj_succ, Z.pow_succ_r in He by lia. rewrite IH by lia. f_equal.
  set (q := exponent / 2) in *. set (r := exponent mod 2) in *.
  assert (Hpow : base ^ exponent = (base * base) ^ q * base ^ r).
  { rewrite Hdm, Z.pow_add_r, Z.pow_mul_r, Z.pow_2_r by lia. done. }
  assert (Hr : (if r =? 1 then wrap64 (result * base) else result) mod 2 ^ 64 = (result * base ^ r) mod 2 ^ 64).
  { destruct (Z.eqb_spec r 1) as [->|]; [by rewrite wrap64_mod, Z.pow_1_r|].
    replace r with 0 by lia. by rewrite Z.pow_0_r, Z.mul_1_r. }
  destruct (Z.eqb_spec q 0) as [Hq|Hq].
  - assert (r = 1) as Hr1 by lia. rewrite Hr1. simpl. rewrite Hpow, Hq, Hr1, Z.pow_0_r, Z.pow_1_r, Z.mul_1_l. done.
  - apply wrap64_eq. rewrite Hpow. rewrite Z.mul_mod, Hr by done.
    assert (Hb : (wrap64 (base * base) ^ q) mod 2 ^ 64 = ((base * base) ^ q) mod 2 ^ 64).
    { rewrite <-(Z.mod_pow_l (wrap64 (base * base))), wrap64_mod, Z.mod_pow_l. done. }
    rewrite Hb, <-Z.mul_mod by done. f_equal. ring.
Qed.

Lemma wrapping_power_ret base exponent :
  in_i64 base → 0 ≤ exponent ≤ I64_MAX → wrapping_power base exponent = Ret (wrap64 (base ^ exponent)).
Proof.
  intros Hb He. unfold wrapping_power. rewrite power_loop_exact.
  - destruct (Z.eqb_spec exponent 0) as [->|]; [done|]. by rewrite Z.mul_1_l.
  - unfold I64_MAX in He. change (2 ^ Z.of_nat 64) with 18446744073709551616. lia.
Qed.

Definition OPERATORS : list string := concat LEVELS ++ ["**"].

(** No operator of the table panics, and in-range operands give an in-range value; only a zero
    divisor and a negative exponent are errors. *)
Lemma apply_op_total operator l r :
  operator ∈ OPERATORS → in_i64 l → in_i64 r →
  ∃ res, apply_op operator l r = Ret res ∧
    match res with Ok v => in_i64 v | Err message => message = "division by 0" ∧ r = 0 ∨
      message = "exponent less than 0" ∧ r < 0 end.
Proof.
  intros Hop Hl Hr. unfold OPERATORS in Hop. simpl in Hop.
  repeat (apply elem_of_cons in Hop as [->|Hop]); [..|by apply elem_of_nil in Hop].
  - exists (Ok (Z.lor l r)). split; [reflexivity|]. apply (in_i64_bitwise Z.lor); auto using Z.shiftr_lor.
  - exists (Ok (Z.lxor l r)). split; [reflexivity|]. apply (in_i64_bitwise Z.lxor); auto using Z.shiftr_lxor.
  - exists (Ok (Z.land l r)). split; [reflexivity|]. apply (in_i64_bitwise Z.land); auto using Z.shiftr_land.
  - eexists (Ok (i64_from _)). split; [reflexivity|apply i64_from_range].
  - eexists (Ok (i64_from _)). split; [reflexivity|apply i64_from_range].
  - eexists (Ok (i64_from _)). split; [reflexivity|apply i64_from_range].
  - eexists (Ok (i64_from _)). split; [reflexivity|apply i64_from_range].
  - eexists (Ok (i64_from _)). split; [reflexivity|apply i64_from_range].
  - eexists (Ok (i64_from _)). split; [reflexivity|apply i64_from_range].
  - eexists (Ok (wrap64 _)). split; [reflexivity|apply wrap64_range].
  - exists (Ok (Z.shiftr l (shift_count r))). split; [reflexivity|].
    apply in_i64_shr; [done|apply shift_count_nonneg].
  - eexists (Ok (wrap64 _)). split; [reflexivity|apply wrap64_range].
  - eexists (Ok (wrap64 _)). split; [reflexivity|apply wrap64_range].
  - eexists (Ok (wrap64 _)). split; [reflexivity|apply wrap64_range].
  - change (apply_op "/" l r) with (if r =? 0 then apply_error "division by 0" else Ret (Ok (wrap64 (Z.quot l r)))).
    destruct (Z.eqb_spec r 0); eexists; (split; [reflexivity|]); [by left|apply wrap64_range].
  - change (apply_op "%" l r) with (if r =? 0 then apply_error "division by 0" else Ret (Ok (wrap64 (Z.rem l r)))).
    destruct (Z.eqb_spec r 0); eexists; (split; [reflexivity|]); [by left|apply wrap64_range].
  - change (apply_op "**" l r) with (if r <? 0 then apply_error "exponent less than 0"
      else v ← wrapping_power l r; Ret (@Ok string Z v)).
    destruct (Z.ltb_spec r 0); [eexists; split; [reflexivity|by right]|].
    rewrite wrapping_power_ret by (unfold in_i64 in *; lia).
    eexists (Ok (wrap64 _)). split; [reflexivity|apply wrap64_range].
Qed.

(** ** Constants *)

Lemma constant_digits_range base digits value v :
  in_i64 value → constant_digits base digits value = Ok v → in_i64 v.
Proof.
  revert value. induction digits as [|c digits IH]; intros value Hv; simpl; [by intros [= <-]|].
  destruct (constant_digit base c) as [d|]; [|done]. case_match; [done|]. apply IH, wrap64_range.
Qed.

Lemma parse_constant_range text v : parse_constant text = Ok v → in_i64 v.
Proof.
  unfold parse_constant, mbind, result_bind. destruct (constant_base text) as [[base digits]|]; [|done].
  apply constant_digits_range, in_i64_small. lia.
Qed.

Lemma parse_i64_range s v : parse_i64 s = Some v → in_i64 v.
Proof.
  unfold parse_i64, parse_signed. destruct (match s with String _ _ => _ | _ => _ end) as [sign digits].
  destruct (decimal digits) as [d|]; [|done]. simpl. case_match eqn:Hr; [|done]. intros [= <-].
  bool_to_prop. unfold in_i64. lia.
Qed.

(** The value a list of digits stands for. *)
Definition positional (base : Z) (ds : list Z) : Z := foldl (λ acc d, acc * base + d) 0 ds.

Fixpoint digits_of (base : Z) (s : string) : option (list Z) :=
  match s with
  | EmptyString => Some []
  | String c rest => d ← constant_digit base c; ds ← digits_of base rest; Some (d :: ds)
  end.

Lemma constant_digits_exact base digits v value :
  constant_digits base digits value = Ok v ↔
  (∃ ds, digits_of base digits = Some ds ∧ Forall (λ d, d < base) ds ∧
    v = match ds with [] => value | _ => wrap64 (foldl (λ acc d, acc * base + d) value ds) end).
Proof.
  revert value. induction digits as [|c digits IH]; intros value; simpl.
  { split; [intros [= <-]; by exists []|]. intros (ds & [= <-] & _ & ->). done. }
  destruct (constant_digit base c) as [d|]; simpl; [|split; [done|by intros (? & ? & _)]].
  destruct (Z.leb_spec base d) as [Hle|Hlt].
  { split; [done|]. intros (ds & Hds & Hall & _). destruct (digits_of base digits); [|done].
    injection Hds as <-. apply Forall_cons in Hall as [? _]. lia. }
  rewrite IH. destruct (digits_of base digits) as [ds|]; simpl; [|split; intros (? & ? & _); done].
  assert (Heq : ∀ acc acc', acc mod 2 ^ 64 = acc' mod 2 ^ 64 →
    wrap64 (foldl (λ acc d, acc * base + d) acc ds) = wrap64 (foldl (λ acc d, acc * base + d) acc' ds)).
  { clear. induction ds as [|d ds IH]; intros acc acc' Ha; simpl; [by apply wrap64_eq|]. apply IH.
    rewrite <-(Zplus_mod_idemp_l (acc * base)), <-(Zplus_mod_idemp_l (acc' * base)). f_equal. f_equal.
    rewrite <-(Zmult_mod_idemp_l acc), <-(Zmult_mod_idemp_l acc'). by rewrite Ha. }
  assert (Hstep : (wrap64 (wrap64 (value * base) + d)) mod 2 ^ 64 = (value * base + d) mod 2 ^ 64).
  { rewrite wrap64_mod, <-(Zplus_mod_idemp_l (wrap64 _)), wrap64_mod. by rewrite Zplus_mod_idemp_l. }
  assert (Hval : match ds with [] => wrap64 (wrap64 (value * base) + d)
    | _ :: _ => wrap64 (foldl (λ acc d, acc * base + d) (wrap64 (wrap64 (value * base) + d)) ds) end =
    wrap64 (foldl (λ acc d, acc * base + d) (value * base + d) ds)).
  { destruct ds as [|d' ds']; [|by apply Heq]. simpl. apply wrap64_eq. rewrite <-wrap64_mod. done. }
  split.
  - intros (ds' & [= <-] & Hall & ->). exists (d :: ds). split; [done|]. split; [by constructor|]. exact Hval.
  - intros (ds' & [= <-] & Hall & ->). apply Forall_cons in Hall as [_ Hall]. exists ds. by rewrite Hval.
Qed.

(** Integer constants: [parse_constant] accepts a text exactly when its base prefix is well formed
    and every digit is below the base, and its value is the number the digits denote in that base,
    modulo [2 ^ 64] in two's complement. *)
Theorem parse_constant_exact text v :
  parse_constant text = Ok v ↔
  ∃ base digits ds, constant_base text = Ok (base, digits) ∧ digits_of base digits = Some ds ∧
    Forall (λ d, d < base) ds ∧ v = wrap64 (positional base ds).
Proof.
  unfold parse_constant, mbind, result_bind. destruct (constant_base text) as [[base digits]|e]; simpl.
  - rewrite constant_digits_exact. split.
    + intros (ds & Hds & Hall & Hv). exists base, digits, ds. split; [done|]. split; [done|]. split; [done|].
      destruct ds; [|done]. subst v. done.
    + intros (base' & digits' & ds & [= <- <-] & Hds & Hall & Hv). exists ds. split; [done|]. split; [done|].
      by destruct ds.
  - split; [done|]. by intros (? & ? & ? & ? & _).
Qed.

(** ** What the storage keeps

    A frame is a relation between the storage before and after that every access keeps. *)

Class ArithFrame (V : Type) `{ArithVars V} := {
  frame : relation V;
  frame_order :: PreOrder frame;
  frame_get vars name : frame vars (arith_get vars name).1;
  frame_get_element vars name index : frame vars (arith_get_element vars name index).1;
  frame_set vars name value : frame vars (arith_set vars name value).1;
  frame_set_element vars name index value : frame vars (arith_set_element vars name index value).1
}.

(** Nothing is promised of an arbitrary storage. *)
Lemma no_frame_order V : PreOrder (λ _ _ : V, True).
Proof. by constructor. Qed.

#[export] Instance no_frame {V} `{ArithVars V} : ArithFrame V | 100 :=
  {| frame _ _ := True; frame_order := no_frame_order V; frame_get _ _ := I; frame_get_element _ _ _ := I;
     frame_set _ _ _ := I; frame_set_element _ _ _ _ := I |}.

(** ** The cursor *)

Section cursor.
Context {V : Type} `{ArithVars V} `{!ArithFrame V} (chars : list string).
Implicit Types p : Parser V.

Definition good p : Prop := (ps_position p ≤ length chars)%nat.

(** What a parsing function may do to the parser: it stays within the expression, moves on, and
    with [skip] leaves the variables alone; they stay in the frame anyway. *)
Definition moves (skip : bool) p p' : Prop :=
  good p' ∧ (ps_position p ≤ ps_position p')%nat ∧ frame (ps_vars p) (ps_vars p') ∧
  (skip = true → ps_vars p' = ps_vars p).

(** [m] returns from [p], with a value satisfying [Q]; when [strict] it has consumed input. *)
Definition returns {A} (skip strict : bool) (Q : A → Parser V → Prop) (m : parse V A) p : Prop :=
  ∃ p' r, m p = Ret (p', r) ∧ moves skip p p' ∧
    match r with
    | Ok a => Q a p' ∧ (strict = true → (ps_position p < ps_position p')%nat)
    | Err _ => True
    end.

Lemma moves_refl skip p : good p → moves skip p p.
Proof. intros Hg. by repeat split. Qed.

Lemma moves_trans skip p1 p2 p3 : moves skip p1 p2 → moves skip p2 p3 → moves skip p1 p3.
Proof.
  intros (Hg1 & Hp1 & Hf1 & Hv1) (Hg2 & Hp2 & Hf2 & Hv2). repeat split; [done|lia|by etrans|].
  intros Hs. by rewrite Hv2, Hv1.
Qed.

Lemma returns_bind {A B} skip s1 s2 (Q1 : A → Parser V → Prop) (Q2 : B → Parser V → Prop)
    (m : parse V A) (k : A → parse V B) p :
  returns skip s1 Q1 m p →
  (∀ a p', Q1 a p' → moves skip p p' → (s1 = true → (ps_position p < ps_position p')%nat) →
     returns skip s2 Q2 (k a) p') →
  returns skip (s1 || s2) Q2 (m ≫= k) p.
Proof.
  intros (p1 & r1 & Hm & Hmove & Hr) Hk. unfold returns, mbind, parse_bind. rewrite Hm.
  destruct r1 as [a|e].
  - destruct Hr as [HQ Hs]. destruct (Hk a p1 HQ Hmove Hs) as (p2 & r2 & -> & Hmove2 & Hr2).
    exists p2, r2. split; [done|]. split; [by eapply moves_trans|]. destruct r2 as [b|]; [|done].
    destruct Hr2 as [HQ2 Hs2]. split; [done|]. destruct Hmove as (_ & ? & _), Hmove2 as (_ & ? & _).
    intros [Hs1|Hs']%orb_true_iff; [specialize (Hs Hs1)|specialize (Hs2 Hs')]; lia.
  - exists p1, (Err e). done.
Qed.

Lemma returns_weaken {A} skip s s' (Q Q' : A → Parser V → Prop) (m : parse V A) p :
  returns skip s Q m p → (∀ a p', Q a p' → moves skip p p' → Q' a p') → (s' = true → s = true) →
  returns skip s' Q' m p.
Proof.
  intros (p' & r & Hm & Hmove & Hr) HQ Hs. exists p', r. split; [done|]. split; [done|].
  destruct r; [|done]. destruct Hr. auto.
Qed.

Lemma returns_ret {A} skip (Q : A → Parser V → Prop) a p :
  good p → Q a p → returns skip false Q (mret a) p.
Proof. intros Hg HQ. exists p, (Ok a). split; [done|]. by split; [apply moves_refl|]. Qed.

Lemma take_while_length {A} (f : A → bool) l : (length (take_while f l) ≤ length l)%nat.
Proof. induction l as [|x l IH]; simpl; [done|]. destruct (f x); simpl; lia. Qed.

Lemma scan_bounds test i : (i ≤ length chars)%nat → (i ≤ scan chars test i ≤ length chars)%nat.
Proof.
  intros Hi. unfold scan. pose proof (take_while_length test (drop i chars)). rewrite length_drop in *. lia.
Qed.

Lemma take_drop_while {A} (f : A → bool) l : take_while f (drop_while f l) = [].
Proof. induction l as [|x l IH]; simpl; [done|]. destruct (f x) eqn:Hf; [done|]. simpl. by rewrite Hf. Qed.

Lemma scan_idem test i : scan chars test (scan chars test i) = scan chars test i.
Proof.
  unfold scan at 1. unfold scan. rewrite <-drop_drop, drop_take_while, take_drop_while. simpl. lia.
Qed.

Lemma scan_here test i c : chars !! i = Some c → test c = true → (i < scan chars test i)%nat.
Proof.
  intros Hc Ht. unfold scan. rewrite (drop_S _ _ _ Hc). simpl. rewrite Ht. simpl. lia.
Qed.

Lemma at_text_length text i : at_text chars text i = true → text ≠ "" →
  (0 < String.length text)%nat ∧ (i + String.length text ≤ length chars)%nat.
Proof.
  revert i. induction text as [|c text IH]; intros i; [done|]. simpl. intros [Hc Ht]%andb_true_iff _.
  bool_to_prop. apply lookup_lt_Some in Hc. destruct text as [|c' text']; [simpl in *; lia|].
  destruct (IH (S i) Ht); [done|]. simpl in *. lia.
Qed.

(** Nothing blank at the cursor. *)
Definition settled_at p : Prop := scan chars is_whitespace (ps_position p) = ps_position p.

Lemma skip_blanks_returns skip p : good p →
  returns skip false (λ _ p', settled_at p' ∧ (settled_at p → ps_position p' = ps_position p)) (skip_blanks chars) p.
Proof.
  intros Hg. destruct (scan_bounds is_whitespace (ps_position p) Hg) as [Hl Hu].
  eexists _, _. split; [reflexivity|]. split; [done|]. split; [|done].
  split; [apply scan_idem|]. intros Hs. exact Hs.
Qed.

Lemma gets_returns {A} skip (f : Parser V → A) p :
  good p → returns skip false (λ a p', a = f p ∧ p' = p) (gets f) p.
Proof. intros Hg. exists p, (Ok (f p)). split; [done|]. split; [by apply moves_refl|done]. Qed.

Lemma looking_at_returns skip text p : good p →
  returns skip false (λ b p', b = at_text chars text (ps_position p') ∧ settled_at p' ∧
    (settled_at p → ps_position p' = ps_position p)) (looking_at chars text) p.
Proof.
  intros Hg. unfold looking_at. eapply (returns_bind _ false false); [by apply skip_blanks_returns|].
  intros _ p' [Hs Hsame] Hmove _. eapply returns_weaken; [apply gets_returns, Hmove| |done].
  intros b p2 [-> ->] _. done.
Qed.

Lemma eat_returns skip text p : good p → text ≠ "" →
  returns skip false (λ b p', (b = true → (ps_position p < ps_position p')%nat) ∧
    (settled_at p → at_text chars text (ps_position p) = true → b = true)) (eat chars text) p.
Proof.
  intros Hg Ht. unfold eat. eapply (returns_bind _ false false); [by apply looking_at_returns|].
  intros b p' (-> & Hs & Hsame) Hmove _. destruct (at_text chars text (ps_position p')) eqn:Hat.
  - destruct (at_text_length _ _ Hat Ht) as [Hpos Hlen]. eexists _, _. split; [reflexivity|].
    destruct Hmove as (_ & Hle & Hv).
    split; [split; [unfold good; simpl; lia|split; [simpl; lia|done]]|].
    split; [|done]. split; [intros _; simpl; lia|done].
  - apply returns_ret; [apply Hmove|]. split; [done|]. intros Hsp Hp. rewrite <-(Hsame Hsp) in Hp. congruence.
Qed.

Lemma binary_operator_returns skip candidates p : good p →
  returns skip false (λ o p', settled_at p' ∧ ∀ operator, o = Some operator →
    operator ∈ candidates ∧ at_text chars operator (ps_position p') = true) (binary_operator chars candidates) p.
Proof.
  intros Hg. unfold binary_operator. eapply (returns_bind _ false false); [by apply skip_blanks_returns|].
  intros _ p' [Hs _] Hmove _. eapply returns_weaken; [apply gets_returns, Hmove| |done].
  intros o p2 [-> ->] _. split; [done|]. intros operator Ho. apply head_Some_elem_of in Ho.
  apply list_elem_of_filter in Ho as [Hc Hin]. by apply andb_true_iff in Hc as [? _].
Qed.

(** The operator found is the next token. *)
Lemma operator_eaten {B} skip s operator (k : bool → parse V B) Q p : good p → settled_at p →
  at_text chars operator (ps_position p) = true → operator ≠ "" →
  (∀ p', moves skip p p' → (ps_position p < ps_position p')%nat → returns skip s Q (k true) p') →
  returns skip true Q (eat chars operator ≫= k) p.
Proof.
  intros Hg Hs Hat Hne Hk. destruct (eat_returns skip operator p Hg Hne) as (p1 & r & Heat & Hmove & Hr).
  assert (r = Ok true ∧ (ps_position p < ps_position p1)%nat) as [-> Hlt].
  { destruct r as [b|e].
    - destruct Hr as [[Hlt Hb] _]. rewrite (Hb Hs Hat) in *. auto.
    - revert Heat. unfold eat, looking_at, mbind, parse_bind, skip_blanks, modify, gets. by case_match. }
  apply (returns_weaken _ (true || s) _ Q); [|done|done].
  apply (returns_bind _ true s (λ b p', b = true) Q).
  - exists p1, (Ok true). auto.
  - intros b p' -> Hm Hlt'. apply Hk; auto.
Qed.

Lemma error_returns {A} skip s (Q : A → Parser V → Prop) message p :
  good p → returns skip s Q (error chars message) p.
Proof. intros Hg. eexists p, _. split; [reflexivity|]. split; [by apply moves_refl|done]. Qed.

Lemma error_here_returns {A} skip s (Q : A → Parser V → Prop) message p :
  good p → returns skip s Q (error_here chars message) p.
Proof. intros Hg. eexists _, _. split; [reflexivity|]. split; [by repeat split|done]. Qed.

Lemma modify_returns skip f p :
  good p → good (f p) → ps_position (f p) = ps_position p → ps_vars (f p) = ps_vars p →
  returns skip false (λ _ p', ps_position p' = ps_position p) (modify f) p.
Proof.
  intros Hg Hg' Hp Hv. exists (f p), (Ok tt). split; [done|]. split; [|done]. repeat split; [done|lia|by rewrite Hv|done].
Qed.

Lemma nest_returns skip p : good p →
  returns skip false (λ _ p', ps_position p' = ps_position p) (nest chars) p.
Proof.
  intros Hg. unfold nest. unfold returns, mbind, parse_bind. simpl. case_bool_decide.
  - eexists _, _. split; [reflexivity|]. by repeat split.
  - eexists _, _. split; [reflexivity|]. by repeat split.
Qed.

Lemma unnest_returns skip p : good p → returns skip false (λ _ p', ps_position p' = ps_position p) unnest p.
Proof. intros Hg. by apply modify_returns. Qed.

Lemma apply_returns skip operator l r p :
  good p → operator ∈ OPERATORS → in_i64 l → in_i64 r →
  returns skip false (λ v _, in_i64 v) (apply chars operator l r) p.
Proof.
  intros Hg Hop Hl Hr. destruct (apply_op_total operator l r Hop Hl Hr) as (res & Heq & Hres).
  unfold returns, apply. rewrite Heq. destruct res as [v|message].
  - exists p, (Ok v). split; [done|]. split; [by apply moves_refl|done].
  - by apply (error_returns skip false (λ v _, in_i64 v)).
Qed.

Lemma on_vars_returns {A} (f : V → V * result string A) p : good p → frame (ps_vars p) (f (ps_vars p)).1 →
  returns false false (λ _ p', ps_position p' = ps_position p) (on_vars f) p.
Proof.
  intros Hg Hf. unfold returns, on_vars. destruct (f (ps_vars p)) as [vars r]. eexists _, _.
  split; [reflexivity|]. split; [by repeat split|]. by destruct r.
Qed.

Lemma read_token_returns skip test c p :
  good p → chars !! ps_position p = Some c → test c = true →
  returns skip true (λ _ _, True) (read_token chars test) p.
Proof.
  intros Hg Hc Ht. pose proof (scan_here test _ c Hc Ht). pose proof (scan_bounds test _ Hg).
  eexists _, _. split; [reflexivity|]. split; [|split; [done|intros _; simpl; lia]].
  split; [unfold good; simpl; lia|]. split; [simpl; lia|done].
Qed.

Lemma bind_strict {A B} skip s (Q1 : A → Parser V → Prop) (Q2 : B → Parser V → Prop)
    (m : parse V A) (k : A → parse V B) p :
  returns skip true Q1 m p →
  (∀ a p', Q1 a p' → moves skip p p' → (ps_position p < ps_position p')%nat → returns skip false Q2 (k a) p') →
  returns skip s Q2 (m ≫= k) p.
Proof.
  intros Hm Hk. apply (returns_weaken _ (true || false) _ Q2); [|done|done].
  eapply returns_bind; [exact Hm|]. auto.
Qed.

Lemma bind_lax {A B} skip s (Q1 : A → Parser V → Prop) (Q2 : B → Parser V → Prop)
    (m : parse V A) (k : A → parse V B) p :
  returns skip false Q1 m p →
  (∀ a p', Q1 a p' → moves skip p p' → returns skip s Q2 (k a) p') →
  returns skip s Q2 (m ≫= k) p.
Proof.
  intros Hm Hk. apply (returns_weaken _ (false || s) _ Q2); [|done|done].
  eapply returns_bind; [exact Hm|]. auto.
Qed.
(** Skipping more changes less. *)
Lemma returns_skip {A} skip b s (Q : A → Parser V → Prop) (m : parse V A) p :
  returns (skip || b) s Q m p → returns skip s Q m p.
Proof.
  intros (p' & r & Hm & (Hg & Hle & Hf & Hv) & Hr). exists p', r. split; [done|]. split; [|done].
  split; [done|]. split; [done|]. split; [done|]. intros ->. by apply Hv.
Qed.
End cursor.

(** ** The rules *)

Section rules.
Context {V : Type} `{ArithVars V} `{!ArithFrame V} (chars : list string)
  (deeper : option (V → string → run (V * result ArithError Z))).
Implicit Types p : Parser V.

(** The calls a rule makes before it reads a character. *)
Definition rank (rule : Rule) : nat :=
  match rule with
  | Comma => 20 | Assignment => 19 | Conditional => 18 | LogicalOr => 17 | LogicalAnd => 16
  | BinaryLevel level => 15 - level
  | Power => 6 | Unary => 5 | Postfix => 4 | Primary => 3 | VariableRef => 2
  | CommaLoop _ | OrLoop _ | AndLoop _ | BinaryLoop _ _ _ => 1
  end.

Definition is_loop (rule : Rule) : bool :=
  match rule with CommaLoop _ | OrLoop _ | AndLoop _ | BinaryLoop _ _ _ => true | _ => false end.

Definition rule_ok (rule : Rule) p : Prop :=
  match rule with
  | CommaLoop operand | OrLoop operand | AndLoop operand => in_i64 (op_value operand)
  | BinaryLevel level => (level ≤ 8)%nat
  | BinaryLoop level operators operand => LEVELS !! level = Some operators ∧ in_i64 (op_value operand)
  | VariableRef => ∃ c, chars !! ps_position p = Some c ∧ name_char c = true
  | _ => True
  end.

Definition value_ok (o : Operand) (_ : Parser V) : Prop := in_i64 (op_value o).

Definition rec_ok (fuel : nat) (rec : Rule → bool → parse V Operand) : Prop :=
  ∀ rule skip p, rule_ok rule p → good chars p →
    (32 * (length chars - ps_position p) + rank rule ≤ fuel)%nat →
    returns chars skip (negb (is_loop rule)) value_ok (rec rule skip) p.

Context (Hdeeper : ∀ ev vars text, deeper = Some ev →
  ∃ vars' r, ev vars text = Ret (vars', r) ∧ frame vars vars' ∧ match r with Ok v => in_i64 v | Err _ => True end).

Lemma variable_value_returns place stored p : good chars p →
  returns chars false false (λ v _, in_i64 v) (variable_value deeper place stored) p.
Proof.
  intros Hg. destruct stored as [text|]; simpl; [|by apply returns_ret, in_i64_small].
  case_bool_decide; [by apply returns_ret, in_i64_small|].
  destruct (parse_i64 (trim text)) as [v|] eqn:Hv.
  { apply returns_ret; [done|]. by eapply parse_i64_range. }
  destruct deeper as [ev|].
  - destruct (Hdeeper ev (ps_vars p) (trim text) eq_refl) as (vars' & r & Hev & Hf & Hr).
    unfold returns. rewrite Hev. eexists _, r. split; [reflexivity|]. split; [by repeat split|].
    destruct r; [|done]. split; [done|]. by intros ?.
  - eexists _, _. split; [reflexivity|]. split; [by apply moves_refl|done].
Qed.

Lemma read_place_returns place skip p : good chars p →
  returns chars skip false value_ok (read_place deeper place skip) p.
Proof.
  intros Hg. unfold read_place. destruct skip; [by apply returns_ret, in_i64_small|].
  eapply bind_lax.
  { apply on_vars_returns; [done|]. destruct place; [apply frame_get|apply frame_get_element]. }
  intros stored p1 _ (Hg1 & _).
  eapply bind_lax; [by apply variable_value_returns|]. intros v p2 Hv (Hg2 & _). by apply returns_ret.
Qed.

Lemma store_returns place value p : good chars p →
  returns chars false false (λ _ _, True) (store place value) p.
Proof.
  intros Hg. eapply returns_weaken; [apply on_vars_returns; [done|]|done|done].
  destruct place; [apply frame_set|apply frame_set_element].
Qed.

Section bodies.
Context (fuel : nat) (rec : Rule → bool → parse V Operand) (Hrec : rec_ok fuel rec).

Abbreviation fits rule p := (32 * (length chars - ps_position p) + rank rule ≤ S fuel)%nat.

(** A call of [rule]: its side condition, then the fuel by the positions in the context. *)
Ltac call rule := apply (Hrec rule); unfold good in *; simpl in *; [try done|try done|lia].
Ltac call_lax rule := eapply returns_weaken; [call rule|done|done].

Lemma comma_returns skip p : good chars p → fits Comma p →
  returns chars skip true value_ok (comma rec skip) p.
Proof.
  intros Hg Hf. eapply bind_strict; [call Assignment|].
  intros o p1 Ho (Hg1 & _) Hlt. call (CommaLoop o).
Qed.

Lemma comma_loop_returns skip o p : good chars p → in_i64 (op_value o) → fits (CommaLoop o) p →
  returns chars skip false value_ok (comma_loop chars rec skip o) p.
Proof.
  intros Hg Ho Hf. eapply bind_lax; [by apply eat_returns|].
  intros [] p1 [Hlt _] (Hg1 & _); [|by apply returns_ret]. specialize (Hlt eq_refl).
  eapply bind_lax; [call_lax Assignment|].
  intros o2 p2 Ho2 (Hg2 & Hle & _). call (CommaLoop o2).
Qed.

Lemma assignment_operator_binary operator :
  operator ∈ ASSIGNMENT_OPERATORS → operator ≠ "" ∧ (operator = "=" ∨ binary_of operator ∈ OPERATORS).
Proof.
  assert (Hall : Forall (λ operator, bool_decide (operator ≠ "" ∧
    (operator = "=" ∨ binary_of operator ∈ OPERATORS)) = true) ASSIGNMENT_OPERATORS)
    by (vm_compute; repeat constructor).
  intros Hin. by pose proof (proj1 (Forall_forall _ _) Hall _ Hin) as ?%bool_decide_eq_true_1.
Qed.

Lemma assignment_returns skip p : good chars p → fits Assignment p →
  returns chars skip true value_ok (assignment chars rec skip) p.
Proof.
  intros Hg Hf. eapply bind_strict; [call Conditional|]. intros target p1 Htarget (Hg1 & _) Hlt.
  eapply bind_lax; [by apply binary_operator_returns|].
  intros [operator|] p2 [Hs Hop] (Hg2 & Hle2 & _); [|by apply returns_ret].
  destruct (Hop operator eq_refl) as [Hin Hat]. clear Hop.
  destruct (assignment_operator_binary operator Hin) as [Hne Hbin].
  eapply returns_weaken; [eapply (operator_eaten chars skip false); [done..|]|done|done].
  intros p3 (Hg3 & _) Hlt3. destruct (op_place target) as [place|]; [|by apply error_returns].
  eapply bind_lax; [call_lax Assignment|]. intros right p4 Hright (Hg4 & _).
  destruct skip; [by apply returns_ret, in_i64_small|].
  eapply (bind_lax chars _ _ (λ v _, in_i64 v)).
  - case_bool_decide; [by apply returns_ret|]. apply apply_returns; try done. by destruct Hbin.
  - intros value p5 Hvalue (Hg5 & _). eapply bind_lax; [by apply store_returns|].
    intros _ p6 _ (Hg6 & _). by apply returns_ret.
Qed.

Lemma conditional_returns skip p : good chars p → fits Conditional p →
  returns chars skip true value_ok (conditional chars rec skip) p.
Proof.
  intros Hg Hf. eapply bind_strict; [call LogicalOr|]. intros condition p1 Hc (Hg1 & _) Hlt.
  eapply bind_lax; [by apply eat_returns|]. intros [] p2 _ (Hg2 & Hle2 & _); [|by apply returns_ret].
  cbv zeta. eapply bind_lax; [by apply nest_returns|]. intros u3 p3 Hp3 (Hg3 & _).
  eapply bind_lax; [eapply returns_skip; call_lax Comma|]. intros first p4 Hfirst (Hg4 & Hle4 & _).
  eapply bind_lax; [by apply eat_returns|].
  intros [] p5 _ (Hg5 & Hle5 & _); [|by apply error_here_returns].
  eapply bind_lax; [eapply returns_skip; call_lax Conditional|]. intros second p6 Hsecond (Hg6 & _).
  eapply bind_lax; [by apply unnest_returns|]. intros u7 p7 _ (Hg7 & _).
  apply returns_ret; [done|]. unfold value_ok in *. simpl. by case_match.
Qed.

Lemma logical_or_returns skip p : good chars p → fits LogicalOr p →
  returns chars skip true value_ok (logical_or rec skip) p.
Proof.
  intros Hg Hf. eapply bind_strict; [call LogicalAnd|].
  intros o p1 Ho (Hg1 & _) Hlt. call (OrLoop o).
Qed.

Lemma or_loop_returns skip o p : good chars p → in_i64 (op_value o) → fits (OrLoop o) p →
  returns chars skip false value_ok (or_loop chars rec skip o) p.
Proof.
  intros Hg Ho Hf. eapply bind_lax; [by apply eat_returns|].
  intros [] p1 [Hlt _] (Hg1 & _); [|by apply returns_ret]. specialize (Hlt eq_refl). cbv zeta.
  eapply bind_lax; [eapply returns_skip; call_lax LogicalAnd|]. intros o2 p2 Ho2 (Hg2 & Hle & _).
  match goal with |- returns _ _ _ _ (rec (OrLoop ?x) _) _ => call (OrLoop x) end. apply i64_from_range.
Qed.

Lemma logical_and_returns skip p : good chars p → fits LogicalAnd p →
  returns chars skip true value_ok (logical_and rec skip) p.
Proof.
  intros Hg Hf. eapply bind_strict; [call (BinaryLevel 0)|].
  - lia.
  - intros o p1 Ho (Hg1 & _) Hlt. call (AndLoop o).
Qed.

Lemma and_loop_returns skip o p : good chars p → in_i64 (op_value o) → fits (AndLoop o) p →
  returns chars skip false value_ok (and_loop chars rec skip o) p.
Proof.
  intros Hg Ho Hf. eapply bind_lax; [by apply eat_returns|].
  intros [] p1 [Hlt _] (Hg1 & _); [|by apply returns_ret]. specialize (Hlt eq_refl). cbv zeta.
  eapply bind_lax; [eapply returns_skip; call_lax (BinaryLevel 0); lia|]. intros o2 p2 Ho2 (Hg2 & Hle & _).
  match goal with |- returns _ _ _ _ (rec (AndLoop ?x) _) _ => call (AndLoop x) end. apply i64_from_range.
Qed.

Lemma binary_level_returns level skip p : good chars p → (level ≤ 8)%nat → fits (BinaryLevel level) p →
  returns chars skip true value_ok (binary_level rec level skip) p.
Proof.
  intros Hg Hl Hf. unfold binary_level. destruct (LEVELS !! level) as [operators|] eqn:Hops.
  - apply lookup_lt_Some in Hops as Hlt. simpl in Hlt.
    eapply bind_strict; [call (BinaryLevel (S level)); lia|].
    intros o p1 Ho (Hg1 & _) Hlt1. call (BinaryLoop level operators o).
  - apply lookup_ge_None in Hops. simpl in Hops. call Power.
Qed.

Lemma level_operators level operators operator :
  LEVELS !! level = Some operators → operator ∈ operators → operator ≠ "" ∧ operator ∈ OPERATORS.
Proof.
  assert (Hall : Forall (Forall (λ operator, bool_decide (operator ≠ "" ∧ operator ∈ OPERATORS) = true)) LEVELS)
    by (vm_compute; repeat constructor).
  intros Hl Hin. pose proof (Forall_lookup_1 _ _ _ _ Hall Hl) as Hops.
  by pose proof (proj1 (Forall_forall _ _) Hops _ Hin) as ?%bool_decide_eq_true_1.
Qed.

Lemma binary_loop_returns level operators skip o p : good chars p → LEVELS !! level = Some operators →
  in_i64 (op_value o) → fits (BinaryLoop level operators o) p →
  returns chars skip false value_ok (binary_loop chars rec level operators skip o) p.
Proof.
  intros Hg Hl Ho Hf. eapply bind_lax; [by apply binary_operator_returns|].
  intros [operator|] p1 [Hs Hop] (Hg1 & Hle1 & _); [|by apply returns_ret].
  destruct (Hop operator eq_refl) as [Hin Hat]. clear Hop.
  destruct (level_operators _ _ _ Hl Hin) as [Hne Hknown]. apply lookup_lt_Some in Hl as Hlen. simpl in Hlen.
  eapply returns_weaken; [eapply (operator_eaten chars skip false); [done..|]|done|done].
  intros p2 (Hg2 & _) Hlt. eapply bind_lax; [call_lax (BinaryLevel (S level)); lia|].
  intros right p3 Hright (Hg3 & Hle3 & _). eapply (bind_lax chars _ _ (λ v _, in_i64 v)).
  - destruct skip; [by apply returns_ret, in_i64_small|]. by apply apply_returns.
  - intros value p4 Hvalue (Hg4 & Hle4 & _). call (BinaryLoop level operators (rvalue value)).
Qed.

Lemma power_returns skip p : good chars p → fits Power p →
  returns chars skip true value_ok (power chars rec skip) p.
Proof.
  intros Hg Hf. eapply bind_strict; [call Unary|]. intros base p1 Hbase (Hg1 & _) Hlt.
  eapply bind_lax; [by apply binary_operator_returns|].
  intros [operator|] p2 [Hs Hop] (Hg2 & Hle2 & _); [|by apply returns_ret].
  destruct (Hop operator eq_refl) as [->%list_elem_of_singleton Hat]. clear Hop.
  eapply returns_weaken; [eapply (operator_eaten chars skip false); [done..|]|done|done].
  intros p3 (Hg3 & _) Hlt3. eapply bind_lax; [by apply nest_returns|]. intros u4 p4 Hp4 (Hg4 & _).
  eapply bind_lax; [call_lax Power|]. intros exponent p5 Hexp (Hg5 & _).
  eapply bind_lax; [by apply unnest_returns|]. intros u6 p6 _ (Hg6 & _).
  destruct skip; [by apply returns_ret, in_i64_small|].
  eapply bind_lax; [apply apply_returns; try done; vm_compute; repeat constructor|].
  intros value p7 Hv (Hg7 & _). by apply returns_ret.
Qed.

Lemma step_ahead_returns skip p : good chars p →
  returns chars skip false (λ step p', ∀ operator delta, step = Some (operator, delta) →
    (operator = "++" ∨ operator = "--")) (step_ahead chars) p.
Proof.
  intros Hg. unfold step_ahead. eapply bind_lax; [by apply looking_at_returns|]. intros plus p1 _ (Hg1 & _).
  eapply bind_lax; [by apply gets_returns|]. intros after p2 [-> ->] _.
  destruct (plus && _); [apply returns_ret; [done|]; intros ? ? [= <- <-]; auto|].
  eapply bind_lax; [by apply looking_at_returns|]. intros minus p3 _ (Hg3 & _).
  eapply bind_lax; [by apply gets_returns|]. intros after p4 [-> ->] _.
  apply returns_ret; [done|]. intros operator delta. destruct (minus && _); [|done]. intros [= <- <-]. auto.
Qed.

Lemma sign_ahead_returns skip p : good chars p →
  returns chars skip false (λ sign p', settled_at chars p' ∧ ∀ operator, sign = Some operator →
    operator ∈ ["-"; "+"; "!"; "~"] ∧ at_text chars operator (ps_position p') = true) (sign_ahead chars) p.
Proof.
  intros Hg. unfold sign_ahead, peek_char.
  eapply (bind_lax chars _ _ (λ c p', settled_at chars p' ∧ c = chars !! ps_position p')).
  - eapply bind_lax; [by apply skip_blanks_returns|]. intros u p1 [Hs _] (Hg1 & _).
    eapply returns_weaken; [by apply gets_returns| |done]. by intros a p' [-> ->] _.
  - intros c p1 [Hs ->] (Hg1 & _). apply returns_ret; [done|]. split; [done|].
    intros operator [Hc Hin]%head_Some_elem_of%list_elem_of_filter. split; [done|].
    repeat (apply elem_of_cons in Hin as [->|Hin]); [..|by apply elem_of_nil in Hin];
      simpl; rewrite andb_true_r; by apply bool_decide_eq_true_2.
Qed.

Lemma unary_value_range operator v : in_i64 v → in_i64 (unary_value operator v).
Proof.
  intros Hv. unfold unary_value. repeat case_bool_decide; [apply wrap64_range|done|apply i64_from_range|].
  unfold in_i64, I64_MIN, I64_MAX, Z.lnot in *. lia.
Qed.

Lemma unary_returns skip p : good chars p → fits Unary p →
  returns chars skip true value_ok (unary chars rec skip) p.
Proof.
  intros Hg Hf. eapply bind_lax; [by apply skip_blanks_returns|]. intros u p1 _ (Hg1 & Hle1 & _).
  eapply bind_lax; [by apply step_ahead_returns|]. intros step p2 Hstep (Hg2 & Hle2 & _).
  destruct step as [[operator delta]|].
  - assert (Hne : operator ≠ "") by (by destruct (Hstep _ _ eq_refl) as [->| ->]).
    eapply bind_lax; [by apply eat_returns|]. intros b p3 _ (Hg3 & Hle3 & _).
    eapply bind_strict; [call Postfix|]. intros target p4 Ht (Hg4 & _) Hlt4.
    destruct (op_place target) as [place|]; [|by apply error_returns].
    destruct skip; [by apply returns_ret, in_i64_small|]. cbv zeta.
    eapply bind_lax; [by apply store_returns|]. intros u5 p5 _ (Hg5 & _).
    apply returns_ret; [done|]. apply wrap64_range.
  - eapply bind_lax; [by apply sign_ahead_returns|].
    intros [operator|] p3 [Hs Hsign] (Hg3 & Hle3 & _); [|call Postfix].
    destruct (Hsign operator eq_refl) as [Hin Hat]. clear Hsign.
    assert (Hne : operator ≠ "") by (by intros ->; repeat (apply elem_of_cons in Hin as [?|Hin]; [done|]); apply elem_of_nil in Hin).
    eapply returns_weaken; [eapply (operator_eaten chars skip false); [done..|]|done|done].
    intros p4 (Hg4 & _) Hlt4. eapply bind_lax; [by apply nest_returns|]. intros u5 p5 Hp5 (Hg5 & _).
    eapply bind_lax; [call_lax Unary|]. intros operand p6 Ho (Hg6 & _).
    eapply bind_lax; [by apply unnest_returns|]. intros u7 p7 _ (Hg7 & _).
    apply returns_ret; [done|]. by apply unary_value_range.
Qed.

Lemma post_step_returns operand place skip delta p : good chars p → in_i64 (op_value operand) →
  returns chars skip false value_ok (post_step operand place skip delta) p.
Proof.
  intros Hg Ho. unfold post_step. eapply (bind_lax chars _ _ (λ _ _, True)).
  - destruct skip; [by apply returns_ret|by apply store_returns].
  - intros u p1 _ (Hg1 & _). by apply returns_ret.
Qed.

Lemma postfix_returns skip p : good chars p → fits Postfix p →
  returns chars skip true value_ok (postfix chars rec skip) p.
Proof.
  intros Hg Hf. eapply bind_strict; [call Primary|]. intros operand p1 Ho (Hg1 & _) Hlt.
  destruct (op_place operand) as [place|]; [|by apply returns_ret].
  eapply bind_lax; [by apply eat_returns|]. intros [] p2 _ (Hg2 & _); [by apply post_step_returns|].
  eapply bind_lax; [by apply eat_returns|]. intros [] p3 _ (Hg3 & _); [by apply post_step_returns|].
  by apply returns_ret.
Qed.

Lemma constant_returns skip c p : good chars p → chars !! ps_position p = Some c → constant_char c = true →
  returns chars skip true (λ v _, in_i64 v) (constant chars) p.
Proof.
  intros Hg Hc Ht. eapply bind_strict; [by eapply read_token_returns|]. intros text p1 _ (Hg1 & _) _.
  destruct (parse_constant text) as [v|] eqn:Hv; [|by apply error_returns].
  apply returns_ret; [done|]. by eapply parse_constant_range.
Qed.

Lemma primary_returns skip p : good chars p → fits Primary p →
  returns chars skip true value_ok (primary chars rec skip) p.
Proof.
  intros Hg Hf. unfold primary, peek_char.
  eapply (bind_lax chars _ _ (λ c p', settled_at chars p' ∧ c = chars !! ps_position p')).
  { eapply bind_lax; [by apply skip_blanks_returns|]. intros u p1 [Hs _] (Hg1 & _).
    eapply returns_weaken; [by apply gets_returns| |done]. by intros a p' [-> ->] _. }
  intros first p1 [Hs ->] (Hg1 & Hle1 & _).
  destruct (chars !! ps_position p1) as [c|] eqn:Hc; [|by apply error_returns].
  case_bool_decide as Hparen.
  { subst c. eapply returns_weaken; [eapply (operator_eaten chars skip false); [done|done| |done|]|done|done].
    { simpl. rewrite andb_true_r. by apply bool_decide_eq_true_2. }
    intros p2 (Hg2 & _) Hlt2. eapply bind_lax; [by apply nest_returns|]. intros u3 p3 Hp3 (Hg3 & _).
    eapply bind_lax; [call_lax Comma|]. intros value p4 Hv (Hg4 & _).
    eapply bind_lax; [by apply unnest_returns|]. intros u5 p5 _ (Hg5 & _).
    eapply bind_lax; [by apply eat_returns|]. intros [] p6 _ (Hg6 & _); [by apply returns_ret|].
    by apply error_here_returns. }
  destruct (is_ascii_digit c) eqn:Hd.
  { eapply bind_strict; [apply (constant_returns skip c); [done|done|]|].
    - unfold constant_char, is_ascii_alphanumeric. rewrite Hd. by rewrite orb_true_r.
    - intros v p2 Hv (Hg2 & _) _. by apply returns_ret. }
  destruct (identifier_start c) eqn:Hi; [|by apply error_here_returns].
  call VariableRef. exists c. split; [done|]. unfold identifier_start, name_char, is_ascii_alphanumeric in *.
  destruct (is_ascii_alphabetic c); [done|]. simpl in Hi. by rewrite Hi, orb_true_r.
Qed.

Lemma variable_returns skip p : good chars p → rule_ok VariableRef p → fits VariableRef p →
  returns chars skip true value_ok (variable chars deeper rec skip) p.
Proof.
  intros Hg (c & Hc & Hn) Hf. eapply bind_strict; [by eapply read_token_returns|].
  intros name p1 _ (Hg1 & _) Hlt1. eapply bind_lax; [by apply gets_returns|]. intros b p2 [-> ->] _.
  case_bool_decide as Hb; [|by apply read_place_returns].
  assert (Hin : (ps_position p1 < length chars)%nat) by (by eapply lookup_lt_Some).
  eapply (bind_lax chars _ _ (λ _ p', ps_position p' = S (ps_position p1))).
  { eexists _, _. split; [reflexivity|]. split; [|done].
    split; [unfold good; simpl; lia|]. split; [simpl; lia|done]. }
  intros u2 p2 Hp2 (Hg2 & _). eapply bind_lax; [by apply nest_returns|]. intros u3 p3 Hp3 (Hg3 & _).
  eapply bind_lax; [call_lax Comma|]. intros index p4 Hi (Hg4 & _).
  eapply bind_lax; [by apply unnest_returns|]. intros u5 p5 _ (Hg5 & _).
  eapply bind_lax; [by apply eat_returns|]. intros [] p6 _ (Hg6 & _); [by apply read_place_returns|].
  by apply error_here_returns.
Qed.

Lemma rule_body_returns rule skip p : rule_ok rule p → good chars p → fits rule p →
  returns chars skip (negb (is_loop rule)) value_ok (rule_body chars deeper rec rule skip) p.
Proof.
  intros Hr Hg Hf. destruct rule; simpl rule_body; simpl negb.
  - by apply comma_returns.
  - by apply comma_loop_returns.
  - by apply assignment_returns.
  - by apply conditional_returns.
  - by apply logical_or_returns.
  - by apply or_loop_returns.
  - by apply logical_and_returns.
  - by apply and_loop_returns.
  - by apply binary_level_returns.
  - destruct Hr. by apply binary_loop_returns.
  - by apply power_returns.
  - by apply unary_returns.
  - by apply postfix_returns.
  - by apply primary_returns.
  - by apply variable_returns.
Qed.
End bodies.

Lemma parse_rule_returns fuel : rec_ok fuel (parse_rule chars deeper fuel).
Proof.
  induction fuel as [|fuel IH]; intros rule skip p Hr Hg Hf.
  - exfalso. assert (0 < rank rule)%nat; [|lia]. destruct rule; simpl in *; lia.
  - by apply rule_body_returns with fuel.
Qed.
End rules.

(** ** Evaluation *)

Lemma parse_expression_returns {V} `{ArithVars V} `{!ArithFrame V} chars
    (deeper : option (V → string → run (V * result ArithError Z))) vars :
  (∀ ev vars text, deeper = Some ev →
     ∃ vars' r, ev vars text = Ret (vars', r) ∧ frame vars vars' ∧ match r with Ok v => in_i64 v | Err _ => True end) →
  returns chars false false (λ v _, in_i64 v) (parse_expression chars deeper (parse_fuel chars))
    (MkParser vars 0 0 0).
Proof.
  intros Hdeeper. unfold parse_expression. assert (Hg : good chars (MkParser vars 0 0 0)) by (unfold good; simpl; lia).
  eapply bind_lax; [by apply skip_blanks_returns|]. intros u1 p1 _ (Hg1 & _).
  eapply bind_lax; [by apply gets_returns|]. intros b p2 [-> ->] _.
  destruct (at_end chars p1); [apply returns_ret; [done|]; apply in_i64_small; lia|].
  eapply bind_lax.
  { eapply returns_weaken; [apply (parse_rule_returns chars deeper Hdeeper _ Comma); [done|done|]|done|done].
    unfold parse_fuel. simpl rank. lia. }
  intros value p2 Hv (Hg2 & _). eapply bind_lax; [by apply skip_blanks_returns|]. intros u3 p3 _ (Hg3 & _).
  eapply bind_lax; [by apply gets_returns|]. intros b p4 [-> ->] _.
  destruct (at_end chars p3); [by apply returns_ret|by apply error_here_returns].
Qed.

Lemma evaluate_at_keeps {V} `{ArithVars V} `{!ArithFrame V} levels (vars : V) expression :
  ∃ vars' r, evaluate_at levels vars expression = Ret (vars', r) ∧ frame vars vars' ∧
    match r with Ok v => in_i64 v | Err _ => True end.
Proof.
  revert vars expression. induction levels as [|levels IH]; intros vars expression; cbn [evaluate_at]; cbv zeta.
  - destruct (parse_expression_returns (utf8_chars expression) (@None (V → string → run (V * result ArithError Z)))
      vars) as (p & r & -> & (_ & _ & Hf & _) & Hr); [done|]. exists (ps_vars p), r. split; [done|]. split; [done|].
    destruct r; [apply Hr|done].
  - destruct (parse_expression_returns (utf8_chars expression) (Some (evaluate_at levels)) vars)
      as (p & r & -> & (_ & _ & Hf & _) & Hr); [intros ev v t [= <-]; apply IH|].
    exists (ps_vars p), r. split; [done|]. split; [done|]. destruct r; [apply Hr|done].
Qed.

Lemma evaluate_at_returns {V} `{ArithVars V} levels (vars : V) expression :
  ∃ vars' r, evaluate_at levels vars expression = Ret (vars', r) ∧
    match r with Ok v => in_i64 v | Err _ => True end.
Proof. destruct (evaluate_at_keeps levels vars expression) as (vars' & r & He & _ & Hr). by exists vars', r. Qed.

(** C38: Evaluation is total: for every storage and every expression, whatever its nesting, its
    variables and the expressions they hold, [evaluate] returns (the fuel is enough and nothing
    panics), and a value it returns is an [i64]. *)
Theorem evaluate_total {V} `{ArithVars V} (vars : V) expression :
  ∃ vars' r, evaluate vars expression = Ret (vars', r) ∧
    match r with Ok v => in_i64 v | Err _ => True end.
Proof. apply evaluate_at_returns. Qed.

(** A skipped operand has no effect: whatever rule parses it, with [skip] the variables after it
    are the variables before it, so the assignments and increments in the operands that [&&],
    [||] and [?:] do not select are never carried out. *)
Theorem skipped_operand_pure {V} `{ArithVars V} chars levels rule fuel (p : Parser V) :
  rule_ok chars rule p → (ps_position p ≤ length chars)%nat →
  (32 * (length chars - ps_position p) + rank rule ≤ fuel)%nat →
  ∃ p' r, parse_rule chars (Some (evaluate_at levels)) fuel rule true p = Ret (p', r) ∧ ps_vars p' = ps_vars p.
Proof.
  intros Hr Hg Hf. assert (Hdeeper : ∀ ev (vars : V) text, Some (evaluate_at levels) = Some ev →
    ∃ vars' r, ev vars text = Ret (vars', r) ∧ frame vars vars' ∧ match r with Ok v => in_i64 v | Err _ => True end)
    by (intros ev vars text [= <-]; apply evaluate_at_keeps).
  destruct (parse_rule_returns chars (Some (evaluate_at levels)) Hdeeper fuel rule true p Hr Hg Hf)
    as (p' & r & Hp & (_ & _ & _ & Hv) & _).
  exists p', r. auto.
Qed.

(** Storage with scalars only, for the examples. *)
Definition Scalars : Type := gmap string string.

#[export] Instance scalars_vars : ArithVars Scalars := {|
  arith_get vars name := (vars, Ok (vars !! name));
  arith_get_element vars name _ := (vars, Ok (vars !! name));
  arith_set vars name value := (<[name := pretty value]> vars, Ok tt);
  arith_set_element vars name _ value := (<[name := pretty value]> vars, Ok tt)
|}.

Lemma skipped_operand_pure_witness :
  ∃ p' r, parse_rule (utf8_chars "x=1") (Some (evaluate_at 3)) 200 Comma true (MkParser (∅ : Scalars) 0 0 0)
    = Ret (p', r) ∧ ps_vars p' = (∅ : Scalars).
Proof.
  apply (skipped_operand_pure (utf8_chars "x=1") 3 Comma 200 (MkParser (∅ : Scalars) 0 0 0)).
  - exact I.
  - simpl. lia.
  - simpl. lia.
Defined.

(** Exponentiation by squaring on wrapping 64-bit integers computes the power modulo [2 ^ 64] for
    every base and every non-negative exponent; 64 rounds are enough. *)
Theorem wrapping_power_exact base exponent :
  in_i64 base → 0 ≤ exponent ≤ I64_MAX →
  wrapping_power base exponent = Ret (wrap64 (base ^ exponent)).
Proof. apply wrapping_power_ret. Qed.

Lemma wrapping_power_exact_witness : wrapping_power 3 41 = Ret (wrap64 (3 ^ 41)) ∧ wrap64 (3 ^ 41) = -420491770248316829.
Proof.
  split; [|vm_compute; reflexivity]. apply wrapping_power_exact.
  - unfold in_i64, I64_MIN, I64_MAX. lia.
  - unfold I64_MAX. lia.
Defined.
