(* ===== verification/ArithRef.v ===== *)
(** * The arithmetic grammar

    First the constant expressions in the evaluator's own terms: its operators and precedence table,
    and that parsing what is printed with the parentheses the table asks for gives the meaning its
    operators have. Then, in [Grammar], a reference that takes nothing from the evaluator: its own
    operators, symbols, precedences and constants, and their meaning on integers. The theorem relates
    the two: the evaluator implements the reference, its precedences and associativity, its
    short-circuiting and its arithmetic modulo [2 ^ 64]. *)

From stdpp Require Import pretty.
From S2P Require Import Prelude.
From S2P Require Import RustStr.
From S2P Require Import Arith.
From S2P Require Import ArithSpec.

(** ** Syntax and meaning, by the operators of the evaluator *)

Inductive aexpr :=
| Lit (text : string)
| Un (operator : string) (a : aexpr)
| Bin (operator : string) (a b : aexpr)
| Pow (a b : aexpr)
| AndE (a b : aexpr)
| OrE (a b : aexpr)
| CondE (c a b : aexpr).

Definition binary_meaning (operator : string) (x y : Z) : option Z :=
  match apply_op operator x y with Ret (Ok v) => Some v | _ => None end.

(** The value, [None] when a division by zero or a negative exponent is reached. *)
Fixpoint denote (e : aexpr) : option Z :=
  match e with
  | Lit text => match parse_constant text with Ok v => Some v | Err _ => None end
  | Un operator a => unary_value operator <$> denote a
  | Bin operator a b => x ← denote a; y ← denote b; binary_meaning operator x y
  | Pow a b => x ← denote a; y ← denote b; binary_meaning "**" x y
  | AndE a b => x ← denote a; if x =? 0 then Some 0 else y ← denote b; Some (i64_from (negb (y =? 0)))
  | OrE a b => x ← denote a; if x =? 0 then y ← denote b; Some (i64_from (negb (y =? 0))) else Some 1
  | CondE c a b => x ← denote c; if x =? 0 then denote b else denote a
  end.

Definition literal_ok (text : string) : bool :=
  match utf8_chars text with
  | [] => false
  | c :: cs => is_ascii_digit c && forallb constant_char (c :: cs) && is_ok (parse_constant text)
  end.

(** The row of the precedence table an operator is in. *)
Definition level_of (operator : string) : option nat :=
  fst <$> list_find (λ operators, operator ∈ operators) LEVELS.

Fixpoint well_formed (e : aexpr) : bool :=
  match e with
  | Lit text => literal_ok text
  | Un operator a => bool_decide (operator ∈ ["-"; "!"; "~"]) && well_formed a
  | Bin operator a b => bool_decide (is_Some (level_of operator)) && well_formed a && well_formed b
  | Pow a b | AndE a b | OrE a b => well_formed a && well_formed b
  | CondE c a b => well_formed c && well_formed a && well_formed b
  end.

(** Precedences: [?:] 0, [||] 1, [&&] 2, the rows of the table 3 to 10, [**] 11, unary 12,
    constants 13. *)
Definition prec (e : aexpr) : nat :=
  match e with
  | CondE _ _ _ => 0 | OrE _ _ => 1 | AndE _ _ => 2
  | Bin operator _ _ => 3 + default 0%nat (level_of operator)
  | Pow _ _ => 11 | Un _ _ => 12 | Lit _ => 13
  end.

Fixpoint chars_of (s : string) : list string :=
  match s with EmptyString => [] | String c rest => String c EmptyString :: chars_of rest end.

Definition parens (inside : bool) (body : list string) : list string :=
  if inside then "(" :: body ++ [")"] else body.

(** The characters of [e] where an expression of precedence at least [k] is expected. *)
Fixpoint print (k : nat) (e : aexpr) : list string :=
  parens (bool_decide (prec e < k)%nat)
    match e with
    | Lit text => utf8_chars text
    | Un operator a => chars_of operator ++ print 12 a
    | Bin operator a b =>
        let level := (3 + default 0 (level_of operator))%nat in
        print level a ++ chars_of operator ++ print (S level) b
    | Pow a b => print 12 a ++ chars_of "**" ++ print 11 b
    | AndE a b => print 3 a ++ chars_of "&&" ++ print 3 b
    | OrE a b => print 2 a ++ chars_of "||" ++ print 2 b
    | CondE c a b => print 1 c ++ "?" :: print 0 a ++ ":" :: print 0 b
    end.

(** How deep the parser nests in it at most, a parenthesis around each node included. *)
Fixpoint depth (e : aexpr) : nat :=
  match e with
  | Lit _ => 0
  | Un _ a => 2 + depth a
  | Bin _ a b | Pow a b | AndE a b | OrE a b => 2 + Nat.max (depth a) (depth b)
  | CondE c a b => 2 + Nat.max (depth c) (Nat.max (depth a) (depth b))
  end.

(** ** What the parser looks at *)

Fixpoint starts (t : string) (s : list string) : bool :=
  match t with
  | EmptyString => true
  | String c rest =>
      match s with [] => false | x :: s => bool_decide (x = String c EmptyString) && starts rest s end
  end.

Definition nonblank (s : list string) : bool := match s with [] => true | c :: _ => negb (is_whitespace c) end.

Definition covered (candidates : list string) (candidate : string) (s : list string) : bool :=
  existsb (λ operator,
    bool_decide (String.length candidate < String.length operator)%nat && starts_with candidate operator &&
    negb (bool_decide (operator ∈ candidates)) && starts operator s) LONGER.

Definition find_op (candidates : list string) (s : list string) : option string :=
  head (filter (λ candidate, (starts candidate s && negb (covered candidates candidate s)) = true) candidates).

Lemma at_text_drop chars t i : at_text chars t i = starts t (drop i chars).
Proof.
  revert i. induction t as [|c t IH]; intros i; [done|]. simpl. unfold char_at.
  destruct (chars !! i) as [x|] eqn:Hi.
  - rewrite (drop_S _ _ _ Hi). rewrite IH. f_equal. apply bool_decide_ext. by split; [intros [= ->]|intros ->].
  - rewrite drop_ge by (by apply lookup_ge_None). by rewrite bool_decide_eq_false_2.
Qed.

Lemma chars_of_starts t s : starts t (chars_of t ++ s) = true.
Proof. induction t as [|c t IH]; [done|]. simpl. by rewrite bool_decide_eq_true_2. Qed.

Lemma chars_of_length t : length (chars_of t) = String.length t.
Proof. induction t as [|c t IH]; [done|]. simpl. by rewrite IH. Qed.

Section parsing.
Context {V : Type} `{ArithVars V} (chars : list string)
  (deeper : option (V → string → run (V * result ArithError Z))).
Implicit Types p : Parser V.

Definition ahead p : list string := drop (ps_position p) chars.

(** [p'] differs from [p] in its position and last token only. *)
Definition same_but_cursor p p' : Prop := ps_vars p' = ps_vars p ∧ ps_nesting p' = ps_nesting p.

Lemma bind_run {A B} (m : parse V A) (k : A → parse V B) p p' a :
  m p = Ret (p', Ok a) → (m ≫= k) p = k a p'.
Proof. intros Hm. unfold mbind, parse_bind. by rewrite Hm. Qed.

Lemma skip_blanks_run p : nonblank (ahead p) = true → skip_blanks chars p = Ret (p, Ok tt).
Proof.
  intros Hb. unfold skip_blanks, modify, scan. fold (ahead p). destruct (ahead p) as [|c s]; simpl in *.
  - rewrite Nat.add_0_r. by destruct p.
  - apply negb_true_iff in Hb. rewrite Hb. simpl. rewrite Nat.add_0_r. by destruct p.
Qed.

Lemma looking_at_run t p : nonblank (ahead p) = true → looking_at chars t p = Ret (p, Ok (starts t (ahead p))).
Proof.
  intros Hb. unfold looking_at. rewrite (bind_run _ _ _ p tt) by (by apply skip_blanks_run).
  unfold gets. by rewrite at_text_drop.
Qed.

Lemma eat_no t p : nonblank (ahead p) = true → starts t (ahead p) = false → eat chars t p = Ret (p, Ok false).
Proof.
  intros Hb Hs. unfold eat. rewrite (bind_run _ _ _ p (starts t (ahead p))) by (by apply looking_at_run).
  by rewrite Hs.
Qed.

Lemma eat_yes t p s : nonblank (ahead p) = true → ahead p = chars_of t ++ s →
  ∃ p', eat chars t p = Ret (p', Ok true) ∧ ahead p' = s ∧ same_but_cursor p p'.
Proof.
  intros Hb Hs. unfold eat. rewrite (bind_run _ _ _ p (starts t (ahead p))) by (by apply looking_at_run).
  rewrite Hs, chars_of_starts. eexists. split; [reflexivity|]. split; [|done].
  unfold ahead in *. simpl. rewrite <-drop_drop, Hs, <-chars_of_length. apply drop_app_length.
Qed.

Lemma binary_operator_run candidates p : nonblank (ahead p) = true →
  binary_operator chars candidates p = Ret (p, Ok (find_op candidates (ahead p))).
Proof.
  intros Hb. unfold binary_operator. rewrite (bind_run _ _ _ p tt) by (by apply skip_blanks_run).
  unfold gets, find_op. do 3 f_equal. f_equal. apply list_filter_ext_in. intros c _.
  unfold shadowed, covered. rewrite at_text_drop. fold (ahead p).
  assert (Hex : ∀ l, existsb (λ operator, bool_decide (String.length c < String.length operator)%nat &&
    starts_with c operator && negb (bool_decide (operator ∈ candidates)) &&
    at_text chars operator (ps_position p)) l =
    existsb (λ operator, bool_decide (String.length c < String.length operator)%nat &&
    starts_with c operator && negb (bool_decide (operator ∈ candidates)) && starts operator (ahead p)) l).
  { induction l as [|o l IH]; simpl; [done|]. by rewrite IH, at_text_drop. }
  by rewrite Hex.
Qed.

Lemma peek_char_run p : nonblank (ahead p) = true → peek_char chars p = Ret (p, Ok (head (ahead p))).
Proof.
  intros Hb. unfold peek_char. rewrite (bind_run _ _ _ p tt) by (by apply skip_blanks_run).
  unfold gets, char_at, ahead. by rewrite head_lookup, lookup_drop, Nat.add_0_r.
Qed.

Lemma nest_run p : (ps_nesting p < MAX_NESTING)%nat →
  nest chars p = Ret (set_nesting p (S (ps_nesting p)), Ok tt).
Proof.
  intros Hn. unfold nest, mbind, parse_bind. simpl. rewrite bool_decide_eq_false_2; [done|]. simpl. lia.
Qed.

Lemma unnest_run p : unnest p = Ret (set_nesting p (pred (ps_nesting p)), Ok tt).
Proof. done. Qed.

Lemma ahead_nesting p n : ahead (set_nesting p n) = ahead p.
Proof. done. Qed.

(** [rule] reads the characters before [rest] as an operand without a place; when it is not
    skipped the value is the one wanted. *)
Definition reads (rule : Rule) (skip : bool) (s rest : list string) (want : option Z) (depth : nat) : Prop :=
  (skip = false → is_Some want) →
  ∀ p, ahead p = s → (ps_nesting p + depth ≤ MAX_NESTING)%nat →
  ∃ N p' v, (∀ fuel, (N ≤ fuel)%nat → parse_rule chars deeper fuel rule skip p = Ret (p', Ok (rvalue v))) ∧
    ahead p' = rest ∧ same_but_cursor p p' ∧ (skip = false → want = Some v).

Lemma parse_rule_S fuel rule skip p :
  parse_rule chars deeper (S fuel) rule skip p =
    rule_body chars deeper (parse_rule chars deeper fuel) rule skip p.
Proof. done. Qed.

(** A rule whose body is [rule'] followed by [tail], where the tail is done at [rest]. *)
Lemma reads_through rule rule' skip s rest want depth
    (tail : (Rule → bool → parse V Operand) → Operand → parse V Operand) :
  (∀ rec, rule_body chars deeper rec rule skip = (o ← rec rule' skip; tail rec o)) →
  (∀ fuel p v, ahead p = rest →
     tail (parse_rule chars deeper (S fuel)) (rvalue v) p = Ret (p, Ok (rvalue v))) →
  reads rule' skip s rest want depth → reads rule skip s rest want depth.
Proof.
  intros Hbody Htail Hreads Hwant p Hp Hn. destruct (Hreads Hwant p Hp Hn) as (N & p' & v & Hrun & Hrest & Hsame & Hv).
  exists (S (S N)), p', v. split; [|done]. intros [|[|fuel]] Hf; [lia|lia|].
  rewrite parse_rule_S, Hbody, (bind_run _ _ _ p' (rvalue v)) by (apply Hrun; lia). by apply Htail.
Qed.

Lemma reads_comma skip s rest want depth :
  nonblank rest = true → starts "," rest = false →
  reads Assignment skip s rest want depth → reads Comma skip s rest want depth.
Proof.
  intros Hb Hc. eapply (reads_through _ _ _ _ _ _ _ (λ rec o, rec (CommaLoop o) skip)); [done|].
  intros fuel p v Hp. rewrite parse_rule_S. cbn [rule_body]. unfold comma_loop.
  rewrite (bind_run _ _ _ p false) by (apply eat_no; by rewrite Hp). done.
Qed.

Lemma reads_assignment skip s rest want depth :
  nonblank rest = true → find_op ASSIGNMENT_OPERATORS rest = None →
  reads Conditional skip s rest want depth → reads Assignment skip s rest want depth.
Proof.
  intros Hb Hc. eapply (reads_through _ _ _ _ _ _ _ _); [intros rec; reflexivity|].
  intros fuel p v Hp. cbv beta.
  rewrite (bind_run _ _ _ p (find_op ASSIGNMENT_OPERATORS rest))
    by (rewrite <-Hp; apply binary_operator_run; by rewrite Hp). by rewrite Hc.
Qed.

Lemma reads_conditional skip s rest want depth :
  nonblank rest = true → starts "?" rest = false →
  reads LogicalOr skip s rest want depth → reads Conditional skip s rest want depth.
Proof.
  intros Hb Hc. eapply (reads_through _ _ _ _ _ _ _ _); [intros rec; reflexivity|].
  intros fuel p v Hp. cbv beta. by rewrite (bind_run _ _ _ p false) by (apply eat_no; by rewrite Hp).
Qed.

Lemma reads_or skip s rest want depth :
  nonblank rest = true → starts "||" rest = false →
  reads LogicalAnd skip s rest want depth → reads LogicalOr skip s rest want depth.
Proof.
  intros Hb Hc. eapply (reads_through _ _ _ _ _ _ _ (λ rec o, rec (OrLoop o) skip)); [done|].
  intros fuel p v Hp. rewrite parse_rule_S. cbn [rule_body]. unfold or_loop.
  rewrite (bind_run _ _ _ p false) by (apply eat_no; by rewrite Hp). done.
Qed.

Lemma reads_and skip s rest want depth :
  nonblank rest = true → starts "&&" rest = false →
  reads (BinaryLevel 0) skip s rest want depth → reads LogicalAnd skip s rest want depth.
Proof.
  intros Hb Hc. eapply (reads_through _ _ _ _ _ _ _ (λ rec o, rec (AndLoop o) skip)); [done|].
  intros fuel p v Hp. rewrite parse_rule_S. cbn [rule_body]. unfold and_loop.
  rewrite (bind_run _ _ _ p false) by (apply eat_no; by rewrite Hp). done.
Qed.

Lemma reads_level level operators skip s rest want depth :
  LEVELS !! level = Some operators → nonblank rest = true → find_op operators rest = None →
  reads (BinaryLevel (S level)) skip s rest want depth → reads (BinaryLevel level) skip s rest want depth.
Proof.
  intros Hl Hb Hc. eapply (reads_through _ _ _ _ _ _ _ (λ rec o, rec (BinaryLoop level operators o) skip)).
  { intros rec. cbn [rule_body]. unfold binary_level. by rewrite Hl. }
  intros fuel p v Hp. rewrite parse_rule_S. cbn [rule_body]. unfold binary_loop.
  rewrite (bind_run _ _ _ p (find_op operators rest))
    by (rewrite <-Hp; apply binary_operator_run; by rewrite Hp). by rewrite Hc.
Qed.

Lemma reads_top_level level skip s rest want depth :
  LEVELS !! level = None → reads Power skip s rest want depth →
  reads (BinaryLevel level) skip s rest want depth.
Proof.
  intros Hl Hreads Hwant p Hp Hn. destruct (Hreads Hwant p Hp Hn) as (N & p' & v & Hrun & Hrest & Hsame & Hv).
  exists (S N), p', v. split; [|done]. intros [|fuel] Hf; [lia|]. rewrite parse_rule_S. cbn [rule_body].
  unfold binary_level. rewrite Hl. apply Hrun. lia.
Qed.

Lemma reads_power skip s rest want depth :
  nonblank rest = true → find_op ["**"] rest = None →
  reads Unary skip s rest want depth → reads Power skip s rest want depth.
Proof.
  intros Hb Hc. eapply (reads_through _ _ _ _ _ _ _ _); [intros rec; reflexivity|].
  intros fuel p v Hp. cbv beta.
  rewrite (bind_run _ _ _ p (find_op ["**"] rest))
    by (rewrite <-Hp; apply binary_operator_run; by rewrite Hp). by rewrite Hc.
Qed.

Lemma reads_postfix skip s rest want depth :
  reads Primary skip s rest want depth → reads Postfix skip s rest want depth.
Proof.
  eapply (reads_through _ _ _ _ _ _ _ _); [intros rec; reflexivity|]. intros fuel p v Hp. done.
Qed.

(** ** Operands *)

(** A character an operand can begin with. *)
Definition operand_start (c : string) : bool :=
  is_ascii_digit c || bool_decide (c ∈ ["("; "-"; "!"; "~"]).

Lemma operand_start_plain c : operand_start c = true →
  is_whitespace c = false ∧ identifier_start c = false ∧ c ≠ "+" ∧ c ≠ "=".
Proof.
  assert (Hall : ∀ n, (n < 256)%nat → let c := String (Ascii.ascii_of_nat n) EmptyString in
    is_ascii_digit c = true → negb (is_whitespace c) && negb (identifier_start c) && negb (bool_decide (c = "+"))
      && negb (bool_decide (c = "=")) = true).
  { intros n Hn. cbv zeta.
    assert (Hforall : forallb (λ n, implb (is_ascii_digit (String (Ascii.ascii_of_nat n) EmptyString))
      (let c := String (Ascii.ascii_of_nat n) EmptyString in negb (is_whitespace c) && negb (identifier_start c)
       && negb (bool_decide (c = "+")) && negb (bool_decide (c = "=")))) (seq 0 256) = true)
      by (vm_compute; reflexivity).
    pose proof (proj1 (forallb_forall _ _) Hforall n ltac:(apply in_seq; lia)) as Himp.
    cbv beta zeta in Himp. intros Hd. rewrite Hd in Himp. exact Himp. }
  unfold operand_start. intros [Hd|Hin]%orb_true_iff.
  - assert (Hc : ∃ n, (n < 256)%nat ∧ c = String (Ascii.ascii_of_nat n) EmptyString).
    { unfold is_ascii_digit, code_is, char_code in Hd. destruct c as [|b [|]]; try done.
      exists (Ascii.nat_of_ascii b). split; [apply Ascii.nat_ascii_bounded|]. by rewrite Ascii.ascii_nat_embedding. }
    destruct Hc as (n & Hn & ->). pose proof (Hall n Hn Hd) as Hb. cbv zeta in Hb.
    apply andb_true_iff in Hb as [[[Hw Hi]%andb_true_iff Hp]%andb_true_iff He].
    apply negb_true_iff in Hw, Hi, Hp, He. bool_to_prop. done.
  - bool_to_prop. repeat (apply elem_of_cons in Hin as [->|Hin]); [..|by apply elem_of_nil in Hin]; by vm_compute.
Qed.

Lemma step_ahead_none p : nonblank (ahead p) = true → starts "++" (ahead p) = false →
  (starts "--" (ahead p) = false ∨
   ∃ c tl, drop 2 (ahead p) = c :: tl ∧ is_whitespace c = false ∧ identifier_start c = false) →
  step_ahead chars p = Ret (p, Ok None).
Proof.
  intros Hb Hplus Hminus. unfold step_ahead.
  rewrite (bind_run _ _ _ p (starts "++" (ahead p))) by (by apply looking_at_run).
  rewrite (bind_run _ _ _ p (identifier_after chars 2 p)) by done. rewrite Hplus. cbn [andb].
  rewrite (bind_run _ _ _ p (starts "--" (ahead p))) by (by apply looking_at_run).
  rewrite (bind_run _ _ _ p (identifier_after chars 2 p)) by done.
  destruct Hminus as [->|(c & tl & Hd & Hw & Hi)]; [done|].
  assert (Hid : identifier_after chars 2 p = false).
  { unfold identifier_after, scan, char_at. unfold ahead in Hd. rewrite drop_drop in Hd. rewrite Hd.
    cbn [take_while]. rewrite Hw. cbn [length]. rewrite Nat.add_0_r.
    assert (Hl : chars !! (ps_position p + 2)%nat = Some c).
    { rewrite <-(Nat.add_0_r (ps_position p + 2)), <-lookup_drop, Hd. done. }
    by rewrite Hl. }
  rewrite Hid, andb_false_r. done.
Qed.

Lemma sign_ahead_run p c s : nonblank (ahead p) = true → ahead p = c :: s →
  sign_ahead chars p = Ret (p, Ok (head (filter (λ operator, Some c = Some operator) ["-"; "+"; "!"; "~"]))).
Proof.
  intros Hb Hp. unfold sign_ahead. rewrite (bind_run _ _ _ p (Some c)); [done|].
  rewrite peek_char_run by done. by rewrite Hp.
Qed.

(** An operand that does not begin with a sign. *)
Lemma reads_unary_plain skip c s rest want depth :
  is_whitespace c = false → c ∉ ["-"; "+"; "!"; "~"] →
  reads Postfix skip (c :: s) rest want depth → reads Unary skip (c :: s) rest want depth.
Proof.
  intros Hw Hc Hreads Hwant p Hp Hn. destruct (Hreads Hwant p Hp Hn) as (N & p' & v & Hrun & Hrest & Hsame & Hv).
  exists (S N), p', v. split; [|done]. intros [|fuel] Hf; [lia|]. rewrite parse_rule_S. cbn [rule_body].
  assert (Hb : nonblank (ahead p) = true) by (rewrite Hp; simpl; by rewrite Hw).
  unfold unary. rewrite (bind_run _ _ _ p tt) by (by apply skip_blanks_run).
  assert (Hp1 : c ≠ "+" ∧ c ≠ "-") by set_solver.
  rewrite (bind_run _ _ _ p None).
  - rewrite (bind_run _ _ _ p (head (filter (λ operator, Some c = Some operator) ["-"; "+"; "!"; "~"])))
      by (by eapply sign_ahead_run).
    rewrite !filter_cons_False by (intros [= ->]; apply Hc; set_solver). apply Hrun. lia.
  - apply step_ahead_none; [done|rewrite Hp; simpl; by rewrite bool_decide_eq_false_2 by apply Hp1|].
    left. rewrite Hp. simpl. by rewrite bool_decide_eq_false_2 by apply Hp1.
Qed.

Lemma same_trans p1 p2 p3 : same_but_cursor p1 p2 → same_but_cursor p2 p3 → same_but_cursor p1 p3.
Proof. intros [? ?] [? ?]. split; congruence. Qed.

(** Reading one level deeper. *)
Lemma reads_nested rule skip s rest want depth p :
  reads rule skip s rest want depth → (skip = false → is_Some want) →
  ahead p = s → (ps_nesting p + S depth ≤ MAX_NESTING)%nat →
  ∃ N p' v, (∀ fuel (B : Type) (k : Operand → parse V B), (N ≤ fuel)%nat →
      (_ ← nest chars; o ← parse_rule chars deeper fuel rule skip; _ ← unnest; k o) p = k (rvalue v) p') ∧
    ahead p' = rest ∧ same_but_cursor p p' ∧ (skip = false → want = Some v).
Proof.
  intros Hreads Hwant Hp Hn.
  destruct (Hreads Hwant (set_nesting p (S (ps_nesting p)))) as (N & p1 & v & Hrun & Hrest & [Hv Hns] & Hval);
    [done|simpl; lia|].
  exists N, (set_nesting p1 (pred (ps_nesting p1))), v. split; [|split; [done|split; [|done]]].
  - intros fuel B k Hf. rewrite (bind_run _ _ _ (set_nesting p (S (ps_nesting p))) tt) by (apply nest_run; lia).
    rewrite (bind_run _ _ _ p1 (rvalue v)) by (by apply Hrun). by rewrite (bind_run _ _ _ _ tt) by apply unnest_run.
  - split; simpl; [done|]. by rewrite Hns.
Qed.

Lemma reads_paren skip s rest want depth :
  reads Comma skip s (")" :: rest) want depth → reads Primary skip ("(" :: s) rest want (S depth).
Proof.
  intros Hreads Hwant p Hp Hn. assert (Hb : nonblank (ahead p) = true) by (by rewrite Hp).
  destruct (eat_yes "(" p s Hb Hp) as (p1 & Heat & Hp1 & Hs1).
  assert (Hn1 : ps_nesting p1 = ps_nesting p) by apply Hs1.
  destruct (reads_nested Comma skip s (")" :: rest) want depth p1 Hreads Hwant Hp1) as
    (N & p2 & v & Hrun & Hp2 & Hs2 & Hval); [lia|].
  destruct (eat_yes ")" p2 rest) as (p3 & Heat3 & Hp3 & Hs3); [by rewrite Hp2|done|].
  exists (S N), p3, v. split; [|split; [done|split; [by eapply same_trans; [eapply same_trans|]|done]]].
  intros [|fuel] Hf; [lia|]. rewrite parse_rule_S. cbn [rule_body]. unfold primary.
  rewrite (bind_run _ _ _ p (Some "(")) by (rewrite peek_char_run by done; by rewrite Hp).
  rewrite bool_decide_eq_true_2 by done. rewrite (bind_run _ _ _ p1 true) by done.
  rewrite Hrun by lia. by rewrite (bind_run _ _ _ p3 true).
Qed.

Lemma take_while_app {A} (f : A → bool) (l1 l2 : list A) :
  forallb f l1 = true → match l2 with [] => true | x :: _ => negb (f x) end = true → take_while f (l1 ++ l2) = l1.
Proof.
  intros H1 H2. induction l1 as [|x l1 IH]; simpl in *.
  - destruct l2 as [|x l2]; [done|]. simpl. apply negb_true_iff in H2. by rewrite H2.
  - apply andb_true_iff in H1 as [-> H1]. by rewrite IH.
Qed.

Lemma reads_literal skip text v rest :
  literal_ok text = true → parse_constant text = Ok v → match rest with [] => true | c :: _ => negb (constant_char c) end = true →
  reads Primary skip (utf8_chars text ++ rest) rest (Some v) 0.
Proof.
  unfold literal_ok. intros Hlit Hv Hrest _ p Hp _.
  destruct (utf8_chars text) as [|c cs] eqn:Hcs; [done|].
  apply andb_true_iff in Hlit as [[Hd Hall]%andb_true_iff _].
  destruct (operand_start_plain c) as (Hw & _); [unfold operand_start; by rewrite Hd|].
  assert (Hb : nonblank (ahead p) = true) by (rewrite Hp; simpl; by rewrite Hw).
  assert (Htake : take_while constant_char (drop (ps_position p) chars) = c :: cs).
  { fold (ahead p). rewrite Hp. by apply take_while_app. }
  exists 1%nat, (set_position (set_token_start p (ps_position p)) (scan chars constant_char (ps_position p))), v.
  split; [|split; [|done]].
  - intros [|fuel] Hf; [lia|]. rewrite parse_rule_S. cbn [rule_body]. unfold primary.
    rewrite (bind_run _ _ _ p (Some c)) by (rewrite peek_char_run by done; by rewrite Hp).
    rewrite bool_decide_eq_false_2 by (intros ->; done). rewrite Hd.
    unfold constant, read_token, mbind, parse_bind, gets, modify, mret, parse_ret.
    rewrite Htake, <-Hcs, collect_utf8_chars, Hv. done.
  - unfold ahead, scan. simpl. rewrite Htake. rewrite <-drop_drop. fold (ahead p). rewrite Hp.
    exact (drop_app_length (c :: cs) rest).
Qed.

Lemma reads_sign operator skip s rest want depth :
  operator ∈ ["-"; "!"; "~"] →
  (∃ c tl, s = c :: tl ∧ operand_start c = true ∧
     (c = "-" → ∃ c' tl', tl = c' :: tl' ∧ operand_start c' = true)) →
  reads Unary skip s rest want depth →
  reads Unary skip (chars_of operator ++ s) rest (unary_value operator <$> want) (S depth).
Proof.
  intros Hop (c & tl & -> & Hc & Hc') Hreads Hwant p Hp Hn.
  destruct (operand_start_plain c Hc) as (Hw & Hi & Hplus & _).
  assert (Hone : chars_of operator = [operator] ∧ is_whitespace operator = false ∧ operator ≠ "+" ∧
    head (filter (λ o, Some operator = Some o) ["-"; "+"; "!"; "~"]) = Some operator).
  { repeat (apply elem_of_cons in Hop as [->|Hop]); [..|by apply elem_of_nil in Hop]; by vm_compute. }
  destruct Hone as (Hone & Hopw & Hopplus & Hfind).
  assert (Hb : nonblank (ahead p) = true) by (rewrite Hp, Hone; simpl; by rewrite Hopw).
  destruct (eat_yes operator p (c :: tl) Hb Hp) as (p1 & Heat & Hp1 & Hs1).
  assert (Hn1 : ps_nesting p1 = ps_nesting p) by apply Hs1.
  destruct (reads_nested Unary skip (c :: tl) rest want depth p1 Hreads) as (N & p2 & v & Hrun & Hp2 & Hs2 & Hval);
    [intros Hs; specialize (Hwant Hs); by destruct want; [eexists|destruct Hwant]|done|lia|].
  exists (S N), p2, (unary_value operator v). split; [|split; [done|split; [by eapply same_trans|]]].
  - intros [|fuel] Hf; [lia|]. rewrite parse_rule_S. cbn [rule_body]. unfold unary.
    rewrite (bind_run _ _ _ p tt) by (by apply skip_blanks_run).
    rewrite (bind_run _ _ _ p None).
    + rewrite (bind_run _ _ _ p (Some operator)) by (rewrite <-Hfind; eapply sign_ahead_run; [done|by rewrite Hp, Hone]).
      rewrite (bind_run _ _ _ p1 true) by done. by rewrite Hrun by lia.
    + apply step_ahead_none; [done| |].
      * rewrite Hp, Hone. simpl. rewrite bool_decide_eq_false_2 by done. done.
      * rewrite Hp, Hone. simpl. destruct (decide (c = "-")) as [->|Hne].
        -- right. destruct (Hc' eq_refl) as (c' & tl' & -> & Hc2). exists c', tl'.
           destruct (operand_start_plain c' Hc2) as (? & ? & _). done.
        -- left. rewrite (bool_decide_eq_false_2 (c = "-")) by done. by rewrite !andb_false_r.
  - intros Hs. by rewrite (Hval Hs).
Qed.

Lemma apply_run operator x y v p : binary_meaning operator x y = Some v →
  apply chars operator x y p = Ret (p, Ok v).
Proof.
  unfold binary_meaning, apply. destruct (apply_op operator x y) as [[w|e]| |]; try done. by intros [= ->].
Qed.

Lemma reads_pow skip s s2 rest wa wb da db :
  nonblank (chars_of "**" ++ s2) = true → find_op ["**"] (chars_of "**" ++ s2) = Some "**" →
  reads Unary skip s (chars_of "**" ++ s2) wa da → reads Power skip s2 rest wb db →
  reads Power skip s rest (x ← wa; y ← wb; binary_meaning "**" x y) (Nat.max da (S db)).
Proof.
  intros Hb Hfind Ha Hpow Hwant p Hp Hn.
  destruct (Ha ltac:(intros Hs; specialize (Hwant Hs); destruct wa; [by eexists|by destruct Hwant]) p Hp)
    as (N1 & p1 & x & Hrun1 & Hp1 & Hs1 & Hx); [lia|].
  assert (Hn1 : ps_nesting p1 = ps_nesting p) by apply Hs1.
  destruct (eat_yes "**" p1 s2 ltac:(by rewrite Hp1) Hp1) as (p2 & Heat & Hp2 & Hs2).
  assert (Hn2 : ps_nesting p2 = ps_nesting p1) by apply Hs2.
  destruct (reads_nested Power skip s2 rest wb db p2 Hpow) as (N3 & p3 & y & Hrun3 & Hp3 & Hs3 & Hy);
    [intros Hs; specialize (Hwant Hs); destruct wa; [|by destruct Hwant]; destruct wb; [by eexists|by destruct Hwant]
    |done|lia|].
  assert (Hsame : same_but_cursor p p3) by (by eapply same_trans; [eapply same_trans|]).
  assert (Hrun : ∀ fuel, (S (Nat.max N1 N3) ≤ fuel)%nat → parse_rule chars deeper fuel Power skip p =
    (if skip then mret (rvalue 0) else value ← apply chars "**" x y; mret (rvalue value)) p3).
  { intros [|fuel] Hf; [lia|]. rewrite parse_rule_S. cbn [rule_body]. unfold power.
    rewrite (bind_run _ _ _ p1 (rvalue x)) by (apply Hrun1; lia).
    rewrite (bind_run _ _ _ p1 (Some "**"))
      by (rewrite binary_operator_run by (by rewrite Hp1); by rewrite Hp1, Hfind).
    rewrite (bind_run _ _ _ p2 true) by done. rewrite Hrun3 by lia. done. }
  destruct skip.
  - exists (S (Nat.max N1 N3)), p3, 0. split; [exact Hrun|done].
  - destruct (Hwant eq_refl) as [v Hv]. rewrite (Hx eq_refl), (Hy eq_refl) in Hv |- *. simpl in Hv |- *.
    exists (S (Nat.max N1 N3)), p3, v. split; [|done]. intros fuel Hf. rewrite Hrun by done.
    by rewrite (bind_run _ _ _ p3 v) by (by apply apply_run).
Qed.

Lemma reads_and_op skip s s2 rest wa wb da db :
  nonblank (chars_of "&&" ++ s2) = true → nonblank rest = true → starts "&&" rest = false →
  reads (BinaryLevel 0) skip s (chars_of "&&" ++ s2) wa da → (∀ skip, reads (BinaryLevel 0) skip s2 rest wb db) →
  reads LogicalAnd skip s rest
    (x ← wa; if x =? 0 then Some 0 else y ← wb; Some (i64_from (negb (y =? 0)))) (Nat.max da db).
Proof.
  intros Hb Hbr Hend Ha Hright Hwant p Hp Hn.
  destruct (Ha ltac:(intros Hs; specialize (Hwant Hs); destruct wa; [by eexists|by destruct Hwant]) p Hp)
    as (N1 & p1 & x & Hrun1 & Hp1 & Hs1 & Hx); [lia|].
  assert (Hn1 : ps_nesting p1 = ps_nesting p) by apply Hs1.
  destruct (eat_yes "&&" p1 s2 ltac:(by rewrite Hp1) Hp1) as (p2 & Heat & Hp2 & Hs2).
  assert (Hn2 : ps_nesting p2 = ps_nesting p1) by apply Hs2.
  destruct (Hright (skip || (x =? 0))) with (p := p2) as (N3 & p3 & y & Hrun3 & Hp3 & Hs3 & Hy); [|done|lia|].
  { intros [-> Hx0]%orb_false_iff. specialize (Hwant eq_refl). rewrite (Hx eq_refl) in Hwant. simpl in Hwant.
    rewrite Hx0 in Hwant. destruct wb; [by eexists|by destruct Hwant]. }
  exists (S (S (S (Nat.max N1 N3)))), p3, (i64_from (negb (x =? 0) && negb (y =? 0))).
  split; [|split; [done|split; [by eapply same_trans; [eapply same_trans|]|]]].
  - intros [|[|[|fuel]]] Hf; [lia|lia|lia|]. rewrite parse_rule_S. cbn [rule_body]. unfold logical_and.
    rewrite (bind_run _ _ _ p1 (rvalue x)) by (apply Hrun1; lia).
    rewrite parse_rule_S. cbn [rule_body]. unfold and_loop at 1.
    rewrite (bind_run _ _ _ p2 true) by done. cbv zeta. cbn [op_value rvalue].
    rewrite (bind_run _ _ _ p3 (rvalue y)) by (apply Hrun3; lia).
    rewrite parse_rule_S. cbn [rule_body]. unfold and_loop.
    by rewrite (bind_run _ _ _ p3 false) by (apply eat_no; by rewrite Hp3).
  - intros ->. rewrite (Hx eq_refl). simpl. destruct (x =? 0) eqn:Hx0; [done|].
    by rewrite (Hy eq_refl).
Qed.

Lemma reads_or_op skip s s2 rest wa wb da db :
  nonblank (chars_of "||" ++ s2) = true → nonblank rest = true → starts "||" rest = false →
  reads LogicalAnd skip s (chars_of "||" ++ s2) wa da → (∀ skip, reads LogicalAnd skip s2 rest wb db) →
  reads LogicalOr skip s rest
    (x ← wa; if x =? 0 then y ← wb; Some (i64_from (negb (y =? 0))) else Some 1) (Nat.max da db).
Proof.
  intros Hb Hbr Hend Ha Hright Hwant p Hp Hn.
  destruct (Ha ltac:(intros Hs; specialize (Hwant Hs); destruct wa; [by eexists|by destruct Hwant]) p Hp)
    as (N1 & p1 & x & Hrun1 & Hp1 & Hs1 & Hx); [lia|].
  assert (Hn1 : ps_nesting p1 = ps_nesting p) by apply Hs1.
  destruct (eat_yes "||" p1 s2 ltac:(by rewrite Hp1) Hp1) as (p2 & Heat & Hp2 & Hs2).
  assert (Hn2 : ps_nesting p2 = ps_nesting p1) by apply Hs2.
  destruct (Hright (skip || negb (x =? 0))) with (p := p2) as (N3 & p3 & y & Hrun3 & Hp3 & Hs3 & Hy); [|done|lia|].
  { intros [-> Hx0]%orb_false_iff. apply negb_false_iff in Hx0. specialize (Hwant eq_refl).
    rewrite (Hx eq_refl) in Hwant. simpl in Hwant. rewrite Hx0 in Hwant.
    destruct wb; [by eexists|by destruct Hwant]. }
  exists (S (S (S (Nat.max N1 N3)))), p3, (i64_from (negb (x =? 0) || negb (y =? 0))).
  split; [|split; [done|split; [by eapply same_trans; [eapply same_trans|]|]]].
  - intros [|[|[|fuel]]] Hf; [lia|lia|lia|]. rewrite parse_rule_S. cbn [rule_body]. unfold logical_or.
    rewrite (bind_run _ _ _ p1 (rvalue x)) by (apply Hrun1; lia).
    rewrite parse_rule_S. cbn [rule_body]. unfold or_loop at 1.
    rewrite (bind_run _ _ _ p2 true) by done. cbv zeta. cbn [op_value rvalue].
    rewrite (bind_run _ _ _ p3 (rvalue y)) by (apply Hrun3; lia).
    rewrite parse_rule_S. cbn [rule_body]. unfold or_loop.
    by rewrite (bind_run _ _ _ p3 false) by (apply eat_no; by rewrite Hp3).
  - intros ->. rewrite (Hx eq_refl). simpl. destruct (x =? 0) eqn:Hx0; [|done].
    by rewrite (Hy eq_refl).
Qed.

Lemma reads_cond skip s s2 s3 rest wc wa wb dc da db :
  reads LogicalOr skip s ("?" :: s2) wc dc → (∀ skip, reads Comma skip s2 (":" :: s3) wa da) →
  (∀ skip, reads Conditional skip s3 rest wb db) →
  reads Conditional skip s rest (x ← wc; if x =? 0 then wb else wa) (Nat.max dc (S (Nat.max da db))).
Proof.
  intros Hc Ha Hb Hwant p Hp Hn.
  destruct (Hc ltac:(intros Hs; specialize (Hwant Hs); destruct wc; [by eexists|by destruct Hwant]) p Hp)
    as (N1 & p1 & x & Hrun1 & Hp1 & Hs1 & Hx); [lia|].
  assert (Hn1 : ps_nesting p1 = ps_nesting p) by apply Hs1.
  destruct (eat_yes "?" p1 s2 ltac:(by rewrite Hp1) Hp1) as (p2 & Heat & Hp2 & Hs2).
  assert (Hn2 : ps_nesting p2 = ps_nesting p1) by apply Hs2.
  set (take := negb (x =? 0)) in *.
  destruct (Ha (skip || negb take)) with (p := set_nesting p2 (S (ps_nesting p2)))
    as (N3 & p3 & y & Hrun3 & Hp3 & Hs3 & Hy); [|done|simpl; lia|].
  { intros [-> Hx0]%orb_false_iff. unfold take in Hx0. rewrite negb_involutive in Hx0. specialize (Hwant eq_refl).
    rewrite (Hx eq_refl) in Hwant. simpl in Hwant. by rewrite Hx0 in Hwant. }
  assert (Hn3 : ps_nesting p3 = S (ps_nesting p2)) by apply Hs3.
  destruct (eat_yes ":" p3 s3 ltac:(by rewrite Hp3) Hp3) as (p4 & Heat4 & Hp4 & Hs4).
  assert (Hn4 : ps_nesting p4 = ps_nesting p3) by apply Hs4.
  destruct (Hb (skip || take)) with (p := p4) as (N5 & p5 & z & Hrun5 & Hp5 & Hs5 & Hz); [|done|lia|].
  { intros [-> Hx0]%orb_false_iff. unfold take in Hx0. apply negb_false_iff in Hx0. specialize (Hwant eq_refl).
    rewrite (Hx eq_refl) in Hwant. simpl in Hwant. by rewrite Hx0 in Hwant. }
  assert (Hn5 : ps_nesting p5 = ps_nesting p4) by apply Hs5.
  exists (S (Nat.max N1 (Nat.max N3 N5))), (set_nesting p5 (pred (ps_nesting p5))), (if take then y else z).
  split; [|split; [done|split; [|]]].
  - intros [|fuel] Hf; [lia|]. rewrite parse_rule_S. cbn [rule_body]. unfold conditional.
    rewrite (bind_run _ _ _ p1 (rvalue x)) by (apply Hrun1; lia).
    rewrite (bind_run _ _ _ p2 true) by done. cbv zeta. cbn [op_value rvalue]. fold take.
    rewrite (bind_run _ _ _ (set_nesting p2 (S (ps_nesting p2))) tt) by (apply nest_run; lia).
    rewrite (bind_run _ _ _ p3 (rvalue y)) by (apply Hrun3; lia).
    rewrite (bind_run _ _ _ p4 true) by done.
    rewrite (bind_run _ _ _ p5 (rvalue z)) by (apply Hrun5; lia).
    by rewrite (bind_run _ _ _ _ tt) by apply unnest_run.
  - destruct Hs1 as [Hv1 _], Hs2 as [Hv2 _], Hs3 as [Hv3 _], Hs4 as [Hv4 _], Hs5 as [Hv5 _].
    simpl in Hv3. split; simpl; [congruence|]. rewrite Hn5, Hn4, Hn3, Hn2, Hn1. done.
  - intros ->. rewrite (Hx eq_refl). simpl. unfold take in *. destruct (x =? 0) eqn:Hx0; simpl in *.
    + by apply Hz.
    + by apply Hy.
Qed.

(** ** Left-associative rows

    The row's function after its left operand: the loop, with the value so far. *)
Definition opens (level : nat) (operators : list string) (skip : bool) (s rest : list string)
    (want : option Z) (depth : nat) : Prop :=
  (skip = false → is_Some want) →
  ∀ p, ahead p = s → (ps_nesting p + depth ≤ MAX_NESTING)%nat →
  ∃ n N p' v, (∀ fuel, (N ≤ fuel)%nat → parse_rule chars deeper (n + fuel) (BinaryLevel level) skip p =
      parse_rule chars deeper fuel (BinaryLoop level operators (rvalue v)) skip p') ∧
    ahead p' = rest ∧ same_but_cursor p p' ∧ (skip = false → want = Some v).

Lemma opens_first level operators skip s rest want depth :
  LEVELS !! level = Some operators → reads (BinaryLevel (S level)) skip s rest want depth →
  opens level operators skip s rest want depth.
Proof.
  intros Hl Hreads Hwant p Hp Hn. destruct (Hreads Hwant p Hp Hn) as (N & p' & v & Hrun & Hrest & Hsame & Hv).
  exists 1%nat, N, p', v. split; [|done]. intros fuel Hf. cbn [Nat.add]. rewrite parse_rule_S. cbn [rule_body].
  unfold binary_level. rewrite Hl. by rewrite (bind_run _ _ _ p' (rvalue v)) by (by apply Hrun).
Qed.

Lemma opens_next level operators operator skip s s2 rest wa wb da db :
  LEVELS !! level = Some operators →
  nonblank (chars_of operator ++ s2) = true → find_op operators (chars_of operator ++ s2) = Some operator →
  opens level operators skip s (chars_of operator ++ s2) wa da →
  reads (BinaryLevel (S level)) skip s2 rest wb db →
  opens level operators skip s rest (x ← wa; y ← wb; binary_meaning operator x y) (Nat.max da db).
Proof.
  intros Hl Hb Hfind Ha Hright Hwant p Hp Hn.
  destruct (Ha ltac:(intros Hs; specialize (Hwant Hs); destruct wa; [by eexists|by destruct Hwant]) p Hp)
    as (n & N1 & p1 & x & Hrun1 & Hp1 & Hs1 & Hx); [lia|].
  assert (Hn1 : ps_nesting p1 = ps_nesting p) by apply Hs1.
  destruct (eat_yes operator p1 s2 ltac:(by rewrite Hp1) Hp1) as (p2 & Heat & Hp2 & Hs2).
  assert (Hn2 : ps_nesting p2 = ps_nesting p1) by apply Hs2.
  destruct (Hright ltac:(intros Hs; specialize (Hwant Hs); destruct wa; [|by destruct Hwant];
    destruct wb; [by eexists|by destruct Hwant]) p2 Hp2) as (N3 & p3 & y & Hrun3 & Hp3 & Hs3 & Hy); [lia|].
  assert (Hsame : same_but_cursor p p3) by (by eapply same_trans; [eapply same_trans|]).
  assert (Hval : ∃ v, (if skip then mret 0 else apply chars operator x y) p3 = Ret (p3, Ok v) ∧
    (skip = false → (x0 ← wa; y0 ← wb; binary_meaning operator x0 y0) = Some v)).
  { destruct skip; [by exists 0|]. destruct (Hwant eq_refl) as [v Hv]. exists v. split; [|done].
    rewrite (Hx eq_refl), (Hy eq_refl) in Hv. by apply apply_run. }
  destruct Hval as (v & Happly & Hv).
  exists (S n), (Nat.max N1 N3), p3, v. split; [|done]. intros fuel Hf.
  replace (S n + fuel)%nat with (n + S fuel)%nat by lia. rewrite Hrun1 by lia. rewrite parse_rule_S.
  cbn [rule_body]. unfold binary_loop.
  rewrite (bind_run _ _ _ p1 (Some operator))
    by (rewrite binary_operator_run by (by rewrite Hp1); by rewrite Hp1, Hfind).
  rewrite (bind_run _ _ _ p2 true) by done.
  rewrite (bind_run _ _ _ p3 (rvalue y)) by (apply Hrun3; lia). cbn [op_value rvalue].
  by rewrite (bind_run _ _ _ p3 v).
Qed.

Lemma opens_reads level operators skip s rest want depth :
  nonblank rest = true → find_op operators rest = None →
  opens level operators skip s rest want depth → reads (BinaryLevel level) skip s rest want depth.
Proof.
  intros Hb Hnone Ho Hwant p Hp Hn. destruct (Ho Hwant p Hp Hn) as (n & N & p' & v & Hrun & Hrest & Hsame & Hv).
  exists (n + S N)%nat, p', v. split; [|done]. intros fuel Hf.
  replace fuel with (n + S (fuel - S n))%nat by lia. rewrite Hrun by lia. rewrite parse_rule_S. cbn [rule_body].
  unfold binary_loop. rewrite (bind_run _ _ _ p' None); [done|].
  rewrite binary_operator_run by (by rewrite Hrest). by rewrite Hrest, Hnone.
Qed.

Lemma reads_power_level skip s rest want depth :
  reads (BinaryLevel 8) skip s rest want depth → reads Power skip s rest want depth.
Proof.
  intros Hreads Hwant p Hp Hn. destruct (Hreads Hwant p Hp Hn) as (N & p' & v & Hrun & Hrest & Hsame & Hv).
  exists N, p', v. split; [|done]. intros fuel Hf. by rewrite <-(Hrun (S fuel)) by lia.
Qed.

Lemma reads_deeper rule skip s rest want depth depth' :
  (depth ≤ depth')%nat → reads rule skip s rest want depth → reads rule skip s rest want depth'.
Proof. intros Hd Hreads Hwant p Hp Hn. apply Hreads; [done|done|lia]. Qed.

(** ** Precedence *)

Definition is_none {A} (o : option A) : bool := match o with None => true | Some _ => false end.

(** No function of precedence [k] or above goes on at [rest]. *)
Definition quiet (k : nat) (rest : list string) : bool :=
  nonblank rest && match rest with [] => true | c :: _ => negb (constant_char c) end &&
  implb (k <=? 11)%nat (is_none (find_op ["**"] rest)) &&
  forallb (λ '(level, operators), implb (k <=? 3 + level)%nat (is_none (find_op operators rest)))
    (imap pair LEVELS) &&
  implb (k <=? 2)%nat (negb (starts "&&" rest)) && implb (k <=? 1)%nat (negb (starts "||" rest)) &&
  implb (k <=? 0)%nat (negb (starts "?" rest)).

Definition closes (rest : list string) : bool :=
  quiet 0 rest && is_none (find_op ASSIGNMENT_OPERATORS rest) && negb (starts "," rest).

Definition rule_of (k : nat) : Rule :=
  match k with
  | 0 => Conditional | 1 => LogicalOr | 2 => LogicalAnd | 12 => Unary | 13 => Primary
  | _ => BinaryLevel (k - 3)
  end%nat.
End parsing.

Lemma quiet_spec k rest : quiet k rest = true ↔
  nonblank rest = true ∧ match rest with [] => true | c :: _ => negb (constant_char c) end = true ∧
  ((k ≤ 11)%nat → find_op ["**"] rest = None) ∧
  (∀ level operators, LEVELS !! level = Some operators → (k ≤ 3 + level)%nat → find_op operators rest = None) ∧
  ((k ≤ 2)%nat → starts "&&" rest = false) ∧ ((k ≤ 1)%nat → starts "||" rest = false) ∧
  ((k ≤ 0)%nat → starts "?" rest = false).
Proof.
  assert (Himp : ∀ (a b : bool), implb a b = true ↔ (a = true → b = true)) by (intros [] []; simpl; tauto).
  assert (Hnone : ∀ A (o : option A), is_none o = true ↔ o = None) by (intros A []; simpl; split; done).
  unfold quiet. rewrite !andb_true_iff, !Himp, !Nat.leb_le, !negb_true_iff, Hnone, forallb_forall. split.
  - intros [[[[[[Hb Hc] Hp] Hl] Ha] Ho] Hq]. split_and!; try done.
    intros level operators Hlev Hk. specialize (Hl (level, operators)). rewrite Himp, Nat.leb_le, Hnone in Hl.
    apply Hl; [|done]. apply list_elem_of_In, elem_of_lookup_imap. by exists level, operators.
  - intros (Hb & Hc & Hp & Hl & Ha & Ho & Hq). split_and!; try done.
    intros [level operators] Hin. apply list_elem_of_In, elem_of_lookup_imap in Hin as (i & ops & [= -> ->] & Hi).
    rewrite Himp, Nat.leb_le, Hnone. by apply Hl.
Qed.

Lemma quiet_mono k k' rest : (k ≤ k')%nat → quiet k rest = true → quiet k' rest = true.
Proof.
  intros Hk. rewrite !quiet_spec. intros (Hb & Hc & Hp & Hl & Ha & Ho & Hq).
  split; [done|]. split; [done|]. split; [intros; apply Hp; lia|].
  split; [intros level operators Hlev Hle; apply (Hl level operators Hlev); lia|].
  split; [intros; apply Ha; lia|]. split; [intros; apply Ho; lia|intros; apply Hq; lia].
Qed.

Definition OPERAND_STARTS : list string :=
  ["0"; "1"; "2"; "3"; "4"; "5"; "6"; "7"; "8"; "9"; "("; "-"; "!"; "~"].

Lemma operand_start_cases c : operand_start c = true → c ∈ OPERAND_STARTS.
Proof.
  unfold operand_start. intros [Hd|Hin]%orb_true_iff.
  - unfold is_ascii_digit, code_is, char_code in Hd. destruct c as [|b [|]]; try done.
    assert (Hn : forallb (λ n, implb (digit_code (Ascii.N_of_ascii (Ascii.ascii_of_nat n)))
      (bool_decide (String (Ascii.ascii_of_nat n) EmptyString ∈ OPERAND_STARTS))) (seq 0 256) = true)
      by (vm_compute; reflexivity).
    pose proof (proj1 (forallb_forall _ _) Hn (Ascii.nat_of_ascii b)
      ltac:(apply in_seq; pose proof (Ascii.nat_ascii_bounded b); lia)) as Hb.
    cbv beta in Hb. rewrite Ascii.ascii_nat_embedding, Hd in Hb. simpl in Hb. by bool_to_prop.
  - bool_to_prop. unfold OPERAND_STARTS. set_solver.
Qed.

(** Checking a property of an operator followed by an operand on every operator and every first
    character of an operand. *)
Ltac each_operand_start Hc :=
  apply operand_start_cases in Hc; unfold OPERAND_STARTS in Hc;
  repeat (apply elem_of_cons in Hc as [->|Hc]); [..|by apply elem_of_nil in Hc]; vm_compute; reflexivity.

Lemma level_of_spec operator level : level_of operator = Some level →
  ∃ operators, LEVELS !! level = Some operators ∧ operator ∈ operators.
Proof.
  unfold level_of. destruct (list_find _ LEVELS) as [[i ops]|] eqn:Hf; [|done]. simpl. intros [= <-].
  apply list_find_Some in Hf as (Hi & Hin & _). eauto.
Qed.

Lemma row_operator_quiet level operators operator c tl :
  LEVELS !! level = Some operators → operator ∈ operators → operand_start c = true →
  quiet (4 + level) (chars_of operator ++ c :: tl) = true.
Proof.
  intros Hl Hop Hc. do 8 (destruct level as [|level]; [injection Hl as <-; 
    repeat (apply elem_of_cons in Hop as [->|Hop]); [..|by apply elem_of_nil in Hop]; each_operand_start Hc|]).
  done.
Qed.

Lemma row_operator_found level operators operator c tl :
  LEVELS !! level = Some operators → operator ∈ operators → operand_start c = true →
  find_op operators (chars_of operator ++ c :: tl) = Some operator.
Proof.
  intros Hl Hop Hc. do 8 (destruct level as [|level]; [injection Hl as <-;
    repeat (apply elem_of_cons in Hop as [->|Hop]); [..|by apply elem_of_nil in Hop]; each_operand_start Hc|]).
  done.
Qed.

Lemma power_quiet c tl : operand_start c = true →
  quiet 12 (chars_of "**" ++ c :: tl) = true ∧ find_op ["**"] (chars_of "**" ++ c :: tl) = Some "**".
Proof. intros Hc. split; each_operand_start Hc. Qed.

Lemma and_quiet c tl : operand_start c = true → quiet 3 (chars_of "&&" ++ c :: tl) = true.
Proof. intros Hc. each_operand_start Hc. Qed.
Lemma or_quiet c tl : operand_start c = true → quiet 2 (chars_of "||" ++ c :: tl) = true.
Proof. intros Hc. each_operand_start Hc. Qed.
Lemma question_quiet tl : quiet 1 ("?" :: tl) = true.
Proof. vm_compute. reflexivity. Qed.
Lemma colon_closes tl : closes (":" :: tl) = true.
Proof. vm_compute. reflexivity. Qed.
Lemma paren_closes tl : closes (")" :: tl) = true.
Proof. vm_compute. reflexivity. Qed.
Lemma end_closes : closes [] = true.
Proof. vm_compute. reflexivity. Qed.

(** What a printed expression begins with. *)
Lemma print_start e k : well_formed e = true →
  ∃ c tl, print k e = c :: tl ∧ operand_start c = true ∧
    (c = "-" → ∃ c' tl', tl = c' :: tl' ∧ operand_start c' = true).
Proof.
  assert (Happ : ∀ (l l' : list string),
    (∃ c tl, l = c :: tl ∧ operand_start c = true ∧ (c = "-" → ∃ c' tl', tl = c' :: tl' ∧ operand_start c' = true)) →
    ∃ c tl, l ++ l' = c :: tl ∧ operand_start c = true ∧ (c = "-" → ∃ c' tl', tl = c' :: tl' ∧ operand_start c' = true)).
  { intros l l' (c & tl & -> & Hc & Hm). exists c, (tl ++ l'). split; [done|]. split; [done|].
    intros Hd. destruct (Hm Hd) as (c' & tl' & -> & Hc'). by exists c', (tl' ++ l'). }
  assert (Hparen : ∀ (l : list string), ∃ c tl, "(" :: l = c :: tl ∧ operand_start c = true ∧
    (c = "-" → ∃ c' tl', tl = c' :: tl' ∧ operand_start c' = true)) by (intros l; by eexists _, _).
  revert k. induction e as [text|operator a IHa|operator a IHa b IHb|a IHa b IHb|a IHa b IHb|a IHa b IHb
    |c IHc a IHa b IHb]; intros k Hwf; cbn [print well_formed] in *; unfold parens;
    (destruct (bool_decide (_ < k)%nat); [apply Hparen|]); cbv zeta.
  - unfold literal_ok in Hwf. destruct (utf8_chars text) as [|c cs]; [done|].
    apply andb_true_iff in Hwf as [[Hd _]%andb_true_iff _]. exists c, cs. split; [done|].
    split; [unfold operand_start; by rewrite Hd|]. intros ->. done.
  - apply andb_true_iff in Hwf as [Hop Hwf]. bool_to_prop. destruct (IHa 12%nat Hwf) as (c & tl & -> & Hc & _).
    repeat (apply elem_of_cons in Hop as [->|Hop]); [..|by apply elem_of_nil in Hop]; eexists _, _;
      (split; [reflexivity|]); (split; [done|]); intros; eauto.
  - apply andb_true_iff in Hwf as [[_ Ha]%andb_true_iff _]. by apply Happ, IHa.
  - apply andb_true_iff in Hwf as [Ha _]. by apply Happ, IHa.
  - apply andb_true_iff in Hwf as [Ha _]. by apply Happ, IHa.
  - apply andb_true_iff in Hwf as [Ha _]. by apply Happ, IHa.
  - apply andb_true_iff in Hwf as [[Hc _]%andb_true_iff _]. by apply Happ, IHc.
Qed.

Section main.
Context {V : Type} `{ArithVars V} (chars : list string)
  (deeper : option (V → string → run (V * result ArithError Z))).
Abbreviation reads := (reads chars deeper).
Abbreviation opens := (opens chars deeper).

(** A beginning of an operand that is not a sign. *)
Definition plain_start (s : list string) : Prop :=
  ∃ c tl, s = c :: tl ∧ is_whitespace c = false ∧ c ∉ ["-"; "+"; "!"; "~"].

Lemma plain_paren s : plain_start ("(" :: s).
Proof. exists "(", s. split; [done|]. split; [by vm_compute|]. by apply (bool_decide_eq_true_1 _). Qed.

Lemma climb_step k skip s rest want d :
  (k ≤ 12)%nat → quiet k rest = true → (k = 12%nat → plain_start s) →
  reads (rule_of (S k)) skip s rest want d → reads (rule_of k) skip s rest want d.
Proof.
  intros Hk (Hb & _ & Hp & Hl & Ha & Ho & Hq)%quiet_spec Hs Hreads.
  destruct (decide (k = 12%nat)) as [->|Hn12].
  { destruct (Hs eq_refl) as (c & tl & -> & Hw & Hc). by apply reads_unary_plain, reads_postfix. }
  destruct (decide (k = 11%nat)) as [->|Hn11].
  { apply reads_top_level; [done|]. apply reads_power; [done|apply Hp; lia|exact Hreads]. }
  destruct k as [|[|[|k]]].
  - apply reads_conditional; [done|apply Hq; lia|exact Hreads].
  - apply reads_or; [done|apply Ho; lia|exact Hreads].
  - apply reads_and; [done|apply Ha; lia|exact Hreads].
  - assert (Hlev : ∃ operators, LEVELS !! k = Some operators) by (apply lookup_lt_is_Some_2; simpl; lia).
    destruct Hlev as [operators Hlev].
    assert (Hrule : rule_of (S (S (S k))) = BinaryLevel k ∧ rule_of (S (S (S (S k)))) = BinaryLevel (S k)).
    { do 8 (destruct k as [|k]; [done|]). lia. }
    destruct Hrule as [-> Hrule]. rewrite Hrule in Hreads.
    eapply reads_level; [exact Hlev|done|apply (Hl k); [done|lia]|done].
Qed.

Lemma climb k j skip s rest want d :
  (k ≤ j ≤ 13)%nat → quiet k rest = true → (j = 13%nat → plain_start s) →
  reads (rule_of j) skip s rest want d → reads (rule_of k) skip s rest want d.
Proof.
  intros [Hkj Hj] Hq Hs. remember (j - k)%nat as n eqn:Hn. revert j Hkj Hj Hs Hn.
  induction n as [|n IH]; intros j Hkj Hj Hs Hn Hreads; [by replace k with j by lia|].
  destruct j as [|j]; [lia|]. apply (IH j); [lia|lia|lia|lia|].
  apply climb_step; [lia|by apply (quiet_mono k); [lia|]| |done]. intros ->. by apply Hs.
Qed.

Lemma closed_comma skip s rest want d : closes rest = true →
  reads (rule_of 0) skip s rest want d → reads Comma skip s rest want d.
Proof.
  intros [[Hq Ha]%andb_true_iff Hc]%andb_true_iff Hreads.
  apply quiet_spec in Hq as (Hb & _). apply negb_true_iff in Hc.
  apply reads_comma; [done|done|]. apply reads_assignment; [done| |done]. by destruct (find_op _ rest).
Qed.

Lemma enclosed skip s rest want d :
  reads (rule_of 0) skip s (")" :: rest) want d → reads Primary skip ("(" :: s) rest want (S d).
Proof. intros Hreads. apply reads_paren. by apply closed_comma; [apply paren_closes|]. Qed.

(** An expression read at its own precedence is read at every other: below it as it stands, above
    it in parentheses. *)
Lemma print_at e skip :
  (∀ rest, quiet (prec e) rest = true →
     reads (rule_of (prec e)) skip (print (prec e) e ++ rest) rest (denote e) (pred (depth e))) →
  (0 < depth e)%nat →
  ∀ k rest, (k ≤ 13)%nat → quiet k rest = true → reads (rule_of k) skip (print k e ++ rest) rest (denote e) (depth e).
Proof.
  intros Hbody Hd k rest Hk Hq.
  assert (Hp13 : (prec e ≤ 12)%nat).
  { destruct e as [| operator ? | operator ? ? | | | |]; simpl in *; try lia.
    destruct (level_of operator) as [level|] eqn:Hl; simpl; [|lia].
    apply level_of_spec in Hl as (ops & Hl%lookup_lt_Some & _). simpl in Hl. lia. }
  assert (Hshape : print k e = if bool_decide (prec e < k)%nat then "(" :: print (prec e) e ++ [")"]
    else print (prec e) e).
  { destruct e; cbn [print]; rewrite (bool_decide_eq_false_2 (_ < prec _)%nat) by lia; done. }
  rewrite Hshape. case_bool_decide as Hlt.
  - apply (climb k 13); [lia|done|intros _; apply plain_paren|].
    replace (depth e) with (S (pred (depth e))) by lia. cbn [rule_of]. rewrite <-app_comm_cons, <-app_assoc.
    apply enclosed. apply (climb 0 (prec e)); [lia| |lia|].
    + pose proof (paren_closes rest) as Hc. unfold closes in Hc. by apply andb_true_iff in Hc as [[? _]%andb_true_iff _].
    + apply Hbody. apply (quiet_mono 0); [lia|]. pose proof (paren_closes rest) as Hc. unfold closes in Hc.
      by apply andb_true_iff in Hc as [[? _]%andb_true_iff _].
  - apply (climb k (prec e)); [lia|done|lia|]. eapply reads_deeper; [|apply Hbody; by apply (quiet_mono k); [lia|]]. lia.
Qed.

Lemma rule_of_row level operators : LEVELS !! level = Some operators →
  rule_of (3 + level) = BinaryLevel level ∧ rule_of (4 + level) = BinaryLevel (S level) ∧ (level < 8)%nat.
Proof. intros Hl%lookup_lt_Some. simpl in Hl. do 8 (destruct level as [|level]; [split_and!; [done|done|lia]|]). lia. Qed.

(** The two ways an expression is met: at a precedence, and as the left operand of a row. *)
Definition readable (e : aexpr) : Prop :=
  (∀ skip k rest, (k ≤ 13)%nat → quiet k rest = true →
     reads (rule_of k) skip (print k e ++ rest) rest (denote e) (depth e)) ∧
  (∀ skip level operators rest, LEVELS !! level = Some operators → quiet (4 + level) rest = true →
     opens level operators skip (print (3 + level) e ++ rest) rest (denote e) (depth e)).

Lemma opens_other e level operators skip rest :
  (∀ skip k rest, (k ≤ 13)%nat → quiet k rest = true →
     reads (rule_of k) skip (print k e ++ rest) rest (denote e) (depth e)) →
  prec e ≠ (3 + level)%nat → LEVELS !! level = Some operators → quiet (4 + level) rest = true →
  opens level operators skip (print (3 + level) e ++ rest) rest (denote e) (depth e).
Proof.
  intros Hreads Hp Hl Hq. destruct (rule_of_row level operators Hl) as (_ & Hrule & Hlt).
  assert (Hsame : print (3 + level) e = print (4 + level) e).
  { assert (Hb : bool_decide (prec e < 3 + level)%nat = bool_decide (prec e < 4 + level)%nat)
      by (apply bool_decide_ext; lia). destruct e; cbn [print]; by rewrite Hb. }
  rewrite Hsame. apply opens_first; [done|]. rewrite <-Hrule. apply Hreads; [lia|done].
Qed.

(** Any expression but an operator of a row. *)
Lemma readable_simple e :
  (∀ skip rest, quiet (prec e) rest = true →
     reads (rule_of (prec e)) skip (print (prec e) e ++ rest) rest (denote e) (pred (depth e))) →
  (0 < depth e)%nat → (∀ level operators, LEVELS !! level = Some operators → prec e ≠ (3 + level)%nat) → readable e.
Proof.
  intros Hbody Hd Hrow.
  assert (Hreads : ∀ skip k rest, (k ≤ 13)%nat → quiet k rest = true →
    reads (rule_of k) skip (print k e ++ rest) rest (denote e) (depth e)).
  { intros skip. apply print_at; [apply Hbody|done]. }
  split; [exact Hreads|]. intros skip level operators rest Hl Hq.
  apply opens_other; [exact Hreads|by eapply Hrow|done|done].
Qed.

Lemma readable_literal text : literal_ok text = true → readable (Lit text).
Proof.
  intros Hlit. assert (Hreads : ∀ skip k rest, (k ≤ 13)%nat → quiet k rest = true →
    reads (rule_of k) skip (print k (Lit text) ++ rest) rest (denote (Lit text)) (depth (Lit text))).
  { intros skip k rest Hk Hq. cbn [print denote depth]. rewrite bool_decide_eq_false_2 by (simpl; lia).
    unfold parens. pose proof Hlit as Hlit'. unfold literal_ok in Hlit.
    destruct (utf8_chars text) as [|c cs] eqn:Hcs; [done|].
    apply andb_true_iff in Hlit as [[Hd _]%andb_true_iff Hok].
    destruct (parse_constant text) as [v|] eqn:Hv; [|done]. rewrite <-Hcs.
    apply (climb k 13); [lia|done| |].
    - intros _. exists c, (cs ++ rest). split; [by rewrite Hcs|].
      assert (Hstart : operand_start c = true) by (unfold operand_start; by rewrite Hd).
      split; [by apply operand_start_plain|]. intros Hin.
      repeat (apply elem_of_cons in Hin as [->|Hin]; [done|]). by apply elem_of_nil in Hin.
    - apply (reads_literal _ _ _ _ v); [done|done|]. by apply quiet_spec in Hq as (_ & ? & _). }
  split; [exact Hreads|]. intros skip level operators rest Hl Hq.
  destruct (rule_of_row level operators Hl) as (_ & _ & Hlt).
  apply opens_other; [exact Hreads|simpl; lia|done|done].
Qed.

Lemma not_row k : (k < 3 ∨ 10 < k)%nat → ∀ level operators, LEVELS !! level = Some operators → k ≠ (3 + level)%nat.
Proof. intros Hk level operators (_ & _ & Hlt)%rule_of_row. lia. Qed.

Lemma print_own e : print (prec e) e = match e with
    | Lit text => utf8_chars text
    | Un operator a => chars_of operator ++ print 12 a
    | Bin operator a b =>
        let level := (3 + default 0 (level_of operator))%nat in
        print level a ++ chars_of operator ++ print (S level) b
    | Pow a b => print 12 a ++ chars_of "**" ++ print 11 b
    | AndE a b => print 3 a ++ chars_of "&&" ++ print 3 b
    | OrE a b => print 2 a ++ chars_of "||" ++ print 2 b
    | CondE c a b => print 1 c ++ "?" :: print 0 a ++ ":" :: print 0 b
    end.
Proof. destruct e; cbn [print]; rewrite (bool_decide_eq_false_2 (_ < prec _)%nat) by lia; done. Qed.

Lemma readable_un operator a :
  operator ∈ ["-"; "!"; "~"] → well_formed a = true → readable a → readable (Un operator a).
Proof.
  intros Hop Hwf [Ha _]. apply readable_simple; [|simpl; lia|apply not_row; simpl; lia].
  intros skip rest Hq. rewrite print_own, <-app_assoc. cbn [denote depth prec rule_of pred] in *.
  replace (pred (2 + depth a)) with (S (depth a)) by lia. apply reads_sign; [done| |].
  - destruct (print_start a 12 Hwf) as (c & tl & -> & Hc & Hm). exists c, (tl ++ rest). split; [done|].
    split; [done|]. intros Hd. destruct (Hm Hd) as (c' & tl' & -> & Hc'). by exists c', (tl' ++ rest).
  - apply (Ha skip 12%nat); [lia|done].
Qed.

Lemma readable_pow a b : well_formed b = true → readable a → readable b → readable (Pow a b).
Proof.
  intros Hwf [Ha _] [Hb _]. apply readable_simple; [|simpl; lia|apply not_row; simpl; lia].
  intros skip rest Hq. rewrite print_own, <-!app_assoc. cbn [denote depth prec] in *.
  destruct (print_start b 11 Hwf) as (c & tl & Hpb & Hc & _). rewrite Hpb in *. cbn [app].
  destruct (power_quiet c (tl ++ rest) Hc) as [Hquiet Hfind].
  cbn [rule_of]. apply reads_top_level; [done|].
  apply (reads_deeper chars deeper _ _ _ _ _ (Nat.max (depth a) (S (depth b)))); [simpl; lia|].
  eapply reads_pow; [|exact Hfind| |].
  - by apply quiet_spec in Hquiet as (? & _).
  - apply (Ha skip 12%nat); [lia|exact Hquiet].
  - apply reads_power_level. rewrite app_comm_cons, <-Hpb. apply (Hb skip 11%nat); [lia|done].
Qed.

Lemma readable_and a b : well_formed b = true → readable a → readable b → readable (AndE a b).
Proof.
  intros Hwf [Ha _] [Hb _]. apply readable_simple; [|simpl; lia|apply not_row; simpl; lia].
  intros skip rest Hq. rewrite print_own, <-!app_assoc. cbn [denote depth prec rule_of] in *.
  destruct (print_start b 3 Hwf) as (c & tl & Hpb & Hc & _). rewrite Hpb in *. cbn [app].
  pose proof (and_quiet c (tl ++ rest) Hc) as Hquiet.
  pose proof Hq as (Hbr & _ & _ & _ & Hend & _)%quiet_spec.
  apply (reads_deeper chars deeper _ _ _ _ _ (Nat.max (depth a) (depth b))); [simpl; lia|].
  eapply reads_and_op; [|exact Hbr|apply Hend; lia| |].
  - by apply quiet_spec in Hquiet as (? & _).
  - apply (Ha skip 3%nat); [lia|exact Hquiet].
  - intros skip'. rewrite app_comm_cons, <-Hpb. apply (Hb skip' 3%nat); [lia|]. by apply (quiet_mono 2); [lia|].
Qed.

Lemma readable_or a b : well_formed b = true → readable a → readable b → readable (OrE a b).
Proof.
  intros Hwf [Ha _] [Hb _]. apply readable_simple; [|simpl; lia|apply not_row; simpl; lia].
  intros skip rest Hq. rewrite print_own, <-!app_assoc. cbn [denote depth prec rule_of] in *.
  destruct (print_start b 2 Hwf) as (c & tl & Hpb & Hc & _). rewrite Hpb in *. cbn [app].
  pose proof (or_quiet c (tl ++ rest) Hc) as Hquiet.
  pose proof Hq as (Hbr & _ & _ & _ & _ & Hend & _)%quiet_spec.
  apply (reads_deeper chars deeper _ _ _ _ _ (Nat.max (depth a) (depth b))); [simpl; lia|].
  eapply reads_or_op; [|exact Hbr|apply Hend; lia| |].
  - by apply quiet_spec in Hquiet as (? & _).
  - apply (Ha skip 2%nat); [lia|exact Hquiet].
  - intros skip'. rewrite app_comm_cons, <-Hpb. apply (Hb skip' 2%nat); [lia|]. by apply (quiet_mono 1); [lia|].
Qed.

Lemma readable_cond c a b : readable c → readable a → readable b → readable (CondE c a b).
Proof.
  intros [Hc _] [Ha _] [Hb _]. apply readable_simple; [|simpl; lia|apply not_row; simpl; lia].
  intros skip rest Hq. rewrite print_own. rewrite <-app_assoc, <-app_comm_cons, <-app_assoc, <-app_comm_cons.
  cbn [denote depth prec rule_of] in *.
  apply (reads_deeper chars deeper _ _ _ _ _ (Nat.max (depth c) (S (Nat.max (depth a) (depth b))))); [simpl; lia|].
  eapply reads_cond.
  - apply (Hc skip 1%nat); [lia|apply question_quiet].
  - intros skip'. pose proof (colon_closes (print 0 b ++ rest)) as Hcl. apply closed_comma; [done|].
    apply (Ha skip' 0%nat); [lia|]. unfold closes in Hcl. by apply andb_true_iff in Hcl as [[? _]%andb_true_iff _].
  - intros skip'. by apply (Hb skip' 0%nat); [lia|].
Qed.

Lemma readable_bin operator a b :
  is_Some (level_of operator) → well_formed b = true → readable a → readable b → readable (Bin operator a b).
Proof.
  intros [level Hlev] Hwf [_ Ha] [Hb _]. destruct (level_of_spec operator level Hlev) as (operators & Hl & Hop).
  destruct (rule_of_row level operators Hl) as (Hrule & Hrule' & Hlt).
  assert (Hprec : prec (Bin operator a b) = (3 + level)%nat) by (simpl; by rewrite Hlev).
  destruct (print_start b (4 + level) Hwf) as (c & tl & Hpb & Hc & _).
  assert (Hopens : ∀ skip rest, quiet (4 + level) rest = true →
    opens level operators skip (print (3 + level) (Bin operator a b) ++ rest) rest (denote (Bin operator a b))
      (Nat.max (depth a) (depth b))).
  { intros skip rest Hq. rewrite <-Hprec, print_own, Hlev. cbn [default from_option id denote]. cbv zeta.
    change (S (3 + level)) with (4 + level)%nat. rewrite Hpb, <-!app_assoc. cbn [app].
    pose proof (row_operator_quiet level operators operator c (tl ++ rest) Hl Hop Hc) as Hquiet.
    pose proof (row_operator_found level operators operator c (tl ++ rest) Hl Hop Hc) as Hfind.
    eapply opens_next; [done| |exact Hfind|by apply Ha|].
    - by apply quiet_spec in Hquiet as (? & _).
    - rewrite <-Hrule', app_comm_cons, <-Hpb. apply Hb; [lia|done]. }
  assert (Hreads : ∀ skip k rest, (k ≤ 13)%nat → quiet k rest = true →
    reads (rule_of k) skip (print k (Bin operator a b) ++ rest) rest (denote (Bin operator a b))
      (depth (Bin operator a b))).
  { intros skip. apply print_at; [|simpl; lia]. intros rest Hq. rewrite Hprec in *. rewrite Hrule.
    apply quiet_spec in Hq as Hqs. destruct Hqs as (Hbr & _ & _ & Hrow & _).
    eapply opens_reads; [done|by eapply Hrow|]. intros Hwant p Hp Hn. simpl in Hn.
    apply (Hopens skip rest); [by apply (quiet_mono (3 + level)); [lia|]|done|done|lia]. }
  split; [exact Hreads|]. intros skip level' operators' rest Hl' Hq.
  destruct (decide (level' = level)) as [->|Hne].
  - rewrite Hl in Hl'. injection Hl' as <-. intros Hwant p Hp Hn. simpl in Hn.
    apply (Hopens skip rest); [done|done|done|lia].
  - apply opens_other; [exact Hreads|rewrite Hprec; lia|done|done].
Qed.

Lemma readable_all e : well_formed e = true → readable e.
Proof.
  induction e as [text|operator a IHa|operator a IHa b IHb|a IHa b IHb|a IHa b IHb|a IHa b IHb
    |c IHc a IHa b IHb]; cbn [well_formed]; intros Hwf.
  - by apply readable_literal.
  - apply andb_true_iff in Hwf as [Hop Ha]. bool_to_prop. apply readable_un; auto.
  - apply andb_true_iff in Hwf as [[Hop Ha]%andb_true_iff Hb]. bool_to_prop. apply readable_bin; auto.
  - apply andb_true_iff in Hwf as [Ha Hb]. apply readable_pow; auto.
  - apply andb_true_iff in Hwf as [Ha Hb]. apply readable_and; auto.
  - apply andb_true_iff in Hwf as [Ha Hb]. apply readable_or; auto.
  - apply andb_true_iff in Hwf as [[Hc Ha]%andb_true_iff Hb]. apply readable_cond; auto.
Qed.
End main.

(** ** More fuel, the same result *)

Section fuel.
Context {V : Type} `{ArithVars V} (chars : list string)
  (deeper : option (V → string → run (V * result ArithError Z))).

Definition below_run {A} (m m' : parse V A) : Prop := ∀ p, m p = NoFuel ∨ m p = m' p.

Lemma below_refl {A} (m : parse V A) : below_run m m.
Proof. intros p. by right. Qed.

Lemma below_bind {A B} (m m' : parse V A) (k k' : A → parse V B) :
  below_run m m' → (∀ a, below_run (k a) (k' a)) → below_run (m ≫= k) (m' ≫= k').
Proof.
  intros Hm Hk p. unfold mbind, parse_bind. destruct (Hm p) as [->| ->]; [by left|].
  destruct (m' p) as [[p' [a|e]]| |]; [apply Hk|by right..].
Qed.

Lemma rule_body_below rec rec' rule skip :
  (∀ rule skip, below_run (rec rule skip) (rec' rule skip)) →
  below_run (rule_body chars deeper rec rule skip) (rule_body chars deeper rec' rule skip).
Proof.
  intros Hrec.
  destruct rule; cbn [rule_body];
    unfold comma, comma_loop, assignment, conditional, logical_or, or_loop, logical_and, and_loop, binary_level,
      binary_loop, power, unary, postfix, primary, variable; cbv zeta;
    repeat first [ apply Hrec | apply below_refl
                 | apply below_bind; [first [apply below_refl | apply Hrec]|intros ?]
                 | match goal with |- below_run (match ?x with _ => _ end) _ => destruct x end ].
Qed.

Lemma parse_rule_below fuel rule skip :
  below_run (parse_rule chars deeper fuel rule skip) (parse_rule chars deeper (S fuel) rule skip).
Proof.
  revert rule skip. induction fuel as [|fuel IH]; intros rule skip; [intros p; by left|].
  apply rule_body_below, IH.
Qed.

Lemma parse_rule_more fuel fuel' rule skip p out : (fuel ≤ fuel')%nat →
  parse_rule chars deeper fuel rule skip p = Ret out → parse_rule chars deeper fuel' rule skip p = Ret out.
Proof.
  intros Hle Hrun. induction Hle as [|fuel' Hle IH]; [done|].
  destruct (parse_rule_below fuel' rule skip p) as [Hn|Heq]; [congruence|]. by rewrite <-Heq.
Qed.
End fuel.

(** ** The expression as a string *)

Lemma constant_char_ascii c : constant_char c = true → ascii_char c = true.
Proof.
  unfold constant_char, is_ascii_alphanumeric, is_ascii_alphabetic, is_ascii_digit, code_is, char_code.
  destruct c as [|b [|]]; [done| |by rewrite !bool_decide_eq_false_2 by done].
  intros Hc. unfold ascii_char. apply N.ltb_lt. unfold alpha_code, digit_code, in_range in Hc.
  repeat (apply orb_true_iff in Hc as [Hc|Hc]); repeat (apply andb_true_iff in Hc as [? Hc]);
    bool_to_prop; try (apply N.leb_le in Hc; lia); injection Hc as ->; by vm_compute.
Qed.

Lemma chars_of_ascii operator : operator ∈ OPERATORS ++ ["-"; "!"; "~"; "&&"; "||"] →
  forallb ascii_char (chars_of operator) = true.
Proof.
  assert (Hall : forallb (λ o, forallb ascii_char (chars_of o)) (OPERATORS ++ ["-"; "!"; "~"; "&&"; "||"]) = true)
    by (vm_compute; reflexivity).
  intros Hin%list_elem_of_In. exact (proj1 (forallb_forall _ _) Hall operator Hin).
Qed.

Lemma print_ascii e k : well_formed e = true → forallb ascii_char (print k e) = true.
Proof.
  assert (Hparen : ∀ b l, forallb ascii_char l = true → forallb ascii_char (parens b l) = true).
  { intros [] l Hl; [|done]. cbn [parens forallb]. rewrite forallb_app, Hl. done. }
  revert k. induction e as [text|operator a IHa|operator a IHa b IHb|a IHa b IHb|a IHa b IHb|a IHa b IHb
    |c IHc a IHa b IHb]; intros k Hwf; cbn [print well_formed] in *; apply Hparen; cbv zeta.
  - unfold literal_ok in Hwf. destruct (utf8_chars text) as [|c cs]; [done|].
    apply andb_true_iff in Hwf as [[_ Hall]%andb_true_iff _]. apply forallb_forall. intros x Hx.
    apply constant_char_ascii. by apply (proj1 (forallb_forall _ _) Hall).
  - apply andb_true_iff in Hwf as [Hop Ha]. bool_to_prop. rewrite forallb_app, IHa, chars_of_ascii by (done || set_solver).
    done.
  - apply andb_true_iff in Hwf as [[Hop Ha]%andb_true_iff Hb]. bool_to_prop. destruct Hop as [level Hlev].
    destruct (level_of_spec _ _ Hlev) as (operators & Hl & Hin).
    destruct (level_operators _ _ _ Hl Hin) as [_ Hknown].
    rewrite !forallb_app, IHa, IHb, chars_of_ascii by (done || (apply elem_of_app; by left)). done.
  - apply andb_true_iff in Hwf as [Ha Hb]. rewrite !forallb_app, IHa, IHb by done. done.
  - apply andb_true_iff in Hwf as [Ha Hb]. rewrite !forallb_app, IHa, IHb by done. done.
  - apply andb_true_iff in Hwf as [Ha Hb]. rewrite !forallb_app, IHa, IHb by done. done.
  - apply andb_true_iff in Hwf as [[Hc Ha]%andb_true_iff Hb].
    rewrite !forallb_app. cbn [forallb]. rewrite forallb_app, IHc, IHa by done. cbn [forallb]. by rewrite IHb.
Qed.

Lemma evaluate_at_grammar {V} `{ArithVars V} levels (vars : V) e v :
  well_formed e = true → (depth e ≤ MAX_NESTING)%nat → denote e = Some v →
  evaluate_at (S levels) vars (collect (print 0 e)) = Ret (vars, Ok v).
Proof.
  intros Hwf Hdepth Hv. pose proof (print_start e 0 Hwf) as (c & tl & Hpr & Hc & _).
  destruct (operand_start_plain c Hc) as (Hw & _).
  cbn [evaluate_at]. cbv zeta. rewrite utf8_chars_ascii by (by apply print_ascii).
  set (chars := print 0 e) in *. set (deeper := Some (evaluate_at levels)). set (p := MkParser vars 0 0 0).
  assert (Hahead : ahead chars p = chars ++ []) by (rewrite app_nil_r; done).
  destruct (readable_all chars deeper e Hwf) as [Hreads _].
  destruct (closed_comma chars deeper false (chars ++ []) [] (denote e) (depth e) end_closes) with (p := p)
    as (N & p' & w & Hrun & Hend & [Hvars _] & Hval); [|intros _; rewrite Hv; by eexists|done|simpl; lia|].
  { apply (Hreads false 0%nat); [lia|]. pose proof end_closes as Hcl. unfold closes in Hcl.
    by apply andb_true_iff in Hcl as [[? _]%andb_true_iff _]. }
  rewrite Hv in Hval. specialize (Hval eq_refl). injection Hval as <-.
  assert (Hdeeper : ∀ ev (vs : V) text, deeper = Some ev →
    ∃ vars' r, ev vs text = Ret (vars', r) ∧ frame vs vars' ∧ match r with Ok z => in_i64 z | Err _ => True end)
    by (intros ev vs text [= <-]; apply evaluate_at_keeps).
  assert (Hfuel : parse_rule chars deeper (parse_fuel chars) Comma false p = Ret (p', Ok (rvalue v))).
  { destruct (parse_rule_returns chars deeper Hdeeper (parse_fuel chars) Comma false p) as (p2 & r & Hret & _);
      [done|unfold good; simpl; lia|unfold parse_fuel; simpl; lia|].
    rewrite Hret. rewrite <-(Hrun (Nat.max N (parse_fuel chars))) by lia. symmetry.
    eapply parse_rule_more; [|exact Hret]. lia. }
  assert (Hat : at_end chars p = false).
  { unfold at_end. apply bool_decide_eq_false_2. rewrite Hpr. simpl. lia. }
  assert (Hat' : at_end chars p' = true).
  { unfold at_end. apply bool_decide_eq_true_2. unfold ahead in Hend.
    apply (f_equal length) in Hend. rewrite length_drop in Hend. simpl in Hend. lia. }
  unfold parse_expression.
  rewrite (bind_run _ _ _ p tt) by (apply skip_blanks_run; rewrite Hahead, app_nil_r, Hpr; simpl; by rewrite Hw).
  rewrite (bind_run _ _ _ p (at_end chars p)) by done. rewrite Hat.
  rewrite (bind_run _ _ _ p' (rvalue v)) by exact Hfuel.
  rewrite (bind_run _ _ _ p' tt) by (apply skip_blanks_run; by rewrite Hend).
  rewrite (bind_run _ _ _ p' (at_end chars p')) by done. rewrite Hat'. simpl. by rewrite Hvars.
Qed.

(** ** The reference, on its own

    The grammar again, with nothing taken from the evaluator: its own operators, their precedences
    and symbols, and their meaning on integers that are brought to 64 bits where they leave them. *)

Module Grammar.

(** The integer of 64 bits in two's complement that [z] is congruent to. *)
Definition signed64 (z : Z) : Z :=
  let low := z mod 18446744073709551616 in if low <? 9223372036854775808 then low else low - 18446744073709551616.

(** Constants, by the values of their digits, most significant first. *)
Inductive numeral :=
| Decimal (digits : list Z)
| Octal (digits : list Z)
| Hexadecimal (digits : list Z)
| Radix (base : Z) (digits : list Z).

Definition numeral_base (n : numeral) : Z :=
  match n with Decimal _ => 10 | Octal _ => 8 | Hexadecimal _ => 16 | Radix base _ => base end.
Definition numeral_digits (n : numeral) : list Z :=
  match n with Decimal ds | Octal ds | Hexadecimal ds | Radix _ ds => ds end.

Fixpoint value_in (base : Z) (digits : list Z) (sum : Z) : Z :=
  match digits with [] => sum | d :: digits => value_in base digits (base * sum + d) end.
Definition numeral_value (n : numeral) : Z := signed64 (value_in (numeral_base n) (numeral_digits n) 0).

Definition DIGITS : string := "0123456789abcdefghijklmnopqrstuvwxyzABCDEFGHIJKLMNOPQRSTUVWXYZ@_".
Definition digit (d : Z) : ascii := default "0"%char (String.get (Z.to_nat d) DIGITS).
Fixpoint digits_text (digits : list Z) : string :=
  match digits with [] => "" | d :: digits => String (digit d) (digits_text digits) end.
Definition numeral_text (n : numeral) : string :=
  match n with
  | Decimal ds => digits_text ds
  | Octal ds => "0" +:+ digits_text ds
  | Hexadecimal ds => "0x" +:+ digits_text ds
  | Radix base ds => pretty base +:+ "#" +:+ digits_text ds
  end.

(** A decimal constant has no leading zero, which would make it octal. *)
Definition numeral_ok (n : numeral) : bool :=
  forallb (λ d, (0 <=? d) && (d <? numeral_base n)) (numeral_digits n) &&
  negb (bool_decide (numeral_digits n = [])) &&
  match n with
  | Decimal (d :: _ :: _) => negb (d =? 0)
  | Radix base _ => (2 <=? base) && (base <=? 64)
  | _ => true
  end.

Inductive binop := BitOr | BitXor | BitAnd | Equal | Unequal | AtMost | AtLeast | Less | Greater
  | ShiftLeft | ShiftRight | Plus | Minus | Times | Divide | Remainder.
Inductive unop := Negate | Not | Complement.

Inductive expr :=
| Const (n : numeral)
| Unary (op : unop) (a : expr)
| Binary (op : binop) (a b : expr)
| Power (a b : expr)
| Both (a b : expr)
| Either (a b : expr)
| Choose (c a b : expr).

Definition truth (b : bool) : Z := if b then 1 else 0.

Definition unary_result (op : unop) (x : Z) : Z :=
  match op with Negate => signed64 (0 - x) | Not => truth (x =? 0) | Complement => - x - 1 end.

(** Shifts take their count modulo 64; division rounds towards zero, and the remainder has the
    sign of the dividend. *)
Definition binary_result (op : binop) (x y : Z) : option Z :=
  match op with
  | BitOr => Some (Z.lor x y)
  | BitXor => Some (Z.lxor x y)
  | BitAnd => Some (Z.land x y)
  | Equal => Some (truth (x =? y))
  | Unequal => Some (truth (negb (x =? y)))
  | AtMost => Some (truth (x <=? y))
  | AtLeast => Some (truth (y <=? x))
  | Less => Some (truth (x <? y))
  | Greater => Some (truth (y <? x))
  | ShiftLeft => Some (signed64 (x * 2 ^ (y mod 64)))
  | ShiftRight => Some (x / 2 ^ (y mod 64))
  | Plus => Some (signed64 (x + y))
  | Minus => Some (signed64 (x - y))
  | Times => Some (signed64 (x * y))
  | Divide => if y =? 0 then None else Some (signed64 (Z.quot x y))
  | Remainder => if y =? 0 then None else Some (Z.rem x y)
  end.
Definition power_result (x y : Z) : option Z := if y <? 0 then None else Some (signed64 (x ^ y)).

(** The value, [None] when a division by zero or a negative exponent is reached: [&&], [||] and
    [?:] reach an operand only when they need it. *)
Fixpoint value (e : expr) : option Z :=
  match e with
  | Const n => Some (numeral_value n)
  | Unary op a => unary_result op <$> value a
  | Binary op a b => x ← value a; y ← value b; binary_result op x y
  | Power a b => x ← value a; y ← value b; power_result x y
  | Both a b => x ← value a; if x =? 0 then Some 0 else y ← value b; Some (truth (negb (y =? 0)))
  | Either a b => x ← value a; if x =? 0 then y ← value b; Some (truth (negb (y =? 0))) else Some 1
  | Choose c a b => x ← value c; if x =? 0 then value b else value a
  end.

Definition binary_symbol (op : binop) : string :=
  match op with
  | BitOr => "|" | BitXor => "^" | BitAnd => "&" | Equal => "==" | Unequal => "!=" | AtMost => "<=" | AtLeast => ">="
  | Less => "<" | Greater => ">" | ShiftLeft => "<<" | ShiftRight => ">>" | Plus => "+" | Minus => "-" | Times => "*"
  | Divide => "/" | Remainder => "%"
  end.
Definition unary_symbol (op : unop) : string := match op with Negate => "-" | Not => "!" | Complement => "~" end.

(** How tightly an expression binds: [?:] least, constants most. *)
Definition binary_tightness (op : binop) : nat :=
  match op with
  | BitOr => 3 | BitXor => 4 | BitAnd => 5 | Equal | Unequal => 6 | AtMost | AtLeast | Less | Greater => 7
  | ShiftLeft | ShiftRight => 8 | Plus | Minus => 9 | Times | Divide | Remainder => 10
  end.
Definition tightness (e : expr) : nat :=
  match e with
  | Choose _ _ _ => 0 | Either _ _ => 1 | Both _ _ => 2 | Binary op _ _ => binary_tightness op | Power _ _ => 11
  | Unary _ _ => 12 | Const _ => 13
  end.

(** The text of [e] where something that binds at least as tightly as [k] is expected: the rows of
    binary operators associate to the left, [**] to the right. *)
Fixpoint written (k : nat) (e : expr) : list string :=
  parens (bool_decide (tightness e < k)%nat)
    match e with
    | Const n => chars_of (numeral_text n)
    | Unary op a => chars_of (unary_symbol op) ++ written 12 a
    | Binary op a b => written (binary_tightness op) a ++ chars_of (binary_symbol op) ++ written (S (binary_tightness op)) b
    | Power a b => written 12 a ++ chars_of "**" ++ written 11 b
    | Both a b => written 3 a ++ chars_of "&&" ++ written 3 b
    | Either a b => written 2 a ++ chars_of "||" ++ written 2 b
    | Choose c a b => written 1 c ++ "?" :: written 0 a ++ ":" :: written 0 b
    end.

Fixpoint valid (e : expr) : bool :=
  match e with
  | Const n => numeral_ok n
  | Unary _ a => valid a
  | Binary _ a b | Power a b | Both a b | Either a b => valid a && valid b
  | Choose c a b => valid c && valid a && valid b
  end.

(** Levels of nesting: two for an operator, its own and that of a parenthesis around it. *)
Fixpoint nesting (e : expr) : nat :=
  match e with
  | Const _ => 0
  | Unary _ a => 2 + nesting a
  | Binary _ a b | Power a b | Both a b | Either a b => 2 + Nat.max (nesting a) (nesting b)
  | Choose c a b => 2 + Nat.max (nesting c) (Nat.max (nesting a) (nesting b))
  end.

End Grammar.
Import Grammar.

(** *** The evaluator's own terms for it *)

Fixpoint embed (e : expr) : aexpr :=
  match e with
  | Const n => Lit (numeral_text n)
  | Unary op a => Un (unary_symbol op) (embed a)
  | Binary op a b => Bin (binary_symbol op) (embed a) (embed b)
  | Power a b => Pow (embed a) (embed b)
  | Both a b => AndE (embed a) (embed b)
  | Either a b => OrE (embed a) (embed b)
  | Choose c a b => CondE (embed c) (embed a) (embed b)
  end.

Lemma signed64_wrap z : signed64 z = wrap64 z.
Proof.
  unfold signed64, wrap64. change (2 ^ 63) with 9223372036854775808. change (2 ^ 64) with 18446744073709551616.
  pose proof (Z.div_mod z 18446744073709551616 ltac:(done)). pose proof (Z.mod_pos_bound z 18446744073709551616 ltac:(done)).
  destruct (Z.ltb_spec (z mod 18446744073709551616) 9223372036854775808).
  - rewrite <-(Z.mod_unique_pos (z + 9223372036854775808) _ (z / 18446744073709551616) (z mod 18446744073709551616 + 9223372036854775808)); lia.
  - rewrite <-(Z.mod_unique_pos (z + 9223372036854775808) _ (z / 18446744073709551616 + 1) (z mod 18446744073709551616 - 9223372036854775808)); lia.
Qed.

Lemma shift_count_mod y : shift_count y = y mod 64.
Proof.
  unfold shift_count. change 63 with (Z.ones 6). rewrite Z.land_ones by done. change (2 ^ 6) with 64.
  symmetry. apply Znumtheory.Zmod_div_mod; [done|done|]. exists (2 ^ 26). reflexivity.
Qed.

Lemma symbol_level op : level_of (binary_symbol op) = Some (binary_tightness op - 3)%nat ∧ (3 ≤ binary_tightness op)%nat.
Proof. destruct op; (split; [vm_compute; reflexivity|cbn; lia]). Qed.

Lemma binary_result_meaning op x y : in_i64 x → in_i64 y → binary_meaning (binary_symbol op) x y = binary_result op x y.
Proof.
  intros Hx Hy. unfold binary_meaning. destruct op; cbn [binary_symbol binary_result];
    rewrite ?signed64_wrap; try reflexivity.
  - change (apply_op "<<" x y) with (@Ret (result string Z) (Ok (wrap64 (Z.shiftl x (shift_count y))))).
    by rewrite shift_count_mod, Z.shiftl_mul_pow2 by (apply Z.mod_pos_bound; done).
  - change (apply_op ">>" x y) with (@Ret (result string Z) (Ok (Z.shiftr x (shift_count y)))).
    by rewrite shift_count_mod, Z.shiftr_div_pow2 by (apply Z.mod_pos_bound; done).
  - change (apply_op "/" x y) with (if y =? 0 then apply_error "division by 0" else Ret (Ok (wrap64 (Z.quot x y)))).
    by destruct (y =? 0).
  - change (apply_op "%" x y) with (if y =? 0 then apply_error "division by 0" else Ret (Ok (wrap64 (Z.rem x y)))).
    destruct (Z.eqb_spec y 0) as [|Hy0]; [done|]. rewrite wrap64_id; [done|].
    pose proof (Z.rem_bound_abs x y Hy0). unfold in_i64, I64_MIN, I64_MAX in *. lia.
Qed.

Lemma power_result_meaning x y : in_i64 x → in_i64 y → binary_meaning "**" x y = power_result x y.
Proof.
  intros Hx Hy. unfold binary_meaning, power_result.
  change (apply_op "**" x y) with (if y <? 0 then apply_error "exponent less than 0"
    else v ← wrapping_power x y; Ret (@Ok string Z v)).
  destruct (Z.ltb_spec y 0); [done|]. rewrite wrapping_power_ret by (unfold in_i64 in *; lia). by rewrite signed64_wrap.
Qed.

Lemma binary_meaning_range operator x y v : operator ∈ OPERATORS → in_i64 x → in_i64 y → binary_meaning operator x y = Some v → in_i64 v.
Proof.
  intros Ho Hx Hy. unfold binary_meaning. destruct (apply_op_total operator x y Ho Hx Hy) as (r & -> & Hr).
  destruct r; [|done]. by intros [= <-].
Qed.

Lemma binary_known op : binary_symbol op ∈ OPERATORS.
Proof. destruct op; apply (bool_decide_eq_true_1 (_ ∈ OPERATORS)); vm_compute; reflexivity. Qed.

(** *** Constants *)

Definition digit_below (base : Z) (d : Z) : bool := (0 <=? d) && (d <? base).

(** A digit in a base is read as itself, and is a character of a constant. *)
Lemma digit_read base d : 2 ≤ base ≤ 64 → digit_below base d = true →
  constant_digit base (digit d) = Some d ∧ constant_char (String (digit d) "") = true ∧ ascii_char (String (digit d) "") = true ∧
  digit d ≠ "#"%char ∧ (d < 10 → is_ascii_digit (String (digit d) "") = true ∧ digit d ≠ "x"%char ∧ digit d ≠ "X"%char) ∧
  (d ≠ 0 → digit d ≠ "0"%char).
Proof.
  intros Hb [H0 H1]%andb_true_iff. apply Z.leb_le in H0. apply Z.ltb_lt in H1.
  assert (Hall : Forall (λ d, ∀ base, 2 ≤ base ≤ 64 → 0 ≤ d < base →
    constant_digit base (digit d) = Some d ∧ constant_char (String (digit d) "") = true ∧ ascii_char (String (digit d) "") = true ∧
    digit d ≠ "#"%char ∧ (d < 10 → is_ascii_digit (String (digit d) "") = true ∧ digit d ≠ "x"%char ∧ digit d ≠ "X"%char) ∧
    (d ≠ 0 → digit d ≠ "0"%char)) (seqZ 0 64)).
  { repeat (apply Forall_cons; split; [intros b Hb' Hd; split; [|split; [vm_compute; reflexivity|split; [vm_compute; reflexivity|
      split; [discriminate|split; [intros Hten; first [lia|split; [vm_compute; reflexivity|split; discriminate]]|intros ?; first [done|discriminate]]]]]];
      first [vm_compute; reflexivity
        |unfold constant_digit; cbn -[Z.leb]; destruct (Z.leb_spec b 36); [lia|reflexivity]]|]). apply Forall_nil. exact I. }
  rewrite Forall_forall in Hall. apply (Hall d); [apply elem_of_seqZ; lia|lia|lia].
Qed.

Lemma digits_read base ds : 2 ≤ base ≤ 64 → forallb (digit_below base) ds = true →
  digits_of base (digits_text ds) = Some ds ∧ Forall (λ d, d < base) ds ∧
  forallb constant_char (chars_of (digits_text ds)) = true ∧ split_once "#"%char (digits_text ds) = None.
Proof.
  intros Hb. induction ds as [|d ds IH]; [done|]. cbn [forallb]. intros [Hd Hds]%andb_true_iff.
  destruct (IH Hds) as (Hof & Hall & Hch & Hsp). destruct (digit_read base d Hb Hd) as (Hr & Hc & _ & Hs & _).
  cbn [digits_text digits_of chars_of forallb split_once]. rewrite Hr, Hof, Hc, Hch, Hsp, bool_decide_false by done.
  apply andb_true_iff in Hd as [_ Hlt%Z.ltb_lt]. split_and!; [done|by apply Forall_cons|done|done].
Qed.

Lemma value_in_positional base ds : ∀ sum, value_in base ds sum = foldl (λ acc d, acc * base + d) sum ds.
Proof. induction ds as [|d ds IH]; intros sum; [done|]. cbn [value_in foldl]. rewrite IH. f_equal. lia. Qed.

(** The base of a constant, and the digits after its prefix. *)
Lemma numeral_base_text n : numeral_ok n = true →
  2 ≤ numeral_base n ≤ 64 ∧ constant_base (numeral_text n) = Ok (numeral_base n, digits_text (numeral_digits n)).
Proof.
  unfold numeral_ok. intros [[Hall Hne]%andb_true_iff Hform]%andb_true_iff. apply negb_true_iff, bool_decide_eq_false in Hne.
  change (forallb (digit_below (numeral_base n)) (numeral_digits n) = true) in Hall.
  unfold constant_base. destruct n as [ds|ds|ds|base ds]; cbn [numeral_base numeral_digits numeral_text] in *.
  - split; [lia|]. destruct (digits_read 10 ds) as (_ & _ & _ & Hsp); [lia|done|]. rewrite Hsp.
    destruct ds as [|d ds]; [done|]. cbn [forallb] in Hall. apply andb_true_iff in Hall as [Hd Hds].
    destruct (digit_read 10 d) as (_ & _ & _ & _ & _ & Hz); [lia|done|].
    cbn [digits_text]. destruct (decide (d = 0)) as [->|Hd0].
    + destruct ds as [|d' ds]; [by vm_compute|]. apply negb_true_iff, Z.eqb_neq in Hform. done.
    + cbn [strip_prefix]. rewrite bool_decide_false by (specialize (Hz Hd0); congruence).
      unfold starts_with. cbn [strip_prefix]. rewrite (bool_decide_false ("0"%char = digit d)) by (specialize (Hz Hd0); congruence).
      rewrite bool_decide_false by (intros [? ?]; done). by rewrite andb_false_r.
  - split; [lia|]. destruct (digits_read 8 ds) as (_ & _ & _ & Hsp); [lia|done|].
    destruct ds as [|d ds]; [done|]. cbn [forallb] in Hall. apply andb_true_iff in Hall as [Hd Hds].
    destruct (digit_read 8 d) as (_ & _ & _ & _ & Hx & _); [lia|done|].
    destruct Hx as (_ & Hx & HX); [apply andb_true_iff in Hd as [_ Hlt%Z.ltb_lt]; lia|].
    change ("0" +:+ digits_text (d :: ds)) with (String "0" (digits_text (d :: ds))).
    cbn [split_once]. rewrite Hsp, bool_decide_false by done. cbn [mbind option_bind].
    unfold starts_with. cbn [digits_text strip_prefix].
    rewrite bool_decide_true by done. rewrite !(bool_decide_false (_ = digit d)) by congruence.
    rewrite bool_decide_true by (by eexists).
    rewrite (proj2 (Z.ltb_lt 1 _)) by (unfold str_len; cbn [String.length]; lia). done.
  - split; [lia|]. destruct (digits_read 16 ds) as (_ & _ & _ & Hsp); [lia|done|].
    change ("0x" +:+ digits_text ds) with (String "0" (String "x" (digits_text ds))).
    cbn [split_once]. rewrite Hsp, !bool_decide_false by done. cbn [mbind option_bind strip_prefix].
    by rewrite !bool_decide_true by done.
  - apply andb_true_iff in Hform as [Hlo%Z.leb_le Hhi%Z.leb_le]. split; [lia|].
    assert (Hnil : digits_text ds ≠ "") by (by destruct ds).
    assert (Hbases : Forall (λ b, ∀ s, split_once "#"%char (pretty b +:+ "#" +:+ s) = Some (pretty b, s) ∧
      parse_unsigned U32_MAX (pretty b) = Some b) (seqZ 2 63)).
    { repeat (apply Forall_cons; split; [intros s; split; [reflexivity|vm_compute; reflexivity]|]). apply Forall_nil. exact I. }
    rewrite Forall_forall in Hbases. destruct (Hbases base) with (s := digits_text ds) as [-> ->]; [apply elem_of_seqZ; lia|].
    cbn [ok_or mbind result_bind]. rewrite (proj2 (Z.leb_le 2 base)), (proj2 (Z.leb_le base 64)) by done.
    cbn [andb negb]. by rewrite bool_decide_false.
Qed.

Lemma numeral_read n : numeral_ok n = true → parse_constant (numeral_text n) = Ok (numeral_value n).
Proof.
  intros Hn. destruct (numeral_base_text n Hn) as [Hb Hbase]. apply parse_constant_exact.
  exists (numeral_base n), (digits_text (numeral_digits n)), (numeral_digits n).
  unfold numeral_ok in Hn. apply andb_true_iff in Hn as [[Hall _]%andb_true_iff _].
  destruct (digits_read (numeral_base n) (numeral_digits n) Hb Hall) as (Hof & Hlt & _).
  split_and!; [done..|]. unfold numeral_value. by rewrite signed64_wrap, value_in_positional.
Qed.

Lemma collect_chars_of s : collect (chars_of s) = s.
Proof. induction s as [|c s IH]; [done|]. cbn [chars_of]. by rewrite collect_cons, IH. Qed.

(** A constant is characters of constants, and starts with a digit from 0 to 9. *)
Definition constant_text (s : string) : bool :=
  match chars_of s with [] => false | c :: cs => is_ascii_digit c && forallb constant_char (c :: cs) end.

Lemma constant_text_chars s : constant_text s = true → utf8_chars s = chars_of s.
Proof.
  unfold constant_text. intros Hs. rewrite <-(collect_chars_of s) at 1. apply utf8_chars_ascii.
  destruct (chars_of s) as [|c cs]; [done|]. apply andb_true_iff in Hs as [_ Hall].
  apply forallb_forall. intros x Hx. apply constant_char_ascii. by apply (proj1 (forallb_forall _ _) Hall).
Qed.

Lemma chars_of_app a b : chars_of (a +:+ b) = chars_of a ++ chars_of b.
Proof. induction a as [|c a IH]; [done|]. change (chars_of (String c (a +:+ b)) = String c "" :: chars_of a ++ chars_of b). by rewrite <-IH. Qed.

Lemma constant_text_app a b : constant_text a = true → forallb constant_char (chars_of b) = true → constant_text (a +:+ b) = true.
Proof.
  unfold constant_text. rewrite chars_of_app. intros Ha Hb. destruct (chars_of a) as [|c cs]; [done|]. cbn [app].
  apply andb_true_iff in Ha as [-> Ha]. change (c :: cs ++ chars_of b) with ((c :: cs) ++ chars_of b). by rewrite forallb_app, Ha.
Qed.

Lemma numeral_constant n : numeral_ok n = true → constant_text (numeral_text n) = true.
Proof.
  intros Hn. destruct (numeral_base_text n Hn) as [Hb _].
  unfold numeral_ok in Hn. apply andb_true_iff in Hn as [[Hall Hne]%andb_true_iff Hform].
  change (forallb (digit_below (numeral_base n)) (numeral_digits n) = true) in Hall.
  destruct (digits_read _ _ Hb Hall) as (_ & _ & Hch & _).
  destruct n as [ds|ds|ds|base ds]; cbn [numeral_base numeral_digits numeral_text] in *.
  - destruct ds as [|d ds]; [done|]. cbn [forallb] in Hall. apply andb_true_iff in Hall as [Hd _].
    unfold constant_text. cbn [digits_text chars_of] in *. rewrite Hch, andb_true_r.
    destruct (digit_read 10 d) as (_ & _ & _ & _ & Hten & _); [done|done|]. apply andb_true_iff in Hd as [_ Hlt%Z.ltb_lt].
    by apply Hten.
  - by apply constant_text_app.
  - by apply constant_text_app.
  - apply andb_true_iff in Hform as [Hlo%Z.leb_le Hhi%Z.leb_le].
    apply constant_text_app; [|by rewrite chars_of_app, forallb_app, Hch].
    assert (Hbases : Forall (λ b, constant_text (pretty b) = true) (seqZ 2 63)).
    { repeat (apply Forall_cons; split; [vm_compute; reflexivity|]). apply Forall_nil. exact I. }
    rewrite Forall_forall in Hbases. apply (Hbases base), elem_of_seqZ. lia.
Qed.

Lemma numeral_literal n : numeral_ok n = true → literal_ok (numeral_text n) = true.
Proof.
  intros Hn. pose proof (numeral_constant n Hn) as Hc. unfold literal_ok. rewrite (constant_text_chars _ Hc), (numeral_read n Hn).
  unfold constant_text in Hc. destruct (chars_of (numeral_text n)); [done|]. by rewrite Hc.
Qed.

(** *** Expressions *)

Lemma tightness_embed e : prec (embed e) = tightness e.
Proof. destruct e as [|op|op| | | |]; try done. destruct op; vm_compute; reflexivity. Qed.

Lemma written_embed e : valid e = true → ∀ k, written k e = print k (embed e).
Proof.
  induction e as [n|op a IHa|op a IHa b IHb|a IHa b IHb|a IHa b IHb|a IHa b IHb|c IHc a IHa b IHb]; cbn [valid];
    intros Hv k; cbn [written print embed]; rewrite <-tightness_embed; cbn [embed]; f_equal; rewrite ?andb_true_iff in Hv.
  - symmetry. by apply constant_text_chars, numeral_constant.
  - by rewrite IHa.
  - destruct Hv as [Ha Hb]. rewrite <-IHa, <-IHb by done. destruct (symbol_level op) as [-> Hr].
    cbn [default from_option]. unfold id. cbv zeta.
    by replace (3 + (binary_tightness op - 3))%nat with (binary_tightness op) by lia.
  - destruct Hv. by rewrite IHa, IHb.
  - destruct Hv. by rewrite IHa, IHb.
  - destruct Hv. by rewrite IHa, IHb.
  - destruct Hv as [[? ?] ?]. by rewrite IHa, IHb, IHc.
Qed.

Lemma nesting_embed e : depth (embed e) = nesting e.
Proof. induction e; cbn [embed depth nesting]; congruence. Qed.

Lemma valid_embed e : valid e = true → well_formed (embed e) = true.
Proof.
  induction e as [n|op a IHa|op a IHa b IHb|a IHa b IHb|a IHa b IHb|a IHa b IHb|c IHc a IHa b IHb]; cbn [valid embed well_formed];
    rewrite ?andb_true_iff.
  - apply numeral_literal.
  - intros Ha. split; [destruct op; vm_compute; reflexivity|auto].
  - intros [Ha Hb]. destruct (symbol_level op) as [Hl _]. split; [|auto]. split; [|auto]. rewrite Hl. by apply bool_decide_eq_true_2.
  - intros [Ha Hb]. auto.
  - intros [Ha Hb]. auto.
  - intros [Ha Hb]. auto.
  - intros [[Hc Ha] Hb]. auto.
Qed.

Lemma truth_range b : in_i64 (truth b).
Proof. destruct b; apply in_i64_small; cbn; lia. Qed.

Lemma unary_embed op x : Arith.unary_value (unary_symbol op) x = unary_result op x.
Proof.
  destruct op.
  - change (wrap64 (- x) = signed64 (0 - x)). by rewrite signed64_wrap.
  - reflexivity.
  - change (Z.lnot x = - x - 1). unfold Z.lnot. lia.
Qed.

(** The reference and the evaluator's terms mean the same, and it is a 64-bit integer. *)
Lemma value_embed e : valid e = true → ∀ v, value e = Some v → denote (embed e) = Some v ∧ in_i64 v.
Proof.
  induction e as [n|op a IHa|op a IHa b IHb|a IHa b IHb|a IHa b IHb|a IHa b IHb|c IHc a IHa b IHb];
    cbn [valid value embed denote]; rewrite ?andb_true_iff.
  - intros Hn v [= <-]. rewrite (numeral_read n Hn). split; [done|]. unfold numeral_value. rewrite signed64_wrap. apply wrap64_range.
  - intros Ha v. destruct (value a) as [x|]; [|done]. destruct (IHa Ha x eq_refl) as [-> Hx]. cbn. intros [= <-].
    rewrite unary_embed. split; [done|]. rewrite <-unary_embed. by apply unary_value_range.
  - intros [Ha Hb] v. destruct (value a) as [x|]; [|done]. destruct (IHa Ha x eq_refl) as [-> Hx]. cbn.
    destruct (value b) as [y|]; [|done]. destruct (IHb Hb y eq_refl) as [-> Hy]. cbn.
    rewrite <-binary_result_meaning by done. intros Hv. split; [done|]. eapply binary_meaning_range; [apply (binary_known op)|exact Hx|exact Hy|exact Hv].
  - intros [Ha Hb] v. destruct (value a) as [x|]; [|done]. destruct (IHa Ha x eq_refl) as [-> Hx]. cbn.
    destruct (value b) as [y|]; [|done]. destruct (IHb Hb y eq_refl) as [-> Hy]. cbn.
    rewrite <-power_result_meaning by done. intros Hv. split; [done|]. eapply binary_meaning_range; [|exact Hx|exact Hy|exact Hv].
    apply (bool_decide_eq_true_1 (_ ∈ OPERATORS)). vm_compute. reflexivity.
  - intros [Ha Hb] v. destruct (value a) as [x|]; [|done]. destruct (IHa Ha x eq_refl) as [-> Hx]. cbn.
    destruct (x =? 0); [intros [= <-]; split; [done|apply (truth_range false)]|].
    destruct (value b) as [y|]; [|done]. destruct (IHb Hb y eq_refl) as [-> Hy]. cbn. intros [= <-]. split; [done|apply truth_range].
  - intros [Ha Hb] v. destruct (value a) as [x|]; [|done]. destruct (IHa Ha x eq_refl) as [-> Hx]. cbn.
    destruct (x =? 0); [|intros [= <-]; split; [done|apply (truth_range true)]].
    destruct (value b) as [y|]; [|done]. destruct (IHb Hb y eq_refl) as [-> Hy]. cbn. intros [= <-]. split; [done|apply truth_range].
  - intros [[Hc Ha] Hb] v. destruct (value c) as [x|]; [|done]. destruct (IHc Hc x eq_refl) as [-> Hx]. cbn.
    destruct (x =? 0); auto.
Qed.


