(* ===== verification/Lexer.v ===== *)
(** * The shell lexer (src/src/shell.rs)

    A cursor over the characters of the source that appends tokens. An error does not stop the
    lexer: the first one is kept and reported at the end. The loops whose rounds only advance by
    one character are functions of the characters from the cursor on; the others are [loop]s
    whose fuel [lex_fuel] follows the characters left. *)

From S2P Require Import Prelude.
From S2P Require Import State.
From S2P Require Import RustStr.
From S2P Require Import Syntax.

Record Lexer := MkLexer {
  lx_i : nat;
  lx_toks : list Tok;
  lx_in_double_bracket : bool;
  lx_heredocs_complete : bool;
  lx_error : option ShellError
}.

Definition lexer_new : Lexer := MkLexer 0 [] false true None.

Abbreviation lex := (stm Lexer).

(** ** Runs of characters *)

(** Up to and including the closing [quote], and whether it was found. *)
Fixpoint until_quote (quote : string) (l : list string) : list string * bool :=
  match l with
  | [] => ([], false)
  | n :: l =>
      if bool_decide (n = quote) then ([n], true)
      else let '(text, closed) := until_quote quote l in (n :: text, closed)
  end.

(** The same for a double quote, where a backslash takes the next character with it. *)
Fixpoint until_dquote (l : list string) : list string * bool :=
  match l with
  | [] => ([], false)
  | n :: l =>
      if bool_decide (n = "\") then
        match l with
        | [] => ([n], false)
        | m :: l => let '(text, closed) := until_dquote l in (n :: m :: text, closed)
        end
      else if bool_decide (n = dquote) then ([n], true)
      else let '(text, closed) := until_dquote l in (n :: text, closed)
  end.

(** Up to and including the [)] that brings [depth] to 0, and the depth reached. *)
Fixpoint until_balanced (depth : Z) (l : list string) : list string * Z :=
  match l with
  | [] => ([], depth)
  | c :: l =>
      let depth :=
        if bool_decide (c = "(") then depth + 1 else if bool_decide (c = ")") then depth - 1 else depth in
      if bool_decide (c = ")") && (depth =? 0) then ([c], depth)
      else let '(text, depth) := until_balanced depth l in (c :: text, depth)
  end.

(** The expression before the matching [))], and whether there is one. *)
Fixpoint until_arithmetic_end (depth : nat) (l : list string) : list string * bool :=
  match l with
  | [] => ([], false)
  | a :: l =>
      match l with
      | b :: l' =>
          if bool_decide (a = "(") && bool_decide (b = "(") then
            let '(text, closed) := until_arithmetic_end (S depth) l' in (a :: b :: text, closed)
          else if bool_decide (a = ")") && bool_decide (b = ")") then
            match depth with
            | S (S _ as depth) => let '(text, closed) := until_arithmetic_end depth l' in (a :: b :: text, closed)
            | _ => ([], true)
            end
          else let '(text, closed) := until_arithmetic_end depth l in (a :: text, closed)
      | [] => ([a], false)
      end
  end.

Definition is_blank (c : string) : bool := bool_decide (c = " ") || bool_decide (c = tab).
Definition is_newline (c : string) : bool := bool_decide (c = newline).
Definition is_space (c : string) : bool := is_blank c || is_newline c.

(** The characters that end an unquoted word. *)
Definition ends_word (c : string) : bool :=
  bool_decide (c ∈ [" "; tab; newline; ";"; "&"; "|"; "("; ")"; "<"; ">"]).
Definition ends_delim (c : string) : bool :=
  bool_decide (c ∈ [" "; tab; newline; ";"; "&"; "|"; "<"; ">"]).
Definition name_start (c : string) : bool := is_ascii_alphabetic c || bool_decide (c = "_").
Definition name_char (c : string) : bool := is_ascii_alphanumeric c || bool_decide (c = "_").

Section lexer.
(** The characters of the source. *)
Context (chars : list string).

Definition rest (s : Lexer) : list string := drop (lx_i s) chars.
Definition peek (s : Lexer) : option string := chars !! lx_i s.
Definition at_ (o : nat) (s : Lexer) : option string := chars !! (lx_i s + o)%nat.
Definition at_is (o : nat) (c : string) (s : Lexer) : bool := bool_decide (at_ o s = Some c).
Definition peek_is (c : string) (s : Lexer) : bool := bool_decide (peek s = Some c).

(** [self.i = position], [self.i += n], [self.toks.push(token)]. *)
Definition seek (position : nat) : lex unit := modify (λ s,
  MkLexer position (lx_toks s) (lx_in_double_bracket s) (lx_heredocs_complete s) (lx_error s)).
Definition advance (n : nat) : lex unit := i ← gets lx_i; seek (i + n).
Definition push (token : Tok) : lex unit := modify (λ s,
  MkLexer (lx_i s) (lx_toks s ++ [token]) (lx_in_double_bracket s) (lx_heredocs_complete s) (lx_error s)).
Definition set_double_bracket (b : bool) : lex unit := modify (λ s,
  MkLexer (lx_i s) (lx_toks s) b (lx_heredocs_complete s) (lx_error s)).
Definition heredoc_incomplete : lex unit := modify (λ s,
  MkLexer (lx_i s) (lx_toks s) (lx_in_double_bracket s) false (lx_error s)).
(** [self.error.get_or_insert(error)]. *)
Definition report (error : ShellError) : lex unit := modify (λ s,
  MkLexer (lx_i s) (lx_toks s) (lx_in_double_bracket s) (lx_heredocs_complete s)
    (Some (default error (lx_error s)))).
(** [self.toks[index] = token]. *)
Definition set_token (index : nat) (token : Tok) : lex unit :=
  count ← gets (λ s, length (lx_toks s));
  if bool_decide (index < count)%nat then
    modify (λ s, MkLexer (lx_i s) (<[index := token]> (lx_toks s)) (lx_in_double_bracket s)
                   (lx_heredocs_complete s) (lx_error s))
  else panic.

(** Enough rounds for a loop that advances, with one round in two that may not. *)
Definition lex_fuel (s : Lexer) : nat := S (S (2 * (length chars - lx_i s))).
Definition while_ {A} (body : A → lex (A * bool)) (a : A) : lex A := λ s, loop (lex_fuel s) body a s.

(** Take the characters [run] reads from the cursor on. *)
Definition take_run (run : list string → list string) : lex (list string) :=
  text ← gets (λ s, run (rest s)); _ ← advance (length text); mret text.
Definition take_flagged {B} (run : list string → list string * B) : lex (list string * B) :=
  r ← gets (λ s, run (rest s)); _ ← advance (length r.1); mret r.

(** ** Reading words *)

Definition fd_redirect_len (s : Lexer) : option nat :=
  let digits := length (take_while is_ascii_digit (rest s)) in
  if bool_decide (0 < digits)%nat && (at_is digits "<" s || at_is digits ">" s) then Some digits else None.

Definition prev_is_boundary (s : Lexer) : bool :=
  match lx_i s with
  | O => true
  | S i =>
      match chars !! i with
      | Some c => bool_decide (c ∈ [" "; tab; newline; ";"; "&"; "|"; "("])
      | None => false
      end
  end.

Definition read_descriptor_target : lex string :=
  dash ← gets (peek_is "-");
  if dash : bool then _ ← advance 1; mret "-"
  else digits ← take_run (take_while is_ascii_digit); mret (collect digits).

Definition read_arithmetic_command : lex string :=
  _ ← advance 2;
  '(text, closed) ← take_flagged (until_arithmetic_end 1);
  _ ← (if closed : bool then advance 2 else report (UnexpectedEof "`))`"));
  mret (collect text).

Definition read_balanced_paren : lex (list string) :=
  '(out, depth) ← take_flagged (until_balanced 0);
  _ ← (if negb (depth =? 0) then report (UnexpectedEof "`)`") else mret tt);
  mret out.

(** One round of the loop over the group: what it takes, and [depth] after it. *)
Definition balanced_quoted_step (acc : list string * Z) : lex ((list string * Z) * bool) :=
  let '(out, depth) := acc in
  c ← gets peek;
  match c with
  | None => mret (acc, false)
  | Some c =>
      _ ← advance 1;
      let out := out ++ [c] in
      if bool_decide (c = "'") then
        '(text, _) ← take_flagged (until_quote "'"); mret ((out ++ text, depth), true)
      else if bool_decide (c = dquote) then
        '(text, _) ← take_flagged until_dquote; mret ((out ++ text, depth), true)
      else if bool_decide (c = "\") then
        text ← take_run (take 1); mret ((out ++ text, depth), true)
      else if bool_decide (c = "(") then mret ((out, depth + 1), true)
      else if bool_decide (c = ")") then mret ((out, depth - 1), negb (depth - 1 =? 0))
      else mret ((out, depth), true)
  end.

Definition read_balanced_paren_quoted : lex (list string) :=
  '(out, depth) ← while_ balanced_quoted_step ([], 0);
  _ ← (if negb (depth =? 0) then report (UnexpectedEof "`)`") else mret tt);
  mret out.

(** The length of [name=] or [name+=] at the cursor, when a [(] follows it. *)
Definition array_prefix_len (s : Lexer) : option nat :=
  match rest s with
  | [] => None
  | c :: _ =>
      if negb (name_start c) then None
      else
        let j := length (take_while name_char (rest s)) in
        let after :=
          if at_is j "+" s && at_is (S j) "=" s then Some (S (S j))
          else if at_is j "=" s then Some (S j) else None in
        j ← after; if at_is j "(" s then Some j else None
  end.

Definition try_array_assign_prefix : lex (option (list string)) :=
  found ← gets array_prefix_len;
  match found with
  | None => mret None
  | Some j =>
      prefix ← take_run (take j);
      parens ← read_balanced_paren_quoted;
      mret (Some (prefix ++ parens))
  end.

(** A quoted part of a word, after its opening character. *)
Definition quoted_part (quote : string) (run : list string → list string * bool) : lex (list string) :=
  '(text, closed) ← take_flagged run;
  _ ← (if closed : bool then mret tt else report (UnclosedQuote quote));
  mret text.

Definition read_word_step (w : list string) : lex (list string * bool) :=
  c ← gets peek;
  match c with
  | None => mret (w, false)
  | Some c =>
      dollar ← gets (at_is 1 "(");
      if ends_word c then mret (w, false)
      else
        _ ← advance 1;
        let w := w ++ [c] in
        if bool_decide (c = "\") then text ← take_run (take 1); mret (w ++ text, true)
        else if bool_decide (c = "'") then text ← quoted_part c (until_quote c); mret (w ++ text, true)
        else if bool_decide (c = dquote) then text ← quoted_part c until_dquote; mret (w ++ text, true)
        else if bool_decide (c = "$") && dollar then text ← read_balanced_paren; mret (w ++ text, true)
        else if bool_decide (c = "`") then text ← quoted_part c (until_quote c); mret (w ++ text, true)
        else mret (w, true)
  end.

Definition read_word : lex string :=
  prefix ← try_array_assign_prefix;
  w ← while_ read_word_step (default [] prefix);
  mret (collect w).

Definition regex_step (word : list string) : lex (list string * bool) :=
  c ← gets peek;
  match c with
  | None => mret (word, false)
  | Some c =>
      closing ← gets (at_is 1 "]");
      if is_space c then mret (word, false)
      else if bool_decide (c = "]") && closing then mret (word, false)
      else
        _ ← advance 1;
        if bool_decide (c = "\") then text ← take_run (take 1); mret (word ++ c :: text, true)
        else mret (word ++ [c], true)
  end.

Definition read_double_bracket_regex : lex string :=
  word ← while_ regex_step []; mret (collect word).

(** ** Here-documents *)

Definition heredoc_delim_step (acc : list string * bool) : lex ((list string * bool) * bool) :=
  let '(delim, quoted) := acc in
  c ← gets peek;
  match c with
  | None => mret (acc, false)
  | Some c =>
      if bool_decide (c = "'") || bool_decide (c = dquote) then
        _ ← advance 1;
        '(text, closed) ← take_flagged (until_quote c);
        mret ((delim ++ (if closed : bool then take (pred (length text)) text else text), true), true)
      else if ends_delim c then mret (acc, false)
      else _ ← advance 1; mret ((delim ++ [c], quoted), true)
  end.

Definition read_heredoc_delim : lex (string * bool) :=
  '(delim, quoted) ← while_ heredoc_delim_step ([], false); mret (collect delim, quoted).

(** One line of the body: [body] with it, or the end at the delimiter or the end of the source. *)
Definition heredoc_body_step (dashed : bool) (delim : string) (body : string) : lex (string * bool) :=
  line ← take_run (take_while (λ c, negb (is_newline c)));
  had_nl ← gets (peek_is newline);
  _ ← (if had_nl : bool then advance 1 else mret tt);
  let line := collect (if dashed then drop_while (λ c, bool_decide (c = tab)) line else line) in
  if bool_decide (line = delim) then mret (body, false)
  else
    at_end ← gets (λ s, bool_decide (length chars ≤ lx_i s)%nat);
    let body := body +:+ line +:+ newline in
    if negb had_nl && at_end then _ ← heredoc_incomplete; mret (body, false)
    else mret (body, true).

Definition read_heredoc_body (delim_enc : string) : lex string :=
  let '(dashed, delim) :=
    match strip_prefix (tab +:+ "-") delim_enc with
    | Some rest => (true, rest)
    | None => (false, delim_enc)
    end in
  while_ (heredoc_body_step dashed delim) "".

Definition Pending : Type := list (string * bool * nat).

(** Read the bodies of the queued here-documents, in order. *)
Fixpoint resolve_heredocs (queued : Pending) : lex unit :=
  match queued with
  | [] => mret tt
  | (delim, quoted, idx) :: queued =>
      body ← read_heredoc_body delim;
      _ ← set_token idx (THeredoc body quoted);
      resolve_heredocs queued
  end.

(** ** Tokens *)

Definition lex_regex : lex unit :=
  pattern ← read_double_bracket_regex;
  push (TWord (if starts_with "'" pattern || starts_with dquote pattern then pattern
               else dquote +:+ pattern +:+ dquote)).

Definition lex_semicolon : lex unit :=
  double ← gets (at_is 1 ";");
  if double : bool then _ ← push (TOp ";;"); advance 2 else _ ← push (TOp ";"); advance 1.

Definition lex_ampersand : lex unit :=
  inside ← gets lx_in_double_bracket;
  double ← gets (at_is 1 "&");
  great ← gets (at_is 1 ">");
  append ← gets (at_is 2 ">");
  if inside : bool then
    let word := if double : bool then "&&" else "&" in
    _ ← advance (String.length word); push (TWord word)
  else if double : bool then _ ← push (TOp "&&"); advance 2
  else if great : bool then
    _ ← advance (if append : bool then 3 else 2);
    push (TRedirFd 1 (if append : bool then "&>>" else "&>"))
  else _ ← push (TOp "&"); advance 1.

Definition lex_bar : lex unit :=
  inside ← gets lx_in_double_bracket;
  double ← gets (at_is 1 "|");
  amp ← gets (at_is 1 "&");
  if inside : bool then
    let word := if double : bool then "||" else "|" in
    _ ← advance (String.length word); push (TWord word)
  else if double : bool then _ ← push (TOp "||"); advance 2
  else if amp : bool then _ ← push (TOp "|&"); advance 2
  else _ ← push (TOp "|"); advance 1.

Definition lex_open : lex unit :=
  inside ← gets lx_in_double_bracket;
  double ← gets (at_is 1 "(");
  if inside : bool then _ ← push (TWord "("); advance 1
  else if double : bool then expression ← read_arithmetic_command; push (TArithmetic expression)
  else _ ← push (TOp "("); advance 1.

Definition lex_close : lex unit :=
  inside ← gets lx_in_double_bracket;
  _ ← push (if inside : bool then TWord ")" else TOp ")"); advance 1.

(** [<<word] or [<<-word]: the token is a placeholder until the body is read. *)
Definition lex_heredoc (pending : Pending) : lex Pending :=
  dashed ← gets (at_is 2 "-");
  _ ← advance (if dashed : bool then 3 else 2);
  _ ← take_run (take_while is_blank);
  '(delim, quoted) ← read_heredoc_delim;
  idx ← gets (λ s, length (lx_toks s));
  _ ← push (THeredoc "" quoted);
  mret (pending ++ [(if dashed : bool then tab +:+ "-" +:+ delim else delim, quoted, idx)]).

Definition lex_less (pending : Pending) : lex Pending :=
  inside ← gets lx_in_double_bracket;
  open ← gets (at_is 1 "(");
  amp ← gets (at_is 1 "&");
  great ← gets (at_is 1 ">");
  less ← gets (at_is 1 "<");
  less2 ← gets (at_is 2 "<");
  if inside : bool then _ ← push (TWord "<"); _ ← advance 1; mret pending
  else if open : bool then
    _ ← advance 1; group ← read_balanced_paren; _ ← push (TWord ("<" +:+ collect group)); mret pending
  else if amp : bool then
    _ ← advance 2; target ← read_descriptor_target; _ ← push (TRedirFd 0 ("<&" +:+ target)); mret pending
  else if great : bool then _ ← advance 2; _ ← push (TRedirFd 0 "<>"); mret pending
  else if less && less2 then
    _ ← advance 3; _ ← take_run (take_while is_blank); word ← read_word; _ ← push (THereString word);
    mret pending
  else if less : bool then lex_heredoc pending
  else _ ← push TLess; _ ← advance 1; mret pending.

Definition lex_great : lex unit :=
  inside ← gets lx_in_double_bracket;
  open ← gets (at_is 1 "(");
  great ← gets (at_is 1 ">");
  bar ← gets (at_is 1 "|");
  amp ← gets (at_is 1 "&");
  if inside : bool then _ ← push (TWord ">"); advance 1
  else if open : bool then _ ← advance 1; group ← read_balanced_paren; push (TWord (">" +:+ collect group))
  else if great : bool then _ ← push TDGreat; advance 2
  else if bar : bool then _ ← push TGreat; advance 2
  else if amp : bool then
    _ ← advance 2;
    dash ← gets (peek_is "-");
    if dash : bool then _ ← advance 1; push TCloseOut
    else n ← take_run (take_while is_ascii_digit); push (TGreatAmp (default 1 (parse_i32 (collect n))))
  else _ ← push TGreat; advance 1.

(** The operator of a redirect of [fd], and what belongs to it. *)
Definition lex_fd_operator (fd : Z) : lex unit :=
  great ← gets (peek_is ">");
  if great : bool then
    great2 ← gets (at_is 1 ">");
    amp ← gets (at_is 1 "&");
    if great2 : bool then _ ← advance 2; push (TRedirFd fd ">>")
    else if amp : bool then
      _ ← advance 2;
      dash ← gets (peek_is "-");
      if dash : bool then _ ← advance 1; push (TRedirFd fd ">&-")
      else n ← take_run (take_while is_ascii_digit); push (TRedirFd fd (">&" +:+ collect n))
    else _ ← advance 1; push (TRedirFd fd ">")
  else
    _ ← advance 1;
    amp ← gets (peek_is "&");
    great ← gets (peek_is ">");
    if amp : bool then
      _ ← advance 1; target ← read_descriptor_target; push (TRedirFd fd ("<&" +:+ target))
    else if great : bool then _ ← advance 1; push (TRedirFd fd "<>")
    else push (TRedirFd fd "<").

(** A redirect with a descriptor number of [digits] digits in front. *)
Definition lex_fd_redirect (digits : nat) : lex unit :=
  number ← take_run (take digits);
  lex_fd_operator (default (-1) (parse_i32 (collect number))).

Definition lex_word : lex unit :=
  w ← read_word;
  inside ← gets lx_in_double_bracket;
  _ ← (if bool_decide (w = "[[") then set_double_bracket true
       else if bool_decide (w = "]]") && inside then set_double_bracket false else mret tt);
  push (TWord w).

Definition after_regex_operator (s : Lexer) : bool :=
  lx_in_double_bracket s && bool_decide (last (lx_toks s) = Some (TWord "=~")).

(** One round of the main loop. *)
Definition tokenize_step (pending : Pending) : lex (Pending * bool) :=
  c ← gets peek;
  match c with
  | None => mret (pending, false)
  | Some c =>
      regex ← gets after_regex_operator;
      newline_next ← gets (at_is 1 newline);
      boundary ← gets prev_is_boundary;
      redirect ← gets fd_redirect_len;
      let go (m : lex unit) := _ ← m; mret (pending, true) in
      if regex && negb (is_space c) then go lex_regex
      else if is_blank c then go (advance 1)
      else if bool_decide (c = "\") && newline_next then go (advance 2)
      else if is_newline c then
        _ ← advance 1; _ ← resolve_heredocs pending; _ ← push (TOp newline); mret ([], true)
      else if bool_decide (c = "#") && boundary then
        go (_ ← take_run (take_while (λ c, negb (is_newline c))); mret tt)
      else if bool_decide (c = ";") then go lex_semicolon
      else if bool_decide (c = "&") then go lex_ampersand
      else if bool_decide (c = "|") then go lex_bar
      else if bool_decide (c = "(") then go lex_open
      else if bool_decide (c = ")") then go lex_close
      else if bool_decide (c = "<") then pending ← lex_less pending; mret (pending, true)
      else if bool_decide (c = ">") then go lex_great
      else match redirect with
           | Some digits => if is_ascii_digit c then go (lex_fd_redirect digits) else go lex_word
           | None => go lex_word
           end
  end.

Definition tokenize_loop : lex unit :=
  pending ← while_ tokenize_step [];
  _ ← resolve_heredocs pending;
  inside ← gets lx_in_double_bracket;
  _ ← (if inside : bool then report (UnexpectedEof "`]]`") else mret tt);
  push TEof.

End lexer.

(** [Lexer::new(src).tokenize()]: the tokens, whether every here-document is complete, and the
    first error. *)
Definition tokenize (src : string) : run (list Tok * bool * option ShellError) :=
  '(s, _) ← tokenize_loop (utf8_chars src) lexer_new;
  Ret (lx_toks s, lx_heredocs_complete s, lx_error s).

Definition heredocs_complete (src : string) : run bool :=
  '(_, complete, _) ← tokenize src; Ret complete.
