(* ===== verification/LexerSpec.v ===== *)
(** * The lexer always returns

    Every reading function moves the cursor forward and leaves the tokens alone; the main loop
    ends with tokens of the shape the parser relies on, the last of them the only end of file. *)

From S2P Require Import Prelude.
From S2P Require Import State.
From S2P Require Import RustStr.
From S2P Require Import Syntax.
From S2P Require Import Lexer.

(** ** What the lexer emits *)

Definition OPERATORS : list string := [newline; ";"; ";;"; "&"; "&&"; "|"; "||"; "|&"; "("; ")"].

(** The operator of a redirect with a descriptor. *)
Definition fd_operator (op : string) : Prop :=
  op ∈ ["&>"; "&>>"; ">"; ">>"; "<"; "<>"; ">&-"; "<&-"] ∨
  ∃ digits, forallb is_ascii_digit digits = true ∧ (op = ">&" +:+ collect digits ∨ op = "<&" +:+ collect digits).

Definition fd_range (fd : Z) : Prop := -1 ≤ fd ≤ 2147483647.

Definition tok_ok (t : Tok) : Prop :=
  match t with
  | TOp o => o ∈ OPERATORS
  | TRedirFd fd op => fd_range fd ∧ fd_operator op
  | TGreatAmp fd => fd_range fd
  | TEof => False
  | _ => True
  end.

(** ** Runs of characters *)

Lemma until_quote_length q l : (length (until_quote q l).1 ≤ length l)%nat.
Proof.
  induction l as [|n l IH]; [done|]. simpl. case_bool_decide; [simpl; lia|].
  destruct (until_quote q l); simpl in *; lia.
Qed.

Lemma take_while_forallb {A} (p : A → bool) l : forallb p (take_while p l) = true.
Proof. induction l as [|x l IH]; [done|]. simpl. destruct (p x) eqn:Hp; [|done]. simpl. by rewrite Hp. Qed.

Lemma decimal_value_nonneg s acc v : 0 ≤ acc → decimal_value s acc = Some v → 0 ≤ v.
Proof.
  revert acc. induction s as [|c s IH]; simpl; intros acc Hacc; [by intros [= <-]|].
  unfold digit_value, digit_code, in_range. destruct (_ && _) eqn:Hd; [|done]. simpl.
  apply andb_true_iff in Hd as [Hlo%N.leb_le _]. apply IH. lia.
Qed.

Lemma parse_i32_digits ds v :
  forallb is_ascii_digit ds = true → parse_i32 (collect ds) = Some v → fd_range v.
Proof.
  intros Hds. unfold parse_i32, parse_signed, fd_range.
  destruct (match collect ds with String _ _ => _ | _ => _ end) as [sign digits] eqn:Hs.
  assert (sign = 1) as ->.
  { destruct ds as [|d ds]; [by simplify_eq/=|]. cbn [forallb] in Hds.
    apply andb_true_iff in Hds as [Hd _]. rewrite collect_cons in Hs.
    unfold is_ascii_digit, code_is, char_code in Hd. destruct d as [|b [|]]; try done.
    rewrite append_cons, append_nil_l in Hs.
    assert (b ≠ "+"%char ∧ b ≠ "-"%char) as [Hp Hm] by (by split; intros ->).
    rewrite !bool_decide_eq_false_2 in Hs by done. by simplify_eq. }
  destruct (decimal digits) as [v'|] eqn:Hv; [|done]. cbn [mbind option_bind]. rewrite Z.mul_1_l.
  destruct (_ && _) eqn:Hr; [|done]. intros [= <-]. bool_to_prop.
  unfold decimal in Hv. destruct digits as [|b digits']; [done|]. apply decimal_value_nonneg in Hv; lia.
Qed.

(** ** Moving the cursor *)

Section spec.
Context (chars : list string).

Definition moved (n : nat) (s : Lexer) : Lexer :=
  MkLexer (lx_i s + n) (lx_toks s) (lx_in_double_bracket s) (lx_heredocs_complete s) (lx_error s).

(** [s'] is [s] after reading: the cursor is further on and the tokens are the same. *)
Record reads_on (s s' : Lexer) : Prop := {
  on_i : (lx_i s ≤ lx_i s')%nat;
  on_toks : lx_toks s' = lx_toks s;
  on_bracket : lx_in_double_bracket s' = lx_in_double_bracket s
}.

#[global] Instance reads_on_preorder : PreOrder reads_on.
Proof.
  split; [by intros s; split|]. intros s1 s2 s3 [? ? ?] [? ? ?]. split; [lia|congruence..].
Qed.

Lemma moved_reads_on n s : reads_on s (moved n s).
Proof. split; simpl; [lia|done..]. Qed.

Lemma wp_advance n s Q : Q tt (moved n s) → wp (advance n) s Q.
Proof. intros HQ. unfold advance. apply wp_bind, wp_gets, wp_modify. exact HQ. Qed.

Lemma wp_take_run f s Q : Q (f (rest chars s)) (moved (length (f (rest chars s))) s) → wp (take_run chars f) s Q.
Proof.
  intros HQ. unfold take_run. apply wp_bind, wp_gets, wp_bind, wp_advance, wp_ret. exact HQ.
Qed.

Lemma wp_take_flagged {B} (f : list string → list string * B) s Q :
  Q (f (rest chars s)) (moved (length (f (rest chars s)).1) s) → wp (take_flagged chars f) s Q.
Proof.
  intros HQ. unfold take_flagged. apply wp_bind, wp_gets, wp_bind, wp_advance, wp_ret. exact HQ.
Qed.

Lemma reported_reads_on e s : wp (report e) s (λ _ s', reads_on s s').
Proof. apply wp_modify. by split. Qed.

(** The rule of the lexer's loops: a round that goes on starts inside the source and advances. *)
Lemma wp_while {A} (I : A → Lexer → Prop) (body : A → lex (A * bool)) a s Q :
  (∀ a s, I a s → wp (body a) s (λ r s',
     if r.2 : bool then I r.1 s' ∧ (lx_i s < length chars)%nat ∧ (lx_i s < lx_i s')%nat else Q r.1 s')) →
  I a s → wp (while_ chars body a) s Q.
Proof.
  intros Hbody HI. unfold while_.
  enough (wp (loop (lex_fuel chars s) body a) s Q) as H by exact H.
  apply (wp_loop I (λ _ s, length chars - lx_i s)%nat); [|done|unfold lex_fuel; lia].
  intros a' s' HI'. eapply wp_mono; [by apply Hbody|]. intros [b []] s'' H; simpl in *; [|done].
  destruct H as (? & ? & ?). split; [done|lia].
Qed.

Lemma peek_inside c s : peek chars s = Some c → (lx_i s < length chars)%nat.
Proof. apply lookup_lt_Some. Qed.

Lemma peek_rest s : peek chars s = head (rest chars s).
Proof. unfold peek, rest. by rewrite head_lookup, lookup_drop, Nat.add_0_r. Qed.

(** Close a goal that reading went on from the start. *)
Ltac on := simpl; first [done | split; simpl; first [done | lia]].

Definition after (s : Lexer) {A} : A → Lexer → Prop := λ _ s', reads_on s s'.

Lemma read_descriptor_target_spec s :
  wp (read_descriptor_target chars) s (λ target s', reads_on s s' ∧
    (target = "-" ∨ ∃ ds, forallb is_ascii_digit ds = true ∧ target = collect ds)).
Proof.
  unfold read_descriptor_target. apply wp_bind, wp_gets. case_match.
  - apply wp_bind, wp_advance, wp_ret. split; [on|by left].
  - apply wp_bind, wp_take_run, wp_ret. split; [on|]. right. eauto using take_while_forallb.
Qed.

Lemma read_arithmetic_command_spec s :
  wp (read_arithmetic_command chars) s (λ _ s', reads_on s s' ∧ (lx_i s < lx_i s')%nat).
Proof.
  unfold read_arithmetic_command. apply wp_bind, wp_advance, wp_bind, wp_take_flagged.
  destruct (until_arithmetic_end _ _) as [text closed]. apply wp_bind.
  destruct closed; [apply wp_advance|apply wp_modify]; apply wp_ret; (split; [on|simpl; lia]).
Qed.

Lemma read_balanced_paren_spec s : wp (read_balanced_paren chars) s (after s).
Proof.
  unfold read_balanced_paren. apply wp_bind, wp_take_flagged. destruct (until_balanced _ _) as [out depth].
  apply wp_bind. case_match; [apply wp_modify|apply wp_ret]; apply wp_ret; unfold after; on.
Qed.

Lemma balanced_quoted_round acc s :
  wp (balanced_quoted_step chars acc) s (λ r s',
    reads_on s s' ∧ (if r.2 : bool then (lx_i s < length chars)%nat ∧ (lx_i s < lx_i s')%nat else True)).
Proof.
  destruct acc as [out depth]. unfold balanced_quoted_step. apply wp_bind, wp_gets.
  destruct (peek chars s) as [c|] eqn:Hc; [|by apply wp_ret]. apply peek_inside in Hc.
  apply wp_bind, wp_advance. repeat case_match; try (apply wp_ret; simpl; split; [on|try case_match; simpl; lia]).
  - apply wp_bind, wp_take_flagged. destruct (until_quote _ _). apply wp_ret. simpl. split; [on|simpl; lia].
  - apply wp_bind, wp_take_flagged. destruct (until_dquote _). apply wp_ret. simpl. split; [on|simpl; lia].
Qed.

Lemma read_balanced_paren_quoted_spec s : wp (read_balanced_paren_quoted chars) s (after s).
Proof.
  unfold read_balanced_paren_quoted. apply wp_bind. apply (wp_while (λ _, reads_on s)); [|on].
  intros acc s1 Hs1. eapply wp_mono; [apply balanced_quoted_round|]. intros [[out depth] []] s2; simpl.
  - intros (? & ? & ?). split; [by etrans|done].
  - intros [Hs2 _]. apply wp_bind. case_match; [apply wp_modify|apply wp_ret]; apply wp_ret; unfold after;
      (etrans; [exact Hs1|]); (etrans; [exact Hs2|]); on.
Qed.

Lemma array_prefix_positive s j : array_prefix_len chars s = Some j → (0 < j)%nat.
Proof.
  unfold array_prefix_len. destruct (rest chars s) as [|c l]; [done|]. case_match; [done|].
  repeat case_match; simpl; repeat case_match; intros; simplify_eq; lia.
Qed.

Lemma array_prefix_inside s j : array_prefix_len chars s = Some j → (lx_i s + j < length chars)%nat.
Proof.
  unfold array_prefix_len. destruct (rest chars s) as [|c l]; [done|]. case_match; [done|].
  intros (k & _ & Hk)%bind_Some. case_match; [|done]. simplify_eq.
  unfold at_is, at_ in *. bool_to_prop. by apply lookup_lt_Some in H0.
Qed.

Lemma try_array_assign_prefix_spec s :
  wp (try_array_assign_prefix chars) s (λ found s',
    reads_on s s' ∧ (found = None → s' = s) ∧ (is_Some found → lx_i s < lx_i s')%nat).
Proof.
  unfold try_array_assign_prefix. apply wp_bind, wp_gets. destruct (array_prefix_len chars s) as [j|] eqn:Hj.
  - apply wp_bind, wp_take_run. apply wp_bind. eapply wp_mono; [apply read_balanced_paren_quoted_spec|].
    intros out s1 Hs1. apply wp_ret. split; [etrans; [apply moved_reads_on|exact Hs1]|]. split; [done|].
    intros _. destruct Hs1 as [Hi _ _]. simpl in Hi. pose proof (array_prefix_positive _ _ Hj).
    pose proof (array_prefix_inside _ _ Hj).
    rewrite length_take in Hi. unfold rest in Hi. rewrite length_drop in Hi. lia.
  - apply wp_ret. split; [done|]. split; [done|]. by intros [? ?].
Qed.

Lemma quoted_part_spec quote f s : wp (quoted_part chars quote f) s (after s).
Proof.
  unfold quoted_part. apply wp_bind, wp_take_flagged. destruct (f _) as [text closed]. apply wp_bind.
  destruct closed; [apply wp_ret|apply wp_modify]; apply wp_ret; unfold after; on.
Qed.

(** One round of a loop that takes characters: it stops without moving or advances. *)
Definition round (s : Lexer) {A} : A * bool → Lexer → Prop := λ r s',
  reads_on s s' ∧ if r.2 : bool then (lx_i s < length chars)%nat ∧ (lx_i s < lx_i s')%nat else s' = s.

Lemma read_word_round w s :
  wp (read_word_step chars w) s (λ r s', round s r s' ∧
    (∀ c, peek chars s = Some c → ends_word c = false → r.2 = true)).
Proof.
  unfold read_word_step. apply wp_bind, wp_gets.
  destruct (peek chars s) as [c|] eqn:Hc; [|by apply wp_ret]. pose proof (peek_inside _ _ Hc).
  apply wp_bind, wp_gets. destruct (ends_word c) eqn:He; [apply wp_ret; split; [done|congruence]|].
  apply wp_bind, wp_advance.
  assert (Hgo : ∀ (m : lex (list string)), (∀ s1, wp m s1 (after s1)) →
    wp (text ← m; mret ((w ++ [c]) ++ text, true)) (moved 1 s)
      (λ r s', round s r s' ∧ (∀ c0, Some c = Some c0 → ends_word c0 = false → r.2 = true))).
  { intros m Hm. apply wp_bind. eapply wp_mono; [apply Hm|]. intros text s1 Hs1. apply wp_ret.
    split; [|done]. split; [etrans; [apply moved_reads_on|exact Hs1]|]. simpl. split; [done|].
    destruct Hs1 as [Hi _ _]. simpl in Hi. lia. }
  repeat case_match; try (apply Hgo; intros s1).
  - apply wp_take_run, moved_reads_on.
  - apply quoted_part_spec.
  - apply quoted_part_spec.
  - apply read_balanced_paren_spec.
  - apply quoted_part_spec.
  - apply wp_ret. split; [|done]. split; [apply moved_reads_on|simpl; lia].
Qed.

Lemma read_word_spec s :
  wp (read_word chars) s (λ _ s', reads_on s s' ∧
    (∀ c, peek chars s = Some c → ends_word c = false → (lx_i s < lx_i s')%nat)).
Proof.
  unfold read_word. apply wp_bind. eapply wp_mono; [apply try_array_assign_prefix_spec|].
  intros found s1 (Hs1 & Hnone & Hsome). apply wp_bind.
  apply (wp_while (λ _ s2, reads_on s s2 ∧ (s2 = s ∨ lx_i s < lx_i s2)%nat)).
  - intros w s2 [Hs2 Hor]. eapply wp_mono; [apply read_word_round|]. intros [w' []] s3 [[Hs3 Hr] Hgo]; simpl in *.
    + split; [|done]. split; [by etrans|]. right. destruct Hs2. lia.
    + subst s3. apply wp_ret. split; [done|]. intros c Hc He. destruct Hor as [->|]; [|done].
      by specialize (Hgo c Hc He).
  - split; [done|]. destruct found as [text|]; [right; by apply Hsome|left; by apply Hnone].
Qed.

Lemma regex_round w s : wp (regex_step chars w) s (round s).
Proof.
  unfold regex_step. apply wp_bind, wp_gets. destruct (peek chars s) as [c|] eqn:Hc; [|by apply wp_ret].
  pose proof (peek_inside _ _ Hc). apply wp_bind, wp_gets.
  destruct (is_space c); [by apply wp_ret|]. destruct (_ && _); [by apply wp_ret|].
  apply wp_bind, wp_advance.
  destruct (bool_decide _); [apply wp_bind, wp_take_run|]; apply wp_ret; unfold round; simpl; split;
    [on|lia|on|lia].
Qed.

(** A loop of such rounds reads on. *)
Lemma while_reads_on {A} (body : A → lex (A * bool)) a s :
  (∀ a s, wp (body a) s (λ r s', round s r s')) → wp (while_ chars body a) s (after s).
Proof.
  intros Hbody. apply (wp_while (λ _, reads_on s)); [|done]. intros a' s1 Hs1.
  eapply wp_mono; [apply Hbody|]. intros [b []] s2 [Hs2 Hr]; simpl in *.
  - split; [by etrans|done].
  - unfold after. by etrans.
Qed.

Lemma heredoc_delim_round acc s : wp (heredoc_delim_step chars acc) s (round s).
Proof.
  destruct acc as [delim quoted]. unfold heredoc_delim_step. apply wp_bind, wp_gets.
  destruct (peek chars s) as [c|] eqn:Hc; [|by apply wp_ret]. pose proof (peek_inside _ _ Hc).
  repeat case_match; [apply wp_bind, wp_advance, wp_bind, wp_take_flagged|by apply wp_ret|apply wp_bind, wp_advance].
  1: destruct (until_quote _ _) as [text closed]. all: apply wp_ret; unfold round; simpl; split; [on|lia].
Qed.

Lemma read_heredoc_delim_spec s : wp (read_heredoc_delim chars) s (after s).
Proof.
  unfold read_heredoc_delim. apply wp_bind. eapply wp_mono; [apply while_reads_on, heredoc_delim_round|].
  intros [delim quoted] s1 Hs1. by apply wp_ret.
Qed.

Lemma peek_is_inside c s : peek_is chars c s = true → (lx_i s < length chars)%nat.
Proof. unfold peek_is. intros Hc. apply bool_decide_eq_true_1 in Hc. by eapply peek_inside. Qed.

(** A line of a here-document ends at the newline or at the end of the source. *)
Lemma line_stops s :
  peek_is chars newline (moved (length (take_while (λ c, negb (is_newline c)) (rest chars s))) s) = false →
  (length chars ≤ lx_i s + length (take_while (λ c, negb (is_newline c)) (rest chars s)))%nat.
Proof.
  unfold peek_is, peek, rest. simpl. rewrite <-(lookup_drop chars).
  assert (Hgen : ∀ l, bool_decide (l !! length (take_while (λ c, negb (is_newline c)) l) = Some newline) = false →
    (length l ≤ length (take_while (λ c, negb (is_newline c)) l))%nat).
  { induction l as [|c l IH]; [simpl; lia|]. simpl. destruct (is_newline c) eqn:Hc; simpl.
    - apply bool_decide_eq_true_1 in Hc as ->. by rewrite bool_decide_eq_true_2.
    - intros Hl. apply IH in Hl. lia. }
  intros Hl. apply Hgen in Hl. rewrite length_drop in Hl. lia.
Qed.

Lemma heredoc_body_round dashed delim body s :
  wp (heredoc_body_step chars dashed delim body) s (λ r s',
    reads_on s s' ∧ if r.2 : bool then (lx_i s < length chars)%nat ∧ (lx_i s < lx_i s')%nat else True).
Proof.
  unfold heredoc_body_step. apply wp_bind, wp_take_run, wp_bind, wp_gets.
  set (line := take_while _ _). set (s1 := moved (length line) s).
  destruct (peek_is chars newline s1) eqn:Hnl.
  - pose proof (peek_is_inside _ _ Hnl) as Hin. simpl in Hin. apply wp_bind, wp_advance.
    case_match; [apply wp_ret; simpl; split; [on|done]|]. apply wp_bind, wp_gets. simpl.
    apply wp_ret. simpl. split; [on|simpl; lia].
  - apply line_stops in Hnl. apply wp_bind, wp_ret. case_match; [apply wp_ret; simpl; split; [on|done]|].
    apply wp_bind, wp_gets. simpl. rewrite bool_decide_eq_true_2 by done. simpl.
    apply wp_bind, wp_modify, wp_ret. simpl. split; [on|done].
Qed.

Lemma read_heredoc_body_spec delim s : wp (read_heredoc_body chars delim) s (after s).
Proof.
  unfold read_heredoc_body. destruct (match strip_prefix _ _ with Some _ => _ | None => _ end) as [dashed d].
  apply (wp_while (λ _, reads_on s)); [|done]. intros body s1 Hs1.
  eapply wp_mono; [apply heredoc_body_round|]. intros [b []] s2 [Hs2 Hr]; simpl in *.
  - split; [by etrans|done].
  - unfold after. by etrans.
Qed.

(** ** Tokens *)

(** [s'] is [s] further on, with one more token. *)
Definition emits (s s' : Lexer) : Prop :=
  (lx_i s < lx_i s')%nat ∧ ∃ t, lx_toks s' = lx_toks s ++ [t] ∧ tok_ok t.

Lemma emits_push s s1 t :
  reads_on s s1 → (lx_i s < lx_i s1)%nat → tok_ok t → wp (push t) s1 (λ _ s', emits s s').
Proof. intros [_ Htoks _] Hi Ht. apply wp_modify. split; [done|]. exists t. simpl. by rewrite Htoks. Qed.

Lemma push_advance_emits s t n :
  (0 < n)%nat → tok_ok t → wp (_ ← push t; advance n) s (λ _ s', emits s s').
Proof.
  intros Hn Ht. apply wp_bind, wp_modify, wp_advance. split; [simpl; lia|]. by exists t.
Qed.

Lemma advance_push_emits s t n :
  (0 < n)%nat → tok_ok t → wp (_ ← advance n; push t) s (λ _ s', emits s s').
Proof.
  intros Hn Ht. apply wp_bind, wp_advance. apply emits_push; [apply moved_reads_on|simpl; lia|done].
Qed.

Ltac op_ok := simpl; set_solver.

Lemma lex_semicolon_emits s : wp (lex_semicolon chars) s (λ _ s', emits s s').
Proof.
  unfold lex_semicolon. apply wp_bind, wp_gets. case_match; apply push_advance_emits; [lia|op_ok|lia|op_ok].
Qed.

Lemma fd_operator_plain op : op ∈ ["&>"; "&>>"; ">"; ">>"; "<"; "<>"; ">&-"; "<&-"] → fd_operator op.
Proof. by left. Qed.

Lemma lex_ampersand_emits s : wp (lex_ampersand chars) s (λ _ s', emits s s').
Proof.
  unfold lex_ampersand. do 4 apply wp_bind, wp_gets.
  destruct (lx_in_double_bracket s); [|destruct (at_is chars 1 "&" s); [|destruct (at_is chars 1 ">" s)]].
  - apply advance_push_emits; [|done]. case_match; simpl; lia.
  - apply push_advance_emits; [lia|op_ok].
  - apply advance_push_emits; [case_match; lia|]. simpl. split; [unfold fd_range; lia|].
    apply fd_operator_plain. case_match; set_solver.
  - apply push_advance_emits; [lia|op_ok].
Qed.

Lemma lex_bar_emits s : wp (lex_bar chars) s (λ _ s', emits s s').
Proof.
  unfold lex_bar. do 3 apply wp_bind, wp_gets.
  destruct (lx_in_double_bracket s); [|destruct (at_is chars 1 "|" s); [|destruct (at_is chars 1 "&" s)]].
  - apply advance_push_emits; [|done]. case_match; simpl; lia.
  - apply push_advance_emits; [lia|op_ok].
  - apply push_advance_emits; [lia|op_ok].
  - apply push_advance_emits; [lia|op_ok].
Qed.

Lemma lex_open_emits s : wp (lex_open chars) s (λ _ s', emits s s').
Proof.
  unfold lex_open. do 2 apply wp_bind, wp_gets.
  destruct (lx_in_double_bracket s); [|destruct (at_is chars 1 "(" s)].
  - by apply push_advance_emits; [lia|].
  - apply wp_bind. eapply wp_mono; [apply read_arithmetic_command_spec|]. intros e s1 [Hs1 Hi].
    by apply emits_push.
  - apply push_advance_emits; [lia|op_ok].
Qed.

Lemma lex_close_emits s : wp (lex_close) s (λ _ s', emits s s').
Proof.
  unfold lex_close. apply wp_bind, wp_gets. apply push_advance_emits; [lia|]. case_match; [done|op_ok].
Qed.

Lemma lex_group_emits s prefix :
  wp (_ ← advance 1; group ← read_balanced_paren chars; push (TWord (prefix +:+ collect group))) s
    (λ _ s', emits s s').
Proof.
  apply wp_bind, wp_advance, wp_bind. eapply wp_mono; [apply read_balanced_paren_spec|].
  intros group s1 Hs1. apply emits_push; [etrans; [apply moved_reads_on|done]| |done].
  destruct Hs1 as [Hi _ _]. simpl in Hi. lia.
Qed.

Lemma lex_great_emits s : wp (lex_great chars) s (λ _ s', emits s s').
Proof.
  unfold lex_great. do 5 apply wp_bind, wp_gets.
  destruct (lx_in_double_bracket s); [by apply push_advance_emits; [lia|]|].
  destruct (at_is chars 1 "(" s); [apply lex_group_emits|].
  destruct (at_is chars 1 ">" s); [by apply push_advance_emits; [lia|]|].
  destruct (at_is chars 1 "|" s); [by apply push_advance_emits; [lia|]|].
  destruct (at_is chars 1 "&" s); [|by apply push_advance_emits; [lia|]].
  apply wp_bind, wp_advance, wp_bind, wp_gets. case_match.
  - apply wp_bind, wp_advance. apply emits_push; [on|simpl; lia|done].
  - apply wp_bind, wp_take_run. apply emits_push; [on|simpl; lia|]. simpl.
    destruct (parse_i32 _) as [v|] eqn:Hv; simpl; [|unfold fd_range; lia].
    eapply parse_i32_digits; [|exact Hv]. apply take_while_forallb.
Qed.

Lemma fd_operator_target prefix target :
  prefix = "<&" ∨ prefix = ">&" →
  (target = "-" ∨ ∃ ds, forallb is_ascii_digit ds = true ∧ target = collect ds) → fd_operator (prefix +:+ target).
Proof.
  intros [-> | ->] [->|(ds & Hds & ->)]; [left; set_solver|right; eauto|left; set_solver|right; eauto].
Qed.

Lemma fd_of_digits n l : (n ≤ length (take_while is_ascii_digit l))%nat →
  fd_range (default (-1) (parse_i32 (collect (take n l)))).
Proof.
  intros Hn. destruct (parse_i32 _) as [v|] eqn:Hv; simpl; [|unfold fd_range; lia].
  eapply parse_i32_digits; [|exact Hv]. clear Hv v. revert n Hn.
  induction l as [|c l IH]; intros [|n]; simpl; [done..|]. destruct (is_ascii_digit c); simpl; [|lia].
  intros Hn. apply IH. lia.
Qed.

Lemma fd_redirect_len_spec s n : fd_redirect_len chars s = Some n →
  (0 < n)%nat ∧ n = length (take_while is_ascii_digit (rest chars s)).
Proof.
  unfold fd_redirect_len. case_match; [|done]. intros [= <-]. bool_to_prop. done.
Qed.

Lemma lex_fd_redirect_emits s n : fd_redirect_len chars s = Some n →
  wp (lex_fd_redirect chars n) s (λ _ s', emits s s').
Proof.
  intros [Hpos Hn]%fd_redirect_len_spec. unfold lex_fd_redirect, lex_fd_operator. apply wp_bind, wp_take_run.
  set (number := take n _).
  assert (Hfd : fd_range (default (-1) (parse_i32 (collect number)))) by (apply fd_of_digits; lia).
  assert (Hlen : (0 < length number)%nat).
  { unfold number. rewrite length_take. rewrite Hn in *. destruct (rest chars s) as [|c l]; simpl in *; [done|lia]. }
  assert (Hplain : ∀ op s', op ∈ ["&>"; "&>>"; ">"; ">>"; "<"; "<>"; ">&-"; "<&-"] →
    reads_on (moved (length number) s) s' →
    wp (push (TRedirFd (default (-1) (parse_i32 (collect number))) op)) s' (λ _ s', emits s s')).
  { intros op s' Hop Hs'. apply emits_push; [etrans; [apply moved_reads_on|done]|destruct Hs'; simpl in *; lia|].
    split; [done|by apply fd_operator_plain]. }
  assert (Htarget : ∀ prefix target s', prefix = "<&" ∨ prefix = ">&" →
    (target = "-" ∨ ∃ ds, forallb is_ascii_digit ds = true ∧ target = collect ds) →
    reads_on (moved (length number) s) s' →
    wp (push (TRedirFd (default (-1) (parse_i32 (collect number))) (prefix +:+ target))) s' (λ _ s', emits s s')).
  { intros prefix target s' Hp Ht Hs'. apply emits_push; [etrans; [apply moved_reads_on|done]|destruct Hs'; simpl in *; lia|].
    split; [done|by apply fd_operator_target]. }
  apply wp_bind, wp_gets. case_match.
  - do 2 apply wp_bind, wp_gets. case_match; [|case_match].
    + apply wp_bind, wp_advance, Hplain; [set_solver|apply moved_reads_on].
    + apply wp_bind, wp_advance, wp_bind, wp_gets. case_match.
      * apply wp_bind, wp_advance, Hplain; [set_solver|on].
      * apply wp_bind, wp_take_run, Htarget; [by right| |on]. right. eauto using take_while_forallb.
    + apply wp_bind, wp_advance, Hplain; [set_solver|apply moved_reads_on].
  - apply wp_bind, wp_advance. do 2 apply wp_bind, wp_gets. case_match; [|case_match].
    + apply wp_bind, wp_advance, wp_bind. eapply wp_mono; [apply read_descriptor_target_spec|].
      intros target s' [Hs' Ht]. apply Htarget; [by left|done|]. etrans; [|exact Hs']. on.
    + apply wp_bind, wp_advance, Hplain; [set_solver|on].
    + apply Hplain; [set_solver|on].
Qed.

Lemma lex_word_emits s c : peek chars s = Some c → ends_word c = false →
  wp (lex_word chars) s (λ _ s', emits s s').
Proof.
  intros Hc He. unfold lex_word. apply wp_bind. eapply wp_mono; [apply read_word_spec|].
  intros w s1 [[_ Htoks _] Hi]. specialize (Hi c Hc He). apply wp_bind, wp_gets, wp_bind.
  repeat case_match; [apply wp_modify|apply wp_modify|apply wp_ret]; apply wp_modify;
    (split; [done|]); simpl; rewrite Htoks; by eexists.
Qed.

(** Here-documents only replace tokens that are already there. *)
Definition tokens_ok (pending : Pending) (s : Lexer) : Prop :=
  Forall tok_ok (lx_toks s) ∧ Forall (λ q : string * bool * nat, (q.2 < length (lx_toks s))%nat) pending.

Lemma tokens_ok_emits pending s s' : tokens_ok pending s → emits s s' → tokens_ok pending s'.
Proof.
  intros [Htoks Hp] (_ & t & Heq & Ht). unfold tokens_ok. rewrite Heq. split; [by apply Forall_app; repeat constructor|].
  eapply Forall_impl; [exact Hp|]. simpl. intros q Hq. rewrite length_app. simpl. lia.
Qed.

Lemma resolve_heredocs_spec pending s : tokens_ok pending s →
  wp (resolve_heredocs chars pending) s (λ _ s', (lx_i s ≤ lx_i s')%nat ∧ tokens_ok [] s').
Proof.
  revert s. induction pending as [|[[delim quoted] idx] pending IH]; intros s [Htoks Hp].
  { apply wp_ret. split; [done|]. by split. }
  apply Forall_cons in Hp as [Hidx Hp]. simpl in Hidx. cbn [resolve_heredocs]. apply wp_bind.
  eapply wp_mono; [apply read_heredoc_body_spec|]. intros body s1 [Hi Ht _]. apply wp_bind. unfold set_token.
  apply wp_bind, wp_gets. rewrite bool_decide_eq_true_2 by (by rewrite Ht). apply wp_modify.
  eapply wp_mono; [apply IH|].
  - split; simpl; rewrite Ht; [by apply Forall_insert|]. by rewrite length_insert.
  - simpl. intros _ s2 [Hi2 Hok]. split; [lia|done].
Qed.

Lemma lex_heredoc_spec pending s : tokens_ok pending s →
  wp (lex_heredoc chars pending) s (λ pending' s', (lx_i s < lx_i s')%nat ∧ tokens_ok pending' s').
Proof.
  intros [Htoks Hp]. unfold lex_heredoc. apply wp_bind, wp_gets, wp_bind, wp_advance, wp_bind, wp_take_run, wp_bind.
  eapply wp_mono; [apply read_heredoc_delim_spec|]. intros [delim quoted] s1 [Hi Ht _]. simpl in Hi, Ht.
  apply wp_bind, wp_gets, wp_bind, wp_modify, wp_ret. split; [simpl; case_match; lia|].
  split; simpl; rewrite Ht; [by apply Forall_app; repeat constructor|].
  rewrite length_app. apply Forall_app. split; [|repeat constructor; simpl; lia].
  eapply Forall_impl; [exact Hp|]. simpl. lia.
Qed.

Lemma emits_then_ret pending s (m : lex unit) :
  tokens_ok pending s → wp m s (λ _ s', emits s s') →
  wp (_ ← m; mret pending) s (λ pending' s', (lx_i s < lx_i s')%nat ∧ tokens_ok pending' s').
Proof.
  intros Hok Hm. apply wp_bind. eapply wp_mono; [exact Hm|]. intros u s' He. apply wp_ret.
  split; [apply He|by eapply tokens_ok_emits].
Qed.

Lemma stm_bind_assoc {St A B C} (m : stm St A) (f : A → stm St B) (g : B → stm St C) s :
  ((m ≫= f) ≫= g) s = (m ≫= λ a, f a ≫= g) s.
Proof. unfold mbind, stm_bind. by destruct (m s) as [[s' a]| |]. Qed.

Lemma wp_ext {St A} (m m' : stm St A) s Q : m s = m' s → wp m' s Q → wp m s Q.
Proof. unfold wp. intros ->. done. Qed.

Lemma lex_less_spec pending s : tokens_ok pending s →
  wp (lex_less chars pending) s (λ pending' s', (lx_i s < lx_i s')%nat ∧ tokens_ok pending' s').
Proof.
  intros Hok. unfold lex_less. do 6 apply wp_bind, wp_gets.
  assert (Hend : ∀ t s1, emits s (MkLexer (lx_i s1) (lx_toks s1 ++ [t]) (lx_in_double_bracket s1)
      (lx_heredocs_complete s1) (lx_error s1)) →
    wp (_ ← push t; mret pending) s1 (λ pending' s', (lx_i s < lx_i s')%nat ∧ tokens_ok pending' s')).
  { intros t s1 He. apply wp_bind, wp_modify, wp_ret. split; [apply He|by eapply tokens_ok_emits]. }
  assert (Hread : ∀ t s1, reads_on s s1 → (lx_i s < lx_i s1)%nat → tok_ok t →
    wp (_ ← push t; mret pending) s1 (λ pending' s', (lx_i s < lx_i s')%nat ∧ tokens_ok pending' s')).
  { intros t s1 [_ Ht _] Hi Hok'. apply Hend. split; [done|]. exists t. simpl. by rewrite Ht. }
  destruct (lx_in_double_bracket s).
  { apply wp_bind, wp_modify, wp_bind, wp_advance, wp_ret. split; [simpl; lia|].
    eapply tokens_ok_emits; [exact Hok|]. split; [simpl; lia|]. by eexists. }
  destruct (at_is chars 1 "(" s).
  { apply wp_bind, wp_advance, wp_bind. eapply wp_mono; [apply read_balanced_paren_spec|]. intros group s1 Hs1.
    apply Hread; [etrans; [apply moved_reads_on|done]|destruct Hs1; simpl in *; lia|done]. }
  destruct (at_is chars 1 "&" s).
  { apply wp_bind, wp_advance, wp_bind. eapply wp_mono; [apply read_descriptor_target_spec|].
    intros target s1 [Hs1 Ht]. apply Hread; [etrans; [apply moved_reads_on|done]|destruct Hs1; simpl in *; lia|].
    split; [unfold fd_range; lia|]. apply fd_operator_target; [by left|done]. }
  destruct (at_is chars 1 ">" s).
  { apply wp_bind, wp_advance, Hread; [on|simpl; lia|]. split; [unfold fd_range; lia|]. apply fd_operator_plain. set_solver. }
  destruct (at_is chars 1 "<" s && at_is chars 2 "<" s).
  { apply wp_bind, wp_advance, wp_bind, wp_take_run, wp_bind. eapply wp_mono; [apply read_word_spec|].
    intros word s1 [Hs1 _]. apply Hread; [etrans; [|exact Hs1]; on|destruct Hs1; simpl in *; lia|done]. }
  destruct (at_is chars 1 "<" s); [by apply lex_heredoc_spec|].
  apply wp_bind, wp_modify, wp_bind, wp_advance, wp_ret. split; [simpl; lia|].
  eapply tokens_ok_emits; [exact Hok|]. split; [simpl; lia|]. by eexists.
Qed.

(** ** The main loop *)

(** A round takes at least one character, or reads the pattern after [=~]. *)
Definition lex_measure (s : Lexer) : nat :=
  2 * (length chars - lx_i s) + (if after_regex_operator s then 1 else 0).

Lemma lex_measure_advance s s' :
  (lx_i s < length chars)%nat → (lx_i s < lx_i s')%nat → (lex_measure s' < lex_measure s)%nat.
Proof. unfold lex_measure. intros. repeat case_match; lia. Qed.

Lemma lex_regex_spec s : after_regex_operator s = true → (lx_i s < length chars)%nat →
  wp (lex_regex chars) s (λ _ s', (lex_measure s' < lex_measure s)%nat ∧
    ∃ t, lx_toks s' = lx_toks s ++ [t] ∧ tok_ok t).
Proof.
  intros Hafter Hin. unfold lex_regex, read_double_bracket_regex. apply wp_bind, wp_bind.
  eapply wp_mono; [apply while_reads_on, regex_round|]. intros w s1 [Hi Ht _]. apply wp_ret, wp_modify.
  set (pattern := collect w). split; [|simpl; rewrite Ht; by eexists].
  unfold lex_measure at 2. rewrite Hafter. unfold lex_measure, after_regex_operator; cbn [lx_i lx_toks lx_in_double_bracket].
  rewrite last_snoc.
  assert (Hne : (if starts_with "'" pattern || starts_with dquote pattern then pattern
                 else dquote +:+ pattern +:+ dquote) ≠ "=~").
  { destruct (starts_with "'" pattern) eqn:Hq; [intros Heq; simpl in Heq; by rewrite Heq in Hq|].
    destruct (starts_with dquote pattern) eqn:Hd; [intros Heq; simpl in Heq; by rewrite Heq in Hd|done]. }
  rewrite bool_decide_eq_false_2 by congruence. rewrite andb_false_r. lia.
Qed.

Lemma ends_word_cases c : ends_word c = true →
  is_blank c = true ∨ is_newline c = true ∨ c ∈ [";"; "&"; "|"; "("; ")"; "<"; ">"].
Proof.
  unfold ends_word, is_blank, is_newline. intros Hc%bool_decide_eq_true_1.
  repeat (apply elem_of_cons in Hc as [->|Hc]; [first [by left | by right; left | right; right; set_solver]|]).
  by apply elem_of_nil in Hc.
Qed.

Definition tokenize_round (s : Lexer) : Pending * bool → Lexer → Prop := λ r s',
  tokens_ok r.1 s' ∧ if r.2 : bool then (lex_measure s' < lex_measure s)%nat else s' = s.

Lemma round_of_emits pending s (m : lex unit) :
  tokens_ok pending s → (lx_i s < length chars)%nat → wp m s (λ _ s', emits s s') →
  wp (_ ← m; mret (pending, true)) s (tokenize_round s).
Proof.
  intros Hok Hin Hm. apply wp_bind. eapply wp_mono; [exact Hm|]. intros u s' He. apply wp_ret.
  split; [by eapply tokens_ok_emits|]. apply lex_measure_advance; [done|apply He].
Qed.

Lemma round_of_advance pending s n :
  tokens_ok pending s → (lx_i s < length chars)%nat → (0 < n)%nat →
  wp (_ ← advance n; mret (pending, true)) s (tokenize_round s).
Proof.
  intros Hok Hin Hn. apply wp_bind, wp_advance, wp_ret. split; [done|].
  apply lex_measure_advance; simpl; lia.
Qed.

Lemma round_of_newline pending s : tokens_ok pending s → (lx_i s < length chars)%nat →
  wp (_ ← advance 1; _ ← resolve_heredocs chars pending; _ ← push (TOp newline); mret ([], true)) s (tokenize_round s).
Proof.
  intros Hok Hin. apply wp_bind, wp_advance, wp_bind. eapply wp_mono; [by apply resolve_heredocs_spec|].
  intros u s' [Hi [Ht _]]. simpl in Hi. apply wp_bind, wp_modify, wp_ret. split.
  - split; [|done]. apply Forall_app; split; [done|]. repeat constructor; simpl; set_solver.
  - apply lex_measure_advance; simpl; lia.
Qed.

Lemma comment_advances s c : peek chars s = Some c → is_newline c = false →
  (0 < length (take_while (λ c, negb (is_newline c)) (rest chars s)))%nat.
Proof.
  rewrite peek_rest. destruct (rest chars s) as [|c' l]; [done|]. simpl. intros [= ->] ->. simpl. lia.
Qed.

Lemma tokenize_step_spec pending s : tokens_ok pending s →
  wp (tokenize_step chars pending) s (tokenize_round s).
Proof.
  intros Hok. unfold tokenize_step. apply wp_bind, wp_gets.
  destruct (peek chars s) as [c|] eqn:Hc; [|by apply wp_ret]. pose proof (peek_inside _ _ Hc) as Hin.
  do 4 apply wp_bind, wp_gets.
  destruct (after_regex_operator s && negb (is_space c)) eqn:Hre.
  { apply andb_true_iff in Hre as [Hre _]. apply wp_bind. eapply wp_mono; [by apply lex_regex_spec|].
    intros u s' (Hμ & t & Ht & Hokt). apply wp_ret. split; [|done]. destruct Hok as [Htoks Hp].
    unfold tokens_ok. simpl. rewrite Ht. split; [by apply Forall_app; repeat constructor|].
    eapply Forall_impl; [exact Hp|]. simpl. intros q Hq. rewrite length_app. simpl. lia. }
  clear Hre. destruct (is_blank c) eqn:Hbl; [by apply round_of_advance; [..|lia]|].
  destruct (bool_decide (c = "\") && at_is chars 1 newline s) eqn:Hbs; [by apply round_of_advance; [..|lia]|]. clear Hbs.
  destruct (is_newline c) eqn:Hnl; [by apply round_of_newline|].
  destruct (bool_decide (c = "#") && prev_is_boundary chars s) eqn:Hcm.
  { apply wp_bind, wp_bind, wp_take_run, wp_ret, wp_ret. split; [done|].
    apply lex_measure_advance; [done|]. simpl. pose proof (comment_advances _ _ Hc Hnl). lia. }
  clear Hcm. destruct (bool_decide (c = ";")) eqn:H1; [by apply round_of_emits, lex_semicolon_emits|].
  destruct (bool_decide (c = "&")) eqn:H2; [by apply round_of_emits, lex_ampersand_emits|].
  destruct (bool_decide (c = "|")) eqn:H3; [by apply round_of_emits, lex_bar_emits|].
  destruct (bool_decide (c = "(")) eqn:H4; [by apply round_of_emits, lex_open_emits|].
  destruct (bool_decide (c = ")")) eqn:H5; [by apply round_of_emits, lex_close_emits|].
  destruct (bool_decide (c = "<")) eqn:H6.
  { apply wp_bind. eapply wp_mono; [by apply lex_less_spec|]. intros pending' s' [Hi Hok']. apply wp_ret.
    split; [done|]. by apply lex_measure_advance. }
  destruct (bool_decide (c = ">")) eqn:H7; [by apply round_of_emits, lex_great_emits|].
  assert (He : ends_word c = false).
  { apply not_true_iff_false. intros [He|[He|He]]%ends_word_cases; [congruence..|]. bool_to_prop. set_solver. }
  destruct (fd_redirect_len chars s) as [n|] eqn:Hfd; [destruct (is_ascii_digit c)|].
  - by apply round_of_emits, lex_fd_redirect_emits.
  - by eapply round_of_emits, lex_word_emits.
  - by eapply round_of_emits, lex_word_emits.
Qed.

Lemma tokenize_loop_spec :
  wp (tokenize_loop chars) lexer_new (λ _ s', ∃ toks, lx_toks s' = toks ++ [TEof] ∧ Forall tok_ok toks).
Proof.
  unfold tokenize_loop. apply wp_bind. unfold while_.
  enough (Hl : wp (loop (lex_fuel chars lexer_new) (tokenize_step chars) []) lexer_new tokens_ok).
  { eapply wp_mono; [exact Hl|]. intros pending s1 Hok. apply wp_bind.
    eapply wp_mono; [by apply resolve_heredocs_spec|]. intros u s2 [_ [Ht _]].
    apply wp_bind, wp_gets, wp_bind.
    case_match; [apply wp_modify|apply wp_ret]; apply wp_modify; by eexists. }
  apply (wp_loop tokens_ok (λ _, lex_measure)).
  - intros pending s1 Hok. eapply wp_mono; [by apply tokenize_step_spec|].
    intros [p' []] s2 [Hok' Hμ]; simpl in *; done.
  - by split.
  - unfold lex_fuel, lex_measure. case_match; lia.
Qed.

End spec.

Lemma tokenize_returns src :
  ∃ toks complete error, tokenize src = Ret (toks ++ [TEof], complete, error) ∧ Forall tok_ok toks.
Proof.
  destruct (tokenize_loop_spec (utf8_chars src)) as (s & u & Hrun & toks & Htoks & Hok).
  exists toks, (lx_heredocs_complete s), (lx_error s). unfold tokenize. rewrite Hrun. simpl. by rewrite Htoks.
Qed.
