(* ===== verification/ShellParser.v ===== *)
(** * The shell parser (src/src/shell.rs, src/src/stack.rs)

    A recursive-descent parser over the tokens of the lexer. It always builds a tree; the first
    error is kept beside it and replaces it at the end. The mutual recursion of the methods goes
    through [rec], the parser of a [Rule] with less fuel: every cycle of calls passes through
    [descend], which counts nesting up to [MAX_SYNTAX_DEPTH], so [syntax_fuel] is enough for
    every input. *)

From stdpp Require Import pretty.
From S2P Require Import Prelude.
From S2P Require Import State.
From S2P Require Import RustStr.
From S2P Require Import Syntax.
From S2P Require Import Lexer.

Definition MAX_SYNTAX_DEPTH : nat := 1000.

Record Parser := MkParser { sp_i : nat; sp_error : option ShellError; sp_depth : nat }.

Definition parser_new : Parser := MkParser 0 None 0.

Abbreviation prs := (stm Parser).

(** The methods that call each other. *)
Inductive Rule := RProgram | RAndOr | RPipeline | RCommand | RIf | RFor | RWhile (until : bool) | RCase | RFuncdef.

Definition RESERVED : list string :=
  ["if"; "then"; "elif"; "else"; "fi"; "for"; "while"; "until"; "do"; "done"; "case"; "esac";
   "in"; "function"; "{"; "}"; "!"; "[["; "]]"].
Definition reserved (w : string) : bool := bool_decide (w ∈ RESERVED).

Definition BLOCK_END_WORDS : list string :=
  ["then"; "elif"; "else"; "fi"; "do"; "done"; "esac"; "}"; ")"].

Definition redirect_pipeline_stderr (node : Node) : Node :=
  let redirect := MkRedirect 2 OpDupOut "&1" in
  match node with
  | NCommand assigns words redirects => NCommand assigns words (redirects ++ [redirect])
  | NRedirected node redirects => NRedirected node (redirects ++ [redirect])
  | node => NRedirected node [redirect]
  end.

Definition is_op (ops : list string) (t : Tok) : bool :=
  match t with TOp o => bool_decide (o ∈ ops) | _ => false end.
Definition is_word (w : string) (t : Tok) : bool := bool_decide (t = TWord w).
Definition is_eof (t : Tok) : bool := bool_decide (t = TEof).

Definition block_end (t : Tok) : bool :=
  match t with
  | TWord w => bool_decide (w ∈ BLOCK_END_WORDS)
  | TOp o => bool_decide (o = ")") || bool_decide (o = ";;")
  | _ => false
  end.

Section parser.
Context (toks : list Tok).

Definition peek (p : Parser) : Tok := default TEof (toks !! sp_i p).
Definition advance (n : nat) : prs unit := modify (λ p, MkParser (sp_i p + n) (sp_error p) (sp_depth p)).
Definition next : prs Tok := t ← gets peek; _ ← advance 1; mret t.

(** [while matches!(self.peek(), ...) { self.i += 1 }]. *)
Definition skip_ops (ops : list string) : prs unit :=
  n ← gets (λ p, length (take_while (is_op ops) (drop (sp_i p) toks))); advance n.
Definition skip_newlines : prs unit := skip_ops [newline; ";"].
Definition skip_blank_newlines : prs unit := skip_ops [newline].
Definition skip_terminators : prs unit := skip_ops [newline; ";"].

Definition word_is (kw : string) (p : Parser) : bool := is_word kw (peek p).
Definition op_is (ops : list string) (p : Parser) : bool := is_op ops (peek p).

Definition expected (expected : string) : prs unit := modify (λ p,
  match sp_error p with
  | Some _ => p
  | None =>
      MkParser (sp_i p)
        (Some (if is_eof (peek p) then UnexpectedEof expected
               else UnexpectedToken (token_description (peek p)) expected)) (sp_depth p)
  end).

Definition expect_op (op : string) : prs unit :=
  here ← gets (op_is [op]);
  if here : bool then advance 1 else expected ("`" +:+ op +:+ "`").

Definition expect_word (kw : string) : prs unit :=
  _ ← skip_newlines;
  here ← gets (word_is kw);
  if here : bool then advance 1 else expected ("`" +:+ kw +:+ "`").

Definition take_word : prs string :=
  t ← gets peek;
  match t with
  | TWord w => _ ← advance 1; mret w
  | _ => _ ← expected "word"; mret ""
  end.

(** ** Nesting *)

(** [self.depth -= n]. *)
Definition leave (n : nat) : prs unit :=
  depth ← gets sp_depth;
  if bool_decide (n ≤ depth)%nat then modify (λ p, MkParser (sp_i p) (sp_error p) (depth - n)) else panic.

Definition too_deep : prs Node :=
  _ ← modify (λ p, MkParser (sp_i p) (Some (default NestingTooDeep (sp_error p))) (sp_depth p));
  mret NEmpty.

Definition descend (body : prs Node) : prs Node :=
  depth ← gets sp_depth;
  if bool_decide (MAX_SYNTAX_DEPTH ≤ depth)%nat then too_deep
  else
    _ ← modify (λ p, MkParser (sp_i p) (sp_error p) (S depth));
    result ← body;
    _ ← leave 1;
    mret result.

(** Whether one more link of a chain may nest; the caller counts it. *)
Definition deepen : prs bool :=
  depth ← gets sp_depth;
  if bool_decide (MAX_SYNTAX_DEPTH ≤ depth)%nat then _ ← too_deep; mret false
  else _ ← modify (λ p, MkParser (sp_i p) (sp_error p) (S depth)); mret true.

Definition while_ {A} (body : A → prs (A * bool)) (a : A) : prs A :=
  λ p, loop (S (length toks - sp_i p)) body a p.

(** ** Simple commands and redirects *)

Definition to_target (fd : Z) (op : RedirOp) : prs (list Redirect) :=
  target ← take_word; mret [MkRedirect fd op target].

(** The redirect of a [TRedirFd] token, after it; [None] for an operator the lexer never emits. *)
Definition fd_redirect (fd : Z) (op : string) : prs (option (list Redirect)) :=
  if bool_decide (op = "&>") || bool_decide (op = "&>>") then
    target ← take_word;
    mret (Some [MkRedirect 1 (if bool_decide (op = "&>>") then OpAppend else OpWrite) target;
                MkRedirect 2 OpDupOut "&1"])
  else if bool_decide (op = ">&-") || bool_decide (op = "<&-") then mret (Some [MkRedirect fd OpClose "-"])
  else
    match strip_prefix ">&" op, strip_prefix "<&" op with
    | Some rest, _ | None, Some rest => mret (Some [MkRedirect fd OpDupOut ("&" +:+ rest)])
    | None, None =>
        if bool_decide (op = "<>") then r ← to_target fd OpReadWrite; mret (Some r)
        else if bool_decide (op = ">") then r ← to_target fd OpWrite; mret (Some r)
        else if bool_decide (op = ">>") then r ← to_target fd OpAppend; mret (Some r)
        else if bool_decide (op = "<") then r ← to_target fd OpRead; mret (Some r)
        else mret None
    end.

(** The redirects one token starts: [None] when it starts none. [unknown] is what the caller does
    with an unknown descriptor operator. *)
Definition redirect_at (unknown : prs (list Redirect)) (t : Tok) : option (prs (list Redirect)) :=
  let after (m : prs (list Redirect)) := Some (_ ← advance 1; m) in
  match t with
  | TLess => after (to_target 0 OpRead)
  | TGreat => after (to_target 1 OpWrite)
  | TDGreat => after (to_target 1 OpAppend)
  | TGreatAmp n => after (mret [MkRedirect 1 OpDupOut ("&" +:+ pretty n)])
  | TCloseOut => after (mret [MkRedirect 1 OpClose "-"])
  | TRedirFd fd op =>
      after (found ← fd_redirect fd op; match found with Some r => mret r | None => unknown end)
  | THeredoc body quoted => after (mret [MkRedirect 0 (if quoted then OpHeredocRaw else OpHeredoc) body])
  | THereString target => after (mret [MkRedirect 0 OpHereString target])
  | TWord _ | TOp _ | TArithmetic _ | TEof => None
  end.

Definition assign_step (assigns : list (string * string)) : prs (list (string * string) * bool) :=
  t ← gets peek;
  match t with
  | TWord w =>
      if is_assignment w then
        match split_assignment w with
        | Ret assign => _ ← advance 1; mret (assigns ++ [assign], true)
        | _ => panic
        end
      else mret (assigns, false)
  | _ => mret (assigns, false)
  end.

Definition simple_step (acc : list string * list Redirect) : prs ((list string * list Redirect) * bool) :=
  let '(words, redirects) := acc in
  t ← gets peek;
  match t with
  | TWord w =>
      if bool_decide (words = []) && reserved w && negb (bool_decide (w = "[[")) then mret (acc, false)
      else _ ← advance 1; mret ((words ++ [w], redirects), true)
  | t =>
      match redirect_at (mret []) t with
      | Some m => r ← m; mret ((words, redirects ++ r), true)
      | None => mret (acc, false)
      end
  end.

Definition parse_simple : prs Node :=
  assigns ← while_ assign_step [];
  '(words, redirects) ← while_ simple_step ([], []);
  mret (NCommand assigns words redirects).

Definition attach_step (redirs : list Redirect) : prs (list Redirect * bool) :=
  t ← gets peek;
  match redirect_at panic t with
  | Some m => r ← m; mret (redirs ++ r, true)
  | None => mret (redirs, false)
  end.

Definition attach_redirects (node : Node) : prs Node :=
  redirs ← while_ attach_step [];
  mret (if bool_decide (redirs = []) then node else NRedirected node redirs).

(** ** The grammar *)

Section rules.
Context (rec : Rule → prs Node).

Definition program_step (nodes : list Node) : prs (list Node * bool) :=
  t ← gets peek;
  error ← gets sp_error;
  if is_eof t || bool_decide (is_Some error) || is_op [")"] t then mret (nodes, false)
  else
    position ← gets sp_i;
    n ← rec RAndOr;
    let nodes := nodes ++ [n] in
    now ← gets sp_i;
    if bool_decide (now = position) then _ ← expected "command"; mret (nodes, false)
    else
      _ ← skip_terminators;
      t ← gets peek;
      mret (nodes, negb (block_end t)).

Definition parse_program : prs Node :=
  _ ← skip_newlines;
  nodes ← while_ program_step [];
  mret match nodes with [node] => node | _ => NSeq nodes end.

Definition and_or_step (acc : Node * nat) : prs ((Node * nat) * bool) :=
  let '(lhs, links) := acc in
  t ← gets peek;
  if is_op ["&"] t then
    _ ← advance 1;
    deeper ← deepen;
    if deeper : bool then mret ((NBackground lhs, S links), true) else mret (acc, false)
  else if is_op ["&&"; "||"] t then
    _ ← advance 1;
    deeper ← deepen;
    if deeper : bool then
      _ ← skip_blank_newlines;
      rhs ← rec RPipeline;
      mret ((if is_op ["&&"] t then NAnd lhs rhs else NOr lhs rhs, S links), true)
    else mret (acc, false)
  else mret (acc, false).

Definition parse_and_or : prs Node :=
  lhs ← rec RPipeline;
  '(lhs, links) ← while_ and_or_step (lhs, O);
  _ ← leave links;
  mret lhs.

Definition parse_timed : prs Node :=
  _ ← advance 1;
  posix ← gets (word_is "-p");
  _ ← (if posix : bool then advance 1 else mret tt);
  t ← gets peek;
  let empty := match t with TEof => true | TOp op => negb (bool_decide (op = "(")) | _ => false end in
  inner ← (if empty then mret (NSeq []) else rec RPipeline);
  mret (NTimed inner posix).

(** The last of the stages, with its standard error joined to its output. *)
Definition join_stderr (stages : list Node) : prs (list Node) :=
  match last stages with
  | Some stage => mret (take (pred (length stages)) stages ++ [redirect_pipeline_stderr stage])
  | None => panic
  end.

Definition stage_step (stages : list Node) : prs (list Node * bool) :=
  t ← gets peek;
  if is_op ["|"; "|&"] t then
    _ ← advance 1;
    stages ← (if is_op ["|&"] t then join_stderr stages else mret stages);
    _ ← skip_blank_newlines;
    stage ← rec RCommand;
    mret (stages ++ [stage], true)
  else mret (stages, false).

Definition parse_pipeline_inner : prs Node :=
  timed ← gets (word_is "time");
  if timed : bool then parse_timed
  else
    negate ← gets (word_is "!");
    _ ← (if negate : bool then advance 1 else mret tt);
    first ← rec RCommand;
    stages ← while_ stage_step [first];
    let node := match stages with [stage] => stage | _ => NPipeline stages end in
    mret (if negate : bool then NNot node else node).

(** [name () body], at the name. *)
Definition funcdef_ahead (p : Parser) : bool :=
  match peek p with
  | TWord name =>
      negb (reserved name) && bool_decide (toks !! (sp_i p + 1)%nat = Some (TOp "("))
      && bool_decide (toks !! (sp_i p + 2)%nat = Some (TOp ")"))
  | _ => false
  end.

Definition empty_command : prs Node := _ ← expected "command"; mret NEmpty.

Definition parse_command_inner : prs Node :=
  _ ← skip_blank_newlines;
  t ← gets peek;
  funcdef ← gets funcdef_ahead;
  if is_eof t || is_op [")"; "|"; "&&"; "||"] t then empty_command
  else if is_word "if" t then n ← rec RIf; attach_redirects n
  else if is_word "for" t then n ← rec RFor; attach_redirects n
  else if is_word "while" t then n ← rec (RWhile false); attach_redirects n
  else if is_word "until" t then n ← rec (RWhile true); attach_redirects n
  else if is_word "case" t then n ← rec RCase; attach_redirects n
  else if is_word "function" t then _ ← advance 1; rec RFuncdef
  else if is_op ["("] t then
    _ ← advance 1; body ← rec RProgram; _ ← expect_op ")"; attach_redirects (NSubshell body)
  else if is_word "{" t then
    _ ← advance 1; body ← rec RProgram; _ ← expect_word "}"; attach_redirects (NGroup body)
  else
    match t with
    | TArithmetic expression => _ ← advance 1; attach_redirects (NArithmetic expression)
    | TWord name =>
        if funcdef : bool then
          _ ← advance 3; _ ← skip_blank_newlines; body ← rec RCommand; mret (NFuncDef name body)
        else if reserved name && negb (bool_decide (name = "[[")) then empty_command
        else parse_simple
    | _ => parse_simple
    end.

Definition parse_funcdef_named : prs Node :=
  t ← next;
  let name := match t with TWord n => n | _ => "" end in
  open ← gets (op_is ["("]);
  _ ← (if open : bool then _ ← advance 1; expect_op ")" else mret tt);
  _ ← skip_blank_newlines;
  body ← rec RCommand;
  mret (NFuncDef name body).

Definition if_step (acc : list (Node * Node) * option Node) : prs ((list (Node * Node) * option Node) * bool) :=
  let '(elifs, els) := acc in
  _ ← skip_newlines;
  t ← gets peek;
  if is_word "elif" t then
    _ ← advance 1;
    c ← rec RProgram; _ ← expect_word "then"; b ← rec RProgram;
    mret ((elifs ++ [(c, b)], els), true)
  else if is_word "else" t then _ ← advance 1; b ← rec RProgram; mret ((elifs, Some b), true)
  else mret (acc, false).

Definition parse_if : prs Node :=
  _ ← advance 1;
  cond ← rec RProgram;
  _ ← expect_word "then";
  then_ ← rec RProgram;
  '(elifs, els) ← while_ if_step ([], None);
  _ ← expect_word "fi";
  mret (NIf cond then_ elifs els).

Definition for_word_step (words : list string) : prs (list string * bool) :=
  t ← gets peek;
  match t with
  | TWord w => if reserved w then mret (words, false) else _ ← advance 1; mret (words ++ [w], true)
  | _ => mret (words, false)
  end.

(** [do body done], after the terminators. *)
Definition do_block : prs Node :=
  _ ← skip_terminators;
  _ ← expect_word "do";
  body ← rec RProgram;
  _ ← expect_word "done";
  mret body.

Definition parse_for : prs Node :=
  _ ← advance 1;
  t ← gets peek;
  match t with
  | TArithmetic expression =>
      _ ← advance 1;
      let '(init, cond, update) := split_c_for_expression expression in
      body ← do_block;
      mret (NCFor init cond update body)
  | _ =>
      var ← take_word;
      _ ← skip_newlines;
      in_ ← gets (word_is "in");
      words ← (if in_ : bool then _ ← advance 1; while_ for_word_step []
               else mret [dquote +:+ "$@" +:+ dquote]);
      body ← do_block;
      mret (NFor var words body)
  end.

Definition parse_while (until : bool) : prs Node :=
  _ ← advance 1;
  cond ← rec RProgram;
  _ ← expect_word "do";
  body ← rec RProgram;
  _ ← expect_word "done";
  mret (NWhile cond body until).

Definition pattern_step (pats : list string) : prs (list string * bool) :=
  w ← take_word;
  bar ← gets (op_is ["|"]);
  if bar : bool then _ ← advance 1; mret (pats ++ [w], true) else mret (pats ++ [w], false).

Definition case_arm : prs (list string * Node) :=
  open ← gets (op_is ["("]);
  _ ← (if open : bool then advance 1 else mret tt);
  pats ← while_ pattern_step [];
  _ ← expect_op ")";
  _ ← skip_newlines;
  done ← gets (op_is [";;"]);
  body ← (if done : bool then mret NEmpty else rec RProgram);
  _ ← skip_newlines;
  done ← gets (op_is [";;"]);
  _ ← (if done : bool then advance 1 else mret tt);
  _ ← skip_newlines;
  mret (pats, body).

Definition case_step (arms : list (list string * Node)) : prs (list (list string * Node) * bool) :=
  t ← gets peek;
  error ← gets sp_error;
  if is_word "esac" t || is_eof t || bool_decide (is_Some error) then mret (arms, false)
  else
    position ← gets sp_i;
    arm ← case_arm;
    now ← gets sp_i;
    if bool_decide (now = position) then _ ← expected "case arm"; mret (arms ++ [arm], false)
    else mret (arms ++ [arm], true).

Definition parse_case : prs Node :=
  _ ← advance 1;
  word ← take_word;
  _ ← expect_word "in";
  _ ← skip_newlines;
  arms ← while_ case_step [];
  _ ← expect_word "esac";
  mret (NCase word arms).

Definition rule_body (rule : Rule) : prs Node :=
  match rule with
  | RProgram => parse_program
  | RAndOr => parse_and_or
  | RPipeline => descend parse_pipeline_inner
  | RCommand => descend parse_command_inner
  | RIf => parse_if
  | RFor => parse_for
  | RWhile until => parse_while until
  | RCase => parse_case
  | RFuncdef => parse_funcdef_named
  end.

End rules.

Fixpoint parse_rule (fuel : nat) (rule : Rule) : prs Node :=
  match fuel with
  | O => out_of_fuel
  | S fuel => rule_body (parse_rule fuel) rule
  end.

Definition syntax_fuel : nat := 4 * S MAX_SYNTAX_DEPTH.

(** The tree of the tokens, or the first error. *)
Definition parse_tokens : run (result ShellError Node) :=
  '(p, node) ← parse_rule syntax_fuel RProgram parser_new;
  let p :=
    if bool_decide (sp_error p = None) && negb (is_eof (peek p))
    then match expected "end of input" p with Ret (p, _) => p | _ => p end
    else p in
  Ret match sp_error p with Some error => Err error | None => Ok node end.

End parser.

(** [parse_with_cancellation] without a cancellation token. *)
Definition parse (src : string) : run (result ShellError Node) :=
  '(toks, _, lexer_error) ← tokenize src;
  match lexer_error with
  | Some error => Ret (Err error)
  | None => parse_tokens toks
  end.

Definition needs_more_input (src : string) : run bool :=
  complete ← heredocs_complete src;
  if negb complete then Ret true
  else
    parsed ← parse src;
    Ret match parsed with Err (UnexpectedEof _ | UnclosedQuote _) => true | _ => false end.
