(* ===== verification/ShellSpec.v ===== *)
(** * The shell parser always returns a well-formed tree

    On the tokens of the lexer every rule returns, restores the nesting counter, never moves
    back, and unless it reports an error builds a tree of the shape the interpreter expects.
    The height of the tree is bounded, though not by [MAX_SYNTAX_DEPTH]. *)

From S2P Require Import Prelude.
From S2P Require Import State.
From S2P Require Import RustStr.
From S2P Require Import Syntax.
From S2P Require Import Lexer.
From S2P Require Import ShellParser.
From S2P Require Import LexerSpec.

(** ** Well-formed trees *)

Definition redirect_ok (r : Redirect) : Prop :=
  fd_range (rd_fd r) ∧
  match rd_op r with
  | OpDupOut => ∃ source, rd_target r = "&" +:+ source
  | OpClose => rd_target r = "-"
  | _ => True
  end.

(** A simple command has no reserved word but [[[] in command position. *)
Definition command_words_ok (words : list string) : Prop :=
  match words with w :: _ => reserved w = false ∨ w = "[[" | [] => True end.

(** The conditions on one node; [NEmpty] is only the body of a case arm. *)
Definition node_ok (n : Node) : Prop :=
  match n with
  | NArgvCommand _ => False
  | NCommand _ words redirects => command_words_ok words ∧ Forall redirect_ok redirects
  | NPipeline stages => (2 ≤ length stages)%nat
  | NSeq nodes => length nodes ≠ 1%nat
  | NRedirected node redirects =>
      redirects ≠ [] ∧ Forall redirect_ok redirects ∧
      match node with NCommand _ _ _ | NRedirected _ _ => False | _ => True end
  | NCase _ arms => Forall (λ arm, arm.1 ≠ []) arms
  | _ => True
  end ∧
  match n with NCase _ _ => True | _ => Forall (λ c, c ≠ NEmpty) (children n) end.

Inductive node_wf : Node → Prop :=
| node_wf_intro n : node_ok n → Forall node_wf (children n) → node_wf n.

(** ** Height *)

Fixpoint height (n : Node) : nat :=
  S match n with
    | NPipeline nodes | NSeq nodes => foldr (λ n h, Nat.max (height n) h) O nodes
    | NAnd l r | NOr l r => Nat.max (height l) (Nat.max (height r) O)
    | NBackground n | NSubshell n | NGroup n | NNot n | NTimed n _ | NRedirected n _ => Nat.max (height n) O
    | NIf cond then_ elifs els =>
        Nat.max (height cond) (Nat.max (height then_)
          (foldr (λ '(c, b) h, Nat.max (height c) (Nat.max (height b) h))
             match els with Some e => Nat.max (height e) O | None => O end elifs))
    | NFor _ _ body | NCFor _ _ _ body | NFuncDef _ body => Nat.max (height body) O
    | NWhile cond body _ => Nat.max (height cond) (Nat.max (height body) O)
    | NCase _ arms => foldr (λ '(_, body) h, Nat.max (height body) h) O arms
    | NCommand _ _ _ | NArgvCommand _ | NArithmetic _ | NEmpty => O
    end.

Lemma height_children n : height n = S (foldr (λ n h, Nat.max (height n) h) O (children n)).
Proof.
  destruct n as [| | | | | | | | |c t elifs els| | | |w arms| | | | | |]; try done; cbn [height children foldr].
  - do 3 f_equal. rewrite foldr_app. induction elifs as [|[c' b'] elifs IH]; [by destruct els|]. simpl. by rewrite IH.
  - f_equal. induction arms as [|[ps b] arms IH]; [done|]. simpl. by rewrite IH.
Qed.

Lemma height_le n b : Forall (λ c, height c ≤ b)%nat (children n) → (height n ≤ S b)%nat.
Proof.
  rewrite height_children. induction 1; simpl; lia.
Qed.

(** Four times the height a rule can build with [k] levels of nesting left. *)
Definition height_bound (rule : Rule) (k : nat) : nat :=
  match rule with
  | RPipeline => k * k + 10 * k + 5
  | RCommand => k * k + 12 * k + 4
  | RAndOr => k * k + 14 * k + 5
  | RProgram => k * k + 14 * k + 9
  | RFuncdef => k * k + 12 * k + 8
  | RIf | RFor | RWhile _ | RCase => k * k + 14 * k + 13
  end%nat.

Lemma bound_min rule k : (4 ≤ height_bound rule k)%nat.
Proof. destruct rule; unfold height_bound; lia. Qed.
Lemma bound_pipeline_mono k k' : (k ≤ k' → height_bound RPipeline k ≤ height_bound RPipeline k')%nat.
Proof. intros Hk. unfold height_bound. pose proof (Nat.mul_le_mono _ _ _ _ Hk Hk). lia. Qed.
Lemma bound_and_or k : (height_bound RPipeline k + 4 * k ≤ height_bound RAndOr k)%nat.
Proof. unfold height_bound. lia. Qed.
Lemma bound_program k : (height_bound RAndOr k + 4 ≤ height_bound RProgram k)%nat.
Proof. unfold height_bound. lia. Qed.
Definition compound_rule (rule : Rule) : Prop :=
  match rule with RIf | RFor | RWhile _ | RCase => True | _ => False end.

Lemma bound_compound_eq rule k : compound_rule rule → height_bound rule k = (height_bound RProgram k + 4)%nat.
Proof. destruct rule; try done; intros _; unfold height_bound; lia. Qed.
Lemma bound_funcdef k : (height_bound RCommand k + 4 ≤ height_bound RFuncdef k)%nat.
Proof. unfold height_bound. lia. Qed.
Lemma bound_pipeline k : (height_bound RCommand k + 12 ≤ height_bound RPipeline (S k))%nat ∧
  (height_bound RPipeline k + 4 ≤ height_bound RPipeline (S k))%nat.
Proof. unfold height_bound. lia. Qed.
Lemma bound_command k :
  (height_bound RIf k + 4 ≤ height_bound RCommand (S k))%nat ∧
  (height_bound RProgram k + 8 ≤ height_bound RCommand (S k))%nat ∧
  (height_bound RFuncdef k ≤ height_bound RCommand (S k))%nat ∧
  (height_bound RCommand k + 4 ≤ height_bound RCommand (S k))%nat.
Proof. unfold height_bound. lia. Qed.
#[local] Opaque height_bound.

Definition rule_rank (rule : Rule) : nat :=
  match rule with RPipeline | RCommand => 0 | RAndOr => 1 | RProgram => 2 | _ => 3 end.

#[local] Opaque MAX_SYNTAX_DEPTH.

Section spec.
Context (toks : list Tok).
Context (Htoks : Forall (λ t, tok_ok t ∨ t = TEof) toks).

(** ** Frames *)

(** [p'] is [p] after parsing: further on, at the same depth, with every error kept. *)
Record frame (p p' : Parser) : Prop := {
  fr_i : (sp_i p ≤ sp_i p')%nat;
  fr_depth : sp_depth p' = sp_depth p;
  fr_error : sp_error p' = None → sp_error p = None
}.

#[local] Instance frame_preorder : PreOrder frame.
Proof. split; [by intros p|]. intros p1 p2 p3 [? ? ?] [? ? ?]. split; [lia|congruence|eauto]. Qed.

Abbreviation framed p := (λ _ p', frame p p').

Lemma wp_move n p Q : Q tt (MkParser (sp_i p + n) (sp_error p) (sp_depth p)) → wp (advance n) p Q.
Proof. intros HQ. unfold advance. apply wp_modify. exact HQ. Qed.

Lemma moved_frame n p : frame p (MkParser (sp_i p + n) (sp_error p) (sp_depth p)).
Proof. split; simpl; [lia|done..]. Qed.

Lemma advance_frame n p : wp (advance n) p (framed p).
Proof. apply wp_move, moved_frame. Qed.

Lemma skip_ops_frame ops p : wp (skip_ops toks ops) p (framed p).
Proof. apply wp_bind, wp_gets, advance_frame. Qed.

Lemma expected_frame e p : wp (expected toks e) p (λ _ p', frame p p' ∧ is_Some (sp_error p')).
Proof.
  apply wp_modify. destruct (sp_error p) as [er|] eqn:He; [rewrite He; by split|]. by split; [split|].
Qed.

Lemma expect_op_frame op p : wp (expect_op toks op) p (framed p).
Proof.
  apply wp_bind, wp_gets. case_match; [apply advance_frame|].
  eapply wp_mono; [apply expected_frame|]. by intros a p' [? _].
Qed.

Lemma expect_word_frame kw p : wp (expect_word toks kw) p (framed p).
Proof.
  apply wp_bind. eapply wp_mono; [apply skip_ops_frame|]. intros u p1 Hp1. apply wp_bind, wp_gets. case_match.
  - eapply wp_mono; [apply advance_frame|]. intros a p' Hp'. by transitivity p1.
  - eapply wp_mono; [apply expected_frame|]. intros a p' [Hp' _]. by transitivity p1.
Qed.

Lemma take_word_frame p : wp (take_word toks) p (framed p).
Proof.
  assert (Hbad : wp (_ ← expected toks "word"; mret "") p (framed p)).
  { apply wp_bind. eapply wp_mono; [apply expected_frame|]. intros a p' [Hp' _]. by apply wp_ret. }
  apply wp_bind, wp_gets. destruct (peek toks p); try exact Hbad. apply wp_bind, wp_move, wp_ret, moved_frame.
Qed.

Lemma token_inside p : peek toks p ≠ TEof → (sp_i p < length toks)%nat.
Proof.
  unfold peek. destruct (toks !! sp_i p) as [t|] eqn:Ht; [|done]. intros _. by eapply lookup_lt_Some.
Qed.

Lemma peek_ok p : tok_ok (peek toks p) ∨ peek toks p = TEof.
Proof.
  unfold peek. destruct (toks !! sp_i p) as [t|] eqn:Ht; simpl; [|by right].
  by apply (Forall_lookup_1 _ _ _ _ Htoks Ht).
Qed.

Lemma is_op_not_eof ops t : is_op ops t = true → t ≠ TEof.
Proof. by intros H ->. Qed.
Lemma is_word_not_eof w t : is_word w t = true → t ≠ TEof.
Proof. unfold is_word. intros H%bool_decide_eq_true_1 ->. done. Qed.

(** The rule of the parser's loops. *)
Lemma wp_tokens {A} (I : A → Parser → Prop) (body : A → prs (A * bool)) a p Q :
  (∀ a p, I a p → wp (body a) p (λ r p',
     if r.2 : bool then I r.1 p' ∧ (sp_i p < length toks)%nat ∧ (sp_i p < sp_i p')%nat else Q r.1 p')) →
  I a p → wp (while_ toks body a) p Q.
Proof.
  intros Hbody HI. unfold while_.
  enough (wp (loop (S (length toks - sp_i p)) body a) p Q) as H by exact H.
  apply (wp_loop I (λ _ p, length toks - sp_i p)%nat); [|done|lia].
  intros a' p' HI'. eapply wp_mono; [by apply Hbody|]. intros [b []] p'' H; simpl in *; [|done].
  destruct H as (? & ? & ?). split; [done|lia].
Qed.

(** ** Redirects and simple commands *)

Lemma to_target_ok fd op p : fd_range fd → op ≠ OpDupOut → op ≠ OpClose →
  wp (to_target toks fd op) p (λ rs p', frame p p' ∧ rs ≠ [] ∧ Forall redirect_ok rs).
Proof.
  intros Hfd Hd Hc. unfold to_target. apply wp_bind. eapply wp_mono; [apply take_word_frame|].
  intros w p' Hp'. apply wp_ret. split; [done|]. split; [done|]. apply Forall_singleton. split; [done|by destruct op].
Qed.

Lemma fd_redirect_known fd op p : fd_range fd → fd_operator op →
  wp (fd_redirect toks fd op) p (λ found p', frame p p' ∧
    ∃ rs, found = Some rs ∧ rs ≠ [] ∧ Forall redirect_ok rs).
Proof.
  intros Hfd Hop. unfold fd_redirect.
  assert (Hfd1 : fd_range 1) by (unfold fd_range; lia). assert (Hfd2 : fd_range 2) by (unfold fd_range; lia).
  destruct (bool_decide (op = "&>") || bool_decide (op = "&>>")) eqn:Hamp.
  { apply wp_bind. eapply wp_mono; [apply take_word_frame|]. intros w p' Hp'. apply wp_ret. split; [done|].
    eexists. split; [done|]. split; [done|]. constructor; [split; [done|]; cbn [rd_op rd_target]; by destruct (bool_decide (op = "&>>"))|].
    apply Forall_singleton. split; [done|]. by exists "1". }
  destruct (bool_decide (op = ">&-") || bool_decide (op = "<&-")) eqn:Hcl.
  { apply wp_ret. split; [done|]. eexists. split; [done|]. split; [done|]. by apply Forall_singleton. }
  assert (Hdup : ∀ rest, wp (mret (Some [MkRedirect fd OpDupOut ("&" +:+ rest)])) p (λ found p', frame p p' ∧
    ∃ rs, found = Some rs ∧ rs ≠ [] ∧ Forall redirect_ok rs)).
  { intros rest. apply wp_ret. split; [done|]. eexists. split; [done|]. split; [done|]. apply Forall_singleton. split; [done|].
    by exists rest. }
  assert (Hto : ∀ o, o ≠ OpDupOut → o ≠ OpClose →
    wp (r ← to_target toks fd o; mret (Some r)) p (λ found p', frame p p' ∧
      ∃ rs, found = Some rs ∧ rs ≠ [] ∧ Forall redirect_ok rs)).
  { intros o Hod Hoc. apply wp_bind. eapply wp_mono; [by apply to_target_ok|]. intros rs p' (Hp' & Hne & Hrs).
    apply wp_ret. split; [done|]. by exists rs. }
  destruct (strip_prefix ">&" op) as [r1|] eqn:H1; [apply Hdup|].
  destruct (strip_prefix "<&" op) as [r2|] eqn:H2; [apply Hdup|].
  repeat (case_match; [by apply Hto|]). exfalso. bool_to_prop.
  destruct Hop as [Hop|(ds & _ & [-> | ->])]; [set_solver| |].
  - by rewrite strip_prefix_append in H1.
  - by rewrite strip_prefix_append in H2.
Qed.

Lemma redirect_at_ok unknown t p m : tok_ok t → redirect_at toks unknown t = Some m →
  wp m p (λ rs p', frame p p' ∧ (sp_i p < sp_i p')%nat ∧ rs ≠ [] ∧ Forall redirect_ok rs).
Proof.
  assert (Hfd0 : fd_range 0) by (unfold fd_range; lia). assert (Hfd1 : fd_range 1) by (unfold fd_range; lia).
  set (Q := λ (rs : list Redirect) p', frame p p' ∧ (sp_i p < sp_i p')%nat ∧ rs ≠ [] ∧ Forall redirect_ok rs).
  assert (Hto : ∀ fd op, fd_range fd → op ≠ OpDupOut → op ≠ OpClose →
    wp (_ ← advance 1; to_target toks fd op) p Q).
  { intros fd op Hfd Hd Hc. apply wp_bind, wp_move. eapply wp_mono; [by apply to_target_ok|].
    intros rs p' (Hp' & Hne & Hrs). split; [etrans; [apply moved_frame|exact Hp']|].
    destruct Hp' as [Hi _ _]. simpl in Hi. split; [lia|done]. }
  assert (Hone : ∀ r, redirect_ok r → wp (_ ← advance 1; mret [r]) p Q).
  { intros r Hr. apply wp_bind, wp_move, wp_ret. split; [apply moved_frame|]. split; [simpl; lia|]. split; [done|]. by apply Forall_singleton. }
  intros Ht. destruct t; try done; cbn [redirect_at]; intros [= <-].
  - by apply Hto.
  - by apply Hto.
  - by apply Hto.
  - apply Hone. split; [done|]. simpl. by destruct quoted.
  - apply Hone. by split.
  - apply Hone. split; [done|]. simpl. eauto.
  - apply Hone. by split.
  - destruct Ht as [Hfd Hop]. apply wp_bind, wp_move, wp_bind.
    eapply wp_mono; [by apply fd_redirect_known|]. intros found p' (Hp' & rs & -> & Hne & Hrs). apply wp_ret.
    split; [etrans; [apply moved_frame|exact Hp']|]. destruct Hp' as [Hi _ _]. simpl in Hi. split; [lia|done].
Qed.

Lemma redirect_at_eof unknown : redirect_at toks unknown TEof = None.
Proof. reflexivity. Qed.

Lemma attach_redirects_ok node p :
  wp (attach_redirects toks node) p (λ n p', frame p p' ∧ (n = node ∨ ∃ rs, n = NRedirected node rs ∧
    rs ≠ [] ∧ Forall redirect_ok rs)).
Proof.
  unfold attach_redirects. apply wp_bind.
  apply (wp_tokens (λ rs p', frame p p' ∧ Forall redirect_ok rs)); [|by split].
  intros rs p1 [Hp1 Hrs]. unfold attach_step. apply wp_bind, wp_gets.
  destruct (redirect_at toks panic (peek toks p1)) as [m|] eqn:Hm.
  - destruct (peek_ok p1) as [Hok|Heof]; [|by rewrite Heof in Hm].
    apply wp_bind. eapply wp_mono; [by eapply redirect_at_ok|]. intros r p2 (Hp2 & Hi & Hne & Hr).
    apply wp_ret. simpl. split; [split; [by transitivity p1|by apply Forall_app]|]. split; [|done].
    apply token_inside. intros Heof. by rewrite Heof in Hm.
  - apply wp_ret, wp_ret. split; [done|]. case_bool_decide; [by left|right]. by exists rs.
Qed.

Lemma is_assignment_splits w : is_assignment w = true → ∃ assign, split_assignment w = Ret assign.
Proof.
  unfold is_assignment, split_assignment. destruct (str_find "="%char w); [|done]. intros _. by eexists.
Qed.

Lemma assigns_ok p : wp (while_ toks (assign_step toks) []) p (framed p).
Proof.
  apply (wp_tokens (λ _ p', frame p p')); [|done]. intros assigns p1 Hp1. unfold assign_step.
  apply wp_bind, wp_gets. destruct (peek toks p1) as [w| | | | | | | | | | |] eqn:Hpk; try by apply wp_ret.
  destruct (is_assignment w) eqn:Hw; [|by apply wp_ret].
  destruct (is_assignment_splits w Hw) as [assign ->]. apply wp_bind, wp_move, wp_ret. simpl.
  split; [etrans; [exact Hp1|apply moved_frame]|]. split; [|lia]. apply token_inside. by rewrite Hpk.
Qed.

Lemma parse_simple_ok p : wp (parse_simple toks) p (λ n p', frame p p' ∧
  ∃ assigns words redirects, n = NCommand assigns words redirects ∧ command_words_ok words ∧ Forall redirect_ok redirects).
Proof.
  unfold parse_simple. apply wp_bind. eapply wp_mono; [apply assigns_ok|]. intros assigns p0 Hp0. apply wp_bind.
  apply (wp_tokens (λ acc p', frame p p' ∧ command_words_ok acc.1 ∧ Forall redirect_ok acc.2)); [|by split].
  intros [words redirects] p1 (Hp1 & Hw & Hr); simpl in Hw, Hr. unfold simple_step. apply wp_bind, wp_gets.
  assert (Hstop : wp (mret (words, redirects, false)) p1 (λ r p', if r.2
    then (frame p p' ∧ command_words_ok r.1.1 ∧ Forall redirect_ok r.1.2) ∧ (sp_i p1 < length toks)%nat ∧ (sp_i p1 < sp_i p')%nat
    else wp (let '(words, redirects) := r.1 in mret (NCommand assigns words redirects)) p' (λ n p', frame p p' ∧
      ∃ assigns words redirects, n = NCommand assigns words redirects ∧ command_words_ok words ∧ Forall redirect_ok redirects))).
  { apply wp_ret. simpl. apply wp_ret. split; [done|]. eauto 10. }
  assert (Hredir : ∀ t, peek toks p1 = t → wp (match redirect_at toks (mret []) t with
      | Some m => r ← m; mret ((words, redirects ++ r), true)
      | None => mret ((words, redirects), false)
      end) p1 (λ r p', if r.2
    then (frame p p' ∧ command_words_ok r.1.1 ∧ Forall redirect_ok r.1.2) ∧ (sp_i p1 < length toks)%nat ∧ (sp_i p1 < sp_i p')%nat
    else wp (let '(words, redirects) := r.1 in mret (NCommand assigns words redirects)) p' (λ n p', frame p p' ∧
      ∃ assigns words redirects, n = NCommand assigns words redirects ∧ command_words_ok words ∧ Forall redirect_ok redirects))).
  { intros t Ht. destruct (redirect_at toks _ t) as [m|] eqn:Hm; [|exact Hstop].
    destruct (peek_ok p1) as [Hok|Heof]; rewrite Ht in *; [|by rewrite Heof in Hm].
    apply wp_bind. eapply wp_mono; [by eapply redirect_at_ok|]. intros r p2 (Hp2 & Hi & Hne & Hrs). apply wp_ret. simpl.
    split; [split; [by transitivity p1|]; split; [done|by apply Forall_app]|]. split; [|done].
    apply token_inside. rewrite Ht. intros ->. done. }
  destruct (peek toks p1) as [w| | | | | | | | | | |] eqn:Hpk; try by (apply Hredir).
  destruct (bool_decide (words = []) && reserved w && _) eqn:Hres; [exact Hstop|].
  apply wp_bind, wp_move, wp_ret. simpl. split; [|split; [apply token_inside; by rewrite Hpk|lia]].
  split; [etrans; [exact Hp1|apply moved_frame]|]. split; [|done].
  destruct words as [|w0 words]; [|done]. simpl. rewrite bool_decide_eq_true_2 in Hres by done. simpl in Hres.
  apply andb_false_iff in Hres as [Hres|Hres%negb_false_iff%bool_decide_eq_true_1]; [by left|by right].
Qed.

(** ** The rules *)

Lemma height_le4 n B : Forall (λ c, 4 * height c ≤ B)%nat (children n) → (4 * height n ≤ B + 4)%nat.
Proof. rewrite height_children. induction 1; simpl; lia. Qed.

(** Without an error, the node is well-formed and not a placeholder. *)
Definition sound (n : Node) (p : Parser) : Prop := sp_error p = None → node_wf n ∧ n ≠ NEmpty.

Definition levels (p : Parser) : nat := MAX_SYNTAX_DEPTH - sp_depth p.

(** A node that redirects may be attached to. *)
Definition compound (n : Node) : Prop :=
  match n with NCommand _ _ _ | NRedirected _ _ | NEmpty => False | _ => True end.

Definition shape (rule : Rule) (n : Node) : Prop :=
  match rule with RIf | RFor | RWhile _ | RCase => compound n | _ => True end.

Definition built (rule : Rule) (p : Parser) (n : Node) (p' : Parser) : Prop :=
  frame p p' ∧ sound n p' ∧ (4 * height n ≤ height_bound rule (levels p))%nat ∧ shape rule n.

Definition ready (fuel : nat) (rule : Rule) (p : Parser) : Prop :=
  (sp_depth p ≤ MAX_SYNTAX_DEPTH)%nat ∧ (4 * levels p + rule_rank rule < fuel)%nat.

Lemma frame_levels p p' : frame p p' → levels p' = levels p.
Proof. intros [_ Hd _]. unfold levels. by rewrite Hd. Qed.

Lemma sound_weaken n p p' : frame p p' → sound n p → sound n p'.
Proof. intros [_ _ He] Hs Hp'. by apply Hs, He. Qed.

Lemma sound_node n p :
  (sp_error p = None → node_ok n ∧ Forall node_wf (children n)) → n ≠ NEmpty → sound n p.
Proof. intros H Hne He. destruct (H He). split; [by constructor|done]. Qed.

Lemma sound_one n c p : children n = [c] → n ≠ NEmpty →
  (c ≠ NEmpty → node_ok n) → sound c p → sound n p.
Proof.
  intros Hc Hne Hok Hs. apply sound_node; [|done]. intros He. destruct (Hs He). rewrite Hc.
  split; [by apply Hok|by apply Forall_singleton].
Qed.

Section rules.
Context (rec : Rule → prs Node) (fuel : nat).
Hypothesis Hrec : ∀ rule p, ready fuel rule p → wp (rec rule) p (built rule p).

(** Calling a rule from a state framed by [p], with a smaller rank. *)
Lemma call rule rule' p p1 : ready (S fuel) rule p → (rule_rank rule' < rule_rank rule)%nat → frame p p1 →
  wp (rec rule') p1 (λ n p2, frame p p2 ∧ frame p1 p2 ∧ sound n p2 ∧
    (4 * height n ≤ height_bound rule' (levels p))%nat).
Proof.
  intros [Hd Hf] Hrank Hp1. pose proof (frame_levels _ _ Hp1) as Hl. eapply wp_mono; [apply Hrec|].
  - split; [destruct Hp1; lia|]. rewrite Hl. lia.
  - intros n p2 (Hp2 & Hs & Hh & _). rewrite Hl in Hh. split; [by transitivity p1|done].
Qed.

Lemma program_ok p : ready (S fuel) RProgram p → wp (parse_program toks rec) p (built RProgram p).
Proof.
  intros Hready. unfold parse_program. apply wp_bind. eapply wp_mono; [apply skip_ops_frame|]. intros u p0 Hp0.
  apply wp_bind.
  apply (wp_tokens (λ nodes p', frame p p' ∧ (sp_error p' = None → Forall (λ n, node_wf n ∧ n ≠ NEmpty) nodes) ∧
    Forall (λ n, 4 * height n ≤ height_bound RAndOr (levels p))%nat nodes)); [|by split; [|split; [intros; apply Forall_nil|apply Forall_nil]]].
  intros nodes p1 (Hp1 & Hwf & Hh). unfold program_step. apply wp_bind, wp_gets, wp_bind, wp_gets.
  assert (Hend : ∀ nodes p1, frame p p1 → (sp_error p1 = None → Forall (λ n, node_wf n ∧ n ≠ NEmpty) nodes) →
    Forall (λ n, 4 * height n ≤ height_bound RAndOr (levels p))%nat nodes →
    wp (mret match nodes with [node] => node | _ => NSeq nodes end) p1 (built RProgram p)).
  { clear nodes p1 Hp1 Hwf Hh. intros nodes p1 Hp1 Hwf Hh. apply wp_ret. split; [done|].
    assert (Hcase : (∃ n, nodes = [n]) ∨ (length nodes ≠ 1%nat ∧ match nodes with [node] => node | _ => NSeq nodes end = NSeq nodes)).
    { destruct nodes as [|n1 [|n2 nodes]]; [by right|by left; eexists|by right]. }
    destruct Hcase as [[n ->]|[Hlen ->]].
    - rewrite Forall_singleton in Hh. pose proof (bound_program (levels p)). split; [|split; [lia|done]]. intros He.
      specialize (Hwf He). by rewrite Forall_singleton in Hwf.
    - split.
      + apply sound_node; [|done]. intros He. specialize (Hwf He). split; [split; [done|]|].
        * eapply Forall_impl; [exact Hwf|]. by intros c [_ ?].
        * eapply Forall_impl; [exact Hwf|]. by intros c [? _].
      + split; [|done]. eapply Nat.le_trans; [apply height_le4; exact Hh|]. apply bound_program. }
  destruct (is_eof _ || _ || _) eqn:Hstop; [by apply wp_ret, Hend|].
  apply orb_false_iff in Hstop as [[Heof _]%orb_false_iff _].
  apply wp_bind, wp_gets, wp_bind. eapply wp_mono; [by apply (call RProgram RAndOr p); [|simpl; lia|]|].
  intros n p2 (Hp2 & Hp12 & Hs & Hn). apply wp_bind, wp_gets.
  assert (Hwf2 : sp_error p2 = None → Forall (λ n, node_wf n ∧ n ≠ NEmpty) (nodes ++ [n])).
  { intros He. apply Forall_app. split; [apply Hwf; by apply Hp12|]. apply Forall_singleton. by apply Hs. }
  assert (Hh2 : Forall (λ n, 4 * height n ≤ height_bound RAndOr (levels p))%nat (nodes ++ [n])).
  { apply Forall_app. split; [done|]. by apply Forall_singleton. }
  case_bool_decide as Hpos.
  - apply wp_bind. eapply wp_mono; [apply expected_frame|]. intros e p3 [Hp3 [er Her]]. apply wp_ret. simpl.
    apply Hend; [by transitivity p2|congruence|done].
  - apply wp_bind. eapply wp_mono; [apply skip_ops_frame|]. intros e p3 Hp3. apply wp_bind, wp_gets, wp_ret. simpl.
    assert (Hwf3 : sp_error p3 = None → Forall (λ n, node_wf n ∧ n ≠ NEmpty) (nodes ++ [n]))
      by (intros He; apply Hwf2; by apply Hp3).
    destruct (negb _); [|apply Hend; [by transitivity p2|done|done]].
    split; [split; [by transitivity p2|done]|]. split.
    + apply token_inside. unfold is_eof in Heof. by apply bool_decide_eq_false_1 in Heof.
    + destruct Hp12, Hp3. lia.
Qed.

Lemma sound_pair n l r p : children n = [l; r] → n ≠ NEmpty →
  (l ≠ NEmpty → r ≠ NEmpty → node_ok n) → sound l p → sound r p → sound n p.
Proof.
  intros Hc Hne Hok Hl Hr. apply sound_node; [|done]. intros He. destruct (Hl He), (Hr He). rewrite Hc.
  split; [by apply Hok|]. by apply Forall_cons_2; [|apply Forall_singleton].
Qed.

(** A chain counts its links as levels until it ends. *)
Record linked (p : Parser) (links : nat) (p' : Parser) : Prop := {
  li_i : (sp_i p ≤ sp_i p')%nat;
  li_depth : sp_depth p' = (sp_depth p + links)%nat;
  li_bound : (sp_depth p + links ≤ MAX_SYNTAX_DEPTH)%nat;
  li_error : sp_error p' = None → sp_error p = None
}.

Lemma linked_frame p links p1 p2 : linked p links p1 → frame p1 p2 → linked p links p2.
Proof. intros [? ? ? ?] [? ? ?]. split; [lia|congruence|done|eauto]. Qed.

Lemma frame_linked p p' : (sp_depth p ≤ MAX_SYNTAX_DEPTH)%nat → frame p p' → linked p 0 p'.
Proof. intros ? [? ? ?]. split; [done|lia|lia|done]. Qed.

Lemma too_deep_frame p : wp too_deep p (λ n p', frame p p' ∧ n = NEmpty ∧ is_Some (sp_error p')).
Proof. apply wp_bind, wp_modify, wp_ret. split; [by split|]. by split. Qed.

Lemma deepen_ok p links p1 : linked p links p1 →
  wp deepen p1 (λ b p2, if b : bool then linked p (S links) p2 ∧ sp_i p2 = sp_i p1 ∧ sp_error p2 = sp_error p1
                        else linked p links p2 ∧ is_Some (sp_error p2)).
Proof.
  intros Hl. unfold deepen. apply wp_bind, wp_gets. case_bool_decide as Hd.
  - apply wp_bind. eapply wp_mono; [apply too_deep_frame|]. intros n p2 (Hp2 & _ & He). apply wp_ret.
    split; [by eapply linked_frame|done].
  - apply wp_bind, wp_modify, wp_ret. destruct Hl as [? Hdep ? ?]. split; [|done]. split; simpl; [done|lia|lia|done].
Qed.

(** Calling the pipeline rule inside a chain of [p]. *)
Lemma call_linked p links p1 : ready (S fuel) RAndOr p → linked p links p1 →
  wp (rec RPipeline) p1 (λ n p2, linked p links p2 ∧ frame p1 p2 ∧ sound n p2 ∧
    (4 * height n ≤ height_bound RPipeline (levels p))%nat).
Proof.
  intros [Hd Hf] Hl. assert (Hle : (levels p1 ≤ levels p)%nat) by (unfold levels; destruct Hl; lia).
  eapply wp_mono; [apply Hrec|].
  - split; [destruct Hl; lia|]. simpl in *. lia.
  - intros n p2 (Hp2 & Hs & Hh & _). split; [by eapply linked_frame|]. split; [done|]. split; [done|].
    eapply Nat.le_trans; [exact Hh|]. by apply bound_pipeline_mono.
Qed.

Definition chain (p : Parser) (acc : Node * nat) (p' : Parser) : Prop :=
  linked p acc.2 p' ∧ sound acc.1 p' ∧ (4 * height acc.1 ≤ height_bound RPipeline (levels p) + 4 * acc.2)%nat.

Lemma leave_ok n p p' : linked p n p' → wp (leave n) p' (λ _ p2, frame p p2 ∧ sp_error p2 = sp_error p').
Proof.
  intros [Hi Hd Hb He]. unfold leave. apply wp_bind, wp_gets. rewrite bool_decide_eq_true_2 by lia.
  apply wp_modify. split; [|done]. split; simpl; [done|lia|done].
Qed.

Lemma sound_error n p p' : (sp_error p' = None → sp_error p = None) → sound n p → sound n p'.
Proof. intros He Hs Hp'. apply Hs. by apply He. Qed.

Lemma and_or_round p acc p1 : ready (S fuel) RAndOr p → chain p acc p1 →
  wp (and_or_step toks rec acc) p1 (λ r p2, chain p r.1 p2 ∧
    (r.2 = true → (sp_i p1 < length toks)%nat ∧ (sp_i p1 < sp_i p2)%nat)).
Proof.
  intros Hready (Hl & Hs & Hh). destruct acc as [lhs links]. simpl in Hs, Hh. unfold and_or_step. apply wp_bind, wp_gets.
  assert (Hin : ∀ ops, is_op ops (peek toks p1) = true → (sp_i p1 < length toks)%nat)
    by (intros ops Hop; eapply token_inside, is_op_not_eof, Hop).
  assert (Hdone : wp (mret (lhs, links, false)) p1 (λ r p2, chain p r.1 p2 ∧
    (r.2 = true → (sp_i p1 < length toks)%nat ∧ (sp_i p1 < sp_i p2)%nat))) by (apply wp_ret; split; [by split|done]).
  set (p1' := MkParser (sp_i p1 + 1) (sp_error p1) (sp_depth p1)).
  assert (Hl1 : linked p links p1') by (eapply linked_frame; [exact Hl|apply moved_frame]).
  assert (Hstop : ∀ p2, linked p links p2 → is_Some (sp_error p2) → wp (mret (lhs, links, false)) p2 (λ r p2, chain p r.1 p2 ∧
    (r.2 = true → (sp_i p1 < length toks)%nat ∧ (sp_i p1 < sp_i p2)%nat))).
  { intros p2 Hl2 [e He]. apply wp_ret. split; [|done]. split; [done|]. split; [|done]. intros He'. congruence. }
  destruct (is_op ["&"] (peek toks p1)) eqn:Hamp; [|destruct (is_op ["&&"; "||"] (peek toks p1)) eqn:Hop; [|exact Hdone]].
  - apply wp_bind, wp_move, wp_bind. eapply wp_mono; [by apply deepen_ok|]. intros [] p2; [|intros [? ?]; by apply Hstop].
    intros (Hl2 & Hi2 & He2). apply wp_ret. simpl. split; [|intros _; split; [by eapply Hin|rewrite Hi2; simpl; lia]].
    split; [done|]. split.
    + apply (sound_one _ lhs); [done|done| |eapply sound_error; [|exact Hs]; by rewrite He2].
      intros Hne. split; [done|]. by apply Forall_singleton.
    + assert (Forall (λ c, 4 * height c ≤ height_bound RPipeline (levels p) + 4 * links)%nat (children (NBackground lhs))) as Hc
        by (by apply Forall_singleton). apply height_le4 in Hc. cbn [fst snd]. lia.
  - apply wp_bind, wp_move, wp_bind. eapply wp_mono; [by apply deepen_ok|]. intros [] p2; [|intros [? ?]; by apply Hstop].
    intros (Hl2 & Hi2 & He2). apply wp_bind. eapply wp_mono; [apply skip_ops_frame|]. intros u p3 Hp3.
    pose proof (linked_frame _ _ _ _ Hl2 Hp3) as Hl3. apply wp_bind. eapply wp_mono; [by apply call_linked|].
    intros rhs p4 (Hl4 & Hp4 & Hs4 & Hh4). apply wp_ret. cbn [fst snd].
    split; [|intros _; split; [by eapply Hin|destruct Hp3, Hp4; rewrite Hi2 in *; simpl in *; lia]].
    assert (Hsl : sound lhs p4).
    { eapply sound_error; [|exact Hs]. intros He4. apply (fr_error _ _ Hp4), (fr_error _ _ Hp3) in He4. by rewrite He2 in He4. }
    assert (Hch : Forall (λ c, 4 * height c ≤ height_bound RPipeline (levels p) + 4 * links)%nat [lhs; rhs])
      by (apply Forall_cons_2; [done|]; apply Forall_singleton; lia).
    split; [done|]. destruct (is_op ["&&"] (peek toks p1)); split.
    1, 3: apply (sound_pair _ lhs rhs); [done|done| |done|done]; intros; split; [done|]; by apply Forall_cons_2; [|apply Forall_singleton].
    1: pose proof (height_le4 (NAnd lhs rhs) _ Hch). 2: pose proof (height_le4 (NOr lhs rhs) _ Hch).
    all: cbn [fst snd]; lia.
Qed.

Lemma and_or_ok p : ready (S fuel) RAndOr p → wp (parse_and_or toks rec) p (built RAndOr p).
Proof.
  intros Hready. unfold parse_and_or. apply wp_bind.
  eapply wp_mono; [apply (call_linked p 0); [done|by apply frame_linked; [apply Hready|]]|].
  intros lhs p0 (Hl0 & _ & Hs0 & Hh0). apply wp_bind.
  apply (wp_tokens (chain p)); [|split; [done|]; split; [done|]; cbn [fst snd]; lia].
  intros acc p1 Hc. eapply wp_mono; [by apply and_or_round|].
  intros [[lhs' links] []] p2 [(Hl & Hs & Hh) Hgo]; cbn [fst snd] in *; [split; [by split|by apply Hgo]|].
  apply wp_bind. eapply wp_mono; [by eapply leave_ok|]. intros u p3 [Hp3 He3]. apply wp_ret. split; [done|].
  split; [eapply sound_error; [|exact Hs]; by rewrite He3|].
  destruct Hl as [_ _ Hb _]. pose proof (bound_and_or (levels p)). split; [|done]. unfold levels in *. lia.
Qed.

(** ** Nested rules *)

Definition raise (p : Parser) : Parser := MkParser (sp_i p) (sp_error p) (S (sp_depth p)).

Lemma descend_ok rule body p : rule = RPipeline ∨ rule = RCommand → ready (S fuel) rule p →
  (sp_depth p < MAX_SYNTAX_DEPTH → wp body (raise p) (λ n p2,
     frame (raise p) p2 ∧ sound n p2 ∧ 4 * height n ≤ height_bound rule (levels p)))%nat →
  wp (descend body) p (built rule p).
Proof.
  intros Hrule [Hd _] Hbody. assert (Hsh : ∀ n, shape rule n) by (by destruct Hrule as [-> | ->]). unfold descend. apply wp_bind, wp_gets. case_bool_decide as Hdeep.
  - eapply wp_mono; [apply too_deep_frame|]. intros n p1 (Hp1 & -> & [e He]). split; [done|].
    split; [intros He'; congruence|]. split; [apply bound_min|done].
  - apply wp_bind, wp_modify, wp_bind. fold (raise p). eapply wp_mono; [apply Hbody; lia|].
    intros n p1 (Hp1 & Hs & Hh). apply wp_bind.
    assert (Hl : linked p 1 p1).
    { destruct Hp1 as [Hi Hdep He]. simpl in *. split; [lia|lia|lia|done]. }
    eapply wp_mono; [by eapply leave_ok|]. intros u p2 [Hp2 He2]. apply wp_ret. split; [done|].
    split; [eapply sound_error; [|exact Hs]; by rewrite He2|done].
Qed.

Lemma call_deeper rule rule' p p1 : ready (S fuel) rule p → (sp_depth p < MAX_SYNTAX_DEPTH)%nat → frame (raise p) p1 →
  wp (rec rule') p1 (λ n p2, frame (raise p) p2 ∧ frame p1 p2 ∧ sound n p2 ∧
    (4 * height n ≤ height_bound rule' (pred (levels p)))%nat ∧ shape rule' n).
Proof.
  intros [Hd Hf] Hlt Hp1.
  assert (Hlev : levels p1 = pred (levels p) ∧ (0 < levels p)%nat).
  { destruct Hp1 as [_ Hdep _]. unfold levels. rewrite Hdep. simpl. lia. }
  destruct Hlev as [Hlev Hpos]. eapply wp_mono; [apply Hrec|].
  - split; [destruct Hp1 as [_ Hdep _]; rewrite Hdep; simpl; lia|]. rewrite Hlev. destruct rule'; simpl; lia.
  - intros n p2 (Hp2 & Hs & Hh). rewrite Hlev in Hh. split; [by transitivity p1|done].
Qed.

Lemma levels_pos p : (sp_depth p < MAX_SYNTAX_DEPTH)%nat → levels p = S (pred (levels p)).
Proof. unfold levels. lia. Qed.

(** ** Pipelines *)

Lemma stderr_redirect_ok : redirect_ok (MkRedirect 2 OpDupOut "&1").
Proof. split; [unfold fd_range; simpl; lia|]. by exists "1". Qed.

Lemma stderr_sound n p : sound n p → sound (redirect_pipeline_stderr n) p.
Proof.
  intros Hs He. destruct (Hs He) as [Hwf Hne]. pose proof stderr_redirect_ok as Hr.
  destruct n; cbn [redirect_pipeline_stderr]; (split; [|done]); inversion Hwf as [? [Hok Hch] Hws]; subst; constructor.
  all: try (split; [split; [done|]; split; [by apply Forall_singleton|done]|]; by apply Forall_singleton).
  all: try (by apply Forall_singleton).
  all: try done.
  - split; [|done]. destruct Hok as [Hw Hrs]. split; [done|]. apply Forall_app. split; [done|by apply Forall_singleton].
  - split; [|done]. destruct Hok as (_ & Hrs & Hn). split; [by destruct redirects|]. split; [|done].
    apply Forall_app. split; [done|by apply Forall_singleton].
Qed.

Lemma stderr_height n : (height (redirect_pipeline_stderr n) ≤ S (height n))%nat.
Proof. destruct n; cbn [redirect_pipeline_stderr height]; lia. Qed.

Definition good (n : Node) : Prop := node_wf n ∧ n ≠ NEmpty.

Definition stages_ok (B : nat) (stages : list Node) (p : Parser) : Prop :=
  ∃ init final, stages = init ++ [final] ∧ (sp_error p = None → Forall good stages) ∧
    Forall (λ n, 4 * height n ≤ B + 4)%nat init ∧ (4 * height final ≤ B)%nat.

Lemma join_stderr_ok B stages p : stages_ok B stages p →
  wp (join_stderr stages) p (λ stages' p', p' = p ∧ length stages' = length stages ∧
    (sp_error p = None → Forall good stages') ∧ Forall (λ n, 4 * height n ≤ B + 4)%nat stages').
Proof.
  intros (init & final & -> & Hgood & Hh & Hf). unfold join_stderr. rewrite last_snoc.
  rewrite length_app, Nat.add_1_r. simpl pred. rewrite take_app_length. apply wp_ret.
  split; [done|]. split; [by rewrite length_app, Nat.add_1_r|]. split.
  - intros He. specialize (Hgood He). apply Forall_app in Hgood as [Hg1 Hg2]. apply Forall_app. split; [done|].
    rewrite Forall_singleton in Hg2. apply Forall_singleton. exact (stderr_sound final p (λ _, Hg2) He).
  - apply Forall_app. split; [done|]. apply Forall_singleton. pose proof (stderr_height final). lia.
Qed.

(** An optional token before a rule. *)
Lemma skip_if (b : bool) p0 p : frame p0 p → wp (if b then advance 1 else mret tt) p (framed p0).
Proof.
  intros Hp. destruct b; [|by apply wp_ret]. eapply wp_mono; [apply advance_frame|]. intros u p1 Hp1. by transitivity p.
Qed.

Lemma timed_ok p : ready (S fuel) RPipeline p → (sp_depth p < MAX_SYNTAX_DEPTH)%nat →
  wp (parse_timed toks rec) (raise p) (λ n p2,
    frame (raise p) p2 ∧ sound n p2 ∧ (4 * height n ≤ height_bound RPipeline (levels p))%nat).
Proof.
  intros Hready Hlt. rewrite (levels_pos p Hlt). destruct (bound_pipeline (pred (levels p))) as [_ Hb].
  unfold parse_timed. apply wp_bind, wp_move, wp_bind, wp_gets, wp_bind.
  eapply wp_mono; [apply skip_if, moved_frame|]. intros u p1 Hp1. apply wp_bind, wp_gets, wp_bind.
  assert (Hinner : ∀ b : bool, wp (if b then mret (NSeq []) else rec RPipeline) p1 (λ n p2,
    frame (raise p) p2 ∧ sound n p2 ∧ (4 * height n ≤ height_bound RPipeline (pred (levels p)))%nat)).
  { intros []; [|by eapply wp_mono; [by eapply call_deeper|]; intros n p2 (? & _ & ? & ? & _)].
    apply wp_ret. split; [done|]. split; [|apply bound_min]. apply sound_node; [|done].
    intros _. split; [by split|done]. }
  eapply wp_mono; [apply Hinner|]. intros n p2 (Hp2 & Hs & Hh). apply wp_ret. split; [done|]. split.
  - apply (sound_one _ n); [done|done| |done]. intros Hne. split; [done|]. by apply Forall_singleton.
  - eapply Nat.le_trans; [|exact Hb]. apply height_le4. by apply Forall_singleton.
Qed.

Lemma stage_round p B stages p1 : B = height_bound RCommand (pred (levels p)) →
  ready (S fuel) RPipeline p → (sp_depth p < MAX_SYNTAX_DEPTH)%nat →
  frame (raise p) p1 → stages_ok B stages p1 →
  wp (stage_step toks rec stages) p1 (λ r p2, (frame (raise p) p2 ∧ stages_ok B r.1 p2) ∧
    (r.2 = true → (sp_i p1 < length toks)%nat ∧ (sp_i p1 < sp_i p2)%nat)).
Proof.
  intros HB Hready Hlt Hp1 Hst. unfold stage_step. apply wp_bind, wp_gets.
  destruct (is_op ["|"; "|&"] (peek toks p1)) eqn:Hop; [|by apply wp_ret].
  apply wp_bind, wp_move, wp_bind. set (p2 := MkParser _ _ _).
  assert (Hjoin : ∀ b : bool, wp (if b then join_stderr stages else mret stages) p2 (λ stages' p', p' = p2 ∧
    length stages' = length stages ∧ (sp_error p2 = None → Forall good stages') ∧ Forall (λ n, 4 * height n ≤ B + 4)%nat stages')).
  { intros []; [by apply join_stderr_ok|]. apply wp_ret. destruct Hst as (init & final & -> & Hg & Hh & Hf).
    do 3 (split; [done|]). apply Forall_app. split; [done|]. apply Forall_singleton. lia. }
  eapply wp_mono; [apply Hjoin|]. intros stages' ? (-> & _ & Hg & Hh). apply wp_bind.
  eapply wp_mono; [apply skip_ops_frame|]. intros u p3 Hp3. apply wp_bind.
  assert (Hp13 : frame (raise p) p3) by (transitivity p2; [transitivity p1; [done|apply moved_frame]|done]).
  eapply wp_mono; [by eapply call_deeper|]. intros stage p4 (Hp4 & Hp34 & Hs4 & Hh4 & _). apply wp_ret. cbn [fst snd].
  split; [split; [done|]|intros _; split; [eapply token_inside, is_op_not_eof, Hop|destruct Hp3, Hp34; simpl in *; lia]].
  exists stages', stage. split; [done|]. split; [|split; [done|by rewrite HB]]. intros He. apply Forall_app. split.
  - apply Hg. apply (fr_error _ _ Hp3), (fr_error _ _ Hp34), He.
  - apply Forall_singleton. by apply Hs4.
Qed.

Lemma stages_node B stages p : stages_ok B stages p →
  let node := match stages with [stage] => stage | _ => NPipeline stages end in
  sound node p ∧ (4 * height node ≤ B + 8)%nat.
Proof.
  intros (init & final & -> & Hg & Hh & Hf). destruct init as [|s1 init]; cbn [app] in *.
  { split; [|lia]. intros He. specialize (Hg He). by rewrite Forall_singleton in Hg. }
  assert (Heq : match init ++ [final] with [] => s1 | _ => NPipeline (s1 :: init ++ [final]) end =
    NPipeline (s1 :: init ++ [final])) by (by destruct init).
  cbv zeta. rewrite Heq. split.
  - apply sound_node; [|done]. intros He. specialize (Hg He). split; [split|].
    + simpl. rewrite length_app. simpl. lia.
    + eapply Forall_impl; [exact Hg|]. by intros ? [_ ?].
    + eapply Forall_impl; [exact Hg|]. by intros ? [? _].
  - replace (B + 8)%nat with (B + 4 + 4)%nat by lia. apply height_le4. cbn [children].
    change (s1 :: init ++ [final]) with ((s1 :: init) ++ [final]). apply Forall_app. split; [done|].
    apply Forall_singleton. lia.
Qed.

Lemma pipeline_inner_ok p : ready (S fuel) RPipeline p → (sp_depth p < MAX_SYNTAX_DEPTH)%nat →
  wp (parse_pipeline_inner toks rec) (raise p) (λ n p2,
    frame (raise p) p2 ∧ sound n p2 ∧ (4 * height n ≤ height_bound RPipeline (levels p))%nat).
Proof.
  intros Hready Hlt. unfold parse_pipeline_inner. apply wp_bind, wp_gets. case_match; [by apply timed_ok|].
  rewrite (levels_pos p Hlt). destruct (bound_pipeline (pred (levels p))) as [Hb _].
  apply wp_bind, wp_gets, wp_bind. eapply wp_mono; [by apply skip_if|]. intros u p1 Hp1.
  apply wp_bind. eapply wp_mono; [by eapply call_deeper|]. intros first p2 (Hp2 & _ & Hs2 & Hh2 & _). apply wp_bind.
  apply (wp_tokens (λ stages p', frame (raise p) p' ∧ stages_ok (height_bound RCommand (pred (levels p))) stages p')).
  2:{ split; [done|]. exists [], first. split; [done|]. split; [|done]. intros He. apply Forall_singleton. by apply Hs2. }
  intros stages p3 [Hp3 Hst]. eapply wp_mono; [by eapply stage_round|].
  intros [stages' []] p4 [[Hp4 Hst4] Hgo]; cbn [fst snd] in *; [split; [done|by apply Hgo]|].
  apply wp_ret. split; [done|]. apply stages_node in Hst4. cbv zeta in Hst4.
  set (node := match stages' with [stage] => stage | _ => NPipeline stages' end) in *.
  destruct Hst4 as [Hns Hnh]. case_match; [|split; [done|lia]]. split.
  - apply (sound_one _ node); [done|done| |done]. intros Hne. split; [done|]. by apply Forall_singleton.
  - assert (Hc : Forall (λ c, 4 * height c ≤ height_bound RCommand (pred (levels p)) + 8)%nat (children (NNot node)))
      by (by apply Forall_singleton). apply height_le4 in Hc. lia.
Qed.

(** ** Commands *)

(** What [parse_command_inner] must give at the level below [p]. *)
Definition command_built (p : Parser) (n : Node) (p2 : Parser) : Prop :=
  frame (raise p) p2 ∧ sound n p2 ∧ (4 * height n ≤ height_bound RCommand (S (pred (levels p))))%nat.

Lemma attach_built p n p1 : frame (raise p) p1 → sound n p1 → compound n →
  (4 * height n ≤ height_bound RProgram (pred (levels p)) + 4)%nat →
  wp (attach_redirects toks n) p1 (command_built p).
Proof.
  intros Hp1 Hs Hc Hh. destruct (bound_command (pred (levels p))) as (_ & Hb & _).
  eapply wp_mono; [apply attach_redirects_ok|].
  intros n' p2 [Hp2 Hn]. split; [by transitivity p1|]. pose proof (sound_weaken _ _ _ Hp2 Hs) as Hs2.
  destruct Hn as [->|(rs & -> & Hne & Hrs)]; [split; [done|lia]|]. split.
  - apply (sound_one _ n); [done|done| |done]. intros HnE. split; [|by apply Forall_singleton].
    split; [done|]. split; [done|]. by destruct n.
  - assert (Hch : Forall (λ c, 4 * height c ≤ height_bound RProgram (pred (levels p)) + 4)%nat (children (NRedirected n rs)))
      by (by apply Forall_singleton). apply height_le4 in Hch. lia.
Qed.

Lemma empty_command_built p p1 : frame (raise p) p1 → wp (empty_command toks) p1 (command_built p).
Proof.
  intros Hp1. unfold empty_command. apply wp_bind. eapply wp_mono; [apply expected_frame|].
  intros u p2 [Hp2 [e He]]. apply wp_ret. split; [by transitivity p1|]. split; [intros He'; congruence|]. apply bound_min.
Qed.

Lemma parse_simple_built p p1 : frame (raise p) p1 → wp (parse_simple toks) p1 (command_built p).
Proof.
  intros Hp1. eapply wp_mono; [apply parse_simple_ok|]. intros n p2 (Hp2 & as_ & ws & rs & -> & Hw & Hr).
  split; [by transitivity p1|]. split; [|apply bound_min].
  apply sound_node; [|done]. intros _. split; [split; [done|]|]; apply Forall_nil_2.
Qed.

Lemma compound_built rule p p1 : compound_rule rule →
  ready (S fuel) RCommand p → (sp_depth p < MAX_SYNTAX_DEPTH)%nat → frame (raise p) p1 →
  wp (n ← rec rule; attach_redirects toks n) p1 (command_built p).
Proof.
  intros Hrule Hready Hlt Hp1. apply wp_bind. eapply wp_mono; [by eapply call_deeper|].
  intros n p2 (Hp2 & _ & Hs & Hh & Hsh). rewrite bound_compound_eq in Hh by done.
  apply attach_built; [done|done| |done]. by destruct rule.
Qed.

(** [( program )] or [{ program }]. *)
Lemma block_built (wrap : Node → Node) (close : prs unit) p p1 :
  wrap = NSubshell ∨ wrap = NGroup → (∀ p, wp close p (framed p)) →
  ready (S fuel) RCommand p → (sp_depth p < MAX_SYNTAX_DEPTH)%nat → frame (raise p) p1 →
  wp (_ ← advance 1; body ← rec RProgram; _ ← close; attach_redirects toks (wrap body)) p1 (command_built p).
Proof.
  intros Hwrap Hclose Hready Hlt Hp1. apply wp_bind, wp_move, wp_bind.
  eapply wp_mono; [eapply call_deeper; [done|done|etrans; [exact Hp1|apply moved_frame]]|].
  intros body p2 (Hp2 & _ & Hs & Hh & _). apply wp_bind. eapply wp_mono; [apply Hclose|]. intros u p3 Hp3.
  pose proof (sound_weaken _ _ _ Hp3 Hs) as Hs3.
  apply attach_built; [by transitivity p2| |by destruct Hwrap as [-> | ->]|].
  - apply (sound_one _ body); [by destruct Hwrap as [-> | ->]..| |done].
    intros HnE. destruct Hwrap as [-> | ->]; (split; [done|]); by apply Forall_singleton.
  - apply height_le4. destruct Hwrap as [-> | ->]; by apply Forall_singleton.
Qed.

Lemma function_built name p p1 : ready (S fuel) RCommand p → (sp_depth p < MAX_SYNTAX_DEPTH)%nat → frame (raise p) p1 →
  wp (_ ← advance 3; _ ← skip_blank_newlines toks; body ← rec RCommand; mret (NFuncDef name body)) p1 (command_built p).
Proof.
  intros Hready Hlt Hp1. apply wp_bind, wp_move, wp_bind. eapply wp_mono; [apply skip_ops_frame|]. intros u p2 Hp2.
  apply wp_bind. eapply wp_mono; [eapply call_deeper; [done|done|etrans; [exact Hp1|etrans; [apply moved_frame|exact Hp2]]]|].
  intros body p3 (Hp3 & _ & Hs & Hh & _). apply wp_ret. split; [done|]. split.
  - apply (sound_one _ body); [done|done| |done]. intros HnE. split; [done|]. by apply Forall_singleton.
  - destruct (bound_command (pred (levels p))) as (_ & _ & _ & Hb). eapply Nat.le_trans; [|exact Hb].
    apply height_le4. by apply Forall_singleton.
Qed.

Lemma command_inner_ok p : ready (S fuel) RCommand p → (sp_depth p < MAX_SYNTAX_DEPTH)%nat →
  wp (parse_command_inner toks rec) (raise p) (command_built p).
Proof.
  intros Hready Hlt. unfold parse_command_inner. apply wp_bind. eapply wp_mono; [apply skip_ops_frame|]. intros u p1 Hp1.
  apply wp_bind, wp_gets, wp_bind, wp_gets.
  assert (Harith : ∀ e, wp (_ ← advance 1; attach_redirects toks (NArithmetic e)) p1 (command_built p)).
  { intros e. apply wp_bind, wp_move, attach_built; [etrans; [exact Hp1|apply moved_frame]| |done|].
    - apply sound_node; [|done]. intros _. split; [split; [done|]|]; apply Forall_nil_2.
    - pose proof (bound_min RProgram (pred (levels p))). simpl. lia. }
  destruct (_ || _); [by apply empty_command_built|].
  do 5 (destruct (is_word _ _); [by apply compound_built|]).
  destruct (is_word _ _).
  { apply wp_bind, wp_move. eapply wp_mono; [eapply call_deeper; [done|done|etrans; [exact Hp1|apply moved_frame]]|].
    intros n p2 (Hp2 & _ & Hs & Hh & _). split; [done|]. split; [done|].
    destruct (bound_command (pred (levels p))) as (_ & _ & Hb & _). lia. }
  destruct (is_op _ _); [apply block_built; [by left|apply expect_op_frame|done..]|].
  destruct (is_word _ _); [apply block_built; [by right|apply expect_word_frame|done..]|].
  destruct (peek toks p1); try by apply parse_simple_built.
  - destruct (funcdef_ahead toks p1); [by apply function_built|].
    destruct (_ && _); [by apply empty_command_built|by apply parse_simple_built].
  - apply Harith.
Qed.

(** ** Compound commands *)

(** Enter a program inside a compound rule. *)
Lemma call_program rule p p1 : compound_rule rule → ready (S fuel) rule p → frame p p1 →
  wp (rec RProgram) p1 (λ n p2, frame p p2 ∧ frame p1 p2 ∧ sound n p2 ∧
    (4 * height n ≤ height_bound RProgram (levels p))%nat).
Proof. intros Hr Hready Hp1. apply (call rule); [done|by destruct rule; simpl; try lia|done]. Qed.

(** A compound node over programs of the level of [p]. *)
Lemma compound_node_built rule n p p2 : compound_rule rule → frame p p2 → compound n →
  (sp_error p2 = None → node_ok n ∧ Forall node_wf (children n)) →
  Forall (λ c, 4 * height c ≤ height_bound RProgram (levels p))%nat (children n) →
  built rule p n p2.
Proof.
  intros Hr Hp2 Hc Hok Hh. split; [done|]. split; [apply sound_node; [done|by intros ->]|].
  split; [|by destruct rule]. rewrite bound_compound_eq by done. by apply height_le4.
Qed.

Lemma while_ok until p : ready (S fuel) (RWhile until) p → wp (parse_while toks rec until) p (built (RWhile until) p).
Proof.
  intros Hready. unfold parse_while. apply wp_bind, wp_move, wp_bind.
  eapply wp_mono; [by apply (call_program (RWhile until)), moved_frame|]. intros cond p1 (Hp1 & _ & Hs1 & Hh1).
  apply wp_bind. eapply wp_mono; [apply expect_word_frame|]. intros u p2 Hp2. apply wp_bind.
  eapply wp_mono; [apply (call_program (RWhile until)); [done|done|by transitivity p1]|].
  intros body p3 (Hp3 & Hp23 & Hs3 & Hh3).
  apply wp_bind. eapply wp_mono; [apply expect_word_frame|]. intros u2 p4 Hp4. apply wp_ret.
  apply compound_node_built; [done|by transitivity p3|done| |by apply Forall_cons_2; [|apply Forall_singleton]].
  intros He. apply (fr_error _ _ Hp4) in He as He3. destruct (Hs3 He3).
  destruct Hs1; [by apply (fr_error _ _ Hp2), (fr_error _ _ Hp23)|].
  split; [split; [done|]|]; by apply Forall_cons_2; [|apply Forall_singleton].
Qed.

Definition if_ok (p : Parser) (acc : list (Node * Node) * option Node) (p' : Parser) : Prop :=
  let nodes := flat_map (λ '(c, b), [c; b]) acc.1 ++ option_list acc.2 in
  frame p p' ∧ (sp_error p' = None → Forall good nodes) ∧
  Forall (λ c, 4 * height c ≤ height_bound RProgram (levels p))%nat nodes.

Lemma if_round p acc p1 : ready (S fuel) RIf p → if_ok p acc p1 →
  wp (if_step toks rec acc) p1 (λ r p2, if_ok p r.1 p2 ∧ frame p1 p2 ∧
    (r.2 = true → (sp_i p1 < length toks)%nat ∧ (sp_i p1 < sp_i p2)%nat)).
Proof.
  intros Hready (Hp1 & Hg & Hh). destruct acc as [elifs els]. cbn [fst snd] in *. unfold if_step.
  apply wp_bind. eapply wp_mono; [apply skip_ops_frame|]. intros u p2 Hp2. apply wp_bind, wp_gets.
  assert (Hp02 : frame p p2) by (by transitivity p1).
  assert (Hin : ∀ w, is_word w (peek toks p2) = true → (sp_i p1 < length toks)%nat).
  { intros w Hw. apply is_word_not_eof, token_inside in Hw. destruct Hp2. lia. }
  destruct (is_word "elif" (peek toks p2)) eqn:Helif; [|destruct (is_word "else" (peek toks p2)) eqn:Helse].
  - apply wp_bind, wp_move, wp_bind.
    eapply wp_mono; [apply (call_program RIf); [done|done|etrans; [exact Hp02|apply moved_frame]]|].
    intros c p3 (Hp3 & Hp23 & Hs3 & Hh3). apply wp_bind. eapply wp_mono; [apply expect_word_frame|]. intros u4 p4 Hp4.
    apply wp_bind. eapply wp_mono; [apply (call_program RIf); [done|done|by transitivity p3]|].
    intros b p5 (Hp5 & Hp45 & Hs5 & Hh5). apply wp_ret. cbn [fst snd].
    assert (Hp25 : (sp_i p2 < sp_i p5)%nat) by (destruct Hp23, Hp4, Hp45; simpl in *; lia).
    assert (Hf : frame p1 p5).
    { etrans; [exact Hp2|]. etrans; [apply moved_frame|]. etrans; [exact Hp23|]. by transitivity p4. }
    split; [|split; [done|intros _; split; [by eapply Hin|destruct Hp2; lia]]].
    unfold if_ok. cbn [fst snd]. rewrite flat_map_app. cbn [flat_map app]. split; [done|]. split.
    + intros He. apply Forall_app in Hg as [Hg1 Hg2]; [|by apply Hf]. rewrite !Forall_app. split; [split; [done|]|done].
      apply Forall_cons_2; [apply Hs3; by apply (fr_error _ _ Hp4), (fr_error _ _ Hp45)|]. apply Forall_singleton. by apply Hs5.
    + rewrite Forall_app in Hh. rewrite !Forall_app. split; [split; [apply Hh|]|apply Hh].
      by apply Forall_cons_2; [|apply Forall_singleton].
  - apply wp_bind, wp_move, wp_bind.
    eapply wp_mono; [apply (call_program RIf); [done|done|etrans; [exact Hp02|apply moved_frame]]|].
    intros b p3 (Hp3 & Hp23 & Hs3 & Hh3). apply wp_ret. cbn [fst snd].
    assert (Hf : frame p1 p3) by (etrans; [exact Hp2|]; etrans; [apply moved_frame|exact Hp23]).
    split; [|split; [done|intros _; split; [by eapply Hin|destruct Hp2, Hp23; simpl in *; lia]]].
    unfold if_ok. cbn [fst snd option_list]. split; [done|]. split.
    + intros He. apply Forall_app in Hg as [Hg1 _]; [|by apply Hf]. apply Forall_app. split; [done|].
      apply Forall_singleton. by apply Hs3.
    + rewrite Forall_app in Hh. apply Forall_app. split; [apply Hh|]. by apply Forall_singleton.
  - apply wp_ret. cbn [fst snd]. split; [|done]. split; [done|]. split; [|done]. intros He. by apply Hg, Hp2.
Qed.

Lemma if_rule_ok p : ready (S fuel) RIf p → wp (parse_if toks rec) p (built RIf p).
Proof.
  intros Hready. unfold parse_if. apply wp_bind, wp_move, wp_bind.
  eapply wp_mono; [by apply (call_program RIf), moved_frame|]. intros cond p1 (Hp1 & _ & Hs1 & Hh1).
  apply wp_bind. eapply wp_mono; [apply expect_word_frame|]. intros u p2 Hp2. apply wp_bind.
  eapply wp_mono; [apply (call_program RIf); [done|done|by transitivity p1]|].
  intros then_ p3 (Hp3 & Hp23 & Hs3 & Hh3). apply wp_bind.
  apply (wp_tokens (λ acc p', if_ok p acc p' ∧ frame p3 p')); [|split; [split; [done|split; [intros _|]; apply Forall_nil_2]|done]].
  intros acc p4 [Hacc Hp34]. eapply wp_mono; [by apply if_round|].
  intros [[elifs els] []] p5 (Hok & Hp45 & Hgo); cbn [fst snd] in *; [split; [split; [done|by transitivity p4]|by apply Hgo]|].
  apply wp_bind. eapply wp_mono; [apply expect_word_frame|]. intros u6 p6 Hp6. apply wp_ret.
  destruct Hok as (Hp5 & Hg & Hh). cbn [fst snd] in *.
  apply compound_node_built; [done|by transitivity p5|done| |by repeat apply Forall_cons_2].
  intros He. apply (fr_error _ _ Hp6) in He as He5. specialize (Hg He5).
  assert (He3 : sp_error p3 = None) by (by apply (fr_error _ _ Hp34), (fr_error _ _ Hp45)).
  destruct (Hs3 He3) as [Hw3 Hn3]. destruct Hs1 as [Hw1 Hn1]; [by apply (fr_error _ _ Hp2), (fr_error _ _ Hp23)|].
  split; [split; [done|]|]; (apply Forall_cons_2; [done|]); (apply Forall_cons_2; [done|]);
    (eapply Forall_impl; [exact Hg|]); by intros ? [? ?].
Qed.

Lemma do_block_ok rule p p1 : compound_rule rule → ready (S fuel) rule p → frame p p1 →
  wp (do_block toks rec) p1 (λ n p2, frame p p2 ∧ frame p1 p2 ∧ sound n p2 ∧
    (4 * height n ≤ height_bound RProgram (levels p))%nat).
Proof.
  intros Hr Hready Hp1. unfold do_block. apply wp_bind. eapply wp_mono; [apply skip_ops_frame|]. intros u2 p2 Hp2.
  apply wp_bind. eapply wp_mono; [apply expect_word_frame|]. intros u3 p3 Hp3.
  assert (Hp13 : frame p1 p3) by (by transitivity p2).
  apply wp_bind. eapply wp_mono; [apply (call_program rule); [done|done|by transitivity p1]|].
  intros body p4 (Hp4 & Hp34 & Hs & Hh). apply wp_bind. eapply wp_mono; [apply expect_word_frame|]. intros u5 p5 Hp5.
  apply wp_ret. split; [by transitivity p4|]. split; [etrans; [exact Hp13|]; by transitivity p4|].
  split; [exact (sound_weaken _ _ _ Hp5 Hs)|done].
Qed.

Lemma one_body_built rule n body p p2 : compound_rule rule → frame p p2 → compound n → children n = [body] →
  (body ≠ NEmpty → node_ok n) → sound body p2 →
  (4 * height body ≤ height_bound RProgram (levels p))%nat → built rule p n p2.
Proof.
  intros Hr Hp2 Hc Hch Hok Hs Hh. apply compound_node_built; [done|done|done| |rewrite Hch; by apply Forall_singleton].
  intros He. destruct (Hs He). split; [by apply Hok|]. rewrite Hch. by apply Forall_singleton.
Qed.

Lemma for_words_frame p : wp (while_ toks (for_word_step toks) []) p (framed p).
Proof.
  apply (wp_tokens (λ _ p', frame p p')); [|done]. intros words p1 Hp1. unfold for_word_step. apply wp_bind, wp_gets.
  destruct (peek toks p1) eqn:Hpk; try by apply wp_ret. case_match; [by apply wp_ret|].
  apply wp_bind, wp_move, wp_ret. cbn [fst snd].
  split; [etrans; [exact Hp1|apply moved_frame]|]. split; [apply token_inside; by rewrite Hpk|simpl; lia].
Qed.

Lemma for_ok p : ready (S fuel) RFor p → wp (parse_for toks rec) p (built RFor p).
Proof.
  intros Hready. unfold parse_for. apply wp_bind, wp_move, wp_bind, wp_gets. set (p0 := MkParser _ _ _).
  assert (Hp0 : frame p p0) by apply moved_frame.
  assert (Hplain : wp (var ← take_word toks; _ ← skip_newlines toks; in_ ← gets (word_is toks "in");
      words ← (if in_ : bool then _ ← advance 1; while_ toks (for_word_step toks) [] else mret [dquote +:+ "$@" +:+ dquote]);
      body ← do_block toks rec; mret (NFor var words body)) p0 (built RFor p)).
  { apply wp_bind. eapply wp_mono; [apply take_word_frame|]. intros var p1 Hp1. apply wp_bind.
    eapply wp_mono; [apply skip_ops_frame|]. intros u p2 Hp2. apply wp_bind, wp_gets, wp_bind.
    assert (Hp02 : frame p p2) by (transitivity p1; [by transitivity p0|done]).
    assert (Hwords : wp (if word_is toks "in" p2 then _ ← advance 1; while_ toks (for_word_step toks) []
      else mret [dquote +:+ "$@" +:+ dquote]) p2 (framed p)).
    { case_match; [|by apply wp_ret]. apply wp_bind, wp_move. eapply wp_mono; [apply for_words_frame|].
      intros ws p3 Hp3. etrans; [exact Hp02|]. etrans; [apply moved_frame|exact Hp3]. }
    eapply wp_mono; [exact Hwords|]. intros words p3 Hp3. apply wp_bind. eapply wp_mono; [by apply (do_block_ok RFor)|].
    intros body p4 (Hp4 & _ & Hs & Hh). apply wp_ret. apply (one_body_built _ _ body); try done.
    intros HnE. split; [done|]. by apply Forall_singleton. }
  destruct (peek toks p0) as [| | | | | |e| | | | |]; try exact Hplain.
  apply wp_bind, wp_move. destruct (split_c_for_expression e) as [[init cond] update]. apply wp_bind.
  eapply wp_mono; [apply (do_block_ok RFor); [done|done|etrans; [exact Hp0|apply moved_frame]]|].
  intros body p4 (Hp4 & _ & Hs & Hh). apply wp_ret. apply (one_body_built _ _ body); try done.
  intros HnE. split; [done|]. by apply Forall_singleton.
Qed.

Lemma funcdef_ok p : ready (S fuel) RFuncdef p → wp (parse_funcdef_named toks rec) p (built RFuncdef p).
Proof.
  intros Hready. unfold parse_funcdef_named, next. apply wp_bind, wp_bind, wp_gets, wp_bind, wp_move, wp_ret.
  apply wp_bind, wp_gets, wp_bind. set (p1 := MkParser _ _ _). assert (Hp1 : frame p p1) by apply moved_frame.
  assert (Hparen : wp (if op_is toks ["("] p1 then _ ← advance 1; expect_op toks ")" else mret tt) p1 (framed p)).
  { case_match; [|by apply wp_ret]. apply wp_bind, wp_move. eapply wp_mono; [apply expect_op_frame|].
    intros u p2 Hp2. etrans; [exact Hp1|]. etrans; [apply moved_frame|exact Hp2]. }
  eapply wp_mono; [exact Hparen|]. intros u2 p2 Hp2. apply wp_bind. eapply wp_mono; [apply skip_ops_frame|]. intros u3 p3 Hp3.
  apply wp_bind. eapply wp_mono; [apply (call RFuncdef RCommand p); [done|simpl; lia|by transitivity p2]|].
  intros body p4 (Hp4 & _ & Hs & Hh). apply wp_ret. split; [done|]. split.
  - apply (sound_one _ body); [done|done| |done]. intros HnE. split; [done|]. by apply Forall_singleton.
  - split; [|done]. eapply Nat.le_trans; [|apply bound_funcdef]. apply height_le4. by apply Forall_singleton.
Qed.

Lemma patterns_ok p : wp (while_ toks (pattern_step toks) []) p (λ pats p', frame p p' ∧ pats ≠ []).
Proof.
  apply (wp_tokens (λ _ p', frame p p')); [|done]. intros pats p1 Hp1. unfold pattern_step. apply wp_bind.
  eapply wp_mono; [apply take_word_frame|]. intros w p2 Hp2. assert (Hp02 : frame p p2) by (by transitivity p1).
  apply wp_bind, wp_gets. destruct (op_is toks ["|"] p2) eqn:Hop; [apply wp_bind, wp_move|]; apply wp_ret; cbn [fst snd].
  - split; [etrans; [exact Hp02|apply moved_frame]|]. apply is_op_not_eof, token_inside in Hop.
    destruct Hp2. split; simpl; lia.
  - split; [done|]. by destruct pats.
Qed.

Definition arm_ok (p : Parser) (arm : list string * Node) (p' : Parser) : Prop :=
  arm.1 ≠ [] ∧ (sp_error p' = None → node_wf arm.2) ∧ (4 * height arm.2 ≤ height_bound RProgram (levels p))%nat.

Lemma node_wf_empty : node_wf NEmpty.
Proof. constructor; [split; [done|]|]; apply Forall_nil_2. Qed.

Lemma case_arm_ok p p1 : ready (S fuel) RCase p → frame p p1 →
  wp (case_arm toks rec) p1 (λ arm p2, frame p1 p2 ∧ arm_ok p arm p2).
Proof.
  intros Hready Hp1. unfold case_arm. apply wp_bind, wp_gets, wp_bind. eapply wp_mono; [by apply (skip_if _ p1)|].
  intros u2 p2 Hp2. apply wp_bind. eapply wp_mono; [apply patterns_ok|]. intros pats p3 [Hp3 Hne].
  apply wp_bind. eapply wp_mono; [apply expect_op_frame|]. intros u4 p4 Hp4. apply wp_bind.
  eapply wp_mono; [apply skip_ops_frame|]. intros u5 p5 Hp5. apply wp_bind, wp_gets, wp_bind.
  assert (Hp15 : frame p1 p5) by (transitivity p4; [transitivity p3; [by transitivity p2|done]|done]).
  assert (Hbody : wp (if op_is toks [";;"] p5 then mret NEmpty else rec RProgram) p5 (λ n p6, frame p1 p6 ∧
    (sp_error p6 = None → node_wf n) ∧ (4 * height n ≤ height_bound RProgram (levels p))%nat)).
  { case_match; [apply wp_ret; split; [done|]; split; [intros _; apply node_wf_empty|apply bound_min]|].
    eapply wp_mono; [apply (call_program RCase); [done|done|by transitivity p1]|].
    intros n p6 (_ & Hp6 & Hs & Hh). split; [by transitivity p5|]. split; [intros He; apply (Hs He)|done]. }
  eapply wp_mono; [exact Hbody|]. intros body p6 (Hp6 & Hwf & Hh). apply wp_bind.
  eapply wp_mono; [apply skip_ops_frame|]. intros u7 p7 Hp7. apply wp_bind, wp_gets, wp_bind.
  eapply wp_mono; [by apply (skip_if _ p7)|]. intros u8 p8 Hp8. apply wp_bind.
  eapply wp_mono; [apply skip_ops_frame|]. intros u9 p9 Hp9. apply wp_ret.
  assert (Hp69 : frame p6 p9) by (transitivity p8; [by transitivity p7|done]).
  split; [by transitivity p6|]. split; [done|]. split; [|done]. intros He. by apply Hwf, (fr_error _ _ Hp69).
Qed.

Lemma case_ok p : ready (S fuel) RCase p → wp (parse_case toks rec) p (built RCase p).
Proof.
  intros Hready. unfold parse_case. apply wp_bind, wp_move, wp_bind. eapply wp_mono; [apply take_word_frame|].
  intros word p1 Hp1. apply wp_bind. eapply wp_mono; [apply expect_word_frame|]. intros u2 p2 Hp2. apply wp_bind.
  eapply wp_mono; [apply skip_ops_frame|]. intros u3 p3 Hp3. apply wp_bind.
  assert (Hp03 : frame p p3) by (etrans; [apply moved_frame|]; etrans; [exact Hp1|]; by transitivity p2).
  apply (wp_tokens (λ arms p', frame p p' ∧ Forall (λ arm, arm_ok p arm p') arms)); [|split; [done|apply Forall_nil_2]].
  assert (Hend : ∀ arms p4, frame p p4 → Forall (λ arm, arm_ok p arm p4) arms →
    wp (_ ← expect_word toks "esac"; mret (NCase word arms)) p4 (built RCase p)).
  { intros arms p4 Hp4 Harms. apply wp_bind. eapply wp_mono; [apply expect_word_frame|]. intros u5 p5 Hp5. apply wp_ret.
    apply compound_node_built; [done|by transitivity p4|done| |].
    - intros He. apply (fr_error _ _ Hp5) in He. split; [split; [|done]|].
      + eapply Forall_impl; [exact Harms|]. by intros arm (? & _).
      + apply Forall_map. eapply Forall_impl; [exact Harms|]. intros arm (_ & Hwf & _). by apply Hwf.
    - apply Forall_map. eapply Forall_impl; [exact Harms|]. by intros arm (_ & _ & ?). }
  intros arms p4 [Hp4 Harms]. unfold case_step. apply wp_bind, wp_gets, wp_bind, wp_gets.
  destruct (_ || _ || _) eqn:Hstop; [by apply wp_ret, Hend|].
  apply orb_false_iff in Hstop as [[_ Heof]%orb_false_iff _]. apply bool_decide_eq_false_1, token_inside in Heof.
  apply wp_bind, wp_gets, wp_bind. eapply wp_mono; [by apply case_arm_ok|]. intros arm p5 [Hp5 Harm].
  assert (Hall : Forall (λ arm, arm_ok p arm p5) (arms ++ [arm])).
  { apply Forall_app. split; [|by apply Forall_singleton]. eapply Forall_impl; [exact Harms|].
    intros a (? & Hwf & ?). split; [done|]. split; [|done]. intros He. by apply Hwf, (fr_error _ _ Hp5). }
  apply wp_bind, wp_gets. case_bool_decide as Hpos.
  - apply wp_bind. eapply wp_mono; [apply expected_frame|]. intros u6 p6 [Hp6 [e He]]. apply wp_ret. cbn [fst snd].
    apply Hend; [transitivity p5; [by transitivity p4|done]|]. eapply Forall_impl; [exact Hall|].
    intros a (? & ? & ?). split; [done|]. split; [|done]. intros He'. congruence.
  - apply wp_ret. cbn [fst snd]. split; [split; [by transitivity p4|done]|]. split; [done|]. destruct Hp5. lia.
Qed.

Lemma rule_body_ok rule p : ready (S fuel) rule p → wp (rule_body toks rec rule) p (built rule p).
Proof.
  intros Hready. destruct rule; cbn [rule_body].
  - by apply program_ok.
  - by apply and_or_ok.
  - apply descend_ok; [by left|done|]. intros Hlt. by apply pipeline_inner_ok.
  - apply descend_ok; [by right|done|]. intros Hlt. rewrite (levels_pos p Hlt). by apply command_inner_ok.
  - by apply if_rule_ok.
  - by apply for_ok.
  - by apply while_ok.
  - by apply case_ok.
  - by apply funcdef_ok.
Qed.

End rules.

Lemma parse_rule_ok fuel rule p : ready fuel rule p → wp (parse_rule toks fuel rule) p (built rule p).
Proof.
  revert rule p. induction fuel as [|fuel IH]; intros rule p Hready; [destruct Hready; lia|].
  cbn [parse_rule]. by apply (rule_body_ok (parse_rule toks fuel) fuel).
Qed.

Lemma parse_program_ok : wp (parse_rule toks syntax_fuel RProgram) parser_new (built RProgram parser_new).
Proof.
  apply parse_rule_ok. split; [simpl; lia|]. unfold levels, syntax_fuel. simpl. lia.
Qed.

Lemma parse_tokens_returns : ∃ r, parse_tokens toks = Ret r ∧
  (∀ n, r = Ok n → node_wf n ∧ n ≠ NEmpty ∧ (4 * height n ≤ height_bound RProgram MAX_SYNTAX_DEPTH)%nat).
Proof.
  destruct parse_program_ok as (p & n & Hrun & Hp & Hs & Hh & _). unfold parse_tokens. rewrite Hrun.
  unfold levels in Hh. simpl sp_depth in Hh. rewrite Nat.sub_0_r in Hh. cbn [mbind run_bind].
  eexists. split; [done|]. intros n'. set (p' := if _ && _ then _ else p).
  assert (Herr : sp_error p' = None → sp_error p = None).
  { unfold p'. case_match; [|done]. destruct (expected_frame "end of input" p) as (p2 & u & -> & Hf & _). apply Hf. }
  destruct (sp_error p') eqn:He; [done|]. intros [= <-]. destruct (Hs (Herr eq_refl)). done.
Qed.

End spec.

(** ** Every source text *)

Lemma parse_returns src : ∃ r, parse src = Ret r ∧
  (∀ n, r = Ok n → node_wf n ∧ n ≠ NEmpty ∧ (4 * height n ≤ height_bound RProgram MAX_SYNTAX_DEPTH)%nat).
Proof.
  unfold parse. destruct (tokenize_returns src) as (toks & complete & error & -> & Hok). cbn [mbind run_bind].
  destruct error as [e|]; [by exists (Err e)|]. apply parse_tokens_returns.
  apply Forall_app. split; [|apply Forall_singleton; by right]. eapply Forall_impl; [exact Hok|]. by left.
Qed.

Fixpoint repeat_text (n : nat) (s : string) : string :=
  match n with O => "" | S n => s +:+ repeat_text n s end.

(** A chain of background links inside a group, and another chain after it. *)
Definition deep_source : string := "{ a" +:+ repeat_text 510 " &" +:+ " }" +:+ repeat_text 500 " &".

Definition deeper_than (limit : nat) (src : string) : bool :=
  match parse src with Ret (Ok n) => Nat.ltb limit (height n) | _ => false end.

Lemma deeper_than_inv limit src :
  deeper_than limit src = true → ∃ n, parse src = Ret (Ok n) ∧ (limit < height n)%nat.
Proof.
  unfold deeper_than. destruct (parse src) as [[n|e]| |]; try done. intros Hd%Nat.ltb_lt. by exists n.
Qed.

#[local] Transparent MAX_SYNTAX_DEPTH height_bound.

Lemma deep_source_too_high : deeper_than MAX_SYNTAX_DEPTH deep_source = true.
Proof. vm_compute. reflexivity. Qed.

Lemma height_bound_program : (height_bound RProgram MAX_SYNTAX_DEPTH < 4 * Z.to_nat 253503)%nat.
Proof. unfold height_bound, MAX_SYNTAX_DEPTH. lia. Qed.

(** C20: [parse], [heredocs_complete] and [needs_more_input] return on every source text: the lexer and
    the parser terminate within their fuel and never reach a panic, so no descriptor redirect the
    lexer emits is unknown to the parser, no counter underflows and no token index is out of range. *)
Theorem parse_total src :
  (∃ r, parse src = Ret r) ∧ (∃ b, heredocs_complete src = Ret b) ∧ (∃ b, needs_more_input src = Ret b).
Proof.
  destruct (parse_returns src) as (r & Hr & _).
  destruct (tokenize_returns src) as (toks & complete & error & Ht & _).
  assert (Hc : heredocs_complete src = Ret complete) by (unfold heredocs_complete; by rewrite Ht).
  split; [by exists r|]. split; [by exists complete|].
  unfold needs_more_input. rewrite Hc, Hr. cbn [mbind run_bind]. destruct complete; by eexists.
Qed.

(** C21: A tree the parser returns is one the interpreter can run: it never holds the internal
    [ArgvCommand], every pipeline has at least two stages, a sequence never has exactly one
    member, a redirected node is compound with at least one redirect of a legal shape, command
    names are not reserved words, and placeholders stand only for empty case arms. *)
Theorem parse_well_formed src n : parse src = Ret (Ok n) → node_wf n ∧ n ≠ NEmpty.
Proof.
  intros Hp. destruct (parse_returns src) as (r & Hr & Hok). rewrite Hp in Hr. simplify_eq.
  destruct (Hok n eq_refl) as (? & ? & _). done.
Qed.

Lemma parse_well_formed_witness :
  parse "a |& b" = Ret (Ok (NPipeline [NCommand [] ["a"] [MkRedirect 2 OpDupOut "&1"]; NCommand [] ["b"] []])) ∧
  node_wf (NPipeline [NCommand [] ["a"] [MkRedirect 2 OpDupOut "&1"]; NCommand [] ["b"] []]).
Proof.
  split; [vm_compute; reflexivity|]. apply (parse_well_formed "a |& b"). vm_compute. reflexivity.
Defined.

(** The height of a parsed tree is bounded by a constant, and that constant is not
    [MAX_SYNTAX_DEPTH]: the nesting counter is released between a chain's first operand and its
    links, so chains around nested chains build trees higher than the documented limit. *)
Theorem syntax_height_bound :
  (∀ src n, parse src = Ret (Ok n) → Z.of_nat (height n) ≤ 253502) ∧
  (∃ src n, parse src = Ret (Ok n) ∧ (MAX_SYNTAX_DEPTH < height n)%nat).
Proof.
  split.
  - intros src n Hp. destruct (parse_returns src) as (r & Hr & Hok). rewrite Hp in Hr. simplify_eq.
    destruct (Hok n eq_refl) as (_ & _ & Hh). pose proof height_bound_program. lia.
  - exists deep_source. exact (deeper_than_inv _ _ deep_source_too_high).
Qed.
