(* ===== verification/ShellPrint.v ===== *)
(** * Printing and parsing shell syntax

    [print] writes a syntax tree as tokens in the canonical form of the grammar; [program],
    [and_or], [pipeline] and [command] say at which level of the grammar a tree stands, and
    [nesting] how many levels of the parser's counter reading it takes. Parsing what [print]
    wrote gives the tree back. *)

From S2P Require Import Prelude.
From S2P Require Import State.
From S2P Require Import RustStr.
From S2P Require Import Syntax.
From S2P Require Import ShellParser.
From S2P Require Import ShellSpec.

(** ** The printer *)

Definition redirect_toks (r : Redirect) : list Tok :=
  match rd_op r with
  | OpRead => [TRedirFd (rd_fd r) "<"; TWord (rd_target r)]
  | OpWrite => [TRedirFd (rd_fd r) ">"; TWord (rd_target r)]
  | OpAppend => [TRedirFd (rd_fd r) ">>"; TWord (rd_target r)]
  | OpReadWrite => [TRedirFd (rd_fd r) "<>"; TWord (rd_target r)]
  | OpDupOut => [TRedirFd (rd_fd r) (">" +:+ rd_target r)]
  | OpClose => [TRedirFd (rd_fd r) ">&-"]
  | OpHeredoc => [THeredoc (rd_target r) false]
  | OpHeredocRaw => [THeredoc (rd_target r) true]
  | OpHereString => [THereString (rd_target r)]
  end.

Definition redirects_toks (rs : list Redirect) : list Tok := flat_map redirect_toks rs.

Definition assign_word (assign : string * string) : string := assign.1 +:+ "=" +:+ assign.2.

(** The parts with a separator between them. *)
Fixpoint join (sep : Tok) (parts : list (list Tok)) : list Tok :=
  match parts with
  | [] => []
  | [part] => part
  | part :: parts => part ++ sep :: join sep parts
  end.

Definition for_text (init cond update : string) : string := init +:+ ";" +:+ cond +:+ ";" +:+ update.

Fixpoint print (n : Node) : list Tok :=
  match n with
  | NCommand assigns words redirects =>
      map TWord (map assign_word assigns) ++ map TWord words ++ redirects_toks redirects
  | NArgvCommand _ | NEmpty => []
  | NPipeline stages => join (TOp "|") (map print stages)
  | NAnd l r => print l ++ TOp "&&" :: print r
  | NOr l r => print l ++ TOp "||" :: print r
  | NSeq nodes => join (TOp ";") (map print nodes)
  | NBackground n => print n ++ [TOp "&"]
  | NSubshell n => TOp "(" :: print n ++ [TOp ")"]
  | NGroup n => TWord "{" :: print n ++ [TOp ";"; TWord "}"]
  | NIf cond then_ elifs els =>
      TWord "if" :: print cond ++ TOp ";" :: TWord "then" :: print then_ ++ TOp ";" ::
      flat_map (λ '(c, b), TWord "elif" :: print c ++ TOp ";" :: TWord "then" :: print b ++ [TOp ";"]) elifs ++
      match els with Some e => TWord "else" :: print e ++ [TOp ";"] | None => [] end ++ [TWord "fi"]
  | NFor var words body =>
      TWord "for" :: TWord var :: TWord "in" :: map TWord words ++
      TOp ";" :: TWord "do" :: print body ++ [TOp ";"; TWord "done"]
  | NCFor init cond update body =>
      TWord "for" :: TArithmetic (for_text init cond update) ::
      TOp ";" :: TWord "do" :: print body ++ [TOp ";"; TWord "done"]
  | NWhile cond body until =>
      TWord (if until then "until" else "while") :: print cond ++
      TOp ";" :: TWord "do" :: print body ++ [TOp ";"; TWord "done"]
  | NCase word arms =>
      TWord "case" :: TWord word :: TWord "in" ::
      flat_map (λ '(pats, body), TOp "(" :: join (TOp "|") (map (λ w, [TWord w]) pats) ++
                                 TOp ")" :: print body ++ [TOp ";;"]) arms ++ [TWord "esac"]
  | NFuncDef name body => TWord name :: TOp "(" :: TOp ")" :: print body
  | NArithmetic e => [TArithmetic e]
  | NNot n => TWord "!" :: print n
  | NTimed inner posix => TWord "time" :: (if posix then [TWord "-p"] else []) ++ print inner
  | NRedirected n redirects => print n ++ redirects_toks redirects
  end.

(** ** Levels of the grammar *)

Definition redirect_canon (r : Redirect) : bool :=
  match rd_op r with
  | OpDupOut => starts_with "&" (rd_target r) && negb (bool_decide (rd_target r = "&-"))
  | OpClose => bool_decide (rd_target r = "-")
  | OpHeredoc | OpHeredocRaw | OpHereString => rd_fd r =? 0
  | _ => true
  end.

Definition assign_canon (assign : string * string) : bool :=
  is_assignment (assign_word assign) && bool_decide (str_find "="%char assign.1 = None).

(** A word that can stand first in a simple command. *)
Definition command_name (w : string) : bool :=
  negb (is_assignment w) && (negb (reserved w) || bool_decide (w = "[[")) && negb (bool_decide (w ∈ ["time"; ")"])).

Definition words_canon (words : list string) : bool :=
  match words with w :: _ => command_name w | [] => true end.

Definition simple_canon (assigns : list (string * string)) (words : list string) (redirects : list Redirect) : bool :=
  forallb assign_canon assigns && words_canon words && forallb redirect_canon redirects &&
  negb (bool_decide (assigns = []) && bool_decide (words = []) && bool_decide (redirects = [])).

Definition function_name (w : string) : bool := negb (reserved w) && negb (bool_decide (w ∈ ["time"; ")"])).

(** Does the first token of the tree differ from [-p]? *)
Definition not_posix_flag (n : Node) : bool := negb (bool_decide (head (print n) = Some (TWord "-p"))).

Inductive Level := LProgram | LAndOr | LPipeline | LCommand.

(** [stands l n]: the tree can be printed at level [l]. *)
Fixpoint stands (l : Level) (n : Node) {struct n} : bool :=
  match n with
  | NSeq nodes =>
      match l with
      | LProgram => bool_decide (2 ≤ length nodes)%nat && forallb (stands LAndOr) nodes
      | _ => false
      end
  | NAnd x y | NOr x y =>
      match l with LProgram | LAndOr => stands LAndOr x && stands LPipeline y | _ => false end
  | NBackground x => match l with LProgram | LAndOr => stands LAndOr x | _ => false end
  | NPipeline stages =>
      match l with
      | LCommand => false
      | _ => bool_decide (2 ≤ length stages)%nat && forallb (stands LCommand) stages
      end
  | NNot x =>
      match l with
      | LCommand => false
      | _ => stands LPipeline x && match x with NNot _ | NTimed _ _ => false | _ => true end
      end
  | NTimed x posix =>
      match l with LCommand => false | _ => stands LPipeline x && (posix || not_posix_flag x) end
  | NCommand assigns words redirects => simple_canon assigns words redirects
  | NSubshell x | NGroup x => stands LProgram x
  | NIf cond then_ elifs els =>
      stands LProgram cond && stands LProgram then_ &&
      forallb (λ '(c, b), stands LProgram c && stands LProgram b) elifs &&
      match els with Some e => stands LProgram e | None => true end
  | NFor _ words body => forallb (λ w, negb (reserved w)) words && stands LProgram body
  | NCFor init cond update body =>
      bool_decide (split_c_for_expression (for_text init cond update) = (init, cond, update)) && stands LProgram body
  | NWhile cond body _ => stands LProgram cond && stands LProgram body
  | NCase _ arms =>
      forallb (λ '(pats, body), negb (bool_decide (pats = [])) &&
        match body with NEmpty => true | _ => stands LProgram body end) arms
  | NFuncDef name body => function_name name && stands LCommand body
  | NArithmetic _ => true
  | NRedirected x redirects =>
      match x with
      | NSubshell _ | NGroup _ | NIf _ _ _ _ | NFor _ _ _ | NCFor _ _ _ _ | NWhile _ _ _ | NCase _ _ | NArithmetic _ =>
          stands LCommand x && negb (bool_decide (redirects = [])) && forallb redirect_canon redirects
      | _ => false
      end
  | NArgvCommand _ | NEmpty => false
  end.

(** ** Levels of nesting *)

(** The links of a chain. *)
Fixpoint links (n : Node) : nat :=
  match n with NAnd x _ | NOr x _ | NBackground x => S (links x) | _ => O end.

(** What reading the tree adds to the parser's nesting counter at most. *)
Fixpoint nesting (n : Node) : nat :=
  match n with
  | NSeq nodes | NPipeline nodes => foldr (λ n k, Nat.max (nesting n) k) O nodes
  | NAnd x y | NOr x y => Nat.max (nesting x) (S (links x) + nesting y)
  | NBackground x => Nat.max (nesting x) (S (links x))
  | NNot x => nesting x
  | NTimed x _ => S (nesting x)
  | NCommand _ _ _ | NArithmetic _ | NArgvCommand _ | NEmpty => 2
  | NSubshell x | NGroup x | NFor _ _ x | NCFor _ _ _ x | NFuncDef _ x => 2 + nesting x
  | NWhile x y _ => 2 + Nat.max (nesting x) (nesting y)
  | NIf cond then_ elifs els =>
      2 + Nat.max (nesting cond) (Nat.max (nesting then_)
        (foldr (λ '(c, b) k, Nat.max (nesting c) (Nat.max (nesting b) k))
           match els with Some e => nesting e | None => O end elifs))
  | NCase _ arms => 2 + foldr (λ '(_, body) k, Nat.max (nesting body) k) O arms
  | NRedirected x _ => nesting x
  end.
