(* ===== verification/ShellRound.v ===== *)
(** * Parsing what was printed

    The parser reads the tokens [print] writes and returns the tree they were written from. The
    proof follows the levels of the grammar: commands from the programs inside them, pipelines
    from commands, chains from pipelines, programs from chains. *)

From S2P Require Import Prelude.
From S2P Require Import State.
From S2P Require Import RustStr.
From S2P Require Import Syntax.
From S2P Require Import ShellParser.
From S2P Require Import ShellSpec.
From S2P Require Import ShellPrint.

#[local] Opaque MAX_SYNTAX_DEPTH.

Lemma str_find_append c s t : str_find c s = None → str_find c (s +:+ String c t) = Some (String.length s).
Proof.
  induction s as [|b s IH]; [intros _; rewrite append_nil_l; simpl; by rewrite bool_decide_eq_true_2|].
  rewrite append_cons. simpl. case_bool_decide; [done|]. destruct (str_find c s) eqn:Hs; [done|].
  intros _. by rewrite IH.
Qed.

Lemma str_drop_S_append s c t : str_drop (S (String.length s)) (s +:+ String c t) = t.
Proof. induction s as [|b s IH]; [done|]. rewrite append_cons. exact IH. Qed.

Lemma split_assign_word assign : str_find "="%char assign.1 = None → split_assignment (assign_word assign) = Ret assign.
Proof.
  intros Hk. unfold split_assignment, assign_word. destruct assign as [k v]. cbn [fst snd] in *.
  change ("=" +:+ v) with (String "="%char v). rewrite str_find_append by done. cbn [expect mbind run_bind].
  by rewrite str_take_append, str_drop_S_append.
Qed.

Lemma reserved_not_assignment w : is_assignment w = true → reserved w = false ∧ w ≠ "time" ∧ w ≠ ")".
Proof.
  intros Hw. split; [|by split; intros ->]. apply not_true_iff_false. intros Hr%bool_decide_eq_true_1.
  unfold RESERVED in Hr. repeat (apply elem_of_cons in Hr as [->|Hr]; [by vm_compute in Hw|]). by apply elem_of_nil in Hr.
Qed.

(** ** First tokens *)

Definition start_tok (t : Tok) : Prop := t ≠ TEof ∧ (∀ o, t = TOp o → o = "(") ∧ block_end t = false.

Lemma start_tok_word w : reserved w = false ∨ w = "[[" → w ≠ ")" → start_tok (TWord w).
Proof.
  intros Hw Hp. split; [done|]. split; [done|]. apply bool_decide_eq_false_2. unfold BLOCK_END_WORDS.
  destruct Hw as [Hw| ->]; [|set_solver]. apply bool_decide_eq_false_1 in Hw. unfold RESERVED in Hw.
  intros Hin. apply Hw. set_solver.
Qed.

Lemma command_name_parts w : command_name w = true →
  is_assignment w = false ∧ (reserved w = false ∨ w = "[[") ∧ w ≠ "time" ∧ w ≠ ")".
Proof.
  unfold command_name. intros [[Ha Hr]%andb_true_iff Ht]%andb_true_iff. apply negb_true_iff in Ha.
  apply negb_true_iff, bool_decide_eq_false_1 in Ht. split; [done|]. split; [|split; intros ->; set_solver].
  apply orb_true_iff in Hr as [Hr|Hr]; [left; by apply negb_true_iff|right; by apply bool_decide_eq_true_1 in Hr].
Qed.

Section round.
Context (toks : list Tok).

(** The parser stands before the tokens [l], without an error, at depth [d]. *)
Definition At (p : Parser) (l : list Tok) (d : nat) : Prop :=
  drop (sp_i p) toks = l ∧ sp_error p = None ∧ sp_depth p = d.

Definition hd (l : list Tok) : Tok := default TEof (head l).

Lemma hd_cons t l : hd (t :: l) = t.
Proof. reflexivity. Qed.

Lemma at_peek p l d : At p l d → peek toks p = hd l.
Proof. intros (<- & _). unfold peek, hd. by rewrite head_lookup, lookup_drop, Nat.add_0_r. Qed.

Lemma at_lookup p l d n : At p l d → toks !! (sp_i p + n)%nat = l !! n.
Proof. intros (<- & _). by rewrite lookup_drop. Qed.

Lemma at_drop n p l d : At p l d → At (MkParser (sp_i p + n) (sp_error p) (sp_depth p)) (drop n l) d.
Proof. intros (<- & ? & ?). split; [|done]. simpl. by rewrite drop_drop. Qed.

Lemma at_cons p t l d : At p (t :: l) d → At (MkParser (sp_i p + 1) (sp_error p) (sp_depth p)) l d.
Proof. apply (at_drop 1). Qed.

(** Fewer tokens left means the cursor moved. *)
Lemma at_moved p l d p' l' d' : At p l d → At p' l' d' → (length l' < length l)%nat →
  (sp_i p < length toks)%nat ∧ (sp_i p < sp_i p')%nat.
Proof.
  intros (<- & _) (<- & _). rewrite !length_drop. lia.
Qed.

Lemma wp_adv p t l d Q : At p (t :: l) d → (∀ p', At p' l d → Q tt p') → wp (advance 1) p Q.
Proof. intros Hat HQ. apply wp_move, HQ. by eapply at_cons. Qed.

Lemma wp_skip ops p l d Q : At p l d → (∀ p', At p' (drop_while (is_op ops) l) d → Q tt p') →
  wp (skip_ops toks ops) p Q.
Proof.
  intros Hat HQ. unfold skip_ops. apply wp_bind, wp_gets, wp_move, HQ.
  rewrite (proj1 Hat). rewrite <-drop_take_while. by apply at_drop.
Qed.

Lemma wp_skip_none ops p l d Q : At p l d → is_op ops (hd l) = false → (∀ p', At p' l d → Q tt p') →
  wp (skip_ops toks ops) p Q.
Proof.
  intros Hat Hhd HQ. eapply wp_skip; [exact Hat|]. intros p' Hp'. apply HQ.
  destruct l as [|t l]; [done|]. change (hd (t :: l)) with t in Hhd. cbn [drop_while] in Hp'.
  by rewrite Hhd in Hp'.
Qed.

Lemma wp_take_word p w l d Q : At p (TWord w :: l) d → (∀ p', At p' l d → Q w p') → wp (take_word toks) p Q.
Proof.
  intros Hat HQ. unfold take_word. apply wp_bind, wp_gets. rewrite (at_peek _ _ _ Hat). simpl.
  apply wp_bind. eapply wp_adv; [exact Hat|]. intros p' Hp'. by apply wp_ret, HQ.
Qed.

Lemma wp_expect_op o p l d Q : At p (TOp o :: l) d → (∀ p', At p' l d → Q tt p') → wp (expect_op toks o) p Q.
Proof.
  intros Hat HQ. unfold expect_op, op_is. apply wp_bind, wp_gets. rewrite (at_peek _ _ _ Hat). simpl.
  rewrite bool_decide_eq_true_2 by set_solver. by eapply wp_adv.
Qed.

Lemma wp_expect_word kw p l d Q : At p (TWord kw :: l) d → (∀ p', At p' l d → Q tt p') → wp (expect_word toks kw) p Q.
Proof.
  intros Hat HQ. unfold expect_word, skip_newlines. apply wp_bind. eapply wp_skip_none; [exact Hat|done|].
  intros p' Hp'. apply wp_bind, wp_gets. unfold word_is, is_word. rewrite (at_peek _ _ _ Hp'). simpl.
  rewrite bool_decide_eq_true_2 by done. by eapply wp_adv.
Qed.

(** ** Redirects *)

Definition starts_redirect (t : Tok) : bool :=
  match t with TWord _ | TOp _ | TArithmetic _ | TEof => false | _ => true end.

Lemma redirect_head r l : ∃ t l', redirect_toks r ++ l = t :: l' ∧ starts_redirect t = true.
Proof. unfold redirect_toks. destruct (rd_op r); by eexists _, _. Qed.

Lemma redirect_at_reads unknown r p l d Q : redirect_canon r = true → At p (redirect_toks r ++ l) d →
  (∀ p', At p' l d → Q [r] p') →
  ∃ m, redirect_at toks unknown (hd (redirect_toks r ++ l)) = Some m ∧ wp m p Q.
Proof.
  destruct r as [fd op target]. unfold redirect_canon, redirect_toks. cbn [rd_op rd_fd rd_target].
  intros Hc Hat HQ.
  assert (Hto : ∀ o ot l', At p (TRedirFd fd o :: TWord target :: l') d → (∀ p', At p' l' d → Q [MkRedirect fd ot target] p') →
    (∀ p0, fd_redirect toks fd o p0 = (r ← to_target toks fd ot; mret (Some r)) p0) →
    wp (_ ← advance 1; found ← fd_redirect toks fd o; match found with Some r => mret r | None => unknown end) p Q).
  { intros o ot l' Hat' HQ' Heq. apply wp_bind. eapply wp_adv; [exact Hat'|]. intros p1 Hp1. apply wp_bind.
    assert (wp (r ← to_target toks fd ot; mret (Some r)) p1 (λ found p', found = Some [MkRedirect fd ot target] ∧ At p' l' d)) as Hw.
    { unfold to_target. apply wp_bind, wp_bind. eapply wp_take_word; [exact Hp1|]. intros p2 Hp2. apply wp_ret, wp_ret. done. }
    destruct Hw as (p2 & found & Hrun & -> & Hp2). eapply wp_eq; [rewrite Heq; exact Hrun|]. apply wp_ret, HQ', Hp2. }
  destruct op; cbn [app]; rewrite hd_cons; cbn [redirect_at]; eexists; (split; [reflexivity|]).
  - eapply Hto; [exact Hat|exact HQ|done].
  - eapply Hto; [exact Hat|exact HQ|done].
  - eapply Hto; [exact Hat|exact HQ|done].
  - eapply Hto; [exact Hat|exact HQ|done].
  - apply andb_true_iff in Hc as [Hs Hd]. unfold starts_with in Hs. apply bool_decide_eq_true_1 in Hs as [src Hs].
    apply strip_prefix_Some in Hs as ->. apply wp_bind. eapply wp_adv; [exact Hat|]. intros p1 Hp1.
    apply wp_bind. unfold fd_redirect. change (">" +:+ "&" +:+ src) with (">&" +:+ src).
    rewrite !(bool_decide_eq_false_2 (">&" +:+ src = _)) by done.
    rewrite (bool_decide_eq_false_2 (">&" +:+ src = ">&-")).
    2:{ intros Heq. assert (src = "-") as -> by (by injection Heq). done. }
    cbn [orb]. rewrite strip_prefix_append. apply wp_ret, wp_ret, HQ, Hp1.
  - apply bool_decide_eq_true_1 in Hc as ->. apply wp_bind. eapply wp_adv; [exact Hat|]. intros p1 Hp1.
    apply wp_bind, wp_ret, wp_ret, HQ, Hp1.
  - apply Z.eqb_eq in Hc as ->. apply wp_bind. eapply wp_adv; [exact Hat|]. intros p1 Hp1. apply wp_ret, HQ, Hp1.
  - apply Z.eqb_eq in Hc as ->. apply wp_bind. eapply wp_adv; [exact Hat|]. intros p1 Hp1. apply wp_ret, HQ, Hp1.
  - apply Z.eqb_eq in Hc as ->. apply wp_bind. eapply wp_adv; [exact Hat|]. intros p1 Hp1. apply wp_ret, HQ, Hp1.
Qed.

(** What ends a command: the end of file or an operator that does not open a group. *)
Definition ends_command (t : Tok) : bool :=
  match t with TEof => true | TOp o => negb (bool_decide (o = "(")) | _ => false end.

Lemma ends_no_redirect unknown t : ends_command t = true → redirect_at toks unknown t = None.
Proof. by destruct t. Qed.

Lemma attach_reads node rs p l d Q : forallb redirect_canon rs = true → At p (redirects_toks rs ++ l) d →
  ends_command (hd l) = true →
  (∀ p', At p' l d → Q (if bool_decide (rs = []) then node else NRedirected node rs) p') →
  wp (attach_redirects toks node) p Q.
Proof.
  intros Hc Hat Hend HQ. unfold attach_redirects. apply wp_bind.
  apply (wp_tokens toks (λ acc p', ∃ todo, rs = acc ++ todo ∧ forallb redirect_canon todo = true ∧
    At p' (redirects_toks todo ++ l) d)); [|by exists rs].
  intros acc p1 (todo & Hrs & Htodo & Hp1). unfold attach_step. apply wp_bind, wp_gets. rewrite (at_peek _ _ _ Hp1).
  destruct todo as [|r todo].
  - simpl app. rewrite ends_no_redirect by done. apply wp_ret, wp_ret. rewrite app_nil_r in Hrs. subst. by apply HQ.
  - cbn [forallb] in Htodo. apply andb_true_iff in Htodo as [Hr Htodo].
    unfold redirects_toks in Hp1 |- *. cbn [flat_map] in Hp1 |- *. rewrite <-app_assoc in Hp1 |- *. fold (redirects_toks todo) in *.
    edestruct (redirect_at_reads panic r p1 (redirects_toks todo ++ l) d) as (m & Hm & Hw); [done|exact Hp1| |rewrite Hm; apply wp_bind; exact Hw].
    intros p2 Hp2. apply wp_ret. cbn [fst snd]. split; [exists todo; split; [by rewrite <-app_assoc|done]|].
    eapply at_moved; [exact Hp1|exact Hp2|]. rewrite (length_app (redirect_toks r)). unfold redirect_toks. destruct (rd_op r); simpl; lia.
Qed.

(** ** Simple commands *)

Definition rest_toks (words : list string) (redirects : list Redirect) (l : list Tok) : list Tok :=
  map TWord words ++ redirects_toks redirects ++ l.

Lemma hd_redirects redirects l : ends_command (hd l) = true →
  starts_redirect (hd (rest_toks [] redirects l)) = true ∨ ends_command (hd (rest_toks [] redirects l)) = true.
Proof.
  unfold rest_toks. destruct redirects as [|r redirects]; cbn [map redirects_toks flat_map app]; [by right|]. left.
  rewrite <-app_assoc. destruct (redirect_head r (flat_map redirect_toks redirects ++ l)) as (t & l' & -> & Ht). done.
Qed.

Lemma assigns_read assigns words redirects p l d Q :
  forallb assign_canon assigns = true → words_canon words = true → ends_command (hd l) = true →
  At p (map TWord (map assign_word assigns) ++ rest_toks words redirects l) d →
  (∀ p', At p' (rest_toks words redirects l) d → Q assigns p') →
  wp (while_ toks (assign_step toks) []) p Q.
Proof.
  intros Has Hws Hend Hat HQ.
  apply (wp_tokens toks (λ acc p', ∃ todo, assigns = acc ++ todo ∧ forallb assign_canon todo = true ∧
    At p' (map TWord (map assign_word todo) ++ rest_toks words redirects l) d)); [|by exists assigns].
  intros acc p1 (todo & Heq & Htodo & Hp1). unfold assign_step. apply wp_bind, wp_gets. rewrite (at_peek _ _ _ Hp1).
  destruct todo as [|a todo].
  - rewrite app_nil_r in Heq. subst acc. cbn [map app] in *.
    assert (Hstop : wp (mret (assigns, false)) p1 (λ r p', if r.2 : bool
      then (∃ todo, assigns = r.1 ++ todo ∧ forallb assign_canon todo = true ∧
        At p' (map TWord (map assign_word todo) ++ rest_toks words redirects l) d) ∧ (sp_i p1 < length toks)%nat ∧ (sp_i p1 < sp_i p')%nat
      else Q r.1 p')) by (apply wp_ret; by apply HQ).
    destruct words as [|w words].
    + destruct (hd_redirects redirects l Hend) as [Ht|Ht];
        destruct (hd (rest_toks [] redirects l)); try done; exact Hstop.
    + change (hd (rest_toks (w :: words) redirects l)) with (TWord w). unfold words_canon in Hws.
      apply command_name_parts in Hws as [Ha _]. rewrite Ha. exact Hstop.
  - cbn [forallb map app] in *. apply andb_true_iff in Htodo as [Ha Htodo].
    apply andb_true_iff in Ha as [Ha Hk]. apply bool_decide_eq_true_1 in Hk. rewrite hd_cons.
    rewrite Ha, split_assign_word by done. apply wp_bind. eapply wp_adv; [exact Hp1|]. intros p2 Hp2. apply wp_ret. cbn [fst snd].
    split; [exists todo; split; [by rewrite <-app_assoc|done]|]. eapply at_moved; [exact Hp1|exact Hp2|]. simpl. lia.
Qed.

Lemma words_read words redirects p l d Q :
  words_canon words = true → forallb redirect_canon redirects = true → ends_command (hd l) = true →
  At p (rest_toks words redirects l) d →
  (∀ p', At p' l d → Q (words, redirects) p') →
  wp (while_ toks (simple_step toks) ([], [])) p Q.
Proof.
  intros Hws Hrs Hend Hat HQ.
  apply (wp_tokens toks (λ acc p', ∃ wtodo rtodo, words = acc.1 ++ wtodo ∧ redirects = acc.2 ++ rtodo ∧
    (wtodo ≠ [] → acc.2 = []) ∧ At p' (rest_toks wtodo rtodo l) d)); [|by exists words, redirects].
  intros [ws rs] p1 (wtodo & rtodo & Hw & Hr & Hor & Hp1); cbn [fst snd] in *. unfold simple_step. apply wp_bind, wp_gets.
  rewrite (at_peek _ _ _ Hp1). unfold rest_toks in *. destruct wtodo as [|w wtodo]; cbn [map app] in *.
  - rewrite app_nil_r in Hw. subst ws. destruct rtodo as [|r rtodo].
    + rewrite app_nil_r in Hr. subst rs. cbn [redirects_toks flat_map app] in *.
      assert (Hstop : wp (mret (words, redirects, false)) p1 (λ r p', if r.2 : bool
        then (∃ wtodo rtodo, words = r.1.1 ++ wtodo ∧ redirects = r.1.2 ++ rtodo ∧ (wtodo ≠ [] → r.1.2 = []) ∧
          At p' (map TWord wtodo ++ redirects_toks rtodo ++ l) d) ∧ (sp_i p1 < length toks)%nat ∧ (sp_i p1 < sp_i p')%nat
        else Q r.1 p')) by (apply wp_ret; by apply HQ).
      destruct (hd l); try done; exact Hstop.
    + assert (Hrc : redirect_canon r = true).
      { eapply forallb_forall in Hrs; [exact Hrs|]. rewrite Hr. apply in_or_app. right. by left. }
      unfold redirects_toks in Hp1 |- *. cbn [flat_map] in Hp1 |- *. rewrite <-app_assoc in Hp1 |- *.
      fold (redirects_toks rtodo) in *.
      edestruct (redirect_at_reads (mret []) r p1 (redirects_toks rtodo ++ l) d) as (m & Hm & Hwm); [done|exact Hp1| |].
      2:{ destruct (redirect_head r (redirects_toks rtodo ++ l)) as (t & l' & Heq & Ht). rewrite Heq in Hm |- *.
          rewrite hd_cons in Hm |- *.
          destruct t; try done; rewrite Hm; apply wp_bind; exact Hwm. }
      intros p2 Hp2. apply wp_ret. cbn [fst snd]. split.
      * exists [], rtodo. rewrite app_nil_r, <-app_assoc. by split.
      * eapply at_moved; [exact Hp1|exact Hp2|]. rewrite (length_app (redirect_toks r)).
        unfold redirect_toks. destruct (rd_op r); simpl; lia.
  - rewrite Hor in * by done. rewrite hd_cons.
    assert (Hguard : bool_decide (ws = []) && reserved w && negb (bool_decide (w = "[[")) = false).
    { case_bool_decide as Hnil; [|done]. subst ws. simpl in Hw. subst words. unfold words_canon in Hws.
      apply command_name_parts in Hws as (_ & [Hres| ->] & _); [by rewrite Hres|]. by rewrite bool_decide_eq_true_2. }
    rewrite Hguard. apply wp_bind. eapply wp_adv; [exact Hp1|]. intros p2 Hp2. apply wp_ret. cbn [fst snd]. split.
    + exists wtodo, rtodo. rewrite <-app_assoc. by split.
    + eapply at_moved; [exact Hp1|exact Hp2|]. simpl. lia.
Qed.

Lemma simple_reads assigns words redirects p l d :
  simple_canon assigns words redirects = true → ends_command (hd l) = true →
  At p (print (NCommand assigns words redirects) ++ l) d →
  wp (parse_simple toks) p (λ n p', n = NCommand assigns words redirects ∧ At p' l d).
Proof.
  unfold simple_canon. intros [[[Has Hws]%andb_true_iff Hrs]%andb_true_iff _]%andb_true_iff Hend Hat.
  cbn [print] in Hat. rewrite <-!app_assoc in Hat. unfold parse_simple. apply wp_bind.
  eapply assigns_read; [done|exact Hws|exact Hend|exact Hat|]. intros p1 Hp1. apply wp_bind.
  eapply words_read; [done|done|exact Hend|exact Hp1|]. intros p2 Hp2. by apply wp_ret.
Qed.

(** ** What reading a level means *)

Definition rule_of (l : Level) : Rule :=
  match l with LProgram => RProgram | LAndOr => RAndOr | LPipeline => RPipeline | LCommand => RCommand end.

Definition can (fuel : nat) (rule : Rule) (d : nat) : Prop :=
  (d ≤ MAX_SYNTAX_DEPTH)%nat ∧ (4 * (MAX_SYNTAX_DEPTH - d) + rule_rank rule < fuel)%nat.

(** The tokens that may follow a tree of the level. *)
Definition follows (l : Level) (t : Tok) : bool :=
  match t with
  | TEof => true
  | TOp o =>
      negb (bool_decide (o ∈ match l with
        | LCommand => ["("]
        | LPipeline => ["("; "|"; "|&"]
        | LAndOr | LProgram => ["("; "|"; "|&"; "&&"; "||"; "&"]
        end))
  | _ => false
  end.

Lemma follows_ends l t : follows l t = true → ends_command t = true.
Proof.
  destruct t; try done. simpl. rewrite !negb_true_iff, !bool_decide_eq_false. intros Ho ->. apply Ho. destruct l; set_solver.
Qed.

(** The pipeline rule counts a level before the command rule does. *)
Definition slack (l : Level) : nat := match l with LCommand => 1 | _ => 0 end.

Definition reads (l : Level) (n : Node) : Prop :=
  stands l n = true → ∀ fuel p post d,
  can fuel (rule_of l) d → At p (print n ++ post) d → (d + nesting n ≤ MAX_SYNTAX_DEPTH + slack l)%nat →
  follows l (hd post) = true →
  wp (parse_rule toks fuel (rule_of l)) p (λ n' p', n' = n ∧ At p' post d).

(** A program ends before a closing word, after its separator, or before [)], [;;] or the end. *)
Definition stops (sep rest : list Tok) : Prop :=
  (sep = [TOp ";"] ∧ ∃ kw, hd rest = TWord kw ∧ kw ∈ BLOCK_END_WORDS) ∨
  (sep = [] ∧ hd rest ∈ [TOp ")"; TOp ";;"; TEof]).

Definition reads_program (n : Node) : Prop :=
  stands LProgram n = true → ∀ fuel p sep rest d,
  can fuel RProgram d → At p (print n ++ sep ++ rest) d → (d + nesting n ≤ MAX_SYNTAX_DEPTH)%nat →
  stops sep rest →
  wp (parse_rule toks fuel RProgram) p (λ n' p', n' = n ∧ At p' rest d).

Lemma wp_descend body n p l l' d : At p l d → (d < MAX_SYNTAX_DEPTH)%nat →
  (∀ p1, At p1 l (S d) → wp body p1 (λ n' p2, n' = n ∧ At p2 l' (S d))) →
  wp (descend body) p (λ n' p', n' = n ∧ At p' l' d).
Proof.
  intros (Hl & He & Hd) Hlt Hbody. unfold descend. apply wp_bind, wp_gets. rewrite bool_decide_eq_false_2 by lia.
  apply wp_bind, wp_modify, wp_bind. eapply wp_mono; [apply Hbody; by rewrite Hd|].
  intros n' p2 [-> (Hl2 & He2 & Hd2)]. apply wp_bind. unfold leave. apply wp_bind, wp_gets.
  rewrite bool_decide_eq_true_2 by lia. apply wp_modify, wp_ret. split; [done|]. split; [done|]. split; [done|]. simpl. lia.
Qed.

Lemma simple_head assigns words redirects : simple_canon assigns words redirects = true →
  ∃ t l, print (NCommand assigns words redirects) = t :: l ∧ start_tok t ∧
    match t with TWord w => command_name w = true ∨ is_assignment w = true | _ => starts_redirect t = true end ∧
    (∀ post, ends_command (hd post) = true → (l ++ post) !! 0%nat ≠ Some (TOp "(")).
Proof.
  unfold simple_canon. intros [[[Has Hws]%andb_true_iff Hrs]%andb_true_iff Hne]%andb_true_iff.
  assert (Hpost : ∀ rs post, ends_command (hd post) = true → (redirects_toks rs ++ post) !! 0%nat ≠ Some (TOp "(")).
  { intros rs post Hend. destruct (hd_redirects rs post Hend) as [Ht|Ht]; unfold rest_toks in Ht; cbn [map app] in Ht;
      destruct (redirects_toks rs ++ post) as [|t l]; try done; rewrite hd_cons in Ht; intros [= ->]; done. }
  assert (Hw : ∀ ws rs post, ends_command (hd post) = true → (map TWord ws ++ redirects_toks rs ++ post) !! 0%nat ≠ Some (TOp "("))
    by (intros [|w ws] rs post Hend; [by apply Hpost|done]).
  destruct assigns as [|a assigns]; cbn [print map app].
  - destruct words as [|w words]; cbn [map app].
    + destruct redirects as [|r redirects]; [done|]. cbn [redirects_toks flat_map].
      destruct (redirect_head r (flat_map redirect_toks redirects)) as (t & l & Heq & Ht). exists t, l. rewrite Heq.
      split; [done|]. split; [split; [by intros ->|split; [by intros o ->|by destruct t]]|]. split; [by destruct t|].
      intros post Hend. unfold redirect_toks in Heq.
      destruct (rd_op r); simpl in Heq; injection Heq as <- <-; try (by apply (Hpost redirects)); done.
    + exists (TWord w), (map TWord words ++ redirects_toks redirects). split; [done|].
      destruct (command_name_parts w Hws) as (_ & Hr & _ & Hp). split; [by apply start_tok_word|]. split; [by left|].
      intros post Hend. rewrite <-app_assoc. by apply Hw.
  - exists (TWord (assign_word a)), (map TWord (map assign_word assigns) ++ map TWord words ++ redirects_toks redirects).
    split; [done|]. cbn [forallb] in Has. apply andb_true_iff in Has as [[Ha _]%andb_true_iff _].
    destruct (reserved_not_assignment _ Ha) as (Hr & _ & Hp). split; [apply start_tok_word; [by left|done]|]. split; [by right|].
    intros post Hend. rewrite <-!app_assoc. destruct assigns as [|a' assigns]; [by apply Hw|done].
Qed.

(** A command starts with a token that is not [time] or [!]. *)
Definition command_start (t : Tok) : Prop := start_tok t ∧ t ≠ TWord "time" ∧ t ≠ TWord "!".

Lemma command_head n : stands LCommand n = true → ∃ t l, print n = t :: l ∧ command_start t.
Proof.
  assert (Hkw : ∀ w, bool_decide (w ∈ ["{"; "if"; "for"; "while"; "until"; "case"]) = true → command_start (TWord w)).
  { intros w Hw%bool_decide_eq_true_1. split; [|split; intros [= ->]; set_solver]. split; [done|]. split; [done|].
    repeat (apply elem_of_cons in Hw as [->|Hw]; [done|]). by apply elem_of_nil in Hw. }
  assert (Hsub : command_start (TOp "(")) by (split; [split; [done|split; [congruence|done]]|done]).
  assert (Harith : ∀ e, command_start (TArithmetic e)) by (by split).
  destruct n as [assigns words redirects| | | | | | |n|n|c t elifs els|v ws b|i c u b|c b u|w arms|nm b|e|n|n p|n rs|]; try done;
    cbn [stands]; intros Hst; try (by eexists _, _; split; [reflexivity|apply Hkw; reflexivity]).
  - destruct (simple_head _ _ _ Hst) as (t & l & Heq & Hs & Ht & _). exists t, l. split; [done|]. split; [done|].
    destruct t; try done. destruct Ht as [Hw|Hw].
    + apply command_name_parts in Hw as (_ & Hr & ? & _). split; [congruence|]. intros [= ->]. by destruct Hr.
    + apply reserved_not_assignment in Hw as (Hr & ? & _). split; [congruence|]. intros [= ->]. done.
  - by eexists _, _.
  - eexists _, _. split; [reflexivity|]. by destruct u; apply Hkw.
  - apply andb_true_iff in Hst as [Hn _]. unfold function_name in Hn. apply andb_true_iff in Hn as [Hr Ht].
    apply negb_true_iff in Hr. apply negb_true_iff, bool_decide_eq_false_1 in Ht.
    eexists _, _. split; [reflexivity|]. split; [apply start_tok_word; [by left|set_solver]|].
    split; [intros [= ->]; set_solver|]. intros [= ->]. done.
  - by eexists _, _.
  - destruct n; try done; cbn [print app];
      try (eexists _, _; split; [reflexivity|]; first [exact Hsub|apply Harith|apply Hkw; reflexivity]).
    eexists _, _. split; [reflexivity|]. by destruct until; apply Hkw.
Qed.

Lemma print_head l n : stands l n = true → ∃ t ts, print n = t :: ts ∧ start_tok t.
Proof.
  revert l. induction n as [n IH] using node_children_ind. intros l Hst.
  assert (Hcmd : stands LCommand n = true → ∃ t ts, print n = t :: ts ∧ start_tok t).
  { intros Hc. destruct (command_head n Hc) as (t & ts & ? & ? & _). eauto. }
  destruct n as [| |stages|x y|x y|nodes|x| | | | | | | | | |x|x posix| |]; try done; try (apply Hcmd; by destruct l).
  - destruct l; try done; cbn [stands] in Hst; apply andb_true_iff in Hst as [Hlen Hst];
      apply bool_decide_eq_true_1 in Hlen; destruct stages as [|s stages]; simpl in Hlen; try lia;
      cbn [forallb] in Hst; apply andb_true_iff in Hst as [Hs _]; cbn [children] in IH; apply Forall_cons in IH as [IH _];
      destruct (IH _ Hs) as (t & ts & Heq & Ht); destruct stages; cbn [print map join]; rewrite Heq; by eexists _, _.
  - cbn [children] in IH. apply Forall_cons in IH as [IH _]. destruct l; try done; cbn [stands] in Hst;
      apply andb_true_iff in Hst as [Hx _]; destruct (IH _ Hx) as (t & ts & Heq & Ht); cbn [print]; rewrite Heq; by eexists _, _.
  - cbn [children] in IH. apply Forall_cons in IH as [IH _]. destruct l; try done; cbn [stands] in Hst;
      apply andb_true_iff in Hst as [Hx _]; destruct (IH _ Hx) as (t & ts & Heq & Ht); cbn [print]; rewrite Heq; by eexists _, _.
  - destruct l; try done; cbn [stands] in Hst; apply andb_true_iff in Hst as [Hlen Hst];
      apply bool_decide_eq_true_1 in Hlen; destruct nodes as [|s nodes]; simpl in Hlen; try lia;
      cbn [forallb] in Hst; apply andb_true_iff in Hst as [Hs _]; cbn [children] in IH; apply Forall_cons in IH as [IH _];
      destruct (IH _ Hs) as (t & ts & Heq & Ht); destruct nodes; cbn [print map join]; rewrite Heq; by eexists _, _.
  - cbn [children] in IH. apply Forall_cons in IH as [IH _]. destruct l; try done; cbn [stands] in Hst;
      destruct (IH _ Hst) as (t & ts & Heq & Ht); cbn [print]; rewrite Heq; by eexists _, _.
  - by eexists _, _.
  - by eexists _, _.
Qed.

(** ** Compound commands *)

(** Associate the appends of a token list to the right. *)
Ltac flat H := repeat first [rewrite <-app_assoc in H | progress cbn [app] in H].

Lemma can_inner fuel rule rule' d : can (S fuel) rule d → rule_rank rule = 0%nat → (d < MAX_SYNTAX_DEPTH)%nat →
  can fuel rule' (S d).
Proof. intros [Hd Hf] Hr Hlt. split; [lia|]. destruct rule'; simpl; lia. Qed.

Lemma can_lower fuel rule rule' d : can (S fuel) rule d → (rule_rank rule' < rule_rank rule)%nat → can fuel rule' d.
Proof. intros [Hd Hf] Hr. split; [done|lia]. Qed.

Lemma can_S fuel rule d : can fuel rule d → ∃ fuel', fuel = S fuel'.
Proof. intros [_ Hf]. destruct fuel; [lia|by eexists]. Qed.

(** A program that is read, then [Q]. *)
Lemma wp_program n fuel p sep rest d Q : reads_program n → stands LProgram n = true →
  can fuel RProgram d → At p (print n ++ sep ++ rest) d → (d + nesting n ≤ MAX_SYNTAX_DEPTH)%nat → stops sep rest →
  (∀ p', At p' rest d → Q n p') → wp (parse_rule toks fuel RProgram) p Q.
Proof.
  intros Hn Hst Hcan Hat Hd Hstop HQ. eapply wp_mono; [by eapply Hn|]. intros n' p' [-> Hp']. by apply HQ.
Qed.

Lemma stops_word kw l : kw ∈ BLOCK_END_WORDS → stops [TOp ";"] (TWord kw :: l).
Proof. intros Hkw. left. split; [done|]. by exists kw. Qed.

Ltac block_word := apply stops_word; unfold BLOCK_END_WORDS; set_solver.

(** [do body ; done]. *)
Lemma do_block_reads body rule fuel p post d Q : reads_program body → stands LProgram body = true →
  (rule_rank rule = 3)%nat → can (S fuel) rule d →
  At p (TOp ";" :: TWord "do" :: print body ++ [TOp ";"; TWord "done"] ++ post) d →
  (d + nesting body ≤ MAX_SYNTAX_DEPTH)%nat → (∀ p', At p' post d → Q body p') →
  wp (do_block toks (parse_rule toks fuel)) p Q.
Proof.
  intros Hb Hst Hrank Hcan Hat Hd HQ. unfold do_block, skip_terminators. apply wp_bind. eapply wp_skip; [exact Hat|].
  intros p1 Hp1. apply wp_bind. eapply wp_expect_word; [exact Hp1|]. intros p2 Hp2. apply wp_bind.
  eapply (wp_program body _ _ [TOp ";"]); [done|done|by eapply can_lower; [exact Hcan|rewrite Hrank; simpl; lia]|exact Hp2|done|block_word|].
  intros p3 Hp3. apply wp_bind. eapply wp_expect_word; [exact Hp3|]. intros p4 Hp4. by apply wp_ret, HQ.
Qed.

Lemma while_reads cond body until fuel p post d :
  Forall reads_program [cond; body] → stands LCommand (NWhile cond body until) = true → can fuel (RWhile until) d →
  At p (print (NWhile cond body until) ++ post) d → (d + nesting (NWhile cond body until) ≤ MAX_SYNTAX_DEPTH + 2)%nat →
  wp (parse_rule toks fuel (RWhile until)) p (λ n p', n = NWhile cond body until ∧ At p' post d).
Proof.
  intros [Hc [Hb _]%Forall_cons]%Forall_cons [Sc Sb]%andb_true_iff Hcan Hat Hd.
  destruct (can_S _ _ _ Hcan) as [f ->]. cbn [nesting] in Hd. cbn [print] in Hat. flat Hat.
  cbn [parse_rule rule_body]. unfold parse_while. apply wp_bind. eapply wp_adv; [exact Hat|].
  intros p1 Hp1. apply wp_bind.
  eapply (wp_program cond _ _ [TOp ";"]); [done|done|by eapply can_lower; [exact Hcan|simpl; lia]|exact Hp1|lia|block_word|].
  intros p2 Hp2. apply wp_bind. eapply wp_expect_word; [exact Hp2|]. intros p3 Hp3. apply wp_bind.
  eapply (wp_program body _ _ [TOp ";"]); [done|done|by eapply can_lower; [exact Hcan|simpl; lia]|exact Hp3|lia|block_word|].
  intros p4 Hp4. apply wp_bind. eapply wp_expect_word; [exact Hp4|]. intros p5 Hp5. by apply wp_ret.
Qed.

Lemma for_words_read words p l d Q : forallb (λ w, negb (reserved w)) words = true →
  At p (map TWord words ++ TOp ";" :: l) d → (∀ p', At p' (TOp ";" :: l) d → Q words p') →
  wp (while_ toks (for_word_step toks) []) p Q.
Proof.
  intros Hws Hat HQ.
  apply (wp_tokens toks (λ acc p', ∃ todo, words = acc ++ todo ∧ At p' (map TWord todo ++ TOp ";" :: l) d)); [|by exists words].
  intros acc p1 (todo & Heq & Hp1). unfold for_word_step. apply wp_bind, wp_gets. rewrite (at_peek _ _ _ Hp1).
  destruct todo as [|w todo]; cbn [map app] in *; rewrite hd_cons.
  - rewrite app_nil_r in Heq. subst. apply wp_ret. by apply HQ.
  - assert (Hw : negb (reserved w) = true).
    { eapply forallb_forall in Hws; [exact Hws|]. rewrite Heq. apply in_or_app. right. by left. }
    apply negb_true_iff in Hw. rewrite Hw. apply wp_bind. eapply wp_adv; [exact Hp1|]. intros p2 Hp2. apply wp_ret. cbn [fst snd].
    split; [exists todo; by rewrite <-app_assoc|]. eapply at_moved; [exact Hp1|exact Hp2|]. simpl. lia.
Qed.

Lemma for_reads var words body fuel p post d :
  reads_program body → stands LCommand (NFor var words body) = true → can fuel RFor d →
  At p (print (NFor var words body) ++ post) d → (d + nesting (NFor var words body) ≤ MAX_SYNTAX_DEPTH + 2)%nat →
  wp (parse_rule toks fuel RFor) p (λ n p', n = NFor var words body ∧ At p' post d).
Proof.
  intros Hb [Sw Sb]%andb_true_iff Hcan Hat Hd. destruct (can_S _ _ _ Hcan) as [f ->]. cbn [nesting] in Hd.
  cbn [print] in Hat. flat Hat.
  cbn [parse_rule rule_body]. unfold parse_for. apply wp_bind. eapply wp_adv; [exact Hat|]. intros p1 Hp1.
  apply wp_bind, wp_gets. rewrite (at_peek _ _ _ Hp1), hd_cons. apply wp_bind. eapply wp_take_word; [exact Hp1|].
  intros p2 Hp2. unfold skip_newlines. apply wp_bind. eapply wp_skip_none; [exact Hp2|done|]. intros p3 Hp3.
  apply wp_bind, wp_gets. unfold word_is. rewrite (at_peek _ _ _ Hp3), hd_cons. change (is_word "in" (TWord "in")) with true.
  apply wp_bind. cbv iota. apply wp_bind. eapply wp_adv; [exact Hp3|]. intros p4 Hp4.
  eapply for_words_read; [done|exact Hp4|]. intros p5 Hp5. apply wp_bind.
  eapply (do_block_reads body RFor); [done|done|done|exact Hcan|exact Hp5|lia|]. intros p6 Hp6. by apply wp_ret.
Qed.

Lemma cfor_reads init cond update body fuel p post d :
  reads_program body → stands LCommand (NCFor init cond update body) = true → can fuel RFor d →
  At p (print (NCFor init cond update body) ++ post) d → (d + nesting (NCFor init cond update body) ≤ MAX_SYNTAX_DEPTH + 2)%nat →
  wp (parse_rule toks fuel RFor) p (λ n p', n = NCFor init cond update body ∧ At p' post d).
Proof.
  intros Hb [Ss Sb]%andb_true_iff Hcan Hat Hd. apply bool_decide_eq_true_1 in Ss. destruct (can_S _ _ _ Hcan) as [f ->]. cbn [nesting] in Hd.
  cbn [print] in Hat. flat Hat.
  cbn [parse_rule rule_body]. unfold parse_for. apply wp_bind. eapply wp_adv; [exact Hat|]. intros p1 Hp1.
  apply wp_bind, wp_gets. rewrite (at_peek _ _ _ Hp1), hd_cons. apply wp_bind. eapply wp_adv; [exact Hp1|]. intros p2 Hp2.
  rewrite Ss. apply wp_bind. eapply (do_block_reads body RFor); [done|done|done|exact Hcan|exact Hp2|lia|].
  intros p6 Hp6. by apply wp_ret.
Qed.

Definition elif_toks (arm : Node * Node) : list Tok :=
  TWord "elif" :: print arm.1 ++ TOp ";" :: TWord "then" :: print arm.2 ++ [TOp ";"].
Definition else_toks (els : option Node) : list Tok :=
  match els with Some e => TWord "else" :: print e ++ [TOp ";"] | None => [] end.
Definition if_tail (elifs : list (Node * Node)) (els : option Node) (post : list Tok) : list Tok :=
  flat_map elif_toks elifs ++ else_toks els ++ TWord "fi" :: post.

Lemma print_if cond then_ elifs els post :
  print (NIf cond then_ elifs els) ++ post =
  TWord "if" :: print cond ++ [TOp ";"] ++ TWord "then" :: print then_ ++ [TOp ";"] ++ if_tail elifs els post.
Proof.
  unfold if_tail. cbn [print]. repeat first [rewrite <-app_assoc | progress cbn [app]]. do 7 f_equal.
  assert (Hf : flat_map (λ '(c, b), TWord "elif" :: print c ++ TOp ";" :: TWord "then" :: print b ++ [TOp ";"]) elifs =
    flat_map elif_toks elifs) by (induction elifs as [|[c b] elifs IH]; [done|]; cbn [flat_map]; by rewrite IH).
  rewrite Hf. by destruct els.
Qed.

Lemma if_tail_head elifs els post : ∃ kw l, if_tail elifs els post = TWord kw :: l ∧ kw ∈ ["elif"; "else"; "fi"].
Proof.
  unfold if_tail. destruct elifs as [|e elifs]; [destruct els as [e|]|]; cbn [flat_map app else_toks]; eexists _, _;
    (split; [reflexivity|set_solver]).
Qed.

Lemma if_tail_stops elifs els post : stops [TOp ";"] (if_tail elifs els post).
Proof.
  destruct (if_tail_head elifs els post) as (kw & l & -> & Hkw). apply stops_word. unfold BLOCK_END_WORDS. set_solver.
Qed.

Definition if_parts (elifs : list (Node * Node)) (els : option Node) : list Node :=
  flat_map (λ '(c, b), [c; b]) elifs ++ option_list els.

Lemma nesting_if cond then_ elifs els :
  Forall (λ n, 2 + nesting n ≤ nesting (NIf cond then_ elifs els))%nat (cond :: then_ :: if_parts elifs els).
Proof.
  cbn [nesting]. repeat apply Forall_cons_2; [lia..|]. unfold if_parts.
  set (base := match els with Some e => nesting e | None => O end).
  assert (Hgen : ∀ m, (foldr (λ '(c, b) k, Nat.max (nesting c) (Nat.max (nesting b) k)) base elifs ≤ m)%nat →
    Forall (λ n, nesting n ≤ m)%nat (flat_map (λ '(c, b), [c; b]) elifs ++ option_list els)).
  { intros m. induction elifs as [|[c b] elifs IH]; cbn [flat_map foldr app]; intros Hm.
    - destruct els as [e|]; [apply Forall_singleton|apply Forall_nil_2]. exact Hm.
    - repeat apply Forall_cons_2; [lia|lia|]. apply IH. lia. }
  eapply Forall_impl; [by apply Hgen|]. intros n Hn. cbv beta in *. lia.
Qed.

Definition if_state (elifs : list (Node * Node)) (els : option Node) (post : list Tok) (d : nat)
    (acc : list (Node * Node) * option Node) (p : Parser) : Prop :=
  ∃ etodo ltodo, elifs = acc.1 ++ etodo ∧
    ((acc.2 = None ∧ ltodo = els) ∨ (etodo = [] ∧ acc.2 = els ∧ ltodo = None)) ∧
    At p (if_tail etodo ltodo post) d.

Lemma if_step_reads elifs els fuel post d acc p Q :
  Forall (λ n, reads_program n ∧ stands LProgram n = true ∧ (d + nesting n ≤ MAX_SYNTAX_DEPTH)%nat) (if_parts elifs els) →
  can (S fuel) RIf d → if_state elifs els post d acc p → (∀ p', At p' (TWord "fi" :: post) d → Q (elifs, els) p') →
  wp (if_step toks (parse_rule toks fuel) acc) p (λ r p', if r.2 : bool
    then if_state elifs els post d r.1 p' ∧ (sp_i p < length toks)%nat ∧ (sp_i p < sp_i p')%nat else Q r.1 p').
Proof.
  intros Hparts Hcan (etodo & ltodo & He & Hl & Hat) HQ. destruct acc as [edone ldone]; cbn [fst snd] in *.
  assert (Hcp : can fuel RProgram d) by (eapply can_lower; [exact Hcan|simpl; lia]).
  unfold if_step, skip_newlines. apply wp_bind. destruct (if_tail_head etodo ltodo post) as (kw & tl & Hhead & _).
  eapply wp_skip_none; [exact Hat|by rewrite Hhead|]. intros p1 Hp1. apply wp_bind, wp_gets.
  rewrite (at_peek _ _ _ Hp1). clear Hhead kw tl.
  destruct etodo as [|[c b] etodo]; [destruct ltodo as [e|]|].
  - destruct Hl as [[-> <-]|(_ & _ & ?)]; [|done]. rewrite app_nil_r in He. subst edone.
    unfold if_tail in Hp1. cbn [flat_map app else_toks] in Hp1. flat Hp1.
    change (hd (if_tail [] (Some e) post)) with (TWord "else").
    change (is_word "elif" (TWord "else")) with false. change (is_word "else" (TWord "else")) with true. cbv iota.
    unfold if_parts in Hparts. apply Forall_app in Hparts as [_ Hparts]. change (option_list (Some e)) with [e] in Hparts.
    rewrite Forall_singleton in Hparts. destruct Hparts as (Hr & Hs & Hd).
    apply wp_bind. eapply wp_adv; [exact Hp1|]. intros p2 Hp2. apply wp_bind.
    eapply (wp_program e _ _ [TOp ";"]); [done|done|done|exact Hp2|done|block_word|]. intros p3 Hp3. apply wp_ret. cbn [fst snd].
    split; [|eapply at_moved; [exact Hat|exact Hp3|unfold if_tail; cbn [flat_map app else_toks length]; rewrite !length_app; simpl; lia]].
    exists [], None. cbn [fst snd]. split; [by rewrite app_nil_r|]. split; [by right|done].
  - rewrite app_nil_r in He. subst edone.
    change (hd (if_tail [] None post)) with (TWord "fi").
    change (is_word "elif" (TWord "fi")) with false. change (is_word "else" (TWord "fi")) with false. cbv iota.
    apply wp_ret. cbn [fst snd]. assert (ldone = els) as -> by (by destruct Hl as [[-> <-]|(_ & -> & _)]). by apply HQ.
  - destruct Hl as [[-> ->]|(? & _)]; [|done].
    unfold if_tail in Hp1. cbn [flat_map] in Hp1. unfold elif_toks at 1 in Hp1. cbn [fst snd] in Hp1. flat Hp1.
    change (hd (if_tail ((c, b) :: etodo) els post)) with (TWord "elif").
    change (is_word "elif" (TWord "elif")) with true. cbv iota.
    assert (Hcb : (reads_program c ∧ stands LProgram c = true ∧ (d + nesting c ≤ MAX_SYNTAX_DEPTH)%nat) ∧
      (reads_program b ∧ stands LProgram b = true ∧ (d + nesting b ≤ MAX_SYNTAX_DEPTH)%nat)).
    { unfold if_parts in Hparts. rewrite He, flat_map_app in Hparts. cbn [flat_map app] in Hparts.
      apply Forall_app in Hparts as [Hparts _]. apply Forall_app in Hparts as [_ Hparts].
      apply Forall_cons in Hparts as [? Hparts]. by apply Forall_cons in Hparts as [? _]. }
    destruct Hcb as [(Hrc & Hsc & Hdc) (Hrb & Hsb & Hdb)].
    apply wp_bind. eapply wp_adv; [exact Hp1|]. intros p2 Hp2. apply wp_bind.
    eapply (wp_program c _ _ [TOp ";"]); [done|done|done|exact Hp2|done|block_word|]. intros p3 Hp3. apply wp_bind.
    eapply wp_expect_word; [exact Hp3|]. intros p4 Hp4. apply wp_bind.
    eapply (wp_program b _ _ [TOp ";"] (if_tail etodo els post)); [done|done|done|exact Hp4|done|apply if_tail_stops|].
    intros p5 Hp5. apply wp_ret. cbn [fst snd]. split.
    + exists etodo, els. cbn [fst snd]. split; [by rewrite <-app_assoc|]. split; [by left|done].
    + eapply at_moved; [exact Hat|exact Hp5|]. unfold if_tail. cbn [flat_map]. rewrite !length_app.
      unfold elif_toks at 2. cbn [length]. lia.
Qed.

Lemma if_reads cond then_ elifs els fuel p post d :
  Forall reads_program (children (NIf cond then_ elifs els)) → stands LCommand (NIf cond then_ elifs els) = true →
  can fuel RIf d → At p (print (NIf cond then_ elifs els) ++ post) d →
  (d + nesting (NIf cond then_ elifs els) ≤ MAX_SYNTAX_DEPTH + 2)%nat →
  wp (parse_rule toks fuel RIf) p (λ n p', n = NIf cond then_ elifs els ∧ At p' post d).
Proof.
  intros [Hc [Ht Hch]%Forall_cons]%Forall_cons Hst Hcan Hat Hd. destruct (can_S _ _ _ Hcan) as [f ->].
  pose proof (nesting_if cond then_ elifs els) as [Nc [Nt Np]%Forall_cons]%Forall_cons.
  cbn [stands] in Hst. apply andb_true_iff in Hst as [[[Sc St]%andb_true_iff Se]%andb_true_iff Sl].
  assert (Hparts : Forall (λ n, reads_program n ∧ stands LProgram n = true ∧ (d + nesting n ≤ MAX_SYNTAX_DEPTH)%nat) (if_parts elifs els)).
  { apply Forall_and. split; [exact Hch|]. apply Forall_and. split.
    - unfold if_parts. apply Forall_app. split; [|destruct els; [by apply Forall_singleton|apply Forall_nil_2]].
      clear -Se. induction elifs as [|[c b] elifs IH]; cbn [flat_map app]; [apply Forall_nil_2|].
      cbn [forallb] in Se. apply andb_true_iff in Se as [[? ?]%andb_true_iff ?]. repeat apply Forall_cons_2; [done|done|by apply IH].
    - eapply Forall_impl; [exact Np|]. intros n Hn. cbv beta in *. lia. }
  rewrite print_if in Hat. cbn [parse_rule rule_body]. unfold parse_if. apply wp_bind. eapply wp_adv; [exact Hat|].
  intros p1 Hp1. apply wp_bind.
  eapply (wp_program cond _ _ [TOp ";"]); [done|done|by eapply can_lower; [exact Hcan|simpl; lia]|exact Hp1|cbv beta in Nc; lia|block_word|].
  intros p2 Hp2. apply wp_bind. eapply wp_expect_word; [exact Hp2|]. intros p3 Hp3. apply wp_bind.
  eapply (wp_program then_ _ _ [TOp ";"]); [done|done|by eapply can_lower; [exact Hcan|simpl; lia]|exact Hp3|cbv beta in Nt; lia|apply if_tail_stops|].
  intros p4 Hp4. apply wp_bind.
  apply (wp_tokens toks (if_state elifs els post d)); [|exists elifs, els; split; [done|]; split; [by left|done]].
  intros acc p5 Hacc.
  apply (if_step_reads elifs els f post d acc p5 (λ acc p', wp (let '(elifs, els) := acc in
    _ ← expect_word toks "fi"; mret (NIf cond then_ elifs els)) p' (λ n p', n = NIf cond then_ elifs els ∧ At p' post d)));
    [exact Hparts|exact Hcan|exact Hacc|].
  intros p6 Hp6. apply wp_bind. eapply wp_expect_word; [exact Hp6|]. intros p7 Hp7. by apply wp_ret.
Qed.

Definition pattern_toks (pats : list string) : list Tok := join (TOp "|") (map (λ w, [TWord w]) pats).
Definition arm_toks (arm : list string * Node) : list Tok :=
  TOp "(" :: pattern_toks arm.1 ++ TOp ")" :: print arm.2 ++ [TOp ";;"].

Lemma print_case word arms post :
  print (NCase word arms) ++ post = TWord "case" :: TWord word :: TWord "in" :: flat_map arm_toks arms ++ TWord "esac" :: post.
Proof.
  cbn [print]. repeat first [rewrite <-app_assoc | progress cbn [app]]. do 4 f_equal.
  induction arms as [|[pats body] arms IH]; [done|]. cbn [flat_map]. by rewrite IH.
Qed.

Lemma patterns_read pats p l d Q : pats ≠ [] → At p (pattern_toks pats ++ TOp ")" :: l) d →
  (∀ p', At p' (TOp ")" :: l) d → Q pats p') → wp (while_ toks (pattern_step toks) []) p Q.
Proof.
  intros Hne Hat HQ.
  apply (wp_tokens toks (λ acc p', ∃ todo, pats = acc ++ todo ∧ todo ≠ [] ∧ At p' (pattern_toks todo ++ TOp ")" :: l) d)); [|by exists pats].
  intros acc p1 (todo & Heq & Htodo & Hp1). unfold pattern_step. apply wp_bind.
  destruct todo as [|w [|w' todo]]; [done|..]; unfold pattern_toks in Hp1; cbn [map join] in Hp1; flat Hp1;
    (eapply wp_take_word; [exact Hp1|]); intros p2 Hp2; apply wp_bind, wp_gets; unfold op_is; rewrite (at_peek _ _ _ Hp2), hd_cons.
  - change (is_op ["|"] (TOp ")")) with false. apply wp_ret. cbn [fst snd]. rewrite <-Heq. by apply HQ.
  - change (is_op ["|"] (TOp "|")) with true. apply wp_bind. eapply wp_adv; [exact Hp2|]. intros p3 Hp3. apply wp_ret. cbn [fst snd].
    split; [exists (w' :: todo); split; [by rewrite <-app_assoc|done]|]. eapply at_moved; [exact Hp1|exact Hp3|]. simpl. lia.
Qed.

Definition arm_body_ok (d : nat) (body : Node) : Prop :=
  body = NEmpty ∨ (reads_program body ∧ stands LProgram body = true ∧ (d + nesting body ≤ MAX_SYNTAX_DEPTH)%nat).

Lemma case_arm_reads pats body fuel p l d :
  pats ≠ [] → arm_body_ok d body → can (S fuel) RCase d → is_op [newline; ";"] (hd l) = false →
  At p (arm_toks (pats, body) ++ l) d →
  wp (case_arm toks (parse_rule toks fuel)) p (λ arm p', arm = (pats, body) ∧ At p' l d).
Proof.
  intros Hne Hbody Hcan Hl Hat. unfold arm_toks in Hat. cbn [fst snd] in Hat. flat Hat. unfold case_arm, op_is.
  apply wp_bind, wp_gets. rewrite (at_peek _ _ _ Hat), hd_cons. change (is_op ["("] (TOp "(")) with true. cbv iota.
  apply wp_bind. eapply wp_adv; [exact Hat|]. intros p1 Hp1. apply wp_bind. eapply patterns_read; [done|exact Hp1|]. intros p2 Hp2.
  apply wp_bind. eapply wp_expect_op; [exact Hp2|]. intros p3 Hp3. unfold skip_newlines. apply wp_bind.
  assert (Hbody' : ∃ p4, skip_ops toks [newline; ";"] p3 = Ret (p4, tt) ∧ At p4 (print body ++ TOp ";;" :: l) d ∧
    wp (if is_op [";;"] (hd (print body ++ TOp ";;" :: l)) then mret NEmpty else parse_rule toks fuel RProgram) p4
      (λ n p', n = body ∧ At p' (TOp ";;" :: l) d)).
  { destruct Hbody as [->|(Hr & Hs & Hd)].
    - destruct (wp_skip_none [newline; ";"] p3 _ d (λ u p', At p' (TOp ";;" :: l) d) Hp3) as (p4 & [] & Hrun & Hp4); [done|done|].
      exists p4. split; [done|]. split; [done|]. cbn [print app]. rewrite hd_cons. change (is_op [";;"] (TOp ";;")) with true. by apply wp_ret.
    - destruct (print_head LProgram body Hs) as (t & ts & Heq & Hte & Hto & _).
      assert (Hops : ∀ ops, "(" ∉ ops → is_op ops t = false).
      { intros ops Hops. destruct t; try done. simpl. apply bool_decide_eq_false_2. by rewrite (Hto _ eq_refl). }
      destruct (wp_skip_none [newline; ";"] p3 _ d (λ u p', At p' (print body ++ TOp ";;" :: l) d) Hp3) as (p4 & [] & Hrun & Hp4);
        [rewrite Heq; cbn [app]; rewrite hd_cons; apply Hops; set_solver|done|].
      exists p4. split; [done|]. split; [done|]. rewrite Heq at 1. cbn [app]. rewrite hd_cons, Hops by set_solver.
      eapply (wp_program body _ _ [] (TOp ";;" :: l)); [done|done|by eapply can_lower; [exact Hcan|simpl; lia]|exact Hp4|done| |done].
      right. split; [done|]. rewrite hd_cons. set_solver. }
  destruct Hbody' as (p4 & Hrun & Hp4 & Hw). eapply wp_eq; [exact Hrun|]. apply wp_bind, wp_gets. rewrite (at_peek _ _ _ Hp4).
  apply wp_bind. eapply wp_mono; [exact Hw|]. intros n p5 [-> Hp5]. apply wp_bind. eapply wp_skip_none; [exact Hp5|done|].
  intros p6 Hp6. apply wp_bind, wp_gets. rewrite (at_peek _ _ _ Hp6), hd_cons. change (is_op [";;"] (TOp ";;")) with true. cbv iota.
  apply wp_bind. eapply wp_adv; [exact Hp6|]. intros p7 Hp7. apply wp_bind. eapply wp_skip_none; [exact Hp7|done|].
  intros p8 Hp8. by apply wp_ret.
Qed.

Lemma case_reads word arms fuel p post d :
  Forall (λ arm, arm.1 ≠ [] ∧ arm_body_ok d arm.2) arms → can fuel RCase d → At p (print (NCase word arms) ++ post) d →
  wp (parse_rule toks fuel RCase) p (λ n p', n = NCase word arms ∧ At p' post d).
Proof.
  intros Harms Hcan Hat. destruct (can_S _ _ _ Hcan) as [f ->]. rewrite print_case in Hat.
  cbn [parse_rule rule_body]. unfold parse_case. apply wp_bind. eapply wp_adv; [exact Hat|]. intros p1 Hp1.
  apply wp_bind. eapply wp_take_word; [exact Hp1|]. intros p2 Hp2. apply wp_bind. eapply wp_expect_word; [exact Hp2|].
  assert (Htail : ∀ arms, is_op [newline; ";"] (hd (flat_map arm_toks arms ++ TWord "esac" :: post)) = false) by (by intros [|arm arms']).
  intros p3 Hp3. unfold skip_newlines. apply wp_bind. eapply wp_skip_none; [exact Hp3|apply Htail|]. intros p4 Hp4. apply wp_bind.
  apply (wp_tokens toks (λ acc p', ∃ todo, arms = acc ++ todo ∧ At p' (flat_map arm_toks todo ++ TWord "esac" :: post) d));
    [|by exists arms].
  intros acc p5 (todo & Heq & Hp5). unfold case_step. apply wp_bind, wp_gets, wp_bind, wp_gets.
  rewrite (at_peek _ _ _ Hp5), (proj1 (proj2 Hp5)). destruct todo as [|[pats body] todo].
  - cbn [flat_map app]. rewrite hd_cons. change (is_word "esac" (TWord "esac")) with true. cbn [orb]. apply wp_ret. cbn [fst snd].
    rewrite app_nil_r in Heq. subst acc. apply wp_bind. eapply wp_expect_word; [exact Hp5|]. intros p6 Hp6. by apply wp_ret.
  - change (hd (flat_map arm_toks ((pats, body) :: todo) ++ TWord "esac" :: post)) with (TOp "(").
    change (is_word "esac" (TOp "(")) with false. change (is_eof (TOp "(")) with false.
    rewrite bool_decide_eq_false_2 by (by intros [? ?]). cbn [orb]. apply wp_bind, wp_gets, wp_bind.
    assert (Harm : pats ≠ [] ∧ arm_body_ok d body).
    { rewrite Heq in Harms. apply Forall_app in Harms as [_ Harms]. by apply Forall_cons in Harms as [? _]. }
    cbn [flat_map] in Hp5. rewrite <-app_assoc in Hp5. destruct Harm as [Hne Hbody].
    eapply wp_mono; [by eapply case_arm_reads; [exact Hne|exact Hbody|exact Hcan|apply Htail|exact Hp5]|].
    intros arm p6 [-> Hp6]. apply wp_bind, wp_gets.
    assert (Hmv : (sp_i p5 < length toks)%nat ∧ (sp_i p5 < sp_i p6)%nat).
    { eapply at_moved; [exact Hp5|exact Hp6|]. rewrite (length_app (arm_toks _)). unfold arm_toks. cbn [length]. lia. }
    rewrite bool_decide_eq_false_2 by lia. apply wp_ret. cbn [fst snd]. split; [|done]. exists todo. by rewrite <-app_assoc.
Qed.

(** ** Commands *)

Definition KEYWORDS : list (string * Rule) :=
  [("if", RIf); ("for", RFor); ("while", RWhile false); ("until", RWhile true); ("case", RCase)].

Lemma dispatch_keyword kw rule rec p l d Q : (kw, rule) ∈ KEYWORDS → At p (TWord kw :: l) d →
  (∀ p', At p' (TWord kw :: l) d → wp (n ← rec rule; attach_redirects toks n) p' Q) →
  wp (parse_command_inner toks rec) p Q.
Proof.
  intros Hkw Hat Hgo. unfold parse_command_inner, skip_blank_newlines. apply wp_bind. eapply wp_skip_none; [exact Hat|done|].
  intros p1 Hp1. specialize (Hgo p1 Hp1). apply wp_bind, wp_gets, wp_bind, wp_gets. rewrite (at_peek _ _ _ Hp1), hd_cons.
  unfold KEYWORDS in Hkw.
  repeat (apply elem_of_cons in Hkw as [[= -> ->]|Hkw]; [exact Hgo|]). by apply elem_of_nil in Hkw.
Qed.

(** A compound command followed by redirects. *)
Definition with_redirects (n : Node) (rs : list Redirect) : Node := if bool_decide (rs = []) then n else NRedirected n rs.

Definition reads_compound (n : Node) : Prop :=
  ∀ fuel p rs post d, can fuel RCommand d → (d < MAX_SYNTAX_DEPTH)%nat →
  At p (print n ++ redirects_toks rs ++ post) (S d) → (S d + nesting n ≤ MAX_SYNTAX_DEPTH + 2)%nat →
  forallb redirect_canon rs = true → ends_command (hd post) = true →
  wp (rule_body toks (parse_rule toks (pred fuel)) RCommand) (MkParser (sp_i p) (sp_error p) d)
     (λ n' p', n' = with_redirects n rs ∧ At p' post d).

Lemma at_lower p l d d' : At p l d → At (MkParser (sp_i p) (sp_error p) d') l d'.
Proof. intros (? & ? & _). done. Qed.

(** From the body of the command rule one level down. *)
Lemma compound_intro n :
  (∀ fuel p rs post d, can (S fuel) RCommand d → (d < MAX_SYNTAX_DEPTH)%nat →
     At p (print n ++ redirects_toks rs ++ post) (S d) → (S d + nesting n ≤ MAX_SYNTAX_DEPTH + 2)%nat →
     forallb redirect_canon rs = true → ends_command (hd post) = true →
     wp (parse_command_inner toks (parse_rule toks fuel)) p (λ n' p', n' = with_redirects n rs ∧ At p' post (S d))) →
  reads_compound n.
Proof.
  intros Hn fuel p rs post d Hcan Hlt Hat Hd Hrs Hend. destruct (can_S _ _ _ Hcan) as [f ->]. cbn [pred rule_body].
  eapply wp_descend; [by eapply at_lower|done|]. intros p1 Hp1. by eapply Hn.
Qed.

Lemma keyword_compound n kw rule : (kw, rule) ∈ KEYWORDS → (∃ l, print n = TWord kw :: l) →
  (∀ fuel p post d, can fuel rule d → At p (print n ++ post) d → (d + nesting n ≤ MAX_SYNTAX_DEPTH + 2)%nat →
     wp (parse_rule toks fuel rule) p (λ n' p', n' = n ∧ At p' post d)) →
  reads_compound n.
Proof.
  intros Hkw [tl Hhead] Hread. apply compound_intro. intros fuel p rs post d Hcan Hlt Hat Hd Hrs Hend.
  rewrite Hhead in Hat. eapply dispatch_keyword; [exact Hkw|exact Hat|]. rewrite app_comm_cons, <-Hhead. intros p1 Hp1.
  apply wp_bind. eapply wp_mono; [eapply Hread; [by eapply can_inner|exact Hp1|done]|].
  intros n' p2 [-> Hp2]. eapply attach_reads; [exact Hrs|exact Hp2|done|]. by intros p3 Hp3.
Qed.

Lemma block_compound n body close sep (wrap : Node → Node) open :
  (open, close, sep, wrap) ∈ [(TOp "(", TOp ")", [], NSubshell); (TWord "{", TWord "}", [TOp ";"], NGroup)] →
  n = wrap body → reads_program body → stands LProgram body = true → reads_compound n.
Proof.
  intros Hcase -> Hb Hs. apply compound_intro. intros fuel p rs post d Hcan Hlt Hat Hd Hrs Hend.
  assert (Hcp : can fuel RProgram (S d)) by (by eapply can_inner).
  apply elem_of_cons in Hcase as [[= -> -> -> ->]|[[= -> -> -> ->]|[]%elem_of_nil]%elem_of_cons];
    cbn [print nesting] in Hat, Hd; flat Hat; unfold parse_command_inner, skip_blank_newlines; apply wp_bind;
    (eapply wp_skip_none; [exact Hat|done|]); intros p1 Hp1; apply wp_bind, wp_gets, wp_bind, wp_gets;
    rewrite (at_peek _ _ _ Hp1), hd_cons.
  - enough (Hgo : wp (_ ← advance 1; body ← parse_rule toks fuel RProgram; _ ← expect_op toks ")"; attach_redirects toks (NSubshell body)) p1
      (λ n' p', n' = with_redirects (NSubshell body) rs ∧ At p' post (S d))) by exact Hgo.
    apply wp_bind. eapply wp_adv; [exact Hp1|]. intros p2 Hp2. apply wp_bind.
    eapply (wp_program body _ _ []); [done|done|done|exact Hp2|lia|right; split; [done|rewrite hd_cons; set_solver]|].
    intros p3 Hp3. apply wp_bind. eapply wp_expect_op; [exact Hp3|]. intros p4 Hp4.
    eapply attach_reads; [exact Hrs|exact Hp4|done|]. by intros p5 Hp5.
  - enough (Hgo : wp (_ ← advance 1; body ← parse_rule toks fuel RProgram; _ ← expect_word toks "}"; attach_redirects toks (NGroup body)) p1
      (λ n' p', n' = with_redirects (NGroup body) rs ∧ At p' post (S d))) by exact Hgo.
    apply wp_bind. eapply wp_adv; [exact Hp1|]. intros p2 Hp2. apply wp_bind.
    eapply (wp_program body _ _ [TOp ";"]); [done|done|done|exact Hp2|lia|block_word|].
    intros p3 Hp3. apply wp_bind. eapply wp_expect_word; [exact Hp3|]. intros p4 Hp4.
    eapply attach_reads; [exact Hrs|exact Hp4|done|]. by intros p5 Hp5.
Qed.

Lemma arithmetic_compound e : reads_compound (NArithmetic e).
Proof.
  apply compound_intro. intros fuel p rs post d Hcan Hlt Hat Hd Hrs Hend. cbn [print] in Hat. flat Hat.
  unfold parse_command_inner, skip_blank_newlines. apply wp_bind. eapply wp_skip_none; [exact Hat|done|]. intros p1 Hp1.
  apply wp_bind, wp_gets, wp_bind, wp_gets. rewrite (at_peek _ _ _ Hp1), hd_cons.
  enough (Hgo : wp (_ ← advance 1; attach_redirects toks (NArithmetic e)) p1
    (λ n' p', n' = with_redirects (NArithmetic e) rs ∧ At p' post (S d))) by exact Hgo.
  apply wp_bind. eapply wp_adv; [exact Hp1|]. intros p2 Hp2. eapply attach_reads; [exact Hrs|exact Hp2|done|]. by intros p3 Hp3.
Qed.

Definition is_compound (n : Node) : bool :=
  match n with
  | NSubshell _ | NGroup _ | NIf _ _ _ _ | NFor _ _ _ | NCFor _ _ _ _ | NWhile _ _ _ | NCase _ _ | NArithmetic _ => true
  | _ => false
  end.

Lemma nesting_case word arms :
  Forall (λ arm, 2 + nesting arm.2 ≤ nesting (NCase word arms))%nat arms.
Proof.
  cbn [nesting]. induction arms as [|[pats body] arms IH]; [apply Forall_nil_2|]. cbn [foldr].
  apply Forall_cons_2; [simpl; lia|]. eapply Forall_impl; [exact IH|]. intros arm Harm. cbv beta in *. lia.
Qed.

Lemma compound_reads n : is_compound n = true → stands LCommand n = true → Forall reads_program (children n) → reads_compound n.
Proof.
  destruct n as [| | | | | | |x|x|c t elifs els|v ws b|i c u b|c b u|w arms| |e| | | |]; try done; intros _ Hst Hch.
  - cbn [children] in Hch. rewrite Forall_singleton in Hch. eapply (block_compound _ x); [left|done|done|done].
  - cbn [children] in Hch. rewrite Forall_singleton in Hch. eapply (block_compound _ x); [right; left|done|done|done].
  - eapply (keyword_compound _ "if" RIf); [unfold KEYWORDS; set_solver|by eexists|]. intros. by apply if_reads.
  - cbn [children] in Hch. rewrite Forall_singleton in Hch.
    eapply (keyword_compound _ "for" RFor); [unfold KEYWORDS; set_solver|by eexists|]. intros. by apply for_reads.
  - cbn [children] in Hch. rewrite Forall_singleton in Hch.
    eapply (keyword_compound _ "for" RFor); [unfold KEYWORDS; set_solver|by eexists|]. intros. by apply cfor_reads.
  - eapply (keyword_compound _ (if u then "until" else "while") (RWhile u));
      [unfold KEYWORDS; destruct u; set_solver|by destruct u; eexists|]. intros. by apply while_reads.
  - eapply (keyword_compound _ "case" RCase); [unfold KEYWORDS; set_solver|by eexists|].
    intros fuel p post d Hcan Hat Hd. apply case_reads; [|done|done].
    pose proof (nesting_case w arms) as Hn. cbn [children] in Hch. rewrite Forall_map in Hch.
    cbn [stands] in Hst. apply Forall_forall. intros [pats body] Hin.
    rewrite Forall_forall in Hch, Hn. specialize (Hch _ Hin). specialize (Hn _ Hin). cbn [snd] in Hch, Hn.
    apply list_elem_of_In in Hin. eapply forallb_forall in Hst; [|exact Hin]. apply andb_true_iff in Hst as [Hne Hs].
    split; [cbn [fst]; by destruct pats|]. cbn [snd]. unfold arm_body_ok.
    destruct body; first [by left | right; split; [done|]; split; [done|lia]].
  - apply arithmetic_compound.
Qed.

Lemma compound_command n x rs : n = with_redirects x rs → print n = print x ++ redirects_toks rs →
  nesting n = nesting x → (2 ≤ nesting x)%nat →
  reads_compound x → forallb redirect_canon rs = true → reads LCommand n.
Proof.
  intros Hn Hpr Hnest Htwo Hx Hrs _ fuel p post d Hcan Hat Hd Hfol. cbn [rule_of slack] in *.
  destruct (can_S _ _ _ Hcan) as [f ->]. cbn [parse_rule]. rewrite Hpr, <-app_assoc in Hat. destruct Hat as (Hl & He & Hdep).
  assert (Hp : p = MkParser (sp_i p) (sp_error p) d) by (destruct p; simpl in *; congruence).
  assert (Hlt : (d < MAX_SYNTAX_DEPTH)%nat) by lia.
  rewrite Hn, Hp. apply (Hx (S f) (MkParser (sp_i p) (sp_error p) (S d))); [done|done|done|lia|done|by eapply follows_ends].
Qed.

Lemma not_keyword w : reserved w = false ∨ w = "[[" →
  Forall (λ k, is_word k (TWord w) = false) ["if"; "for"; "while"; "until"; "case"; "function"; "{"].
Proof.
  intros Hw. apply Forall_forall. intros k Hk. unfold is_word. apply bool_decide_eq_false_2. intros [= ->].
  destruct Hw as [Hw| ->]; [|set_solver]. apply bool_decide_eq_false_1 in Hw. apply Hw. unfold RESERVED. set_solver.
Qed.

(** The command rule on a word that starts no compound command. *)
Lemma dispatch_word w rec p l d Q : reserved w = false ∨ w = "[[" → At p (TWord w :: l) d →
  (∀ p', At p' (TWord w :: l) d →
     wp (if funcdef_ahead toks p' then
           _ ← advance 3; _ ← skip_blank_newlines toks; body ← rec RCommand; mret (NFuncDef w body)
         else parse_simple toks) p' Q) →
  wp (parse_command_inner toks rec) p Q.
Proof.
  intros Hw Hat Hgo. unfold parse_command_inner. apply wp_bind. unfold skip_blank_newlines at 1. eapply wp_skip_none; [exact Hat|done|].
  intros p1 Hp1. specialize (Hgo p1 Hp1). apply wp_bind, wp_gets, wp_bind, wp_gets. rewrite (at_peek _ _ _ Hp1), hd_cons.
  pose proof (not_keyword w Hw) as Hk. repeat (apply Forall_cons in Hk as [? Hk]; cbv beta in *).
  change (is_eof (TWord w)) with false. cbn [is_op orb].
  repeat match goal with H : is_word _ (TWord w) = false |- _ => rewrite H; clear H end.
  destruct (funcdef_ahead toks p1); [exact Hgo|].
  assert (Hr : reserved w && negb (bool_decide (w = "[[")) = false).
  { destruct Hw as [-> | ->]; [done|]. by rewrite bool_decide_eq_true_2, andb_false_r. }
  rewrite Hr. exact Hgo.
Qed.

Lemma funcdef_ahead_at w p l d : At p (TWord w :: l) d →
  funcdef_ahead toks p = negb (reserved w) && bool_decide (l !! 0%nat = Some (TOp "(")) && bool_decide (l !! 1%nat = Some (TOp ")")).
Proof.
  intros Hat. unfold funcdef_ahead. rewrite (at_peek _ _ _ Hat), hd_cons, !(at_lookup _ _ _ _ Hat). done.
Qed.

Lemma simple_command_reads assigns words redirects : reads LCommand (NCommand assigns words redirects).
Proof.
  intros Hst fuel p post d Hcan Hat Hd Hfol. cbn [rule_of slack stands nesting] in *. apply follows_ends in Hfol.
  destruct (can_S _ _ _ Hcan) as [f ->]. cbn [parse_rule rule_body]. eapply wp_descend; [exact Hat|lia|]. intros p1 Hp1.
  destruct (simple_head _ _ _ Hst) as (t & l & Heq & (Hte & Hto & _) & Ht & Hnext).
  assert (Hgo : ∀ p', At p' (print (NCommand assigns words redirects) ++ post) (S d) →
    wp (parse_simple toks) p' (λ n' p2, n' = NCommand assigns words redirects ∧ At p2 post (S d)))
    by (intros p' Hp'; by apply simple_reads).
  rewrite Heq in Hp1, Hgo. cbn [app] in Hp1, Hgo. destruct t; try done;
    [|unfold parse_command_inner, skip_blank_newlines; apply wp_bind; (eapply wp_skip_none; [exact Hp1|done|]);
      intros p2 Hp2; apply wp_bind, wp_gets, wp_bind, wp_gets; rewrite (at_peek _ _ _ Hp2), hd_cons; exact (Hgo p2 Hp2)..].
  assert (Hw : reserved w = false ∨ w = "[[").
  { destruct Ht as [Hc|Ha]; [|left; by apply reserved_not_assignment]. by apply command_name_parts in Hc as (_ & ? & _). }
  eapply dispatch_word; [exact Hw|exact Hp1|]. intros p2 Hp2. rewrite (funcdef_ahead_at _ _ _ _ Hp2).
  rewrite (bool_decide_eq_false_2 (_ !! 0%nat = _)) by (by apply Hnext). rewrite andb_false_r. cbn [andb]. by apply Hgo.
Qed.

Lemma function_reads name body : reads LCommand body → reads LCommand (NFuncDef name body).
Proof.
  intros Hbody Hst fuel p post d Hcan Hat Hd Hfol. cbn [rule_of slack stands nesting] in *.
  apply andb_true_iff in Hst as [Hn Hs]. unfold function_name in Hn. apply andb_true_iff in Hn as [Hr _]. apply negb_true_iff in Hr.
  destruct (can_S _ _ _ Hcan) as [f ->]. cbn [parse_rule rule_body]. eapply wp_descend; [exact Hat|lia|]. intros p1 Hp1.
  cbn [print] in Hp1. flat Hp1. eapply dispatch_word; [by left|exact Hp1|]. intros p2 Hp2.
  rewrite (funcdef_ahead_at _ _ _ _ Hp2), Hr. cbn [negb andb lookup list_lookup].
  rewrite !bool_decide_eq_true_2 by done. cbn [andb]. apply wp_bind, wp_move. apply (at_drop 3) in Hp2. cbn [drop] in Hp2. rewrite drop_0 in Hp2.
  destruct (command_head body Hs) as (t & l & Heq & (Hte & Hto & _) & _).
  unfold skip_blank_newlines. apply wp_bind. eapply wp_skip_none; [exact Hp2| |].
  { rewrite Heq. cbn [app]. rewrite hd_cons. destruct t; try done. simpl. apply bool_decide_eq_false_2. rewrite (Hto _ eq_refl). set_solver. }
  intros p3 Hp3. apply wp_bind.
  eapply wp_mono; [eapply (Hbody Hs f); [by eapply can_inner; [exact Hcan|done|lia]|exact Hp3|simpl; lia|done]|].
  intros n' p4 [-> Hp4]. by apply wp_ret.
Qed.

Lemma two_levels n : is_compound n = true → (2 ≤ nesting n)%nat.
Proof. destruct n; try done; intros _; cbn [nesting]; lia. Qed.

Lemma command_reads n : Forall (λ c, reads LCommand c ∧ reads_program c) (children n) →
  (∀ x rs, n = NRedirected x rs → is_compound x = true → stands LCommand x = true → reads_compound x) →
  reads LCommand n.
Proof.
  intros Hch Hred Hst.
  assert (Hprog : Forall reads_program (children n)) by (eapply Forall_impl; [exact Hch|]; by intros ? [_ ?]).
  revert Hst. destruct (is_compound n) eqn:Hc.
  - intros Hst. apply (compound_command n n []); [done|by rewrite app_nil_r|done|by apply two_levels|by apply compound_reads|done|exact Hst].
  - destruct n as [assigns words redirects| | | | | | | | | | | | | |name body| | | |x rs|]; try done.
    + apply simple_command_reads.
    + cbn [children] in Hch. rewrite Forall_singleton in Hch. apply function_reads, Hch.
    + intros Hst. assert (Hparts : is_compound x = true ∧ stands LCommand x = true ∧ rs ≠ [] ∧ forallb redirect_canon rs = true).
      { destruct x; try done; apply andb_true_iff in Hst as [[Hsx Hne]%andb_true_iff Hrs];
          (split; [done|]); (split; [exact Hsx|]); (split; [|exact Hrs]); intros ->; done. }
      destruct Hparts as (Hx & Hsx & Hne & Hrs).
      apply (compound_command (NRedirected x rs) x rs); [|done|done|by apply two_levels|by eapply Hred|done|exact Hst].
      unfold with_redirects. by rewrite bool_decide_eq_false_2.
Qed.

(** ** Pipelines *)

Lemma join_cons sep x xs : join sep (x :: xs) = x ++ flat_map (cons sep) xs.
Proof.
  revert x. induction xs as [|y xs IH]; intros x; [by rewrite app_nil_r|].
  change (join sep (x :: y :: xs)) with (x ++ sep :: join sep (y :: xs)). by rewrite IH.
Qed.

Lemma start_skips t ops : start_tok t → "(" ∉ ops → is_op ops t = false.
Proof.
  intros (_ & Hto & _) Hops. destruct t; try done. simpl. apply bool_decide_eq_false_2. by rewrite (Hto _ eq_refl).
Qed.

(** A stage that is read at depth [d]. *)
Definition stage_ok (d : nat) (n : Node) : Prop :=
  reads LCommand n ∧ stands LCommand n = true ∧ (d + nesting n ≤ MAX_SYNTAX_DEPTH + 1)%nat.

Lemma follows_weaken t : follows LPipeline t = true → follows LCommand t = true.
Proof.
  intros H%follows_ends. destruct t; try done. simpl in *. apply negb_true_iff, bool_decide_eq_false in H.
  apply negb_true_iff, bool_decide_eq_false. by intros Hin%list_elem_of_singleton.
Qed.

Lemma stages_read s1 ss fuel p post d Q : Forall (stage_ok d) (s1 :: ss) → can fuel RCommand d →
  At p (join (TOp "|") (map print (s1 :: ss)) ++ post) d → follows LPipeline (hd post) = true →
  (∀ p', At p' post d → Q (s1 :: ss) p') →
  wp (first ← parse_rule toks fuel RCommand; while_ toks (stage_step toks (parse_rule toks fuel)) [first]) p Q.
Proof.
  intros Hok Hcan Hat Hfol HQ. cbn [map] in Hat. rewrite join_cons, <-app_assoc in Hat.
  set (tail := λ todo, flat_map (cons (TOp "|")) (map print todo) ++ post) in *.
  assert (Htail : ∀ todo, follows LCommand (hd (tail todo)) = true)
    by (intros [|s todo]; [by apply follows_weaken|done]).
  apply Forall_cons in Hok as [(Hr1 & Hs1 & Hd1) Hok]. apply wp_bind.
  eapply wp_mono; [by eapply (Hr1 Hs1 fuel p (tail ss) d)|]. intros n p1 [-> Hp1].
  apply (wp_tokens toks (λ acc p', ∃ todo, s1 :: ss = acc ++ todo ∧ Forall (stage_ok d) todo ∧ At p' (tail todo) d));
    [|by exists ss].
  intros acc p2 (todo & Heq & Htodo & Hp2). unfold stage_step. apply wp_bind, wp_gets. rewrite (at_peek _ _ _ Hp2).
  destruct todo as [|s todo].
  - assert (Hstop : is_op ["|"; "|&"] (hd (tail [])) = false).
    { unfold tail. cbn [map flat_map app]. unfold follows in Hfol. destruct (hd post); try done. simpl.
      apply bool_decide_eq_false_2. apply negb_true_iff, bool_decide_eq_false_1 in Hfol. set_solver. }
    rewrite Hstop. apply wp_ret. cbn [fst snd]. rewrite app_nil_r in Heq. rewrite <-Heq. by apply HQ.
  - change (hd (tail (s :: todo))) with (TOp "|"). change (is_op ["|"; "|&"] (TOp "|")) with true.
    change (is_op ["|&"] (TOp "|")) with false. cbv iota. apply Forall_cons in Htodo as [(Hr & Hs & Hd) Htodo].
    unfold tail in Hp2. cbn [map flat_map] in Hp2. flat Hp2. fold (tail todo) in Hp2.
    apply wp_bind. eapply wp_adv; [exact Hp2|]. intros p3 Hp3. apply wp_bind, wp_ret. unfold skip_blank_newlines. apply wp_bind.
    destruct (print_head LCommand s Hs) as (t & l & Ht & Hstart).
    eapply wp_skip_none; [exact Hp3|rewrite Ht; apply start_skips; [done|set_solver]|]. intros p4 Hp4. apply wp_bind.
    eapply wp_mono; [by eapply (Hr Hs fuel p4 (tail todo) d)|]. intros n p5 [-> Hp5]. apply wp_ret. cbn [fst snd].
    split; [exists todo; split; [by rewrite <-app_assoc|done]|].
    eapply at_moved; [exact Hp2|exact Hp5|]. cbn [length]. rewrite length_app. lia.
Qed.

Definition stage_list (n : Node) : list Node := match n with NPipeline stages => stages | n => [n] end.

Definition plain_pipeline (n : Node) : bool := match n with NNot _ | NTimed _ _ => false | _ => true end.

(** The stages of a pipeline that is neither timed nor negated. *)
Lemma stage_list_ok n d : plain_pipeline n = true → stands LPipeline n = true → (d + nesting n ≤ MAX_SYNTAX_DEPTH + 1)%nat →
  Forall (reads LCommand) (stage_list n) →
  ∃ s1 ss, stage_list n = s1 :: ss ∧ Forall (stage_ok d) (stage_list n) ∧
    match stage_list n with [stage] => stage | _ => NPipeline (stage_list n) end = n ∧
    print n = join (TOp "|") (map print (stage_list n)).
Proof.
  intros Hpl Hst Hd Hr.
  assert (Hone : stage_list n = [n] → stands LCommand n = true → ∃ s1 ss, stage_list n = s1 :: ss ∧ Forall (stage_ok d) (stage_list n) ∧
    match stage_list n with [stage] => stage | _ => NPipeline (stage_list n) end = n ∧
    print n = join (TOp "|") (map print (stage_list n))).
  { intros Hl Hc. rewrite Hl in *. rewrite Forall_singleton in Hr. exists n, []. split; [done|]. split; [by apply Forall_singleton|done]. }
  destruct n as [| |stages| | | | | | | | | | | | | | | | |]; try done; try (by apply Hone).
  cbn [stage_list stands] in *. apply andb_true_iff in Hst as [Hlen Hst]. apply bool_decide_eq_true_1 in Hlen.
  destruct stages as [|s1 [|s2 ss]]; simpl in Hlen; [lia|lia|]. exists s1, (s2 :: ss). split; [done|]. split; [|done].
  apply Forall_forall. intros s Hs. rewrite Forall_forall in Hr. split; [by apply Hr|]. split.
  - eapply forallb_forall in Hst; [exact Hst|]. by apply list_elem_of_In.
  - assert (Hle : (nesting s ≤ nesting (NPipeline (s1 :: s2 :: ss)))%nat); [|lia]. cbn [nesting]. clear -Hs.
    induction (s1 :: s2 :: ss) as [|x l IH]; [by apply elem_of_nil in Hs|]. simpl.
    apply elem_of_cons in Hs as [->|Hs]; [lia|]. apply IH in Hs. lia.
Qed.

Lemma bind_first {A B} (m : prs A) (k : A → prs B) (f : B → prs Node) p Q :
  wp (a ← m; k a) p (λ b p', wp (f b) p' Q) → wp (a ← m; b ← k a; f b) p Q.
Proof.
  intros (p2 & b & Hrun & Hw). unfold mbind, stm_bind in Hrun. destruct (m p) as [[p1 a]| |] eqn:Hm; try done.
  apply wp_bind. eapply wp_eq; [exact Hm|]. apply wp_bind. by eapply wp_eq.
Qed.

Lemma pipeline_start n : plain_pipeline n = true → stands LPipeline n = true → ∃ t l, print n = t :: l ∧ command_start t.
Proof.
  intros Hpl Hst. destruct n as [| |stages| | | | | | | | | | | | | | | | |]; try done; try (by apply command_head).
  cbn [stands] in Hst. apply andb_true_iff in Hst as [Hlen Hst]. apply bool_decide_eq_true_1 in Hlen.
  destruct stages as [|s ss]; simpl in Hlen; [lia|]. cbn [forallb] in Hst. apply andb_true_iff in Hst as [Hs _].
  destruct (command_head s Hs) as (t & l & Heq & Hc). cbn [print map]. rewrite join_cons, Heq. by eexists _, _.
Qed.

Lemma nesting_pos l n : stands l n = true → (2 ≤ nesting n)%nat.
Proof.
  revert l. induction n as [n IH] using node_children_ind. intros l Hst.
  assert (Hlist : ∀ k nodes, children n = nodes → (2 ≤ length nodes)%nat → forallb (stands k) nodes = true →
    (2 ≤ foldr (λ n k, Nat.max (nesting n) k) O nodes)%nat).
  { intros k [|x nodes] Hc Hlen Hall; simpl in Hlen; [lia|]. cbn [forallb] in Hall. apply andb_true_iff in Hall as [Hx _].
    rewrite Hc in IH. apply Forall_cons in IH as [IH _]. specialize (IH _ Hx). simpl. lia. }
  destruct n as [| |stages|x y|x y|nodes|x|x|x|c t elifs els|v ws b|i c u b|c b u|w arms|nm b|e|x|x posix|x rs|]; try done;
    cbn [nesting]; try lia.
  - destruct l; try done; cbn [stands] in Hst; apply andb_true_iff in Hst as [Hlen%bool_decide_eq_true_1 Hst]; by eapply Hlist.
  - apply Forall_cons in IH as [IH _]. destruct l; try done; cbn [stands] in Hst; apply andb_true_iff in Hst as [Hx _];
      apply IH in Hx; lia.
  - apply Forall_cons in IH as [IH _]. destruct l; try done; cbn [stands] in Hst; apply andb_true_iff in Hst as [Hx _];
      apply IH in Hx; lia.
  - destruct l; try done; cbn [stands] in Hst; apply andb_true_iff in Hst as [Hlen%bool_decide_eq_true_1 Hst]; by eapply Hlist.
  - apply Forall_cons in IH as [IH _]. destruct l; try done; cbn [stands] in Hst; apply IH in Hst; lia.
  - apply Forall_cons in IH as [IH _]. destruct l; try done; cbn [stands] in Hst; apply andb_true_iff in Hst as [Hx _];
      apply IH in Hx; lia.
  - apply Forall_cons in IH as [IH _]. destruct l; try done; cbn [stands] in Hst; apply andb_true_iff in Hst as [Hx _];
      apply IH in Hx; lia.
  - destruct x; try done; by apply two_levels.
Qed.

Lemma timed_reads x posix fuel p post d : reads LPipeline x → stands LPipeline (NTimed x posix) = true →
  can (S fuel) RPipeline d → (d < MAX_SYNTAX_DEPTH)%nat → At p (print (NTimed x posix) ++ post) (S d) →
  (S d + nesting x ≤ MAX_SYNTAX_DEPTH)%nat → follows LPipeline (hd post) = true →
  wp (parse_pipeline_inner toks (parse_rule toks fuel)) p (λ n p', n = NTimed x posix ∧ At p' post (S d)).
Proof.
  intros Hx Hst Hcan Hlt Hat Hd Hfol. cbn [stands] in Hst. apply andb_true_iff in Hst as [Hs Hflag].
  destruct (print_head LPipeline x Hs) as (t & l & Heq & Hte & Hto & _).
  cbn [print] in Hat. flat Hat. unfold parse_pipeline_inner, word_is. apply wp_bind, wp_gets. rewrite (at_peek _ _ _ Hat), hd_cons.
  change (is_word "time" (TWord "time")) with true. unfold parse_timed, word_is. apply wp_bind. eapply wp_adv; [exact Hat|].
  intros p1 Hp1. apply wp_bind, wp_gets. rewrite (at_peek _ _ _ Hp1). apply wp_bind.
  assert (Hskip : wp (if is_word "-p" (hd ((if posix then [TWord "-p"] else []) ++ print x ++ post)) then advance 1 else mret tt) p1
    (λ _ p', At p' (print x ++ post) (S d)) ∧
    is_word "-p" (hd ((if posix then [TWord "-p"] else []) ++ print x ++ post)) = posix).
  { destruct posix; cbn [app] in *.
    - rewrite hd_cons. change (is_word "-p" (TWord "-p")) with true. split; [|done]. by eapply wp_adv.
    - unfold not_posix_flag in Hflag. rewrite Heq in *. cbn [app head] in *. rewrite hd_cons.
      cbn [orb] in Hflag. apply negb_true_iff, bool_decide_eq_false_1 in Hflag.
      assert (Hw : is_word "-p" t = false) by (apply bool_decide_eq_false_2; congruence). rewrite Hw. split; [by apply wp_ret|done]. }
  destruct Hskip as [Hskip Hposix]. eapply wp_mono; [exact Hskip|]. intros u p2 Hp2. apply wp_bind, wp_gets.
  rewrite (at_peek _ _ _ Hp2), Hposix, Heq. cbn [app]. rewrite hd_cons.
  assert (Hempty : match t with TEof => true | TOp op => negb (bool_decide (op = "(")) | _ => false end = false)
    by (destruct t; try done; by rewrite (Hto _ eq_refl)).
  rewrite Hempty. apply wp_bind. eapply wp_mono; [eapply (Hx Hs fuel); [by eapply can_inner|exact Hp2|simpl; lia|done]|].
  intros n p3 [-> Hp3]. by apply wp_ret.
Qed.

Lemma stages_pipeline_reads n negate fuel p post d : Forall (reads LCommand) (stage_list n) → plain_pipeline n = true →
  stands LPipeline n = true → can (S fuel) RPipeline d → (d < MAX_SYNTAX_DEPTH)%nat →
  At p ((if negate : bool then [TWord "!"] else []) ++ print n ++ post) (S d) →
  (d + nesting n ≤ MAX_SYNTAX_DEPTH)%nat → follows LPipeline (hd post) = true →
  wp (parse_pipeline_inner toks (parse_rule toks fuel)) p (λ n' p', n' = (if negate then NNot n else n) ∧ At p' post (S d)).
Proof.
  intros Hr Hpl Hst Hcan Hlt Hat Hd Hfol. destruct (pipeline_start n Hpl Hst) as (t & l & Heq & _ & Htime & Hbang).
  destruct (stage_list_ok n (S d) Hpl Hst ltac:(lia) Hr) as (s1 & ss & Hl & Hok & Hnode & Hprint).
  unfold parse_pipeline_inner, word_is. apply wp_bind, wp_gets. rewrite (at_peek _ _ _ Hat).
  assert (Hnt : is_word "time" (hd ((if negate : bool then [TWord "!"] else []) ++ print n ++ post)) = false).
  { destruct negate; cbn [app]; [done|]. rewrite Heq. cbn [app]. rewrite hd_cons. by apply bool_decide_eq_false_2. }
  rewrite Hnt. apply wp_bind, wp_gets. rewrite (at_peek _ _ _ Hat). apply wp_bind.
  assert (Hneg : is_word "!" (hd ((if negate : bool then [TWord "!"] else []) ++ print n ++ post)) = negate).
  { destruct negate; cbn [app]; [done|]. rewrite Heq. cbn [app]. rewrite hd_cons. by apply bool_decide_eq_false_2. }
  rewrite Hneg.
  assert (Hskip : wp (if negate : bool then advance 1 else mret tt) p (λ _ p', At p' (print n ++ post) (S d)))
    by (destruct negate; cbn [app] in Hat; [by eapply wp_adv|by apply wp_ret]).
  eapply wp_mono; [exact Hskip|]. intros u p1 Hp1. apply bind_first. rewrite Hprint, Hl in Hp1. rewrite Hl in Hok, Hnode.
  eapply stages_read; [exact Hok|by eapply can_inner|exact Hp1|done|]. intros p2 Hp2. apply wp_ret. rewrite Hnode. by destruct negate.
Qed.

Lemma pipeline_reads n : Forall (reads LCommand) (stage_list n) →
  (∀ x posix, n = NTimed x posix → reads LPipeline x) →
  (∀ x, n = NNot x → Forall (reads LCommand) (stage_list x)) → reads LPipeline n.
Proof.
  intros Hstages Htimed Hnot Hst fuel p post d Hcan Hat Hd Hfol. cbn [rule_of slack] in *. rewrite Nat.add_0_r in Hd.
  destruct (can_S _ _ _ Hcan) as [f ->]. pose proof (nesting_pos _ _ Hst) as Hpos.
  cbn [parse_rule rule_body]. eapply wp_descend; [exact Hat|lia|]. intros p1 Hp1.
  destruct (plain_pipeline n) eqn:Hpl.
  - apply (stages_pipeline_reads n false); [done|done|done|done|lia|exact Hp1|lia|done].
  - destruct n as [| | | | | | | | | | | | | | | |x|x posix| |]; try done.
    + cbn [stands] in Hst. apply andb_true_iff in Hst as [Hs Hplx]. cbn [nesting print] in *. 
      apply (stages_pipeline_reads x true); [by apply Hnot|by destruct x|done|done|lia|exact Hp1|lia|done].
    + cbn [nesting] in Hd. apply timed_reads; [by eapply Htimed|done|done|lia|exact Hp1|lia|done].
Qed.

(** ** Chains *)

(** [spine d n m ts]: [n] is the chain [m] with the further links printed as [ts], each of which
    can be read when the chain starts at depth [d]. *)
Inductive spine (d : nat) (n : Node) : Node → list Tok → Prop :=
| spine_end : spine d n n []
| spine_and m y ts : reads LPipeline y → stands LPipeline y = true → (d + S (links m) + nesting y ≤ MAX_SYNTAX_DEPTH)%nat →
    spine d n (NAnd m y) ts → spine d n m (TOp "&&" :: print y ++ ts)
| spine_or m y ts : reads LPipeline y → stands LPipeline y = true → (d + S (links m) + nesting y ≤ MAX_SYNTAX_DEPTH)%nat →
    spine d n (NOr m y) ts → spine d n m (TOp "||" :: print y ++ ts)
| spine_background m ts : (d + S (links m) ≤ MAX_SYNTAX_DEPTH)%nat →
    spine d n (NBackground m) ts → spine d n m (TOp "&" :: ts).

Lemma spine_snoc d n n' m ts link : spine d n m ts → spine d n' n link → spine d n' m (ts ++ link).
Proof.
  intros Hs Hl. induction Hs as [|m y ts Hr Hst Hd _ IH|m y ts Hr Hst Hd _ IH|m ts Hd _ IH]; [done|..];
    cbn [app]; rewrite <-?app_assoc; by constructor.
Qed.

(** A chain starts with a pipeline. *)
Definition chain_reads (n : Node) : Prop :=
  stands LAndOr n = true → ∀ d, (d + nesting n ≤ MAX_SYNTAX_DEPTH)%nat → ∃ base ts,
    spine d n base ts ∧ links base = O ∧ stands LPipeline base = true ∧ reads LPipeline base ∧
    (nesting base ≤ nesting n)%nat ∧ print n = print base ++ ts.

Lemma links_pipeline n : stands LPipeline n = true → links n = O.
Proof. by destruct n. Qed.

Lemma chain_pipeline n : reads LPipeline n → stands LPipeline n = true → chain_reads n.
Proof.
  intros Hr Hs _ d Hd. exists n, []. split; [constructor|]. split; [by apply links_pipeline|]. by rewrite app_nil_r.
Qed.

Lemma chain_ok n : reads LPipeline n → Forall (λ c, chain_reads c ∧ reads LPipeline c) (children n) → chain_reads n.
Proof.
  intros Hn Hch. destruct (stands LPipeline n) eqn:Hp; [by apply chain_pipeline|]. intros Hst d Hd.
  assert (Hext : ∀ x link, chain_reads x → stands LAndOr x = true → (nesting x ≤ nesting n)%nat → spine d n x link →
    print n = print x ++ link → ∃ base ts, spine d n base ts ∧ links base = O ∧ stands LPipeline base = true ∧
      reads LPipeline base ∧ (nesting base ≤ nesting n)%nat ∧ print n = print base ++ ts).
  { intros x link Hx Hsx Hle Hlink Hpr. destruct (Hx Hsx d ltac:(lia)) as (base & ts & Hsp & Hl & Hsb & Hrb & Hnb & Hpx).
    exists base, (ts ++ link). split; [by eapply spine_snoc|]. do 3 (split; [done|]). split; [lia|].
    by rewrite Hpr, Hpx, app_assoc. }
  destruct n as [| | |x y|x y| |x| | | | | | | | | | | | |]; try done; cbn [stands nesting children] in *; try congruence.
  - apply andb_true_iff in Hst as [Hx Hy]. apply Forall_cons in Hch as [[Hcx _] Hch]. rewrite Forall_singleton in Hch. destruct Hch as [_ Hry].
    apply (Hext x (TOp "&&" :: print y)); [done|done|lia| |done]. rewrite <-(app_nil_r (print y)).
    apply spine_and; [done|done|lia|constructor].
  - apply andb_true_iff in Hst as [Hx Hy]. apply Forall_cons in Hch as [[Hcx _] Hch]. rewrite Forall_singleton in Hch. destruct Hch as [_ Hry].
    apply (Hext x (TOp "||" :: print y)); [done|done|lia| |done]. rewrite <-(app_nil_r (print y)).
    apply spine_or; [done|done|lia|constructor].
  - apply Forall_cons in Hch as [[Hcx _] _].
    apply (Hext x [TOp "&"]); [done|done|lia| |done]. apply spine_background; [lia|constructor].
Qed.

Lemma spine_follows d n m ts post : spine d n m ts → follows LAndOr (hd post) = true → follows LPipeline (hd (ts ++ post)) = true.
Proof.
  intros Hs Hf. destruct Hs; try done. cbn [app]. unfold follows in *. destruct (hd post); try done.
  apply negb_true_iff, bool_decide_eq_false. apply negb_true_iff, bool_decide_eq_false_1 in Hf. set_solver.
Qed.

Lemma wp_deepen p l d Q : At p l d → (d < MAX_SYNTAX_DEPTH)%nat → (∀ p', At p' l (S d) → Q true p') → wp deepen p Q.
Proof.
  intros (Hl & He & Hd) Hlt HQ. unfold deepen. apply wp_bind, wp_gets. rewrite bool_decide_eq_false_2 by lia.
  apply wp_bind, wp_modify, wp_ret, HQ. split; [done|]. split; [done|]. simpl. lia.
Qed.

(** One round of the chain loop. *)
Definition chain_at (d : nat) (n : Node) (post : list Tok) (acc : Node * nat) (p : Parser) : Prop :=
  ∃ ts, spine d n acc.1 ts ∧ acc.2 = links acc.1 ∧ At p (ts ++ post) (d + links acc.1).

Lemma and_or_step_reads d n post fuel acc p : can (S fuel) RAndOr d → follows LAndOr (hd post) = true → chain_at d n post acc p →
  wp (and_or_step toks (parse_rule toks fuel) acc) p (λ r p',
    if r.2 : bool then chain_at d n post r.1 p' ∧ (sp_i p < length toks)%nat ∧ (sp_i p < sp_i p')%nat
    else r.1 = (n, links n) ∧ At p' post (d + links n)).
Proof.
  intros Hcan Hfol (ts & Hsp & Hl & Hat). destruct acc as [m k]; cbn [fst snd] in *. subst k. unfold and_or_step.
  apply wp_bind, wp_gets. rewrite (at_peek _ _ _ Hat).
  assert (Hrhs : ∀ y ts' p1, reads LPipeline y → stands LPipeline y = true → (d + S (links m) + nesting y ≤ MAX_SYNTAX_DEPTH)%nat →
    follows LPipeline (hd (ts' ++ post)) = true → At p1 (print y ++ ts' ++ post) (d + links m) →
    wp (deeper ← deepen; if deeper : bool then
          _ ← skip_blank_newlines toks; rhs ← parse_rule toks fuel RPipeline; mret (Some rhs) else mret None) p1
       (λ r p', r = Some y ∧ At p' (ts' ++ post) (d + S (links m)))).
  { intros y ts' p1 Hr Hs Hd Hf Hp1. apply wp_bind. eapply wp_deepen; [exact Hp1|lia|]. intros p2 Hp2. apply wp_bind.
    destruct (print_head LPipeline y Hs) as (t & l & Heq & Hst).
    eapply wp_skip_none; [exact Hp2|rewrite Heq; apply start_skips; [done|set_solver]|]. intros p3 Hp3. apply wp_bind.
    rewrite Nat.add_succ_r. eapply wp_mono; [eapply (Hr Hs fuel); [|exact Hp3|simpl; lia|done]|].
    - destruct Hcan as [? Hf2]. split; [lia|]. simpl in *. lia.
    - intros n' p4 [-> Hp4]. by apply wp_ret. }
  destruct Hsp as [|m y ts Hr Hs Hd Hsp|m y ts Hr Hs Hd Hsp|m ts Hd Hsp].
  - cbn [app] in *. assert (Hstop : is_op ["&"] (hd post) = false ∧ is_op ["&&"; "||"] (hd post) = false).
    { unfold follows in Hfol. destruct (hd post); try done. simpl. apply negb_true_iff, bool_decide_eq_false_1 in Hfol.
      split; apply bool_decide_eq_false_2; intros Hin; apply Hfol; revert Hin; rewrite !elem_of_cons; tauto. }
    destruct Hstop as [-> ->]. by apply wp_ret.
  - cbn [app] in *. rewrite hd_cons. change (is_op ["&"] (TOp "&&")) with false. change (is_op ["&&"; "||"] (TOp "&&")) with true.
    change (is_op ["&&"] (TOp "&&")) with true. cbv iota. apply wp_bind. flat Hat. eapply wp_adv; [exact Hat|]. intros p1 Hp1.
    destruct (Hrhs y ts p1) as (p2 & r & Hrun & -> & Hp2); [done|done|done|by eapply spine_follows|done|].
    eapply wp_eq.
    { instantiate (1 := (NAnd m y, S (links m), true)). instantiate (1 := p2).
      unfold mbind, stm_bind in Hrun |- *. destruct (deepen p1) as [[p' []]| |]; try done.
      destruct (skip_blank_newlines toks p') as [[p'' u]| |]; try done. destruct (parse_rule toks fuel RPipeline p'') as [[p3 rhs]| |]; try done.
      cbn in Hrun |- *. by injection Hrun as <- <-. }
    cbn [fst snd]. split; [by exists ts|]. eapply at_moved; [exact Hat|exact Hp2|]. cbn [length]. rewrite (length_app (print y)). lia.
  - cbn [app] in *. rewrite hd_cons. change (is_op ["&"] (TOp "||")) with false. change (is_op ["&&"; "||"] (TOp "||")) with true.
    change (is_op ["&&"] (TOp "||")) with false. cbv iota. apply wp_bind. flat Hat. eapply wp_adv; [exact Hat|]. intros p1 Hp1.
    destruct (Hrhs y ts p1) as (p2 & r & Hrun & -> & Hp2); [done|done|done|by eapply spine_follows|done|].
    eapply wp_eq.
    { instantiate (1 := (NOr m y, S (links m), true)). instantiate (1 := p2).
      unfold mbind, stm_bind in Hrun |- *. destruct (deepen p1) as [[p' []]| |]; try done.
      destruct (skip_blank_newlines toks p') as [[p'' u]| |]; try done. destruct (parse_rule toks fuel RPipeline p'') as [[p3 rhs]| |]; try done.
      cbn in Hrun |- *. by injection Hrun as <- <-. }
    cbn [fst snd]. split; [by exists ts|]. eapply at_moved; [exact Hat|exact Hp2|]. cbn [length]. rewrite (length_app (print y)). lia.
  - cbn [app] in *. rewrite hd_cons. change (is_op ["&"] (TOp "&")) with true. cbv iota. apply wp_bind. eapply wp_adv; [exact Hat|].
    intros p1 Hp1. apply wp_bind. eapply wp_deepen; [exact Hp1|lia|]. intros p2 Hp2. apply wp_ret. cbn [fst snd].
    split; [exists ts; split; [done|]; split; [done|]; simpl links; by rewrite Nat.add_succ_r|].
    eapply at_moved; [exact Hat|exact Hp2|]. simpl. lia.
Qed.

Lemma and_or_reads n : chain_reads n → reads LAndOr n.
Proof.
  intros Hch Hst fuel p post d Hcan Hat Hd Hfol. cbn [rule_of slack] in *. rewrite Nat.add_0_r in Hd.
  destruct (can_S _ _ _ Hcan) as [f ->]. cbn [parse_rule rule_body]. unfold parse_and_or.
  destruct (Hch Hst d Hd) as (base & ts & Hsp & Hl & Hsb & Hrb & Hnb & Hpr). rewrite Hpr, <-app_assoc in Hat. apply wp_bind.
  eapply wp_mono; [eapply (Hrb Hsb f); [by eapply can_lower; [exact Hcan|simpl; lia]|exact Hat|simpl; lia|by eapply spine_follows]|].
  intros n' p1 [-> Hp1]. apply wp_bind. apply (wp_tokens toks (chain_at d n post)).
  2:{ exists ts. cbn [fst snd]. rewrite Hl, Nat.add_0_r. done. }
  intros acc p2 Hacc. eapply wp_mono; [by apply and_or_step_reads|]. intros [acc' []] p3; cbn [fst snd]; [done|].
  intros [-> (Hl3 & He3 & Hd3)]. apply wp_bind. unfold leave. apply wp_bind, wp_gets. rewrite bool_decide_eq_true_2 by lia.
  apply wp_modify, wp_ret. split; [done|]. split; [done|]. split; [done|]. simpl. lia.
Qed.

(** ** Programs *)

(** The members of a program. *)
Definition members (n : Node) : list Node := match n with NSeq nodes => nodes | n => [n] end.

Definition member_ok (d : nat) (n : Node) : Prop :=
  reads LAndOr n ∧ stands LAndOr n = true ∧ (d + nesting n ≤ MAX_SYNTAX_DEPTH)%nat.

Definition member_tail (todo : list Node) (tail : list Tok) : list Tok := flat_map (cons (TOp ";")) (map print todo) ++ tail.

Lemma stops_follows sep rest : stops sep rest → follows LAndOr (hd (sep ++ rest)) = true.
Proof.
  intros [[-> _]|[-> Hr]]; [done|]. cbn [app].
  repeat (apply elem_of_cons in Hr as [->|Hr]; [done|]). by apply elem_of_nil in Hr.
Qed.

(** After the last member the separators are skipped and the loop is about to end. *)
Lemma stops_skip sep rest : stops sep rest →
  drop_while (is_op [newline; ";"]) (sep ++ rest) = rest ∧ (block_end (hd rest) = true ∨ hd rest = TEof).
Proof.
  intros [[-> (kw & Hhd & Hkw)]|[-> Hr]]; cbn [app].
  - destruct rest as [|t rest]; [done|]. rewrite hd_cons in Hhd. subst t. split; [done|]. left. by apply bool_decide_eq_true_2.
  - assert (Hop : is_op [newline; ";"] (hd rest) = false ∧ (block_end (hd rest) = true ∨ hd rest = TEof)).
    { repeat (apply elem_of_cons in Hr as [->|Hr]; [split; [done|]; first [by left|by right]|]). by apply elem_of_nil in Hr. }
    destruct Hop as [Hop ?]. split; [|done]. destruct rest as [|t rest]; [done|]. cbn [drop_while]. rewrite hd_cons in Hop. by rewrite Hop.
Qed.

Lemma skip_next s tail : stands LAndOr s = true →
  drop_while (is_op [newline; ";"]) (TOp ";" :: print s ++ tail) = print s ++ tail ∧ block_end (hd (print s ++ tail)) = false.
Proof.
  intros Hs. destruct (print_head LAndOr s Hs) as (t & l & Heq & Hst). rewrite Heq. cbn [drop_while app].
  change (is_op [newline; ";"] (TOp ";")) with true. cbv iota. cbn [drop_while]. rewrite start_skips by (done || set_solver).
  split; [done|]. rewrite hd_cons. apply Hst.
Qed.

Definition program_at (nodes : list Node) (d : nat) (sep rest : list Tok) (acc : list Node) (p : Parser) : Prop :=
  (∃ s todo, nodes = acc ++ s :: todo ∧ Forall (member_ok d) (s :: todo) ∧ At p (print s ++ member_tail todo (sep ++ rest)) d) ∨
  (acc = nodes ∧ hd rest = TEof ∧ At p rest d).

Lemma program_step_reads nodes fuel d sep rest acc p : can (S fuel) RProgram d → stops sep rest →
  program_at nodes d sep rest acc p →
  wp (program_step toks (parse_rule toks fuel) acc) p (λ r p',
    if r.2 : bool then program_at nodes d sep rest r.1 p' ∧ (sp_i p < length toks)%nat ∧ (sp_i p < sp_i p')%nat
    else r.1 = nodes ∧ At p' rest d).
Proof.
  intros Hcan Hstop Hacc. unfold program_step. apply wp_bind, wp_gets, wp_bind, wp_gets.
  destruct Hacc as [(s & todo & Heq & Hok & Hat)|(-> & Heof & Hat)].
  2:{ rewrite (at_peek _ _ _ Hat), Heof. change (is_eof TEof) with true. cbn [orb]. by apply wp_ret. }
  apply Forall_cons in Hok as [(Hr & Hs & Hd) Hok]. destruct (print_head LAndOr s Hs) as (t & l & Hpr & Hst).
  rewrite (at_peek _ _ _ Hat), (proj1 (proj2 Hat)), Hpr. cbn [app]. rewrite hd_cons.
  assert (Hgo : is_eof t = false) by (apply bool_decide_eq_false_2, Hst). rewrite Hgo, start_skips by (done || set_solver).
  rewrite bool_decide_eq_false_2 by (by intros [? ?]). cbn [orb]. apply wp_bind, wp_gets, wp_bind.
  assert (Hfol : follows LAndOr (hd (member_tail todo (sep ++ rest))) = true) by (destruct todo; [exact (stops_follows _ _ Hstop)|done]).
  eapply wp_mono; [eapply (Hr Hs fuel); [by eapply can_lower; [exact Hcan|simpl; lia]|exact Hat|simpl; lia|done]|].
  intros n p1 [-> Hp1]. apply wp_bind, wp_gets.
  assert (Hmv : (sp_i p < length toks)%nat ∧ (sp_i p < sp_i p1)%nat).
  { eapply at_moved; [exact Hat|exact Hp1|]. rewrite Hpr, (length_app (t :: l)). simpl. lia. }
  rewrite bool_decide_eq_false_2 by lia. unfold skip_terminators. apply wp_bind. eapply wp_skip; [exact Hp1|]. intros p2 Hp2.
  apply wp_bind, wp_gets. rewrite (at_peek _ _ _ Hp2). apply wp_ret. cbn [fst snd].
  destruct todo as [|s2 todo]; unfold member_tail in *; cbn [map flat_map app] in *.
  - destruct (stops_skip _ _ Hstop) as [Hskip Hend]. rewrite Hskip in *. destruct Hend as [Hend|Hend]; rewrite Hend; [done|].
    change (negb (block_end TEof)) with true. cbv iota. split; [by right|].
    eapply at_moved; [exact Hat|exact Hp2|]. rewrite Hpr, !length_app. simpl. lia.
  - apply Forall_cons in Hok as [(Hr2 & Hs2 & Hd2) Hok].
    destruct (skip_next s2 (flat_map (cons (TOp ";")) (map print todo) ++ sep ++ rest) Hs2) as [Hskip Hb].
    rewrite <-app_assoc in *. rewrite Hskip in *. rewrite Hb. cbn [negb]. split.
    + left. exists s2, todo. split; [by rewrite <-app_assoc|]. split; [by apply Forall_cons_2|exact Hp2].
    + eapply at_moved; [exact Hat|exact Hp2|]. rewrite Hpr, (length_app (t :: l)). cbn [length]. lia.
Qed.

Lemma members_ok n d : stands LProgram n = true → (d + nesting n ≤ MAX_SYNTAX_DEPTH)%nat → Forall (reads LAndOr) (members n) →
  ∃ s ss, members n = s :: ss ∧ Forall (member_ok d) (s :: ss) ∧ print n = join (TOp ";") (map print (members n)) ∧
    match members n with [node] => node | _ => NSeq (members n) end = n.
Proof.
  intros Hst Hd Hr.
  assert (Hone : members n = [n] → stands LAndOr n = true → ∃ s ss, members n = s :: ss ∧ Forall (member_ok d) (s :: ss) ∧
    print n = join (TOp ";") (map print (members n)) ∧ match members n with [node] => node | _ => NSeq (members n) end = n).
  { intros Hm Hs. rewrite Hm in *. rewrite Forall_singleton in Hr. exists n, []. split; [done|]. split; [by apply Forall_singleton|done]. }
  destruct n as [| | | | |nodes| | | | | | | | | | | | | |]; try done; try (by apply Hone).
  cbn [members stands] in *. apply andb_true_iff in Hst as [Hlen Hst]. apply bool_decide_eq_true_1 in Hlen.
  destruct nodes as [|s1 [|s2 ss]]; simpl in Hlen; [lia|lia|]. exists s1, (s2 :: ss). split; [done|]. split; [|done].
  apply Forall_forall. intros s Hs. rewrite Forall_forall in Hr. split; [by apply Hr|]. split.
  - eapply forallb_forall in Hst; [exact Hst|]. by apply list_elem_of_In.
  - assert (Hle : (nesting s ≤ nesting (NSeq (s1 :: s2 :: ss)))%nat); [|lia]. cbn [nesting]. clear -Hs.
    induction (s1 :: s2 :: ss) as [|x l IH]; [by apply elem_of_nil in Hs|]. simpl.
    apply elem_of_cons in Hs as [->|Hs]; [lia|]. apply IH in Hs. lia.
Qed.

Lemma program_reads n : Forall (reads LAndOr) (members n) → reads_program n.
Proof.
  intros Hr Hst fuel p sep rest d Hcan Hat Hd Hstop. destruct (can_S _ _ _ Hcan) as [f ->].
  destruct (members_ok n d Hst Hd Hr) as (s & ss & Hm & Hok & Hpr & Hnode). cbn [parse_rule rule_body]. unfold parse_program.
  rewrite Hpr, Hm in Hat. cbn [map] in Hat. rewrite join_cons, <-app_assoc in Hat. fold (member_tail ss (sep ++ rest)) in Hat.
  apply Forall_cons in Hok as Hok'. destruct Hok' as [(_ & Hs & _) _]. destruct (print_head LAndOr s Hs) as (t & l & Heq & Hstart).
  unfold skip_newlines. apply wp_bind. eapply wp_skip_none; [exact Hat|rewrite Heq; apply start_skips; [done|set_solver]|].
  intros p1 Hp1. apply wp_bind. apply (wp_tokens toks (program_at (s :: ss) d sep rest)).
  2:{ left. by exists s, ss. }
  intros acc p2 Hacc. eapply wp_mono; [by apply program_step_reads|]. intros [acc' []] p3; cbn [fst snd]; [done|].
  intros [-> Hp3]. apply wp_ret. rewrite Hm in Hnode. exact (conj Hnode Hp3).
Qed.

(** ** All levels together *)

Record reads_all (n : Node) : Prop := {
  ra_command : reads LCommand n;
  ra_compound : is_compound n = true → stands LCommand n = true → reads_compound n;
  ra_stages : Forall (reads LCommand) (stage_list n);
  ra_pipeline : reads LPipeline n;
  ra_chain : chain_reads n;
  ra_and_or : reads LAndOr n;
  ra_program : reads_program n
}.

Lemma every_node_reads n : reads_all n.
Proof.
  induction n as [n IH] using node_children_ind.
  assert (Hall : ∀ P : Node → Prop, (∀ c, reads_all c → P c) → Forall P (children n))
    by (intros P HP; eapply Forall_impl; [exact IH|exact HP]).
  assert (Hcmd : reads LCommand n).
  { apply command_reads; [by apply Hall; intros c []|]. intros x rs ->.
    cbn [children] in IH. rewrite Forall_singleton in IH. apply IH. }
  assert (Hstages : Forall (reads LCommand) (stage_list n)).
  { destruct n; try (by apply Forall_singleton). by apply Hall; intros c []. }
  assert (Hpipe : reads LPipeline n).
  { apply pipeline_reads; [done|..].
    - intros x posix ->. cbn [children] in IH. rewrite Forall_singleton in IH. apply IH.
    - intros x ->. cbn [children] in IH. rewrite Forall_singleton in IH. apply IH. }
  assert (Hchain : chain_reads n) by (apply chain_ok; [done|]; by apply Hall; intros c []).
  assert (Hao : reads LAndOr n) by (by apply and_or_reads).
  split; [done| |done|done|done|done|].
  - intros Hc Hst. apply compound_reads; [done|done|]. by apply Hall; intros c [].
  - apply program_reads. destruct n; try (by apply Forall_singleton). by apply Hall; intros c [].
Qed.

End round.

Lemma parse_printed n : stands LProgram n = true → (nesting n ≤ MAX_SYNTAX_DEPTH)%nat →
  parse_tokens (print n ++ [TEof]) = Ret (Ok n).
Proof.
  intros Hst Hd. unfold parse_tokens. set (toks := print n ++ [TEof]).
  assert (Hw : wp (parse_rule toks syntax_fuel RProgram) parser_new (λ n' p', n' = n ∧ At toks p' [TEof] O)).
  { apply (ra_program toks n (every_node_reads toks n) Hst syntax_fuel parser_new [] [TEof] O).
    - split; [lia|]. unfold syntax_fuel. simpl rule_rank. lia.
    - by split.
    - done.
    - right. split; [done|]. set_solver. }
  destruct Hw as (p & n' & Hrun & -> & Hp). rewrite Hrun. cbn [mbind run_bind].
  rewrite (at_peek toks _ _ _ Hp), (proj1 (proj2 Hp)). change (is_eof (hd [TEof])) with true. rewrite andb_false_r.
  by rewrite (proj1 (proj2 Hp)).
Qed.

(** C19: Parsing inverts printing: for every syntax tree that stands in the grammar and fits the nesting
    limit (simple commands with assignments and redirects, pipelines, negation, [time], [&&], [||]
    and [&] chains, sequences, groups, subshells, [if], both [for] forms, [while], [until], [case],
    functions, here-documents), the parser reads the printed tokens back to the same tree. *)
Theorem parse_inverts_print n : stands LProgram n = true → (nesting n ≤ MAX_SYNTAX_DEPTH)%nat →
  parse_tokens (print n ++ [TEof]) = Ret (Ok n).
Proof. apply parse_printed. Qed.

Definition sample_tree : Node :=
  NSeq [NOr (NIf (NCommand [] ["a"] []) (NBackground (NCommand [("x", "1")] [] []))
               [(NNot (NCommand [] ["b"] []), NGroup (NCommand [] ["c"] []))] None)
            (NTimed (NPipeline [NCommand [] ["d"] [MkRedirect 2 OpDupOut "&1"]; NSubshell (NCommand [] ["e"] [])]) true);
        NRedirected (NCase "$w" [(["a"; "b"], NEmpty); (["*"], NFuncDef "f" (NArithmetic "1"))]) [MkRedirect 0 OpHeredoc "body"]].

Lemma parse_inverts_print_witness : parse_tokens (print sample_tree ++ [TEof]) = Ret (Ok sample_tree).
Proof. apply (parse_inverts_print sample_tree); [reflexivity|apply Nat.leb_le; reflexivity]. Defined.
