(* ===== verification/ShellText.v ===== *)
(** * From source text to syntax trees

    [spells t cs] says that the characters [cs] are a way to write the token [t]. The lexer reads
    tokens spelled one after the other, with blanks between them, back to those tokens; with
    [print] this makes [parse] return a tree from any spelling of its tokens. *)

From S2P Require Import Prelude.
From S2P Require Import State.
From S2P Require Import RustStr.
From S2P Require Import Syntax.
From S2P Require Import Lexer.
From S2P Require Import LexerSpec.
From S2P Require ShellParser.
From S2P Require Import ShellPrint.
From S2P Require Import ShellRound.

(** ** Spellings *)

(** One character of a valid UTF-8 text. *)
Definition char_ok (c : string) : bool := bool_decide (utf8_chars c = [c]) && negb (starts_inside_char c).

Lemma utf8_chars_collect cs : forallb char_ok cs = true → utf8_chars (collect cs) = cs.
Proof.
  induction cs as [|c cs IH]; [done|]. cbn [forallb]. intros [Hc Hcs]%andb_true_iff.
  apply andb_true_iff in Hc as [Hc _]. apply bool_decide_eq_true_1 in Hc. rewrite collect_cons, utf8_chars_append.
  - by rewrite Hc, IH.
  - destruct cs as [|c' cs]; [done|]. cbn [forallb] in Hcs. apply andb_true_iff in Hcs as [[Hu Hn]%andb_true_iff _].
    apply bool_decide_eq_true_1 in Hu. rewrite collect_cons. apply negb_true_iff in Hn. by destruct c'.
Qed.

(** A character that stands for itself in a word. *)
Definition plain (c : string) : bool :=
  negb (ends_word c) && negb (bool_decide (c ∈ ["\"; "'"; dquote; "`"])).

(** The parts of a word: itself, escaped, in single quotes, in double quotes. *)
Inductive Piece :=
| Plain (c : string)
| Escaped (c : string)
| Single (text : list string)
| Double (text : list string).

Definition piece_chars (p : Piece) : list string :=
  match p with
  | Plain c => [c]
  | Escaped c => ["\"; c]
  | Single text => "'" :: text ++ ["'"]
  | Double text => dquote :: text ++ [dquote]
  end.

Definition piece_ok (p : Piece) : bool :=
  match p with
  | Plain c => plain c
  | Escaped c => negb (bool_decide (c = newline))
  | Single text => forallb (λ c, negb (bool_decide (c = "'"))) text
  | Double text => forallb (λ c, negb (bool_decide (c = dquote)) && negb (bool_decide (c = "\"))) text
  end.

Definition word_chars (ps : list Piece) : list string := flat_map piece_chars ps.

(** A word that can stand alone: not empty, not a comment, and not the start of a test. *)
Definition word_ok (ps : list Piece) : bool :=
  forallb piece_ok ps &&
  match ps with [] | Plain "#" :: _ => false | _ => true end && negb (bool_decide (collect (word_chars ps) = "[[")).

Inductive spells : Tok → list string → Prop :=
| spells_word ps : word_ok ps = true → spells (TWord (collect (word_chars ps))) (word_chars ps)
| spells_op o : o ∈ [";"; ";;"; "&"; "&&"; "|"; "||"; "|&"; "("; ")"] → spells (TOp o) (utf8_chars o)
| spells_redirect fd ds op : op ∈ ["<"; ">"; ">>"; "<>"; ">&-"; "<&-"] → ds ≠ [] → forallb is_ascii_digit ds = true →
    parse_i32 (collect ds) = Some fd → spells (TRedirFd fd op) (ds ++ utf8_chars op)
| spells_duplicate fd ds op source : op ∈ [">&"; "<&"] → ds ≠ [] → forallb is_ascii_digit ds = true →
    parse_i32 (collect ds) = Some fd → forallb is_ascii_digit source = true →
    spells (TRedirFd fd (op +:+ collect source)) (ds ++ utf8_chars op ++ source)
| spells_arithmetic text : forallb (λ c, negb (bool_decide (c ∈ ["("; ")"]))) text = true →
    spells (TArithmetic (collect text)) (["("; "("] ++ text ++ [")"; ")"])
| spells_here_string ps : forallb piece_ok ps = true → ps ≠ [] →
    spells (THereString (collect (word_chars ps))) (["<"; "<"; "<"] ++ word_chars ps).

(** The spellings one after the other, a blank after each. *)
Definition spaced (css : list (list string)) : list string := flat_map (λ cs, cs ++ [" "]) css.

Section lex.
Context (chars : list string).

(** The lexer stands before [l] and has read [toks], outside a test and without an error. *)
Record LAt (s : Lexer) (l : list string) (toks : list Tok) : Prop := {
  la_rest : drop (lx_i s) chars = l;
  la_toks : lx_toks s = toks;
  la_bracket : lx_in_double_bracket s = false;
  la_complete : lx_heredocs_complete s = true;
  la_error : lx_error s = None
}.

Lemma lat_peek s l toks : LAt s l toks → peek chars s = head l.
Proof. intros [<- _ _ _ _]. unfold peek. by rewrite head_lookup, lookup_drop, Nat.add_0_r. Qed.

Lemma lat_peek_is s l toks c : LAt s l toks → peek_is chars c s = bool_decide (head l = Some c).
Proof. intros H. unfold peek_is. by rewrite (lat_peek _ _ _ H). Qed.

Lemma lat_at s l toks n c : LAt s l toks → at_is chars n c s = bool_decide (l !! n = Some c).
Proof. intros [<- _ _ _ _]. unfold at_is, at_. by rewrite lookup_drop. Qed.

Lemma lat_moved n s l toks : LAt s l toks → LAt (moved n s) (drop n l) toks.
Proof. intros [<- ? ? ? ?]. split; try done. simpl. by rewrite drop_drop. Qed.

Lemma lat_app s l1 l2 toks : LAt s (l1 ++ l2) toks → LAt (moved (length l1) s) l2 toks.
Proof. intros H. apply (lat_moved (length l1)) in H. by rewrite drop_app_length in H. Qed.

Lemma lat_inside s c l toks : LAt s (c :: l) toks → (lx_i s < length chars)%nat.
Proof. intros [Hl _ _ _ _]. apply (f_equal length) in Hl. rewrite length_drop in Hl. simpl in Hl. lia. Qed.

Lemma lat_advanced s l toks s' l' toks' : LAt s l toks → LAt s' l' toks' → (length l' < length l)%nat →
  (lx_i s < length chars)%nat ∧ (lx_i s < lx_i s')%nat.
Proof. intros [<- _ _ _ _] [<- _ _ _ _]. rewrite !length_drop. lia. Qed.

Lemma wp_push s l toks t Q : LAt s l toks → (∀ s', LAt s' l (toks ++ [t]) → Q tt s') → wp (push t) s Q.
Proof. intros [? <- ? ? ?] HQ. apply wp_modify, HQ. by split. Qed.

Lemma wp_step s n l toks Q : LAt s l toks → (∀ s', LAt s' (drop n l) toks → Q tt s') → wp (advance n) s Q.
Proof. intros H HQ. apply wp_advance, HQ. by apply lat_moved. Qed.

Lemma wp_run f s l1 l2 toks Q : LAt s (l1 ++ l2) toks → f (l1 ++ l2) = l1 → (∀ s', LAt s' l2 toks → Q l1 s') →
  wp (take_run chars f) s Q.
Proof.
  intros H Hf HQ. apply wp_take_run. unfold rest. rewrite (la_rest _ _ _ H), Hf. apply HQ. by apply lat_app.
Qed.

Lemma wp_flagged {B} (f : list string → list string * B) b s l1 l2 toks Q : LAt s (l1 ++ l2) toks →
  f (l1 ++ l2) = (l1, b) → (∀ s', LAt s' l2 toks → Q (l1, b) s') → wp (take_flagged chars f) s Q.
Proof.
  intros H Hf HQ. apply wp_take_flagged. unfold rest. rewrite (la_rest _ _ _ H), Hf. apply HQ. by apply lat_app.
Qed.

(** ** Words *)

Lemma until_quote_reads q text l : forallb (λ c, negb (bool_decide (c = q))) text = true →
  until_quote q ((text ++ [q]) ++ l) = (text ++ [q], true).
Proof.
  induction text as [|c text IH]; cbn [forallb app until_quote]; [intros _; by rewrite bool_decide_eq_true_2|].
  intros [Hc Ht]%andb_true_iff. apply negb_true_iff in Hc. rewrite Hc. by rewrite IH.
Qed.

Lemma until_dquote_reads text l :
  forallb (λ c, negb (bool_decide (c = dquote)) && negb (bool_decide (c = "\"))) text = true →
  until_dquote ((text ++ [dquote]) ++ l) = (text ++ [dquote], true).
Proof.
  induction text as [|c text IH]; cbn [forallb app until_dquote]; [done|].
  intros [[Hq Hb]%andb_true_iff Ht]%andb_true_iff. apply negb_true_iff in Hq, Hb. rewrite Hb, Hq. by rewrite IH.
Qed.

Lemma plain_parts c : plain c = true → ends_word c = false ∧ c ≠ "\" ∧ c ≠ "'" ∧ c ≠ dquote ∧ c ≠ "`".
Proof.
  unfold plain. intros [He Hq]%andb_true_iff. apply negb_true_iff in He. apply negb_true_iff, bool_decide_eq_false_1 in Hq.
  split; [done|]. repeat split; intros ->; set_solver.
Qed.

Definition opens_paren (l : list string) : bool := bool_decide (head l = Some "(").

(** One round of [read_word] takes one piece. *)
Lemma read_piece p w s l toks : piece_ok p = true → opens_paren l = false → LAt s (piece_chars p ++ l) toks →
  wp (read_word_step chars w) s (λ r s', r = (w ++ piece_chars p, true) ∧ LAt s' l toks).
Proof.
  intros Hp Hl Hat. unfold read_word_step. apply wp_bind, wp_gets. rewrite (lat_peek _ _ _ Hat).
  assert (Hquoted : ∀ q f text s1, f ((text ++ [q]) ++ l) = (text ++ [q], true) → LAt s1 ((text ++ [q]) ++ l) toks →
    wp (part ← quoted_part chars q f; mret ((w ++ [q]) ++ part, true)) s1
      (λ r s', r = (w ++ q :: text ++ [q], true) ∧ LAt s' l toks)).
  { intros q f text s1 Hf Hs1. unfold quoted_part. apply wp_bind, wp_bind. eapply wp_flagged; [exact Hs1|exact Hf|].
    intros s2 Hs2. apply wp_bind, wp_ret, wp_ret, wp_ret. split; [by rewrite <-app_assoc|done]. }
  destruct p as [c|c|text|text]; cbn [piece_chars piece_ok app head] in *; rewrite <-?app_assoc in Hat; cbn [app] in *;
    apply wp_bind, wp_gets; rewrite (lat_at _ _ _ _ _ Hat).
  - apply plain_parts in Hp as (He & H1 & H2 & H3 & H4). rewrite He. apply wp_bind. eapply wp_step; [exact Hat|]. intros s1 Hs1.
    rewrite (bool_decide_eq_false_2 (c = "\")), (bool_decide_eq_false_2 (c = "'")), (bool_decide_eq_false_2 (c = dquote)),
      (bool_decide_eq_false_2 (c = "`")) by done.
    rewrite (bool_decide_eq_false_2 ((c :: l) !! 1%nat = _)).
    2:{ unfold opens_paren in Hl. apply bool_decide_eq_false_1 in Hl. by destruct l. }
    rewrite andb_false_r. by apply wp_ret.
  - change (ends_word "\") with false. apply wp_bind. eapply wp_step; [exact Hat|]. intros s1 Hs1. cbn [drop] in Hs1.
    apply wp_bind. eapply (wp_run _ _ [c]); [exact Hs1|done|]. intros s2 Hs2. apply wp_ret. by rewrite <-app_assoc.
  - change (ends_word "'") with false. apply wp_bind. eapply wp_step; [exact Hat|]. intros s1 Hs1. cbn [drop] in Hs1.
    apply (Hquoted "'" (until_quote "'")); [by apply until_quote_reads|]. by rewrite <-app_assoc.
  - change (ends_word dquote) with false. apply wp_bind. eapply wp_step; [exact Hat|]. intros s1 Hs1. cbn [drop] in Hs1.
    apply (Hquoted dquote until_dquote); [by apply until_dquote_reads|]. by rewrite <-app_assoc.
Qed.

Lemma ends_word_not_plain c : ends_word c = true → plain c = false.
Proof. unfold plain. by intros ->. Qed.

Lemma name_char_plain c : name_char c = true → plain c = true.
Proof.
  intros Hn. unfold plain, ends_word. apply andb_true_iff. split; apply negb_true_iff, bool_decide_eq_false_2; intros Hin;
    repeat (apply elem_of_cons in Hin as [->|Hin]; [done|]); by apply elem_of_nil in Hin.
Qed.

(** After plain characters, a word goes on or ends at the blank behind it. *)
Lemma word_next ps l j c : forallb piece_ok ps = true →
  (∀ i, (i < j)%nat → ∃ c, (word_chars ps ++ " " :: l) !! i = Some c ∧ plain c = true) →
  (word_chars ps ++ " " :: l) !! j = Some c → ends_word c = true → c = " ".
Proof.
  revert ps. induction j as [|j IH]; intros ps Hps Hpre Hj He.
  - destruct ps as [|p ps]; [by simplify_eq/=|]. cbn [forallb word_chars flat_map] in *. apply andb_true_iff in Hps as [Hp _].
    destruct p as [c'|c'|text|text]; cbn [piece_chars piece_ok app lookup list_lookup] in *; simplify_eq; try done.
    apply plain_parts in Hp as (? & _). congruence.
  - destruct (Hpre O ltac:(lia)) as (c0 & H0 & Hc0). destruct ps as [|p ps]; [by simplify_eq/=|].
    cbn [forallb word_chars flat_map] in *. apply andb_true_iff in Hps as [Hp Hps]. fold (word_chars ps) in *.
    destruct p as [c'|c'|text|text]; cbn [piece_chars piece_ok app lookup list_lookup] in *; simplify_eq; try done.
    eapply (IH ps); [done| |exact Hj|done]. intros i Hi. apply (Hpre (S i)). lia.
Qed.

Lemma word_opens ps l : forallb piece_ok ps = true → opens_paren (word_chars ps ++ " " :: l) = false.
Proof.
  intros Hps. apply bool_decide_eq_false_2. rewrite head_lookup. intros Hh.
  assert ("(" = " ") by (eapply (word_next ps l 0); [done|lia|exact Hh|done]). done.
Qed.

Lemma take_while_lookup {A} (f : A → bool) l i : (i < length (take_while f l))%nat → ∃ c, l !! i = Some c ∧ f c = true.
Proof.
  revert i. induction l as [|x l IH]; intros i Hi; simpl in Hi; [lia|]. destruct (f x) eqn:Hx; simpl in Hi; [|lia].
  destruct i as [|i]; [by exists x|]. apply IH. lia.
Qed.

Lemma word_not_array ps s l toks : forallb piece_ok ps = true → LAt s (word_chars ps ++ " " :: l) toks →
  array_prefix_len chars s = None.
Proof.
  intros Hps Hat. unfold array_prefix_len. replace (rest chars s) with (word_chars ps ++ " " :: l) by (symmetry; apply Hat).
  remember (word_chars ps ++ " " :: l) as L eqn:HL. destruct L as [|c0 L']; [done|]. set (L := c0 :: L') in *.
  case_match; [done|].
  set (k := length (take_while name_char L)).
  assert (Hname : ∀ i, (i < k)%nat → ∃ c, L !! i = Some c ∧ plain c = true).
  { intros i Hi. destruct (take_while_lookup _ _ _ Hi) as (c & ? & ?%name_char_plain). by exists c. }
  assert (Hno : ∀ j, (∀ i, (i < j)%nat → ∃ c, L !! i = Some c ∧ plain c = true) → at_is chars j "(" s = false).
  { intros j Hpre. rewrite (lat_at _ _ _ _ _ Hat). apply bool_decide_eq_false_2. intros Hj.
    assert ("(" = " ") by (eapply (word_next ps l j); rewrite <-?HL; [done|exact Hpre|exact Hj|done]). done. }
  rewrite !(lat_at _ _ _ _ _ Hat).
  destruct (bool_decide (L !! k = Some "+") && bool_decide (L !! S k = Some "=")) eqn:Hplus.
  - apply andb_true_iff in Hplus as [H1%bool_decide_eq_true_1 H2%bool_decide_eq_true_1]. cbn [mbind option_bind].
    rewrite Hno; [done|]. intros i Hi. destruct (decide (i < k)%nat); [by apply Hname|].
    destruct (decide (i = k)) as [->|]; [by exists "+"|]. replace i with (S k) by lia. by exists "=".
  - case_match eqn:Heq; [|done]. apply bool_decide_eq_true_1 in Heq. cbn [mbind option_bind].
    rewrite Hno; [done|]. intros i Hi. destruct (decide (i < k)%nat); [by apply Hname|].
    replace i with k by lia. by exists "=".
Qed.

Lemma read_word_reads ps s l toks : forallb piece_ok ps = true → LAt s (word_chars ps ++ " " :: l) toks →
  wp (read_word chars) s (λ w s', w = collect (word_chars ps) ∧ LAt s' (" " :: l) toks).
Proof.
  intros Hps Hat. unfold read_word, try_array_assign_prefix. apply wp_bind, wp_bind, wp_gets.
  rewrite (word_not_array ps s l toks) by done. apply wp_ret. apply wp_bind.
  apply (wp_while chars (λ w s', ∃ done_ todo, ps = done_ ++ todo ∧ w = word_chars done_ ∧ LAt s' (word_chars todo ++ " " :: l) toks));
    [|by exists [], ps].
  intros w s1 (done_ & todo & Heq & -> & Hs1). destruct todo as [|p todo].
  - rewrite app_nil_r in Heq. subst done_. unfold read_word_step. apply wp_bind, wp_gets. rewrite (lat_peek _ _ _ Hs1). cbn [word_chars flat_map app head].
    apply wp_bind, wp_gets. change (ends_word " ") with true. by apply wp_ret, wp_ret.
  - rewrite Heq, forallb_app in Hps. apply andb_true_iff in Hps as [_ Hps]. cbn [forallb] in Hps. apply andb_true_iff in Hps as [Hp Htodo].
    cbn [word_chars flat_map] in Hs1. rewrite <-app_assoc in Hs1. fold (word_chars todo) in Hs1.
    eapply wp_mono; [eapply read_piece; [exact Hp|by apply word_opens|exact Hs1]|]. intros r s2 [-> Hs2]. cbn [fst snd]. split.
    + exists (done_ ++ [p]), todo. split; [by rewrite <-app_assoc|]. split; [|done].
      unfold word_chars. rewrite flat_map_app. cbn [flat_map]. by rewrite app_nil_r.
    + eapply lat_advanced; [exact Hs1|exact Hs2|]. rewrite (length_app (piece_chars p)).
      destruct p; simpl; lia.
Qed.

(** ** Tokens *)

(** Enter a round of the main loop before the characters that [H] states. *)
Ltac enter H :=
  unfold tokenize_step; apply wp_bind, wp_gets; rewrite (lat_peek _ _ _ H); cbn [head];
  do 4 apply wp_bind, wp_gets; unfold after_regex_operator; rewrite (la_bracket _ _ _ H), ?(lat_at _ _ _ _ _ H);
  cbn [andb].

(** Decide the comparisons of the characters at hand. *)
Ltac decide_chars :=
  cbn [lookup list_lookup head app drop]; unfold is_blank, is_newline, is_space;
  repeat match goal with
         | |- context [bool_decide (?x = ?y)] =>
             first [rewrite (bool_decide_eq_true_2 (x = y)) by reflexivity
                   |rewrite (bool_decide_eq_false_2 (x = y)) by discriminate]
         end; cbn [andb orb negb].

(** One more action of a token's function. *)
Ltac operator_step :=
  match goal with
  | H : LAt ?s _ _ |- wp (gets (peek_is _ ?c) ≫= _) ?s _ => apply wp_bind, wp_gets; rewrite ?(lat_peek_is _ _ _ c H); decide_chars
  | H : LAt ?s _ _ |- wp (gets (at_is _ _ _) ≫= _) ?s _ => apply wp_bind, wp_gets; rewrite ?(lat_at _ _ _ _ _ H); decide_chars
  | H : LAt ?s _ _ |- wp (advance _ ≫= _) ?s _ =>
      apply wp_bind; eapply wp_step; [exact H|]; clear H; intros ? H; cbn [drop] in H
  | H : LAt ?s _ _ |- wp (push _) ?s _ => eapply wp_push; [exact H|by intros ? ?]
  | |- wp ((_ ≫= _) ≫= _) _ _ => apply wp_bind
  | |- wp (mret _) _ _ => apply wp_ret
  end.

Lemma step_word_like c l s toks pending Q :
  LAt s (c :: l) toks → ends_word c = false → (c = "\" → head l ≠ Some newline) → c ≠ "#" →
  wp (match fd_redirect_len chars s with
      | Some digits => if is_ascii_digit c then _ ← lex_fd_redirect chars digits; mret (pending, true)
                       else _ ← lex_word chars; mret (pending, true)
      | None => _ ← lex_word chars; mret (pending, true)
      end) s Q →
  wp (tokenize_step chars pending) s Q.
Proof.
  intros Hat He Hesc Hcm HQ. enter Hat. unfold ends_word in He. apply bool_decide_eq_false_1 in He.
  rewrite !not_elem_of_cons in He. destruct He as (? & ? & ? & ? & ? & ? & ? & ? & ? & ? & _).
  unfold is_blank, is_newline. repeat match goal with
    H : c ≠ _ |- _ => rewrite ?(bool_decide_eq_false_2 _ H); clear H end. cbn [orb andb].
  destruct (bool_decide (c = "\") && _) eqn:Hb; [|exact HQ].
  apply andb_true_iff in Hb as [Hc%bool_decide_eq_true_1 Hn%bool_decide_eq_true_1].
  apply Hesc in Hc. by rewrite head_lookup in Hc.
Qed.

(** A round that ends as [r] does, its tokens followed by [t]. *)
Definition emitted (t : Tok) (l : list string) (toks : list Tok) (pending : Pending) : Pending * bool → Lexer → Prop :=
  λ r s', r = (pending, true) ∧ LAt s' l (toks ++ [t]).

Lemma go_emits (m : lex unit) s t l toks pending :
  wp m s (λ _ s', LAt s' l (toks ++ [t])) → wp (_ ← m; mret (pending, true)) s (emitted t l toks pending).
Proof. intros Hm. apply wp_bind. eapply wp_mono; [exact Hm|]. intros u s' Hs'. by apply wp_ret. Qed.

Lemma digit_plain c : is_ascii_digit c = true → plain c = true.
Proof. intros Hd. apply name_char_plain. unfold name_char, is_ascii_alphanumeric. by rewrite Hd, !orb_true_r. Qed.

Lemma take_while_app_stop {A} (f : A → bool) l1 c l2 :
  forallb f l1 = true → f c = false → take_while f (l1 ++ c :: l2) = l1.
Proof.
  induction l1 as [|x l1 IH]; cbn [forallb app take_while]; [by intros _ ->|].
  intros [-> Hl]%andb_true_iff Hc. by rewrite IH.
Qed.

Lemma word_no_redirect ps s l toks : forallb piece_ok ps = true → LAt s (word_chars ps ++ " " :: l) toks →
  fd_redirect_len chars s = None.
Proof.
  intros Hps Hat. unfold fd_redirect_len. replace (rest chars s) with (word_chars ps ++ " " :: l) by (symmetry; apply Hat).
  set (L := word_chars ps ++ " " :: l) in *. set (k := length (take_while is_ascii_digit L)).
  assert (Hno : ∀ c, ends_word c = true → c ≠ " " → at_is chars k c s = false).
  { intros c He Hne. rewrite (lat_at _ _ _ _ _ Hat). apply bool_decide_eq_false_2. intros Hk. apply Hne.
    eapply (word_next ps l k); [done| |exact Hk|done]. intros i Hi.
    destruct (take_while_lookup _ _ _ Hi) as (c' & ? & ?%digit_plain). by exists c'. }
  rewrite !Hno by done. by rewrite andb_false_r.
Qed.

Lemma word_emitted ps s l toks pending : word_ok ps = true → LAt s (word_chars ps ++ " " :: l) toks →
  wp (tokenize_step chars pending) s (emitted (TWord (collect (word_chars ps))) (" " :: l) toks pending).
Proof.
  unfold word_ok. intros [[Hps Hhd]%andb_true_iff Htest]%andb_true_iff Hat.
  apply negb_true_iff, bool_decide_eq_false_1 in Htest.
  assert (∃ c l', word_chars ps ++ " " :: l = c :: l' ∧ ends_word c = false ∧ (c = "\" → head l' ≠ Some newline) ∧ c ≠ "#")
    as (c & l' & Heq & He & Hesc & Hcm).
  { destruct ps as [|p ps]; [done|]. cbn [forallb] in Hps. apply andb_true_iff in Hps as [Hp _].
    destruct p as [c|c|text|text]; cbn [word_chars flat_map piece_chars app piece_ok] in *;
      (eexists _, _; split; [reflexivity|]).
    - apply plain_parts in Hp as (? & ? & _). split; [done|]. split; [done|]. intros ->. done.
    - apply negb_true_iff, bool_decide_eq_false_1 in Hp. split; [done|]. split; [|done]. cbn [head]. congruence.
    - done.
    - done. }
  assert (Hword : wp (_ ← lex_word chars; mret (pending, true)) s
    (emitted (TWord (collect (word_chars ps))) (" " :: l) toks pending)).
  { apply go_emits. unfold lex_word. apply wp_bind. eapply wp_mono; [by eapply read_word_reads|].
    intros w s1 [-> Hs1]. apply wp_bind, wp_gets. rewrite (la_bracket _ _ _ Hs1), andb_false_r.
    rewrite (bool_decide_eq_false_2 _ Htest). apply wp_bind, wp_ret. by eapply wp_push. }
  pose proof (word_no_redirect ps s l toks Hps Hat) as Hfd. rewrite Heq in Hat.
  eapply step_word_like; [exact Hat|done..|]. by rewrite Hfd.
Qed.

Lemma op_emitted o s l toks pending : o ∈ [";"; ";;"; "&"; "&&"; "|"; "||"; "|&"; "("; ")"] →
  LAt s (utf8_chars o ++ " " :: l) toks →
  wp (tokenize_step chars pending) s (emitted (TOp o) (" " :: l) toks pending).
Proof.
  intros Ho Hat. repeat (apply elem_of_cons in Ho as [->|Ho]; [|]); [..|by apply elem_of_nil in Ho].
  all: match type of Hat with LAt _ (utf8_chars ?o ++ _) _ =>
         let cs := eval vm_compute in (utf8_chars o) in change (utf8_chars o) with cs in Hat end.
  all: cbn [app] in Hat; enter Hat; decide_chars; apply go_emits.
  all: unfold lex_semicolon, lex_ampersand, lex_bar, lex_open, lex_close; repeat (apply wp_bind, wp_gets).
  all: rewrite ?(la_bracket _ _ _ Hat), ?(lat_at _ _ _ _ _ Hat); decide_chars.
  all: apply wp_bind; eapply wp_push; [exact Hat|]; intros s1 Hs1; eapply wp_step; [exact Hs1|]; by intros s2 Hs2.
Qed.

Lemma until_arithmetic_end_reads text l : forallb (λ c, negb (bool_decide (c ∈ ["("; ")"]))) text = true →
  until_arithmetic_end 1 (text ++ ")" :: ")" :: l) = (text, true).
Proof.
  induction text as [|c text IH]; [done|]. cbn [forallb]. intros [Hc Ht]%andb_true_iff.
  apply negb_true_iff, bool_decide_eq_false_1 in Hc. rewrite !not_elem_of_cons in Hc. destruct Hc as (Ho & Hcl & _).
  specialize (IH Ht). destruct (text ++ ")" :: ")" :: l) as [|b l'] eqn:E; [by destruct text|].
  cbn [app until_arithmetic_end]. rewrite E, (bool_decide_eq_false_2 _ Ho), (bool_decide_eq_false_2 _ Hcl). cbn [andb]. by rewrite IH.
Qed.

Lemma arithmetic_emitted text s l toks pending : forallb (λ c, negb (bool_decide (c ∈ ["("; ")"]))) text = true →
  LAt s ((["("; "("] ++ text ++ [")"; ")"]) ++ " " :: l) toks →
  wp (tokenize_step chars pending) s (emitted (TArithmetic (collect text)) (" " :: l) toks pending).
Proof.
  intros Ht Hat. rewrite <-!app_assoc in Hat. cbn [app] in Hat. enter Hat. decide_chars. apply go_emits.
  unfold lex_open. apply wp_bind, wp_gets, wp_bind, wp_gets. rewrite (la_bracket _ _ _ Hat), (lat_at _ _ _ _ _ Hat).
  decide_chars. apply wp_bind. unfold read_arithmetic_command. apply wp_bind. eapply wp_step; [exact Hat|]. intros s1 Hs1.
  cbn [drop] in Hs1. apply wp_bind. eapply (wp_flagged _ true _ text); [exact Hs1|by apply until_arithmetic_end_reads|].
  intros s2 Hs2. apply wp_bind. eapply wp_step; [exact Hs2|]. intros s3 Hs3. apply wp_ret. by eapply wp_push.
Qed.

Lemma not_blank c : ends_word c = false → is_blank c = false.
Proof.
  unfold ends_word, is_blank. intros He%bool_decide_eq_false_1. apply orb_false_iff.
  split; apply bool_decide_eq_false_2; intros ->; apply He; set_solver.
Qed.

Lemma here_string_emitted ps s l toks : forallb piece_ok ps = true → ps ≠ [] →
  LAt s ((["<"; "<"; "<"] ++ word_chars ps) ++ " " :: l) toks →
  wp (tokenize_step chars []) s (emitted (THereString (collect (word_chars ps))) (" " :: l) toks []).
Proof.
  intros Hps Hne Hat. rewrite <-!app_assoc in Hat. cbn [app] in Hat. enter Hat. decide_chars.
  apply wp_bind. unfold lex_less. do 6 apply wp_bind, wp_gets.
  rewrite (la_bracket _ _ _ Hat), !(lat_at _ _ _ _ _ Hat). decide_chars. apply wp_bind. eapply wp_step; [exact Hat|].
  intros s1 Hs1. cbn [drop] in Hs1. apply wp_bind.
  eapply (wp_run _ _ []); [exact Hs1| |].
  { destruct ps as [|p ps]; [done|]. cbn [forallb] in Hps. apply andb_true_iff in Hps as [Hp _].
    destruct p as [c|c|text|text]; cbn [word_chars flat_map piece_chars app piece_ok take_while] in *; try done.
    apply plain_parts in Hp as (He & _). cbn [drop take_while].
    fold (is_blank c). by rewrite (not_blank _ He). }
  intros s2 Hs2. apply wp_bind. eapply wp_mono; [by eapply read_word_reads|]. intros w s3 [-> Hs3].
  apply wp_bind. eapply wp_push; [exact Hs3|]. intros s4 Hs4. by apply wp_ret, wp_ret.
Qed.

(** The descriptor number of a redirect, up to its operator. *)
Lemma fd_redirect_reads ds fd s c l toks pending Q :
  ds ≠ [] → forallb is_ascii_digit ds = true → parse_i32 (collect ds) = Some fd → c = "<" ∨ c = ">" →
  LAt s (ds ++ c :: l) toks →
  (∀ s', LAt s' (c :: l) toks →
     wp (_ ← lex_fd_operator chars fd; mret (pending, true)) s' Q) →
  wp (tokenize_step chars pending) s Q.
Proof.
  intros Hne Hds Hfd Hc Hat HQ. destruct ds as [|d ds]; [done|]. pose proof Hds as Hds'.
  cbn [forallb] in Hds'. apply andb_true_iff in Hds' as [Hd _].
  assert (Hlen : fd_redirect_len chars s = Some (length (d :: ds))).
  { unfold fd_redirect_len. replace (rest chars s) with ((d :: ds) ++ c :: l) by (symmetry; apply Hat).
    rewrite take_while_app_stop by (by destruct Hc as [-> | ->]). rewrite bool_decide_eq_true_2 by (simpl; lia).
    rewrite !(lat_at _ _ _ _ _ Hat). rewrite list_lookup_middle by done. by destruct Hc as [-> | ->]. }
  pose proof (plain_parts d (digit_plain d Hd)) as (He & Hb & _).
  eapply step_word_like; [exact Hat|done..|by intros ->|]. rewrite Hlen, Hd. apply wp_bind. unfold lex_fd_redirect.
  apply wp_bind. eapply (wp_run _ _ (d :: ds)); [exact Hat|by rewrite take_app_length|]. intros s1 Hs1.
  rewrite Hfd. cbn [default]. specialize (HQ s1 Hs1). destruct HQ as (s2 & r & Hrun & HQ).
  revert Hrun. unfold mbind at 1, stm_bind at 1. destruct (lex_fd_operator chars fd s1) as [[s3 []]| |] eqn:Hop; [|done..].
  intros Hr. eapply wp_eq; [exact Hop|]. by eapply wp_eq.
Qed.

Lemma redirect_emitted fd ds op s l toks pending : op ∈ ["<"; ">"; ">>"; "<>"; ">&-"; "<&-"] → ds ≠ [] →
  forallb is_ascii_digit ds = true → parse_i32 (collect ds) = Some fd → LAt s ((ds ++ utf8_chars op) ++ " " :: l) toks →
  wp (tokenize_step chars pending) s (emitted (TRedirFd fd op) (" " :: l) toks pending).
Proof.
  intros Ho Hne Hds Hfd Hat. repeat (apply elem_of_cons in Ho as [->|Ho]; [|]); [..|by apply elem_of_nil in Ho].
  all: match type of Hat with LAt _ ((_ ++ utf8_chars ?o) ++ _) _ =>
         let cs := eval vm_compute in (utf8_chars o) in change (utf8_chars o) with cs in Hat end.
  all: rewrite <-app_assoc in Hat; cbn [app] in Hat.
  all: eapply fd_redirect_reads; [exact Hne|exact Hds|exact Hfd| |exact Hat|]; [tauto|]; clear Hat; intros s1 Hat; apply go_emits.
  all: unfold lex_fd_operator, read_descriptor_target; repeat operator_step.
Qed.

Lemma no_dash source l : forallb is_ascii_digit source = true → bool_decide (head (source ++ " " :: l) = Some "-") = false.
Proof.
  intros Hs. apply bool_decide_eq_false_2. destruct source as [|d source]; [done|]. cbn [forallb head app] in *.
  apply andb_true_iff in Hs as [Hd _]. by intros [= ->].
Qed.

Lemma duplicate_emitted fd ds op source s l toks pending : op ∈ [">&"; "<&"] → ds ≠ [] →
  forallb is_ascii_digit ds = true → parse_i32 (collect ds) = Some fd → forallb is_ascii_digit source = true →
  LAt s ((ds ++ utf8_chars op ++ source) ++ " " :: l) toks →
  wp (tokenize_step chars pending) s (emitted (TRedirFd fd (op +:+ collect source)) (" " :: l) toks pending).
Proof.
  intros Ho Hne Hds Hfd Hsrc Hat. repeat (apply elem_of_cons in Ho as [->|Ho]; [|]); [..|by apply elem_of_nil in Ho].
  all: match type of Hat with LAt _ ((_ ++ utf8_chars ?o ++ _) ++ _) _ =>
         let cs := eval vm_compute in (utf8_chars o) in change (utf8_chars o) with cs in Hat end.
  all: rewrite <-!app_assoc in Hat; cbn [app] in Hat.
  all: eapply fd_redirect_reads; [exact Hne|exact Hds|exact Hfd| |exact Hat|]; [tauto|]; clear Hat; intros s1 Hat; apply go_emits.
  all: unfold lex_fd_operator, read_descriptor_target; repeat operator_step.
  all: rewrite drop_0 in *; rewrite no_dash by done.
  all: apply wp_bind; eapply (wp_run _ _ source); [exact Hat|by apply take_while_app_stop|]; intros s2 Hs2.
  all: repeat operator_step.
Qed.

(** A spelled token is read back. *)
Lemma spelled_emitted t cs s l toks : spells t cs → LAt s (cs ++ " " :: l) toks →
  wp (tokenize_step chars []) s (emitted t (" " :: l) toks []).
Proof.
  destruct 1; intros Hat; eauto using word_emitted, op_emitted, redirect_emitted, duplicate_emitted, arithmetic_emitted,
    here_string_emitted.
Qed.

Lemma blank_step s l toks : LAt s (" " :: l) toks →
  wp (tokenize_step chars []) s (λ r s', r = ([], true) ∧ LAt s' l toks).
Proof.
  intros Hat. enter Hat. change (is_blank " ") with true. apply wp_bind. eapply wp_step; [exact Hat|].
  intros s1 Hs1. by apply wp_ret.
Qed.

Lemma spelled_not_empty t cs : spells t cs → cs ≠ [].
Proof.
  destruct 1 as [ps Hps|o Ho|fd ds op Ho Hne| | |]; try done.
  - unfold word_ok in Hps. destruct ps as [|[] ps]; done.
  - intros Ho'. repeat (apply elem_of_cons in Ho as [->|Ho]; [done|]). by apply elem_of_nil in Ho.
  - by destruct ds.
  - by destruct ds.
Qed.

(** What is left to read: spelled tokens, with the blank before them still there or not. *)
Definition Reading (ts : list Tok) (pending : Pending) (s : Lexer) : Prop :=
  pending = [] ∧ ∃ done_ todo css, ts = done_ ++ todo ∧ Forall2 spells todo css ∧
    (LAt s (spaced css) done_ ∨ LAt s (" " :: spaced css) done_).

Lemma reading_step ts pending s : Reading ts pending s →
  wp (tokenize_step chars pending) s (λ r s',
    if r.2 : bool then Reading ts r.1 s' ∧ (lx_i s < length chars)%nat ∧ (lx_i s < lx_i s')%nat
    else r.1 = [] ∧ LAt s' [] ts).
Proof.
  intros (-> & done_ & todo & css & Hts & Hsp & [Hat|Hat]).
  - destruct Hsp as [|t cs todo css Ht Hsp].
    + rewrite app_nil_r in Hts. subst done_. unfold tokenize_step. apply wp_bind, wp_gets.
      rewrite (lat_peek _ _ _ Hat). by apply wp_ret.
    + cbn [spaced flat_map] in Hat. rewrite <-app_assoc in Hat. fold (spaced css) in Hat.
      eapply wp_mono; [by eapply spelled_emitted|]. intros r s1 [-> Hs1]. cbn [fst snd]. split.
      * split; [done|]. exists (done_ ++ [t]), todo, css. rewrite <-app_assoc. auto.
      * eapply lat_advanced; [exact Hat|exact Hs1|]. rewrite (length_app cs). apply spelled_not_empty in Ht.
        destruct cs; simpl; [done|lia].
  - eapply wp_mono; [by apply blank_step|]. intros r s1 [-> Hs1]. cbn [fst snd]. split.
    + split; [done|]. exists done_, todo, css. auto.
    + eapply lat_advanced; [exact Hat|exact Hs1|]. simpl. lia.
Qed.

End lex.

(** ** Programs *)

Lemma tokenize_spelled ts css : Forall2 spells ts css → forallb char_ok (spaced css) = true →
  tokenize (collect (spaced css)) = Ret (ts ++ [TEof], true, None).
Proof.
  intros Hsp Hok. unfold tokenize. rewrite utf8_chars_collect by done. set (chars := spaced css).
  assert (wp (tokenize_loop chars) lexer_new (λ _ s, LAt chars s [] (ts ++ [TEof]))) as (s & u & -> & Hs).
  { unfold tokenize_loop. apply wp_bind. apply (wp_while chars (Reading chars ts)).
    - intros pending s Hr. eapply wp_mono; [by apply reading_step|]. intros [p []] s' H; cbn [fst snd] in *; [done|].
      destruct H as [-> Hs']. apply wp_bind, wp_ret, wp_bind, wp_gets. rewrite (la_bracket _ _ _ _ Hs').
      apply wp_bind, wp_ret. by eapply wp_push.
    - split; [done|]. exists [], ts, css. split; [done|]. split; [done|]. left. by split. }
  simpl. by rewrite (la_toks _ _ _ _ Hs), (la_complete _ _ _ _ Hs), (la_error _ _ _ _ Hs).
Qed.

Lemma parse_spelled n css : stands LProgram n = true → (nesting n ≤ ShellParser.MAX_SYNTAX_DEPTH)%nat →
  Forall2 spells (print n) css → forallb char_ok (spaced css) = true →
  ShellParser.parse (collect (spaced css)) = Ret (Ok n).
Proof.
  intros Hst Hn Hsp Hok. unfold ShellParser.parse. rewrite (tokenize_spelled _ _ Hsp Hok). by apply parse_printed.
Qed.

(** C18: Whatever spelling of its tokens is written down — words with escapes, single and double
    quotes, operators, redirects with descriptors, arithmetic commands, here-strings, with blanks
    between them — the source text of a canonical tree parses, through the lexer and the parser,
    to that tree. *)
Theorem parse_source n css : stands LProgram n = true → (nesting n ≤ ShellParser.MAX_SYNTAX_DEPTH)%nat →
  Forall2 spells (print n) css → forallb char_ok (spaced css) = true →
  ShellParser.parse (collect (spaced css)) = Ret (Ok n).
Proof. apply parse_spelled. Qed.

Definition source_tree : Node :=
  NAnd (NPipeline [NCommand [("x", "1")] ["f"; "'a b'"] [MkRedirect 2 OpDupOut "&1"]; NSubshell (NArithmetic "n += 1")])
       (NNot (NCommand [] ["g"] [MkRedirect 0 OpHereString "t"])).

Definition source_spelling : list (list string) :=
  [["x"; "="; "1"]; ["f"]; ["'"; "a"; " "; "b"; "'"]; ["2"; ">"; "&"; "1"]; ["|"]; ["("];
   ["("; "("; "n"; " "; "+"; "="; " "; "1"; ")"; ")"]; [")"]; ["&"; "&"]; ["!"]; ["g"]; ["<"; "<"; "<"; "t"]].

Lemma parse_source_witness :
  ShellParser.parse "x=1 f 'a b' 2>&1 | ( ((n += 1)) ) && ! g <<<t " = Ret (Ok source_tree).
Proof.
  apply (parse_source source_tree source_spelling); [reflexivity|vm_compute; lia| |reflexivity].
  let toks := eval vm_compute in (print source_tree) in change (print source_tree) with toks.
  unfold source_spelling. repeat (apply Forall2_cons; split); [..|constructor].
  - apply (spells_word [Plain "x"; Plain "="; Plain "1"]). reflexivity.
  - apply (spells_word [Plain "f"]). reflexivity.
  - apply (spells_word [Single ["a"; " "; "b"]]). reflexivity.
  - apply (spells_duplicate 2 ["2"] ">&" ["1"]); [by left|done|reflexivity..].
  - apply (spells_op "|"). set_solver.
  - apply (spells_op "("). set_solver.
  - apply (spells_arithmetic ["n"; " "; "+"; "="; " "; "1"]). reflexivity.
  - apply (spells_op ")"). set_solver.
  - apply (spells_op "&&"). set_solver.
  - apply (spells_word [Plain "!"]). reflexivity.
  - apply (spells_word [Plain "g"]). reflexivity.
  - apply (spells_here_string [Plain "t"]); [reflexivity|done].
Defined.
