(* ===== verification/ProcessState.v ===== *)
(** * Process contexts (src/src/interp.rs)

    The state of one logical process: its identity, the variables, functions and options of its
    shell, its descriptors, its signals and the memory it has reserved; what a fork copies and what
    it costs. The fields of the source's flat record are grouped here; of the resumable program
    only whether there is one is kept. *)

From S2P Require Import Prelude.
From S2P Require Import RustStr.
From S2P Require Import Variables.
From S2P Require Import Descriptors.
From S2P Require Import Process.
From S2P Require Import Clock.
From S2P Require Import Syntax.

(** ** Signals of a process *)

Inductive ShellSignalDisposition :=
| DispIgnore
| DispHandler (source : string) (body : Node).

Inductive SignalDelivery :=
| DeliverTerminate (signal : Signal)
| DeliverStop (signal : Signal)
| DeliverHandler (body : Node).

(** The order of the signals in the sets of the source. *)
Definition all_signals : list Signal :=
  [Hangup; Interrupt; Kill; User1; User2; Pipe; Terminate; Child; Continue; Stop; FileSize].

#[export] Instance Signal_countable : Countable Signal.
Proof.
  refine (inj_countable (λ s, Z.to_nat (signal_number s))
    (λ n, find (λ s, Nat.eqb (Z.to_nat (signal_number s)) n) all_signals) _).
  by intros [].
Defined.

Record SignalState := MkSignalState {
  sg_pending : gset Signal;
  sg_dispositions : gmap Signal ShellSignalDisposition;
  sg_exit : option ShellSignalDisposition;
  sg_err : option ShellSignalDisposition;
  sg_err_active : bool;
  sg_handling_error : bool;
  sg_handling_signal : bool
}.

(** ** The shell of a process *)

Inductive JobState := JobRunning | JobStopped (signal : Signal) | JobDone (status : Z).

Record Job := MkJob { jb_id : Z; jb_pid : Z; jb_cmd : string; jb_state : JobState }.

Record AliasDefinition := MkAlias { al_source : string; al_words : list string }.

Record LocalBinding := MkLocal { lb_scalar : option string; lb_array : option ArrayVal; lb_exported : bool }.

Definition local_bytes (l : LocalBinding) (name : string) : Z :=
  sat_add64 (sat_add64 (string_bytes name)
      match lb_scalar l with Some scalar => string_bytes scalar | None => 0 end)
    match lb_array l with Some array => array_bytes array | None => 0 end.

Record ShellExpansionError := MkExpansionError { xe_message : string; xe_status : Z; xe_abort : bool }.

Definition expansion_parameter_error (message : string) : ShellExpansionError := MkExpansionError message 1 true.
Definition expansion_assignment_error (message : string) : ShellExpansionError := MkExpansionError message 1 false.

Record Options := MkOptions {
  op_errexit : bool;
  op_errtrace : bool;
  op_nounset : bool;
  op_xtrace : bool;
  op_pipefail : bool
}.

(** The loops, functions and scripts being run. *)
Record ControlState := MkControl {
  ctl_break : Z;
  ctl_continue : Z;
  ctl_loop_depth : Z;
  ctl_returning : option Z;
  ctl_source_depth : Z;
  ctl_exiting : option Z;
  ctl_cond_depth : Z
}.

Record ShellState := MkShell {
  sh_vars : Variables;
  sh_arrays : Arrays;
  sh_exported : gset string;
  sh_readonly : gset string;
  sh_options : gset string;
  sh_command_hash : gmap string string;
  sh_directory_stack : list string;
  sh_funcs : gmap string Node;
  sh_local_scopes : list (gmap string LocalBinding);
  sh_aliases : gmap string AliasDefinition;
  sh_last_status : Z;
  sh_random : Z;
  sh_arg0 : string;
  sh_positional : Positional;
  sh_getopts : Z * Z;
  sh_flags : Options;
  sh_expansion_error : option ShellExpansionError;
  sh_expansion_depth : Z;
  sh_jobs : list Job;
  sh_next_job : Z;
  sh_control : ControlState;
  sh_input : bytes;
  sh_input_pos : Z;
  sh_local_saved : Z;
  sh_frame_saved : Z
}.

(** ** The context *)

Record Identity := MkIdentity {
  id_pid : Z;
  id_ppid : Z;
  id_group : Z;
  id_session : Z;
  id_shell_pid : Z;
  id_generation : Z;
  id_uid : Z
}.

(** Memory reserved for the process and given back when it ends. *)
Record Reservations := MkReservations {
  rv_fork : Z;
  rv_exec : Z;
  rv_baseline : Z;
  rv_state : Z;
  rv_expansion : Z
}.

Record ProcessState := MkProcessState {
  ps_identity : Identity;
  ps_shell : ShellState;
  ps_umask : Z;
  ps_cwd : string;
  ps_syscall_random : Z;
  ps_deadline_interrupt : option EventId;
  ps_fds : FdTable;
  ps_program : bool;
  ps_signals : SignalState;
  ps_reserved : Reservations;
  ps_detached : bool
}.

Definition ps_pid (p : ProcessState) : Z := id_pid (ps_identity p).
Definition ps_ppid (p : ProcessState) : Z := id_ppid (ps_identity p).
Definition ps_vars (p : ProcessState) : Variables := sh_vars (ps_shell p).
Definition ps_exported (p : ProcessState) : gset string := sh_exported (ps_shell p).

Definition with_fds (p : ProcessState) (fds : FdTable) : ProcessState :=
  MkProcessState (ps_identity p) (ps_shell p) (ps_umask p) (ps_cwd p) (ps_syscall_random p)
    (ps_deadline_interrupt p) fds (ps_program p) (ps_signals p) (ps_reserved p) (ps_detached p).
Definition with_cwd (p : ProcessState) (cwd : string) : ProcessState :=
  MkProcessState (ps_identity p) (ps_shell p) (ps_umask p) cwd (ps_syscall_random p)
    (ps_deadline_interrupt p) (ps_fds p) (ps_program p) (ps_signals p) (ps_reserved p) (ps_detached p).
Definition with_umask (p : ProcessState) (umask : Z) : ProcessState :=
  MkProcessState (ps_identity p) (ps_shell p) umask (ps_cwd p) (ps_syscall_random p)
    (ps_deadline_interrupt p) (ps_fds p) (ps_program p) (ps_signals p) (ps_reserved p) (ps_detached p).
Definition with_random (p : ProcessState) (state : Z) : ProcessState :=
  MkProcessState (ps_identity p) (ps_shell p) (ps_umask p) (ps_cwd p) state
    (ps_deadline_interrupt p) (ps_fds p) (ps_program p) (ps_signals p) (ps_reserved p) (ps_detached p).
Definition with_deadline (p : ProcessState) (event : option EventId) : ProcessState :=
  MkProcessState (ps_identity p) (ps_shell p) (ps_umask p) (ps_cwd p) (ps_syscall_random p)
    event (ps_fds p) (ps_program p) (ps_signals p) (ps_reserved p) (ps_detached p).
Definition with_shell (p : ProcessState) (shell : ShellState) : ProcessState :=
  MkProcessState (ps_identity p) shell (ps_umask p) (ps_cwd p) (ps_syscall_random p)
    (ps_deadline_interrupt p) (ps_fds p) (ps_program p) (ps_signals p) (ps_reserved p) (ps_detached p).
Definition with_signals (p : ProcessState) (signals : SignalState) : ProcessState :=
  MkProcessState (ps_identity p) (ps_shell p) (ps_umask p) (ps_cwd p) (ps_syscall_random p)
    (ps_deadline_interrupt p) (ps_fds p) (ps_program p) signals (ps_reserved p) (ps_detached p).
Definition with_reserved (p : ProcessState) (r : Reservations) : ProcessState :=
  MkProcessState (ps_identity p) (ps_shell p) (ps_umask p) (ps_cwd p) (ps_syscall_random p)
    (ps_deadline_interrupt p) (ps_fds p) (ps_program p) (ps_signals p) r (ps_detached p).
Definition with_program (p : ProcessState) (program : bool) : ProcessState :=
  MkProcessState (ps_identity p) (ps_shell p) (ps_umask p) (ps_cwd p) (ps_syscall_random p)
    (ps_deadline_interrupt p) (ps_fds p) program (ps_signals p) (ps_reserved p) (ps_detached p).

(** [BTreeSet<String>::iter]. *)
Definition string_set_iter (s : gset string) : list string := merge_sort key_le (elements s).

(** ** Bytes of the shell's state *)

Definition state_bytes (p : ProcessState) : Z :=
  let sh := ps_shell p in
  sat_add64 (sat_add64 (sat_add64 (sat_add64 (sat_add64 (va_bytes (sh_vars sh)) (ar_bytes (sh_arrays sh)))
    (po_bytes (sh_positional sh))) (sh_local_saved sh)) (sh_frame_saved sh)) (zlen (sh_input sh)).

(** What copying a string costs. *)
Definition copy_bytes (value : string) : Z := sat_add64 (str_len value) 24.
Definition copies_bytes (values : list string) : Z := sat_total copy_bytes values.

Definition pairs_bytes (entries : list (string * string)) : Z :=
  sat_total (λ '(name, value), sat_add64 (copy_bytes name) (copy_bytes value)) entries.

Definition array_copy_bytes (array : ArrayVal) : Z :=
  match array with
  | Indexed values => copies_bytes (btree_values values)
  | Assoc values => pairs_bytes (btree_iter values)
  end.

Section sizes.
Context (NODE_SIZE REDIRECT_SIZE : Z).
Notation body_bytes := (estimated_bytes NODE_SIZE REDIRECT_SIZE).

Definition disposition_bytes (d : ShellSignalDisposition) : Z :=
  match d with
  | DispIgnore => 16
  | DispHandler source body => sat_add64 (copy_bytes source) (body_bytes body)
  end.

Definition binding_bytes (name : string) (l : LocalBinding) : Z :=
  sat_add64 (sat_add64 (copy_bytes name)
      match lb_scalar l with Some scalar => copy_bytes scalar | None => 0 end)
    match lb_array l with Some array => array_copy_bytes array | None => 0 end.

(** [fork_memory_bytes], a part of the state at a time; saturating addition is associative on sizes. *)
Definition fork_memory_bytes (p : ProcessState) : Z :=
  let sh := ps_shell p in
  foldl sat_add64 0
    [pairs_bytes (btree_iter (va_values (sh_vars sh)));
     copies_bytes (string_set_iter (sh_exported sh));
     copy_bytes (ps_cwd p);
     copies_bytes (sh_directory_stack sh);
     copies_bytes (po_values (sh_positional sh));
     zlen (sh_input sh);
     sat_mul64 (Z.of_nat (size (ft_entries (ps_fds p)))) 16;
     sat_total (λ '(name, array), sat_add64 (copy_bytes name) (array_copy_bytes array))
       (btree_iter (ar_values (sh_arrays sh)));
     sat_total (λ '(name, body), sat_add64 (copy_bytes name) (body_bytes body)) (btree_iter (sh_funcs sh));
     sat_total (λ '(name, alias), sat_add64 (sat_add64 (copy_bytes name) (copy_bytes (al_source alias)))
       (copies_bytes (al_words alias))) (btree_iter (sh_aliases sh));
     copies_bytes (string_set_iter (sh_readonly sh));
     copies_bytes (string_set_iter (sh_options sh));
     pairs_bytes (btree_iter (sh_command_hash sh));
     sat_total (λ scope, sat_total (λ '(name, binding), binding_bytes name binding) (btree_iter scope))
       (sh_local_scopes sh);
     match sh_expansion_error sh with Some error => copy_bytes (xe_message error) | None => 0 end;
     sat_total (λ '(_, d), disposition_bytes d) (map_to_list (sg_dispositions (ps_signals p)));
     match sg_exit (ps_signals p) with Some d => disposition_bytes d | None => 0 end;
     match sg_err (ps_signals p) with Some d => disposition_bytes d | None => 0 end].

End sizes.

(** ** Forking *)

Definition with_baseline (p : ProcessState) : ProcessState :=
  with_reserved p (MkReservations (rv_fork (ps_reserved p)) (rv_exec (ps_reserved p)) (state_bytes p)
    (rv_state (ps_reserved p)) (rv_expansion (ps_reserved p))).

Definition fork_shell (sh : ShellState) (new_shell : bool) : ShellState :=
  MkShell (sh_vars sh) (sh_arrays sh) (sh_exported sh) (sh_readonly sh) (sh_options sh) (sh_command_hash sh)
    (sh_directory_stack sh) (sh_funcs sh) (sh_local_scopes sh) (sh_aliases sh) (sh_last_status sh) (sh_random sh)
    (sh_arg0 sh) (sh_positional sh) (sh_getopts sh) (sh_flags sh) None 0 [] 1
    (MkControl 0 0 (if new_shell then 0 else ctl_loop_depth (sh_control sh)) None 0 None (ctl_cond_depth (sh_control sh)))
    (sh_input sh) (sh_input_pos sh) (sh_local_saved sh) 0.

Definition is_ignore (d : ShellSignalDisposition) : bool := match d with DispIgnore => true | _ => false end.

Definition fork_signals (g : SignalState) (errtrace new_shell : bool) : SignalState :=
  MkSignalState ∅
    (if new_shell then filter (λ '(_, d), is_ignore d = true) (sg_dispositions g) else sg_dispositions g)
    (if new_shell then None else sg_exit g) (sg_err g) (sg_err_active g && errtrace) (sg_handling_error g) false.

Definition fork_for_child (p : ProcessState) (record : ProcessRecord) (new_shell : bool) (fds : FdTable)
    (fork_allocation : Z) (detached : bool) : ProcessState :=
  let pid := pr_pid record in
  let identity := MkIdentity pid (ps_pid p) (pr_process_group record) (pr_session_id record)
    (if new_shell then pid else id_shell_pid (ps_identity p)) (id_generation (ps_identity p)) (id_uid (ps_identity p)) in
  with_baseline (MkProcessState identity (fork_shell (ps_shell p) new_shell) (ps_umask p) (ps_cwd p)
    (Z.lxor (ps_syscall_random p) (wrap_u64 (pid * 11400714819323198485)))
    (ps_deadline_interrupt p) fds false
    (fork_signals (ps_signals p) (op_errtrace (sh_flags (ps_shell p))) new_shell)
    (MkReservations fork_allocation 0 0 0 0) detached).

(** [child_env]: the exported variables that have a value. *)
Definition child_env (p : ProcessState) : gmap string string :=
  filter (λ '(name, _), name ∈ ps_exported p) (va_values (ps_vars p)).

(** The memory a context holds: what it gives back when the process ends. *)
Definition held_bytes (p : ProcessState) : Z :=
  sat_add64 (sat_add64 (sat_add64 (rv_fork (ps_reserved p)) (rv_exec (ps_reserved p))) (rv_state (ps_reserved p)))
    (rv_expansion (ps_reserved p)).
