(* ===== verification/ShellVars.v ===== *)
(** * Variables of a shell (src/src/interp.rs)

    How a shell context reads and writes its parameters: the special parameters, scalars, arrays,
    the bindings a function scope saves, and the job table. The accessors are methods of the machine
    that touch the active context only, so they are functions on [ProcessState]. *)

From stdpp Require Import pretty.
From S2P Require Import Prelude.
From S2P Require Import RustStr.
From S2P Require Import Variables.
From S2P Require Import Process.
From S2P Require Import ProcessState.

(** ** Fields of the shell *)

Section fields.
Context (sh : ShellState).

Definition set_random (state : Z) : ShellState :=
  MkShell (sh_vars sh) (sh_arrays sh) (sh_exported sh) (sh_readonly sh) (sh_options sh) (sh_command_hash sh)
    (sh_directory_stack sh) (sh_funcs sh) (sh_local_scopes sh) (sh_aliases sh) (sh_last_status sh) state (sh_arg0 sh)
    (sh_positional sh) (sh_getopts sh) (sh_flags sh) (sh_expansion_error sh) (sh_expansion_depth sh) (sh_jobs sh)
    (sh_next_job sh) (sh_control sh) (sh_input sh) (sh_input_pos sh) (sh_local_saved sh) (sh_frame_saved sh).

Definition set_bindings (vars : Variables) (arrays : Arrays) (exported : gset string)
    (scopes : list (gmap string LocalBinding)) (saved : Z) : ShellState :=
  MkShell vars arrays exported (sh_readonly sh) (sh_options sh) (sh_command_hash sh)
    (sh_directory_stack sh) (sh_funcs sh) scopes (sh_aliases sh) (sh_last_status sh) (sh_random sh) (sh_arg0 sh)
    (sh_positional sh) (sh_getopts sh) (sh_flags sh) (sh_expansion_error sh) (sh_expansion_depth sh) (sh_jobs sh)
    (sh_next_job sh) (sh_control sh) (sh_input sh) (sh_input_pos sh) saved (sh_frame_saved sh).

Definition set_getopts (getopts : Z * Z) : ShellState :=
  MkShell (sh_vars sh) (sh_arrays sh) (sh_exported sh) (sh_readonly sh) (sh_options sh) (sh_command_hash sh)
    (sh_directory_stack sh) (sh_funcs sh) (sh_local_scopes sh) (sh_aliases sh) (sh_last_status sh) (sh_random sh)
    (sh_arg0 sh) (sh_positional sh) getopts (sh_flags sh) (sh_expansion_error sh) (sh_expansion_depth sh) (sh_jobs sh)
    (sh_next_job sh) (sh_control sh) (sh_input sh) (sh_input_pos sh) (sh_local_saved sh) (sh_frame_saved sh).

Definition set_expansion (error : option ShellExpansionError) (depth : Z) : ShellState :=
  MkShell (sh_vars sh) (sh_arrays sh) (sh_exported sh) (sh_readonly sh) (sh_options sh) (sh_command_hash sh)
    (sh_directory_stack sh) (sh_funcs sh) (sh_local_scopes sh) (sh_aliases sh) (sh_last_status sh) (sh_random sh)
    (sh_arg0 sh) (sh_positional sh) (sh_getopts sh) (sh_flags sh) error depth (sh_jobs sh)
    (sh_next_job sh) (sh_control sh) (sh_input sh) (sh_input_pos sh) (sh_local_saved sh) (sh_frame_saved sh).

Definition set_last_status (status : Z) : ShellState :=
  MkShell (sh_vars sh) (sh_arrays sh) (sh_exported sh) (sh_readonly sh) (sh_options sh) (sh_command_hash sh)
    (sh_directory_stack sh) (sh_funcs sh) (sh_local_scopes sh) (sh_aliases sh) status (sh_random sh)
    (sh_arg0 sh) (sh_positional sh) (sh_getopts sh) (sh_flags sh) (sh_expansion_error sh) (sh_expansion_depth sh)
    (sh_jobs sh) (sh_next_job sh) (sh_control sh) (sh_input sh) (sh_input_pos sh) (sh_local_saved sh)
    (sh_frame_saved sh).

Definition set_jobs (jobs : list Job) (next : Z) : ShellState :=
  MkShell (sh_vars sh) (sh_arrays sh) (sh_exported sh) (sh_readonly sh) (sh_options sh) (sh_command_hash sh)
    (sh_directory_stack sh) (sh_funcs sh) (sh_local_scopes sh) (sh_aliases sh) (sh_last_status sh) (sh_random sh)
    (sh_arg0 sh) (sh_positional sh) (sh_getopts sh) (sh_flags sh) (sh_expansion_error sh) (sh_expansion_depth sh)
    jobs next (sh_control sh) (sh_input sh) (sh_input_pos sh) (sh_local_saved sh) (sh_frame_saved sh).

Definition set_vars (vars : Variables) : ShellState :=
  set_bindings vars (sh_arrays sh) (sh_exported sh) (sh_local_scopes sh) (sh_local_saved sh).
Definition set_arrays (arrays : Arrays) : ShellState :=
  set_bindings (sh_vars sh) arrays (sh_exported sh) (sh_local_scopes sh) (sh_local_saved sh).

End fields.

(** ** Reading arrays *)

(** [key.trim().parse::<usize>()]. *)
Definition index_key (key : string) : option Z := parse_unsigned U64_MAX (trim key).

Definition array_value (sh : ShellState) (name : string) : option ArrayVal := ar_values (sh_arrays sh) !! name.

Definition is_array (sh : ShellState) (name : string) : bool := bool_decide (is_Some (array_value sh name)).

Definition array_get (sh : ShellState) (name key : string) : option string :=
  match array_value sh name with
  | Some (Assoc values) => values !! key
  | Some (Indexed values) => index ← index_key key; values !! index
  | None => None
  end.

Definition array_all (sh : ShellState) (name : string) : list string :=
  match array_value sh name with
  | Some (Assoc values) => btree_values values
  | Some (Indexed values) => btree_values values
  | None => []
  end.

Definition array_keys (sh : ShellState) (name : string) : list string :=
  match array_value sh name with
  | Some (Assoc values) => btree_keys values
  | Some (Indexed values) => map pretty (btree_keys values)
  | None => []
  end.

Definition array_len (sh : ShellState) (name : string) : Z :=
  match array_value sh name with
  | Some (Assoc values) => Z.of_nat (size values)
  | Some (Indexed values) => Z.of_nat (size values)
  | None => 0
  end.

(** ** Writing arrays *)

Definition ensure_indexed (sh : ShellState) (name : string) : ShellState :=
  if is_array sh name then sh
  else
    let values := match va_values (sh_vars sh) !! name with Some value => {[0 := value]} | None => ∅ end in
    set_arrays sh (arrays_insert (sh_arrays sh) name (Indexed values)).1.

Definition declare_assoc (sh : ShellState) (name : string) : ShellState :=
  match array_value sh name with
  | Some (Assoc _) => sh
  | _ => set_arrays sh (arrays_insert (sh_arrays sh) name (Assoc ∅)).1
  end.

(** [elems.into_iter().enumerate().collect()]. *)
Definition enumerated (elems : list string) : gmap Z string := map_seqZ 0 elems.

Definition set_array (sh : ShellState) (name : string) (elems : list string) : ShellState :=
  let sh := set_vars sh (variables_remove (sh_vars sh) name).1 in
  set_arrays sh (arrays_insert (sh_arrays sh) name (Indexed (enumerated elems))).1.

Definition append_element (name : string) (sh : ShellState) (value : string) : ShellState :=
  let index := match array_value sh name with Some array => end_index array | None => 0 end in
  set_arrays sh (set_element (sh_arrays sh) name (Index index) value).1.

Definition array_append (sh : ShellState) (name : string) (elems : list string) : ShellState :=
  foldl (append_element name) (ensure_indexed sh name) elems.

Definition array_set (sh : ShellState) (name key value : string) : ShellState :=
  match array_value sh name with
  | Some (Assoc _) => set_arrays sh (set_element (sh_arrays sh) name (Name key) value).1
  | _ =>
      let sh := ensure_indexed sh name in
      set_arrays sh (set_element (sh_arrays sh) name (Index (default 0 (index_key key))) value).1
  end.

Definition array_unset_elem (sh : ShellState) (name key : string) : ShellState :=
  let unset k := set_arrays sh (unset_element (sh_arrays sh) name k).1 in
  match array_value sh name with
  | Some (Assoc _) => unset (Name key)
  | Some (Indexed _) => match index_key key with Some index => unset (Index index) | None => sh end
  | None => sh
  end.

(** ** Parameters *)

(** The generator behind [$RANDOM], a [u32]. *)
Definition next_random (state : Z) : Z := (state * 1103515245 + 12345) mod 2 ^ 32.

(** The separator of ["$*"]. *)
Definition star_separator (sh : ShellState) : string :=
  match va_values (sh_vars sh) !! "IFS" with
  | Some ifs => default "" (head (utf8_chars ifs))
  | None => " "
  end.

(** [get_var]; reading [RANDOM] advances its state. *)
Definition get_var (p : ProcessState) (name : string) : ProcessState * option string :=
  let sh := ps_shell p in
  let here n := bool_decide (name = n) in
  if here "?" then (p, Some (pretty (sh_last_status sh)))
  else if here "$" then (p, Some (pretty (id_shell_pid (ps_identity p))))
  else if here "PPID" then (p, Some (pretty (ps_ppid p)))
  else if here "BASHPID" then (p, Some (pretty (ps_pid p)))
  else if here "RANDOM" then
    let state := next_random (sh_random sh) in
    (with_shell p (set_random sh state), Some (pretty (Z.land (Z.shiftr state 16) 32767)))
  else if here "#" then (p, Some (pretty (zlen (po_values (sh_positional sh)))))
  else if here "PWD" then (p, Some (ps_cwd p))
  else if here "@" then (p, Some (String.concat " " (po_values (sh_positional sh))))
  else if here "*" then (p, Some (String.concat (star_separator sh) (po_values (sh_positional sh))))
  else
    (p, match parse_unsigned U64_MAX name with
        | Some n => if n =? 0 then Some (sh_arg0 sh) else po_values (sh_positional sh) !! Z.to_nat (n - 1)
        | None =>
            if is_array sh name then Some (default "" (array_get sh name "0"))
            else va_values (sh_vars sh) !! name
        end).

(** Assigning [OPTIND] restarts option parsing. *)
Definition restart_getopts (sh : ShellState) (value : string) : ShellState :=
  let optind := match parse_unsigned U64_MAX value with Some n => if 0 <? n then n else 1 | None => 1 end in
  set_getopts sh (optind, 1).

Definition set_var (p : ProcessState) (name value : string) : ProcessState :=
  let sh := ps_shell p in
  if bool_decide (name = "RANDOM") then
    let sh := set_random sh (default 0 (parse_unsigned U32_MAX value)) in
    let sh := set_vars sh (variables_remove (sh_vars sh) name).1 in
    with_shell p (set_arrays sh (arrays_remove (sh_arrays sh) name).1)
  else
    let p := if bool_decide (name = "PWD") then with_cwd p value else p in
    let sh := if bool_decide (name = "OPTIND") then restart_getopts sh value else sh in
    let sh := set_arrays sh (arrays_remove (sh_arrays sh) name).1 in
    with_shell p (set_vars sh (variables_insert (sh_vars sh) name value).1).

Definition export_var (sh : ShellState) (name : string) : ShellState :=
  set_bindings sh (sh_vars sh) (sh_arrays sh) ({[name]} ∪ sh_exported sh) (sh_local_scopes sh) (sh_local_saved sh).

(** ** Function scopes *)

Definition enter_function_scope (sh : ShellState) : ShellState :=
  set_bindings sh (sh_vars sh) (sh_arrays sh) (sh_exported sh) (sh_local_scopes sh ++ [∅]) (sh_local_saved sh).

Definition in_function_scope (sh : ShellState) : bool := negb (bool_decide (sh_local_scopes sh = [])).

(** What a name is bound to. *)
Definition binding_of (sh : ShellState) (name : string) : LocalBinding :=
  MkLocal (va_values (sh_vars sh) !! name) (array_value sh name) (bool_decide (name ∈ sh_exported sh)).

(** Replace the last scope: the scopes grow at the end of the vector. *)
Definition declare_local (sh : ShellState) (name : string) : ShellState :=
  match reverse (sh_local_scopes sh) with
  | [] => sh
  | scope :: outer =>
      if bool_decide (is_Some (scope !! name)) then sh
      else
        let binding := binding_of sh name in
        set_bindings sh (variables_remove (sh_vars sh) name).1 (arrays_remove (sh_arrays sh) name).1
          (sh_exported sh ∖ {[name]}) (reverse (<[name := binding]> scope :: outer))
          (sat_add64 (sh_local_saved sh) (local_bytes binding name))
  end.

Definition restore_binding (sh : ShellState) (entry : string * LocalBinding) : ShellState :=
  let '(name, binding) := entry in
  let vars := (variables_remove (sh_vars sh) name).1 in
  let arrays := (arrays_remove (sh_arrays sh) name).1 in
  let exported := sh_exported sh ∖ {[name]} in
  set_bindings sh
    match lb_scalar binding with Some value => (variables_insert vars name value).1 | None => vars end
    match lb_array binding with Some value => (arrays_insert arrays name value).1 | None => arrays end
    (if lb_exported binding then {[name]} ∪ exported else exported)
    (sh_local_scopes sh) (sat_sub (sh_local_saved sh) (local_bytes binding name)).

(** The scope is a [HashMap]: its names are distinct, and each is restored on its own. *)
Definition leave_function_scope (sh : ShellState) : ShellState :=
  match reverse (sh_local_scopes sh) with
  | [] => sh
  | scope :: outer =>
      foldl restore_binding
        (set_bindings sh (sh_vars sh) (sh_arrays sh) (sh_exported sh) (reverse outer) (sh_local_saved sh))
        (map_to_list scope)
  end.

(** ** Jobs *)

Definition new_job (sh : ShellState) (pid : Z) (cmd : string) : ShellState * option Z :=
  if MAX_PROCESSES <=? zlen (sh_jobs sh) then (sh, None)
  else
    let id := sh_next_job sh in
    match checked_add32 id 1 with
    | None => (sh, None)
    | Some next => (set_jobs sh (sh_jobs sh ++ [MkJob id pid cmd JobRunning]) next, Some id)
    end.
