(* ===== verification/ScopeSpec.v ===== *)
(** * Function scopes (src/src/interp.rs)

    Leaving a function undoes exactly what its [local] declarations shadowed. The commands of a
    function body are a tree: a call inside the body is itself a body. *)

From S2P Require Import Prelude.
From S2P Require Import RustStr.
From S2P Require Import Variables.
From S2P Require Import ProcessState.
From S2P Require Import ShellVars.

(** ** Function bodies *)

Inductive Cmd :=
| Assign (name value : string)
| AssignArray (name : string) (elems : list string)
| AppendArray (name : string) (elems : list string)
| AssignElement (name key value : string)
| DeclareAssoc (name : string)
| Export (name : string)
| Local (name : string)
| CallBody (body : Cmds)
with Cmds :=
| Finish
| Then (c : Cmd) (rest : Cmds).

Scheme Cmd_both := Induction for Cmd Sort Prop
with Cmds_both := Induction for Cmds Sort Prop.

Definition on_shell (f : ShellState → ShellState) (p : ProcessState) : ProcessState := with_shell p (f (ps_shell p)).

Fixpoint run_cmd (c : Cmd) (p : ProcessState) : ProcessState :=
  match c with
  | Assign name value => set_var p name value
  | AssignArray name elems => on_shell (λ sh, set_array sh name elems) p
  | AppendArray name elems => on_shell (λ sh, array_append sh name elems) p
  | AssignElement name key value => on_shell (λ sh, array_set sh name key value) p
  | DeclareAssoc name => on_shell (λ sh, declare_assoc sh name) p
  | Export name => on_shell (λ sh, export_var sh name) p
  | Local name => on_shell (λ sh, declare_local sh name) p
  | CallBody body => on_shell leave_function_scope (run_body body (on_shell enter_function_scope p))
  end
with run_body (body : Cmds) (p : ProcessState) : ProcessState :=
  match body with Finish => p | Then c rest => run_body rest (run_cmd c p) end.

Definition scopes (p : ProcessState) : list (gmap string LocalBinding) := sh_local_scopes (ps_shell p).
Definition bound (p : ProcessState) (name : string) : LocalBinding := binding_of (ps_shell p) name.
Definition unbound : LocalBinding := MkLocal None None false.

(** What the body's own first [local name] finds, if it has one. *)
Fixpoint shadowed (body : Cmds) (p : ProcessState) (name : string) : option LocalBinding :=
  match body with
  | Finish => None
  | Then c rest =>
      if match c with Local n => bool_decide (n = name) | _ => false end then Some (bound p name)
      else shadowed rest (run_cmd c p) name
  end.

(** ** Scopes stack *)

Lemma set_var_scopes p name value : scopes (set_var p name value) = scopes p.
Proof.
  unfold set_var, scopes. cbv zeta. destruct (bool_decide (name = "RANDOM")); [done|].
  by destruct (bool_decide (name = "PWD")), (bool_decide (name = "OPTIND")).
Qed.

Lemma ensure_indexed_scopes sh name : sh_local_scopes (ensure_indexed sh name) = sh_local_scopes sh.
Proof. unfold ensure_indexed. by destruct (is_array sh name). Qed.

Lemma array_set_scopes sh name key value : sh_local_scopes (array_set sh name key value) = sh_local_scopes sh.
Proof. unfold array_set. destruct (array_value sh name) as [[]|]; simpl; by rewrite ?ensure_indexed_scopes. Qed.

Lemma array_append_scopes sh name elems : sh_local_scopes (array_append sh name elems) = sh_local_scopes sh.
Proof.
  unfold array_append. rewrite <-(ensure_indexed_scopes sh name). generalize (ensure_indexed sh name) as s.
  induction elems as [|x elems IH]; intros s; [done|]. cbn [foldl]. by rewrite IH.
Qed.

Lemma declare_assoc_scopes sh name : sh_local_scopes (declare_assoc sh name) = sh_local_scopes sh.
Proof. unfold declare_assoc. by destruct (array_value sh name) as [[]|]. Qed.

Lemma reverse_last {A} (outer : list A) x : reverse (outer ++ [x]) = x :: reverse outer.
Proof. by rewrite reverse_app. Qed.

Lemma declare_local_scopes sh name outer scope : sh_local_scopes sh = outer ++ [scope] →
  sh_local_scopes (declare_local sh name) =
  outer ++ [if bool_decide (is_Some (scope !! name)) then scope else <[name := binding_of sh name]> scope].
Proof.
  intros Hs. unfold declare_local. rewrite Hs, reverse_last. destruct (bool_decide _); [done|]. cbn [sh_local_scopes set_bindings].
  by rewrite reverse_cons, reverse_involutive.
Qed.

Lemma restore_scopes entries sh : sh_local_scopes (foldl restore_binding sh entries) = sh_local_scopes sh.
Proof. revert sh. induction entries as [|[n b] entries IH]; intros sh; [done|]. cbn [foldl]. by rewrite IH. Qed.

Lemma leave_scopes sh outer scope : sh_local_scopes sh = outer ++ [scope] →
  sh_local_scopes (leave_function_scope sh) = outer.
Proof. intros Hs. unfold leave_function_scope. rewrite Hs, reverse_last, restore_scopes. apply reverse_involutive. Qed.

(** ** Bindings *)

Lemma bindings_eq sh vars arrays exported scs saved name :
  binding_of (set_bindings sh vars arrays exported scs saved) name =
  MkLocal (va_values vars !! name) (ar_values arrays !! name) (bool_decide (name ∈ exported)).
Proof. done. Qed.

Lemma restore_binding_of sh n b name :
  binding_of (restore_binding sh (n, b)) name = if bool_decide (n = name) then b else binding_of sh name.
Proof.
  unfold restore_binding. rewrite bindings_eq. destruct b as [scalar array exported]. cbn [lb_scalar lb_array lb_exported].
  destruct (decide (n = name)) as [->|Hn]; [rewrite (bool_decide_eq_true_2 (name = name)) by done|rewrite (bool_decide_eq_false_2 (n = name)) by done].
  - f_equal; [destruct scalar; simpl; by simplify_map_eq|destruct array; simpl; by simplify_map_eq|].
    destruct exported; [apply bool_decide_eq_true_2|apply bool_decide_eq_false_2]; set_solver.
  - unfold binding_of. f_equal; [destruct scalar; simpl; by simplify_map_eq|destruct array; simpl; unfold array_value; by simplify_map_eq|].
    apply bool_decide_ext. destruct exported; set_solver.
Qed.

Lemma restore_all entries sh name : NoDup entries.*1 →
  binding_of (foldl restore_binding sh entries) name = default (binding_of sh name) (list_to_map (M:=gmap string LocalBinding) entries !! name).
Proof.
  revert sh. induction entries as [|[n b] entries IH]; intros sh Hd; [done|]. cbn [foldl]. inversion_clear Hd as [|? ? Hn Hd'].
  rewrite IH by done. cbn [list_to_map foldr]. rewrite restore_binding_of. destruct (decide (n = name)) as [->|Hne]; [rewrite bool_decide_eq_true_2 by done|rewrite bool_decide_eq_false_2 by done].
  - rewrite lookup_insert_eq. simpl. by rewrite not_elem_of_list_to_map_1 by done.
  - by rewrite lookup_insert_ne.
Qed.

Lemma leave_bindings sh outer scope name : sh_local_scopes sh = outer ++ [scope] →
  binding_of (leave_function_scope sh) name = default (binding_of sh name) (scope !! name).
Proof.
  intros Hs. unfold leave_function_scope. rewrite Hs, reverse_last, restore_all by apply NoDup_fst_map_to_list.
  by rewrite list_to_map_to_list.
Qed.

Lemma declare_local_bound sh name outer scope : sh_local_scopes sh = outer ++ [scope] → scope !! name = None →
  binding_of (declare_local sh name) name = unbound.
Proof.
  intros Hs Hn. unfold declare_local. rewrite Hs, reverse_last, Hn, bool_decide_eq_false_2 by by intros [].
  rewrite bindings_eq. unfold unbound. simpl. rewrite !lookup_delete_eq. f_equal. apply bool_decide_eq_false_2. set_solver.
Qed.

(** ** Bodies *)

(** A command leaves the scopes, or adds to the last. *)
Definition cmd_scope (c : Cmd) (p : ProcessState) (scope : gmap string LocalBinding) : gmap string LocalBinding :=
  match c with
  | Local name => if bool_decide (is_Some (scope !! name)) then scope else <[name := bound p name]> scope
  | _ => scope
  end.
Definition cmd_keeps (c : Cmd) : Prop := ∀ p outer scope, scopes p = outer ++ [scope] →
  scopes (run_cmd c p) = outer ++ [cmd_scope c p scope].
(** A body saves what its own declarations shadow. *)
Definition body_keeps (body : Cmds) : Prop := ∀ p outer scope, scopes p = outer ++ [scope] →
  ∃ scope', scopes (run_body body p) = outer ++ [scope'] ∧
    ∀ name, scope' !! name = match scope !! name with Some b => Some b | None => shadowed body p name end.

Lemma then_keeps c rest : cmd_keeps c → body_keeps rest → body_keeps (Then c rest).
Proof.
  intros Hc Hr p outer scope Hs. destruct (Hr _ _ _ (Hc _ _ _ Hs)) as (scope' & Hs' & Hl). exists scope'.
  split; [done|]. intros name. rewrite Hl. cbn [shadowed].
  destruct c; try done. cbn [cmd_scope]. destruct (decide (name0 = name)) as [->|Hne].
  - rewrite (bool_decide_eq_true_2 (name = name)) by done. case_bool_decide as Hx.
    + destruct Hx as [b Hb]. by rewrite Hb.
    + rewrite lookup_insert_eq. by destruct (scope !! name) eqn:Hb; [destruct Hx; eexists|].
  - rewrite (bool_decide_eq_false_2 (name0 = name)) by done. case_bool_decide; [done|]. by rewrite lookup_insert_ne.
Qed.

Lemma call_keeps body : body_keeps body → cmd_keeps (CallBody body).
Proof.
  intros Hb p outer scope Hs. cbn [run_cmd cmd_scope]. unfold scopes, on_shell. cbn [ps_shell with_shell].
  destruct (Hb (on_shell enter_function_scope p) (outer ++ [scope]) ∅) as (scope' & Hs' & _); [by rewrite <-Hs|].
  eapply leave_scopes, Hs'.
Qed.

Lemma plain_keeps c : match c with CallBody _ => False | _ => True end → cmd_keeps c.
Proof.
  intros Hp p outer scope Hs. unfold scopes in *. destruct c; try done; cbn [run_cmd cmd_scope]; unfold on_shell; cbn [ps_shell with_shell].
  - rewrite <-Hs. apply set_var_scopes.
  - by rewrite array_append_scopes.
  - by rewrite array_set_scopes.
  - by rewrite declare_assoc_scopes.
  - by apply declare_local_scopes.
Qed.

Lemma bodies_keep body : body_keeps body.
Proof.
  apply (Cmds_both cmd_keeps body_keeps); try (intros; by apply plain_keeps).
  - apply call_keeps.
  - intros p outer scope Hs. exists scope. split; [done|]. intros name. by destruct (scope !! name).
  - intros c Hc rest Hr. by apply then_keeps.
Qed.

(** ** The property *)

(** C34: A function call restores exactly what its own [local] declarations shadowed. After the call,
    a name the body declares local (not only inside a nested call) is bound, as a scalar, an array
    and an exported name, to what it was bound to when its first declaration ran; every other name
    keeps the binding the body left it with; and the scopes are those of before the call. *)
Theorem call_restores_locals body p name :
  let inner := on_shell enter_function_scope p in
  scopes (run_cmd (CallBody body) p) = scopes p ∧
  bound (run_cmd (CallBody body) p) name =
    match shadowed body inner name with
    | Some before => before
    | None => bound (run_body body inner) name
    end.
Proof.
  cbv zeta. destruct (bodies_keep body (on_shell enter_function_scope p) (scopes p) ∅) as (scope & Hs & Hl); [done|].
  split; [eapply leave_scopes, Hs|]. unfold bound. cbn [run_cmd]. unfold on_shell at 1. cbn [ps_shell with_shell].
  rewrite (leave_bindings _ _ _ name Hs), Hl, lookup_empty. by destruct (shadowed _ _ _).
Qed.
