(* ===== verification/ExpandText.v ===== *)
(** * The text side of word expansion (src/src/expand.rs)

    The functions of word expansion that only read text: the scanner for command substitutions,
    brace expansion, the delimiters of [${...}] and [$((...))], subscripts, and patterns. A pattern
    is translated to a regular expression; the engine is a third-party crate, so compiling and
    matching are a parameter. *)

From stdpp Require Import pretty.
From S2P Require Import Prelude.
From S2P Require Import RustStr.
From S2P Require Import Resources.

(** ** Substrings *)

(** [s.split_once(pattern)] and [s.split(pattern)] for a non-empty string pattern. *)
Fixpoint split_once_str (pat s : string) : option (string * string) :=
  match strip_prefix pat s with
  | Some rest => Some ("", rest)
  | None =>
      match s with
      | EmptyString => None
      | String c s => '(l, r) ← split_once_str pat s; Some (String c l, r)
      end
  end.

Fixpoint split_str_fuel (fuel : nat) (pat s : string) : list string :=
  match fuel with
  | O => [s]
  | S fuel => match split_once_str pat s with None => [s] | Some (l, r) => l :: split_str_fuel fuel pat r end
  end.
Definition split_str (pat s : string) : list string := split_str_fuel (String.length s) pat s.

(** [s.contains(pattern)], [s.matches(pattern).count()], [s.replace(pattern, by)] and
    [s.replacen(pattern, by, 1)]. *)
Definition str_contains (pat s : string) : bool := bool_decide (is_Some (split_once_str pat s)).
Definition count_matches (pat s : string) : nat := pred (length (split_str pat s)).
Definition replace_all (pat by_ s : string) : string := String.concat by_ (split_str pat s).
Definition replace_first (pat by_ s : string) : string :=
  match split_once_str pat s with Some (l, r) => l +:+ by_ +:+ r | None => s end.

(** [s.trim_start_matches(c)] and [s.trim_end_matches(c)]. *)
Fixpoint trim_start_char (c : ascii) (s : string) : string :=
  match s with String b rest => if bool_decide (b = c) then trim_start_char c rest else s | _ => s end.
Fixpoint trim_end_char (c : ascii) (s : string) : string :=
  match s with
  | EmptyString => EmptyString
  | String b rest =>
      match trim_end_char c rest with
      | EmptyString => if bool_decide (b = c) then EmptyString else String b EmptyString
      | rest => String b rest
      end
  end.

(** [&s[a..b]]: an index inside a character, or out of order, panics. *)
Definition str_slice (s : string) (a b : nat) : run string :=
  if bool_decide (a ≤ b ≤ String.length s)%nat && is_char_boundary s a && is_char_boundary s b
  then Ret (str_take (b - a) (str_drop a s)) else Panic.

(** ** Code points *)

Definition byte_value (c : ascii) : Z := Z.of_N (Ascii.N_of_ascii c).

(** The scalar value of a character from its UTF-8 bytes. *)
Definition char_value (c : string) : Z :=
  match map byte_value (String.list_ascii_of_string c) with
  | [a] => a
  | [a; b] => Z.lor (Z.shiftl (Z.land a 31) 6) (Z.land b 63)
  | [a; b; d] => Z.lor (Z.shiftl (Z.land a 15) 12) (Z.lor (Z.shiftl (Z.land b 63) 6) (Z.land d 63))
  | [a; b; d; e] =>
      Z.lor (Z.shiftl (Z.land a 7) 18)
        (Z.lor (Z.shiftl (Z.land b 63) 12) (Z.lor (Z.shiftl (Z.land d 63) 6) (Z.land e 63)))
  | _ => 0
  end.

Definition of_bytes (codes : list Z) : string := utf8 (map Z.to_nat codes).
Definition tail_byte (value shift : Z) : Z := Z.lor 128 (Z.land (Z.shiftr value shift) 63).

(** [char::from_u32]. *)
Definition char_from (value : Z) : option string :=
  if (value <? 0) || (1114111 <? value) || ((55296 <=? value) && (value <=? 57343)) then None
  else Some (of_bytes
    (if value <? 128 then [value]
     else if value <? 2048 then [Z.lor 192 (Z.shiftr value 6); tail_byte value 0]
     else if value <? 65536 then [Z.lor 224 (Z.shiftr value 12); tail_byte value 6; tail_byte value 0]
     else [Z.lor 240 (Z.shiftr value 18); tail_byte value 12; tail_byte value 6; tail_byte value 0])).

(** ** Command substitutions *)

Record CommandSubstitution := MkSubstitution { cs_start : nat; cs_end : nat; cs_source : string }.

Definition backslash : ascii := "\"%char.
Definition squote_byte : ascii := "'"%char.
Definition dquote_byte : ascii := Ascii.ascii_of_nat 34.
Definition backquote : ascii := Ascii.ascii_of_nat 96.

Definition byte_is (word : string) (index : nat) (c : ascii) : bool := bool_decide (String.get index word = Some c).

(** Toggle [quote] at a quote character that is not inside the other kind. *)
Definition toggle (quote : option ascii) (c : ascii) : option ascii :=
  if bool_decide (quote = Some c) then None else Some c.
Definition quote_here (word : string) (index : nat) (quote : option ascii) : option ascii :=
  if byte_is word index squote_byte && negb (bool_decide (quote = Some dquote_byte)) then Some squote_byte
  else if byte_is word index dquote_byte && negb (bool_decide (quote = Some squote_byte)) then Some dquote_byte
  else None.

(** From [index], the first backquote that no backslash takes: [inl] its index, or [inr] where the
    scan stopped. Every round moves on, so [length word] rounds are enough. *)
Fixpoint scan_backquote (fuel : nat) (word : string) (index : nat) : nat + nat :=
  match fuel with
  | O => inr index
  | S fuel =>
      if bool_decide (String.length word ≤ index)%nat then inr index
      else if byte_is word index backslash then scan_backquote fuel word (index + 2)
      else if byte_is word index backquote then inl index
      else scan_backquote fuel word (S index)
  end.

(** From [index], the parenthesis that closes [depth] open ones. *)
Fixpoint scan_parens (fuel : nat) (word : string) (index depth : nat) (quote : option ascii) : nat + nat :=
  match fuel with
  | O => inr index
  | S fuel =>
      if bool_decide (String.length word ≤ index)%nat then inr index
      else if byte_is word index backslash && negb (bool_decide (quote = Some squote_byte)) then
        scan_parens fuel word (index + 2) depth quote
      else match quote_here word index quote with
      | Some c => scan_parens fuel word (S index) depth (toggle quote c)
      | None =>
          if byte_is word index backquote && bool_decide (quote = None) then
            match scan_backquote (String.length word) word (S index) with
            | inl close => scan_parens fuel word (S close) depth quote
            | inr index => scan_parens fuel word index depth quote
            end
          else if byte_is word index "("%char && bool_decide (quote = None) then
            scan_parens fuel word (S index) (S depth) quote
          else if byte_is word index ")"%char && bool_decide (quote = None) then
            match depth with
            | S (S _ as depth) => scan_parens fuel word (S index) depth quote
            | _ => inl index
            end
          else scan_parens fuel word (S index) depth quote
      end
  end.

(** What an opening delimiter starts: the substitution that ends at [close]. *)
Definition substitution (word : string) (start body close : nat) : run (option CommandSubstitution) :=
  source ← str_slice word body close; Ret (Some (MkSubstitution start (S close) source)).

Fixpoint scan_word (fuel : nat) (word : string) (index : nat) (quote : option ascii)
    : run (option CommandSubstitution) :=
  match fuel with
  | O => NoFuel
  | S fuel =>
      let single := bool_decide (quote = Some squote_byte) in
      if bool_decide (String.length word ≤ index)%nat then Ret None
      else if byte_is word index backslash && negb single then scan_word fuel word (index + 2) quote
      else match quote_here word index quote with
      | Some c => scan_word fuel word (S index) (toggle quote c)
      | None =>
          if byte_is word index backquote && negb single then
            match scan_backquote (String.length word) word (S index) with
            | inl close => substitution word index (S index) close
            | inr index => scan_word fuel word index quote
            end
          else if byte_is word index "$"%char && negb single && byte_is word (S index) "("%char
              && negb (byte_is word (S (S index)) "("%char) then
            match scan_parens (String.length word) word (S (S index)) 1 None with
            | inl close => substitution word index (S (S index)) close
            | inr index => scan_word fuel word index quote
            end
          else scan_word fuel word (S index) quote
      end
  end.

Definition find_command_substitution (word : string) : run (option CommandSubstitution) :=
  scan_word (S (String.length word)) word 0 None.

(** ** Brace expansion *)

Definition MAX_BRACE_WORDS : nat := 1024.
Definition MAX_BRACE_DEPTH : nat := 8.

Definition is_quote (c : string) : bool := bool_decide (c = "'") || bool_decide (c = dquote).
Definition brace_quote (quote : option string) (c : string) : option string :=
  if bool_decide (quote = Some c) then None else match quote with None => Some c | Some _ => quote end.

(** The first active [{], given the character before and the quote the scan is in. *)
Fixpoint open_brace (prev quote : option string) (escaped : bool) (index : nat) (chars : list string) : option nat :=
  match chars with
  | [] => None
  | c :: chars =>
      if escaped then open_brace (Some c) quote false (S index) chars
      else if bool_decide (c = "\") then open_brace (Some c) quote true (S index) chars
      else if is_quote c then open_brace (Some c) (brace_quote quote c) false (S index) chars
      else if bool_decide (c = "{") && bool_decide (quote = None) && negb (bool_decide (prev = Some "$")) then Some index
      else open_brace (Some c) quote false (S index) chars
  end.

Fixpoint close_brace (nested index : nat) (chars : list string) : option nat :=
  match chars with
  | [] => None
  | c :: chars =>
      if bool_decide (c = "{") then close_brace (S nested) (S index) chars
      else if bool_decide (c = "}") then
        match nested with O => Some index | S nested => close_brace nested (S index) chars end
      else close_brace nested (S index) chars
  end.

(** The pieces between top-level commas; no piece when there is no comma. *)
Fixpoint comma_pieces (depth : nat) (s : string) : list string :=
  match s with
  | EmptyString => [""]
  | String c rest =>
      let more depth := match comma_pieces depth rest with [] => [] | piece :: pieces => String c piece :: pieces end in
      if bool_decide (c = "{"%char) then more (S depth)
      else if bool_decide (c = "}"%char) then more (pred depth)
      else if bool_decide (c = ","%char) && bool_decide (depth = 0%nat) then "" :: comma_pieces depth rest
      else more depth
  end.
Definition split_brace_commas (inner : string) : list string :=
  match comma_pieces 0 inner with [_] => [] | pieces => pieces end.

(** The values of a range, [count] at most. *)
Fixpoint range_values (count : nat) (value last step : Z) : list Z :=
  match count with
  | O => []
  | S count =>
      if if 0 <? step then value <=? last else last <=? value
      then value :: range_values count (sat_add_i64 value step) last step else []
  end.

Definition zeros (n : nat) : string := collect (replicate n "0").
(** [format!("{sign}{:0width$}", value.unsigned_abs())]. *)
Definition padded (width : nat) (value : Z) : string :=
  let digits := pretty (Z.abs value) in
  (if value <? 0 then "-" else "") +:+ zeros (width - String.length digits) +:+ digits.

Definition sign_free_length (s : string) : nat := String.length (trim_start_char "-"%char s).

(** [end - start] on [i64], in either build: with overflow checks it panics when the difference does
    not fit, without them it wraps. *)
Definition sub_i64 (overflow_checks : bool) (a b : Z) : run Z :=
  if overflow_checks && negb ((I64_MIN <=? a - b) && (a - b <=? I64_MAX)) then Panic else Ret (wrap64 (a - b)).

Definition number_range (overflow_checks : bool) (first last : string) (start finish : Z) (step : option Z)
    : run (list string) :=
  let width := Nat.max (sign_free_length first) (sign_free_length last) in
  let step := default (if start <=? finish then 1 else -1) step in
  difference ← sub_i64 overflow_checks finish start;
  if negb (Z.sgn difference =? Z.sgn step) && negb (start =? finish) then Ret []
  else Ret (map (padded width) (range_values MAX_BRACE_WORDS start finish step)).

(** The model is of the release profile, which has no overflow checks; there a range is always a
    list ([number_range_release]). *)
Definition OVERFLOW_CHECKS : bool := false.
Definition release_range (first last : string) (start finish : Z) (step : option Z) : list string :=
  match number_range OVERFLOW_CHECKS first last start finish step with Ret range => range | Panic | NoFuel => [] end.

(** Values without a character are passed over; there are 2048 of them. *)
Definition char_range (start finish : Z) (step : option Z) : list string :=
  let step := default (if start <=? finish then 1 else -1) step in
  take MAX_BRACE_WORDS (omap char_from (range_values (MAX_BRACE_WORDS + 2048) start finish step)).

Definition brace_range (first last : string) (step : option Z) : list string :=
  match parse_i64 first, parse_i64 last with
  | Some start, Some finish => release_range first last start finish step
  | _, _ =>
      match utf8_chars first, utf8_chars last with
      | [start], [finish] => char_range (char_value start) (char_value finish) step
      | _, _ => []
      end
  end.

Definition brace_step (text : string) : option Z :=
  match parse_i64 text with Some step => if step =? 0 then None else Some step | None => None end.

Definition brace_alternatives (inner : string) : list string :=
  match split_brace_commas inner with
  | (_ :: _ :: _) as pieces => pieces
  | _ =>
      match split_str ".." inner with
      | [first; last] => brace_range first last None
      | [first; last; step] => brace_range first last (brace_step step)
      | _ => []
      end
  end.

(** The expansions of the alternatives one after the other, up to the limit. *)
Fixpoint gather (expand : string → list string) (prefix suffix : string) (alternatives out : list string) : list string :=
  match alternatives with
  | [] => out
  | alternative :: rest =>
      let out := out ++ expand (prefix +:+ alternative +:+ suffix) in
      if (MAX_BRACE_WORDS <=? length out)%nat then take MAX_BRACE_WORDS out else gather expand prefix suffix rest out
  end.

(** [brace_expand], by the levels still allowed: [MAX_BRACE_DEPTH - depth]. *)
Fixpoint brace_expand (levels : nat) (word : string) : list string :=
  match levels with
  | O => [word]
  | S levels =>
      let chars := utf8_chars word in
      match open_brace None None false 0 chars with
      | None => [word]
      | Some open =>
          match close_brace 0 (S open) (drop (S open) chars) with
          | None => [word]
          | Some close =>
              match brace_alternatives (collect (take (close - S open) (drop (S open) chars))) with
              | [] => [word]
              | alternatives =>
                  gather (brace_expand levels) (collect (take open chars)) (collect (drop (S close) chars))
                    (take MAX_BRACE_WORDS alternatives) []
              end
          end
      end
  end.

(** ** Delimiters *)

(** From the opening delimiter to the one that closes it: the text between and what is left. *)
Fixpoint read_balanced_from (open close : string) (depth : Z) (chars : list string) : string * nat :=
  match chars with
  | [] => ("", 0%nat)
  | c :: chars =>
      let more keep depth :=
        let '(text, n) := read_balanced_from open close depth chars in
        (if keep : bool then c +:+ text else text, S n) in
      if bool_decide (c = open) then more (0 <? depth) (depth + 1)
      else if bool_decide (c = close) then
        if depth =? 1 then ("", 1%nat) else more true (depth - 1)
      else more true depth
  end.
Definition read_balanced (chars : list string) (open close : string) : string * nat :=
  read_balanced_from open close 0 chars.

(** After [((], up to the matching [))]. *)
Fixpoint double_paren_from (depth : nat) (chars : list string) : string * nat :=
  match chars with
  | [] => ("", 0%nat)
  | c :: chars =>
      let more depth := let '(text, n) := double_paren_from depth chars in (c +:+ text, S n) in
      if bool_decide (c = "(") then more (S depth)
      else if bool_decide (c = ")") then
        match depth with
        | S (S _ as depth) => more depth
        | _ => ("", if bool_decide (head chars = Some ")") then 2%nat else 1%nat)
        end
      else more depth
  end.
Definition read_double_paren (chars : list string) : string * nat :=
  let '(text, n) := double_paren_from 1 (drop 2 chars) in (text, (2 + n)%nat).

(** ** Names and subscripts *)

Definition name_part (c : string) : bool := is_ascii_alphanumeric c || bool_decide (c = "_").
Definition name_head (c : string) : bool := is_ascii_alphabetic c || bool_decide (c = "_").

Definition is_name (s : string) : bool :=
  match utf8_chars s with [] => false | c :: chars => name_head c && forallb name_part chars end.

(** [name[subscript]] and nothing after it. *)
Definition parse_subscript (s : string) : option (string * string) :=
  '(name, after) ← split_once "["%char s;
  sub ← strip_suffix "]" after;
  if is_name name then Some (name, sub) else None.

(** [name[subscript]] and what follows. *)
Definition parse_subscript_tail (s : string) : option (string * string * string) :=
  '(name, after) ← split_once "["%char s;
  if is_name name then '(sub, tail) ← split_once "]"%char after; Some (name, sub, tail) else None.

(** ** Patterns *)

Definition regex_specials : list string := ["."; "+"; "("; ")"; "|"; "^"; "$"; "{"; "}"; "\"].

Definition regex_char (c : string) : string :=
  if bool_decide (c = "*") then ".*"
  else if bool_decide (c = "?") then "."
  else if bool_decide (c ∈ regex_specials) then "\" +:+ c
  else c.

Definition glob_to_regex (pat : string) : string := "^" +:+ collect (map regex_char (utf8_chars pat)) +:+ "$".

(** A [[] without a later []] is an ordinary character. *)
Definition is_glob_component (component : string) : bool :=
  str_contains "*" component || str_contains "?" component ||
  match split_once "["%char component with Some (_, after) => str_contains "]" after | None => false end.

Section patterns.
(** [regex::Regex::new(pattern).ok()], and [is_match] of what it compiled. *)
Context (regex : string → option (string → bool)).

(** The characters before the [k]-th and from it on. *)
Definition before (k : nat) (s : string) : string := collect (take k (utf8_chars s)).
Definition after (k : nat) (s : string) : string := collect (drop k (utf8_chars s)).
Definition boundaries (s : string) (from_end : bool) : list nat :=
  let ks := seq 0 (S (length (utf8_chars s))) in if from_end then reverse ks else ks.

Definition strip_prefix_glob (s pat : string) (greedy : bool) : string :=
  match regex (glob_to_regex pat) with
  | None => s
  | Some is_match =>
      match find (λ k, is_match (before k s)) (boundaries s greedy) with Some k => after k s | None => s end
  end.

Definition strip_suffix_glob (s pat : string) (greedy : bool) : string :=
  match regex (glob_to_regex pat) with
  | None => s
  | Some is_match =>
      match find (λ k, is_match (after k s)) (boundaries s (negb greedy)) with Some k => before k s | None => s end
  end.

End patterns.
