(* ===== verification/ExpandTextSpec.v ===== *)
(** * What the text of an expansion becomes

    Brace expansion returns between one and [MAX_BRACE_WORDS] words, none longer than the one it
    started from; the scanner returns a command substitution as it stands in the word; the pattern
    operators remove the shortest or longest matching part. *)

From stdpp Require Import pretty.
From S2P Require Import Prelude.
From S2P Require Import RustStr.
From S2P Require Import Resources.
From S2P Require Import ExpandText.

(** ** Digits *)

Lemma pretty_go_length k x s : (x < 10 ^ N.of_nat k)%N →
  (String.length (pretty_N_go x s) ≤ String.length s + k)%nat.
Proof.
  revert x s. induction k as [|k IH]; intros x s Hx.
  - assert (x = 0%N) as -> by (simpl in Hx; lia). rewrite pretty_N_go_0. lia.
  - destruct (decide (x = 0%N)) as [->|Hne]; [rewrite pretty_N_go_0; lia|].
    rewrite pretty_N_go_step by lia. etrans; [apply IH|simpl; lia].
    rewrite Nat2N.inj_succ, N.pow_succ_r' in Hx. apply N.Div0.div_lt_upper_bound; lia.
Qed.

Lemma pretty_length k z : 0 ≤ z < 10 ^ Z.of_nat k → (0 < k)%nat → (String.length (pretty z) ≤ k)%nat.
Proof.
  intros [H0 Hz] Hk. destruct z as [|p|p]; [simpl; lia| |lia].
  change (pretty (Z.pos p)) with (pretty (N.pos p)). unfold pretty, pretty_N. case_decide; [done|].
  etrans; [apply (pretty_go_length k)|simpl; lia].
  apply N2Z.inj_lt. rewrite N2Z.inj_pow, nat_N_Z. exact Hz.
Qed.

Lemma decimal_value_bound s acc v : decimal_value s acc = Some v → 0 ≤ acc →
  0 ≤ v < (acc + 1) * 10 ^ Z.of_nat (String.length s).
Proof.
  revert acc. induction s as [|c s IH]; intros acc; cbn [decimal_value].
  - intros [= <-] H. simpl. lia.
  - destruct (digit_value c) as [d|] eqn:Hd; [|done]. simpl. intros Hv Hacc.
    assert (0 ≤ d ≤ 9).
    { unfold digit_value in Hd. destruct (digit_code _) eqn:Hc; [|done]. injection Hd as <-.
      unfold digit_code, in_range in Hc. apply andb_true_iff in Hc as [H1 H2].
      apply N.leb_le in H1, H2. lia. }
    apply IH in Hv; [|lia].
    cbn [String.length]. rewrite Nat2Z.inj_succ, Z.pow_succ_r by lia. nia.
Qed.

Lemma trim_start_minus s c rest : s = String c rest → c ≠ "-"%char → trim_start_char "-"%char s = s.
Proof. intros -> Hc. simpl. by rewrite bool_decide_eq_false_2. Qed.

Lemma decimal_no_minus s v : decimal s = Some v → trim_start_char "-"%char s = s.
Proof.
  destruct s as [|c s]; [done|]. unfold decimal. cbn [decimal_value]. destruct (digit_value c) eqn:Hd; [|done].
  intros _. eapply trim_start_minus; [done|]. intros ->. by vm_compute in Hd.
Qed.

Lemma parse_i64_bound s v : parse_i64 s = Some v → Z.abs v < 10 ^ Z.of_nat (sign_free_length s) ∧ (0 < sign_free_length s)%nat.
Proof.
  unfold parse_i64, parse_signed. intros Hp.
  set (sd := match s with String c rest => if bool_decide (c = "+"%char) then (1, rest)
    else if bool_decide (c = "-"%char) then (-1, rest) else (1, s) | _ => (1, s) end) in Hp.
  destruct sd as [sign digits] eqn:Hsd. destruct (decimal digits) as [n|] eqn:Hn; [|done].
  simpl in Hp. case_match; [|done]. injection Hp as <-.
  assert (Hb : 0 ≤ n < 10 ^ Z.of_nat (String.length digits)).
  { destruct digits as [|c d]; [done|]. pose proof (decimal_value_bound _ _ _ Hn). lia. }
  assert (Hl : (0 < String.length digits)%nat) by (destruct digits; [done|simpl; lia]).
  assert (Hd : (String.length digits ≤ sign_free_length s)%nat ∧ (sign = 1 ∨ sign = -1)).
  { unfold sign_free_length. pose proof (decimal_no_minus _ _ Hn) as Hm. subst sd. destruct s as [|c s].
    - injection Hsd as <- <-. auto.
    - repeat case_bool_decide; injection Hsd as <- <-; subst.
      + assert (trim_start_char "-"%char (String "+"%char s) = String "+"%char s) as -> by reflexivity. simpl.
        split; [lia|auto].
      + assert (trim_start_char "-"%char (String "-"%char s) = trim_start_char "-"%char s) as -> by reflexivity.
        rewrite Hm. split; [done|auto].
      + rewrite Hm. split; [done|auto]. }
  destruct Hd as [Hd Hs]. split; [|lia].
  assert (10 ^ Z.of_nat (String.length digits) ≤ 10 ^ Z.of_nat (sign_free_length s)) by (apply Z.pow_le_mono_r; lia).
  destruct Hs as [-> | ->]; lia.
Qed.

(** ** Substrings *)

(** [t] is a part of [s]. *)
Definition part_of (t s : string) : Prop := ∃ a b, s = a +:+ t +:+ b.

Lemma part_length t s : part_of t s → (String.length t ≤ String.length s)%nat.
Proof. intros (a & b & ->). rewrite !length_append. lia. Qed.

Lemma split_once_str_Some pat s l r : split_once_str pat s = Some (l, r) → s = l +:+ pat +:+ r.
Proof.
  revert l. induction s as [|c s IH]; intros l; cbn [split_once_str].
  - destruct (strip_prefix pat "") as [rest|] eqn:Hp; [|done]. intros [= <- <-].
    apply strip_prefix_Some in Hp. by rewrite append_nil_l.
  - destruct (strip_prefix pat (String c s)) as [rest|] eqn:Hp.
    + intros [= <- <-]. apply strip_prefix_Some in Hp. by rewrite append_nil_l.
    + destruct (split_once_str pat s) as [[l' r']|]; [|done]. simpl. intros [= <- <-].
      rewrite append_cons. f_equal. by apply IH.
Qed.

Lemma split_once_Some sep s l r : split_once sep s = Some (l, r) → s = l +:+ String sep r.
Proof.
  revert l. induction s as [|c s IH]; intros l; cbn [split_once]; [done|]. case_bool_decide.
  - subst. by intros [= <- <-].
  - destruct (split_once sep s) as [[l' r']|]; [|done]. simpl. intros [= <- <-].
    rewrite append_cons. f_equal. by apply IH.
Qed.

Lemma string_join_cons sep x y l : String.concat sep (x :: y :: l) = x +:+ sep +:+ String.concat sep (y :: l).
Proof. reflexivity. Qed.

(** Splitting and joining by the separator again. *)
Lemma concat_split fuel pat s : String.concat pat (split_str_fuel fuel pat s) = s.
Proof.
  revert s. induction fuel as [|fuel IH]; intros s; [done|]. cbn [split_str_fuel].
  destruct (split_once_str pat s) as [[l r]|] eqn:Hs; [|done]. apply split_once_str_Some in Hs as ->.
  specialize (IH r). destruct (split_str_fuel fuel pat r) as [|x xs] eqn:Hx.
  - destruct fuel; cbn [split_str_fuel] in Hx; [done|]. by repeat case_match.
  - rewrite string_join_cons, IH. done.
Qed.

Lemma concat_part sep l x : x ∈ l → part_of x (String.concat sep l).
Proof.
  induction 1 as [x l|x y l H (a & b & IH)].
  - destruct l as [|z l]; cbn [String.concat].
    + exists "", "". by rewrite append_nil_l, append_nil_r.
    + exists "". eexists. rewrite append_nil_l. reflexivity.
  - destruct l as [|z l]; [by apply not_elem_of_nil in H|]. rewrite string_join_cons, IH.
    exists (y +:+ sep +:+ a), b. by rewrite !append_assoc.
Qed.

Lemma split_str_part pat s x : x ∈ split_str pat s → part_of x s.
Proof. intros Hx. rewrite <-(concat_split (String.length s) pat s). by apply concat_part. Qed.

Lemma comma_pieces_bound depth s :
  ∃ p ps, comma_pieces depth s = p :: ps ∧ Forall (λ x, (String.length x ≤ String.length s)%nat) (p :: ps).
Proof.
  revert depth. induction s as [|c s IH]; intros depth; cbn [comma_pieces]; [by eexists _, _; repeat constructor|].
  assert (Hmore : ∀ d, ∃ p ps, match comma_pieces d s with [] => [] | piece :: pieces => String c piece :: pieces end = p :: ps ∧
    Forall (λ x, (String.length x ≤ String.length (String c s))%nat) (p :: ps)).
  { intros d. destruct (IH d) as (p & ps & -> & [Hp Hps]%Forall_cons). eexists _, _. split; [done|].
    constructor; [simpl; lia|]. eapply Forall_impl; [exact Hps|]. simpl. intros. lia. }
  cbv zeta. destruct (bool_decide (c = "{"%char)); [apply Hmore|]. destruct (bool_decide (c = "}"%char)); [apply Hmore|].
  destruct (_ && _); [|apply Hmore]. destruct (IH depth) as (p & ps & -> & Hf). eexists _, _. split; [done|].
  constructor; [simpl; lia|]. eapply Forall_impl; [exact Hf|]. simpl. intros. lia.
Qed.

Lemma split_brace_commas_bound inner x : x ∈ split_brace_commas inner → (String.length x ≤ String.length inner)%nat.
Proof.
  unfold split_brace_commas. destruct (comma_pieces_bound 0 inner) as (p & ps & -> & Hf).
  destruct ps; [by intros ?%not_elem_of_nil|]. rewrite Forall_forall in Hf. apply Hf.
Qed.

(** ** Ranges *)

Lemma range_between count value last step z : in_i64 value → z ∈ range_values count value last step →
  Z.min value last ≤ z ≤ Z.max value last.
Proof.
  revert value. induction count as [|count IH]; intros value Hv; cbn [range_values]; [by intros ?%not_elem_of_nil|].
  destruct (if 0 <? step then _ else _) eqn:Ht; [|by intros ?%not_elem_of_nil].
  assert (Hi : in_i64 (sat_add_i64 value step)) by (unfold in_i64, sat_add_i64 in *; pose proof (eq_refl : I64_MIN = -9223372036854775808); pose proof (eq_refl : I64_MAX = 9223372036854775807); lia).
  intros [-> | Hz]%elem_of_cons; [lia|]. specialize (IH _ Hi Hz).
  assert (Hs : if 0 <? step then value ≤ sat_add_i64 value step else sat_add_i64 value step ≤ value).
  { unfold in_i64, sat_add_i64 in *. destruct (0 <? step) eqn:Hs; bool_to_prop; lia. }
  destruct count as [|count]; [by apply not_elem_of_nil in Hz|]. cbn [range_values] in Hz.
  destruct (0 <? step) eqn:Hs'; bool_to_prop.
  - destruct (sat_add_i64 value step <=? last) eqn:Hl; [|by apply not_elem_of_nil in Hz]. bool_to_prop. lia.
  - destruct (last <=? sat_add_i64 value step) eqn:Hl; [|by apply not_elem_of_nil in Hz]. bool_to_prop. lia.
Qed.

Lemma range_count count value last step : (length (range_values count value last step) ≤ count)%nat.
Proof.
  revert value. induction count as [|count IH]; intros value; cbn [range_values]; [done|].
  destruct (if 0 <? step then _ else _); simpl; [|lia]. specialize (IH (sat_add_i64 value step)). lia.
Qed.

Lemma zeros_length n : String.length (zeros n) = n.
Proof. unfold zeros. induction n as [|n IH]; [done|]. cbn [replicate]. rewrite collect_cons, length_append, IH. reflexivity. Qed.

Lemma padded_length width v : Z.abs v < 10 ^ Z.of_nat width → (0 < width)%nat →
  (String.length (padded width v) ≤ S width)%nat.
Proof.
  intros Hv Hw. unfold padded. pose proof (pretty_length width (Z.abs v) ltac:(lia) Hw).
  rewrite !length_append, zeros_length. destruct (v <? 0); simpl String.length; lia.
Qed.

Lemma parse_i64_in s v : parse_i64 s = Some v → in_i64 v.
Proof.
  unfold parse_i64, parse_signed. set (sd := match s with String _ _ => _ | _ => _ end). destruct sd as [sign digits].
  destruct (decimal digits) as [n|]; [|done]. simpl. destruct (_ && _) eqn:Hb; [|done].
  intros [= <-]. bool_to_prop. unfold in_i64. lia.
Qed.

Lemma sign_free_bound s : (sign_free_length s ≤ String.length s)%nat.
Proof.
  unfold sign_free_length. induction s as [|c s IH]; [done|]. cbn [trim_start_char]. case_bool_decide; simpl; lia.
Qed.

(** Without overflow checks a range is a list; with them it is the same list, or a panic exactly when
    the difference of the bounds does not fit. *)
Lemma number_range_release first last start finish step :
  number_range OVERFLOW_CHECKS first last start finish step = Ret (release_range first last start finish step).
Proof. unfold release_range, number_range. cbv zeta. cbn [mbind run_bind sub_i64 OVERFLOW_CHECKS andb]. by destruct (_ && _). Qed.

Lemma number_range_checked first last start finish step :
  number_range true first last start finish step =
    if decide (in_i64 (finish - start)) then Ret (release_range first last start finish step) else Panic.
Proof.
  rewrite <-number_range_release. unfold number_range, sub_i64, in_i64. cbv zeta. cbn [andb OVERFLOW_CHECKS].
  destruct (Z.leb_spec I64_MIN (finish - start)), (Z.leb_spec (finish - start) I64_MAX); cbn [andb negb];
    case_decide; (done || lia).
Qed.

Lemma release_range_elem first last start finish step x : in_i64 start →
  x ∈ release_range first last start finish step →
  ∃ v, x = padded (Nat.max (sign_free_length first) (sign_free_length last)) v ∧
    Z.min start finish ≤ v ≤ Z.max start finish.
Proof.
  intros Hs. unfold release_range, number_range. generalize MAX_BRACE_WORDS. intros count. cbv zeta.
  cbn [mbind run_bind sub_i64 OVERFLOW_CHECKS andb].
  destruct (_ && _); [by intros ?%not_elem_of_nil|].
  intros (v & -> & Hv)%list_elem_of_fmap. exists v. split; [done|]. by apply range_between in Hv.
Qed.

Lemma release_range_bound first last start finish step x :
  parse_i64 first = Some start → parse_i64 last = Some finish → x ∈ release_range first last start finish step →
  (String.length x ≤ S (Nat.max (String.length first) (String.length last)))%nat.
Proof.
  intros Hs Hf (v & -> & Hv)%release_range_elem; [|by eapply parse_i64_in].
  pose proof (parse_i64_bound _ _ Hs) as [Hs1 Hs2]. pose proof (parse_i64_bound _ _ Hf) as [Hf1 Hf2].
  pose proof (sign_free_bound first). pose proof (sign_free_bound last). revert Hv Hs1 Hs2 Hf1 Hf2 H H0.
  generalize (sign_free_length first) (sign_free_length last). intros n m Hv Hs1 Hs2 Hf1 Hf2 Hn Hm.
  assert (10 ^ Z.of_nat n ≤ 10 ^ Z.of_nat (Nat.max n m)) by (apply Z.pow_le_mono_r; lia).
  assert (10 ^ Z.of_nat m ≤ 10 ^ Z.of_nat (Nat.max n m)) by (apply Z.pow_le_mono_r; lia).
  etrans; [apply padded_length; lia|]. lia.
Qed.

Lemma of_bytes_length codes : String.length (of_bytes codes) = length codes.
Proof. unfold of_bytes, utf8. induction codes as [|c codes IH]; [done|]. simpl. by rewrite IH. Qed.

Lemma char_from_length z c : char_from z = Some c → (String.length c ≤ 4)%nat.
Proof.
  unfold char_from. case_match; [done|]. intros [= <-]. rewrite of_bytes_length. repeat case_match; simpl; lia.
Qed.

(** ** Brace expansion *)

Lemma split_str_two pat s x y l : split_str pat s = x :: y :: l →
  (String.length pat ≤ String.length s)%nat.
Proof.
  unfold split_str. destruct (String.length s) as [|n] eqn:Hn; [done|]. cbn [split_str_fuel].
  destruct (split_once_str pat s) as [[a b]|] eqn:Hs; [|done]. apply split_once_str_Some in Hs. intros _.
  apply (f_equal String.length) in Hs. rewrite !length_append, Hn in Hs. lia.
Qed.

Lemma elem_of_take_in {A} (x : A) n l : x ∈ take n l → x ∈ l.
Proof. intros (i & Hi & _)%elem_of_take. by eapply list_elem_of_lookup_2. Qed.

Lemma brace_range_bound inner first last step x :
  part_of first inner → part_of last inner → (2 ≤ String.length inner)%nat → x ∈ brace_range first last step →
  (String.length x ≤ String.length inner + 2)%nat.
Proof.
  intros Hf%part_length Hl%part_length Hi. unfold brace_range.
  assert (Hchars : x ∈ match utf8_chars first, utf8_chars last with
      | [start], [finish] => char_range (char_value start) (char_value finish) step | _, _ => [] end →
    (String.length x ≤ String.length inner + 2)%nat).
  { destruct (utf8_chars first) as [|? []], (utf8_chars last) as [|? []]; try by intros ?%not_elem_of_nil.
    unfold char_range. cbv zeta. intros (v & _ & Hv%char_from_length)%elem_of_take_in%list_elem_of_omap. lia. }
  destruct (parse_i64 first) as [start|] eqn:Hs; [|done]. destruct (parse_i64 last) as [finish|] eqn:Hfin; [|done].
  intros Hx. pose proof (release_range_bound _ _ _ _ _ _ Hs Hfin Hx). lia.
Qed.

Lemma brace_alternatives_bound inner x : x ∈ brace_alternatives inner →
  (String.length x ≤ String.length inner + 2)%nat.
Proof.
  unfold brace_alternatives. pose proof (split_brace_commas_bound inner x) as Hc.
  assert (Hr : x ∈ match split_str ".." inner with
    | [first; last] => brace_range first last None
    | [first; last; step] => brace_range first last (brace_step step) | _ => [] end →
    (String.length x ≤ String.length inner + 2)%nat).
  { pose proof (split_str_part ".." inner) as Hp. destruct (split_str ".." inner) as [|f [|l rest]] eqn:Hs;
      try by intros ?%not_elem_of_nil.
    pose proof (split_str_two _ _ _ _ _ Hs) as Hi. simpl in Hi.
    assert (part_of f inner) by (apply Hp; by left). assert (part_of l inner) by (apply Hp; right; by left).
    destruct rest as [|step [|]]; [| |by intros ?%not_elem_of_nil]; by apply brace_range_bound. }
  destruct (split_brace_commas inner) as [|? []]; try exact Hr. intros Hx. specialize (Hc Hx). lia.
Qed.

Lemma open_brace_at prev quote escaped index chars i : open_brace prev quote escaped index chars = Some i →
  (index ≤ i)%nat ∧ chars !! (i - index)%nat = Some "{".
Proof.
  revert prev quote escaped index. induction chars as [|c chars IH]; intros prev quote escaped index; [done|].
  cbn [open_brace].
  assert (Hn : ∀ q e, open_brace (Some c) q e (S index) chars = Some i →
    (index ≤ i)%nat ∧ (c :: chars) !! (i - index)%nat = Some "{").
  { intros q e [Hle Hc]%IH. split; [lia|]. by replace (i - index)%nat with (S (i - S index)) by lia. }
  destruct escaped; [apply Hn|]. destruct (bool_decide (c = "\")); [apply Hn|]. destruct (is_quote c); [apply Hn|].
  destruct (bool_decide (c = "{")) eqn:Hc; [|apply Hn]. destruct (_ && _); [|apply Hn].
  intros [= <-]. split; [done|]. rewrite Nat.sub_diag. bool_to_prop. by subst.
Qed.

Lemma close_brace_at nested index chars i : close_brace nested index chars = Some i →
  (index ≤ i)%nat ∧ chars !! (i - index)%nat = Some "}".
Proof.
  revert nested index. induction chars as [|c chars IH]; intros nested index; [done|]. cbn [close_brace].
  assert (Hn : ∀ n, close_brace n (S index) chars = Some i →
    (index ≤ i)%nat ∧ (c :: chars) !! (i - index)%nat = Some "}").
  { intros n [Hle Hc]%IH. split; [lia|]. by replace (i - index)%nat with (S (i - S index)) by lia. }
  destruct (bool_decide (c = "{")); [apply Hn|]. destruct (bool_decide (c = "}")) eqn:Hc; [|apply Hn].
  destruct nested; [|apply Hn]. intros [= <-]. split; [done|]. rewrite Nat.sub_diag. bool_to_prop. by subst.
Qed.

(** A word cut at its first brace pair. *)
Lemma brace_cut word open close :
  open_brace None None false 0 (utf8_chars word) = Some open →
  close_brace 0 (S open) (drop (S open) (utf8_chars word)) = Some close →
  let chars := utf8_chars word in
  String.length word = (String.length (collect (take open chars)) + 1 +
    String.length (collect (take (close - S open) (drop (S open) chars))) + 1 +
    String.length (collect (drop (S close) chars)))%nat.
Proof.
  intros [_ Ho]%open_brace_at [Hle Hc]%close_brace_at. cbv zeta. rewrite Nat.sub_0_r in Ho.
  rewrite lookup_drop in Hc. replace (S open + (close - S open))%nat with close in Hc by lia.
  rewrite <-(collect_utf8_chars word) at 1. set (chars := utf8_chars word) in *.
  rewrite <-(take_drop open chars) at 1. rewrite (drop_S chars _ open Ho), collect_app, collect_cons.
  rewrite <-(take_drop (close - S open) (drop (S open) chars)) at 1. rewrite drop_drop.
  replace (S open + (close - S open))%nat with close by lia.
  rewrite (drop_S chars _ close Hc), collect_app, collect_cons, !length_append.
  change (String.length "{") with 1%nat. change (String.length "}") with 1%nat. lia.
Qed.

Lemma gather_elem expand prefix suffix alternatives out x : x ∈ gather expand prefix suffix alternatives out →
  x ∈ out ∨ ∃ a, a ∈ alternatives ∧ x ∈ expand (prefix +:+ a +:+ suffix).
Proof.
  revert out. induction alternatives as [|a alts IH]; intros out; cbn [gather]; [auto|]. cbv zeta. intros Hx.
  assert (Hin : x ∈ out ++ expand (prefix +:+ a +:+ suffix) ∨
    ∃ a, a ∈ alts ∧ x ∈ expand (prefix +:+ a +:+ suffix)).
  { destruct (_ <=? _)%nat; [left; by eapply elem_of_take_in|by apply IH]. }
  destruct Hin as [[?|?]%elem_of_app|(a' & ? & ?)]; [by left|right; exists a|right; exists a']; by split; [constructor|].
Qed.

Lemma gather_length expand prefix suffix alternatives out :
  (length out ≤ MAX_BRACE_WORDS)%nat → (∀ w, expand w ≠ []) → alternatives ≠ [] ∨ out ≠ [] →
  (0 < length (gather expand prefix suffix alternatives out) ≤ MAX_BRACE_WORDS)%nat.
Proof.
  intros Ho He. assert (0 < MAX_BRACE_WORDS)%nat by (unfold MAX_BRACE_WORDS; lia).
  revert out Ho. induction alternatives as [|a alts IH]; intros out Ho; cbn [gather].
  { intros [?|Hne]; [done|]. destruct out; [done|simpl in *; lia]. }
  intros _. cbv zeta. set (out' := out ++ _).
  assert (out' ≠ []) by (unfold out'; intros [_ ?%He]%app_nil; done).
  destruct (MAX_BRACE_WORDS <=? length out')%nat eqn:Hl.
  - apply Nat.leb_le in Hl. rewrite length_take. lia.
  - apply Nat.leb_gt in Hl. apply IH; [lia|by right].
Qed.

Lemma brace_expand_shorter levels word x : x ∈ brace_expand levels word → (String.length x ≤ String.length word)%nat.
Proof.
  revert word x. induction levels as [|levels IH]; intros word x; cbn [brace_expand]; [by intros ->%list_elem_of_singleton|].
  cbv zeta. destruct (open_brace _ _ _ _ _) as [open|] eqn:Ho; [|by intros ->%list_elem_of_singleton].
  destruct (close_brace _ _ _) as [close|] eqn:Hc; [|by intros ->%list_elem_of_singleton].
  pose proof (brace_cut _ _ _ Ho Hc) as Hcut. cbv zeta in Hcut.
  set (inner := collect (take (close - S open) _)) in *. pose proof (brace_alternatives_bound inner) as Hb.
  destruct (brace_alternatives inner) as [|a alts]; [by intros ->%list_elem_of_singleton|].
  intros [?%not_elem_of_nil|(b & Hin%elem_of_take_in%Hb & Hx%IH)]%gather_elem; [done|].
  rewrite !length_append in Hx. lia.
Qed.

Lemma brace_expand_count levels word : (0 < length (brace_expand levels word) ≤ MAX_BRACE_WORDS)%nat.
Proof.
  assert (1 ≤ MAX_BRACE_WORDS)%nat by (unfold MAX_BRACE_WORDS; lia).
  revert word. induction levels as [|levels IH]; intros word; cbn [brace_expand]; [simpl; lia|]. cbv zeta.
  destruct (open_brace _ _ _ _ _); [|simpl; lia]. destruct (close_brace _ _ _); [|simpl; lia].
  destruct (brace_alternatives _) as [|a alts]; [simpl; lia|]. apply gather_length; [simpl; lia| |].
  - intros w Hw. specialize (IH w). rewrite Hw in IH. simpl in IH. lia.
  - left. by destruct MAX_BRACE_WORDS; [lia|].
Qed.

(** ** Command substitutions *)

(** A byte of UTF-8 text that continues a character follows a byte of the same character. *)
Definition well_encoded (s : string) : Prop :=
  starts_inside_char s = false ∧
  ∀ i c d, String.get i s = Some c → String.get (S i) s = Some d → is_continuation d = true →
    (128 <= Ascii.N_of_ascii c)%N.

Lemma take_drop_str n s : (n ≤ String.length s)%nat → str_take n s +:+ str_drop n s = s.
Proof.
  unfold str_take. revert s. induction n as [|n IH]; intros s Hn; [by destruct s|].
  destruct s as [|c s]; simpl in Hn; [lia|]. cbn [String.substring str_drop]. rewrite append_cons, IH by lia. done.
Qed.

Lemma length_str_take n s : (n ≤ String.length s)%nat → String.length (str_take n s) = n.
Proof.
  unfold str_take. revert s. induction n as [|n IH]; intros s Hn; [by destruct s|].
  destruct s as [|c s]; simpl in Hn; [lia|]. cbn [String.substring String.length]. by rewrite IH by lia.
Qed.

Lemma str_drop_drop n m s : str_drop n (str_drop m s) = str_drop (m + n) s.
Proof. revert s. induction m as [|m IH]; intros s; [done|]. destruct s as [|c s]; [by destruct n|]. simpl. apply IH. Qed.

Lemma length_str_drop n s : String.length (str_drop n s) = (String.length s - n)%nat.
Proof. revert s. induction n as [|n IH]; intros s; [simpl; lia|]. destruct s as [|c s]; simpl; [lia|apply IH]. Qed.

Lemma str_drop_get i c s : String.get i s = Some c → str_drop i s = String c (str_drop (S i) s).
Proof. revert s. induction i as [|i IH]; intros s; destruct s as [|b s]; simpl; try done; [by intros [= ->]|]. apply IH. Qed.

Lemma get_length i c s : String.get i s = Some c → (i < String.length s)%nat.
Proof. revert s. induction i as [|i IH]; intros s; destruct s as [|b s]; simpl; try done; [lia|]. intros ?%IH. lia. Qed.

Lemma byte_is_get word i c : byte_is word i c = true → String.get i word = Some c.
Proof. unfold byte_is. apply bool_decide_eq_true. Qed.

(** The byte after one below 128 starts a character, as does the one itself. *)
Lemma boundary_at word i c : String.get i word = Some c → (Ascii.N_of_ascii c < 128)%N → is_char_boundary word i = true.
Proof.
  intros Hc Ha. unfold is_char_boundary. destruct i; [done|]. rewrite Hc. unfold is_continuation.
  by rewrite (proj2 (N.leb_gt 128 _)).
Qed.

Lemma boundary_after word i c : well_encoded word → String.get i word = Some c → (Ascii.N_of_ascii c < 128)%N →
  is_char_boundary word (S i) = true.
Proof.
  intros [_ Hw] Hc Ha. unfold is_char_boundary. destruct (String.get (S i) word) as [d|] eqn:Hd.
  - destruct (is_continuation d) eqn:Hi; [|done]. specialize (Hw _ _ _ Hc Hd Hi). lia.
  - apply bool_decide_eq_true_2. clear -Hc Hd. revert word Hc Hd.
    induction i as [|i IH]; intros [|b word]; simpl; try done; [by destruct word|]. intros Hc Hd. f_equal. by apply IH.
Qed.

Lemma scan_backquote_spec fuel word index : (String.length word ≤ index + fuel)%nat →
  match scan_backquote fuel word index with
  | inl close => (index ≤ close)%nat ∧ byte_is word close backquote = true
  | inr stop => (String.length word ≤ stop)%nat
  end.
Proof.
  revert index. induction fuel as [|fuel IH]; intros index Hf; cbn [scan_backquote]; [lia|].
  case_bool_decide; [done|]. destruct (byte_is word index backslash).
  { specialize (IH (index + 2)%nat ltac:(lia)). destruct (scan_backquote _ _ _); [destruct IH; split; [lia|done]|done]. }
  destruct (byte_is word index backquote) eqn:Hb; [done|].
  specialize (IH (S index) ltac:(lia)). destruct (scan_backquote _ _ _); [destruct IH; split; [lia|done]|done].
Qed.

Lemma scan_parens_spec fuel word index depth quote : (String.length word ≤ index + fuel)%nat →
  match scan_parens fuel word index depth quote with
  | inl close => (index ≤ close)%nat ∧ byte_is word close ")"%char = true
  | inr stop => (String.length word ≤ stop)%nat
  end.
Proof.
  revert index depth quote. induction fuel as [|fuel IH]; intros index depth quote Hf; cbn [scan_parens]; [lia|].
  case_bool_decide; [done|].
  assert (Hn : ∀ i d q, (index < i)%nat → match scan_parens fuel word i d q with
    | inl close => (index ≤ close)%nat ∧ byte_is word close ")"%char = true
    | inr stop => (String.length word ≤ stop)%nat end).
  { intros i d q Hi. specialize (IH i d q ltac:(lia)). destruct (scan_parens _ _ _ _ _); [destruct IH; split; [lia|done]|done]. }
  destruct (_ && _); [apply Hn; lia|]. destruct (quote_here word index quote); [apply Hn; lia|].
  destruct (_ && _).
  { pose proof (scan_backquote_spec (String.length word) word (S index) ltac:(lia)) as Hb.
    destruct (scan_backquote _ _ _) as [close|stop]; [apply Hn; lia|apply Hn; lia]. }
  destruct (_ && _); [apply Hn; lia|]. destruct (byte_is word index ")"%char && _) eqn:Hp; [|apply Hn; lia].
  apply andb_true_iff in Hp as [Hp _]. destruct depth as [|[|depth]]; [by split|by split|apply Hn; lia].
Qed.

(** Where a substitution stands in its word. *)
Definition stands_in (word : string) (cs : CommandSubstitution) : Prop :=
  ∃ opening closing, (opening, closing) ∈ [("$(", ")"); ("`", "`")] ∧
    word = str_take (cs_start cs) word +:+ opening +:+ cs_source cs +:+ closing +:+ str_drop (cs_end cs) word ∧
    (cs_start cs < cs_end cs ≤ String.length word)%nat.

Lemma slice_between word body close c : String.get close word = Some c → (body ≤ close)%nat →
  str_drop body word = str_take (close - body) (str_drop body word) +:+ String c "" +:+ str_drop (S close) word.
Proof.
  intros Hc Hle. pose proof (get_length _ _ _ Hc).
  rewrite <-(take_drop_str (close - body) (str_drop body word)) at 1 by (rewrite length_str_drop; lia).
  rewrite str_drop_drop. replace (body + (close - body))%nat with close by lia. by rewrite (str_drop_get _ _ _ Hc).
Qed.

Lemma substitution_spec word start opening closing body close :
  well_encoded word → (start ≤ String.length word)%nat → str_drop start word = opening +:+ str_drop body word →
  (opening, String closing "") ∈ [("$(", ")"); ("`", "`")] →
  is_char_boundary word body = true → String.get close word = Some closing → (start < body ≤ close)%nat →
  ∃ cs, substitution word start body close = Ret (Some cs) ∧ stands_in word cs.
Proof.
  intros Hw Hs Hd Ho Hb Hc [Hsb Hbc]. pose proof (get_length _ _ _ Hc) as Hl.
  assert (Ha : (Ascii.N_of_ascii closing < 128)%N).
  { apply elem_of_cons in Ho as [[= _ ->]|Ho]; [done|]. apply list_elem_of_singleton in Ho as [= _ ->]. done. }
  unfold substitution, str_slice. rewrite bool_decide_eq_true_2 by lia. rewrite Hb, (boundary_at _ _ _ Hc Ha).
  cbn. eexists. split; [reflexivity|]. exists opening, (String closing ""). cbn [cs_start cs_end cs_source].
  split; [done|]. split; [|lia]. rewrite <-(take_drop_str start word) at 1 by done. rewrite Hd.
  by rewrite (slice_between _ _ _ _ Hc Hbc) at 1.
Qed.

Lemma scan_word_spec fuel word index quote : well_encoded word → (String.length word - index < fuel)%nat →
  ∃ r, scan_word fuel word index quote = Ret r ∧ ∀ cs, r = Some cs → stands_in word cs.
Proof.
  intros Hw. revert index quote. induction fuel as [|fuel IH]; intros index quote Hf; [lia|]. cbn [scan_word].
  case_bool_decide as Hi; [by eexists|]. cbv zeta.
  assert (Hfound : ∀ r, (∃ cs, r = Ret (Some cs) ∧ stands_in word cs) → ∃ r', r = Ret r' ∧ ∀ cs, r' = Some cs → stands_in word cs).
  { intros r (cs & -> & Hcs). eexists. split; [done|]. by intros ? [= <-]. }
  destruct (_ && _); [apply IH; lia|]. destruct (quote_here word index quote); [apply IH; lia|].
  destruct (byte_is word index backquote && _) eqn:Hb.
  { apply andb_true_iff in Hb as [Hb%byte_is_get _].
    pose proof (scan_backquote_spec (String.length word) word (S index) ltac:(lia)) as Hs.
    destruct (scan_backquote _ _ _) as [close|stop]; [|apply IH; lia]. destruct Hs as [Hle Hc%byte_is_get].
    apply Hfound. apply (substitution_spec _ _ "`" backquote); [done|lia|by rewrite (str_drop_get _ _ _ Hb)|by right; left| |done|lia].
    by eapply boundary_after. }
  destruct (_ && _ && byte_is word (S index) "("%char && _) eqn:Hp; [|apply IH; lia].
  apply andb_true_iff in Hp as [[[Hd%byte_is_get _]%andb_true_iff Hp%byte_is_get]%andb_true_iff _].
  pose proof (scan_parens_spec (String.length word) word (S (S index)) 1 None ltac:(lia)) as Hs.
  destruct (scan_parens _ _ _ _ _) as [close|stop]; [|apply IH; lia]. destruct Hs as [Hle Hc%byte_is_get].
  apply Hfound. apply (substitution_spec _ _ "$(" ")"%char); [done|lia| |by left| |done|lia].
  - by rewrite (str_drop_get _ _ _ Hd), (str_drop_get _ _ _ Hp).
  - by eapply boundary_after.
Qed.

(** ** Removing a matching part *)

(** [t] is what is left of [s] without the part [x] that matches, or [s] when none does; [better y x]
    when the operator prefers [y]. *)
Definition removed_prefix (is_match : string → bool) (better : nat → nat → Prop) (s t : string) : Prop :=
  let n := length (utf8_chars s) in
  (t = s ∧ ∀ k, (k ≤ n)%nat → is_match (before k s) = false) ∨
  (∃ k, (k ≤ n)%nat ∧ s = before k s +:+ t ∧ is_match (before k s) = true ∧
     ∀ j, (j ≤ n)%nat → better j k → is_match (before j s) = false).
Definition removed_suffix (is_match : string → bool) (better : nat → nat → Prop) (s t : string) : Prop :=
  let n := length (utf8_chars s) in
  (t = s ∧ ∀ k, (k ≤ n)%nat → is_match (after k s) = false) ∨
  (∃ k, (k ≤ n)%nat ∧ s = t +:+ after k s ∧ is_match (after k s) = true ∧
     ∀ j, (j ≤ n)%nat → better j k → is_match (after j s) = false).

Lemma before_after k s : before k s +:+ after k s = s.
Proof. unfold before, after. by rewrite <-collect_app, take_drop, collect_utf8_chars. Qed.

(** The first index that passes, going up or down. *)
Lemma find_boundary (f : nat → bool) s (from_end : bool) :
  match find f (boundaries s from_end) with
  | Some k => (k ≤ length (utf8_chars s))%nat ∧ f k = true ∧
      ∀ j, (j ≤ length (utf8_chars s))%nat → (if from_end then k < j else j < k)%nat → f j = false
  | None => ∀ k, (k ≤ length (utf8_chars s))%nat → f k = false
  end.
Proof.
  unfold boundaries. set (n := length (utf8_chars s)). cbv zeta.
  assert (Hup : ∀ a m, match find f (seq a m) with
    | Some k => (a ≤ k < a + m)%nat ∧ f k = true ∧ ∀ j, (a ≤ j < k)%nat → f j = false
    | None => ∀ k, (a ≤ k < a + m)%nat → f k = false end).
  { intros a m. revert a. induction m as [|m IH]; intros a; cbn [seq find]; [intros; lia|].
    destruct (f a) eqn:Ha; [split; [lia|]; split; [done|intros; lia]|]. specialize (IH (S a)).
    destruct (find f (seq (S a) m)) as [k|].
    - destruct IH as (? & ? & Hj). split; [lia|]. split; [done|]. intros j ?. destruct (decide (j = a)) as [->|]; [done|].
      apply Hj. lia.
    - intros k ?. destruct (decide (k = a)) as [->|]; [done|]. apply IH. lia. }
  assert (Hdown : ∀ m, match find f (reverse (seq 0 m)) with
    | Some k => (k < m)%nat ∧ f k = true ∧ ∀ j, (k < j < m)%nat → f j = false
    | None => ∀ k, (k < m)%nat → f k = false end).
  { intros m. induction m as [|m IH]; [simpl; intros; lia|]. rewrite seq_S, reverse_app. simpl.
    destruct (f m) eqn:Hm; [split_and!; [lia|done|intros; lia]|]. destruct (find f (reverse (seq 0 m))) as [k|].
    - destruct IH as (? & ? & Hj). split_and!; [lia|done|]. intros j ?. destruct (decide (j = m)) as [->|]; [done|].
      apply Hj. lia.
    - intros k ?. destruct (decide (k = m)) as [->|]; [done|]. apply IH. lia. }
  destruct from_end.
  - specialize (Hdown (S n)). destruct (find f _) as [k|].
    + destruct Hdown as (? & ? & Hj). split_and!; [lia|done|]. intros j ??. apply Hj. lia.
    + intros k ?. apply Hdown. lia.
  - specialize (Hup 0%nat (S n)). destruct (find f _) as [k|].
    + destruct Hup as (? & ? & Hj). split_and!; [lia|done|]. intros j ??. apply Hj. lia.
    + intros k ?. apply Hup. lia.
Qed.

(** Brace expansion is bounded: whatever the word, it becomes between one and 1024 words, none
    longer than the word itself, and each a word that nests no deeper; a word without an active
    brace pair stays as it is. *)
Theorem brace_expand_bounded levels word :
  (1 ≤ length (brace_expand levels word) ≤ 1024)%nat ∧
  (∀ x, x ∈ brace_expand levels word → (String.length x ≤ String.length word)%nat) ∧
  (open_brace None None false 0 (utf8_chars word) = None → brace_expand levels word = [word]).
Proof.
  pose proof (brace_expand_count levels word) as Hc. split; [exact Hc|]. split; [apply brace_expand_shorter|].
  intros Ho. destruct levels; [done|]. cbn [brace_expand]. cbv zeta. by rewrite Ho.
Qed.

(** C35: The scanner for command substitutions never fails on well-encoded text, and a substitution it
    reports stands in the word: the text before it, an opening delimiter, the source, the closing
    delimiter and the text after it are the word. *)
Theorem find_command_substitution_stands word : well_encoded word →
  ∃ r, find_command_substitution word = Ret r ∧
    ∀ cs, r = Some cs → stands_in word cs ∧ (String.length (cs_source cs) < String.length word)%nat.
Proof.
  intros Hw. destruct (scan_word_spec (S (String.length word)) word 0 None Hw ltac:(lia)) as (r & Hr & Hcs).
  exists r. split; [exact Hr|]. intros cs Hc. split; [by apply Hcs|].
  destruct (Hcs cs Hc) as (o & c & Ho & He & _). apply (f_equal String.length) in He. rewrite !length_append in He.
  assert (1 ≤ String.length o)%nat; [|lia].
  apply elem_of_cons in Ho as [[= -> _]|Ho]; [simpl; lia|]. apply list_elem_of_singleton in Ho as [= -> _]. simpl. lia.
Qed.

Lemma find_command_substitution_stands_witness :
  ∃ r, find_command_substitution "a'$(no)'$(b (c))d" = Ret r ∧
    ∀ cs, r = Some cs → stands_in "a'$(no)'$(b (c))d" cs ∧ (String.length (cs_source cs) < String.length "a'$(no)'$(b (c))d")%nat.
Proof.
  apply find_command_substitution_stands. split; [done|]. intros i c d Hc Hd Hi. exfalso.
  do 16 (destruct i as [|i]; [simpl in Hd; injection Hd as <-; by vm_compute in Hi|]). simpl in Hd. by destruct i.
Defined.

(** C36: The pattern operators of a parameter remove what they promise: [#] and [##] the shortest and
    the longest matching prefix, [%] and [%%] the shortest and the longest matching suffix, cut
    between characters, and nothing when no part matches or the pattern does not compile. *)
Theorem strip_glob_removes_best regex s pat greedy :
  (∀ is_match, regex (glob_to_regex pat) = Some is_match →
     removed_prefix is_match (if greedy : bool then λ j k, (k < j)%nat else λ j k, (j < k)%nat) s
       (strip_prefix_glob regex s pat greedy) ∧
     removed_suffix is_match (if greedy then λ j k, (j < k)%nat else λ j k, (k < j)%nat) s
       (strip_suffix_glob regex s pat greedy)) ∧
  (regex (glob_to_regex pat) = None →
     strip_prefix_glob regex s pat greedy = s ∧ strip_suffix_glob regex s pat greedy = s).
Proof.
  unfold strip_prefix_glob, strip_suffix_glob. split.
  2: { by intros ->. }
  intros is_match ->. split.
  - pose proof (find_boundary (λ k, is_match (before k s)) s greedy) as Hf. unfold removed_prefix.
    destruct (find _ _) as [k|]; [right|by left]. destruct Hf as (Hk & Hm & Hj). exists k.
    split; [done|]. split; [by rewrite before_after|]. split; [done|]. intros j Hjn Hb. apply Hj; [done|]. by destruct greedy.
  - pose proof (find_boundary (λ k, is_match (after k s)) s (negb greedy)) as Hf. unfold removed_suffix.
    destruct (find _ _) as [k|]; [right|by left]. destruct Hf as (Hk & Hm & Hj). exists k.
    split; [done|]. split; [by rewrite before_after|]. split; [done|]. intros j Hjn Hb. apply Hj; [done|]. by destruct greedy.
Qed.

(** An engine that compiles one pattern: [*a] matches what ends in an [a]. *)
Lemma strip_glob_removes_best_witness :
  removed_suffix (ends_with "a") (λ j k, (k < j)%nat) "banana"
    (strip_suffix_glob (λ re, if bool_decide (re = "^.*a$") then Some (ends_with "a") else None) "banana" "*a" false).
Proof. by apply (strip_glob_removes_best _ "banana" "*a" false). Defined.
