(* ===== verification/Machine.v ===== *)
(** * The machine (src/src/interp.rs, src/src/syscalls.rs)

    The record of components that simulated processes share, the contexts of the processes and
    the active one, and the primitive steps the system calls are made of: an operation of one
    component, its error turned into a [SyscallError]. *)

From S2P Require Import Prelude.
From S2P Require Import State.
From S2P Require Import Resources.
From S2P Require Import Process.
From S2P Require Import Clock.
From S2P Require Import Scheduler.
From S2P Require Import Variables.
From S2P Require Import Descriptors.
From S2P Require Import Paths.
From S2P Require Import Vfs.
From S2P Require Import ProcessState.

(** ** The host (src/src/realtime.rs, src/src/net.rs)

    What a machine takes from outside: in real-time mode its clock follows the host's, which is read
    as the nanoseconds since the machine was booted, one reading after the other; and the network
    holds requests that only the host answers. Of the network only those are kept, by their IDs, with
    whether the response is there. *)

Inductive ClockMode := VirtualTime | RealTime.

(** The virtual time at which a real-time machine booted; readings count from the host's instant. *)
Record HostAnchor := MkHostAnchor { ha_virtual_ns : Z }.

Record HostView := MkHostView {
  hv_real_time : option HostAnchor;
  hv_elapsed : nat → N;
  hv_requests : gmap Z bool
}.

Definition host_virtual : HostView := MkHostView None (λ _, 0%N) ∅.

(** [self.host.elapsed().as_nanos()] is a [u128] that is clamped to [u64]. *)
Definition elapsed_virtual_ns (anchor : HostAnchor) (reading : N) : Z :=
  sat_add64 (ha_virtual_ns anchor) (Z.min (Z.of_N reading) U64_MAX).

Definition has_unanswered_host_requests (v : HostView) : bool := existsb negb (btree_values (hv_requests v)).

(** ** State *)

Record Machine := MkMachine {
  m_vfs : Vfs;
  m_hostname : string;
  m_clock : Timeline;
  m_resources : Resources;
  m_processes : ProcessTable;
  m_scheduler : Scheduler;
  m_descriptors : DescriptorArena;
  m_pipe_reservations : gmap Z Z;
  m_terminal : ControllingTerminal;
  m_active : Z;
  m_states : gmap Z ProcessState;
  m_next_temp_id : Z;
  m_pending_stdout : bytes;
  m_pending_stderr : bytes;
  m_host : HostView
}.

Definition set_vfs (m : Machine) (v : Vfs) : Machine :=
  MkMachine v (m_hostname m) (m_clock m) (m_resources m) (m_processes m) (m_scheduler m) (m_descriptors m)
    (m_pipe_reservations m) (m_terminal m) (m_active m) (m_states m) (m_next_temp_id m) (m_pending_stdout m) (m_pending_stderr m)
    (m_host m).
Definition set_hostname (m : Machine) (n : string) : Machine :=
  MkMachine (m_vfs m) n (m_clock m) (m_resources m) (m_processes m) (m_scheduler m) (m_descriptors m)
    (m_pipe_reservations m) (m_terminal m) (m_active m) (m_states m) (m_next_temp_id m) (m_pending_stdout m) (m_pending_stderr m)
    (m_host m).
Definition set_clock (m : Machine) (c : Timeline) : Machine :=
  MkMachine (m_vfs m) (m_hostname m) c (m_resources m) (m_processes m) (m_scheduler m) (m_descriptors m)
    (m_pipe_reservations m) (m_terminal m) (m_active m) (m_states m) (m_next_temp_id m) (m_pending_stdout m) (m_pending_stderr m)
    (m_host m).
Definition set_resources (m : Machine) (r : Resources) : Machine :=
  MkMachine (m_vfs m) (m_hostname m) (m_clock m) r (m_processes m) (m_scheduler m) (m_descriptors m)
    (m_pipe_reservations m) (m_terminal m) (m_active m) (m_states m) (m_next_temp_id m) (m_pending_stdout m) (m_pending_stderr m)
    (m_host m).
Definition set_processes (m : Machine) (t : ProcessTable) : Machine :=
  MkMachine (m_vfs m) (m_hostname m) (m_clock m) (m_resources m) t (m_scheduler m) (m_descriptors m)
    (m_pipe_reservations m) (m_terminal m) (m_active m) (m_states m) (m_next_temp_id m) (m_pending_stdout m) (m_pending_stderr m)
    (m_host m).
Definition set_scheduler (m : Machine) (c : Scheduler) : Machine :=
  MkMachine (m_vfs m) (m_hostname m) (m_clock m) (m_resources m) (m_processes m) c (m_descriptors m)
    (m_pipe_reservations m) (m_terminal m) (m_active m) (m_states m) (m_next_temp_id m) (m_pending_stdout m) (m_pending_stderr m)
    (m_host m).
Definition set_descriptors (m : Machine) (a : DescriptorArena) : Machine :=
  MkMachine (m_vfs m) (m_hostname m) (m_clock m) (m_resources m) (m_processes m) (m_scheduler m) a
    (m_pipe_reservations m) (m_terminal m) (m_active m) (m_states m) (m_next_temp_id m) (m_pending_stdout m) (m_pending_stderr m)
    (m_host m).
Definition set_reservations (m : Machine) (reservations : gmap Z Z) : Machine :=
  MkMachine (m_vfs m) (m_hostname m) (m_clock m) (m_resources m) (m_processes m) (m_scheduler m) (m_descriptors m)
    reservations (m_terminal m) (m_active m) (m_states m) (m_next_temp_id m) (m_pending_stdout m) (m_pending_stderr m)
    (m_host m).
Definition set_terminal (m : Machine) (t : ControllingTerminal) : Machine :=
  MkMachine (m_vfs m) (m_hostname m) (m_clock m) (m_resources m) (m_processes m) (m_scheduler m) (m_descriptors m)
    (m_pipe_reservations m) t (m_active m) (m_states m) (m_next_temp_id m) (m_pending_stdout m) (m_pending_stderr m)
    (m_host m).
Definition set_active (m : Machine) (pid : Z) : Machine :=
  MkMachine (m_vfs m) (m_hostname m) (m_clock m) (m_resources m) (m_processes m) (m_scheduler m) (m_descriptors m)
    (m_pipe_reservations m) (m_terminal m) pid (m_states m) (m_next_temp_id m) (m_pending_stdout m) (m_pending_stderr m)
    (m_host m).
Definition set_states (m : Machine) (states : gmap Z ProcessState) : Machine :=
  MkMachine (m_vfs m) (m_hostname m) (m_clock m) (m_resources m) (m_processes m) (m_scheduler m) (m_descriptors m)
    (m_pipe_reservations m) (m_terminal m) (m_active m) states (m_next_temp_id m) (m_pending_stdout m) (m_pending_stderr m)
    (m_host m).
Definition set_temp_id (m : Machine) (id : Z) : Machine :=
  MkMachine (m_vfs m) (m_hostname m) (m_clock m) (m_resources m) (m_processes m) (m_scheduler m) (m_descriptors m)
    (m_pipe_reservations m) (m_terminal m) (m_active m) (m_states m) id (m_pending_stdout m) (m_pending_stderr m)
    (m_host m).
Definition set_pending_stdout (m : Machine) (data : bytes) : Machine :=
  MkMachine (m_vfs m) (m_hostname m) (m_clock m) (m_resources m) (m_processes m) (m_scheduler m) (m_descriptors m)
    (m_pipe_reservations m) (m_terminal m) (m_active m) (m_states m) (m_next_temp_id m) data (m_pending_stderr m) (m_host m).
Definition set_pending_stderr (m : Machine) (data : bytes) : Machine :=
  MkMachine (m_vfs m) (m_hostname m) (m_clock m) (m_resources m) (m_processes m) (m_scheduler m) (m_descriptors m)
    (m_pipe_reservations m) (m_terminal m) (m_active m) (m_states m) (m_next_temp_id m) (m_pending_stdout m) data (m_host m).
Definition set_host (m : Machine) (v : HostView) : Machine :=
  MkMachine (m_vfs m) (m_hostname m) (m_clock m) (m_resources m) (m_processes m) (m_scheduler m) (m_descriptors m)
    (m_pipe_reservations m) (m_terminal m) (m_active m) (m_states m) (m_next_temp_id m) (m_pending_stdout m) (m_pending_stderr m) v.

(** The mode the machine booted with. *)
Definition clock_mode (m : Machine) : ClockMode := match hv_real_time (m_host m) with Some _ => RealTime | None => VirtualTime end.

(** ** Errors *)

Inductive SyscallError :=
| SysFile (error : VfsError)
| SysDescriptor (error : DescriptorError)
| SysInvalidArgument
| SysIsDirectory
| SysPermission
| SysResourceExhausted
| SysNoSuchProcess
| SysExecutableFormat
| SysProcess (error : string).

(** A system call: it changes the machine and returns a result; [←?] is Rust's [?]. *)
Abbreviation mach := (stm Machine).
Abbreviation sys A := (stm Machine (result SyscallError A)).

Definition fail {A} (error : SyscallError) : sys A := mret (Err error).
Definition done_ {A} (a : A) : sys A := mret (Ok a).

Definition try_bind {A B} (k : A → sys B) (m : sys A) : sys B :=
  r ← m; match r with Ok a => k a | Err error => fail error end.

Notation "x ←? y ; z" := (try_bind (λ x : _, z) y)
  (at level 20, y at level 100, z at level 200, only parsing) : stdpp_scope.
Notation "' x ←? y ; z" := (try_bind (λ x : _, z) y)
  (at level 20, x pattern, y at level 100, z at level 200, only parsing) : stdpp_scope.

Definition from_file {A} (r : result VfsError A) : result SyscallError A :=
  match r with Ok a => Ok a | Err error => Err (SysFile error) end.
Definition from_descriptor {A} (r : result DescriptorError A) : result SyscallError A :=
  match r with Ok a => Ok a | Err error => Err (SysDescriptor error) end.

(** ** One component at a time *)

(** [self.process]: the active context exists. *)
Definition current : mach ProcessState := λ m,
  match m_states m !! m_active m with Some p => Ret (m, p) | None => Panic end.
Definition update_current (f : ProcessState → ProcessState) : mach unit :=
  p ← current; modify (λ m, set_states m (<[m_active m := f p]> (m_states m))).

Definition vfs_get {A} (f : Vfs → result VfsError A) : sys A := gets (λ m, from_file (f (m_vfs m))).
Definition vfs_do {A} (f : Vfs → vfs_result A) : sys A := λ m,
  let '(v, r) := f (m_vfs m) in Ret (set_vfs m v, from_file r).
Definition vfs_run {A} (f : Vfs → run (vfs_result A)) : sys A := λ m,
  '(v, r) ← f (m_vfs m); Ret (set_vfs m v, from_file r).
Definition vfs_query {A} (f : Vfs → run (result VfsError A)) : sys A :=
  r ← lift_run (λ m, f (m_vfs m)); mret (from_file r).

Definition arena_get {A} (f : DescriptorArena → result DescriptorError A) : sys A :=
  gets (λ m, from_descriptor (f (m_descriptors m))).
Definition arena_do {A} (f : DescriptorArena → arena_result A) : sys A := λ m,
  let '(a, r) := f (m_descriptors m) in Ret (set_descriptors m a, from_descriptor r).
Definition arena_run {A} (f : DescriptorArena → run (arena_result A)) : sys A := λ m,
  '(a, r) ← f (m_descriptors m); Ret (set_descriptors m a, from_descriptor r).

(** An operation of the active process's descriptor table. *)
Definition table_get {A} (f : FdTable → result DescriptorError A) : sys A :=
  p ← current; mret (from_descriptor (f (ps_fds p))).
Definition table_do {A} (f : FdTable → DescriptorArena → table_result A) : sys A :=
  p ← current;
  a ← gets m_descriptors;
  let '(fds, a, r) := f (ps_fds p) a in
  _ ← modify (λ m, set_descriptors m a);
  _ ← update_current (λ p, with_fds p fds);
  mret (from_descriptor r).

Definition wake (f : Scheduler → run (Scheduler * Z)) : mach unit := λ m,
  '(s, _) ← f (m_scheduler m); Ret (set_scheduler m s, tt).

Definition charge (units : Z) : mach bool := λ m,
  let '(r, granted) := charge_cpu (m_resources m) units in Ret (set_resources m r, granted).
Definition reserve (n : Z) : mach bool := λ m,
  let '(r, granted) := reserve_memory (m_resources m) n in Ret (set_resources m r, granted).
Definition release_bytes (n : Z) : mach unit := modify (λ m, set_resources m (release_memory (m_resources m) n)).
