(* ===== verification/Expand.v ===== *)
(** * Word expansion (src/src/expand.rs)

    Expanding a word reads and changes the active context (parameters, [:=], arithmetic, the
    recorded expansion error), charges memory and CPU, and lists directories. The recursion goes
    through text inside the word, so fuel follows its length. What the source takes from elsewhere
    is a parameter: the regular-expression engine and the Unicode case tables. *)

From stdpp Require Import pretty.
From S2P Require Import Prelude.
From S2P Require Import RustStr.
From S2P Require Import Syntax.
From S2P Require Import ShellParser.
From S2P Require Import Arith.
From S2P Require Import State.
From S2P Require Import Resources.
From S2P Require Import Variables.
From S2P Require Import Paths.
From S2P Require Import Vfs.
From S2P Require Import ProcessState.
From S2P Require Import ShellVars.
From S2P Require Import Machine.
From S2P Require Import ExpandText.

(** ** Reading and changing the context *)

Definition with_sh (p : ProcessState) (f : ShellState → ShellState) : ProcessState := with_shell p (f (ps_shell p)).

(** A method on the active context. *)
Definition on_context {A} (f : ProcessState → ProcessState * A) : mach A :=
  p ← current;
  let '(p, a) := f p in
  _ ← update_current (λ _, p);
  mret a.

Definition shell_get {A} (f : ShellState → A) : mach A := p ← current; mret (f (ps_shell p)).

Definition mach_var (name : string) : mach (option string) := on_context (λ p, get_var p name).

(** [expansion_error.get_or_insert_with(..)]: the first error stays. *)
Definition insert_error (error : ShellExpansionError) (sh : ShellState) : ShellState :=
  match sh_expansion_error sh with
  | Some _ => sh
  | None => set_expansion sh (Some error) (sh_expansion_depth sh)
  end.
Definition record_error (message : string) : mach unit :=
  on_context (λ p, (with_sh p (insert_error (expansion_parameter_error ("shellsim: " +:+ message +:+ newline))), tt)).

Definition add_expansion (n : Z) (p : ProcessState) : ProcessState :=
  let r := ps_reserved p in
  with_reserved p (MkReservations (rv_fork r) (rv_exec r) (rv_baseline r) (rv_state r) (sat_add64 (rv_expansion r) n)).

Definition charge_expansion (n : Z) : mach bool :=
  granted ← reserve n;
  if granted : bool then _ ← update_current (add_expansion n); mret true else mret false.

Definition charged (value : string) : mach string :=
  granted ← charge_expansion (str_len value);
  mret (if granted : bool then value else "").

Definition mach_stopped : mach bool := gets (λ m, is_stopped (m_resources m)).

Definition scalar_value (name : string) : mach string :=
  found ← mach_var name;
  match found with
  | Some value => mret value
  | None =>
      nounset ← shell_get (λ sh, op_nounset (sh_flags sh));
      _ ← (if nounset && negb (bool_decide (name = "@")) && negb (bool_decide (name = "*"))
           then record_error (name +:+ ": unbound variable") else mret tt);
      mret ""
  end.

(** ** Variables of arithmetic *)

Definition MAX_ARITH_ARRAY_INDEX : Z := 1048576.

Definition resolve_array_index (p : ProcessState) (name : string) (index : Z) : ProcessState * result string Z :=
  if 0 <=? index then (p, Ok index)
  else
    let '(p, length) :=
      match array_value (ps_shell p) name with
      | Some (Indexed values) => (p, Z.of_nat (size values))
      | _ => let '(p, found) := get_var p name in (p, if bool_decide (is_Some found) then 1 else 0)
      end in
    let resolved := sat_add_i64 length index in
    if resolved <? 0 then (p, Err (name +:+ "[" +:+ pretty index +:+ "]: bad array subscript")) else (p, Ok resolved).

(** A value that must be there under [set -u]. *)
Definition demanded (p : ProcessState) (what : string) (found : option string) : result string (option string) :=
  match found with
  | None => if op_nounset (sh_flags (ps_shell p)) then Err (what +:+ ": unbound variable") else Ok None
  | Some _ => Ok found
  end.

Definition is_readonly (p : ProcessState) (name : string) : bool := bool_decide (name ∈ sh_readonly (ps_shell p)).
Definition readonly_error {A} (name : string) : result string A := Err (name +:+ ": readonly variable").

#[export] Instance context_vars : ArithVars ProcessState := {|
  arith_get p name := let '(p, found) := get_var p name in (p, demanded p name found);
  arith_get_element p name index :=
    match resolve_array_index p name index with
    | (p, Err message) => (p, Err message)
    | (p, Ok index) =>
        (p, demanded p (name +:+ "[" +:+ pretty index +:+ "]") (array_get (ps_shell p) name (pretty index)))
    end;
  arith_set p name value :=
    if is_readonly p name then (p, readonly_error name) else (set_var p name (pretty value), Ok tt);
  arith_set_element p name index value :=
    if is_readonly p name then (p, readonly_error name)
    else match resolve_array_index p name index with
         | (p, Err message) => (p, Err message)
         | (p, Ok index) =>
             if MAX_ARITH_ARRAY_INDEX <? index then
               (p, Err (name +:+ "[" +:+ pretty index +:+ "]: array subscript too large"))
             else (with_sh p (λ sh, array_set sh name (pretty index) (pretty value)), Ok tt)
         end
|}.

Definition eval_arith (expr : string) : mach Z :=
  p ← current;
  '(p, value) ← lift_run (λ _, evaluate p expr);
  _ ← update_current (λ _, p);
  match value with
  | Ok value => mret value
  | Err error => _ ← record_error (describe error expr); mret 0
  end.

Definition parse_slice (spec : string) : mach (Z * option Z) :=
  match split_once ":"%char spec with
  | Some (a, b) => offset ← eval_arith (trim a); len ← eval_arith (trim b); mret (offset, Some len)
  | None => offset ← eval_arith (trim spec); mret (offset, None)
  end.

(** The first position of a slice of [n] items. *)
Definition slice_start (n offset : Z) : Z := if offset <? 0 then Z.max (n + offset) 0 else Z.min offset n.

(** ** Field splitting *)

Record Part := MkPart { pt_text : string; pt_quoted : bool; pt_glob : bool; pt_break : bool }.
Definition quoted_part (text : string) (field_break : bool) : Part := MkPart text true false field_break.
Definition plain_part (text : string) (glob : bool) : Part := MkPart text false glob false.

Record Fields := MkFields {
  fs_done : list (string * bool);
  fs_cur : string;
  fs_glob : bool;
  fs_started : bool;
  fs_after_space : bool
}.
Definition no_fields : Fields := MkFields [] "" false false false.

Definition end_field (f : Fields) (after_space : bool) : Fields :=
  MkFields (fs_done f ++ [(fs_cur f, fs_glob f)]) "" false false after_space.

Definition is_space (c : string) : bool :=
  bool_decide (c = " ") || bool_decide (c = tab) || bool_decide (c = newline).
Definition in_ifs (ifs c : string) : bool := bool_decide (c ∈ utf8_chars ifs).

Definition split_char (ifs : string) (f : Fields) (c : string) : Fields :=
  if in_ifs ifs c && is_space c then
    if fs_started f then end_field f true
    else MkFields (fs_done f) (fs_cur f) (fs_glob f) (fs_started f) true
  else if in_ifs ifs c then
    if fs_started f then end_field f false
    else if fs_after_space f then MkFields (fs_done f) (fs_cur f) (fs_glob f) (fs_started f) false
    else MkFields (fs_done f ++ [("", false)]) (fs_cur f) (fs_glob f) (fs_started f) false
  else MkFields (fs_done f) (fs_cur f +:+ c) (fs_glob f) true false.

Definition add_part (ifs : string) (split : bool) (f : Fields) (p : Part) : Fields :=
  let f := if pt_break p && fs_started f then end_field f false else f in
  if pt_quoted p || negb split then
    MkFields (fs_done f) (fs_cur f +:+ pt_text p) (fs_glob f || (pt_glob p && negb (pt_quoted p))) true false
  else
    let f := foldl (split_char ifs) f (utf8_chars (pt_text p)) in
    MkFields (fs_done f) (fs_cur f) (fs_glob f || pt_glob p) (fs_started f) (fs_after_space f).

Definition split_parts (ifs : string) (split : bool) (parts : list Part) : list (string * bool) :=
  let f := foldl (add_part ifs split) no_fields parts in
  if fs_started f then fs_done f ++ [(fs_cur f, fs_glob f)] else fs_done f.

(** The substitution of commands happens before expansion; reaching this is an internal error. *)
Definition run_capture (src : string) : mach string :=
  _ ← on_context (λ p, (with_sh p (λ sh, set_last_status sh 125), tt));
  let message := "shellsim: internal error: command substitution reached synchronous expansion: " +:+ src +:+ newline in
  _ ← modify (λ m, set_pending_stderr m (m_pending_stderr m ++ String.list_byte_of_string message));
  mret "".

(** The first character of [IFS], by which a quoted [*] joins. *)
Definition ifs_value : mach string := ifs ← mach_var "IFS"; mret (default (" " +:+ tab +:+ newline) ifs).
Definition join_star (items : list string) : mach string :=
  ifs ← ifs_value; mret (String.concat (default " " (head (utf8_chars ifs))) items).

Section expand.
(** [regex::Regex]; [str::to_uppercase], [str::to_lowercase] and those of [char]. *)
Context (regex : string → option (string → bool)).
Context (upper lower upper_char lower_char : string → string).

(** ** Pathname expansion *)

Definition glob_matches (is_match : option (string → bool)) (comp dir entry : string) : option string :=
  if starts_with "." entry && negb (starts_with "." comp) then None
  else if match is_match with Some f => f entry | None => false end
  then Some (trim_end_char slash dir +:+ "/" +:+ entry) else None.

(** The paths a component leads to from one directory; [None] when the budget stops the walk. *)
Definition glob_dir (comp dir : string) : mach (option (list string)) :=
  if is_glob_component comp then
    listed ← gets (λ m, list_dir (m_vfs m) "/" dir);
    match listed with
    | Err _ => mret (Some [])
    | Ok entries =>
        granted ← charge (sat_add64 (zlen entries) (str_len comp));
        mret (if granted : bool then Some (omap (glob_matches (regex (glob_to_regex comp)) comp dir) entries) else None)
    end
  else
    let candidate := trim_end_char slash dir +:+ "/" +:+ comp in
    found ← gets (λ m, vfs_lexists (m_vfs m) "/" candidate);
    mret (Some (if found : bool then [candidate] else [])).

Fixpoint glob_dirs (comp : string) (dirs : list string) : mach (option (list string)) :=
  match dirs with
  | [] => mret (Some [])
  | dir :: dirs =>
      here ← glob_dir comp dir;
      match here with
      | None => mret None
      | Some here => rest ← glob_dirs comp dirs; mret (app here <$> rest)
      end
  end.

Fixpoint glob_comps (comps current : list string) : mach (list string) :=
  match comps with
  | [] => mret current
  | comp :: comps =>
      next ← glob_dirs comp current;
      match next with
      | None | Some [] => mret []
      | Some next => glob_comps comps next
      end
  end.

Definition relative_to (cwd path : string) : string := default path (strip_prefix (trim_end_char slash cwd +:+ "/") path).

Definition has_pattern (text : string) : bool := existsb is_glob_component (split_slash text).

Definition glob_vfs (pattern : string) : mach (list string) :=
  if negb (has_pattern pattern) then mret []
  else
    let absolute := starts_with "/" pattern in
    p ← current;
    let comps := filter (λ c, c ≠ "") (split_slash pattern) in
    found ← glob_comps comps [if absolute then "/" else ps_cwd p];
    mret (merge_sort String.le (if absolute then found else map (relative_to (ps_cwd p)) found)).

Fixpoint glob_fields (split : bool) (fields : list (string * bool)) : mach (list string) :=
  match fields with
  | [] => mret []
  | (field, glob) :: fields =>
      here ← (if split && glob && has_pattern field then
                matches ← glob_vfs field;
                match matches with
                | [] => nullglob ← shell_get (λ sh, bool_decide ("nullglob" ∈ sh_options sh));
                        mret (if nullglob : bool then [] else [field])
                | matches => mret matches
                end
              else mret [field]);
      rest ← glob_fields split fields;
      mret (here ++ rest)
  end.

Definition assemble (parts : list Part) (split : bool) : mach (list string) :=
  ifs ← ifs_value;
  glob_fields split (split_parts ifs split parts).

(** ** Arrays and positional parameters as lists *)

(** The items of a slice [:offset:length]. *)
Definition slice_items (spec : string) (items : list string) : mach (list string) :=
  '(offset, len) ← parse_slice spec;
  let items := drop (Z.to_nat (slice_start (zlen items) offset)) items in
  mret match len with
       | None => items
       | Some l => take (Z.to_nat (if l <? 0 then Z.max (zlen items + l) 0 else l)) items
       end.

(** [${name[@]}], [${!name[*]}] and their slices; [tail] follows the subscript. *)
Definition array_words (want_keys quoted : bool) (name sub tail : string) : mach (list string) :=
  array ← shell_get (λ sh, is_array sh name);
  if negb array then
    found ← mach_var name;
    mret match found with Some v => if bool_decide (v = "") then [] else [v] | None => [] end
  else
    items ← shell_get (λ sh, if want_keys then array_keys sh name else array_all sh name);
    items ← match strip_prefix ":" tail with Some spec => slice_items spec items | None => mret items end;
    if quoted && bool_decide (sub = "*") then joined ← join_star items; mret [joined] else mret items.

Definition array_reference (inner : string) : option (bool * string * string * string) :=
  let '(want_keys, body) := match strip_prefix "!" inner with Some rest => (true, rest) | None => (false, inner) end in
  '(name, after) ← split_once "["%char body;
  if is_name name then
    '(sub, tail) ← split_once "]"%char after;
    if bool_decide (sub = "@") || bool_decide (sub = "*") then Some (want_keys, name, sub, tail) else None
  else None.

Definition try_array_words (chars : list string) (quoted : bool) : mach (option (list string * nat)) :=
  match chars with
  | dollar :: c :: _ =>
      if negb (bool_decide (dollar = "$")) then mret None
      else if bool_decide (c = "@") || bool_decide (c = "*") then
        items ← shell_get (λ sh, po_values (sh_positional sh));
        if quoted && bool_decide (c = "*") then joined ← join_star items; mret (Some ([joined], 2%nat))
        else mret (Some (items, 2%nat))
      else if negb (bool_decide (c = "{")) then mret None
      else
        let '(inner, consumed) := read_balanced (drop 1 chars) "{" "}" in
        match array_reference inner with
        | None => mret None
        | Some (want_keys, name, sub, tail) =>
            words ← array_words want_keys quoted name sub tail;
            mret (Some (words, S consumed))
        end
  | _ => mret None
  end.

(** ** Operators of parameters *)

Definition PARAM_OPS : list string :=
  [":-"; ":="; ":+"; ":?"; "-"; "+"; "?"; "##"; "#"; "%%"; "%"; "//"; "/"; "^^"; "^"; ",,"; ","].

Definition map_first (f : string → string) (s : string) : string :=
  match utf8_chars s with c :: chars => f c +:+ collect chars | [] => "" end.

(** [${name?word}]: the value, or an error that says [word]. *)
Definition demand (ok : bool) (value name arg default_message : string) : mach string :=
  if ok then mret value
  else _ ← record_error (if bool_decide (arg = "") then name +:+ default_message else arg); mret "".

Definition replace_value (all : bool) (arg v : string) : mach string :=
  let '(pat, rep) := default (arg, "") (split_once slash arg) in
  if bool_decide (pat = "") then mret v
  else
    let matches := if all then Z.of_nat (count_matches pat v) else if str_contains pat v then 1 else 0 in
    let growth := sat_mul64 (sat_sub (str_len rep) (str_len pat)) matches in
    granted ← charge (str_len v);
    granted ← (if granted : bool then charge_expansion (sat_add64 (str_len v) growth) else mret false);
    mret (if granted : bool then (if all then replace_all pat rep v else replace_first pat rep v) else "").

Definition apply_param_op (name op arg : string) (cur : option string) : mach string :=
  let here o := bool_decide (op = o) in
  let value := default "" cur in
  let is_set := negb (bool_decide (value = "")) in
  let exists_ := bool_decide (is_Some cur) in
  if here ":-" then mret (if is_set then value else arg)
  else if here "-" then mret (if exists_ then value else arg)
  else if here ":=" then
    if is_set then mret value else _ ← on_context (λ p, (set_var p name arg, tt)); mret arg
  else if here ":+" then mret (if is_set then arg else "")
  else if here "+" then mret (if exists_ then arg else "")
  else if here ":?" then demand is_set value name arg ": parameter null or not set"
  else if here "?" then demand exists_ value name arg ": parameter not set"
  else if here "#" then mret (strip_prefix_glob regex value arg false)
  else if here "##" then mret (strip_prefix_glob regex value arg true)
  else if here "%" then mret (strip_suffix_glob regex value arg false)
  else if here "%%" then mret (strip_suffix_glob regex value arg true)
  else if here "/" then replace_value false arg value
  else if here "//" then replace_value true arg value
  else if here "^^" then mret (upper value)
  else if here "^" then mret (map_first upper_char value)
  else if here ",," then mret (lower value)
  else if here "," then mret (map_first lower_char value)
  else mret value.

(** [${name:offset:length}]. *)
Definition substring_value (spec v : string) : mach string :=
  '(offset, len) ← parse_slice spec;
  let chars := utf8_chars v in
  let n := zlen chars in
  let start := slice_start n offset in
  let finish := match len with
    | Some l => if l <? 0 then Z.max (n + l) start else Z.min (start + l) n
    | None => n
    end in
  mret (collect (take (Z.to_nat (Z.max finish start - start)) (drop (Z.to_nat start) chars))).

(** ** Dollar expansions and words

    [rec_word] and [rec_dollar] expand a shorter text. *)

Definition descend_expansion (body : mach string) : mach string :=
  depth ← shell_get sh_expansion_depth;
  let set d := on_context (λ p, (with_sh p (λ sh, set_expansion sh (sh_expansion_error sh) d), tt)) in
  if Z.of_nat MAX_SYNTAX_DEPTH <=? depth then
    _ ← record_error "parameter expansions are nested too deeply"; mret ""
  else
    _ ← set (depth + 1);
    value ← body;
    raised ← shell_get sh_expansion_depth;
    _ ← set (raised - 1);
    mret value.

Section words.
Context (rec_word : string → bool → mach (list string)) (rec_dollar : list string → mach (string * nat)).

(** An operand, expanded to one string. *)
Definition expand_operand (text : string) : mach string := words ← rec_word text false; mret (String.concat " " words).

Fixpoint arith_subs_fuel (fuel : nat) (chars : list string) : mach string :=
  match fuel, chars with
  | _, [] => mret ""
  | O, _ => out_of_fuel
  | S fuel, c :: more =>
      if bool_decide (c = "$") then
        '(value, consumed) ← rec_dollar chars;
        rest ← arith_subs_fuel fuel (drop consumed chars);
        mret (value +:+ rest)
      else rest ← arith_subs_fuel fuel more; mret (c +:+ rest)
  end.
Definition expand_arith_subs (expr : string) : mach string :=
  let chars := utf8_chars expr in arith_subs_fuel (length chars) chars.

Definition apply_op_from_rest (name rest : string) (cur : option string) : mach string :=
  match find (λ op, starts_with op rest) PARAM_OPS with
  | Some op =>
      arg ← expand_operand (str_drop (String.length op) rest);
      apply_param_op name op arg cur
  | None =>
      match strip_prefix ":" rest with
      | Some spec => substring_value spec (default "" cur)
      | None => mret (default "" cur)
      end
  end.

Definition length_of (value : option string) : string := pretty (zlen (utf8_chars (default "" value))).

(** [${#...}]. *)
Definition expand_length (rest : string) : mach string :=
  match parse_subscript rest with
  | Some (name, sub) =>
      if bool_decide (sub = "@") || bool_decide (sub = "*") then shell_get (λ sh, pretty (array_len sh name))
      else key ← expand_operand sub; value ← shell_get (λ sh, array_get sh name key); mret (length_of value)
  | None =>
      if bool_decide (rest = "@") || bool_decide (rest = "*")
      then shell_get (λ sh, pretty (zlen (po_values (sh_positional sh))))
      else value ← mach_var rest; mret (length_of value)
  end.

Definition param_name_char (c : string) : bool :=
  is_ascii_alphanumeric c || bool_decide (c = "_") || bool_decide (c = "@") || bool_decide (c = "*").

Definition expand_param (inner : string) : mach string :=
  match strip_prefix "#" inner with
  | Some rest => expand_length rest
  | None =>
      match parse_subscript_tail inner with
      | Some (name, sub, tail) =>
          key ← expand_operand sub;
          cur ← shell_get (λ sh,
            if bool_decide (sub = "@") || bool_decide (sub = "*") then Some (String.concat " " (array_all sh name))
            else array_get sh name key);
          if bool_decide (tail = "") then mret (default "" cur) else apply_op_from_rest name tail cur
      | None =>
          let chars := utf8_chars inner in
          let name := collect (take_while param_name_char chars) in
          let rest := collect (drop_while param_name_char chars) in
          cur ← mach_var name;
          if bool_decide (rest = "") then
            match cur with Some value => mret value | None => scalar_value name end
          else apply_op_from_rest name rest cur
      end
  end.

Definition SPECIAL_PARAMETERS : list string := ["?"; "$"; "#"; "@"; "*"; "!"].

(** A parameter without braces, of the characters that pass [part]. *)
Definition plain_parameter (part : string → bool) (chars : list string) : mach (string * nat) :=
  let name := take_while part chars in
  value ← scalar_value (collect name);
  mret (value, S (length name)).

(** The expansion at a [$], and the characters it takes. *)
Definition expand_dollar (chars : list string) : mach (string * nat) :=
  match chars with
  | _ :: c :: more =>
      if bool_decide (c = "(") then
        if bool_decide (head more = Some "(") then
          let '(inner, consumed) := read_double_paren (drop 1 chars) in
          expanded ← expand_arith_subs inner;
          value ← eval_arith expanded;
          mret (pretty value, S consumed)
        else
          let '(inner, consumed) := read_balanced (drop 1 chars) "(" ")" in
          out ← run_capture inner;
          mret (out, S consumed)
      else if bool_decide (c = "{") then
        let '(inner, consumed) := read_balanced (drop 1 chars) "{" "}" in
        value ← descend_expansion (expand_param inner);
        mret (value, S consumed)
      else if bool_decide (c ∈ SPECIAL_PARAMETERS) then value ← scalar_value c; mret (value, 2%nat)
      else if name_head c then plain_parameter name_part (c :: more)
      else if is_ascii_digit c then plain_parameter is_ascii_digit (c :: more)
      else mret ("$", 1%nat)
  | _ => mret ("$", 1%nat)
  end.

(** The state of a double-quoted string. *)
Record Double := MkDouble {
  db_rest : list string;
  db_parts : list Part;
  db_out : string;
  db_content : bool;
  db_array : bool;
  db_break : bool
}.

Definition db_push (d : Double) (rest : list string) (text : string) : Double :=
  MkDouble rest (db_parts d) (db_out d +:+ text) true (db_array d) (db_break d).

(** Each item after the first starts a field. *)
Definition next_item (d : Double) (item : string) : Double :=
  MkDouble (db_rest d) (db_parts d ++ [quoted_part (db_out d) (db_break d)]) item (db_content d) (db_array d) true.
Definition splice (d : Double) (items : list string) : Double :=
  match items with [] => d | item :: items => foldl next_item (db_push d (db_rest d) item) items end.

Definition not_backquote (c : string) : bool := negb (bool_decide (c = "`")).

Definition double_dollar (d : Double) : mach Double :=
  words ← try_array_words (db_rest d) true;
  match words with
  | Some (items, consumed) =>
      granted ← charge_expansion (foldr (λ item total, str_len item + total) 0 items);
      let d := MkDouble (drop consumed (db_rest d)) (db_parts d) (db_out d) (db_content d) true (db_break d) in
      mret (if granted : bool then splice d items else d)
  | None =>
      '(value, consumed) ← expand_dollar (db_rest d);
      value ← charged value;
      mret (db_push d (drop consumed (db_rest d)) value)
  end.

Definition double_escapes : list string := [dquote; "\"; "$"; "`"].

Definition double_step (d : Double) : mach (Double * bool) :=
  stopped ← mach_stopped;
  match db_rest d with
  | [] => mret (d, false)
  | c :: more =>
      if stopped : bool then mret (d, false)
      else if bool_decide (c = dquote) then
        mret (MkDouble more (db_parts d) (db_out d) (db_content d) (db_array d) (db_break d), false)
      else if bool_decide (c = "\") then
        let keep rest text := MkDouble rest (db_parts d) (db_out d +:+ text) (db_content d) (db_array d) (db_break d) in
        mret (match more with
              | n :: rest => if bool_decide (n ∈ double_escapes) then keep rest n else keep more "\"
              | [] => keep [] ""
              end, true)
      else if bool_decide (c = "$") then d ← double_dollar d; mret (d, true)
      else if bool_decide (c = "`") then
        captured ← run_capture (collect (take_while not_backquote more));
        captured ← charged captured;
        mret (db_push d (drop 1 (drop_while not_backquote more)) captured, true)
      else mret (db_push d more c, true)
  end.

(** A sole empty array expansion leaves no part. *)
Definition expand_double (chars : list string) : mach (list Part * list string) :=
  d ← loop (S (length chars)) double_step (MkDouble chars [] "" false false false);
  let lone := db_array d && negb (db_content d) && bool_decide (db_parts d = []) && bool_decide (db_out d = "") in
  mret (if lone then [] else db_parts d ++ [quoted_part (db_out d) (db_break d)], db_rest d).

(** The state of a word. *)
Record Word := MkWord { wd_rest : list string; wd_parts : list Part; wd_buf : string; wd_glob : bool }.

Definition flush (w : Word) : Word :=
  if bool_decide (wd_buf w = "") then w
  else MkWord (wd_rest w) (wd_parts w ++ [plain_part (wd_buf w) (wd_glob w)]) "" false.
Definition wd_push (w : Word) (rest : list string) (text : string) : Word :=
  MkWord rest (wd_parts w) (wd_buf w +:+ text) (wd_glob w).
Definition wd_add (w : Word) (rest : list string) (parts : list Part) : Word :=
  let w := flush w in MkWord rest (wd_parts w ++ parts) (wd_buf w) (wd_glob w).

Definition not_squote (c : string) : bool := negb (bool_decide (c = "'")).

Definition word_dollar (w : Word) : mach Word :=
  words ← try_array_words (wd_rest w) false;
  match words with
  | Some (items, consumed) =>
      let space := if bool_decide (wd_buf w = "") then "" else " " in
      joined ← charged (String.concat " " items);
      mret (wd_push w (drop consumed (wd_rest w)) (space +:+ joined))
  | None =>
      '(value, consumed) ← expand_dollar (wd_rest w);
      value ← charged value;
      mret (wd_push w (drop consumed (wd_rest w)) value)
  end.

Definition word_step (w : Word) : mach (Word * bool) :=
  stopped ← mach_stopped;
  match wd_rest w with
  | [] => mret (w, false)
  | c :: more =>
      if stopped : bool then mret (w, false)
      else if bool_decide (c = "\") then
        mret (match more with n :: rest => wd_push w rest n | [] => wd_push w [] "" end, true)
      else if bool_decide (c = "'") then
        mret (wd_add w (drop 1 (drop_while not_squote more)) [quoted_part (collect (take_while not_squote more)) false],
              true)
      else if bool_decide (c = dquote) then
        '(parts, rest) ← expand_double more;
        mret (wd_add w rest parts, true)
      else if bool_decide (c = "$") then w ← word_dollar w; mret (w, true)
      else if bool_decide (c = "`") then
        out ← run_capture (collect (take_while not_backquote more));
        out ← charged out;
        mret (wd_push w (drop 1 (drop_while not_backquote more)) out, true)
      else if bool_decide (c = "*") || bool_decide (c = "?") || bool_decide (c = "[") then
        mret (MkWord more (wd_parts w) (wd_buf w +:+ c) true, true)
      else mret (wd_push w more c, true)
  end.

(** A leading [~] alone or before a slash is the home directory. *)
Definition tilde (chars : list string) : mach Word :=
  match chars with
  | c :: more =>
      if bool_decide (c = "~") then
        home ← mach_var "HOME";
        mret (if match more with [] => true | n :: _ => bool_decide (n = "/") end
              then MkWord more [] (default "/root" home) false else MkWord chars [] "" false)
      else mret (MkWord chars [] "" false)
  | [] => mret (MkWord [] [] "" false)
  end.

Definition expand_to_parts (word : string) : mach (list Part) :=
  let chars := utf8_chars word in
  w ← tilde chars;
  w ← loop (S (length chars)) word_step w;
  mret (wd_parts (flush w)).

Fixpoint expand_each (words : list string) (split : bool) : mach (list string) :=
  match words with
  | [] => mret []
  | word :: words =>
      parts ← expand_to_parts word;
      fields ← assemble parts split;
      rest ← expand_each words split;
      mret (fields ++ rest)
  end.

Definition expand_word_body (word : string) (split : bool) : mach (list string) :=
  expand_each (brace_expand MAX_BRACE_DEPTH word) split.

End words.

(** Both recursions, with the text that may still be nested as fuel. *)
Fixpoint expand_at (fuel : nat) : (string → bool → mach (list string)) * (list string → mach (string * nat)) :=
  match fuel with
  | O => (λ _ _, out_of_fuel, λ _, out_of_fuel)
  | S fuel =>
      let '(word, dollar) := expand_at fuel in
      (expand_word_body word dollar, expand_dollar word dollar)
  end.

Definition expand_word (word : string) (split : bool) : mach (list string) :=
  (expand_at (S (String.length word))).1 word split.

Fixpoint expand_words (words : list string) : mach (list string) :=
  match words with
  | [] => mret []
  | word :: words => here ← expand_word word true; rest ← expand_words words; mret (here ++ rest)
  end.

End expand.

(** The text services of the host, together. *)
Record TextEngine := MkEngine {
  te_regex : string → option (string → bool);
  te_upper : string → string;
  te_lower : string → string;
  te_upper_char : string → string;
  te_lower_char : string → string
}.
Definition expand_words_with (e : TextEngine) : list string → mach (list string) :=
  expand_words (te_regex e) (te_upper e) (te_lower e) (te_upper_char e) (te_lower_char e).
