(* ===== verification/SplitSpec.v ===== *)
(** * Field splitting against a reference (src/src/expand.rs)

    The splitter of [assemble] keeps the field under construction in a record and goes through the
    parts once. The reference cuts the marked text of the parts at its separators. *)

From S2P Require Import Prelude.
From S2P Require Import RustStr.
From S2P Require Import Expand.

(** ** The reference *)

(** Quoted text is one mark, present even when empty; unquoted text is a mark for each character. *)
Inductive Mark :=
| Kept (text : string)
| Loose (c : string)
| Cut.

Definition mark_text (m : Mark) : string := match m with Kept text => text | Loose c => c | Cut => "" end.
Definition text_of (marks : list Mark) : string := collect (map mark_text marks).

Definition marks_of (split : bool) (p : Part) : list Mark :=
  (if pt_break p then [Cut] else []) ++
  (if pt_quoted p || negb split then [Kept (pt_text p)] else map Loose (utf8_chars (pt_text p))).

Definition separates (ifs : string) (m : Mark) : bool :=
  match m with Loose c => in_ifs ifs c | Cut => true | Kept _ => false end.

(** What stands between separators. *)
Fixpoint groups (ifs : string) (marks : list Mark) : list (list Mark) :=
  match marks with
  | [] => [[]]
  | m :: marks =>
      if separates ifs m then [] :: groups ifs marks
      else match groups ifs marks with g :: gs => (m :: g) :: gs | [] => [[m]] end
  end.

Definition occupied (g : list Mark) : bool := match g with [] => false | _ => true end.

(** White space separates and nothing more: the groups that are not empty. *)
Definition fields_by_space (ifs : string) (marks : list Mark) : list string :=
  map text_of (filter occupied (groups ifs marks)).

(** A delimiter ends a field: every group, apart from an empty one after the last delimiter. *)
Fixpoint ended (gs : list (list Mark)) : list (list Mark) :=
  match gs with
  | [] => []
  | [g] => if occupied g then [g] else []
  | g :: gs => g :: ended gs
  end.
Definition fields_by_delimiter (ifs : string) (marks : list Mark) : list string := map text_of (ended (groups ifs marks)).

Definition only_spaces (ifs : string) : Prop := ∀ c, in_ifs ifs c = true → is_space c = true.
Definition no_spaces (ifs : string) : Prop := ∀ c, in_ifs ifs c = true → is_space c = false.

(** ** The splitter goes through the marks *)

Section marks.
Context (ifs : string).

Definition mark_step (f : Fields) (m : Mark) : Fields :=
  match m with
  | Cut => if fs_started f then end_field f false else f
  | Kept text => MkFields (fs_done f) (fs_cur f +:+ text) (fs_glob f) true false
  | Loose c => split_char ifs f c
  end.

(** Equal but for the glob flags. *)
Definition same_text (f g : Fields) : Prop :=
  map fst (fs_done f) = map fst (fs_done g) ∧ fs_cur f = fs_cur g ∧ fs_started f = fs_started g ∧
  fs_after_space f = fs_after_space g.

Lemma split_char_same f g c : same_text f g → same_text (split_char ifs f c) (split_char ifs g c).
Proof.
  intros (Hd & Hc & Hs & Ha). unfold split_char. rewrite Hs, Ha.
  destruct (in_ifs ifs c && is_space c), (in_ifs ifs c), (fs_started g) eqn:?, (fs_after_space g) eqn:?;
    split_and!; simpl; rewrite ?map_app; simpl; congruence.
Qed.

Lemma mark_step_same f g m : same_text f g → same_text (mark_step f m) (mark_step g m).
Proof.
  intros H. destruct m as [text|c|]; simpl; [|by apply split_char_same|];
    destruct H as (Hd & Hc & Hs & Ha); [split_and!; simpl; congruence|].
  rewrite Hs. destruct (fs_started g) eqn:?; split_and!; simpl; rewrite ?map_app; simpl; congruence.
Qed.

Lemma marks_same marks f g : same_text f g → same_text (foldl mark_step f marks) (foldl mark_step g marks).
Proof. revert f g. induction marks as [|m marks IH]; intros f g H; [done|]. by apply IH, mark_step_same. Qed.

Lemma loose_fold chars f : foldl mark_step f (map Loose chars) = foldl (split_char ifs) f chars.
Proof. revert f. induction chars as [|c chars IH]; intros f; [done|]. apply IH. Qed.

Lemma add_part_marks split f p : same_text (add_part ifs split f p) (foldl mark_step f (marks_of split p)).
Proof.
  unfold add_part, marks_of. rewrite foldl_app. cbv zeta.
  assert (Hb : (if pt_break p && fs_started f then end_field f false else f) =
    foldl mark_step f (if pt_break p then [Cut] else [])).
  { destruct (pt_break p); simpl; [|done]. by destruct (fs_started f). }
  rewrite Hb. destruct (pt_quoted p || negb split); [by split_and!|]. rewrite loose_fold. by split_and!.
Qed.

Lemma parts_marks split parts f g : same_text f g →
  same_text (foldl (add_part ifs split) f parts) (foldl mark_step g (concat (map (marks_of split) parts))).
Proof.
  revert f g. induction parts as [|p parts IH]; intros f g H; [done|]. cbn [foldl map concat]. rewrite foldl_app.
  apply IH. destruct (add_part_marks split f p) as (H1 & H2 & H3 & H4).
  destruct (marks_same (marks_of split p) f g H) as (H5 & H6 & H7 & H8). split_and!; congruence.
Qed.

(** The fields of a state. *)
Definition texts (f : Fields) : list string := map fst (fs_done f) ++ if fs_started f then [fs_cur f] else [].

Lemma split_parts_marks split parts :
  map fst (split_parts ifs split parts) = texts (foldl mark_step no_fields (concat (map (marks_of split) parts))).
Proof.
  unfold split_parts, texts. cbv zeta. destruct (parts_marks split parts no_fields no_fields) as (H1 & H2 & H3 & _); [by split_and!|].
  rewrite <-H3. destruct (fs_started _); [by rewrite map_app, H1, <-H2|by rewrite app_nil_r].
Qed.

(** ** The state and the group under construction *)

Definition building (f : Fields) (g : list Mark) : Prop := fs_cur f = text_of g ∧ fs_started f = occupied g.

Lemma text_of_snoc g m : text_of (g ++ [m]) = text_of g +:+ mark_text m.
Proof. unfold text_of. by rewrite map_app, collect_app. Qed.

Lemma occupied_snoc g m : occupied (g ++ [m]) = true.
Proof. by destruct g. Qed.

(** Put what is under construction before the first group. *)
Definition after_group (g : list Mark) (gs : list (list Mark)) : list (list Mark) :=
  match gs with g' :: gs => (g ++ g') :: gs | [] => [g] end.

Lemma groups_cons m marks : separates ifs m = false → groups ifs (m :: marks) = after_group [m] (groups ifs marks).
Proof. intros H. cbn [groups]. by rewrite H. Qed.

Lemma after_after g m gs : after_group g (after_group [m] gs) = after_group (g ++ [m]) gs.
Proof. destruct gs; simpl; [done|]. by rewrite <-app_assoc. Qed.

Lemma after_nil gs : gs ≠ [] → after_group [] gs = gs.
Proof. by destruct gs. Qed.

Lemma groups_some marks : groups ifs marks ≠ [].
Proof. destruct marks as [|m marks]; simpl; [done|]. destruct (separates _ _); [done|]. by destruct (groups ifs marks). Qed.

(** A mark that separates nothing goes into the group. *)
Lemma mark_in_group f g m : separates ifs m = false → building f g →
  building (mark_step f m) (g ++ [m]) ∧ fs_done (mark_step f m) = fs_done f ∧ fs_after_space (mark_step f m) = false.
Proof.
  intros Hm [Hc Hs]. unfold building. rewrite text_of_snoc, occupied_snoc, <-Hc. destruct m as [text|c|]; simpl in *; [done| |done].
  unfold split_char. by rewrite Hm.
Qed.

Lemma by_space marks f g : only_spaces ifs → building f g →
  texts (foldl mark_step f marks) =
  map fst (fs_done f) ++ map text_of (filter occupied (after_group g (groups ifs marks))).
Proof.
  intros Hi. revert f g. induction marks as [|m marks IH]; intros f g Hb.
  { destruct Hb as [Hc Hs]. cbn [foldl groups after_group]. rewrite app_nil_r. unfold texts. rewrite Hs, Hc. by destruct g. }
  cbn [foldl]. destruct (separates ifs m) eqn:Hm.
  - assert (Hnext : building (mark_step f m) [] ∧
      map fst (fs_done (mark_step f m)) = map fst (fs_done f) ++ if occupied g then [text_of g] else []).
    { destruct Hb as [Hc Hs]. destruct m as [text|c|]; [done| |]; simpl in Hm |- *.
      - unfold split_char. rewrite Hm, (Hi c Hm). simpl. rewrite Hs.
        destruct g as [|x g]; simpl; [by rewrite app_nil_r|]. by rewrite map_app, Hc.
      - rewrite Hs. destruct g as [|x g]; simpl; [by rewrite app_nil_r|]. by rewrite map_app, Hc. }
    destruct Hnext as [Hb' Hd]. rewrite (IH _ [] Hb'), Hd, after_nil by apply groups_some.
    cbn [groups]. rewrite Hm. cbn [after_group]. rewrite app_nil_r, <-app_assoc. by destruct g.
  - destruct (mark_in_group f g m Hm Hb) as (Hb' & Hd & _). by rewrite (IH _ _ Hb'), Hd, groups_cons, after_after.
Qed.

Lemma by_delimiter marks f g : no_spaces ifs → Cut ∉ marks → building f g → fs_after_space f = false →
  texts (foldl mark_step f marks) = map fst (fs_done f) ++ map text_of (ended (after_group g (groups ifs marks))).
Proof.
  intros Hi. revert f g. induction marks as [|m marks IH]; intros f g Hcut Hb Ha.
  { destruct Hb as [Hc Hs]. cbn [foldl groups after_group]. rewrite app_nil_r. unfold texts. rewrite Hs, Hc. by destruct g. }
  cbn [foldl]. apply not_elem_of_cons in Hcut as [Hne Hcut]. destruct (separates ifs m) eqn:Hm.
  - assert (Hnext : building (mark_step f m) [] ∧ map fst (fs_done (mark_step f m)) = map fst (fs_done f) ++ [text_of g] ∧
      fs_after_space (mark_step f m) = false).
    { destruct Hb as [Hc Hs]. destruct m as [text|c|]; [done| |done]. simpl in Hm |- *.
      unfold split_char. rewrite Hm, (Hi c Hm). simpl. rewrite Hs, Ha.
      destruct g as [|x g]; simpl; [|by rewrite map_app, Hc].
      rewrite map_app. by split_and!; [rewrite Hc|..]. }
    destruct Hnext as (Hb' & Hd & Ha'). rewrite (IH _ [] Hcut Hb' Ha'), Hd, after_nil by apply groups_some.
    cbn [groups]. rewrite Hm. cbn [after_group]. rewrite app_nil_r, <-app_assoc.
    pose proof (groups_some marks). by destruct (groups ifs marks).
  - destruct (mark_in_group f g m Hm Hb) as (Hb' & Hd & Ha'). by rewrite (IH _ _ Hcut Hb' Ha'), Hd, groups_cons, after_after.
Qed.

End marks.

(** ** The property *)

(** C33: Splitting equals its reference. When IFS holds white space only, the fields of any list of
    parts are the texts between separators that are not empty, quoted text being part of a field
    whatever it holds. When IFS holds no white space, the fields of parts without a field break are
    all the texts between delimiters, an empty one at the end excepted. *)
Theorem splitting_matches_reference ifs split parts :
  let marks := concat (map (marks_of split) parts) in
  (only_spaces ifs → map fst (split_parts ifs split parts) = fields_by_space ifs marks) ∧
  (no_spaces ifs → Forall (λ p, pt_break p = false) parts →
   map fst (split_parts ifs split parts) = fields_by_delimiter ifs marks).
Proof.
  cbv zeta. rewrite split_parts_marks. split.
  - intros Hi. rewrite (by_space ifs _ _ []) by done. by rewrite after_nil by apply groups_some.
  - intros Hi Hp. rewrite (by_delimiter ifs _ _ []); [|done| |done|done]; [by rewrite after_nil by apply groups_some|].
    induction Hp as [|p parts Hb Hp IH]; simpl; [apply not_elem_of_nil|]. intros [H|H]%elem_of_app; [|done].
    unfold marks_of in H. rewrite Hb in H. destruct (_ || _); simpl in H.
    + by apply list_elem_of_singleton in H.
    + by apply list_elem_of_fmap in H as (c & ? & _).
Qed.

Lemma splitting_matches_reference_witness :
  map fst (split_parts " " true [plain_part " a  b" false; quoted_part "c d" false]) = ["a"; "bc d"] ∧
  map fst (split_parts ":" true [plain_part ":a::b:" false]) = [""; "a"; ""; "b"].
Proof.
  split.
  - rewrite (proj1 (splitting_matches_reference " " true [plain_part " a  b" false; quoted_part "c d" false])); [reflexivity|].
    intros c Hc. apply bool_decide_eq_true in Hc. apply list_elem_of_singleton in Hc as ->. reflexivity.
  - rewrite (proj2 (splitting_matches_reference ":" true [plain_part ":a::b:" false])); [reflexivity| |by repeat constructor].
    intros c Hc. apply bool_decide_eq_true in Hc. apply list_elem_of_singleton in Hc as ->. reflexivity.
Defined.
