(* ===== verification/PseudoFs.v ===== *)
(** * Synthetic filesystem views (src/src/pseudo_fs.rs)

    [/proc] and [/dev] are generated from the machine and never stored in the filesystem. *)

From stdpp Require Import pretty.
From S2P Require Import Prelude.
From S2P Require Import State.
From S2P Require Import RustStr.
From S2P Require Import Resources.
From S2P Require Import Process.
From S2P Require Import Clock.
From S2P Require Import Scheduler.
From S2P Require Import Variables.
From S2P Require Import Descriptors.
From S2P Require Import Paths.
From S2P Require Import Vfs.
From S2P Require Import ProcessState.
From S2P Require Import Machine.

Inductive PseudoNode :=
| PseudoFile (data : bytes)
| PseudoDevice
| PseudoDirectory (entries : list string)
| PseudoSymlink (target : string)
| PseudoError (error : VfsError).

Definition MAX_PSEUDO_FILE_BYTES : Z := 4194304.

Definition text (s : string) : bytes := String.list_byte_of_string s.

(** [name=value] and a zero byte for every entry, or [None] past the limit. *)
Fixpoint environ_bytes (value : bytes) (entries : list (string * string)) : option bytes :=
  match entries with
  | [] => Some value
  | (name, contents) :: entries =>
      let required := size ← checked_add64 (str_len name) (str_len contents); checked_add64 size 2 in
      match required with
      | Some required =>
          if MAX_PSEUDO_FILE_BYTES <? sat_add64 (zlen value) required then None
          else environ_bytes (value ++ text name ++ text "=" ++ text contents ++ [Byte.x00]) entries
      | None => None
      end
  end.

Definition task_line (status : ProcessStatus) (task : option TaskState) : string * option Z :=
  match status, task with
  | Exited status, _ | _, Some (TaskExited status) => ("Z (zombie)", Some status)
  | Stopped _, _ | _, Some (TaskStopped _) => ("T (stopped)", None)
  | _, Some (TaskBlocked _) => ("S (sleeping)", None)
  | _, Some (TaskRunnable | TaskRunning) | Running, None => ("R (running)", None)
  end.

Definition status_text (process : ProcessRecord) (task : option TaskState) : string :=
  let '(state, status) := task_line (pr_status process) task in
  let exit := match status with Some status => "ExitCode:" +:+ tab +:+ pretty status +:+ newline | None => "" end in
  "Name:" +:+ tab +:+ pr_command process +:+ newline +:+
  "State:" +:+ tab +:+ state +:+ newline +:+
  "Pid:" +:+ tab +:+ pretty (pr_pid process) +:+ newline +:+
  "PPid:" +:+ tab +:+ pretty (pr_ppid process) +:+ newline +:+
  "NSpgid:" +:+ tab +:+ pretty (pr_process_group process) +:+ newline +:+
  "NSsid:" +:+ tab +:+ pretty (pr_session_id process) +:+ newline +:+
  "Uid:" +:+ tab +:+ "0" +:+ tab +:+ "0" +:+ tab +:+ "0" +:+ tab +:+ "0" +:+ newline +:+
  "Gid:" +:+ tab +:+ "0" +:+ tab +:+ "0" +:+ tab +:+ "0" +:+ tab +:+ "0" +:+ newline +:+ exit.

Definition meminfo_text (limit used : Z) : string :=
  let free := pretty (sat_sub limit used / 1024) in
  "MemTotal:       " +:+ pretty (limit / 1024) +:+ " kB" +:+ newline +:+
  "MemFree:        " +:+ free +:+ " kB" +:+ newline +:+
  "MemAvailable:   " +:+ free +:+ " kB" +:+ newline +:+
  "SwapTotal:      0 kB" +:+ newline +:+ "SwapFree:       0 kB" +:+ newline.

Definition device_kind (cwd path : string) : option DeviceKind :=
  let path := resolve_against cwd path in
  if bool_decide (path = "/dev/zero") then Some DevZero
  else if bool_decide (path = "/dev/random") then Some DevRandom
  else if bool_decide (path = "/dev/urandom") then Some DevUrandom
  else None.

(** [rest.split_once('/').unwrap_or((rest, ""))]. *)
Definition proc_parts (rest : string) : string * string := default (rest, "") (split_once slash rest).

Section pseudo.
(** [format!("{:.2}", ns as f64 / 1e9)]. *)
Context (format_seconds : Z → string).
(** The machine and the context of its active process. *)
Context (m : Machine) (env : ProcessState).

Definition absolute_path (cwd path : string) (follow_self : bool) : string :=
  let path := resolve_against cwd path in
  if bool_decide (path = "/proc/self") && follow_self then "/proc/" +:+ pretty (ps_pid env)
  else match strip_prefix "/proc/self/" path with
       | Some rest => "/proc/" +:+ pretty (ps_pid env) +:+ "/" +:+ rest
       | None => path
       end.

(** The nodes with a fixed path. *)
Definition fixed_node (path : string) : option PseudoNode :=
  let here p := bool_decide (path = p) in
  if here "/dev" then
    Some (PseudoDirectory ["null"; "random"; "stderr"; "stdin"; "stdout"; "urandom"; "zero"])
  else if here "/dev/null" then Some (PseudoFile [])
  else if here "/dev/random" || here "/dev/urandom" || here "/dev/zero" then Some PseudoDevice
  else if here "/dev/stdin" then Some (PseudoSymlink "/proc/self/fd/0")
  else if here "/dev/stdout" then Some (PseudoSymlink "/proc/self/fd/1")
  else if here "/dev/stderr" then Some (PseudoSymlink "/proc/self/fd/2")
  else if here "/proc/self" then Some (PseudoSymlink (pretty (ps_pid env)))
  else if here "/proc" then
    Some (PseudoDirectory (merge_sort key_le
      (["cpuinfo"; "meminfo"; "mounts"; "self"; "uptime"; "version"] ++
       map (λ process, pretty (pr_pid process)) (process_iter (m_processes m)))))
  else if here "/proc/uptime" then
    let seconds := format_seconds (tm_monotonic_ns (m_clock m)) in
    Some (PseudoFile (text (seconds +:+ " " +:+ seconds +:+ newline)))
  else if here "/proc/meminfo" then
    Some (PseudoFile (text (meminfo_text (lim_memory (rs_limits (m_resources m))) (memory_mark (m_resources m)))))
  else if here "/proc/cpuinfo" then
    Some (PseudoFile (text ("processor" +:+ tab +:+ ": 0" +:+ newline +:+
                            "model name" +:+ tab +:+ ": shellsim virtual CPU" +:+ newline)))
  else if here "/proc/version" then
    Some (PseudoFile (text ("Linux version 6.12.0-shellsim (deterministic simulator)" +:+ newline)))
  else if here "/proc/mounts" then
    Some (PseudoFile (text ("shellsim / rootfs rw 0 0" +:+ newline +:+ "proc /proc proc ro 0 0" +:+ newline +:+
                            "dev /dev devtmpfs ro 0 0" +:+ newline)))
  else None.

(** A node below [/proc/<pid>]. *)
Definition process_node (path : string) (pid : Z) (leaf : string) (process : ProcessRecord) : option PseudoNode :=
  if bool_decide (leaf = "") then
    Some (PseudoDirectory ["cmdline"; "cwd"; "environ"; "fd"; "status"])
  else if bool_decide (leaf = "cwd") then
    Some (PseudoSymlink (if pid =? ps_pid env then ps_cwd env else pr_cwd process))
  else if bool_decide (leaf = "cmdline") then Some (PseudoFile (text (pr_command process) ++ [Byte.x00]))
  else if bool_decide (leaf = "environ") then
    let entries :=
      if pid =? ps_pid env then
        omap (λ name, value ← va_values (ps_vars env) !! name; Some (name, value)) (string_set_iter (ps_exported env))
      else btree_iter (pr_environment process) in
    Some match environ_bytes [] entries with
         | Some value => PseudoFile value
         | None => PseudoError (TooLarge path MAX_PSEUDO_FILE_BYTES)
         end
  else if bool_decide (leaf = "fd") then Some (PseudoDirectory (map pretty (btree_keys (pr_descriptors process))))
  else match strip_prefix "fd/" leaf with
       | Some number => fd ← parse_i32 number; PseudoSymlink <$> pr_descriptors process !! fd
       | None =>
           if bool_decide (leaf = "status") then
             Some (PseudoFile (text (status_text process (sc_states (m_scheduler m) !! pid))))
           else None
       end.

Definition pseudo_lookup (cwd path : string) (follow_self : bool) : option PseudoNode :=
  let path := absolute_path cwd path follow_self in
  match fixed_node path with
  | Some node => Some node
  | None =>
      rest ← strip_prefix "/proc/" path;
      let '(pid_text, leaf) := proc_parts rest in
      pid ← parse_unsigned U32_MAX pid_text;
      process ← pt_records (m_processes m) !! pid;
      process_node path pid leaf process
  end.

Definition pseudo_read (cwd path : string) : option (result VfsError bytes) :=
  node ← pseudo_lookup cwd path true;
  Some match node with
       | PseudoFile data => Ok data
       | PseudoDevice => Err (Invalid path)
       | PseudoDirectory _ => Err (IsADir path)
       | PseudoSymlink _ => Err (NotFound path)
       | PseudoError error => Err error
       end.

Definition fixed_inodes : list string :=
  ["/dev"; "/dev/null"; "/dev/random"; "/dev/urandom"; "/dev/zero"; "/dev/stdin"; "/dev/stdout"; "/dev/stderr";
   "/proc"; "/proc/self"; "/proc/uptime"; "/proc/meminfo"; "/proc/cpuinfo"; "/proc/version"; "/proc/mounts"].

Fixpoint index_of (path : string) (paths : list string) : option Z :=
  match paths with
  | [] => None
  | p :: paths => if bool_decide (p = path) then Some 0 else Z.succ <$> index_of path paths
  end.

(** The identity of a generated node: [None] where the code panics on an unknown path. *)
Definition pseudo_inode (cwd path : string) (follow : bool) : option Z :=
  let path := absolute_path cwd path follow in
  match index_of path fixed_inodes with
  | Some i => Some (i + 1)
  | None =>
      rest ← strip_prefix "/proc/" path;
      let '(pid_text, leaf) := proc_parts rest in
      pid ← parse_unsigned U32_MAX pid_text;
      kind ←
        (if bool_decide (leaf = "") then Some 1
         else if bool_decide (leaf = "cwd") then Some 2
         else if bool_decide (leaf = "cmdline") then Some 3
         else if bool_decide (leaf = "environ") then Some 4
         else if bool_decide (leaf = "fd") then Some 5
         else if bool_decide (leaf = "status") then Some 6
         else number ← strip_prefix "fd/" leaf;
              fd ← parse_unsigned U64_MAX number;
              Some (Z.lor (Z.shiftl 1 31) fd));
      Some (Z.lor (Z.shiftl pid 32) kind)
  end.

Definition pseudo_metadata (cwd path : string) (follow : bool) : run (option (result VfsError Node)) :=
  match pseudo_lookup cwd path follow with
  | None => Ret None
  | Some node =>
      let found (kind : NodeKind) (mode : Z) :=
        inode ← expect (pseudo_inode cwd path follow);
        Ret (Some (Ok (MkNode inode kind mode 0 0 (unix_ms (m_clock m))))) in
      match node with
      | PseudoFile data => found (File data) 292
      | PseudoDevice => found (File []) 438
      | PseudoDirectory _ => found Dir 365
      | PseudoSymlink target => found (Symlink target) 511
      | PseudoError error => Ret (Some (Err error))
      end
  end.

Definition pseudo_list_dir (cwd path : string) : option (result VfsError (list string)) :=
  node ← pseudo_lookup cwd path true;
  Some match node with
       | PseudoDirectory entries => Ok entries
       | PseudoError error => Err error
       | _ => Err (NotADir path)
       end.

Definition pseudo_read_link (cwd path : string) : option (result VfsError string) :=
  node ← pseudo_lookup cwd path false;
  Some match node with
       | PseudoSymlink target => Ok target
       | PseudoError error => Err error
       | _ => Err (Invalid path)
       end.

End pseudo.
