(* ===== verification/Kernel.v ===== *)
(** * System calls (src/src/syscalls.rs, src/src/interp.rs)

    The filesystem and descriptor calls of a process, over the filesystem, the descriptor arena,
    the resource budget and the scheduler. [aliased] is an input of the calls that change file
    contents in place: whether those contents have another owner on the host. *)

From S2P Require Import Prelude.
From S2P Require Import State.
From S2P Require Import RustStr.
From S2P Require Import Resources.
From S2P Require Import Process.
From S2P Require Import Clock.
From S2P Require Import Scheduler.
From S2P Require Import Descriptors.
From S2P Require Import Paths.
From S2P Require Import Vfs.
From S2P Require Import ProcessState.
From S2P Require Import Machine.
From S2P Require Import PseudoFs.

(** ** Wake-ups and bookkeeping (src/src/interp.rs) *)

Definition sync_vfs_time : mach unit := modify (λ m, set_vfs m (set_mutation_time (m_vfs m) (unix_ms (m_clock m)))).

Definition env_wake_file_lock_waiters : mach unit :=
  changed ← (λ m, let '(a, changed) := take_file_lock_changes (m_descriptors m) in Ret (set_descriptors m a, changed));
  if changed : bool then wake wake_file_lock_waiters else mret tt.

Fixpoint release_pipes (closed : list Z) : mach unit :=
  match closed with
  | [] => mret tt
  | pipe :: closed =>
      found ← gets (λ m, m_pipe_reservations m !! pipe);
      _ ← match found with
          | Some n => _ ← modify (λ m, set_reservations m (delete pipe (m_pipe_reservations m))); release_bytes n
          | None => mret tt
          end;
      release_pipes closed
  end.

Definition closed_pipes (m : Machine) : list Z :=
  filter (λ pipe, contains_pipe (m_descriptors m) pipe = false) (btree_keys (m_pipe_reservations m)).

Definition release_closed_pipe_memory : mach unit := closed ← gets closed_pipes; release_pipes closed.

Definition wake_pipe_endpoint (endpoint : option (Z * bool)) : mach unit :=
  _ ← match endpoint with
      | Some (pipe, reader) =>
          wake (λ s, wake_waiters s (if reader : bool then PipeWritable pipe else PipeReadable pipe))
      | None => mret tt
      end;
  _ ← release_closed_pipe_memory;
  env_wake_file_lock_waiters.

Definition ok {E A} (r : result E A) : option A := match r with Ok a => Some a | Err _ => None end.

Definition refresh_descriptor_snapshot (pid : Z) : mach unit := modify (λ m,
  let descriptors :=
    match m_states m !! pid with
    | Some state => omap (λ id, ok (description_label (m_descriptors m) id)) (ft_entries (ps_fds state))
    | None => ∅
    end in
  set_processes m (update_descriptors (m_processes m) pid descriptors)).

Definition refresh_active : mach unit := p ← current; refresh_descriptor_snapshot (ps_pid p).

Definition install_new_description (fd description : Z) : sys unit :=
  installed ← table_do (λ t a, fd_install t fd description a);
  match installed with
  | Err error => _ ← arena_do (λ a, discard_unreferenced a description); fail error
  | Ok _ => _ ← refresh_active; done_ tt
  end.

(** Wake the coordinators of [pid] and of its ancestors. *)
Fixpoint wake_ancestors (rounds : nat) (pid : Z) : mach unit :=
  match rounds with
  | O => mret tt
  | S rounds =>
      _ ← wake (λ s, wake_child_activity_waiters s pid);
      record ← gets (λ m, pt_records (m_processes m) !! pid);
      match record with
      | None => mret tt
      | Some record => if pr_ppid record =? pid then mret tt else wake_ancestors rounds (pr_ppid record)
      end
  end.
Definition env_wake_child_activity_waiters (pid : Z) : mach unit := wake_ancestors (Z.to_nat MAX_PROCESSES) pid.

Definition process_fd (fd : Z) : sys Z := table_get (λ t, fd_get t fd).

(** ** Descriptor input and output (src/src/interp.rs) *)

Definition read_fd_at_checked (fd offset maximum : Z) : sys bytes :=
  description ←? process_fd fd;
  file ←? arena_get (λ a, file_state a description);
  match file with
  | None => fail SysInvalidArgument
  | Some file =>
      if negb (fs_readable file) then fail SysPermission
      else
        let maximum := Z.min maximum MAX_CAPTURE_BYTES in
        match fs_orphan file with
        | Some id => vfs_run (λ v, read_orphan_range v id offset maximum)
        | None => vfs_do (λ v, read_range v "/" (fs_path file) offset maximum)
        end
  end.

(** The bytes a read of a generated device may take, charged. *)
Definition device_budget (maximum : Z) : sys Z :=
  remaining ← gets (λ m, cpu_remaining (m_resources m));
  let maximum := Z.min (Z.min maximum DEVICE_READ_QUANTUM) (remaining / 2) in
  if maximum =? 0 then _ ← charge 1; fail SysResourceExhausted
  else
    granted ← charge maximum;
    if granted : bool then done_ maximum else fail SysResourceExhausted.

Definition is_ready {A} (p : IoPoll A) : bool := match p with Ready _ => true | _ => false end.

(** Wake the other end of a pipe after bytes moved through this one. *)
Definition wake_other_end (description : Z) (reader : bool) : sys unit :=
  endpoint ←? arena_get (λ a, pipe_endpoint a description);
  match endpoint with
  | Some (pipe, end_) =>
      if bool_decide (end_ = reader) then
        _ ← wake (λ s, wake_waiters s (if reader then PipeWritable pipe else PipeReadable pipe));
        p ← current;
        _ ← env_wake_child_activity_waiters (ps_pid p);
        done_ tt
      else done_ tt
  | None => done_ tt
  end.

Definition read_fd_checked (fd maximum : Z) : sys (IoPoll bytes) :=
  description ←? process_fd fd;
  file ←? arena_get (λ a, file_state a description);
  match file with
  | Some file =>
      data ←? read_fd_at_checked fd (fs_cursor file) maximum;
      _ ←? arena_do (λ a, advance_file a description (zlen data));
      done_ (Ready data)
  | None =>
      device ←? arena_get (λ a, is_generated_device a description);
      maximum ←? (if device : bool then device_budget maximum else done_ maximum);
      result ←? arena_run (λ a, arena_read a description maximum);
      _ ←? (if is_ready result then wake_other_end description true else done_ tt);
      done_ result
  end.

(** Where a write to a file lands: at its end in append mode, at the cursor otherwise. *)
Definition write_position (file : FileState) : sys Z :=
  if fs_append file then
    match fs_orphan file with
    | Some id =>
        node ←? vfs_get (λ v, orphan_metadata v id);
        match nd_kind node with File content => done_ (zlen content) | _ => fail SysInvalidArgument end
    | None => vfs_get (λ v, file_len v "/" (fs_path file))
    end
  else done_ (fs_cursor file).

Definition write_file_at (aliased : bool) (description : Z) (file : FileState) (data : bytes) : sys (IoPoll Z) :=
  if negb (fs_writable file) then fail SysPermission
  else
    position ←? write_position file;
    copied ←? match fs_orphan file with
              | Some id => vfs_get (λ v, orphan_cow_bytes v aliased id MutWrite)
              | None => vfs_get (λ v, file_cow_bytes v aliased "/" (fs_path file) MutWrite)
              end;
    charged ← charge copied;
    granted ← (if charged : bool then reserve copied else mret false);
    if negb granted then fail SysResourceExhausted
    else
      _ ← sync_vfs_time;
      written ← match fs_orphan file with
                | Some id => vfs_run (λ v, write_orphan_at v id position data)
                | None => vfs_run (λ v, write_at v "/" (fs_path file) position data)
                end;
      _ ← release_bytes copied;
      match written with
      | Err error =>
          _ ← (if fs_remove_on_first_write_error file && (position =? 0) then
                 _ ← vfs_do (λ v, remove_file v "/" (fs_path file)); mret tt
               else mret tt);
          fail error
      | Ok _ =>
          _ ←? arena_do (λ a, seek_file a description (sat_add64 position (zlen data)));
          done_ (Ready (zlen data))
      end.

Definition write_fd_checked (aliased : bool) (fd : Z) (data : bytes) : sys (IoPoll Z) :=
  description ←? process_fd fd;
  file ←? arena_get (λ a, file_state a description);
  match file with
  | Some file => write_file_at aliased description file data
  | None =>
      result ←? arena_do (λ a, arena_write a description data);
      _ ←? (if is_ready result then wake_other_end description false else done_ tt);
      done_ result
  end.

Definition block_on_io (w : IoWait) : mach (result SchedulerError Z) :=
  let reason :=
    match w with
    | WaitInputReadable description => InputReadable description
    | WaitPipeReadable pipe => PipeReadable pipe
    | WaitPipeWritable pipe => PipeWritable pipe
    end in
  λ m, let '(s, r) := block_current (m_scheduler m) reason in Ret (set_scheduler m s, r).

(** ** Opening files (src/src/syscalls.rs) *)

Record OpenFile := MkOpenFile {
  of_readable : bool;
  of_writable : bool;
  of_create : bool;
  of_exclusive : bool;
  of_truncate : bool;
  of_append : bool
}.

(** [path.contains('\0')]. *)
Definition has_nul (path : string) : bool := bool_decide (Ascii.zero ∈ String.list_ascii_of_string path).

Definition fd_count (p : ProcessState) : Z := Z.of_nat (size (ft_entries (ps_fds p))).
Definition fd_free (p : ProcessState) (fd : Z) : bool := bool_decide (ft_entries (ps_fds p) !! fd = None).

(** The descriptors from 5 on that are free, in order. *)
Definition free_fds (p : ProcessState) : list Z := filter (λ fd, fd_free p fd = true) (seqZ 5 MAX_FDS_PER_PROCESS).

Definition descriptor_limit {A} : sys A := fail (SysDescriptor DescriptorLimit).

(** How many descriptors of the process are open directories. *)
Definition directory_count (a : DescriptorArena) (p : ProcessState) : Z :=
  Z.of_nat (size (filter (λ '(_, id),
    match arena_state a id with Ok s => match ds_kind s with KindDirectory => true | _ => false end | Err _ => false end
      = true) (ft_entries (ps_fds p)))).

Section kernel.
Context (format_seconds : Z → string).

Definition in_pseudo {A} (f : Machine → ProcessState → A) : mach A := p ← current; gets (λ m, f m p).

(** [/dev/null] and the generated devices. *)
Definition open_synthetic (fd : Z) (absolute : string) (options : OpenFile) : sys unit :=
  if of_create options && of_exclusive options then fail (SysFile (Exists_ absolute))
  else
    description ←? arena_do (λ a,
      match device_kind "/" absolute with
      | Some kind => open_device a kind (of_readable options) (of_writable options)
      | None => open_null_with_access a (of_readable options) (of_writable options)
      end);
    install_new_description fd description.

Definition open_pseudo (fd : Z) (contents : result VfsError bytes) (options : OpenFile) : sys unit :=
  if negb (of_readable options) || of_writable options || of_create options || of_truncate options
  then fail SysPermission
  else
    contents ←? mret (from_file contents);
    description ←? arena_do (λ a, open_input a contents);
    install_new_description fd description.

Definition open_directory_node (fd : Z) (absolute : string) (node : Node) (options : OpenFile) : sys unit :=
  if of_writable options || of_create options || of_truncate options || of_append options then fail SysIsDirectory
  else
    path ←? vfs_get (λ v, realpath v absolute true);
    if 4096 <? str_len path then fail SysInvalidArgument
    else
      p ← current;
      directories ← gets (λ m, directory_count (m_descriptors m) p);
      if 64 <=? directories then descriptor_limit
      else
        description ←? arena_do (λ a, open_directory a path);
        _ ←? arena_do (λ a, bind_inode a description (nd_inode node));
        install_new_description fd description.

(** The file is there, truncated when asked, or it is created: whether it was created. *)
Definition prepare_file (absolute : string) (found : bool) (options : OpenFile) : sys bool :=
  if found then
    if of_create options && of_exclusive options then fail (SysFile (Exists_ absolute))
    else if of_truncate options then
      if negb (of_writable options) then fail SysPermission
      else
        _ ← sync_vfs_time;
        _ ←? vfs_do (λ v, vfs_write v "/" absolute [] 438);
        done_ false
    else done_ false
  else
    p ← current;
    _ ← sync_vfs_time;
    _ ←? vfs_do (λ v, vfs_write v "/" absolute [] (Z.ldiff 438 (ps_umask p)));
    done_ true.

Definition open_regular (fd : Z) (absolute : string) (created : bool) (options : OpenFile) : sys unit :=
  backing_path ←? vfs_get (λ v, realpath v absolute true);
  cursor ←? (if of_append options then vfs_get (λ v, file_len v "/" backing_path) else done_ 0);
  description ←? arena_do (λ a,
    open_file a backing_path cursor (of_readable options) (of_writable options) (of_append options) created);
  node ←? vfs_get (λ v, metadata v "/" absolute true);
  _ ←? arena_do (λ a, bind_inode a description (nd_inode node));
  install_new_description fd description.

Definition sys_open_file_at (fd : Z) (cwd path : string) (options : OpenFile) : sys unit :=
  p ← current;
  if (fd <? 0) || bool_decide (path = "") || has_nul path || (negb (of_readable options) && negb (of_writable options))
  then fail SysInvalidArgument
  else if fd_free p fd && (MAX_FDS_PER_PROCESS <=? fd_count p) then descriptor_limit
  else
    let absolute := resolve_against cwd path in
    exists_ ← gets (λ m, vfs_lexists (m_vfs m) "/" absolute);
    if of_create options && of_exclusive options && exists_ then fail (SysFile (Exists_ absolute))
    else
      absolute ←? vfs_get (λ v, realpath v absolute true);
      if bool_decide (absolute = "/dev/null") || bool_decide (is_Some (device_kind "/" absolute))
      then open_synthetic fd absolute options
      else
        pseudo ← in_pseudo (λ m p, pseudo_read format_seconds m p "/" absolute);
        match pseudo with
        | Some contents => open_pseudo fd contents options
        | None =>
            found ← gets (λ m, metadata (m_vfs m) "/" absolute true);
            match found with
            | Ok node =>
                match nd_kind node with
                | Dir => open_directory_node fd absolute node options
                | _ => created ←? prepare_file absolute true options; open_regular fd absolute created options
                end
            | Err (NotFound missing) =>
                if of_create options && of_writable options
                then created ←? prepare_file absolute false options; open_regular fd absolute created options
                else fail (SysFile (NotFound missing))
            | Err error => fail (SysFile error)
            end
        end.

Definition sys_open_file (cwd path : string) (options : OpenFile) : sys Z :=
  p ← current;
  if bool_decide (path = "") || has_nul path || (negb (of_readable options) && negb (of_writable options))
  then fail SysInvalidArgument
  else if MAX_FDS_PER_PROCESS <=? fd_count p then descriptor_limit
  else match head (free_fds p) with
       | None => descriptor_limit
       | Some fd => _ ←? sys_open_file_at fd cwd path options; done_ fd
       end.

End kernel.

(** ** Open descriptors (src/src/syscalls.rs) *)

Definition sys_file_state (fd : Z) : sys FileState :=
  description ←? process_fd fd;
  file ←? arena_get (λ a, file_state a description);
  match file with Some file => done_ file | None => fail (SysDescriptor WrongAccess) end.

Definition retain_live_orphans : mach unit := modify (λ m, set_vfs m (retain_orphans (m_vfs m) (live_orphans (m_descriptors m)))).

Definition sys_close (fd : Z) : sys unit :=
  description ←? process_fd fd;
  endpoint ←? arena_get (λ a, pipe_endpoint a description);
  _ ←? table_do (λ t a, fd_close t fd a);
  _ ← wake_pipe_endpoint endpoint;
  _ ← retain_live_orphans;
  _ ← refresh_active;
  done_ tt.

Definition sys_duplicate (source destination : Z) : sys unit :=
  p ← current;
  previous ← gets (λ m,
    id ← ok (fd_get (ps_fds p) destination); endpoint ← ok (pipe_endpoint (m_descriptors m) id); endpoint);
  _ ←? table_do (λ t a, fd_duplicate t source destination a);
  _ ← wake_pipe_endpoint previous;
  _ ← refresh_active;
  done_ tt.

Definition sys_descriptor_state (fd : Z) : sys DescriptorState :=
  description ←? process_fd fd; arena_get (λ a, arena_state a description).

Definition sys_file_lock_inode (fd : Z) : sys Z :=
  description ←? process_fd fd; arena_get (λ a, description_inode a description).

Definition sys_file_lock (fd : Z) (mode : option FileLockMode) : sys bool :=
  granted ← charge MAX_OPEN_DESCRIPTIONS;
  if negb granted then fail SysResourceExhausted
  else
    inode ←? sys_file_lock_inode fd;
    description ←? process_fd fd;
    acquired ←? arena_run (λ a, file_lock a description inode mode);
    _ ← env_wake_file_lock_waiters;
    done_ acquired.

(** The length of the file a description names. *)
Definition described_len (file : FileState) : sys Z :=
  match fs_orphan file with
  | Some id => vfs_query (λ v, orphan_len v id)
  | None => vfs_get (λ v, file_len v "/" (fs_path file))
  end.

Definition sys_descriptor_readiness (fd : Z) (writing : bool) : sys (IoPoll DescriptorReady) :=
  id ←? process_fd fd;
  file ←? arena_get (λ a, file_state a id);
  match file with
  | Some file =>
      if (writing && negb (fs_writable file)) || (negb writing && negb (fs_readable file))
      then fail (SysDescriptor WrongAccess)
      else
        count ←? (if writing : bool then done_ U64_MAX
                  else length ←? described_len file; done_ (sat_sub length (fs_cursor file)));
        done_ (Ready (MkDescriptorReady count false))
  | None => r ← lift_run (λ m, readiness (m_descriptors m) id writing); mret (from_descriptor r)
  end.

Definition sys_directory_path (fd : Z) : sys string :=
  description ←? process_fd fd; arena_get (λ a, directory_path a description).

(** [Result::expect]. *)
Definition expect_ok {A} (m : sys A) : mach A := r ← m; match r with Ok a => mret a | Err _ => panic end.

(** Install one end of a fresh pipe. *)
Definition install_end (fd description : Z) (close_on_exec nonblocking : bool) : mach unit :=
  _ ← expect_ok (table_do (λ t a, fd_install t fd description a));
  _ ← expect_ok (table_do (λ t a, let '(t, r) := set_close_on_exec t fd close_on_exec in (t, a, r)));
  expect_ok (arena_do (λ a, set_nonblocking a description nonblocking)).

Definition PIPE_RESERVATION : Z := DEFAULT_PIPE_CAPACITY + 256.

Definition sys_pipe (close_on_exec nonblocking : bool) : sys (Z * Z) :=
  p ← current;
  match free_fds p with
  | first :: second :: _ =>
      if MAX_FDS_PER_PROCESS - 2 <? fd_count p then descriptor_limit
      else
        charged ← charge 1;
        granted ← (if charged : bool then reserve PIPE_RESERVATION else mret false);
        if negb granted then fail SysResourceExhausted
        else
          opened ← arena_do (λ a, open_pipe a DEFAULT_PIPE_CAPACITY);
          match opened with
          | Err error => _ ← release_bytes PIPE_RESERVATION; fail error
          | Ok (reader, writer) =>
              endpoint ←? arena_get (λ a, pipe_endpoint a reader);
              match endpoint with
              | None => panic
              | Some (pipe, _) =>
                  _ ← modify (λ m, set_reservations m (<[pipe := PIPE_RESERVATION]> (m_pipe_reservations m)));
                  _ ← install_end first reader close_on_exec nonblocking;
                  _ ← install_end second writer close_on_exec nonblocking;
                  _ ← refresh_active;
                  done_ (first, second)
              end
          end
  | _ => descriptor_limit
  end.

Definition sys_resize_file (aliased : bool) (fd size : Z) : sys unit :=
  file ←? sys_file_state fd;
  if negb (fs_writable file) then fail SysPermission
  else
    old_size ←? described_len file;
    copied ←? match fs_orphan file with
              | Some id => vfs_get (λ v, orphan_cow_bytes v aliased id (MutResize size))
              | None => vfs_get (λ v, file_cow_bytes v aliased "/" (fs_path file) (MutResize size))
              end;
    let allocation := sat_add64 copied (sat_sub size old_size) in
    charged ← charge (sat_add64 allocation 1);
    granted ← (if charged : bool then reserve allocation else mret false);
    if negb granted then fail SysResourceExhausted
    else
      _ ← sync_vfs_time;
      resized ← match fs_orphan file with
                | Some id => vfs_run (λ v, resize_orphan v id size)
                | None => vfs_run (λ v, resize_file v "/" (fs_path file) size)
                end;
      _ ← release_bytes allocation;
      mret resized.

Definition sys_seek (fd delta whence : Z) : sys Z :=
  description ←? process_fd fd;
  if 2 <? whence then fail SysInvalidArgument
  else
    state ←? arena_get (λ a, arena_state a description);
    match ds_kind state with
    | KindDevice => done_ 0
    | _ =>
        file ←? sys_file_state fd;
        base ←? (if whence =? 0 then done_ 0 else if whence =? 1 then done_ (fs_cursor file) else described_len file);
        let position := base + delta in
        if (position <? 0) || (U64_MAX <? position) then fail SysInvalidArgument
        else
          _ ←? arena_do (λ a, seek_file a description position);
          done_ position
    end.

(** ** Paths (src/src/syscalls.rs) *)

(** A call that changes only the filesystem, at the current time. *)
Definition path_do {A} (f : Vfs → vfs_result A) : sys A := _ ← sync_vfs_time; vfs_do f.
Definition path_run {A} (f : Vfs → run (vfs_result A)) : sys A := _ ← sync_vfs_time; vfs_run f.

Definition sys_chmod (cwd path : string) (mode : Z) : sys unit :=
  if bool_decide (path = "") || has_nul path || negb (Z.ldiff mode 4095 =? 0) then fail SysInvalidArgument
  else path_do (λ v, vfs_chmod v cwd path mode).

Definition is_regular (n : Node) : bool := match nd_kind n with File _ => true | _ => false end.

Definition sys_unlink (cwd path : string) : sys unit :=
  _ ← sync_vfs_time;
  entry ←? vfs_get (λ v, realpath v (resolve_against cwd path) false);
  open ← gets (λ m, has_open_file (m_descriptors m) entry);
  detach ←? (if open : bool then node ←? vfs_get (λ v, metadata v "/" entry false); done_ (is_regular node)
             else done_ false);
  if detach : bool then
    orphan ←? vfs_run (λ v, unlink_open_file v "/" entry);
    _ ← modify (λ m, set_descriptors m (detach_file (m_descriptors m) entry orphan));
    done_ tt
  else vfs_do (λ v, remove_file v cwd path).

Definition sys_mkdir (cwd path : string) : sys unit :=
  _ ←? path_do (λ v, vfs_mkdir v cwd path);
  p ← current;
  vfs_do (λ v, vfs_chmod v cwd path (Z.ldiff 511 (ps_umask p))).

Definition sys_rmdir (cwd path : string) : sys unit := path_do (λ v, vfs_rmdir v cwd path).
Definition sys_rename (cwd from to : string) : sys unit := path_run (λ v, vfs_rename v cwd from to).
Definition sys_mkdir_all (base path : string) : sys unit := path_do (λ v, mkdir_all v base path).
Definition sys_copy_file (base from to : string) : sys unit := path_run (λ v, copy_file v base from to).
Definition sys_copy_recursive (base from to : string) (preserve : bool) : sys unit :=
  path_run (λ v, copy_recursive v base from to preserve).
Definition sys_symlink (base target link : string) : sys unit := path_do (λ v, vfs_symlink v base target link).
Definition sys_chown (base path : string) (uid gid : option Z) : sys unit :=
  path_do (λ v, vfs_chown v base path uid gid).
Definition sys_touch (base path : string) (mtime_ms : Z) : sys unit := path_do (λ v, vfs_touch v base path mtime_ms).
Definition sys_write_file (base path : string) (data : bytes) (mode : Z) : sys unit :=
  path_do (λ v, vfs_write v base path data mode).
Definition sys_put_file_with_parents (base path : string) (data : bytes) (mode : Z) : sys unit :=
  path_do (λ v, put_file v (resolve_against base path) data mode).

(** *** Batches of changes *)

Inductive FileChange :=
| ChangeMkdirAll (path : string)
| ChangeRemoveFile (path : string)
| ChangePutFile (path : string) (data : bytes) (mode : Z)
| ChangePutSymlink (link target : string).

Definition MAX_CHANGES : Z := 10000.

Definition change_work (change : FileChange) : Z :=
  match change with
  | ChangeMkdirAll path | ChangeRemoveFile path => str_len path
  | ChangePutFile path data _ => sat_add64 (str_len path) (zlen data)
  | ChangePutSymlink link target => sat_add64 (str_len link) (str_len target)
  end.

Definition apply_change (base : string) (v : Vfs) (change : FileChange) : vfs_result unit :=
  match change with
  | ChangeMkdirAll path => mkdir_all v base path
  | ChangeRemoveFile path => remove_file v base path
  | ChangePutFile path data mode => put_file v (resolve_against base path) data mode
  | ChangePutSymlink link target =>
      let absolute := resolve_against base link in
      let '(v, made) := match parent_of absolute with Some parent => mkdir_all v base parent | None => (v, Ok tt) end in
      match made with
      | Err error => (v, Err error)
      | Ok _ => vfs_symlink (remove_file v base absolute).1 base target absolute
      end
  end.

Fixpoint apply_changes (base : string) (v : Vfs) (changes : list FileChange) : vfs_result unit :=
  match changes with
  | [] => (v, Ok tt)
  | change :: changes =>
      match apply_change base v change with
      | (v, Ok _) => apply_changes base v changes
      | (v, Err error) => (v, Err error)
      end
  end.

Definition sys_apply_file_batch (base : string) (changes : list FileChange) : sys unit :=
  if MAX_CHANGES <? zlen changes then fail SysInvalidArgument
  else
    let work := foldl (λ total change, sat_add64 total (change_work change)) 0 changes in
    snapshot ← gets (λ m, sat_mul64 (vf_disk_used (m_vfs m)) 2);
    reserved ← reserve snapshot;
    if negb reserved then fail SysResourceExhausted
    else
      charged ← charge (sat_add64 snapshot work);
      if negb charged then _ ← release_bytes snapshot; fail SysResourceExhausted
      else
        '(staged, result) ← gets (λ m, apply_changes base (set_mutation_time (m_vfs m) (unix_ms (m_clock m))) changes);
        _ ← (if is_ok result then modify (λ m, set_vfs m staged) else mret tt);
        _ ← release_bytes snapshot;
        mret (from_file result).

(** *** Metadata *)

Inductive FileKind := FkFile | FkDirectory | FkSymlink.

Record FileInfo := MkFileInfo {
  fi_device : Z;
  fi_inode : Z;
  fi_kind : FileKind;
  fi_mode : Z;
  fi_size : Z;
  fi_blocks : Z;
  fi_link_target : option string;
  fi_mtime_ms : Z;
  fi_uid : Z;
  fi_gid : Z;
  fi_native_executable : bool
}.

Definition BLOCK_BYTES : Z := 4096.

(** [size.div_ceil(4096).saturating_mul(8)]. *)
Definition allocated_blocks (size_bytes : Z) : Z := sat_mul64 ((size_bytes + BLOCK_BYTES - 1) / BLOCK_BYTES) 8.

Definition file_info (n : Node) : FileInfo :=
  let '(kind, size, blocks, link_target, native) :=
    match nd_kind n with
    | File data => (FkFile, zlen data, allocated_blocks (zlen data), None, false)
    | Dir => (FkDirectory, BLOCK_BYTES, 8, None, false)
    | Symlink target => (FkSymlink, str_len target, 0, Some target, false)
    | NativeExecutable _ => (FkFile, 0, 0, None, true)
    end in
  MkFileInfo (if nd_inode n =? 0 then 0 else 1) (nd_inode n) kind (nd_mode n) size blocks link_target
    (nd_mtime n) (nd_uid n) (nd_gid n) native.

Definition pseudo_info (n : Node) : FileInfo :=
  let info := file_info n in
  MkFileInfo 2 (fi_inode info) (fi_kind info) (fi_mode info)
    (match fi_kind info with FkDirectory => 0 | _ => fi_size info end) 0 (fi_link_target info) (fi_mtime_ms info)
    (fi_uid info) (fi_gid info) (fi_native_executable info).

Section queries.
Context (format_seconds : Z → string).

(** A generated node before a stored one. *)
Definition pseudo_node (base path : string) (follow : bool) : mach (option (result VfsError Node)) :=
  p ← current; lift_run (λ m, pseudo_metadata format_seconds m p base path follow).

Definition sys_metadata (base path : string) (follow : bool) : sys FileInfo :=
  pseudo ← pseudo_node base path follow;
  match pseudo with
  | Some node => node ←? mret (from_file node); done_ (pseudo_info node)
  | None => node ←? vfs_get (λ v, metadata v base path follow); done_ (file_info node)
  end.

Definition sys_metadata_fd (fd : Z) : sys FileInfo :=
  directory ← sys_directory_path fd;
  match directory with
  | Ok path => sys_metadata "/" path true
  | Err _ =>
      file ←? sys_file_state fd;
      match fs_orphan file with
      | Some id => node ←? vfs_get (λ v, orphan_metadata v id); done_ (file_info node)
      | None => sys_metadata "/" (fs_path file) true
      end
  end.

Definition fs_metadata (cwd path : string) (follow : bool) : sys Node :=
  pseudo ← pseudo_node cwd path follow;
  match pseudo with Some node => mret (from_file node) | None => vfs_get (λ v, metadata v cwd path follow) end.

Definition fs_read_link (cwd path : string) : sys string :=
  pseudo ← in_pseudo (λ m p, pseudo_read_link format_seconds m p cwd path);
  match pseudo with Some r => mret (from_file r) | None => vfs_get (λ v, read_link v cwd path) end.

Definition fs_list_dir (cwd path : string) : sys (list string) :=
  pseudo ← in_pseudo (λ m p, pseudo_list_dir format_seconds m p cwd path);
  match pseudo with Some r => mret (from_file r) | None => vfs_get (λ v, list_dir v cwd path) end.

Definition fs_read_limited (cwd path : string) (limit : Z) : sys bytes :=
  pseudo ← in_pseudo (λ m p, pseudo_read format_seconds m p cwd path);
  match pseudo with
  | Some r =>
      data ←? mret (from_file r);
      if limit <? zlen data then fail (SysFile (TooLarge path limit)) else done_ data
  | None => vfs_do (λ v, read_limited v cwd path limit)
  end.

(** One pass over the components: the path reached, or the path to start over with. *)
Fixpoint resolve_pass (follow_final : bool) (resolved : string) (comps : list string) : sys (string * bool) :=
  match comps with
  | [] => done_ (resolved, false)
  | component :: rest =>
      let candidate := if bool_decide (resolved = "/") then "/" +:+ component else resolved +:+ "/" +:+ component in
      node ←? fs_metadata "/" candidate false;
      let is_final := bool_decide (rest = []) in
      match nd_kind node with
      | Symlink _ =>
          if negb is_final || follow_final then
            target ←? fs_read_link "/" candidate;
            let parent := default "/" (parent_of candidate) in
            let replacement := resolve_against parent target in
            let replacement := if is_final then replacement else replacement +:+ "/" +:+ String.concat "/" rest in
            done_ (normalize replacement, true)
          else resolve_pass follow_final candidate rest
      | _ => resolve_pass follow_final candidate rest
      end
  end.

Fixpoint resolve_rounds (rounds : nat) (follow_final : bool) (pending : string) : sys string :=
  match rounds with
  | O => fail (SysFile (Loop pending))
  | S rounds =>
      let comps := filter (λ c, c ≠ "") (split_slash pending) in
      '(path, restarted) ←? resolve_pass follow_final "/" comps;
      if restarted : bool then resolve_rounds rounds follow_final path else done_ path
  end.

Definition fs_realpath (cwd path : string) (follow_final : bool) : sys string :=
  resolve_rounds 40 follow_final (resolve_against cwd path).

Definition sys_read_link_prefix (base path : string) (maximum : Z) : sys bytes :=
  pseudo ← in_pseudo (λ m p, pseudo_read_link format_seconds m p base path);
  match pseudo with
  | Some target => target ←? mret (from_file target); done_ (take (Z.to_nat maximum) (text target))
  | None => vfs_get (λ v, read_link_prefix v base path maximum)
  end.

Definition sys_canonicalize (base path : string) (strict : bool) : sys string :=
  let absolute := resolve_against base path in
  if strict then fs_realpath "/" absolute true else vfs_get (λ v, realpath v absolute true).

Definition sys_chdir (path : string) : sys unit :=
  p ← current;
  if bool_decide (path = "") || has_nul path then fail SysInvalidArgument
  else
    let absolute := resolve_against (ps_cwd p) path in
    node ←? fs_metadata "/" absolute true;
    match nd_kind node with
    | Dir =>
        resolved ←? fs_realpath "/" absolute true;
        _ ← update_current (λ p, with_cwd p resolved);
        done_ tt
    | _ => fail (SysFile (NotADir absolute))
    end.

End queries.

(** ** Process state, time and children (src/src/syscalls.rs) *)

Definition sys_set_umask (mask : Z) : sys unit :=
  if 511 <? mask then fail SysInvalidArgument
  else _ ← update_current (λ p, with_umask p mask); done_ tt.

Definition sys_set_hostname (name : string) : sys unit :=
  if bool_decide (name = "") || (255 <? str_len name) || has_nul name then fail SysInvalidArgument
  else _ ← modify (λ m, set_hostname m name); done_ tt.

Inductive ClockId := Realtime | Monotonic.

Definition sys_clock_time_ns (clock : ClockId) : sys Z := gets (λ m,
  match clock with
  | Realtime =>
      match wall_time_ns (m_clock m) with
      | Ok value => if (0 <=? value) && (value <=? U64_MAX) then Ok value else Err SysInvalidArgument
      | Err _ => Err SysInvalidArgument
      end
  | Monotonic => Ok (tm_monotonic_ns (m_clock m))
  end).

Definition sys_schedule_wake (duration_ns : Z) : sys Z :=
  p ← current;
  scheduled ← (λ m, let '(c, r) := schedule_wake_after (m_clock m) (ps_pid p) duration_ns in Ret (set_clock m c, r));
  match scheduled with Ok event => done_ (ev_deadline_ns event) | Err _ => fail SysInvalidArgument end.

(** [fill_virtual_random] over a buffer of [count] bytes. *)
Fixpoint virtual_random (count : nat) (state : Z) : Z * bytes :=
  match count with
  | O => (state, [])
  | S count =>
      let state := (state * 6364136223846793005 + 1) mod 2 ^ 64 in
      let '(last, rest) := virtual_random count state in
      (last, byte_of (Z.shiftr state 32) :: rest)
  end.

Definition sys_random_fill (count : nat) : sys bytes :=
  granted ← charge (Z.of_nat count);
  if negb granted then fail SysResourceExhausted
  else
    p ← current;
    let '(state, filled) := virtual_random count (ps_syscall_random p) in
    _ ← update_current (λ p, with_random p state);
    done_ filled.

Definition sys_allocate_temp_id : mach (option Z) :=
  id ← gets m_next_temp_id;
  match checked_add64 id 1 with
  | None => mret None
  | Some next =>
      _ ← modify (λ m, set_temp_id m next);
      mret (Some id)
  end.

Definition sys_child_status (pid : Z) : sys (option Z) :=
  p ← current;
  child ← gets (λ m, pt_records (m_processes m) !! pid);
  match child with
  | None => fail SysInvalidArgument
  | Some child =>
      if negb (pr_ppid child =? ps_pid p) then fail SysPermission
      else done_ match pr_status child with Exited status => Some status | _ => None end
  end.

Definition sys_child_completion (pid : Z) : sys (option ChildCompletion) :=
  _ ←? sys_child_status pid;
  found ← gets (λ m, completion (m_processes m) pid);
  done_ found.

Definition sys_reap_child (pid : Z) : sys Z :=
  status ←? sys_child_status pid;
  match status with
  | None => fail SysInvalidArgument
  | Some status =>
      _ ← modify (λ m, set_processes m (process_reap (m_processes m) pid).1);
      _ ← modify (λ m, set_scheduler m (scheduler_reap (m_scheduler m) pid).1);
      done_ status
  end.
