(* ===== verification/Lifecycle.v ===== *)
(** * Process lifecycle (src/src/interp.rs)

    Forking a context, ending one, signals and job control, and the memory a context holds. What
    the source reports as text is [LifecycleError]. *)

From S2P Require Import Prelude.
From S2P Require Import State.
From S2P Require Import RustStr.
From S2P Require Import Resources.
From S2P Require Import Variables.
From S2P Require Import Descriptors.
From S2P Require Import Process.
From S2P Require Import Clock.
From S2P Require Import Scheduler.
From S2P Require Import Vfs.
From S2P Require Import Syntax.
From S2P Require Import ProcessState.
From S2P Require Import Machine.
From S2P Require Import Kernel.

Inductive LifecycleError :=
| ForkStateLimit
| ForkMemory
| InheritDescriptors (error : DescriptorError)
| ProcessLimit
| SuspendParent (error : SchedulerError)
| ScheduleChild (error : SchedulerError)
| DispatchChild (error : SchedulerError)
| ChildNotRunnable
| ContextExists (pid : Z)
| NoContext (pid : Z)
| NoProcess (pid : Z)
| NoGroup (group : Z)
| StopFailed (pid : Z) (error : SchedulerError)
| ContinueFailed (pid : Z) (error : SchedulerError)
| WakeFailed (pid : Z) (error : SchedulerError)
| NotIdle
| ParkFailed (pid : Z) (error : SchedulerError).

Abbreviation lifecycle A := (stm Machine (result LifecycleError A)).

Definition refuse {A} (error : LifecycleError) : lifecycle A := mret (Err error).
Definition accept {A} (a : A) : lifecycle A := mret (Ok a).
Definition and_then {A B} (k : A → lifecycle B) (m : lifecycle A) : lifecycle B :=
  r ← m; match r with Ok a => k a | Err error => refuse error end.

Notation "x ←! y ; z" := (and_then (λ x : _, z) y)
  (at level 20, y at level 100, z at level 200, only parsing) : stdpp_scope.

(** An operation of the scheduler. *)
Definition sched_do {A} (f : Scheduler → Scheduler * result SchedulerError A) : mach (result SchedulerError A) := λ m,
  let '(c, r) := f (m_scheduler m) in Ret (set_scheduler m c, r).

(** ** The contexts *)

Definition activate (pid : Z) : lifecycle unit :=
  found ← gets (λ m, bool_decide (is_Some (m_states m !! pid)));
  if found : bool then _ ← modify (λ m, set_active m pid); accept tt else refuse (NoContext pid).

(** [ProcessStates::insert]: the context is stored even when there was one. *)
Definition insert_state (p : ProcessState) : lifecycle unit :=
  previous ← gets (λ m, m_states m !! ps_pid p);
  _ ← modify (λ m, set_states m (<[ps_pid p := p]> (m_states m)));
  match previous with Some _ => refuse (ContextExists (ps_pid p)) | None => accept tt end.

Definition update_state (pid : Z) (f : ProcessState → ProcessState) : mach unit :=
  modify (λ m, set_states m (alter f pid (m_states m))).

(** [set_program]: whether a resumable program is stored. *)
Definition set_state_program (pid : Z) (program : bool) : lifecycle unit :=
  found ← gets (λ m, bool_decide (is_Some (m_states m !! pid)));
  if found : bool then _ ← update_state pid (λ p, with_program p program); accept tt else refuse (NoContext pid).

Definition set_state_deadline (pid : Z) (event : EventId) : lifecycle unit :=
  found ← gets (λ m, bool_decide (is_Some (m_states m !! pid)));
  if found : bool then _ ← update_state pid (λ p, with_deadline p (Some event)); accept tt else refuse (NoContext pid).

Definition action_members (m : Machine) (generation : Z) : list Z :=
  map ps_pid (filter (λ p, id_generation (ps_identity p) = generation) (btree_values (m_states m))).

(** ** Forking *)

Definition MAX_FORK_STATE_BYTES : Z := 33554432.

Definition processes_do (f : ProcessTable → ProcessTable) : mach unit := modify (λ m, set_processes m (f (m_processes m))).

(** Give back what a failed child had taken. *)
Definition close_child (child_fds : FdTable) : mach unit :=
  modify (λ m, set_descriptors m (close_all child_fds (m_descriptors m)).2).
Definition undo_process (pid : Z) (cwd : string) : mach unit :=
  processes_do (λ t, (process_reap (process_exit t pid 125 cwd) pid).1).

Section fork.
Context (NODE_SIZE REDIRECT_SIZE : Z).

Definition create_child (command : string) (new_shell foreground detached : bool) (placement : ChildPlacement)
    : lifecycle Z :=
  p ← current;
  let fork_bytes := fork_memory_bytes NODE_SIZE REDIRECT_SIZE p in
  if MAX_FORK_STATE_BYTES <? fork_bytes then refuse ForkStateLimit
  else
    let allocation := sat_add64 fork_bytes 256 in
    granted ← reserve allocation;
    if negb granted then refuse ForkMemory
    else
      let environment := child_env p in
      forked ← (λ m, let '(a, r) := fd_fork (ps_fds p) (m_descriptors m) in Ret (set_descriptors m a, r));
      match forked with
      | Err error => _ ← release_bytes allocation; refuse (InheritDescriptors error)
      | Ok child_fds =>
          _ ← processes_do (λ t, Process.update_current t (ps_pid p) (ps_cwd p) environment);
          spawned ← (λ m, let '(t, pid) := process_spawn (m_processes m) (ps_pid p) placement command (ps_cwd p) environment in
                          Ret (set_processes m t, pid));
          match spawned with
          | None => _ ← close_child child_fds; _ ← release_bytes allocation; refuse ProcessLimit
          | Some pid =>
              suspended ← (if foreground then sched_do (λ c, block_current c (Scheduler.Child pid)) else mret (Ok 0));
              match suspended with
              | Err error =>
                  _ ← close_child child_fds; _ ← undo_process pid (ps_cwd p);
                  _ ← release_bytes allocation; refuse (SuspendParent error)
              | Ok _ =>
                  scheduled ← sched_do (λ c, scheduler_spawn c pid);
                  match scheduled with
                  | Err error =>
                      _ ← close_child child_fds;
                      _ ← (if foreground then
                             _ ← sched_do (λ c, scheduler_wake c (ps_pid p)); _ ← sched_do dispatch; mret tt
                           else mret tt);
                      _ ← undo_process pid (ps_cwd p);
                      _ ← release_bytes allocation; refuse (ScheduleChild error)
                  | Ok _ =>
                      record ← lift_run (λ m, expect (pt_records (m_processes m) !! pid));
                      _ ←! insert_state (fork_for_child p record new_shell child_fds allocation detached);
                      _ ← refresh_descriptor_snapshot pid;
                      if foreground then
                        dispatched ← sched_do dispatch;
                        match dispatched with
                        | Err error => refuse (DispatchChild error)
                        | Ok None => refuse ChildNotRunnable
                        | Ok (Some next) => _ ←! activate next; accept pid
                        end
                      else accept pid
                  end
              end
          end
      end.

Definition start_child (command : string) (new_shell : bool) : lifecycle Z :=
  create_child command new_shell true false Inherit.
Definition start_background_child (command : string) (new_shell : bool) : lifecycle Z :=
  create_child command new_shell false true NewProcessGroup.
Definition start_pipeline_child (command : string) (new_shell : bool) : lifecycle Z :=
  create_child command new_shell false false Inherit.

(** The default shell is idle: it runs, and nothing is suspended or unwinding in it. *)
Definition shell_idle (m : Machine) (p : ProcessState) : bool :=
  let root := ct_session_id (m_terminal m) in
  (ps_pid p =? root) && bool_decide (sc_current (m_scheduler m) = Some root) && negb (ps_program p) &&
  bool_decide (ctl_exiting (sh_control (ps_shell p)) = None).

Definition spawn_shell_session : lifecycle Z :=
  p ← current;
  idle ← gets (λ m, shell_idle m p);
  if negb idle then refuse NotIdle
  else
    pid ←! create_child "bash" true false false NewSession;
    parked ← sched_do (λ c, park_runnable c pid (ShellSession pid));
    match parked with Ok _ => accept pid | Err error => refuse (ParkFailed pid error) end.

End fork.

(** ** Signals *)

Definition is_blocked (c : Scheduler) (pid : Z) : bool :=
  match sc_states c !! pid with Some (TaskBlocked _) => true | _ => false end.

(** Wake a process that waits, when [wanted]. *)
Definition wake_if (wanted : bool) (pid : Z) (failed : SchedulerError → LifecycleError) : lifecycle unit :=
  blocked ← gets (λ m, is_blocked (m_scheduler m) pid);
  if wanted && blocked then
    woken ← sched_do (λ c, scheduler_wake c pid);
    match woken with Ok _ => accept tt | Err error => refuse (failed error) end
  else accept tt.

(** The entry of a job list for [pid]. *)
Fixpoint set_job (jobs : list Job) (pid : Z) (state : JobState) : list Job :=
  match jobs with
  | [] => []
  | job :: jobs =>
      if jb_pid job =? pid then MkJob (jb_id job) (jb_pid job) (jb_cmd job) state :: jobs
      else job :: set_job jobs pid state
  end.

Definition with_jobs (p : ProcessState) (jobs : list Job) : ProcessState :=
  let sh := ps_shell p in
  with_shell p (MkShell (sh_vars sh) (sh_arrays sh) (sh_exported sh) (sh_readonly sh) (sh_options sh)
    (sh_command_hash sh) (sh_directory_stack sh) (sh_funcs sh) (sh_local_scopes sh) (sh_aliases sh)
    (sh_last_status sh) (sh_random sh) (sh_arg0 sh) (sh_positional sh) (sh_getopts sh) (sh_flags sh)
    (sh_expansion_error sh) (sh_expansion_depth sh) jobs (sh_next_job sh) (sh_control sh) (sh_input sh)
    (sh_input_pos sh) (sh_local_saved sh) (sh_frame_saved sh)).

Definition mark_job (pid : Z) (state : JobState) (p : ProcessState) : ProcessState :=
  with_jobs p (set_job (sh_jobs (ps_shell p)) pid state).
Definition mark_jobs (pid : Z) (state : JobState) : mach unit :=
  modify (λ m, set_states m (mark_job pid state <$> m_states m)).

(** The terminal goes back to its session when the foreground group has no running member. *)
Definition reclaim_terminal : mach unit := modify (λ m,
  match running_group (m_processes m) (ct_foreground_group (m_terminal m)) with
  | [] => set_terminal m (MkControllingTerminal (ct_session_id (m_terminal m)) (ct_session_id (m_terminal m)))
  | _ => m
  end).

Definition wake_parents (pid : Z) : mach unit :=
  _ ← wake (λ c, wake_child_waiters c pid); wake (λ c, wake_child_activity_waiters c pid).

Definition stop_process (pid : Z) (signal : Signal) : lifecycle unit :=
  stopped ← sched_do (λ c, scheduler_stop c pid);
  match stopped with
  | Err error => refuse (StopFailed pid error)
  | Ok _ =>
      _ ← processes_do (λ t, process_stop t pid signal);
      _ ← mark_jobs pid (JobStopped signal);
      _ ← wake_parents pid;
      _ ← reclaim_terminal;
      accept tt
  end.

Definition env_continue_process (pid : Z) : lifecycle unit :=
  continued ← sched_do (λ c, continue_task c pid);
  match continued with
  | Err error => refuse (ContinueFailed pid error)
  | Ok _ =>
      _ ← processes_do (λ t, Process.continue_process t pid);
      pending ← gets (λ m, match m_states m !! pid with
                           | Some p => negb (bool_decide (sg_pending (ps_signals p) = ∅)) | None => false end);
      _ ←! wake_if pending pid (WakeFailed pid);
      _ ← mark_jobs pid JobRunning;
      accept tt
  end.

Definition with_pending (g : SignalState) (pending : gset Signal) : SignalState :=
  MkSignalState pending (sg_dispositions g) (sg_exit g) (sg_err g) (sg_err_active g) (sg_handling_error g)
    (sg_handling_signal g).

(** Whether a delivered signal interrupts a wait. *)
Definition interrupts (g : SignalState) (signal : Signal) : bool :=
  match signal with
  | Kill | Stop => true
  | _ =>
      match sg_dispositions g !! signal with
      | Some (DispHandler _ _) => true
      | Some DispIgnore => false
      | None => signal_terminates signal
      end
  end.

Definition process_status (m : Machine) (pid : Z) : option ProcessStatus := pr_status <$> pt_records (m_processes m) !! pid.

Definition queue_signal (pid : Z) (signal : Signal) : lifecycle unit :=
  target ← gets (λ m, m_states m !! pid);
  match target with
  | None => refuse (NoContext pid)
  | Some p =>
      _ ← update_state pid (λ p, with_signals p (with_pending (ps_signals p) ({[signal]} ∪ sg_pending (ps_signals p))));
      wake_if (interrupts (ps_signals p) signal) pid (WakeFailed pid)
  end.

Definition send_signal (pid : Z) (signal : Signal) : lifecycle unit :=
  status ← gets (λ m, process_status m pid);
  match status with
  | None | Some (Exited _) => refuse (NoProcess pid)
  | Some _ =>
      if bool_decide (signal = Continue) then env_continue_process pid
      else
        running ← gets (λ m, sc_current (m_scheduler m));
        if bool_decide (signal = Stop) && negb (bool_decide (running = Some pid)) then stop_process pid signal
        else
          _ ←! (match status with
                | Some (Stopped _) => if bool_decide (signal = Kill) then env_continue_process pid else accept tt
                | _ => accept tt
                end);
          queue_signal pid signal
  end.

Fixpoint signal_each (members : list Z) (signal : Signal) : lifecycle unit :=
  match members with
  | [] => accept tt
  | pid :: members => _ ←! send_signal pid signal; signal_each members signal
  end.

Definition send_signal_group (group : Z) (signal : Signal) : lifecycle unit :=
  members ← gets (λ m, live_group (m_processes m) group);
  match members with [] => refuse (NoGroup group) | _ => signal_each members signal end.

Definition send_terminal_signal (signal : Signal) : lifecycle unit :=
  group ← gets (λ m, ct_foreground_group (m_terminal m)); send_signal_group group signal.

Definition set_terminal_foreground (group : Z) : mach bool := λ m,
  let '(t, ok) := set_foreground (m_terminal m) (m_processes m) group in Ret (set_terminal m t, ok).

Definition stop_active_process (signal : Signal) : lifecycle unit := p ← current; stop_process (ps_pid p) signal.

(** *** Delivery *)

Definition with_handling (g : SignalState) (handling : bool) : SignalState :=
  MkSignalState (sg_pending g) (sg_dispositions g) (sg_exit g) (sg_err g) (sg_err_active g) (sg_handling_error g) handling.

(** The signal the next delivery looks at: the first pending one, or inside a handler only the two
    that cannot be caught. *)
Definition next_signal (g : SignalState) : option Signal :=
  head (filter (λ s, s ∈ sg_pending g) (if sg_handling_signal g then [Kill; Stop] else all_signals)).

(** What becomes of one pending signal: delivered, or ignored. *)
Definition signal_action (g : SignalState) (signal : Signal) : option SignalDelivery :=
  match signal with
  | Kill => Some (DeliverTerminate signal)
  | Stop => Some (DeliverStop signal)
  | _ =>
      match sg_dispositions g !! signal with
      | Some DispIgnore => None
      | Some (DispHandler _ body) => Some (DeliverHandler body)
      | None => if signal_terminates signal then Some (DeliverTerminate signal) else None
      end
  end.

(** The loop over the pending signals; every round removes one. *)
Fixpoint deliver (fuel : nat) (g : SignalState) : run (SignalState * option SignalDelivery) :=
  match fuel with
  | O => NoFuel
  | S fuel =>
      match next_signal g with
      | None => Ret (g, None)
      | Some signal =>
          let g := with_pending g (sg_pending g ∖ {[signal]}) in
          match signal_action g signal with
          | None => deliver fuel g
          | Some (DeliverHandler body) => Ret (with_handling g true, Some (DeliverHandler body))
          | Some delivery => Ret (g, Some delivery)
          end
      end
  end.

Definition cancel_events : mach unit :=
  p ← current; modify (λ m, set_clock m (cancel_task_events (m_clock m) (ps_pid p)).1).

Definition take_signal_delivery : mach (option SignalDelivery) :=
  p ← current;
  taken ← lift_run (λ _, deliver 12 (ps_signals p));
  _ ← update_current (λ p, with_signals p taken.1);
  _ ← (match taken.2 with Some (DeliverTerminate _) => cancel_events | _ => mret tt end);
  mret taken.2.

Definition finish_signal_handler : mach unit := update_current (λ p, with_signals p (with_handling (ps_signals p) false)).

Definition default_termination (g : SignalState) : option Signal :=
  head (filter (λ s, s ∈ sg_pending g ∧ signal_terminates s = true ∧
                     (s = Kill ∨ sg_dispositions g !! s = None)) all_signals).

Definition take_default_termination : mach (option Signal) :=
  p ← current;
  match default_termination (ps_signals p) with
  | None => mret None
  | Some signal =>
      _ ← update_current (λ p, with_signals p (with_pending (ps_signals p) (sg_pending (ps_signals p) ∖ {[signal]})));
      _ ← cancel_events;
      _ ← processes_do (λ t, mark_signal_termination t (ps_pid p) signal);
      mret (Some signal)
  end.

(** ** The end of a process *)

(** [append_pending]: what fits below the capture limit. *)
Definition append_pending (destination data : bytes) : bytes :=
  destination ++ take (Z.to_nat (Z.min (zlen data) (sat_sub MAX_CAPTURE_BYTES (zlen destination)))) data.

(** [if let Ok(bytes) = self.descriptors.drain_capture(id) { append_pending(..) }]. *)
Definition drain_into (append : bytes → Machine → Machine) (id : Z) : mach unit := λ m,
  '(a, r) ← drain_capture (m_descriptors m) id;
  let m := set_descriptors m a in
  Ret (match r with Ok data => append data m | Err _ => m end, tt).

Definition drain_detached (p : ProcessState) : mach unit :=
  if ps_detached p then
    let stdout := ok (fd_get (ps_fds p) 1) in
    let stderr := ok (fd_get (ps_fds p) 2) in
    _ ← match stdout with
        | Some id => drain_into (λ data m, set_pending_stdout m (append_pending (m_pending_stdout m) data)) id
        | None => mret tt
        end;
    match stderr with
    | Some id =>
        if bool_decide (Some id = stdout) then mret tt
        else drain_into (λ data m, set_pending_stderr m (append_pending (m_pending_stderr m) data)) id
    | None => mret tt
    end
  else mret tt.

(** The pipe ends of a table, in the order of its descriptors. *)
Definition table_endpoints (a : DescriptorArena) (t : FdTable) : list (Z * bool) :=
  omap (λ id, e ← ok (pipe_endpoint a id); e) (btree_values (ft_entries t)).

Fixpoint wake_endpoints (endpoints : list (Z * bool)) : mach unit :=
  match endpoints with
  | [] => mret tt
  | (pipe, reader) :: endpoints =>
      _ ← wake (λ s, wake_waiters s (if reader : bool then PipeWritable pipe else PipeReadable pipe));
      wake_endpoints endpoints
  end.

(** What a parent learns of its child. *)
Definition notify_parent (pid status : Z) (deadline : option EventId) (parent : ProcessState) : ProcessState :=
  let parent := mark_job pid (JobDone status) parent in
  match deadline with Some event => with_deadline parent (Some event) | None => parent end.

Definition finish_child (pid status : Z) : mach unit :=
  p ← current;
  let allocation := held_bytes p in
  let parent := ps_ppid p in
  _ ← drain_detached p;
  endpoints ← gets (λ m, table_endpoints (m_descriptors m) (ps_fds p));
  _ ← (λ m, let '(t, a) := close_all (ps_fds p) (m_descriptors m) in Ret (set_descriptors m a, tt));
  _ ← update_current (λ p, with_fds p fd_table_new);
  _ ← env_wake_file_lock_waiters;
  _ ← release_closed_pipe_memory;
  _ ← retain_live_orphans;
  _ ← wake_endpoints endpoints;
  _ ← processes_do (λ t, update_descriptors t pid ∅);
  _ ← processes_do (λ t, process_exit t pid status (ps_cwd p));
  _ ← reclaim_terminal;
  _ ← modify (λ m, set_clock m (cancel_task_events (m_clock m) pid).1);
  _ ← sched_do (λ c, exit_current c status);
  _ ← wake_parents pid;
  scheduled ← sched_do dispatch;
  _ ← modify (λ m, set_states m (delete pid (m_states m)));
  retained ← gets (λ m, bool_decide (is_Some (m_states m !! parent)));
  _ ← update_state parent (notify_parent pid status (ps_deadline_interrupt p));
  _ ← match scheduled with
      | Ok (Some next) => r ← activate next; match r with Ok _ => mret tt | Err _ => panic end
      | _ => mret tt
      end;
  _ ← (if retained : bool then _ ← send_signal parent Process.Child; mret tt
       else _ ← processes_do (λ t, (process_reap t pid).1); _ ← sched_do (λ c, scheduler_reap c pid); mret tt);
  release_bytes allocation.

(** The memory a removed context had. *)
Definition cancel_unstarted_child (pid : Z) : mach unit :=
  p ← current;
  child ← gets (λ m, m_states m !! pid);
  _ ← match child with
      | Some child =>
          _ ← modify (λ m, set_states m (delete pid (m_states m)));
          _ ← close_child (ps_fds child);
          _ ← release_closed_pipe_memory;
          _ ← retain_live_orphans;
          release_bytes (held_bytes child)
      | None => mret tt
      end;
  _ ← sched_do (λ c, discard_runnable c pid);
  p ← current;
  undo_process pid (ps_cwd p).

(** ** Memory of the active context *)

Definition with_expansion (r : Reservations) (n : Z) : Reservations :=
  MkReservations (rv_fork r) (rv_exec r) (rv_baseline r) (rv_state r) n.
Definition with_state_reserved (r : Reservations) (n : Z) : Reservations :=
  MkReservations (rv_fork r) (rv_exec r) (rv_baseline r) n (rv_expansion r).
Definition with_exec (r : Reservations) (n : Z) : Reservations :=
  MkReservations (rv_fork r) n (rv_baseline r) (rv_state r) (rv_expansion r).
Definition set_reserved (f : Reservations → Reservations) : mach unit :=
  update_current (λ p, with_reserved p (f (ps_reserved p))).

Definition release_expansion_memory : mach unit :=
  p ← current;
  _ ← set_reserved (λ r, with_expansion r 0);
  release_bytes (rv_expansion (ps_reserved p)).

Definition sync_shell_memory : mach bool :=
  p ← current;
  let target := sat_sub (state_bytes p) (rv_baseline (ps_reserved p)) in
  let reserved := rv_state (ps_reserved p) in
  granted ← (if reserved <? target then reserve (target - reserved)
             else _ ← release_bytes (reserved - target); mret true);
  if negb granted then mret false
  else _ ← set_reserved (λ r, with_state_reserved r target); mret true.

Definition release_exec_metadata : mach unit :=
  p ← current;
  if rv_exec (ps_reserved p) =? 0 then mret tt
  else
    _ ← sync_shell_memory;
    p ← current;
    _ ← set_reserved (λ r, with_exec r 0);
    release_bytes (rv_exec (ps_reserved p)).

(** ** Setting up a child *)

Definition install_process_description (pid fd description : Z) : mach (result DescriptorError unit) :=
  found ← gets (λ m, m_states m !! pid);
  match found with
  | None => mret (Err InvalidFd)
  | Some p =>
      installed ← (λ m,
        let '(t, a, r) := fd_install (ps_fds p) fd description (m_descriptors m) in
        Ret (set_states (set_descriptors m a) (<[pid := with_fds p t]> (m_states m)), r));
      match installed with
      | Err error => mret (Err error)
      | Ok _ => _ ← refresh_descriptor_snapshot pid; mret (Ok tt)
      end
  end.

Definition with_variables (sh : ShellState) (vars : Variables) (arrays : Arrays) (exported : gset string) : ShellState :=
  MkShell vars arrays exported (sh_readonly sh) (sh_options sh) (sh_command_hash sh) (sh_directory_stack sh)
    (sh_funcs sh) (sh_local_scopes sh) (sh_aliases sh) (sh_last_status sh) (sh_random sh) (sh_arg0 sh)
    (sh_positional sh) (sh_getopts sh) (sh_flags sh) (sh_expansion_error sh) (sh_expansion_depth sh) (sh_jobs sh)
    (sh_next_job sh) (sh_control sh) (sh_input sh) (sh_input_pos sh) (sh_local_saved sh) (sh_frame_saved sh).

(** [PWD] follows the directory and is exported. *)
Definition export_pwd (p : ProcessState) : ProcessState :=
  let sh := ps_shell p in
  with_shell p (with_variables sh (variables_insert (sh_vars sh) "PWD" (ps_cwd p)).1 (sh_arrays sh)
    ({["PWD"]} ∪ sh_exported sh)).

Definition set_environment (p : ProcessState) (environment : gmap string string) : ProcessState :=
  let vars := foldl (λ v '(name, value), (variables_insert v name value).1) (variables_clear (sh_vars (ps_shell p)))
                (btree_iter environment) in
  with_shell p (with_variables (ps_shell p) vars (arrays_clear (sh_arrays (ps_shell p))) (dom environment)).

Definition configured (p : ProcessState) (cwd : option string) (environment : option (gmap string string)) : ProcessState :=
  let p := match cwd with Some cwd => export_pwd (with_cwd p cwd) | None => p end in
  match environment with Some environment => export_pwd (set_environment p environment) | None => p end.

Definition configure_process (pid : Z) (cwd : option string) (environment : option (gmap string string)) : lifecycle unit :=
  found ← gets (λ m, m_states m !! pid);
  match found with
  | None => refuse (NoContext pid)
  | Some p =>
      let p := configured p cwd environment in
      _ ← modify (λ m, set_states m (<[pid := p]> (m_states m)));
      _ ← processes_do (λ t, Process.update_current t pid (ps_cwd p) (child_env p));
      accept tt
  end.
