(* ===== verification/ExecData.v ===== *)
(** * Data of the shell executor (src/src/exec.rs, src/src/program.rs, src/src/commands/mod.rs)

    A shell that runs is a stack of frames, each a piece of syntax still to be run or the rest of a
    construct that waits for the frames above it; its top is the head of the list. What a command
    keeps while it is suspended ([R]) and the state of a native program ([N]) are parameters. *)

From S2P Require Import Prelude.
From S2P Require Import State.
From S2P Require Import Variables.
From S2P Require Import Descriptors.
From S2P Require Import Scheduler.
From S2P Require Import Syntax.
From S2P Require Import ProcessState.
From S2P Require Import Machine.

Definition MAX_SHELL_FRAMES : Z := 4096.
Definition SHELL_POLL_QUANTUM : nat := 1.
Definition MAX_STDIN_PROGRAM_BYTES : Z := 262144.

(** ** Prepared commands *)

Record TimeStart := MkTimeStart { tst_monotonic_ns : Z; tst_cpu_ns : Z; tst_posix : bool }.

(** A descriptor table and the memory reserved for the snapshot it was taken with. *)
Record RedirectScope := MkRedirectScope { rsc_saved : FdTable; rsc_reserved_memory : Z }.

Inductive ProcessSubstitutionLocation := PsRedirect (index : nat) | PsWord (index : nat).

Inductive ExpansionLocation :=
| AssignmentKey (index : nat)
| AssignmentValue (index : nat)
| LocWord (index : nat)
| LocRedirect (index : nat).

Record OutputProcessSubstitution := MkOutputSubstitution { osb_path : string; osb_source : string }.

(** Variables and the values they had: [Vec<(String, Option<String>)>]. *)
Abbreviation saved_variables := (list (string * option string)).

Record PreparedCommand := MkPreparedCommand {
  pc_body : option Node;
  pc_assigns : list (string * string);
  pc_words : list string;
  pc_redirects : list Redirect;
  pc_temporary : saved_variables;
  pc_substitution_status : option Z;
  pc_output : list OutputProcessSubstitution;
  pc_files : list string
}.

Record PreparedFor := MkPreparedFor {
  pf_var : string;
  pf_words : list string;
  pf_body : Node;
  pf_temporary : saved_variables
}.

Record PreparedCase := MkPreparedCase {
  pa_word : string;
  pa_arms : list (list string * Node);
  pa_temporary : saved_variables
}.

Inductive ArithmeticContinuation :=
| ArithCommand
| CForInit (cond update : string) (body : Node)
| CForCondition (cond update : string) (body : Node) (body_status : Z)
| CForUpdate (cond update : string) (body : Node) (body_status : Z).

Record PreparedArithmetic := MkPreparedArithmetic { pr_expression : string; pr_continuation : ArithmeticContinuation }.

(** When the input of [read] is complete: at the delimiter, escapes counted unless raw. *)
Record ReadFraming := MkReadFraming { rf_delimiter : option Byte.byte; rf_raw : bool }.

(** ** Frames *)

Section frames.
Context {R : Type}.

Inductive ShellFrame :=
| FinishTime (start : TimeStart)
| Eval (node : Node)
| RecordPipeStatus
| ReadProgram (pending : bytes)
| ExitWithStatus
| PrepareCommand (command : PreparedCommand)
| RunCommand (assigns : list (string * string)) (words : list string) (temporary : saved_variables)
    (substitution_status : option Z)
| AwaitCommandSubstitution (command : PreparedCommand) (pid capture : Z) (variable : string) (previous : option string)
| AwaitProcessSubstitution (command : PreparedCommand) (pid capture : Z) (location : ProcessSubstitutionLocation)
| RunOutputSubstitutions (substitutions : list OutputProcessSubstitution) (command_status : option Z)
| AwaitOutputProcessSubstitution (substitutions : list OutputProcessSubstitution) (command_status pid : Z)
| CleanupProcessSubstitutionFiles (paths : list string)
| PrepareFor (state : PreparedFor)
| AwaitForSubstitution (state : PreparedFor) (pid capture : Z) (variable : string) (previous : option string)
| PrepareCase (state : PreparedCase)
| AwaitCaseSubstitution (state : PreparedCase) (pid capture : Z) (variable : string) (previous : option string)
| PrepareArithmetic (state : PreparedArithmetic)
| AwaitArithmeticSubstitution (state : PreparedArithmetic) (pid capture : Z) (start finish : nat)
| Sequence (nodes : list Node) (next : nat)
| Conditional (rhs : Node) (run_on_success : bool)
| Negate
| IfNext (branches : list (Node * Node)) (next : nat) (els : option Node)
| IfAfter (branches : list (Node * Node)) (next : nat) (els : option Node)
| WhileCheck (cond body : Node) (until : bool) (body_status : Z)
| WhileAfterCondition (cond body : Node) (until : bool) (body_status : Z)
| WhileAfterBody (cond body : Node) (until : bool)
| ForNext (var : string) (items : list string) (body : Node) (next : nat) (body_status : Z)
| ForAfterBody (var : string) (items : list string) (body : Node) (next : nat)
| CForCheck (cond update : string) (body : Node) (body_status : Z)
| CForAfterBody (cond update : string) (body : Node)
| FinishLoop
| RestoreRedirect (scope : RedirectScope)
| FinishFunction (positional : Positional) (variables : saved_variables) (err_trap_active : bool)
| FinishInlineCommand (variables : saved_variables)
| FinishSource (variables : saved_variables)
| FinishSignalHandler (previous_status : Z)
| FinishExitTrap (previous_status : Z)
| CheckError
| FinishErrorTrap (previous_status : Z) (errexit_exempt : bool)
| ResumeCommand (variables : saved_variables) (continuation : R)
| ReadCommandInput (argv : list string) (variables : saved_variables) (stdin : bytes) (reserved : Z)
    (framing : option ReadFraming)
| WriteCommandOutput (command : string) (variables : saved_variables) (status : Z) (stdout stderr : bytes)
    (stdout_offset stderr_offset : Z)
| AwaitChild (pid : Z) (reap : bool)
| AwaitPipeline (pids : list Z) (statuses : list Z) (next : nat) (pipefail : bool).

Inductive ShellPoll :=
| PollPending
| PollBlocked (reason : WaitReason)
| PollSwitched
| PollReplaced
| PollReady (status : Z).

(** What a command does when it is polled. *)
Inductive CommandPoll :=
| CmdReady (status : Z)
| CmdReadyOutput (command : string) (status : Z) (stdout stderr : bytes)
| CmdBlocked (reason : WaitReason) (continuation : R)
| CmdSwitched (continuation : R)
| CmdInline (node : Node)
| CmdInlineSource (node : Node).

Record ShellContinuation := MkShellContinuation {
  sc_frames : list ShellFrame;
  sc_status : Z;
  sc_errexit_exempt : bool;
  sc_switched : bool;
  sc_yielded : bool;
  sc_blocked_on : option WaitReason;
  sc_exit_trap_started : bool;
  sc_exec_tail : bool;
  sc_replaced : bool;
  sc_pipeline_entry : bool
}.

(** ** Fields of the continuation *)

Definition set_frames (c : ShellContinuation) (frames : list ShellFrame) : ShellContinuation :=
  MkShellContinuation frames (sc_status c) (sc_errexit_exempt c) (sc_switched c) (sc_yielded c) (sc_blocked_on c)
    (sc_exit_trap_started c) (sc_exec_tail c) (sc_replaced c) (sc_pipeline_entry c).
Definition set_status (c : ShellContinuation) (status : Z) : ShellContinuation :=
  MkShellContinuation (sc_frames c) status (sc_errexit_exempt c) (sc_switched c) (sc_yielded c) (sc_blocked_on c)
    (sc_exit_trap_started c) (sc_exec_tail c) (sc_replaced c) (sc_pipeline_entry c).
Definition set_exempt (c : ShellContinuation) (exempt : bool) : ShellContinuation :=
  MkShellContinuation (sc_frames c) (sc_status c) exempt (sc_switched c) (sc_yielded c) (sc_blocked_on c)
    (sc_exit_trap_started c) (sc_exec_tail c) (sc_replaced c) (sc_pipeline_entry c).
Definition set_signals (c : ShellContinuation) (switched yielded : bool) (blocked : option WaitReason) : ShellContinuation :=
  MkShellContinuation (sc_frames c) (sc_status c) (sc_errexit_exempt c) switched yielded blocked
    (sc_exit_trap_started c) (sc_exec_tail c) (sc_replaced c) (sc_pipeline_entry c).
Definition set_trap_started (c : ShellContinuation) : ShellContinuation :=
  MkShellContinuation (sc_frames c) (sc_status c) (sc_errexit_exempt c) (sc_switched c) (sc_yielded c) (sc_blocked_on c)
    true (sc_exec_tail c) (sc_replaced c) (sc_pipeline_entry c).
Definition set_replaced (c : ShellContinuation) : ShellContinuation :=
  MkShellContinuation (sc_frames c) (sc_status c) (sc_errexit_exempt c) (sc_switched c) (sc_yielded c) (sc_blocked_on c)
    (sc_exit_trap_started c) (sc_exec_tail c) true (sc_pipeline_entry c).
Definition set_pipeline_entry (c : ShellContinuation) (entry : bool) : ShellContinuation :=
  MkShellContinuation (sc_frames c) (sc_status c) (sc_errexit_exempt c) (sc_switched c) (sc_yielded c) (sc_blocked_on c)
    (sc_exit_trap_started c) (sc_exec_tail c) (sc_replaced c) entry.

(** [ShellContinuation::new], [subshell], [standard_input_program]. *)
Definition continuation_of (frames : list ShellFrame) (exec_tail : bool) : ShellContinuation :=
  MkShellContinuation frames 0 false false false None false exec_tail false false.
Definition shell_new (node : Node) : ShellContinuation := continuation_of [Eval node] false.
Definition shell_subshell (node : Node) : ShellContinuation := continuation_of [Eval node] true.
Definition standard_input_program : ShellContinuation := continuation_of [ReadProgram []] false.

End frames.

Arguments ShellFrame R : clear implicits.
Arguments CommandPoll R : clear implicits.
Arguments ShellContinuation R : clear implicits.

(** ** The world of programs

    The machine, and the resumable program of each context that has one. *)

Section world.
Context {R N : Type}.

Inductive ProgramContinuation :=
| PShell (shell : ShellContinuation R)
| PNative (native : N).

Record World := MkWorld { w_machine : Machine; w_programs : gmap Z ProgramContinuation }.

(** The continuation being polled, and the world. *)
Record Shell := MkShellRun { x_shell : ShellContinuation R; x_world : World }.

Definition set_machine (w : World) (m : Machine) : World := MkWorld m (w_programs w).
Definition set_world (x : Shell) (w : World) : Shell := MkShellRun (x_shell x) w.
Definition set_shell (x : Shell) (c : ShellContinuation R) : Shell := MkShellRun c (x_world x).

End world.

Arguments ProgramContinuation R N : clear implicits.
Arguments World R N : clear implicits.
Arguments Shell R N : clear implicits.

(** Steps of the machine, of the world, and of the shell that runs. *)
Section lifts.
Context {R N : Type}.

Definition on_machine {A} (m : mach A) : stm (World R N) A := λ w,
  '(s, a) ← m (w_machine w); Ret (set_machine w s, a).
Definition on_world {A} (m : stm (World R N) A) : stm (Shell R N) A := λ x,
  '(w, a) ← m (x_world x); Ret (set_world x w, a).
Definition in_machine {A} (m : mach A) : stm (Shell R N) A := on_world (on_machine m).
Definition edit (f : ShellContinuation R → ShellContinuation R) : stm (Shell R N) unit :=
  modify (λ x, set_shell x (f (x_shell x))).
Definition ask {A} (f : ShellContinuation R → A) : stm (Shell R N) A := gets (λ x, f (x_shell x)).

End lifts.
