(* ===== verification/ExecText.v ===== *)
(** * Texts of the shell executor (src/src/exec.rs, src/src/commands/builtins.rs)

    The wording of its diagnostics and of the errors it reports, decoding of bytes, and the analysis
    of words it does before and after expansion: process substitutions, descriptors in paths, array
    assignments, patterns of [case]. *)

From stdpp Require Import pretty.
From S2P Require Import Prelude.
From S2P Require Import State.
From S2P Require Import RustStr.
From S2P Require Import Resources.
From S2P Require Import Descriptors.
From S2P Require Import Scheduler.
From S2P Require Import Paths.
From S2P Require Import Vfs.
From S2P Require Import Syntax.
From S2P Require Import Machine.
From S2P Require Import Lifecycle.
From S2P Require Import ExpandText.
From S2P Require Import ExecData.

(** ** Errors in words *)

Definition vfs_error_display (e : VfsError) : string :=
  match e with
  | NotFound p => "No such file or directory: " +:+ p
  | NotADir p => "Not a directory: " +:+ p
  | IsADir p => "Is a directory: " +:+ p
  | NotEmpty p => "Directory not empty: " +:+ p
  | Exists_ p => "File exists: " +:+ p
  | Loop p => "Too many levels of symbolic links: " +:+ p
  | Invalid p => "Invalid argument: " +:+ p
  | NameTooLong p => "File name too long: " +:+ p
  | NoSpace => "No space left on device"
  | TooLarge path limit => "file too large: " +:+ path +:+ " (limit " +:+ pretty limit +:+ " bytes)"
  | ReadOnly p => "Read-only filesystem: " +:+ p
  end.

(** The derived [Debug] of the errors without data. *)
Definition descriptor_error_debug (e : DescriptorError) : string :=
  match e with
  | InvalidFd => "InvalidFd" | WrongAccess => "WrongAccess" | DescriptorLimit => "DescriptorLimit"
  | DescriptionLimit => "DescriptionLimit" | PipeLimit => "PipeLimit" | InvalidPipeCapacity => "InvalidPipeCapacity"
  | BrokenPipe => "BrokenPipe" | OutputLimit => "OutputLimit" | ReferenceOverflow => "ReferenceOverflow"
  end.
Definition scheduler_error_debug (e : SchedulerError) : string :=
  match e with
  | Capacity => "Capacity" | DuplicateTask => "DuplicateTask" | UnknownTask => "UnknownTask"
  | NoRunningTask => "NoRunningTask" | TaskAlreadyRunning => "TaskAlreadyRunning"
  | InvalidTransition => "InvalidTransition"
  end.

Definition syscall_error_display (e : SyscallError) : string :=
  match e with
  | SysFile error => vfs_error_display error
  | SysDescriptor error => descriptor_error_debug error
  | SysInvalidArgument => "invalid argument"
  | SysIsDirectory => "is a directory"
  | SysPermission => "permission denied"
  | SysResourceExhausted => "resource exhausted"
  | SysNoSuchProcess => "no such process"
  | SysExecutableFormat => "unsupported executable format"
  | SysProcess error => error
  end.

Definition descriptor_message (e : DescriptorError) : string :=
  match e with
  | InvalidFd => "bad file descriptor"
  | WrongAccess => "descriptor is not open for that operation"
  | DescriptorLimit => "process descriptor limit exceeded"
  | DescriptionLimit => "open-description limit exceeded"
  | PipeLimit => "pipe limit exceeded"
  | InvalidPipeCapacity => "invalid pipe capacity"
  | BrokenPipe => "broken pipe"
  | OutputLimit => "descriptor output limit exceeded"
  | ReferenceOverflow => "descriptor reference limit exceeded"
  end.

(** What reads and writes report; they differ in two cases. *)
Definition io_error_message (permission exhausted : string) (e : SyscallError) : string :=
  match e with
  | SysDescriptor error => descriptor_message error
  | SysFile error => vfs_error_display error
  | SysPermission => permission
  | SysInvalidArgument => "file cursor exceeds addressable memory"
  | SysIsDirectory => "is a directory"
  | SysResourceExhausted => exhausted
  | SysNoSuchProcess => "no such process"
  | SysExecutableFormat => "unsupported executable format"
  | SysProcess error => error
  end.
Definition write_error_message : SyscallError → string :=
  io_error_message "descriptor is not open for writing" "resource limit exceeded".
Definition read_error_message (stop : option StopReason) : SyscallError → string :=
  io_error_message "descriptor is not open for reading"
    match stop with Some reason => stop_reason_display reason | None => "device read limit exceeded" end.

(** The texts of forks and signals. [NoContext] is worded as a signal reports it: a fork finds the
    contexts it names. *)
Definition lifecycle_error_display (e : LifecycleError) : string :=
  match e with
  | ForkStateLimit => "shell state exceeds the 32 MiB fork limit"
  | ForkMemory => "memory limit exceeded while creating child process"
  | InheritDescriptors error => "unable to inherit descriptors: " +:+ descriptor_error_debug error
  | ProcessLimit => "logical process limit exceeded"
  | SuspendParent error => "unable to suspend parent process: " +:+ scheduler_error_debug error
  | ScheduleChild error => "unable to schedule child process: " +:+ scheduler_error_debug error
  | DispatchChild error => "unable to dispatch child process: " +:+ scheduler_error_debug error
  | ChildNotRunnable => "child process was not runnable after creation"
  | ContextExists pid => "process state already exists for PID " +:+ pretty pid
  | NoContext pid => "process " +:+ pretty pid +:+ " has no execution context"
  | NoProcess pid => "process " +:+ pretty pid +:+ " does not exist"
  | NoGroup group => "process group " +:+ pretty group +:+ " does not exist"
  | StopFailed pid error => "unable to stop process " +:+ pretty pid +:+ ": " +:+ scheduler_error_debug error
  | ContinueFailed pid error => "unable to continue process " +:+ pretty pid +:+ ": " +:+ scheduler_error_debug error
  | WakeFailed pid error => "unable to wake process " +:+ pretty pid +:+ ": " +:+ scheduler_error_debug error
  | NotIdle => "shell sessions can be created only from an idle default shell"
  | ParkFailed pid error => "unable to park shell session " +:+ pretty pid +:+ ": " +:+ scheduler_error_debug error
  end.

(** ** Bytes and text *)

Definition to_bytes (s : string) : bytes := String.list_byte_of_string s.

(** How many bytes from [data] make a character, and whether they do: the bytes of a maximal prefix
    of one when they do not. *)
Definition byte_in (lo hi : Z) (b : Byte.byte) : bool :=
  let z := Z.of_N (Byte.to_N b) in (lo <=? z) && (z <=? hi).
Definition second_range (lead : Z) : Z * Z :=
  if lead =? 224 then (160, 191) else if lead =? 237 then (128, 159)
  else if lead =? 240 then (144, 191) else if lead =? 244 then (128, 143) else (128, 191).
Definition char_width (lead : Z) : nat :=
  if lead <? 128 then 1 else if lead <? 194 then 0 else if lead <? 224 then 2 else if lead <? 240 then 3
  else if lead <? 245 then 4 else 0.

Definition decode_char (data : bytes) : nat * bool :=
  match data with
  | [] => (O, true)
  | b :: rest =>
      let lead := Z.of_N (Byte.to_N b) in
      let '(lo, hi) := second_range lead in
      match char_width lead, rest with
      | 1%nat, _ => (1%nat, true)
      | 2%nat, b2 :: _ => if byte_in lo hi b2 then (2%nat, true) else (1%nat, false)
      | 3%nat, b2 :: more =>
          if negb (byte_in lo hi b2) then (1%nat, false)
          else match more with b3 :: _ => if byte_in 128 191 b3 then (3%nat, true) else (2%nat, false) | [] => (2%nat, false) end
      | 4%nat, b2 :: more =>
          if negb (byte_in lo hi b2) then (1%nat, false)
          else match more with
               | b3 :: more =>
                   if negb (byte_in 128 191 b3) then (2%nat, false)
                   else match more with b4 :: _ => if byte_in 128 191 b4 then (4%nat, true) else (3%nat, false) | [] => (3%nat, false) end
               | [] => (2%nat, false)
               end
      | _, _ => (1%nat, false)
      end
  end.

Definition REPLACEMENT : string := utf8 [239; 191; 189]%nat.

(** [String::from_utf8_lossy(data).into_owned()]. *)
Fixpoint lossy_fuel (fuel : nat) (data : bytes) : string :=
  match fuel, data with
  | S fuel, _ :: _ =>
      let '(n, valid) := decode_char data in
      (if valid then String.string_of_list_byte (take n data) else REPLACEMENT) +:+ lossy_fuel fuel (drop n data)
  | _, _ => ""
  end.
Definition from_utf8_lossy (data : bytes) : string := lossy_fuel (length data) data.

(** [{text:?}]: the derived escapes of a string; of the characters beyond ASCII all are printed. *)
Definition hex_digit (n : N) : string := default "0" (utf8_chars "0123456789abcdef" !! N.to_nat n).
Definition hex_code (n : N) : string :=
  (if (n <? 16)%N then "" else hex_digit (n / 16)%N) +:+ hex_digit (n mod 16)%N.
Definition debug_char (c : string) : string :=
  match char_code c with
  | Some 0%N => "\0" | Some 9%N => "\t" | Some 10%N => "\n" | Some 13%N => "\r"
  | Some 34%N | Some 92%N => "\" +:+ c
  | Some n => if (n <? 32)%N || (n =? 127)%N then "\u{" +:+ hex_code n +:+ "}" else c
  | None => c
  end.
Definition debug_text (text : string) : string := dquote +:+ collect (map debug_char (utf8_chars text)) +:+ dquote.

(** ** Reports *)

Definition centis (ns : Z) : string :=
  let c := ns / 10000000 in pretty (c / 100) +:+ "." +:+ padded 2 (c mod 100).
Definition clock_text (ns : Z) : string :=
  let millis := ns / 1000000 in
  let seconds := millis / 1000 in
  pretty (seconds / 60) +:+ "m" +:+ pretty (seconds mod 60) +:+ "." +:+ padded 3 (millis mod 1000) +:+ "s".

Definition time_report (start : TimeStart) (monotonic_ns cpu_ns : Z) : string :=
  let real := sat_sub monotonic_ns (tst_monotonic_ns start) in
  let user := sat_sub cpu_ns (tst_cpu_ns start) in
  if tst_posix start then
    "real " +:+ centis real +:+ newline +:+ "user " +:+ centis user +:+ newline +:+ "sys " +:+ centis 0 +:+ newline
  else
    newline +:+ "real" +:+ tab +:+ clock_text real +:+ newline +:+ "user" +:+ tab +:+ clock_text user +:+ newline
      +:+ "sys" +:+ tab +:+ clock_text 0 +:+ newline.

Definition describe_node (node : Node) : string :=
  match node with
  | NCommand _ words _ => String.concat " " words
  | NArgvCommand argv => String.concat " " argv
  | _ => "<job>"
  end.

Definition io_wait_reason (wait : IoWait) : WaitReason :=
  match wait with
  | WaitInputReadable description => InputReadable description
  | WaitPipeReadable pipe => PipeReadable pipe
  | WaitPipeWritable pipe => PipeWritable pipe
  end.

(** ** Words *)

Definition between_parens (prefix value : string) : option string := rest ← strip_prefix prefix value; strip_suffix ")" rest.
Definition process_substitution_source (value : string) : option string := between_parens "<(" value.
Definition output_process_substitution_source (value : string) : option string := between_parens ">(" value.

Definition device_fd (path : string) : option Z :=
  if bool_decide (path = "/dev/stdin") then Some 0
  else if bool_decide (path = "/dev/stdout") then Some 1
  else if bool_decide (path = "/dev/stderr") then Some 2
  else number ← strip_prefix "/dev/fd/" path; parse_i32 number.

(** [lhs.split('[').next()]. *)
Definition before_bracket (s : string) : string := match split_once "["%char s with Some (name, _) => name | None => s end.

Definition is_array_assign_word (w : string) : bool :=
  match split_once "="%char w with
  | None | Some (EmptyString, _) => false
  | Some (lhs, value) =>
      let lhs := default lhs (strip_suffix "+" lhs) in
      let has_subscript := str_contains "[" lhs && ends_with "]" lhs in
      let is_array_literal := starts_with "(" (trim_start value) in
      (has_subscript || is_array_literal) && is_name (before_bracket lhs)
  end.

(** The characters up to the one that ends [close], and the rest. *)
Fixpoint through (close : string) (chars : list string) : list string * list string :=
  match chars with
  | [] => ([], [])
  | c :: chars => if bool_decide (c = close) then ([c], chars) else let '(l, r) := through close chars in (c :: l, r)
  end.

(** The rest of a double-quoted string, a backslash taking the next character with it. *)
Fixpoint through_double (escaped : bool) (chars : list string) : list string * list string :=
  match chars with
  | [] => ([], [])
  | c :: chars =>
      if escaped then let '(l, r) := through_double false chars in (c :: l, r)
      else if bool_decide (c = dquote) then ([c], chars)
      else let '(l, r) := through_double (bool_decide (c = "\")) chars in (c :: l, r)
  end.

(** The rest of [$( )]; [depth] parentheses are open. *)
Fixpoint through_parens (depth : Z) (chars : list string) : list string * list string :=
  match chars with
  | [] => ([], [])
  | c :: chars =>
      if bool_decide (c = "(") then let '(l, r) := through_parens (depth + 1) chars in (c :: l, r)
      else if bool_decide (c = ")") then
        if depth - 1 =? 0 then ([c], chars) else let '(l, r) := through_parens (depth - 1) chars in (c :: l, r)
      else let '(l, r) := through_parens depth chars in (c :: l, r)
  end.

(** One piece of a word: the characters it takes and the rest. *)
Definition word_piece (c : string) (more : list string) : list string * list string :=
  let add '(l, r) := (c :: l, r) in
  if bool_decide (c = "'") then add (through "'" more)
  else if bool_decide (c = dquote) then add (through_double false more)
  else if bool_decide (c = "\") then add (take 1 more, drop 1 more)
  else if bool_decide (c = "$") && bool_decide (head more = Some "(") then add (through_parens 0 more)
  else if bool_decide (c = "`") then add (through "`" more)
  else ([c], more).

Definition word_break (c : string) : bool := bool_decide (c = " ") || bool_decide (c = tab) || bool_decide (c = newline).

Fixpoint split_words_fuel (fuel : nat) (chars : list string) (cur : option string) : list string :=
  match fuel, chars with
  | _, [] | O, _ => option_list cur
  | S fuel, c :: more =>
      if word_break c then option_list cur ++ split_words_fuel fuel more None
      else
        let '(piece, rest) := word_piece c more in
        split_words_fuel fuel rest (Some (default "" cur +:+ collect piece))
  end.
Definition split_top_level_words (s : string) : list string :=
  let chars := utf8_chars s in split_words_fuel (length chars) chars None.

Definition double_wrap (line : string) : string :=
  dquote +:+ replace_all dquote ("\" +:+ dquote) (replace_all "\" "\\" line) +:+ dquote.

(** ** Patterns of [case] *)

(** The characters of a bracket expression, through its closing bracket. *)
Fixpoint glob_body_fuel (fuel : nat) (chars : list string) : string :=
  match fuel, chars with
  | S fuel, c :: more =>
      if bool_decide (c = "*") then ".*" +:+ glob_body_fuel fuel more
      else if bool_decide (c = "?") then "." +:+ glob_body_fuel fuel more
      else if bool_decide (c = "[") then let '(l, r) := through "]" more in "[" +:+ collect l +:+ glob_body_fuel fuel r
      else if bool_decide (c ∈ regex_specials) then "\" +:+ c +:+ glob_body_fuel fuel more
      else c +:+ glob_body_fuel fuel more
  | _, _ => ""
  end.
Definition glob_to_regex_body (pat : string) : string := let chars := utf8_chars pat in glob_body_fuel (length chars) chars.

Definition case_match (regex : string → option (string → bool)) (pattern text : string) : bool :=
  if bool_decide (pattern = "*") then true
  else match regex ("^" +:+ glob_to_regex_body pattern +:+ "$") with
       | Some is_match => is_match text
       | None => bool_decide (pattern = text)
       end.

(** ** The options of [read] *)

Record ReadOptions := MkReadOptions {
  ro_raw : bool;
  ro_delimiter : Byte.byte;
  ro_array : option string;
  ro_names : list string
}.

Definition shell_identifier (value : string) : bool :=
  match String.list_ascii_of_string value with
  | [] => false
  | c :: rest =>
      let code c := Ascii.N_of_ascii c in
      (bool_decide (c = "_"%char) || alpha_code (code c)) &&
      forallb (λ c, bool_decide (c = "_"%char) || alpha_code (code c) || digit_code (code c)) rest
  end.

(** The letters of one option word; [-a] and [-d] take the rest of the word or the next argument. *)
Fixpoint read_letters (letters : string) (args : list string) (o : ReadOptions)
    : result string (ReadOptions * list string) :=
  match letters with
  | EmptyString => Ok (o, args)
  | String c rest =>
      if bool_decide (c = "r"%char) then read_letters rest args (MkReadOptions true (ro_delimiter o) (ro_array o) (ro_names o))
      else if bool_decide (c = "a"%char) || bool_decide (c = "d"%char) then
        match (match rest with EmptyString => match args with v :: args => Some (v, args) | [] => None end | _ => Some (rest, args) end) with
        | None => Err "read: option requires a value"
        | Some (value, args) =>
            Ok (if bool_decide (c = "a"%char) then MkReadOptions (ro_raw o) (ro_delimiter o) (Some value) (ro_names o)
                else MkReadOptions (ro_raw o) (default Byte.x00 (head (to_bytes value))) (ro_array o) (ro_names o), args)
        end
      else Err "read: supported options are -a, -r and -d"
  end.

Fixpoint read_options_fuel (fuel : nat) (args : list string) (o : ReadOptions) : result string (ReadOptions * list string) :=
  match fuel, args with
  | S fuel, argument :: rest =>
      if bool_decide (argument = "--") then Ok (o, rest)
      else if negb (starts_with "-" argument) || bool_decide (argument = "-") then Ok (o, args)
      else match read_letters (str_drop 1 argument) rest o with
           | Err message => Err message
           | Ok (o, rest) => read_options_fuel fuel rest o
           end
  | _, _ => Ok (o, args)
  end.

Definition parse_read_options (args : list string) : result string ReadOptions :=
  match read_options_fuel (length args) args (MkReadOptions false Byte.x0a None []) with
  | Err message => Err message
  | Ok (o, names) =>
      let invalid name := negb (shell_identifier name) in
      if existsb invalid names || match ro_array o with Some name => invalid name | None => false end
      then Err "read: expected valid variable names"
      else Ok (MkReadOptions (ro_raw o) (ro_delimiter o) (ro_array o) names)
  end.

Definition read_framing (args : list string) : ReadFraming :=
  match parse_read_options args with
  | Ok o => MkReadFraming (Some (ro_delimiter o)) (ro_raw o)
  | Err _ => MkReadFraming None true
  end.

Definition framing_complete (f : ReadFraming) (input : bytes) : bool :=
  match rf_delimiter f with
  | None => true
  | Some delimiter =>
      match reverse input with
      | last :: before => bool_decide (last = delimiter) &&
          (rf_raw f || Nat.even (length (take_while (λ b, bool_decide (b = Byte.x5c)) before)))
      | [] => false
      end
  end.

Example time_text : time_report (MkTimeStart 0 0 false) 61234000000 5000000 =
  newline +:+ "real" +:+ tab +:+ "1m1.234s" +:+ newline +:+ "user" +:+ tab +:+ "0m0.005s" +:+ newline +:+ "sys" +:+ tab +:+ "0m0.000s" +:+ newline.
Proof. vm_compute. reflexivity. Qed.
Example split_text : split_top_level_words "a 'b c'd $(x (y) z) e" = ["a"; "'b c'd"; "$(x (y) z)"; "e"].
Proof. vm_compute. reflexivity. Qed.
Example lossy_text : from_utf8_lossy [Byte.x61; Byte.xff; Byte.xe2; Byte.x82; Byte.x62] = "a" +:+ REPLACEMENT +:+ REPLACEMENT +:+ "b".
Proof. vm_compute. reflexivity. Qed.
Example array_words_text : map is_array_assign_word ["a=(1 2)"; "a[0]=1"; "a=1"; "=(1)"; "1a=(2)"; "a+=(3)"] = [true; true; false; false; false; true].
Proof. vm_compute. reflexivity. Qed.
