(* ===== verification/ExecVars.v ===== *)
(** * What the executor does to a shell's state (src/src/exec.rs)

    Assignments and the variables of a command, arrays literals, aliases, here documents, the
    registers of control flow, and diagnostics. They act on the active context and expand words;
    [aliased] says of a write whether the file's contents have another owner on the host. *)

From stdpp Require Import pretty.
From S2P Require Import Prelude.
From S2P Require Import State.
From S2P Require Import RustStr.
From S2P Require Import Resources.
From S2P Require Import Variables.
From S2P Require Import Descriptors.
From S2P Require Import Scheduler.
From S2P Require Import Syntax.
From S2P Require Import ShellParser.
From S2P Require Import ProcessState.
From S2P Require Import ShellVars.
From S2P Require Import Machine.
From S2P Require Import ExpandText.
From S2P Require Import Expand.
From S2P Require Import Kernel.
From S2P Require Import Lifecycle.
From S2P Require Import ExecData.
From S2P Require Import ExecText.

(** ** Fields of the context *)

Definition set_shell_rest (sh : ShellState) (funcs : gmap string Node) (positional : Positional)
    (control : ControlState) (frame_saved : Z) : ShellState :=
  MkShell (sh_vars sh) (sh_arrays sh) (sh_exported sh) (sh_readonly sh) (sh_options sh) (sh_command_hash sh)
    (sh_directory_stack sh) funcs (sh_local_scopes sh) (sh_aliases sh) (sh_last_status sh) (sh_random sh) (sh_arg0 sh)
    positional (sh_getopts sh) (sh_flags sh) (sh_expansion_error sh) (sh_expansion_depth sh) (sh_jobs sh)
    (sh_next_job sh) control (sh_input sh) (sh_input_pos sh) (sh_local_saved sh) frame_saved.
Definition set_funcs (sh : ShellState) (funcs : gmap string Node) : ShellState :=
  set_shell_rest sh funcs (sh_positional sh) (sh_control sh) (sh_frame_saved sh).
Definition set_positional (sh : ShellState) (positional : Positional) : ShellState :=
  set_shell_rest sh (sh_funcs sh) positional (sh_control sh) (sh_frame_saved sh).
Definition set_control (sh : ShellState) (control : ControlState) : ShellState :=
  set_shell_rest sh (sh_funcs sh) (sh_positional sh) control (sh_frame_saved sh).
Definition set_frame_saved (sh : ShellState) (n : Z) : ShellState :=
  set_shell_rest sh (sh_funcs sh) (sh_positional sh) (sh_control sh) n.

Definition ctl_with_break (c : ControlState) (n : Z) : ControlState :=
  MkControl n (ctl_continue c) (ctl_loop_depth c) (ctl_returning c) (ctl_source_depth c) (ctl_exiting c) (ctl_cond_depth c).
Definition ctl_with_continue (c : ControlState) (n : Z) : ControlState :=
  MkControl (ctl_break c) n (ctl_loop_depth c) (ctl_returning c) (ctl_source_depth c) (ctl_exiting c) (ctl_cond_depth c).
Definition ctl_with_loop (c : ControlState) (n : Z) : ControlState :=
  MkControl (ctl_break c) (ctl_continue c) n (ctl_returning c) (ctl_source_depth c) (ctl_exiting c) (ctl_cond_depth c).
Definition ctl_with_returning (c : ControlState) (status : option Z) : ControlState :=
  MkControl (ctl_break c) (ctl_continue c) (ctl_loop_depth c) status (ctl_source_depth c) (ctl_exiting c) (ctl_cond_depth c).
Definition ctl_with_source (c : ControlState) (n : Z) : ControlState :=
  MkControl (ctl_break c) (ctl_continue c) (ctl_loop_depth c) (ctl_returning c) n (ctl_exiting c) (ctl_cond_depth c).
Definition ctl_with_exiting (c : ControlState) (status : option Z) : ControlState :=
  MkControl (ctl_break c) (ctl_continue c) (ctl_loop_depth c) (ctl_returning c) (ctl_source_depth c) status (ctl_cond_depth c).
Definition ctl_with_cond (c : ControlState) (n : Z) : ControlState :=
  MkControl (ctl_break c) (ctl_continue c) (ctl_loop_depth c) (ctl_returning c) (ctl_source_depth c) (ctl_exiting c) n.

Definition sg_with_error (g : SignalState) (active handling : bool) : SignalState :=
  MkSignalState (sg_pending g) (sg_dispositions g) (sg_exit g) (sg_err g) active handling (sg_handling_signal g).
Definition sg_with_exit (g : SignalState) (exit : option ShellSignalDisposition) : SignalState :=
  MkSignalState (sg_pending g) (sg_dispositions g) exit (sg_err g) (sg_err_active g) (sg_handling_error g)
    (sg_handling_signal g).

(** A change of the active shell. *)
Definition change_shell (f : ShellState → ShellState) : mach unit := on_context (λ p, (with_sh p f, tt)).
Definition control : mach ControlState := shell_get sh_control.
Definition on_control (f : ControlState → ControlState) : mach unit := change_shell (λ sh, set_control sh (f (sh_control sh))).
Definition on_signals (f : SignalState → SignalState) : mach unit :=
  on_context (λ p, (with_signals p (f (ps_signals p)), tt)).

(** [cond_depth] and [loop_depth] are [usize] counters that saturate. *)
Definition raise_cond : mach unit := on_control (λ c, ctl_with_cond c (sat_add64 (ctl_cond_depth c) 1)).
Definition lower_cond : mach unit := on_control (λ c, ctl_with_cond c (sat_sub (ctl_cond_depth c) 1)).
Definition raise_loop : mach unit := on_control (λ c, ctl_with_loop c (sat_add64 (ctl_loop_depth c) 1)).
Definition lower_loop : mach unit := on_control (λ c, ctl_with_loop c (sat_sub (ctl_loop_depth c) 1)).
Definition raise_source : mach unit := on_control (λ c, ctl_with_source c (sat_add64 (ctl_source_depth c) 1)).
Definition lower_source : mach unit := on_control (λ c, ctl_with_source c (sat_sub (ctl_source_depth c) 1)).
Definition set_exiting (status : option Z) : mach unit := on_control (λ c, ctl_with_exiting c status).
(** [exiting.take()] and [returning.take()]. *)
Definition take_exiting : mach (option Z) := c ← control; _ ← set_exiting None; mret (ctl_exiting c).
Definition take_returning : mach (option Z) :=
  c ← control; _ ← on_control (λ c, ctl_with_returning c None); mret (ctl_returning c).

(** [expansion_error.take()]. *)
Definition take_expansion_error : mach (option ShellExpansionError) :=
  error ← shell_get sh_expansion_error;
  _ ← change_shell (λ sh, set_expansion sh None (sh_expansion_depth sh));
  mret error.
Definition set_expansion_error (error : ShellExpansionError) : mach unit :=
  change_shell (λ sh, set_expansion sh (Some error) (sh_expansion_depth sh)).

Definition should_unwind : mach bool :=
  stopped ← mach_stopped;
  c ← control;
  p ← current;
  mret (stopped || bool_decide (is_Some (ctl_exiting c)) || bool_decide (is_Some (ctl_returning c)) ||
        (0 <? ctl_break c) || (0 <? ctl_continue c) || bool_decide (is_Some (ps_deadline_interrupt p))).

(** The status of a shell that the budget stopped. *)
Definition stopped_status : mach Z := gets (λ m,
  match rs_stop_reason (m_resources m) with Some reason => stop_exit_status reason | None => 137 end).

(** ** Diagnostics *)

Section diagnostics.
Context (aliased : Machine → Z → bool).

Definition write_fd (fd : Z) (data : bytes) : sys (IoPoll Z) :=
  shared ← gets (λ m, aliased m fd); write_fd_checked shared fd data.

(** Every round writes at least a byte. *)
Fixpoint write_all_fuel (fuel : nat) (fd : Z) (data : bytes) : mach (result string unit) :=
  match data, fuel with
  | [], _ => mret (Ok tt)
  | _, O => out_of_fuel
  | _, S fuel =>
      written ← write_fd fd data;
      match written with
      | Err error => mret (Err (write_error_message error))
      | Ok (Blocked _) => mret (Err "descriptor write would block")
      | Ok (Ready n) =>
          if n =? 0 then mret (Err "descriptor write would block") else write_all_fuel fuel fd (drop (Z.to_nat n) data)
      end
  end.
Definition write_all_fd (fd : Z) (data : bytes) : mach (result string unit) := write_all_fuel (length data) fd data.

Definition write_diagnostic (message : string) : mach unit := _ ← write_all_fd 2 (to_bytes message); mret tt.

End diagnostics.

(** ** Variables of a command *)

Definition saved_call_bytes (positional : Positional) (variables : saved_variables) : Z :=
  foldl (λ total '(name, value), sat_add64 (sat_add64 total (string_bytes name))
           match value with Some value => string_bytes value | None => 0 end)
    (po_bytes positional) variables.

Definition restore_variable (sh : ShellState) (entry : string * option string) : ShellState :=
  let '(key, value) := entry in
  set_vars sh match value with
              | Some value => (variables_insert (sh_vars sh) key value).1
              | None => (variables_remove (sh_vars sh) key).1
              end.
Definition restore_command_variables (saved : saved_variables) : mach unit :=
  change_shell (λ sh, foldl restore_variable sh saved).

Definition assignment_error (name : string) : ShellExpansionError :=
  expansion_assignment_error ("shellsim: " +:+ name +:+ ": readonly variable" +:+ newline).

(** The assignments before a command, up to the first readonly one. *)
Fixpoint assign_exported (assigns : list (string * string)) : mach unit :=
  match assigns with
  | [] => mret tt
  | (k, v) :: assigns =>
      readonly ← shell_get (λ sh, bool_decide (k ∈ sh_readonly sh));
      if readonly : bool then set_expansion_error (assignment_error k)
      else
        _ ← on_context (λ p, (set_var p k v, tt));
        _ ← change_shell (λ sh, export_var sh k);
        assign_exported assigns
  end.

(** ** Assignments *)

Section expanding.
Context (engine : TextEngine).

Definition expand_word_with (word : string) (split : bool) : mach (list string) :=
  expand_word (te_regex engine) (te_upper engine) (te_lower engine) (te_upper_char engine) (te_lower_char engine) word split.
(** [expand_word(interp, word, false).join(" ")]. *)
Definition expand_text (word : string) : mach string := fields ← expand_word_with word false; mret (String.concat " " fields).

Fixpoint expand_values (assigns : list (string * string)) : mach (list (string * string)) :=
  match assigns with
  | [] => mret []
  | (k, v) :: assigns => value ← expand_text v; rest ← expand_values assigns; mret ((k, value) :: rest)
  end.

Definition install_command_variables (assigns : list (string * string)) : mach saved_variables :=
  expanded ← expand_values assigns;
  saved ← shell_get (λ sh, map (λ '(k, _), (k, va_values (sh_vars sh) !! k)) expanded);
  _ ← assign_exported expanded;
  mret saved.

Fixpoint expand_argv_words (double_bracket : bool) (words : list string) : mach (list string) :=
  match words with
  | [] => mret []
  | w :: words =>
      here ← (if is_array_assign_word w then mret [w] else expand_word_with w (negb double_bracket));
      rest ← expand_argv_words double_bracket words;
      mret (here ++ rest)
  end.
Definition expand_argv (words : list string) : mach (list string) :=
  expand_argv_words (bool_decide (head words = Some "[[")) words.

(** At most 33 names are expanded: each name once, and 32 of them. *)
Fixpoint expand_alias_fuel (fuel : nat) (expanded : gset string) (argv : list string) : mach (result string (list string)) :=
  match fuel, argv with
  | _, [] => mret (Ok [])
  | O, _ => out_of_fuel
  | S fuel, command :: arguments =>
      alias ← shell_get (λ sh, sh_aliases sh !! command);
      match alias with
      | None => mret (Ok argv)
      | Some alias =>
          let seen := bool_decide (command ∈ expanded) in
          let expanded := {[command]} ∪ expanded in
          if seen || (32 <? Z.of_nat (size expanded)) then
            mret (Err ("recursive alias involving " +:+ debug_text command))
          else
            replacement ← expand_argv (al_words alias);
            match replacement with
            | [] => mret (Err ("alias " +:+ debug_text command +:+ " expands to an empty command"))
            | _ => expand_alias_fuel fuel expanded (replacement ++ arguments)
            end
      end
  end.
Definition expand_alias_argv (argv : list string) : mach (result string (list string)) := expand_alias_fuel 34 ∅ argv.

(** One word of an array literal: an explicit element or the fields it expands to. *)
Definition array_elem (tok : string) : mach (list (option string * string)) :=
  let plain := fields ← expand_word_with tok true; mret (map (λ v, (None, v)) fields) in
  match (rest ← strip_prefix "[" tok; '(key_raw, after) ← split_once "]"%char rest;
         val_raw ← strip_prefix "=" after; Some (key_raw, val_raw)) with
  | Some (key_raw, val_raw) => key ← expand_text key_raw; val ← expand_text val_raw; mret [(Some key, val)]
  | None => plain
  end.

Fixpoint array_elems (toks : list string) : mach (list (option string * string)) :=
  match toks with
  | [] => mret []
  | tok :: toks => here ← array_elem tok; rest ← array_elems toks; mret (here ++ rest)
  end.
Definition parse_array_elems (inner : string) : mach (list (option string * string)) :=
  array_elems (split_top_level_words inner).

Definition store_element (name : string) (sh : ShellState) (element : option string * string) : ShellState :=
  match element with
  | (Some k, val) => array_set sh name k val
  | (None, val) => array_append sh name [val]
  end.

Definition is_assoc (sh : ShellState) (name : string) : bool :=
  match array_value sh name with Some (Assoc _) => true | _ => false end.

(** A fresh array keeps being associative. *)
Definition fresh_array (name : string) (sh : ShellState) : ShellState :=
  let sh := if is_assoc sh name then sh else ensure_indexed sh name in
  set_arrays sh (clear_elements (sh_arrays sh) name).

(** [name], [name[subscript]], and whether a [+] appends. *)
Definition split_key (raw_key : string) : string * option string * bool :=
  let '(body, append) := match strip_suffix "+" raw_key with Some b => (b, true) | None => (raw_key, false) end in
  match split_once "["%char body with
  | Some (name, rest) => match strip_suffix "]" rest with Some sub => (name, Some sub, append) | None => (body, None, append) end
  | None => (body, None, append)
  end.

Definition array_literal (raw_val : string) : option string :=
  rest ← strip_prefix "(" (trim raw_val); strip_suffix ")" rest.

Definition assign_subscript (name sub raw_val : string) (append : bool) : mach unit :=
  key ← expand_text sub;
  val ← expand_text raw_val;
  change_shell (λ sh, array_set sh name key
    (if append then default "" (array_get sh name key) +:+ val else val)).

Definition assign_scalar (name raw_val : string) (append : bool) : mach unit :=
  val ← expand_text raw_val;
  array ← shell_get (λ sh, is_array sh name);
  if negb append then on_context (λ p, (set_var p name val, tt))
  else if array : bool then change_shell (λ sh, array_set sh name "0" (default "" (array_get sh name "0") +:+ val))
  else
    prev ← mach_var name;
    on_context (λ p, (set_var p name (default "" prev +:+ val), tt)).

Definition apply_assignment (raw_key raw_val : string) : mach unit :=
  let '(name, subscript, append) := split_key raw_key in
  readonly ← shell_get (λ sh, bool_decide (name ∈ sh_readonly sh));
  if readonly : bool then set_expansion_error (assignment_error name)
  else
    match array_literal raw_val with
    | Some inner =>
        _ ← (if append then mret tt else change_shell (fresh_array name));
        elems ← parse_array_elems inner;
        change_shell (λ sh, foldl (store_element name) sh elems)
    | None =>
        match subscript with
        | Some sub => assign_subscript name sub raw_val append
        | None => assign_scalar name raw_val append
        end
    end.

Fixpoint heredoc_lines (lines : list string) : mach (list string) :=
  match lines with
  | [] => mret []
  | line :: lines => text ← expand_text (double_wrap line); rest ← heredoc_lines lines; mret (text :: rest)
  end.
Definition expand_heredoc (body : string) : mach string :=
  lines ← heredoc_lines (split_str newline body); mret (String.concat newline lines).

End expanding.

(** ** Reading source *)

(** [parse_shell_action]: the syntax tree, or a status and a diagnostic. *)
Definition parse_shell_action (src : string) : mach (result (Z * string) Node) :=
  let parser_memory := sat_add64 8192 (sat_mul64 (str_len src) 2) in
  granted ← reserve parser_memory;
  if negb granted then status ← stopped_status; mret (Err (status, ""))
  else
    charged ← charge (str_len src);
    parsed ← (if charged : bool then
                r ← lift_run (λ _, parse src);
                mret match r with
                     | Ok node => Ok node
                     | Err error => Err (2, "shellsim: syntax error: " +:+ shell_error_display error +:+ newline)
                     end
              else status ← stopped_status; mret (Err (status, "")));
    _ ← release_bytes parser_memory;
    _ ← match parsed with Err (status, _) => change_shell (λ sh, set_last_status sh status) | Ok _ => mret tt end;
    mret parsed.
