(* ===== verification/Redirects.v ===== *)
(** * Redirections (src/src/exec.rs)

    A command's redirections are applied to the descriptor table of its process, which is saved and
    put back after it. They are applied from left to right or not at all: the first that fails takes
    the table and the filesystem back to where they were. *)

From stdpp Require Import pretty.
From S2P Require Import Prelude.
From S2P Require Import State.
From S2P Require Import RustStr.
From S2P Require Import Resources.
From S2P Require Import Descriptors.
From S2P Require Import Paths.
From S2P Require Import Vfs.
From S2P Require Import Syntax.
From S2P Require Import ProcessState.
From S2P Require Import ShellVars.
From S2P Require Import Machine.
From S2P Require Import ExpandText.
From S2P Require Import Expand.
From S2P Require Import Kernel.
From S2P Require Import Lifecycle.
From S2P Require Import ExecData.
From S2P Require Import ExecText.
From S2P Require Import ExecVars.

(** ** Tables *)

Definition fork_fds (t : FdTable) : mach (result DescriptorError FdTable) := λ m,
  let '(a, r) := fd_fork t (m_descriptors m) in Ret (set_descriptors m a, r).
Definition fork_table : mach (result DescriptorError FdTable) := p ← current; fork_fds (ps_fds p).

(** [close_all]: the table is left empty. *)
Definition close_table (t : FdTable) : mach unit :=
  modify (λ m, set_descriptors m (close_all t (m_descriptors m)).2).

Definition restore_fds (saved : FdTable) : mach unit :=
  p ← current;
  _ ← close_table (ps_fds p);
  _ ← update_current (λ p, with_fds p saved);
  refresh_descriptor_snapshot (ps_pid p).

(** A function of Rust that fails with a text. *)
Abbreviation texted A := (stm Machine (result string A)).
Definition text_error {A} (message : string) : texted A := mret (Err message).
Definition text_bind {A B} (k : A → texted B) (m : texted A) : texted B :=
  r ← m; match r with Ok a => k a | Err message => text_error message end.
Notation "x ←: y ; z" := (text_bind (λ x : _, z) y)
  (at level 20, y at level 100, z at level 200, only parsing) : stdpp_scope.

(** [m.map_err(|error| format!("{what}: {error}"))]. *)
Definition within {A} (what : string) (m : sys A) : texted A :=
  r ← m;
  mret match r with Ok a => Ok a | Err error => Err (what +:+ ": " +:+ syscall_error_display error) end.

Section redirects.
Context (format_seconds : Z → string) (engine : TextEngine).

(** A recorded expansion error fails the redirection, and ends the shell when it is of that kind. *)
Definition fail_on_expansion_error : texted unit :=
  error ← take_expansion_error;
  match error with
  | None => mret (Ok tt)
  | Some error =>
      _ ← (if xe_abort error then set_exiting (Some (xe_status error)) else mret tt);
      text_error (trim (xe_message error))
  end.

Definition redirect_path (word : string) : texted string :=
  fields ← expand_word_with engine word true;
  _ ←: fail_on_expansion_error;
  match fields with
  | [field] => p ← current; mret (Ok (resolve_against (ps_cwd p) field))
  | _ => text_error (word +:+ ": ambiguous redirect")
  end.

Definition open_options (op : RedirOp) : OpenFile :=
  match op with
  | OpRead => MkOpenFile true false false false false false
  | OpReadWrite => MkOpenFile true true true false false false
  | OpWrite => MkOpenFile false true true false true false
  | _ => MkOpenFile false true true false false true
  end.

Definition open_redirect_file (fd : Z) (path : string) (op : RedirOp) : texted unit :=
  within path (sys_open_file_at format_seconds fd "/" path (open_options op)).

(** The paths of devices name descriptors. *)
Definition redirect_file (devices : bool) (r : Redirect) : texted unit :=
  path ←: redirect_path (rd_target r);
  match (if devices then device_fd path else None) with
  | Some source => within path (sys_duplicate source (rd_fd r))
  | None => open_redirect_file (rd_fd r) path (rd_op r)
  end.

Definition document_text (r : Redirect) : mach string :=
  match rd_op r with
  | OpHeredoc => expand_heredoc engine (rd_target r)
  | OpHeredocRaw => mret (rd_target r)
  | _ => text ← expand_text engine (rd_target r); mret (text +:+ newline)
  end.

Definition redirect_document (r : Redirect) : texted unit :=
  text ← document_text r;
  _ ←: fail_on_expansion_error;
  description ←: within "here document" (arena_do (λ a, open_input a (to_bytes text)));
  within "here document" (install_new_description (rd_fd r) description).

Definition apply_redirect (r : Redirect) : texted unit :=
  match rd_op r with
  | OpRead | OpWrite | OpAppend => redirect_file true r
  | OpReadWrite => redirect_file false r
  | OpHeredoc | OpHeredocRaw | OpHereString => redirect_document r
  | OpDupOut =>
      match parse_i32 (trim_start_char "&"%char (rd_target r)) with
      | None => text_error ("bad file descriptor: " +:+ rd_target r)
      | Some source => within (rd_target r) (sys_duplicate source (rd_fd r))
      end
  | OpClose => within (pretty (rd_fd r)) (sys_close (rd_fd r))
  end.

Fixpoint apply_redirects (redirects : list Redirect) : texted unit :=
  match redirects with
  | [] => mret (Ok tt)
  | r :: redirects => _ ←: apply_redirect r; apply_redirects redirects
  end.

Definition begin_redirects (redirects : list Redirect) : texted RedirectScope :=
  snapshot_bytes ← gets (λ m, sat_add64 (vf_disk_used (m_vfs m)) 4096);
  granted ← reserve snapshot_bytes;
  if negb granted then text_error "memory limit exceeded while preparing redirections"
  else
    vfs_before ← gets m_vfs;
    forked ← fork_table;
    match forked with
    | Err error => _ ← release_bytes snapshot_bytes; text_error (descriptor_error_debug error)
    | Ok saved =>
        applied ← apply_redirects redirects;
        match applied with
        | Err message =>
            _ ← restore_fds saved;
            _ ← modify (λ m, set_vfs m vfs_before);
            _ ← release_bytes snapshot_bytes;
            text_error message
        | Ok _ => mret (Ok (MkRedirectScope saved snapshot_bytes))
        end
    end.

Definition end_redirects (scope : RedirectScope) : mach unit :=
  _ ← restore_fds (rsc_saved scope); release_bytes (rsc_reserved_memory scope).

Definition commit_redirects (scope : RedirectScope) : mach unit :=
  _ ← close_table (rsc_saved scope); release_bytes (rsc_reserved_memory scope).

End redirects.
