(* ===== verification/ExecHost.v ===== *)
(** * The frames of a shell, and what it runs on (src/src/exec.rs, src/src/program.rs)

    [Host] is the interface between the executor and what it calls: the commands and native images,
    whose behaviour the executor's own does not depend on, and the constants of the host. Then the
    discipline of the stack: pushing within the limit, and aborting, which puts back what the frames
    had saved. *)

From S2P Require Import Prelude.
From S2P Require Import State.
From S2P Require Import RustStr.
From S2P Require Import Resources.
From S2P Require Import Variables.
From S2P Require Import Descriptors.
From S2P Require Import Scheduler.
From S2P Require Import Paths.
From S2P Require Import Vfs.
From S2P Require Import Syntax.
From S2P Require Import ProcessState.
From S2P Require Import ShellVars.
From S2P Require Import Machine.
From S2P Require Import ExpandText.
From S2P Require Import Expand.
From S2P Require Import Kernel.
From S2P Require Import Lifecycle.
From S2P Require Import ExecData.
From S2P Require Import ExecText.
From S2P Require Import ExecVars.
From S2P Require Import Redirects.

(** ** The host *)

Class Host (R N : Type) := {
  host_node_size : Z;
  host_redirect_size : Z;
  host_format_seconds : Z → string;
  host_engine : TextEngine;
  host_aliased : Machine → Z → bool;
  (** [commands::poll]: its result, what it wrote to standard output and to standard error. *)
  cmd_poll : list string → bytes → stm (World R N) (CommandPoll R * bytes * bytes);
  cmd_resume : R → stm (World R N) (CommandPoll R);
  cmd_starts_before_input : Machine → list string → bool;
  cmd_buffers_standard_input : Machine → list string → bool;
  cmd_execs_native_image : Machine → string → bool;
  (** [exec_argv_image]: load the image of [argv] into the process. *)
  cmd_exec_argv_image : Z → list string → stm (World R N) (result string unit);
  native_poll : N → stm (World R N) (N * ShellPoll);
  native_release_memory : N → stm (World R N) N
}.

(** ** Finding executables (src/src/commands/util.rs) *)

Inductive ExecutableLookup := Found (path : string) | NotExecutable (path : string) | LookupNotFound.

Fixpoint first_executable (v : Vfs) (candidates : list string) (denied : option string) : ExecutableLookup :=
  match candidates with
  | [] => match denied with Some path => NotExecutable path | None => LookupNotFound end
  | path :: candidates =>
      match metadata v "/" path true with
      | Err _ => first_executable v candidates denied
      | Ok node =>
          let program := match nd_kind node with File _ | NativeExecutable _ => true | _ => false end in
          if program && negb (Z.land (nd_mode node) 73 =? 0) then Found path
          else first_executable v candidates (Some (default path denied))
      end
  end.

(** [path.split(':')]. *)
Definition search_directory (cwd directory : string) : string :=
  if bool_decide (directory = "") then cwd else resolve_against cwd directory.
Definition resolve_executable_in (v : Vfs) (cwd : string) (path_value : option string) (name : string) : ExecutableLookup :=
  let candidates :=
    if has_slash name then [resolve_against cwd name]
    else map (λ directory, resolve_against (search_directory cwd directory) name)
           (split_str ":" (default "/bin:/usr/bin" path_value)) in
  first_executable v candidates None.
Definition resolve_executable (name : string) : mach ExecutableLookup :=
  path ← mach_var "PATH";
  p ← current;
  gets (λ m, resolve_executable_in (m_vfs m) (ps_cwd p) path name).

Section host.
Context {R N : Type} {H : Host R N}.
Abbreviation act A := (stm (World R N) A).
Abbreviation sh A := (stm (Shell R N) A).

Definition diagnose (message : string) : mach unit := write_diagnostic host_aliased message.

(** ** Programs of processes *)

(** [set_program]; [set_continuation] is the same for a shell's. *)
Definition set_program (pid : Z) (program : option (ProgramContinuation R N)) : act (result LifecycleError unit) :=
  stored ← on_machine (set_state_program pid (bool_decide (is_Some program)));
  match stored with
  | Err error => mret (Err error)
  | Ok _ =>
      _ ← modify (λ w, MkWorld (w_machine w)
            match program with Some program => <[pid := program]> (w_programs w) | None => delete pid (w_programs w) end);
      mret (Ok tt)
  end.

(** [interp.process.program.take()]. *)
Definition take_program : act (option (ProgramContinuation R N)) :=
  pid ← gets (λ w, m_active (w_machine w));
  p ← on_machine current;
  if ps_program p then
    program ← gets (λ w, w_programs w !! pid);
    _ ← set_program pid None;
    mret program
  else mret None.

(** [result.expect(..)]. *)
Definition demand_ok {E A} (m : act (result E A)) : act A :=
  r ← m; match r with Ok a => mret a | Err _ => panic end.

(** ** Aborting *)

Definition remove_path (path : string) : mach unit := _ ← vfs_do (λ v, remove_file v "/" path); mret tt.
Fixpoint remove_paths (paths : list string) : mach unit :=
  match paths with [] => mret tt | path :: paths => _ ← remove_path path; remove_paths paths end.

(** What a function call saved: the scope, the memory, the positional parameters. *)
Definition leave_function (positional : Positional) (variables : saved_variables) (err_trap_active : bool) : mach unit :=
  _ ← on_signals (λ g, sg_with_error g err_trap_active (sg_handling_error g));
  _ ← change_shell leave_function_scope;
  _ ← change_shell (λ sh, set_frame_saved sh (sat_sub (sh_frame_saved sh) (saved_call_bytes positional variables)));
  change_shell (λ sh, set_positional sh positional).

Definition set_handling_error (handling : bool) : mach unit :=
  on_signals (λ g, sg_with_error g (sg_err_active g) handling).

Definition abort_frame (frame : ShellFrame R) : mach unit :=
  match frame with
  | RestoreRedirect scope => end_redirects scope
  | CleanupProcessSubstitutionFiles paths => remove_paths paths
  | RunOutputSubstitutions substitutions _ | AwaitOutputProcessSubstitution substitutions _ _ =>
      remove_paths (map osb_path substitutions)
  | FinishFunction positional variables err_trap_active =>
      _ ← leave_function positional variables err_trap_active;
      restore_command_variables variables
  | FinishInlineCommand variables => restore_command_variables variables
  | FinishSource variables =>
      _ ← lower_source;
      _ ← on_control (λ c, ctl_with_returning c None);
      restore_command_variables variables
  | FinishSignalHandler _ => finish_signal_handler
  | FinishErrorTrap _ _ => set_handling_error false
  | FinishLoop => lower_loop
  | Conditional _ _ | Negate | IfAfter _ _ _ | WhileAfterCondition _ _ _ _ => lower_cond
  | _ => mret tt
  end.

Fixpoint abort_frames (frames : list (ShellFrame R)) : mach unit :=
  match frames with [] => mret tt | frame :: frames => _ ← abort_frame frame; abort_frames frames end.

Definition shell_abort : sh unit :=
  frames ← ask sc_frames;
  _ ← edit (λ c, set_frames c []);
  in_machine (abort_frames frames).

(** ** Pushing *)

Definition frame_count : sh Z := ask (λ c, zlen (sc_frames c)).
Definition put_frame (frame : ShellFrame R) : sh unit := edit (λ c, set_frames c (frame :: sc_frames c)).
Definition set_result (status : Z) : sh unit := edit (λ c, set_status c status).
Definition wait_on (reason : WaitReason) : sh unit :=
  edit (λ c, set_signals c (sc_switched c) (sc_yielded c) (Some reason)).
Definition mark_switched : sh unit := edit (λ c, set_signals c true (sc_yielded c) (sc_blocked_on c)).

Definition frame_overflow : sh unit :=
  _ ← in_machine (diagnose ("shellsim: shell continuation frame limit exceeded" +:+ newline));
  _ ← set_result 2;
  shell_abort.

Definition push_frame (frame : ShellFrame R) : sh bool :=
  count ← frame_count;
  if MAX_SHELL_FRAMES <=? count then _ ← frame_overflow; mret false
  else _ ← put_frame frame; mret true.
Definition push_ (frame : ShellFrame R) : sh unit := _ ← push_frame frame; mret tt.

Definition ensure_capacity (additional : Z) : sh bool :=
  count ← frame_count;
  if MAX_SHELL_FRAMES <? sat_add64 count additional then _ ← frame_overflow; mret false else mret true.

(** [if self.push(first) { self.push(second); }]: [second] runs before [first]. *)
Definition push_two (first second : ShellFrame R) : sh unit :=
  pushed ← push_frame first; if pushed : bool then push_ second else mret tt.

(** A handler for a signal runs before the rest of the program. *)
Definition inject_signal_handler (body : Node) : sh unit :=
  room ← ensure_capacity 2;
  if negb room then in_machine finish_signal_handler
  else
    status ← ask sc_status;
    _ ← put_frame (FinishSignalHandler status);
    put_frame (Eval body).

(** Node [node] runs as the command's body. *)
Definition enter_inline_command (variables : saved_variables) (node : Node) : sh unit :=
  room ← ensure_capacity 2;
  if negb room then in_machine (restore_command_variables variables)
  else _ ← put_frame (FinishInlineCommand variables); put_frame (Eval node).
Definition enter_source (variables : saved_variables) (node : Node) : sh unit :=
  room ← ensure_capacity 2;
  if negb room then in_machine (restore_command_variables variables)
  else
    _ ← in_machine raise_source;
    _ ← put_frame (FinishSource variables);
    put_frame (Eval node).

(** ** A shell that reads its program from standard input *)

Definition read_on (pending : bytes) (eof : bool) : sh unit :=
  if eof then mret tt else put_frame (ReadProgram pending).

Definition run_source (pending : bytes) (eof : bool) : sh unit :=
  let source := from_utf8_lossy pending in
  more ← (if eof then mret false else in_machine (lift_run (λ _, ShellParser.needs_more_input source)));
  if more : bool then put_frame (ReadProgram pending)
  else if bool_decide (trim source = "") then read_on [] eof
  else
    parsed ← in_machine (parse_shell_action source);
    match parsed with
    | Ok program => _ ← read_on [] eof; push_ (Eval program)
    | Err (status, diagnostic) => _ ← in_machine (diagnose diagnostic); set_result status
    end.

Definition read_program (pending : bytes) : sh unit :=
  unwind ← in_machine should_unwind;
  if unwind : bool then mret tt
  else
    read ← in_machine (read_fd_checked 0 1);
    match read with
    | Err _ => run_source pending true
    | Ok (Blocked wait) => _ ← put_frame (ReadProgram pending); wait_on (io_wait_reason wait)
    | Ok (Ready []) => run_source pending true
    | Ok (Ready data) =>
        let pending := pending ++ data in
        if MAX_STDIN_PROGRAM_BYTES <? zlen pending then
          _ ← in_machine (diagnose ("shellsim: standard input command too long" +:+ newline));
          set_result 2
        else if negb (bool_decide (data = [Byte.x0a])) then put_frame (ReadProgram pending)
        else run_source pending false
    end.

End host.
