(* ===== verification/ExecPrep.v ===== *)
(** * Substitutions (src/src/exec.rs)

    Before its words are expanded, the command and process substitutions of a command, a [for], a
    [case] or an arithmetic expression are run one at a time, each as a child whose output is
    captured; the text in the word is replaced by a parameter that holds it. *)

From stdpp Require Import pretty.
From S2P Require Import Prelude.
From S2P Require Import RustStr.
From S2P Require Import Arith.
From S2P Require Import State.
From S2P Require Import Resources.
From S2P Require Import Process.
From S2P Require Import Variables.
From S2P Require Import Descriptors.
From S2P Require Import Scheduler.
From S2P Require Import Paths.
From S2P Require Import Vfs.
From S2P Require Import Syntax.
From S2P Require Import ProcessState.
From S2P Require Import ShellVars.
From S2P Require Import Machine.
From S2P Require Import PseudoFs.
From S2P Require Import ExpandText.
From S2P Require Import Expand.
From S2P Require Import Kernel.
From S2P Require Import Lifecycle.
From S2P Require Import ExecData.
From S2P Require Import ExecText.
From S2P Require Import ExecVars.
From S2P Require Import Redirects.
From S2P Require Import ExecHost.

(** ** Lists and text updated in place *)

(** [list[index] = value]: an index out of range panics. *)
Definition set_at {A} (l : list A) (index : nat) (value : A) : run (list A) :=
  if (index <? length l)%nat then Ret (<[index := value]> l) else Panic.
Definition update_at {A} (l : list A) (index : nat) (f : A → run A) : run (list A) :=
  a ← expect (l !! index); a ← f a; set_at l index a.

(** [s.replace_range(start..finish, by)]. *)
Definition replace_range (s : string) (start finish : nat) (by_ : string) : run string :=
  if (start <=? finish)%nat then
    before ← str_slice s 0 start;
    rest ← str_slice s finish (String.length s);
    Ret (before +:+ by_ +:+ rest)
  else Panic.

(** The first element in which [f] finds something. *)
Fixpoint find_from {A B} (f : A → run (option B)) (index : nat) (l : list A) : run (option (nat * B)) :=
  match l with
  | [] => Ret None
  | a :: l => r ← f a; match r with Some b => Ret (Some (index, b)) | None => find_from f (S index) l end
  end.
Definition find_each {A B} (f : A → run (option B)) (l : list A) : run (option (nat * B)) := find_from f 0 l.

(** [a.or_else(|| b)]. *)
Definition or_else {A} (a b : run (option A)) : run (option A) :=
  r ← a; match r with Some _ => Ret r | None => b end.
Definition located {A B L} (place : A → L) (r : run (option (A * B))) : run (option (L * B)) :=
  r ← r; Ret match r with Some (a, b) => Some (place a, b) | None => None end.

Definition tagged {B L} (label : L) (r : run (option B)) : run (option (L * B)) :=
  r ← r; Ret match r with Some b => Some (label, b) | None => None end.

(** ** Finding substitutions *)

Definition assignment_substitution (entry : string * string) : run (option (bool * CommandSubstitution)) :=
  or_else (tagged true (find_command_substitution entry.1)) (tagged false (find_command_substitution entry.2)).

Definition redirect_substitution (r : Redirect) : run (option CommandSubstitution) :=
  if bool_decide (rd_op r = OpHeredocRaw) then Ret None else find_command_substitution (rd_target r).

Definition next_command_substitution (command : PreparedCommand) : run (option (ExpansionLocation * CommandSubstitution)) :=
  or_else
    (r ← find_each assignment_substitution (pc_assigns command);
     Ret match r with
         | Some (index, (key, s)) => Some (if key : bool then AssignmentKey index else AssignmentValue index, s)
         | None => None
         end)
    (or_else (located LocWord (find_each find_command_substitution (pc_words command)))
             (located LocRedirect (find_each redirect_substitution (pc_redirects command)))).

Definition next_process_substitution (command : PreparedCommand) : run (option (ProcessSubstitutionLocation * string)) :=
  or_else
    (located PsRedirect (find_each (λ r, Ret (if bool_decide (rd_op r = OpRead)
                                              then process_substitution_source (rd_target r) else None))
                          (pc_redirects command)))
    (located PsWord (find_each (λ w, Ret (process_substitution_source w)) (pc_words command))).

Definition next_output_process_substitution (command : PreparedCommand) : run (option (nat * string)) :=
  find_each (λ w, Ret (output_process_substitution_source w)) (pc_words command).

(** ** Changing a prepared command *)

Definition with_words (c : PreparedCommand) (words : list string) : PreparedCommand :=
  MkPreparedCommand (pc_body c) (pc_assigns c) words (pc_redirects c) (pc_temporary c) (pc_substitution_status c)
    (pc_output c) (pc_files c).
Definition with_assigns (c : PreparedCommand) (assigns : list (string * string)) : PreparedCommand :=
  MkPreparedCommand (pc_body c) assigns (pc_words c) (pc_redirects c) (pc_temporary c) (pc_substitution_status c)
    (pc_output c) (pc_files c).
Definition command_redirects (c : PreparedCommand) (redirects : list Redirect) : PreparedCommand :=
  MkPreparedCommand (pc_body c) (pc_assigns c) (pc_words c) redirects (pc_temporary c) (pc_substitution_status c)
    (pc_output c) (pc_files c).
Definition with_output (c : PreparedCommand) (output : list OutputProcessSubstitution) : PreparedCommand :=
  MkPreparedCommand (pc_body c) (pc_assigns c) (pc_words c) (pc_redirects c) (pc_temporary c) (pc_substitution_status c)
    output (pc_files c).
Definition with_files (c : PreparedCommand) (files : list string) : PreparedCommand :=
  MkPreparedCommand (pc_body c) (pc_assigns c) (pc_words c) (pc_redirects c) (pc_temporary c) (pc_substitution_status c)
    (pc_output c) files.
Definition with_substituted (c : PreparedCommand) (variable : string) (previous : option string) (status : Z) : PreparedCommand :=
  MkPreparedCommand (pc_body c) (pc_assigns c) (pc_words c) (pc_redirects c) (pc_temporary c ++ [(variable, previous)])
    (Some status) (pc_output c) (pc_files c).

Definition replace_in (s : CommandSubstitution) (by_ : string) (text : string) : run string :=
  replace_range text (cs_start s) (cs_end s) by_.

Definition replace_substitution (c : PreparedCommand) (location : ExpansionLocation) (s : CommandSubstitution)
    (by_ : string) : run PreparedCommand :=
  match location with
  | AssignmentKey index =>
      assigns ← update_at (pc_assigns c) index (λ '(k, v), k ← replace_in s by_ k; Ret (k, v)); Ret (with_assigns c assigns)
  | AssignmentValue index =>
      assigns ← update_at (pc_assigns c) index (λ '(k, v), v ← replace_in s by_ v; Ret (k, v)); Ret (with_assigns c assigns)
  | LocWord index => words ← update_at (pc_words c) index (replace_in s by_); Ret (with_words c words)
  | LocRedirect index =>
      redirects ← update_at (pc_redirects c) index
        (λ r, target ← replace_in s by_ (rd_target r); Ret (MkRedirect (rd_fd r) (rd_op r) target));
      Ret (command_redirects c redirects)
  end.

(** [${variable}]. *)
Definition parameter (variable : string) : string := "${" +:+ variable +:+ "}".

Section substitutions.
Context {R N : Type} {H : Host R N}.
Abbreviation act A := (stm (World R N) A).
Abbreviation sh A := (stm (Shell R N) A).

(** ** Files of process substitutions *)

Definition create_process_substitution_file (data : bytes) : texted string :=
  identifier ← sys_allocate_temp_id;
  match identifier with
  | None => text_error ("shellsim: process substitution identity exhausted" +:+ newline)
  | Some identifier =>
      let path := "/tmp/.shellsim-process-substitution-" +:+ pretty identifier in
      _ ← sync_vfs_time;
      written ← vfs_do (λ v, vfs_write v "/" path data 384);
      mret match written with
           | Ok _ => Ok path
           | Err error => Err ("shellsim: process substitution: " +:+ syscall_error_display error +:+ newline)
           end
  end.

Definition cleanup_prepared (command : PreparedCommand) : mach unit :=
  _ ← remove_paths (map osb_path (pc_output command)); remove_paths (pc_files command).

(** The command is given up: its files go, its variables come back. *)
Definition give_command_up (command : PreparedCommand) : mach unit :=
  _ ← cleanup_prepared command; restore_command_variables (pc_temporary command).

(** [interp.fs_read("/", path).unwrap_or_default()]. *)
Definition read_back (path : string) : mach bytes :=
  pseudo ← in_pseudo (λ m p, pseudo_read host_format_seconds m p "/" path);
  match pseudo with
  | Some r => mret (default [] (ok r))
  | None => r ← vfs_do (λ v, vfs_read v "/" path); mret (default [] (ok r))
  end.

(** ** Names for captured text *)

(** A name that is taken is passed over for a unit of work; each round tries another. *)
Definition name_taken (variable : string) : mach bool :=
  found ← mach_var variable;
  exported ← shell_get (λ s, bool_decide (variable ∈ sh_exported s));
  mret (bool_decide (is_Some found) || exported).

Fixpoint new_variable_fuel (fuel : nat) : texted string :=
  match fuel with
  | O => out_of_fuel
  | S fuel =>
      identifier ← sys_allocate_temp_id;
      match identifier with
      | None => text_error ("shellsim: command substitution identity exhausted" +:+ newline)
      | Some identifier =>
          let variable := "__SHELLSIM_COMMAND_SUBSTITUTION_" +:+ pretty identifier in
          taken ← name_taken variable;
          if negb taken then mret (Ok variable)
          else
            granted ← charge 1;
            if granted : bool then new_variable_fuel fuel
            else text_error ("shellsim: resource limit exceeded during command substitution" +:+ newline)
      end
  end.
(** The names that may be taken. *)
Definition taken_names (s : ShellState) : nat :=
  (size (va_values (sh_vars s)) + size (ar_values (sh_arrays s)) + size (sh_exported s))%nat.
Definition new_substitution_variable : texted (string * option string) :=
  taken ← shell_get taken_names;
  variable ←: new_variable_fuel (S taken);
  mret (Ok (variable, None)).

(** ** Children that run substitutions *)

Definition reap_child (pid : Z) : mach unit :=
  _ ← processes_do (λ t, (process_reap t pid).1); _ ← sched_do (λ c, scheduler_reap c pid); mret tt.

Definition child_exit_status (m : Machine) (pid : Z) : option Z :=
  match process_status m pid with Some (Exited status) => Some status | _ => None end.

Definition drain (capture : Z) : mach bytes :=
  drained ← arena_run (λ a, drain_capture a capture); mret (default [] (ok drained)).

Definition finish_substitution (pid capture : Z) : mach (Z * bytes) :=
  exited ← gets (λ m, child_exit_status m pid);
  status ← match exited with
           | Some status => mret status
           | None =>
               _ ← diagnose ("shellsim: command substitution child " +:+ pretty pid +:+ " did not exit" +:+ newline);
               mret 125
           end;
  data ← drain capture;
  _ ← arena_do (λ a, release_handle a capture);
  _ ← reap_child pid;
  mret (status, data).

Definition strip_newlines (data : bytes) : bytes := reverse (drop_while (λ b, bool_decide (b = Byte.x0a)) (reverse data)).

Definition finish_command_substitution (pid capture : Z) : mach (Z * string) :=
  '(status, data) ← finish_substitution pid capture;
  mret (status, from_utf8_lossy (strip_newlines data)).

(** A failure with a status: [Result<_, (i32, String)>]. *)
Abbreviation refusable A := (stm (World R N) (result (Z * string) A)).

Definition start_shell_child (label : string) : mach (result LifecycleError Z) :=
  start_child host_node_size host_redirect_size label false.

Definition discard_description (id : Z) : mach unit := _ ← arena_do (λ a, discard_unreferenced a id); mret tt.

(** [install_process_description(..).expect(..)]. *)
Definition install_in_child (pid fd description : Z) : act unit :=
  demand_ok (on_machine (install_process_description pid fd description)).

Definition substitution_error {A} (what : string) (error : SyscallError) : result (Z * string) A :=
  Err (125, "shellsim: " +:+ what +:+ ": " +:+ syscall_error_display error +:+ newline).

(** The captured output, held open by the executor. *)
Definition open_held_capture (input : Z) : mach (result (Z * string) Z) :=
  opened ← arena_do open_capture;
  match opened with
  | Err error => _ ← discard_description input; mret (substitution_error "command substitution" error)
  | Ok capture =>
      held ← arena_do (λ a, retain_handle a capture);
      match held with
      | Err error =>
          _ ← discard_description input;
          _ ← discard_description capture;
          mret (substitution_error "command substitution" error)
      | Ok _ => mret (Ok capture)
      end
  end.

Definition run_captured (ast : Node) : refusable (Z * Z) :=
  opened ← on_machine (arena_do (λ a, open_input a []));
  match opened with
  | Err error => mret (substitution_error "command substitution" error)
  | Ok input =>
      held ← on_machine (open_held_capture input);
      match held with
      | Err refusal => mret (Err refusal)
      | Ok capture =>
          started ← on_machine (start_shell_child "$(command substitution)");
          match started with
          | Err error =>
              _ ← on_machine (discard_description input);
              _ ← on_machine (arena_do (λ a, release_handle a capture));
              mret (Err (125, "shellsim: " +:+ lifecycle_error_display error +:+ newline))
          | Ok pid =>
              _ ← install_in_child pid 0 input;
              _ ← install_in_child pid 1 capture;
              _ ← demand_ok (set_program pid (Some (PShell (shell_new ast))));
              mret (Ok (pid, capture))
          end
      end
  end.

Definition start_command_substitution (source : string) : refusable (Z * Z) :=
  parsed ← on_machine (parse_shell_action source);
  match parsed with Err refusal => mret (Err refusal) | Ok ast => run_captured ast end.

Definition run_consumer (ast : Node) (data : bytes) : refusable Z :=
  opened ← on_machine (arena_do (λ a, open_input a data));
  match opened with
  | Err error => mret (substitution_error "process substitution" error)
  | Ok input =>
      started ← on_machine (start_shell_child ">(process substitution)");
      match started with
      | Err error =>
          _ ← on_machine (discard_description input);
          mret (Err (125, "shellsim: " +:+ lifecycle_error_display error +:+ newline))
      | Ok pid =>
          _ ← install_in_child pid 0 input;
          _ ← demand_ok (set_program pid (Some (PShell (shell_new ast))));
          mret (Ok pid)
      end
  end.

Definition start_process_substitution_consumer (source : string) (data : bytes) : refusable Z :=
  parsed ← on_machine (parse_shell_action source);
  match parsed with Err refusal => mret (Err refusal) | Ok ast => run_consumer ast data end.

Definition report_refusal (message : string) : mach unit := if bool_decide (message = "") then mret tt else diagnose message.

(** An error of expansion ends the construct, and the shell when it is of that kind. *)
Definition fail_expansion (error : ShellExpansionError) (restore : mach unit) : sh unit :=
  _ ← in_machine (diagnose (xe_message error));
  _ ← in_machine restore;
  _ ← set_result (xe_status error);
  if xe_abort error then in_machine (set_exiting (Some (xe_status error))) else mret tt.

(** ** The captured child of a construct

    [undo] gives the construct up; [wait] is the frame that takes its output. *)
Definition run_substitution (source : string) (undo : mach unit) (wait : Z → Z → ShellFrame R) : sh unit :=
  started ← on_world (start_command_substitution source);
  match started with
  | Err (status, message) =>
      _ ← in_machine (report_refusal message);
      _ ← in_machine undo;
      set_result status
  | Ok (pid, capture) => _ ← put_frame (wait pid capture); mark_switched
  end.

(** A substitution whose text a new parameter will hold; [replace] puts the parameter in its place. *)
Definition substitute (source : string) (undo : mach unit)
    (replace : string → run (Z → Z → string → option string → ShellFrame R)) : sh unit :=
  room ← ensure_capacity 1;
  if negb room then in_machine undo
  else
    named ← in_machine new_substitution_variable;
    match named with
    | Err message => _ ← in_machine (diagnose message); _ ← in_machine undo; set_result 125
    | Ok (variable, previous) =>
        wait ← in_machine (lift_run (λ _, replace (parameter variable)));
        run_substitution source undo (λ pid capture, wait pid capture variable previous)
    end.

(** ** Simple commands *)

Definition prepare_output (command : PreparedCommand) (word : nat) (source : string) : sh unit :=
  room ← ensure_capacity 1;
  if negb room then in_machine (give_command_up command)
  else
    created ← in_machine (create_process_substitution_file []);
    match created with
    | Err message => _ ← in_machine (diagnose message); _ ← in_machine (give_command_up command); set_result 125
    | Ok path =>
        words ← in_machine (lift_run (λ _, set_at (pc_words command) word path));
        push_ (PrepareCommand
          (with_output (with_words command words) (pc_output command ++ [MkOutputSubstitution path source])))
    end.

Definition descriptor_only_exec (words : list string) : bool :=
  bool_decide (words = ["exec"]) || bool_decide (words = ["exec"; "--"]).

Definition flag (b : bool) : Z := if b then 1 else 0.
Definition frames_needed (command : PreparedCommand) : Z :=
  1 + flag (negb (bool_decide (pc_redirects command = []))) + flag (match pc_output command with [] => false | _ => true end)
    + flag (negb (bool_decide (pc_files command = []))).

(** The scope of the redirections; those of a bare [exec] stay. *)
Definition open_scope (command : PreparedCommand) : texted (option RedirectScope) :=
  match pc_redirects command with
  | [] => mret (Ok None)
  | redirects =>
      scope ←: begin_redirects host_format_seconds host_engine redirects;
      if descriptor_only_exec (pc_words command) then _ ← commit_redirects scope; mret (Ok None) else mret (Ok (Some scope))
  end.

(** The command runs once its substitutions have; the frames that clean up after it go below. *)
Definition launch (command : PreparedCommand) : sh unit :=
  room ← ensure_capacity (frames_needed command);
  if negb room then in_machine (give_command_up command)
  else
    scope ← in_machine (open_scope command);
    match scope with
    | Err message =>
        _ ← in_machine (diagnose ("shellsim: redirection: " +:+ message +:+ newline));
        _ ← in_machine (give_command_up command);
        set_result 1
    | Ok scope =>
        _ ← match pc_output command with [] => mret tt | output => put_frame (RunOutputSubstitutions output None) end;
        _ ← match pc_files command with [] => mret tt | files => put_frame (CleanupProcessSubstitutionFiles files) end;
        _ ← match scope with None => mret tt | Some scope => put_frame (RestoreRedirect scope) end;
        match pc_body command with
        | Some body => _ ← in_machine (restore_command_variables (pc_temporary command)); put_frame (Eval body)
        | None =>
            put_frame (RunCommand (pc_assigns command) (pc_words command) (pc_temporary command)
              (pc_substitution_status command))
        end
    end.

Definition prepare_command (command : PreparedCommand) : sh unit :=
  output ← in_machine (lift_run (λ _, next_output_process_substitution command));
  match output with
  | Some (word, source) => prepare_output command word source
  | None =>
      process ← in_machine (lift_run (λ _, next_process_substitution command));
      match process with
      | Some (location, source) =>
          run_substitution source (give_command_up command) (λ pid capture, AwaitProcessSubstitution command pid capture location)
      | None =>
          substitution ← in_machine (lift_run (λ _, next_command_substitution command));
          match substitution with
          | Some (location, s) =>
              substitute (cs_source s) (give_command_up command) (λ by_,
                command ← replace_substitution command location s by_; Ret (AwaitCommandSubstitution command))
          | None => launch command
          end
      end
  end.

Definition await_command_substitution (command : PreparedCommand) (pid capture : Z) (variable : string)
    (previous : option string) : sh unit :=
  '(status, value) ← in_machine (finish_command_substitution pid capture);
  room ← ensure_capacity 1;
  if negb room then in_machine (give_command_up command)
  else
    _ ← in_machine (on_context (λ p, (set_var p variable value, tt)));
    push_ (PrepareCommand (with_substituted command variable previous status)).

Definition await_process_substitution (command : PreparedCommand) (pid capture : Z)
    (location : ProcessSubstitutionLocation) : sh unit :=
  '(_, data) ← in_machine (finish_substitution pid capture);
  room ← ensure_capacity 1;
  if negb room then in_machine (give_command_up command)
  else
    match location with
    | PsRedirect index =>
        redirects ← in_machine (lift_run (λ _, update_at (pc_redirects command) index
          (λ r, Ret (MkRedirect (rd_fd r) OpHeredocRaw (from_utf8_lossy data)))));
        push_ (PrepareCommand (command_redirects command redirects))
    | PsWord word =>
        created ← in_machine (create_process_substitution_file data);
        match created with
        | Err message => _ ← in_machine (diagnose message); _ ← in_machine (give_command_up command); set_result 125
        | Ok path =>
            words ← in_machine (lift_run (λ _, set_at (pc_words command) word path));
            push_ (PrepareCommand (with_files (with_words command words) (pc_files command ++ [path])))
        end
    end.

Definition run_output_substitutions (substitutions : list OutputProcessSubstitution) (command_status : option Z) : sh unit :=
  status ← ask sc_status;
  let command_status := default status command_status in
  match reverse substitutions with
  | [] => set_result command_status
  | last :: before =>
      let rest := reverse before in
      data ← in_machine (read_back (osb_path last));
      _ ← in_machine (remove_path (osb_path last));
      started ← on_world (start_process_substitution_consumer (osb_source last) data);
      match started with
      | Ok pid => _ ← put_frame (AwaitOutputProcessSubstitution rest command_status pid); mark_switched
      | Err (status, message) =>
          _ ← in_machine (report_refusal message);
          _ ← in_machine (remove_paths (map osb_path rest));
          set_result (if command_status =? 0 then status else command_status)
      end
  end.

Definition await_output_substitution (substitutions : list OutputProcessSubstitution) (command_status pid : Z) : sh unit :=
  _ ← in_machine (reap_child pid);
  _ ← set_result command_status;
  push_ (RunOutputSubstitutions substitutions (Some command_status)).

(** ** [for] *)

Definition prepare_for (state : PreparedFor) : sh unit :=
  let undo := restore_command_variables (pf_temporary state) in
  found ← in_machine (lift_run (λ _, find_each find_command_substitution (pf_words state)));
  match found with
  | Some (index, s) =>
      substitute (cs_source s) undo (λ by_,
        words ← update_at (pf_words state) index (replace_in s by_);
        Ret (AwaitForSubstitution (MkPreparedFor (pf_var state) words (pf_body state) (pf_temporary state))))
  | None =>
      room ← ensure_capacity 1;
      if negb room then in_machine undo
      else
        items ← in_machine (expand_words_with host_engine (pf_words state));
        error ← in_machine take_expansion_error;
        match error with
        | Some error => fail_expansion error undo
        | None =>
            _ ← in_machine undo;
            _ ← set_result 0;
            put_frame (ForNext (pf_var state) items (pf_body state) 0 0)
        end
  end.

Definition await_for_substitution (state : PreparedFor) (pid capture : Z) (variable : string) (previous : option string)
    : sh unit :=
  '(_, value) ← in_machine (finish_command_substitution pid capture);
  _ ← in_machine (on_context (λ p, (set_var p variable value, tt)));
  push_ (PrepareFor (MkPreparedFor (pf_var state) (pf_words state) (pf_body state) (pf_temporary state ++ [(variable, previous)]))).

(** ** [case] *)

Definition case_substitution (state : PreparedCase) : run (option (option (nat * nat) * CommandSubstitution)) :=
  or_else
    (tagged None (find_command_substitution (pa_word state)))
    (r ← find_each (λ arm : list string * Node, find_each find_command_substitution arm.1) (pa_arms state);
     Ret match r with Some (arm, (pattern, s)) => Some (Some (arm, pattern), s) | None => None end).

Definition replace_in_case (state : PreparedCase) (location : option (nat * nat)) (s : CommandSubstitution) (by_ : string)
    : run PreparedCase :=
  match location with
  | None => word ← replace_in s by_ (pa_word state); Ret (MkPreparedCase word (pa_arms state) (pa_temporary state))
  | Some (arm, pattern) =>
      arms ← update_at (pa_arms state) arm (λ '(patterns, body),
        patterns ← update_at patterns pattern (replace_in s by_); Ret (patterns, body));
      Ret (MkPreparedCase (pa_word state) arms (pa_temporary state))
  end.

Fixpoint expand_each_text (words : list string) : mach (list string) :=
  match words with
  | [] => mret []
  | word :: words => text ← expand_text host_engine word; rest ← expand_each_text words; mret (text :: rest)
  end.
Fixpoint expand_arms (arms : list (list string * Node)) : mach (list (list string * Node)) :=
  match arms with
  | [] => mret []
  | (patterns, body) :: arms => expanded ← expand_each_text patterns; rest ← expand_arms arms; mret ((expanded, body) :: rest)
  end.

(** The body of the first arm with a pattern that matches. *)
Fixpoint select_arm (subject : string) (arms : list (list string * Node)) : option Node :=
  match arms with
  | [] => None
  | (patterns, body) :: arms =>
      if existsb (λ pattern, case_match (te_regex host_engine) pattern subject) patterns then Some body
      else select_arm subject arms
  end.

Definition prepare_case (state : PreparedCase) : sh unit :=
  let undo := restore_command_variables (pa_temporary state) in
  found ← in_machine (lift_run (λ _, case_substitution state));
  match found with
  | Some (location, s) =>
      substitute (cs_source s) undo (λ by_, state ← replace_in_case state location s by_; Ret (AwaitCaseSubstitution state))
  | None =>
      room ← ensure_capacity 1;
      if negb room then in_machine undo
      else
        subject ← in_machine (expand_text host_engine (pa_word state));
        arms ← in_machine (expand_arms (pa_arms state));
        error ← in_machine take_expansion_error;
        match error with
        | Some error => fail_expansion error undo
        | None =>
            _ ← in_machine undo;
            _ ← set_result 0;
            match select_arm subject arms with Some body => put_frame (Eval body) | None => mret tt end
        end
  end.

Definition await_case_substitution (state : PreparedCase) (pid capture : Z) (variable : string) (previous : option string)
    : sh unit :=
  '(_, value) ← in_machine (finish_command_substitution pid capture);
  _ ← in_machine (on_context (λ p, (set_var p variable value, tt)));
  push_ (PrepareCase (MkPreparedCase (pa_word state) (pa_arms state) (pa_temporary state ++ [(variable, previous)]))).

(** ** Arithmetic commands *)

(** [arith::evaluate] over the variables of the active process. *)
Definition mach_arith (expression : string) : mach (result ArithError Z) :=
  p ← current;
  '(p, value) ← lift_run (λ _, evaluate p expression);
  _ ← update_current (λ _, p);
  mret value.

Definition continue_arithmetic (continuation : ArithmeticContinuation) (value : Z) : sh unit :=
  match continuation with
  | ArithCommand => set_result (if value =? 0 then 1 else 0)
  | CForInit cond update body => _ ← set_result 0; push_ (CForCheck cond update body 0)
  | CForCondition cond update body body_status =>
      unwind ← in_machine should_unwind;
      if unwind || (value =? 0) then set_result body_status
      else push_two (CForAfterBody cond update body) (Eval body)
  | CForUpdate cond update body body_status => push_ (CForCheck cond update body body_status)
  end.

Definition is_condition (c : ArithmeticContinuation) : bool := match c with CForCondition _ _ _ _ => true | _ => false end.

Definition prepare_arithmetic (state : PreparedArithmetic) : sh unit :=
  found ← in_machine (lift_run (λ _, find_command_substitution (pr_expression state)));
  match found with
  | Some s =>
      room ← ensure_capacity 1;
      if negb room then mret tt
      else run_substitution (cs_source s) (mret tt)
             (λ pid capture, AwaitArithmeticSubstitution state pid capture (cs_start s) (cs_end s))
  | None =>
      value ← (if is_condition (pr_continuation state) && bool_decide (pr_expression state = "") then mret (Ok 1)
               else in_machine (mach_arith (pr_expression state)));
      match value with
      | Err error =>
          _ ← in_machine (diagnose ("shellsim: ((: " +:+ describe error (pr_expression state) +:+ newline));
          set_result 1
      | Ok value => continue_arithmetic (pr_continuation state) value
      end
  end.

Definition await_arithmetic_substitution (state : PreparedArithmetic) (pid capture : Z) (start finish : nat) : sh unit :=
  '(_, value) ← in_machine (finish_command_substitution pid capture);
  let value := if bool_decide (trim value = "") then "0" else value in
  expression ← in_machine (lift_run (λ _, replace_range (pr_expression state) start finish ("(" +:+ value +:+ ")")));
  push_ (PrepareArithmetic (MkPreparedArithmetic expression (pr_continuation state))).

End substitutions.
