(* ===== verification/Exec.v ===== *)
(** * The shell executor (src/src/exec.rs)

    [step] runs the top frame of a shell: a piece of syntax is taken apart into frames, a simple
    command is expanded and run, the rest of a construct goes on with the status of what ran above
    it. [poll] takes a quantum of steps and says what the scheduler does with the process next. *)

From stdpp Require Import pretty.
From S2P Require Import Prelude.
From S2P Require Import RustStr.
From S2P Require Import State.
From S2P Require Import Resources.
From S2P Require Import Process.
From S2P Require Import Variables.
From S2P Require Import Clock.
From S2P Require Import Descriptors.
From S2P Require Import Scheduler.
From S2P Require Import Vfs.
From S2P Require Import Syntax.
From S2P Require Import ProcessState.
From S2P Require Import ShellVars.
From S2P Require Import Machine.
From S2P Require Import Expand.
From S2P Require Import Kernel.
From S2P Require Import Lifecycle.
From S2P Require Import ExecData.
From S2P Require Import ExecText.
From S2P Require Import ExecVars.
From S2P Require Import Redirects.
From S2P Require Import ExecHost.
From S2P Require Import ExecPrep.

Section exec.
Context {R N : Type} {H : Host R N}.
Abbreviation act A := (stm (World R N) A).
Abbreviation sh A := (stm (Shell R N) A).

(** ** Running commands *)

(** What a command that was started does to the shell; what it wrote is flushed by a frame. *)
Definition accept_poll (command : string) (variables : saved_variables) (result : CommandPoll R) (stdout stderr : bytes) : sh unit :=
  match result with
  | CmdReady status => put_frame (WriteCommandOutput command variables status stdout stderr 0 0)
  | CmdReadyOutput command status stdout stderr =>
      put_frame (WriteCommandOutput command variables status stdout stderr 0 0)
  | CmdSwitched continuation => _ ← put_frame (ResumeCommand variables continuation); mark_switched
  | CmdInline node => enter_inline_command variables node
  | CmdInlineSource node => enter_source variables node
  | CmdBlocked reason continuation => _ ← put_frame (ResumeCommand variables continuation); wait_on reason
  end.

Definition resume_command (variables : saved_variables) (continuation : R) : sh unit :=
  p ← in_machine current;
  result ← match ps_deadline_interrupt p with
           | Some _ => mret (CmdReady 124)
           | None => on_world (cmd_resume continuation)
           end;
  match result with
  | CmdReady status => _ ← set_result status; in_machine (restore_command_variables variables)
  | result => accept_poll "" variables result [] []
  end.

Definition first_argument (argv : list string) : sh string := in_machine (lift_run (λ _, expect (head argv))).

(** The command has the input it takes before it starts. *)
Definition run_buffered (argv : list string) (variables : saved_variables) (stdin : bytes) (reserved : Z) : sh unit :=
  name ← first_argument argv;
  '(result, stdout, stderr) ← on_world (cmd_poll argv stdin);
  _ ← in_machine (release_bytes reserved);
  accept_poll name variables result stdout stderr.

Definition read_command_input (argv : list string) (variables : saved_variables) (stdin : bytes) (reserved : Z)
    (framing : option ReadFraming) : sh unit :=
  let complete := match framing with Some f => framing_complete f stdin | None => false end in
  buffers ← in_machine (gets (λ m, cmd_buffers_standard_input m argv));
  if complete || negb (bool_decide (is_Some framing) || buffers) then run_buffered argv variables stdin reserved
  else
    let retry stdin reserved := put_frame (ReadCommandInput argv variables stdin reserved framing) in
    read ← in_machine (read_fd_checked 0 (if bool_decide (is_Some framing) then 1 else DEFAULT_PIPE_CAPACITY));
    match read with
    | Ok (Ready []) => run_buffered argv variables stdin reserved
    | Ok (Ready data) =>
        granted ← in_machine (reserve (zlen data));
        if negb granted then
          _ ← in_machine (release_bytes reserved);
          _ ← in_machine (restore_command_variables variables);
          set_result 137
        else retry (stdin ++ data) (sat_add64 reserved (zlen data))
    | Ok (Blocked wait) => _ ← retry stdin reserved; wait_on (io_wait_reason wait)
    | Err error =>
        stop ← in_machine (gets (λ m, rs_stop_reason (m_resources m)));
        name ← first_argument argv;
        _ ← in_machine (release_bytes reserved);
        _ ← in_machine (diagnose ("shellsim: " +:+ name +:+ ": " +:+ read_error_message stop error +:+ newline));
        _ ← in_machine (restore_command_variables variables);
        set_result 1
    end.

(** The part of a command's output still to be written. *)
Definition output_left (stdout stderr : bytes) (stdout_offset stderr_offset : Z) : option (Z * bytes) :=
  if stdout_offset <? zlen stdout then Some (1, drop (Z.to_nat stdout_offset) stdout)
  else if stderr_offset <? zlen stderr then Some (2, drop (Z.to_nat stderr_offset) stderr)
  else None.

Definition pipe_ignored (g : SignalState) : bool :=
  match sg_dispositions g !! Process.Pipe with Some DispIgnore => true | _ => false end.
Definition is_broken_pipe (e : SyscallError) : bool :=
  match e with SysDescriptor BrokenPipe => true | _ => false end.

(** A write to a pipe without readers ends the command with SIGPIPE, unless it is ignored. *)
Definition write_command_output (command : string) (variables : saved_variables) (status : Z) (stdout stderr : bytes)
    (stdout_offset stderr_offset : Z) : sh unit :=
  match output_left stdout stderr stdout_offset stderr_offset with
  | None => _ ← set_result status; in_machine (restore_command_variables variables)
  | Some (fd, data) =>
      let advance status stderr n :=
        let total := if fd =? 1 then Z.min (stdout_offset + n) U64_MAX else Z.min (stderr_offset + n) U64_MAX in
        put_frame (WriteCommandOutput command variables status stdout stderr
          (if fd =? 1 then total else stdout_offset) (if fd =? 1 then stderr_offset else total)) in
      written ← in_machine (write_fd host_aliased fd data);
      p ← in_machine current;
      match written with
      | Ok (Ready n) => if n =? 0 then advance 1 stderr (zlen data) else advance status stderr n
      | Ok (Blocked wait) => _ ← wait_on (io_wait_reason wait); advance status stderr 0
      | Err error =>
          if is_broken_pipe error && negb (pipe_ignored (ps_signals p)) then
            sent ← in_machine (send_signal (ps_pid p) Process.Pipe);
            _ ← match sent with
                | Ok _ => mret tt
                | Err error => in_machine (diagnose ("shellsim: " +:+ lifecycle_error_display error +:+ newline))
                end;
            put_frame (WriteCommandOutput command variables (128 + signal_number Process.Pipe) stdout stderr (zlen stdout) (zlen stderr))
          else
            let report := to_bytes ("shellsim: " +:+ command +:+ ": " +:+ write_error_message error +:+ newline) in
            advance 1 (if fd =? 1 then stderr ++ report else stderr) (zlen data)
      end
  end.

(** ** Replacing the process image *)

(** The redirections below are committed, bottom first: the shell does not come back to undo them. *)
Fixpoint commit_scopes (frames : list (ShellFrame R)) : mach unit :=
  match frames with
  | [] => mret tt
  | RestoreRedirect scope :: frames => _ ← commit_redirects scope; commit_scopes frames
  | _ :: frames => commit_scopes frames
  end.

Definition is_scope (frame : ShellFrame R) : bool := match frame with RestoreRedirect _ => true | _ => false end.
Definition exec_image (argv : list string) : act (result string unit) :=
  p ← on_machine current; cmd_exec_argv_image (ps_pid p) argv.

(** Nothing is left to do in this shell but put redirections back. *)
Definition is_tail_frame (frame : ShellFrame R) : bool :=
  match frame with RestoreRedirect _ | RecordPipeStatus | CheckError => true | _ => false end.

Definition traps_pending (g : SignalState) : bool :=
  bool_decide (is_Some (sg_exit g)) || (sg_err_active g && bool_decide (is_Some (sg_err g))).

Definition exec_failed (error : string) : sh unit :=
  _ ← in_machine (diagnose ("shellsim: exec: " +:+ error +:+ newline)); set_result 126.

Definition exec_in_place (argv : list string) : sh bool :=
  c ← ask id;
  p ← in_machine current;
  name ← first_argument argv;
  native ← in_machine (gets (λ m, cmd_execs_native_image m name));
  if negb (sc_exec_tail c) || traps_pending (ps_signals p) || negb (forallb is_tail_frame (sc_frames c)) || negb native
  then mret false
  else
    _ ← edit (λ c, set_frames c []);
    _ ← in_machine (commit_scopes (reverse (sc_frames c)));
    loaded ← on_world (exec_image argv);
    match loaded with
    | Err error => _ ← exec_failed error; mret true
    | Ok _ => _ ← edit set_replaced; mret true
    end.

Definition eval_external_argv (argv : list string) (variables : saved_variables) : sh unit :=
  match argv with
  | [] => set_result 0
  | name :: arguments =>
      placed ← exec_in_place argv;
      if placed : bool then mret tt
      else
        early ← in_machine (gets (λ m, cmd_starts_before_input m argv));
        if early : bool then
          '(result, stdout, stderr) ← on_world (cmd_poll argv []);
          accept_poll name variables result stdout stderr
        else
          put_frame (ReadCommandInput argv variables [] 0
            (if bool_decide (name = "read") then Some (read_framing arguments) else None))
  end.

(** The arguments of [exec] after its name and [--]. *)
Definition exec_operands (argv : list string) : list string :=
  match drop 1 argv with
  | argument :: rest => if bool_decide (argument = "--") then rest else argument :: rest
  | [] => []
  end.

Definition exec_option (argv : list string) : option string :=
  match argv with
  | argument :: _ => if (1 <? str_len argument) && starts_with "-" argument then Some argument else None
  | [] => None
  end.

Definition exec_refused (variables : saved_variables) (message : string) (status : Z) : sh unit :=
  _ ← in_machine (diagnose message);
  _ ← in_machine (restore_command_variables variables);
  _ ← set_result status;
  in_machine (set_exiting (Some status)).

Definition replace_image (argv : list string) : sh unit :=
  frames ← ask sc_frames;
  _ ← in_machine (commit_scopes (reverse frames));
  _ ← edit (λ c, set_frames c (filter (λ frame, is_scope frame = false) frames));
  _ ← shell_abort;
  loaded ← on_world (exec_image argv);
  match loaded with
  | Err error => _ ← exec_failed error; in_machine (set_exiting (Some 126))
  | Ok _ => edit set_replaced
  end.

Definition exec_program (argv : list string) (variables : saved_variables) (image : string) : sh unit :=
  _ ← in_machine (on_signals (λ g, sg_with_exit g None));
  native ← in_machine (gets (λ m, cmd_execs_native_image m image));
  if negb native then
    room ← ensure_capacity 1;
    if negb room then in_machine (restore_command_variables variables)
    else _ ← put_frame ExitWithStatus; eval_external_argv argv variables
  else replace_image argv.

Definition exec_builtin (argv : list string) (variables : saved_variables) : sh unit :=
  let argv := exec_operands argv in
  match exec_option argv with
  | Some option =>
      let known := bool_decide (option ∈ ["-a"; "-c"; "-l"]) in
      _ ← in_machine (diagnose ("shellsim: exec: " +:+ option +:+ (if known then ": unsupported option" else ": invalid option") +:+ newline));
      _ ← in_machine (restore_command_variables variables);
      set_result 2
  | None =>
      match argv with
      | [] => _ ← in_machine (restore_command_variables variables); set_result 0
      | name :: _ =>
          image ← in_machine (resolve_executable name);
          match image with
          | Found path => exec_program argv variables path
          | NotExecutable path => exec_refused variables ("shellsim: exec: " +:+ path +:+ ": Permission denied" +:+ newline) 126
          | LookupNotFound => exec_refused variables ("shellsim: exec: " +:+ name +:+ ": not found" +:+ newline) 127
          end
      end
  end.

(** ** Simple commands *)

(** The assignments of a command without words, one after the other. *)
Fixpoint assign_each (assigns : list (string * string)) : mach (option (result Z ShellExpansionError)) :=
  match assigns with
  | [] => mret None
  | (key, value) :: assigns =>
      _ ← apply_assignment host_engine key value;
      _ ← release_expansion_memory;
      synced ← sync_shell_memory;
      if negb synced then mret (Some (Err (stop_exit_status MemoryExhausted)))
      else
        error ← take_expansion_error;
        match error with Some error => mret (Some (Ok error)) | None => assign_each assigns end
  end.

Definition eval_assignments (assigns : list (string * string)) (temporary : saved_variables) (substitution_status : option Z)
    : sh unit :=
  failed ← in_machine (assign_each assigns);
  match failed with
  | None => _ ← in_machine (restore_command_variables temporary); set_result (default 0 substitution_status)
  | Some (Err status) => _ ← in_machine (restore_command_variables temporary); set_result status
  | Some (Ok error) => fail_expansion error (restore_command_variables temporary)
  end.

(** [positional] are the caller's parameters. When there is no room the shell has been aborted. *)
Definition call_function (body : Node) (arguments : list string) (variables : saved_variables) : sh unit :=
  positional ← in_machine (shell_get sh_positional);
  _ ← in_machine (change_shell (λ s, set_positional s (positional_from arguments)));
  room ← ensure_capacity 2;
  if negb room then
    _ ← in_machine (change_shell (λ s, set_positional s positional));
    in_machine (restore_command_variables variables)
  else
    _ ← in_machine (change_shell (λ s, set_frame_saved s (sat_add64 (sh_frame_saved s) (saved_call_bytes positional variables))));
    _ ← in_machine (change_shell enter_function_scope);
    p ← in_machine current;
    let active := sg_err_active (ps_signals p) in
    _ ← in_machine (on_signals (λ g, sg_with_error g (active && op_errtrace (sh_flags (ps_shell p))) (sg_handling_error g)));
    _ ← put_frame (FinishFunction positional variables active);
    put_frame (Eval body).

Definition dispatch_command (argv : list string) (variables : saved_variables) : sh unit :=
  match argv with
  | [] => in_machine panic
  | name :: arguments =>
      body ← in_machine (shell_get (λ s, sh_funcs s !! name));
      match body with
      | Some body => call_function body arguments variables
      | None => if bool_decide (name = "exec") then exec_builtin argv variables else eval_external_argv argv variables
      end
  end.

Definition run_words (argv : list string) (assigns : list (string * string)) (temporary : saved_variables) : sh unit :=
  variables ← in_machine (install_command_variables host_engine assigns);
  error ← in_machine take_expansion_error;
  match error with
  | Some error =>
      fail_expansion error (_ ← restore_command_variables variables; restore_command_variables temporary)
  | None =>
      _ ← in_machine (restore_command_variables temporary);
      dispatch_command argv variables
  end.

Definition eval_command (assigns : list (string * string)) (words : list string) (temporary : saved_variables)
    (substitution_status : option Z) : sh unit :=
  argv ← in_machine (expand_argv host_engine words);
  error ← in_machine take_expansion_error;
  match error with
  | Some error => fail_expansion error (restore_command_variables temporary)
  | None =>
      aliased ← in_machine (expand_alias_argv host_engine argv);
      match aliased with
      | Err message =>
          _ ← in_machine (diagnose ("shellsim: alias: " +:+ message +:+ newline));
          _ ← in_machine (restore_command_variables temporary);
          set_result 2
      | Ok [] => eval_assignments assigns temporary substitution_status
      | Ok argv => run_words argv assigns temporary
      end
  end.

(** ** Children *)

Definition spawn_child (node : Node) (label : string) (reap : bool) : sh unit :=
  room ← ensure_capacity 1;
  if negb room then mret tt
  else
    started ← in_machine (start_shell_child label);
    match started with
    | Ok pid =>
        _ ← put_frame (AwaitChild pid reap);
        _ ← on_world (demand_ok (set_program pid (Some (PShell (shell_new node)))));
        mark_switched
    | Err error =>
        _ ← in_machine (diagnose ("shellsim: " +:+ lifecycle_error_display error +:+ newline));
        set_result 125
    end.

Fixpoint discard_pipes (pipes : list (Z * Z)) : mach unit :=
  match pipes with
  | [] => mret tt
  | (reader, writer) :: pipes => _ ← discard_description reader; _ ← discard_description writer; discard_pipes pipes
  end.

(** [count] pipes, or none. *)
Fixpoint open_pipes (count : nat) (pipes : list (Z * Z)) : sys (list (Z * Z)) :=
  match count with
  | O => done_ pipes
  | S count =>
      opened ← arena_do (λ a, open_pipe a DEFAULT_PIPE_CAPACITY);
      match opened with
      | Ok pipe => open_pipes count (pipes ++ [pipe])
      | Err error => _ ← discard_pipes pipes; fail error
      end
  end.

(** [cancel_unstarted_child]: its program goes with its context. *)
Definition cancel_child (pid : Z) : act unit :=
  _ ← modify (λ w, MkWorld (w_machine w) (delete pid (w_programs w)));
  on_machine (cancel_unstarted_child pid).
Fixpoint cancel_children (pids : list Z) : act unit :=
  match pids with [] => mret tt | pid :: pids => _ ← cancel_child pid; cancel_children pids end.
Definition rollback_pipeline (pids : list Z) (pipes : list (Z * Z)) : act unit :=
  _ ← cancel_children pids; on_machine (discard_pipes pipes).

Definition install_stage_end (pid fd : Z) (description : option Z) : act (result string unit) :=
  match description with
  | None => mret (Ok tt)
  | Some description =>
      installed ← on_machine (install_process_description pid fd description);
      mret match installed with Ok _ => Ok tt | Err error => Err (descriptor_error_debug error) end
  end.

Definition setup_stage (pipes : list (Z * Z)) (index : nat) (stage : Node) (pid : Z) : act (result string unit) :=
  input ← install_stage_end pid 0 (match index with O => None | S i => fst <$> pipes !! i end);
  match input with
  | Err error => mret (Err error)
  | Ok _ =>
      output ← install_stage_end pid 1 (snd <$> pipes !! index);
      match output with
      | Err error => mret (Err error)
      | Ok _ =>
          stored ← set_program pid (Some (PShell (set_pipeline_entry (shell_subshell stage) true)));
          mret match stored with Ok _ => Ok tt | Err error => Err (lifecycle_error_display error) end
      end
  end.

Definition start_stage (label : string) : mach (result LifecycleError Z) :=
  start_pipeline_child host_node_size host_redirect_size label false.

(** The stages from [index] on; [pids] are those before it. A failure undoes them all. *)
Fixpoint start_stages (pipes : list (Z * Z)) (index : nat) (stages : list Node) (pids : list Z) : act (result string (list Z)) :=
  match stages with
  | [] => mret (Ok pids)
  | stage :: stages =>
      started ← on_machine (start_stage (describe_node stage));
      match started with
      | Err error => _ ← rollback_pipeline pids pipes; mret (Err (lifecycle_error_display error))
      | Ok pid =>
          ready ← setup_stage pipes index stage pid;
          match ready with
          | Err error => _ ← cancel_child pid; _ ← rollback_pipeline pids pipes; mret (Err error)
          | Ok _ => start_stages pipes (S index) stages (pids ++ [pid])
          end
      end
  end.

Definition pipeline_failed (error : string) : sh unit :=
  _ ← in_machine (diagnose ("shellsim: pipeline: " +:+ error +:+ newline)); set_result 125.

Definition spawn_pipeline (stages : list Node) : sh unit :=
  match stages with
  | [] => set_result 0
  | _ =>
      room ← ensure_capacity 1;
      if negb room then mret tt
      else
        opened ← in_machine (open_pipes (length stages - 1) []);
        match opened with
        | Err error => pipeline_failed (syscall_error_display error)
        | Ok pipes =>
            started ← on_world (start_stages pipes 0 stages []);
            match started with
            | Err error => pipeline_failed error
            | Ok pids =>
                pipefail ← in_machine (shell_get (λ s, op_pipefail (sh_flags s)));
                _ ← put_frame (AwaitPipeline pids [] 0 pipefail);
                first ← in_machine (lift_run (λ _, expect (head pids)));
                wait_on (Scheduler.Child first)
            end
        end
  end.

Definition start_job_child (label : string) : mach (result LifecycleError Z) :=
  start_background_child host_node_size host_redirect_size label false.

(** The status of starting a background job. *)
Definition exec_background (node : Node) : act Z :=
  let command := describe_node node in
  started ← on_machine (start_job_child command);
  match started with
  | Err error => _ ← on_machine (diagnose ("shellsim: " +:+ lifecycle_error_display error +:+ newline)); mret 125
  | Ok pid =>
      _ ← demand_ok (set_program pid (Some (PShell (shell_subshell node))));
      job ← on_machine (on_context (λ p, let '(s, job) := new_job (ps_shell p) pid command in (with_shell p s, job)));
      match job with
      | None =>
          _ ← cancel_child pid;
          _ ← on_machine (diagnose ("shellsim: job table limit exceeded" +:+ newline));
          mret 125
      | Some _ => _ ← on_machine (on_context (λ p, (set_var p "!" (pretty pid), tt))); mret 0
      end
  end.

Definition await_child (pid : Z) (reap : bool) : sh unit :=
  status ← in_machine (gets (λ m, process_status m pid));
  match status with
  | Some (Exited status) =>
      _ ← set_result status;
      if reap then in_machine (reap_child pid) else mret tt
  | Some _ => _ ← put_frame (AwaitChild pid reap); wait_on (Scheduler.Child pid)
  | None =>
      _ ← in_machine (diagnose ("shellsim: child " +:+ pretty pid +:+ " disappeared" +:+ newline));
      set_result 125
  end.

(** Reap the children that have ended, in order, up to the first that has not. *)
Fixpoint reap_ended (pids : list Z) (statuses : list Z) : mach (list Z * option Z) :=
  match pids with
  | [] => mret (statuses, None)
  | pid :: pids =>
      exited ← gets (λ m, child_exit_status m pid);
      match exited with
      | Some status => _ ← reap_child pid; reap_ended pids (statuses ++ [status])
      | None => mret (statuses, Some pid)
      end
  end.

Definition pipeline_status (pipefail : bool) (statuses : list Z) : Z :=
  let final := default 0 (list.last statuses) in
  if pipefail then default final (find (λ status, negb (status =? 0)) (reverse statuses)) else final.

Definition await_pipeline (pids statuses : list Z) (next : nat) (pipefail : bool) : sh unit :=
  '(collected, waiting) ← in_machine (reap_ended (drop next pids) statuses);
  match waiting with
  | Some pid =>
      let next := (next + (length collected - length statuses))%nat in
      _ ← put_frame (AwaitPipeline pids collected next pipefail);
      wait_on (Scheduler.Child pid)
  | None =>
      _ ← in_machine (change_shell (λ s, set_array s "PIPESTATUS" (map pretty collected)));
      set_result (pipeline_status pipefail collected)
  end.

(** ** Syntax *)

Definition checks_error (node : Node) : bool :=
  match node with
  | NCommand _ _ _ | NArgvCommand _ | NSubshell _ | NArithmetic _ | NPipeline _ => true
  | _ => false
  end.
Definition records_status (node : Node) : bool :=
  match node with NCommand _ _ _ | NArgvCommand _ | NSubshell _ | NArithmetic _ => true | _ => false end.

Definition clear_exempt : sh unit := edit (λ c, set_exempt c false).
Definition push_if (wanted : bool) (frame : ShellFrame R) : sh bool := if wanted then push_frame frame else mret true.

(** The frames of a loop go under [FinishLoop]. *)
Definition enter_loop (first : ShellFrame R) : sh unit :=
  room ← ensure_capacity 2;
  if negb room then mret tt
  else _ ← in_machine raise_loop; _ ← put_frame FinishLoop; put_frame first.

Definition eval_node (node : Node) : sh unit :=
  match node with
  | NEmpty => set_result 0
  | NCommand assigns words redirects =>
      _ ← clear_exempt;
      push_ (PrepareCommand (MkPreparedCommand None assigns words redirects [] None [] []))
  | NArgvCommand argv => _ ← clear_exempt; eval_external_argv argv []
  | NPipeline stages => _ ← clear_exempt; spawn_pipeline stages
  | NAnd lhs rhs => _ ← in_machine raise_cond; push_two (Conditional rhs true) (Eval lhs)
  | NOr lhs rhs => _ ← in_machine raise_cond; push_two (Conditional rhs false) (Eval lhs)
  | NTimed inner posix =>
      start ← in_machine (gets (λ m, MkTimeStart (tm_monotonic_ns (m_clock m)) (process_time_ns (m_resources m)) posix));
      push_two (FinishTime start) (Eval inner)
  | NNot inner => _ ← in_machine raise_cond; push_two Negate (Eval inner)
  | NSeq nodes => _ ← set_result 0; push_ (Sequence nodes 0)
  | NBackground inner => status ← on_world (exec_background inner); set_result status
  | NSubshell inner => _ ← clear_exempt; spawn_child inner "(subshell)" true
  | NGroup inner => push_ (Eval inner)
  | NRedirected inner redirects => push_ (PrepareCommand (MkPreparedCommand (Some inner) [] [] redirects [] None [] []))
  | NIf cond then_ elifs els => push_ (IfNext ((cond, then_) :: elifs) 0 els)
  | NWhile cond body until => _ ← set_result 0; enter_loop (WhileCheck cond body until 0)
  | NFor var words body => enter_loop (PrepareFor (MkPreparedFor var words body []))
  | NCFor init cond update body => enter_loop (PrepareArithmetic (MkPreparedArithmetic init (CForInit cond update body)))
  | NCase word arms => push_ (PrepareCase (MkPreparedCase word arms []))
  | NFuncDef name body =>
      _ ← in_machine (change_shell (λ s, set_funcs s (<[name := body]> (sh_funcs s)))); set_result 0
  | NArithmetic expression => push_ (PrepareArithmetic (MkPreparedArithmetic expression ArithCommand))
  end.

Definition deadline_interrupted : mach bool := p ← current; mret (bool_decide (is_Some (ps_deadline_interrupt p))).

(** The budget allows another node. *)
Definition admit_work : mach bool :=
  _ ← release_expansion_memory;
  granted ← charge 10;
  if granted : bool then sync_shell_memory else mret false.

Definition eval (node : Node) : sh unit :=
  granted ← in_machine admit_work;
  if negb granted then status ← in_machine stopped_status; set_result status
  else
    unwind ← in_machine should_unwind;
    if unwind : bool then
      interrupted ← in_machine deadline_interrupted;
      last ← in_machine (shell_get sh_last_status);
      set_result (if interrupted : bool then 124 else last)
    else
      entry ← ask sc_pipeline_entry;
      _ ← edit (λ c, set_pipeline_entry c false);
      checked ← push_if (negb entry && checks_error node) CheckError;
      if negb checked then mret tt
      else
        recorded ← push_if (records_status node) RecordPipeStatus;
        if negb recorded then mret tt else eval_node node.

(** ** The rest of constructs *)

Definition errexit_ends : sh bool :=
  c ← ask id;
  s ← in_machine (shell_get id);
  mret (negb (sc_status c =? 0) && op_errexit (sh_flags s) && (ctl_cond_depth (sh_control s) =? 0) && negb (sc_errexit_exempt c)).

Definition sequence_next (nodes : list Node) (next : nat) : sh unit :=
  match nodes !! next with
  | Some node => push_two (Sequence nodes (S next)) (Eval node)
  | None => mret tt
  end.

Definition step_sequence (nodes : list Node) (next : nat) : sh unit :=
  let later := negb (Nat.eqb next 0) in
  unwind ← in_machine should_unwind;
  if later && unwind then
    interrupted ← in_machine deadline_interrupted;
    if interrupted : bool then set_result 124 else mret tt
  else
    ends ← errexit_ends;
    if later && ends then status ← ask sc_status; in_machine (set_exiting (Some status))
    else sequence_next nodes next.

Definition step_conditional (rhs : Node) (run_on_success : bool) : sh unit :=
  _ ← in_machine lower_cond;
  unwind ← in_machine should_unwind;
  status ← ask sc_status;
  if unwind : bool then mret tt
  else if Bool.eqb (status =? 0) run_on_success then _ ← clear_exempt; push_ (Eval rhs)
  else edit (λ c, set_exempt c true).

Definition step_negate : sh unit :=
  _ ← in_machine lower_cond;
  status ← ask sc_status;
  _ ← set_result (if status =? 0 then 1 else 0);
  edit (λ c, set_exempt c true).

Definition step_if_next (branches : list (Node * Node)) (next : nat) (els : option Node) : sh unit :=
  match branches !! next, els with
  | Some (condition, _), _ => _ ← in_machine raise_cond; push_two (IfAfter branches next els) (Eval condition)
  | None, Some body => push_ (Eval body)
  | None, None => set_result 0
  end.

Definition step_if_after (branches : list (Node * Node)) (next : nat) (els : option Node) : sh unit :=
  _ ← in_machine lower_cond;
  status ← ask sc_status;
  unwind ← in_machine should_unwind;
  if unwind : bool then mret tt
  else if status =? 0 then
    branch ← in_machine (lift_run (λ _, expect (branches !! next)));
    push_ (Eval branch.2)
  else push_ (IfNext branches (S next) els).

Definition step_while_check (cond body : Node) (until : bool) (body_status : Z) : sh unit :=
  unwind ← in_machine should_unwind;
  if unwind : bool then set_result body_status
  else _ ← in_machine raise_cond; push_two (WhileAfterCondition cond body until body_status) (Eval cond).

Definition step_while_after_condition (cond body : Node) (until : bool) (body_status : Z) : sh unit :=
  _ ← in_machine lower_cond;
  status ← ask sc_status;
  unwind ← in_machine should_unwind;
  if xorb until (status =? 0) && negb unwind then push_two (WhileAfterBody cond body until) (Eval body)
  else set_result body_status.

(** After the body of a loop: [break] and [continue] count the loops they leave. [again] has the
    body's status. *)
Definition after_body (again : Z → ShellFrame R) : sh unit :=
  c ← in_machine control;
  if 0 <? ctl_break c then in_machine (on_control (λ c, ctl_with_break c (ctl_break c - 1)))
  else
    _ ← (if 0 <? ctl_continue c then in_machine (on_control (λ c, ctl_with_continue c (ctl_continue c - 1))) else mret tt);
    unwind ← in_machine should_unwind;
    if unwind : bool then mret tt else status ← ask sc_status; push_ (again status).

Definition step_for_next (var : string) (items : list string) (body : Node) (next : nat) (body_status : Z) : sh unit :=
  unwind ← in_machine should_unwind;
  match items !! next with
  | Some item =>
      if unwind : bool then set_result body_status
      else
        _ ← in_machine (on_context (λ p, (set_var p var item, tt)));
        push_two (ForAfterBody var items body (S next)) (Eval body)
  | None => set_result body_status
  end.

Definition step_cfor_check (cond update : string) (body : Node) (body_status : Z) : sh unit :=
  unwind ← in_machine should_unwind;
  if unwind : bool then set_result body_status
  else push_ (PrepareArithmetic (MkPreparedArithmetic cond (CForCondition cond update body body_status))).

Definition finish_function (positional : Positional) (variables : saved_variables) (err_trap_active : bool) : sh unit :=
  _ ← in_machine (leave_function positional variables err_trap_active);
  returning ← in_machine take_returning;
  status ← ask sc_status;
  _ ← set_result (default status returning);
  in_machine (restore_command_variables variables).

Definition finish_source (variables : saved_variables) : sh unit :=
  _ ← in_machine lower_source;
  returning ← in_machine take_returning;
  status ← ask sc_status;
  _ ← set_result (default status returning);
  in_machine (restore_command_variables variables).

Definition finish_exit_trap (previous_status : Z) : sh unit :=
  exiting ← in_machine take_exiting; set_result (default previous_status exiting).

(** Whether a failed command runs the [ERR] handler. *)
Definition error_handler (c : ShellContinuation R) (p : ProcessState) (unwind : bool) : option Node :=
  let g := ps_signals p in
  if negb (sc_status c =? 0) && (ctl_cond_depth (sh_control (ps_shell p)) =? 0) && negb (sc_errexit_exempt c) &&
     negb (sg_handling_error g) && negb unwind && sg_err_active g
  then match sg_err g with Some (DispHandler _ body) => Some body | _ => None end
  else None.

Definition check_error : sh unit :=
  c ← ask id;
  p ← in_machine current;
  unwind ← in_machine should_unwind;
  match error_handler c p unwind with
  | None => mret tt
  | Some body =>
      room ← ensure_capacity 2;
      if negb room then mret tt
      else
        _ ← in_machine (set_handling_error true);
        _ ← put_frame (FinishErrorTrap (sc_status c) (sc_errexit_exempt c));
        put_frame (Eval body)
  end.

Definition finish_error_trap (previous_status : Z) (errexit_exempt : bool) : sh unit :=
  _ ← in_machine (set_handling_error false);
  c ← in_machine control;
  _ ← set_result (default previous_status (ctl_exiting c));
  edit (λ c, set_exempt c errexit_exempt).

Definition finish_time (start : TimeStart) : sh unit :=
  in_machine (report ← gets (λ m, time_report start (tm_monotonic_ns (m_clock m)) (process_time_ns (m_resources m)));
              diagnose report).

Definition record_pipe_status : sh unit :=
  status ← ask sc_status; in_machine (change_shell (λ s, set_array s "PIPESTATUS" [pretty status])).

(** ** One step *)

Definition step (frame : ShellFrame R) : sh unit :=
  match frame with
  | FinishTime start => finish_time start
  | Eval node => eval node
  | RecordPipeStatus => record_pipe_status
  | ReadProgram pending => read_program pending
  | ExitWithStatus => status ← ask sc_status; in_machine (set_exiting (Some status))
  | PrepareCommand command => prepare_command command
  | RunCommand assigns words temporary substitution_status => eval_command assigns words temporary substitution_status
  | AwaitCommandSubstitution command pid capture variable previous =>
      await_command_substitution command pid capture variable previous
  | AwaitProcessSubstitution command pid capture location => await_process_substitution command pid capture location
  | RunOutputSubstitutions substitutions command_status => run_output_substitutions substitutions command_status
  | AwaitOutputProcessSubstitution substitutions command_status pid =>
      await_output_substitution substitutions command_status pid
  | CleanupProcessSubstitutionFiles paths => in_machine (remove_paths paths)
  | PrepareFor state => prepare_for state
  | AwaitForSubstitution state pid capture variable previous => await_for_substitution state pid capture variable previous
  | PrepareCase state => prepare_case state
  | AwaitCaseSubstitution state pid capture variable previous => await_case_substitution state pid capture variable previous
  | PrepareArithmetic state => prepare_arithmetic state
  | AwaitArithmeticSubstitution state pid capture start finish => await_arithmetic_substitution state pid capture start finish
  | Sequence nodes next => step_sequence nodes next
  | Conditional rhs run_on_success => step_conditional rhs run_on_success
  | Negate => step_negate
  | IfNext branches next els => step_if_next branches next els
  | IfAfter branches next els => step_if_after branches next els
  | WhileCheck cond body until body_status => step_while_check cond body until body_status
  | WhileAfterCondition cond body until body_status => step_while_after_condition cond body until body_status
  | WhileAfterBody cond body until => after_body (WhileCheck cond body until)
  | ForNext var items body next body_status => step_for_next var items body next body_status
  | ForAfterBody var items body next => after_body (ForNext var items body next)
  | CForCheck cond update body body_status => step_cfor_check cond update body body_status
  | CForAfterBody cond update body =>
      after_body (λ status, PrepareArithmetic (MkPreparedArithmetic update (CForUpdate cond update body status)))
  | FinishLoop => in_machine lower_loop
  | RestoreRedirect scope => in_machine (end_redirects scope)
  | FinishFunction positional variables err_trap_active => finish_function positional variables err_trap_active
  | FinishInlineCommand variables => in_machine (restore_command_variables variables)
  | FinishSource variables => finish_source variables
  | FinishSignalHandler previous_status => _ ← in_machine finish_signal_handler; set_result previous_status
  | FinishExitTrap previous_status => finish_exit_trap previous_status
  | CheckError => check_error
  | FinishErrorTrap previous_status errexit_exempt => finish_error_trap previous_status errexit_exempt
  | ResumeCommand variables continuation => resume_command variables continuation
  | ReadCommandInput argv variables stdin reserved framing => read_command_input argv variables stdin reserved framing
  | WriteCommandOutput command variables status stdout stderr stdout_offset stderr_offset =>
      write_command_output command variables status stdout stderr stdout_offset stderr_offset
  | AwaitChild pid reap => await_child pid reap
  | AwaitPipeline pids statuses next pipefail => await_pipeline pids statuses next pipefail
  end.

(** ** A quantum *)

Definition pop_frame : sh (option (ShellFrame R)) :=
  frames ← ask sc_frames;
  match frames with
  | [] => mret None
  | frame :: frames => _ ← edit (λ c, set_frames c frames); mret (Some frame)
  end.

Definition is_bookkeeping (frame : ShellFrame R) : bool :=
  match frame with RecordPipeStatus | CheckError => true | _ => false end.

(** Bookkeeping frames do not take a quantum of their own: each round takes one away. *)
Fixpoint bookkeep (fuel : nat) : sh unit :=
  frames ← ask sc_frames;
  match frames, fuel with
  | frame :: rest, fuel =>
      if is_bookkeeping frame then
        match fuel with
        | O => out_of_fuel
        | S fuel => _ ← edit (λ c, set_frames c rest); _ ← step frame; bookkeep fuel
        end
      else mret tt
  | [], _ => mret tt
  end.
Definition run_bookkeeping : sh unit := frames ← ask sc_frames; bookkeep (length frames).

(** Out of frames: the [EXIT] handler runs first, once. *)
Definition finish_program : sh (option ShellPoll) :=
  c ← ask id;
  if sc_exit_trap_started c then mret (Some (PollReady (sc_status c)))
  else
    _ ← edit set_trap_started;
    exiting ← in_machine take_exiting;
    let previous_status := default (sc_status c) exiting in
    p ← in_machine current;
    _ ← in_machine (on_signals (λ g, sg_with_exit g None));
    match sg_exit (ps_signals p) with
    | Some (DispHandler _ body) =>
        _ ← set_result previous_status;
        _ ← put_frame (FinishExitTrap previous_status);
        _ ← put_frame (Eval body);
        mret None
    | _ => mret (Some (PollReady (sc_status c)))
    end.

Definition poll_outcome : sh (option ShellPoll) :=
  c ← ask id;
  _ ← in_machine (change_shell (λ s, set_last_status s (sc_status c)));
  if sc_replaced c then mret (Some PollReplaced)
  else if sc_switched c then mret (Some PollSwitched)
  else if sc_yielded c then mret (Some PollPending)
  else match sc_blocked_on c with
       | Some reason => _ ← edit (λ c, set_signals c (sc_switched c) (sc_yielded c) None); mret (Some (PollBlocked reason))
       | None => mret None
       end.

Definition poll_round : sh (option ShellPoll) :=
  frame ← pop_frame;
  match frame with
  | None => finish_program
  | Some frame => _ ← step frame; _ ← run_bookkeeping; poll_outcome
  end.

Fixpoint poll_rounds (budget : nat) : sh (option ShellPoll) :=
  match budget with
  | O => mret None
  | S budget => outcome ← poll_round; match outcome with Some _ => mret outcome | None => poll_rounds budget end
  end.

Definition shell_poll (budget : nat) : sh ShellPoll :=
  _ ← edit (λ c, set_signals c false false None);
  outcome ← poll_rounds (Nat.max budget 1);
  match outcome with
  | Some outcome => mret outcome
  | None =>
      c ← ask id;
      p ← in_machine current;
      mret (if bool_decide (sc_frames c = []) && (sc_exit_trap_started c || bool_decide (sg_exit (ps_signals p) = None))
            then PollReady (sc_status c) else PollPending)
  end.

End exec.
