(* ===== verification/Driver.v ===== *)
(** * The machine driver (src/src/exec.rs, src/src/program.rs)

    [poll_machine] gives one quantum to one process: events that are due wake their tasks, a task is
    dispatched, a pending signal is delivered, and its program is polled. [ShellExecution] is one
    action of the host: its descriptors are installed, its syntax is run, its output is drained. The
    clock is virtual or follows the host's; cancellation by the host is left out. *)

From stdpp Require Import pretty.
From S2P Require Import Prelude.
From S2P Require Import State.
From S2P Require Import RustStr.
From S2P Require Import Resources.
From S2P Require Import Process.
From S2P Require Import Clock.
From S2P Require Import Descriptors.
From S2P Require Import Scheduler.
From S2P Require Import Syntax.
From S2P Require Import ProcessState.
From S2P Require Import Machine.
From S2P Require Import Kernel.
From S2P Require Import Lifecycle.
From S2P Require Import ExecData.
From S2P Require Import ExecText.
From S2P Require Import ExecVars.
From S2P Require Import Redirects.
From S2P Require Import ExecHost.
From S2P Require Import ExecPrep.
From S2P Require Import Exec.

(** ** Events that are due *)

Definition timeline_error_display (e : TimelineError) : string :=
  match e with
  | Overflow => "virtual time overflow"
  | WouldRewind now_ns requested_ns =>
      "virtual monotonic clock cannot rewind from " +:+ pretty now_ns +:+ "ns to " +:+ pretty requested_ns +:+ "ns"
  | EventLimit limit => "virtual timeline event limit exceeded (" +:+ pretty limit +:+ ")"
  | EventBeyondHorizon horizon_ns =>
      "virtual event exceeds the configured " +:+ pretty horizon_ns +:+ "ns scheduling horizon"
  end.

(** Errors of components, as the driver reports them. *)
Definition scheduled {A} (m : mach (result SchedulerError A)) : texted A :=
  r ← m; mret match r with Ok a => Ok a | Err error => Err (scheduler_error_debug error) end.
Definition lived {A} (m : lifecycle A) : texted A :=
  r ← m; mret match r with Ok a => Ok a | Err error => Err (lifecycle_error_display error) end.
Definition timed {A} (f : Timeline → run (Timeline * result TimelineError A)) : texted A := λ m,
  '(t, r) ← f (m_clock m);
  Ret (set_clock m t, match r with Ok a => Ok a | Err error => Err (timeline_error_display error) end).

(** *** Physical time (src/src/realtime.rs) *)

(** Read the clock of the host. *)
Definition read_host_clock : mach N := λ m,
  let v := m_host m in
  Ret (set_host m (MkHostView (hv_real_time v) (λ k, hv_elapsed v (S k)) (hv_requests v)), hv_elapsed v 0).

(** The clock of a real-time machine moves up to physical time. *)
Definition sync_host_time : texted unit :=
  real_time ← gets (λ m, hv_real_time (m_host m));
  match real_time with
  | None => mret (Ok tt)
  | Some anchor =>
      reading ← read_host_clock;
      let target := elapsed_virtual_ns anchor reading in
      now ← gets (λ m, tm_monotonic_ns (m_clock m));
      if now <? target then _ ←: timed (λ t, advance_to t target); mret (Ok tt) else mret (Ok tt)
  end.

(** How long the driver of a real-time machine waits, in nanoseconds, before it polls again. *)
Definition host_time_until (deadline : Z) : mach (option Z) :=
  real_time ← gets (λ m, hv_real_time (m_host m));
  match real_time with
  | None => mret None
  | Some anchor => reading ← read_host_clock; mret (Some (sat_sub deadline (elapsed_virtual_ns anchor reading)))
  end.
Definition host_wait_until : mach (option Z) :=
  real_time ← gets (λ m, hv_real_time (m_host m));
  match real_time with
  | None => mret None
  | Some anchor =>
      deadline ← gets (λ m, next_deadline_ns (m_clock m));
      match deadline with
      | None => mret None
      | Some deadline => reading ← read_host_clock; mret (Some (sat_sub deadline (elapsed_virtual_ns anchor reading)))
      end
  end.

(** *** Handling *)

(** [ProcessId::try_from(task)]. *)
Definition process_of_task (task : Z) : option Z := if (0 <=? task) && (task <=? U32_MAX) then Some task else None.

Definition timed_wait (c : Scheduler) (pid deadline : Z) : bool :=
  match waiting_on c pid with Some reason => accepts_timer reason deadline | None => false end.

Definition wake_task (task deadline : Z) : texted unit :=
  match process_of_task task with
  | None => mret (Ok tt)
  | Some pid =>
      waits ← gets (λ m, timed_wait (m_scheduler m) pid deadline);
      if waits : bool then scheduled (sched_do (λ c, scheduler_wake c pid)) else mret (Ok tt)
  end.

Fixpoint interrupt_each (event : EventId) (pids : list Z) : texted unit :=
  match pids with
  | [] => mret (Ok tt)
  | pid :: pids =>
      _ ←: lived (set_state_deadline pid event);
      _ ←: scheduled (sched_do (λ c, scheduler_wake c pid));
      interrupt_each event pids
  end.

Definition deadline_reached (event : EventId) (task : Z) : texted unit :=
  waiters ← gets (λ m, if task =? MAIN_TASK_ID then timer_waiters (m_scheduler m) else option_list (process_of_task task));
  interrupt_each event waiters.

Fixpoint signal_all (targets : list Z) (signal : Signal) : mach unit :=
  match targets with [] => mret tt | pid :: targets => _ ← send_signal pid signal; signal_all targets signal end.

(** A signal for a tree reaches the youngest first. *)
Definition signal_task (task : Z) (signal : Signal) (descendants : bool) : mach unit :=
  match process_of_task task with
  | None => mret tt
  | Some pid =>
      targets ← lift_run (λ m, if descendants then live_process_tree (m_processes m) pid else Ret [pid]);
      signal_all (reverse targets) signal
  end.

Definition handle_event (event : ScheduledEvent) : texted unit :=
  match se_kind event with
  | WakeTask task => wake_task task (ev_deadline_ns (se_id event))
  | Deadline task => deadline_reached (se_id event) task
  | SignalTask task signal descendants => _ ← signal_task task signal descendants; mret (Ok tt)
  | External _ _ => mret (Ok tt)
  end.

Definition take_ready : mach (option ScheduledEvent) := λ m,
  let '(t, event) := pop_ready (m_clock m) in Ret (set_clock m t, event).

(** Handling an event adds none: a round per ready event, and one that finds none. *)
Fixpoint handle_events_fuel (fuel : nat) : texted unit :=
  match fuel with
  | O => out_of_fuel
  | S fuel =>
      event ← take_ready;
      match event with
      | None => mret (Ok tt)
      | Some event => _ ←: handle_event event; handle_events_fuel fuel
      end
  end.
Definition handle_ready_events : texted unit :=
  rounds ← gets (λ m, S (length (tm_ready (m_clock m)))); handle_events_fuel rounds.

Definition wake_due_events : texted unit :=
  _ ←: sync_host_time;
  _ ←: timed (λ t, advance_to t (tm_monotonic_ns t));
  handle_ready_events.

(** ** Choosing a process *)

(** Whether time cannot jump: the clock is the host's, or a guest waits for a reply of the host. *)
Definition time_is_held (m : Machine) : bool :=
  bool_decide (is_Some (hv_real_time (m_host m))) || has_unanswered_host_requests (m_host m).

(** A round that dispatches nothing fires a pending event. *)
Fixpoint dispatch_fuel (fuel : nat) (advance_time : bool) : texted bool :=
  match fuel with
  | O => out_of_fuel
  | S fuel =>
      dispatched ←: scheduled (sched_do dispatch);
      match dispatched with
      | Some pid => _ ←: lived (activate pid); mret (Ok true)
      | None =>
          held ← gets time_is_held;
          if negb advance_time || held then mret (Ok false)
          else
            fired ←: timed advance_to_next;
            match fired with
            | [] => mret (Ok false)
            | _ => _ ←: handle_ready_events; dispatch_fuel fuel advance_time
            end
      end
  end.
Definition dispatch_available (advance_time : bool) : texted bool :=
  _ ← env_wake_file_lock_waiters;
  _ ←: sync_host_time;
  _ ←: handle_ready_events;
  rounds ← gets (λ m, S (size (tm_pending (m_clock m))));
  dispatch_fuel rounds advance_time.

(** ** Programs *)

Inductive MachinePoll := Progress | MachineBlocked | MachineReady (status : Z).

Section driver.
Context {R N : Type} {H : Host R N}.
Abbreviation act A := (stm (World R N) A).
Abbreviation reported A := (stm (World R N) (result string A)).

Definition act_error {A} (message : string) : reported A := mret (Err message).
Definition act_bind {A B} (k : A → reported B) (m : reported A) : reported B :=
  r ← m; match r with Ok a => k a | Err message => act_error message end.
Notation "x ←; y ; z" := (act_bind (λ x : _, z) y)
  (at level 20, y at level 100, z at level 200, only parsing) : stdpp_scope.

(** A method of a shell continuation. *)
Definition in_shell {A} (m : stm (Shell R N) A) (shell : ShellContinuation R) : act (ShellContinuation R * A) := λ w,
  '(x, a) ← m (MkShellRun shell w); Ret (x_world x, (x_shell x, a)).

Definition release_owned_memory (program : ProgramContinuation R N) : act (ProgramContinuation R N) :=
  match program with
  | PShell shell => mret (PShell shell)
  | PNative native => native ← native_release_memory native; mret (PNative native)
  end.
Definition terminate (program : ProgramContinuation R N) : act (ProgramContinuation R N) :=
  match program with
  | PShell shell => '(shell, _) ← in_shell shell_abort shell; mret (PShell shell)
  | PNative _ => release_owned_memory program
  end.
Definition program_poll (program : ProgramContinuation R N) (budget : nat) : act (ProgramContinuation R N * ShellPoll) :=
  match program with
  | PShell shell => '(shell, poll) ← in_shell (shell_poll budget) shell; mret (PShell shell, poll)
  | PNative native => '(native, poll) ← native_poll native; mret (PNative native, poll)
  end.
Definition program_handler (program : ProgramContinuation R N) (body : Node) : reported (ProgramContinuation R N) :=
  match program with
  | PShell shell => '(shell, _) ← in_shell (inject_signal_handler body) shell; mret (Ok (PShell shell))
  | PNative _ => act_error "native process cannot run a shell signal handler"
  end.

Definition store_program (pid : Z) (program : ProgramContinuation R N) : reported unit :=
  r ← set_program pid (Some program);
  mret match r with Ok _ => Ok tt | Err error => Err (lifecycle_error_display error) end.
Definition running_program (what : string) (pid : Z) : reported (ProgramContinuation R N) :=
  program ← take_program;
  mret (ok_or program (what +:+ " process " +:+ pretty pid +:+ " has no program")).

(** ** Signals *)

Definition available (advance_time : bool) : reported MachinePoll :=
  found ←; on_machine (dispatch_available advance_time);
  mret (Ok (if found : bool then Progress else MachineBlocked)).

Definition end_process (owner target status : Z) : reported MachinePoll :=
  if owner =? target then
    _ ← on_machine release_exec_metadata;
    _ ← on_machine (set_exiting (Some status));
    mret (Ok (MachineReady status))
  else _ ← on_machine (finish_child owner status); mret (Ok Progress).

Definition terminated (owner target : Z) (signal : Signal) : reported MachinePoll :=
  _ ← on_machine (processes_do (λ t, mark_signal_termination t owner signal));
  program ← take_program;
  _ ← match program with Some program => _ ← terminate program; mret tt | None => mret tt end;
  end_process owner target (128 + signal_number signal).

(** A pending signal is delivered before the program is polled: [None] lets the poll go on. *)
Definition deliver_signal (owner target : Z) : reported (option MachinePoll) :=
  delivery ← on_machine take_signal_delivery;
  match delivery with
  | None => mret (Ok None)
  | Some (DeliverTerminate signal) => poll ←; terminated owner target signal; mret (Ok (Some poll))
  | Some (DeliverStop signal) =>
      _ ←; on_machine (lived (stop_active_process signal));
      poll ←; available false;
      mret (Ok (Some poll))
  | Some (DeliverHandler body) =>
      program ←; running_program "active signaled" owner;
      program ←; program_handler program body;
      _ ← set_program owner (Some program);
      mret (Ok None)
  end.

(** ** A quantum *)

Definition after_quantum (owner target : Z) (advance_time : bool) (program : ProgramContinuation R N) (poll : ShellPoll)
    : reported MachinePoll :=
  match poll with
  | PollPending =>
      _ ←; store_program owner program;
      others ← on_machine (gets (λ m, has_runnable (m_scheduler m)));
      if others : bool then
        _ ←; on_machine (scheduled (sched_do yield_current));
        _ ←; on_machine (dispatch_available false);
        mret (Ok Progress)
      else mret (Ok Progress)
  | PollSwitched => _ ←; store_program owner program; mret (Ok Progress)
  | PollReplaced => _ ← release_owned_memory program; mret (Ok Progress)
  | PollBlocked reason =>
      _ ←; store_program owner program;
      _ ←; on_machine (scheduled (sched_do (λ c, block_current c reason)));
      available advance_time
  | PollReady status =>
      if owner =? target then _ ← on_machine release_exec_metadata; mret (Ok (MachineReady status))
      else _ ← on_machine (finish_child owner status); mret (Ok Progress)
  end.

Definition poll_process (target : Z) (advance_time : bool) : reported MachinePoll :=
  owner ← on_machine current;
  delivered ←; deliver_signal (ps_pid owner) target;
  match delivered with
  | Some poll => mret (Ok poll)
  | None =>
      _ ←; on_machine wake_due_events;
      owner ← on_machine current;
      program ←; running_program "active" (ps_pid owner);
      '(program, poll) ← program_poll program SHELL_POLL_QUANTUM;
      after_quantum (ps_pid owner) target advance_time program poll
  end.

Definition poll_machine (target : Z) (advance_time : bool) : reported MachinePoll :=
  _ ← on_machine env_wake_file_lock_waiters;
  running ← on_machine (gets (λ m, bool_decide (is_Some (sc_current (m_scheduler m)))));
  if running : bool then poll_process target advance_time
  else
    found ←; on_machine (dispatch_available advance_time);
    if found : bool then poll_process target advance_time else mret (Ok MachineBlocked).

(** ** Actions *)

(** Install a program in the active process, and let another run when one waits. *)
Definition start_node (node : Node) : stm (World R N) (result Z Z) :=
  p ← on_machine current;
  if ps_program p then
    _ ← on_machine (diagnose ("shellsim: attempted to replace an active shell continuation" +:+ newline));
    mret (Err 125)
  else
    _ ← set_program (ps_pid p) (Some (PShell (shell_new node)));
    others ← on_machine (gets (λ m, has_runnable (m_scheduler m)));
    _ ← (if others : bool then
           _ ← demand_ok (on_machine (sched_do yield_current));
           next ← demand_ok (on_machine (sched_do dispatch));
           next ← on_machine (lift_run (λ _, expect next));
           demand_ok (on_machine (activate next))
         else mret tt);
    mret (Ok (ps_pid p)).

Record ShellExecution := MkShellExecution {
  se_target : Z;
  se_saved : FdTable;
  se_stdin : Z;
  se_stdout : Z;
  se_stderr : Z;
  se_stdin_closed : bool
}.

Definition open_action_input (stdin : bytes) (closed : bool) : sys Z :=
  if closed then arena_do (λ a, open_input a stdin)
  else
    input ←? arena_do open_stream_input;
    appended ← arena_do (λ a, append_input a input stdin);
    match appended with
    | Ok _ => done_ input
    | Err error => _ ← discard_description input; fail error
    end.

Definition install_capture (fd : Z) : sys Z :=
  capture ←? arena_do open_capture;
  _ ←? install_new_description fd capture;
  done_ capture.

(** The input, the output and the diagnostics of an action. *)
Definition install_action (stdin : bytes) (closed : bool) : sys (Z * Z * Z) :=
  input ←? open_action_input stdin closed;
  _ ←? install_new_description 0 input;
  stdout ←? install_capture 1;
  stderr ←? install_capture 2;
  done_ (input, stdout, stderr).

Definition execution_start (node : Node) (stdin : bytes) (closed : bool) : reported ShellExecution :=
  forked ← on_machine fork_table;
  match forked with
  | Err error => act_error ("unable to save descriptors: " +:+ descriptor_error_debug error)
  | Ok saved =>
      installed ← on_machine (install_action stdin closed);
      match installed with
      | Err error =>
          _ ← on_machine (restore_fds saved);
          act_error ("unable to install action descriptors: " +:+ syscall_error_display error)
      | Ok (input, stdout, stderr) =>
          started ← start_node node;
          match started with
          | Err status =>
              _ ← on_machine (restore_fds saved);
              act_error ("unable to start shell continuation (status " +:+ pretty status +:+ ")")
          | Ok target => mret (Ok (MkShellExecution target saved input stdout stderr closed))
          end
      end
  end.

Definition execution_poll (e : ShellExecution) (advance_time : bool) : reported MachinePoll :=
  poll_machine (se_target e) advance_time.

Definition wake_reader (id : Z) : mach unit := wake (λ c, wake_waiters c (InputReadable id)).

Definition execution_write_stdin (e : ShellExecution) (data : bytes) : reported unit :=
  if se_stdin_closed e then act_error "action stdin is closed"
  else
    appended ← on_machine (arena_do (λ a, append_input a (se_stdin e) data));
    match appended with
    | Err error => act_error ("unable to append action stdin: " +:+ syscall_error_display error)
    | Ok _ => _ ← on_machine (wake_reader (se_stdin e)); mret (Ok tt)
    end.

Definition execution_close_stdin (e : ShellExecution) : reported ShellExecution :=
  if se_stdin_closed e then mret (Ok e)
  else
    closed ← on_machine (arena_do (λ a, close_input a (se_stdin e)));
    match closed with
    | Err error => act_error ("unable to close action stdin: " +:+ syscall_error_display error)
    | Ok _ =>
        _ ← on_machine (wake_reader (se_stdin e));
        mret (Ok (MkShellExecution (se_target e) (se_saved e) (se_stdin e) (se_stdout e) (se_stderr e) true))
    end.

(** What was produced: pending output of detached processes, then the captures. *)
Definition execution_drain (e : ShellExecution) : mach (bytes * bytes) :=
  out ← gets m_pending_stdout;
  err ← gets m_pending_stderr;
  _ ← modify (λ m, set_pending_stderr (set_pending_stdout m []) []);
  captured_out ← drain (se_stdout e);
  captured_err ← drain (se_stderr e);
  mret (out ++ captured_out, err ++ captured_err).

Definition execution_restore (e : ShellExecution) : mach unit := restore_fds (se_saved e).

(** Poll to the end of the action; [fuel] bounds the quanta, the source's loop does not. On a real-time
    machine that is blocked the thread of the host sleeps until the next event, and polls again. *)
Fixpoint drive (fuel : nat) (e : ShellExecution) : act (Z * string) :=
  match fuel with
  | O => out_of_fuel
  | S fuel =>
      poll ← execution_poll e true;
      match poll with
      | Ok Progress => drive fuel e
      | Ok MachineBlocked =>
          wait ← on_machine host_wait_until;
          match wait with
          | Some _ => drive fuel e
          | None => mret (125, "shellsim: all processes are blocked without an event" +:+ newline)
          end
      | Ok (MachineReady status) => mret (status, "")
      | Err error => mret (125, "shellsim: scheduler: " +:+ error +:+ newline)
      end
  end.

(** The status of an action, its output and its diagnostics. *)
Definition exec (fuel : nat) (node : Node) (stdin : bytes) : act (Z * bytes * bytes) :=
  started ← execution_start node stdin true;
  match started with
  | Err error => mret (125, [], to_bytes ("shellsim: " +:+ error +:+ newline))
  | Ok e =>
      '(status, message) ← drive fuel e;
      '(out, err) ← on_machine (execution_drain e);
      _ ← on_machine (execution_restore e);
      mret (status, out, to_bytes message ++ err)
  end.

(** ** Ancestry *)

Fixpoint belongs_fuel (fuel : nat) (t : ProcessTable) (current root first_new : Z) : run bool :=
  if current =? root then Ret true
  else if current <? first_new then Ret false
  else match fuel, pt_records t !! current with
       | _, None => Ret false
       | O, _ => NoFuel
       | S fuel, Some r => if current <=? pr_ppid r then Ret false else belongs_fuel fuel t (pr_ppid r) root first_new
       end.
(** Each round goes to an older process. *)
Definition process_belongs_to_action (t : ProcessTable) (pid root first_new : Z) : run bool :=
  belongs_fuel (size (pt_records t)) t pid root first_new.

End driver.
