(* ===== verification/Boot.v ===== *)
(** * Booting a machine (src/src/interp.rs)

    [Environment::with_limits]: the image of a new machine. The executables the command registry
    adds are an argument. *)

From S2P Require Import Prelude.
From S2P Require Import State.
From S2P Require Import RustStr.
From S2P Require Import Resources.
From S2P Require Import Variables.
From S2P Require Import Descriptors.
From S2P Require Import Process.
From S2P Require Import Clock.
From S2P Require Import Scheduler.
From S2P Require Import Vfs.
From S2P Require Import ProcessState.
From S2P Require Import Machine.
From S2P Require Import Kernel.

Definition ROOT_PID : Z := 1234.

(** Space, tab and line feed. *)
Definition default_ifs : string :=
  String " "%char (String (ascii_of_nat 9) (String (ascii_of_nat 10) EmptyString)).

Definition default_variables : list (string * string) :=
  [("HOME", "/root"); ("PATH", "/usr/local/sbin:/usr/local/bin:/usr/sbin:/usr/bin:/sbin:/bin"); ("PWD", "/");
   ("SHELL", "/bin/bash"); ("TERM", "xterm-256color"); ("USER", "root"); ("HOSTNAME", "sandbox");
   ("LANG", "C.UTF-8"); ("IFS", default_ifs)].
Definition default_exported : list string := ["HOME"; "PATH"; "PWD"; "SHELL"; "TERM"; "USER"; "HOSTNAME"; "LANG"].

Definition seeded_dirs : list string := ["/root"; "/tmp"; "/work"; "/usr"; "/usr/bin"; "/bin"].
Definition seeded_programs : list (string * NativeProgram) :=
  [("true", NpTrue); ("false", NpFalse); ("pwd", NpPwd); ("yes", NpYes); ("cat", NpCat); ("tee", NpTee);
   ("head", NpHead); ("xargs", NpXargs); ("find", NpFind); ("env", NpEnv); ("sleep", NpSleep); ("usleep", NpUsleep);
   ("timeout", NpTimeout); ("nohup", NpNohup); ("nice", NpNice); ("make", NpMake);
   ("sh", LegacyRegistered "sh"); ("bash", LegacyRegistered "bash"); ("dash", LegacyRegistered "dash");
   ("zsh", LegacyRegistered "zsh")].

(** Every name under both directories of programs. *)
Fixpoint seed_programs (v : Vfs) (programs : list (string * NativeProgram)) : run Vfs :=
  match programs with
  | [] => Ret v
  | (name, program) :: programs =>
      v ← seed_native_executable v ("/usr/bin/" +:+ name) program;
      v ← seed_native_executable v ("/bin/" +:+ name) program;
      seed_programs v programs
  end.

(** A registered executable whose name is that of a program above is skipped. *)
Definition is_superseded (image : NativeProgram) : bool :=
  match image with LegacyRegistered name => bool_decide (is_Some (native_from_name name)) | _ => false end.

Fixpoint seed_registered (v : Vfs) (registered : list (string * NativeProgram)) : run Vfs :=
  match registered with
  | [] => Ret v
  | (path, image) :: registered =>
      if is_superseded image then seed_registered v registered
      else
        v ← seed_native_executable v path image;
        v ← match strip_prefix "/usr/bin/" path with
            | Some name => seed_native_executable v ("/bin/" +:+ name) image
            | None => Ret v
            end;
        seed_registered v registered
  end.

(** [opened.expect(..)] followed by [fds.install(..).expect(..)]. *)
Definition install_standard (t : FdTable) (fd : Z) (opened : arena_result Z) : run (FdTable * DescriptorArena) :=
  match opened with
  | (_, Err _) => Panic
  | (a, Ok id) => match fd_install t fd id a with (t, a, Ok _) => Ret (t, a) | (_, _, Err _) => Panic end
  end.

(** The three descriptions are opened before the first is installed. *)
Definition boot_descriptors : run (FdTable * DescriptorArena) :=
  match open_input arena_new [] with
  | (_, Err _) => Panic
  | (a, Ok stdin) =>
      match open_capture a with
      | (_, Err _) => Panic
      | (a, Ok stdout) =>
          match open_capture a with
          | (_, Err _) => Panic
          | (a, Ok stderr) =>
              '(t, a) ← install_standard fd_table_new 0 (a, Ok stdin);
              '(t, a) ← install_standard t 1 (a, Ok stdout);
              install_standard t 2 (a, Ok stderr)
          end
      end
  end.

Definition boot_shell : ShellState :=
  MkShell (variables_from_iter default_variables) arrays_default (list_to_set default_exported) ∅ ∅ ∅ [] ∅ [] ∅ 0 1
    "shellsim" (positional_from []) (1, 1) (MkOptions false false false false false) None 0 [] 1
    (MkControl 0 0 0 None 0 None 0) [] 0 0 0.

Definition boot_context (fds : FdTable) : ProcessState :=
  with_baseline
    (MkProcessState (MkIdentity ROOT_PID 0 ROOT_PID ROOT_PID ROOT_PID 0 0) boot_shell 18 "/" 6840227782638526189 None
       fds false (MkSignalState ∅ ∅ None None true false false) (MkReservations 0 0 0 0 0) false).

Definition with_limits (limits : Limits) (registered : list (string * NativeProgram)) : run Machine :=
  '(fds, a) ← boot_descriptors;
  let v := set_mutation_time (with_disk_limit (lim_disk limits)) (unix_ms timeline_new) in
  v ← seed_dirs v seeded_dirs;
  v ← seed_programs v seeded_programs;
  v ← seed_registered v registered;
  let context := boot_context fds in
  let processes := update_descriptors (process_table_new ROOT_PID "/" (child_env context)) ROOT_PID
                     (omap (λ id, ok (description_label a id)) (ft_entries fds)) in
  Ret (MkMachine v "sandbox" timeline_new (resources_new limits) processes (scheduler_new ROOT_PID) a ∅
         (MkControllingTerminal ROOT_PID ROOT_PID) ROOT_PID {[ROOT_PID := context]} 0 [] [] host_virtual).

(** A machine whose clock follows [mode]; [elapsed] is what reading the clock of the host gives. *)
Definition with_limits_and_clock (limits : Limits) (registered : list (string * NativeProgram)) (mode : ClockMode)
    (elapsed : nat → N) : run Machine :=
  m ← with_limits limits registered;
  Ret match mode with
      | VirtualTime => m
      | RealTime => set_host m (MkHostView (Some (MkHostAnchor (tm_monotonic_ns (m_clock m)))) elapsed ∅)
      end.
