(* ===== verification/Images.v ===== *)
(** * Loading and launching programs (src/src/interp.rs, src/src/syscalls.rs)

    What a process runs is replaced by an image: a native program, a shell that parses its own
    source, or a command of the shell's registry. Spawning makes a child and loads an image into
    it. [launch] makes the native program of what is loaded; programs themselves are a parameter.

    [posix_spawn] over the virtual kernel: a child is prepared without being dispatched, its
    descriptor and directory actions run as the child, its executable is found, through
    interpreters, and loaded. When any of it fails the child is taken away again and the
    filesystem is put back. *)

From stdpp Require Import pretty.
From S2P Require Import Prelude.
From S2P Require Import State.
From S2P Require Import RustStr.
From S2P Require Import Resources.
From S2P Require Import Process.
From S2P Require Import Scheduler.
From S2P Require Import Variables.
From S2P Require Import Descriptors.
From S2P Require Import Paths.
From S2P Require Import Vfs.
From S2P Require Import Syntax.
From S2P Require Import ProcessState.
From S2P Require Import ShellVars.
From S2P Require Import ExpandText.
From S2P Require Import Machine.
From S2P Require Import Expand.
From S2P Require Import Kernel.
From S2P Require Import Lifecycle.
From S2P Require Import ExecData.
From S2P Require Import ExecText.
From S2P Require Import ExecVars.
From S2P Require Import ExecHost.

(** ** What a native program starts from *)

Inductive NativeLaunch :=
| LaunchFailure (status : Z) (message : string)
| LaunchImage (image : NativeProgram) (argv : list string)
| LaunchWasm (path : string) (argv : list string).

(** Arguments and overrides of a child. *)
Record SpawnSpec := MkSpawnSpec {
  sp_argv : list string;
  sp_stdin : option bytes;
  sp_cwd : option string;
  sp_environment : option (gmap string string);
  sp_detach : bool;
  sp_new_process_group : bool
}.

(** The program, parameters and options of a shell loaded as an image. *)
Record ShellImage := MkShellImage {
  im_program : option Syntax.Node;
  im_arg0 : string;
  im_positional : list string;
  im_flags : Options
}.

Definition wasm_magic : bytes := [Byte.x00; Byte.x61; Byte.x73; Byte.x6d].
(** [is_wasm_executable]: reads the first bytes of the file. *)
Definition reads_wasm (r : result VfsError bytes) : bool := bool_decide (ok r = Some wasm_magic).
Definition is_wasm_executable (path : string) : mach bool := λ m,
  let '(v, r) := read_range (m_vfs m) "/" path 0 4 in Ret (set_vfs m v, reads_wasm r).

Definition shell_names : list string := ["sh"; "bash"; "dash"; "zsh"].

(** ** Fields of a shell *)

Definition set_flags (sh : ShellState) (flags : Options) : ShellState :=
  MkShell (sh_vars sh) (sh_arrays sh) (sh_exported sh) (sh_readonly sh) (sh_options sh) (sh_command_hash sh)
    (sh_directory_stack sh) (sh_funcs sh) (sh_local_scopes sh) (sh_aliases sh) (sh_last_status sh) (sh_random sh)
    (sh_arg0 sh) (sh_positional sh) (sh_getopts sh) flags (sh_expansion_error sh) (sh_expansion_depth sh) (sh_jobs sh)
    (sh_next_job sh) (sh_control sh) (sh_input sh) (sh_input_pos sh) (sh_local_saved sh) (sh_frame_saved sh).

Definition op_with_errexit (o : Options) (b : bool) : Options :=
  MkOptions b (op_errtrace o) (op_nounset o) (op_xtrace o) (op_pipefail o).
Definition op_with_errtrace (o : Options) (b : bool) : Options :=
  MkOptions (op_errexit o) b (op_nounset o) (op_xtrace o) (op_pipefail o).
Definition op_with_nounset (o : Options) (b : bool) : Options :=
  MkOptions (op_errexit o) (op_errtrace o) b (op_xtrace o) (op_pipefail o).
Definition op_with_xtrace (o : Options) (b : bool) : Options :=
  MkOptions (op_errexit o) (op_errtrace o) (op_nounset o) b (op_pipefail o).
Definition op_with_pipefail (o : Options) (b : bool) : Options :=
  MkOptions (op_errexit o) (op_errtrace o) (op_nounset o) (op_xtrace o) b.

(** ** The arguments of a shell *)

Record ImageArgs := MkImageArgs { ia_command : bool; ia_stdin : bool; ia_flags : Options }.

Definition ia_with_flags (a : ImageArgs) (flags : Options) : ImageArgs := MkImageArgs (ia_command a) (ia_stdin a) flags.

Definition image_option (name : string) (enable : bool) (o : Options) : option Options :=
  if bool_decide (name = "errexit") then Some (op_with_errexit o enable)
  else if bool_decide (name = "errtrace") then Some (op_with_errtrace o enable)
  else if bool_decide (name = "nounset") then Some (op_with_nounset o enable)
  else if bool_decide (name = "xtrace") then Some (op_with_xtrace o enable)
  else if bool_decide (name = "pipefail") then Some (op_with_pipefail o enable)
  else None.

(** The letters of one option word; each [o] takes the next argument. *)
Fixpoint image_letters (letters : list string) (enable : bool) (args : list string) (a : ImageArgs)
    : result (Z * string) (ImageArgs * list string) :=
  match letters with
  | [] => Ok (a, args)
  | flag :: letters =>
      let o := ia_flags a in
      let on l := bool_decide (flag = l) in
      if on "c" then image_letters letters enable args (MkImageArgs true (ia_stdin a) o)
      else if on "s" then image_letters letters enable args (MkImageArgs (ia_command a) true o)
      else if on "e" then image_letters letters enable args (ia_with_flags a (op_with_errexit o enable))
      else if on "E" then image_letters letters enable args (ia_with_flags a (op_with_errtrace o enable))
      else if on "u" then image_letters letters enable args (ia_with_flags a (op_with_nounset o enable))
      else if on "x" then image_letters letters enable args (ia_with_flags a (op_with_xtrace o enable))
      else if on "i" || on "l" then image_letters letters enable args a
      else if on "o" then
        match args with
        | [] => Err (2, "bash: -o: option requires an argument" +:+ newline)
        | name :: args =>
            match image_option name enable o with
            | Some o => image_letters letters enable args (ia_with_flags a o)
            | None => Err (2, "bash: " +:+ name +:+ ": invalid option name" +:+ newline)
            end
        end
      else Err (2, "bash: -" +:+ flag +:+ ": invalid option" +:+ newline)
  end.

(** The option words, and the operands after them. Every round takes an argument. *)
Fixpoint image_args (fuel : nat) (args : list string) (a : ImageArgs) : result (Z * string) (ImageArgs * list string) :=
  match fuel, args with
  | S fuel, argument :: rest =>
      if bool_decide (argument = "--") || bool_decide (argument = "-") then Ok (a, rest)
      else if starts_with "--" argument then image_args fuel rest a
      else
        match argument with
        | String sign (String _ _ as flags) =>
            if bool_decide (sign = "-"%char) || bool_decide (sign = "+"%char) then
              match image_letters (utf8_chars flags) (bool_decide (sign = "-"%char)) rest a with
              | Err error => Err error
              | Ok (a, rest) => image_args fuel rest a
              end
            else Ok (a, args)
        | _ => Ok (a, args)
        end
  | _, _ => Ok (a, args)
  end.

Definition default_options : Options := MkOptions false false false false false.

(** [shell_image]: the image, or the status and message of one that cannot start. *)
Definition shell_image (pid : Z) (name : string) (args : list string) : lifecycle (result (Z * string) ShellImage) :=
  match image_args (length args) args (MkImageArgs false false default_options) with
  | Err error => accept (Err error)
  | Ok (a, operands) =>
      let parsed arg0 positional source :=
        program ← parse_shell_action source;
        accept match program with
               | Ok program => Ok (MkShellImage (Some program) arg0 positional (ia_flags a))
               | Err error => Err error
               end in
      if ia_command a then
        match operands with
        | [] => accept (Err (2, "bash: -c: option requires an argument" +:+ newline))
        | source :: operands => parsed (default name (head operands)) (drop 1 operands) source
        end
      else
        match operands, ia_stdin a with
        | [], _ | _, true => accept (Ok (MkShellImage None name operands (ia_flags a)))
        | script :: positional, false =>
            state ← gets (λ m, m_states m !! pid);
            match state with
            | None => refuse (NoContext pid)
            | Some state =>
                source ← vfs_do (λ v, vfs_read v (ps_cwd state) script);
                match source with
                | Err _ => accept (Err (127, "bash: " +:+ script +:+ ": No such file or directory" +:+ newline))
                | Ok source => parsed script positional (from_utf8_lossy source)
                end
            end
        end
  end.

(** ** Resetting a process for its image *)

(** The descriptors of pipes that are closed, in the order of their numbers. *)
Definition exec_endpoints (t : FdTable) (a : DescriptorArena) : list (Z * bool) :=
  omap (λ '(fd, id), if bool_decide (fd ∈ ft_close_on_exec t) then e ← ok (pipe_endpoint a id); e else None)
    (btree_iter (ft_entries t)).

Fixpoint wake_pipe_endpoints (endpoints : list (Z * bool)) : mach unit :=
  match endpoints with
  | [] => mret tt
  | endpoint :: endpoints => _ ← wake_pipe_endpoint (Some endpoint); wake_pipe_endpoints endpoints
  end.

Definition exec_signals (g : SignalState) : SignalState :=
  MkSignalState (sg_pending g) (filter (λ '(_, d), is_ignore d = true) (sg_dispositions g)) None None true false false.

Definition reset_for_exec (pid : Z) : lifecycle unit :=
  state ← gets (λ m, m_states m !! pid);
  match state with
  | None => refuse (NoContext pid)
  | Some p =>
      endpoints ← gets (λ m, exec_endpoints (ps_fds p) (m_descriptors m));
      _ ← modify (λ m,
        let '(fds, a) := close_for_exec (ps_fds p) (m_descriptors m) in
        set_states (set_descriptors m a)
          (<[pid := with_fds (with_signals p (exec_signals (ps_signals p))) fds]> (m_states m)));
      _ ← wake_pipe_endpoints endpoints;
      accept tt
  end.

(** What a new image keeps of a shell: the environment. *)
Definition image_shell (sh : ShellState) (image : ShellImage) : ShellState :=
  MkShell (variables_retain (sh_vars sh) (λ name _, bool_decide (name ∈ sh_exported sh))) (arrays_clear (sh_arrays sh))
    (sh_exported sh) ∅ (sh_options sh) ∅ [] ∅ [] ∅ (sh_last_status sh) (sh_random sh) (im_arg0 image)
    (positional_from (im_positional image)) (1, 1) (im_flags image) (sh_expansion_error sh) (sh_expansion_depth sh) [] 1
    (ctl_with_cond (ctl_with_loop (sh_control sh) 0) 0)
    (sh_input sh) (sh_input_pos sh) (sh_local_saved sh) (sh_frame_saved sh).

Definition with_shell_pid (i : Identity) (pid : Z) : Identity :=
  MkIdentity (id_pid i) (id_ppid i) (id_group i) (id_session i) pid (id_generation i) (id_uid i).
Definition with_identity (p : ProcessState) (i : Identity) : ProcessState :=
  MkProcessState i (ps_shell p) (ps_umask p) (ps_cwd p) (ps_syscall_random p) (ps_deadline_interrupt p) (ps_fds p)
    (ps_program p) (ps_signals p) (ps_reserved p) (ps_detached p).
Definition image_context (pid : Z) (image : ShellImage) (p : ProcessState) : ProcessState :=
  with_identity (with_shell p (image_shell (ps_shell p) image)) (with_shell_pid (ps_identity p) pid).

(** ** Loading *)

Definition and_act {W A B} (k : A → stm W (result LifecycleError B)) (m : stm W (result LifecycleError A))
    : stm W (result LifecycleError B) :=
  r ← m; match r with Ok a => k a | Err error => mret (Err error) end.

Notation "x ←% y ; z" := (and_act (λ x : _, z) y)
  (at level 20, y at level 100, z at level 200, only parsing) : stdpp_scope.

Section loading.
Context {R N : Type} (launch : NativeLaunch → N).
Abbreviation act A := (stm (World R N) A).

Definition load_shell_image (pid : Z) (image : ShellImage) : act (result LifecycleError unit) :=
  _ ←% on_machine (reset_for_exec pid);
  state ← on_machine (gets (λ m, m_states m !! pid));
  match state with
  | None => mret (Err (NoContext pid))
  | Some p =>
      _ ← on_machine (modify (λ m, set_states m (<[pid := image_context pid image p]> (m_states m))));
      set_program pid (Some (PShell match im_program image with
                                    | Some program => shell_subshell program
                                    | None => standard_input_program
                                    end))
  end.

(** What the executable found for a process is: a shell, another native program with the
    arguments it gets, or a command of the registry. *)
Inductive Loaded :=
| LoadShell
| LoadNative (native : NativeLaunch)
| LoadCommand (argv : list string).

Definition set_argv0 (argv : list string) (path : string) : list string := path :: drop 1 argv.

Definition load_found (path : string) (argv : list string) (preserve_argv0 : bool) : mach Loaded :=
  node ← gets (λ m, metadata (m_vfs m) "/" path true);
  match nd_kind <$> ok node with
  | Some (NativeExecutable (LegacyRegistered name)) =>
      mret (if bool_decide (name ∈ shell_names) then LoadShell else LoadCommand (set_argv0 argv path))
  | Some (NativeExecutable image) => mret (LoadNative (LaunchImage image argv))
  | Some (File _) =>
      wasm ← is_wasm_executable path;
      mret (if wasm : bool then
              LoadNative (LaunchWasm path
                (if negb preserve_argv0 && negb (has_slash (default "" (head argv))) then set_argv0 argv path else argv))
            else LoadCommand (set_argv0 argv path))
  | _ => mret (LoadCommand (set_argv0 argv path))
  end.

Definition load_lookup (lookup : ExecutableLookup) (argv : list string) (preserve_argv0 : bool) : mach Loaded :=
  let name := default "" (head argv) in
  let builtin := bool_decide (is_Some (native_from_name name)) in
  match lookup with
  | Found path => load_found path argv preserve_argv0
  | NotExecutable path =>
      mret (if builtin then LoadNative (LaunchFailure 126 (name +:+ ": " +:+ path +:+ ": permission denied" +:+ newline))
            else LoadCommand argv)
  | LookupNotFound =>
      mret (if builtin then LoadNative (LaunchFailure 127 (name +:+ ": command not found" +:+ newline))
            else LoadCommand argv)
  end.

Definition load_native (pid : Z) (native : NativeLaunch) : act (result LifecycleError unit) :=
  _ ←% on_machine match native with LaunchFailure _ _ => accept tt | _ => reset_for_exec pid end;
  set_program pid (Some (PNative (launch native))).

Definition load_argv_program_from (pid : Z) (argv : list string) (executable : string) (preserve_argv0 : bool)
    : act (result LifecycleError unit) :=
  state ← on_machine (gets (λ m, m_states m !! pid));
  match state with
  | None => mret (Err (NoContext pid))
  | Some p =>
      lookup ← on_machine (gets (λ m,
        resolve_executable_in (m_vfs m) (ps_cwd p) (va_values (ps_vars p) !! "PATH") executable));
      loaded ← on_machine (load_lookup lookup argv preserve_argv0);
      match loaded with
      | LoadShell =>
          image ←% on_machine (shell_image pid (default "" (head argv)) (drop 1 argv));
          match image with
          | Ok image => load_shell_image pid image
          | Err (status, message) => load_native pid (LaunchFailure status message)
          end
      | LoadNative native => load_native pid native
      | LoadCommand argv =>
          _ ←% on_machine (reset_for_exec pid);
          set_program pid (Some (PShell (shell_new (NArgvCommand argv))))
      end
  end.

(** [argv[0]] panics when there is none. *)
Definition load_argv_program (pid : Z) (argv : list string) : act (result LifecycleError unit) :=
  match argv with [] => panic | executable :: _ => load_argv_program_from pid argv executable false end.

Definition exec_argv_image (pid : Z) (argv : list string) : act (result LifecycleError unit) :=
  _ ←% load_argv_program pid argv;
  on_machine (_ ← processes_do (λ t, set_command t pid (command_label argv)); accept tt).

(** ** Spawning *)

Context (NODE_SIZE REDIRECT_SIZE : Z).

(** The errors of spawning; [LaunchEmpty] and [LaunchInput] are its own. *)
Inductive SpawnError := LaunchEmpty | LaunchInput (error : DescriptorError) | LaunchFork (error : LifecycleError).
Definition spawn_error_display (e : SpawnError) : string :=
  match e with
  | LaunchEmpty => "empty argv"
  | LaunchInput error => "unable to prepare child input: " +:+ descriptor_error_debug error
  | LaunchFork error => lifecycle_error_display error
  end.

Definition prepare_input (stdin : option bytes) : mach (result DescriptorError (option Z)) :=
  match stdin with
  | None => mret (Ok None)
  | Some data => λ m, let '(a, r) := open_input (m_descriptors m) data in Ret (set_descriptors m a, Some <$> r)
  end.

Definition discard_input (input : option Z) : mach unit :=
  match input with Some id => _ ← arena_do (λ a, discard_unreferenced a id); mret tt | None => mret tt end.

Definition demand_input (pid : Z) (input : option Z) : mach unit :=
  match input with
  | None => mret tt
  | Some id => r ← install_process_description pid 0 id; match r with Ok _ => mret tt | Err _ => panic end
  end.

Definition spawn_argv_child (spec : SpawnSpec) : act (result SpawnError Z) :=
  match sp_argv spec with
  | [] => mret (Err LaunchEmpty)
  | argv =>
      input ← on_machine (prepare_input (sp_stdin spec));
      match input with
      | Err error => mret (Err (LaunchInput error))
      | Ok input =>
          let placement := if sp_new_process_group spec then NewProcessGroup else Inherit in
          created ← on_machine (create_child NODE_SIZE REDIRECT_SIZE (command_label argv) true (negb (sp_detach spec)) false placement);
          match created with
          | Err error => _ ← on_machine (discard_input input); mret (Err (LaunchFork error))
          | Ok pid =>
              _ ← on_machine (demand_input pid input);
              _ ← demand_ok (on_machine (configure_process pid (sp_cwd spec) (sp_environment spec)));
              _ ← demand_ok (load_argv_program pid argv);
              mret (Ok pid)
          end
      end
  end.

(** [System::spawn_argv] and [System::exec_argv]. *)
Definition sys_spawn_argv (spec : SpawnSpec) : act (result SyscallError Z) :=
  r ← spawn_argv_child spec;
  mret match r with Ok pid => Ok pid | Err error => Err (SysProcess (spawn_error_display error)) end.

Definition as_process_error {A} (r : result LifecycleError A) : result SyscallError A :=
  match r with Ok a => Ok a | Err error => Err (SysProcess (lifecycle_error_display error)) end.

Definition sys_exec_argv (argv : list string) (environment : option (gmap string string)) : act (result SyscallError unit) :=
  match argv with
  | [] => mret (Err SysInvalidArgument)
  | _ =>
      p ← on_machine current;
      configured ← (match environment with
                    | Some _ => on_machine (configure_process (ps_pid p) None environment)
                    | None => mret (Ok tt)
                    end);
      match configured with
      | Err error => mret (as_process_error (Err error))
      | Ok _ => r ← exec_argv_image (ps_pid p) argv; mret (as_process_error r)
      end
  end.

End loading.

(** ** Launching with descriptor actions *)

Inductive SpawnFdAction :=
| SpawnClose (fd : Z)
| SpawnDup2 (source destination : Z)
| SpawnCloseFrom (minimum : Z)
| SpawnOpen (fd : Z) (path : string) (options : OpenFile) (mode : Z) (close_on_exec nonblocking : bool)
| SpawnChdir (path : string).

Record ProcessSpawn := MkProcessSpawn {
  pn_executable : string;
  pn_search_path : bool;
  pn_argv : list string;
  pn_environment : gmap string string;
  pn_actions : list SpawnFdAction;
  pn_signal_defaults : list Signal
}.

(** ** Interpreters *)

(** [str::from_utf8] accepts the bytes. *)
Fixpoint valid_utf8_fuel (fuel : nat) (data : bytes) : bool :=
  match fuel, data with
  | S fuel, _ :: _ => let '(n, valid) := decode_char data in valid && valid_utf8_fuel fuel (drop n data)
  | _, _ => true
  end.
Definition valid_utf8 (data : bytes) : bool := valid_utf8_fuel (length data) data.

Definition not_newline (b : Byte.byte) : bool := negb (bool_decide (b = Byte.x0a)).
Definition first_line (data : bytes) : bytes := take_while not_newline data.

(** [#!interpreter argument]: the interpreter and its argument, empty when there is none. *)
Definition shebang (line : bytes) : option (string * string) :=
  if negb (valid_utf8 line) then None
  else
    body ← strip_prefix "#!" (String.string_of_list_byte line);
    let chars := utf8_chars (trim body) in
    let word c := negb (is_whitespace c) in
    let interpreter := collect (take_while word chars) in
    let argument := trim (collect (drop 1 (drop_while word chars))) in
    if starts_with "/" interpreter then Some (interpreter, argument) else None.

Section spawn.
Context (format_seconds : Z → string) (NODE_SIZE REDIRECT_SIZE : Z).

(** Eight interpreters at most. *)
Fixpoint resolve_image_rounds (rounds : nat) (path : string) (argv : list string) : sys (string * list string) :=
  match rounds with
  | O => fail SysExecutableFormat
  | S rounds =>
      node ←? vfs_get (λ v, metadata v "/" path true);
      wasm ← (match nd_kind node with NativeExecutable _ => mret true | _ => is_wasm_executable path end);
      if wasm : bool then done_ (path, argv)
      else
        data ←? vfs_do (λ v, read_range v "/" path 0 4096);
        if (zlen data =? 4096) && negb (existsb (λ b, negb (not_newline b)) data) then fail SysExecutableFormat
        else
          match shebang (first_line data) with
          | None => fail SysExecutableFormat
          | Some (interpreter, argument) =>
              p ← current;
              lookup ← gets (λ m, resolve_executable_in (m_vfs m) (ps_cwd p) None interpreter);
              match lookup with
              | Found found =>
                  resolve_image_rounds rounds found
                    (found :: (if bool_decide (argument = "") then [] else [argument]) ++ path :: drop 1 argv)
              | LookupNotFound => fail (SysFile (NotFound interpreter))
              | NotExecutable _ => fail SysPermission
              end
          end
  end.
Definition resolve_spawn_image (path : string) (argv : list string) : sys (string * list string) :=
  granted ← charge (8 * 4096);
  if granted : bool then resolve_image_rounds 8 path argv else fail SysResourceExhausted.

(** ** Actions of the child *)

Fixpoint close_fds (fds : list Z) : sys unit :=
  match fds with [] => done_ tt | fd :: fds => _ ←? sys_close fd; close_fds fds end.

(** A method of the table alone. *)
Definition table_edit (f : FdTable → FdTable * result DescriptorError unit) : sys unit :=
  table_do (λ t a, let '(t, r) := f t in (t, a, r)).

Definition spawn_open (fd : Z) (path : string) (options : OpenFile) (mode : Z) (close_on_exec nonblocking : bool) : sys unit :=
  p ← current;
  let cwd := ps_cwd p in
  existed ← gets (λ m, is_ok (metadata (m_vfs m) cwd path true));
  _ ←? sys_open_file_at format_seconds fd cwd path options;
  p ← current;
  _ ←? (if of_create options && negb existed then vfs_do (λ v, vfs_chmod v cwd path (Z.ldiff mode (ps_umask p)))
        else done_ tt);
  _ ←? table_edit (λ t, set_close_on_exec t fd close_on_exec);
  description ←? process_fd fd;
  arena_do (λ a, set_nonblocking a description nonblocking).

Definition spawn_action (action : SpawnFdAction) : sys unit :=
  match action with
  | SpawnClose fd => sys_close fd
  | SpawnDup2 source destination =>
      _ ←? sys_duplicate source destination;
      table_edit (λ t, set_close_on_exec t destination false)
  | SpawnCloseFrom minimum =>
      p ← current;
      close_fds (filter (λ fd, minimum ≤ fd) (btree_keys (ft_entries (ps_fds p))))
  | SpawnOpen fd path options mode close_on_exec nonblocking => spawn_open fd path options mode close_on_exec nonblocking
  | SpawnChdir path => sys_chdir format_seconds path
  end.

Fixpoint spawn_actions (actions : list SpawnFdAction) : sys unit :=
  match actions with
  | [] => done_ tt
  | action :: actions => _ ←? spawn_action action; spawn_actions actions
  end.

(** [PWD] is what the environment gives, or it is not exported. *)
Definition supply_pwd (supplied : option string) (sh : ShellState) : ShellState :=
  match supplied with
  | Some value => set_vars sh (variables_insert (sh_vars sh) "PWD" value).1
  | None => set_bindings sh (sh_vars sh) (sh_arrays sh) (sh_exported sh ∖ {["PWD"]}) (sh_local_scopes sh) (sh_local_saved sh)
  end.

Definition default_signals (signals : list Signal) (g : SignalState) : SignalState :=
  MkSignalState (sg_pending g) (foldr delete (sg_dispositions g) signals) (sg_exit g) (sg_err g) (sg_err_active g)
    (sg_handling_error g) (sg_handling_signal g).

Definition DEFAULT_PATH : string := "/bin:/usr/bin".

Definition search_work (p : ProcessState) (requested : string) : Z :=
  if has_slash requested then str_len requested
  else
    let path_value := default DEFAULT_PATH (va_values (ps_vars p) !! "PATH") in
    sat_add64 (str_len path_value)
      (sat_mul64 (zlen (split_str ":" path_value)) (str_len requested + str_len (ps_cwd p) + 16)).

(** The executable of the child, run as the child. *)
Definition find_spawned (spec : ProcessSpawn) : sys string :=
  p ← current;
  let requested := if pn_search_path spec then pn_executable spec else resolve_against (ps_cwd p) (pn_executable spec) in
  granted ← charge (search_work p requested);
  if negb granted then fail SysResourceExhausted
  else
    lookup ← gets (λ m, resolve_executable_in (m_vfs m) (ps_cwd p) (va_values (ps_vars p) !! "PATH") requested);
    match lookup with
    | Found path => done_ path
    | LookupNotFound => fail (SysFile (NotFound requested))
    | NotExecutable _ => fail SysPermission
    end.

Definition as_process {A} (m : lifecycle A) : sys A := r ← m; mret (as_process_error r).

Definition setup_child (pid : Z) (spec : ProcessSpawn) : sys (string * list string) :=
  _ ←? as_process (configure_process pid None (Some (pn_environment spec)));
  _ ←? as_process (activate pid);
  _ ← update_current (λ p, with_shell p (supply_pwd (pn_environment spec !! "PWD") (ps_shell p)));
  _ ←? spawn_actions (pn_actions spec);
  _ ← update_current (λ p, with_signals p (default_signals (pn_signal_defaults spec) (ps_signals p)));
  executable ←? find_spawned spec;
  image ←? resolve_spawn_image executable (pn_argv spec);
  p ← current;
  _ ← processes_do (λ t, Process.update_current t pid (ps_cwd p) (child_env p));
  done_ image.

(** The child of a launch that failed goes, with what it held. *)
Definition discard_prepared (pid : Z) : mach unit :=
  child ← gets (λ m, m_states m !! pid);
  match child with
  | None => panic
  | Some child =>
      _ ← modify (λ m, set_states m (delete pid (m_states m)));
      _ ← close_child (ps_fds child);
      _ ← release_bytes (held_bytes child);
      discarded ← sched_do (λ c, discard_runnable c pid);
      match discarded with
      | Err _ => panic
      | Ok _ =>
          _ ← processes_do (λ t, process_exit t pid 125 (ps_cwd child));
          processes_do (λ t, (process_reap t pid).1)
      end
  end.

Definition launch_bytes (spec : ProcessSpawn) : Z :=
  sat_add64 (sat_mul64
    (foldl sat_add64 256 (map (λ arg, str_len arg + 32) (pn_argv spec) ++
       map (λ '(name, value), str_len name + str_len value + 128) (btree_iter (pn_environment spec)))) 2) 65536.

Definition opens_file (action : SpawnFdAction) : bool := match action with SpawnOpen _ _ _ _ _ _ => true | _ => false end.

Definition add_fork_bytes (n : Z) (p : ProcessState) : ProcessState :=
  let r := ps_reserved p in
  with_reserved p (MkReservations (rv_fork r + n) (rv_exec r) (rv_baseline r) (rv_state r) (rv_expansion r)).

(** [states.get_mut(&pid).expect(..)]. *)
Definition add_to_child (pid n : Z) : mach unit :=
  found ← gets (λ m, m_states m !! pid);
  match found with
  | None => panic
  | Some p => modify (λ m, set_states m (<[pid := add_fork_bytes n p]> (m_states m)))
  end.

Section launching.
Context {R N : Type} (launch : NativeLaunch → N).

Definition launch_child (pid : Z) (spec : ProcessSpawn) : stm (World R N) (result SyscallError unit) :=
  image ← on_machine (setup_child pid spec);
  match image with
  | Err error => mret (Err error)
  | Ok (executable, argv) =>
      r ← load_argv_program_from launch pid argv executable true; mret (as_process_error r)
  end.

Definition spawn_posix_child (spec : ProcessSpawn) : stm (World R N) (result SyscallError Z) :=
  if bool_decide (pn_argv spec = []) || (4096 <? str_len (pn_executable spec)) then mret (Err SysInvalidArgument)
  else
    let launch_memory := launch_bytes spec in
    let needs_snapshot := existsb opens_file (pn_actions spec) in
    snapshot_bytes ← on_machine (gets (λ m, if needs_snapshot then sat_mul64 (vf_disk_used (m_vfs m)) 2 else 0));
    reserved ← on_machine (reserve (sat_add64 snapshot_bytes launch_memory));
    if negb reserved then mret (Err SysResourceExhausted)
    else
      granted ← on_machine (charge (sat_add64 snapshot_bytes (zlen (pn_actions spec))));
      if negb granted then
        _ ← on_machine (release_bytes (sat_add64 snapshot_bytes launch_memory)); mret (Err SysResourceExhausted)
      else
        original ← on_machine (gets m_vfs);
        parent ← on_machine (gets m_active);
        created ← on_machine (create_child NODE_SIZE REDIRECT_SIZE (command_label (pn_argv spec)) true false false Inherit);
        match created with
        | Err error =>
            _ ← on_machine (release_bytes (sat_add64 snapshot_bytes launch_memory));
            mret (Err (SysProcess (lifecycle_error_display error)))
        | Ok pid =>
            _ ← on_machine (add_to_child pid launch_memory);
            setup ← launch_child pid spec;
            _ ← demand_ok (on_machine (activate parent));
            _ ← (match setup with
                 | Ok _ => mret tt
                 | Err _ =>
                     _ ← on_machine (discard_prepared pid);
                     on_machine (if needs_snapshot then modify (λ m, set_vfs m original) else mret tt)
                 end);
            _ ← on_machine (release_bytes snapshot_bytes);
            mret (match setup with Ok _ => Ok pid | Err error => Err error end)
        end.

End launching.
End spawn.
