(* ===== verification/CommandIo.v ===== *)
(** * Commands that run in the shell (src/src/commands/mod.rs, src/src/commands/util.rs)

    A command runs on the machine with two buffers for what it prints; its standard input is an
    argument. What it keeps when it is suspended is a [CommandResume]. *)

From S2P Require Import Prelude.
From S2P Require Import State.
From S2P Require Import RustStr.
From S2P Require Import Descriptors.
From S2P Require Import ProcessState.
From S2P Require Import ShellVars.
From S2P Require Import Machine.
From S2P Require Import ExpandText.
From S2P Require Import Expand.
From S2P Require Import ExecData.
From S2P Require Import ExecText.
From S2P Require Import ExecVars.
From S2P Require Import Images.

(** ** Running *)

Record Cmd := MkCmd { cm_machine : Machine; cm_out : bytes; cm_err : bytes }.

Abbreviation cmd := (stm Cmd).

Definition on_mach {A} (m : mach A) : cmd A := λ c,
  '(s, a) ← m (cm_machine c); Ret (MkCmd s (cm_out c) (cm_err c), a).
Definition print_bytes (data : bytes) : cmd unit := modify (λ c, MkCmd (cm_machine c) (cm_out c ++ data) (cm_err c)).
Definition wln (text : string) : cmd unit := print_bytes (to_bytes (text +:+ newline)).
Definition ewln (text : string) : cmd unit :=
  modify (λ c, MkCmd (cm_machine c) (cm_out c) (cm_err c ++ to_bytes (text +:+ newline))).

(** A diagnostic, and the status after it. *)
Definition complain {A} (text : string) (a : A) : cmd A := _ ← ewln text; mret a.

Definition sh_get {A} (f : ShellState → A) : cmd A := on_mach (shell_get f).
Definition sh_do (f : ShellState → ShellState) : cmd unit := on_mach (change_shell f).
Definition read_var (name : string) : cmd (option string) := on_mach (mach_var name).
Definition assign_var (name value : string) : cmd unit := on_mach (on_context (λ p, (set_var p name value, tt))).
Definition cwd_of : cmd string := on_mach (p ← current; mret (ps_cwd p)).

(** [?] on the results of commands. *)
Definition attempt {St E A B} (k : A → stm St (result E B)) (m : stm St (result E A)) : stm St (result E B) :=
  r ← m; match r with Ok a => k a | Err error => mret (Err error) end.

Notation "x ←+ y ; z" := (attempt (λ x : _, z) y)
  (at level 20, y at level 100, z at level 200, only parsing) : stdpp_scope.

(** Every argument in turn; the status is that of the last that failed. *)
Fixpoint each_argument (body : string → cmd (option Z)) (arguments : list string) (status : Z) : cmd Z :=
  match arguments with
  | [] => mret status
  | argument :: arguments => failed ← body argument; each_argument body arguments (default status failed)
  end.

(** ** Suspended commands *)

Inductive CommandResume :=
| ResumeFileLock (fd : Z) (mode : option FileLockMode) (nonblocking : bool)
| ResumeWait (pids : list Z) (status : Z) (explicit : bool)
| ResumeForeground (pid : Z)
| ResumeChildSequence (pid : Z) (remaining : list SpawnSpec) (status : Z) (stop_on_error : bool).

Abbreviation cmd_poll_result := (CommandPoll CommandResume).

(** ** Fields of a shell *)

Section fields.
Context (sh : ShellState).

Definition set_tables (readonly options : gset string) (command_hash : gmap string string)
    (directory_stack : list string) (aliases : gmap string AliasDefinition) (input_pos : Z) : ShellState :=
  MkShell (sh_vars sh) (sh_arrays sh) (sh_exported sh) readonly options command_hash directory_stack (sh_funcs sh)
    (sh_local_scopes sh) aliases (sh_last_status sh) (sh_random sh) (sh_arg0 sh) (sh_positional sh) (sh_getopts sh)
    (sh_flags sh) (sh_expansion_error sh) (sh_expansion_depth sh) (sh_jobs sh) (sh_next_job sh) (sh_control sh)
    (sh_input sh) input_pos (sh_local_saved sh) (sh_frame_saved sh).

Definition set_readonly (readonly : gset string) : ShellState :=
  set_tables readonly (sh_options sh) (sh_command_hash sh) (sh_directory_stack sh) (sh_aliases sh) (sh_input_pos sh).
Definition set_shopts (options : gset string) : ShellState :=
  set_tables (sh_readonly sh) options (sh_command_hash sh) (sh_directory_stack sh) (sh_aliases sh) (sh_input_pos sh).
Definition set_command_hash (hash : gmap string string) : ShellState :=
  set_tables (sh_readonly sh) (sh_options sh) hash (sh_directory_stack sh) (sh_aliases sh) (sh_input_pos sh).
Definition set_directory_stack (stack : list string) : ShellState :=
  set_tables (sh_readonly sh) (sh_options sh) (sh_command_hash sh) stack (sh_aliases sh) (sh_input_pos sh).
Definition set_aliases (aliases : gmap string AliasDefinition) : ShellState :=
  set_tables (sh_readonly sh) (sh_options sh) (sh_command_hash sh) (sh_directory_stack sh) aliases (sh_input_pos sh).
Definition set_input_pos (pos : Z) : ShellState :=
  set_tables (sh_readonly sh) (sh_options sh) (sh_command_hash sh) (sh_directory_stack sh) (sh_aliases sh) pos.

End fields.

(** [text.trim_matches(c)]. *)
Definition trim_matches (c : ascii) (s : string) : string := trim_end_char c (trim_start_char c s).
Definition unquote (s : string) : string := trim_matches squote_byte (trim_matches dquote_byte s).

(** [action.replace('\'', r"'\''")]. *)
Definition shell_quote (text : string) : string := "'" +:+ replace_all "'" "'\''" text +:+ "'".

(** [str::split_whitespace]. *)
Fixpoint split_whitespace (word : string) (chars : list string) : list string :=
  let finish := if bool_decide (word = "") then [] else [word] in
  match chars with
  | [] => finish
  | c :: chars => if is_whitespace c then finish ++ split_whitespace "" chars else split_whitespace (word +:+ c) chars
  end.
Definition whitespace_words (s : string) : list string := split_whitespace "" (utf8_chars s).
