(* ===== verification/BuiltinVars.v ===== *)
(** * Builtins on variables and options (src/src/commands/builtins.rs)

    [readonly], [export], [unset], [declare], [local], [set], [shift], [let] and [getopts]. *)

From stdpp Require Import pretty.
From S2P Require Import Prelude.
From S2P Require Import RustStr.
From S2P Require Import Arith.
From S2P Require Import State.
From S2P Require Import Variables.
From S2P Require Import ProcessState.
From S2P Require Import ShellVars.
From S2P Require Import Machine.
From S2P Require Import ExpandText.
From S2P Require Import Expand.
From S2P Require Import ExecData.
From S2P Require Import ExecText.
From S2P Require Import ExecVars.
From S2P Require Import ExecPrep.
From S2P Require Import Images.
From S2P Require Import CommandIo.

(** ** Operands *)

(** The name of [NAME], [NAME=..], [NAME[i]=..], [NAME+=..]. *)
Definition declare_name_of (a : string) : string :=
  let lhs := match split_once "="%char a with Some (lhs, _) => lhs | None => a end in
  before_bracket (default lhs (strip_suffix "+" lhs)).

Definition split_decl_assign (a : string) : option (string * string) := split_once "="%char a.

Definition is_readonly_name (name : string) : cmd bool := sh_get (λ sh, bool_decide (name ∈ sh_readonly sh)).

(** [vars.remove(name)]. *)
Definition remove_var (name : string) : cmd unit := sh_do (λ sh, set_vars sh (variables_remove (sh_vars sh) name).1).

(** ** Declarations *)

Definition declared_element (sh : ShellState) (name key : string) : string :=
  "[" +:+ key +:+ "]=" +:+ dquote +:+ default "" (array_get sh name key) +:+ dquote.

Definition print_declared (name : string) : cmd unit :=
  array ← sh_get (λ sh, array_value sh name);
  let print_array flag :=
    elements ← sh_get (λ sh, map (declared_element sh name) (array_keys sh name));
    wln ("declare " +:+ flag +:+ " " +:+ name +:+ "=(" +:+ String.concat " " elements +:+ ")") in
  match array with
  | Some (Indexed _) => print_array "-a"
  | Some (Assoc _) => print_array "-A"
  | None =>
      value ← read_var name;
      match value with
      | Some value => wln ("declare -- " +:+ name +:+ "=" +:+ dquote +:+ value +:+ dquote)
      | None => mret tt
      end
  end.

Section expanding.
Context (engine : TextEngine).

Definition assign_operand (key value : string) : cmd unit := on_mach (apply_assignment engine key value).

(** [readonly]. *)
Fixpoint print_readonly (names : list string) : cmd unit :=
  match names with
  | [] => mret tt
  | name :: names =>
      value ← read_var name;
      _ ← wln ("declare -r " +:+ name +:+ "=" +:+ dquote +:+ default "" value +:+ dquote);
      print_readonly names
  end.

Definition mark_readonly (argument : string) : cmd (option Z) :=
  if starts_with "-" argument then complain ("readonly: unsupported option " +:+ argument) (Some 2)
  else
    let name := declare_name_of argument in
    let mark := _ ← sh_do (λ sh, set_readonly sh ({[name]} ∪ sh_readonly sh)); mret None in
    if negb (shell_identifier name) then complain ("readonly: " +:+ name +:+ ": not a valid identifier") (Some 1)
    else
      match split_decl_assign argument with
      | Some (key, value) =>
          readonly ← is_readonly_name name;
          if readonly : bool then complain ("readonly: " +:+ name +:+ ": readonly variable") (Some 1)
          else _ ← assign_operand key value; mark
      | None =>
          value ← read_var name;
          array ← sh_get (λ sh, is_array sh name);
          _ ← (match value with None => if array : bool then mret tt else assign_var name "" | Some _ => mret tt end);
          mark
      end.

Definition cmd_readonly (args : list string) : cmd Z :=
  if bool_decide (args = []) || bool_decide (args = ["-p"]) then
    names ← sh_get (λ sh, string_set_iter (sh_readonly sh));
    _ ← print_readonly names;
    mret 0
  else each_argument mark_readonly (filter (λ a, a ≠ "--") args) 0.

(** [declare], also called [typeset]. *)
Record DeclareFlags := MkDeclareFlags { df_assoc : bool; df_indexed : bool; df_print : bool }.

Definition declare_flags (f : DeclareFlags) (letters : string) : DeclareFlags :=
  MkDeclareFlags (df_assoc f || str_contains "A" letters) (df_indexed f || str_contains "a" letters)
    (df_print f || str_contains "p" letters).

Definition declare_value (argument : string) : cmd unit :=
  match split_decl_assign argument with
  | None => mret tt
  | Some (key, value) =>
      if is_array_assign_word argument then assign_operand key value else assign_var key (unquote value)
  end.

(** One operand; a readonly one fails. *)
Definition declare_operand (f : DeclareFlags) (argument : string) : cmd (option Z) :=
  let name := declare_name_of argument in
  readonly ← is_readonly_name name;
  if readonly && bool_decide (is_Some (split_decl_assign argument)) then
    complain ("declare: " +:+ name +:+ ": readonly variable") (Some 1)
  else
    _ ← (if df_assoc f then sh_do (λ sh, declare_assoc sh name)
         else if df_indexed f then sh_do (λ sh, ensure_indexed sh name) else mret tt);
    _ ← (if df_print f then print_declared name else declare_value argument);
    mret None.

Fixpoint declare_each (f : DeclareFlags) (args : list string) (status : Z) : cmd Z :=
  match args with
  | [] => mret status
  | a :: args =>
      if bool_decide (a = "--") then declare_each f args status
      else if starts_with "-" a && (1 <? str_len a) then declare_each (declare_flags f a) args status
      else failed ← declare_operand f a; declare_each f args (default status failed)
  end.
Definition cmd_declare (args : list string) : cmd Z := declare_each (MkDeclareFlags false false false) args 0.

Fixpoint declare_locals (args : list string) : cmd unit :=
  match args with
  | [] => mret tt
  | argument :: args => _ ← sh_do (λ sh, declare_local sh (declare_name_of argument)); declare_locals args
  end.
Definition cmd_local (args : list string) : cmd Z :=
  inside ← sh_get in_function_scope;
  if negb inside then complain "local: can only be used in a function" 1
  else _ ← declare_locals (filter (λ a, starts_with "-" a = false) args); cmd_declare args.

End expanding.

(** [export]. *)
Definition export_name (name : string) : cmd unit := sh_do (λ sh, export_var sh name).
Definition export_argument (a : string) : cmd (option Z) :=
  match split_once "="%char a with
  | None => _ ← export_name a; mret None
  | Some (k, v) =>
      readonly ← is_readonly_name k;
      if readonly : bool then complain ("export: " +:+ k +:+ ": readonly variable") (Some 1)
      else _ ← assign_var k v; _ ← export_name k; mret None
  end.
Definition cmd_export (args : list string) : cmd Z := each_argument export_argument args 0.

(** [unset]. *)
Definition forget (name : string) (sh : ShellState) : ShellState :=
  let sh := set_bindings sh (variables_remove (sh_vars sh) name).1 (arrays_remove (sh_arrays sh) name).1
              (sh_exported sh ∖ {[name]}) (sh_local_scopes sh) (sh_local_saved sh) in
  set_funcs sh (delete name (sh_funcs sh)).

(** [name[key]]: the key is what is between the first bracket and the last one. *)
Definition element_operand (a : string) : option (string * string) :=
  '(name, rest) ← split_once "["%char a; key ← strip_suffix "]" rest; Some (name, key).

Definition unset_argument (a : string) : cmd (option Z) :=
  let name := match element_operand a with Some (name, _) => name | None => a end in
  readonly ← is_readonly_name name;
  if readonly : bool then complain ("unset: " +:+ name +:+ ": readonly variable") (Some 1)
  else
    _ ← sh_do (λ sh, match element_operand a with
                     | Some (name, key) => array_unset_elem sh name (unquote key)
                     | None => forget a sh
                     end);
    mret None.
Definition cmd_unset (args : list string) : cmd Z :=
  each_argument unset_argument (filter (λ a, a ≠ "-v" ∧ a ≠ "-f") args) 0.

(** ** Options and positional parameters *)

Definition set_positionals (args : list string) : cmd unit := sh_do (λ sh, set_positional sh (positional_from args)).
Definition on_flags (f : Options → Options) : cmd unit := sh_do (λ sh, set_flags sh (f (sh_flags sh))).

(** [set -o NAME]; there is no [xtrace] here. *)
Definition set_option (name : string) (enable : bool) : option (Options → Options) :=
  if bool_decide (name = "pipefail") then Some (λ o, op_with_pipefail o enable)
  else if bool_decide (name = "errexit") then Some (λ o, op_with_errexit o enable)
  else if bool_decide (name = "errtrace") then Some (λ o, op_with_errtrace o enable)
  else if bool_decide (name = "nounset") then Some (λ o, op_with_nounset o enable)
  else None.

Definition xtrace_unimplemented {A} : cmd (result Z A) := complain "set: xtrace is unimplemented" (Err 2).

(** The letters after a sign; an [o] takes [pipefail] from the arguments. *)
Fixpoint set_letters (letters : list string) (enable : bool) (args : list string) : cmd (result Z (list string)) :=
  match letters with
  | [] => mret (Ok args)
  | option :: letters =>
      let on l := bool_decide (option = l) in
      if on "e" then _ ← on_flags (λ o, op_with_errexit o enable); set_letters letters enable args
      else if on "E" then _ ← on_flags (λ o, op_with_errtrace o enable); set_letters letters enable args
      else if on "u" then _ ← on_flags (λ o, op_with_nounset o enable); set_letters letters enable args
      else if on "x" then xtrace_unimplemented
      else if on "o" then
        if bool_decide (head args = Some "pipefail") then
          _ ← on_flags (λ o, op_with_pipefail o enable); set_letters letters enable (drop 1 args)
        else complain "set: option name required after -o" (Err 2)
      else complain ("set: unimplemented option '-" +:+ option +:+ "'") (Err 2)
  end.

(** [-o NAME] and [+o NAME]; without a name they do nothing. *)
Definition set_named (enable : bool) (args : list string) : cmd (result Z (list string)) :=
  match args with
  | [] => mret (Ok [])
  | opt :: args =>
      match set_option opt enable with
      | Some f => _ ← on_flags f; mret (Ok args)
      | None => complain ("set: unimplemented option '" +:+ opt +:+ "'") (Err 2)
      end
  end.

(** One word: the words still to be looked at, none when what follows are parameters. *)
Definition set_word (a : string) (args : list string) : cmd (result Z (list string)) :=
  match a with
  | String sign letters =>
      if bool_decide (sign = "-"%char) || bool_decide (sign = "+"%char) then
        let enable := bool_decide (sign = "-"%char) in
        if bool_decide (letters = "o") then set_named enable args
        else if bool_decide (a = "--") then _ ← set_positionals args; mret (Ok [])
        else set_letters (utf8_chars letters) enable args
      else _ ← set_positionals (a :: args); mret (Ok [])
  | EmptyString => _ ← set_positionals (a :: args); mret (Ok [])
  end.

(** Every round takes a word. *)
Fixpoint set_words (fuel : nat) (args : list string) : cmd Z :=
  match fuel, args with
  | S fuel, a :: args =>
      r ← set_word a args;
      match r with Ok rest => set_words fuel rest | Err status => mret status end
  | _, _ => mret 0
  end.
Definition cmd_set (args : list string) : cmd Z := set_words (length args) args.

Definition cmd_shift (args : list string) : cmd Z :=
  match (match args with value :: _ => parse_unsigned U64_MAX value | [] => Some 1 end) with
  | None => mret 1
  | Some n =>
      count ← sh_get (λ sh, zlen (po_values (sh_positional sh)));
      if count <? n then mret 1
      else _ ← sh_do (λ sh, set_positional sh (positional_shift (sh_positional sh) n)); mret 0
  end.

(** ** Arithmetic *)

Fixpoint let_each (expressions : list string) (last : Z) : cmd Z :=
  match expressions with
  | [] => mret (if last =? 0 then 1 else 0)
  | expression :: expressions =>
      r ← on_mach (mach_arith expression);
      match r with
      | Ok value => let_each expressions value
      | Err error => complain ("let: " +:+ describe error expression) 1
      end
  end.
Definition cmd_let (args : list string) : cmd Z :=
  match args with [] => complain "let: expression expected" 1 | _ => let_each args 0 end.

(** ** [getopts] *)

Definition getopts_state : cmd (Z * Z) := sh_get sh_getopts.
Definition put_getopts (optind offset : Z) : cmd unit := sh_do (λ sh, set_getopts sh (optind, offset)).

(** [set_getopts_optind]: the variable is stored as it is, without restarting. *)
Definition set_getopts_optind : cmd unit := sh_do (λ sh,
  set_vars sh (variables_insert (sh_vars sh) "OPTIND" (pretty (sh_getopts sh).1)).1).

(** The next letter, or the next word when the letters are used up. *)
Definition advance_getopts (argument_length : Z) : cmd unit :=
  '(optind, offset) ← getopts_state;
  if argument_length <=? offset + 1 then put_getopts (optind + 1) 1 else put_getopts optind (offset + 1).

(** [OPTIND] as the script sees it; when it was changed, the scan starts there. *)
Definition sync_getopts : cmd unit :=
  value ← read_var "OPTIND";
  let visible := match value ≫= parse_unsigned U64_MAX with Some n => if 0 <? n then n else 1 | None => 1 end in
  '(optind, _) ← getopts_state;
  if visible =? optind then mret tt else put_getopts visible 1.

(** No more options. *)
Definition end_of_options : cmd Z := _ ← set_getopts_optind; mret 1.

(** An option the specification does not have. *)
Definition illegal_option (silent : bool) (name letter : string) (width : Z) : cmd Z :=
  _ ← advance_getopts width;
  _ ← (if silent then assign_var "OPTARG" letter else remove_var "OPTARG");
  _ ← assign_var name "?";
  _ ← set_getopts_optind;
  _ ← (if silent then mret tt else ewln ("getopts: illegal option -- " +:+ letter));
  mret 0.

Definition plain_option (name letter : string) (width : Z) : cmd Z :=
  _ ← advance_getopts width;
  _ ← remove_var "OPTARG";
  _ ← assign_var name letter;
  _ ← set_getopts_optind;
  mret 0.

Definition missing_argument (silent : bool) (name letter : string) (optind : Z) : cmd Z :=
  _ ← put_getopts (optind + 1) 1;
  _ ← set_getopts_optind;
  _ ← assign_var name (if silent then ":" else "?");
  _ ← (if silent then assign_var "OPTARG" letter
       else _ ← remove_var "OPTARG"; ewln ("getopts: option requires an argument -- " +:+ letter));
  mret 0.

(** The argument of an option: the rest of its word or the next operand. *)
Definition option_argument (silent : bool) (name letter inline : string) (next : option string) : cmd Z :=
  '(optind, offset) ← getopts_state;
  let found := if bool_decide (inline = "") then (value ← next; Some (value, optind + 2)) else Some (inline, optind + 1) in
  match found with
  | None => missing_argument silent name letter optind
  | Some (value, optind) =>
      _ ← put_getopts optind 1;
      _ ← assign_var "OPTARG" value;
      _ ← assign_var name letter;
      _ ← set_getopts_optind;
      mret 0
  end.

(** The option letter at [offset] of [argument]. *)
Definition scan_option (optstring name argument : string) (next : option string) (offset : Z) : cmd Z :=
  let characters := utf8_chars argument in
  match (if starts_with "-" argument && negb (bool_decide (argument = "-")) then characters !! Z.to_nat offset else None) with
  | None => end_of_options
  | Some letter =>
      let silent := starts_with ":" optstring in
      let specification := utf8_chars (trim_start_char ":"%char optstring) in
      match drop_while (λ candidate, negb (bool_decide (candidate = letter))) specification with
      | [] => illegal_option silent name letter (zlen characters)
      | _ :: more =>
          if bool_decide (head more = Some ":") then
            option_argument silent name letter (collect (drop (Z.to_nat (offset + 1)) characters)) next
          else plain_option name letter (zlen characters)
      end
  end.

Definition cmd_getopts (args : list string) : cmd Z :=
  match args with
  | optstring :: name :: arguments =>
      operands ← (match arguments with [] => sh_get (λ sh, po_values (sh_positional sh)) | _ => mret arguments end);
      _ ← sync_getopts;
      '(optind, offset) ← getopts_state;
      match drop (Z.to_nat (optind - 1)) operands with
      | [] => end_of_options
      | argument :: following =>
          if bool_decide (argument = "--") then _ ← put_getopts (optind + 1) 1; end_of_options
          else scan_option optstring name argument (head following) offset
      end
  | _ => complain "getopts: usage: getopts optstring name [arg ...]" 2
  end.
