(* ===== verification/BuiltinTest.v ===== *)
(** * [test] (src/src/commands/builtins.rs, src/src/commands/util.rs)

    [test], [[] and [[[]: an expression of primaries under [!], [-a] and [-o], with parentheses.
    Each level scans its operands, which is charged, and levels are bounded. *)

From S2P Require Import Prelude.
From S2P Require Import RustStr.
From S2P Require Import State.
From S2P Require Import Resources.
From S2P Require Import Vfs.
From S2P Require Import ShellParser.
From S2P Require Import ProcessState.
From S2P Require Import ShellVars.
From S2P Require Import Machine.
From S2P Require Import PseudoFs.
From S2P Require Import ExpandText.
From S2P Require Import Expand.
From S2P Require Import Kernel.
From S2P Require Import ExecData.
From S2P Require Import ExecText.
From S2P Require Import ExecVars.
From S2P Require Import CommandIo.

(** [num]. *)
Definition num (s : string) : Z := default 0 (parse_i64 (trim s)).

(** [glob_eq]: the whole text matches the pattern. *)
Definition glob_eq_specials : list string := ["."; "+"; "("; ")"; "|"; "^"; "$"; "\"].
Definition glob_eq_char (c : string) : string :=
  if bool_decide (c = "*") then ".*" else if bool_decide (c = "?") then "."
  else if bool_decide (c ∈ glob_eq_specials) then "\" +:+ c else c.
Definition glob_eq (regex : string → option (string → bool)) (pattern text : string) : bool :=
  if negb (str_contains "*" pattern) && negb (str_contains "?" pattern) && negb (str_contains "[" pattern)
  then bool_decide (pattern = text)
  else match regex ("^" +:+ collect (map glob_eq_char (utf8_chars pattern)) +:+ "$") with
       | Some is_match => is_match text
       | None => false
       end.

Inductive TestError := TestTooDeep | TestStopped.
Abbreviation tested A := (stm Machine (result TestError A)).

Definition is_and (token : string) : bool := bool_decide (token = "-a") || bool_decide (token = "&&").
Definition is_or (token : string) : bool := bool_decide (token = "-o") || bool_decide (token = "||").

(** How many parentheses are open after a token. *)
Definition paren_depth (depth : Z) (token : string) : Z :=
  if bool_decide (token = "(") then depth + 1 else if bool_decide (token = ")") then depth - 1 else depth.

(** The first operator outside parentheses: what is before it, and after it. *)
Fixpoint split_operator (operator : string → bool) (depth : Z) (args : list string) : option (list string * list string) :=
  match args with
  | [] => None
  | token :: args =>
      if negb (bool_decide (token = "(")) && negb (bool_decide (token = ")")) && (depth =? 0) && operator token
      then Some ([], args)
      else '(l, r) ← split_operator operator (paren_depth depth token) args; Some (token :: l, r)
  end.
Definition top_level_test_operator (operator : string → bool) (args : list string) : option (list string * list string) :=
  split_operator operator 0 args.

(** Whether the first parenthesis stays open up to the last token. *)
Fixpoint wraps_all (depth : Z) (args : list string) : bool :=
  match args with
  | [] => true
  | token :: args => let depth := paren_depth depth token in (bool_decide (args = []) || (0 <? depth)) && wraps_all depth args
  end.

(** The work of scanning the operands. *)
Definition charge_scan (args : list string) : tested unit :=
  granted ← charge (zlen args); mret (if granted : bool then Ok tt else Err TestStopped).

Definition enclosed_by_parens (args : list string) : bool :=
  bool_decide (head args = Some "(") && bool_decide (last args = Some ")").

(** Every round takes two tokens away. *)
Fixpoint strip_parens_fuel (fuel : nat) (args : list string) : tested (list string) :=
  match fuel with
  | O => out_of_fuel
  | S fuel =>
      if enclosed_by_parens args then
        _ ←+ charge_scan args;
        if wraps_all 0 args then strip_parens_fuel fuel (removelast (tail args)) else mret (Ok args)
      else mret (Ok args)
  end.
Definition strip_test_parens (args : list string) : tested (list string) := strip_parens_fuel (S (length args)) args.

Section test.
Context (format_seconds : Z → string) (engine : TextEngine).
(** [Regex::new(pattern).captures(text)]: the texts of the groups, empty for a group that took no part. *)
Context (captures : string → option (string → option (list string))).

Definition node_of (path : string) (follow : bool) : mach (option Vfs.Node) :=
  p ← current; r ← fs_metadata format_seconds (ps_cwd p) path follow; mret (ok r).

Definition fs_file_len (cwd path : string) : sys Z :=
  pseudo ← in_pseudo (λ m p, pseudo_read format_seconds m p cwd path);
  match pseudo with
  | Some r => data ←? mret (from_file r); done_ (zlen data)
  | None => vfs_get (λ v, file_len v cwd path)
  end.

Definition node_is (path : string) (follow : bool) (f : Vfs.Node → bool) : mach bool :=
  node ← node_of path follow; mret match node with Some node => f node | None => false end.

Definition has_mode (bits : Z) (node : Vfs.Node) : bool := negb (Z.land (nd_mode node) bits =? 0).
Definition is_file_node (node : Vfs.Node) : bool := match nd_kind node with File _ => true | _ => false end.
Definition is_dir_kind (node : Vfs.Node) : bool := match nd_kind node with Dir => true | _ => false end.
Definition is_symlink_node (node : Vfs.Node) : bool := match nd_kind node with Symlink _ => true | _ => false end.

(** Two operands: a primary; any other pair is true when its first is not empty. *)
Definition test_unary (op x : string) : mach bool :=
  let on name := bool_decide (op = name) in
  if on "-z" then mret (bool_decide (x = ""))
  else if on "-n" then mret (negb (bool_decide (x = "")))
  else if on "-e" || on "-a" then node_is x true (λ _, true)
  else if on "-f" then node_is x true is_file_node
  else if on "-d" then node_is x true is_dir_kind
  else if on "-s" then
    p ← current; size ← fs_file_len (ps_cwd p) x; mret match size with Ok n => 0 <? n | Err _ => false end
  else if on "-r" then node_is x true (has_mode 292)
  else if on "-w" then node_is x true (has_mode 146)
  else if on "-x" then node_is x true (has_mode 73)
  else if on "-L" || on "-h" then node_is x false is_symlink_node
  else if on "-v" then
    value ← mach_var x;
    array ← shell_get (λ sh, is_array sh x);
    mret (bool_decide (is_Some value) || array)
  else mret (negb (bool_decide (op = ""))).

(** [=~] stores what the groups matched. *)
Definition test_regex (x y : string) : mach bool :=
  match captures y with
  | None => mret false
  | Some find =>
      let groups := find x in
      _ ← change_shell (λ sh, set_array sh "BASH_REMATCH" (default [] groups));
      mret (bool_decide (is_Some groups))
  end.

Definition newer (later earlier : option Vfs.Node) : bool :=
  match later, earlier with
  | Some l, Some e => nd_mtime e <? nd_mtime l
  | Some _, None => true
  | None, _ => false
  end.

Definition test_binary (x op y : string) : mach bool :=
  let on name := bool_decide (op = name) in
  if on "=" || on "==" then mret (glob_eq (te_regex engine) y x)
  else if on "!=" then mret (negb (glob_eq (te_regex engine) y x))
  else if on "-eq" then mret (num x =? num y)
  else if on "-ne" then mret (negb (num x =? num y))
  else if on "-lt" then mret (num x <? num y)
  else if on "-le" then mret (num x <=? num y)
  else if on "-gt" then mret (num y <? num x)
  else if on "-ge" then mret (num y <=? num x)
  else if on "<" then mret (String.ltb x y)
  else if on ">" then mret (String.ltb y x)
  else if on "=~" then test_regex x y
  else if on "-nt" then left ← node_of x true; right ← node_of y true; mret (newer left right)
  else if on "-ot" then left ← node_of x true; right ← node_of y true; mret (newer right left)
  else mret false.

(** An expression without operators. *)
Definition test_primary (a : list string) : mach bool :=
  match a with
  | [] => mret false
  | [x] => mret (negb (bool_decide (x = "")))
  | [op; x] => test_unary op x
  | [x; op; y] => test_binary x op y
  | _ => mret false
  end.

(** [levels] of nesting are left. *)
Fixpoint eval_test (levels : nat) (a : list string) : tested bool :=
  match levels with
  | O => mret (Err TestTooDeep)
  | S levels =>
      a ←+ strip_test_parens a;
      _ ←+ charge_scan a;
      match top_level_test_operator is_or a with
      | Some (l, r) => b ←+ eval_test levels l; if b : bool then mret (Ok true) else eval_test levels r
      | None =>
          match top_level_test_operator is_and a with
          | Some (l, r) => b ←+ eval_test levels l; if b : bool then eval_test levels r else mret (Ok false)
          | None =>
              if bool_decide (head a = Some "!") then b ←+ eval_test levels (tail a); mret (Ok (negb b))
              else b ← test_primary a; mret (Ok b)
          end
      end
  end.

Definition integer_operators : list string := ["-eq"; "-ne"; "-lt"; "-le"; "-gt"; "-ge"].
Definition integer_expected (a : list string) : bool :=
  match a with
  | [x; op; y] =>
      bool_decide (op ∈ integer_operators) &&
      (bool_decide (parse_i64 (trim x) = None) || bool_decide (parse_i64 (trim y) = None))
  | _ => false
  end.

Definition eval_test_cmd (name : string) (args : list string) : cmd Z :=
  let expected := if bool_decide (name = "[[") then "]]" else "]" in
  let closed := bool_decide (last args = Some expected) in
  if negb closed && (bool_decide (name = "[") || bool_decide (name = "[[")) then
    complain (name +:+ ": missing '" +:+ expected +:+ "'") 2
  else
    let a := if closed then removelast args else args in
    if integer_expected a then complain (name +:+ ": integer expression expected") 2
    else
      r ← on_mach (eval_test MAX_SYNTAX_DEPTH a);
      match r with
      | Ok true => mret 0
      | Ok false => mret 1
      | Err TestTooDeep => complain (name +:+ ": expression is nested too deeply") 2
      | Err TestStopped => mret 2
      end.

Definition cmd_test (args : list string) : cmd Z := eval_test_cmd "test" args.
Definition cmd_bracket (args : list string) : cmd Z := eval_test_cmd "[" args.
Definition cmd_dbracket (args : list string) : cmd Z := eval_test_cmd "[[" args.

End test.
