(* ===== verification/BuiltinRead.v ===== *)
(** * [read] and [mapfile] (src/src/commands/builtins.rs)

    A record is read up to its delimiter and split at IFS into variables; [mapfile] reads all the
    records of its input into an array. *)

From stdpp Require Import pretty.
From S2P Require Import Prelude.
From S2P Require Import RustStr.
From S2P Require Import State.
From S2P Require Import Descriptors.
From S2P Require Import ProcessState.
From S2P Require Import ShellVars.
From S2P Require Import Machine.
From S2P Require Import ExpandText.
From S2P Require Import Expand.
From S2P Require Import Kernel.
From S2P Require Import ExecData.
From S2P Require Import ExecText.
From S2P Require Import ExecVars.
From S2P Require Import Boot.
From S2P Require Import CommandIo.

(** ** Records *)

Definition escape_byte : Byte.byte := Byte.x5c.
Definition null_byte : Byte.byte := Byte.x00.
Definition newline_byte : Byte.byte := Byte.x0a.

(** What has been read of a record: its bytes, whether the next is escaped, whether it ended. *)
Record RecordScan := MkScan { rs_record : bytes; rs_escaped : bool; rs_terminated : bool }.

Definition scan_byte (delimiter : Byte.byte) (raw : bool) (r : RecordScan) (b : Byte.byte) : RecordScan :=
  let keep := if bool_decide (b = null_byte) then rs_record r else rs_record r ++ [b] in
  if rs_escaped r then MkScan (if bool_decide (b = newline_byte) then rs_record r else keep) false false
  else if bool_decide (b = delimiter) then MkScan (rs_record r) false true
  else if negb raw && bool_decide (b = escape_byte) then MkScan (rs_record r) true false
  else MkScan keep false false.

(** The next byte: of the buffered input, or of the shell's input, or of descriptor 0. *)
Definition next_input (cursor : Z) (stdin : bytes) : mach (option Byte.byte) :=
  match stdin with
  | _ :: _ => mret (stdin !! Z.to_nat cursor)
  | [] =>
      sh ← shell_get id;
      if sh_input_pos sh <? zlen (sh_input sh) then
        _ ← change_shell (λ sh, set_input_pos sh (sh_input_pos sh + 1));
        match sh_input sh !! Z.to_nat (sh_input_pos sh) with Some b => mret (Some b) | None => panic end
      else
        r ← read_fd_checked 0 1;
        mret match r with Ok (Ready data) => head data | _ => None end
  end.

Definition record_step (delimiter : Byte.byte) (raw : bool) (stdin : bytes) (state : Z * RecordScan)
    : mach ((Z * RecordScan) * bool) :=
  let '(cursor, scan) := state in
  if MAX_CAPTURE_BYTES <=? cursor then mret (state, false)
  else
    b ← next_input cursor stdin;
    mret match b with
         | None => (state, false)
         | Some b => let scan := scan_byte delimiter raw scan b in ((cursor + 1, scan), negb (rs_terminated scan))
         end.

(** One round per byte; [MAX_CAPTURE_BYTES] of them at most. *)
Definition read_one_record (stdin : bytes) (delimiter : Byte.byte) (raw : bool) : mach (string * bool) :=
  '(_, scan) ← loop (S (Z.to_nat MAX_CAPTURE_BYTES)) (record_step delimiter raw stdin) (0, MkScan [] false false);
  mret (from_utf8_lossy (rs_record scan), rs_terminated scan).

(** ** Fields *)

Definition ifs_blank (c : string) : bool := bool_decide (c = " ") || bool_decide (c = tab) || bool_decide (c = newline).

(** [after]: the last character was white space of IFS. *)
Fixpoint split_record (ifs : list string) (field : string) (after : bool) (chars : list string) : list string :=
  let finish := if bool_decide (field = "") then [] else [field] in
  match chars with
  | [] => finish
  | c :: chars =>
      if bool_decide (c ∈ ifs) && ifs_blank c then finish ++ split_record ifs "" true chars
      else if bool_decide (c ∈ ifs) then
        (if bool_decide (field = "") then if after then [] else [""] else [field]) ++ split_record ifs "" false chars
      else split_record ifs (field +:+ c) false chars
  end.
Definition split_read_fields (line ifs : string) : list string := split_record (utf8_chars ifs) "" false (utf8_chars line).

Definition ifs_or_default : cmd string := ifs ← read_var "IFS"; mret (default default_ifs ifs).

(** Each name gets a field, the last one what is left. *)
Fixpoint assign_fields (separator : string) (names parts : list string) : cmd unit :=
  match names with
  | [] => mret tt
  | [name] => assign_var name (String.concat separator parts)
  | name :: names => _ ← assign_var name (default "" (head parts)); assign_fields separator names (tail parts)
  end.

Fixpoint assign_empty (names : list string) : cmd unit :=
  match names with [] => mret tt | name :: names => _ ← assign_var name ""; assign_empty names end.

Definition assign_record (o : ReadOptions) (line : string) : cmd unit :=
  ifs ← ifs_or_default;
  match ro_array o with
  | Some array =>
      sh_do (λ sh, set_array sh array (if bool_decide (ifs = "") then [line] else split_read_fields line ifs))
  | None =>
      match ro_names o with
      | [] => assign_var "REPLY" line
      | name :: names =>
          if bool_decide (ifs = "") then _ ← assign_var name line; assign_empty names
          else assign_fields (default " " (head (utf8_chars ifs))) (name :: names) (split_read_fields line ifs)
      end
  end.

Definition cmd_read (args : list string) (stdin : bytes) : cmd Z :=
  match parse_read_options args with
  | Err message => complain message 2
  | Ok o =>
      '(line, terminated) ← on_mach (read_one_record stdin (ro_delimiter o) (ro_raw o));
      _ ← assign_record o line;
      mret (if terminated : bool then 0 else 1)
  end.

(** ** [mapfile] *)

Definition MAX_MAPFILE_RECORDS : Z := 100000.

Record MapfileOptions := MkMapfile {
  mf_trim : bool;
  mf_maximum : option Z;
  mf_skip : Z;
  mf_origin : option Z;
  mf_delimiter : Byte.byte;
  mf_name : string
}.

Definition default_mapfile : MapfileOptions := MkMapfile false None 0 None newline_byte "MAPFILE".
Definition mf_with_name (o : MapfileOptions) (name : string) : MapfileOptions :=
  MkMapfile (mf_trim o) (mf_maximum o) (mf_skip o) (mf_origin o) (mf_delimiter o) name.

Definition parse_mapfile_count (value option : string) : result string Z :=
  match parse_unsigned U64_MAX value with
  | Some n => Ok n
  | None => Err ("mapfile: " +:+ option +:+ " requires a non-negative integer")
  end.

Definition mapfile_delimiter (value : string) : result string Byte.byte :=
  match to_bytes value with
  | [] => Ok null_byte
  | [b] => Ok b
  | _ => Err "mapfile: -d requires one byte or an empty value"
  end.

Definition mapfile_option (option value : string) (o : MapfileOptions) : result string MapfileOptions :=
  if bool_decide (option = "-n") then
    n ← parse_mapfile_count value option;
    Ok (MkMapfile (mf_trim o) (if n =? 0 then None else Some n) (mf_skip o) (mf_origin o) (mf_delimiter o) (mf_name o))
  else if bool_decide (option = "-s") then
    n ← parse_mapfile_count value option;
    Ok (MkMapfile (mf_trim o) (mf_maximum o) n (mf_origin o) (mf_delimiter o) (mf_name o))
  else if bool_decide (option = "-O") then
    n ← parse_mapfile_count value option;
    Ok (MkMapfile (mf_trim o) (mf_maximum o) (mf_skip o) (Some n) (mf_delimiter o) (mf_name o))
  else
    d ← mapfile_delimiter value;
    Ok (MkMapfile (mf_trim o) (mf_maximum o) (mf_skip o) (mf_origin o) d (mf_name o)).

Definition valued_options : list string := ["-n"; "-s"; "-O"; "-d"].

(** The options, and the arguments that are left over. Every round takes an argument. *)
Fixpoint mapfile_options (fuel : nat) (args : list string) (o : MapfileOptions) : result string (MapfileOptions * list string) :=
  match fuel, args with
  | S fuel, a :: args =>
      if bool_decide (a = "--") then
        match args with name :: args => Ok (mf_with_name o name, args) | [] => Ok (o, []) end
      else if bool_decide (a = "-t") then
        mapfile_options fuel args
          (MkMapfile true (mf_maximum o) (mf_skip o) (mf_origin o) (mf_delimiter o) (mf_name o))
      else if bool_decide (a ∈ valued_options) then
        match args with
        | [] => Err ("mapfile: " +:+ a +:+ " requires a value")
        | value :: args => o ← mapfile_option a value o; mapfile_options fuel args o
        end
      else if starts_with "-" a then Err ("mapfile: unsupported option " +:+ a)
      else Ok (mf_with_name o a, args)
  | _, _ => Ok (o, args)
  end.

(** The first record, with its delimiter if it has one, and the rest. *)
Fixpoint take_record (delimiter : Byte.byte) (data : bytes) : bytes * bytes :=
  match data with
  | [] => ([], [])
  | b :: data =>
      if bool_decide (b = delimiter) then ([b], data) else let '(l, r) := take_record delimiter data in (b :: l, r)
  end.

Definition record_text (o : MapfileOptions) (record : bytes) : string :=
  from_utf8_lossy
    (if (mf_trim o || bool_decide (mf_delimiter o = null_byte)) && bool_decide (last record = Some (mf_delimiter o))
     then removelast record else record).

(** Every round takes a record of the input. *)
Fixpoint store_records (fuel : nat) (o : MapfileOptions) (data : bytes) (seen stored output_index : Z) : cmd Z :=
  match fuel, data with
  | S fuel, _ :: _ =>
      let '(record, rest) := take_record (mf_delimiter o) data in
      if seen <? mf_skip o then store_records fuel o rest (sat_add64 seen 1) stored output_index
      else if match mf_maximum o with Some limit => limit <=? stored | None => false end then mret 0
      else if (MAX_MAPFILE_RECORDS <=? stored) || (MAX_MAPFILE_RECORDS <=? output_index)
      then complain "mapfile: record limit exceeded" 1
      else
        _ ← sh_do (λ sh, array_set sh (mf_name o) (pretty output_index) (record_text o record));
        store_records fuel o rest (sat_add64 seen 1) (sat_add64 stored 1) (sat_add64 output_index 1)
  | _, _ => mret 0
  end.

Definition cmd_mapfile (args : list string) (stdin : bytes) : cmd Z :=
  match mapfile_options (length args) args default_mapfile with
  | Err message => complain message 2
  | Ok (o, rest) =>
      if negb (bool_decide (rest = [])) || negb (shell_identifier (mf_name o)) then
        complain "mapfile: expected one valid array name" 2
      else
        _ ← sh_do (λ sh, match mf_origin o with
                         | None => set_array sh (mf_name o) []
                         | Some _ => ensure_indexed sh (mf_name o)
                         end);
        store_records (length stdin) o stdin 0 0 (default 0 (mf_origin o))
  end.
