(* ===== verification/BuiltinShell.v ===== *)
(** * Builtins on the shell and its directory (src/src/commands/builtins.rs)

    Control flow, directories, the umask, limits, the hash table of commands, options, aliases,
    names of commands, and running source. *)

From stdpp Require Import pretty.
From S2P Require Import Prelude.
From S2P Require Import RustStr.
From S2P Require Import State.
From S2P Require Import Resources.
From S2P Require Import Variables.
From S2P Require Import Vfs.
From S2P Require Import Syntax.
From S2P Require Import ShellParser.
From S2P Require Import ProcessState.
From S2P Require Import ShellVars.
From S2P Require Import Machine.
From S2P Require Import PseudoFs.
From S2P Require Import ExpandText.
From S2P Require Import Expand.
From S2P Require Import Kernel.
From S2P Require Import ExecData.
From S2P Require Import ExecText.
From S2P Require Import ExecVars.
From S2P Require Import ExecHost.
From S2P Require Import CommandIo.

(** ** Control flow *)

Definition too_many_arguments {A} (command : string) : cmd (result Z A) := complain (command +:+ ": too many arguments") (Err 1).

(** [rem_euclid(256)] is [Z.modulo]. *)
Definition cmd_exit (args : list string) : cmd Z :=
  let exit code := _ ← on_mach (set_exiting (Some code)); mret code in
  match args with
  | [] => status ← sh_get sh_last_status; exit status
  | [value] =>
      match parse_i32 value with
      | Some code => exit (code mod 256)
      | None =>
          _ ← ewln ("exit: " +:+ value +:+ ": numeric argument required");
          exit 2
      end
  | _ => complain "exit: too many arguments" 1
  end.

Definition parse_control_status (command : string) (args : list string) (default : Z) : cmd (result Z Z) :=
  match args with
  | [] => mret (Ok default)
  | [value] =>
      match parse_i32 value with
      | Some code => mret (Ok (code mod 256))
      | None => complain (command +:+ ": " +:+ value +:+ ": numeric argument required") (Err 2)
      end
  | _ => too_many_arguments command
  end.

Definition cmd_return (args : list string) : cmd Z :=
  inside ← sh_get in_function_scope;
  c ← on_mach control;
  if negb inside && (ctl_source_depth c =? 0) then complain "return: can only be used in a function" 1
  else
    status ← sh_get sh_last_status;
    code ← parse_control_status "return" args status;
    match code with
    | Err status => mret status
    | Ok code => _ ← on_mach (on_control (λ c, ctl_with_returning c (Some code))); mret code
    end.

Definition parse_loop_count (command : string) (args : list string) : cmd (result Z Z) :=
  match args with
  | [] => mret (Ok 1)
  | [value] =>
      match parse_unsigned U32_MAX value with
      | Some n => if n =? 0 then complain (command +:+ ": loop count must be a positive integer") (Err 1) else mret (Ok n)
      | None => complain (command +:+ ": loop count must be a positive integer") (Err 1)
      end
  | _ => too_many_arguments command
  end.

Definition leave_loops (command : string) (register : ControlState → Z → ControlState) (args : list string) : cmd Z :=
  c ← on_mach control;
  if ctl_loop_depth c =? 0 then complain (command +:+ ": only meaningful in a loop") 1
  else
    count ← parse_loop_count command args;
    match count with
    | Err status => mret status
    | Ok n => _ ← on_mach (on_control (λ c, register c n)); mret 0
    end.
Definition cmd_break : list string → cmd Z := leave_loops "break" ctl_with_break.
Definition cmd_continue : list string → cmd Z := leave_loops "continue" ctl_with_continue.

Definition cmd_true : cmd Z := mret 0.
Definition cmd_false : cmd Z := mret 1.

(** [exec] through [command]: only without operands. *)
Definition cmd_exec (args : list string) : cmd Z :=
  match args with [] => mret 0 | _ => complain "exec: indirect invocation is not supported in shellsim" 2 end.

(** ** Directories *)

Section directories.
Context (format_seconds : Z → string).

Definition change_directory (target : string) : mach bool :=
  p ← current;
  changed ← sys_chdir format_seconds target;
  match changed with
  | Err _ => mret false
  | Ok _ =>
      _ ← on_context (λ q, (set_var q "OLDPWD" (ps_cwd p), tt));
      q ← current;
      _ ← on_context (λ r, (set_var r "PWD" (ps_cwd q), tt));
      mret true
  end.

Definition no_directory {A} (command target : string) (a : A) : cmd A :=
  complain (command +:+ ": " +:+ target +:+ ": No such file or directory") a.

Definition cmd_pwd : cmd Z := cwd ← cwd_of; _ ← wln cwd; mret 0.

Definition cd_target (args : list string) : cmd string :=
  match args with
  | [] | "~" :: _ => home ← read_var "HOME"; mret (default "/" home)
  | "-" :: _ => old ← read_var "OLDPWD"; cwd ← cwd_of; mret (default cwd old)
  | target :: _ => mret target
  end.
Definition cmd_cd (args : list string) : cmd Z :=
  if 1 <? zlen args then complain "cd: too many arguments" 1
  else
    target ← cd_target args;
    changed ← on_mach (change_directory target);
    if negb changed then no_directory "cd" target 1
    else
      _ ← (if bool_decide (head args = Some "-") then cwd ← cwd_of; wln cwd else mret tt);
      mret 0.

Definition MAX_DIRECTORY_STACK : Z := 256.

(** The stack grows at the end of its vector. *)
Definition push_directory (directory : string) : cmd unit :=
  sh_do (λ sh, set_directory_stack sh (sh_directory_stack sh ++ [directory])).
Definition pop_directory : cmd (option string) :=
  stack ← sh_get sh_directory_stack;
  _ ← sh_do (λ sh, set_directory_stack sh (removelast (sh_directory_stack sh)));
  mret (last stack).

Definition directory_entries : cmd (list string) :=
  cwd ← cwd_of; stack ← sh_get sh_directory_stack; mret (cwd :: reverse stack).
Definition print_directory_stack : cmd unit := entries ← directory_entries; wln (String.concat " " entries).
Fixpoint print_lines (lines : list string) : cmd unit :=
  match lines with [] => mret tt | line :: lines => _ ← wln line; print_lines lines end.

Definition cmd_pushd (args : list string) : cmd Z :=
  if (1 <? zlen args) || match args with a :: _ => starts_with "-" a | [] => false end then complain "pushd: usage: pushd [DIR]" 2
  else
    stack ← sh_get sh_directory_stack;
    if MAX_DIRECTORY_STACK <=? zlen stack then complain "pushd: directory stack limit exceeded" 1
    else
      previous ← cwd_of;
      target ← (match args with target :: _ => mret (Some target) | [] => pop_directory end);
      match target with
      | None => complain "pushd: no other directory" 1
      | Some target =>
          changed ← on_mach (change_directory target);
          if negb changed then
            _ ← (if bool_decide (args = []) then push_directory target else mret tt);
            no_directory "pushd" target 1
          else _ ← push_directory previous; _ ← print_directory_stack; mret 0
      end.

Definition cmd_popd (args : list string) : cmd Z :=
  match args with
  | _ :: _ => complain "popd: arguments are not supported" 2
  | [] =>
      target ← pop_directory;
      match target with
      | None => complain "popd: directory stack empty" 1
      | Some target =>
          changed ← on_mach (change_directory target);
          if negb changed then _ ← push_directory target; no_directory "popd" target 1
          else _ ← print_directory_stack; mret 0
      end
  end.

Definition cmd_dirs (args : list string) : cmd Z :=
  match args with
  | [] => _ ← print_directory_stack; mret 0
  | ["-p"] => entries ← directory_entries; _ ← print_lines entries; mret 0
  | ["-c"] => _ ← sh_do (λ sh, set_directory_stack sh []); mret 0
  | _ => complain "dirs: only -c and -p are supported" 2
  end.

End directories.

(** ** The umask and the limits *)

(** [{value:04o}] of a value below [0o10000]. *)
Definition octal_digit (value shift : Z) : string := pretty (Z.land (Z.shiftr value shift) 7).
Definition octal4 (value : Z) : string :=
  octal_digit value 9 +:+ octal_digit value 6 +:+ octal_digit value 3 +:+ octal_digit value 0.

(** [u16::from_str_radix(digits, 8)]. *)
Fixpoint octal_value (s : string) (acc : Z) : option Z :=
  match s with
  | EmptyString => Some acc
  | String c rest => d ← digit_value c; if 7 <? d then None else octal_value rest (acc * 8 + d)
  end.
Definition parse_octal (s : string) : option Z :=
  let digits := match s with String "+"%char (String _ _ as rest) => rest | _ => s end in
  if bool_decide (digits = "") then None else v ← octal_value digits 0; if v <=? 65535 then Some v else None.

Definition umask_operand (value : string) : option Z :=
  let digits := trim_start_char "0"%char value in
  mask ← parse_octal (if bool_decide (digits = "") && negb (bool_decide (value = "")) then "0" else digits);
  if mask <=? 511 then Some mask else None.

Definition mode_triplet (allowed shift : Z) : string :=
  let bits := Z.land (Z.shiftr allowed shift) 7 in
  (if Z.testbit bits 2 then "r" else "") +:+ (if Z.testbit bits 1 then "w" else "") +:+ (if Z.testbit bits 0 then "x" else "").

Definition cmd_umask (args : list string) : cmd Z :=
  umask ← on_mach (p ← current; mret (ps_umask p));
  match args with
  | [] => _ ← wln (octal4 umask); mret 0
  | ["-S"] =>
      let allowed := Z.ldiff 511 umask in
      _ ← wln ("u=" +:+ mode_triplet allowed 6 +:+ ",g=" +:+ mode_triplet allowed 3 +:+ ",o=" +:+ mode_triplet allowed 0);
      mret 0
  | [value] =>
      match umask_operand value with
      | None => complain ("umask: " +:+ value +:+ ": invalid octal mask") 1
      | Some mask => _ ← on_mach (expect_ok (sys_set_umask mask)); mret 0
      end
  | _ => complain "umask: usage: umask [-S] [octal-mask]" 2
  end.

Definition limit_blocks (n : Z) : string := if n =? U64_MAX then "unlimited" else pretty (n / 1024).

Definition cmd_ulimit (args : list string) : cmd Z :=
  limits ← on_mach (gets (λ m, rs_limits (m_resources m)));
  let selected := default "-f" (head args) in
  if (1 <? zlen args) || negb (bool_decide (selected ∈ ["-a"; "-f"; "-n"; "-t"; "-v"])) then
    complain "ulimit: setting limits and this option are not supported" 2
  else
    _ ← print_lines
      (if bool_decide (selected = "-a") then
         ["file size               (blocks, -f) " +:+ limit_blocks (lim_disk limits);
          "open files                      (-n) 1024";
          "cpu time               (seconds, -t) " +:+ pretty (lim_cpu limits);
          "virtual memory           (kbytes, -v) " +:+ limit_blocks (lim_memory limits)]
       else if bool_decide (selected = "-f") then [limit_blocks (lim_disk limits)]
       else if bool_decide (selected = "-n") then ["1024"]
       else if bool_decide (selected = "-t") then [pretty (lim_cpu limits)]
       else [limit_blocks (lim_memory limits)]);
    mret 0.

(** ** Names of commands *)

Definition hash_report (name : string) : cmd (option Z) :=
  path ← sh_get (λ sh, sh_command_hash sh !! name);
  match path with
  | Some path => _ ← wln path; mret None
  | None => complain ("hash: " +:+ name +:+ ": not found") (Some 1)
  end.
Definition hash_name (name : string) : cmd (option Z) :=
  lookup ← on_mach (resolve_executable name);
  match lookup with
  | Found path => _ ← sh_do (λ sh, set_command_hash sh (<[name := path]> (sh_command_hash sh))); mret None
  | _ => complain ("hash: " +:+ name +:+ ": not found") (Some 1)
  end.
Definition cmd_hash (args : list string) : cmd Z :=
  match args with
  | [] =>
      entries ← sh_get (λ sh, btree_iter (sh_command_hash sh));
      _ ← print_lines (map (λ '(name, path), path +:+ tab +:+ name) entries);
      mret 0
  | ["-r"] => _ ← sh_do (λ sh, set_command_hash sh ∅); mret 0
  | "-t" :: names => each_argument hash_report names 0
  | names => each_argument hash_name names 0
  end.

Definition builtin_names : list string :=
  ["."; ":"; "["; "[["; "alias"; "bg"; "break"; "cd"; "command"; "continue"; "declare"; "disown"; "dirs"; "echo"; "eval";
   "exec"; "exit"; "export"; "false"; "fg"; "getopts"; "hash"; "jobs"; "kill"; "let"; "local"; "mapfile"; "popd";
   "printf"; "pushd"; "pwd"; "read"; "readarray"; "readonly"; "return"; "set"; "shift"; "shopt"; "source"; "test"; "trap";
   "true"; "type"; "typeset"; "ulimit"; "umask"; "unalias"; "unset"; "wait"].
Definition is_shell_builtin_name (name : string) : bool := bool_decide (name ∈ builtin_names).

Definition lookup_name (describe include_builtins : bool) (a : string) : cmd (option Z) :=
  function ← sh_get (λ sh, bool_decide (is_Some (sh_funcs sh !! a)));
  if function : bool then _ ← wln (a +:+ " is a function"); mret None
  else if include_builtins && is_shell_builtin_name a then
    _ ← wln (if describe then a +:+ " is a shell builtin" else a); mret None
  else
    lookup ← on_mach (resolve_executable a);
    match lookup with
    | Found path => _ ← wln (if describe then a +:+ " is " +:+ path else path); mret None
    | _ => mret (Some 1)
    end.
Definition command_lookup (args : list string) (describe include_builtins : bool) : cmd Z :=
  each_argument (lookup_name describe include_builtins) (filter (λ a, starts_with "-" a = false) args) 0.
Definition cmd_which (args : list string) : cmd Z := command_lookup args false false.
Definition cmd_type (args : list string) : cmd Z := command_lookup args true true.

Definition start_command (args : list string) : cmd cmd_poll_result :=
  match args with
  | "-v" :: names => status ← command_lookup names false true; mret (CmdReady status)
  | "-V" :: names => status ← command_lookup names true true; mret (CmdReady status)
  | _ =>
      let argv := match args with "--" :: argv => argv | _ => args end in
      mret (match argv with [] => CmdReady 0 | _ => CmdInline (NArgvCommand argv) end)
  end.

(** ** Options and aliases *)

Definition COMPAT_SHOPTS : list string := ["expand_aliases"; "nullglob"; "sourcepath"].

(** [-s], [-u], [-q], or printing. *)
Definition shopt_name (mode : string) (status : Z) (name : string) : cmd Z :=
  if negb (bool_decide (name ∈ COMPAT_SHOPTS)) then complain ("shopt: " +:+ name +:+ ": invalid shell option name") 1
  else
    on ← sh_get (λ sh, bool_decide (name ∈ sh_options sh));
    if bool_decide (mode = "-s") then _ ← sh_do (λ sh, set_shopts sh ({[name]} ∪ sh_options sh)); mret status
    else if bool_decide (mode = "-u") then _ ← sh_do (λ sh, set_shopts sh (sh_options sh ∖ {[name]})); mret status
    else if bool_decide (mode = "-q") then mret (Z.lor status (if on : bool then 0 else 1))
    else _ ← wln (name +:+ tab +:+ (if on : bool then "on" else "off")); mret status.
Fixpoint shopt_names (mode : string) (names : list string) (status : Z) : cmd Z :=
  match names with
  | [] => mret status
  | name :: names => status ← shopt_name mode status name; shopt_names mode names status
  end.
Definition cmd_shopt (args : list string) : cmd Z :=
  let option := default "" (head args) in
  let listed := bool_decide (option ∈ ["-s"; "-u"; "-q"]) in
  if negb listed && starts_with "-" option then complain ("shopt: unsupported option " +:+ option) 2
  else
    let names := if listed then drop 1 args else args in
    shopt_names (if listed then option else "-p") (match names with [] => COMPAT_SHOPTS | _ => names end) 0.

Definition MAX_ALIASES : Z := 256.

Definition print_alias (name : string) : cmd unit :=
  alias ← sh_get (λ sh, sh_aliases sh !! name);
  match alias with
  | Some alias => wln ("alias " +:+ name +:+ "=" +:+ shell_quote (al_source alias))
  | None => mret tt
  end.
Fixpoint print_aliases (names : list string) : cmd unit :=
  match names with [] => mret tt | name :: names => _ ← print_alias name; print_aliases names end.

(** [u8::is_ascii_whitespace] and the characters a name may not have. *)
Definition alias_name_byte (c : ascii) : bool :=
  let n := Ascii.N_of_ascii c in
  negb (bool_decide (n ∈ [32; 9; 10; 12; 13]%N) || bool_decide (c = "/"%char) || bool_decide (c = "$"%char) ||
        bool_decide (c = backquote)).
Definition valid_alias_name (name : string) : bool :=
  negb (bool_decide (name = "")) && forallb alias_name_byte (String.list_ascii_of_string name).

(** The words of a simple command without assignments and redirections. *)
Definition alias_words (parsed : result ShellError Syntax.Node) : option (list string) :=
  match parsed with Ok (NCommand [] (_ :: _ as words) []) => Some words | _ => None end.

(** One definition: the next status, and whether the command goes on. *)
Definition define_alias (name source : string) (status : Z) : cmd (Z * bool) :=
  if negb (valid_alias_name name) then complain ("alias: invalid alias name: " +:+ name) (1, true)
  else
    parsed ← on_mach (lift_run (λ _, parse source));
    match alias_words parsed with
    | None => complain ("alias: " +:+ name +:+ ": only simple-command aliases are supported") (2, true)
    | Some words =>
        aliases ← sh_get sh_aliases;
        if (MAX_ALIASES <=? Z.of_nat (size aliases)) && negb (bool_decide (is_Some (aliases !! name))) then
          complain "alias: alias limit exceeded" (1, false)
        else _ ← sh_do (λ sh, set_aliases sh (<[name := MkAlias source words]> (sh_aliases sh))); mret (status, true)
    end.

Fixpoint alias_each (args : list string) (status : Z) : cmd Z :=
  match args with
  | [] => mret status
  | argument :: args =>
      match split_once "="%char argument with
      | None =>
          known ← sh_get (λ sh, bool_decide (is_Some (sh_aliases sh !! argument)));
          if known : bool then _ ← print_alias argument; alias_each args status
          else _ ← ewln ("alias: " +:+ argument +:+ ": not found"); alias_each args 1
      | Some (name, source) =>
          '(status, more) ← define_alias name source status;
          if more : bool then alias_each args status else mret status
      end
  end.
Definition cmd_alias (args : list string) : cmd Z :=
  match args with
  | [] => names ← sh_get (λ sh, btree_keys (sh_aliases sh)); _ ← print_aliases names; mret 0
  | _ => alias_each args 0
  end.

Definition remove_alias (name : string) : cmd (option Z) :=
  known ← sh_get (λ sh, bool_decide (is_Some (sh_aliases sh !! name)));
  if known : bool then _ ← sh_do (λ sh, set_aliases sh (delete name (sh_aliases sh))); mret None
  else complain ("unalias: " +:+ name +:+ ": not found") (Some 1).
Definition cmd_unalias (args : list string) : cmd Z :=
  match args with
  | ["-a"] => _ ← sh_do (λ sh, set_aliases sh ∅); mret 0
  | [] => complain "unalias: usage: unalias [-a] name ..." 2
  | names => each_argument remove_alias names 0
  end.

(** ** Source *)

Definition parse_shell_source (source : string) : cmd (result Z Syntax.Node) :=
  r ← on_mach (parse_shell_action source);
  match r with
  | Ok node => mret (Ok node)
  | Err (status, diagnostic) =>
      _ ← modify (λ c, MkCmd (cm_machine c) (cm_out c) (cm_err c ++ to_bytes diagnostic)); mret (Err status)
  end.

Section source.
Context (format_seconds : Z → string).

Definition fs_read (cwd path : string) : sys bytes :=
  pseudo ← in_pseudo (λ m p, pseudo_read format_seconds m p cwd path);
  match pseudo with Some r => mret (from_file r) | None => vfs_do (λ v, vfs_read v cwd path) end.

Definition start_source (args : list string) : cmd cmd_poll_result :=
  match args with
  | [] => complain "source: filename argument required" (CmdReady 2)
  | path :: _ =>
      cwd ← cwd_of;
      data ← on_mach (fs_read cwd path);
      match data with
      | Err _ => complain ("source: " +:+ path +:+ ": No such file or directory") (CmdReady 1)
      | Ok data =>
          r ← parse_shell_source (from_utf8_lossy data);
          mret match r with Ok node => CmdInlineSource node | Err status => CmdReady status end
      end
  end.

End source.

Definition start_eval (args : list string) : cmd cmd_poll_result :=
  r ← parse_shell_source (String.concat " " args);
  mret match r with Ok node => CmdInline node | Err status => CmdReady status end.
