(* ===== verification/BuiltinJobs.v ===== *)
(** * Builtins on jobs and signals (src/src/commands/builtins.rs, src/src/commands/mod.rs)

    [trap], [jobs], [fg], [bg], [disown], [kill], [wait] and [flock], and how the last ones go on
    when the scheduler wakes their shell. *)

From stdpp Require Import pretty.
From S2P Require Import Prelude.
From S2P Require Import RustStr.
From S2P Require Import State.
From S2P Require Import Process.
From S2P Require Import Scheduler.
From S2P Require Import Descriptors.
From S2P Require Import Syntax.
From S2P Require Import ShellParser.
From S2P Require Import ProcessState.
From S2P Require Import ShellVars.
From S2P Require Import Machine.
From S2P Require Import ExpandText.
From S2P Require Import Expand.
From S2P Require Import Kernel.
From S2P Require Import Lifecycle.
From S2P Require Import ExecData.
From S2P Require Import ExecText.
From S2P Require Import ExecVars.
From S2P Require Import CommandIo.
From S2P Require Import BuiltinShell.

(** ** Signals *)

Definition list_signal (argument : option string) : cmd Z :=
  match argument with
  | None => _ ← wln "HUP INT KILL USR1 USR2 PIPE TERM CHLD CONT STOP"; mret 0
  | Some argument =>
      let normalized :=
        match parse_i32 argument with
        | Some number => pretty (if 128 <? number then number - 128 else number)
        | None => argument
        end in
      match signal_parse normalized with
      | None => complain ("kill: unknown signal " +:+ argument) 1
      | Some signal => _ ← wln (signal_name signal); mret 0
      end
  end.

(** What a trap is set on. *)
Record TrapTargets := MkTrapTargets { tt_exit : bool; tt_err : bool; tt_signals : list Signal }.

Definition equal_ignoring_case (a b : string) : bool := bool_decide (to_ascii_uppercase a = to_ascii_uppercase b).

Fixpoint trap_targets (values : list string) (t : TrapTargets) : result string TrapTargets :=
  match values with
  | [] => Ok t
  | value :: values =>
      if bool_decide (value = "0") || equal_ignoring_case value "EXIT" then trap_targets values (MkTrapTargets true (tt_err t) (tt_signals t))
      else if equal_ignoring_case value "ERR" then trap_targets values (MkTrapTargets (tt_exit t) true (tt_signals t))
      else
        match signal_parse value with
        | None => Err ("invalid signal: " +:+ value)
        | Some signal =>
            trap_targets values (MkTrapTargets (tt_exit t) (tt_err t)
              (if bool_decide (signal ∈ tt_signals t) then tt_signals t else tt_signals t ++ [signal]))
        end
  end.
Definition parse_trap_targets (values : list string) : result string TrapTargets :=
  let all := bool_decide (values = []) in trap_targets values (MkTrapTargets all all []).

Definition trap_action (d : ShellSignalDisposition) : string :=
  match d with DispIgnore => "" | DispHandler source _ => source end.
Definition trap_line (name : string) (d : ShellSignalDisposition) : string :=
  "trap -- " +:+ shell_quote (trap_action d) +:+ " " +:+ name.

Definition trap_lines (t : TrapTargets) (all : bool) (g : SignalState) : list string :=
  let pseudo (included : bool) name d := match d with Some d => if included then [trap_line name d] else [] | None => [] end in
  pseudo (tt_exit t) "EXIT" (sg_exit g) ++ pseudo (tt_err t) "ERR" (sg_err g) ++
  omap (λ signal, d ← sg_dispositions g !! signal;
    if all || bool_decide (signal ∈ tt_signals t) then Some (trap_line ("SIG" +:+ signal_name signal) d) else None) all_signals.

Definition print_traps (t : TrapTargets) (all : bool) : cmd unit :=
  lines ← on_mach (p ← current; mret (trap_lines t all (ps_signals p)));
  print_lines lines.

Section traps.
Context (NODE_SIZE REDIRECT_SIZE : Z).

Definition MAX_TRAP_STATE_BYTES : Z := 1048576.

Definition trap_bytes (d : ShellSignalDisposition) : Z :=
  match d with
  | DispIgnore => 16
  | DispHandler source body => sat_add64 (sat_add64 (str_len source) (estimated_bytes NODE_SIZE REDIRECT_SIZE body)) 32
  end.

Definition trap_state_bytes (g : SignalState) : Z :=
  let total := foldl (λ total d, sat_add64 total (trap_bytes d)) 0 in
  sat_add64 (total (map snd (map_to_list (sg_dispositions g))))
    (total (option_list (sg_exit g) ++ option_list (sg_err g))).

(** The dispositions after [trap action targets]. *)
Definition update_traps (t : TrapTargets) (d : option ShellSignalDisposition) (g : SignalState) : SignalState :=
  MkSignalState (sg_pending g)
    (foldl (λ m signal, match d with Some d => <[signal := d]> m | None => delete signal m end) (sg_dispositions g) (tt_signals t))
    (if tt_exit t then d else sg_exit g) (if tt_err t then d else sg_err g)
    (tt_err t || sg_err_active g) (sg_handling_error g) (sg_handling_signal g).

(** The disposition an action stands for. *)
Definition parse_trap_action (action : string) : mach (result string (option ShellSignalDisposition)) :=
  if bool_decide (action = "-") then mret (Ok None)
  else if bool_decide (action = "") then mret (Ok (Some DispIgnore))
  else
    r ← lift_run (λ _, parse action);
    mret match r with
         | Ok body => Ok (Some (DispHandler action body))
         | Err error => Err ("trap: invalid handler: " +:+ shell_error_display error)
         end.

Definition uncatchable (t : TrapTargets) : option (string * Z) :=
  if bool_decide (Kill ∈ tt_signals t) then Some ("trap: SIGKILL cannot be caught or ignored", 1)
  else if bool_decide (Stop ∈ tt_signals t) then Some ("trap: SIGSTOP cannot be caught or ignored", 1)
  else if bool_decide (Continue ∈ tt_signals t) then Some ("trap: SIGCONT handlers are not supported", 2)
  else None.

Definition set_trap (action : string) (t : TrapTargets) : cmd Z :=
  match uncatchable t with
  | Some (message, status) => complain message status
  | None =>
      d ← on_mach (parse_trap_action action);
      match d with
      | Err message => complain message 2
      | Ok d =>
          g ← on_mach (p ← current; mret (update_traps t d (ps_signals p)));
          if MAX_TRAP_STATE_BYTES <? trap_state_bytes g then complain "trap: signal handler state exceeds the 1 MiB limit" 2
          else _ ← on_mach (on_signals (λ _, g)); mret 0
      end
  end.

Definition cmd_trap (args : list string) : cmd Z :=
  match args with
  | [] => _ ← print_traps (MkTrapTargets true true []) true; mret 0
  | "-l" :: rest =>
      match rest with [] => list_signal None | _ => complain "trap: -l does not accept operands" 2 end
  | "-p" :: targets =>
      match parse_trap_targets targets with
      | Err error => complain ("trap: " +:+ error) 2
      | Ok t => _ ← print_traps t (bool_decide (targets = [])); mret 0
      end
  | _ =>
      match (match args with "--" :: args => args | _ => args end) with
      | [] => complain "trap: missing action" 2
      | [_] => complain "trap: missing signal operand" 2
      | action :: targets =>
          match parse_trap_targets targets with
          | Err error => complain ("trap: " +:+ error) 2
          | Ok t => set_trap action t
          end
      end
  end.

End traps.

(** ** Jobs *)

Definition jobs_of : cmd (list Job) := sh_get sh_jobs.
Definition remove_job (position : nat) : mach unit :=
  change_shell (λ sh, set_jobs sh (delete position (sh_jobs sh)) (sh_next_job sh)).

(** [iter().position(..)]. *)
Definition find_position (p : Job → bool) (jobs : list Job) : option nat := fst <$> list_find (λ j, p j = true) jobs.

Definition job_position (jobs : list Job) (args : list string) (command : string) : result string nat :=
  let newest := match jobs with [] => None | _ => Some (pred (length jobs)) end in
  let selected :=
    match args with
    | [] | ["%+"] | ["%%"] => Ok newest
    | [selected] =>
        match parse_unsigned U32_MAX (default selected (strip_prefix "%" selected)) with
        | None => Err (selected +:+ ": invalid job")
        | Some id => Ok (find_position (λ job, (jb_id job =? id) || (jb_pid job =? id)) jobs)
        end
    | _ => Err ("usage: " +:+ command +:+ " [%JOB]")
    end in
  found ← selected; ok_or found "no such job".

Definition job_state_name (s : JobState) : string :=
  match s with JobRunning => "Running" | JobStopped _ => "Stopped" | JobDone _ => "Done" end.
Definition job_line (job : Job) : string :=
  "[" +:+ pretty (jb_id job) +:+ "] " +:+ job_state_name (jb_state job) +:+ " " +:+ jb_cmd job.

Definition cmd_jobs (args : list string) : cmd Z :=
  let print line := jobs ← jobs_of; _ ← print_lines (map line jobs); mret 0 in
  match args with
  | [] => print job_line
  | ["-p"] => print (λ job, pretty (jb_pid job))
  | _ => complain "jobs: only -p is supported" 2
  end.

Definition cmd_disown (args : list string) : cmd Z :=
  if bool_decide (args = ["-a"]) then _ ← sh_do (λ sh, set_jobs sh [] (sh_next_job sh)); mret 0
  else
    jobs ← jobs_of;
    match job_position jobs args "disown" with
    | Err error => complain ("disown: " +:+ error) 1
    | Ok position => _ ← on_mach (remove_job position); mret 0
    end.

(** The record and the task of a process that ended are let go. *)
Definition reap_process (pid : Z) : mach unit :=
  _ ← processes_do (λ t, (process_reap t pid).1); _ ← sched_do (λ c, scheduler_reap c pid); mret tt.

Definition reap_job (position : nat) (job : Job) : mach Z :=
  _ ← remove_job position;
  _ ← reap_process (jb_pid job);
  mret match jb_state job with JobDone status => status | _ => 127 end.

Definition reset_foreground : mach unit :=
  modify (λ m, set_terminal m (MkControllingTerminal (ct_session_id (m_terminal m)) (ct_session_id (m_terminal m)))).

Definition job_stopped (s : JobState) : bool := match s with JobStopped _ => true | _ => false end.

(** A job by its position, which [job_position] found. *)
Definition job_at (position : nat) : cmd Job :=
  jobs ← jobs_of; match jobs !! position with Some job => mret job | None => panic end.

Definition cmd_bg (args : list string) : cmd Z :=
  jobs ← jobs_of;
  match job_position jobs args "bg" with
  | Err error => complain ("bg: " +:+ error) 1
  | Ok position =>
      job ← job_at position;
      match jb_state job with
      | JobDone _ => complain "bg: job has terminated" 1
      | _ =>
          sent ← on_mach (send_signal_group (jb_pid job) Continue);
          match sent with
          | Err error => complain ("bg: " +:+ lifecycle_error_display error) 1
          | Ok _ => _ ← wln ("[" +:+ pretty (jb_id job) +:+ "] " +:+ jb_cmd job +:+ " &"); mret 0
          end
      end
  end.

(** ** Waiting *)

(** The loop of [wait]: every round takes a PID off the list or finds a job that is not done. *)
Fixpoint wait_for (pids : list Z) (status : Z) (explicit : bool) : mach cmd_poll_result :=
  match pids with
  | [] => mret (CmdReady status)
  | pid :: rest =>
      jobs ← shell_get sh_jobs;
      match find_position (λ job, jb_pid job =? pid) jobs with
      | None => wait_for rest status explicit
      | Some position =>
          match jb_state <$> jobs !! position with
          | Some (JobDone job_status) =>
              _ ← remove_job position;
              _ ← reap_process pid;
              wait_for rest (if explicit then job_status else status) explicit
          | _ => mret (CmdBlocked (Scheduler.Child pid) (ResumeWait pids status explicit))
          end
      end
  end.

Definition wait_foreground (pid : Z) : mach cmd_poll_result :=
  jobs ← shell_get sh_jobs;
  match find_position (λ job, jb_pid job =? pid) jobs with
  | None => mret (CmdReady 127)
  | Some position =>
      match jb_state <$> jobs !! position with
      | Some (JobStopped signal) => _ ← reset_foreground; mret (CmdReady (128 + signal_number signal))
      | Some (JobDone status) => _ ← remove_job position; _ ← reap_process pid; mret (CmdReady status)
      | _ => mret (CmdBlocked (Scheduler.Child pid) (ResumeForeground pid))
      end
  end.

Definition wait_operand (jobs : list Job) (argument : string) : result string Z :=
  match parse_unsigned U32_MAX (default argument (strip_prefix "%" argument)) with
  | None => Err ("wait: " +:+ argument +:+ ": invalid job id")
  | Some identifier =>
      let key job := if starts_with "%" argument then jb_id job else jb_pid job in
      match find_position (λ job, key job =? identifier) jobs ≫= (jobs !!.) with
      | None => Err ("wait: " +:+ argument +:+ ": no such job")
      | Some job => Ok (jb_pid job)
      end
  end.
Fixpoint wait_operands (jobs : list Job) (arguments : list string) : result string (list Z) :=
  match arguments with
  | [] => Ok []
  | argument :: arguments => pid ← wait_operand jobs argument; pids ← wait_operands jobs arguments; Ok (pid :: pids)
  end.

Definition start_wait (args : list string) : cmd cmd_poll_result :=
  jobs ← jobs_of;
  match (match args with [] => Ok (map jb_pid jobs) | _ => wait_operands jobs args end) with
  | Err message => complain message (CmdReady 127)
  | Ok pids => on_mach (wait_for pids 0 (negb (bool_decide (args = []))))
  end.

Definition foreground_error (group session : Z) : string :=
  "process group " +:+ pretty group +:+ " is not live in terminal session " +:+ pretty session.

Definition start_fg (args : list string) : cmd cmd_poll_result :=
  jobs ← jobs_of;
  match job_position jobs args "fg" with
  | Err error => complain ("fg: " +:+ error) (CmdReady 1)
  | Ok position =>
      job ← job_at position;
      match jb_state job with
      | JobDone _ => status ← on_mach (reap_job position job); mret (CmdReady status)
      | state =>
          session ← on_mach (gets (λ m, ct_session_id (m_terminal m)));
          granted ← on_mach (set_terminal_foreground (jb_pid job));
          if negb granted then complain ("fg: " +:+ foreground_error (jb_pid job) session) (CmdReady 1)
          else
            sent ← (if job_stopped state then on_mach (send_signal_group (jb_pid job) Continue) else mret (Ok tt));
            match sent with
            | Err error =>
                _ ← on_mach reset_foreground;
                complain ("fg: " +:+ lifecycle_error_display error) (CmdReady 1)
            | Ok _ => on_mach (wait_foreground (jb_pid job))
            end
      end
  end.

(** ** [kill] *)

Definition parse_signal (value : string) : result string (option Signal) :=
  if bool_decide (value = "0") then Ok None
  else match signal_parse value with Some signal => Ok (Some signal) | None => Err ("invalid signal: " +:+ value) end.

Inductive KillTarget := KillProcess (pid : Z) | KillGroup (group : Z).

Definition nonzero (n : option Z) : option Z := v ← n; if v =? 0 then None else Some v.

Definition resolve_kill_target (p : ProcessState) (target : string) : option KillTarget :=
  match strip_prefix "%" target with
  | Some job =>
      id ← parse_unsigned U32_MAX job;
      found ← find_position (λ job, jb_id job =? id) (sh_jobs (ps_shell p)) ≫= (sh_jobs (ps_shell p) !!.);
      Some (KillGroup (jb_pid found))
  | None =>
      if bool_decide (target = "0") then Some (KillGroup (id_group (ps_identity p)))
      else
        match strip_prefix "-" target with
        | Some group => KillGroup <$> nonzero (parse_unsigned U32_MAX group)
        | None => KillProcess <$> nonzero (parse_unsigned U32_MAX target)
        end
  end.

Definition kill_target_exists (target : KillTarget) (m : Machine) : bool :=
  match target with
  | KillProcess pid => match process_status m pid with Some Running | Some (Stopped _) => true | _ => false end
  | KillGroup group => negb (bool_decide (live_group (m_processes m) group = []))
  end.

(** The signal and the targets. Every round takes an argument. *)
Fixpoint kill_args (fuel : nat) (args : list string) (signal : option Signal) (targets : list string)
    : result string (option Signal * list string) :=
  match fuel, args with
  | S fuel, a :: args =>
      if bool_decide (a = "--") then Ok (signal, targets ++ args)
      else if bool_decide (a = "-s") || bool_decide (a = "--signal") then
        match args with
        | [] => Err "kill: -s requires a signal"
        | name :: args =>
            match parse_signal name with
            | Ok signal => kill_args fuel args signal targets
            | Err error => Err ("kill: " +:+ error)
            end
        end
      else if starts_with "-" a && (1 <? str_len a) && bool_decide (targets = []) then
        match parse_signal (str_drop 1 a) with
        | Ok signal => kill_args fuel args signal targets
        | Err error => Err ("kill: " +:+ error)
        end
      else kill_args fuel args signal (targets ++ [a])
  | _, _ => Ok (signal, targets)
  end.

Definition signal_target (target : KillTarget) (signal : Signal) : lifecycle unit :=
  match target with KillProcess pid => send_signal pid signal | KillGroup group => send_signal_group group signal end.

Definition kill_one (signal : option Signal) (target : string) : cmd (option Z) :=
  resolved ← on_mach (p ← current; mret (resolve_kill_target p target));
  match resolved, signal with
  | None, _ => complain ("kill: " +:+ target +:+ ": no such process or job") (Some 1)
  | Some resolved, Some signal =>
      sent ← on_mach (signal_target resolved signal);
      match sent with
      | Ok _ => mret None
      | Err error => complain ("kill: " +:+ target +:+ ": " +:+ lifecycle_error_display error) (Some 1)
      end
  | Some resolved, None =>
      exists_ ← on_mach (gets (kill_target_exists resolved));
      if exists_ : bool then mret None else complain ("kill: " +:+ target +:+ ": no such process") (Some 1)
  end.

Definition cmd_kill (args : list string) : cmd Z :=
  match args with
  | "-l" :: args => list_signal (head args)
  | _ =>
      match kill_args (length args) args (Some Terminate) [] with
      | Err message => complain message 2
      | Ok (_, []) => complain "kill: usage: kill [-s SIGNAL] PID|%JOB ..." 2
      | Ok (signal, targets) => each_argument (kill_one signal) targets 0
      end
  end.

(** ** [flock] *)

Definition flock_error (error : SyscallError) : string :=
  match error with SysDescriptor InvalidFd => "bad file descriptor" | error => syscall_error_display error end.

Definition resume_flock (fd : Z) (mode : option FileLockMode) (nonblocking : bool) : mach cmd_poll_result :=
  let failed error :=
    CmdReadyOutput "flock" 1 [] (to_bytes ("flock: " +:+ pretty fd +:+ ": " +:+ flock_error error +:+ newline)) in
  locked ← sys_file_lock fd mode;
  match locked with
  | Ok true => mret (CmdReady 0)
  | Ok false =>
      if nonblocking then mret (CmdReady 1)
      else
        inode ← sys_file_lock_inode fd;
        mret match inode with
             | Ok inode => CmdBlocked (Scheduler.FileLock inode) (ResumeFileLock fd mode nonblocking)
             | Err error => failed error
             end
  | Err error => mret (failed error)
  end.

Record FlockArgs := MkFlockArgs { fl_mode : option FileLockMode; fl_nonblocking : bool; fl_operand : option string }.

Definition flock_unsupported : string := "flock: path-and-command locking is not supported; use an open file descriptor".

Fixpoint flock_args (args : list string) (f : FlockArgs) : option FlockArgs :=
  match args with
  | [] => Some f
  | a :: args =>
      let on names := bool_decide (a ∈ names) in
      let mode m := flock_args args (MkFlockArgs m (fl_nonblocking f) (fl_operand f)) in
      if on ["-x"; "--exclusive"] then mode (Some LockExclusive)
      else if on ["-s"; "--shared"] then mode (Some LockShared)
      else if on ["-u"; "--unlock"] then mode None
      else if on ["-n"; "--nonblock"] then flock_args args (MkFlockArgs (fl_mode f) true (fl_operand f))
      else
        match fl_operand f with
        | Some _ => None
        | None => if on ["--"] then flock_args args f else flock_args args (MkFlockArgs (fl_mode f) (fl_nonblocking f) (Some a))
        end
  end.

Definition start_flock (args : list string) : cmd cmd_poll_result :=
  match flock_args args (MkFlockArgs (Some LockExclusive) false None) with
  | None => complain flock_unsupported (CmdReady 2)
  | Some f =>
      match fl_operand f with
      | None => complain "flock: missing file descriptor" (CmdReady 2)
      | Some operand =>
          match parse_i32 operand with
          | None => complain flock_unsupported (CmdReady 2)
          | Some fd => on_mach (resume_flock fd (fl_mode f) (fl_nonblocking f))
          end
      end
  end.
