(* ===== verification/Commands.v ===== *)
(** * Running commands (src/src/commands/mod.rs, src/src/commands/util.rs)

    A command is a shell builtin, a native image or a script. [dispatch] finds it, accounts for what
    it costs and prints, and runs it; [resume] goes on with one that was suspended. The commands
    that are not builtins are a parameter, [registered]: a path or a name to what it runs. The log of
    invocations is left out. *)

From S2P Require Import Prelude.
From S2P Require Import State.
From S2P Require Import RustStr.
From S2P Require Import Resources.
From S2P Require Import Process.
From S2P Require Import Scheduler.
From S2P Require Import Paths.
From S2P Require Import Vfs.
From S2P Require Import Syntax.
From S2P Require Import ProcessState.
From S2P Require Import ShellVars.
From S2P Require Import Machine.
From S2P Require Import ExpandText.
From S2P Require Import Expand.
From S2P Require Import Kernel.
From S2P Require Import Lifecycle.
From S2P Require Import ExecData.
From S2P Require Import ExecText.
From S2P Require Import ExecVars.
From S2P Require Import ExecHost.
From S2P Require Import Images.
From S2P Require Import CommandIo.
From S2P Require Import BuiltinVars.
From S2P Require Import BuiltinTest.
From S2P Require Import BuiltinRead.
From S2P Require Import BuiltinShell.
From S2P Require Import BuiltinJobs.

(** ** The registry *)

Inductive BodyKind := KindLegacy | KindResumable | KindSystem.

(** What a command leaves: how it goes on, and what it printed. *)
Abbreviation outcome_of := (cmd_poll_result * bytes * bytes)%type.

Record CommandSpec (N : Type) := MkCommandSpec {
  cs_kind : BodyKind;
  cs_base_cpu : Z;
  cs_base_memory : Z;
  cs_run : string → list string → bytes → stm (World CommandResume N) outcome_of
}.
Arguments MkCommandSpec {N}.
Arguments cs_kind {N}.
Arguments cs_base_cpu {N}.
Arguments cs_base_memory {N}.
Arguments cs_run {N}.

(** A command of the shell, with empty buffers. *)
Definition run_cmd {N A} (c : cmd A) : stm (World CommandResume N) (A * bytes * bytes) := λ w,
  '(s, a) ← c (MkCmd (w_machine w) [] []);
  Ret (set_machine w (cm_machine s), (a, cm_out s, cm_err s)).

Section commands.
Context {N : Type} (launch : NativeLaunch → N).
Context (registered : string → option (CommandSpec N)) (git_reads_input : list string → bool).
Context (format_seconds : Z → string) (engine : TextEngine).
Context (captures : string → option (string → option (list string))).
Context (NODE_SIZE REDIRECT_SIZE : Z).
Abbreviation act A := (stm (World CommandResume N) A).

Definition legacy (body : string → list string → bytes → cmd Z) : CommandSpec N :=
  MkCommandSpec KindLegacy 1000 10240
    (λ name args stdin, '(status, out, err) ← run_cmd (body name args stdin); mret (CmdReady status, out, err)).
Definition resumable (body : list string → cmd cmd_poll_result) : CommandSpec N :=
  MkCommandSpec KindResumable 1000 10240 (λ _ args _, run_cmd (body args)).

Definition cmd_unsupported (name : string) : cmd Z := complain (name +:+ ": not implemented in shellsim") 127.

(** The names of [builtins::register]. *)
Definition builtin_table : list (list string * CommandSpec N) :=
  let plain body := legacy (λ _ args _, body args) in
  [(["cd"], plain (cmd_cd format_seconds)); (["pwd"], plain (λ _, cmd_pwd)); (["export"], plain cmd_export);
   (["unset"], plain cmd_unset); (["set"], plain cmd_set); (["declare"; "typeset"], plain (cmd_declare engine));
   (["local"], plain (cmd_local engine)); (["readonly"], plain (cmd_readonly engine));
   (["source"; "."], resumable (start_source format_seconds)); (["eval"], resumable start_eval);
   (["exit"], plain cmd_exit); (["return"], plain cmd_return); (["break"], plain cmd_break);
   (["continue"], plain cmd_continue); (["shift"], plain cmd_shift); (["true"; ":"], plain (λ _, cmd_true));
   (["false"], plain (λ _, cmd_false)); (["test"], plain (cmd_test format_seconds engine captures));
   (["["], plain (cmd_bracket format_seconds engine captures));
   (["[["], plain (cmd_dbracket format_seconds engine captures));
   (["read"], legacy (λ _ args stdin, cmd_read args stdin)); (["wait"], resumable start_wait);
   (["jobs"], plain cmd_jobs); (["fg"], resumable start_fg); (["bg"], plain cmd_bg);
   (["trap"], plain (cmd_trap NODE_SIZE REDIRECT_SIZE)); (["flock"], resumable start_flock);
   (["disown"], plain cmd_disown); (["umask"], plain cmd_umask); (["ulimit"], plain cmd_ulimit);
   (["hash"], plain cmd_hash); (["shopt"], plain cmd_shopt); (["exec"], plain cmd_exec);
   (["complete"; "bind"; "history"], legacy (λ name _ _, cmd_unsupported name)); (["kill"], plain cmd_kill);
   (["which"], plain cmd_which); (["type"], plain cmd_type); (["command"], resumable start_command);
   (["alias"], plain cmd_alias); (["unalias"], plain cmd_unalias); (["getopts"], plain cmd_getopts);
   (["let"], plain cmd_let); (["mapfile"; "readarray"], legacy (λ _ args stdin, cmd_mapfile args stdin));
   (["pushd"], plain (cmd_pushd format_seconds)); (["popd"], plain (cmd_popd format_seconds)); (["dirs"], plain cmd_dirs)].

(** Later registrations replace earlier ones. *)
Definition registry (key : string) : option (CommandSpec N) :=
  match registered key with
  | Some spec => Some spec
  | None => snd <$> find (λ '(names, _), bool_decide (key ∈ names)) builtin_table
  end.

(** ** Finding what a name runs *)

Definition system_command (path : string) : bool :=
  starts_with "/" path && match cs_kind <$> registry path with Some KindSystem => true | _ => false end.

Definition runs_native_process (image : NativeProgram) : bool :=
  match image with
  | Registered path => system_command path
  | LegacyRegistered name => bool_decide (name ∈ shell_names)
  | _ => true
  end.

(** What a name resolves to for the active process: [resolve_executable] without its state, which
    looking [PATH] up leaves as it is. *)
Definition resolved_name (m : Machine) (requested : string) : ExecutableLookup :=
  match m_states m !! m_active m with
  | Some p => resolve_executable_in (m_vfs m) (ps_cwd p) (get_var p "PATH").2 requested
  | None => LookupNotFound
  end.
Definition found_kind (m : Machine) (requested : string) : option (string * NodeKind) :=
  match resolved_name m requested with
  | Found path => node ← ok (metadata (m_vfs m) "/" path true); Some (path, nd_kind node)
  | _ => None
  end.

(** The counter of bytes read is only compared inside [dispatch], so the queries leave it out. *)
Definition resolves_to_process_image (m : Machine) (requested : string) : bool :=
  match found_kind m requested with
  | Some (_, NativeExecutable image) => runs_native_process image
  | Some (path, File _) => reads_wasm (read_range (m_vfs m) "/" path 0 4).2
  | _ => false
  end.
Definition resolved_native_image (m : Machine) (requested : string) : option NativeProgram :=
  match found_kind m requested with Some (_, NativeExecutable image) => Some image | _ => None end.

Definition bare_builtin (requested : string) : bool := negb (has_slash requested) && is_shell_builtin_name requested.

Definition execs_native_image (m : Machine) (requested : string) : bool :=
  negb (bare_builtin requested) && resolves_to_process_image m requested.

Definition command_name_for_dispatch (m : Machine) (requested : string) : option string :=
  if bare_builtin requested then Some requested else native_name <$> resolved_native_image m requested.

Definition starts_before_input (m : Machine) (argv : list string) : bool :=
  match argv with
  | [] => false
  | requested :: _ =>
      execs_native_image m requested ||
      match command_name_for_dispatch m requested ≫= registry with
      | Some spec => match cs_kind spec with KindResumable => true | _ => false end
      | None => false
      end
  end.

Definition input_commands : list string :=
  ["apply_patch"; "awk"; "base32"; "base64"; "bc"; "cat"; "cksum"; "column"; "cut"; "dd"; "envsubst"; "expand"; "fgrep";
   "fmt"; "fold"; "grep"; "gzip"; "gunzip"; "hexdump"; "head"; "jq"; "mapfile"; "md5sum"; "nl"; "od"; "paste"; "patch";
   "pr"; "readarray"; "rev"; "rg"; "sed"; "sha1sum"; "sha256sum"; "sha512sum"; "sort"; "strings"; "tac"; "tail"; "tee";
   "tr"; "unexpand"; "uniq"; "wc"; "xargs"; "xxd"; "zcat"].

Definition buffers_standard_input (m : Machine) (argv : list string) : bool :=
  match argv with
  | [] => false
  | requested :: args =>
      let named :=
        match command_name_for_dispatch m requested with
        | None => false
        | Some command => if bool_decide (command = "git") then git_reads_input args else bool_decide (command ∈ input_commands)
        end in
      if bare_builtin requested then named
      else if resolves_to_process_image m requested then false
      else match found_kind m requested with Some (_, File _) => true | _ => named end
  end.

(** ** Children *)

Definition start_child_command (spec : SpawnSpec) : act (result Z Z) :=
  match sp_argv spec with
  | [] => mret (Err 0)
  | _ =>
      r ← spawn_argv_child launch NODE_SIZE REDIRECT_SIZE spec;
      mret match r with Ok pid => Ok pid | Err _ => Err 125 end
  end.

Definition start_child_sequence_item (spec : SpawnSpec) (remaining : list SpawnSpec) (status : Z) (stop_on_error : bool)
    : act cmd_poll_result :=
  match sp_argv spec with
  | [] => mret (CmdReady status)
  | _ =>
      r ← start_child_command spec;
      mret match r with
           | Ok pid => CmdSwitched (ResumeChildSequence pid remaining status stop_on_error)
           | Err status => CmdReady status
           end
  end.
Definition start_child_sequence (specs : list SpawnSpec) (stop_on_error : bool) : act cmd_poll_result :=
  match specs with
  | [] => mret (CmdReady 0)
  | spec :: remaining => start_child_sequence_item spec remaining 0 stop_on_error
  end.

(** One child with the buffered input. *)
Definition child_of_argv (argv : list string) (stdin : bytes) : SpawnSpec :=
  MkSpawnSpec argv (match stdin with [] => None | _ => Some stdin end) None None false false.

Definition resume_children (pid : Z) (remaining : list SpawnSpec) (status : Z) (stop_on_error : bool) : act cmd_poll_result :=
  ended ← on_machine (gets (λ m, process_status m pid));
  match ended with
  | Some (Exited child_status) =>
      _ ← on_machine (reap_process pid);
      match (if stop_on_error && negb (child_status =? 0) then [] else remaining) with
      | spec :: remaining => start_child_sequence_item spec remaining child_status stop_on_error
      | [] => mret (CmdReady child_status)
      end
  | _ => mret (CmdBlocked (Scheduler.Child pid) (ResumeChildSequence pid remaining status stop_on_error))
  end.

(** [commands::resume]. *)
Definition resume (continuation : CommandResume) : act cmd_poll_result :=
  match continuation with
  | ResumeFileLock fd mode nonblocking => on_machine (resume_flock fd mode nonblocking)
  | ResumeWait pids status explicit => on_machine (wait_for pids status explicit)
  | ResumeForeground pid => on_machine (wait_foreground pid)
  | ResumeChildSequence pid remaining status stop_on_error => resume_children pid remaining status stop_on_error
  end.

(** ** Scripts *)

(** The interpreter a script names and the words after it. *)
Definition script_interpreter (line : bytes) : option (string * list string) :=
  if negb (valid_utf8 line) then None
  else
    match whitespace_words (str_drop 2 (String.string_of_list_byte line)) with
    | interpreter :: words => if starts_with "/" interpreter then Some (interpreter, words) else None
    | [] => None
    end.

Definition starts_with_bytes (prefix data : bytes) : bool := bool_decide (take (length prefix) data = prefix).

(** The arguments that run a script, or the diagnostic. *)
Definition script_argv (path : string) (data : bytes) : mach (option (list string)) :=
  if starts_with_bytes wasm_magic data then mret (Some [path])
  else if starts_with_bytes (to_bytes "#!") (first_line data) then
    match script_interpreter (first_line data) with
    | None => mret None
    | Some (interpreter, words) =>
        lookup ← resolve_executable interpreter;
        mret match lookup with Found interpreter => Some (interpreter :: words ++ [path]) | _ => None end
    end
  else mret (Some ["/usr/bin/sh"; path]).

Definition try_exec_script (path : string) (args : list string) (stdin : bytes) : act (option outcome_of) :=
  data ← on_machine (vfs_do (λ v, vfs_read v "/" path));
  match data with
  | Err _ => mret None
  | Ok data =>
      argv ← on_machine (script_argv path data);
      match argv with
      | None => mret (Some (CmdReady 126, [], to_bytes (path +:+ ": unsupported script interpreter" +:+ newline)))
      | Some argv =>
          result ← start_child_sequence [child_of_argv (argv ++ args) stdin] true;
          mret (Some (result, [], []))
      end
  end.

(** ** Dispatch *)

Definition stop_status (m : Machine) : Z :=
  match rs_stop_reason (m_resources m) with Some reason => stop_exit_status reason | None => 137 end.

(** What may still be printed: standard output first. *)
Definition truncate_output (out err : bytes) (nested remaining : Z) : bytes * bytes :=
  let total := sat_add64 (zlen out) (zlen err) in
  let unaccounted := sat_sub total nested in
  if remaining <? unaccounted then
    let allowed := sat_sub total (unaccounted - remaining) in
    let allowed_out := Z.min (zlen out) allowed in
    (take (Z.to_nat allowed_out) out, take (Z.to_nat (Z.min (zlen err) (sat_sub allowed allowed_out))) err)
  else (out, err).

Definition is_switched (result : cmd_poll_result) : bool := match result with CmdSwitched _ => true | _ => false end.

(** A registered command runs: its cost is charged before it starts and after it printed. *)
Definition run_spec (spec : CommandSpec N) (name : string) (args : list string) (stdin : bytes) : act outcome_of :=
  cpu_before ← on_machine (gets (λ m, rs_cpu_used (m_resources m)));
  disk_before ← on_machine (gets (λ m, vf_disk_used (m_vfs m)));
  read_before ← on_machine (gets (λ m, vf_read_bytes (m_vfs m)));
  let input_bytes := zlen stdin in
  let arg_bytes := foldr (λ a total, str_len a + total) 0 args in
  let working_memory := sat_add64 (cs_base_memory spec) input_bytes in
  charged ← on_machine (charge (sat_add64 (cs_base_cpu spec) arg_bytes));
  granted ← (if charged : bool then on_machine (reserve working_memory) else mret false);
  if negb granted then status ← on_machine (gets stop_status); mret (CmdReady status, [], [])
  else
    meter ← on_machine (gets (λ m, rs_output_bytes (m_resources m)));
    _ ← on_machine sync_vfs_time;
    '(result, out, err) ← cs_run spec name args stdin;
    r ← on_machine (gets m_resources);
    let nested := sat_sub (rs_output_bytes r) meter in
    let output_bytes := sat_add64 (zlen out) (zlen err) in
    let printed := truncate_output out err nested (output_remaining r) in
    read_after ← on_machine (gets (λ m, vf_read_bytes (m_vfs m)));
    _ ← on_machine (charge (sat_add64 (sat_add64 input_bytes output_bytes) (sat_sub read_after read_before)));
    _ ← on_machine (modify (λ m, set_resources m (charge_output (m_resources m) (sat_sub output_bytes nested)).1));
    _ ← on_machine (release_bytes working_memory);
    _ ← on_machine sync_shell_memory;
    _ ← on_machine (modify (λ m,
          set_resources m (record_command (m_resources m) name cpu_before disk_before (vf_disk_used (m_vfs m)))));
    stop ← on_machine (gets (λ m, rs_stop_reason (m_resources m)));
    mret (match stop with
          | Some reason => if is_switched result then result else CmdReady (stop_exit_status reason)
          | None => result
          end, printed.1, printed.2).

(** Nothing registered: a script, or nothing. *)
Definition run_file (requested : string) (args : list string) (stdin : bytes) : act outcome_of :=
  let not_found := mret (CmdReady 127, [], to_bytes (requested +:+ ": command not found" +:+ newline)) in
  _ ← on_machine sync_vfs_time;
  lookup ← on_machine (resolve_executable requested);
  match lookup with
  | Found path =>
      result ← try_exec_script path args stdin;
      match result with Some result => mret result | None => not_found end
  | NotExecutable path =>
      mret (CmdReady 126, [], to_bytes (requested +:+ ": " +:+ path +:+ ": permission denied" +:+ newline))
  | LookupNotFound => not_found
  end.

(** The key of a native image: the path that registered it, or its name. *)
Definition lookup_key (native : option NativeProgram) (name : string) : string :=
  match native with Some (Registered path) => path | _ => name end.

Definition dispatch (argv : list string) (stdin : bytes) : act outcome_of :=
  match argv with
  | [] => panic
  | requested :: args =>
      let builtin := bare_builtin requested in
      native ← on_machine (gets (λ m, if builtin then None else resolved_native_image m requested));
      native_process ← on_machine (gets (λ m, negb builtin && execs_native_image m requested));
      if native_process : bool then
        result ← start_child_sequence [child_of_argv argv stdin] true; mret (result, [], [])
      else
        let name := match native with Some image => native_name image | None => requested end in
        match (if builtin || bool_decide (is_Some native) then registry (lookup_key native name) else None) with
        | Some spec => run_spec spec name args stdin
        | None => run_file requested args stdin
        end
  end.

End commands.
