(* ===== verification/ProgramArgs.v ===== *)
(** * Arguments and output of native programs (src/src/commands/, src/src/program/nice.rs)

    Durations, the options of [head], [timeout] and [nice], and the batches of [xargs]; what [echo]
    and [printf] print (src/src/commands/echo.rs, printf.rs, util.rs): escapes, and conversions of
    arguments under a format that is used again until the arguments run out. [fixed] formats a
    floating-point number: the text of an argument with so many digits after the point. *)

From stdpp Require Import pretty.
From S2P Require Import Prelude.
From S2P Require Import RustStr.
From S2P Require Import State.
From S2P Require Import Process.
From S2P Require Import Clock.
From S2P Require Import Expand.
From S2P Require Import ExpandText.
From S2P Require Import ExecText.
From S2P Require Import CommandIo.

(** ** Durations (src/src/commands/util.rs) *)

Definition U128_MAX : Z := 2 ^ 128 - 1.

(** The messages show their input with [Debug]. *)
Definition invalid_duration (input : string) : string := "invalid duration " +:+ debug_text input.
Definition duration_too_large (input : string) : string := "duration is too large: " +:+ debug_text input.

Definition micro_suffix : string := utf8 [194; 181; 115]%nat.

(** The suffixes in the order they are tried, and what one unit is in nanoseconds. *)
Definition duration_units : list (string * Z) :=
  [("ns", 1); ("us", NANOS_PER_MICROSECOND); (micro_suffix, NANOS_PER_MICROSECOND); ("ms", NANOS_PER_MILLISECOND);
   ("s", NANOS_PER_SECOND); ("m", 60 * NANOS_PER_SECOND); ("h", 60 * 60 * NANOS_PER_SECOND);
   ("d", 24 * 60 * 60 * NANOS_PER_SECOND)].

Fixpoint split_unit (units : list (string * Z)) (input : string) : string * Z :=
  match units with
  | [] => (input, NANOS_PER_SECOND)
  | (suffix, multiplier) :: units =>
      match strip_suffix suffix input with
      | Some number => (number, multiplier)
      | None => split_unit units input
      end
  end.

Definition all_digits (s : string) : bool := forallb (λ c, digit_code (Ascii.N_of_ascii c)) (String.list_ascii_of_string s).

Definition checked_u128 (n : Z) : option Z := if n <=? U128_MAX then Some n else None.

(** The nanoseconds of the digits after the point. *)
Definition fraction_nanos (digits : string) (multiplier : Z) : option Z :=
  let significant := str_take (Nat.min (String.length digits) 38) digits in
  numerator ← parse_unsigned U128_MAX significant;
  product ← checked_u128 (numerator * multiplier);
  Some (product / 10 ^ str_len significant).

Definition whole_nanos (whole : string) (multiplier : Z) : option Z :=
  if bool_decide (whole = "") then Some 0
  else n ← parse_unsigned U128_MAX whole; checked_u128 (n * multiplier).

Definition well_formed_number (whole : string) (fraction : option string) (more : bool) : bool :=
  negb more && (bool_decide (whole = "") || all_digits whole) &&
  match fraction with Some digits => all_digits digits | None => true end &&
  negb (bool_decide (whole = "") && match fraction with Some digits => bool_decide (digits = "") | None => true end).

Definition parse_duration_ns (argument : string) : result string Z :=
  let input := trim argument in
  let '(number, multiplier) := split_unit duration_units input in
  let number := default number (strip_prefix "+" number) in
  if bool_decide (number = "") || starts_with "-" number then Err (invalid_duration input)
  else
    let pieces := split_str "." number in
    let whole := default "" (head pieces) in
    let fraction := head (tail pieces) in
    if negb (well_formed_number whole fraction (1 <? zlen (tail pieces))) then Err (invalid_duration input)
    else
      match whole_nanos whole multiplier with
      | None => Err (duration_too_large input)
      | Some nanos =>
          let total :=
            match fraction with
            | Some digits =>
                if bool_decide (digits = "") then Some nanos
                else more ← fraction_nanos digits multiplier; checked_u128 (nanos + more)
            | None => Some nanos
            end in
          match total with
          | Some nanos => if nanos <=? U64_MAX then Ok nanos else Err (duration_too_large input)
          | None => Err (duration_too_large input)
          end
      end.

(** ** [head] (src/src/commands/streams.rs) *)

Record HeadOptions := MkHeadOptions { ho_lines : Z; ho_bytes : option Z; ho_files : list string }.

Definition head_lines (o : HeadOptions) (value shown : string) : result string HeadOptions :=
  match parse_unsigned U64_MAX value with
  | Some n => Ok (MkHeadOptions n None (ho_files o))
  | None => Err ("invalid number of lines: " +:+ shown)
  end.
Definition head_bytes (o : HeadOptions) (value : string) : result string HeadOptions :=
  match parse_unsigned U64_MAX value with
  | Some n => Ok (MkHeadOptions (ho_lines o) (Some n) (ho_files o))
  | None => Err ("invalid number of bytes: " +:+ value)
  end.
Definition head_file (o : HeadOptions) (file : string) : HeadOptions :=
  MkHeadOptions (ho_lines o) (ho_bytes o) (ho_files o ++ [file]).

(** [operands]: the rest are files. *)
Fixpoint head_args (operands : bool) (args : list string) (o : HeadOptions) : result string HeadOptions :=
  match args with
  | [] => Ok o
  | arg :: args =>
      if operands then head_args true args (head_file o arg)
      else if bool_decide (arg = "--") then head_args true args o
      else if bool_decide (arg = "-n") then
        match args with
        | [] => Err "option requires an argument -- 'n'"
        | value :: args => o ← head_lines o value value; head_args false args o
        end
      else
        match strip_prefix "-n" arg with
        | Some value => o ← head_lines o value value; head_args false args o
        | None =>
            if bool_decide (arg = "-c") then
              match args with
              | [] => Err "option requires an argument -- 'c'"
              | value :: args => o ← head_bytes o value; head_args false args o
              end
            else
              match strip_prefix "-c" arg with
              | Some value => o ← head_bytes o value; head_args false args o
              | None =>
                  if starts_with "-" arg && (1 <? str_len arg) && all_digits (str_drop 1 arg) then
                    o ← head_lines o (str_drop 1 arg) arg; head_args false args o
                  else if negb (starts_with "-" arg) || bool_decide (arg = "-") then head_args false args (head_file o arg)
                  else Err ("unimplemented option '" +:+ arg +:+ "'")
              end
        end
  end.
Definition parse_head_options (args : list string) : result string HeadOptions := head_args false args (MkHeadOptions 10 None []).

(** ** [timeout] (src/src/commands/proc.rs) *)

Record TimeoutInvocation := MkTimeoutInvocation {
  ti_duration : Z;
  ti_preserve_status : bool;
  ti_foreground : bool;
  ti_signal : Signal;
  ti_kill_after : option Z;
  ti_argv : list string
}.

Definition timeout_signal (value : string) : result string Signal :=
  match signal_parse value with
  | Some signal => if signal_terminates signal then Ok signal else Err ("unsupported signal '" +:+ value +:+ "'")
  | None => Err ("unsupported signal '" +:+ value +:+ "'")
  end.

(** [option.trim_start_matches(prefix)]: every copy of the prefix. *)
Fixpoint trim_prefixes (fuel : nat) (prefix s : string) : string :=
  match fuel with
  | O => s
  | S fuel => match strip_prefix prefix s with Some s => trim_prefixes fuel prefix s | None => s end
  end.
Definition trim_start_matches (prefix s : string) : string := trim_prefixes (String.length s) prefix s.

Definition ti_with_signal (t : TimeoutInvocation) (signal : Signal) : TimeoutInvocation :=
  MkTimeoutInvocation (ti_duration t) (ti_preserve_status t) (ti_foreground t) signal (ti_kill_after t) (ti_argv t).
Definition ti_with_kill_after (t : TimeoutInvocation) (after : Z) : TimeoutInvocation :=
  MkTimeoutInvocation (ti_duration t) (ti_preserve_status t) (ti_foreground t) (ti_signal t) (Some after) (ti_argv t).

(** The options, and the operands after them. *)
Fixpoint timeout_args (args : list string) (t : TimeoutInvocation) : result string (TimeoutInvocation * list string) :=
  match args with
  | [] => Ok (t, [])
  | arg :: rest =>
      let on names := bool_decide (arg ∈ names) in
      if on ["--preserve-status"] then
        timeout_args rest (MkTimeoutInvocation (ti_duration t) true (ti_foreground t) (ti_signal t) (ti_kill_after t) (ti_argv t))
      else if on ["--foreground"] then
        timeout_args rest (MkTimeoutInvocation (ti_duration t) (ti_preserve_status t) true (ti_signal t) (ti_kill_after t) (ti_argv t))
      else if on ["-s"; "--signal"] then
        match rest with
        | [] => Err "option requires a signal"
        | value :: rest => signal ← timeout_signal value; timeout_args rest (ti_with_signal t signal)
        end
      else if starts_with "--signal=" arg then
        signal ← timeout_signal (trim_start_matches "--signal=" arg); timeout_args rest (ti_with_signal t signal)
      else if on ["-k"; "--kill-after"] then
        match rest with
        | [] => Err "option requires an argument -- 'k'"
        | value :: rest => after ← parse_duration_ns value; timeout_args rest (ti_with_kill_after t after)
        end
      else if starts_with "--kill-after=" arg then
        after ← parse_duration_ns (trim_start_matches "--kill-after=" arg); timeout_args rest (ti_with_kill_after t after)
      else if on ["--"] then Ok (t, rest)
      else if starts_with "-" arg then Err ("unsupported option '" +:+ arg +:+ "'")
      else Ok (t, args)
  end.

Definition parse_timeout (args : list string) : result string TimeoutInvocation :=
  '(t, operands) ← timeout_args args (MkTimeoutInvocation 0 false false Terminate None []);
  match operands with
  | [] => Err "missing operand"
  | value :: argv =>
      duration ← parse_duration_ns value;
      match argv with
      | [] => Err "missing command"
      | _ => Ok (MkTimeoutInvocation duration (ti_preserve_status t) (ti_foreground t) (ti_signal t) (ti_kill_after t) argv)
      end
  end.

(** ** [nice] *)

(** The adjustment and the arguments after it. *)
Definition nice_adjustment (args : list string) : result string (string * list string) :=
  match args with
  | arg :: rest =>
      if bool_decide (arg = "-n") || bool_decide (arg = "--adjustment") then
        match rest with
        | adjustment :: rest => Ok (adjustment, rest)
        | [] => Err "option requires an argument -- 'n'"
        end
      else
        match strip_prefix "--adjustment=" arg with
        | Some adjustment => Ok (adjustment, rest)
        | None =>
            match strip_prefix "-n" arg with
            | Some adjustment => Ok (adjustment, rest)
            | None =>
                if (1 <? str_len arg) && starts_with "-" arg && negb (bool_decide (arg = "--"))
                then Ok (str_drop 1 arg, rest) else Ok ("0", args)
            end
        end
  | [] => Ok ("0", [])
  end.

Definition parse_nice (args : list string) : result string (list string) :=
  '(adjustment, rest) ← nice_adjustment args;
  if bool_decide (parse_i64 adjustment = None) then Err ("invalid adjustment '" +:+ adjustment +:+ "'")
  else Ok (match rest with "--" :: rest => rest | _ => rest end).

(** ** [xargs] (src/src/commands/xargs.rs) *)

Definition MAX_TOKENS : nat := 65536.
Definition MAX_ARGUMENT_BYTES : Z := 16 * 1024 * 1024.

Record XargsOptions := MkXargsOptions {
  xo_replace : option string;
  xo_nper : option Z;
  xo_nul_delimited : bool;
  xo_no_run_if_empty : bool
}.

Definition xo_with_replace (o : XargsOptions) (marker : string) : XargsOptions :=
  MkXargsOptions (Some marker) (xo_nper o) (xo_nul_delimited o) (xo_no_run_if_empty o).

Definition xargs_number (o : XargsOptions) (value : option string) : result string XargsOptions :=
  match value ≫= parse_unsigned U64_MAX with
  | None => Err "xargs: invalid number for -n"
  | Some n =>
      if n =? 0 then Err "xargs: -n requires a positive number"
      else Ok (MkXargsOptions (xo_replace o) (Some n) (xo_nul_delimited o) (xo_no_run_if_empty o))
  end.

(** The options, and the command after them. *)
Fixpoint xargs_options (args : list string) (o : XargsOptions) : result string (XargsOptions * list string) :=
  match args with
  | [] => Ok (o, [])
  | arg :: rest =>
      if bool_decide (arg = "-I") then
        match rest with
        | [] => Err "xargs: option requires an argument -- 'I'"
        | value :: rest => xargs_options rest (xo_with_replace o value)
        end
      else if starts_with "-I" arg && (2 <? str_len arg) then xargs_options rest (xo_with_replace o (str_drop 2 arg))
      else if bool_decide (arg = "-n") then
        o ← xargs_number o (head rest);
        match rest with [] => Ok (o, []) | _ :: rest => xargs_options rest o end
      else if starts_with "-n" arg && (2 <? str_len arg) then
        o ← xargs_number o (Some (str_drop 2 arg)); xargs_options rest o
      else if bool_decide (arg = "-0") then
        xargs_options rest (MkXargsOptions (xo_replace o) (xo_nper o) true (xo_no_run_if_empty o))
      else if bool_decide (arg = "-r") || bool_decide (arg = "--no-run-if-empty") then
        xargs_options rest (MkXargsOptions (xo_replace o) (xo_nper o) (xo_nul_delimited o) true)
      else if bool_decide (arg = "--") then Ok (o, rest)
      else if starts_with "-" arg then Err ("xargs: unsupported option '" +:+ arg +:+ "'")
      else Ok (o, args)
  end.

Definition nul : string := String (Ascii.ascii_of_nat 0) EmptyString.

Definition xargs_tokens (o : XargsOptions) (stdin : bytes) : list string :=
  let input := from_utf8_lossy stdin in
  take (S MAX_TOKENS)
    (if xo_nul_delimited o then filter (λ token, token ≠ "") (split_str nul input) else whitespace_words input).

Definition words_len (words : list string) : Z := foldr (λ word total, str_len word + total) 0 words.

Definition arguments_exceed : string := "xargs: arguments exceed 16 MiB".

(** The bytes of [cmd] with [token] for every [marker]. *)
Definition expanded_bytes (cmd : list string) (marker token : string) : option Z :=
  foldl (λ total arg,
    total ← total;
    let count := Z.of_nat (count_matches marker arg) in
    removed ← (if count * str_len marker <=? U64_MAX then Some (count * str_len marker) else None);
    inserted ← (if count * str_len token <=? U64_MAX then Some (count * str_len token) else None);
    kept ← (if removed <=? str_len arg then checked_add64 (str_len arg - removed) inserted else None);
    checked_add64 total kept) (Some 0) cmd.

(** One command per token. *)
Fixpoint replaced_commands (cmd : list string) (marker : string) (tokens : list string) (used : Z)
    : result string (list (list string)) :=
  match tokens with
  | [] => Ok []
  | token :: tokens =>
      let used := sat_add64 used (default U64_MAX (expanded_bytes cmd marker token)) in
      if MAX_ARGUMENT_BYTES <? used then Err arguments_exceed
      else
        commands ← replaced_commands cmd marker tokens used;
        Ok (map (replace_all marker token) cmd :: commands)
  end.

(** One command per batch of [per] tokens. Every round takes a token. *)
Fixpoint batched_commands (fuel : nat) (cmd : list string) (per : Z) (tokens : list string) (used : Z)
    : result string (list (list string)) :=
  match fuel, tokens with
  | S fuel, _ :: _ =>
      let n := Z.to_nat (Z.min per (zlen tokens)) in
      let used := sat_add64 (sat_add64 used (words_len cmd)) (words_len (take n tokens)) in
      if MAX_ARGUMENT_BYTES <? used then Err arguments_exceed
      else
        commands ← batched_commands fuel cmd per (drop n tokens) used;
        Ok ((cmd ++ take n tokens) :: commands)
  | _, _ => Ok []
  end.

Definition xargs_commands (args : list string) (stdin : bytes) : result string (list (list string)) :=
  '(o, cmd) ← xargs_options args (MkXargsOptions None None false false);
  let cmd := match cmd with [] => ["echo"] | _ => cmd end in
  let tokens := xargs_tokens o stdin in
  if (MAX_TOKENS <? length tokens)%nat then Err "xargs: too many input arguments"
  else if bool_decide (tokens = []) then
    if MAX_ARGUMENT_BYTES <? words_len cmd then Err arguments_exceed
    else Ok (if xo_no_run_if_empty o then [] else [cmd])
  else
    match xo_replace o with
    | Some marker =>
        if bool_decide (marker = "") then Err "xargs: empty replacement marker" else replaced_commands cmd marker tokens 0
    | None => batched_commands (length tokens) cmd (Z.max 1 (default (zlen tokens) (xo_nper o))) tokens 0
    end.

(** ** Escapes (src/src/commands/util.rs) *)

(** The code of a character between two bounds. *)
Definition char_between (lo hi : N) (c : string) : bool := code_is (in_range lo hi) c.
Definition is_octal (c : string) : bool := char_between 48 55 c.
Definition is_hex (c : string) : bool := is_ascii_digit c || char_between 65 70 c || char_between 97 102 c.

Definition hex_value (c : string) : Z :=
  match char_code c with
  | Some n => Z.of_N (if (n <=? 57)%N then n - 48 else if (n <=? 70)%N then n - 55 else n - 87)%N
  | None => 0
  end.
Definition radix_value (radix : Z) (digits : list string) : Z := foldl (λ v c, v * radix + hex_value c) 0 digits.

(** [char::from] of a byte, as UTF-8. *)
Definition latin1 (value : Z) : string :=
  if value <? 128 then utf8 [Z.to_nat value] else utf8 [192 + Z.to_nat value / 64; 128 + Z.to_nat value mod 64]%nat.

(** At most [n] leading characters of a class, and the rest. *)
Fixpoint span_at_most (n : nat) (p : string → bool) (chars : list string) : list string * list string :=
  match n, chars with
  | S n, c :: rest => if p c then let '(l, r) := span_at_most n p rest in (c :: l, r) else ([], chars)
  | _, _ => ([], chars)
  end.

Definition simple_escape (c : string) : option string :=
  let code n := Some (utf8 [n]) in
  if bool_decide (c = "n") then code 10%nat else if bool_decide (c = "t") then code 9%nat
  else if bool_decide (c = "r") then code 13%nat else if bool_decide (c = "\") then Some "\"
  else if bool_decide (c = "a") then code 7%nat else if bool_decide (c = "b") then code 8%nat
  else if bool_decide (c = "f") then code 12%nat else if bool_decide (c = "v") then code 11%nat
  else if bool_decide (c = "e") then code 27%nat else None.

(** What the escape that starts with [c] stands for, and the characters after it. *)
Definition escape (c : string) (chars : list string) : string * list string :=
  match simple_escape c with
  | Some text => (text, chars)
  | None =>
      if is_octal c then
        let '(more, rest) := span_at_most 2 is_octal chars in
        let value := radix_value 8 (c :: more) in
        (if value <=? 255 then latin1 value else "", rest)
      else if bool_decide (c = "x") then
        let '(digits, rest) := span_at_most 2 is_hex chars in
        (match digits with [] => "\x" | _ => latin1 (radix_value 16 digits) end, rest)
      else ("\" +:+ c, chars)
  end.

(** Every round takes a character. *)
Fixpoint unescape_chars (fuel : nat) (chars : list string) : string :=
  match fuel, chars with
  | S fuel, c :: chars =>
      if bool_decide (c = "\") then
        match chars with
        | [] => "\"
        | c :: chars => let '(text, rest) := escape c chars in text +:+ unescape_chars fuel rest
        end
      else c +:+ unescape_chars fuel chars
  | _, _ => ""
  end.
Definition unescape (s : string) : string := let chars := utf8_chars s in unescape_chars (length chars) chars.

(** ** [echo] *)

Record EchoFlags := MkEchoFlags { ec_newline : bool; ec_interpret : bool }.

Fixpoint echo_args (args : list string) (f : EchoFlags) : EchoFlags * list string :=
  match args with
  | [] => (f, [])
  | a :: rest =>
      if bool_decide (a = "-n") then echo_args rest (MkEchoFlags false (ec_interpret f))
      else if bool_decide (a = "-e") then echo_args rest (MkEchoFlags (ec_newline f) true)
      else if bool_decide (a = "-E") then echo_args rest (MkEchoFlags (ec_newline f) false)
      else if bool_decide (a = "-ne") || bool_decide (a = "-en") then echo_args rest (MkEchoFlags false true)
      else (f, args)
  end.

Definition echo_output (args : list string) : string :=
  let '(f, words) := echo_args args (MkEchoFlags true false) in
  let text := String.concat " " words in
  (if ec_interpret f then unescape text else text) +:+ (if ec_newline f then newline else "").

(** ** [printf] *)

Record FormatSpec := MkFormatSpec {
  fs_left : bool;
  fs_zero : bool;
  fs_positive_sign : string;
  fs_width : option Z;
  fs_precision : option Z;
  fs_conversion : string
}.

Definition MAX_F64_INTEGER_DIGITS : Z := 310.

(** [format!("{:x}")] and the like of the 64 bits of a value. *)
Fixpoint radix_digits (fuel : nat) (radix n : N) (digit : N → string) : string :=
  match fuel with
  | O => ""
  | S fuel => (if (n <? radix)%N then "" else radix_digits fuel radix (n / radix) digit) +:+ digit (n mod radix)%N
  end.
Definition unsigned_bits (v : Z) : N := Z.to_N (v mod 2 ^ 64).
Definition lower_digit (n : N) : string := hex_digit n.
Definition upper_digit (n : N) : string := to_ascii_uppercase (hex_digit n).
Definition radix_text (radix : N) (digit : N → string) (v : Z) : string := radix_digits 22 radix (unsigned_bits v) digit.

(** Flags, in any order. *)
Definition format_flag (f : FormatSpec) (c : string) : FormatSpec :=
  let sign s := MkFormatSpec (fs_left f) (fs_zero f) s (fs_width f) (fs_precision f) (fs_conversion f) in
  if bool_decide (c = "-") then MkFormatSpec true (fs_zero f) (fs_positive_sign f) (fs_width f) (fs_precision f) (fs_conversion f)
  else if bool_decide (c = "0") then MkFormatSpec (fs_left f) true (fs_positive_sign f) (fs_width f) (fs_precision f) (fs_conversion f)
  else if bool_decide (c = "+") then sign "+"
  else if bool_decide (c = " ") && bool_decide (fs_positive_sign f = "") then sign " "
  else f.

Definition is_flag (c : string) : bool := bool_decide (c ∈ ["-"; "+"; " "; "0"; "#"]).
Fixpoint format_flags (chars : list string) (f : FormatSpec) : FormatSpec * list string :=
  match chars with
  | c :: rest => if is_flag c then format_flags rest (format_flag f c) else (f, chars)
  | [] => (f, [])
  end.

Definition saturating_digits (digits : list string) : Z :=
  foldl (λ v c, sat_add64 (sat_mul64 v 10) (hex_value c)) 0 digits.
(** [digits]. *)
Definition take_digits (chars : list string) : option Z * list string :=
  match take_while is_ascii_digit chars with
  | [] => (None, chars)
  | digits => (Some (saturating_digits digits), drop_while is_ascii_digit chars)
  end.

(** The next argument, empty when they have run out; [used] counts them all. *)
Definition number_or_zero (arg : string) : Z := default 0 (parse_i64 (trim arg)).

Record Arguments := MkArguments { ar_args : list string; ar_used : nat }.
Definition next_argument (a : Arguments) : string * Arguments :=
  (default "" (ar_args a !! ar_used a), MkArguments (ar_args a) (S (ar_used a))).

Definition with_width (f : FormatSpec) (left : bool) (width : option Z) : FormatSpec :=
  MkFormatSpec left (fs_zero f) (fs_positive_sign f) width (fs_precision f) (fs_conversion f).
Definition with_precision (f : FormatSpec) (precision : option Z) : FormatSpec :=
  MkFormatSpec (fs_left f) (fs_zero f) (fs_positive_sign f) (fs_width f) precision (fs_conversion f).
Definition with_conversion (f : FormatSpec) (conversion : string) : FormatSpec :=
  MkFormatSpec (fs_left f) (fs_zero f) (fs_positive_sign f) (fs_width f) (fs_precision f) conversion.

Definition format_width (f : FormatSpec) (chars : list string) (a : Arguments) : FormatSpec * list string * Arguments :=
  match chars with
  | "*" :: chars =>
      let '(arg, a) := next_argument a in
      let width := number_or_zero arg in
      (with_width f (fs_left f || (width <? 0)) (Some (Z.abs width)), chars, a)
  | _ => let '(width, chars) := take_digits chars in (with_width f (fs_left f) width, chars, a)
  end.

Definition format_precision (f : FormatSpec) (chars : list string) (a : Arguments) : FormatSpec * list string * Arguments :=
  match chars with
  | "." :: "*" :: chars =>
      let '(arg, a) := next_argument a in
      let precision := number_or_zero arg in
      (with_precision f (if precision <? 0 then None else Some precision), chars, a)
  | "." :: chars => let '(precision, chars) := take_digits chars in (with_precision f (Some (default 0 precision)), chars, a)
  | _ => (f, chars, a)
  end.

(** A conversion after its [%]: its parts, what is left of the format, and of the arguments. *)
Definition parse_spec (chars : list string) (a : Arguments) : FormatSpec * list string * Arguments :=
  let '(f, chars) := format_flags chars (MkFormatSpec false false "" None None "s") in
  let '(f, chars, a) := format_width f chars a in
  let '(f, chars, a) := format_precision f chars a in
  (with_conversion f (default "s" (head chars)), drop 1 chars, a).

(** [%b]: the escapes of the argument up to [\c], which ends all output. *)
Definition unescape_argument (argument : string) : string * bool :=
  match split_once_str "\c" argument with
  | Some (before, _) => (unescape before, true)
  | None => (unescape argument, false)
  end.

Definition signed_text (f : FormatSpec) (value : Z) : string :=
  if 0 <=? value then fs_positive_sign f +:+ pretty value else pretty value.

Definition padding (n : Z) (text : string) : string := collect (replicate (Z.to_nat n) text).

(** [body] padded to a width above its length. *)
Definition pad_body (f : FormatSpec) (body : string) (width : Z) : string :=
  let zero := fs_zero f && negb (fs_left f) in
  let pad := padding (width - str_len body) (if zero then "0" else " ") in
  if fs_left f then body +:+ pad
  else if zero && (starts_with "-" body || starts_with "+" body || starts_with " " body)
  then str_take 1 body +:+ pad +:+ str_drop 1 body
  else pad +:+ body.

Section printf.
Context {W : Type} (reserve : Z → stm W bool) (fixed : string → Z → string).

(** The text of a conversion, and whether output ends; nothing when memory runs out. *)
Definition convert (f : FormatSpec) (arg : string) : stm W (option (string * bool)) :=
  let on names := bool_decide (fs_conversion f ∈ names) in
  let text s := mret (Some (s, false)) in
  if on ["d"; "i"] then text (signed_text f (number_or_zero arg))
  else if on ["x"] then text (radix_text 16 lower_digit (number_or_zero arg))
  else if on ["X"] then text (radix_text 16 upper_digit (number_or_zero arg))
  else if on ["o"] then text (radix_text 8 lower_digit (number_or_zero arg))
  else if on ["f"; "F"] then
    let precision := default 6 (fs_precision f) in
    granted ← reserve (sat_add64 precision MAX_F64_INTEGER_DIGITS);
    if granted : bool then text (fixed (trim arg) precision) else mret None
  else if on ["s"] then
    text match fs_precision f with Some n => collect (take (Z.to_nat n) (utf8_chars arg)) | None => arg end
  else if on ["c"] then text (default "" (head (utf8_chars arg)))
  else if on ["b"] then mret (Some (unescape_argument arg))
  else text arg.

Definition apply_conversion (f : FormatSpec) (arg : string) : stm W (option (string * bool)) :=
  converted ← convert f arg;
  match converted with
  | None => mret None
  | Some (body, stop) =>
      match fs_width f with
      | Some width =>
          if str_len body <? width then
            granted ← reserve width;
            mret (if granted : bool then Some (pad_body f body width, stop) else None)
          else mret (Some (body, stop))
      | None => mret (Some (body, stop))
      end
  end.

(** The format once: what it prints, the arguments after it, and whether output ends. Every round
    takes a character. *)
Fixpoint format_once (fuel : nat) (chars : list string) (a : Arguments) (out : string)
    : stm W (option (string * Arguments * bool)) :=
  match fuel, chars with
  | S fuel, c :: chars =>
      if negb (bool_decide (c = "%")) then format_once fuel chars a (out +:+ c)
      else if bool_decide (head chars = Some "%") then format_once fuel (drop 1 chars) a (out +:+ "%")
      else
        let '(f, chars, a) := parse_spec chars a in
        let '(arg, a) := next_argument a in
        rendered ← apply_conversion f arg;
        match rendered with
        | None => mret None
        | Some (text, true) => mret (Some (out +:+ text, a, true))
        | Some (text, false) => format_once fuel chars a (out +:+ text)
        end
  | _, _ => mret (Some (out, a, false))
  end.

(** The format again while it takes arguments and some are left. Every round takes an argument. *)
Fixpoint format_rounds (fuel : nat) (chars : list string) (a : Arguments) (out : string) : stm W (option string) :=
  match fuel with
  | O => out_of_fuel
  | S fuel =>
      formatted ← format_once (length chars) chars a out;
      match formatted with
      | None => mret None
      | Some (out, next, stop) =>
          if stop || bool_decide (length (ar_args a) ≤ ar_used next)%nat || bool_decide (ar_used next = ar_used a)
          then mret (Some out)
          else format_rounds fuel chars next out
      end
  end.

Definition format_args (format : string) (args : list string) : stm W (option string) :=
  format_rounds (S (length args)) (utf8_chars (unescape format)) (MkArguments args 0) "".

End printf.
