(* ===== verification/ProgramSystem.v ===== *)
(** * What native programs run on (src/src/syscalls.rs, src/src/program.rs)

    A native program keeps its own state and is polled: each poll makes a few system calls and says
    how it goes on. Programs run on [System], the operations of the kernel they may call, and know
    nothing else of the machine. Writing goes through [poll_write]. *)

From S2P Require Import Prelude.
From S2P Require Import RustStr.
From S2P Require Import State.
From S2P Require Import Process.
From S2P Require Import Scheduler.
From S2P Require Import Clock.
From S2P Require Import Descriptors.
From S2P Require Import Vfs.
From S2P Require Import Machine.
From S2P Require Import Kernel.
From S2P Require Import ExpandText.
From S2P Require Import ExecData.
From S2P Require Import ExecText.
From S2P Require Import Images.

(** ** The system calls of native programs (src/src/syscalls.rs) *)

Inductive SignalTarget := TargetProcess (pid : Z) | TargetGroup (group : Z).

Abbreviation called A := (result SyscallError A).

Class System (W : Type) := {
  sy_read : Z → Z → stm W (called (IoPoll bytes));
  sy_write : Z → bytes → stm W (called (IoPoll Z));
  sy_open_file : string → string → OpenFile → stm W (called Z);
  sy_close : Z → stm W (called unit);
  sy_cwd : stm W string;
  sy_chdir : string → stm W (called unit);
  sy_is_directory : string → string → stm W bool;
  sy_canonicalize : string → string → bool → stm W (called string);
  sy_environment : stm W (gmap string string);
  sy_charge_cpu : Z → stm W bool;
  sy_reserve_memory : Z → stm W bool;
  sy_release_memory : Z → stm W unit;
  sy_output_remaining : stm W Z;
  sy_charge_output : Z → stm W bool;
  sy_stop_status : stm W Z;
  sy_cpu_used : stm W Z;
  sy_disk_used : stm W Z;
  sy_record_command_usage : string → Z → Z → stm W unit;
  sy_schedule_wake : Z → stm W (called Z);
  sy_monotonic_ns : stm W (called Z);
  sy_spawn_argv : SpawnSpec → stm W (called Z);
  sy_exec_argv : list string → option (gmap string string) → stm W (called unit);
  sy_kill : SignalTarget → Signal → stm W (called unit);
  sy_ignore_signal : Signal → stm W (called unit);
  sy_child_status : Z → stm W (called (option Z));
  sy_reap_child : Z → stm W (called Z)
}.

(** ** Writing (src/src/program.rs) *)

Section writing.
Context {W : Type} {S : System W}.

Definition WRITE_QUANTUM : Z := 4096.

Definition is_broken (error : SyscallError) : bool := match error with SysDescriptor BrokenPipe => true | _ => false end.

(** [bytes[offset..end]]. *)
Definition data_slice (data : bytes) (offset finish : Z) : bytes := take (Z.to_nat (finish - offset)) (drop (Z.to_nat offset) data).

Definition stopped_at (offset : Z) : stm W (Z * ShellPoll) := status ← sy_stop_status; mret (offset, PollReady status).

(** Every round writes a byte of the quantum. *)
Fixpoint write_rounds (rounds : nat) (fd : Z) (data : bytes) (offset quantum status : Z) : stm W (Z * ShellPoll) :=
  match rounds with
  | O => out_of_fuel
  | Datatypes.S rounds =>
      if zlen data <=? offset then mret (offset, PollReady status)
      else if quantum =? 0 then mret (offset, PollPending)
      else
        left ← sy_output_remaining;
        let remaining := Z.min left quantum in
        if remaining =? 0 then _ ← sy_charge_output 1; stopped_at offset
        else
          r ← sy_write fd (data_slice data offset (Z.min (offset + remaining) (zlen data)));
          match r with
          | Ok (Ready 0) => mret (offset, PollReady 1)
          | Ok (Ready written) =>
              granted ← sy_charge_cpu written;
              granted ← (if granted : bool then sy_charge_output written else mret false);
              if negb granted then stopped_at (offset + written)
              else write_rounds rounds fd data (offset + written) (quantum - written) status
          | Ok (Blocked wait) => mret (offset, PollBlocked (io_wait_reason wait))
          | Err error => mret (offset, PollReady (if is_broken error then 141 else 1))
          end
  end.

(** [poll_write]: the new offset, and [status] when everything is written. *)
Definition poll_write (fd : Z) (data : bytes) (offset status : Z) : stm W (Z * ShellPoll) :=
  write_rounds (Datatypes.S (Z.to_nat WRITE_QUANTUM)) fd data offset WRITE_QUANTUM status.

Definition stop_poll {P} (p : P) : stm W (P * ShellPoll) := status ← sy_stop_status; mret (p, PollReady status).

(** A program goes on with [k] when all is written, and keeps the new offset otherwise. *)
Definition when_written {P} (fd : Z) (data : bytes) (offset : Z) (kept : Z → P) (k : Z → stm W (P * ShellPoll))
    : stm W (P * ShellPoll) :=
  '(offset, poll) ← poll_write fd data offset 0;
  match poll with PollReady 0 => k offset | other => mret (kept offset, other) end.

End writing.
