(* ===== verification/Filters.v ===== *)
(** * [cat], [tee] and [head] (src/src/program/)

    Programs that copy what they read. What was read is kept until all of it is written, over polls
    that write a part of it or block. *)

From stdpp Require Import pretty.
From S2P Require Import Prelude.
From S2P Require Import RustStr.
From S2P Require Import State.
From S2P Require Import Process.
From S2P Require Import Scheduler.
From S2P Require Import Clock.
From S2P Require Import Descriptors.
From S2P Require Import Vfs.
From S2P Require Import Machine.
From S2P Require Import Kernel.
From S2P Require Import ExpandText.
From S2P Require Import ExecData.
From S2P Require Import ExecText.
From S2P Require Import Images.
From S2P Require Import ProgramArgs.
From S2P Require Import ProgramSystem.

Definition read_options : OpenFile := MkOpenFile true false false false false false.
Definition is_stdin (source : string) : bool := bool_decide (source = "-") || bool_decide (source = "/dev/stdin").

(** ** [cat] (src/src/program/cat.rs) *)

Record CatProcess := MkCat {
  ca_sources : list string;
  ca_current : option (Z * bool);
  ca_numbered : bool;
  ca_next_line : Z;
  ca_at_line_start : bool;
  ca_pending : bytes;
  ca_offset : Z;
  ca_diagnostic : bytes;
  ca_diagnostic_offset : Z;
  ca_status : Z;
  ca_stop_after_diagnostic : bool
}.

Definition ca_with_current (p : CatProcess) (current : option (Z * bool)) : CatProcess :=
  MkCat (ca_sources p) current (ca_numbered p) (ca_next_line p) (ca_at_line_start p) (ca_pending p) (ca_offset p)
    (ca_diagnostic p) (ca_diagnostic_offset p) (ca_status p) (ca_stop_after_diagnostic p).
Definition ca_with_sources (p : CatProcess) (sources : list string) : CatProcess :=
  MkCat sources (ca_current p) (ca_numbered p) (ca_next_line p) (ca_at_line_start p) (ca_pending p) (ca_offset p)
    (ca_diagnostic p) (ca_diagnostic_offset p) (ca_status p) (ca_stop_after_diagnostic p).
Definition ca_with_pending (p : CatProcess) (pending : bytes) (offset : Z) : CatProcess :=
  MkCat (ca_sources p) (ca_current p) (ca_numbered p) (ca_next_line p) (ca_at_line_start p) pending offset
    (ca_diagnostic p) (ca_diagnostic_offset p) (ca_status p) (ca_stop_after_diagnostic p).
Definition ca_with_diagnostic (p : CatProcess) (diagnostic : bytes) (offset : Z) : CatProcess :=
  MkCat (ca_sources p) (ca_current p) (ca_numbered p) (ca_next_line p) (ca_at_line_start p) (ca_pending p) (ca_offset p)
    diagnostic offset (ca_status p) (ca_stop_after_diagnostic p).
Definition ca_with_status (p : CatProcess) (status : Z) : CatProcess :=
  MkCat (ca_sources p) (ca_current p) (ca_numbered p) (ca_next_line p) (ca_at_line_start p) (ca_pending p) (ca_offset p)
    (ca_diagnostic p) (ca_diagnostic_offset p) status (ca_stop_after_diagnostic p).
Definition ca_with_lines (p : CatProcess) (next_line : Z) (at_line_start : bool) : CatProcess :=
  MkCat (ca_sources p) (ca_current p) (ca_numbered p) next_line at_line_start (ca_pending p) (ca_offset p)
    (ca_diagnostic p) (ca_diagnostic_offset p) (ca_status p) (ca_stop_after_diagnostic p).
Definition ca_fail (p : CatProcess) (message : string) : CatProcess :=
  ca_with_status (ca_with_diagnostic p (to_bytes message) (ca_diagnostic_offset p)) 1.

(** The first flag that is not [n]. *)
Definition cat_flags (flags : list string) : option string := find (λ flag, negb (bool_decide (flag = "n"))) flags.

(** The sources, whether lines are numbered, and the diagnostic of an option. *)
Fixpoint cat_args (options : bool) (args : list string) (sources : list string) (numbered : bool)
    : list string * bool * string :=
  match args with
  | [] => (sources, numbered, "")
  | arg :: args =>
      if options && bool_decide (arg = "--") then cat_args false args sources numbered
      else if options && starts_with "--" arg then
        (sources, numbered, "cat: unimplemented option '" +:+ arg +:+ "'" +:+ newline)
      else if options && starts_with "-" arg && negb (bool_decide (arg = "-")) then
        let flags := utf8_chars (str_drop 1 arg) in
        match cat_flags flags with
        | Some flag =>
            (sources, numbered || bool_decide (head flags = Some "n"),
             "cat: unimplemented option '-" +:+ flag +:+ "'" +:+ newline)
        | None => cat_args options args sources true
        end
      else cat_args options args (sources ++ [arg]) numbered
  end.

Definition cat_new (args : list string) : CatProcess :=
  let '(sources, numbered, diagnostic) := cat_args true args [] false in
  let stop := negb (bool_decide (diagnostic = "")) in
  MkCat (match sources with [] => ["-"] | _ => sources end) None numbered 1 true [] 0 (to_bytes diagnostic) 0
    (if stop then 2 else 0) stop.

Definition LINE_FEED : Byte.byte := Byte.x0a.

(** [format!("{n:6}\t")]. *)
Definition spaces (n : nat) : string := collect (replicate n " ").
Definition line_number (n : Z) : string := spaces (6 - String.length (pretty n)) +:+ pretty n +:+ tab.

(** The lines of [data] numbered from [next_line]: the bytes, the next number and whether a line starts. *)
Fixpoint number_bytes (data : bytes) (next_line : Z) (at_line_start : bool) : bytes * Z * bool :=
  match data with
  | [] => ([], next_line, at_line_start)
  | b :: data =>
      let '(prefix, next_line) :=
        if at_line_start then (to_bytes (line_number next_line), sat_add64 next_line 1) else ([], next_line) in
      let '(rest, next_line, at_line_start) := number_bytes data next_line (bool_decide (b = LINE_FEED)) in
      (prefix ++ b :: rest, next_line, at_line_start)
  end.

Section cat.
Context {W : Type} {S : System W}.

Definition cat_open (p : CatProcess) : stm W (CatProcess * ShellPoll) :=
  match ca_sources p with
  | [] => mret (p, PollReady (ca_status p))
  | source :: sources =>
      let p := ca_with_sources p sources in
      if is_stdin source then mret (ca_with_current p (Some (0, false)), PollPending)
      else
        base ← sy_cwd;
        opened ← sy_open_file base source read_options;
        mret (match opened with
              | Ok fd => ca_with_current p (Some (fd, true))
              | Err error => ca_fail p ("cat: " +:+ source +:+ ": " +:+ syscall_error_display error +:+ newline)
              end, PollPending)
  end.

Definition close_owned (fd : Z) (owned : bool) : stm W bool :=
  if owned then r ← sy_close fd; mret (negb (is_ok r)) else mret false.

(** What was read is kept until it is written. *)
Definition cat_take (p : CatProcess) (data : bytes) : CatProcess :=
  if ca_numbered p then
    let '(numbered, next_line, at_line_start) := number_bytes data (ca_next_line p) (ca_at_line_start p) in
    ca_with_lines (ca_with_pending p (ca_pending p ++ numbered) (ca_offset p)) next_line at_line_start
  else ca_with_pending p data (ca_offset p).

Definition cat_read (p : CatProcess) (fd : Z) (owned : bool) : stm W (CatProcess * ShellPoll) :=
  r ← sy_read fd (if ca_numbered p then 512 else 4096);
  match r with
  | Ok (Ready []) =>
      failed ← close_owned fd owned;
      mret (ca_with_current (if failed : bool then ca_with_status p 1 else p) None, PollPending)
  | Ok (Ready data) =>
      granted ← sy_charge_cpu (zlen data);
      if negb granted then stop_poll p else mret (cat_take p data, PollPending)
  | Ok (Blocked wait) => mret (p, PollBlocked (io_wait_reason wait))
  | Err error =>
      _ ← close_owned fd owned;
      mret (ca_fail (ca_with_current p None) ("cat: " +:+ syscall_error_display error +:+ newline), PollPending)
  end.

Definition cat_diagnose (p : CatProcess) : stm W (CatProcess * ShellPoll) :=
  '(offset, poll) ← poll_write 2 (ca_diagnostic p) (ca_diagnostic_offset p)
                      (if ca_stop_after_diagnostic p then ca_status p else 0);
  mret match poll with
       | PollReady 0 =>
           if ca_stop_after_diagnostic p then (ca_with_diagnostic p (ca_diagnostic p) offset, poll)
           else (ca_with_diagnostic p [] 0, PollPending)
       | other => (ca_with_diagnostic p (ca_diagnostic p) offset, other)
       end.

Definition cat_poll (p : CatProcess) : stm W (CatProcess * ShellPoll) :=
  match ca_pending p, ca_diagnostic p with
  | _ :: _, _ =>
      when_written 1 (ca_pending p) (ca_offset p) (ca_with_pending p (ca_pending p))
        (λ _, mret (ca_with_pending p [] 0, PollPending))
  | [], _ :: _ => cat_diagnose p
  | [], [] =>
      match ca_current p with
      | None => cat_open p
      | Some (fd, owned) => cat_read p fd owned
      end
  end.

End cat.

(** ** [tee] (src/src/program/tee.rs) *)

Record TeeProcess := MkTee {
  te_paths : list string;
  te_append : bool;
  te_files : list (string * Z);
  te_opened : bool;
  te_pending : bytes;
  te_sink : nat;
  te_offset : Z;
  te_diagnostic : bytes;
  te_diagnostic_offset : Z;
  te_status : Z;
  te_invalid : bool
}.

Definition te_with_files (p : TeeProcess) (files : list (string * Z)) : TeeProcess :=
  MkTee (te_paths p) (te_append p) files (te_opened p) (te_pending p) (te_sink p) (te_offset p) (te_diagnostic p)
    (te_diagnostic_offset p) (te_status p) (te_invalid p).
Definition te_with_opened (p : TeeProcess) : TeeProcess :=
  MkTee (te_paths p) (te_append p) (te_files p) true (te_pending p) (te_sink p) (te_offset p) (te_diagnostic p)
    (te_diagnostic_offset p) (te_status p) (te_invalid p).
Definition te_with_pending (p : TeeProcess) (pending : bytes) (sink : nat) (offset : Z) : TeeProcess :=
  MkTee (te_paths p) (te_append p) (te_files p) (te_opened p) pending sink offset (te_diagnostic p)
    (te_diagnostic_offset p) (te_status p) (te_invalid p).
Definition te_with_diagnostic (p : TeeProcess) (diagnostic : bytes) (offset : Z) : TeeProcess :=
  MkTee (te_paths p) (te_append p) (te_files p) (te_opened p) (te_pending p) (te_sink p) (te_offset p) diagnostic offset
    (te_status p) (te_invalid p).
Definition te_with_status (p : TeeProcess) (status : Z) (invalid : bool) : TeeProcess :=
  MkTee (te_paths p) (te_append p) (te_files p) (te_opened p) (te_pending p) (te_sink p) (te_offset p) (te_diagnostic p)
    (te_diagnostic_offset p) status invalid.

(** One more line of diagnostics, and a failed status. *)
Definition te_complain (p : TeeProcess) (message : string) : TeeProcess :=
  te_with_status (te_with_diagnostic p (te_diagnostic p ++ to_bytes message) (te_diagnostic_offset p)) 1 (te_invalid p).

(** The paths, whether to append, and the diagnostic of an option. *)
Fixpoint tee_args (options : bool) (args : list string) (paths : list string) (append : bool)
    : list string * bool * string :=
  match args with
  | [] => (paths, append, "")
  | arg :: args =>
      if options && bool_decide (arg = "--") then tee_args false args paths append
      else if options && bool_decide (arg ∈ ["-a"; "--append"]) then tee_args options args paths true
      else if options && starts_with "-" arg && negb (bool_decide (arg = "-")) then
        (paths, append, "tee: unsupported option '" +:+ arg +:+ "'" +:+ newline)
      else tee_args options args (paths ++ [arg]) append
  end.

Definition tee_new (args : list string) : TeeProcess :=
  let '(paths, append, diagnostic) := tee_args true args [] false in
  let invalid := negb (bool_decide (diagnostic = "")) in
  MkTee paths append [] false [] 0 0 (to_bytes diagnostic) 0 (if invalid then 2 else 0) invalid.

Section tee.
Context {W : Type} {S : System W}.

Fixpoint tee_open (base : string) (paths : list string) (p : TeeProcess) : stm W TeeProcess :=
  match paths with
  | [] => mret p
  | path :: paths =>
      opened ← sy_open_file base path (MkOpenFile false true true false (negb (te_append p)) (te_append p));
      tee_open base paths
        match opened with
        | Ok fd => te_with_files p (te_files p ++ [(path, fd)])
        | Err error => te_complain p ("tee: " +:+ path +:+ ": " +:+ syscall_error_display error +:+ newline)
        end
  end.

Definition tee_start (p : TeeProcess) : stm W (TeeProcess * ShellPoll) :=
  let p := te_with_opened p in
  p ← (if te_invalid p then mret p else base ← sy_cwd; tee_open base (te_paths p) p);
  mret (p, PollPending).

Definition tee_diagnose (p : TeeProcess) : stm W (TeeProcess * ShellPoll) :=
  when_written 2 (te_diagnostic p) (te_diagnostic_offset p) (te_with_diagnostic p (te_diagnostic p))
    (λ _, mret (te_with_diagnostic p [] 0, if te_invalid p then PollReady (te_status p) else PollPending)).

(** The part of the chunk the file at [te_sink] has not got yet. *)
Definition tee_file (p : TeeProcess) (path : string) (fd : Z) : stm W (TeeProcess * ShellPoll) :=
  r ← sy_write fd (drop (Z.to_nat (te_offset p)) (te_pending p));
  match r with
  | Ok (Ready 0) => mret (p, PollReady 1)
  | Ok (Ready written) =>
      granted ← sy_charge_cpu written;
      if negb granted then stop_poll p
      else
        let offset := te_offset p + written in
        mret (if offset =? zlen (te_pending p) then te_with_pending p (te_pending p) (Datatypes.S (te_sink p)) 0
              else te_with_pending p (te_pending p) (te_sink p) offset, PollPending)
  | Ok (Blocked wait) => mret (p, PollBlocked (io_wait_reason wait))
  | Err error =>
      let p := te_complain p ("tee: " +:+ path +:+ ": " +:+ syscall_error_display error +:+ newline) in
      _ ← sy_close fd;
      mret (te_with_pending (te_with_files p (delete (te_sink p) (te_files p))) (te_pending p) (te_sink p) 0, PollPending)
  end.

Definition tee_output (p : TeeProcess) : stm W (TeeProcess * ShellPoll) :=
  when_written 1 (te_pending p) (te_offset p) (te_with_pending p (te_pending p) (te_sink p))
    (λ _, mret (te_with_pending p [] 0 0, PollPending)).

(** At the end the files are closed; one that fails to close sets the status. *)
Fixpoint tee_close (files : list (string * Z)) (status : Z) : stm W Z :=
  match files with
  | [] => mret status
  | (_, fd) :: files => r ← sy_close fd; tee_close files (if is_ok r then status else 1)
  end.

Definition tee_read (p : TeeProcess) : stm W (TeeProcess * ShellPoll) :=
  r ← sy_read 0 4096;
  match r with
  | Ok (Ready []) =>
      status ← tee_close (te_files p) (te_status p);
      mret (te_with_status (te_with_files p []) status (te_invalid p), PollReady status)
  | Ok (Ready data) =>
      granted ← sy_charge_cpu (zlen data);
      if negb granted then stop_poll p else mret (te_with_pending p data (te_sink p) (te_offset p), PollPending)
  | Ok (Blocked wait) => mret (p, PollBlocked (io_wait_reason wait))
  | Err error =>
      let message := "tee: cannot read standard input: " +:+ syscall_error_display error +:+ newline in
      mret (te_with_status (te_with_diagnostic p (to_bytes message) (te_diagnostic_offset p)) 1 true, PollPending)
  end.

Definition tee_poll (p : TeeProcess) : stm W (TeeProcess * ShellPoll) :=
  if negb (te_opened p) then tee_start p
  else
    match te_diagnostic p, te_pending p with
    | _ :: _, _ => tee_diagnose p
    | [], _ :: _ =>
        match te_files p !! te_sink p with
        | Some (path, fd) => tee_file p path fd
        | None => tee_output p
        end
    | [], [] => tee_read p
    end.

End tee.

(** ** [head] (src/src/program/head.rs) *)

Record HeadProcess := MkHead {
  he_sources : list string;
  he_multiple : bool;
  he_current : option (Z * bool);
  he_byte_limit : option Z;
  he_line_limit : Z;
  he_bytes_remaining : option Z;
  he_lines_remaining : Z;
  he_finished_source : bool;
  he_emitted : bool;
  he_pending : bytes;
  he_offset : Z;
  he_diagnostic : bytes;
  he_diagnostic_offset : Z;
  he_status : Z;
  he_invalid : bool
}.

Definition he_with_pending (p : HeadProcess) (pending : bytes) (offset : Z) : HeadProcess :=
  MkHead (he_sources p) (he_multiple p) (he_current p) (he_byte_limit p) (he_line_limit p) (he_bytes_remaining p)
    (he_lines_remaining p) (he_finished_source p) (he_emitted p) pending offset (he_diagnostic p)
    (he_diagnostic_offset p) (he_status p) (he_invalid p).
Definition he_with_diagnostic (p : HeadProcess) (diagnostic : bytes) (offset : Z) : HeadProcess :=
  MkHead (he_sources p) (he_multiple p) (he_current p) (he_byte_limit p) (he_line_limit p) (he_bytes_remaining p)
    (he_lines_remaining p) (he_finished_source p) (he_emitted p) (he_pending p) (he_offset p) diagnostic offset
    (he_status p) (he_invalid p).
Definition he_with_status (p : HeadProcess) (status : Z) : HeadProcess :=
  MkHead (he_sources p) (he_multiple p) (he_current p) (he_byte_limit p) (he_line_limit p) (he_bytes_remaining p)
    (he_lines_remaining p) (he_finished_source p) (he_emitted p) (he_pending p) (he_offset p) (he_diagnostic p)
    (he_diagnostic_offset p) status (he_invalid p).
(** The source being read, and whether it is finished. *)
Definition he_with_current (p : HeadProcess) (current : option (Z * bool)) (finished : bool) : HeadProcess :=
  MkHead (he_sources p) (he_multiple p) current (he_byte_limit p) (he_line_limit p) (he_bytes_remaining p)
    (he_lines_remaining p) finished (he_emitted p) (he_pending p) (he_offset p) (he_diagnostic p)
    (he_diagnostic_offset p) (he_status p) (he_invalid p).
Definition he_with_sources (p : HeadProcess) (sources : list string) : HeadProcess :=
  MkHead sources (he_multiple p) (he_current p) (he_byte_limit p) (he_line_limit p) (he_bytes_remaining p)
    (he_lines_remaining p) (he_finished_source p) (he_emitted p) (he_pending p) (he_offset p) (he_diagnostic p)
    (he_diagnostic_offset p) (he_status p) (he_invalid p).
Definition he_with_remaining (p : HeadProcess) (bytes_remaining : option Z) (lines_remaining : Z) : HeadProcess :=
  MkHead (he_sources p) (he_multiple p) (he_current p) (he_byte_limit p) (he_line_limit p) bytes_remaining
    lines_remaining (he_finished_source p) (he_emitted p) (he_pending p) (he_offset p) (he_diagnostic p)
    (he_diagnostic_offset p) (he_status p) (he_invalid p).
Definition he_with_emitted (p : HeadProcess) : HeadProcess :=
  MkHead (he_sources p) (he_multiple p) (he_current p) (he_byte_limit p) (he_line_limit p) (he_bytes_remaining p)
    (he_lines_remaining p) (he_finished_source p) true (he_pending p) (he_offset p) (he_diagnostic p)
    (he_diagnostic_offset p) (he_status p) (he_invalid p).

Definition head_new (args : list string) : HeadProcess :=
  match parse_head_options args with
  | Ok o =>
      let sources := match ho_files o with [] => ["-"] | files => files end in
      MkHead sources (1 <? zlen sources) None (ho_bytes o) (ho_lines o) (ho_bytes o) (ho_lines o) false false [] 0 [] 0 0 false
  | Err error =>
      MkHead [] false None None 0 None 0 false false [] 0 (to_bytes ("head: " +:+ error +:+ newline)) 0 1 true
  end.

(** Nothing of the source is wanted any more. *)
Definition head_exhausted (p : HeadProcess) : bool :=
  match he_bytes_remaining p with Some n => n =? 0 | None => he_lines_remaining p =? 0 end.

(** How much of [data] holds [lines] lines, and the lines that are left; at least one is wanted. *)
Fixpoint take_lines (data : bytes) (lines : Z) : bytes * Z :=
  match data with
  | [] => ([], lines)
  | b :: data =>
      if bool_decide (b = LINE_FEED) then
        if lines - 1 =? 0 then ([b], 0) else let '(taken, more) := take_lines data (lines - 1) in (b :: taken, more)
      else let '(taken, more) := take_lines data lines in (b :: taken, more)
  end.

(** What is wanted of a chunk is kept until it is written. *)
Definition head_take (p : HeadProcess) (data : bytes) : HeadProcess :=
  let '(taken, bytes_remaining, lines_remaining) :=
    match he_bytes_remaining p with
    | Some remaining =>
        let n := Z.min remaining (zlen data) in (take (Z.to_nat n) data, Some (remaining - n), he_lines_remaining p)
    | None => let '(taken, more) := take_lines data (he_lines_remaining p) in (taken, None, more)
    end in
  let p := he_with_remaining (he_with_pending p (he_pending p ++ taken) (he_offset p)) bytes_remaining lines_remaining in
  if head_exhausted p then he_with_current p (he_current p) true else p.

(** The source is read from its start, after a title when there are several. *)
Definition head_select (p : HeadProcess) (source : string) (current : Z * bool) : HeadProcess :=
  let p := he_with_remaining (he_with_current p (Some current) (he_finished_source p)) (he_byte_limit p) (he_line_limit p) in
  let title :=
    if he_multiple p then
      (if he_emitted p then [LINE_FEED] else []) ++ to_bytes ("==> " +:+ source +:+ " <==" +:+ newline)
    else [] in
  he_with_emitted (he_with_pending p (he_pending p ++ title) (he_offset p)).

Section head.
Context {W : Type} {S : System W}.

Definition head_open (p : HeadProcess) : stm W (HeadProcess * ShellPoll) :=
  match he_sources p with
  | [] => mret (p, PollReady (he_status p))
  | source :: sources =>
      let p := he_with_sources p sources in
      if is_stdin source then mret (head_select p source (0, false), PollPending)
      else
        base ← sy_cwd;
        opened ← sy_open_file base source read_options;
        mret (match opened with
              | Ok fd => head_select p source (fd, true)
              | Err error =>
                  he_with_status (he_with_diagnostic p
                    (to_bytes ("head: " +:+ source +:+ ": " +:+ syscall_error_display error +:+ newline))
                    (he_diagnostic_offset p)) 1
              end, PollPending)
  end.

Definition head_read (p : HeadProcess) (fd : Z) (owned : bool) : stm W (HeadProcess * ShellPoll) :=
  r ← sy_read fd (Z.min (default 4096 (he_bytes_remaining p)) 4096);
  match r with
  | Ok (Ready []) => mret (he_with_current p (he_current p) true, PollPending)
  | Ok (Ready data) =>
      granted ← sy_charge_cpu (zlen data);
      if negb granted then stop_poll p else mret (head_take p data, PollPending)
  | Ok (Blocked wait) => mret (p, PollBlocked (io_wait_reason wait))
  | Err error =>
      let p := he_with_diagnostic p (to_bytes ("head: " +:+ syscall_error_display error +:+ newline))
                 (he_diagnostic_offset p) in
      mret (he_with_current (he_with_status p 1) (he_current p) true, PollPending)
  end.

Definition head_finish (p : HeadProcess) : stm W (HeadProcess * ShellPoll) :=
  failed ← (match he_current p with Some (fd, owned) => close_owned fd owned | None => mret false end);
  mret (he_with_current (if failed : bool then he_with_status p 1 else p) None false, PollPending).

Definition head_poll (p : HeadProcess) : stm W (HeadProcess * ShellPoll) :=
  match he_pending p, he_diagnostic p with
  | _ :: _, _ =>
      when_written 1 (he_pending p) (he_offset p) (he_with_pending p (he_pending p))
        (λ _, mret (he_with_pending p [] 0, PollPending))
  | [], _ :: _ =>
      when_written 2 (he_diagnostic p) (he_diagnostic_offset p) (he_with_diagnostic p (he_diagnostic p))
        (λ _, mret (he_with_diagnostic p [] 0, if he_invalid p then PollReady (he_status p) else PollPending))
  | [], [] =>
      if he_finished_source p then head_finish p
      else
        match he_current p with
        | None => head_open p
        | Some (fd, owned) =>
            if head_exhausted p then mret (he_with_current p (he_current p) true, PollPending) else head_read p fd owned
        end
  end.

End head.
