(* ===== verification/Launchers.v ===== *)
(** * [sleep], [nice], [nohup], [env], [timeout] and [xargs] (src/src/program/)

    Programs that wait for the clock, or load or start other programs. *)

From S2P Require Import Prelude.
From S2P Require Import RustStr.
From S2P Require Import State.
From S2P Require Import Process.
From S2P Require Import Scheduler.
From S2P Require Import Clock.
From S2P Require Import Descriptors.
From S2P Require Import Machine.
From S2P Require Import Kernel.
From S2P Require Import ExpandText.
From S2P Require Import ExecData.
From S2P Require Import ExecText.
From S2P Require Import Images.
From S2P Require Import ProgramArgs.
From S2P Require Import ProgramSystem.

(** ** [sleep] and [usleep] (src/src/program/sleep.rs) *)

Record SleepProcess := MkSleep {
  sl_duration : result string Z;
  sl_deadline : option Z;
  sl_diagnostic : bytes;
  sl_diagnostic_offset : Z
}.

Definition sleep_interval (argument : string) : string := "sleep: invalid time interval '" +:+ argument +:+ "'".

Fixpoint sleep_total (args : list string) (total : Z) : result string Z :=
  match args with
  | [] => Ok total
  | argument :: args =>
      match parse_duration_ns argument with
      | Err _ => Err (sleep_interval argument)
      | Ok part =>
          match checked_add64 total part with
          | None => Err (sleep_interval argument)
          | Some total => sleep_total args total
          end
      end
  end.

Definition sleep_process (duration : result string Z) : SleepProcess := MkSleep duration None [] 0.
Definition sleep_new (args : list string) : SleepProcess :=
  sleep_process (match args with [] => Err "sleep: missing operand" | _ => sleep_total args 0 end).
Definition usleep_new (args : list string) : SleepProcess :=
  sleep_process
    match args with
    | [] => Err "usleep: missing operand"
    | argument :: _ =>
        let nanos := micros ← parse_unsigned U64_MAX argument;
                     if micros * NANOS_PER_MICROSECOND <=? U64_MAX then Some (micros * NANOS_PER_MICROSECOND) else None in
        ok_or nanos ("usleep: invalid time interval '" +:+ argument +:+ "'")
    end.

Definition sl_complain (p : SleepProcess) (message : string) : SleepProcess :=
  MkSleep (sl_duration p) (sl_deadline p) (to_bytes (message +:+ newline)) (sl_diagnostic_offset p).

(** ** [nice] and [nohup] (src/src/program/nice.rs, src/src/program/nohup.rs) *)

Record NiceProcess := MkNice {
  ni_args : list string;
  ni_output : bytes;
  ni_offset : Z;
  ni_fd : Z;
  ni_status : Z;
  ni_started : bool
}.
Definition nice_new (args : list string) : NiceProcess := MkNice args [] 0 1 0 false.
Definition NICE_FAILED : Z := 125.
Definition nice_fail (p : NiceProcess) (message : string) : NiceProcess :=
  MkNice (ni_args p) (to_bytes (message +:+ newline)) (ni_offset p) 2 NICE_FAILED true.

Record NohupProcess := MkNohup { no_argv : list string; no_diagnostic : bytes; no_diagnostic_offset : Z }.
Definition nohup_new (args : list string) : NohupProcess :=
  MkNohup (match args with "--" :: args => args | _ => args end) [] 0.
Definition NOHUP_FAILED : Z := 125.

(** ** [env] (src/src/program/env.rs, src/src/commands/system.rs) *)

Record EnvProcess := MkEnv {
  en_args : list string;
  en_started : bool;
  en_output : bytes;
  en_output_offset : Z;
  en_output_fd : Z;
  en_reserved_output : Z;
  en_status : Z
}.
Definition env_new (args : list string) : EnvProcess := MkEnv args false [] 0 1 0 0.
Definition ENV_FAILED : Z := 125.

Record EnvAction := MkEnvAction {
  ea_environment : gmap string string;
  ea_cwd : option string;
  ea_argv : list string
}.

(** ** [timeout] (src/src/program/timeout.rs) *)

Record TimeoutProcess := MkTimeout {
  to_args : list string;
  to_started : bool;
  to_preserve_status : bool;
  to_foreground : bool;
  to_signal : Signal;
  to_kill_after : option Z;
  to_child : option Z;
  to_deadline : option Z;
  to_timed_out : bool;
  to_killed : bool;
  to_diagnostic : bytes;
  to_diagnostic_offset : Z;
  to_status : Z
}.

Definition TIMED_OUT : Z := 124.
Definition TIMEOUT_FAILED : Z := 125.

Definition timeout_new (args : list string) : TimeoutProcess :=
  MkTimeout args false false false Terminate None None None false false [] 0 0.

Definition to_with_child (p : TimeoutProcess) (child deadline : option Z) : TimeoutProcess :=
  MkTimeout (to_args p) (to_started p) (to_preserve_status p) (to_foreground p) (to_signal p) (to_kill_after p) child
    deadline (to_timed_out p) (to_killed p) (to_diagnostic p) (to_diagnostic_offset p) (to_status p).
Definition to_with_sent (p : TimeoutProcess) (timed_out killed : bool) : TimeoutProcess :=
  MkTimeout (to_args p) (to_started p) (to_preserve_status p) (to_foreground p) (to_signal p) (to_kill_after p)
    (to_child p) (to_deadline p) timed_out killed (to_diagnostic p) (to_diagnostic_offset p) (to_status p).
Definition to_with_diagnostic (p : TimeoutProcess) (diagnostic : bytes) (offset status : Z) : TimeoutProcess :=
  MkTimeout (to_args p) (to_started p) (to_preserve_status p) (to_foreground p) (to_signal p) (to_kill_after p)
    (to_child p) (to_deadline p) (to_timed_out p) (to_killed p) diagnostic offset status.
Definition to_start (p : TimeoutProcess) : TimeoutProcess :=
  MkTimeout (to_args p) true (to_preserve_status p) (to_foreground p) (to_signal p) (to_kill_after p)
    (to_child p) (to_deadline p) (to_timed_out p) (to_killed p) (to_diagnostic p) (to_diagnostic_offset p) (to_status p).
Definition to_configure (p : TimeoutProcess) (t : TimeoutInvocation) : TimeoutProcess :=
  MkTimeout (to_args p) (to_started p) (ti_preserve_status t) (ti_foreground t) (ti_signal t) (ti_kill_after t)
    (to_child p) (to_deadline p) (to_timed_out p) (to_killed p) (to_diagnostic p) (to_diagnostic_offset p) (to_status p).

Definition to_fail (p : TimeoutProcess) (message : string) : TimeoutProcess :=
  to_with_diagnostic p (to_bytes (message +:+ newline)) (to_diagnostic_offset p) TIMEOUT_FAILED.

(** What the process waits for: its child, up to a deadline. *)
Definition to_wait (p : TimeoutProcess) (child : Z) : WaitReason :=
  match to_deadline p with Some deadline => ChildDeadline child deadline | None => Scheduler.Child child end.

(** The status of a child that ended. *)
Definition timeout_status (p : TimeoutProcess) (status : Z) : Z :=
  if negb (to_timed_out p) || to_preserve_status p then status
  else if to_killed p then 128 + signal_number Kill else TIMED_OUT.

(** ** [xargs] (src/src/program/xargs.rs) *)

Record XargsProcess := MkXargs {
  xa_args : list string;
  xa_input : bytes;
  xa_reserved_input : Z;
  xa_commands : option (list (list string));
  xa_waiting : option Z;
  xa_status : Z;
  xa_diagnostic : bytes;
  xa_diagnostic_offset : Z
}.

Definition MAX_INPUT_BYTES : Z := 4 * 1024 * 1024.
Definition xargs_new (args : list string) : XargsProcess := MkXargs args [] 0 None None 0 [] 0.

Definition xa_with_input (p : XargsProcess) (input : bytes) (reserved : Z) : XargsProcess :=
  MkXargs (xa_args p) input reserved (xa_commands p) (xa_waiting p) (xa_status p) (xa_diagnostic p) (xa_diagnostic_offset p).
Definition xa_with_commands (p : XargsProcess) (commands : option (list (list string))) : XargsProcess :=
  MkXargs (xa_args p) (xa_input p) (xa_reserved_input p) commands (xa_waiting p) (xa_status p) (xa_diagnostic p)
    (xa_diagnostic_offset p).
Definition xa_with_waiting (p : XargsProcess) (waiting : option Z) (status : Z) : XargsProcess :=
  MkXargs (xa_args p) (xa_input p) (xa_reserved_input p) (xa_commands p) waiting status (xa_diagnostic p)
    (xa_diagnostic_offset p).
Definition xa_with_diagnostic (p : XargsProcess) (diagnostic : bytes) (offset status : Z) : XargsProcess :=
  MkXargs (xa_args p) (xa_input p) (xa_reserved_input p) (xa_commands p) (xa_waiting p) status diagnostic offset.
Definition xa_complain (p : XargsProcess) (message : string) (status : Z) : XargsProcess :=
  xa_with_diagnostic p (to_bytes (message +:+ newline)) (xa_diagnostic_offset p) status.

Definition commands_bytes (commands : list (list string)) : Z :=
  foldl (λ total arg, sat_add64 total (str_len arg)) 0 (concat commands).

(** ** Their polls *)

Section launchers.
Context {W : Type} {S : System W}.

Definition sleep_poll (p : SleepProcess) : stm W (SleepProcess * ShellPoll) :=
  match sl_diagnostic p, sl_deadline p with
  | _ :: _, _ =>
      '(offset, poll) ← poll_write 2 (sl_diagnostic p) (sl_diagnostic_offset p) 1;
      mret (MkSleep (sl_duration p) (sl_deadline p) (sl_diagnostic p) offset, poll)
  | [], Some deadline =>
      now ← sy_monotonic_ns;
      mret (p, match now with
               | Ok now => if deadline <=? now then PollReady 0 else PollBlocked (Timer deadline)
               | Err _ => PollBlocked (Timer deadline)
               end)
  | [], None =>
      match sl_duration p with
      | Err error => mret (sl_complain p error, PollPending)
      | Ok duration =>
          if duration =? 0 then mret (p, PollReady 0)
          else
            scheduled ← sy_schedule_wake duration;
            mret match scheduled with
                 | Ok deadline =>
                     (MkSleep (sl_duration p) (Some deadline) (sl_diagnostic p) (sl_diagnostic_offset p),
                      PollBlocked (Timer deadline))
                 | Err error => (sl_complain p ("sleep: " +:+ syscall_error_display error), PollPending)
                 end
      end
  end.

Definition nice_write (p : NiceProcess) : stm W (NiceProcess * ShellPoll) :=
  '(offset, poll) ← poll_write (ni_fd p) (ni_output p) (ni_offset p) (ni_status p);
  mret (MkNice (ni_args p) (ni_output p) offset (ni_fd p) (ni_status p) (ni_started p), poll).

Definition nice_poll (p : NiceProcess) : stm W (NiceProcess * ShellPoll) :=
  if ni_started p then nice_write p
  else
    let started := MkNice (ni_args p) (ni_output p) (ni_offset p) (ni_fd p) (ni_status p) true in
    match parse_nice (ni_args p) with
    | Err error => nice_write (nice_fail started ("nice: " +:+ error))
    | Ok [] => nice_write (MkNice (ni_args p) (to_bytes ("0" +:+ newline)) (ni_offset p) (ni_fd p) (ni_status p) true)
    | Ok argv =>
        loaded ← sy_exec_argv argv None;
        match loaded with
        | Ok _ => mret (started, PollReplaced)
        | Err error => nice_write (nice_fail started ("nice: cannot run command: " +:+ syscall_error_display error))
        end
    end.

Definition nohup_complain (p : NohupProcess) (message : string) : NohupProcess :=
  MkNohup (no_argv p) (to_bytes (message +:+ newline)) (no_diagnostic_offset p).

Definition nohup_poll (p : NohupProcess) : stm W (NohupProcess * ShellPoll) :=
  match no_diagnostic p, no_argv p with
  | _ :: _, _ =>
      '(offset, poll) ← poll_write 2 (no_diagnostic p) (no_diagnostic_offset p) NOHUP_FAILED;
      mret (MkNohup (no_argv p) (no_diagnostic p) offset, poll)
  | [], [] => mret (nohup_complain p "nohup: missing operand", PollPending)
  | [], option :: _ =>
      if starts_with "-" option then
        mret (nohup_complain p ("nohup: unrecognized option '" +:+ option +:+ "'"), PollPending)
      else
        ignored ← sy_ignore_signal Hangup;
        match ignored with
        | Err error => mret (nohup_complain p ("nohup: cannot run command: " +:+ syscall_error_display error), PollPending)
        | Ok _ =>
            loaded ← sy_exec_argv (no_argv p) None;
            let p := MkNohup [] (no_diagnostic p) (no_diagnostic_offset p) in
            mret match loaded with
                 | Ok _ => (p, PollReplaced)
                 | Err error => (nohup_complain p ("nohup: cannot run command: " +:+ syscall_error_display error), PollPending)
                 end
        end
  end.

(** The options of [env]. Every round takes an argument. *)
Fixpoint env_options (args : list string) (action : gmap string string * option string)
    : stm W (result string (gmap string string * option string * list string)) :=
  match args with
  | [] => mret (Ok (action, []))
  | arg :: rest =>
      let on names := bool_decide (arg ∈ names) in
      if on ["--"] then mret (Ok (action, rest))
      else if on ["-i"; "--ignore-environment"] then env_options rest (∅, action.2)
      else if on ["-u"; "--unset"] then
        match rest with
        | [] => mret (Err "option requires an argument -- 'u'")
        | name :: rest => env_options rest (delete name action.1, action.2)
        end
      else if on ["-C"; "--chdir"] then
        match rest with
        | [] => mret (Err "option requires an argument -- 'C'")
        | directory :: rest =>
            let failed := "cannot change directory to '" +:+ directory +:+ "'" in
            current ← sy_cwd;
            is_directory ← sy_is_directory current directory;
            if negb is_directory then mret (Err failed)
            else
              resolved ← sy_canonicalize current directory true;
              match resolved with
              | Ok resolved => env_options rest (action.1, Some resolved)
              | Err _ => mret (Err failed)
              end
        end
      else if starts_with "-" arg then mret (Err ("unrecognized option '" +:+ arg +:+ "'"))
      else mret (Ok (action, args))
  end.

(** The leading [NAME=value] words. *)
Fixpoint env_assignments (args : list string) (environment : gmap string string) : gmap string string * list string :=
  match args with
  | [] => (environment, [])
  | argument :: rest =>
      match split_once "="%char argument with
      | Some (name, value) =>
          if bool_decide (name = "") then (environment, args) else env_assignments rest (<[name := value]> environment)
      | None => (environment, args)
      end
  end.

Definition parse_env_action (args : list string) : stm W (result string EnvAction) :=
  environment ← sy_environment;
  parsed ← env_options args (environment, None);
  mret match parsed with
       | Err error => Err error
       | Ok ((environment, cwd), rest) =>
           let '(environment, argv) := env_assignments rest environment in Ok (MkEnvAction environment cwd argv)
       end.

Definition env_line (entry : string * string) : string := entry.1 +:+ "=" +:+ entry.2 +:+ newline.
Definition env_size (environment : gmap string string) : Z :=
  foldl (λ total '(name, value), sat_add64 total (str_len name + str_len value + 2)) 0 (btree_iter environment).

Definition env_started (p : EnvProcess) (output : bytes) (fd reserved status : Z) : EnvProcess :=
  MkEnv (en_args p) true output (en_output_offset p) fd reserved status.

Definition env_write (p : EnvProcess) : stm W (EnvProcess * ShellPoll) :=
  '(offset, poll) ← poll_write (en_output_fd p) (en_output p) (en_output_offset p) (en_status p);
  let written reserved :=
    MkEnv (en_args p) (en_started p) (en_output p) offset (en_output_fd p) reserved (en_status p) in
  match poll with
  | PollReady _ => _ ← sy_release_memory (en_reserved_output p); mret (written 0, poll)
  | other => mret (written (en_reserved_output p), other)
  end.

Definition env_fail (p : EnvProcess) (message : string) : stm W (EnvProcess * ShellPoll) :=
  env_write (env_started p (to_bytes (message +:+ newline)) 2 (en_reserved_output p) ENV_FAILED).

Definition env_load (p : EnvProcess) (action : EnvAction) : stm W (EnvProcess * ShellPoll) :=
  moved ← (match ea_cwd action with Some cwd => sy_chdir cwd | None => mret (Ok tt) end);
  loaded ← (match moved with
            | Ok _ => sy_exec_argv (ea_argv action) (Some (ea_environment action))
            | Err error => mret (Err error)
            end);
  match loaded with
  | Ok _ => mret (env_started p (en_output p) (en_output_fd p) (en_reserved_output p) (en_status p), PollReplaced)
  | Err error => env_fail p ("env: cannot run command: " +:+ syscall_error_display error)
  end.

Definition env_print (p : EnvProcess) (environment : gmap string string) : stm W (EnvProcess * ShellPoll) :=
  let size := env_size environment in
  granted ← sy_reserve_memory size;
  if negb granted then stop_poll (env_started p (en_output p) (en_output_fd p) (en_reserved_output p) (en_status p))
  else env_write (env_started p (to_bytes (collect (map env_line (btree_iter environment)))) (en_output_fd p) size (en_status p)).

Definition env_poll (p : EnvProcess) : stm W (EnvProcess * ShellPoll) :=
  if en_started p then env_write p
  else
    action ← parse_env_action (en_args p);
    match action with
    | Err error => env_fail p ("env: " +:+ error)
    | Ok action =>
        match ea_argv action with
        | [] => env_print p (ea_environment action)
        | _ => env_load p action
        end
    end.

Definition timeout_spec (t : TimeoutInvocation) : SpawnSpec :=
  MkSpawnSpec (ti_argv t) None None None true (negb (ti_foreground t)).

(** The command runs, and the wake of the deadline is scheduled. *)
Definition timeout_start (p : TimeoutProcess) : stm W (TimeoutProcess * ShellPoll) :=
  match parse_timeout (to_args p) with
  | Err error => mret (to_fail p ("timeout: " +:+ error), PollPending)
  | Ok t =>
      let p := to_configure p t in
      spawned ← sy_spawn_argv (timeout_spec t);
      match spawned with
      | Err error => mret (to_fail p ("timeout: cannot run command: " +:+ syscall_error_display error), PollPending)
      | Ok child =>
          let p := to_with_child p (Some child) (to_deadline p) in
          if ti_duration t <=? 0 then mret (p, PollBlocked (to_wait p child))
          else
            scheduled ← sy_schedule_wake (ti_duration t);
            match scheduled with
            | Ok deadline =>
                let p := to_with_child p (Some child) (Some deadline) in mret (p, PollBlocked (to_wait p child))
            | Err error =>
                _ ← sy_kill (TargetProcess child) Kill;
                mret (to_fail p ("timeout: " +:+ syscall_error_display error), PollBlocked (Scheduler.Child child))
            end
      end
  end.

(** The signal at the first deadline, [KILL] at the next. *)
Definition timeout_expire (p : TimeoutProcess) (child : Z) : stm W TimeoutProcess :=
  let target := if to_foreground p then TargetProcess child else TargetGroup child in
  let p := to_with_child p (to_child p) None in
  if negb (to_timed_out p) then
    let p := to_with_sent p true (to_killed p) in
    _ ← sy_kill target (to_signal p);
    match to_kill_after p with
    | None => mret p
    | Some after => scheduled ← sy_schedule_wake after; mret (to_with_child p (to_child p) (ok scheduled))
    end
  else if negb (to_killed p) then
    _ ← sy_kill target Kill;
    mret (to_with_sent p (to_timed_out p) true)
  else mret p.

Definition timeout_finish (p : TimeoutProcess) (child : Z) : stm W (TimeoutProcess * ShellPoll) :=
  let p := to_with_child p None (to_deadline p) in
  reaped ← sy_reap_child child;
  mret match reaped with
       | Err error => (to_fail p ("timeout: cannot reap child: " +:+ syscall_error_display error), PollPending)
       | Ok status =>
           if to_status p =? TIMEOUT_FAILED then (p, PollPending) else (p, PollReady (timeout_status p status))
       end.

Definition timeout_wait (p : TimeoutProcess) (child : Z) : stm W (TimeoutProcess * ShellPoll) :=
  ended ← sy_child_status child;
  match ended with
  | Ok (Some _) => timeout_finish p child
  | Ok None =>
      now ← sy_monotonic_ns;
      p ← (match to_deadline p with
           | Some deadline => if deadline <=? default 0 (ok now) then timeout_expire p child else mret p
           | None => mret p
           end);
      mret (p, PollBlocked (to_wait p child))
  | Err error => mret (to_fail p ("timeout: cannot wait for child: " +:+ syscall_error_display error), PollPending)
  end.

Definition timeout_poll (p : TimeoutProcess) : stm W (TimeoutProcess * ShellPoll) :=
  match to_diagnostic p with
  | _ :: _ =>
      '(offset, poll) ← poll_write 2 (to_diagnostic p) (to_diagnostic_offset p) (to_status p);
      mret (to_with_diagnostic p (to_diagnostic p) offset (to_status p), poll)
  | [] =>
      if negb (to_started p) then timeout_start (to_start p)
      else
        match to_child p with
        | None => mret (p, PollReady (to_status p))
        | Some child => timeout_wait p child
        end
  end.

(** The memory held for the input is given back. *)
Definition xargs_release (p : XargsProcess) : stm W XargsProcess :=
  _ ← sy_release_memory (xa_reserved_input p); mret (xa_with_input p (xa_input p) 0).

Definition xargs_stop (p : XargsProcess) : stm W (XargsProcess * ShellPoll) := p ← xargs_release p; stop_poll p.

(** The whole input has been read. *)
Definition xargs_split (p : XargsProcess) : stm W (XargsProcess * ShellPoll) :=
  let cleared p := xa_with_input p [] (xa_reserved_input p) in
  match xargs_commands (xa_args p) (xa_input p) with
  | Err message => mret (cleared (xa_complain p message 1), PollPending)
  | Ok commands =>
      let argument_bytes := commands_bytes commands in
      reserved ← sy_reserve_memory argument_bytes;
      if negb reserved then xargs_stop p
      else
        let p := xa_with_input p (xa_input p) (sat_add64 (xa_reserved_input p) argument_bytes) in
        charged ← sy_charge_cpu (sat_add64 argument_bytes (zlen (xa_input p)));
        if negb charged then xargs_stop p
        else mret (cleared (xa_with_commands p (Some commands)), PollPending)
  end.

Definition xargs_read (p : XargsProcess) : stm W (XargsProcess * ShellPoll) :=
  r ← sy_read 0 4096;
  match r with
  | Ok (Ready []) => xargs_split p
  | Ok (Ready data) =>
      if MAX_INPUT_BYTES <? zlen (xa_input p) + zlen data then
        mret (xa_complain p "xargs: input exceeds 4 MiB" 1, PollPending)
      else
        reserved ← sy_reserve_memory (zlen data);
        if negb reserved then stop_poll p
        else mret (xa_with_input p (xa_input p ++ data) (sat_add64 (xa_reserved_input p) (zlen data)), PollPending)
  | Ok (Blocked wait) => mret (p, PollBlocked (io_wait_reason wait))
  | Err error => mret (xa_complain p ("xargs: cannot read input: " +:+ syscall_error_display error) 1, PollPending)
  end.

(** The next command starts. *)
Definition xargs_next (p : XargsProcess) (commands : list (list string)) : stm W (XargsProcess * ShellPoll) :=
  match commands with
  | [] => p ← xargs_release p; mret (p, PollReady (xa_status p))
  | argv :: commands =>
      let p := xa_with_commands p (Some commands) in
      spawned ← sy_spawn_argv (MkSpawnSpec argv (Some []) None None false false);
      mret match spawned with
           | Ok pid => (xa_with_waiting p (Some pid) (xa_status p), PollSwitched)
           | Err error => (xa_complain p ("xargs: cannot spawn child: " +:+ syscall_error_display error) 125, PollPending)
           end
  end.

Definition xargs_wait (p : XargsProcess) (commands : list (list string)) (pid : Z) : stm W (XargsProcess * ShellPoll) :=
  ended ← sy_child_status pid;
  match ended with
  | Ok None => mret (p, PollBlocked (Scheduler.Child pid))
  | Ok (Some status) =>
      reaped ← sy_reap_child pid;
      match reaped with
      | Err error => mret (xa_complain p ("xargs: cannot reap child: " +:+ syscall_error_display error) 125, PollPending)
      | Ok _ => xargs_next (xa_with_waiting p None status) commands
      end
  | Err error => mret (xa_complain p ("xargs: cannot wait for child: " +:+ syscall_error_display error) 125, PollPending)
  end.

Definition xargs_poll (p : XargsProcess) : stm W (XargsProcess * ShellPoll) :=
  match xa_diagnostic p, xa_commands p with
  | _ :: _, _ =>
      '(offset, poll) ← poll_write 2 (xa_diagnostic p) (xa_diagnostic_offset p) (xa_status p);
      let p := xa_with_diagnostic p (xa_diagnostic p) offset (xa_status p) in
      match poll with
      | PollReady _ => p ← xargs_release p; mret (p, poll)
      | other => mret (p, other)
      end
  | [], None => xargs_read p
  | [], Some commands =>
      match xa_waiting p with
      | Some pid => xargs_wait p commands pid
      | None => xargs_next p commands
      end
  end.

End launchers.
