(* ===== verification/NativePrograms.v ===== *)
(** * Native processes and the host of the shell (src/src/program.rs, src/src/commands/mod.rs)

    What a process that is not a shell runs: one of the programs, or a registered command with its
    buffered input and output. [find] and [make] are a parameter, [O], and so are the guests of
    WebAssembly, [G].

    Then the kernel as native programs see it, [active_system], and the host of the executor: the
    dispatch of commands, the loading of images and the polls of native programs. [echo] and
    [printf] are registered here; other system commands are a parameter. *)

From S2P Require Import Prelude.
From S2P Require Import State.
From S2P Require Import RustStr.
From S2P Require Import Resources.
From S2P Require Import Process.
From S2P Require Import Clock.
From S2P Require Import Scheduler.
From S2P Require Import Descriptors.
From S2P Require Import Paths.
From S2P Require Import Vfs.
From S2P Require Import ProcessState.
From S2P Require Import ShellVars.
From S2P Require Import ExpandText.
From S2P Require Import Machine.
From S2P Require Import Expand.
From S2P Require Import Kernel.
From S2P Require Import Lifecycle.
From S2P Require Import ExecData.
From S2P Require Import ExecText.
From S2P Require Import ExecVars.
From S2P Require Import ExecHost.
From S2P Require Import Images.
From S2P Require Import CommandIo.
From S2P Require Import Commands.
From S2P Require Import ProgramArgs.
From S2P Require Import ProgramSystem.
From S2P Require Import Filters.
From S2P Require Import Launchers.

(** ** Registered commands *)

(** The buffers of a command; [pi_state] is absent when the input was read before it started:
    whether all of it was read, and the memory held for it. *)
Record ProcessIo := MkProcessIo { pi_stdin : bytes; pi_out : bytes; pi_err : bytes; pi_state : option (bool * Z) }.

Definition pi_complain (io : ProcessIo) (message : string) : ProcessIo :=
  MkProcessIo (pi_stdin io) (pi_out io) (pi_err io ++ to_bytes message) (pi_state io).
Definition pi_print (io : ProcessIo) (text : string) : ProcessIo :=
  MkProcessIo (pi_stdin io) (pi_out io ++ to_bytes text) (pi_err io) (pi_state io).

(** A body: its name, arguments and environment. *)
Abbreviation body_of W A := (string → list string → gmap string string → ProcessIo → stm W (ProcessIo * A)).

Inductive SystemRun (W : Type) :=
| RunOnce (run : body_of W Z)
| RunPoll (run : body_of W ShellPoll).
Arguments RunOnce {W}.
Arguments RunPoll {W}.

Record SystemCommand (W : Type) := MkSystemCommand {
  sc_run : SystemRun W;
  sc_base_cpu : Z;
  sc_base_memory : Z
}.
Arguments MkSystemCommand {W}.
Arguments sc_run {W}.
Arguments sc_base_cpu {W}.
Arguments sc_base_memory {W}.

Record SystemCommandOutput := MkSystemOutput {
  so_status : Z;
  so_stdout : bytes;
  so_stderr : bytes;
  so_stdout_offset : Z;
  so_stderr_offset : Z
}.

(** [sy_path] is the path of the registration the body is found under. *)
Record SystemCommandProcess := MkSystemProcess {
  sp_path : string;
  sp_args : list string;
  sp_started : bool;
  sp_base_reserved : Z;
  sp_cpu_before : Z;
  sp_disk_before : Z;
  sp_usage_recorded : bool;
  sp_input : bytes;
  sp_input_complete : bool;
  sp_reserved_input : Z;
  sp_result : option SystemCommandOutput
}.

(** [path.rsplit('/').next()]. *)
Definition base_name (path : string) : string := default path (last (split_slash path)).

Definition system_process_new (path : string) (args : list string) : SystemCommandProcess :=
  MkSystemProcess path args false 0 0 0 false [] false 0 None.

(** ** Native processes *)

Inductive NativeProcess (O G : Type) :=
| NStatus (status : Z)
| NPwd (output : option bytes) (offset : Z)
| NYes (output : bytes) (offset : Z)
| NSystemCommand (command : SystemCommandProcess)
| NCat (cat : CatProcess)
| NTee (tee : TeeProcess)
| NHead (head : HeadProcess)
| NXargs (xargs : XargsProcess)
| NEnv (env : EnvProcess)
| NSleep (sleep : SleepProcess)
| NTimeout (timeout : TimeoutProcess)
| NNohup (nohup : NohupProcess)
| NNice (nice : NiceProcess)
| NOther (other : O)
| NWasm (guest : G)
| NFailure (status : Z) (message : bytes) (offset : Z).
Arguments NStatus {O G}.
Arguments NPwd {O G}.
Arguments NYes {O G}.
Arguments NSystemCommand {O G}.
Arguments NCat {O G}.
Arguments NTee {O G}.
Arguments NHead {O G}.
Arguments NXargs {O G}.
Arguments NEnv {O G}.
Arguments NSleep {O G}.
Arguments NTimeout {O G}.
Arguments NNohup {O G}.
Arguments NNice {O G}.
Arguments NOther {O G}.
Arguments NWasm {O G}.
Arguments NFailure {O G}.

Section programs.
Context {W O G : Type} {S : System W}.
Context (system_commands : string → option (SystemCommand W)).
Context (other_new : NativeProgram → list string → O) (guest_new : string → list string → G).
Context (other_poll : O → stm W (O * ShellPoll)) (guest_poll : G → stm W (G * ShellPoll)).
Context (guest_release : G → stm W G).
Abbreviation native := (NativeProcess O G).

Definition native_failure (status : Z) (message : string) : native := NFailure status (to_bytes message) 0.

(** [read_standard_input]: the input grows by a chunk, and the body starts again; [None] when all
    of it is there. *)
Definition read_standard_input (name : string) (io : ProcessIo) : stm W (ProcessIo * option ShellPoll) :=
  match pi_state io with
  | None | Some (true, _) => mret (io, None)
  | Some (false, reserved) =>
      r ← sy_read 0 4096;
      match r with
      | Ok (Ready []) => mret (MkProcessIo (pi_stdin io) (pi_out io) (pi_err io) (Some (true, reserved)), None)
      | Ok (Ready data) =>
          granted ← sy_reserve_memory (zlen data);
          if negb granted then status ← sy_stop_status; mret (io, Some (PollReady status))
          else
            mret (MkProcessIo (pi_stdin io ++ data) (pi_out io) (pi_err io)
                    (Some (false, sat_add64 reserved (zlen data))), Some PollPending)
      | Ok (Blocked wait) => mret (io, Some (PollBlocked (io_wait_reason wait)))
      | Err error =>
          mret (pi_complain io (name +:+ ": cannot read standard input: " +:+ syscall_error_display error +:+ newline),
                Some (PollReady 1))
      end
  end.

Definition run_system_body (run : SystemRun W) (name : string) (args : list string) (environment : gmap string string)
    (io : ProcessIo) : stm W (ProcessIo * ShellPoll) :=
  match run with
  | RunOnce body => '(io, status) ← body name args environment io; mret (io, PollReady status)
  | RunPoll body => body name args environment io
  end.

Definition sp_with_result (p : SystemCommandProcess) (result : SystemCommandOutput) (recorded : bool) : SystemCommandProcess :=
  MkSystemProcess (sp_path p) (sp_args p) (sp_started p) (sp_base_reserved p) (sp_cpu_before p) (sp_disk_before p)
    recorded (sp_input p) (sp_input_complete p) (sp_reserved_input p) (Some result).
Definition sp_with_input (p : SystemCommandProcess) (input : bytes) (state : option (bool * Z)) : SystemCommandProcess :=
  MkSystemProcess (sp_path p) (sp_args p) (sp_started p) (sp_base_reserved p) (sp_cpu_before p) (sp_disk_before p)
    (sp_usage_recorded p) input match state with Some (complete, _) => complete | None => sp_input_complete p end
    match state with Some (_, reserved) => reserved | None => sp_reserved_input p end (sp_result p).
Definition sp_with_start (p : SystemCommandProcess) (base cpu disk : Z) : SystemCommandProcess :=
  MkSystemProcess (sp_path p) (sp_args p) true base cpu disk (sp_usage_recorded p) (sp_input p) (sp_input_complete p)
    (sp_reserved_input p) (sp_result p).
Definition sp_with_base (p : SystemCommandProcess) (base reserved_input : Z) : SystemCommandProcess :=
  MkSystemProcess (sp_path p) (sp_args p) (sp_started p) base (sp_cpu_before p) (sp_disk_before p)
    (sp_usage_recorded p) (sp_input p) (sp_input_complete p) reserved_input (sp_result p).

(** The first poll pays for the command; a status when it cannot. *)
Definition system_start (c : SystemCommand W) (p : SystemCommandProcess) : stm W (SystemCommandProcess * option Z) :=
  if sp_started p then mret (p, None)
  else
    cpu ← sy_cpu_used;
    disk ← sy_disk_used;
    reserved ← sy_reserve_memory (sc_base_memory c);
    if negb reserved then status ← sy_stop_status; mret (sp_with_start p (sp_base_reserved p) cpu disk, Some status)
    else
      let p := sp_with_start p (sc_base_memory c) cpu disk in
      charged ← sy_charge_cpu (sat_add64 (sc_base_cpu c) (foldl (λ total arg, sat_add64 total (str_len arg)) 0 (sp_args p)));
      if negb charged then status ← sy_stop_status; mret (p, Some status) else mret (p, None).

Definition system_output (status : Z) (out err : bytes) : SystemCommandOutput := MkSystemOutput status out err 0 0.

(** The body runs: it suspends, or leaves a result and gives its memory back. A body that printed
    may not suspend. *)
Definition system_run (c : SystemCommand W) (p : SystemCommandProcess) : stm W (SystemCommandProcess * option ShellPoll) :=
  '(p, failed) ← system_start c p;
  '(p, io, outcome) ←
    (match failed with
     | Some status => mret (p, MkProcessIo [] [] [] None, PollReady status)
     | None =>
         environment ← sy_environment;
         '(io, outcome) ← run_system_body (sc_run c) (base_name (sp_path p)) (sp_args p) environment
                            (MkProcessIo (sp_input p) [] [] (Some (sp_input_complete p, sp_reserved_input p)));
         let suspended := match outcome with PollReady _ => false | _ => true end in
         mret (sp_with_input p (if suspended then pi_stdin io else []) (pi_state io), io, outcome)
     end);
  let finish result :=
    _ ← sy_release_memory (sp_reserved_input p);
    _ ← sy_release_memory (sp_base_reserved p);
    mret (sp_with_result (sp_with_base p 0 0) result (sp_usage_recorded p), None) in
  match outcome with
  | PollReady status => finish (system_output status (pi_out io) (pi_err io))
  | other =>
      if bool_decide (pi_out io = []) && bool_decide (pi_err io = []) then mret (p, Some other)
      else
        finish (system_output 125 []
          (to_bytes (base_name (sp_path p) +:+ ": command suspended after producing output" +:+ newline)))
  end.

(** The result is written: standard output, then standard error. *)
Definition system_write (p : SystemCommandProcess) (r : SystemCommandOutput) : stm W (SystemCommandProcess * ShellPoll) :=
  when_written 1 (so_stdout r) (so_stdout_offset r)
    (λ offset, sp_with_result p (MkSystemOutput (so_status r) (so_stdout r) (so_stderr r) offset (so_stderr_offset r))
                 (sp_usage_recorded p))
    (λ written,
     '(offset, completion) ← poll_write 2 (so_stderr r) (so_stderr_offset r) (so_status r);
     let r := MkSystemOutput (so_status r) (so_stdout r) (so_stderr r) written offset in
     match completion with
     | PollReady _ =>
         _ ← (if sp_usage_recorded p then mret tt
              else sy_record_command_usage (base_name (sp_path p)) (sp_cpu_before p) (sp_disk_before p));
         mret (sp_with_result p r true, completion)
     | other => mret (sp_with_result p r (sp_usage_recorded p), other)
     end).

Definition system_poll (c : SystemCommand W) (p : SystemCommandProcess) : stm W (SystemCommandProcess * ShellPoll) :=
  '(p, suspended) ← (match sp_result p with Some _ => mret (p, None) | None => system_run c p end);
  match suspended, sp_result p with
  | Some poll, _ => mret (p, poll)
  | None, Some r => system_write p r
  | None, None => panic
  end.

(** ** Images *)

(** [yes]: its line over and over, up to a quantum of it. *)
Definition yes_new (args : list string) : native :=
  let line_bytes := sat_add64 (foldl (λ total arg, sat_add64 total (str_len arg)) (sat_sub (zlen args) 1) args) 1 in
  if 4096 <? line_bytes then native_failure 1 ("yes: arguments exceed 4096 bytes" +:+ newline)
  else
    let line := to_bytes (match args with [] => "y" | _ => String.concat " " args end +:+ newline) in
    NYes (concat (replicate (Z.to_nat (Z.max (4096 / zlen line) 1)) line)) 0.

Definition from_image (image : NativeProgram) (argv : list string) : native :=
  let args := tail argv in
  match image with
  | NpTrue => NStatus 0
  | NpFalse => NStatus 1
  | NpPwd => NPwd None 0
  | NpYes => yes_new args
  | NpCat => NCat (cat_new args)
  | NpTee => NTee (tee_new args)
  | NpHead => NHead (head_new args)
  | NpXargs => NXargs (xargs_new args)
  | NpEnv => NEnv (env_new args)
  | NpSleep => NSleep (sleep_new args)
  | NpUsleep => NSleep (usleep_new args)
  | NpTimeout => NTimeout (timeout_new args)
  | NpNohup => NNohup (nohup_new args)
  | NpNice => NNice (nice_new args)
  | Registered path =>
      match system_commands path with
      | Some _ => NSystemCommand (system_process_new path args)
      | None => native_failure 125 ("registered program needs a command continuation" +:+ newline)
      end
  | LegacyRegistered _ => native_failure 125 ("legacy command has no native continuation" +:+ newline)
  | other => NOther (other_new other args)
  end.

Definition native_launch (n : NativeLaunch) : native :=
  match n with
  | LaunchFailure status message => native_failure status message
  | LaunchImage image argv => from_image image argv
  | LaunchWasm path argv => NWasm (guest_new path argv)
  end.

(** ** Polling *)

Definition polled_as {P} (wrap : P → native) (m : stm W (P * ShellPoll)) : stm W (native * ShellPoll) :=
  '(p, poll) ← m; mret (wrap p, poll).

Definition poll_program (n : native) : stm W (native * ShellPoll) :=
  match n with
  | NStatus status => mret (n, PollReady status)
  | NPwd output offset =>
      output ← (match output with Some output => mret output | None => cwd ← sy_cwd; mret (to_bytes (cwd +:+ newline)) end);
      polled_as (NPwd (Some output)) (poll_write 1 output offset 0)
  | NYes output offset => when_written 1 output offset (NYes output) (λ _, mret (NYes output 0, PollPending))
  | NSystemCommand command =>
      match system_commands (sp_path command) with
      | Some c => polled_as NSystemCommand (system_poll c command)
      | None => panic
      end
  | NCat cat => polled_as NCat (cat_poll cat)
  | NTee tee => polled_as NTee (tee_poll tee)
  | NHead head => polled_as NHead (head_poll head)
  | NXargs xargs => polled_as NXargs (xargs_poll xargs)
  | NEnv env => polled_as NEnv (env_poll env)
  | NSleep sleep => polled_as NSleep (sleep_poll sleep)
  | NTimeout timeout => polled_as NTimeout (timeout_poll timeout)
  | NNohup nohup => polled_as NNohup (nohup_poll nohup)
  | NNice nice => polled_as NNice (nice_poll nice)
  | NOther other => polled_as NOther (other_poll other)
  | NWasm guest => polled_as NWasm (guest_poll guest)
  | NFailure status message offset => polled_as (NFailure status message) (poll_write 2 message offset status)
  end.

(** [ProgramContinuation::poll] of a native process: every poll but a guest's costs a unit. *)
Definition native_process_poll (n : native) : stm W (native * ShellPoll) :=
  match n with
  | NWasm _ => poll_program n
  | _ => granted ← sy_charge_cpu 1; if granted : bool then poll_program n else stop_poll n
  end.

(** [release_owned_memory]. *)
Definition release_native (n : native) : stm W native :=
  match n with
  | NSystemCommand p =>
      _ ← sy_release_memory (sp_reserved_input p);
      _ ← sy_release_memory (sp_base_reserved p);
      mret (NSystemCommand (sp_with_base p 0 0))
  | NXargs p => p ← xargs_release p; mret (NXargs p)
  | NEnv p =>
      _ ← sy_release_memory (en_reserved_output p);
      mret (NEnv (MkEnv (en_args p) (en_started p) (en_output p) (en_output_offset p) (en_output_fd p) 0 (en_status p)))
  | NWasm guest => guest ← guest_release guest; mret (NWasm guest)
  | _ => mret n
  end.

End programs.

(** * The host (src/src/commands/mod.rs, src/src/syscalls.rs) *)

(** ** [echo] and [printf] as registered commands *)

Section registered.
Context {W : Type} {S : System W} (fixed : string → Z → string).

Definition echo_body : body_of W Z := λ _ args _ io, mret (pi_print io (echo_output args), 0).

(** What each conversion reserves is counted, and given back at the end. *)
Definition counted_reserve (n : Z) : stm (W * Z) bool := λ s,
  '(w, granted) ← sy_reserve_memory n s.1;
  Ret ((w, if granted : bool then sat_add64 s.2 n else s.2), granted).

Definition printf_body : body_of W Z := λ _ args _ io,
  match args with
  | [] => mret (io, 0)
  | format :: args => λ w,
      '(s, formatted) ← format_args counted_reserve fixed format args (w, 0);
      (match formatted with
       | Some text => _ ← sy_release_memory s.2; mret (pi_print io text, 0)
       | None => status ← sy_stop_status; _ ← sy_release_memory s.2; mret (io, status)
       end : stm W (ProcessIo * Z)) s.1
  end.

Definition system_memory : Z := 10 * 1024.

(** A system command is registered under its path and under its name. *)
Definition system_table (key : string) : option (SystemCommand W) :=
  if bool_decide (key ∈ ["/usr/bin/echo"; "echo"]) then Some (MkSystemCommand (RunOnce echo_body) 20 system_memory)
  else if bool_decide (key ∈ ["/usr/bin/printf"; "printf"]) then Some (MkSystemCommand (RunOnce printf_body) 25 system_memory)
  else None.

End registered.

(** What a host is made of that the shell does not define. *)
Record HostParts := MkHostParts {
  hp_node_size : Z;
  hp_redirect_size : Z;
  hp_format_seconds : Z → string;
  hp_engine : TextEngine;
  hp_captures : string → option (string → option (list string));
  hp_fixed : string → Z → string;
  hp_aliased : Machine → Z → bool;
  hp_git_reads_input : list string → bool
}.

(** ** The kernel of the active process *)

Section active.
Context {O G : Type} (parts : HostParts).
Context (system_commands : string → option (SystemCommand (World CommandResume (NativeProcess O G)))).
Context (other_new : NativeProgram → list string → O) (guest_new : string → list string → G).
Abbreviation native := (NativeProcess O G).
Abbreviation world := (World CommandResume native).
Abbreviation act A := (stm world A).

Definition program_launch : NativeLaunch → native := native_launch system_commands other_new guest_new.

Definition is_directory_path (base path : string) : mach bool :=
  info ← sys_metadata (hp_format_seconds parts) base path true;
  mret match info with Ok info => match fi_kind info with FkDirectory => true | _ => false end | Err _ => false end.

Definition sys_kill (target : SignalTarget) (signal : Signal) : sys unit :=
  r ← (match target with
       | TargetProcess pid => send_signal pid signal
       | TargetGroup group => send_signal_group group signal
       end);
  mret match r with Ok _ => Ok tt | Err _ => Err SysNoSuchProcess end.

Definition sys_ignore_signal (signal : Signal) : sys unit :=
  match signal with
  | Kill | Stop => fail SysInvalidArgument
  | _ =>
      _ ← on_signals (λ g, MkSignalState (sg_pending g) (<[signal := DispIgnore]> (sg_dispositions g)) (sg_exit g)
                             (sg_err g) (sg_err_active g) (sg_handling_error g) (sg_handling_signal g));
      done_ tt
  end.

Definition record_command_use (name : string) (cpu_before disk_before : Z) : mach unit :=
  modify (λ m, set_resources m (record_command (m_resources m) name cpu_before disk_before (vf_disk_used (m_vfs m)))).

#[export] Instance active_system : System world := {|
  sy_read fd maximum := on_machine (read_fd_checked fd maximum);
  sy_write fd data := on_machine (write_fd (hp_aliased parts) fd data);
  sy_open_file base path options := on_machine (sys_open_file (hp_format_seconds parts) base path options);
  sy_close fd := on_machine (sys_close fd);
  sy_cwd := on_machine (p ← current; mret (ps_cwd p));
  sy_chdir path := on_machine (sys_chdir (hp_format_seconds parts) path);
  sy_is_directory base path := on_machine (is_directory_path base path);
  sy_canonicalize base path strict := on_machine (sys_canonicalize (hp_format_seconds parts) base path strict);
  sy_environment := on_machine (p ← current; mret (child_env p));
  sy_charge_cpu n := on_machine (charge n);
  sy_reserve_memory n := on_machine (reserve n);
  sy_release_memory n := on_machine (release_bytes n);
  sy_output_remaining := on_machine (gets (λ m, output_remaining (m_resources m)));
  sy_charge_output n := on_machine (λ m, let '(r, granted) := charge_output (m_resources m) n in Ret (set_resources m r, granted));
  sy_stop_status := on_machine (gets stop_status);
  sy_cpu_used := on_machine (gets (λ m, rs_cpu_used (m_resources m)));
  sy_disk_used := on_machine (gets (λ m, vf_disk_used (m_vfs m)));
  sy_record_command_usage name cpu disk := on_machine (record_command_use name cpu disk);
  sy_schedule_wake duration := on_machine (sys_schedule_wake duration);
  sy_monotonic_ns := on_machine (sys_clock_time_ns Monotonic);
  sy_spawn_argv spec := sys_spawn_argv program_launch (hp_node_size parts) (hp_redirect_size parts) spec;
  sy_exec_argv argv environment := sys_exec_argv program_launch argv environment;
  sy_kill target signal := on_machine (sys_kill target signal);
  sy_ignore_signal signal := on_machine (sys_ignore_signal signal);
  sy_child_status pid := on_machine (sys_child_status pid);
  sy_reap_child pid := on_machine (sys_reap_child pid)
|}.

(** ** The host *)

(** [run_system_from_legacy]: a body inside the shell; it may not suspend. *)
Definition run_system (c : SystemCommand world) (name : string) (args : list string) (stdin : bytes)
    : act (cmd_poll_result * bytes * bytes) :=
  environment ← sy_environment;
  '(io, outcome) ← run_system_body (sc_run c) name args environment (MkProcessIo stdin [] [] None);
  mret match outcome with
       | PollReady status => (CmdReady status, pi_out io, pi_err io)
       | _ => (CmdReady 125, pi_out io, pi_err (pi_complain io ("native command cannot suspend in nested dispatch" +:+ newline)))
       end.

Definition system_spec (c : SystemCommand world) : CommandSpec native :=
  MkCommandSpec KindSystem (sc_base_cpu c) (sc_base_memory c) (run_system c).
Definition registered_spec (key : string) : option (CommandSpec native) :=
  system_spec <$> system_commands key.

Context (other_poll : O → act (O * ShellPoll)) (guest_poll : G → act (G * ShellPoll)) (guest_release : G → act G).

Definition host_exec_argv_image (pid : Z) (argv : list string) : act (result string unit) :=
  r ← exec_argv_image program_launch pid argv;
  mret match r with Ok _ => Ok tt | Err error => Err (lifecycle_error_display error) end.

#[export] Instance shell_host : Host CommandResume native := {|
  host_node_size := hp_node_size parts;
  host_redirect_size := hp_redirect_size parts;
  host_format_seconds := hp_format_seconds parts;
  host_engine := hp_engine parts;
  host_aliased := hp_aliased parts;
  cmd_poll argv stdin :=
    dispatch program_launch registered_spec (hp_format_seconds parts) (hp_engine parts) (hp_captures parts)
      (hp_node_size parts) (hp_redirect_size parts) argv stdin;
  cmd_resume continuation := resume program_launch (hp_node_size parts) (hp_redirect_size parts) continuation;
  cmd_starts_before_input m argv :=
    starts_before_input registered_spec (hp_format_seconds parts) (hp_engine parts) (hp_captures parts)
      (hp_node_size parts) (hp_redirect_size parts) m argv;
  cmd_buffers_standard_input m argv :=
    buffers_standard_input registered_spec (hp_git_reads_input parts) (hp_format_seconds parts) (hp_engine parts)
      (hp_captures parts) (hp_node_size parts) (hp_redirect_size parts) m argv;
  cmd_execs_native_image m requested :=
    execs_native_image registered_spec (hp_format_seconds parts) (hp_engine parts) (hp_captures parts)
      (hp_node_size parts) (hp_redirect_size parts) m requested;
  cmd_exec_argv_image := host_exec_argv_image;
  native_poll := native_process_poll system_commands other_poll guest_poll;
  native_release_memory := release_native guest_release
|}.

End active.
