(* ===== verification/KernelInv.v ===== *)
(** * The machine invariant under system calls

    The components keep their own invariants; what the machine adds is that every description of
    an unlinked file has its storage in the filesystem, that the reservations of live pipes are
    part of the memory in use, and that the active process exists. *)

From S2P Require Import Prelude.
From S2P Require Import State.
From S2P Require Import RustStr.
From S2P Require Import Resources.
From S2P Require Import Process.
From S2P Require Import Clock.
From S2P Require Import Scheduler.
From S2P Require Import Descriptors.
From S2P Require Import DescriptorInv.
From S2P Require Import DescriptorSystem.
From S2P Require Import Paths.
From S2P Require Import Vfs.
From S2P Require Import VfsTree.
From S2P Require Import VfsUsage.
From S2P Require Import VfsSystem.
From S2P Require Import ProcessState.
From S2P Require Import Machine.
From S2P Require Import PseudoFs.
From S2P Require Import Kernel.

(** ** Unlinked files in the filesystem *)

(** [out] has the unlinked files of [v]. *)
Definition orphans_kept {A} (v : Vfs) (out : vfs_result A) : Prop := vf_orphaned out.1 = vf_orphaned v.

Definition run_orphans_kept {A} (v : Vfs) (r : run (vfs_result A)) : Prop :=
  match r with Ret out => orphans_kept v out | Panic | NoFuel => True end.

Lemma orphans_node_mut v p : vf_orphaned (node_mut v p).1 = vf_orphaned v.
Proof. unfold node_mut. repeat case_match; done. Qed.

Lemma orphans_remove_node v p : vf_orphaned (remove_node v p).1 = vf_orphaned v.
Proof. unfold remove_node. repeat case_match; done. Qed.

Lemma orphans_allocate v : vf_orphaned (allocate_inode v).1 = vf_orphaned v.
Proof. unfold allocate_inode. repeat case_match; done. Qed.

(** Take a mutation apart, branch by branch. *)
Ltac branches :=
  repeat match goal with
         | |- context [node_mut ?v ?p] =>
             pose proof (orphans_node_mut v p); destruct (node_mut v p) as [? ?]; cbn [fst snd] in *
         | |- context [remove_node ?v ?p] =>
             pose proof (orphans_remove_node v p); destruct (remove_node v p) as [? ?]; cbn [fst snd] in *
         | |- context [allocate_inode ?v] =>
             pose proof (orphans_allocate v); destruct (allocate_inode v) as [? ?]; cbn [fst snd] in *
         | |- context [match ?x with _ => _ end] => lazymatch x with context [match _ with _ => _ end] => fail | _ => destruct x eqn:? end
         end; cbn [fst snd] in *; simplify_eq; try done; try (cbn; congruence).

Lemma put_content_orphans v target content data mode used : orphans_kept v (put_content v target content data mode used).
Proof. unfold orphans_kept, put_content. branches. Qed.

Lemma vfs_write_orphans v cwd path data mode : orphans_kept v (vfs_write v cwd path data mode).
Proof. unfold vfs_write. branches. apply put_content_orphans. Qed.

Lemma write_at_orphans v cwd path offset data : run_orphans_kept v (write_at v cwd path offset data).
Proof. unfold write_at, run_orphans_kept, orphans_kept, expect, mbind, run_bind. branches. Qed.

Lemma resize_file_orphans v cwd path size : run_orphans_kept v (resize_file v cwd path size).
Proof. unfold resize_file, run_orphans_kept, orphans_kept, expect, mbind, run_bind. branches. Qed.

Lemma mkdir_orphans v cwd path : orphans_kept v (vfs_mkdir v cwd path).
Proof. unfold vfs_mkdir, orphans_kept. branches. Qed.

Lemma insert_each_orphans v additions : orphans_kept v (insert_each_directory v additions).
Proof.
  unfold orphans_kept. revert v. induction additions as [|p additions IH]; intros v; [done|].
  cbn [insert_each_directory]. pose proof (orphans_allocate v) as Ha. destruct (allocate_inode v) as [v1 [inode|e]]; [|done].
  cbn [fst] in Ha. rewrite IH. exact Ha.
Qed.

Lemma insert_directories_orphans v additions : orphans_kept v (insert_directories v additions).
Proof. unfold insert_directories. case_match; [apply insert_each_orphans|done]. Qed.

Lemma mkdir_all_orphans v cwd path : orphans_kept v (mkdir_all v cwd path).
Proof.
  unfold mkdir_all, orphans_kept. destruct (reject_pseudo_mutation _); [|done]. destruct (check_path_limits _); [|done].
  destruct (missing_directories _ _) as [adds|]; [|done]. case_match; [done|].
  pose proof (insert_directories_orphans v adds) as Hi. unfold orphans_kept in Hi.
  destruct (insert_directories v adds) as [v1 []]; exact Hi.
Qed.

Lemma remove_file_orphans v cwd path : orphans_kept v (remove_file v cwd path).
Proof. unfold remove_file, orphans_kept. branches. Qed.

Lemma rmdir_orphans v cwd path : orphans_kept v (vfs_rmdir v cwd path).
Proof. unfold vfs_rmdir, orphans_kept. branches. Qed.

Lemma copy_file_orphans v cwd from to : run_orphans_kept v (copy_file v cwd from to).
Proof.
  unfold copy_file, run_orphans_kept, orphans_kept. destruct (_ ≫= _) as [source|]; [|done].
  destruct (nd_kind source) as [data| | |program].
  - destruct (write_target v cwd to) as [target|]; [|done]. destruct (require_parent_dir v target); [|done].
    case_match; [done|]. destruct (projected_usage_after_replacement _ _ _) as [used|]; [|done].
    exact (put_content_orphans (set_read_bytes v _) target (λ _, data) data (nd_mode source) used).
  - unfold vfs_read. branches.
  - unfold vfs_read. branches.
  - branches.
Qed.

Lemma symlink_orphans v cwd target path : orphans_kept v (vfs_symlink v cwd target path).
Proof. unfold vfs_symlink, orphans_kept. branches. Qed.

Lemma touch_orphans v cwd path mtime : orphans_kept v (vfs_touch v cwd path mtime).
Proof. unfold vfs_touch, orphans_kept. branches. Qed.

Lemma chmod_orphans v cwd path mode : orphans_kept v (vfs_chmod v cwd path mode).
Proof. unfold vfs_chmod, orphans_kept. branches. Qed.

Lemma chown_orphans v cwd path uid gid : orphans_kept v (vfs_chown v cwd path uid gid).
Proof. unfold vfs_chown, orphans_kept. branches. Qed.

Lemma put_file_orphans v abs data mode : orphans_kept v (put_file v abs data mode).
Proof.
  unfold put_file, orphans_kept. generalize (match parent_of (normalize abs) with
    Some parent => missing_directories v parent | None => Ok [] end). intros additions. cbv zeta.
  destruct (reject_pseudo_mutation _); [|done]. destruct (check_path_limits _); [|done].
  destruct (is_dir_node _); [done|]. destruct additions as [adds|]; [|done].
  destruct (_ <? _); [done|]. destruct (check_inode_capacity _ _); [|done].
  pose proof (insert_directories_orphans v adds) as Hi. unfold orphans_kept in Hi.
  destruct (insert_directories v adds) as [v1 []]; [|exact Hi]. cbn [fst] in Hi. branches.
Qed.

Lemma read_range_orphans v cwd path offset maximum : orphans_kept v (read_range v cwd path offset maximum).
Proof. unfold read_range, orphans_kept. branches. Qed.

Lemma read_limited_orphans v cwd path limit : orphans_kept v (read_limited v cwd path limit).
Proof. unfold read_limited, orphans_kept. branches. Qed.

Lemma write_orphan_orphans v id offset data :
  match write_orphan_at v id offset data with
  | Ret out => dom (vf_orphaned out.1) = dom (vf_orphaned v) | Panic | NoFuel => True end.
Proof.
  unfold write_orphan_at. destruct (checked_add64 _ _); [|done].
  destruct (vf_orphaned v !! id) as [n|] eqn:Hn; [|done]. destruct (nd_kind n); [|done..].
  cbv zeta. destruct (_ <? _); [done|]. cbn. rewrite dom_insert_lookup_L; [done|by eexists].
Qed.

Lemma resize_orphan_orphans v id size :
  match resize_orphan v id size with
  | Ret out => dom (vf_orphaned out.1) = dom (vf_orphaned v) | Panic | NoFuel => True end.
Proof.
  unfold resize_orphan. destruct (vf_orphaned v !! id) as [n|] eqn:Hn; [|done].
  destruct (nd_kind n); [|done..]. destruct (usage_after_resize _ _ _); [|done].
  cbn. rewrite dom_insert_lookup_L; [done|by eexists].
Qed.

(** ** Files in the arena *)

Definition entry_file (e : DescriptionEntry) : option FileState :=
  match de_description e with DFile f => Some f | _ => None end.

Definition file_at (a : DescriptorArena) (id : Z) : option FileState := da_descriptions a !! id ≫= entry_file.

(** No description of a file appeared or changed from [a] to [a']. *)
Definition files_kept (a a' : DescriptorArena) : Prop := ∀ id f, file_at a' id = Some f → file_at a id = Some f.

#[export] Instance files_kept_preorder : PreOrder files_kept.
Proof. split; [by intros a id f|]. intros a b c Hab Hbc id f Hf. auto. Qed.

Lemma files_same a a' : da_descriptions a' = da_descriptions a → files_kept a a'.
Proof. intros Hd id f. unfold file_at. by rewrite Hd. Qed.

Lemma files_entry a id e e' :
  da_descriptions a !! id = Some e → entry_file e' = entry_file e → files_kept a (set_entry a id e').
Proof.
  intros He Hf id' f. unfold file_at, set_entry. cbn [da_descriptions with_descriptions].
  destruct (decide (id' = id)) as [->|Hne].
  - rewrite lookup_insert_eq, He. simpl. by rewrite Hf.
  - by rewrite lookup_insert_ne.
Qed.

Lemma files_delete a id : files_kept a (with_descriptions a (delete id (da_descriptions a))).
Proof.
  intros id' f. unfold file_at. simpl. rewrite lookup_delete. by case_decide.
Qed.

Lemma drop_endpoint_descriptions a d : da_descriptions (drop_endpoint a d) = da_descriptions a.
Proof. unfold drop_endpoint. repeat case_match; simplify_eq; done. Qed.

Lemma retain_files a id : files_kept a (retain a id).1.
Proof.
  unfold retain. destruct (da_descriptions a !! id) as [e|] eqn:He; [|done].
  destruct (checked_add32 _ _); [|done]. by apply (files_entry _ _ e).
Qed.

Lemma release_files a id : files_kept a (release a id).1.
Proof.
  unfold release. destruct (da_descriptions a !! id) as [e|] eqn:He; [|done].
  destruct (_ =? 0); [done|]. destruct (negb _); [by apply (files_entry _ _ e)|]. cbn [fst].
  transitivity (with_descriptions a (delete id (da_descriptions a))); [apply files_delete|].
  apply files_same. rewrite drop_endpoint_descriptions. by destruct (de_file_lock e).
Qed.

Lemma discard_files a id : files_kept a (discard_unreferenced a id).1.
Proof.
  unfold discard_unreferenced. destruct (da_descriptions a !! id); [|done]. destruct (negb _); [done|].
  pose proof (retain_files a id) as Hr. destruct (retain a id) as [a1 []]; [|done].
  etransitivity; [exact Hr|apply release_files].
Qed.

Lemma install_files t fd id a : files_kept a (fd_install t fd id a).1.2.
Proof.
  unfold fd_install. destruct (fd <? 0); [done|]. destruct (_ && _); [done|].
  pose proof (retain_files a id) as Hr. destruct (retain a id) as [a1 []]; [|done].
  destruct (ft_entries t !! fd) as [previous|]; [|done].
  pose proof (release_files a1 previous) as Hl. destruct (release a1 previous) as [a2 []]; by transitivity a1.
Qed.

Lemma duplicate_files t source destination a : files_kept a (fd_duplicate t source destination a).1.2.
Proof. unfold fd_duplicate. destruct (fd_get t source); [|done]. case_match; [done|apply install_files]. Qed.

Lemma close_files t fd a : files_kept a (fd_close t fd a).1.2.
Proof.
  unfold fd_close. destruct (ft_entries t !! fd) as [id|]; [|done].
  pose proof (release_files a id) as Hr. by destruct (release a id).
Qed.

Lemma allocate_files a d : arena_wf a → (∀ f, d ≠ DFile f) → files_kept a (allocate a d).1.
Proof.
  intros Hwf Hd id f. destruct (allocate a d) as [a' r] eqn:Ha.
  apply allocate_cases in Ha as [[-> ->]|(-> & _ & _ & ->)]; [done|]. unfold file_at. cbn [fst da_descriptions].
  destruct (decide (id = da_next_description a)) as [->|Hne]; [|by rewrite lookup_insert_ne].
  rewrite lookup_insert_eq. unfold fresh_entry, entry_file. simpl. destruct d; try done. by destruct (Hd file).
Qed.

Lemma open_pipe_files a capacity : arena_wf a → 0 ≤ capacity → files_kept a (open_pipe a capacity).1.
Proof.
  intros Hwf Hcap. destruct (open_pipe a capacity) as [a' r] eqn:Ho.
  destruct (open_pipe_cases _ _ _ _ Hwf Hcap Ho) as [(-> & -> & _)|(_ & _ & Hd & _)]; [|by apply files_same].
  intros id f. unfold file_at, piped. cbn [fst da_descriptions].
  destruct (decide (id = da_next_description a + 1)) as [->|]; [by rewrite lookup_insert_eq|].
  rewrite lookup_insert_ne by done. destruct (decide (id = da_next_description a)) as [->|]; [by rewrite lookup_insert_eq|].
  by rewrite lookup_insert_ne.
Qed.

Lemma bind_inode_files a id inode : files_kept a (bind_inode a id inode).1.
Proof. unfold bind_inode. destruct (_ !! id) as [e|] eqn:He; [|done]. by apply (files_entry _ _ e). Qed.

Lemma set_nonblocking_files a id b : files_kept a (set_nonblocking a id b).1.
Proof. unfold set_nonblocking. destruct (_ !! id) as [e|] eqn:He; [|done]. by apply (files_entry _ _ e). Qed.

Lemma arena_write_files a id data : files_kept a (arena_write a id data).1.
Proof.
  unfold arena_write. destruct (_ !! id) as [e|] eqn:He; [|done].
  destruct (de_description e) eqn:Hd; try done.
  - destruct (_ <? _); [done|]. apply (files_entry _ _ e); [done|]. unfold entry_file. by rewrite Hd.
  - destruct (da_pipes a !! pipe); [|done]. destruct (_ =? 0); [done|]. cbv zeta.
    destruct (_ =? 0); [done|by apply files_same].
Qed.

Lemma arena_read_files a id maximum a' r : arena_read a id maximum = Ret (a', r) → files_kept a a'.
Proof.
  unfold arena_read. destruct (_ !! id) as [e|] eqn:He; [|by intros [= <- _]].
  destruct (de_description e) eqn:Hd; try (by intros [= <- _]).
  - destruct (_ && _); [by intros [= <- _]|]. unfold mbind, run_bind. destruct (slice _ _ _); [|done..].
    intros [= <- _]. apply (files_entry _ _ e); [done|]. unfold entry_file. by rewrite Hd.
  - destruct (negb _); [by intros [= <- _]|]. destruct (device_read _ _). intros [= <- _].
    apply (files_entry _ _ e); [done|]. unfold entry_file. by rewrite Hd.
  - destruct (da_pipes a !! pipe); [|by intros [= <- _]]. destruct (_ && _); intros [= <- _]; by apply files_same.
Qed.

Lemma file_lock_files a id inode mode a' r : file_lock a id inode mode = Ret (a', r) → files_kept a a'.
Proof.
  unfold file_lock. destruct (_ !! id) as [e|] eqn:He; [|by intros [= <- _]].
  destruct (bool_decide _); [by intros [= <- _]|].
  set (a1 := match de_file_lock e with Some _ => _ | None => _ end).
  assert (H1 : files_kept a a1).
  { transitivity (set_entry a id (with_lock e None)); [by apply (files_entry _ _ e)|].
    apply files_same. unfold a1. by destruct (de_file_lock e). }
  destruct mode as [mode|]; [|by intros [= <- _]]. destruct (existsb _ _); [by intros [= <- _]|].
  unfold mbind, run_bind, expect. destruct (da_descriptions a1 !! id) as [e1|] eqn:He1; [|done].
  intros [= <- _]. transitivity a1; [done|]. by apply (files_entry _ _ e1).
Qed.

(** ** The invariant *)

(** What the machine owes a description of a file: a cursor in range, and the storage of the file
    when its path is gone. *)
Definition file_ok (v : Vfs) (f : FileState) : Prop :=
  0 ≤ fs_cursor f ∧ ∀ id, fs_orphan f = Some id → id ∈ dom (vf_orphaned v).
Definition files_ok (v : Vfs) (a : DescriptorArena) : Prop := ∀ id f, file_at a id = Some f → file_ok v f.

Definition reserved (s : Machine) : Z := map_sum (λ _ n, n) (m_pipe_reservations s).

(** The memory the contexts hold. *)
Definition context_bytes (p : ProcessState) : Z :=
  rv_fork (ps_reserved p) + rv_exec (ps_reserved p) + rv_state (ps_reserved p) + rv_expansion (ps_reserved p).
Definition held (s : Machine) : Z := map_sum (λ _ p, context_bytes p) (m_states s).

Definition context_ok (pid : Z) (p : ProcessState) : Prop :=
  ps_pid p = pid ∧ 0 ≤ rv_fork (ps_reserved p) ∧ 0 ≤ rv_exec (ps_reserved p) ∧ 0 ≤ rv_state (ps_reserved p) ∧
  0 ≤ rv_expansion (ps_reserved p).

(** A task that has not exited; a process that has not. *)
Definition task_live (c : Scheduler) (pid : Z) : Prop :=
  match sc_states c !! pid with Some (TaskExited _) | None => False | Some _ => True end.
Definition process_live (t : ProcessTable) (pid : Z) : Prop :=
  ∃ r, pt_records t !! pid = Some r ∧ has_exited (pr_status r) = false.

Definition arena_of (h : list Z) (U : gset Z) (s : Machine) : DescSystem :=
  MkDescSystem (m_descriptors s) (ps_fds <$> m_states s) h U.

(** The machine with [b] bytes of its memory in use apart from what contexts hold and pipes have
    reserved, and the open descriptions [h] held outside the tables of processes. *)
Record sound (h : list Z) (b : Z) (s : Machine) : Prop := {
  gs_desc : ∃ U, desc_wf (arena_of h U s);
  gs_disk : disk_wf (disk_of (m_vfs s));
  gs_files : files_ok (m_vfs s) (m_descriptors s);
  gs_sched : sched_wf (m_scheduler s);
  gs_base : 0 ≤ b;
  gs_memory : rs_memory_current (m_resources s) = b + held s + reserved s;
  gs_limit : rs_memory_current (m_resources s) ≤ lim_memory (rs_limits (m_resources s)) ≤ U64_MAX;
  gs_pipes : ∀ pipe n, m_pipe_reservations s !! pipe = Some n →
    n = PIPE_RESERVATION ∧ pipe < da_next_pipe (m_descriptors s);
  gs_contexts : ∀ pid p, m_states s !! pid = Some p → context_ok pid p;
  gs_tasks : ∀ pid, task_live (m_scheduler s) pid → is_Some (m_states s !! pid);
  gs_table : process_table_wf (m_processes s);
  gs_processes : ∀ pid, is_Some (m_states s !! pid) → process_live (m_processes s) pid
}.

(** Sound, and the active process has a context. *)
Record good (h : list Z) (b : Z) (s : Machine) : Prop := {
  gd_sound : sound h b s;
  gd_active : is_Some (m_states s !! m_active s)
}.

Section fields.
Context {h : list Z} {b : Z} {s : Machine} (Hs : good h b s).
Lemma gd_desc : ∃ U, desc_wf (arena_of h U s).
Proof using Hs. exact (gs_desc _ _ _ (gd_sound _ _ _ Hs)). Qed.
Lemma gd_disk : disk_wf (disk_of (m_vfs s)).
Proof using Hs. exact (gs_disk _ _ _ (gd_sound _ _ _ Hs)). Qed.
Lemma gd_files : files_ok (m_vfs s) (m_descriptors s).
Proof using Hs. exact (gs_files _ _ _ (gd_sound _ _ _ Hs)). Qed.
Lemma gd_sched : sched_wf (m_scheduler s).
Proof using Hs. exact (gs_sched _ _ _ (gd_sound _ _ _ Hs)). Qed.
Lemma gd_base : 0 ≤ b.
Proof using Hs. exact (gs_base _ _ _ (gd_sound _ _ _ Hs)). Qed.
Lemma gd_memory : rs_memory_current (m_resources s) = b + held s + reserved s.
Proof using Hs. exact (gs_memory _ _ _ (gd_sound _ _ _ Hs)). Qed.
Lemma gd_limit : rs_memory_current (m_resources s) ≤ lim_memory (rs_limits (m_resources s)) ≤ U64_MAX.
Proof using Hs. exact (gs_limit _ _ _ (gd_sound _ _ _ Hs)). Qed.
Lemma gd_pipes : ∀ pipe n, m_pipe_reservations s !! pipe = Some n →
  n = PIPE_RESERVATION ∧ pipe < da_next_pipe (m_descriptors s).
Proof using Hs. exact (gs_pipes _ _ _ (gd_sound _ _ _ Hs)). Qed.
Lemma gd_contexts : ∀ pid p, m_states s !! pid = Some p → context_ok pid p.
Proof using Hs. exact (gs_contexts _ _ _ (gd_sound _ _ _ Hs)). Qed.
Lemma gd_tasks : ∀ pid, task_live (m_scheduler s) pid → is_Some (m_states s !! pid).
Proof using Hs. exact (gs_tasks _ _ _ (gd_sound _ _ _ Hs)). Qed.
Lemma gd_table : process_table_wf (m_processes s).
Proof using Hs. exact (gs_table _ _ _ (gd_sound _ _ _ Hs)). Qed.
Lemma gd_processes : ∀ pid, is_Some (m_states s !! pid) → process_live (m_processes s) pid.
Proof using Hs. exact (gs_processes _ _ _ (gd_sound _ _ _ Hs)). Qed.
End fields.

Lemma files_ok_kept v a a' : files_kept a a' → files_ok v a → files_ok v a'.
Proof. intros Hk Hok id f Hf. by eapply Hok, Hk. Qed.

Lemma files_ok_vfs v v' a : dom (vf_orphaned v) ⊆ dom (vf_orphaned v') → files_ok v a → files_ok v' a.
Proof. intros Hd Hok id f Hf. destruct (Hok id f Hf) as [? Ho]. split; [done|]. eauto. Qed.

(** The description of one file changes in place. *)
Lemma files_ok_entry v a id e f :
  files_ok v a → file_ok v f → files_ok v (set_description a id e (DFile f)).
Proof.
  intros Hok Hf id' f'. unfold file_at, set_description, set_entry. cbn [da_descriptions with_descriptions].
  destruct (decide (id' = id)) as [->|Hne]; [rewrite lookup_insert_eq; by intros [= <-]|].
  rewrite lookup_insert_ne by done. apply Hok.
Qed.

Lemma entry_file_at a id e f : da_descriptions a !! id = Some e → de_description e = DFile f → file_at a id = Some f.
Proof. intros He Hd. unfold file_at. rewrite He. simpl. unfold entry_file. by rewrite Hd. Qed.

Lemma advance_ok v a id n : files_ok v a → 0 ≤ n → files_ok v (advance_file a id n).1.
Proof.
  intros Hok Hn. unfold advance_file. destruct (_ !! id) as [e|] eqn:He; [|done].
  destruct (de_description e) eqn:Hd; try done. destruct (checked_add64 _ _) as [c|] eqn:Hc; [|done].
  apply checked_add64_Some in Hc as [-> _]. destruct (Hok id file) as [? ?]; [by eapply entry_file_at|].
  apply files_ok_entry; [done|]. split; [simpl; lia|done].
Qed.

Lemma seek_ok v a id n : files_ok v a → 0 ≤ n → files_ok v (seek_file a id n).1.
Proof.
  intros Hok Hn. unfold seek_file. destruct (_ !! id) as [e|] eqn:He; [|done].
  destruct (de_description e) eqn:Hd; try done. destruct (Hok id file) as [? ?]; [by eapply entry_file_at|].
  apply files_ok_entry; [done|]. by split.
Qed.

Lemma open_file_ok v a path cursor readable writable append remove :
  arena_wf a → files_ok v a → 0 ≤ cursor → files_ok v (open_file a path cursor readable writable append remove).1.
Proof.
  intros Hwf Hok Hc. unfold open_file. set (d := DFile _). destruct (allocate a d) as [a' r] eqn:Ha.
  apply allocate_cases in Ha as [[-> ->]|(-> & _ & _ & ->)]; [done|]. intros id f. unfold file_at.
  cbn [fst da_descriptions]. destruct (decide (id = da_next_description a)) as [->|Hne].
  - rewrite lookup_insert_eq. intros [= <-]. by split.
  - rewrite lookup_insert_ne by done. apply Hok.
Qed.

Lemma detach_ok v v' a path id :
  files_ok v a → dom (vf_orphaned v) ∪ {[id]} ⊆ dom (vf_orphaned v') → files_ok v' (detach_file a path id).
Proof.
  intros Hok Hd id' f. unfold file_at, detach_file. cbn [da_descriptions with_descriptions].
  rewrite lookup_fmap. destruct (da_descriptions a !! id') as [e|] eqn:He; [|done]. simpl.
  unfold detach_entry. destruct (de_description e) eqn:Hde; unfold entry_file; try (by rewrite Hde).
  destruct (Hok id' file) as [Hc Ho]; [by eapply entry_file_at|]. case_bool_decide.
  - cbn. intros [= <-]. split; [done|]. intros o [= <-]. set_solver.
  - rewrite Hde. intros [= <-]. split; [done|]. intros o Hf. specialize (Ho o Hf). set_solver.
Qed.

Lemma live_orphans_elem a id : id ∈ live_orphans a ↔ ∃ d f, file_at a d = Some f ∧ fs_orphan f = Some id.
Proof.
  unfold live_orphans. rewrite elem_of_list_to_set, list_elem_of_omap. split.
  - intros (e & [d He]%elem_of_btree_values & Hf). exists d. unfold file_at. rewrite He. simpl. unfold entry_file.
    destruct (de_description e); naive_solver.
  - intros (d & f & Hf & Ho). unfold file_at in Hf. destruct (da_descriptions a !! d) as [e|] eqn:He; [|done].
    exists e. split; [apply elem_of_btree_values; eauto|]. simpl in Hf. unfold entry_file in Hf.
    destruct (de_description e); naive_solver.
Qed.

(** Freeing the unlinked files nothing holds keeps the ones that are held. *)
Lemma retain_live_ok v a : files_ok v a → files_ok (retain_orphans v (live_orphans a)) a.
Proof.
  intros Hok id f Hf. destruct (Hok id f Hf) as [Hc Ho]. split; [done|]. intros o Hfo.
  assert (Hv : vf_orphaned (retain_orphans v (live_orphans a)) = filter (λ '(i, _), i ∈ live_orphans a) (vf_orphaned v)).
  { unfold retain_orphans. cbv zeta. by destruct (0 <? _). }
  rewrite Hv. specialize (Ho o Hfo). apply elem_of_dom in Ho as [n Hn]. apply elem_of_dom. exists n.
  apply map_lookup_filter_Some. split; [done|]. apply live_orphans_elem. eauto.
Qed.

(** ** What a call leaves

    [outcome may Q r]: the call returns and leaves what [Q] says, or it panics and [may]. *)

Section calls.
Context (may : Prop) (h : list Z).

Definition wpm {A} (m : mach A) (s : Machine) (Q : A → Machine → Prop) : Prop :=
  match m s with Ret (s', a) => Q a s' | Panic => may | NoFuel => False end.

Lemma wpm_ret {A} (a : A) s (Q : A → Machine → Prop) : Q a s → wpm (mret a) s Q.
Proof. done. Qed.

Lemma wpm_bind {A B} (m : mach A) (k : A → mach B) s Q :
  wpm m s (λ a s', wpm (k a) s' Q) → wpm (m ≫= k) s Q.
Proof. unfold wpm, mbind, stm_bind. by destruct (m s) as [[]| |]. Qed.

Lemma wpm_mono {A} (m : mach A) s (Q Q' : A → Machine → Prop) :
  wpm m s Q → (∀ a s', Q a s' → Q' a s') → wpm m s Q'.
Proof. unfold wpm. destruct (m s) as [[]| |]; auto. Qed.

Lemma wpm_try {A B} (m : sys A) (k : A → sys B) s Q :
  wpm m s (λ r s', match r with Ok a => wpm (k a) s' Q | Err e => Q (Err e) s' end) → wpm (try_bind k m) s Q.
Proof. intros Hm. apply wpm_bind. eapply wpm_mono; [exact Hm|]. by intros [] s'. Qed.

Lemma wpm_current s Q : (∀ p, m_states s !! m_active s = Some p → Q p s) → is_Some (m_states s !! m_active s) →
  wpm current s Q.
Proof. intros HQ [p Hp]. unfold wpm, current. rewrite Hp. auto. Qed.

Lemma wpm_total {A} (f : Machine → run A) s a Q : f s = Ret a → Q a s → wpm (lift_run f) s Q.
Proof. intros Hf HQ. unfold wpm, lift_run. by rewrite Hf. Qed.

(** A call keeps the machine [good], whatever it returns. *)
Definition safe {A} (b : Z) (m : mach A) : Prop := ∀ s, good h b s → wpm m s (λ _ s', good h b s').

Lemma safe_ret {A} b (a : A) : safe b (mret a).
Proof. by intros s Hs. Qed.

Lemma safe_bind {A B} b (m : mach A) (k : A → mach B) : safe b m → (∀ a, safe b (k a)) → safe b (m ≫= k).
Proof. intros Hm Hk s Hs. apply wpm_bind. eapply wpm_mono; [by apply Hm|]. intros a s' Hs'. by apply Hk. Qed.

Lemma safe_try {A B} b (m : sys A) (k : A → sys B) : safe b m → (∀ a, safe b (k a)) → safe b (try_bind k m).
Proof. intros Hm Hk. apply safe_bind; [done|]. intros []; [apply Hk|apply safe_ret]. Qed.

Lemma safe_gets {A} b (f : Machine → A) : safe b (gets f).
Proof. by intros s Hs. Qed.

Lemma safe_current b : safe b current.
Proof. intros s Hs. apply wpm_current; [done|apply (gd_active _ _ _ Hs)]. Qed.

Lemma safe_run {A} b (f : Machine → run A) :
  (∀ s, good h b s → match f s with Ret _ => True | Panic => may | NoFuel => False end) → safe b (lift_run f).
Proof.
  intros Hf s Hs. specialize (Hf s Hs). unfold wpm, lift_run, mbind, run_bind. by destruct (f s).
Qed.

End calls.
