(* ===== verification/BootInv.v ===== *)
(** * A booted machine satisfies the invariant

    With limits that leave room for the nodes of the image, [with_limits] returns a machine, and it
    is [good] with no memory in use. *)

From S2P Require Import Prelude.
From S2P Require Import State.
From S2P Require Import RustStr.
From S2P Require Import Resources.
From S2P Require Import Variables.
From S2P Require Import Descriptors.
From S2P Require Import Process.
From S2P Require Import Clock.
From S2P Require Import Scheduler.
From S2P Require Import DescriptorInv.
From S2P Require Import DescriptorSystem.
From S2P Require Import Paths.
From S2P Require Import Vfs.
From S2P Require Import VfsTree.
From S2P Require Import VfsUsage.
From S2P Require Import VfsSystem.
From S2P Require Import ProcessState.
From S2P Require Import Machine.
From S2P Require Import PseudoFs.
From S2P Require Import Kernel.
From S2P Require Import Boot.
From S2P Require Import KernelInv.

(** ** The image *)

(** [v] is an image with room for [n] more nodes. *)
Record image_room (v : Vfs) (n : Z) : Prop := {
  im_disk : disk_wf (disk_of v);
  im_orphans : vf_orphaned v = ∅;
  im_space : vf_disk_limit v + 256 * (Z.of_nat (size (vf_baseline_dirs v)) + n
    + Z.of_nat (size (vf_baseline_native v))) < U64_MAX - 256;
  im_inodes : vf_next_inode v + n ≤ U64_MAX
}.

Lemma refresh_frame v :
  vf_orphaned (refresh_usage v) = vf_orphaned v ∧ vf_disk_limit (refresh_usage v) = vf_disk_limit v ∧
  vf_baseline_dirs (refresh_usage v) = vf_baseline_dirs v ∧ vf_baseline_native (refresh_usage v) = vf_baseline_native v ∧
  vf_next_inode (refresh_usage v) = vf_next_inode v.
Proof. done. Qed.

Lemma size_insert_le {V} (m : gmap string V) k x : Z.of_nat (size (<[k := x]> m)) ≤ Z.of_nat (size m) + 1.
Proof. rewrite map_size_insert. case_match; unfold id; lia. Qed.

Lemma size_add_le (k : string) (s : gset string) : Z.of_nat (size ({[k]} ∪ s)) ≤ Z.of_nat (size s) + 1.
Proof.
  rewrite size_union_alt, size_singleton. assert (size (s ∖ {[k]}) ≤ size s)%nat by (apply subseteq_size; set_solver). lia.
Qed.

(** Seeding directories inserts each of them. *)
Lemma seed_each_frame v paths : vf_next_inode v + zlen paths ≤ U64_MAX →
  ∃ v', seed_each v paths = Ret v' ∧ vf_orphaned v' = vf_orphaned v ∧ vf_disk_limit v' = vf_disk_limit v ∧
    vf_baseline_native v' = vf_baseline_native v ∧ vf_next_inode v' = vf_next_inode v + zlen paths ∧
    Z.of_nat (size (vf_baseline_dirs v')) ≤ Z.of_nat (size (vf_baseline_dirs v)) + zlen paths.
Proof.
  revert v. induction paths as [|p paths IH]; intros v Hroom.
  - exists v. split_and!; try done; simpl; lia.
  - cbn [seed_each]. cbv zeta. cbn [length] in Hroom.
    rewrite (allocate_room v) by lia.
    match goal with |- context [seed_each ?w paths] => destruct (IH w) as (v' & -> & Ho & Hl & Hn & Hi & Hd) end.
    { simpl. lia. }
    exists v'. simpl in Ho, Hl, Hn, Hi, Hd. split_and!; try done; [simpl; lia|].
    pose proof (size_add_le (normalize p) (vf_baseline_dirs v)). simpl. lia.
Qed.

Lemma seed_dirs_room v paths n : image_room v (zlen paths + n) → 0 ≤ n → Forall (λ p, normalize p ≠ "/") paths →
  ∃ v', seed_dirs v paths = Ret v' ∧ image_room v' n.
Proof.
  intros [Hd Ho Hs Hi] Hn Hp. destruct (seed_each_frame v paths) as (v1 & Heq & Ho1 & Hl1 & Hn1 & Hi1 & Hd1); [lia|].
  assert (Hret : ∃ v', seed_dirs v paths = Ret v' ∧ vf_orphaned v' = vf_orphaned v1 ∧ vf_disk_limit v' = vf_disk_limit v1 ∧
    vf_baseline_dirs v' = vf_baseline_dirs v1 ∧ vf_baseline_native v' = vf_baseline_native v1 ∧
    vf_next_inode v' = vf_next_inode v1).
  { unfold seed_dirs, mbind, run_bind. rewrite Heq. by eexists. }
  destruct Hret as (v' & Hret & Ho' & Hl' & Hd' & Hn' & Hi'). exists v'. split; [done|]. constructor.
  - eapply seed_dirs_wf; [exact Hd|exact Hp| |exact Hret]. lia.
  - congruence.
  - rewrite Hl', Hd', Hn', Hl1, Hn1. lia.
  - rewrite Hi', Hi1. lia.
Qed.

Lemma seed_native_room v abs program n : image_room v (n + 1) → 0 ≤ n → normalize abs ≠ "/" →
  ∃ v', seed_native_executable v abs program = Ret v' ∧ image_room v' n.
Proof.
  intros [Hd Ho Hs Hi] Hn Hp.
  assert (Hret : ∃ v', seed_native_executable v abs program = Ret v' ∧ vf_orphaned v' = vf_orphaned v ∧
    vf_disk_limit v' = vf_disk_limit v ∧ vf_baseline_dirs v' = vf_baseline_dirs v ∧
    vf_baseline_native v' = <[normalize abs := program]> (vf_baseline_native v) ∧
    vf_next_inode v' = vf_next_inode v + 1).
  { unfold seed_native_executable. cbv zeta. rewrite (allocate_room v) by lia. by eexists. }
  destruct Hret as (v' & Hret & Ho' & Hl' & Hd' & Hn' & Hi'). exists v'. split; [done|]. constructor.
  - eapply seed_native_wf; [exact Hd|exact Hp| |exact Hret]. lia.
  - congruence.
  - rewrite Hl', Hd', Hn'. pose proof (size_insert_le (vf_baseline_native v) (normalize abs) program). lia.
  - rewrite Hi'. lia.
Qed.

Lemma image_room_mono v n n' : image_room v n → n' ≤ n → image_room v n'.
Proof. intros [] Hle. constructor; [done|done|lia|lia]. Qed.

(** A name whose two paths are not the root. *)
Definition seedable (name : string) : Prop :=
  normalize ("/usr/bin/" +:+ name) ≠ "/" ∧ normalize ("/bin/" +:+ name) ≠ "/".

Lemma seed_programs_room v programs n : image_room v (2 * zlen programs + n) → 0 ≤ n →
  Forall (λ p, seedable p.1) programs → ∃ v', seed_programs v programs = Ret v' ∧ image_room v' n.
Proof.
  intros Hr Hn Hp. revert v Hr. induction Hp as [|[name program] programs [Hu Hb] _ IH]; intros v Hr.
  - exists v. split; [done|]. eapply image_room_mono; [exact Hr|simpl; lia].
  - cbn [length] in Hr. unfold seed_programs, mbind, run_bind. fold seed_programs.
    destruct (seed_native_room v ("/usr/bin/" +:+ name) program (2 * zlen programs + n + 1)) as (v1 & -> & H1);
      [eapply image_room_mono; [exact Hr|lia]|lia|done|].
    destruct (seed_native_room v1 ("/bin/" +:+ name) program (2 * zlen programs + n)) as (v2 & -> & H2); [done|lia|done|].
    by apply IH.
Qed.

(** The path of a registered executable, and the name it also gets. *)
Definition registrable (path : string) : Prop :=
  normalize path ≠ "/" ∧ ∀ name, strip_prefix "/usr/bin/" path = Some name → normalize ("/bin/" +:+ name) ≠ "/".

Lemma seed_registered_room v registered n : image_room v (2 * zlen registered + n) → 0 ≤ n →
  Forall (λ p, registrable p.1) registered → ∃ v', seed_registered v registered = Ret v' ∧ image_room v' n.
Proof.
  intros Hr Hn Hp. revert v Hr. induction Hp as [|[path image] registered [Hu Hb] _ IH]; intros v Hr.
  - exists v. split; [done|]. eapply image_room_mono; [exact Hr|simpl; lia].
  - cbn [length] in Hr. unfold seed_registered, mbind, run_bind. fold seed_registered.
    destruct (is_superseded image); [apply IH; eapply image_room_mono; [exact Hr|lia]|].
    destruct (seed_native_room v path image (2 * zlen registered + n + 1)) as (v1 & -> & H1);
      [eapply image_room_mono; [exact Hr|lia]|lia|done|].
    destruct (strip_prefix "/usr/bin/" path) as [name|] eqn:Hname; [|apply IH; eapply image_room_mono; [exact H1|lia]].
    destruct (seed_native_room v1 ("/bin/" +:+ name) image (2 * zlen registered + n)) as (v2 & -> & H2);
      [done|lia|by apply Hb|]. by apply IH.
Qed.

(** ** The parts of the machine *)

Lemma boot_disk limit : 0 ≤ limit → limit + 256 * 1000 < U64_MAX →
  image_room (set_mutation_time (with_disk_limit limit) (unix_ms timeline_new)) 900.
Proof.
  intros H0 Hl. pose proof (with_disk_limit_wf limit ltac:(lia)) as Hd. constructor.
  - exact Hd.
  - done.
  - cbn [vf_disk_limit vf_baseline_dirs vf_baseline_native set_mutation_time with_disk_limit].
    rewrite size_empty, map_size_empty. lia.
  - done.
Qed.

Lemma desc_boot_wf pid : desc_wf (MkDescSystem arena_new {[pid := fd_table_new]} [] ∅).
Proof.
  assert (Hz : ∀ i, holders (MkDescSystem arena_new {[pid := fd_table_new]} [] ∅) i = 0).
  { intros i. unfold holders. simpl. rewrite <-insert_empty.
    rewrite map_sum_insert by apply lookup_empty. unfold table_count. simpl. by rewrite !map_sum_empty. }
  split; [apply arena_new_wf| |].
  - simpl. intros pid' t [_ <-]%lookup_singleton_Some. apply fd_table_new_wf.
  - split; simpl.
    + intros id n. unfold refs. simpl. by rewrite fmap_empty, lookup_empty.
    + intros id. rewrite Hz. lia.
    + intros id. rewrite Hz. lia.
    + set_solver.
Qed.

(** The same descriptors, by the operations of the descriptor system. *)
Definition boot_ops : list desc_op :=
  [OOpen (OpenInput []); OOpen OpenCapture; OOpen OpenCapture;
   OTable ROOT_PID (TInstall 0 1); OTable ROOT_PID (TInstall 1 2); OTable ROOT_PID (TInstall 2 3)].

Lemma boot_descriptors_ok : ∃ t a, boot_descriptors = Ret (t, a) ∧
  desc_wf (MkDescSystem a {[ROOT_PID := t]} [] ∅) ∧ (∀ id, file_at a id = None).
Proof.
  destruct (desc_run_ok (MkDescSystem arena_new {[ROOT_PID := fd_table_new]} [] ∅) boot_ops) as (y & events & Hrun & Hy).
  { apply desc_boot_wf. } { repeat constructor. }
  assert (Hboot : match boot_descriptors with
    | Ret (t, a) => ∃ events, desc_run (MkDescSystem arena_new {[ROOT_PID := fd_table_new]} [] ∅) boot_ops =
                                Ret (MkDescSystem a {[ROOT_PID := t]} [] ∅, events)
    | _ => False end) by (vm_compute; by eexists).
  destruct boot_descriptors as [[t a]| |] eqn:Ht; [|done..]. destruct Hboot as [events' Hboot]. rewrite Hboot in Hrun.
  injection Hrun as <- _. exists t, a. split_and!; [done|done|].
  assert (Hfiles : match boot_descriptors with
    | Ret (_, a) => map_Forall (λ _ e, entry_file e = None) (da_descriptions a) | _ => False end).
  { apply (bool_decide_unpack _). vm_compute. done. }
  rewrite Ht in Hfiles. intros id. unfold file_at.
  destruct (da_descriptions a !! id) as [e|] eqn:He; [|done]. exact (Hfiles id e He).
Qed.

Lemma boot_processes_live cwd environment descriptors :
  let t := update_descriptors (process_table_new ROOT_PID cwd environment) ROOT_PID descriptors in
  process_table_wf t ∧ process_live t ROOT_PID.
Proof.
  split.
  - apply update_record_wf; [done|]. by apply process_table_new_wf.
  - eexists. split; [unfold update_descriptors, update_record; simpl; by rewrite lookup_alter_eq, lookup_singleton_eq|done].
Qed.

Lemma boot_context_ok t : context_ok ROOT_PID (boot_context t) ∧ context_bytes (boot_context t) = 0.
Proof. done. Qed.

(** The image fits: the built-in directories and programs and what is registered. *)
Definition bootable (limits : Limits) (registered : list (string * NativeProgram)) : Prop :=
  0 ≤ lim_disk limits ∧ lim_disk limits + 256 * 1000 < U64_MAX ∧ 0 ≤ lim_memory limits ≤ U64_MAX ∧
  zlen registered ≤ 400 ∧ Forall (λ p, registrable p.1) registered.

(** The machine around an image and the first three descriptors. *)
Lemma boot_machine_good limits v t a :
  disk_wf (disk_of v) → desc_wf (MkDescSystem a {[ROOT_PID := t]} [] ∅) → (∀ id, file_at a id = None) →
  0 ≤ lim_memory limits ≤ U64_MAX →
  let context := boot_context t in
  let processes := update_descriptors (process_table_new ROOT_PID "/" (child_env context)) ROOT_PID
                     (omap (λ id, ok (description_label a id)) (ft_entries t)) in
  good [] 0 (MkMachine v "sandbox" timeline_new (resources_new limits) processes (scheduler_new ROOT_PID) a ∅
               (MkControllingTerminal ROOT_PID ROOT_PID) ROOT_PID {[ROOT_PID := context]} 0 [] [] host_virtual).
Proof.
  intros Hv Hd Hf Hm context processes.
  destruct (boot_processes_live "/" (child_env context) (omap (λ id, ok (description_label a id)) (ft_entries t))) as [Ht Hl].
  split; [constructor|].
  - exists ∅. unfold arena_of. cbn [m_descriptors m_states]. by rewrite map_fmap_singleton.
  - done.
  - intros id f. cbn [m_descriptors]. by rewrite Hf.
  - apply scheduler_new_wf.
  - done.
  - unfold held, reserved. cbn [m_states m_pipe_reservations]. rewrite <-insert_empty.
    rewrite map_sum_insert by apply lookup_empty. rewrite !map_sum_empty. reflexivity.
  - cbn. lia.
  - done.
  - intros pid p. cbn [m_states]. intros [<- <-]%lookup_singleton_Some. apply boot_context_ok.
  - intros pid. unfold task_live. cbn [m_scheduler scheduler_new sc_states m_states].
    destruct (decide (pid = ROOT_PID)) as [->|Hne]; [by rewrite !lookup_singleton_eq|]. by rewrite lookup_singleton_ne.
  - exact Ht.
  - intros pid. cbn [m_states]. intros [p [<- _]%lookup_singleton_Some]. exact Hl.
  - cbn [m_states m_active]. by rewrite lookup_singleton_eq.
Qed.

Lemma boot_good limits registered : bootable limits registered →
  ∃ s, with_limits limits registered = Ret s ∧ good [] 0 s.
Proof.
  intros (H0 & Hl & Hm & Hn & Hr). destruct boot_descriptors_ok as (t & a & Hb & Hd & Hf).
  unfold with_limits, mbind, run_bind. rewrite Hb. cbv beta iota zeta.
  pose proof (boot_disk _ H0 Hl) as Hi.
  destruct (seed_dirs_room (set_mutation_time (with_disk_limit (lim_disk limits)) (unix_ms timeline_new)) seeded_dirs
    (2 * zlen seeded_programs + 2 * zlen registered)) as (v1 & -> & H1).
  { eapply image_room_mono; [exact Hi|]. cbn [length seeded_dirs seeded_programs]. lia. } { lia. }
  { apply (bool_decide_unpack _). vm_compute. done. }
  destruct (seed_programs_room v1 seeded_programs (2 * zlen registered)) as (v2 & -> & H2); [done|lia| |].
  { unfold seedable. apply (bool_decide_unpack _). vm_compute. done. }
  destruct (seed_registered_room v2 registered 0) as (v3 & -> & H3); [by rewrite Z.add_0_r|done|done|].
  eexists. split; [reflexivity|]. apply boot_machine_good; [apply H3|done|done|done].
Qed.



(** ** A booted machine for examples *)

Lemma example_bootable : bootable limits_default [].
Proof. by split_and!. Qed.

Lemma example_boot (check : Machine → bool) :
  match with_limits limits_default [] with Ret s => check s | _ => false end = true →
  ∃ s, with_limits limits_default [] = Ret s ∧ good [] 0 s ∧ check s = true.
Proof. intros Hc. destruct (boot_good _ _ example_bootable) as (s & Hs & Hg). rewrite Hs in Hc. exists s.
  split; [exact Hs|split; [exact Hg|exact Hc]].
Qed.
