(* ===== verification/KernelSafe.v ===== *)
(** * System calls keep the machine

    Every modelled system call, run by any process over a machine that satisfies the invariant of
    KernelInv, leaves a machine that satisfies it, whether the call succeeds or fails; the calls
    that can bring the host down are named. *)

From S2P Require Import Prelude.
From S2P Require Import State.
From S2P Require Import RustStr.
From S2P Require Import Resources.
From S2P Require Import Process.
From S2P Require Import Clock.
From S2P Require Import Scheduler.
From S2P Require Import Descriptors.
From S2P Require Import DescriptorInv.
From S2P Require Import DescriptorSystem.
From S2P Require Import Paths.
From S2P Require Import Vfs.
From S2P Require Import VfsTree.
From S2P Require Import VfsUsage.
From S2P Require Import VfsSystem.
From S2P Require Import ProcessState.
From S2P Require Import Machine.
From S2P Require Import PseudoFs.
From S2P Require Import Kernel.
From S2P Require Import KernelInv.

Ltac open_good H :=
  destruct H as [[Gdesc Gdisk Gfiles Gsched Gbase Gmemory Glimit Gpipes Gcontexts Gtasks Gtable Gprocesses] Gactive].
Ltac close_good := split; [split|]; try done.

(** ** Live tasks and processes *)

Lemma live_same c c' pid : sc_states c' !! pid = sc_states c !! pid → task_live c' pid → task_live c pid.
Proof. unfold task_live. by intros ->. Qed.

Lemma woke_live c waiting c' pid : woke c waiting c' → task_live c' pid → task_live c pid.
Proof.
  intros Hw. unfold task_live. rewrite (wo_states _ _ _ Hw). case_decide; [|done].
  by destruct (sc_states c !! pid) as [[| |reason|[]|status]|].
Qed.

(** The state of one task that was live before. *)
Lemma insert_live c states runnable blocked current pid st q : task_live c pid →
  states = <[pid := st]> (sc_states c) → task_live (MkScheduler states runnable blocked current) q → task_live c q.
Proof.
  intros Hp -> Hq. unfold task_live in Hq. cbn [sc_states] in Hq. destruct (decide (q = pid)) as [->|Hne]; [done|].
  rewrite lookup_insert_ne in Hq by done. done.
Qed.

Lemma current_live c pid : sched_wf c → sc_current c = Some pid → task_live c pid.
Proof. intros Hc Hp. unfold task_live. by rewrite (current_state _ _ Hc Hp). Qed.

Lemma block_current_live c reason q : sched_wf c → task_live (block_current c reason).1 q → task_live c q.
Proof.
  intros Hc. unfold block_current. destruct (sc_current c) as [pid|] eqn:Hp; [|done].
  eapply insert_live; [by apply current_live|done].
Qed.

Lemma scheduler_reap_live c pid q : task_live (scheduler_reap c pid).1 q → task_live c q.
Proof.
  unfold scheduler_reap. destruct (sc_states c !! pid) as [[]|] eqn:Hp; try done. unfold task_live. simpl.
  rewrite lookup_delete. by case_decide.
Qed.

Lemma update_live t pid f q : (∀ r, pr_status (f r) = pr_status r) → process_live t q → process_live (update_record t pid f) q.
Proof.
  intros Hf (r & Hr & Hl). unfold process_live, update_record. simpl. destruct (decide (q = pid)) as [->|Hne].
  - exists (f r). by rewrite lookup_alter_eq, Hr, Hf.
  - exists r. by rewrite lookup_alter_ne.
Qed.

(** Every operation of the process table keeps it well formed. *)
Lemma process_op_wf t op : process_table_wf t → process_table_wf (process_step t op).1.
Proof.
  intros Ht. destruct (process_step t op) as [t' o] eqn:Hop. by destruct (process_step_wf _ _ _ _ Ht Hop).
Qed.

Lemma reap_live t pid q : process_live t q → process_live (process_reap t pid).1 q.
Proof.
  intros (r & Hr & Hl). unfold process_reap. destruct (pt_records t !! pid) as [x|] eqn:Hx; [|by exists r].
  destruct (has_exited (pr_status x)) eqn:He; [|by exists r]. exists r. split; [|done]. simpl.
  rewrite lookup_delete_ne; [done|]. intros ->. congruence.
Qed.

Lemma reserved_nonneg h b s : good h b s → 0 ≤ reserved s.
Proof.
  intros Hs. unfold reserved. rewrite (map_sum_ext _ (λ _ _, PIPE_RESERVATION)); [by apply map_sum_nonneg|].
  intros i x Hx. by destruct (gd_pipes Hs i x Hx).
Qed.

Lemma context_bytes_nonneg pid p : context_ok pid p → 0 ≤ context_bytes p.
Proof. intros (_ & ? & ? & ? & ?). unfold context_bytes. lia. Qed.

Lemma held_nonneg h b s : good h b s → 0 ≤ held s.
Proof.
  intros Hs. unfold held. rewrite (map_sum_ext _ (λ _ p, Z.max 0 (context_bytes p))); [apply map_sum_nonneg; lia|].
  intros pid p Hp. pose proof (context_bytes_nonneg _ _ (gd_contexts Hs pid p Hp)). lia.
Qed.

(** ** One component changes *)

Section components.
Context (h : list Z) (b : Z) (s : Machine) (Hs : good h b s).

Lemma good_vfs v : disk_wf (disk_of v) → dom (vf_orphaned (m_vfs s)) ⊆ dom (vf_orphaned v) → good h b (set_vfs s v).
Proof. intros Hd Ho. open_good Hs. close_good. simpl. by eapply files_ok_vfs. Qed.

Lemma good_retained : good h b (set_vfs s (retain_orphans (m_vfs s) (live_orphans (m_descriptors s)))).
Proof. open_good Hs. close_good; simpl; [by apply retain_keeps|by apply retain_live_ok]. Qed.

Lemma good_account b' r : 0 ≤ b' → rs_memory_current r = b' + held s + reserved s →
  rs_memory_current r ≤ lim_memory (rs_limits (m_resources s)) → rs_limits r = rs_limits (m_resources s) →
  good h b' (set_resources s r).
Proof. intros Hb Hm Hl Hr. open_good Hs. close_good. simpl. rewrite Hr. split; [done|apply Glimit]. Qed.

Lemma good_resources r : rs_memory_current r = rs_memory_current (m_resources s) →
  rs_limits r = rs_limits (m_resources s) → good h b (set_resources s r).
Proof.
  intros Hm Hl. apply good_account; [apply (gd_base Hs)| | |done]; rewrite Hm; [apply (gd_memory Hs)|]. by destruct (gd_limit Hs).
Qed.

Lemma good_scheduler c : sched_wf c → (∀ pid, task_live c pid → task_live (m_scheduler s) pid) →
  good h b (set_scheduler s c).
Proof. intros Hc Hl. open_good Hs. close_good. intros pid Hp. by apply Gtasks, Hl. Qed.

Lemma good_processes t : process_table_wf t → (∀ pid, process_live (m_processes s) pid → process_live t pid) → good h b (set_processes s t).
Proof. intros Hw Hl. open_good Hs. close_good. intros pid Hp. by apply Hl, Gprocesses. Qed.

Lemma good_clock c : good h b (set_clock s c).
Proof. open_good Hs. by close_good. Qed.

Lemma good_hostname n : good h b (set_hostname s n).
Proof. open_good Hs. by close_good. Qed.

(** The arena moves as one operation of the descriptor system does. *)
Lemma good_arena a : (∃ U, desc_wf (MkDescSystem a (ps_fds <$> m_states s) h U)) →
  da_next_pipe (m_descriptors s) ≤ da_next_pipe a → files_ok (m_vfs s) a → good h b (set_descriptors s a).
Proof.
  intros Hd Hn Hf. open_good Hs. close_good. intros pipe n Hp.
  destruct (Gpipes pipe n Hp). split; [done|]. simpl. lia.
Qed.

(** What a context keeps when only its descriptors, directory, mask or entropy change. *)
Definition same_holdings (p p' : ProcessState) : Prop :=
  ps_identity p' = ps_identity p ∧ ps_reserved p' = ps_reserved p.

Lemma held_context (states : gmap Z ProcessState) pid p p' : states !! pid = Some p → same_holdings p p' →
  map_sum (λ _ p, context_bytes p) (<[pid := p']> states) = map_sum (λ _ p, context_bytes p) states.
Proof.
  intros Hp [_ Hr]. rewrite (map_sum_replace _ _ _ _ _ Hp). unfold context_bytes. rewrite Hr. lia.
Qed.

Lemma context_ok_same pid p p' : same_holdings p p' → context_ok pid p → context_ok pid p'.
Proof. intros [Hi Hr]. unfold context_ok, ps_pid. by rewrite Hi, Hr. Qed.

Lemma good_states states : is_Some (states !! m_active s) →
  (∃ U, desc_wf (MkDescSystem (m_descriptors s) (ps_fds <$> states) h U)) →
  map_sum (λ _ p, context_bytes p) states = held s →
  (∀ pid p, states !! pid = Some p → context_ok pid p) →
  (∀ pid, is_Some (states !! pid) ↔ is_Some (m_states s !! pid)) → good h b (set_states s states).
Proof.
  intros Ha Hd Hh Hc Hdom. open_good Hs. close_good; cbn [m_states set_states].
  - cbn [m_resources set_states]. rewrite Gmemory, <-Hh. done.
  - intros pid Hp. by apply Hdom, Gtasks.
  - intros pid Hp. by apply Gprocesses, Hdom.
Qed.

Lemma insert_dom (states : gmap Z ProcessState) pid p' q : is_Some (states !! pid) →
  is_Some (<[pid := p']> states !! q) ↔ is_Some (states !! q).
Proof. intros Hp. destruct (decide (q = pid)) as [->|]; [rewrite lookup_insert_eq; naive_solver|by rewrite lookup_insert_ne]. Qed.

(** The active context changes, its descriptors apart. *)
Lemma good_context p p' : m_states s !! m_active s = Some p → ps_fds p' = ps_fds p → same_holdings p p' →
  good h b (set_states s (<[m_active s := p']> (m_states s))).
Proof.
  intros Hp Hf Hh. apply good_states.
  - rewrite lookup_insert_eq. by eexists.
  - destruct (gd_desc Hs) as [U HU]. exists U. rewrite fmap_insert, Hf, insert_id; [done|].
    by rewrite lookup_fmap, Hp.
  - by apply (held_context _ _ p).
  - intros q x [[<- <-]|[_ Hx]]%lookup_insert_Some; [|by apply (gd_contexts Hs)].
    eapply context_ok_same; [exact Hh|by apply (gd_contexts Hs)].
  - intros q. apply insert_dom. by eexists.
Qed.

Lemma transition_next a ev a' : pipe_transition a ev a' → da_next_pipe a ≤ da_next_pipe a'.
Proof.
  destruct ev; simpl.
  - intros (? & ? & _ & _ & -> & _). done.
  - intros (? & _ & -> & _). done.
  - by intros [].
Qed.

(** The arena operation [op], whose outcome on the arena is [a]. *)
Lemma good_op op a :
  desc_op_valid op →
  (∀ U, ∃ U' ev, desc_step (arena_of h U s) op = Ret (MkDescSystem a (ps_fds <$> m_states s) h U', ev)) →
  files_ok (m_vfs s) a → good h b (set_descriptors s a).
Proof.
  intros Hv Hop Hf. destruct (gd_desc Hs) as [U HU]. destruct (Hop U) as (U' & ev & Hstep).
  destruct (desc_step_ok _ op HU Hv) as (y & ev' & Hy & Hwf & Ht). rewrite Hstep in Hy. injection Hy as <- <-.
  apply good_arena; [by eexists|by apply transition_next in Ht|done].
Qed.

(** An operation of the active process's table. *)
Definition with_table (p : ProcessState) (t : FdTable) (a : DescriptorArena) : Machine :=
  set_states (set_descriptors s a) (<[m_active s := with_fds p t]> (m_states s)).

Lemma good_table p op t a r : m_states s !! m_active s = Some p →
  table_step (ps_fds p) (m_descriptors s) op = (t, a, r) → files_kept (m_descriptors s) a →
  good h b (with_table p t a).
Proof.
  intros Hp Hop Hk. destruct (gd_desc Hs) as [U HU].
  destruct (desc_step_ok (arena_of h U s) (OTable (m_active s) op) HU I) as (y & ev & Hy & Hwf & Ht).
  cbn [desc_step dy_tables arena_of dy_arena dy_handles dy_unowned] in Hy.
  rewrite lookup_fmap, Hp in Hy. simpl in Hy. rewrite Hop in Hy. injection Hy as <- <-.
  apply transition_next in Ht. cbn [dy_arena arena_of] in Ht.
  assert (Hctx : ∀ q x, <[m_active s := with_fds p t]> (m_states s) !! q = Some x → context_ok q x).
  { intros q x [[<- <-]|[_ Hx]]%lookup_insert_Some; [|by apply (gd_contexts Hs)].
    apply (context_ok_same _ p); [done|by apply (gd_contexts Hs)]. }
  assert (Hheld : held (with_table p t a) = held s) by (by apply (held_context _ _ p)).
  pose proof (insert_dom (m_states s) (m_active s) (with_fds p t)) as Hdom.
  open_good Hs. close_good.
  - eexists. unfold arena_of, with_table. cbn [m_descriptors m_states set_states set_descriptors].
    rewrite fmap_insert. exact Hwf.
  - simpl. by eapply files_ok_kept.
  - rewrite Hheld. exact Gmemory.
  - intros pipe n Hpn. destruct (Gpipes pipe n Hpn). split; [done|]. simpl. lia.
  - intros q Hq. apply Hdom; [done|]. by apply Gtasks.
  - intros q Hq. apply Hdom in Hq; [|done]. by apply Gprocesses.
  - simpl. rewrite lookup_insert_eq. by eexists.
Qed.

End components.

(** ** Primitive steps *)

Section primitives.
Context (may : Prop) (h : list Z).
Notation wpm := (wpm may).
Notation safe := (safe may h).

(** Memory: what a reservation adds outside the pipes, and its release. *)
Lemma wpm_charge b units s Q : good h b s →
  (∀ r g, good h b (set_resources s r) → Q g (set_resources s r)) → wpm (charge units) s Q.
Proof.
  intros Hs HQ. unfold wpm, charge, charge_cpu. repeat case_match; simplify_eq; apply HQ, good_resources; done.
Qed.

Lemma safe_charge b units : safe b (charge units).
Proof. intros s Hs. by eapply wpm_charge. Qed.

Lemma wpm_reserve b n s Q : good h b s → 0 ≤ n →
  (∀ r, good h (b + n) (set_resources s r) → Q true (set_resources s r)) →
  (∀ r, good h b (set_resources s r) → Q false (set_resources s r)) → wpm (reserve n) s Q.
Proof.
  intros Hs Hn Hyes Hno. unfold wpm, reserve, reserve_memory. destruct (is_stopped _); [by apply Hno, good_resources|].
  destruct (checked_add64 _ _) as [next|] eqn:Hnext; [|by apply Hno, good_resources].
  destruct (_ <? next) eqn:Hlim; [by apply Hno, good_resources|]. apply Hyes. bool_to_prop.
  apply checked_add64_Some in Hnext as [-> _]. pose proof (gd_memory Hs). pose proof (gd_base Hs).
  apply (good_account _ _ _ Hs); simpl; [lia|lia|done|done].
Qed.

Lemma wpm_release b n s Q : good h (b + n) s → 0 ≤ b → 0 ≤ n →
  (∀ r, good h b (set_resources s r) → Q tt (set_resources s r)) → wpm (release_bytes n) s Q.
Proof.
  intros Hs Hb Hn HQ. unfold wpm, release_bytes, modify. apply HQ.
  pose proof (gd_memory Hs). pose proof (reserved_nonneg _ _ _ Hs). pose proof (held_nonneg _ _ _ Hs).
  destruct (gd_limit Hs).
  assert (Hr : rs_memory_current (release_memory (m_resources s) n) = b + held s + reserved s)
    by (simpl; rewrite sat_sub_exact; lia).
  apply (good_account _ _ _ Hs); [done|done|rewrite Hr; lia|done].
Qed.

(** Filesystem steps. *)
Lemma wpm_vfs_do {A} b (f : Vfs → vfs_result A) s Q : good h b s →
  keeps (m_vfs s) (f (m_vfs s)) → dom (vf_orphaned (m_vfs s)) ⊆ dom (vf_orphaned (f (m_vfs s)).1) →
  (∀ r s', good h b s' → Q r s') → wpm (vfs_do f) s Q.
Proof.
  intros Hs [Hk _] Ho HQ. unfold wpm, vfs_do. destruct (f (m_vfs s)) as [v r]. apply HQ. by apply good_vfs.
Qed.

Lemma safe_vfs_do {A} b (f : Vfs → vfs_result A) :
  (∀ v, disk_wf (disk_of v) → keeps v (f v)) → (∀ v, orphans_kept v (f v)) → safe b (vfs_do f).
Proof.
  intros Hk Ho s Hs. apply (wpm_vfs_do b); [done|apply Hk, Hs| |done]. by rewrite Ho.
Qed.

Lemma wpm_vfs_run {A} b (f : Vfs → run (vfs_result A)) s Q : good h b s →
  match f (m_vfs s) with
  | Ret out => keeps (m_vfs s) out ∧ dom (vf_orphaned (m_vfs s)) ⊆ dom (vf_orphaned out.1)
  | Panic => may
  | NoFuel => False
  end → (∀ r s', good h b s' → Q r s') → wpm (vfs_run f) s Q.
Proof.
  intros Hs Hf HQ. unfold wpm, vfs_run, mbind, run_bind. destruct (f (m_vfs s)) as [[v r]| |]; [|done..].
  destruct Hf as [[Hk _] Ho]. apply HQ. by apply good_vfs.
Qed.

Lemma safe_vfs_get {A} b (f : Vfs → result VfsError A) : safe b (vfs_get f).
Proof. apply safe_gets. Qed.

Lemma safe_vfs_query {A} b (f : Vfs → run (result VfsError A)) :
  (∀ v, disk_wf (disk_of v) → match f v with Ret _ => True | Panic => may | NoFuel => False end) → safe b (vfs_query f).
Proof.
  intros Hf. apply safe_bind; [|intros; apply safe_ret]. apply safe_run. intros s Hs. apply Hf, (gd_disk Hs).
Qed.

Lemma safe_sync b : safe b sync_vfs_time.
Proof. intros s Hs. unfold KernelInv.wpm, sync_vfs_time, modify. by apply good_vfs; [|apply (gd_disk Hs)|]. Qed.

(** Scheduler steps. *)
Lemma safe_wake b (f : Scheduler → run (Scheduler * Z)) p :
  (∀ c, f c = wake_matching c p) → safe b (wake f).
Proof.
  intros Hf s Hs. unfold KernelInv.wpm, wake, mbind, run_bind. rewrite Hf.
  destruct (wake_matching_spec (m_scheduler s) p) as (c & -> & Hw & Hc); [apply (gd_sched Hs)|].
  apply good_scheduler; [done|done|]. intros q. by eapply woke_live.
Qed.

Lemma safe_wake_waiters b reason : safe b (wake (λ c, wake_waiters c reason)).
Proof. by apply (safe_wake _ _ (λ blocked, accepts blocked reason)). Qed.

(** Arena steps: the operation [op] of the descriptor system is [f] on the arena. *)
Definition arena_op (op : desc_op) {A} (f : DescriptorArena → arena_result A) : Prop :=
  desc_op_valid op ∧ ∀ y, ∃ U ev,
    desc_step y op = Ret (MkDescSystem (f (dy_arena y)).1 (dy_tables y) (dy_handles y) U, ev).

Definition files_safe {A} (f : DescriptorArena → arena_result A) : Prop :=
  ∀ v a, arena_wf a → files_ok v a → files_ok v (f a).1.

Lemma good_arena_wf b s : good h b s → arena_wf (m_descriptors s).
Proof. intros Hs. destruct (gd_desc Hs) as [U HU]. exact (dw_arena _ HU). Qed.

Lemma good_arena_do {A} b op (f : DescriptorArena → arena_result A) s : arena_op op f → files_safe f →
  good h b s → good h b (set_descriptors s (f (m_descriptors s)).1).
Proof.
  intros [Hv Hop] Hf Hs. apply (good_op _ _ _ Hs op); [done| |].
  - intros U. exact (Hop (arena_of h U s)).
  - apply Hf; [by eapply good_arena_wf|apply (gd_files Hs)].
Qed.

Lemma safe_arena_do {A} b op (f : DescriptorArena → arena_result A) :
  arena_op op f → files_safe f → safe b (arena_do f).
Proof.
  intros Hop Hf s Hs. pose proof (good_arena_do b op f s Hop Hf Hs) as Hg.
  unfold KernelInv.wpm, arena_do. by destruct (f (m_descriptors s)).
Qed.

Lemma safe_arena_get {A} b (f : DescriptorArena → result DescriptorError A) : safe b (arena_get f).
Proof. apply safe_gets. Qed.

Lemma files_safe_kept {A} (f : DescriptorArena → arena_result A) : (∀ a, arena_wf a → files_kept a (f a).1) → files_safe f.
Proof. intros Hf v a Hwf Hok. by eapply files_ok_kept, Hok; apply Hf. Qed.

(** Opening. *)
Lemma open_op request : arena_op (OOpen request) (λ a, run_open a request).
Proof. split; [done|]. intros y. simpl. destruct (run_open _ _) as [a []]; by do 2 eexists. Qed.

Lemma run_open_files request : (∀ path cursor, ∀ r w ap rm, request = DescriptorSystem.OpenFile path cursor r w ap rm → 0 ≤ cursor) →
  files_safe (λ a, run_open a request).
Proof.
  intros Hc. destruct request as [|content| | | | |path cursor r w ap rm]; try (apply files_safe_kept; intros a Hwf; by apply allocate_files).
  - apply files_safe_kept. intros a Hwf. simpl. unfold open_input. case_match; [done|]. by apply allocate_files.
  - intros v a Hwf Hok. apply open_file_ok; [done..|]. by eapply Hc.
Qed.

Lemma safe_open {A} b request (f : DescriptorArena → arena_result A) (Heq : ∀ a, (f a).1 = (run_open a request).1) :
  (∀ path cursor, ∀ r w ap rm, request = DescriptorSystem.OpenFile path cursor r w ap rm → 0 ≤ cursor) → safe b (arena_do f).
Proof.
  intros Hc. apply (safe_arena_do _ (OOpen request)).
  - destruct (open_op request) as [Hv Hop]. split; [done|]. intros y. rewrite Heq. apply Hop.
  - intros v a. rewrite Heq. by apply run_open_files.
Qed.

(** Changes in place. *)
Lemma quiet_op {A} op (f : DescriptorArena → arena_result A) : desc_op_valid op →
  (∀ y, desc_step y op = quiet y (f (dy_arena y)).1) → arena_op op f.
Proof. intros Hv Hop. split; [done|]. intros y. rewrite Hop. by do 2 eexists. Qed.

Lemma safe_bind_inode b id inode : safe b (arena_do (λ a, bind_inode a id inode)).
Proof. apply (safe_arena_do _ (OBindInode id inode)); [by apply quiet_op|]. apply files_safe_kept. intros. apply bind_inode_files. Qed.

Lemma safe_set_nonblocking b id enabled : safe b (arena_do (λ a, set_nonblocking a id enabled)).
Proof. apply (safe_arena_do _ (OSetNonblocking id enabled)); [by apply quiet_op|]. apply files_safe_kept. intros. apply set_nonblocking_files. Qed.

Lemma safe_advance b id n : 0 ≤ n → safe b (arena_do (λ a, advance_file a id n)).
Proof. intros Hn. apply (safe_arena_do _ (OAdvance id n)); [by apply quiet_op|]. intros v a _ Hok. by apply advance_ok. Qed.

Lemma safe_seek b id n : 0 ≤ n → safe b (arena_do (λ a, seek_file a id n)).
Proof. intros Hn. apply (safe_arena_do _ (OSeek id n)); [by apply quiet_op|]. intros v a _ Hok. by apply seek_ok. Qed.

Lemma safe_discard b id : safe b (arena_do (λ a, discard_unreferenced a id)).
Proof.
  apply (safe_arena_do _ (ODiscard id)); [|apply files_safe_kept; intros; apply discard_files].
  split; [done|]. intros y. simpl. destruct (discard_unreferenced _ _) as [a []]; by do 2 eexists.
Qed.

Lemma safe_arena_write b id data : safe b (arena_do (λ a, arena_write a id data)).
Proof.
  apply (safe_arena_do _ (OWrite id data)); [|apply files_safe_kept; intros; apply arena_write_files].
  split; [done|]. intros y. simpl. destruct (arena_write _ _ _); by do 2 eexists.
Qed.

Lemma safe_take_changes b :
  safe b (λ m, let '(a, changed) := take_file_lock_changes (m_descriptors m) in Ret (set_descriptors m a, changed)).
Proof.
  intros s Hs. apply (good_op _ _ _ Hs OTakeLockChanges); [done| |].
  - intros U. by do 2 eexists.
  - eapply files_ok_kept, (gd_files Hs). by apply files_same.
Qed.

(** Operations that may panic on an ill-formed arena. *)
Lemma safe_arena_run {A} b op (f : DescriptorArena → run (arena_result A)) :
  desc_op_valid op →
  (∀ y, desc_wf y → ∃ a r U ev, f (dy_arena y) = Ret (a, r) ∧
    desc_step y op = Ret (MkDescSystem a (dy_tables y) (dy_handles y) U, ev)) →
  (∀ a a' r, f a = Ret (a', r) → files_kept a a') → safe b (arena_run f).
Proof.
  intros Hv Hop Hf s Hs. destruct (gd_desc Hs) as [U HU].
  destruct (Hop _ HU) as (a & r & U' & ev & Heq & Hstep). cbn [arena_of dy_arena] in Heq.
  unfold KernelInv.wpm, arena_run, mbind, run_bind. rewrite Heq. 
  destruct (desc_step_ok _ op HU Hv) as (y & ev' & Hy & Hwf & Ht). rewrite Hstep in Hy. injection Hy as <- <-.
  apply (good_arena _ _ _ Hs); [by eexists|by apply transition_next in Ht|].
  eapply files_ok_kept, (gd_files Hs). by eapply Hf.
Qed.

Lemma safe_arena_read b id maximum : 0 ≤ maximum → safe b (arena_run (λ a, arena_read a id maximum)).
Proof.
  intros Hm. apply (safe_arena_run _ (ORead id maximum)); [done| |intros; by eapply arena_read_files].
  intros y Hy. destruct (arena_read_spec (dy_arena y) id maximum (dw_arena _ Hy) Hm) as (a & r & Heq & _).
  exists a, r. simpl. rewrite Heq. by do 2 eexists.
Qed.

Lemma file_lock_total a id inode mode : arena_wf a → ∃ a' r, file_lock a id inode mode = Ret (a', r).
Proof.
  intros Hwf. destruct (da_descriptions a !! id) as [e|] eqn:He.
  - destruct (file_lock_spec a id inode mode Hwf) as (a' & b & -> & _); eauto.
  - unfold file_lock. rewrite He. eauto.
Qed.

Lemma safe_file_lock b id inode mode : safe b (arena_run (λ a, file_lock a id inode mode)).
Proof.
  apply (safe_arena_run _ (OFileLock id inode mode)); [done| |intros; by eapply file_lock_files].
  intros y Hy. destruct (file_lock_total (dy_arena y) id inode mode (dw_arena _ Hy)) as (a & r & Heq).
  exists a, r. simpl. rewrite Heq. by do 2 eexists.
Qed.

(** The active process's table. *)
Lemma table_do_eq {A} (f : FdTable → DescriptorArena → table_result A) s p :
  m_states s !! m_active s = Some p →
  table_do f s = let '(t, a, r) := f (ps_fds p) (m_descriptors s) in Ret (with_table s p t a, from_descriptor r).
Proof.
  intros Hp. unfold table_do, current, update_current, gets, modify, mbind, stm_bind, current. rewrite Hp.
  destruct (f _ _) as [[t a] r]. cbn. unfold current. cbn. by rewrite Hp.
Qed.

Lemma safe_table_do b op (f : FdTable → DescriptorArena → table_result unit) :
  (∀ t a, f t a = table_step t a op) → (∀ t a, files_kept a (f t a).1.2) → safe b (table_do f).
Proof.
  intros Hop Hf s Hs. destruct (gd_active _ _ _ Hs) as [p Hp]. unfold KernelInv.wpm. rewrite (table_do_eq _ _ p Hp).
  pose proof (Hf (ps_fds p) (m_descriptors s)) as Hk. specialize (Hop (ps_fds p) (m_descriptors s)).
  destruct (f _ _) as [[t a] r]. by eapply good_table.
Qed.

Lemma safe_table_get {A} b (f : FdTable → result DescriptorError A) : safe b (table_get f).
Proof. apply safe_bind; [apply safe_current|]. intros. apply safe_ret. Qed.

Lemma safe_update_context b f : (∀ p, ps_fds (f p) = ps_fds p ∧ same_holdings p (f p)) →
  safe b (update_current f).
Proof.
  intros Hf s Hs. unfold update_current. apply wpm_bind, wpm_current; [|apply (gd_active _ _ _ Hs)].
  intros p Hp. unfold KernelInv.wpm, modify. destruct (Hf p). by eapply good_context.
Qed.

End primitives.

(** ** Automation

    [keep_safe] takes a call apart; the database holds what is known of its parts. *)

Create HintDb kernel_safe discriminated.
#[export] Hint Constants Opaque : kernel_safe.
#[export] Hint Resolve safe_ret safe_gets safe_current safe_charge safe_vfs_get safe_sync safe_wake_waiters
  safe_arena_get safe_bind_inode safe_set_nonblocking safe_discard safe_arena_write safe_take_changes
  safe_file_lock safe_table_get : kernel_safe.
#[export] Hint Extern 1 (safe _ _ _ (fail _)) => apply safe_ret : kernel_safe.
#[export] Hint Extern 1 (safe _ _ _ (done_ _)) => apply safe_ret : kernel_safe.
#[export] Hint Extern 1 (safe _ _ _ descriptor_limit) => apply safe_ret : kernel_safe.

Ltac keep_safe :=
  repeat lazymatch goal with
  | |- ∀ _, _ => intro
  | |- safe _ _ _ (mbind _ _) => apply safe_bind
  | |- safe _ _ _ (try_bind _ _) => apply safe_try
  | |- safe _ _ _ (let _ := _ in _) => cbv zeta
  | |- safe _ _ _ (match ?x with _ => _ end) => destruct x eqn:?
  | |- safe _ _ _ _ => solve [auto 2 with kernel_safe]
  end.

Section bookkeeping.
Context (may : Prop) (h : list Z) (b : Z).
Notation safe := (safe may h b).

Lemma safe_modify f : (∀ s, good h b s → good h b (f s)) → safe (modify f).
Proof. intros Hf s Hs. by apply Hf. Qed.

Lemma safe_release_one pipe : safe
  (found ← gets (λ m, m_pipe_reservations m !! pipe);
   match found with
   | Some n => _ ← modify (λ m, set_reservations m (delete pipe (m_pipe_reservations m))); release_bytes n
   | None => mret tt
   end).
Proof.
  intros s Hs. apply wpm_bind. unfold wpm at 1. simpl. destruct (m_pipe_reservations s !! pipe) as [n|] eqn:Hn; [|done].
  apply wpm_bind. unfold wpm at 1. simpl. destruct (gd_pipes Hs pipe n Hn) as [-> _].
  apply (wpm_release _ h b); [|apply (gd_base Hs)|done|done]. open_good Hs.
  assert (Hr : reserved s = PIPE_RESERVATION + map_sum (λ _ n, n) (delete pipe (m_pipe_reservations s))).
  { unfold reserved. pose proof (map_sum_delete (λ _ n, n) _ _ _ Hn) as Hd. cbv beta in Hd. lia. }
  close_good.
  - assert (0 ≤ PIPE_RESERVATION) by done. lia.
  - cbn [m_resources set_reservations]. rewrite Gmemory, Hr. unfold reserved, held. simpl. lia.
  - intros q x Hq. cbn [m_pipe_reservations set_reservations] in Hq. apply lookup_delete_Some in Hq as [_ Hq]. by apply Gpipes.
Qed.

Lemma safe_release_pipes closed : safe (release_pipes closed).
Proof.
  induction closed as [|pipe closed IH]; [apply safe_ret|]. cbn [release_pipes].
  intros s Hs. pose proof (safe_release_one pipe s Hs) as H1. unfold wpm, mbind, stm_bind in *.
  cbn in *. destruct (m_pipe_reservations s !! pipe) as [n|]; [|by apply IH]. by apply IH.
Qed.

Lemma safe_release_closed : safe release_closed_pipe_memory.
Proof. unfold release_closed_pipe_memory. keep_safe. apply safe_release_pipes. Qed.

Lemma safe_wake_locks : safe env_wake_file_lock_waiters.
Proof.
  unfold env_wake_file_lock_waiters. keep_safe. by apply (safe_wake _ _ _ _ contains_lock).
Qed.

Lemma safe_wake_endpoint endpoint : safe (wake_pipe_endpoint endpoint).
Proof.
  unfold wake_pipe_endpoint. keep_safe; [apply safe_release_closed|apply safe_wake_locks].
Qed.

Lemma safe_refresh : safe refresh_active.
Proof. unfold refresh_active, refresh_descriptor_snapshot. keep_safe. apply safe_modify. intros.
  apply good_processes; [done|apply (process_op_wf _ (OpUpdateDescriptors _ _)), (gd_table H)|]. intros q. by apply update_live.
Qed.

Lemma safe_install fd id : safe (table_do (λ t a, fd_install t fd id a)).
Proof. apply (safe_table_do _ _ _ (TInstall fd id)); [done|]. intros. apply install_files. Qed.

Lemma safe_close_fd fd : safe (table_do (λ t a, fd_close t fd a)).
Proof. apply (safe_table_do _ _ _ (TClose fd)); [done|]. intros. apply close_files. Qed.

Lemma safe_duplicate_fd source destination : safe (table_do (λ t a, fd_duplicate t source destination a)).
Proof. apply (safe_table_do _ _ _ (TDuplicate source destination)); [done|]. intros. apply duplicate_files. Qed.

Lemma safe_wake_ancestors rounds pid : safe (wake_ancestors rounds pid).
Proof.
  revert pid. induction rounds as [|rounds IH]; intros pid; cbn [wake_ancestors]; keep_safe; try apply IH.
  by apply (safe_wake _ _ _ _ (λ reason, waits_for_child_activity reason pid)).
Qed.

Lemma safe_process_fd fd : safe (process_fd fd).
Proof. apply safe_table_get. Qed.

Lemma safe_retain_live : safe retain_live_orphans.
Proof. apply safe_modify. intros. by apply good_retained. Qed.

End bookkeeping.

#[export] Hint Resolve safe_release_closed safe_wake_locks safe_wake_endpoint safe_refresh safe_install safe_close_fd
  safe_duplicate_fd safe_wake_ancestors safe_process_fd safe_retain_live : kernel_safe.

(** ** Filesystem operations return *)

Definition returns {A} (r : run A) : Prop := match r with Ret _ => True | Panic | NoFuel => False end.

(** What a mutation of the filesystem leaves a caller that holds unlinked files. *)
Definition run_good (may : Prop) {A} (v : Vfs) (r : run (vfs_result A)) : Prop :=
  match r with
  | Ret out => keeps v out ∧ dom (vf_orphaned v) ⊆ dom (vf_orphaned out.1)
  | Panic => may
  | NoFuel => False
  end.

Lemma run_good_kept {A} may v (r : run (vfs_result A)) :
  returns r → run_keeps v r → run_orphans_kept v r → run_good may v r.
Proof. destruct r as [out| |]; [|done..]. intros _ Hk Ho. split; [done|]. by rewrite Ho. Qed.

Lemma node_mut_snd v p : (node_mut v p).2 = raw_get v p.
Proof. apply node_mut_spec. Qed.

Lemma write_at_returns v cwd path offset data : returns (write_at v cwd path offset data).
Proof.
  unfold write_at. destruct (write_target v cwd path) as [target|]; [|done].
  destruct (checked_add64 _ _); [|done]. rewrite node_mut_pair.
  destruct (raw_get v target) as [n|] eqn:Hget; [|done]. simpl. destruct (nd_kind n) eqn:Hk; try done.
  destruct (usage_after_adding v _); [|done]. simpl. rewrite ?Hk. done.
Qed.

Lemma resize_file_ends v cwd path size : resize_file v cwd path size ≠ NoFuel.
Proof.
  unfold resize_file. destruct (write_target v cwd path) as [target|]; [|done].
  destruct (file_len v "/" target); [|done]. destruct (usage_after_resize _ _ _); [|done].
  destruct (node_mut v target) as [v1 [n|]]; [|done]. simpl. by destruct (nd_kind n).
Qed.

Lemma copy_file_returns v cwd from to : returns (copy_file v cwd from to).
Proof.
  unfold copy_file. destruct (reject_pseudo_mutation _); [|done]. cbn [mbind result_bind].
  unfold metadata, vfs_read. destruct (resolved v cwd from true) as [node|]; [|done]. cbn [mbind result_bind].
  destruct node as [n|]; [|done]. cbn [ok_or fmap option_fmap option_map]. destruct (nd_kind n); done.
Qed.

Lemma unlink_returns v cwd path : returns (unlink_open_file v cwd path).
Proof.
  unfold unlink_open_file. cbv zeta. destruct (reject_pseudo_mutation _); [|done].
  destruct (realpath v _ false) as [real|]; [|done]. destruct (raw_get v real) as [n|] eqn:Hn; [|done]. simpl.
  destruct (nd_kind n); [|done..]. destruct (checked_add64 _ _) as [next|]; [|done].
  unfold remove_node. rewrite raw_get_orphaned, Hn. done.
Qed.

Lemma unlink_orphans v cwd path v' r : unlink_open_file v cwd path = Ret (v', r) →
  match r with
  | Ok id => dom (vf_orphaned v) ∪ {[id]} ⊆ dom (vf_orphaned v')
  | Err _ => vf_orphaned v' = vf_orphaned v
  end.
Proof.
  intros Hu. destruct r as [id|e].
  - destruct (unlink_effect _ _ _ _ _ Hu) as (real & n & data & _ & _ & _ & _ & -> & _). set_solver.
  - revert Hu. unfold unlink_open_file. cbv zeta. destruct (reject_pseudo_mutation _); [|by intros [= <- <-]].
    destruct (realpath v _ false) as [real|]; [|by intros [= <- <-]].
    destruct (nd_kind <$> _) as [[]|]; try (by intros [= <- <-]).
    destruct (checked_add64 _ _); [|by intros [= <- <-]]. destruct (remove_node _ _) as [? [n|]]; [|done]. by intros [= ].
Qed.

Section orphans.
Context (may : Prop) (v : Vfs) (Hwf : disk_wf (disk_of v)).

Lemma orphan_file id n : vf_orphaned v !! id = Some n → ∃ data, nd_kind n = File data.
Proof. intros Hn. by apply (wf_orphans _ Hwf) in Hn as [_ Hn]. Qed.

Lemma write_orphan_good id offset data : 0 ≤ offset → run_good may v (write_orphan_at v id offset data).
Proof.
  intros Ho. pose proof (write_orphan_keeps v id offset data Hwf Ho) as Hk.
  pose proof (write_orphan_orphans v id offset data) as Hd. revert Hk Hd. unfold write_orphan_at.
  destruct (checked_add64 _ _); [|by intros ? Hd; split; [|by rewrite Hd]].
  destruct (vf_orphaned v !! id) as [n|] eqn:Hn; [|by split].
  destruct (orphan_file id n Hn) as [old ->]. cbv zeta. destruct (_ <? _); [by split|].
  intros Hk Hd. split; [exact Hk|]. by rewrite Hd.
Qed.

Lemma resize_orphan_good id size : 0 ≤ size → run_good may v (resize_orphan v id size).
Proof.
  intros Ho. pose proof (resize_orphan_keeps v id size Hwf Ho) as Hk.
  pose proof (resize_orphan_orphans v id size) as Hd. revert Hk Hd. unfold resize_orphan.
  destruct (vf_orphaned v !! id) as [n|] eqn:Hn; [|by split].
  destruct (orphan_file id n Hn) as [old ->]. destruct (usage_after_resize _ _ _); [|by split].
  intros Hk Hd. split; [exact Hk|]. by rewrite Hd.
Qed.

Lemma read_orphan_good id offset maximum : run_good may v (read_orphan_range v id offset maximum).
Proof.
  unfold read_orphan_range. destruct (vf_orphaned v !! id) as [n|] eqn:Hn; simpl; [|split; [by split|done]].
  destruct (orphan_file id n Hn) as [old ->]. by split; [|done].
Qed.

Lemma orphan_len_returns id : returns (orphan_len v id).
Proof.
  unfold orphan_len. destruct (vf_orphaned v !! id) as [n|] eqn:Hn; [|done]. simpl.
  by destruct (orphan_file id n Hn) as [old ->].
Qed.

Lemma read_range_keeps cwd path offset maximum : keeps v (read_range v cwd path offset maximum).
Proof. unfold read_range. repeat case_match; by apply keeps_same. Qed.

Lemma read_limited_keeps cwd path limit : keeps v (read_limited v cwd path limit).
Proof. unfold read_limited. repeat case_match; by apply keeps_same. Qed.

Lemma write_at_good cwd path offset data : 0 ≤ offset → run_good may v (write_at v cwd path offset data).
Proof. intros Ho. apply run_good_kept; [apply write_at_returns|by apply write_at_keeps|apply write_at_orphans]. Qed.

Lemma copy_file_good cwd from to : run_good may v (copy_file v cwd from to).
Proof. apply run_good_kept; [apply copy_file_returns|by apply copy_file_keeps|apply copy_file_orphans]. Qed.

Lemma resize_file_good cwd path size : may → 0 ≤ size → run_good may v (resize_file v cwd path size).
Proof.
  intros Hmay Hsz. pose proof (resize_file_keeps v cwd path size Hwf Hsz) as Hk.
  pose proof (resize_file_orphans v cwd path size) as Ho. pose proof (resize_file_ends v cwd path size) as He.
  destruct (resize_file v cwd path size) as [out| |]; try done. split; [done|]. by rewrite Ho.
Qed.

End orphans.

(** ** Descriptor input and output *)

Section descriptor_calls.
Context (may : Prop) (h : list Z) (b : Z).
Notation wpm := (wpm may).
Notation safe := (safe may h b).

Lemma safe_vfs_run {A} (f : Vfs → run (vfs_result A)) :
  (∀ v, disk_wf (disk_of v) → run_good may v (f v)) → safe (vfs_run f).
Proof. intros Hf s Hs. eapply wpm_vfs_run; [done|apply Hf, Hs|done]. Qed.

Lemma wpm_safe {A} (m : mach A) s (Q : A → Machine → Prop) : safe m → good h b s →
  (∀ a s', good h b s' → Q a s') → wpm m s Q.
Proof. intros Hm Hs HQ. eapply wpm_mono; [by apply Hm|]. eauto. Qed.

Lemma wpm_safe_try {A B} (m : sys A) (k : A → sys B) s : safe m → good h b s →
  (∀ a s', good h b s' → wpm (k a) s' (λ _ s', good h b s')) → wpm (try_bind k m) s (λ _ s', good h b s').
Proof. intros Hm Hs Hk. apply wpm_try. eapply wpm_safe; [done..|]. intros [] s' Hs'; auto. Qed.

Lemma wpm_arena_get {A B} (f : DescriptorArena → result DescriptorError A) (k : A → sys B) s : good h b s →
  (∀ a, f (m_descriptors s) = Ok a → wpm (k a) s (λ _ s', good h b s')) →
  wpm (try_bind k (arena_get f)) s (λ _ s', good h b s').
Proof.
  intros Hs Hk. apply wpm_try. unfold wpm, arena_get, gets.
  destruct (f (m_descriptors s)) as [a|e]; simpl; [by apply Hk|done].
Qed.

Lemma file_state_at a id f : file_state a id = Ok (Some f) → file_at a id = Some f.
Proof.
  unfold file_state, file_at. destruct (_ !! id) as [e|]; [|done]. simpl. unfold entry_file.
  destruct (de_description e); try done. by intros [= ->].
Qed.

(** Reading the state of an open file gives one in range. *)
Lemma wpm_file_state {B} id (k : option FileState → sys B) s : good h b s →
  (∀ f, file_ok (m_vfs s) f → wpm (k (Some f)) s (λ _ s', good h b s')) →
  wpm (k None) s (λ _ s', good h b s') →
  wpm (try_bind k (arena_get (λ a, file_state a id))) s (λ _ s', good h b s').
Proof.
  intros Hs Hsome Hnone. apply wpm_arena_get; [done|]. intros [f|] Hf; [|done].
  apply Hsome. by apply (gd_files Hs id), file_state_at.
Qed.

Lemma safe_read_at fd offset maximum : safe (read_fd_at_checked fd offset maximum).
Proof.
  unfold read_fd_at_checked. keep_safe.
  - apply safe_vfs_run. intros v Hv. by apply read_orphan_good.
  - apply safe_vfs_do; [intros; by apply read_range_keeps|intros; apply read_range_orphans].
Qed.

Lemma safe_device_budget maximum : safe (device_budget maximum).
Proof. unfold device_budget. keep_safe. Qed.

Lemma safe_wake_other description reader : safe (wake_other_end description reader).
Proof. unfold wake_other_end, env_wake_child_activity_waiters. keep_safe. Qed.

Lemma wpm_device_budget maximum s Q : good h b s → 0 ≤ maximum →
  (∀ n s', good h b s' → 0 ≤ n → Q (Ok n) s') → (∀ e s', good h b s' → Q (Err e) s') → wpm (device_budget maximum) s Q.
Proof.
  intros Hs Hm Hok Herr. unfold device_budget. apply wpm_bind. unfold wpm at 1. cbn [gets]. cbv zeta.
  assert (Hn : 0 ≤ Z.min (Z.min maximum DEVICE_READ_QUANTUM) (cpu_remaining (m_resources s) / 2)).
  { assert (0 ≤ cpu_remaining (m_resources s) / 2); [|unfold DEVICE_READ_QUANTUM; lia].
    apply Z.div_pos; [unfold cpu_remaining, sat_sub; lia|done]. }
  revert Hn. generalize (Z.min (Z.min maximum DEVICE_READ_QUANTUM) (cpu_remaining (m_resources s) / 2)). intros n Hn.
  destruct (n =? 0); apply wpm_bind, (wpm_charge _ h b); [done| |done|].
  - intros r g Hg. by apply Herr.
  - intros r [] Hg; [by apply Hok|by apply Herr].
Qed.

Lemma safe_read fd maximum : 0 ≤ maximum → safe (read_fd_checked fd maximum).
Proof.
  intros Hm s Hs. unfold read_fd_checked. apply wpm_safe_try; [apply safe_process_fd|done|]. clear s Hs. intros id s Hs.
  apply wpm_file_state; [done| |].
  - intros f Hf. apply (safe_try _ _ _ _ _ (safe_read_at fd _ _)); [|done]. intros data.
    apply safe_try; [apply safe_advance; lia|]. intros. apply safe_ret.
  - apply wpm_arena_get; [done|]. intros device _. apply wpm_try.
    assert (Hrest : ∀ n s', good h b s' → 0 ≤ n →
      wpm (result ←? arena_run (λ a, arena_read a id n);
           _ ←? (if is_ready result then wake_other_end id true else done_ tt); done_ result) s' (λ _ s', good h b s')).
    { intros n s' Hs' Hn. apply (safe_try _ _ _ _ _ (safe_arena_read _ _ _ id n Hn)); [|done]. intros result.
      apply safe_try; [|intros; apply safe_ret]. destruct (is_ready result); [apply safe_wake_other|apply safe_ret]. }
    destruct device; [|by apply Hrest].
    apply wpm_device_budget; [done..|intros n s' Hs' Hn; by apply Hrest|done].
Qed.

(** Copied contents and the position of a write are not negative. *)
Lemma zlen_nonneg {A} (l : list A) : 0 ≤ zlen l.
Proof. lia. Qed.

Lemma file_len_nonneg v cwd path n : file_len v cwd path = Ok n → 0 ≤ n.
Proof.
  unfold file_len. destruct (resolved v cwd path true) as [node|]; [|done]. cbn [mbind result_bind].
  destruct (nd_kind <$> node) as [[]|]; try done; intros [= <-]; [apply zlen_nonneg|done].
Qed.

Definition mutation_ok (mutation : FileMutation) : Prop :=
  match mutation with MutWrite => True | MutResize size => 0 ≤ size end.

Lemma cow_bytes_nonneg aliased n installed mutation : mutation_ok mutation → 0 ≤ cow_copy_bytes aliased n installed mutation.
Proof.
  intros Hm. unfold cow_copy_bytes. destruct (nd_kind n) as [content| | |]; try done.
  destruct (_ && _); [done|]. destruct mutation; simpl in Hm; [lia|]. destruct (_ =? _); lia.
Qed.

(** The bytes a change in place copies first. *)
Definition copied_bytes (aliased : bool) (file : FileState) (mutation : FileMutation) : sys Z :=
  match fs_orphan file with
  | Some id => vfs_get (λ v, orphan_cow_bytes v aliased id mutation)
  | None => vfs_get (λ v, file_cow_bytes v aliased "/" (fs_path file) mutation)
  end.

Lemma wpm_copied {B} aliased file mutation (k : Z → sys B) s : good h b s → mutation_ok mutation →
  (∀ n, 0 ≤ n → wpm (k n) s (λ _ s', good h b s')) →
  wpm (try_bind k (copied_bytes aliased file mutation)) s (λ _ s', good h b s').
Proof.
  intros Hs Hm Hk. apply wpm_try. unfold copied_bytes, wpm, vfs_get, gets.
  destruct (fs_orphan file) as [id|].
  - unfold orphan_cow_bytes, orphan_metadata. destruct (vf_orphaned (m_vfs s) !! id) as [n|]; [|done].
    simpl. by apply Hk, cow_bytes_nonneg.
  - unfold file_cow_bytes. destruct (write_target _ _ _) as [target|]; [|done]. simpl.
    destruct (raw_get _ _); apply Hk; [by apply cow_bytes_nonneg|done].
Qed.

Lemma wpm_write_position {B} file (k : Z → sys B) s : good h b s → file_ok (m_vfs s) file →
  (∀ n, 0 ≤ n → wpm (k n) s (λ _ s', good h b s')) → wpm (try_bind k (write_position file)) s (λ _ s', good h b s').
Proof.
  intros Hs [Hc _] Hk. apply wpm_try. unfold write_position. destruct (fs_append file); [|by apply Hk].
  destruct (fs_orphan file) as [id|].
  - apply wpm_try. unfold wpm at 1, vfs_get, gets. destruct (orphan_metadata _ _) as [n|]; simpl; [|done].
    destruct (nd_kind n); try done. apply Hk, zlen_nonneg.
  - unfold wpm at 1, vfs_get, gets. destruct (file_len _ _ _) as [n|] eqn:Hn; simpl; [|done].
    by apply Hk, file_len_nonneg in Hn || apply Hk; eapply file_len_nonneg.
Qed.

(** Spending fuel and reserving memory before the work, and giving the memory back after it. *)
Lemma wpm_grant {B} units n (k : bool → mach B) s Q : good h b s → 0 ≤ n →
  (∀ r, good h b (set_resources s r) → wpm (k false) (set_resources s r) Q) →
  (∀ r, good h (b + n) (set_resources s r) → wpm (k true) (set_resources s r) Q) →
  wpm (charged ← charge units; granted ← (if charged : bool then reserve n else mret false); k granted) s Q.
Proof.
  intros Hs Hn Hno Hyes. apply wpm_bind, (wpm_charge _ h b); [done|]. intros r [] Hg; [|by apply wpm_bind, wpm_ret, Hno].
  apply wpm_bind. eapply wpm_reserve; [exact Hg|done|..]; intros r' Hr'; [by apply (Hyes r')|by apply (Hno r')].
Qed.

Lemma wpm_borrowed {A B} n (m : mach A) (k : A → mach B) s Q : good h (b + n) s → 0 ≤ n → 0 ≤ b →
  KernelInv.safe may h (b + n) m → (∀ a s', good h b s' → wpm (k a) s' Q) →
  wpm (a ← m; _ ← release_bytes n; k a) s Q.
Proof.
  intros Hs Hn Hb Hm Hk. apply wpm_bind. eapply wpm_mono; [by apply Hm|]. intros a s' Hs'.
  apply wpm_bind. eapply wpm_release; [exact Hs'|done..|]. intros r Hr. by apply Hk.
Qed.

End descriptor_calls.

Section file_calls.
Context (may : Prop) (h : list Z) (b : Z).
Notation wpm := (wpm may).
Notation safe := (safe may h b).

Lemma safe_remove_file cwd path : safe (vfs_do (λ v, remove_file v cwd path)).
Proof. apply safe_vfs_do; [intros; by apply remove_file_keeps|intros; apply remove_file_orphans]. Qed.

Lemma safe_write_file_at aliased description file data s : good h b s → file_ok (m_vfs s) file →
  wpm (write_file_at aliased description file data) s (λ _ s', good h b s').
Proof.
  intros Hs Hf. pose proof (gd_base Hs) as Hb. unfold write_file_at. destruct (negb (fs_writable file)); [done|].
  apply wpm_write_position; [done..|]. intros position Hpos.
  apply (wpm_copied may h b aliased file MutWrite); [done..|]. intros copied Hcopied.
  apply (wpm_grant _ h b); [done..|by intros; apply safe_ret|]. intros r Hr. revert Hr.
  generalize (set_resources s r). clear s Hs Hf. intros s Hs. cbn [negb].
  apply wpm_bind, (wpm_safe may h (b + copied)); [apply safe_sync|done|]. intros _ s1 Hs1.
  apply (wpm_borrowed may h b copied); [done|done|done| |].
  - destruct (fs_orphan file); apply safe_vfs_run; intros v Hv; [by apply write_orphan_good|by apply write_at_good].
  - intros written s2 Hs2. revert s2 Hs2. change (safe (match written with
      | Err error => _ ← (if fs_remove_on_first_write_error file && (position =? 0) then
          _ ← vfs_do (λ v, remove_file v "/" (fs_path file)); mret tt else mret tt); fail error
      | Ok _ => _ ←? arena_do (λ a, seek_file a description (sat_add64 position (zlen data))); done_ (Ready (zlen data))
      end)). keep_safe; [|apply safe_remove_file].
    apply safe_seek. unfold sat_add64. assert (0 ≤ U64_MAX) by done. lia.
Qed.

Lemma safe_write aliased fd data : safe (write_fd_checked aliased fd data).
Proof.
  intros s Hs. unfold write_fd_checked. apply (wpm_safe_try _ h b); [apply safe_process_fd|done|].
  clear s Hs. intros id s Hs. apply wpm_file_state; [done| |].
  - intros f Hf. by apply safe_write_file_at.
  - revert s Hs. change (safe (result ←? arena_do (λ a, arena_write a id data);
      _ ←? (if is_ready result then wake_other_end id false else done_ tt); done_ result)).
    keep_safe. apply safe_wake_other.
Qed.

Lemma safe_described_len file : safe (described_len file).
Proof.
  unfold described_len. keep_safe. apply safe_vfs_query. intros v Hv.
  pose proof (orphan_len_returns v Hv z) as Hr. by destruct (orphan_len v z).
Qed.

Lemma safe_file_state_fd fd : safe (sys_file_state fd).
Proof. unfold sys_file_state. keep_safe. Qed.

Lemma wpm_described_len {B} file (k : Z → sys B) s : good h b s →
  (∀ n, 0 ≤ n → wpm (k n) s (λ _ s', good h b s')) → wpm (try_bind k (described_len file)) s (λ _ s', good h b s').
Proof.
  intros Hs Hk. apply wpm_try. unfold described_len. destruct (fs_orphan file) as [id|].
  - unfold vfs_query. apply wpm_bind. unfold wpm at 1, lift_run, orphan_len.
    destruct (vf_orphaned (m_vfs s) !! id) as [n|] eqn:Hn; [|done].
    destruct (orphan_file _ (gd_disk Hs) id n Hn) as [data Hd]. simpl. rewrite Hd. simpl. apply Hk, zlen_nonneg.
  - unfold wpm at 1, vfs_get, gets. destruct (file_len _ _ _) as [n|] eqn:Hn; simpl; [|done].
    apply Hk. by eapply file_len_nonneg.
Qed.

Lemma safe_resize aliased fd size : may → 0 ≤ size → safe (sys_resize_file aliased fd size).
Proof.
  intros Hmay Hsz s Hs. pose proof (gd_base Hs) as Hb. unfold sys_resize_file.
  apply (wpm_safe_try _ h b); [apply safe_file_state_fd|done|]. clear s Hs. intros file s Hs.
  destruct (negb (fs_writable file)); [done|]. apply wpm_described_len; [done|]. intros old_size Hold.
  apply (wpm_copied may h b aliased file (MutResize size)); [done..|]. intros copied Hcopied. cbv zeta.
  assert (Ha : 0 ≤ sat_add64 copied (sat_sub size old_size)) by (unfold sat_add64, sat_sub; assert (0 ≤ U64_MAX) by done; lia).
  revert Ha. generalize (sat_add64 copied (sat_sub size old_size)). intros allocation Ha.
  apply (wpm_grant _ h b); [done..|by intros; apply safe_ret|]. intros r Hr. revert Hr.
  generalize (set_resources s r). clear s Hs. intros s Hs. cbn [negb].
  apply wpm_bind, (wpm_safe may h (b + allocation)); [apply safe_sync|done|]. intros _ s1 Hs1.
  apply (wpm_borrowed may h b allocation); [done|done|done| |by intros; apply safe_ret].
  destruct (fs_orphan file); apply safe_vfs_run; intros v Hv; [by apply resize_orphan_good|by apply resize_file_good].
Qed.

Lemma safe_seek_call fd delta whence : safe (sys_seek fd delta whence).
Proof.
  unfold sys_seek. keep_safe; try apply safe_file_state_fd; try apply safe_described_len.
  all: apply safe_seek; bool_to_prop; lia.
Qed.

End file_calls.

#[export] Hint Resolve safe_read_at safe_read safe_write safe_described_len safe_file_state_fd safe_seek_call
  safe_remove_file safe_wake_other : kernel_safe.

(** ** Opening, closing and duplicating *)

Section table_calls.
Context (may : Prop) (h : list Z) (b : Z) (format_seconds : Z → string).
Notation wpm := (wpm may).
Notation safe := (safe may h b).

Lemma safe_install_new fd id : safe (install_new_description fd id).
Proof. unfold install_new_description. keep_safe. Qed.
#[local] Hint Resolve safe_install_new : kernel_safe.

Lemma safe_open_synthetic fd absolute options : safe (open_synthetic fd absolute options).
Proof.
  unfold open_synthetic. keep_safe. destruct (device_kind "/" absolute) as [kind|] eqn:Hk.
  - by apply (safe_open _ _ _ (OpenDevice kind (of_readable options) (of_writable options))).
  - by apply (safe_open _ _ _ (OpenNull (of_readable options) (of_writable options))).
Qed.

Lemma safe_open_pseudo fd contents options : safe (open_pseudo fd contents options).
Proof. unfold open_pseudo. keep_safe. by apply (safe_open _ _ _ (OpenInput a)). Qed.

Lemma safe_open_directory fd absolute node options : safe (open_directory_node fd absolute node options).
Proof. unfold open_directory_node. keep_safe. by apply (safe_open _ _ _ (OpenDirectory a)). Qed.

Lemma safe_vfs_write cwd path data mode : safe (vfs_do (λ v, vfs_write v cwd path data mode)).
Proof. apply safe_vfs_do; [intros; by apply write_keeps|intros; apply vfs_write_orphans]. Qed.
#[local] Hint Resolve safe_vfs_write : kernel_safe.

Lemma safe_prepare absolute found options : safe (prepare_file absolute found options).
Proof. unfold prepare_file. keep_safe. Qed.

Lemma safe_opened backing cursor fd absolute created options : 0 ≤ cursor → safe (
  description ←? arena_do (λ a, open_file a backing cursor (of_readable options) (of_writable options)
    (of_append options) created);
  node ←? vfs_get (λ v, metadata v "/" absolute true);
  _ ←? arena_do (λ a, bind_inode a description (nd_inode node));
  install_new_description fd description).
Proof.
  intros Hc. keep_safe.
  apply (safe_open _ _ _ (DescriptorSystem.OpenFile backing cursor (of_readable options) (of_writable options)
    (of_append options) created)); [done|]. by intros ? ? ? ? ? ? [= <- <-].
Qed.

Lemma safe_cursor {A} (append : bool) path (k : Z → sys A) : (∀ n, 0 ≤ n → safe (k n)) →
  safe (try_bind k (if append then vfs_get (λ v, file_len v "/" path) else done_ 0)).
Proof.
  intros Hk s Hs. apply wpm_try. destruct append; [|by apply Hk].
  unfold KernelInv.wpm at 1, vfs_get, gets. destruct (file_len _ _ _) as [n|] eqn:Hn; simpl; [|done].
  apply Hk; [by eapply file_len_nonneg|done].
Qed.

Lemma safe_open_regular fd absolute created options : safe (open_regular fd absolute created options).
Proof.
  unfold open_regular. apply safe_try; [auto with kernel_safe|]. intros backing. apply safe_cursor. intros n Hn.
  by apply safe_opened.
Qed.

#[local] Hint Resolve safe_open_synthetic safe_open_pseudo safe_open_directory safe_prepare safe_open_regular : kernel_safe.

Lemma safe_open_at fd cwd path options : safe (sys_open_file_at format_seconds fd cwd path options).
Proof.
  unfold sys_open_file_at, in_pseudo. keep_safe.
Qed.

Lemma safe_open_call cwd path options : safe (sys_open_file format_seconds cwd path options).
Proof. unfold sys_open_file. keep_safe. apply safe_open_at. Qed.

Lemma safe_close fd : safe (sys_close fd).
Proof. unfold sys_close. keep_safe. Qed.

Lemma safe_duplicate source destination : safe (sys_duplicate source destination).
Proof. unfold sys_duplicate. keep_safe. Qed.

Lemma safe_lock fd mode : safe (sys_file_lock fd mode).
Proof. unfold sys_file_lock, sys_file_lock_inode. keep_safe. Qed.

Lemma readiness_returns a id writing : arena_wf a → returns (readiness a id writing).
Proof.
  intros Hwf. unfold readiness, arena_state. destruct (da_descriptions a !! id) as [e|] eqn:He; [|done].
  cbv zeta. pose proof (λ pipe side, aw_endpoint a Hwf id e pipe side He) as Hend.
  destruct (de_description e) eqn:Hd; cbn [ds_writable ds_readable]; destruct (_ || _); try done;
    cbn [expect mbind run_bind ready_counts]; rewrite ?He, ?Hd; cbn; try done.
  - by destruct (negb _).
  - destruct (Hend pipe true eq_refl) as [p ->]. by destruct (negb _).
  - destruct (Hend pipe false eq_refl) as [p ->]. by destruct (negb _).
Qed.

Lemma safe_readiness fd writing : safe (sys_descriptor_readiness fd writing).
Proof.
  unfold sys_descriptor_readiness. keep_safe. apply safe_run. intros s Hs.
  pose proof (readiness_returns (m_descriptors s) a writing (good_arena_wf _ _ _ Hs)) as Hr.
  by destruct (readiness (m_descriptors s) a writing).
Qed.

End table_calls.

#[export] Hint Resolve safe_open_at safe_open_call safe_close safe_duplicate safe_lock safe_readiness : kernel_safe.

(** ** Pipes *)

Section pipes.
Context (may : Prop) (h : list Z) (b : Z).
Notation wpm := (wpm may).

Lemma safe_Ret {A} (m : mach A) s s' a : safe may h b m → good h b s → m s = Ret (s', a) → good h b s'.
Proof. intros Hm Hs Heq. specialize (Hm s Hs). unfold KernelInv.wpm in Hm. by rewrite Heq in Hm. Qed.

Lemma wpm_Ret {A} (m : mach A) s s' a Q : m s = Ret (s', a) → Q a s' → wpm m s Q.
Proof. intros Heq HQ. unfold KernelInv.wpm. by rewrite Heq. Qed.

Lemma safe_cloexec fd enabled : safe may h b (table_do (λ t a, let '(t, r) := set_close_on_exec t fd enabled in (t, a, r))).
Proof.
  apply (safe_table_do _ _ _ (TSetCloseOnExec fd enabled)); [done|]. intros t a. by destruct (set_close_on_exec t fd enabled).
Qed.

(** Room for one more descriptor, for a description nothing refers to. *)
Record installable (s : Machine) (fd id : Z) : Prop := {
  it_table : ∃ p, m_states s !! m_active s = Some p ∧ ft_entries (ps_fds p) !! fd = None ∧
    Z.of_nat (size (ft_entries (ps_fds p))) < MAX_FDS_PER_PROCESS;
  it_fd : 0 ≤ fd;
  it_description : ∃ e, da_descriptions (m_descriptors s) !! id = Some e ∧ de_references e = 0
}.

Lemma fresh_install t a fd id e : 0 ≤ fd → ft_entries t !! fd = None →
  Z.of_nat (size (ft_entries t)) < MAX_FDS_PER_PROCESS → da_descriptions a !! id = Some e → de_references e = 0 →
  fd_install t fd id a = (MkFdTable (<[fd := id]> (ft_entries t)) (ft_close_on_exec t ∖ {[fd]}),
                          set_entry a id (with_references e 1), Ok tt).
Proof.
  intros Hfd Hfree Hsize He Hr. unfold fd_install. rewrite (proj2 (Z.ltb_ge fd 0)) by done.
  rewrite (proj2 (Z.leb_gt _ _) Hsize), andb_false_r. unfold retain. rewrite He, Hr. simpl. by rewrite Hfree.
Qed.

(** [install_end] succeeds: it adds one descriptor and touches no other description. *)
Lemma wpm_install_end s fd id cloexec nonblocking Q : good h b s → installable s fd id →
  (∀ s', good h b s' → m_active s' = m_active s →
    (∀ p, m_states s !! m_active s = Some p → ∃ p', m_states s' !! m_active s = Some p' ∧
      ft_entries (ps_fds p') = <[fd := id]> (ft_entries (ps_fds p))) →
    (∀ other, other ≠ id → da_descriptions (m_descriptors s') !! other = da_descriptions (m_descriptors s) !! other) →
    Q tt s') →
  wpm (install_end fd id cloexec nonblocking) s Q.
Proof.
  intros Hs [(p & Hp & Hfree & Hsize) Hfd (e & He & Hr)] HQ.
  pose proof (fresh_install (ps_fds p) _ fd id e Hfd Hfree Hsize He Hr) as Hinst.
  set (t1 := MkFdTable _ _) in Hinst. set (a1 := set_entry _ _ _) in Hinst.
  assert (H1 : table_do (λ t a, fd_install t fd id a) s = Ret (with_table s p t1 a1, Ok tt))
    by (rewrite (table_do_eq _ _ p Hp), Hinst; done).
  assert (G1 : good h b (with_table s p t1 a1)) by (eapply safe_Ret; [apply (safe_install may)|exact Hs|exact H1]).
  set (s1 := with_table s p t1 a1) in *.
  assert (Hp1 : m_states s1 !! m_active s1 = Some (with_fds p t1)) by (unfold s1, with_table; simpl; apply lookup_insert_eq).
  set (t2 := MkFdTable (ft_entries t1) (if cloexec then {[fd]} ∪ ft_close_on_exec t1 else ft_close_on_exec t1 ∖ {[fd]})).
  assert (H2 : table_do (λ t a, let '(t, r) := set_close_on_exec t fd cloexec in (t, a, r)) s1 =
    Ret (with_table s1 (with_fds p t1) t2 a1, Ok tt)).
  { rewrite (table_do_eq _ _ _ Hp1). unfold set_close_on_exec, fd_get. cbn [ps_fds with_fds ft_entries t1].
    by rewrite lookup_insert_eq. }
  assert (G2 : good h b (with_table s1 (with_fds p t1) t2 a1)) by (eapply safe_Ret; [apply (safe_cloexec fd)|exact G1|exact H2]).
  set (s2 := with_table s1 (with_fds p t1) t2 a1) in *.
  set (e2 := MkDescriptionEntry (de_description e) 1 nonblocking (de_file_lock e) (de_inode e)).
  assert (H3 : arena_do (λ a, set_nonblocking a id nonblocking) s2 = Ret (set_descriptors s2 (set_entry a1 id e2), Ok tt)).
  { unfold arena_do, set_nonblocking. cbn [m_descriptors set_states set_descriptors s2 with_table s1 a1 set_entry
      with_descriptions da_descriptions]. by rewrite lookup_insert_eq. }
  assert (G3 : good h b (set_descriptors s2 (set_entry a1 id e2)))
    by (eapply safe_Ret; [apply (safe_set_nonblocking may)|exact G2|exact H3]).
  eapply wpm_Ret.
  - unfold install_end, expect_ok, mbind, stm_bind. rewrite H1. cbn. rewrite H2. cbn. rewrite H3. done.
  - apply HQ; [exact G3|done| |].
    + intros p' Hp'. rewrite Hp in Hp'. injection Hp' as <-. eexists. split.
      * cbn. rewrite lookup_insert_eq. done.
      * done.
    + intros other Hne. cbn. by rewrite !lookup_insert_ne.
Qed.

Lemma free_fds_two p first second rest : free_fds p = first :: second :: rest →
  first ≠ second ∧ (0 ≤ first ∧ ft_entries (ps_fds p) !! first = None) ∧ (0 ≤ second ∧ ft_entries (ps_fds p) !! second = None).
Proof.
  intros Hf. assert (Hin : ∀ fd, fd ∈ free_fds p → 0 ≤ fd ∧ ft_entries (ps_fds p) !! fd = None).
  { intros fd Hfd. unfold free_fds in Hfd. apply list_elem_of_filter in Hfd as [Hfree Hfd%elem_of_seqZ].
    unfold fd_free in Hfree. apply bool_decide_eq_true in Hfree. split; [lia|done]. }
  assert (Hnd : NoDup (free_fds p)) by apply NoDup_filter, NoDup_seqZ. rewrite Hf in Hin, Hnd.
  apply NoDup_cons in Hnd as [Hne _]. split; [set_solver|]. split; apply Hin; set_solver.
Qed.

(** A reservation handed over to a pipe that is new. *)
Lemma good_new_pipe s pipe : good h (b + PIPE_RESERVATION) s → 0 ≤ b → m_pipe_reservations s !! pipe = None →
  pipe < da_next_pipe (m_descriptors s) →
  good h b (set_reservations s (<[pipe := PIPE_RESERVATION]> (m_pipe_reservations s))).
Proof.
  intros Hs Hb Hnew Hpipe. open_good Hs. close_good.
  - cbn [m_resources set_reservations]. rewrite Gmemory. unfold reserved, held. cbn [m_pipe_reservations set_reservations m_states].
    rewrite map_sum_insert by done. lia.
  - cbn [m_pipe_reservations set_reservations]. intros q n [[<- <-]|[_ Hq]]%lookup_insert_Some; [done|by apply Gpipes].
Qed.

Lemma good_open_pipe c s a' r : good h c s → open_pipe (m_descriptors s) DEFAULT_PIPE_CAPACITY = (a', r) →
  good h c (set_descriptors s a').
Proof.
  intros Hs Ho. apply (good_op _ _ _ Hs (OOpenPipe DEFAULT_PIPE_CAPACITY)); [done| |].
  - intros U. simpl. rewrite Ho. destruct r as [[]|]; by do 2 eexists.
  - eapply files_ok_kept, (gd_files Hs). pose proof (open_pipe_files (m_descriptors s) DEFAULT_PIPE_CAPACITY) as Hk.
    rewrite Ho in Hk. apply Hk; [by eapply good_arena_wf|done].
Qed.

(** The ends of a fresh pipe go to two free descriptors. *)
Lemma wpm_install_pipe s first second cloexec nonblocking reader writer p :
  good h b s → m_states s !! m_active s = Some p → fd_count p ≤ MAX_FDS_PER_PROCESS - 2 → first ≠ second →
  (0 ≤ first ∧ ft_entries (ps_fds p) !! first = None) → (0 ≤ second ∧ ft_entries (ps_fds p) !! second = None) →
  reader ≠ writer →
  (∀ id, id = reader ∨ id = writer → ∃ e, da_descriptions (m_descriptors s) !! id = Some e ∧ de_references e = 0) →
  wpm (_ ← install_end first reader cloexec nonblocking;
       _ ← install_end second writer cloexec nonblocking;
       _ ← refresh_active; done_ (first, second)) s (λ _ s', good h b s').
Proof.
  intros Hs Hp Hcount Hne [Hf0 Hf] [Hs0 Hse] Hends Hfresh. unfold fd_count in Hcount.
  apply wpm_bind, wpm_install_end; [done|split; [|done|by auto]; exists p; split; [done|]; split; [done|lia]|].
  intros s1 Hs1 Hact Htab Hother. destruct (Htab p Hp) as (p1 & Hp1 & Hent). rewrite <-Hact in Hp1.
  apply wpm_bind, wpm_install_end; [done|split; [|done|]|].
  - exists p1. split; [done|]. rewrite Hent, lookup_insert_ne by done. split; [done|].
    rewrite map_size_insert_None by done. lia.
  - destruct (Hfresh writer) as (e & He & Hr); [by right|]. exists e. by rewrite Hother.
  - intros s2 Hs2 _ _ _. revert s2 Hs2.
    change (safe may h b (_ ← refresh_active; done_ (first, second))). keep_safe.
Qed.

Lemma safe_pipe cloexec nonblocking : safe may h b (sys_pipe cloexec nonblocking).
Proof.
  intros s Hs. pose proof (gd_base Hs) as Hb. unfold sys_pipe. apply wpm_bind, wpm_current; [|apply (gd_active _ _ _ Hs)].
  intros p Hp. destruct (free_fds p) as [|first [|second rest]] eqn:Hfree; [done..|].
  destruct (free_fds_two _ _ _ _ Hfree) as (Hne & Hfirst & Hsecond).
  destruct (_ <? fd_count p) eqn:Hcount; [done|]. bool_to_prop.
  apply (wpm_grant _ h b); [done..|by intros; apply safe_ret|]. intros r Hr. cbn [negb]. apply wpm_bind.
  unfold KernelInv.wpm at 1, arena_do. cbn [m_descriptors set_resources].
  destruct (open_pipe (m_descriptors s) DEFAULT_PIPE_CAPACITY) as [a' o] eqn:Ho.
  pose proof (good_open_pipe _ _ _ _ Hr Ho) as Hg. pose proof (good_arena_wf _ _ _ Hs) as Hwf.
  assert (Hcap : 0 ≤ DEFAULT_PIPE_CAPACITY) by done.
  destruct (open_pipe_cases _ _ _ _ Hwf Hcap Ho) as [(-> & -> & _)|([e ->] & _)].
  2: { apply wpm_bind. eapply wpm_release; [exact Hg|done..|]. by intros. }
  cbn [from_descriptor]. apply wpm_try. unfold KernelInv.wpm at 1, arena_get, gets, pipe_endpoint.
  cbn [m_descriptors set_descriptors piped da_descriptions]. rewrite lookup_insert_ne by lia. rewrite lookup_insert_eq.
  cbn [fresh_entry de_description from_descriptor]. apply wpm_bind. unfold KernelInv.wpm at 1, modify.
  apply (wpm_install_pipe _ _ _ _ _ _ _ p); try done; [|lia|].
  - apply good_new_pipe; [exact Hg|done| |simpl; lia]. apply eq_None_not_Some. intros [n Hn].
    destruct (gd_pipes Hs _ _ Hn) as [_ Hlt]. lia.
  - cbn. intros id Hid. exists (fresh_entry (if id =? da_next_description (m_descriptors s)
      then DPipeReader (da_next_pipe (m_descriptors s)) else DPipeWriter (da_next_pipe (m_descriptors s)))).
    split; [|done]. destruct Hid as [->| ->].
    + rewrite lookup_insert_ne, lookup_insert_eq, Z.eqb_refl by lia. done.
    + rewrite lookup_insert_eq. by rewrite (proj2 (Z.eqb_neq _ _)) by lia.
Qed.

End pipes.

#[export] Hint Resolve safe_pipe : kernel_safe.

(** ** Paths *)

Section path_calls.
Context (may : Prop) (h : list Z) (b : Z) (format_seconds : Z → string).
Notation wpm := (wpm may).
Notation safe := (safe may h b).

Lemma safe_path_do {A} (f : Vfs → vfs_result A) :
  (∀ v, disk_wf (disk_of v) → keeps v (f v)) → (∀ v, orphans_kept v (f v)) → safe (path_do f).
Proof. intros Hk Ho. unfold path_do. keep_safe. by apply safe_vfs_do. Qed.

Lemma safe_path_run {A} (f : Vfs → run (vfs_result A)) :
  (∀ v, disk_wf (disk_of v) → run_good may v (f v)) → safe (path_run f).
Proof. intros Hf. unfold path_run. keep_safe. by apply safe_vfs_run. Qed.

Lemma safe_chmod_step cwd path mode : safe (vfs_do (λ v, vfs_chmod v cwd path mode)).
Proof. apply safe_vfs_do; [intros; by apply chmod_keeps|intros; apply chmod_orphans]. Qed.
#[local] Hint Resolve safe_chmod_step : kernel_safe.

Lemma safe_chmod cwd path mode : safe (sys_chmod cwd path mode).
Proof. unfold sys_chmod, path_do. keep_safe. Qed.

Lemma safe_mkdir cwd path : safe (sys_mkdir cwd path).
Proof.
  unfold sys_mkdir. keep_safe. apply safe_path_do; [intros; by apply mkdir_keeps|intros; apply mkdir_orphans].
Qed.

Lemma safe_mkdir_all base path : safe (sys_mkdir_all base path).
Proof. apply safe_path_do; [intros; by apply mkdir_all_keeps|intros; apply mkdir_all_orphans]. Qed.

Lemma safe_copy_file base from to : safe (sys_copy_file base from to).
Proof. apply safe_path_run. intros. by apply copy_file_good. Qed.

Lemma safe_symlink base target link : safe (sys_symlink base target link).
Proof. apply safe_path_do; [intros; by apply symlink_keeps|intros; apply symlink_orphans]. Qed.

Lemma safe_chown base path uid gid : safe (sys_chown base path uid gid).
Proof. apply safe_path_do; [intros; by apply chown_keeps|intros; apply chown_orphans]. Qed.

Lemma safe_touch base path mtime : safe (sys_touch base path mtime).
Proof. apply safe_path_do; [intros; by apply touch_keeps|intros; apply touch_orphans]. Qed.

Lemma safe_write_file base path data mode : safe (sys_write_file base path data mode).
Proof. apply safe_path_do; [intros; by apply write_keeps|intros; apply vfs_write_orphans]. Qed.

Lemma safe_put_file base path data mode : safe (sys_put_file_with_parents base path data mode).
Proof. apply safe_path_do; [intros; by apply put_file_keeps|intros; apply put_file_orphans]. Qed.

Lemma realpath_time v time abs follow : realpath (set_mutation_time v time) abs follow = realpath v abs follow.
Proof. unfold realpath. by apply realpath_inner_ext. Qed.

(** Removing the root is outside the invariant (see the findings). *)
Lemma wpm_rmdir cwd path s : good h b s → realpath (m_vfs s) (resolve_against cwd path) true ≠ Ok "/" →
  wpm (sys_rmdir cwd path) s (λ _ s', good h b s').
Proof.
  intros Hs Hroot. unfold sys_rmdir, path_do. apply wpm_bind. unfold KernelInv.wpm at 1, sync_vfs_time, modify.
  assert (Hs' : good h b (set_vfs s (set_mutation_time (m_vfs s) (unix_ms (m_clock s)))))
    by (by apply good_vfs; [|apply (gd_disk Hs)|]).
  eapply wpm_vfs_do; [exact Hs'| | |done].
  - apply rmdir_keeps; [apply (gd_disk Hs')|]. cbn [m_vfs set_vfs]. by rewrite realpath_time.
  - by rewrite rmdir_orphans.
Qed.

Lemma good_detach s path id : good h b s → id ∈ dom (vf_orphaned (m_vfs s)) →
  good h b (set_descriptors s (detach_file (m_descriptors s) path id)).
Proof.
  intros Hs Hid. apply (good_op _ _ _ Hs (ODetach path id)); [done| |].
  - intros U. by do 2 eexists.
  - eapply detach_ok; [apply (gd_files Hs)|set_solver].
Qed.

Lemma safe_unlink cwd path : safe (sys_unlink cwd path).
Proof.
  unfold sys_unlink. apply safe_bind; [auto with kernel_safe|]. intros _. apply safe_try; [auto with kernel_safe|].
  intros entry. apply safe_bind; [auto with kernel_safe|]. intros open. apply safe_try; [keep_safe|].
  intros []; [|auto with kernel_safe]. intros s Hs. apply wpm_try. unfold KernelInv.wpm at 1, vfs_run, mbind, run_bind.
  pose proof (unlink_returns (m_vfs s) "/" entry) as Hret. pose proof (unlink_keeps (m_vfs s) "/" entry (gd_disk Hs)) as Hk.
  destruct (unlink_open_file (m_vfs s) "/" entry) as [[v r]| |] eqn:Hu; [|done..].
  apply unlink_orphans in Hu. destruct Hk as [Hk _]. destruct r as [id|e]; cbn [from_file].
  - assert (Hs' : good h b (set_vfs s v)) by (apply good_vfs; [done..|set_solver]).
    apply wpm_bind. unfold KernelInv.wpm at 1, modify. apply wpm_ret.
    apply good_detach; [done|]. simpl. set_solver.
  - apply good_vfs; [done..|by rewrite Hu].
Qed.

(** *** Batches *)

Lemma apply_change_keeps base v change : disk_wf (disk_of v) →
  disk_wf (disk_of (apply_change base v change).1) ∧ vf_orphaned (apply_change base v change).1 = vf_orphaned v.
Proof.
  intros Hv. destruct change as [path|path|path data mode|link target]; cbn [apply_change].
  - split; [by apply mkdir_all_keeps|apply mkdir_all_orphans].
  - split; [by apply remove_file_keeps|apply remove_file_orphans].
  - split; [by apply put_file_keeps|apply put_file_orphans].
  - cbv zeta. set (made := match parent_of (resolve_against base link) with
      Some parent => mkdir_all v base parent | None => (v, Ok tt) end).
    assert (Hp : disk_wf (disk_of made.1) ∧ vf_orphaned made.1 = vf_orphaned v).
    { unfold made. destruct (parent_of _) as [parent|]; [|done].
      split; [by apply mkdir_all_keeps|apply mkdir_all_orphans]. }
    destruct made as [v1 [[]|e]]; [|done]. destruct Hp as [H1 O1]. cbn [fst] in *.
    set (v2 := (remove_file v1 base (resolve_against base link)).1).
    assert (H2 : disk_wf (disk_of v2)) by (by apply remove_file_keeps).
    assert (O2 : vf_orphaned v2 = vf_orphaned v1) by apply remove_file_orphans.
    split; [by apply symlink_keeps|]. by rewrite symlink_orphans, O2.
Qed.

Lemma apply_changes_keeps base v changes : disk_wf (disk_of v) →
  disk_wf (disk_of (apply_changes base v changes).1) ∧ vf_orphaned (apply_changes base v changes).1 = vf_orphaned v.
Proof.
  revert v. induction changes as [|change changes IH]; intros v Hv; [done|]. cbn [apply_changes].
  pose proof (apply_change_keeps base v change Hv) as [Hc Ho].
  destruct (apply_change base v change) as [v1 [[]|e]]; cbn [fst] in *; [|done].
  destruct (IH v1 Hc) as [? ->]. by split.
Qed.

Lemma safe_batch base changes : safe (sys_apply_file_batch base changes).
Proof.
  intros s Hs. pose proof (gd_base Hs) as Hb. unfold sys_apply_file_batch. destruct (_ <? _); [done|]. cbv zeta.
  apply wpm_bind. unfold KernelInv.wpm at 1, gets.
  set (snapshot := sat_mul64 (vf_disk_used (m_vfs s)) 2).
  assert (Hn : 0 ≤ snapshot).
  { pose proof (disk_used_range _ (gd_disk Hs)). unfold snapshot, sat_mul64. assert (0 ≤ U64_MAX) by done. lia. }
  apply wpm_bind. eapply wpm_reserve; [exact Hs|done| |by intros]. intros r Hr. cbn [negb].
  apply wpm_bind. eapply wpm_charge; [exact Hr|]. intros r' g Hr'. destruct g; cbn [negb].
  - apply wpm_bind. unfold KernelInv.wpm at 1, gets.
    set (v := set_mutation_time _ _).
    pose proof (apply_changes_keeps base v changes) as Hk. destruct Hk as [Hk Ho]; [apply (gd_disk Hr')|].
    destruct (apply_changes base v changes) as [staged result]. cbn [fst] in *.
    apply wpm_bind, (wpm_mono _ _ _ (λ _ s', good h (b + snapshot) s')).
    + destruct (is_ok result); [|exact Hr']. unfold KernelInv.wpm, modify. apply good_vfs; [done|done|]. simpl.
      by rewrite Ho.
    + intros _ s2 Hs2. apply wpm_bind. eapply wpm_release; [exact Hs2|done..|]. by intros.
  - apply wpm_bind. eapply wpm_release; [exact Hr'|done..|]. by intros.
Qed.

End path_calls.

#[export] Hint Resolve safe_chmod safe_mkdir safe_mkdir_all safe_copy_file safe_symlink safe_chown safe_touch
  safe_write_file safe_put_file safe_unlink safe_batch : kernel_safe.

(** ** Queries, working directory and process state *)

Section query_calls.
Context (may : Prop) (h : list Z) (b : Z) (format_seconds : Z → string).
Notation safe := (safe may h b).

Lemma pseudo_metadata_ends m p cwd path follow : pseudo_metadata format_seconds m p cwd path follow ≠ NoFuel.
Proof.
  unfold pseudo_metadata. destruct (pseudo_lookup _ _ _ _ _ _) as [node|]; [|done].
  destruct node; try done; by destruct (pseudo_inode p cwd path follow).
Qed.

Lemma safe_pseudo_node base path follow : may → safe (pseudo_node format_seconds base path follow).
Proof.
  intros Hmay. unfold pseudo_node. keep_safe. apply safe_run. intros s Hs.
  pose proof (pseudo_metadata_ends s a base path follow) as He. by destruct (pseudo_metadata _ _ _ _ _ _).
Qed.
#[local] Hint Resolve safe_pseudo_node : kernel_safe.

Lemma safe_metadata base path follow : may → safe (sys_metadata format_seconds base path follow).
Proof. intros Hmay. unfold sys_metadata. keep_safe. Qed.
#[local] Hint Resolve safe_metadata : kernel_safe.

Lemma safe_metadata_fd fd : may → safe (sys_metadata_fd format_seconds fd).
Proof. intros Hmay. unfold sys_metadata_fd, sys_directory_path. keep_safe. Qed.

Lemma safe_fs_metadata cwd path follow : may → safe (fs_metadata format_seconds cwd path follow).
Proof. intros Hmay. unfold fs_metadata. keep_safe. Qed.
#[local] Hint Resolve safe_fs_metadata : kernel_safe.

Lemma safe_read_link cwd path : safe (fs_read_link format_seconds cwd path).
Proof. unfold fs_read_link, in_pseudo. keep_safe. Qed.
#[local] Hint Resolve safe_read_link : kernel_safe.

Lemma safe_list_dir cwd path : safe (fs_list_dir format_seconds cwd path).
Proof. unfold fs_list_dir, in_pseudo. keep_safe. Qed.

Lemma safe_read_limited cwd path limit : safe (fs_read_limited format_seconds cwd path limit).
Proof.
  unfold fs_read_limited, in_pseudo. keep_safe.
  apply safe_vfs_do; [intros; by apply read_limited_keeps|intros; apply read_limited_orphans].
Qed.

Lemma safe_read_link_prefix base path maximum : safe (sys_read_link_prefix format_seconds base path maximum).
Proof. unfold sys_read_link_prefix, in_pseudo. keep_safe. Qed.

Lemma safe_resolve_pass follow resolved comps : may → safe (resolve_pass format_seconds follow resolved comps).
Proof.
  intros Hmay. revert resolved. induction comps as [|c comps IH]; intros resolved; cbn [resolve_pass]; [apply safe_ret|].
  cbv zeta. keep_safe; apply IH.
Qed.

Lemma safe_realpath cwd path follow : may → safe (fs_realpath format_seconds cwd path follow).
Proof.
  intros Hmay. unfold fs_realpath. generalize (resolve_against cwd path). generalize 40%nat. intros rounds.
  induction rounds as [|rounds IH]; intros pending; cbn [resolve_rounds]; [apply safe_ret|].
  cbv zeta. apply safe_try; [by apply safe_resolve_pass|]. intros [reached []]; [apply IH|apply safe_ret].
Qed.
#[local] Hint Resolve safe_realpath : kernel_safe.

Lemma safe_canonicalize base path strict : may → safe (sys_canonicalize format_seconds base path strict).
Proof. intros Hmay. unfold sys_canonicalize. keep_safe. Qed.

Lemma safe_chdir path : may → safe (sys_chdir format_seconds path).
Proof. intros Hmay. unfold sys_chdir. keep_safe. by apply safe_update_context. Qed.

Lemma safe_umask mask : safe (sys_set_umask mask).
Proof. unfold sys_set_umask. keep_safe. by apply safe_update_context. Qed.

Lemma safe_hostname name : safe (sys_set_hostname name).
Proof. unfold sys_set_hostname. keep_safe. apply safe_modify. intros. by apply good_hostname. Qed.

Lemma safe_clock_time clock : safe (sys_clock_time_ns clock).
Proof. apply safe_gets. Qed.

Lemma safe_schedule_wake duration : safe (sys_schedule_wake duration).
Proof.
  unfold sys_schedule_wake. keep_safe. intros s Hs. unfold wpm.
  destruct (schedule_wake_after (m_clock s) (ps_pid a) duration). by apply good_clock.
Qed.

Lemma safe_random count : safe (sys_random_fill count).
Proof. unfold sys_random_fill. keep_safe. by apply safe_update_context. Qed.

Lemma safe_temp_id : safe sys_allocate_temp_id.
Proof. unfold sys_allocate_temp_id. keep_safe. apply safe_modify. intros s Hs. open_good Hs. by close_good. Qed.

Lemma safe_child_status pid : safe (sys_child_status pid).
Proof. unfold sys_child_status. keep_safe. Qed.
#[local] Hint Resolve safe_child_status : kernel_safe.

Lemma safe_child_completion pid : safe (sys_child_completion pid).
Proof. unfold sys_child_completion. keep_safe. Qed.

Lemma safe_reap pid : safe (sys_reap_child pid).
Proof.
  unfold sys_reap_child. keep_safe.
  - apply safe_modify. intros s Hs. apply good_processes; [done|apply (process_op_wf _ (OpReap pid)), (gd_table Hs)|]. intros q. apply reap_live.
  - apply safe_modify. intros s Hs. apply good_scheduler; [done|by apply scheduler_reap_wf, Hs|]. intros q. apply scheduler_reap_live.
Qed.

Lemma safe_block w : safe (block_on_io w).
Proof.
  intros s Hs. unfold wpm, block_on_io. cbv zeta. set (reason := match w with WaitInputReadable _ => _ | _ => _ end).
  pose proof (block_current_wf (m_scheduler s) reason (gd_sched Hs)) as Hb.
  pose proof (λ q, block_current_live (m_scheduler s) reason q (gd_sched Hs)) as Hl.
  destruct (block_current (m_scheduler s) reason). by apply good_scheduler.
Qed.

End query_calls.

#[export] Hint Resolve safe_metadata safe_metadata_fd safe_list_dir safe_read_limited safe_read_link_prefix
  safe_canonicalize safe_chdir safe_umask safe_hostname safe_clock_time safe_schedule_wake safe_random safe_temp_id
  safe_child_status safe_child_completion safe_reap safe_block safe_resize : kernel_safe.
