(* ===== verification/KernelTidy.v ===== *)
(** * What a call leaves alone, and what a close leaves behind

    A call keeps a view of the machine when it does not touch the components the view reads. A
    machine is tidy when every unlinked file it stores is open and every pipe it has reserved
    memory for exists. *)

From S2P Require Import Prelude.
From S2P Require Import State.
From S2P Require Import Resources.
From S2P Require Import Process.
From S2P Require Import Clock.
From S2P Require Import Scheduler.
From S2P Require Import Descriptors.
From S2P Require Import DescriptorInv.
From S2P Require Import DescriptorSystem.
From S2P Require Import Vfs.
From S2P Require Import ProcessState.
From S2P Require Import Machine.
From S2P Require Import Kernel.
From S2P Require Import KernelInv.
From S2P Require Import KernelSafe.

(** ** Views *)

Section views.
Context {V : Type} (view : Machine → V).

Definition keeps_view {A} (m : mach A) : Prop := ∀ s s' a, m s = Ret (s', a) → view s' = view s.

Lemma view_ret {A} (a : A) : keeps_view (mret a).
Proof. by intros s s' a' [= <- _]. Qed.

Lemma view_gets {A} (f : Machine → A) : keeps_view (gets f).
Proof. by intros s s' a' [= <- _]. Qed.

Lemma view_panic {A} : keeps_view (panic (A := A)).
Proof. by intros s s' a'. Qed.

Lemma view_bind {A B} (m : mach A) (k : A → mach B) : keeps_view m → (∀ a, keeps_view (k a)) → keeps_view (m ≫= k).
Proof.
  intros Hm Hk s s'' b. unfold mbind, stm_bind. destruct (m s) as [[s' a]| |] eqn:Hs; [|done..].
  intros Hb. rewrite (Hk _ _ _ _ Hb). by apply (Hm _ _ a).
Qed.

Lemma view_modify f : (∀ s, view (f s) = view s) → keeps_view (modify f).
Proof. by intros Hf s s' a [= <- _]. Qed.

Lemma view_lift {A} (f : Machine → run A) : keeps_view (lift_run f).
Proof. intros s s' a. unfold lift_run, mbind, run_bind. destruct (f s); [|done..]. by intros [= <- _]. Qed.

Lemma view_current : keeps_view current.
Proof. intros s s' a. unfold current. destruct (_ !! _); [|done]. by intros [= <- _]. Qed.

Lemma view_scheduler {A} (f : Scheduler → Scheduler * A) :
  (∀ s c a, f (m_scheduler s) = (c, a) → view (set_scheduler s c) = view s) →
  keeps_view (λ m, let '(c, r) := f (m_scheduler m) in Ret (set_scheduler m c, r)).
Proof. intros Hf s s' a. destruct (f (m_scheduler s)) as [c r] eqn:Hc. intros [= <- _]. by eapply Hf. Qed.

End views.

(** Waking keeps the running task. *)
Lemma scheduler_wake_current c pid : sc_current (scheduler_wake c pid).1 = sc_current c.
Proof. unfold scheduler_wake. by destruct (sc_states c !! pid) as [[| | |[]|]|]. Qed.

Lemma wake_each_current c waiting c' : wake_each c waiting = Ret c' → sc_current c' = sc_current c.
Proof.
  revert c. induction waiting as [|pid waiting IH]; intros c; cbn [wake_each]; [by intros [= <-]|].
  pose proof (scheduler_wake_current c pid) as Hw. destruct (scheduler_wake c pid) as [c1 []]; [|done].
  intros Hc. rewrite (IH _ Hc). exact Hw.
Qed.

Lemma wake_matching_current c p c' n : wake_matching c p = Ret (c', n) → sc_current c' = sc_current c.
Proof.
  unfold wake_matching, mbind, run_bind. cbv zeta. destruct (wake_each _ _) as [c1| |] eqn:Hw; [|done..].
  intros [= <- _]. by eapply wake_each_current.
Qed.

Lemma view_wake {V} (view : Machine → V) f p : (∀ c, f c = wake_matching c p) →
  (∀ s c, sc_current c = sc_current (m_scheduler s) → view (set_scheduler s c) = view s) → keeps_view view (wake f).
Proof.
  intros Hf Hv s s' a. unfold wake, mbind, run_bind. rewrite Hf.
  destruct (wake_matching _ p) as [[c n]| |] eqn:Hw; [|done..]. intros [= <- _]. apply Hv. by eapply wake_matching_current.
Qed.

(** A call that is safe and keeps a view. *)
Lemma wpm_viewed {V A} (view : Machine → V) (m : mach A) may h b s (Q : A → Machine → Prop) :
  safe may h b m → keeps_view view m → good h b s →
  (∀ a s', good h b s' → view s' = view s → Q a s') → wpm may m s Q.
Proof.
  intros Hm Hv Hs HQ. pose proof (Hm s Hs) as Hw. unfold wpm in *. destruct (m s) as [[s' a]| |] eqn:Heq; [|done..].
  apply HQ; [done|]. by eapply Hv.
Qed.

(** ** Tidy machines *)

Record tidy (s : Machine) : Prop := {
  ty_orphans : dom (vf_orphaned (m_vfs s)) ⊆ live_orphans (m_descriptors s);
  ty_pipes : ∀ pipe, is_Some (m_pipe_reservations s !! pipe) → contains_pipe (m_descriptors s) pipe = true
}.

Lemma retained_dom v live : dom (vf_orphaned (retain_orphans v live)) ⊆ live.
Proof.
  assert (Hv : vf_orphaned (retain_orphans v live) = filter (λ '(i, _), i ∈ live) (vf_orphaned v))
    by (unfold retain_orphans; cbv zeta; by destruct (0 <? _)).
  rewrite Hv. intros id [n Hn]%elem_of_dom. by apply map_lookup_filter_Some in Hn as [_ ?].
Qed.

Definition pipes_tidy (s : Machine) : Prop :=
  ∀ pipe, is_Some (m_pipe_reservations s !! pipe) → contains_pipe (m_descriptors s) pipe = true.

Lemma foldr_delete_comm (m : gmap Z Z) keys k : foldr delete (delete k m) keys = delete k (foldr delete m keys).
Proof. induction keys as [|q keys IH]; [done|]. simpl. by rewrite IH, delete_delete. Qed.

Lemma release_pipes_run closed s : ∃ r, release_pipes closed s =
  Ret (set_resources (set_reservations s (foldr delete (m_pipe_reservations s) closed)) r, tt).
Proof.
  revert s. induction closed as [|pipe closed IH]; intros s; [exists (m_resources s); by destruct s|].
  cbn [release_pipes]. unfold mbind, stm_bind, gets, modify, release_bytes, modify. cbn.
  destruct (m_pipe_reservations s !! pipe) as [n|] eqn:Hn.
  - destruct (IH (set_resources (set_reservations s (delete pipe (m_pipe_reservations s)))
      (release_memory (m_resources s) n))) as [r Hr]. exists r. rewrite <-foldr_delete_comm. exact Hr.
  - destruct (IH s) as [r Hr]. exists r. rewrite <-foldr_delete_comm, delete_id by done. exact Hr.
Qed.

Lemma foldr_delete_lookup (m : gmap Z Z) keys k :
  foldr delete m keys !! k = if decide (k ∈ keys) then None else m !! k.
Proof.
  induction keys as [|q keys IH]; [done|]. cbn [foldr]. destruct (decide (q = k)) as [->|Hne].
  - rewrite lookup_delete_eq, decide_True by left. done.
  - rewrite lookup_delete_ne, IH by done. repeat case_decide; set_solver.
Qed.

(** After [release_closed_pipe_memory] only existing pipes have memory. *)
Lemma release_closed_tidy s : ∃ r reservations, release_closed_pipe_memory s =
  Ret (set_resources (set_reservations s reservations) r, tt) ∧
  pipes_tidy (set_resources (set_reservations s reservations) r).
Proof.
  unfold release_closed_pipe_memory, mbind, stm_bind, gets. cbn.
  destruct (release_pipes_run (closed_pipes s) s) as [r Hr]. exists r, (foldr delete (m_pipe_reservations s) (closed_pipes s)).
  split; [exact Hr|]. intros pipe. cbn [m_pipe_reservations m_descriptors set_resources set_reservations].
  rewrite foldr_delete_lookup. case_decide as Hin; [by intros []|]. intros Hsome.
  destruct (contains_pipe (m_descriptors s) pipe) eqn:Hc; [done|]. destruct Hin. unfold closed_pipes.
  apply list_elem_of_filter. split; [done|]. by apply elem_of_btree_keys.
Qed.

(** The contexts and who runs; what a tidy machine is about. *)
Definition view_control (s : Machine) : gmap Z ProcessState * Z * option Z :=
  (m_states s, m_active s, sc_current (m_scheduler s)).
Definition view_files (s : Machine) : gmap Z DescriptionEntry * gmap Z Pipe * gmap Z Z * gmap Z Node :=
  (da_descriptions (m_descriptors s), da_pipes (m_descriptors s), m_pipe_reservations s, vf_orphaned (m_vfs s)).

Lemma pipes_tidy_view s s' : view_files s' = view_files s → pipes_tidy s → pipes_tidy s'.
Proof. unfold view_files, pipes_tidy, contains_pipe. intros [= _ -> -> _]. auto. Qed.

Lemma tidy_view s s' : view_files s' = view_files s → tidy s → tidy s'.
Proof.
  unfold view_files. intros [= Hd Hp Hr Ho] [Ht1 Ht2]. unfold live_orphans, contains_pipe in *. split.
  - unfold live_orphans. by rewrite Hd, Ho.
  - unfold contains_pipe. by rewrite Hp, Hr.
Qed.

Section settle.
Context (h : list Z) (b : Z).
Notation wpm := (wpm False).

Lemma wpm_release_closed s (Q : unit → Machine → Prop) : good h b s →
  (∀ s', good h b s' → pipes_tidy s' → view_control s' = view_control s → Q tt s') →
  wpm release_closed_pipe_memory s Q.
Proof.
  intros Hs HQ. pose proof (safe_release_closed False h b s Hs) as Hg. unfold KernelInv.wpm in *.
  destruct (release_closed_tidy s) as (r & reservations & Heq & Ht). rewrite Heq in *. by apply HQ.
Qed.

Lemma wpm_retain_live s (Q : unit → Machine → Prop) : good h b s → pipes_tidy s →
  (∀ s', good h b s' → tidy s' → view_control s' = view_control s → Q tt s') → wpm retain_live_orphans s Q.
Proof.
  intros Hs Hp HQ. pose proof (safe_retain_live False h b s Hs) as Hg. unfold retain_live_orphans, modify, KernelInv.wpm in *.
  apply HQ; [exact Hg| |done]. split; [|exact Hp]. apply retained_dom.
Qed.

Lemma wpm_wake_locks s (Q : unit → Machine → Prop) : good h b s →
  (∀ s', good h b s' → view_files s' = view_files s → view_control s' = view_control s → Q tt s') →
  wpm env_wake_file_lock_waiters s Q.
Proof.
  intros Hs HQ. eapply (wpm_viewed (λ s, (view_files s, view_control s))); [apply safe_wake_locks| |exact Hs|].
  - unfold env_wake_file_lock_waiters. apply view_bind.
    + intros s1 s2 a. destruct (take_file_lock_changes _) as [a' c] eqn:Ht. intros [= <- _].
      unfold take_file_lock_changes in Ht. by injection Ht as <- _.
    + intros changed. destruct changed; [|apply view_ret]. eapply view_wake; [done|]. intros s1 c Hc.
      unfold view_control, view_files. simpl. by rewrite Hc.
  - intros [] s' Hs' Hv. apply HQ; [done|exact (f_equal fst Hv)|exact (f_equal snd Hv)].
Qed.

Lemma wpm_wake_other s pipe reader (Q : unit → Machine → Prop) : good h b s →
  (∀ s', good h b s' → view_files s' = view_files s → view_control s' = view_control s → Q tt s') →
  wpm (wake (λ s, wake_waiters s (if reader : bool then PipeWritable pipe else PipeReadable pipe))) s Q.
Proof.
  intros Hs HQ. eapply (wpm_viewed (λ s, (view_files s, view_control s))); [apply safe_wake_waiters| |exact Hs|].
  - eapply (view_wake _ _ (λ blocked, accepts blocked _)); [reflexivity|]. intros s1 c Hc. unfold view_control, view_files. simpl. by rewrite Hc.
  - intros [] s' Hs' Hv. apply HQ; [done|exact (f_equal fst Hv)|exact (f_equal snd Hv)].
Qed.

Lemma wpm_refresh s (Q : unit → Machine → Prop) : good h b s →
  (∀ s', good h b s' → view_files s' = view_files s → view_control s' = view_control s → Q tt s') →
  wpm refresh_active s Q.
Proof.
  intros Hs HQ. eapply (wpm_viewed (λ s, (view_files s, view_control s))); [apply safe_refresh| |exact Hs|].
  - unfold refresh_active, refresh_descriptor_snapshot. apply view_bind; [apply view_current|]. intros p.
    by apply view_modify.
  - intros [] s' Hs' Hv. apply HQ; [done|exact (f_equal fst Hv)|exact (f_equal snd Hv)].
Qed.

(** The last steps of a close leave the machine tidy. *)
Lemma wpm_wake_endpoint endpoint s (Q : unit → Machine → Prop) : good h b s →
  (∀ s', good h b s' → pipes_tidy s' → view_control s' = view_control s → Q tt s') →
  wpm (wake_pipe_endpoint endpoint) s Q.
Proof.
  intros Hs HQ. unfold wake_pipe_endpoint. apply wpm_bind.
  assert (Hrest : ∀ s1, good h b s1 → view_control s1 = view_control s →
    wpm (_ ← release_closed_pipe_memory; env_wake_file_lock_waiters) s1 Q).
  { intros s1 H1 Hv1. apply wpm_bind, wpm_release_closed; [done|]. intros s2 H2 Ht Hv2.
    apply wpm_wake_locks; [done|]. intros s3 H3 Hf Hv3. apply HQ; [done|by eapply pipes_tidy_view|congruence]. }
  destruct endpoint as [[pipe reader]|]; [|by apply wpm_ret, Hrest].
  apply wpm_wake_other; [done|]. intros s1 H1 _ Hv1. by apply Hrest.
Qed.
End settle.

Lemma close_ok h b s p fd id : good h b s → m_states s !! m_active s = Some p → ft_entries (ps_fds p) !! fd = Some id →
  ∃ e, da_descriptions (m_descriptors s) !! id = Some e ∧
  ∃ t a, fd_close (ps_fds p) fd (m_descriptors s) = (t, a, Ok tt) ∧ ft_entries t = delete fd (ft_entries (ps_fds p)).
Proof.
  intros Hs Hp Hfd. destruct (gd_desc Hs) as [U HU].
  assert (Ht : (ps_fds <$> m_states s) !! m_active s = Some (ps_fds p)) by (by rewrite lookup_fmap, Hp).
  pose proof (desc_wf_table_ok _ _ _ HU Ht) as Hok.
  pose proof (fd_close_spec _ (other_holders_pos _ _) _ _ _ fd Hok) as Hspec. cbn [arena_of dy_arena] in Hspec.
  destruct (fd_close _ _ _) as [[t a] r]. rewrite Hfd in Hspec. destruct Hspec as (_ & _ & He & _ & ->).
  assert (Hh : 0 < table_count (ps_fds p) id + other_holders (arena_of h U s) (m_active s) id)
    by (eapply table_held; [apply other_holders_pos|exact Hok|exact Hfd]).
  destruct (co_live _ _ _ (tk_counts _ _ _ _ Hok) id Hh) as [n Hn]. rewrite refs_lookup in Hn. cbn [arena_of dy_arena] in Hn.
  destruct (da_descriptions (m_descriptors s) !! id) as [e|]; [|done]. exists e. split; [done|]. by exists t, a.
Qed.

(** C16: Closing an open descriptor succeeds and leaves nothing behind: the descriptor is gone from the
    table, every unlinked file whose storage remains is still open somewhere, and memory is reserved
    only for pipes that still exist. *)
Theorem close_leaves_nothing h b s p fd : good h b s → m_states s !! m_active s = Some p →
  is_Some (ft_entries (ps_fds p) !! fd) →
  ∃ s' p', sys_close fd s = Ret (s', Ok tt) ∧ good h b s' ∧ tidy s' ∧
    m_states s' !! m_active s' = Some p' ∧ ft_entries (ps_fds p') = delete fd (ft_entries (ps_fds p)).
Proof.
  intros Hs Hp [id Hfd]. destruct (close_ok h b s p fd id Hs Hp Hfd) as (e & He & t & a & Hclose & Ht).
  assert (Hg : good h b (with_table s p t a)).
  { eapply (good_table _ _ _ Hs p (TClose fd)); [exact Hp|exact Hclose|].
    pose proof (close_files (ps_fds p) fd (m_descriptors s)) as Hk. by rewrite Hclose in Hk. }
  enough (Hw : wpm False (sys_close fd) s (λ r s', r = Ok tt ∧ good h b s' ∧ tidy s' ∧
    view_control s' = view_control (with_table s p t a))).
  { unfold wpm in Hw. destruct (sys_close fd s) as [[s' r]| |]; [|done..]. destruct Hw as (-> & Hg' & Ht' & [= Hv Ha _]).
    exists s', (with_fds p t). rewrite Hv, Ha. split_and!; try done. cbn. by rewrite lookup_insert_eq. }
  unfold sys_close. apply wpm_try. unfold process_fd, table_get. apply wpm_bind, wpm_current; [|by eexists].
  intros p' Hp'. rewrite Hp in Hp'. injection Hp' as <-. apply wpm_ret. unfold fd_get, ok_or. rewrite Hfd. cbn [from_descriptor].
  apply wpm_try. unfold arena_get, gets, wpm at 1. unfold pipe_endpoint. rewrite He. cbn [from_descriptor].
  apply wpm_try. unfold wpm at 1. rewrite (table_do_eq _ _ p Hp), Hclose. cbn [from_descriptor].
  apply wpm_bind, (wpm_wake_endpoint h b); [done|]. intros s1 H1 Ht1 Hv1.
  apply wpm_bind, (wpm_retain_live h b); [done..|]. intros s2 H2 Ht2 Hv2.
  apply wpm_bind, (wpm_refresh h b); [done|]. intros s3 H3 Hf3 Hv3.
  apply wpm_ret. split_and!; [done|done|by eapply tidy_view|congruence].
Qed.
