(* ===== verification/LifecycleInv.v ===== *)
(** * The machine invariant under the operations on processes

    Signals, forking, the end of a process and the memory of a context keep the invariant of
    KernelInv. A forked table that no context has yet is a list of held descriptions; a context
    that ends gives back its descriptors and its memory. *)

From S2P Require Import Prelude.
From S2P Require Import State.
From S2P Require Import RustStr.
From S2P Require Import Resources.
From S2P Require Import Variables.
From S2P Require Import Descriptors.
From S2P Require Import Process.
From S2P Require Import Clock.
From S2P Require Import Scheduler.
From S2P Require Import DescriptorInv.
From S2P Require Import DescriptorSystem.
From S2P Require Import Paths.
From S2P Require Import Vfs.
From S2P Require Import VfsTree.
From S2P Require Import VfsUsage.
From S2P Require Import VfsSystem.
From S2P Require Import ProcessState.
From S2P Require Import Machine.
From S2P Require Import PseudoFs.
From S2P Require Import Kernel.
From S2P Require Import Lifecycle.
From S2P Require Import KernelInv.
From S2P Require Import KernelSafe.

(** ** Live tasks *)

(** No task of [c'] is live that was not in [c]. *)
Definition no_task_born (c c' : Scheduler) : Prop := ∀ pid, task_live c' pid → task_live c pid.

Lemma spawn_live c pid q : task_live (scheduler_spawn c pid).1 q → task_live c q ∨ q = pid.
Proof.
  unfold scheduler_spawn. repeat case_match; [by left|by left|]. unfold task_live. cbn [fst sc_states].
  destruct (decide (q = pid)) as [->|Hne]; [by right|]. rewrite lookup_insert_ne by done. by left.
Qed.

Ltac live_update :=
  intros q; unfold task_live; cbn [fst sc_states];
  match goal with
  | |- context [<[?pid := _]> _ !! q] =>
      destruct (decide (q = pid)) as [->|?]; [rewrite lookup_insert_eq|by rewrite lookup_insert_ne by done]
  end; simpl; repeat case_match; congruence || done.

Lemma wake_born c pid : no_task_born c (scheduler_wake c pid).1.
Proof. unfold scheduler_wake. destruct (sc_states c !! pid) as [[| | |[]|]|] eqn:Hp; try (intros q; exact id); live_update. Qed.

Lemma stop_born c pid : no_task_born c (scheduler_stop c pid).1.
Proof. unfold scheduler_stop. destruct (sc_states c !! pid) as [[| | |[]|]|] eqn:Hp; try case_bool_decide; try (intros q; exact id); live_update. Qed.

Lemma continue_born c pid : no_task_born c (continue_task c pid).1.
Proof. unfold continue_task. destruct (sc_states c !! pid) as [[| | |[]|]|] eqn:Hp; try (intros q; exact id); live_update. Qed.

Lemma park_born c pid reason : no_task_born c (park_runnable c pid reason).1.
Proof. unfold park_runnable. destruct (sc_states c !! pid) as [[| | |[]|]|] eqn:Hp; try (intros q; exact id); live_update. Qed.

Lemma dispatch_born c : no_task_born c (dispatch c).1.
Proof.
  unfold dispatch. destruct (sc_current c); [by intros q|]. destruct (sc_runnable c) as [|pid queue]; [by intros q|].
  destruct (sc_states c !! pid) as [[| | |[]|]|] eqn:Hp; try (intros q; exact id); live_update.
Qed.

Lemma block_born c reason : sched_wf c → no_task_born c (block_current c reason).1.
Proof. intros Hc q. by apply block_current_live. Qed.

Lemma discard_born c pid : no_task_born c (discard_runnable c pid).1.
Proof.
  unfold discard_runnable. destruct (sc_states c !! pid) as [[]|]; try (by intros q). intros q. unfold task_live.
  cbn [fst sc_states]. rewrite lookup_delete. by case_decide.
Qed.

Lemma reap_born c pid : no_task_born c (scheduler_reap c pid).1.
Proof. intros q. apply scheduler_reap_live. Qed.

(** The task that exits is gone from the live ones. *)
Lemma exit_born c status pid : sched_wf c → sc_current c = Some pid →
  no_task_born c (exit_current c status).1 ∧ ¬ task_live (exit_current c status).1 pid ∧
  sc_current (exit_current c status).1 = None.
Proof.
  intros Hc Hp. pose proof (current_live _ _ Hc Hp) as Hl. unfold exit_current. rewrite Hp. split_and!; [| |done].
  - intros q. unfold task_live. cbn [fst sc_states]. destruct (decide (q = pid)) as [->|?]; [done|by rewrite lookup_insert_ne].
  - unfold task_live. cbn [fst sc_states]. rewrite lookup_insert_eq. exact id.
Qed.

(** ** One component changes, whatever the active process *)

Ltac open_sound H := destruct H as [Gdesc Gdisk Gfiles Gsched Gbase Gmemory Glimit Gpipes Gcontexts Gtasks Gtable Gprocesses].

Section components.
Context (h : list Z) (b : Z) (s : Machine) (Hs : sound h b s).

Lemma sound_scheduler c : sched_wf c → no_task_born (m_scheduler s) c → sound h b (set_scheduler s c).
Proof. intros Hc Hl. open_sound Hs. split; try done. intros pid Hp. by apply Gtasks, Hl. Qed.

Lemma sound_processes t : process_table_wf t →
  (∀ pid, is_Some (m_states s !! pid) → process_live (m_processes s) pid → process_live t pid) → sound h b (set_processes s t).
Proof. intros Hw Hl. open_sound Hs. split; try done. intros pid Hp. apply Hl; [done|by apply Gprocesses]. Qed.

Lemma sound_clock c : sound h b (set_clock s c).
Proof. by open_sound Hs. Qed.

Lemma sound_host v : sound h b (set_host s v).
Proof. by open_sound Hs. Qed.

Lemma sound_terminal t : sound h b (set_terminal s t).
Proof. by open_sound Hs. Qed.

Lemma sound_active pid : sound h b (set_active s pid).
Proof. by open_sound Hs. Qed.

Lemma sound_pending out : sound h b (set_pending_stdout s out) ∧ sound h b (set_pending_stderr s out).
Proof. split; by open_sound Hs. Qed.

(** Contexts change and keep their descriptors, their identity and their memory. *)
Lemma map_sum_pointwise (f : Z → ProcessState → Z) (g : Z → ProcessState → ProcessState) (m : gmap Z ProcessState) :
  (∀ k p, f k (g k p) = f k p) → map_sum f (map_imap (λ k p, Some (g k p)) m) = map_sum f m.
Proof.
  intros Hf. induction m as [|k p m Hk IH] using map_ind; [by rewrite map_imap_empty|].
  rewrite map_imap_insert_Some with (y := g k p) by done.
  rewrite !map_sum_insert; [by rewrite Hf, IH|done|]. by rewrite map_lookup_imap, Hk.
Qed.

Lemma sound_contexts g : (∀ q p, ps_fds (g q p) = ps_fds p ∧ same_holdings p (g q p)) →
  sound h b (set_states s (map_imap (λ q p, Some (g q p)) (m_states s))).
Proof.
  intros Hg. assert (Hlook : ∀ q, map_imap (λ q p, Some (g q p)) (m_states s) !! q = g q <$> m_states s !! q).
  { intros q. rewrite map_lookup_imap. by destruct (m_states s !! q). }
  assert (Hfds : ps_fds <$> map_imap (λ q p, Some (g q p)) (m_states s) = ps_fds <$> m_states s).
  { apply map_eq. intros q. rewrite !lookup_fmap, Hlook. destruct (m_states s !! q) as [p|]; [|done]. simpl.
    f_equal. apply Hg. }
  open_sound Hs. split; try done; cbn [m_states set_states].
  - unfold arena_of. cbn [m_descriptors m_states set_states]. by rewrite Hfds.
  - cbn [m_resources set_states]. rewrite Gmemory. unfold held. cbn [m_states set_states]. rewrite map_sum_pointwise; [done|].
    intros q p. destruct (Hg q p) as [_ [_ Hr]]. unfold context_bytes. by rewrite Hr.
  - intros q p. rewrite Hlook. intros (x & Hx & ->)%fmap_Some. eapply context_ok_same; [apply Hg|by apply Gcontexts].
  - intros q Hq. rewrite Hlook, fmap_is_Some. by apply Gtasks.
  - intros q. rewrite Hlook, fmap_is_Some. apply Gprocesses.
Qed.

End components.

Lemma alter_imap (f : ProcessState → ProcessState) (pid : Z) (m : gmap Z ProcessState) :
  alter f pid m = map_imap (λ q p, Some (if decide (q = pid) then f p else p)) m.
Proof.
  apply map_eq. intros q. rewrite map_lookup_imap. destruct (decide (q = pid)) as [->|Hne].
  - rewrite lookup_alter_eq. by destruct (m !! pid).
  - rewrite lookup_alter_ne by done. by destruct (m !! q).
Qed.

Lemma fmap_imap (f : ProcessState → ProcessState) (m : gmap Z ProcessState) :
  f <$> m = map_imap (λ _ p, Some (f p)) m.
Proof. apply map_eq. intros q. rewrite lookup_fmap, map_lookup_imap. by destruct (m !! q). Qed.

(** ** Operations that need no active context

    They keep the invariant, the set of contexts and the active process. *)

Definition kept (s s' : Machine) : Prop := dom (m_states s') = dom (m_states s) ∧ m_active s' = m_active s.

#[export] Instance kept_preorder : PreOrder kept.
Proof. split; [done|]. intros s1 s2 s3 [H12 ?] [H23 ?]. split; congruence. Qed.

Definition steady {A} (m : mach A) : Prop :=
  ∀ h b s, sound h b s → wpm False m s (λ _ s', sound h b s' ∧ kept s s').

Lemma steady_ret {A} (a : A) : steady (mret a).
Proof. by intros h b s Hs. Qed.

Lemma steady_gets {A} (f : Machine → A) : steady (gets f).
Proof. by intros h b s Hs. Qed.

Lemma steady_bind {A B} (m : mach A) (k : A → mach B) : steady m → (∀ a, steady (k a)) → steady (m ≫= k).
Proof.
  intros Hm Hk h b s Hs. apply wpm_bind. eapply wpm_mono; [by apply Hm|]. intros a s' [Hs' Hd].
  eapply wpm_mono; [by apply Hk|]. intros c s'' [Hs'' Hd']. split; [done|]. by etransitivity.
Qed.

Lemma steady_and_then {A B} (m : lifecycle A) (k : A → lifecycle B) :
  steady m → (∀ a, steady (k a)) → steady (and_then k m).
Proof. intros Hm Hk. apply steady_bind; [done|]. intros []; [apply Hk|apply steady_ret]. Qed.

Lemma steady_modify f : (∀ h b s, sound h b s → sound h b (f s) ∧ kept s (f s)) → steady (modify f).
Proof. intros Hf h b s Hs. by apply Hf. Qed.

Lemma steady_sched {A} (f : Scheduler → Scheduler * result SchedulerError A) :
  (∀ c, sched_wf c → sched_wf (f c).1 ∧ no_task_born c (f c).1) → steady (sched_do f).
Proof.
  intros Hf h b s Hs. destruct (Hf (m_scheduler s)) as [Hc Hb]; [apply (gs_sched _ _ _ Hs)|].
  unfold wpm, sched_do. destruct (f (m_scheduler s)) as [c r]. split; [by apply sound_scheduler|done].
Qed.

Lemma steady_wake f p : (∀ c, f c = wake_matching c p) → steady (wake f).
Proof.
  intros Hf h b s Hs. unfold wpm, wake, mbind, run_bind. rewrite Hf.
  destruct (wake_matching_spec (m_scheduler s) p) as (c & -> & Hw & Hc); [apply (gs_sched _ _ _ Hs)|].
  split; [|done]. apply sound_scheduler; [done|done|]. intros q. by eapply woke_live.
Qed.

(** A change of one record, which does not end its process. *)
Lemma steady_record op : (∀ t, process_table_wf t → ∀ pid, process_live t pid → process_live (process_step t op).1 pid) →
  steady (processes_do (λ t, (process_step t op).1)).
Proof.
  intros Hl. apply steady_modify. intros h b s Hs. split; [|done]. pose proof (gs_table _ _ _ Hs).
  apply sound_processes; [done|by apply process_op_wf|]. intros pid _. by apply Hl.
Qed.

Lemma steady_terminal (f : Machine → Machine) : (∀ s, ∃ t, f s = set_terminal s t) → steady (modify f).
Proof. intros Hf. apply steady_modify. intros h b s Hs. destruct (Hf s) as [t ->]. split; [by apply sound_terminal|done]. Qed.

Lemma kept_contexts s g : kept s (set_states s (map_imap (λ q p, Some (g q p)) (m_states s))).
Proof.
  split; [|done]. cbn [m_states set_states]. apply set_eq. intros q. rewrite !elem_of_dom, map_lookup_imap.
  destruct (m_states s !! q); simpl; [done|]. split; by intros [].
Qed.

Lemma steady_update pid f : (∀ p, ps_fds (f p) = ps_fds p ∧ same_holdings p (f p)) → steady (update_state pid f).
Proof.
  intros Hf. apply steady_modify. intros h b s Hs. rewrite alter_imap. split; [|apply kept_contexts].
  apply sound_contexts; [done|]. intros q p. case_decide; [apply Hf|done].
Qed.

Lemma steady_contexts f : (∀ p, ps_fds (f p) = ps_fds p ∧ same_holdings p (f p)) →
  steady (modify (λ m, set_states m (f <$> m_states m))).
Proof.
  intros Hf. apply steady_modify. intros h b s Hs. rewrite fmap_imap. split; [|apply (kept_contexts _ (λ _, f))].
  apply (sound_contexts _ _ _ Hs (λ _, f)). intros q. apply Hf.
Qed.

Lemma wpm_may {A} (may may' : Prop) (m : mach A) s Q : (may → may') → wpm may m s Q → wpm may' m s Q.
Proof. unfold wpm. destruct (m s) as [[]| |]; auto. Qed.

Lemma kept_active h b s s' : good h b s → sound h b s' → kept s s' → good h b s'.
Proof.
  intros [_ Ha] Hs' [Hd Hact]. split; [done|]. rewrite Hact. apply elem_of_dom. rewrite Hd. by apply elem_of_dom.
Qed.

Lemma steady_safe {A} (m : mach A) may h b : steady m → safe may h b m.
Proof.
  intros Hm s Hs. eapply wpm_may; [|eapply wpm_mono; [apply (Hm h b s), (gd_sound _ _ _ Hs)|]]; [done|].
  intros a s' [Hs' Hk]. by eapply kept_active.
Qed.

(** ** Signals *)

Create HintDb steady discriminated.
#[export] Hint Constants Opaque : steady.
#[export] Hint Resolve steady_ret steady_gets : steady.
#[export] Hint Extern 1 (steady (refuse _)) => apply steady_ret : steady.
#[export] Hint Extern 1 (steady (accept _)) => apply steady_ret : steady.

Ltac keep_steady :=
  repeat lazymatch goal with
  | |- ∀ _, _ => intro
  | |- steady (mbind _ _) => apply steady_bind
  | |- steady (and_then _ _) => apply steady_and_then
  | |- steady (match ?x with _ => _ end) => destruct x eqn:?
  | |- steady _ => solve [auto 2 with steady]
  end.

Lemma steady_sched_wake pid : steady (sched_do (λ c, scheduler_wake c pid)).
Proof. apply steady_sched. intros c Hc. split; [by apply scheduler_wake_wf|apply wake_born]. Qed.
Lemma steady_sched_stop pid : steady (sched_do (λ c, scheduler_stop c pid)).
Proof. apply steady_sched. intros c Hc. split; [by apply scheduler_stop_wf|apply stop_born]. Qed.
Lemma steady_sched_continue pid : steady (sched_do (λ c, continue_task c pid)).
Proof. apply steady_sched. intros c Hc. split; [by apply continue_task_wf|apply continue_born]. Qed.
Lemma steady_sched_park pid reason : steady (sched_do (λ c, park_runnable c pid reason)).
Proof. apply steady_sched. intros c Hc. split; [by apply park_runnable_wf|apply park_born]. Qed.
Lemma steady_sched_dispatch : steady (sched_do dispatch).
Proof. apply steady_sched. intros c Hc. split; [by apply dispatch_wf|apply dispatch_born]. Qed.
Lemma steady_sched_block reason : steady (sched_do (λ c, block_current c reason)).
Proof. apply steady_sched. intros c Hc. split; [by apply block_current_wf|by apply block_born]. Qed.
Lemma steady_sched_discard pid : steady (sched_do (λ c, discard_runnable c pid)).
Proof. apply steady_sched. intros c Hc. split; [by apply discard_runnable_wf|apply discard_born]. Qed.
Lemma steady_sched_reap pid : steady (sched_do (λ c, scheduler_reap c pid)).
Proof. apply steady_sched. intros c Hc. split; [by apply scheduler_reap_wf|apply reap_born]. Qed.
#[export] Hint Resolve steady_sched_wake steady_sched_stop steady_sched_continue steady_sched_park steady_sched_dispatch
  steady_sched_block steady_sched_discard steady_sched_reap : steady.

Lemma steady_wake_parents pid : steady (wake_parents pid).
Proof. unfold wake_parents. apply steady_bind; [|intros _]; by eapply steady_wake. Qed.

Lemma steady_reclaim : steady reclaim_terminal.
Proof.
  apply steady_terminal. intros s. destruct (running_group _ _); [by eexists|].
  exists (m_terminal s). by destruct s.
Qed.

Lemma steady_mark pid state : steady (mark_jobs pid state).
Proof. by apply steady_contexts. Qed.

Lemma steady_stop_record pid signal : steady (processes_do (λ t, process_stop t pid signal)).
Proof.
  apply (steady_record (OpStop pid signal)). intros t Ht q (r & Hr & Hl). simpl. unfold process_live, process_stop, update_record.
  cbn [pt_records]. destruct (decide (q = pid)) as [->|Hne].
  - rewrite lookup_alter_eq, Hr. cbn [fmap option_fmap option_map]. rewrite Hl. eexists. split; [reflexivity|done].
  - exists r. by rewrite lookup_alter_ne.
Qed.

Lemma steady_continue_record pid : steady (processes_do (λ t, Process.continue_process t pid)).
Proof.
  apply (steady_record (OpContinue pid)). intros t Ht q (r & Hr & Hl). simpl. unfold process_live, Process.continue_process, update_record.
  cbn [pt_records]. destruct (decide (q = pid)) as [->|Hne].
  - rewrite lookup_alter_eq, Hr. simpl. eexists. split; [done|]. by destruct (pr_status r) eqn:Hst; rewrite ?Hst.
  - exists r. by rewrite lookup_alter_ne.
Qed.
#[export] Hint Resolve steady_wake_parents steady_reclaim steady_mark steady_stop_record steady_continue_record : steady.

Lemma steady_wake_if wanted pid failed : steady (wake_if wanted pid failed).
Proof. unfold wake_if. keep_steady. Qed.
#[export] Hint Resolve steady_wake_if : steady.

Lemma steady_stop_process pid signal : steady (stop_process pid signal).
Proof. unfold stop_process. keep_steady. Qed.

Lemma steady_continue_process pid : steady (env_continue_process pid).
Proof. unfold env_continue_process. keep_steady. Qed.

Lemma steady_queue_signal pid signal : steady (queue_signal pid signal).
Proof. unfold queue_signal. keep_steady. by apply steady_update. Qed.
#[export] Hint Resolve steady_stop_process steady_continue_process steady_queue_signal : steady.

Lemma steady_send_signal pid signal : steady (send_signal pid signal).
Proof. unfold send_signal. keep_steady. Qed.
#[export] Hint Resolve steady_send_signal : steady.

Lemma steady_signal_each members signal : steady (signal_each members signal).
Proof. induction members as [|pid members IH]; cbn [signal_each]; keep_steady; done. Qed.
#[export] Hint Resolve steady_signal_each : steady.

Lemma steady_send_group group signal : steady (send_signal_group group signal).
Proof. unfold send_signal_group. keep_steady. Qed.
#[export] Hint Resolve steady_send_group : steady.

Lemma steady_terminal_signal signal : steady (send_terminal_signal signal).
Proof. unfold send_terminal_signal. keep_steady. Qed.

Lemma steady_foreground group : steady (set_terminal_foreground group).
Proof.
  intros h b s Hs. unfold wpm, set_terminal_foreground. destruct (set_foreground _ _ _) as [t ok].
  split; [by apply sound_terminal|done].
Qed.
#[export] Hint Resolve steady_terminal_signal steady_foreground : steady.

(** *** Delivery *)

(** The pending signals a delivery looks at, in order. *)
Definition deliverable (g : SignalState) : list Signal :=
  filter (λ s, s ∈ sg_pending g) (if sg_handling_signal g then [Kill; Stop] else all_signals).

Lemma all_signals_NoDup : NoDup all_signals.
Proof. apply (bool_decide_unpack _). vm_compute. done. Qed.

Lemma deliverable_NoDup g : NoDup (deliverable g).
Proof.
  apply NoDup_filter. destruct (sg_handling_signal g); [|apply all_signals_NoDup].
  apply (bool_decide_unpack _). vm_compute. done.
Qed.

(** Taking the first one leaves the others. *)
Lemma deliverable_take g signal rest : deliverable g = signal :: rest →
  signal ∈ sg_pending g ∧ deliverable (with_pending g (sg_pending g ∖ {[signal]})) = rest.
Proof.
  intros Hg. pose proof (deliverable_NoDup g) as Hnd. rewrite Hg in Hnd. apply NoDup_cons in Hnd as [Hn _].
  assert (Hin : signal ∈ deliverable g) by (rewrite Hg; left).
  unfold deliverable in Hin. apply list_elem_of_filter in Hin as [Hp _]. split; [done|].
  assert (Hf : deliverable (with_pending g (sg_pending g ∖ {[signal]})) = filter (λ s, s ≠ signal) (deliverable g)).
  { unfold deliverable. rewrite list_filter_filter. apply list_filter_iff. intros s.
    cbn [sg_pending with_pending]. set_solver. }
  rewrite Hf, Hg, filter_cons_False by (intros Hne; by apply Hne).
  clear -Hn. induction rest as [|s rest IH]; [done|]. rewrite not_elem_of_cons in Hn. destruct Hn as [Hs Hn].
  rewrite filter_cons_True by congruence. by rewrite IH.
Qed.

Definition drop_pending (g : SignalState) (signals : list Signal) : SignalState :=
  with_pending g (sg_pending g ∖ list_to_set signals).

(** A handler runs with the others held back. *)
Definition delivered (d : SignalDelivery) (g : SignalState) : SignalState :=
  match d with DeliverHandler _ => with_handling g true | _ => g end.

Lemma drop_pending_cons g signal signals :
  drop_pending (with_pending g (sg_pending g ∖ {[signal]})) signals = drop_pending g (signal :: signals).
Proof. unfold drop_pending, with_pending. cbn. f_equal. set_solver. Qed.

(** [deliver] drops the ignored signals that come first and delivers the next one, if any. *)
Lemma deliver_spec fuel g : (length (deliverable g) < fuel)%nat →
  ∃ ignored rest, deliverable g = ignored ++ rest ∧ Forall (λ s, signal_action g s = None) ignored ∧
    match rest with
    | [] => deliver fuel g = Ret (drop_pending g ignored, None)
    | s :: _ => ∃ d, signal_action g s = Some d ∧
        deliver fuel g = Ret (delivered d (drop_pending g (ignored ++ [s])), Some d)
    end.
Proof.
  revert g. induction fuel as [|fuel IH]; intros g Hlen; [lia|]. cbn [deliver]. unfold next_signal. fold (deliverable g).
  destruct (deliverable g) as [|s rest] eqn:Hg.
  { exists [], []. split_and!; [done|constructor|]. simpl. unfold drop_pending. do 2 f_equal. destruct g. unfold with_pending. cbn.
    f_equal. set_solver. }
  destruct (deliverable_take _ _ _ Hg) as [Hs Hrest]. cbn [head]. cbv zeta.
  change (signal_action (with_pending g (sg_pending g ∖ {[s]})) s) with (signal_action g s).
  destruct (signal_action g s) as [d|] eqn:Ha.
  - exists [], (s :: rest). split_and!; [done|constructor|]. exists d. split; [done|].
    cbn [app]. rewrite <-(drop_pending_cons g s []). assert (Hnil : ∀ g, drop_pending g [] = g).
    { intros []. unfold drop_pending, with_pending. cbn. f_equal. set_solver. }
    rewrite Hnil. by destruct d.
  - destruct (IH (with_pending g (sg_pending g ∖ {[s]}))) as (ignored & tail & Hd & Hi & Ht).
    { rewrite Hrest. simpl in Hlen. lia. }
    rewrite Hrest in Hd. exists (s :: ignored), tail. split_and!; [by rewrite Hd|by constructor|].
    destruct tail as [|x tail].
    + by rewrite Ht, drop_pending_cons.
    + destruct Ht as (d & Hx & Ht). exists d. split; [done|]. by rewrite Ht, drop_pending_cons.
Qed.

Lemma deliverable_length g : (length (deliverable g) < 12)%nat.
Proof.
  unfold deliverable. destruct (sg_handling_signal g); (eapply Nat.le_lt_trans; [apply length_filter|]); simpl; lia.
Qed.

Lemma deliver_total g : ∃ g' d, deliver 12 g = Ret (g', d).
Proof.
  destruct (deliver_spec 12 g (deliverable_length g)) as (ignored & rest & _ & _ & Hr).
  destruct rest as [|s rest]; [rewrite Hr; eauto|]. destruct Hr as (d & _ & ->). eauto.
Qed.

Section active.
Context (h : list Z) (b : Z).
Notation safe := (safe False h b).

Lemma safe_cancel_events : safe cancel_events.
Proof. unfold cancel_events. apply safe_bind; [apply safe_current|]. intros p. apply safe_modify. intros s Hs. by apply good_clock. Qed.

Lemma safe_signals f : safe (update_current (λ p, with_signals p (f p))).
Proof. by apply safe_update_context. Qed.

Lemma safe_take_delivery : safe take_signal_delivery.
Proof.
  unfold take_signal_delivery. apply safe_bind; [apply safe_current|]. intros p. apply safe_bind.
  { apply safe_run. intros s _. by destruct (deliver_total (ps_signals p)) as (g & d & ->). }
  intros taken. apply safe_bind; [apply safe_signals|intros _].
  apply safe_bind; [|intros _; apply safe_ret]. repeat case_match; try apply safe_ret. apply safe_cancel_events.
Qed.

Lemma safe_finish_handler : safe finish_signal_handler.
Proof. apply safe_signals. Qed.

Lemma steady_mark_termination pid signal : steady (processes_do (λ t, mark_signal_termination t pid signal)).
Proof.
  apply (steady_record (OpMarkSignal pid signal)). intros t Ht q. by apply update_live.
Qed.

Lemma safe_take_default : safe take_default_termination.
Proof.
  unfold take_default_termination. apply safe_bind; [apply safe_current|]. intros p.
  destruct (default_termination _); [|apply safe_ret]. apply safe_bind; [apply safe_signals|intros _].
  apply safe_bind; [apply safe_cancel_events|intros _].
  apply safe_bind; [apply steady_safe, steady_mark_termination|intros _; apply safe_ret].
Qed.

Lemma safe_stop_active signal : safe (stop_active_process signal).
Proof.
  unfold stop_active_process. apply safe_bind; [apply safe_current|]. intros p. apply steady_safe, steady_stop_process.
Qed.

End active.

(** ** The memory of a context *)

Lemma context_in_held (states : gmap Z ProcessState) pid p : states !! pid = Some p →
  (∀ q x, states !! q = Some x → context_ok q x) → context_bytes p ≤ map_sum (λ _ p, context_bytes p) states.
Proof.
  intros Hp Hc. rewrite (map_sum_ext _ (λ _ p, Z.max 0 (context_bytes p))).
  - pose proof (map_sum_elem_le (λ _ p, Z.max 0 (context_bytes p)) states pid p) as Hle. cbv beta in Hle.
    specialize (Hle (λ _ _, Z.le_max_l _ _) Hp). lia.
  - intros q x Hx. pose proof (context_bytes_nonneg _ _ (Hc q x Hx)). lia.
Qed.

Lemma sound_reserved h b s : sound h b s → 0 ≤ reserved s.
Proof.
  intros Hs. unfold reserved. rewrite (map_sum_ext _ (λ _ _, PIPE_RESERVATION)); [by apply map_sum_nonneg|].
  intros i x Hx. by destruct (gs_pipes _ _ _ Hs i x Hx).
Qed.

(** What a context gives back is what it holds: the sums do not saturate. *)
Lemma held_bytes_exact h b s pid p : sound h b s → m_states s !! pid = Some p → held_bytes p = context_bytes p.
Proof.
  intros Hs Hp. pose proof (sound_reserved _ _ _ Hs).
  pose proof (context_in_held _ _ _ Hp (gs_contexts _ _ _ Hs)) as Hle.
  destruct (gs_contexts _ _ _ Hs _ _ Hp) as (_ & ? & ? & ? & ?). pose proof (gs_base _ _ _ Hs).
  destruct (gs_limit _ _ _ Hs) as [Hl Hm]. rewrite (gs_memory _ _ _ Hs) in Hl. unfold held in Hl.
  unfold held_bytes, context_bytes, sat_add64 in *. lia.
Qed.

Definition reserved_ok (r : Reservations) : Prop := 0 ≤ rv_fork r ∧ 0 ≤ rv_exec r ∧ 0 ≤ rv_state r ∧ 0 ≤ rv_expansion r.

(** The active context takes over memory of the machine, or hands it over. *)
Lemma good_reserve h b b' s p r : good h b s → m_states s !! m_active s = Some p → reserved_ok r →
  b' = b + context_bytes p - context_bytes (with_reserved p r) → 0 ≤ b' →
  good h b' (set_states s (<[m_active s := with_reserved p r]> (m_states s))).
Proof.
  intros Hs Hp Hr Hb Hb'. pose proof (insert_dom (m_states s) (m_active s) (with_reserved p r)) as Hdom.
  assert (Hctx : ∀ q x, <[m_active s := with_reserved p r]> (m_states s) !! q = Some x → context_ok q x).
  { intros q x [[<- <-]|[_ Hx]]%lookup_insert_Some; [|by apply (gd_contexts Hs)].
    destruct (gd_contexts Hs _ _ Hp) as [Hpid _]. by split. }
  open_good Hs. close_good; cbn [m_states set_states].
  - destruct Gdesc as [U HU]. exists U. unfold arena_of. cbn [m_descriptors m_states set_states].
    rewrite fmap_insert, insert_id; [done|]. by rewrite lookup_fmap, Hp.
  - cbn [m_resources set_states]. unfold held, reserved in *. cbn [m_states m_pipe_reservations set_states].
    rewrite (map_sum_replace _ _ _ _ _ Hp). cbv beta. lia.
  - intros q Hq. apply Hdom; [by eexists|]. by apply Gtasks.
  - intros q Hq. apply Gprocesses, Hdom; [by eexists|done].
  - cbn [m_active set_states]. rewrite lookup_insert_eq. by eexists.
Qed.

Lemma set_reserved_eq f s p : m_states s !! m_active s = Some p →
  set_reserved f s = Ret (set_states s (<[m_active s := with_reserved p (f (ps_reserved p))]> (m_states s)), tt).
Proof.
  intros Hp. unfold set_reserved, update_current, current, modify, mbind, stm_bind. by rewrite Hp.
Qed.

Lemma good_eq h b b' s : good h b s → b = b' → good h b' s.
Proof. by intros ? <-. Qed.

Section memory.
Context (h : list Z) (b : Z).
Notation safe := (safe False h b).

Lemma wpm_set_reserved b' b'' f s p Q : good h b' s → m_states s !! m_active s = Some p →
  reserved_ok (f (ps_reserved p)) → b'' = b' + context_bytes p - context_bytes (with_reserved p (f (ps_reserved p))) →
  0 ≤ b'' → (∀ s', good h b'' s' → Q tt s') → wpm False (set_reserved f) s Q.
Proof.
  intros Hs Hp Hr Hb Hb' HQ. unfold wpm. rewrite (set_reserved_eq _ _ _ Hp). apply HQ. by eapply good_reserve.
Qed.

(** Memory returned before the context says so. *)
Lemma wpm_give_back n f s p Q : good h b s → m_states s !! m_active s = Some p → reserved_ok (f (ps_reserved p)) →
  n = context_bytes p - context_bytes (with_reserved p (f (ps_reserved p))) → 0 ≤ n →
  (∀ s', good h b s' → Q s') → wpm False (_ ← release_bytes n; set_reserved f) s (λ _ s', Q s').
Proof.
  intros Hs Hp Hr Hn Hn' HQ. pose proof (gd_base Hs).
  pose proof (good_reserve h b (b + n) s p _ Hs Hp Hr ltac:(lia) ltac:(lia)) as Hg.
  pose proof (wpm_release False h b n _ (λ _ s', Q s') Hg ltac:(lia) Hn') as Hw.
  unfold wpm, release_bytes, modify in Hw. unfold wpm, mbind, stm_bind, release_bytes, modify.
  rewrite (set_reserved_eq _ _ p) by done. apply Hw. intros r Hgr. by apply HQ.
Qed.

Lemma active_ok s p : good h b s → m_states s !! m_active s = Some p → reserved_ok (ps_reserved p).
Proof. intros Hs Hp. by destruct (gd_contexts Hs _ _ Hp) as [_ Hr]. Qed.

Lemma safe_release_expansion : safe release_expansion_memory.
Proof.
  intros s Hs. apply wpm_bind, wpm_current; [|apply (gd_active _ _ _ Hs)]. intros p Hp.
  pose proof (active_ok s p Hs Hp) as (? & ? & ? & ?). pose proof (gd_base Hs).
  apply wpm_bind. eapply wpm_set_reserved; [exact Hs|exact Hp|done|reflexivity|unfold context_bytes; simpl; lia|].
  intros s' Hs'. apply (wpm_release _ h b); [|lia|done|done]. eapply good_eq; [exact Hs'|]. unfold context_bytes. simpl. lia.
Qed.

(** [sync_shell_memory] books the growth of the shell's state, and is refused without a trace. *)
Lemma safe_sync_memory : safe sync_shell_memory.
Proof.
  intros s Hs. apply wpm_bind, wpm_current; [|apply (gd_active _ _ _ Hs)]. intros p Hp. cbv zeta.
  pose proof (active_ok s p Hs Hp) as (? & ? & ? & ?). pose proof (gd_base Hs).
  set (target := sat_sub (state_bytes p) (rv_baseline (ps_reserved p))).
  assert (0 ≤ target) by (unfold target, sat_sub; lia).
  destruct (rv_state (ps_reserved p) <? target) eqn:Hlt; bool_to_prop.
  - apply wpm_bind. apply (wpm_reserve _ h b); [done|lia| |].
    + intros r Hr. cbn [negb]. apply wpm_bind. eapply (wpm_set_reserved _ b _ _ p); [exact Hr|exact Hp|done| |done|by intros].
      unfold context_bytes. simpl. lia.
    + intros r Hr. done.
  - pose proof (wpm_give_back (rv_state (ps_reserved p) - target) (λ r, with_state_reserved r target) s p
      (good h b) Hs Hp) as Hw.
    unfold wpm, mbind, stm_bind, release_bytes, modify, mret, stm_ret in Hw |- *. cbn [negb].
    rewrite (set_reserved_eq _ _ p) in Hw |- * by done. apply Hw; [done|unfold context_bytes; simpl; lia|lia|done].
Qed.

Lemma safe_release_exec : safe release_exec_metadata.
Proof.
  apply safe_bind; [apply safe_current|]. intros p0. destruct (_ =? 0); [apply safe_ret|].
  apply safe_bind; [apply safe_sync_memory|]. intros granted s Hs.
  apply wpm_bind, wpm_current; [|apply (gd_active _ _ _ Hs)]. intros p Hp.
  pose proof (active_ok s p Hs Hp) as (? & ? & ? & ?). pose proof (gd_base Hs).
  apply wpm_bind. eapply wpm_set_reserved; [exact Hs|exact Hp|done|reflexivity|unfold context_bytes; simpl; lia|].
  intros s' Hs'. apply (wpm_release _ h b); [|lia|done|done]. eapply good_eq; [exact Hs'|]. unfold context_bytes. simpl. lia.
Qed.

End memory.

(** ** Setting up a child *)

Lemma configured_same p cwd environment : ps_fds (configured p cwd environment) = ps_fds p ∧ same_holdings p (configured p cwd environment).
Proof. unfold configured. destruct cwd, environment; (split; [reflexivity|split; reflexivity]). Qed.

Lemma insert_alter (m : gmap Z ProcessState) pid p f : m !! pid = Some p → <[pid := f p]> m = alter f pid m.
Proof.
  intros Hp. apply map_eq. intros q. destruct (decide (q = pid)) as [->|Hne].
  - by rewrite lookup_insert_eq, lookup_alter_eq, Hp.
  - rewrite lookup_insert_ne, lookup_alter_ne by done. done.
Qed.

Lemma steady_update_record pid cwd env : steady (processes_do (λ t, Process.update_current t pid cwd env)).
Proof. apply (steady_record (OpUpdateCurrent pid cwd env)). intros t Ht q. by apply update_live. Qed.

Lemma steady_configure pid cwd environment : steady (configure_process pid cwd environment).
Proof.
  intros h b s Hs. unfold configure_process. apply wpm_bind. unfold wpm at 1, gets.
  destruct (m_states s !! pid) as [p|] eqn:Hp; [|done]. cbv zeta. apply wpm_bind. unfold wpm at 1, modify.
  rewrite (insert_alter _ _ _ (λ p, configured p cwd environment)) by done. rewrite alter_imap.
  set (s1 := set_states _ _).
  assert (H1 : sound h b s1).
  { apply sound_contexts; [done|]. intros q x. case_decide; [apply configured_same|done]. }
  pose proof (kept_contexts s (λ q p, if decide (q = pid) then configured p cwd environment else p)) as Hk. cbv beta in Hk. change (kept s s1) in Hk.
  clearbody s1. apply wpm_bind. eapply wpm_mono; [by apply steady_update_record|]. intros [] s2 [H2 Hk2].
  split; [done|]. etransitivity; [exact Hk|exact Hk2].
Qed.
