(* ===== verification/ExpandInv.v ===== *)
(** * Expanding a word returns and keeps the machine

    Whatever the word, expansion returns: its loops advance, its recursion is on shorter text, and
    nothing in it panics. It keeps the invariant of the machine, books what it charges to the
    context, and changes nothing else but variables, the current directory, the last status, the
    error it records and the diagnostics it writes. *)

From stdpp Require Import pretty.
From S2P Require Import Prelude.
From S2P Require Import RustStr.
From S2P Require Import Arith.
From S2P Require Import ArithSpec.
From S2P Require Import State.
From S2P Require Import Resources.
From S2P Require Import Variables.
From S2P Require Import Descriptors.
From S2P Require Import Clock.
From S2P Require Import Process.
From S2P Require Import Scheduler.
From S2P Require Import Vfs.
From S2P Require Import ProcessState.
From S2P Require Import ShellVars.
From S2P Require Import ExpandText.
From S2P Require Import ExpandTextSpec.
From S2P Require Import Machine.
From S2P Require Import Kernel.
From S2P Require Import Expand.
From S2P Require Import KernelInv.
From S2P Require Import KernelSafe.
From S2P Require Import LifecycleInv.

(** ** What expansion leaves alone in a context *)

Definition fixed_shell (sh : ShellState) :=
  (sh_exported sh, sh_readonly sh, sh_options sh, sh_command_hash sh, sh_directory_stack sh, sh_funcs sh,
   (sh_local_scopes sh, sh_aliases sh, sh_arg0 sh, sh_positional sh, sh_flags sh, sh_jobs sh, sh_next_job sh),
   (sh_control sh, sh_input sh, sh_input_pos sh, sh_local_saved sh, sh_frame_saved sh)).
Definition fixed_context (p : ProcessState) :=
  (ps_identity p, ps_umask p, ps_syscall_random p, ps_deadline_interrupt p, ps_fds p, ps_program p, ps_signals p,
   ps_detached p, fixed_shell (ps_shell p)).

Definition depth_of (p : ProcessState) : Z := sh_expansion_depth (ps_shell p).
Definition error_of (p : ProcessState) : option ShellExpansionError := sh_expansion_error (ps_shell p).

(** What a reservation may do: grow the part of expansions. *)
Definition grown (r r' : Reservations) : Prop :=
  (rv_fork r', rv_exec r', rv_baseline r', rv_state r') = (rv_fork r, rv_exec r, rv_baseline r, rv_state r) ∧
  rv_expansion r ≤ rv_expansion r'.

(** The first error recorded stays. *)
Definition error_stays (p p' : ProcessState) : Prop := ∀ e, error_of p = Some e → error_of p' = Some e.

Record kept_context (p p' : ProcessState) : Prop := {
  kc_fixed : fixed_context p' = fixed_context p;
  kc_reserved : grown (ps_reserved p) (ps_reserved p');
  kc_error : error_stays p p'
}.

#[export] Instance kept_context_order : PreOrder kept_context.
Proof.
  split.
  - intros p. split; [done|split; [done|lia]|by intros e].
  - intros p1 p2 p3 [H1 [R1 L1] E1] [H2 [R2 L2] E2]. split; [congruence|split; [congruence|lia]|].
    intros e He. auto.
Qed.

(** A change of the shell alone: no charge, and the nesting stays. *)
Definition shell_step (p p' : ProcessState) : Prop :=
  fixed_context p' = fixed_context p ∧ ps_reserved p' = ps_reserved p ∧ depth_of p' = depth_of p ∧ error_stays p p'.

#[export] Instance shell_step_order : PreOrder shell_step.
Proof.
  split; [by intros p; split_and!; try done; intros e|].
  intros p1 p2 p3 (H1 & R1 & D1 & E1) (H2 & R2 & D2 & E2). split_and!; [congruence|congruence|congruence|].
  intros e He. auto.
Qed.

(** A step that rewrites none of those fields. *)
Ltac plain_step := split; [reflexivity|split; [reflexivity|split; [reflexivity|intros err Herr; exact Herr]]].

Lemma get_var_step p name : shell_step p (get_var p name).1.
Proof. unfold get_var. cbv zeta. repeat (destruct (bool_decide _); [plain_step|]). plain_step. Qed.

Lemma set_var_step p name value : shell_step p (set_var p name value).
Proof.
  unfold set_var. cbv zeta. destruct (bool_decide (name = "RANDOM")); [plain_step|].
  destruct (bool_decide (name = "PWD")), (bool_decide (name = "OPTIND")); plain_step.
Qed.

(** A change of the arrays. *)
Lemma array_step p f : (∀ sh, ∃ arrays, f sh = set_arrays sh arrays) → shell_step p (with_sh p f).
Proof. intros Hf. destruct (Hf (ps_shell p)) as [arrays Ha]. unfold with_sh. rewrite Ha. plain_step. Qed.

Lemma ensure_indexed_arrays sh name : ∃ arrays, ensure_indexed sh name = set_arrays sh arrays.
Proof. unfold ensure_indexed. destruct (is_array sh name); [exists (sh_arrays sh); by destruct sh|by eexists]. Qed.

Lemma array_set_step p name key value : shell_step p (with_sh p (λ sh, array_set sh name key value)).
Proof.
  apply array_step. intros sh. unfold array_set. destruct (array_value sh name) as [[]|].
  - destruct (ensure_indexed_arrays sh name) as [arrays ->]. by eexists.
  - by eexists.
  - destruct (ensure_indexed_arrays sh name) as [arrays ->]. by eexists.
Qed.

Lemma resolve_index_step p name index : shell_step p (resolve_array_index p name index).1.
Proof.
  unfold resolve_array_index. destruct (0 <=? index); [done|].
  destruct (array_value (ps_shell p) name) as [[]|]; cbv zeta.
  - by destruct (_ <? 0).
  - pose proof (get_var_step p name). destruct (get_var p name) as [p' found]. by destruct (_ <? 0).
  - pose proof (get_var_step p name). destruct (get_var p name) as [p' found]. by destruct (_ <? 0).
Qed.

#[export] Program Instance context_frame : ArithFrame ProcessState := {| frame := shell_step |}.
Next Obligation.
  intros p name. simpl. pose proof (get_var_step p name). by destruct (get_var p name).
Qed.
Next Obligation.
  intros p name index. simpl. pose proof (resolve_index_step p name index).
  by destruct (resolve_array_index p name index) as [p' []].
Qed.
Next Obligation.
  intros p name value. simpl. destruct (is_readonly p name); [done|apply set_var_step].
Qed.
Next Obligation.
  intros p name index value. simpl. destruct (is_readonly p name); [done|].
  pose proof (resolve_index_step p name index). destruct (resolve_array_index p name index) as [p' [i|e]]; [|done].
  destruct (_ <? i); [done|]. cbn [fst] in *. etrans; [done|apply array_set_step].
Qed.

Lemma evaluate_step p expr : ∃ p' r, evaluate p expr = Ret (p', r) ∧ shell_step p p'.
Proof. destruct (evaluate_at_keeps MAX_RECURSION p expr) as (p' & r & He & Hf & _). by exists p', r. Qed.

Lemma record_step p error : shell_step p (with_sh p (insert_error error)).
Proof.
  unfold with_sh, insert_error. destruct (sh_expansion_error (ps_shell p)) as [e|] eqn:He; [destruct p; plain_step|].
  split_and!; try done. intros e. unfold error_of. by rewrite He.
Qed.

(** ** What expansion leaves alone in the machine *)

Definition fixed_machine (s : Machine) :=
  (m_vfs s, m_hostname s, m_clock s, m_processes s, m_scheduler s, m_descriptors s,
   (m_pipe_reservations s, m_terminal s, m_active s, m_next_temp_id s, m_pending_stdout s)).

Record only_shell (s s' : Machine) : Prop := {
  os_machine : fixed_machine s' = fixed_machine s;
  os_others : ∀ pid, pid ≠ m_active s → m_states s' !! pid = m_states s !! pid;
  os_active : ∀ p, m_states s !! m_active s = Some p →
    ∃ p', m_states s' !! m_active s = Some p' ∧ kept_context p p'
}.

Lemma fixed_active s s' : fixed_machine s' = fixed_machine s → m_active s' = m_active s.
Proof. intros H. by injection H. Qed.

#[export] Instance only_shell_order : PreOrder only_shell.
Proof.
  split.
  - intros s. split; [done|done|]. intros p Hp. by exists p.
  - intros s1 s2 s3 [M1 O1 A1] [M2 O2 A2]. pose proof (fixed_active _ _ M1) as Ha. split; [congruence| |].
    + intros pid Hp. rewrite O2 by congruence. auto.
    + intros p Hp. destruct (A1 p Hp) as (p2 & Hp2 & K1). rewrite <-Ha in Hp2. destruct (A2 _ Hp2) as (p3 & Hp3 & K2).
      exists p3. rewrite <-Ha. split; [done|by etrans].
Qed.

(** The nesting of the active context. *)
Definition depth_in (s : Machine) : option Z := depth_of <$> m_states s !! m_active s.

Section judgement.
Context (h : list Z) (b : Z).

(** [m] returns, keeps the machine and the nesting, and returns what satisfies [Q]. *)
Definition runs {A} (m : mach A) (Q : A → Prop) : Prop := ∀ s, good h b s →
  wpm False m s (λ a s', good h b s' ∧ only_shell s s' ∧ depth_in s' = depth_in s ∧ Q a).

Lemma runs_ret {A} (a : A) (Q : A → Prop) : Q a → runs (mret a) Q.
Proof. intros HQ s Hs. apply wpm_ret. split; [done|]. by split. Qed.

Lemma runs_bind {A B} (m : mach A) (k : A → mach B) Q R :
  runs m Q → (∀ a, Q a → runs (k a) R) → runs (m ≫= k) R.
Proof.
  intros Hm Hk s Hs. apply wpm_bind. eapply wpm_mono; [by apply Hm|]. intros a s1 (H1 & O1 & D1 & HQ).
  eapply wpm_mono; [by apply Hk|]. intros r s2 (H2 & O2 & D2 & HR).
  split; [done|]. split; [by etrans|]. split; [congruence|done].
Qed.

Lemma runs_weaken {A} (m : mach A) (Q R : A → Prop) : runs m Q → (∀ a, Q a → R a) → runs m R.
Proof. intros Hm HQ s Hs. eapply wpm_mono; [by apply Hm|]. intros a s1 (? & ? & ? & ?). auto. Qed.

(** The loop advances by [μ], and keeps [I]. *)
Lemma runs_loop {A} (I : A → Prop) (μ : A → nat) (body : A → mach (A * bool)) fuel a Q :
  (∀ a, I a → runs (body a) (λ r, if r.2 : bool then I r.1 ∧ (μ r.1 < μ a)%nat else Q r.1)) →
  I a → (μ a < fuel)%nat → runs (loop fuel body a) Q.
Proof.
  intros Hbody. revert a. induction fuel as [|fuel IH]; intros a HI Hf; [lia|]. cbn [loop].
  eapply runs_bind; [by apply Hbody|]. intros [a' []]; simpl; [|by apply runs_ret].
  intros [HI' Hμ]. apply IH; [done|lia].
Qed.

Lemma runs_gets {A} (f : Machine → A) : runs (gets f) (λ _, True).
Proof. intros s Hs. unfold wpm, gets. split; [done|]. by split. Qed.

Lemma runs_current : runs current (λ _, True).
Proof. intros s Hs. apply wpm_current; [|apply (gd_active _ _ _ Hs)]. intros p _. split; [done|]. by split. Qed.

Lemma runs_shell_get {A} (f : ShellState → A) : runs (shell_get f) (λ _, True).
Proof. eapply runs_bind; [apply runs_current|]. intros p _. by apply runs_ret. Qed.

Lemma update_current_eq f s p : m_states s !! m_active s = Some p →
  update_current f s = Ret (set_states s (<[m_active s := f p]> (m_states s)), tt).
Proof. intros Hp. unfold update_current, current, modify, mbind, stm_bind. by rewrite Hp. Qed.

Lemma only_shell_insert s p p' : m_states s !! m_active s = Some p → kept_context p p' →
  only_shell s (set_states s (<[m_active s := p']> (m_states s))).
Proof.
  intros Hp Hk. split; [done|by intros pid Hne; apply lookup_insert_ne|].
  intros x Hx. assert (x = p) as -> by congruence. exists p'. split; [apply lookup_insert_eq|done].
Qed.

Lemma step_kept p p' : shell_step p p' → kept_context p p'.
Proof. intros (Hf & Hr & _ & He). split; [done|by rewrite Hr|done]. Qed.

Lemma fixed_holdings p p' : fixed_context p' = fixed_context p → ps_fds p' = ps_fds p ∧ ps_identity p' = ps_identity p.
Proof. intros H. by injection H. Qed.

(** Put back a context that a step of the shell changed. *)
Lemma wpm_put s p p' (Q : unit → Machine → Prop) : good h b s → m_states s !! m_active s = Some p → shell_step p p' →
  (∀ s', good h b s' → only_shell s s' → depth_in s' = depth_in s → Q tt s') →
  wpm False (update_current (λ _, p')) s Q.
Proof.
  intros Hs Hp Hst HQ. unfold wpm. rewrite (update_current_eq _ _ _ Hp).
  pose proof Hst as (Hf & Hr & Hd & _). apply fixed_holdings in Hf as [Hfds Hi]. apply HQ.
  - eapply good_context; [done|exact Hp|done|by split].
  - by eapply only_shell_insert, step_kept.
  - unfold depth_in. cbn [m_states m_active set_states]. by rewrite lookup_insert_eq, Hp; simpl; rewrite Hd.
Qed.

Lemma runs_context {A} (f : ProcessState → ProcessState * A) Q :
  (∀ p, shell_step p (f p).1 ∧ Q (f p).2) → runs (on_context f) Q.
Proof.
  intros Hf s Hs. unfold on_context. apply wpm_bind, wpm_current; [|apply (gd_active _ _ _ Hs)]. intros p Hp.
  destruct (Hf p) as [Hst HQ]. destruct (f p) as [p' a]. apply wpm_bind.
  eapply wpm_put; [done|exact Hp|exact Hst|]. by intros s' H1 H2 H3.
Qed.

Lemma runs_modify f : (∀ s, good h b s → good h b (f s) ∧ fixed_machine (f s) = fixed_machine s ∧ m_states (f s) = m_states s) →
  runs (modify f) (λ _, True).
Proof.
  intros Hf s Hs. destruct (Hf s Hs) as (Hg & Hm & Hst). unfold wpm, modify. split; [done|]. split.
  - split; [done|by intros; rewrite Hst|]. intros p Hp. exists p. by rewrite Hst.
  - split; [|done]. unfold depth_in. by rewrite Hst, (fixed_active _ _ Hm).
Qed.

Lemma only_resources s r : only_shell s (set_resources s r).
Proof. split; [done|done|]. intros p Hp. by exists p. Qed.

Lemma runs_charge units : runs (charge units) (λ _, True).
Proof.
  intros s Hs. eapply wpm_charge; [exact Hs|]. intros r g Hr. split; [done|]. split; [apply only_resources|done].
Qed.

Lemma runs_charge_expansion n : 0 ≤ n → runs (charge_expansion n) (λ _, True).
Proof.
  intros Hn s Hs. unfold charge_expansion. apply wpm_bind. apply (wpm_reserve False h b); [done|done| |].
  2: { intros r Hr. apply wpm_ret. split; [done|]. split; [apply only_resources|done]. }
  intros r Hr. destruct (gd_active _ _ _ Hs) as [p Hp]. assert (Hp' : m_states (set_resources s r) !! m_active (set_resources s r) = Some p) by done.
  apply wpm_bind. unfold wpm. rewrite (update_current_eq _ _ _ Hp'). apply wpm_ret.
  destruct (gd_contexts Hr _ _ Hp') as (Hpid & H1 & H2 & H3 & H4).
  assert (He : sat_add64 (rv_expansion (ps_reserved p)) n = rv_expansion (ps_reserved p) + n).
  { pose proof (gd_memory Hr) as Hm. pose proof (gd_limit Hr) as Hl. pose proof (gd_base Hs).
    pose proof (sound_reserved _ _ _ (gd_sound _ _ _ Hr)) as Hres.
    pose proof (context_in_held _ _ _ Hp' (gd_contexts Hr)) as Hle. unfold held in Hm. unfold context_bytes in Hle at 1.
    unfold sat_add64. lia. }
  split; [|split; [|split; [|done]]].
  - eapply (good_reserve h (b + n) b _ p); [exact Hr|exact Hp'|split_and!; simpl; lia| |apply (gd_base Hs)].
    unfold context_bytes. simpl. lia.
  - split; [done|by intros pid Hne; apply lookup_insert_ne|]. intros x Hx. assert (x = p) as -> by (simpl in Hp'; congruence).
    exists (add_expansion n p). split; [apply lookup_insert_eq|]. split; [done| |by intros e].
    split; [done|]. simpl. lia.
  - unfold depth_in. cbn [m_states m_active set_states set_resources]. by rewrite lookup_insert_eq, Hp.
Qed.

(** ** Errors, parameters, arithmetic *)

Lemma runs_record message : runs (record_error message) (λ _, True).
Proof. apply runs_context. intros p. split; [apply record_step|done]. Qed.

Lemma runs_var name : runs (mach_var name) (λ _, True).
Proof. apply runs_context. intros p. split; [apply get_var_step|done]. Qed.

Lemma str_len_nonneg s : 0 ≤ str_len s.
Proof. unfold str_len. lia. Qed.

Lemma runs_charged value : runs (charged value) (λ _, True).
Proof. eapply runs_bind; [apply runs_charge_expansion, str_len_nonneg|]. intros. by apply runs_ret. Qed.

Lemma runs_scalar name : runs (scalar_value name) (λ _, True).
Proof.
  eapply runs_bind; [apply runs_var|]. intros [v|] _; [by apply runs_ret|].
  eapply runs_bind; [apply runs_shell_get|]. intros nounset _.
  eapply runs_bind; [|intros; by apply runs_ret].
  destruct (_ && _); [apply runs_record|by apply runs_ret].
Qed.

Lemma runs_eval expr : runs (eval_arith expr) (λ _, True).
Proof.
  intros s Hs. unfold eval_arith. apply wpm_bind, wpm_current; [|apply (gd_active _ _ _ Hs)]. intros p Hp.
  destruct (evaluate_step p expr) as (p' & r & He & Hst). apply wpm_bind. eapply wpm_total; [exact He|].
  apply wpm_bind. eapply wpm_put; [exact Hs|exact Hp|exact Hst|]. intros s1 H1 O1 D1.
  assert (Hrest : runs (match r with Ok value => mret value | Err error => _ ← record_error (describe error expr); mret 0 end) (λ _, True)).
  { destruct r; [by apply runs_ret|]. eapply runs_bind; [apply runs_record|]. intros. by apply runs_ret. }
  eapply wpm_mono; [by apply Hrest|]. intros v s2 (H2 & O2 & D2 & _). split; [done|]. split; [by etrans|].
  split; [congruence|done].
Qed.
End judgement.

(** ** Parts without recursion *)

Create HintDb expand_runs discriminated.
#[export] Hint Constants Opaque : expand_runs.
#[export] Hint Resolve runs_gets runs_current runs_shell_get runs_charge runs_charged runs_record runs_var runs_scalar
  runs_eval : expand_runs.

Lemma fine_ret h b {A} (a : A) : runs h b (mret a) (λ _, True).
Proof. by apply runs_ret. Qed.
Lemma fine_bind h b {A B} (m : mach A) (k : A → mach B) :
  runs h b m (λ _, True) → (∀ a, runs h b (k a) (λ _, True)) → runs h b (m ≫= k) (λ _, True).
Proof. intros Hm Hk. eapply runs_bind; [exact Hm|auto]. Qed.
#[export] Hint Resolve fine_ret : expand_runs.

(** Take a computation apart; the database holds what is known of its parts. *)
Ltac keep_running :=
  repeat lazymatch goal with
  | |- ∀ _, _ => intro
  | |- runs _ _ (mbind _ _) _ => apply fine_bind
  | |- runs _ _ (let _ := _ in _) _ => cbv zeta
  | |- runs _ _ (match ?x with _ => _ end) _ => destruct x eqn:?
  | |- runs _ _ _ _ => solve [auto 2 with expand_runs]
  end.

Section parts.
Context (h : list Z) (b : Z) (regex : string → option (string → bool)).
Context (upper lower upper_char lower_char : string → string).
Notation fine m := (runs h b m (λ _, True)).

Lemma fine_parse_slice spec : fine (parse_slice spec).
Proof. unfold parse_slice. keep_running. Qed.

Lemma fine_ifs : fine ifs_value.
Proof. unfold ifs_value. keep_running. Qed.

Lemma fine_join items : fine (join_star items).
Proof. pose proof fine_ifs. unfold join_star. keep_running. Qed.

Lemma fine_capture src : fine (run_capture src).
Proof.
  unfold run_capture. apply fine_bind; [apply runs_context; intros p; split; [plain_step|done]|]. intros _. cbv zeta.
  apply fine_bind; [|keep_running]. apply runs_modify. intros s Hs. split; [|done]. open_good Hs. by close_good.
Qed.

Lemma fine_glob_dir comp dir : fine (glob_dir regex comp dir).
Proof. unfold glob_dir. keep_running. Qed.

Lemma fine_glob_dirs comp dirs : fine (glob_dirs regex comp dirs).
Proof. pose proof (fine_glob_dir comp). induction dirs as [|dir dirs IH]; cbn [glob_dirs]; keep_running. Qed.

Lemma fine_glob_comps comps found : fine (glob_comps regex comps found).
Proof.
  pose proof fine_glob_dirs. revert found. induction comps as [|comp comps IH]; intros found; cbn [glob_comps]; keep_running.
Qed.

Lemma fine_glob pattern : fine (glob_vfs regex pattern).
Proof. pose proof fine_glob_comps. unfold glob_vfs. keep_running. Qed.

Lemma fine_glob_fields split fields : fine (glob_fields regex split fields).
Proof.
  pose proof fine_glob. induction fields as [|[field glob] fields IH]; cbn [glob_fields]; keep_running.
Qed.

Lemma fine_assemble parts split : fine (assemble regex parts split).
Proof. pose proof fine_glob_fields. pose proof fine_ifs. unfold assemble. keep_running. Qed.

Lemma fine_slice_items spec items : fine (slice_items spec items).
Proof. pose proof fine_parse_slice. unfold slice_items. keep_running. Qed.

Lemma fine_array_words want quoted name sub tail : fine (array_words want quoted name sub tail).
Proof. pose proof fine_slice_items. pose proof fine_join. unfold array_words. keep_running. Qed.

(** What a list expansion takes is something. *)
Definition taken {A} (r : option (A * nat)) : Prop := match r with Some (_, n) => (0 < n)%nat | None => True end.

Lemma runs_try_array chars quoted : runs h b (try_array_words chars quoted) taken.
Proof.
  unfold try_array_words. destruct chars as [|dollar [|c more]]; try by apply runs_ret.
  destruct (negb _); [by apply runs_ret|]. destruct (_ || _).
  { eapply runs_bind; [apply runs_shell_get|]. intros items _. destruct (_ && _).
    - eapply runs_bind; [apply fine_join|]. intros joined _. apply runs_ret. simpl. lia.
    - apply runs_ret. simpl. lia. }
  destruct (negb _); [by apply runs_ret|]. destruct (read_balanced _ _ _) as [inner consumed].
  destruct (array_reference inner) as [[[[want name] sub] tail]|]; [|by apply runs_ret].
  eapply runs_bind; [apply fine_array_words|]. intros words _. apply runs_ret. simpl. lia.
Qed.

Lemma fine_demand ok value name arg message : fine (demand ok value name arg message).
Proof. unfold demand. keep_running. Qed.

Lemma fine_charge_expansion n : 0 ≤ n → fine (charge_expansion n).
Proof. apply runs_charge_expansion. Qed.

Lemma sat_add64_nonneg x y : 0 ≤ x → 0 ≤ y → 0 ≤ sat_add64 x y.
Proof. pose proof (eq_refl : U64_MAX = 18446744073709551615). unfold sat_add64. lia. Qed.

Lemma fine_replace all arg v : fine (replace_value all arg v).
Proof.
  unfold replace_value. destruct (default _ _) as [pat rep]. destruct (bool_decide _); [keep_running|]. cbv zeta.
  apply fine_bind; [keep_running|]. intros [].
  - apply fine_bind; [|keep_running]. apply runs_charge_expansion. apply sat_add64_nonneg; [apply str_len_nonneg|].
    pose proof (eq_refl : U64_MAX = 18446744073709551615). unfold sat_mul64, sat_sub. destruct all; [|case_match]; lia.
  - keep_running.
Qed.

Lemma fine_param_op name op arg cur :
  fine (apply_param_op regex upper lower upper_char lower_char name op arg cur).
Proof.
  pose proof fine_demand. pose proof fine_replace. unfold apply_param_op. keep_running.
  apply runs_context. intros p. split; [apply set_var_step|done].
Qed.

Lemma fine_substring spec v : fine (substring_value spec v).
Proof. pose proof fine_parse_slice. unfold substring_value. keep_running. Qed.

(** The nesting goes up for the body and comes back. *)
Lemma wpm_set_depth s p d (Q : unit → Machine → Prop) : good h b s → m_states s !! m_active s = Some p →
  (∀ s', good h b s' → only_shell s s' → depth_in s' = Some d → Q tt s') →
  wpm False (on_context (λ p, (with_sh p (λ sh, set_expansion sh (sh_expansion_error sh) d), tt))) s Q.
Proof.
  intros Hs Hp HQ. unfold on_context. apply wpm_bind, wpm_current; [|by eexists]. intros x Hx.
  assert (x = p) as -> by congruence. cbv beta iota zeta. apply wpm_bind. unfold wpm.
  rewrite (update_current_eq _ _ _ Hp). apply wpm_ret. apply HQ.
  - eapply good_context; [done|exact Hp|done|done].
  - eapply only_shell_insert; [done|]. split; [done|split; [done|simpl; lia]|by intros e].
  - unfold depth_in. cbn [m_states m_active set_states]. by rewrite lookup_insert_eq.
Qed.

Lemma fine_descend body : fine body → fine (descend_expansion body).
Proof.
  intros Hb s Hs. destruct (gd_active _ _ _ Hs) as [p Hp]. unfold descend_expansion, shell_get.
  apply wpm_bind, wpm_bind, wpm_current; [|by eexists]. intros x Hx. assert (x = p) as -> by congruence. apply wpm_ret.
  cbv zeta. destruct (_ <=? _).
  { assert (Hrest : fine (_ ← record_error "parameter expansions are nested too deeply"; mret "")) by keep_running.
    by apply Hrest. }
  apply wpm_bind. eapply wpm_set_depth; [exact Hs|exact Hp|]. intros s1 H1 O1 D1.
  apply wpm_bind. eapply wpm_mono; [by apply Hb|]. intros value s2 (H2 & O2 & D2 & _).
  destruct (gd_active _ _ _ H2) as [p2 Hp2].
  apply wpm_bind, wpm_bind, wpm_current; [|by eexists]. intros x2 Hx2. assert (x2 = p2) as -> by congruence. apply wpm_ret.
  apply wpm_bind. eapply wpm_set_depth; [exact H2|exact Hp2|]. intros s3 H3 O3 D3. apply wpm_ret.
  split; [done|]. split; [by etrans; [exact O1|etrans; [exact O2|exact O3]]|]. split; [|done].
  rewrite D3. unfold depth_in in *. rewrite Hp2, D1 in D2. rewrite Hp. simpl in *. injection D2 as D2.
  unfold depth_of in *. f_equal. lia.
Qed.
End parts.

(** ** Text taken from text is shorter *)

(** The bytes of a list of characters. *)
Definition text_bytes (chars : list string) : nat := String.length (collect chars).

Lemma bytes_cons c chars : text_bytes (c :: chars) = (String.length c + text_bytes chars)%nat.
Proof. unfold text_bytes. by rewrite collect_cons, length_append. Qed.

Lemma bytes_app a b : text_bytes (a ++ b) = (text_bytes a + text_bytes b)%nat.
Proof. unfold text_bytes. by rewrite collect_app, length_append. Qed.

Lemma bytes_chars s : text_bytes (utf8_chars s) = String.length s.
Proof. unfold text_bytes. by rewrite collect_utf8_chars. Qed.

Lemma bytes_drop n chars : (text_bytes (drop n chars) ≤ text_bytes chars)%nat.
Proof. rewrite <-(take_drop n chars) at 2. rewrite bytes_app. lia. Qed.

Lemma take_app_drop_while {A} (f : A → bool) l : take_while f l ++ drop_while f l = l.
Proof. induction l as [|x l IH]; simpl; [done|]. destruct (f x); simpl; [by rewrite IH|done]. Qed.

Lemma bytes_while f chars : (text_bytes (take_while f chars) + text_bytes (drop_while f chars) = text_bytes chars)%nat.
Proof. by rewrite <-bytes_app, take_app_drop_while. Qed.

Lemma length_drop_while {A} (f : A → bool) l : (length (drop_while f l) ≤ length l)%nat.
Proof. induction l as [|x l IH]; simpl; [done|]. destruct (f x); simpl; lia. Qed.

Lemma read_balanced_short open close depth chars :
  (String.length (read_balanced_from open close depth chars).1 ≤ text_bytes chars)%nat.
Proof.
  revert depth. induction chars as [|c chars IH]; intros depth; cbn [read_balanced_from]; [done|]. rewrite bytes_cons.
  assert (Hmore : ∀ (keep : bool) d, (String.length (let '(text, n) := read_balanced_from open close d chars in
    ((if keep then c +:+ text else text), S n)).1 ≤ String.length c + text_bytes chars)%nat).
  { intros keep d. specialize (IH d). destruct (read_balanced_from open close d chars) as [text n]. simpl in *.
    destruct keep; rewrite ?length_append; lia. }
  destruct (bool_decide (c = open)); [apply Hmore|]. destruct (bool_decide (c = close)); [|exact (Hmore true _)].
  destruct (depth =? 1); [simpl; lia|exact (Hmore true _)].
Qed.

(** The opening delimiter is not part of the text. *)
Lemma read_balanced_inner open close more :
  (String.length (read_balanced (open :: more) open close).1 ≤ text_bytes more)%nat.
Proof.
  unfold read_balanced. cbn [read_balanced_from]. rewrite bool_decide_eq_true_2 by done.
  pose proof (read_balanced_short open close (0 + 1) more).
  by destruct (read_balanced_from open close (0 + 1) more).
Qed.

Lemma double_paren_short depth chars : (String.length (double_paren_from depth chars).1 ≤ text_bytes chars)%nat.
Proof.
  revert depth. induction chars as [|c chars IH]; intros depth; cbn [double_paren_from]; [done|]. rewrite bytes_cons.
  assert (Hmore : ∀ d, (String.length (let '(text, n) := double_paren_from d chars in (c +:+ text, S n)).1
    ≤ String.length c + text_bytes chars)%nat).
  { intros d. specialize (IH d). destruct (double_paren_from d chars) as [text n]. simpl in *. rewrite length_append. lia. }
  destruct (bool_decide (c = "(")); [apply Hmore|]. destruct (bool_decide (c = ")")); [|apply Hmore].
  destruct depth as [|[|depth]]; [simpl; lia|simpl; lia|apply Hmore].
Qed.

Lemma read_double_paren_inner chars : (String.length (read_double_paren chars).1 ≤ text_bytes (drop 2 chars))%nat.
Proof.
  unfold read_double_paren. pose proof (double_paren_short 1 (drop 2 chars)). by destruct (double_paren_from 1 (drop 2 chars)).
Qed.

Lemma strip_prefix_short prefix s rest : strip_prefix prefix s = Some rest → (String.length rest ≤ String.length s)%nat.
Proof. intros ->%strip_prefix_Some. rewrite length_append. lia. Qed.

Lemma split_once_short sep s l r : split_once sep s = Some (l, r) → (String.length l + String.length r < String.length s)%nat.
Proof. intros ->%split_once_Some. rewrite length_append. simpl. lia. Qed.

Lemma length_str_take_le n s : (String.length (str_take n s) ≤ String.length s)%nat.
Proof.
  destruct (le_lt_dec n (String.length s)) as [H|H]; [rewrite length_str_take; lia|].
  unfold str_take. revert n H. induction s as [|c s IH]; intros [|n] H; simpl in *; try lia.
  specialize (IH n). lia.
Qed.

Lemma strip_suffix_short suffix s rest : strip_suffix suffix s = Some rest → (String.length rest ≤ String.length s)%nat.
Proof. unfold strip_suffix. cbv zeta. case_match; [|done]. intros [= <-]. apply length_str_take_le. Qed.

Lemma parse_subscript_short s name sub : parse_subscript s = Some (name, sub) → (String.length sub ≤ String.length s)%nat.
Proof.
  unfold parse_subscript. destruct (split_once _ s) as [[n after]|] eqn:Hs; [|done]. simpl.
  destruct (strip_suffix _ after) as [x|] eqn:Hx; [|done]. simpl. destruct (is_name n); [|done]. intros [= <- <-].
  apply split_once_short in Hs. apply strip_suffix_short in Hx. lia.
Qed.

Lemma parse_subscript_tail_short s name sub tail : parse_subscript_tail s = Some (name, sub, tail) →
  (String.length sub + String.length tail ≤ String.length s)%nat.
Proof.
  unfold parse_subscript_tail. destruct (split_once _ s) as [[n after]|] eqn:Hs; [|done]. simpl.
  destruct (is_name n); [|done]. destruct (split_once _ after) as [[x y]|] eqn:Hx; [|done]. simpl. intros [= <- <- <-].
  apply split_once_short in Hs. apply split_once_short in Hx. lia.
Qed.

(** ** One level of the recursion *)

Section level.
Context (h : list Z) (b : Z) (regex : string → option (string → bool)).
Context (upper lower upper_char lower_char : string → string).
Context (rec_word : string → bool → mach (list string)) (rec_dollar : list string → mach (string * nat)).
Context (n : nat).
Notation fine m := (runs h b m (λ _, True)).
(** A [$] takes something. *)
Notation takes m := (runs h b m (λ r : string * nat, (0 < r.2)%nat)).
Context (fine_word : ∀ text split, (String.length text < n)%nat → fine (rec_word text split)).
Context (takes_dollar : ∀ chars, (text_bytes chars < n)%nat → takes (rec_dollar chars)).

Lemma fine_operand text : (String.length text < n)%nat → fine (expand_operand rec_word text).
Proof. intros Ht. pose proof (fine_word text false Ht). unfold expand_operand. keep_running. Qed.

Lemma fine_arith_subs_fuel fuel chars : (length chars ≤ fuel)%nat → (text_bytes chars < n)%nat →
  fine (arith_subs_fuel rec_dollar fuel chars).
Proof.
  revert chars. induction fuel as [|fuel IH]; intros [|c more] Hf Hb; cbn [arith_subs_fuel]; try by apply runs_ret.
  { simpl in Hf. lia. }
  cbn [length] in Hf. destruct (bool_decide _).
  - eapply runs_bind; [by apply takes_dollar|]. intros [value consumed] Hc. simpl in Hc.
    apply fine_bind; [|keep_running]. apply IH; [rewrite length_drop; cbn [length]; lia|].
    pose proof (bytes_drop consumed (c :: more)). lia.
  - rewrite bytes_cons in Hb. apply fine_bind; [apply IH; lia|keep_running].
Qed.

Lemma fine_arith_subs expr : (String.length expr < n)%nat → fine (expand_arith_subs rec_dollar expr).
Proof. intros He. unfold expand_arith_subs. cbv zeta. apply fine_arith_subs_fuel; [done|by rewrite bytes_chars]. Qed.

Lemma fine_op_from_rest name rest cur : (String.length rest < n)%nat →
  fine (apply_op_from_rest regex upper lower upper_char lower_char rec_word name rest cur).
Proof.
  intros Hr. unfold apply_op_from_rest. destruct (find _ _) as [op|].
  - apply fine_bind; [apply fine_operand; rewrite length_str_drop; lia|]. intros arg. apply fine_param_op.
  - destruct (strip_prefix _ _); [apply fine_substring|keep_running].
Qed.

Lemma fine_length rest : (String.length rest < n)%nat → fine (expand_length rec_word rest).
Proof.
  intros Hr. unfold expand_length. destruct (parse_subscript rest) as [[name sub]|] eqn:Hp.
  - apply parse_subscript_short in Hp. destruct (_ || _); [keep_running|].
    apply fine_bind; [apply fine_operand; lia|keep_running].
  - keep_running.
Qed.

Lemma fine_param inner : (String.length inner < n)%nat →
  fine (expand_param regex upper lower upper_char lower_char rec_word inner).
Proof.
  intros Hi. unfold expand_param. destruct (strip_prefix "#" inner) as [rest|] eqn:Hs.
  { apply strip_prefix_short in Hs. apply fine_length. lia. }
  destruct (parse_subscript_tail inner) as [[[name sub] tail]|] eqn:Hp.
  - apply parse_subscript_tail_short in Hp. apply fine_bind; [apply fine_operand; lia|]. intros key.
    apply fine_bind; [keep_running|]. intros cur. destruct (bool_decide _); [keep_running|apply fine_op_from_rest; lia].
  - cbv zeta. apply fine_bind; [keep_running|]. intros cur. destruct (bool_decide _); [keep_running|].
    apply fine_op_from_rest. pose proof (bytes_while param_name_char (utf8_chars inner)) as Hb.
    rewrite bytes_chars in Hb. unfold text_bytes in Hb. lia.
Qed.

Lemma takes_plain part chars : takes (plain_parameter part chars).
Proof.
  unfold plain_parameter. cbv zeta. eapply runs_bind; [apply runs_scalar|]. intros value _. apply runs_ret. simpl. lia.
Qed.

Lemma fine_dollar chars : (text_bytes chars ≤ n)%nat →
  takes (expand_dollar regex upper lower upper_char lower_char rec_word rec_dollar chars).
Proof.
  intros Hb. unfold expand_dollar. destruct chars as [|d [|c more]]; [apply runs_ret; simpl; lia..|].
  rewrite !bytes_cons in Hb. case_bool_decide as Hp; [subst c|].
  - destruct (bool_decide (head more = _)).
    + pose proof (read_double_paren_inner (drop 1 (d :: "(" :: more))) as Hr.
      destruct (read_double_paren _) as [inner consumed]. cbn [drop skipn fst] in Hr. simpl in Hb.
      pose proof (bytes_drop 1 more). eapply runs_bind; [apply fine_arith_subs; simpl in *; lia|]. intros expanded _.
      eapply runs_bind; [apply runs_eval|]. intros value _. apply runs_ret. simpl. lia.
    + destruct (read_balanced _ _ _) as [inner consumed]. eapply runs_bind; [apply fine_capture|].
      intros out _. apply runs_ret. simpl. lia.
  - case_bool_decide as Hc; [subst c|].
    + pose proof (read_balanced_inner "{" "}" more) as Hr. cbn [drop skipn].
      destruct (read_balanced _ _ _) as [inner consumed]. simpl in Hr, Hb.
      eapply runs_bind; [apply fine_descend, fine_param; lia|]. intros value _. apply runs_ret. simpl. lia.
    + destruct (bool_decide _). { eapply runs_bind; [apply runs_scalar|]. intros value _. apply runs_ret. simpl. lia. }
      destruct (name_head c); [apply takes_plain|]. destruct (is_ascii_digit c); [apply takes_plain|].
      apply runs_ret. simpl. lia.
Qed.

(** What every round of a word keeps: the rest is a rest. *)
Definition rest_of (chars rest : list string) : Prop := (text_bytes rest ≤ n)%nat ∧ (length rest < length chars)%nat.

Lemma rest_drop k chars : (0 < k)%nat → (0 < length chars)%nat → (text_bytes chars ≤ n)%nat → rest_of chars (drop k chars).
Proof. intros Hk Hl Hb. split; [etrans; [apply bytes_drop|done]|]. rewrite length_drop. lia. Qed.

Lemma rest_more c more : (text_bytes (c :: more) ≤ n)%nat → rest_of (c :: more) more.
Proof. rewrite bytes_cons. intros Hb. split; [lia|simpl; lia]. Qed.

Lemma rest_two c d more : (text_bytes (c :: d :: more) ≤ n)%nat → rest_of (c :: d :: more) more.
Proof. rewrite !bytes_cons. intros Hb. split; [lia|simpl; lia]. Qed.

Lemma rest_while c more f : (text_bytes (c :: more) ≤ n)%nat → rest_of (c :: more) (drop 1 (drop_while f more)).
Proof.
  rewrite bytes_cons. intros Hb. pose proof (bytes_while f more). pose proof (bytes_drop 1 (drop_while f more)).
  pose proof (length_drop_while f more). split; [lia|]. rewrite length_drop. simpl. lia.
Qed.

Lemma rest_nil c more : rest_of (c :: more) [].
Proof. split; [cbn; lia|simpl; lia]. Qed.

Lemma splice_rest d items : db_rest (splice d items) = db_rest d.
Proof.
  destruct items as [|item items]; simpl; [done|].
  assert (H : ∀ d', db_rest (foldl next_item d' items) = db_rest d').
  { induction items as [|x items IH]; intros d'; simpl; [done|]. by rewrite IH. }
  by rewrite H.
Qed.

Lemma sum_len_nonneg items : 0 ≤ foldr (λ item total, str_len item + total) 0 items.
Proof. induction items as [|x items IH]; simpl; [done|]. pose proof (str_len_nonneg x). lia. Qed.

Lemma runs_double_dollar d : (0 < length (db_rest d))%nat → (text_bytes (db_rest d) ≤ n)%nat →
  runs h b (double_dollar regex upper lower upper_char lower_char rec_word rec_dollar d) (λ d', rest_of (db_rest d) (db_rest d')).
Proof.
  intros Hl Hb. unfold double_dollar. eapply runs_bind; [apply runs_try_array|]. intros [[items consumed]|] Hc; simpl in Hc.
  - eapply runs_bind; [apply fine_charge_expansion, sum_len_nonneg|]. intros granted _. apply runs_ret.
    pose proof (rest_drop consumed _ Hc Hl Hb). destruct granted; [by rewrite splice_rest|done].
  - eapply runs_bind; [by apply fine_dollar|]. intros [value consumed'] Hc'.
    eapply runs_bind; [apply runs_charged|]. intros v _. apply runs_ret. simpl. by apply rest_drop.
Qed.

Lemma runs_double_step d : (text_bytes (db_rest d) ≤ n)%nat →
  runs h b (double_step regex upper lower upper_char lower_char rec_word rec_dollar d)
    (λ r, if r.2 : bool then (text_bytes (db_rest r.1) ≤ n)%nat ∧ (length (db_rest r.1) < length (db_rest d))%nat
          else (text_bytes (db_rest r.1) ≤ n)%nat ∧ (length (db_rest r.1) ≤ length (db_rest d))%nat).
Proof.
  intros Hb. unfold double_step. eapply runs_bind; [apply runs_gets|]. intros stopped _.
  destruct (db_rest d) as [|c more] eqn:Hd. { apply runs_ret. simpl. rewrite Hd. simpl. split; [done|lia]. }
  destruct stopped. { apply runs_ret. simpl. rewrite Hd. split; [done|simpl; lia]. }
  pose proof (rest_more c more Hb) as Hmore. destruct (bool_decide (c = dquote)).
  { apply runs_ret. simpl. destruct Hmore as [H1 H2]. simpl in H2. split; [done|lia]. }
  destruct (bool_decide (c = "\")).
  { apply runs_ret. destruct more as [|m rest]; [apply rest_nil|].
    destruct (bool_decide (m ∈ double_escapes)); [by apply rest_two|exact Hmore]. }
  destruct (bool_decide (c = "$")).
  { eapply runs_bind; [apply runs_double_dollar; [rewrite Hd; simpl; lia|by rewrite Hd]|]. intros d' Hd'. rewrite Hd in Hd'.
    by apply runs_ret. }
  destruct (bool_decide (c = "`")); [|by apply runs_ret].
  eapply runs_bind; [apply fine_capture|]. intros captured _. eapply runs_bind; [apply runs_charged|]. intros v _.
  apply runs_ret. by apply rest_while.
Qed.

Lemma runs_expand_double chars : (text_bytes chars ≤ n)%nat →
  runs h b (expand_double regex upper lower upper_char lower_char rec_word rec_dollar chars)
    (λ r, (text_bytes r.2 ≤ n)%nat ∧ (length r.2 ≤ length chars)%nat).
Proof.
  intros Hb. unfold expand_double.
  eapply (runs_bind h b _ _ (λ d, (text_bytes (db_rest d) ≤ n)%nat ∧ (length (db_rest d) ≤ length chars)%nat)); [|intros d Hd; by apply runs_ret].
  eapply (runs_loop h b (λ d, (text_bytes (db_rest d) ≤ n)%nat ∧ (length (db_rest d) ≤ length chars)%nat) (λ d, length (db_rest d))).
  - intros d [H1 H2]. eapply runs_weaken; [by apply runs_double_step|]. intros [d' []]; simpl; intros [H3 H4].
    + split; [split; [done|lia]|done].
    + split; [done|lia].
  - simpl. split; [done|lia].
  - simpl. lia.
Qed.

Lemma flush_rest w : wd_rest (flush w) = wd_rest w.
Proof. unfold flush. by destruct (bool_decide _). Qed.

Lemma runs_word_dollar w : (0 < length (wd_rest w))%nat → (text_bytes (wd_rest w) ≤ n)%nat →
  runs h b (word_dollar regex upper lower upper_char lower_char rec_word rec_dollar w) (λ w', rest_of (wd_rest w) (wd_rest w')).
Proof.
  intros Hl Hb. unfold word_dollar. eapply runs_bind; [apply runs_try_array|]. intros [[items consumed]|] Hc; simpl in Hc.
  - cbv zeta. eapply runs_bind; [apply runs_charged|]. intros joined _. apply runs_ret. simpl. by apply rest_drop.
  - eapply runs_bind; [by apply fine_dollar|]. intros [value consumed'] Hc'.
    eapply runs_bind; [apply runs_charged|]. intros v _. apply runs_ret. simpl. by apply rest_drop.
Qed.

Lemma runs_word_step w : (text_bytes (wd_rest w) ≤ n)%nat →
  runs h b (word_step regex upper lower upper_char lower_char rec_word rec_dollar w)
    (λ r, if r.2 : bool then (text_bytes (wd_rest r.1) ≤ n)%nat ∧ (length (wd_rest r.1) < length (wd_rest w))%nat else True).
Proof.
  intros Hb. unfold word_step. eapply runs_bind; [apply runs_gets|]. intros stopped _.
  destruct (wd_rest w) as [|c more] eqn:Hw; [by apply runs_ret|]. destruct stopped; [by apply runs_ret|].
  pose proof (rest_more c more Hb) as Hmore. destruct (bool_decide (c = "\")).
  { apply runs_ret. destruct more as [|m rest]; [apply rest_nil|by apply rest_two]. }
  destruct (bool_decide (c = "'")); [apply runs_ret; by apply rest_while|].
  destruct (bool_decide (c = dquote)).
  { destruct Hmore as [H1 H2]. eapply runs_bind; [by apply runs_expand_double|]. intros [parts rest] [H3 H4].
    apply runs_ret. simpl in *. split; [done|lia]. }
  destruct (bool_decide (c = "$")).
  { eapply runs_bind; [apply runs_word_dollar; [rewrite Hw; simpl; lia|by rewrite Hw]|]. intros w' Hw'. rewrite Hw in Hw'.
    by apply runs_ret. }
  destruct (bool_decide (c = "`")).
  { eapply runs_bind; [apply fine_capture|]. intros out _. eapply runs_bind; [apply runs_charged|]. intros v _.
    apply runs_ret. by apply rest_while. }
  destruct (_ || _); by apply runs_ret.
Qed.

Lemma runs_tilde chars : (text_bytes chars ≤ n)%nat →
  runs h b (tilde chars) (λ w, (text_bytes (wd_rest w) ≤ n)%nat ∧ (length (wd_rest w) ≤ length chars)%nat).
Proof.
  intros Hb. unfold tilde. destruct chars as [|c more]; [apply runs_ret; simpl; split; [done|lia]|].
  destruct (bool_decide (c = "~")); [|apply runs_ret; simpl; split; [done|lia]].
  eapply runs_bind; [apply runs_var|]. intros home _. apply runs_ret. rewrite bytes_cons in Hb.
  destruct more as [|m rest]; [simpl; split; [|lia]; lia|].
  destruct (bool_decide (m = "/")); cbn [wd_rest length]; [split; [lia|lia]|]. split; [by rewrite bytes_cons|lia].
Qed.

Lemma fine_parts word : (String.length word ≤ n)%nat →
  fine (expand_to_parts regex upper lower upper_char lower_char rec_word rec_dollar word).
Proof.
  intros Hw. unfold expand_to_parts. cbv zeta. eapply runs_bind; [apply runs_tilde; by rewrite bytes_chars|].
  intros w [H1 H2]. apply fine_bind; [|keep_running].
  eapply (runs_loop h b (λ w, (text_bytes (wd_rest w) ≤ n)%nat) (λ w, length (wd_rest w))); [|done|lia].
  intros w' H'. by apply runs_word_step.
Qed.

Lemma fine_each words split : Forall (λ word, (String.length word ≤ n)%nat) words →
  fine (expand_each regex upper lower upper_char lower_char rec_word rec_dollar words split).
Proof.
  induction 1 as [|word words Hw Hws IH]; cbn [expand_each]; [keep_running|].
  apply fine_bind; [by apply fine_parts|]. intros parts. apply fine_bind; [apply fine_assemble|keep_running].
Qed.

Lemma fine_word_body word split : (String.length word ≤ n)%nat →
  fine (expand_word_body regex upper lower upper_char lower_char rec_word rec_dollar word split).
Proof.
  intros Hw. apply fine_each, Forall_forall. intros x Hx. apply brace_expand_shorter in Hx. lia.
Qed.

End level.

(** ** Every level *)

Section all_levels.
Context (h : list Z) (b : Z) (regex : string → option (string → bool)).
Context (upper lower upper_char lower_char : string → string).
Notation levels := (expand_at regex upper lower upper_char lower_char).
Notation fine m := (runs h b m (λ _, True)).

Lemma fine_levels n :
  (∀ text split, (String.length text < n)%nat → fine ((levels n).1 text split)) ∧
  (∀ chars, (text_bytes chars < n)%nat → runs h b ((levels n).2 chars) (λ r, (0 < r.2)%nat)).
Proof.
  induction n as [|n [IHw IHd]]; [split; intros; lia|]. cbn [expand_at]. destruct (levels n) as [word dollar]. split.
  - intros text split Ht. apply (fine_word_body _ _ _ _ _ _ _ _ _ n); [done|done|]. simpl in *. lia.
  - intros chars Hb. apply (fine_dollar _ _ _ _ _ _ _ _ _ n); [done|done|]. simpl in *. lia.
Qed.

Lemma fine_expand_word word split : fine (expand_word regex upper lower upper_char lower_char word split).
Proof. unfold expand_word. apply fine_levels. lia. Qed.

Lemma fine_expand_words words : fine (expand_words regex upper lower upper_char lower_char words).
Proof.
  pose proof fine_expand_word. induction words as [|word words IH]; cbn [expand_words]; keep_running.
Qed.
End all_levels.
