(* ===== verification/ExpandSpec.v ===== *)
(** * What quoting guarantees (src/src/expand.rs)

    Single-quoted text stands for itself, and a quoted list keeps its items, whatever the text, the
    items and IFS hold. *)

From stdpp Require Import pretty.
From S2P Require Import Prelude.
From S2P Require Import RustStr.
From S2P Require Import Resources.
From S2P Require Import Variables.
From S2P Require Import ProcessState.
From S2P Require Import ShellVars.
From S2P Require Import ExpandText.
From S2P Require Import ExpandTextSpec.
From S2P Require Import State.
From S2P Require Import Machine.
From S2P Require Import Kernel.
From S2P Require Import Expand.
From S2P Require Import KernelInv.
From S2P Require Import KernelSafe.
From S2P Require Import ExpandInv.
From S2P Require Import BootInv.
From S2P Require Import Boot.

(** ** Running a computation *)

Lemma step_bind {A B} (m : mach A) (k : A → mach B) s s1 a : m s = Ret (s1, a) → (m ≫= k) s = k a s1.
Proof. intros Hm. unfold mbind, stm_bind. by rewrite Hm. Qed.

Lemma step_into {A B} (m : mach A) (k : A → mach B) s s1 a r : m s = Ret (s1, a) → k a s1 = r → (m ≫= k) s = r.
Proof. intros Hm <-. by apply step_bind. Qed.

Lemma step_current s p : m_states s !! m_active s = Some p → current s = Ret (s, p).
Proof. intros Hp. unfold current. by rewrite Hp. Qed.

Lemma step_shell_get {A} (f : ShellState → A) s p : m_states s !! m_active s = Some p →
  shell_get f s = Ret (s, f (ps_shell p)).
Proof. intros Hp. unfold shell_get. by rewrite (step_bind _ _ _ _ _ (step_current _ _ Hp)). Qed.

Lemma states_self s : set_states s (m_states s) = s.
Proof. by destruct s. Qed.

(** A method that changes nothing in the context changes nothing in the machine. *)
Lemma step_context {A} (f : ProcessState → ProcessState * A) s p a :
  m_states s !! m_active s = Some p → f p = (p, a) → on_context f s = Ret (s, a).
Proof.
  intros Hp Hf. unfold on_context. rewrite (step_bind _ _ _ _ _ (step_current _ _ Hp)), Hf.
  unfold mbind, stm_bind. rewrite (update_current_eq _ _ _ Hp), insert_id by done. by rewrite states_self.
Qed.

Lemma step_loop_end {A} fuel (body : A → mach (A * bool)) a a' s s' :
  body a s = Ret (s', (a', false)) → loop (S fuel) body a s = Ret (s', a').
Proof. intros Hb. cbn [loop]. by rewrite (step_bind _ _ _ _ _ Hb). Qed.

Lemma step_loop_more {A} fuel (body : A → mach (A * bool)) a a' s s' :
  body a s = Ret (s', (a', true)) → loop (S fuel) body a s = loop fuel body a' s'.
Proof. intros Hb. cbn [loop]. by rewrite (step_bind _ _ _ _ _ Hb). Qed.

Lemma get_ifs p : ∃ ifs, get_var p "IFS" = (p, ifs).
Proof. by eexists. Qed.

Lemma step_ifs s p : m_states s !! m_active s = Some p → ∃ ifs, ifs_value s = Ret (s, ifs).
Proof.
  intros Hp. destruct (get_ifs p) as [ifs Hi]. unfold ifs_value, mach_var.
  rewrite (step_bind _ _ _ _ _ (step_context _ _ _ _ Hp Hi)). by eexists.
Qed.

(** ** Quoted text in the scan for braces *)

Lemma quoted_no_brace prev q escaped index chars : q ∉ chars → is_quote q = true →
  open_brace prev (Some q) escaped index (chars ++ [q]) = None.
Proof.
  intros Hn Hq. revert prev escaped index. induction chars as [|c chars IH]; intros prev escaped index.
  { cbn [app open_brace]. destruct escaped; [done|]. destruct (bool_decide (q = "\")); [done|]. by rewrite Hq. }
  apply not_elem_of_cons in Hn as [Hne Hn]. specialize (IH Hn). cbn [app open_brace].
  destruct escaped; [apply IH|]. destruct (bool_decide (c = "\")); [apply IH|].
  destruct (is_quote c); [|destruct (bool_decide (c = "{")); apply IH].
  unfold brace_quote. rewrite bool_decide_eq_false_2 by congruence. apply IH.
Qed.

(** A word that is one quoted string. *)
Definition enclosed (q text : string) : string := q +:+ text +:+ q.

Lemma enclosed_chars q text : q = "'" ∨ q = dquote → starts_inside_char text = false →
  utf8_chars (enclosed q text) = q :: utf8_chars text ++ [q].
Proof.
  intros Hq Ht. unfold enclosed.
  assert (Hs : starts_inside_char (text +:+ q) = false) by (destruct text; [by destruct Hq as [->| ->]|done]).
  rewrite utf8_chars_append by exact Hs.
  rewrite (utf8_chars_append text q) by (by destruct Hq as [->| ->]). by destruct Hq as [->| ->].
Qed.

Lemma enclosed_no_brace levels q text : q = "'" ∨ q = dquote → starts_inside_char text = false →
  q ∉ utf8_chars text → brace_expand levels (enclosed q text) = [enclosed q text].
Proof.
  intros Hq Ht Hn. destruct levels as [|levels]; [done|]. cbn [brace_expand]. cbv zeta.
  rewrite enclosed_chars by done. cbn [open_brace].
  assert (Hquote : is_quote q = true) by (by destruct Hq as [->| ->]).
  rewrite bool_decide_eq_false_2 by (by destruct Hq as [->| ->]). rewrite Hquote.
  unfold brace_quote. rewrite bool_decide_eq_false_2 by done. by rewrite quoted_no_brace.
Qed.

(** ** Parts that are quoted are not touched *)

Fixpoint quoted_parts (items : list string) (first : bool) : list Part :=
  match items with [] => [] | item :: items => quoted_part item (negb first) :: quoted_parts items false end.

Lemma quoted_fields ifs split items f : fs_started f = true → fs_glob f = false →
  foldl (add_part ifs split) f (quoted_parts items false) =
  match items with
  | [] => f
  | _ => MkFields (fs_done f ++ [(fs_cur f, false)] ++ map (λ item, (item, false)) (removelast items)) (List.last items "") false true false
  end.
Proof.
  revert f. induction items as [|item items IH]; intros f Hs Hg; [done|]. cbn [quoted_parts foldl negb].
  unfold add_part at 2. cbn [quoted_part pt_break pt_quoted pt_text pt_glob negb andb]. rewrite Hs. cbn [andb].
  unfold end_field. cbn [fs_done fs_cur fs_glob orb]. rewrite Hg. rewrite IH by done.
  destruct items as [|item' items]; [done|]. cbn [fs_done fs_cur fs_glob orb]. simpl. by rewrite <-app_assoc.
Qed.

Lemma quoted_split ifs split items : split_parts ifs split (quoted_parts items true) = map (λ item, (item, false)) items.
Proof.
  unfold split_parts. destruct items as [|item items]; [done|]. cbn [quoted_parts foldl negb].
  change (add_part ifs split no_fields (quoted_part item false)) with (MkFields [] item false true false).
  rewrite quoted_fields by done. cbv zeta. destruct items as [|item' items]; [done|]. cbn [fs_started fs_done fs_cur fs_glob].
  cbn [app map]. f_equal. change ((item', false) :: map (λ x, (x, false)) items) with (map (λ x, (x, false)) (item' :: items)).
  rewrite (app_removelast_last "" (l:=item' :: items)) at 3 by done. by rewrite map_app.
Qed.

Section words.
Context (regex : string → option (string → bool)).
Context (upper lower upper_char lower_char : string → string).

Lemma glob_plain split items s :
  glob_fields regex split (map (λ item, (item, false)) items) s = Ret (s, items).
Proof.
  induction items as [|item items IH]; [done|]. cbn [map glob_fields]. rewrite andb_false_r. cbn [andb].
  change ((mret [item] ≫= λ here, rest ← glob_fields regex split (map (λ item, (item, false)) items); mret (here ++ rest)) s)
    with ((rest ← glob_fields regex split (map (λ item, (item, false)) items); mret ([item] ++ rest)) s).
  by rewrite (step_bind _ _ _ _ _ IH).
Qed.

Lemma assemble_quoted split items s p : m_states s !! m_active s = Some p →
  assemble regex (quoted_parts items true) split s = Ret (s, items).
Proof.
  intros Hp. destruct (step_ifs _ _ Hp) as [ifs Hi]. unfold assemble. rewrite (step_bind _ _ _ _ _ Hi), quoted_split.
  apply glob_plain.
Qed.

Lemma enclosed_expand q text split s s' p items :
  q = "'" ∨ q = dquote → starts_inside_char text = false → q ∉ utf8_chars text →
  m_states s' !! m_active s' = Some p →
  (∀ word dollar, expand_to_parts regex upper lower upper_char lower_char word dollar (enclosed q text) s =
    Ret (s', quoted_parts items true)) →
  expand_word regex upper lower upper_char lower_char (enclosed q text) split s = Ret (s', items).
Proof.
  intros Hq Ht Hn Hp Hparts. unfold expand_word. cbn [expand_at]. destruct (expand_at _ _ _ _ _ _) as [word dollar].
  cbn [fst]. unfold expand_word_body. rewrite enclosed_no_brace by done. cbn [expand_each].
  rewrite (step_bind _ _ _ _ _ (Hparts word dollar)), (step_bind _ _ _ _ _ (assemble_quoted _ _ _ _ Hp)).
  unfold mret, mbind, stm_ret, stm_bind. by rewrite app_nil_r.
Qed.

Lemma take_until (f : string → bool) l q r : Forall (λ c, f c = true) l → f q = false →
  take_while f (l ++ q :: r) = l ∧ drop_while f (l ++ q :: r) = q :: r.
Proof.
  intros Hl Hq. induction Hl as [|c l Hc Hl [IH1 IH2]]; simpl; [by rewrite Hq|]. by rewrite Hc, IH1, IH2.
Qed.

Lemma step_stopped s : mach_stopped s = Ret (s, is_stopped (m_resources s)).
Proof. done. Qed.

(** A word whose characters are gone, or a machine that is stopped, ends the loop. *)
Lemma word_end word dollar fuel w s : wd_rest w = [] →
  loop (S fuel) (word_step regex upper lower upper_char lower_char word dollar) w s = Ret (s, w).
Proof.
  intros Hw. apply step_loop_end. unfold word_step. rewrite (step_bind _ _ _ _ _ (step_stopped s)). by rewrite Hw.
Qed.

Lemma single_parts word dollar text s : starts_inside_char text = false → "'" ∉ utf8_chars text →
  is_stopped (m_resources s) = false →
  expand_to_parts regex upper lower upper_char lower_char word dollar (enclosed "'" text) s = Ret (s, quoted_parts [text] true).
Proof.
  intros Ht Hn Hs. unfold expand_to_parts. cbv zeta. rewrite enclosed_chars by auto. cbn [tilde].
  rewrite bool_decide_eq_false_2 by done.
  assert (Hstep : word_step regex upper lower upper_char lower_char word dollar (MkWord ("'" :: utf8_chars text ++ ["'"]) [] "" false) s =
    Ret (s, (MkWord [] [quoted_part text false] "" false, true))).
  { unfold word_step. rewrite (step_bind _ _ _ _ _ (step_stopped s)), Hs. cbn [wd_rest].
    rewrite bool_decide_eq_false_2 by done. rewrite bool_decide_eq_true_2 by done.
    destruct (take_until not_squote (utf8_chars text) "'" []) as [-> ->]; [|done|].
    - apply Forall_forall. intros c Hc. unfold not_squote. by rewrite bool_decide_eq_false_2 by congruence.
    - by rewrite collect_utf8_chars. }
  unfold mbind at 1, stm_bind at 1, mret at 1, stm_ret at 1.
  apply (step_into _ _ _ s (MkWord [] [quoted_part text false] "" false)); [|reflexivity]. cbn [length]. rewrite (step_loop_more _ _ _ _ _ _ Hstep).
  rewrite length_app. cbn [length]. rewrite Nat.add_1_r. by apply word_end.
Qed.

(** ** Lists *)

Definition total_len (items : list string) : Z := foldr (λ item total, str_len item + total) 0 items.

Lemma splice_items d items : db_parts d = [] → db_out d = "" → db_break d = false →
  let d' := splice d items in
  db_rest d' = db_rest d ∧ db_array d' = db_array d ∧
  match items with
  | [] => d' = d
  | _ => db_content d' = true ∧ db_parts d' ++ [quoted_part (db_out d') (db_break d')] = quoted_parts items true
  end.
Proof.
  intros Hp Ho Hb. destruct items as [|item items]; [done|]. cbn [splice]. cbv zeta.
  assert (H : ∀ d1, let d' := foldl next_item d1 items in
    db_rest d' = db_rest d1 ∧ db_array d' = db_array d1 ∧ db_content d' = db_content d1 ∧
    db_parts d' ++ [quoted_part (db_out d') (db_break d')] =
    db_parts d1 ++ [quoted_part (db_out d1) (db_break d1)] ++ quoted_parts items false).
  { clear. induction items as [|x items IH]; intros d1; cbn [foldl]; [by rewrite app_nil_r|].
    destruct (IH (next_item d1 x)) as (H1 & H2 & H3 & H4). split_and!; [done|done|done|]. rewrite H4. simpl. by rewrite <-app_assoc. }
  destruct (H (db_push d (db_rest d) item)) as (H1 & H2 & H3 & H4). split_and!; [done|done|done|]. rewrite H4. simpl.
  by rewrite Hp, Ho, Hb.
Qed.

(** A quoted reference to a list that [try_array_words] reads as a whole. *)
Lemma list_parts word dollar text items s s1 :
  starts_inside_char text = false → head (utf8_chars text) = Some "$" → is_stopped (m_resources s) = false →
  try_array_words (utf8_chars text ++ [dquote]) true s = Ret (s, Some (items, length (utf8_chars text))) →
  charge_expansion (total_len items) s = Ret (s1, true) →
  expand_to_parts regex upper lower upper_char lower_char word dollar (enclosed dquote text) s = Ret (s1, quoted_parts items true).
Proof.
  intros Ht Hhead Hs Htry Hcharge. unfold expand_to_parts. cbv zeta. rewrite enclosed_chars by auto. cbn [tilde].
  rewrite bool_decide_eq_false_2 by done. unfold mbind at 1, stm_bind at 1, mret at 1, stm_ret at 1.
  set (chars := utf8_chars text) in *.
  set (d0 := MkDouble (chars ++ [dquote]) [] "" false false false).
  assert (Hdollar : double_step regex upper lower upper_char lower_char word dollar d0 s =
    Ret (s1, (splice (MkDouble [dquote] [] "" false true false) items, true))).
  { unfold double_step. rewrite (step_bind _ _ _ _ _ (step_stopped s)), Hs. subst d0. cbn [db_rest].
    destruct chars as [|c more] eqn:Hc; [done|]. injection Hhead as ->. cbn [app].
    rewrite bool_decide_eq_false_2 by done. rewrite bool_decide_eq_false_2 by done. rewrite bool_decide_eq_true_2 by done.
    apply (step_into _ _ _ s1 (splice (MkDouble [dquote] [] "" false true false) items)); [|reflexivity]. unfold double_dollar. cbn [db_rest]. rewrite (step_bind _ _ _ _ _ Htry).
    fold (total_len items). rewrite (step_bind _ _ _ _ _ Hcharge).
    change ("$" :: more ++ [dquote]) with (("$" :: more) ++ [dquote]). by rewrite drop_app_length. }
  destruct (splice_items (MkDouble [dquote] [] "" false true false) items) as (Hr & Harr & Hparts); [done..|].
  set (d1 := splice (MkDouble [dquote] [] "" false true false) items) in *. cbn [db_rest db_array] in Hr, Harr.
  assert (Hclose : ∃ d2, double_step regex upper lower upper_char lower_char word dollar d1 s1 = Ret (s1, (d2, false)) ∧
    (db_parts d2, db_out d2, db_content d2, db_array d2, db_break d2) = (db_parts d1, db_out d1, db_content d1, db_array d1, db_break d1) ∧
    (is_stopped (m_resources s1) = true ∨ db_rest d2 = [])).
  { unfold double_step. rewrite (step_bind _ _ _ _ _ (step_stopped s1)), Hr. destruct (is_stopped (m_resources s1)).
    - exists d1. by split_and!; [..|left].
    - rewrite bool_decide_eq_true_2 by done. eexists. split; [done|]. by split; [|right]. }
  destruct Hclose as (d2 & Hclose & Hsame & Hend). injection Hsame as E1 E2 E3 E4 E5.
  assert (Hdouble : expand_double regex upper lower upper_char lower_char word dollar (chars ++ [dquote]) s = Ret (s1, (quoted_parts items true, db_rest d2))).
  { unfold expand_double. erewrite step_bind.
    2: { rewrite (step_loop_more _ _ _ _ _ _ Hdollar). rewrite length_app. cbn [length]. rewrite Nat.add_1_r.
      by apply step_loop_end. }
    cbv zeta. rewrite E1, E2, E3, E4, E5, Harr. destruct items as [|item items]; [by subst d1|].
    destruct Hparts as [Hcon Hparts]. by rewrite Hcon, Hparts. }
  assert (Hword : word_step regex upper lower upper_char lower_char word dollar (MkWord (dquote :: chars ++ [dquote]) [] "" false) s =
    Ret (s1, (MkWord (db_rest d2) (quoted_parts items true) "" false, true))).
  { unfold word_step. rewrite (step_bind _ _ _ _ _ (step_stopped s)), Hs. cbn [wd_rest].
    do 2 rewrite bool_decide_eq_false_2 by done. rewrite bool_decide_eq_true_2 by done.
    by rewrite (step_bind _ _ _ _ _ Hdouble). }
  apply (step_into _ _ _ s1 (MkWord (db_rest d2) (quoted_parts items true) "" false)); [|reflexivity].
  cbn [length]. rewrite (step_loop_more _ _ _ _ _ _ Hword).
  rewrite length_app. cbn [length]. rewrite Nat.add_1_r. destruct Hend as [Hstop|Hrest].
  - apply step_loop_end. unfold word_step. rewrite (step_bind _ _ _ _ _ (step_stopped s1)), Hstop. cbn [wd_rest].
    by destruct (db_rest d2).
  - rewrite Hrest. by apply word_end.
Qed.

End words.

(** ** References to lists *)

(** [$@], [${name[@]}] and [${!name[@]}], and the items they stand for. *)
Inductive quoted_list (sh : ShellState) : string → list string → Prop :=
| list_positional : quoted_list sh "$@" (po_values (sh_positional sh))
| list_elements name : is_name name = true → is_array sh name = true →
    quoted_list sh ("${" +:+ name +:+ "[@]}") (array_all sh name)
| list_keys name : is_name name = true → is_array sh name = true →
    quoted_list sh ("${!" +:+ name +:+ "[@]}") (array_keys sh name).

Lemma name_part_ascii c : name_part c = true → ascii_char c = true.
Proof.
  unfold name_part, is_ascii_alphanumeric, is_ascii_alphabetic, is_ascii_digit, code_is, char_code, ascii_char.
  destruct c as [|a [|]]; simpl; try (rewrite bool_decide_eq_false_2 by done); try done.
  intros H. apply N.ltb_lt. rewrite !orb_true_iff in H. destruct H as [H|H].
  - unfold alpha_code, digit_code, in_range in H. rewrite !orb_true_iff, !andb_true_iff, !N.leb_le in H. lia.
  - apply bool_decide_eq_true in H. injection H as ->. done.
Qed.

Lemma name_chars name : is_name name = true → Forall (λ c, name_part c = true) (utf8_chars name) ∧
  forallb ascii_char (utf8_chars name) = true.
Proof.
  unfold is_name. intros H. assert (Hf : forallb name_part (utf8_chars name) = true).
  { destruct (utf8_chars name) as [|c cs]; [done|]. apply andb_true_iff in H as [Hh Hf]. simpl. rewrite Hf, andb_true_r.
    unfold name_head in Hh. unfold name_part, is_ascii_alphanumeric. destruct (is_ascii_alphabetic c); [done|]. simpl in Hh. by rewrite Hh, orb_true_r. }
  assert (Hall : Forall (λ c, name_part c = true) (utf8_chars name)) by (apply Forall_forall; intros c Hc; rewrite forallb_forall in Hf; by apply Hf, list_elem_of_In).
  split; [done|]. apply forallb_forall. intros c Hc. apply name_part_ascii. rewrite Forall_forall in Hall. by apply Hall, list_elem_of_In.
Qed.

Lemma split_once_chars sep cs r : forallb ascii_char cs = true → String sep "" ∉ cs →
  split_once sep (collect cs +:+ String sep r) = Some (collect cs, r).
Proof.
  induction cs as [|c cs IH]; cbn [forallb].
  - intros _ _. change (collect [] +:+ String sep r) with (String sep r). cbn [split_once]. by rewrite bool_decide_eq_true_2.
  - intros [Hc Hcs]%andb_true_iff [Hne Hn]%not_elem_of_cons. rewrite collect_cons, <-append_assoc.
    destruct c as [|a [|]]; try discriminate Hc. rewrite append_cons, append_nil_l. cbn [split_once].
    rewrite bool_decide_eq_false_2 by congruence. by rewrite IH.
Qed.

Lemma not_in_name c name : name_part c = false → is_name name = true → c ∉ utf8_chars name.
Proof. intros Hc [Hall _]%name_chars Hin. rewrite Forall_forall in Hall. rewrite Hall in Hc by done. done. Qed.

Lemma name_reference (want : bool) name : is_name name = true →
  array_reference ((if want then "!" else "") +:+ name +:+ "[@]") = Some (want, name, "@", "").
Proof.
  intros Hn. pose proof (name_chars _ Hn) as [Hall Hasc]. unfold array_reference.
  assert (Hstrip : strip_prefix "!" ((if want then "!" else "") +:+ name +:+ "[@]") = if want then Some (name +:+ "[@]") else None).
  { destruct want; [apply (strip_prefix_append "!")|]. change (("" : string) +:+ name +:+ "[@]") with (name +:+ "[@]").
    destruct (strip_prefix _ _) as [rest|] eqn:Hs; [|done]. exfalso. apply strip_prefix_Some in Hs.
    pose proof (not_in_name "!" name eq_refl Hn) as Hnot. rewrite <-(collect_utf8_chars name) in Hs.
    destruct (utf8_chars name) as [|c cs]; [done|]. cbn [forallb] in Hasc. apply andb_true_iff in Hasc as [Hc _].
    rewrite collect_cons in Hs. destruct c as [|a [|]]; try discriminate Hc. injection Hs as -> _. by apply Hnot, list_elem_of_here. }
  rewrite Hstrip.
  assert (Hsplit : split_once "["%char (name +:+ "[@]") = Some (name, "@]")).
  { rewrite <-(collect_utf8_chars name) at 1. change "[@]" with (String "["%char "@]"). rewrite split_once_chars; [|done|by apply not_in_name].
    by rewrite collect_utf8_chars. }
  destruct want; cbv beta iota; [|change (("" : string) +:+ name +:+ "[@]") with (name +:+ "[@]")];
    rewrite Hsplit; simpl; by rewrite Hn.
Qed.

Lemma balanced_plain open close l r : open ∉ l → close ∉ l → open ≠ close →
  read_balanced_from open close 1 (l ++ close :: r) = (collect l, S (length l)).
Proof.
  intros Ho Hc Hne. induction l as [|c l IH]; cbn [app read_balanced_from].
  - by rewrite bool_decide_eq_false_2, bool_decide_eq_true_2 by done.
  - apply not_elem_of_cons in Ho as [Ho1 Ho], Hc as [Hc1 Hc].
    rewrite bool_decide_eq_false_2, bool_decide_eq_false_2 by done. by rewrite IH, collect_cons.
Qed.

Lemma braced_chars (want : bool) name : is_name name = true →
  utf8_chars ("${" +:+ ((if want then "!" else "") +:+ name +:+ "[@]") +:+ "}") =
  "$" :: "{" :: ((if want then ["!"] else []) ++ utf8_chars name ++ ["["; "@"; "]"]) ++ ["}"].
Proof.
  intros Hn. destruct (name_chars _ Hn) as [_ Hasc].
  set (cs := "$" :: "{" :: ((if want then ["!"] else []) ++ utf8_chars name ++ ["["; "@"; "]"]) ++ ["}"]).
  assert (Hcs : "${" +:+ ((if want then "!" else "") +:+ name +:+ "[@]") +:+ "}" = collect cs).
  { subst cs. rewrite !collect_cons, !collect_app, collect_utf8_chars. by destruct want. }
  rewrite Hcs. apply utf8_chars_ascii. subst cs. cbn [forallb]. rewrite !forallb_app, Hasc. by destruct want.
Qed.

Lemma try_elements (want : bool) name s p : m_states s !! m_active s = Some p → is_name name = true →
  is_array (ps_shell p) name = true →
  let text := "${" +:+ ((if want then "!" else "") +:+ name +:+ "[@]") +:+ "}" in
  try_array_words (utf8_chars text ++ [dquote]) true s =
  Ret (s, Some (if want then array_keys (ps_shell p) name else array_all (ps_shell p) name, length (utf8_chars text))).
Proof.
  intros Hp Hn Ha. cbv zeta. rewrite (braced_chars want name Hn). set (inner := (if want then ["!"] else []) ++ utf8_chars name ++ ["["; "@"; "]"]).
  assert (Hinner : collect inner = (if want then "!" else "") +:+ name +:+ "[@]").
  { subst inner. rewrite !collect_app, collect_utf8_chars. by destruct want. }
  assert (Hnot : ∀ c, name_part c = false → c ∉ ["!"; "["; "@"; "]"] → c ∉ inner).
  { intros c Hc Hl. subst inner. rewrite !not_elem_of_app. pose proof (not_in_name _ _ Hc Hn). destruct want; set_solver. }
  cbn [app]. unfold try_array_words. cbn [bool_decide]. rewrite bool_decide_eq_true_2 by done. cbn [negb].
  rewrite (bool_decide_eq_false_2 ("{" = "@")), (bool_decide_eq_false_2 ("{" = "*")) by done. cbn [orb].
  rewrite bool_decide_eq_true_2 by done. cbn [negb drop skipn]. unfold read_balanced. cbn [read_balanced_from].
  rewrite bool_decide_eq_true_2 by done. rewrite <-app_assoc. cbn [app]. change (0 + 1) with 1.
  rewrite (balanced_plain "{" "}" inner [dquote]) by first [done | apply Hnot; [done|set_solver]].
  cbn [Z.ltb]. change (0 <? 0) with false. cbv iota beta. rewrite Hinner, name_reference by done.
  eapply step_into.
  { unfold array_words. rewrite (step_bind _ _ _ _ _ (step_shell_get _ _ _ Hp)), Ha. cbn [negb].
    rewrite (step_bind _ _ _ _ _ (step_shell_get _ _ _ Hp)). cbn [strip_prefix]. reflexivity. }
  cbn [length]. rewrite length_app. cbn [length]. rewrite Nat.add_1_r. by destruct want.
Qed.

Lemma try_list s p text items : m_states s !! m_active s = Some p → quoted_list (ps_shell p) text items →
  starts_inside_char text = false ∧ head (utf8_chars text) = Some "$" ∧ dquote ∉ utf8_chars text ∧
  try_array_words (utf8_chars text ++ [dquote]) true s = Ret (s, Some (items, length (utf8_chars text))).
Proof.
  intros Hp Hl.
  assert (Hbraced : ∀ want name, is_name name = true → is_array (ps_shell p) name = true →
    let text := "${" +:+ ((if want : bool then "!" else "") +:+ name +:+ "[@]") +:+ "}" in
    starts_inside_char text = false ∧ head (utf8_chars text) = Some "$" ∧ dquote ∉ utf8_chars text ∧
    try_array_words (utf8_chars text ++ [dquote]) true s =
      Ret (s, Some (if want then array_keys (ps_shell p) name else array_all (ps_shell p) name, length (utf8_chars text)))).
  { intros want name Hn Ha. cbv zeta. split; [done|]. rewrite (braced_chars want name Hn) at 1 2. split; [done|]. split.
    - pose proof (not_in_name dquote name eq_refl Hn). rewrite !not_elem_of_cons, !not_elem_of_app. destruct want; set_solver.
    - by apply try_elements. }
  destruct Hl as [|name Hn Ha|name Hn Ha].
  - split; [done|]. split; [done|]. split; [set_solver|]. change (utf8_chars "$@") with ["$"; "@"]. cbn [app]. unfold try_array_words.
    rewrite bool_decide_eq_true_2 by done. cbn [negb]. rewrite (bool_decide_eq_true_2 ("@" = "@")) by done. cbn [orb].
    by rewrite (step_bind _ _ _ _ _ (step_shell_get _ _ _ Hp)).
  - pose proof (Hbraced false name Hn Ha) as H. cbv zeta in H. rewrite <-!append_assoc in H. exact H.
  - pose proof (Hbraced true name Hn Ha) as H. cbv zeta in H. rewrite <-!append_assoc in H. exact H.
Qed.

(** ** The properties *)

Section properties.
Context (regex : string → option (string → bool)).
Context (upper lower upper_char lower_char : string → string).
Notation word_of := (expand_word regex upper lower upper_char lower_char).

Lemma total_nonneg items : 0 ≤ total_len items.
Proof. apply sum_len_nonneg. Qed.

(** A charge that fits is granted, and a context stays active. *)
Lemma charge_fits n s p : m_states s !! m_active s = Some p → is_stopped (m_resources s) = false →
  rs_memory_current (m_resources s) + n ≤ lim_memory (rs_limits (m_resources s)) ≤ U64_MAX →
  ∃ s' p', charge_expansion n s = Ret (s', true) ∧ m_states s' !! m_active s' = Some p'.
Proof.
  intros Hp Hs Hn. unfold charge_expansion.
  assert (Hr : ∃ r, reserve n s = Ret (set_resources s r, true)).
  { unfold reserve, reserve_memory, checked_add64. rewrite Hs.
    rewrite (proj2 (Z.leb_le _ _)), (proj2 (Z.ltb_ge _ _)) by lia. by eexists. }
  destruct Hr as [r Hr]. rewrite (step_bind _ _ _ _ _ Hr).
  assert (Hp' : m_states (set_resources s r) !! m_active (set_resources s r) = Some p) by done.
  unfold mbind, stm_bind. rewrite (update_current_eq _ _ _ Hp'). eexists _, _. split; [reflexivity|].
  apply lookup_insert_eq.
Qed.

(** C31: Expanding words returns, whatever the words, in a build without overflow checks and on a host
    whose stack does not run out: on a machine in its invariant it does not panic and does not run
    out of the fuel the length of a word gives; the machine is in its invariant again, and only the
    shell context, the booked memory, the CPU and the diagnostics may have changed; the nesting of
    expansions is back where it was. Both provisos are needed: a build with overflow checks panics on
    a range of braces as wide as an [i64] ([number_range_checked]), and the source does not limit how
    deep arithmetic expansions nest. *)
Theorem expand_words_returns h b s words : good h b s →
  ∃ s' fields, expand_words regex upper lower upper_char lower_char words s = Ret (s', fields) ∧
    good h b s' ∧ only_shell s s' ∧ depth_in s' = depth_in s.
Proof.
  intros Hs. pose proof (fine_expand_words h b regex upper lower upper_char lower_char words s Hs) as Hw.
  unfold wpm in Hw. destruct (expand_words _ _ _ _ _ words s) as [[s' fields]| |]; [|done..].
  exists s', fields. by destruct Hw as (Hg & Ho & Hd & _).
Qed.

(** Single-quoted text expands to itself, one field whatever it holds and whatever IFS is, and
    nothing in the machine changes. *)
Theorem single_quoted_stands s p text split : m_states s !! m_active s = Some p →
  is_stopped (m_resources s) = false → starts_inside_char text = false → "'" ∉ utf8_chars text →
  word_of ("'" +:+ text +:+ "'") split s = Ret (s, [text]).
Proof.
  intros Hp Hs Ht Hn. apply (enclosed_expand _ _ _ _ _ "'" text split s s p [text]); [by left|done|done|done|].
  intros word dollar. by apply single_parts.
Qed.

(** C32: A list between double quotes keeps its items: when the memory for their text is there, the
    positional parameters, the elements of an array or its keys come out one field each, exact,
    whatever they hold (separators, patterns, nothing) and whatever IFS is; an empty list gives no
    field. *)
Theorem quoted_list_keeps_items s p text items split : m_states s !! m_active s = Some p →
  is_stopped (m_resources s) = false → quoted_list (ps_shell p) text items →
  rs_memory_current (m_resources s) + total_len items ≤ lim_memory (rs_limits (m_resources s)) ≤ U64_MAX →
  ∃ s', word_of (dquote +:+ text +:+ dquote) split s = Ret (s', items).
Proof.
  intros Hp Hs Hl Hm. destruct (try_list s p text items Hp Hl) as (Ht & Hh & Hn & Htry).
  destruct (charge_fits _ s p Hp Hs Hm) as (s1 & p1 & Hc & Hp1). exists s1.
  apply (enclosed_expand _ _ _ _ _ dquote text split s s1 p1 items); [by right|done|done|done|].
  intros word dollar. by apply (list_parts _ _ _ _ _ word dollar text items s s1).
Qed.

End properties.

Lemma expand_words_returns_witness : ∃ s s' fields,
  expand_words (λ _, None) (λ s, s) (λ s, s) (λ s, s) (λ s, s) ["a{b,$x}"; "${y:=3}$((y+1))"] s = Ret (s', fields) ∧
  good [] 0 s' ∧ depth_in s' = depth_in s.
Proof.
  destruct (example_boot (λ _, true)) as (s & Hs & Hg & _); [vm_compute; reflexivity|].
  destruct (expand_words_returns (λ _, None) (λ s, s) (λ s, s) (λ s, s) (λ s, s) [] 0 s ["a{b,$x}"; "${y:=3}$((y+1))"] Hg)
    as (s' & fields & He & Hg' & _ & Hd).
  exists s, s', fields. split; [exact He|split; [exact Hg'|exact Hd]].
Defined.

Lemma single_quoted_stands_witness : ∃ s,
  expand_word (λ _, None) (λ s, s) (λ s, s) (λ s, s) (λ s, s) "'a  $x {b,c} *\'" true s = Ret (s, ["a  $x {b,c} *\"]).
Proof.
  destruct (example_boot (λ s, negb (is_stopped (m_resources s)))) as (s & Hs & Hg & Hr); [vm_compute; reflexivity|].
  destruct (gd_active _ _ _ Hg) as [p Hp]. exists s. apply negb_true_iff in Hr.
  apply (single_quoted_stands (λ _, None) (λ s, s) (λ s, s) (λ s, s) (λ s, s) s p "a  $x {b,c} *\" true Hp Hr);
    [reflexivity|apply (bool_decide_eq_true_1 (_ ∉ _)); vm_compute; reflexivity].
Defined.

Lemma quoted_list_keeps_items_witness : ∃ s s',
  expand_word (λ _, None) (λ s, s) (λ s, s) (λ s, s) (λ s, s) (dquote +:+ "${a[@]}" +:+ dquote) true s =
    Ret (s', ["x y"; ""; "*"]).
Proof.
  destruct (example_boot (λ s, negb (is_stopped (m_resources s)) && (lim_memory (rs_limits (m_resources s)) <=? U64_MAX) &&
    (rs_memory_current (m_resources s) + 4 <=? lim_memory (rs_limits (m_resources s)))))
    as (s & Hs & Hg & Hr); [vm_compute; reflexivity|].
  destruct (gd_active _ _ _ Hg) as [p Hp].
  apply andb_true_iff in Hr as [[Hr Hl%Z.leb_le]%andb_true_iff Hm%Z.leb_le]. apply negb_true_iff in Hr.
  pose (p' := with_shell p (set_array (ps_shell p) "a" ["x y"; ""; "*"])).
  pose (s0 := set_states s (<[m_active s := p']> (m_states s))).
  assert (Hp' : m_states s0 !! m_active s0 = Some p') by apply lookup_insert_eq.
  assert (Ha : array_value (ps_shell p') "a" = Some (Indexed (enumerated ["x y"; ""; "*"]))) by apply lookup_insert_eq.
  assert (Hitems : array_all (ps_shell p') "a" = ["x y"; ""; "*"]) by (unfold array_all; rewrite Ha; reflexivity).
  destruct (quoted_list_keeps_items (λ _, None) (λ s, s) (λ s, s) (λ s, s) (λ s, s) s0 p' "${a[@]}" _ true Hp' Hr
    (list_elements _ "a" eq_refl (bool_decide_eq_true_2 _ (ex_intro _ _ Ha)))) as [s' Hs'].
  - rewrite Hitems. split; [exact Hm|exact Hl].
  - exists s0, s'. rewrite Hitems in Hs'. exact Hs'.
Defined.
