(* ===== verification/LifecycleSafe.v ===== *)
(** * Forking and ending processes keeps the machine sound

    The table a fork retains is a list of held descriptions until a context owns it; the theorems
    say that a fork is all or nothing, and that a process that ends gives back everything it had. *)

From S2P Require Import Prelude.
From S2P Require Import State.
From S2P Require Import RustStr.
From S2P Require Import Resources.
From S2P Require Import Variables.
From S2P Require Import Descriptors.
From S2P Require Import Process.
From S2P Require Import Clock.
From S2P Require Import Scheduler.
From S2P Require Import DescriptorInv.
From S2P Require Import DescriptorSystem.
From S2P Require Import Paths.
From S2P Require Import Vfs.
From S2P Require Import VfsTree.
From S2P Require Import VfsUsage.
From S2P Require Import VfsSystem.
From S2P Require Import Syntax.
From S2P Require Import ProcessState.
From S2P Require Import Machine.
From S2P Require Import PseudoFs.
From S2P Require Import Kernel.
From S2P Require Import Lifecycle.
From S2P Require Import KernelInv.
From S2P Require Import KernelSafe.
From S2P Require Import KernelTidy.
From S2P Require Import LifecycleInv.

(** ** A table without a process is a list of handles *)

Abbreviation table_ids t := (btree_values (ft_entries t)).

Lemma holders_handles a T h U pid t i : T !! pid = None →
  holders (MkDescSystem a (<[pid := t]> T) h U) i = holders (MkDescSystem a T (table_ids t ++ h) U) i.
Proof.
  intros Hp. unfold holders. cbn [dy_tables dy_handles]. rewrite map_sum_insert by done.
  rewrite list_count_app, table_count_values. lia.
Qed.

Lemma desc_to_handles a T h U pid t : T !! pid = None →
  desc_wf (MkDescSystem a (<[pid := t]> T) h U) → desc_wf (MkDescSystem a T (table_ids t ++ h) U).
Proof.
  intros Hp [Ha Ht Hc]. split; [done| |].
  - intros q x Hq. apply (Ht q). cbn [dy_tables] in *. rewrite lookup_insert_ne; [done|]. intros ->. congruence.
  - eapply counts_ext; [|exact Hc]. intros i. by apply holders_handles.
Qed.

Lemma desc_from_handles a T h U pid t : T !! pid = None → table_wf t →
  desc_wf (MkDescSystem a T (table_ids t ++ h) U) → desc_wf (MkDescSystem a (<[pid := t]> T) h U).
Proof.
  intros Hp Hw [Ha Ht Hc]. split; [done| |].
  - intros q x. cbn [dy_tables]. intros [[<- <-]|[_ Hq]]%lookup_insert_Some; [done|by apply (Ht q)].
  - eapply counts_ext; [|exact Hc]. intros i. symmetry. by apply holders_handles.
Qed.

Lemma fresh_table (T : gmap Z FdTable) : ∃ pid, T !! pid = None.
Proof. exists (fresh (dom T)). apply not_elem_of_dom, is_fresh. Qed.

Lemma desc_fork a T h U pid t a' t' : desc_wf (MkDescSystem a T h U) → T !! pid = Some t →
  fd_fork t a = (a', Ok t') →
  t' = t ∧ table_wf t ∧ desc_wf (MkDescSystem a' T (table_ids t ++ h) U) ∧ da_next_pipe a ≤ da_next_pipe a'.
Proof.
  intros Hy Ht Hf. destruct (fresh_table T) as [c Hc].
  assert (Ht' : t' = t) by (unfold fd_fork in Hf; destruct (fork_retain _ _ _) as [? []]; congruence). subst t'.
  destruct (fork_step_ok _ pid c Hy) as (y & ev & Hstep & Hwf & Htr).
  cbn [desc_step dy_tables dy_arena dy_handles dy_unowned] in Hstep. rewrite Ht, Hc, Hf in Hstep. injection Hstep as <- <-.
  split_and!; [done|by eapply (dw_tables _ Hy)|by eapply desc_to_handles|]. by apply transition_next in Htr.
Qed.

Lemma desc_close a T h U t : table_wf t → desc_wf (MkDescSystem a T (table_ids t ++ h) U) →
  desc_wf (MkDescSystem (close_all t a).2 T h U) ∧ da_next_pipe a ≤ da_next_pipe (close_all t a).2.
Proof.
  intros Hw Hy. destruct (fresh_table T) as [c Hc]. pose proof (desc_from_handles _ _ _ _ c t Hc Hw Hy) as Hi.
  destruct (exit_step_ok _ c Hi) as (y & ev & Hstep & Hwf & Htr).
  cbn [desc_step dy_tables dy_arena dy_handles dy_unowned] in Hstep. rewrite lookup_insert_eq in Hstep.
  destruct (close_all t a) as [t' a'] eqn:Hca. injection Hstep as <- <-. cbn [dy_arena] in Htr.
  rewrite delete_insert_id in Hwf by done. split; [done|]. by apply transition_next in Htr.
Qed.

(** Closing what a fork retained leaves the arena as it was. *)
Lemma fork_close t a a' t' : (∀ fd id, ft_entries t !! fd = Some id →
    ∃ e, da_descriptions a !! id = Some e ∧ 1 ≤ de_references e) →
  fd_fork t a = (a', Ok t') → (close_all t' a').2 = a.
Proof.
  intros He Hf. pose proof (fd_fork_bump t a He) as Hb. rewrite Hf in Hb. destruct Hb as [-> ->].
  unfold close_all. cbn [snd]. rewrite release_each_bump.
  - rewrite bump_zero; [done|]. intros i. rewrite table_count_values. lia.
  - intros id [fd Hfd]%elem_of_btree_values. eauto.
  - intros i. rewrite table_count_values. lia.
Qed.

Lemma fork_refused t a a' e : (∀ fd id, ft_entries t !! fd = Some id →
    ∃ e, da_descriptions a !! id = Some e ∧ 1 ≤ de_references e) → fd_fork t a = (a', Err e) → a' = a.
Proof. intros He Hf. pose proof (fd_fork_bump t a He) as Hb. by rewrite Hf in Hb. Qed.

Lemma desc_referenced a T h U pid t fd id : desc_wf (MkDescSystem a T h U) → T !! pid = Some t →
  ft_entries t !! fd = Some id → ∃ e, da_descriptions a !! id = Some e ∧ 1 ≤ de_references e.
Proof.
  intros Hy Ht Hfd. assert (Hh : 0 < holders (MkDescSystem a T h U) id).
  { rewrite (holders_split _ pid t) by done. pose proof (table_count_has t fd id Hfd).
    pose proof (other_holders_pos (MkDescSystem a T h U) pid id). lia. }
  pose proof (dw_counts _ Hy) as Hc. destruct (co_live _ _ _ Hc id Hh) as [n Hn].
  pose proof (counts_refs _ _ _ _ _ Hc Hn) as ->. rewrite refs_lookup in Hn. cbn [dy_arena] in Hn.
  destruct (da_descriptions a !! id) as [en|]; [|done]. exists en. split; [done|]. simpl in Hn. injection Hn as Hn. lia.
Qed.

Lemma fork_files t a a' r : fd_fork t a = (a', r) → (∀ fd id, ft_entries t !! fd = Some id →
    ∃ e, da_descriptions a !! id = Some e ∧ 1 ≤ de_references e) → files_kept a a'.
Proof.
  intros Hf He. pose proof (fd_fork_bump t a He) as Hb. rewrite Hf in Hb. destruct r as [t'|e]; [|by subst].
  destruct Hb as [_ ->]. intros id f. unfold file_at. rewrite bump_lookup. by destruct (da_descriptions a !! id).
Qed.

Lemma release_each_files a ids : files_kept a (release_each a ids).
Proof.
  revert a. induction ids as [|id ids IH]; intros a; [done|]. cbn [release_each].
  etransitivity; [apply (release_files a id)|apply IH].
Qed.

Lemma close_all_files t a : files_kept a (close_all t a).2.
Proof. apply release_each_files. Qed.

(** ** The machine around a forked table *)

Lemma sound_arena h h' b s a : sound h b s →
  (∃ U, desc_wf (MkDescSystem a (ps_fds <$> m_states s) h' U)) →
  da_next_pipe (m_descriptors s) ≤ da_next_pipe a → files_ok (m_vfs s) a → sound h' b (set_descriptors s a).
Proof.
  intros Hs Hd Hn Hf. open_sound Hs. split; try done. intros pipe n Hp.
  destruct (Gpipes pipe n Hp). split; [done|]. simpl. lia.
Qed.

Lemma sound_fork h b s pid p a t : sound h b s → m_states s !! pid = Some p →
  fd_fork (ps_fds p) (m_descriptors s) = (a, Ok t) →
  t = ps_fds p ∧ table_wf t ∧ sound (table_ids t ++ h) b (set_descriptors s a) ∧ (close_all t a).2 = m_descriptors s.
Proof.
  intros Hs Hp Hf. destruct (gs_desc _ _ _ Hs) as [U HU].
  assert (Hp' : (ps_fds <$> m_states s) !! pid = Some (ps_fds p)) by (by rewrite lookup_fmap, Hp).
  pose proof (λ fd id, desc_referenced _ _ _ _ _ _ fd id HU Hp') as Hr.
  destruct (desc_fork _ _ _ _ _ _ _ _ HU Hp' Hf) as (-> & Hw & Hd & Hn).
  split_and!; [done|done| |by eapply fork_close].
  eapply sound_arena; [exact Hs|by exists U|done|].
  eapply files_ok_kept; [by eapply fork_files|]. apply (gs_files _ _ _ Hs).
Qed.

Lemma sound_fork_refused h b s pid p a e : sound h b s → m_states s !! pid = Some p →
  fd_fork (ps_fds p) (m_descriptors s) = (a, Err e) → a = m_descriptors s.
Proof.
  intros Hs Hp Hf. destruct (gs_desc _ _ _ Hs) as [U HU]. eapply fork_refused; [|exact Hf]. intros fd id.
  eapply desc_referenced; [exact HU|]. by rewrite lookup_fmap, Hp.
Qed.

Lemma sound_closed h b s t : sound (table_ids t ++ h) b s → table_wf t →
  sound h b (set_descriptors s (close_all t (m_descriptors s)).2).
Proof.
  intros Hs Hw. destruct (gs_desc _ _ _ Hs) as [U HU]. destruct (desc_close _ _ _ _ _ Hw HU) as [Hd Hn].
  eapply sound_arena; [exact Hs|by exists U|done|]. eapply files_ok_kept, (gs_files _ _ _ Hs). apply close_all_files.
Qed.

(** A context that appears takes the descriptors and the memory kept for it. *)
Lemma sound_appear h b s p : sound (table_ids (ps_fds p) ++ h) (b + context_bytes p) s → 0 ≤ b →
  m_states s !! ps_pid p = None → table_wf (ps_fds p) → reserved_ok (ps_reserved p) →
  process_live (m_processes s) (ps_pid p) → sound h b (set_states s (<[ps_pid p := p]> (m_states s))).
Proof.
  intros Hs Hb Hnone Hw Hr Hl. open_sound Hs. split; try done; cbn [m_states set_states].
  - destruct Gdesc as [U HU]. exists U. unfold arena_of. cbn [m_descriptors m_states set_states]. rewrite fmap_insert.
    apply desc_from_handles; [by rewrite lookup_fmap, Hnone|done|exact HU].
  - cbn [m_resources set_states]. rewrite Gmemory. unfold held, reserved. cbn [m_states m_pipe_reservations set_states].
    rewrite map_sum_insert by done. lia.
  - intros q x [[<- <-]|[_ Hx]]%lookup_insert_Some; [done|by apply Gcontexts].
  - intros q Hq. apply Gtasks in Hq. destruct (decide (q = ps_pid p)) as [->|Hne]; [by rewrite lookup_insert_eq|].
    by rewrite lookup_insert_ne.
  - intros q Hq. destruct (decide (q = ps_pid p)) as [->|Hne]; [done|]. rewrite lookup_insert_ne in Hq by done. by apply Gprocesses.
Qed.

(** One that disappears leaves them. *)
Lemma sound_vanish h b s pid p : sound h b s → m_states s !! pid = Some p → ¬ task_live (m_scheduler s) pid →
  sound (table_ids (ps_fds p) ++ h) (b + context_bytes p) (set_states s (delete pid (m_states s))).
Proof.
  intros Hs Hp Ht. pose proof (context_bytes_nonneg _ _ (gs_contexts _ _ _ Hs _ _ Hp)). open_sound Hs.
  split; try done; cbn [m_states set_states].
  - destruct Gdesc as [U HU]. exists U. unfold arena_of in *. cbn [m_descriptors m_states set_states].
    rewrite fmap_delete. apply (desc_to_handles _ _ _ _ pid); [apply lookup_delete_eq|].
    rewrite insert_delete_id; [done|]. by rewrite lookup_fmap, Hp.
  - lia.
  - cbn [m_resources set_states]. rewrite Gmemory. unfold held, reserved. cbn [m_states m_pipe_reservations set_states].
    rewrite (map_sum_delete _ _ _ _ Hp). lia.
  - intros q x [_ Hx]%lookup_delete_Some. by apply Gcontexts.
  - intros q Hq. destruct (decide (q = pid)) as [->|Hne]; [done|]. rewrite lookup_delete_ne by done. by apply Gtasks.
  - intros q [x [_ Hx]%lookup_delete_Some]. apply Gprocesses. by eexists.
Qed.

(** Undoing a record that no context needs. *)
Lemma sound_undo h b s pid cwd : sound h b s → m_states s !! pid = None →
  sound h b (set_processes s (process_reap (process_exit (m_processes s) pid 125 cwd) pid).1).
Proof.
  intros Hs Hp. pose proof (gs_table _ _ _ Hs) as Ht. apply sound_processes; [done| |].
  - apply (process_op_wf _ (OpReap pid)), (process_op_wf _ (OpExit pid 125 cwd)), Ht.
  - intros q Hq Hl. apply reap_live. destruct Hl as (r & Hr & Hx). exists r. split; [|done].
    unfold process_exit, update_record. cbn [pt_records]. rewrite lookup_alter_ne; [done|]. intros ->. rewrite Hp in Hq. by destruct Hq.
Qed.

Lemma dispatch_some c : sched_wf c → sc_current c = None → sc_runnable c ≠ [] →
  ∃ c' next, dispatch c = (c', Ok (Some next)) ∧ sched_wf c' ∧ task_live c' next ∧ no_task_born c c'.
Proof.
  intros Hc Hn Hr. pose proof (dispatch_wf c Hc) as Hw. pose proof (dispatch_born c) as Hb. revert Hw Hb. unfold dispatch.
  rewrite Hn. destruct (sc_runnable c) as [|pid queue] eqn:Hq; [done|].
  pose proof (sw_runnable _ Hc pid) as Hpid. rewrite Hq in Hpid. rewrite (proj1 Hpid) by left.
  intros Hw Hb. do 2 eexists. split_and!; [reflexivity|done| |done]. unfold task_live. cbn [sc_states]. by rewrite lookup_insert_eq.
Qed.

(** ** The memory a fork asks for is a size *)

Lemma sat_add_nonneg a b : 0 ≤ a → 0 ≤ b → 0 ≤ sat_add64 a b.
Proof. unfold sat_add64. assert (0 ≤ U64_MAX) by done. lia. Qed.

Lemma foldl_nonneg {A} (f : Z → A → Z) l t :
  (∀ t a, 0 ≤ t → a ∈ l → 0 ≤ f t a) → 0 ≤ t → 0 ≤ foldl f t l.
Proof.
  revert t. induction l as [|a l IH]; intros t Hf Ht; [done|]. simpl. apply IH.
  - intros t' a' Ht' Ha'. apply Hf; [done|by right].
  - apply Hf; [done|left].
Qed.

Lemma sat_total_nonneg {A} (f : A → Z) l : (∀ a, a ∈ l → 0 ≤ f a) → 0 ≤ sat_total f l.
Proof. intros Hf. apply foldl_nonneg; [|done]. intros t a Ht Ha. apply sat_add_nonneg; auto. Qed.

Ltac sizes :=
  repeat match goal with
  | |- ∀ _, _ => intro
  | x : _ * _ |- _ => destruct x
  | |- 0 ≤ sat_add64 _ _ => apply sat_add_nonneg
  | |- 0 ≤ sat_total _ _ => apply sat_total_nonneg
  | |- 0 ≤ foldl _ _ _ => apply foldl_nonneg
  | |- 0 ≤ str_len _ => unfold str_len; apply Nat2Z.is_nonneg
  | |- 0 ≤ match ?x with _ => _ end => destruct x
  end; auto; try lia.

Section sizes.
Context (NODE_SIZE REDIRECT_SIZE : Z) (Hnode : 0 ≤ NODE_SIZE) (Hredirect : 0 ≤ REDIRECT_SIZE).

Lemma estimated_bytes_nonneg n : 0 ≤ estimated_bytes NODE_SIZE REDIRECT_SIZE n.
Proof using Hnode Hredirect.
  induction n as [n IH] using node_children_ind. rewrite Forall_forall in IH.
  destruct n; cbn [children] in IH; cbn [estimated_bytes]; unfold strings_bytes, redirects_bytes; sizes;
    try (apply IH; set_solver); apply IH; try (do 2 apply list_elem_of_further; apply elem_of_app; left).
  1-2: apply list_elem_of_In, in_flat_map; eexists; split; [by apply list_elem_of_In|apply list_elem_of_In; set_solver].
  apply list_elem_of_In, in_map_iff. eexists (_, _). split; [reflexivity|]. by apply list_elem_of_In.
Qed.

Lemma copy_bytes_nonneg value : 0 ≤ copy_bytes value.
Proof. unfold copy_bytes. sizes. Qed.
Lemma copies_bytes_nonneg values : 0 ≤ copies_bytes values.
Proof. unfold copies_bytes. sizes. apply copy_bytes_nonneg. Qed.
Lemma pairs_bytes_nonneg entries : 0 ≤ pairs_bytes entries.
Proof. unfold pairs_bytes. sizes; apply copy_bytes_nonneg. Qed.
Lemma array_copy_bytes_nonneg array : 0 ≤ array_copy_bytes array.
Proof. destruct array; [apply copies_bytes_nonneg|apply pairs_bytes_nonneg]. Qed.
Lemma disposition_bytes_nonneg d : 0 ≤ disposition_bytes NODE_SIZE REDIRECT_SIZE d.
Proof using Hnode Hredirect.
  destruct d; simpl; [done|]. apply sat_add_nonneg; [apply copy_bytes_nonneg|apply estimated_bytes_nonneg].
Qed.
Lemma binding_bytes_nonneg name l : 0 ≤ binding_bytes name l.
Proof. unfold binding_bytes. sizes; auto using copy_bytes_nonneg, array_copy_bytes_nonneg. Qed.

Lemma fork_memory_nonneg p : 0 ≤ fork_memory_bytes NODE_SIZE REDIRECT_SIZE p.
Proof using Hnode Hredirect.
  unfold fork_memory_bytes. cbv zeta. apply foldl_nonneg; [|done]. intros t x Ht Hx. apply sat_add_nonneg; [done|].
  repeat (apply elem_of_cons in Hx as [->|Hx]; [|]); [..|by apply elem_of_nil in Hx];
    auto using copy_bytes_nonneg, copies_bytes_nonneg, pairs_bytes_nonneg; sizes;
    auto using copy_bytes_nonneg, copies_bytes_nonneg, array_copy_bytes_nonneg, disposition_bytes_nonneg,
      binding_bytes_nonneg, estimated_bytes_nonneg.
  unfold sat_mul64. assert (0 ≤ U64_MAX) by done. lia.
Qed.
End sizes.

(** ** Forking *)

(** The parts of the machine that a refused fork leaves alone. *)
Record untouched (s s' : Machine) : Prop := {
  un_states : m_states s' = m_states s;
  un_descriptors : m_descriptors s' = m_descriptors s;
  un_vfs : m_vfs s' = m_vfs s;
  un_pipes : m_pipe_reservations s' = m_pipe_reservations s;
  un_active : m_active s' = m_active s
}.

Lemma wpm_modify f s (Q : unit → Machine → Prop) : Q tt (f s) → wpm False (modify f) s Q.
Proof. done. Qed.

Lemma wpm_gets {A} (f : Machine → A) s (Q : A → Machine → Prop) : Q (f s) s → wpm False (gets f) s Q.
Proof. done. Qed.

Lemma wpm_sched {A} (f : Scheduler → Scheduler * result SchedulerError A) s (Q : result SchedulerError A → Machine → Prop) :
  (∀ c r, f (m_scheduler s) = (c, r) → Q r (set_scheduler s c)) → wpm False (sched_do f) s Q.
Proof. intros HQ. unfold wpm, sched_do. destruct (f (m_scheduler s)) as [c r]. by apply HQ. Qed.

(** [release_bytes] of memory outside contexts and pipes. *)
Lemma wpm_release_sound h b n s (Q : unit → Machine → Prop) : sound h (b + n) s → 0 ≤ b → 0 ≤ n →
  (∀ r, sound h b (set_resources s r) → Q tt (set_resources s r)) → wpm False (release_bytes n) s Q.
Proof.
  intros Hs Hb Hn HQ. apply wpm_modify, HQ. pose proof (sound_reserved _ _ _ Hs) as Hr.
  assert (Hh : 0 ≤ held s).
  { unfold held. rewrite (map_sum_ext _ (λ _ p, Z.max 0 (context_bytes p))); [apply map_sum_nonneg; lia|].
    intros pid p Hp. pose proof (context_bytes_nonneg _ _ (gs_contexts _ _ _ Hs pid p Hp)). lia. }
  pose proof (gs_memory _ _ _ Hs) as Hmem. destruct (gs_limit _ _ _ Hs) as [Hle Hmax].
  assert (Hc : rs_memory_current (release_memory (m_resources s) n) = b + held s + reserved s)
    by (simpl; rewrite sat_sub_exact; lia).
  open_sound Hs. split; try done. cbn [m_resources set_resources]. rewrite Hc. change (rs_limits _) with (rs_limits (m_resources s)). lia.
Qed.

Section create.
Context (h : list Z) (b : Z) (s0 : Machine) (p : ProcessState) (Hp : m_states s0 !! m_active s0 = Some p).
Context (allocation : Z) (Halloc : 0 ≤ allocation) (Hb : 0 ≤ b).
Notation parent_fds := (ps_fds p).

(** In the middle of a fork: the table is retained, the memory reserved, and nothing else touched. *)
Record forking (s : Machine) : Prop := {
  fk_sound : sound (table_ids parent_fds ++ h) (b + allocation) s;
  fk_states : m_states s = m_states s0;
  fk_vfs : m_vfs s = m_vfs s0;
  fk_pipes : m_pipe_reservations s = m_pipe_reservations s0;
  fk_active : m_active s = m_active s0;
  fk_close : (close_all parent_fds (m_descriptors s)).2 = m_descriptors s0
}.

Lemma forking_scheduler s c : forking s → sched_wf c → no_task_born (m_scheduler s) c → forking (set_scheduler s c).
Proof. intros [] Hc Hl. split; try done. by apply sound_scheduler. Qed.

Lemma forking_processes s t : forking s → process_table_wf t →
  (∀ pid, is_Some (m_states s !! pid) → process_live (m_processes s) pid → process_live t pid) →
  forking (set_processes s t).
Proof. intros [] Ht Hl. split; try done. by apply sound_processes. Qed.

Context (Hwf : table_wf parent_fds).

(** Giving up: the table is closed, what was done to the process table and the scheduler is undone,
    and the memory is returned; [c] is the scheduler. *)
Definition aborting (c : Scheduler) (s : Machine) : Prop :=
  sound h (b + allocation) s ∧ untouched s0 s ∧ m_scheduler s = c.

Lemma wpm_close_child s (Q : unit → Machine → Prop) : forking s →
  (∀ s', aborting (m_scheduler s) s' → Q tt s') → wpm False (close_child parent_fds) s Q.
Proof.
  intros [Hs Hst Hv Hpi Ha Hc] HQ. apply wpm_modify, HQ.
  pose proof (sound_closed _ _ _ _ Hs Hwf) as Hs1. rewrite Hc in Hs1 |- *. by split_and!.
Qed.

Lemma wpm_undo_process pid cwd c s (Q : unit → Machine → Prop) : m_states s0 !! pid = None → aborting c s →
  (∀ s', aborting c s' → Q tt s') → wpm False (undo_process pid cwd) s Q.
Proof.
  intros Hnone (Hs & Hu & Hc) HQ. apply wpm_modify, HQ. split; [|split; [by destruct Hu|done]]. apply sound_undo; [done|].
  by rewrite (un_states _ _ Hu).
Qed.

Lemma wpm_undo_sched {A} (f : Scheduler → Scheduler * result SchedulerError A) c s Q :
  (sched_wf c → sched_wf (f c).1 ∧ no_task_born c (f c).1) → aborting c s →
  (∀ r s', sched_wf (f c).1 → aborting (f c).1 s' → Q r s') → wpm False (sched_do f) s Q.
Proof.
  intros Hf (Hs & Hu & <-) HQ. apply wpm_sched. intros c r Hc.
  destruct Hf as [Hw Hl]; [apply (gs_sched _ _ _ Hs)|]. apply HQ; [done|]. rewrite Hc in *.
  split; [by apply sound_scheduler|split; [by destruct Hu|done]].
Qed.

(** What a fork leaves behind when it is refused. *)
Definition refused (c : Scheduler) (s : Machine) : Prop := good h b s ∧ untouched s0 s ∧ m_scheduler s = c.

Lemma wpm_refuse {A} error c s (Q : result LifecycleError A → Machine → Prop) : aborting c s →
  (∀ s', refused c s' → Q (Err error) s') → wpm False (_ ← release_bytes allocation; refuse error) s Q.
Proof.
  intros (Hs & Hu & Hc) HQ. apply wpm_bind. apply (wpm_release_sound h b); [done..|]. intros r Hr. apply HQ.
  split; [|split; [by destruct Hu|done]]. split; [done|]. cbn [m_states m_active set_resources].
  rewrite (un_states _ _ Hu), (un_active _ _ Hu). by eexists.
Qed.

End create.

Lemma spawn_runnable c pid c' r : scheduler_spawn c pid = (c', r) →
  match r with
  | Err _ => c' = c
  | Ok _ => pid ∈ sc_runnable c' ∧ sc_current c' = sc_current c ∧ (∀ q, task_live c' q → task_live c q ∨ q = pid)
  end.
Proof.
  pose proof (λ q, spawn_live c pid q) as Hl. revert Hl. unfold scheduler_spawn. repeat case_match; intros Hl [= <- <-]; try done.
  split_and!; [|done|exact Hl]. cbn [sc_runnable]. set_solver.
Qed.

Lemma block_current_ok c reason c' r : block_current c reason = (c', Ok r) → sc_current c' = None.
Proof. unfold block_current. destruct (sc_current c); by intros [= <- _]. Qed.

Section created.
Context (h : list Z) (b : Z) (s0 : Machine) (p : ProcessState) (Hp : m_states s0 !! m_active s0 = Some p).
Context (allocation : Z) (Halloc : 0 ≤ allocation) (Hb : 0 ≤ b) (Hwf : table_wf (ps_fds p)).
Context (new_shell detached : bool).

(** The machine after a fork that succeeds: the parent's tables and files, and one context more. *)
Definition forked (foreground : bool) (pid : Z) (s' : Machine) : Prop :=
  good h b s' ∧ (foreground = false → m_active s' = m_active s0) ∧ m_vfs s' = m_vfs s0 ∧ ∃ record,
    pr_pid record = pid ∧ pt_records (m_processes s') !! pid ≠ None ∧
    m_states s' = <[pid := fork_for_child p record new_shell (ps_fds p) allocation detached]> (m_states s0).

Lemma steady_refresh pid : steady (refresh_descriptor_snapshot pid).
Proof.
  apply steady_modify. intros h' b' s Hs. split; [|done]. apply sound_processes; [done| |].
  - apply (process_op_wf _ (OpUpdateDescriptors pid _)), (gs_table _ _ _ Hs).
  - intros q _. by apply update_live.
Qed.

Lemma good_install s pid record c : forking h b s0 p allocation s → m_states s0 !! pid = None →
  pt_records (m_processes s) !! pid = Some record → pr_pid record = pid → has_exited (pr_status record) = false →
  sched_wf c → (∀ q, task_live c q → task_live (m_scheduler s) q ∨ q = pid) →
  let child := fork_for_child p record new_shell (ps_fds p) allocation detached in
  sound h b (set_scheduler (set_states s (<[pid := child]> (m_states s))) c).
Proof using Hp Halloc Hb Hwf.
  intros [Hs Hst Hv Hpi Ha Hc] Hnone Hr Hpid Hl Hcw Hcl child.
  assert (Hctx : context_bytes child = allocation) by (unfold context_bytes; simpl; lia).
  assert (Hchild : ps_pid child = pid) by done.
  assert (Hi : sound h b (set_states s (<[pid := child]> (m_states s)))).
  { rewrite <-Hchild. apply sound_appear; [by rewrite Hctx|done| |done|done|].
    - by rewrite Hst, Hchild.
    - rewrite Hchild. by exists record. }
  open_sound Hi. split; try done. intros q [Hq|Hq]%Hcl; [by apply Gtasks|]. subst q.
  cbn [m_states set_states set_scheduler]. rewrite lookup_insert_eq. by eexists.
Qed.

(** The last part of a fork, from a machine whose scheduler knows the child. *)
Lemma wpm_install_child s pid record c foreground (Q : result LifecycleError Z → Machine → Prop) :
  forking h b s0 p allocation s → m_states s0 !! pid = None →
  pt_records (m_processes s) !! pid = Some record → pr_pid record = pid → has_exited (pr_status record) = false →
  sched_wf c → (∀ q, task_live c q → task_live (m_scheduler s) q ∨ q = pid) → pid ∈ sc_runnable c →
  (foreground = true → sc_current c = None) →
  (∀ s', forked foreground pid s' → Q (Ok pid) s') →
  wpm False (
    record ← lift_run (λ m, expect (pt_records (m_processes m) !! pid));
    _ ←! insert_state (fork_for_child p record new_shell (ps_fds p) allocation detached);
    _ ← refresh_descriptor_snapshot pid;
    if foreground : bool then
      dispatched ← sched_do dispatch;
      match dispatched with
      | Err error => refuse (DispatchChild error)
      | Ok None => refuse ChildNotRunnable
      | Ok (Some next) => _ ←! activate next; accept pid
      end
    else accept pid) (set_scheduler s c) Q.
Proof using Hp Halloc Hb Hwf.
  intros Hf Hnone Hr Hpid Hl Hcw Hcl Hin Hcur HQ.
  pose proof (good_install s pid record c Hf Hnone Hr Hpid Hl Hcw Hcl) as Hi. cbv zeta in Hi.
  set (child := fork_for_child p record new_shell (ps_fds p) allocation detached) in *.
  destruct Hf as [Hs Hst Hv Hpi Ha Hc].
  apply wpm_bind. eapply wpm_total; [cbn [m_processes set_scheduler]; by rewrite Hr|]. fold child.
  apply wpm_bind. unfold insert_state. apply wpm_bind, wpm_gets, wpm_bind, wpm_modify.
  change (ps_pid child) with (pr_pid record). rewrite Hpid. cbn [m_states set_scheduler]. rewrite Hst, Hnone.
  apply wpm_ret, wpm_bind, wpm_modify. rewrite Hst in Hi.
  set (s1 := set_processes _ _). assert (H1 : sound h b s1 ∧ kept (set_scheduler (set_states s (<[pid:=child]> (m_states s0))) c) s1).
  { exact (steady_refresh pid h b _ Hi). }
  destruct H1 as [H1 [Hdom Hact]].
  assert (Hrec : pt_records (m_processes s1) !! pid ≠ None).
  { unfold s1. cbn. rewrite lookup_alter_eq, Hr. done. }
  assert (Hactive : is_Some (m_states s1 !! m_active s1)).
  { apply elem_of_dom. rewrite Hdom, Hact. cbn [m_states m_active set_states set_scheduler]. rewrite Ha.
    rewrite dom_insert. apply elem_of_union_r, elem_of_dom. by eexists. }
  destruct foreground.
  - apply wpm_bind, wpm_sched. intros c' r Hd.
    destruct (dispatch_some (m_scheduler s1)) as (c'' & next & Hd' & Hw' & Hn' & Hb'); [exact Hcw|by apply Hcur|exact (not_elem_of_nil pid ∘ eq_ind _ (λ l, pid ∈ l) Hin _)|].
    rewrite Hd' in Hd. injection Hd as <- <-.
    assert (H2 : sound h b (set_scheduler s1 c'')) by (by apply sound_scheduler).
    pose proof (gs_tasks _ _ _ H2 next Hn') as Hnext.
    unfold and_then at 1. apply wpm_bind. unfold activate. apply wpm_bind, wpm_gets. rewrite bool_decide_eq_true_2 by done.
    apply wpm_bind, wpm_modify. apply HQ. split; [split; [by apply sound_active|exact Hnext]|].
    split; [done|]. split; [exact Hv|]. by exists record.
  - apply HQ. split; [by split|]. split; [intros _; exact Ha|]. split; [exact Hv|]. by exists record.
Qed.

End created.

(** A record that a spawn adds. *)
Lemma spawn_record t ppid placement command cwd env t' pid : process_table_wf t →
  process_spawn t ppid placement command cwd env = (t', Some pid) →
  pid = pt_next_pid t ∧ process_table_wf t' ∧ (∀ q, process_live t q → process_live t' q) ∧
  ∃ r, pt_records t' !! pid = Some r ∧ pr_pid r = pid ∧ has_exited (pr_status r) = false.
Proof.
  intros Ht Hs. pose proof (process_op_wf t (OpSpawn ppid placement command cwd env) Ht) as Hw. cbn [process_step] in Hw.
  rewrite Hs in Hw. apply process_spawn_cases in Hs; [|done]. destruct Hs as (Hpid & _ & _ & parent & r & _ & -> & Hr & _ & _ & Hst & _).
  split_and!; [done|exact Hw| |].
  - intros q (x & Hx & Hl). exists x. split; [|done]. cbn [pt_records]. rewrite lookup_insert_ne; [done|].
    intros <-. destruct (ptwf_pid _ Ht _ _ Hx). lia.
  - exists r. cbn [pt_records]. rewrite lookup_insert_eq, Hst. done.
Qed.

Lemma spawn_none t ppid placement command cwd env t' : process_table_wf t →
  process_spawn t ppid placement command cwd env = (t', None) →
  process_table_wf t' ∧ (∀ q, process_live t q → process_live t' q).
Proof.
  intros Ht Hs. pose proof (process_op_wf t (OpSpawn ppid placement command cwd env) Ht) as Hw. cbn [process_step] in Hw.
  rewrite Hs in Hw. split; [done|]. apply process_spawn_cases in Hs; [|done]. destruct Hs as [->|(_ & -> & _)]; [done|].
  intros q (x & Hx & Hl). by exists x.
Qed.

(** The same tasks, and none of them alive that was not. *)
Definition same_tasks (c c' : Scheduler) : Prop := dom (sc_states c') = dom (sc_states c) ∧ no_task_born c c'.

#[export] Instance same_tasks_preorder : PreOrder same_tasks.
Proof.
  split; [by intros c; split; [|intros q]|]. intros c1 c2 c3 [Hd1 Hb1] [Hd2 Hb2]. split; [by rewrite Hd2|].
  intros q Hq. by apply Hb1, Hb2.
Qed.

Lemma dom_put (states : gmap Z TaskState) pid old new : states !! pid = Some old → dom (<[pid := new]> states) = dom states.
Proof. intros Hp. apply dom_insert_lookup_L. by eexists. Qed.

Lemma same_tasks_block c reason : sched_wf c → same_tasks c (block_current c reason).1.
Proof.
  intros Hc. split; [|by apply block_born]. unfold block_current. destruct (sc_current c) as [pid|] eqn:Hp; [|done].
  eapply dom_put, (current_state _ _ Hc Hp).
Qed.

Lemma same_tasks_wake c pid : same_tasks c (scheduler_wake c pid).1.
Proof.
  split; [|apply wake_born]. unfold scheduler_wake. destruct (sc_states c !! pid) as [st|] eqn:Hp; [|done].
  destruct st as [| | |[]|]; try done; by eapply dom_put.
Qed.

Lemma same_tasks_dispatch c : same_tasks c (dispatch c).1.
Proof.
  split; [|apply dispatch_born]. unfold dispatch. destruct (sc_current c); [done|]. destruct (sc_runnable c) as [|pid queue]; [done|].
  destruct (sc_states c !! pid) as [[]|] eqn:Hp; try done. by eapply dom_put.
Qed.

Section create_child.
Context (NODE_SIZE REDIRECT_SIZE : Z) (Hnode : 0 ≤ NODE_SIZE) (Hredirect : 0 ≤ REDIRECT_SIZE).

Notation fork_allocation p := (sat_add64 (fork_memory_bytes NODE_SIZE REDIRECT_SIZE p) 256).
#[local] Opaque fork_memory_bytes sat_add64.

(** The refusals that do occur: a fresh PID has no context, and a child that was just made runnable
    leaves something to dispatch. *)
Definition possible (error : LifecycleError) : bool :=
  match error with ContextExists _ | NoContext _ | ChildNotRunnable | DispatchChild _ => false | _ => true end.

(** The scheduler after a refusal: as it was. Only when the scheduler has no room for the child of a
    parent that was already suspended for it are the queues different, and then no task is known
    that was not before, nor is one forgotten. *)
Definition rescheduled (c c' : Scheduler) (foreground : bool) (error : LifecycleError) : Prop :=
  c' = c ∨ (foreground = true ∧ (∃ e, error = ScheduleChild e) ∧ same_tasks c c').

(** The outcome of a fork of [p]: everything, or nothing. *)
Definition fork_outcome (h : list Z) (b : Z) (s0 : Machine) (p : ProcessState) (new_shell foreground detached : bool)
    (r : result LifecycleError Z) (s' : Machine) : Prop :=
  match r with
  | Ok pid => m_states s0 !! pid = None ∧ forked h b s0 p (fork_allocation p) new_shell detached foreground pid s'
  | Err error => refused h b s0 (m_scheduler s') s' ∧ possible error = true ∧
      rescheduled (m_scheduler s0) (m_scheduler s') foreground error
  end.

Lemma fork_allocation_nonneg p : 0 ≤ fork_allocation p.
Proof using Hnode Hredirect. apply sat_add_nonneg; [by apply fork_memory_nonneg|done]. Qed.

(** The parent is suspended when the child runs in the foreground. *)
Lemma wpm_suspend h b s0 p s pid (foreground : bool) (Q : result SchedulerError Z → Machine → Prop) :
  0 ≤ b → forking h b s0 p (fork_allocation p) s →
  (∀ n s', forking h b s0 p (fork_allocation p) s' → m_processes s' = m_processes s →
     same_tasks (m_scheduler s) (m_scheduler s') → (foreground = false → m_scheduler s' = m_scheduler s) →
     (foreground = true → sc_current (m_scheduler s') = None) → Q (Ok n) s') →
  (∀ e s', forking h b s0 p (fork_allocation p) s' → m_scheduler s' = m_scheduler s → Q (Err e) s') →
  wpm False (if foreground then sched_do (λ c, block_current c (Scheduler.Child pid)) else mret (Ok 0)) s Q.
Proof.
  intros Hb Hf Hyes Hno. destruct foreground; [|by apply wpm_ret, Hyes].
  pose proof (gs_sched _ _ _ (fk_sound _ _ _ _ _ _ Hf)) as Hc.
  apply wpm_sched. intros c r Hblock. pose proof (block_current_wf _ (Scheduler.Child pid) Hc) as Hw.
  pose proof (same_tasks_block _ (Scheduler.Child pid) Hc) as Hsame. rewrite Hblock in Hw, Hsame.
  pose proof (forking_scheduler h b s0 p _ s c Hf Hw (proj2 Hsame)) as Hf'. destruct r as [n|e].
  - apply Hyes; [done|done|exact Hsame|done|]. intros _. by eapply block_current_ok.
  - apply Hno; [done|]. revert Hblock. unfold block_current. destruct (sc_current _); [done|by intros [= <- _]].
Qed.

(** The parent resumes when its child could not be scheduled. *)
Lemma wpm_undo_suspension h b s0 p s e c who (foreground : bool) (Q : unit → Machine → Prop) :
  same_tasks (m_scheduler s0) c → (foreground = false → c = m_scheduler s0) →
  aborting h b s0 (fork_allocation p) c s →
  (∀ c' s', rescheduled (m_scheduler s0) c' foreground (ScheduleChild e) → aborting h b s0 (fork_allocation p) c' s' → Q tt s') →
  wpm False (if foreground then _ ← sched_do (λ c, scheduler_wake c who); _ ← sched_do dispatch; mret tt else mret tt) s Q.
Proof.
  intros Hsame Hback Ha HQ. destruct foreground; [|by apply wpm_ret, (HQ c); [left; apply Hback|]].
  apply wpm_bind. eapply (wpm_undo_sched h b s0); [|exact Ha|].
  { intros Hc. split; [by apply scheduler_wake_wf|apply wake_born]. }
  intros r s1 _ H1. apply wpm_bind. eapply (wpm_undo_sched h b s0); [|exact H1|].
  { intros Hc. split; [by apply dispatch_wf|apply dispatch_born]. }
  intros r' s2 _ H2. apply wpm_ret. eapply HQ; [|exact H2]. right. split_and!; [done|by eexists|].
  etrans; [exact Hsame|]. etrans; [apply same_tasks_wake|apply same_tasks_dispatch].
Qed.

Lemma fresh_child h b s0 p s : forking h b s0 p (fork_allocation p) s → m_states s0 !! pt_next_pid (m_processes s) = None.
Proof.
  intros Hf. destruct (m_states s0 !! _) as [x|] eqn:Hx; [|done]. pose proof (fk_sound _ _ _ _ _ _ Hf) as Hs.
  destruct (gs_processes _ _ _ Hs (pt_next_pid (m_processes s))) as (r & Hr & _).
  { rewrite (fk_states _ _ _ _ _ _ Hf), Hx. by eexists. }
  destruct (ptwf_pid _ (gs_table _ _ _ Hs) _ _ Hr). lia.
Qed.

Lemma wpm_create_child h b s p command new_shell foreground detached placement :
  good h b s → m_states s !! m_active s = Some p →
  wpm False (create_child NODE_SIZE REDIRECT_SIZE command new_shell foreground detached placement) s
    (fork_outcome h b s p new_shell foreground detached).
Proof using Hnode Hredirect.
  intros Hs Hp. pose proof (fork_allocation_nonneg p) as Halloc. pose proof (gd_base Hs) as Hb.
  unfold create_child. apply wpm_bind, wpm_current; [|by eexists]. intros p' Hp'. rewrite Hp in Hp'. injection Hp' as <-. cbv zeta.
  assert (Hsame : ∀ error s', refused h b s (m_scheduler s) s' → possible error = true →
    fork_outcome h b s p new_shell foreground detached (Err error) s').
  { intros error s' (Hg & Hu & Hsc) He. split; [by split|split; [done|left; exact Hsc]]. }
  destruct (_ <? _); [apply wpm_ret, Hsame; [by split|done]|].
  apply wpm_bind, (wpm_reserve _ h b); [exact Hs|exact Halloc| |]; intros r Hr; cbn [negb].
  2: { apply wpm_ret, Hsame; [|done]. split; [exact Hr|by split]. }
  apply wpm_bind. unfold wpm at 1. cbn [m_descriptors set_resources].
  destruct (fd_fork (ps_fds p) (m_descriptors s)) as [a [t|e]] eqn:Hf.
  2: { pose proof (sound_fork_refused h b s (m_active s) p a e (gd_sound _ _ _ Hs) Hp Hf) as ->.
       apply (wpm_refuse h b s p Hp _ Halloc Hb _ (m_scheduler s)); [|intros s' Hs'; by apply Hsame].
       by split; [apply (gd_sound _ _ _ Hr)|split]. }
  destruct (sound_fork h _ _ (m_active s) p a t (gd_sound _ _ _ Hr) Hp Hf) as (-> & Hwf & Hs1 & Hclose).
  set (s1 := set_descriptors _ a) in *.
  assert (H1 : forking h b s p (fork_allocation p) s1 ∧ m_scheduler s1 = m_scheduler s) by (by split). clearbody s1.
  apply wpm_bind, wpm_modify. set (s2 := set_processes s1 _).
  assert (H2 : forking h b s p (fork_allocation p) s2 ∧ m_scheduler s2 = m_scheduler s).
  { split; [|apply H1]. apply forking_processes; [apply H1| |].
    - apply (process_op_wf _ (OpUpdateCurrent _ _ _)), (gs_table _ _ _ (fk_sound _ _ _ _ _ _ (proj1 H1))).
    - intros pid _. by apply update_live. }
  clearbody s2. destruct H2 as [H2 Hsc2].
  pose proof (gs_table _ _ _ (fk_sound _ _ _ _ _ _ H2)) as Ht. apply wpm_bind. unfold wpm at 1.
  destruct (process_spawn _ _ _ _ _ _) as [t [pid|]] eqn:Hsp.
  2: { apply spawn_none in Hsp as [Hw Hl]; [|done]. apply wpm_bind. eapply (wpm_close_child h b s p); [done|..].
       { apply forking_processes; [exact H2|done|]. auto. }
       cbn [m_scheduler set_processes]. rewrite Hsc2. intros s' Ha.
       eapply (wpm_refuse h b s p); [done..|]. intros s'' Hs''. by apply Hsame. }
  pose proof (fresh_child h b s p s2 H2) as Hnone.
  apply spawn_record in Hsp as (-> & Hw & Hl & record & Hr3 & Hpid & Hlive); [|exact Ht].
  set (pid := pt_next_pid (m_processes s2)) in *.
  set (s3 := set_processes s2 t). assert (H3 : forking h b s p (fork_allocation p) s3) by (apply forking_processes; auto).
  change (pt_records (m_processes s3) !! pid = Some record) in Hr3. change (m_scheduler s3 = m_scheduler s) in Hsc2.
  clearbody s3 pid. rename Hsc2 into Hsc3.
  apply wpm_bind. eapply (wpm_suspend h b s p); [exact Hb|exact H3| |].
  2: { intros e s4 H4 Hsc4. apply wpm_bind. eapply (wpm_close_child h b s p); [exact Hwf|exact H4|].
       rewrite Hsc4, Hsc3. intros s5 H5.
       apply wpm_bind. eapply (wpm_undo_process h b s); [exact Hnone|exact H5|]. intros s6 H6.
       eapply (wpm_refuse h b s p); [done..|]. intros s7 H7. by apply Hsame. }
  rewrite Hsc3. intros n s4 H4 Hrec Hsame4 Hback Hcur. rewrite <-Hrec in Hr3. clear n.
  apply wpm_bind, wpm_sched. intros c r4 Hspawn.
  pose proof (gs_sched _ _ _ (fk_sound _ _ _ _ _ _ H4)) as Hc.
  pose proof (scheduler_spawn_wf _ pid Hc) as Hcw. rewrite Hspawn in Hcw. cbn [fst] in Hcw.
  apply spawn_runnable in Hspawn. destruct r4 as [[]|e].
  - destruct Hspawn as (Hin & Hcurrent & Hborn).
    eapply (wpm_install_child h b s p Hp); [done..| |].
    + intros Hfg. rewrite Hcurrent. by apply Hcur.
    + intros s' Hs'. by split.
  - subst c. assert (H5 : forking h b s p (fork_allocation p) (set_scheduler s4 (m_scheduler s4)))
      by (apply forking_scheduler; [exact H4|exact Hc|by intros q]).
    apply wpm_bind. eapply (wpm_close_child h b s p); [exact Hwf|exact H5|]. intros s5 H6. apply wpm_bind.
    eapply (wpm_undo_suspension h b s); [exact Hsame4|exact Hback|exact H6|]. intros c s6 Hundo H7. apply wpm_bind.
    eapply (wpm_undo_process h b s); [exact Hnone|exact H7|]. intros s7 H8.
    eapply (wpm_refuse h b s p); [done..|]. intros s8 (Hg & Hu & Hsc).
    split; [by split|split; [done|by rewrite Hsc]].
Qed.
End create_child.

(** ** The end of a process *)

(** The table [t'], held apart, takes the place of the table of [pid]. *)
Lemma desc_swapped a T h U pid t t' : desc_wf (MkDescSystem a T (table_ids t' ++ h) U) → T !! pid = Some t → table_wf t' →
  desc_wf (MkDescSystem (close_all t a).2 (<[pid := t']> T) h U) ∧ da_next_pipe a ≤ da_next_pipe (close_all t a).2.
Proof.
  intros Hy Ht Hw'. pose proof (dw_tables _ Hy _ _ Ht) as Hw. rewrite <-(insert_delete_id _ _ _ Ht) in Hy.
  apply desc_to_handles in Hy; [|apply lookup_delete_eq]. apply desc_close in Hy as [Hy Hn]; [|done]. split; [|done].
  rewrite <-insert_delete_eq. apply desc_from_handles; [apply lookup_delete_eq|done|exact Hy].
Qed.

Lemma good_swapped h b s p t : good (table_ids t ++ h) b s → m_states s !! m_active s = Some p → table_wf t →
  good h b (with_table s p t (close_all (ps_fds p) (m_descriptors s)).2).
Proof.
  intros Hs Hp Hw. destruct (gd_desc Hs) as [U HU].
  assert (Ht : (ps_fds <$> m_states s) !! m_active s = Some (ps_fds p)) by (by rewrite lookup_fmap, Hp).
  destruct (desc_swapped _ _ _ _ _ _ _ HU Ht Hw) as [Hd Hn]. cbn [arena_of dy_arena] in Hd, Hn.
  set (a := (close_all (ps_fds p) (m_descriptors s)).2) in *.
  assert (Hg : sound (table_ids t ++ h) b s) by (by apply gd_sound). open_sound Hg.
  assert (Hctx : ∀ q x, <[m_active s := with_fds p t]> (m_states s) !! q = Some x → context_ok q x).
  { intros q x [[<- <-]|[_ Hx]]%lookup_insert_Some; [|by apply Gcontexts].
    apply (context_ok_same _ p); [done|by apply Gcontexts]. }
  pose proof (insert_dom (m_states s) (m_active s) (with_fds p t)) as Hdom.
  assert (Hheld : held (with_table s p t a) = held s) by (by apply (held_context _ _ p)).
  close_good.
  - exists U. unfold arena_of, with_table. cbn [m_descriptors m_states set_states set_descriptors]. by rewrite fmap_insert.
  - eapply files_ok_kept; [apply close_all_files|exact Gfiles].
  - rewrite Hheld. exact Gmemory.
  - intros pipe n Hpn. destruct (Gpipes pipe n Hpn). split; [done|]. simpl. lia.
  - intros q Hq. apply Hdom; [by eexists|]. by apply Gtasks.
  - intros q Hq. apply Hdom in Hq; [|by eexists]. by apply Gprocesses.
  - simpl. rewrite lookup_insert_eq. by eexists.
Qed.

Lemma good_emptied h b s p : good h b s → m_states s !! m_active s = Some p →
  good h b (with_table s p fd_table_new (close_all (ps_fds p) (m_descriptors s)).2).
Proof.
  intros Hs Hp. apply good_swapped; [|done|apply fd_table_new_wf].
  assert (Hnil : table_ids fd_table_new = []) by (unfold btree_values; simpl; by rewrite btree_iter_empty).
  by rewrite Hnil.
Qed.

Section finish.
Context (h : list Z) (b : Z).
Notation wpm := (wpm False).

Lemma wpm_drain append id s (Q : unit → Machine → Prop) : good h b s →
  (∀ data s, good h b s → good h b (append data s) ∧ view_control (append data s) = view_control s) →
  (∀ s', good h b s' → view_control s' = view_control s → Q tt s') → wpm (drain_into append id) s Q.
Proof.
  intros Hs Ha HQ. unfold KernelInv.wpm, drain_into, mbind, run_bind.
  destruct (drain_capture_inert (m_descriptors s) id) as (a & r & Heq & Hi); [by eapply good_arena_wf|]. rewrite Heq.
  assert (Hk : files_kept (m_descriptors s) a).
  { revert Heq. unfold drain_capture. destruct (_ !! id) as [e|] eqn:He; [|by intros [= <- _]].
    destruct (de_description e) eqn:Hd; try (by intros [= <- _]). unfold mbind, run_bind. destruct (slice _ _ _); [|done..].
    intros [= <- _]. apply (files_entry _ _ e); [done|]. unfold entry_file. by rewrite Hd. }
  assert (Hg : good h b (set_descriptors s a)).
  { apply (good_op _ _ _ Hs (ODrainCapture id)); [done| |].
    - intros U. cbn [desc_step arena_of dy_arena]. unfold mbind, run_bind. rewrite Heq. by do 2 eexists.
    - eapply files_ok_kept, (gd_files Hs). done. }
  destruct r as [data|e]; apply HQ; try done; [apply Ha, Hg|]. by destruct (Ha data _ Hg) as [_ ->].
Qed.

Lemma append_pending_good data s : good h b s →
  (good h b (set_pending_stdout s (append_pending (m_pending_stdout s) data)) ∧
   view_control (set_pending_stdout s (append_pending (m_pending_stdout s) data)) = view_control s) ∧
  (good h b (set_pending_stderr s (append_pending (m_pending_stderr s) data)) ∧
   view_control (set_pending_stderr s (append_pending (m_pending_stderr s) data)) = view_control s).
Proof.
  intros [Hs Ha]. split; (split; [|done]); (split; [|exact Ha]); apply (sound_pending _ _ _ Hs).
Qed.

Lemma wpm_drain_detached p s (Q : unit → Machine → Prop) : good h b s →
  (∀ s', good h b s' → view_control s' = view_control s → Q tt s') → wpm (drain_detached p) s Q.
Proof.
  intros Hs HQ. unfold drain_detached. destruct (ps_detached p); [|by apply HQ]. cbv zeta. apply wpm_bind.
  assert (Herr : ∀ s1, good h b s1 → view_control s1 = view_control s → wpm
    match ok (fd_get (ps_fds p) 2) with
    | Some id => if bool_decide (Some id = ok (fd_get (ps_fds p) 1)) then mret tt
                 else drain_into (λ data m, set_pending_stderr m (append_pending (m_pending_stderr m) data)) id
    | None => mret tt end s1 Q).
  { intros s1 H1 Hv1. destruct (ok (fd_get (ps_fds p) 2)) as [id|]; [|by apply HQ].
    case_bool_decide; [by apply HQ|]. apply wpm_drain; [done| |].
    - intros data s2 H2. apply (append_pending_good data s2 H2).
    - intros s2 H2 Hv2. apply HQ; [done|congruence]. }
  destruct (ok (fd_get (ps_fds p) 1)) as [id|]; [|by apply wpm_ret, Herr].
  apply wpm_drain; [done| |].
  - intros data s2 H2. apply (append_pending_good data s2 H2).
  - intros s2 H2 Hv2. by apply Herr.
Qed.

Lemma wpm_wake_endpoints endpoints s (Q : unit → Machine → Prop) : good h b s →
  (∀ s', good h b s' → view_files s' = view_files s → view_control s' = view_control s → Q tt s') →
  wpm (wake_endpoints endpoints) s Q.
Proof.
  revert s. induction endpoints as [|[pipe reader] endpoints IH]; intros s Hs HQ; [by apply HQ|].
  cbn [wake_endpoints]. apply wpm_bind, (wpm_wake_other h b); [done|]. intros s1 H1 Hf1 Hv1.
  apply IH; [done|]. intros s2 H2 Hf2 Hv2. apply HQ; [done|congruence..].
Qed.

End finish.

(** Between the end of the record of [pid] and the removal of its context: the machine is good but
    for the record, which a ghost table still has. *)
Definition departing (h : list Z) (b pid : Z) (s : Machine) : Prop :=
  process_table_wf (m_processes s) ∧ ∃ t, sound h b (set_processes s t) ∧
    ∀ q, q ≠ pid → process_live t q → process_live (m_processes s) q.

Section departing.
Context (h : list Z) (b pid : Z).
Notation wpm := (wpm False).

Lemma departing_exit s status cwd : sound h b s →
  departing h b pid (set_processes s (process_exit (m_processes s) pid status cwd)).
Proof.
  intros Hs. split; [apply (process_op_wf _ (OpExit pid status cwd)), (gs_table _ _ _ Hs)|].
  exists (m_processes s). split; [by destruct s|]. intros q Hq (r & Hr & Hl). exists r. split; [|done].
  cbn [m_processes set_processes]. unfold process_exit, update_record. cbn [pt_records]. by rewrite lookup_alter_ne.
Qed.

Lemma departing_scheduler s c : departing h b pid s → sched_wf c → no_task_born (m_scheduler s) c →
  departing h b pid (set_scheduler s c).
Proof. intros (Ht & t & Hs & Hl) Hc Hb. split; [done|]. exists t. split; [|done]. exact (sound_scheduler _ _ _ Hs c Hc Hb). Qed.

Lemma departing_clock s c : departing h b pid s → departing h b pid (set_clock s c).
Proof. intros (Ht & t & Hs & Hl). split; [done|]. exists t. split; [|done]. exact (sound_clock _ _ _ Hs c). Qed.

Lemma departing_terminal s c : departing h b pid s → departing h b pid (set_terminal s c).
Proof. intros (Ht & t & Hs & Hl). split; [done|]. exists t. split; [|done]. exact (sound_terminal _ _ _ Hs c). Qed.

Lemma departing_sched s : departing h b pid s → sched_wf (m_scheduler s).
Proof. intros (_ & t & Hs & _). exact (gs_sched _ _ _ Hs). Qed.

(** The context goes: the machine is sound again, with what the context had left to give back. *)
Lemma departed s p : departing h b pid s → m_states s !! pid = Some p → ¬ task_live (m_scheduler s) pid →
  sound (table_ids (ps_fds p) ++ h) (b + context_bytes p) (set_states s (delete pid (m_states s))).
Proof.
  intros (Ht & t & Hs & Hl) Hp Hlive. pose proof (sound_vanish h b _ pid p Hs Hp Hlive) as Hv.
  pose proof (sound_processes _ _ _ Hv (m_processes s) Ht) as Hv'.
  assert (He : set_processes (set_states (set_processes s t) (delete pid (m_states (set_processes s t)))) (m_processes s) =
    set_states s (delete pid (m_states s))) by (by destruct s). rewrite He in Hv'.
  apply Hv'. intros q. cbn [m_states set_states set_processes]. intros [x [Hne _]%lookup_delete_Some] Hq. by apply Hl.
Qed.

(** What the steps until then keep. *)
Definition view_exit (s : Machine) : gmap Z DescriptionEntry * gmap Z Descriptors.Pipe * gmap Z Z * gmap Z Vfs.Node *
    gmap Z ProcessState * Z :=
  (view_files s, m_states s, m_active s).

Lemma wpm_depart_wake f p s (Q : unit → Machine → Prop) : (∀ c, f c = wake_matching c p) → departing h b pid s →
  ¬ task_live (m_scheduler s) pid →
  (∀ s', departing h b pid s' → ¬ task_live (m_scheduler s') pid → view_exit s' = view_exit s →
     sc_current (m_scheduler s') = sc_current (m_scheduler s) → Q tt s') → wpm (wake f) s Q.
Proof.
  intros Hf Hs Hl HQ. unfold KernelInv.wpm, wake, mbind, run_bind. rewrite Hf.
  pose proof (departing_sched s Hs) as Hc.
  destruct (wake_matching_spec (m_scheduler s) p Hc) as (c & -> & Hw & Hcw).
  assert (Hb : no_task_born (m_scheduler s) c) by (intros q; by eapply woke_live).
  apply HQ; [by apply departing_scheduler|by intros ?%Hb|done|exact (wo_current _ _ _ Hw)].
Qed.

Lemma wpm_depart_parents q s (Q : unit → Machine → Prop) : departing h b pid s → ¬ task_live (m_scheduler s) pid →
  (∀ s', departing h b pid s' → ¬ task_live (m_scheduler s') pid → view_exit s' = view_exit s →
     sc_current (m_scheduler s') = sc_current (m_scheduler s) → Q tt s') → wpm (wake_parents q) s Q.
Proof.
  intros Hs Hl HQ. unfold wake_parents. apply wpm_bind. eapply wpm_depart_wake; [done|done|done|].
  intros s1 H1 Hl1 Hv1 Hc1. eapply wpm_depart_wake; [done|done|done|]. intros s2 H2 Hl2 Hv2 Hc2.
  apply HQ; [done|done|congruence..].
Qed.

Lemma departing_reclaim s : departing h b pid s → ∃ s', reclaim_terminal s = Ret (s', tt) ∧ departing h b pid s' ∧
  view_exit s' = view_exit s ∧ m_scheduler s' = m_scheduler s.
Proof.
  intros Hs. unfold reclaim_terminal, modify. destruct (running_group _ _).
  - eexists. split; [done|]. split; [by apply departing_terminal|done].
  - eexists. by split.
Qed.

End departing.

(** The task that ends leaves the processor, and the next one, if any, takes it. *)
Lemma dispatch_next c c' r : sched_wf c → dispatch c = (c', r) → sc_current c = None →
  sched_wf c' ∧ no_task_born c c' ∧
  match r with
  | Ok (Some next) => sc_current c' = Some next ∧ task_live c' next
  | Ok None => sc_current c' = None
  | Err _ => False
  end.
Proof.
  intros Hc Hd Hn. pose proof (dispatch_wf c Hc) as Hw. pose proof (dispatch_born c) as Hb. rewrite Hd in Hw, Hb.
  split_and!; [done|done|]. revert Hd. unfold dispatch. rewrite Hn.
  destruct (sc_runnable c) as [|pid queue] eqn:Hq; [by intros [= <- <-]|].
  pose proof (sw_runnable _ Hc pid) as Hpid. rewrite Hq in Hpid. rewrite (proj1 Hpid) by left. intros [= <- <-].
  split; [done|]. unfold task_live. cbn [sc_states]. by rewrite lookup_insert_eq.
Qed.

(** What a signal to the parent keeps: everything that is stored, and who runs. *)
Definition view_tail (s : Machine) : gmap Z DescriptionEntry * gmap Z Descriptors.Pipe * gmap Z Z * gmap Z Vfs.Node * option Z :=
  (view_files s, sc_current (m_scheduler s)).

Lemma view_and_then {V A B} (view : Machine → V) (m : lifecycle A) (k : A → lifecycle B) :
  keeps_view view m → (∀ a, keeps_view view (k a)) → keeps_view view (and_then k m).
Proof. intros Hm Hk. apply view_bind; [done|]. intros []; [apply Hk|apply view_ret]. Qed.

Lemma view_sched_wake pid : keeps_view view_tail (sched_do (λ c, scheduler_wake c pid)).
Proof.
  refine (view_scheduler view_tail (λ c, scheduler_wake c pid) _). intros s c a Hc. unfold view_tail, view_files. cbn.
  pose proof (scheduler_wake_current (m_scheduler s) pid) as Hw. rewrite Hc in Hw. cbn in Hw. by rewrite Hw.
Qed.

Lemma view_queue_signal pid signal : keeps_view view_tail (queue_signal pid signal).
Proof.
  unfold queue_signal. apply view_bind; [apply view_gets|]. intros [p|]; [|apply view_ret].
  apply view_bind; [by apply view_modify|intros _]. unfold wake_if. apply view_bind; [apply view_gets|]. intros blocked.
  destruct (_ && _); [|apply view_ret]. apply view_bind; [apply view_sched_wake|]. intros []; apply view_ret.
Qed.

Lemma view_child_signal pid : keeps_view view_tail (send_signal pid Process.Child).
Proof.
  unfold send_signal. apply view_bind; [apply view_gets|]. intros [[| |]|]; try apply view_ret; cbn [bool_decide].
  all: apply view_bind; [apply view_gets|]; intros running; cbn [andb].
  all: apply view_and_then; [apply view_ret|intros _; apply view_queue_signal].
Qed.

Lemma wpm_steady {V A} (view : Machine → V) (m : mach A) h b s (Q : A → Machine → Prop) :
  steady m → keeps_view view m → sound h b s →
  (∀ a s', sound h b s' → kept s s' → view s' = view s → Q a s') → wpm False m s Q.
Proof.
  intros Hm Hv Hs HQ. pose proof (Hm h b s Hs) as Hw. unfold wpm in *. destruct (m s) as [[s' a]| |] eqn:Heq; [|done..].
  destruct Hw. apply HQ; [done|done|]. by eapply Hv.
Qed.

Lemma steady_notify pid parent status event : steady (update_state parent (notify_parent pid status event)).
Proof. apply steady_update. intros p. unfold notify_parent. by destruct event. Qed.

Lemma steady_reap_record pid : steady (processes_do (λ t, (process_reap t pid).1)).
Proof. apply (steady_record (OpReap pid)). intros t Ht q. apply reap_live. Qed.

Lemma view_sched_reap pid : keeps_view view_tail (sched_do (λ c, scheduler_reap c pid)).
Proof.
  refine (view_scheduler view_tail (λ c, scheduler_reap c pid) _). intros s c a. unfold scheduler_reap. destruct (sc_states _ !! pid) as [[]|]; by intros [= <- _].
Qed.

(** The last part of [finish_child]: the parent learns of the end, the next process runs, the memory
    is returned. *)
Lemma wpm_finish_tail h b s pid parent status event allocation (scheduled : result SchedulerError (option Z))
    (Q : unit → Machine → Prop) :
  sound h (b + allocation) s → 0 ≤ b → 0 ≤ allocation →
  match scheduled with
  | Ok (Some next) => sc_current (m_scheduler s) = Some next ∧ is_Some (m_states s !! next)
  | Ok None => sc_current (m_scheduler s) = None
  | Err _ => False
  end →
  (∀ s', sound h b s' → dom (m_states s') = dom (m_states s) → view_tail s' = view_tail s →
     (∀ next, sc_current (m_scheduler s') = Some next → m_active s' = next ∧ is_Some (m_states s' !! next)) → Q tt s') →
  wpm False (
    retained ← gets (λ m, bool_decide (is_Some (m_states m !! parent)));
    _ ← update_state parent (notify_parent pid status event);
    _ ← match scheduled with
        | Ok (Some next) => r ← activate next; match r with Ok _ => mret tt | Err _ => panic end
        | _ => mret tt
        end;
    _ ← (if retained : bool then _ ← send_signal parent Process.Child; mret tt
         else _ ← processes_do (λ t, (process_reap t pid).1); _ ← sched_do (λ c, scheduler_reap c pid); mret tt);
    release_bytes allocation) s Q.
Proof.
  intros Hs Hb Halloc Hsched HQ. apply wpm_bind, wpm_gets. generalize (bool_decide (is_Some (m_states s !! parent))). intros retained.
  apply wpm_bind. eapply (wpm_steady view_tail); [apply steady_notify|by apply view_modify|exact Hs|]. intros [] s1 H1 [Hd1 Ha1] Hv1.
  assert (Hcur : sc_current (m_scheduler s1) = sc_current (m_scheduler s)) by exact (f_equal snd Hv1).
  assert (Hrest : ∀ s2, sound h (b + allocation) s2 → dom (m_states s2) = dom (m_states s) → view_tail s2 = view_tail s →
    (∀ next, sc_current (m_scheduler s2) = Some next → m_active s2 = next ∧ is_Some (m_states s2 !! next)) →
    wpm False (_ ← (if retained : bool then _ ← send_signal parent Process.Child; mret tt
         else _ ← processes_do (λ t, (process_reap t pid).1); _ ← sched_do (λ c, scheduler_reap c pid); mret tt);
      release_bytes allocation) s2 Q).
  { intros s2 H2 Hd2 Hv2 Hn2. apply wpm_bind. eapply (wpm_steady view_tail); [| |exact H2|].
    - destruct retained; [apply steady_bind; [apply steady_send_signal|intros; apply steady_ret]|].
      apply steady_bind; [apply steady_reap_record|intros _]. apply steady_bind; [apply steady_sched_reap|intros; apply steady_ret].
    - destruct retained; [apply view_bind; [apply view_child_signal|intros; apply view_ret]|].
      apply view_bind; [by apply view_modify|intros _]. apply view_bind; [apply view_sched_reap|intros; apply view_ret].
    - intros [] s3 H3 [Hd3 Ha3] Hv3. apply (wpm_release_sound h b); [done..|]. intros r Hr.
      apply HQ; [done|by rewrite <-Hd2, <-Hd3|by rewrite <-Hv2, <-Hv3|]. intros next. cbn [m_scheduler m_active m_states set_resources].
      rewrite Ha3, <-elem_of_dom, Hd3, elem_of_dom. intros Hn. apply Hn2. rewrite <-Hn. symmetry. exact (f_equal snd Hv3). }
  apply wpm_bind. destruct scheduled as [[next|]|]; [| |done].
  - destruct Hsched as [Hc Hn]. apply wpm_bind. unfold activate. apply wpm_bind, wpm_gets.
    assert (Hn1 : is_Some (m_states s1 !! next)) by (by rewrite <-elem_of_dom, Hd1, elem_of_dom).
    rewrite bool_decide_eq_true_2 by done. apply wpm_bind, wpm_modify, wpm_ret, wpm_ret.
    apply Hrest; [by apply sound_active|done|done|]. intros q. cbn [m_scheduler m_active m_states set_active].
    rewrite Hcur, Hc. by intros [= <-].
  - apply wpm_ret, Hrest; [done|done|done|]. intros q. by rewrite Hcur, Hsched.
Qed.

Lemma sound_exit_record h b s pid : good h b s → good h b (set_processes s (update_descriptors (m_processes s) pid ∅)).
Proof.
  intros Hs. apply (good_processes _ _ _ Hs); [apply (process_op_wf _ (OpUpdateDescriptors pid ∅)), (gd_table Hs)|].
  intros q. by apply update_live.
Qed.

(** What the end of [pid] leaves: a machine that is sound with the memory it had outside the context,
    without the context, tidy, and with a live process running if any process runs. *)
Definition ended (h : list Z) (b : Z) (s : Machine) (pid : Z) (s' : Machine) : Prop :=
  sound h b s' ∧ dom (m_states s') = dom (m_states s) ∖ {[pid]} ∧ tidy s' ∧
  ∀ next, sc_current (m_scheduler s') = Some next → m_active s' = next ∧ is_Some (m_states s' !! next).

(** From the end of the record on. *)
Lemma wpm_depart h b s pid parent status event cwd p (Q : unit → Machine → Prop) :
  good h b s → tidy s → m_states s !! pid = Some p → sc_current (m_scheduler s) = Some pid → ft_entries (ps_fds p) = ∅ →
  (∀ s', ended h b s pid s' → Q tt s') →
  wpm False (
    _ ← processes_do (λ t, process_exit t pid status cwd);
    _ ← reclaim_terminal;
    _ ← modify (λ m, set_clock m (cancel_task_events (m_clock m) pid).1);
    _ ← sched_do (λ c, exit_current c status);
    _ ← wake_parents pid;
    scheduled ← sched_do dispatch;
    _ ← modify (λ m, set_states m (delete pid (m_states m)));
    retained ← gets (λ m, bool_decide (is_Some (m_states m !! parent)));
    _ ← update_state parent (notify_parent pid status event);
    _ ← match scheduled with
        | Ok (Some next) => r ← activate next; match r with Ok _ => mret tt | Err _ => panic end
        | _ => mret tt
        end;
    _ ← (if retained : bool then _ ← send_signal parent Process.Child; mret tt
         else _ ← processes_do (λ t, (process_reap t pid).1); _ ← sched_do (λ c, scheduler_reap c pid); mret tt);
    release_bytes (context_bytes p)) s Q.
Proof.
  intros Hg Ht Hp Hcur Hfds HQ. apply wpm_bind, wpm_modify.
  pose proof (departing_exit h b pid s status cwd (gd_sound _ _ _ Hg)) as Hdep. set (s1 := set_processes s _) in *.
  destruct (departing_reclaim h b pid s1 Hdep) as (s2 & Hr & Hdep2 & Hv2 & Hc2).
  apply wpm_bind. unfold wpm at 1. rewrite Hr. apply wpm_bind, wpm_modify, wpm_bind, wpm_sched. intros c r Hexit.
  set (s3 := set_clock s2 _) in *. assert (H3 : departing h b pid s3) by (by apply departing_clock).
  destruct (exit_born (m_scheduler s3) status pid) as (Hb & Hl & Hn); [by eapply departing_sched|cbn; by rewrite Hc2|].
  pose proof (exit_current_wf _ status (departing_sched h b pid s3 H3)) as Hw. rewrite Hexit in Hb, Hl, Hn, Hw. cbn [fst] in *.
  apply wpm_bind. eapply wpm_depart_parents; [by apply departing_scheduler|exact Hl|]. intros s4 H4 Hl4 Hv4 Hc4.
  apply wpm_bind, wpm_sched. intros c5 scheduled Hd.
  apply dispatch_next in Hd as (Hw5 & Hb5 & Hnext); [|by eapply departing_sched|by rewrite Hc4].
  pose proof (departing_scheduler h b pid s4 c5 H4 Hw5 Hb5) as H5. set (s5 := set_scheduler s4 c5) in *.
  assert (Hv5 : view_exit s5 = view_exit s).
  { change (view_exit s4 = view_exit s1). rewrite Hv4. exact Hv2. }
  assert (Hst : m_states s5 = m_states s) by exact (f_equal (snd ∘ fst) Hv5).
  assert (Hfl : view_files s5 = view_files s) by exact (f_equal (fst ∘ fst) Hv5).
  apply wpm_bind, wpm_modify. pose proof (departed h b pid s5 p H5) as Hgone.
  rewrite Hst in Hgone. specialize (Hgone Hp). assert (Hdead : ¬ task_live (m_scheduler s5) pid) by (intros ?%Hb5; by apply Hl4).
  specialize (Hgone Hdead). rewrite Hfds in Hgone. change (btree_values ∅ ++ h) with h in Hgone. rewrite Hst.
  eapply wpm_finish_tail; [exact Hgone|apply (gd_base Hg)|eapply context_bytes_nonneg, (gd_contexts Hg _ _ Hp)| |].
  - destruct scheduled as [[next|]|]; [|exact Hnext|exact Hnext]. destruct Hnext as [Hc Hln]. split; [exact Hc|].
    exact (gs_tasks _ _ _ Hgone next Hln).
  - intros s' Hs' Hdom Hv Hrun. apply HQ. split_and!; [exact Hs'| | |exact Hrun].
    + rewrite Hdom. cbn [m_states set_states]. by rewrite dom_delete_L.
    + eapply tidy_view; [|exact Ht]. rewrite <-Hfl. exact (f_equal fst Hv).
Qed.

Lemma wpm_update f s p (Q : unit → Machine → Prop) : m_states s !! m_active s = Some p →
  Q tt (set_states s (<[m_active s := f p]> (m_states s))) → wpm False (update_current f) s Q.
Proof. intros Hp HQ. unfold wpm, update_current, current, modify, mbind, stm_bind. by rewrite Hp. Qed.

Lemma wpm_finish_child h b s pid status p : good h b s → m_active s = pid → m_states s !! pid = Some p →
  sc_current (m_scheduler s) = Some pid → wpm False (finish_child pid status) s (λ _, ended h b s pid).
Proof.
  intros Hs <- Hp Hcur. unfold finish_child. apply wpm_bind, wpm_current; [|by eexists].
  intros p' Hp'. rewrite Hp in Hp'. injection Hp' as <-. cbv zeta.
  rewrite (held_bytes_exact h b s (m_active s) p (gd_sound _ _ _ Hs) Hp).
  apply wpm_bind, (wpm_drain_detached h b); [done|]. intros s1 H1 Hv1. apply wpm_bind, wpm_gets.
  generalize (table_endpoints (m_descriptors s1) (ps_fds p)). intros endpoints.
  assert (Hp1 : m_states s1 !! m_active s1 = Some p) by (injection Hv1 as -> -> _; done).
  pose proof (good_emptied h b s1 p H1 Hp1) as H2. set (s2 := with_table _ _ _ _) in *.
  apply wpm_bind. unfold wpm at 1. apply wpm_bind, (wpm_update _ _ p); [exact Hp1|].
  match goal with |- wpm _ _ ?s _ => assert (Hs2 : s = s2) by done; rewrite Hs2; clear Hs2 end.
  assert (Hst2 : m_states s2 = <[m_active s := with_fds p fd_table_new]> (m_states s)).
  { injection Hv1 as Hst Hact _. unfold s2. cbn. by rewrite Hst, Hact. }
  assert (Hcur2 : sc_current (m_scheduler s2) = Some (m_active s)) by (injection Hv1 as _ _ Hc; unfold s2; cbn; by rewrite Hc).
  clearbody s2.
  apply wpm_bind, (wpm_wake_locks h b); [done|]. intros s3 H3 _ Hv3.
  apply wpm_bind, (wpm_release_closed h b); [done|]. intros s4 H4 Ht4 Hv4.
  apply wpm_bind, (wpm_retain_live h b); [done..|]. intros s5 H5 Ht5 Hv5.
  apply wpm_bind, (wpm_wake_endpoints h b); [done|]. intros s6 H6 Hf6 Hv6. apply wpm_bind, wpm_modify.
  pose proof (sound_exit_record h b s6 (m_active s) H6) as H7. set (s7 := set_processes s6 _) in *.
  assert (Hv7 : view_control s7 = view_control s2) by (change (view_control s6 = view_control s2); congruence).
  assert (Hf7 : view_files s7 = view_files s5) by exact Hf6. clearbody s7.
  injection Hv7 as Hst _ Hcur7. change (context_bytes p) with (context_bytes (with_fds p fd_table_new)).
  eapply (wpm_depart h b); [exact H7|by eapply tidy_view|by rewrite Hst, Hst2, lookup_insert_eq|by rewrite Hcur7|done|].
  intros s' (Hs' & Hd & Ht & Hn). split_and!; [done| |done|done].
  rewrite Hd, Hst, Hst2, dom_insert_lookup_L; [done|by eexists].
Qed.

(** ** What the end of a process leaves alone

    The clock, the host and the descriptor tables: [view_calm] is kept by the scheduler, the signals and
    the records; the end of a process cancels its timers and takes its own table. *)

Definition view_calm (s : Machine) : Timeline * HostView * gmap Z FdTable := (m_clock s, m_host s, ps_fds <$> m_states s).

Lemma fds_alter (f : ProcessState → ProcessState) pid (states : gmap Z ProcessState) :
  (∀ p, ps_fds (f p) = ps_fds p) → ps_fds <$> alter f pid states = ps_fds <$> states.
Proof.
  intros Hf. apply map_eq. intros q. rewrite !lookup_fmap. destruct (decide (pid = q)) as [->|Hne].
  - rewrite lookup_alter_eq. destruct (states !! q); [|done]. cbn. by rewrite Hf.
  - by rewrite lookup_alter_ne.
Qed.

Ltac keep_calm :=
  repeat lazymatch goal with
  | |- ∀ _, _ => intro
  | |- keeps_view _ (mbind _ _) => apply view_bind
  | |- keeps_view _ (and_then _ _) => apply view_and_then
  | |- keeps_view _ (mret _) => apply view_ret
  | |- keeps_view _ (refuse _) => apply view_ret
  | |- keeps_view _ (accept _) => apply view_ret
  | |- keeps_view _ (gets _) => apply view_gets
  | |- keeps_view _ (modify _) => apply view_modify
  | |- keeps_view _ (lift_run _) => apply view_lift
  | |- keeps_view _ panic => apply view_panic
  | |- keeps_view _ (match ?x with _ => _ end) => destruct x eqn:?
  | |- keeps_view _ _ => solve [eauto 2]
  end.

Lemma still_update pid f : (∀ p, ps_fds (f p) = ps_fds p) → keeps_view view_calm (update_state pid f).
Proof. intros Hf. apply view_modify. intros s. unfold view_calm. cbn. by rewrite fds_alter. Qed.

Lemma still_sched {A} (f : Scheduler → Scheduler * result SchedulerError A) : keeps_view view_calm (sched_do f).
Proof. intros s s' r. unfold sched_do. destruct (f _). by intros [= <- _]. Qed.

Lemma still_wake f : keeps_view view_calm (wake f).
Proof. intros s s' []. unfold wake, mbind, run_bind. destruct (f _) as [[c n]| |]; [|done..]. by intros [= <-]. Qed.

Lemma still_mark_jobs pid status : keeps_view view_calm (mark_jobs pid status).
Proof.
  unfold mark_jobs. apply view_modify. intros s. unfold view_calm. cbn. f_equal.
  apply map_eq. intros q. rewrite !lookup_fmap. by destruct (m_states s !! q).
Qed.

Lemma still_reclaim : keeps_view view_calm reclaim_terminal.
Proof. apply view_modify. intros s. by destruct (running_group _ _). Qed.

Lemma still_send_signal pid signal : keeps_view view_calm (send_signal pid signal).
Proof.
  pose proof @still_sched. pose proof still_wake. pose proof still_mark_jobs. pose proof still_reclaim.
  assert (∀ q f, (∀ p, ps_fds (f p) = ps_fds p) → keeps_view view_calm (update_state q f)) by apply still_update.
  unfold send_signal, env_continue_process, stop_process, queue_signal, wake_if, wake_parents, processes_do.
  keep_calm; done.
Qed.

Lemma still_activate pid : keeps_view view_calm (activate pid).
Proof. unfold activate. keep_calm; done. Qed.

Lemma still_wake_locks : keeps_view view_calm env_wake_file_lock_waiters.
Proof.
  pose proof still_wake. unfold env_wake_file_lock_waiters. apply view_bind; [|keep_calm].
  intros s s' a. destruct (take_file_lock_changes _). by intros [= <- _].
Qed.

Lemma still_release_closed : keeps_view view_calm release_closed_pipe_memory.
Proof. intros s s' []. destruct (release_closed_tidy s) as (r & reservations & -> & _). by intros [= <-]. Qed.

Lemma still_wake_endpoints endpoints : keeps_view view_calm (wake_endpoints endpoints).
Proof. pose proof still_wake. induction endpoints as [|[pipe reader] endpoints IH]; cbn [wake_endpoints]; keep_calm. Qed.

(** The same of all processes but [pid]. *)
Definition view_others (pid : Z) (s : Machine) : Timeline * HostView * gmap Z FdTable :=
  (m_clock s, m_host s, delete pid (ps_fds <$> m_states s)).

Lemma others_calm pid {A} (m : mach A) : keeps_view view_calm m → keeps_view (view_others pid) m.
Proof. intros Hm s s' a Hs. pose proof (Hm s s' a Hs) as Hv. injection Hv as Hc Hh Ht. unfold view_others. by rewrite Hc, Hh, Ht. Qed.

Lemma bind_inv {A B} (m : mach A) (k : A → mach B) s s' b : (m ≫= k) s = Ret (s', b) →
  ∃ s1 a, m s = Ret (s1, a) ∧ k a s1 = Ret (s', b).
Proof. unfold mbind, stm_bind. destruct (m s) as [[s1 a]| |]; [|done..]. by exists s1, a. Qed.

Definition view_calm_active (s : Machine) : Timeline * HostView * gmap Z FdTable * Z := (view_calm s, m_active s).

Lemma calm_drain_detached p : keeps_view view_calm_active (drain_detached p).
Proof.
  assert (Hd : ∀ append id, (∀ data s, view_calm_active (append data s) = view_calm_active s) →
    keeps_view view_calm_active (drain_into append id)).
  { intros append id Ha s s' []. unfold drain_into, mbind, run_bind. destruct (drain_capture _ _) as [[a [data|e]]| |]; [| |done..].
    - intros [= <-]. by rewrite Ha.
    - by intros [= <-]. }
  unfold drain_detached. cbv zeta. keep_calm; by apply Hd.
Qed.

(** The timers of [pid] are cancelled, and no other table changes. *)
Lemma finish_child_calm status s s' a : finish_child (m_active s) status s = Ret (s', a) →
  view_others (m_active s) s' =
    ((cancel_task_events (m_clock s) (m_active s)).1, m_host s, delete (m_active s) (ps_fds <$> m_states s)).
Proof.
  pose proof @still_sched. pose proof still_wake. pose proof still_reclaim. pose proof still_send_signal.
  pose proof still_activate. pose proof still_wake_endpoints. pose proof still_wake_locks. pose proof still_release_closed.
  set (pid := m_active s). unfold finish_child. intros (s0 & p & Hc & Hrun)%bind_inv.
  unfold current in Hc. destruct (m_states s !! m_active s) as [p'|] eqn:Hp; [|done]. injection Hc as <- ->. cbv zeta in Hrun.
  apply bind_inv in Hrun as (s1 & [] & Hd & Hrun). apply calm_drain_detached in Hd. injection Hd as Hc1 Hh1 Ht1 Ha1.
  apply bind_inv in Hrun as (s1' & endpoints & Hg & Hrun). injection Hg as <- _.
  apply bind_inv in Hrun as (s2 & [] & Hcl & Hrun). destruct (close_all (ps_fds p) (m_descriptors s1)) as [t a2]. injection Hcl as <-.
  apply bind_inv in Hrun as (s3 & [] & Hu & Hrun).
  assert (Hv3 : view_others pid s3 = (m_clock s, m_host s, delete pid (ps_fds <$> m_states s))).
  { revert Hu. unfold update_current, current, modify, mbind, stm_bind. cbn [m_states m_active set_descriptors]. rewrite Ha1.
    destruct (m_states s1 !! m_active s) as [q|]; [|done]. intros [= <-]. unfold view_others.
    cbn [m_clock m_host m_states set_states set_descriptors m_active]. rewrite Ha1, Hc1, Hh1, fmap_insert, delete_insert_eq. by rewrite Ht1. }
  apply bind_inv in Hrun as (s4 & [] & Hw & Hrun). apply (others_calm pid) in Hw; [|done].
  apply bind_inv in Hrun as (s5 & [] & Hr & Hrun). apply (others_calm pid) in Hr; [|done].
  apply bind_inv in Hrun as (s6 & [] & Ho & Hrun). injection Ho as <-.
  apply bind_inv in Hrun as (s7 & [] & He & Hrun). apply (others_calm pid) in He; [|done].
  apply bind_inv in Hrun as (s8 & [] & Hx & Hrun). injection Hx as <-.
  apply bind_inv in Hrun as (s9 & [] & Hx & Hrun). injection Hx as <-.
  apply bind_inv in Hrun as (s10 & [] & Ht & Hrun). apply (others_calm pid) in Ht; [|done].
  assert (Hv10 : view_others pid s10 = (m_clock s, m_host s, delete pid (ps_fds <$> m_states s))).
  { rewrite Ht. change (view_others pid s7 = (m_clock s, m_host s, delete pid (ps_fds <$> m_states s))). rewrite He.
    change (view_others pid s5 = (m_clock s, m_host s, delete pid (ps_fds <$> m_states s))). by rewrite Hr, Hw, Hv3. }
  apply bind_inv in Hrun as (s11 & [] & Hx & Hrun). injection Hx as <-.
  eapply (eq_trans (y := view_others pid _)).
  - assert (Hkeep : ∀ m : mach unit, keeps_view (view_others pid) m → ∀ s1 s2, m s1 = Ret (s2, a) → view_others pid s2 = view_others pid s1) by eauto.
    refine (Hkeep _ _ _ _ Hrun).
    unfold wake_parents. keep_calm; try (apply others_calm; by auto); try by apply view_modify.
    + unfold view_others. cbn. by rewrite fmap_delete, delete_delete_eq.
    + apply others_calm, still_update. intros q. unfold notify_parent. by destruct (ps_deadline_interrupt p).
  - unfold view_others in *. injection Hv10 as Hc10 Hh10 Ht10. cbn [m_clock m_host m_states set_clock]. by rewrite Hc10, Hh10, Ht10.
Qed.
