(* ===== verification/KernelSystem.v ===== *)
(** * The system-call interface

    The modelled calls and the operations on processes as one type, the machine that runs them, and
    the theorems over it: every operation keeps the invariant and cannot bring the host down (two
    families apart), the accounts are exact after any sequence of operations, a fork is all or
    nothing, an exit returns everything. *)

From S2P Require Import Prelude.
From S2P Require Import State.
From S2P Require Import RustStr.
From S2P Require Import Resources.
From S2P Require Import Process.
From S2P Require Import Clock.
From S2P Require Import Scheduler.
From S2P Require Import Variables.
From S2P Require Import Descriptors.
From S2P Require Import DescriptorInv.
From S2P Require Import DescriptorSystem.
From S2P Require Import Paths.
From S2P Require Import Vfs.
From S2P Require Import VfsTree.
From S2P Require Import VfsUsage.
From S2P Require Import VfsSystem.
From S2P Require Import ProcessState.
From S2P Require Import Machine.
From S2P Require Import PseudoFs.
From S2P Require Import Kernel.
From S2P Require Import KernelInv.
From S2P Require Import KernelSafe.
From S2P Require Import KernelTidy.
From S2P Require Import Lifecycle.
From S2P Require Import LifecycleInv.
From S2P Require Import LifecycleSafe.
From S2P Require Import Boot.
From S2P Require Import BootInv.
From S2P Require Import ShellVars.
From S2P Require Import Expand.
From S2P Require Import ExpandInv.

(** ** Calls *)

Inductive Call :=
| CallOpenAt (fd : Z) (cwd path : string) (options : OpenFile)
| CallOpen (cwd path : string) (options : OpenFile)
| CallRead (fd maximum : Z)
| CallReadAt (fd offset maximum : Z)
| CallWrite (aliased : bool) (fd : Z) (data : bytes)
| CallSeek (fd delta whence : Z)
| CallResize (aliased : bool) (fd size : Z)
| CallClose (fd : Z)
| CallDuplicate (source destination : Z)
| CallPipe (close_on_exec nonblocking : bool)
| CallLock (fd : Z) (mode : option FileLockMode)
| CallReadiness (fd : Z) (writing : bool)
| CallBlock (w : IoWait)
| CallFileState (fd : Z)
| CallDescriptorState (fd : Z)
| CallDirectoryPath (fd : Z)
| CallChmod (cwd path : string) (mode : Z)
| CallUnlink (cwd path : string)
| CallMkdir (cwd path : string)
| CallRmdir (cwd path : string)
| CallMkdirAll (base path : string)
| CallCopyFile (base from to : string)
| CallSymlink (base target link : string)
| CallChown (base path : string) (uid gid : option Z)
| CallTouch (base path : string) (mtime_ms : Z)
| CallWriteFile (base path : string) (data : bytes) (mode : Z)
| CallPutFile (base path : string) (data : bytes) (mode : Z)
| CallBatch (base : string) (changes : list FileChange)
| CallMetadata (base path : string) (follow : bool)
| CallMetadataFd (fd : Z)
| CallReadLink (base path : string) (maximum : Z)
| CallListDir (cwd path : string)
| CallReadLimited (cwd path : string) (limit : Z)
| CallCanonicalize (base path : string) (strict : bool)
| CallChdir (path : string)
| CallUmask (mask : Z)
| CallHostname (name : string)
| CallClock (clock : ClockId)
| CallScheduleWake (duration_ns : Z)
| CallRandom (count : nat)
| CallTempId
| CallChildStatus (pid : Z)
| CallChildCompletion (pid : Z)
| CallReap (pid : Z).

Section system.
Context (format_seconds : Z → string) (engine : TextEngine).

(** A call for its effect on the machine. *)
Definition discard {A} (m : mach A) : mach unit := _ ← m; mret tt.

Definition run_call (call : Call) : mach unit :=
  match call with
  | CallOpenAt fd cwd path options => discard (sys_open_file_at format_seconds fd cwd path options)
  | CallOpen cwd path options => discard (sys_open_file format_seconds cwd path options)
  | CallRead fd maximum => discard (read_fd_checked fd maximum)
  | CallReadAt fd offset maximum => discard (read_fd_at_checked fd offset maximum)
  | CallWrite aliased fd data => discard (write_fd_checked aliased fd data)
  | CallSeek fd delta whence => discard (sys_seek fd delta whence)
  | CallResize aliased fd size => discard (sys_resize_file aliased fd size)
  | CallClose fd => discard (sys_close fd)
  | CallDuplicate source destination => discard (sys_duplicate source destination)
  | CallPipe close_on_exec nonblocking => discard (sys_pipe close_on_exec nonblocking)
  | CallLock fd mode => discard (sys_file_lock fd mode)
  | CallReadiness fd writing => discard (sys_descriptor_readiness fd writing)
  | CallBlock w => discard (block_on_io w)
  | CallFileState fd => discard (sys_file_state fd)
  | CallDescriptorState fd => discard (sys_descriptor_state fd)
  | CallDirectoryPath fd => discard (sys_directory_path fd)
  | CallChmod cwd path mode => discard (sys_chmod cwd path mode)
  | CallUnlink cwd path => discard (sys_unlink cwd path)
  | CallMkdir cwd path => discard (sys_mkdir cwd path)
  | CallRmdir cwd path => discard (sys_rmdir cwd path)
  | CallMkdirAll base path => discard (sys_mkdir_all base path)
  | CallCopyFile base from to => discard (sys_copy_file base from to)
  | CallSymlink base target link => discard (sys_symlink base target link)
  | CallChown base path uid gid => discard (sys_chown base path uid gid)
  | CallTouch base path mtime_ms => discard (sys_touch base path mtime_ms)
  | CallWriteFile base path data mode => discard (sys_write_file base path data mode)
  | CallPutFile base path data mode => discard (sys_put_file_with_parents base path data mode)
  | CallBatch base changes => discard (sys_apply_file_batch base changes)
  | CallMetadata base path follow => discard (sys_metadata format_seconds base path follow)
  | CallMetadataFd fd => discard (sys_metadata_fd format_seconds fd)
  | CallReadLink base path maximum => discard (sys_read_link_prefix format_seconds base path maximum)
  | CallListDir cwd path => discard (fs_list_dir format_seconds cwd path)
  | CallReadLimited cwd path limit => discard (fs_read_limited format_seconds cwd path limit)
  | CallCanonicalize base path strict => discard (sys_canonicalize format_seconds base path strict)
  | CallChdir path => discard (sys_chdir format_seconds path)
  | CallUmask mask => discard (sys_set_umask mask)
  | CallHostname name => discard (sys_set_hostname name)
  | CallClock clock => discard (sys_clock_time_ns clock)
  | CallScheduleWake duration_ns => discard (sys_schedule_wake duration_ns)
  | CallRandom count => discard (sys_random_fill count)
  | CallTempId => discard sys_allocate_temp_id
  | CallChildStatus pid => discard (sys_child_status pid)
  | CallChildCompletion pid => discard (sys_child_completion pid)
  | CallReap pid => discard (sys_reap_child pid)
  end.

(** The arguments are values of their Rust types, and the root is not removed (see the findings). *)
Definition call_valid (s : Machine) (call : Call) : Prop :=
  match call with
  | CallRead _ maximum => 0 ≤ maximum
  | CallResize _ _ size => 0 ≤ size
  | CallRmdir cwd path => realpath (m_vfs s) (resolve_against cwd path) true ≠ Ok "/"
  | _ => True
  end.

(** The calls that can panic: a resize, and those that ask for the identity of a generated node
    (see the findings). *)
Definition host_may_panic (call : Call) : bool :=
  match call with
  | CallResize _ _ _ | CallMetadata _ _ _ | CallMetadataFd _ | CallCanonicalize _ _ _ | CallChdir _ => true
  | _ => false
  end.

Lemma safe_discard_call {A} may h b (m : mach A) : safe may h b m → safe may h b (discard m).
Proof. intros Hm. unfold discard. apply safe_bind; [done|]. intros. apply safe_ret. Qed.

Lemma run_call_ok h b call s : good h b s → call_valid s call →
  wpm (host_may_panic call = true) (run_call call) s (λ _ s', good h b s').
Proof.
  intros Hs Hv. destruct call; cbn [run_call call_valid host_may_panic] in *;
    try (apply (safe_discard_call _ h b); [|done]; clear Hs s; auto 2 with kernel_safe; fail).
  - apply (safe_discard_call _ h b); [|done]. unfold sys_descriptor_state. keep_safe.
  - apply (safe_discard_call _ h b); [|done]. unfold sys_directory_path. keep_safe.
  - unfold discard. apply wpm_bind. eapply wpm_mono; [by apply wpm_rmdir|]. by intros.
Qed.

(** ** Actions

    A call of the active process, an operation on processes, or the choice of the next process. *)

Inductive Action :=
| ActCall (call : Call)
| ActFork (command : string) (new_shell foreground detached : bool) (placement : ChildPlacement)
| ActSession
| ActExit (status : Z)
| ActConfigure (pid : Z) (cwd : option string) (environment : option (gmap string string))
| ActSignal (pid : Z) (signal : Signal)
| ActSignalGroup (group : Z) (signal : Signal)
| ActTerminalSignal (signal : Signal)
| ActForeground (group : Z)
| ActStop (signal : Signal)
| ActTakeDelivery
| ActHandlerDone
| ActTakeDefault
| ActSyncMemory
| ActReleaseExpansion
| ActReleaseExec
| ActExpand (words : list string)
| ActSetVar (name value : string)
| ActYield
| ActDispatch.

Context (NODE_SIZE REDIRECT_SIZE : Z) (Hnode : 0 ≤ NODE_SIZE) (Hredirect : 0 ≤ REDIRECT_SIZE).

(** The process that gets the processor becomes the active one. *)
Definition dispatch_active : lifecycle unit :=
  dispatched ← sched_do dispatch;
  match dispatched with
  | Err error => refuse (DispatchChild error)
  | Ok None => accept tt
  | Ok (Some next) => activate next
  end.

Definition run_action (action : Action) : mach unit :=
  match action with
  | ActCall call => run_call call
  | ActFork command new_shell foreground detached placement =>
      discard (create_child NODE_SIZE REDIRECT_SIZE command new_shell foreground detached placement)
  | ActSession => discard (spawn_shell_session NODE_SIZE REDIRECT_SIZE)
  | ActExit status => p ← current; finish_child (ps_pid p) status
  | ActConfigure pid cwd environment => discard (configure_process pid cwd environment)
  | ActSignal pid signal => discard (send_signal pid signal)
  | ActSignalGroup group signal => discard (send_signal_group group signal)
  | ActTerminalSignal signal => discard (send_terminal_signal signal)
  | ActForeground group => discard (set_terminal_foreground group)
  | ActStop signal => discard (stop_active_process signal)
  | ActTakeDelivery => discard take_signal_delivery
  | ActHandlerDone => finish_signal_handler
  | ActTakeDefault => discard take_default_termination
  | ActSyncMemory => discard sync_shell_memory
  | ActReleaseExpansion => release_expansion_memory
  | ActReleaseExec => release_exec_metadata
  | ActExpand words => discard (expand_words_with engine words)
  | ActSetVar name value => discard (on_context (λ p, (set_var p name value, tt)))
  | ActYield => discard (sched_do yield_current)
  | ActDispatch => discard dispatch_active
  end.

(** When the machine takes the action: a process is active, and one that ends is running. *)
Definition permitted (s : Machine) (action : Action) : Prop :=
  match action with
  | ActDispatch => True
  | ActExit _ => is_Some (m_states s !! m_active s) ∧ sc_current (m_scheduler s) = Some (m_active s)
  | ActCall call => is_Some (m_states s !! m_active s) ∧ call_valid s call
  | _ => is_Some (m_states s !! m_active s)
  end.

Definition may_panic (action : Action) : bool :=
  match action with ActCall call => host_may_panic call | _ => false end.

Lemma yield_born c : sched_wf c → no_task_born c (yield_current c).1.
Proof.
  intros Hc. unfold yield_current. destruct (sc_current c) as [pid|] eqn:Hp; [|by intros q].
  intros q. cbn [fst]. eapply insert_live; [by apply current_live|done].
Qed.

Lemma safe_fork h b command new_shell foreground detached placement :
  safe False h b (create_child NODE_SIZE REDIRECT_SIZE command new_shell foreground detached placement).
Proof using Hnode Hredirect.
  intros s Hs. destruct (gd_active _ _ _ Hs) as [p Hp].
  eapply wpm_mono; [by apply (wpm_create_child _ _ Hnode Hredirect h b s p)|]. intros [pid|error] s'.
  - intros [_ [Hg _]]. exact Hg.
  - intros [[Hg _] _]. exact Hg.
Qed.

Lemma safe_session h b : safe False h b (spawn_shell_session NODE_SIZE REDIRECT_SIZE).
Proof using Hnode Hredirect.
  unfold spawn_shell_session. apply safe_bind; [apply safe_current|]. intros p. apply safe_bind; [apply safe_gets|]. intros idle.
  destruct (negb idle); [apply safe_ret|]. apply safe_bind; [apply safe_fork|]. intros [pid|error]; [|apply safe_ret].
  apply safe_bind; [apply steady_safe, steady_sched_park|]. intros []; apply safe_ret.
Qed.

Lemma runs_safe h b {A} (m : mach A) Q : runs h b m Q → safe False h b m.
Proof. intros Hm s Hs. eapply wpm_mono; [by apply Hm|]. by intros a s' (Hg & _). Qed.

Lemma safe_expand h b words : safe False h b (expand_words_with engine words).
Proof. unfold expand_words_with. exact (runs_safe _ _ _ (λ _, True) (fine_expand_words _ _ _ _ _ _ _ words)). Qed.

Lemma safe_set_var h b name value : safe False h b (on_context (λ p, (set_var p name value, tt))).
Proof. eapply (runs_safe _ _ _ (λ _, True)), runs_context. intros p. split; [apply set_var_step|done]. Qed.

Lemma sound_dispatch h b s : sound h b s → wpm False dispatch_active s (λ _ s', sound h b s').
Proof.
  intros Hs. unfold dispatch_active. apply wpm_bind. eapply wpm_mono; [by apply (steady_sched_dispatch h b)|].
  intros r s1 [H1 _]. destruct r as [[next|]|]; [|done|done]. unfold activate. apply wpm_bind, wpm_gets.
  case_bool_decide; [|done]. apply wpm_bind, wpm_modify. by apply sound_active.
Qed.

Lemma run_action_ok h b action s : sound h b s → permitted s action →
  wpm (may_panic action = true) (run_action action) s (λ _ s', sound h b s').
Proof using Hnode Hredirect.
  intros Hs Hperm.
  assert (Hsafe : ∀ {A} (m : mach A), is_Some (m_states s !! m_active s) → safe False h b m →
    wpm False (discard m) s (λ _ s', sound h b s')).
  { intros A m Ha Hm. unfold discard. apply wpm_bind. eapply wpm_mono; [apply Hm; by split|]. intros a s' Hs'. by apply gd_sound. }
  assert (Hunit : ∀ m : mach unit, is_Some (m_states s !! m_active s) → safe False h b m → wpm False m s (λ _ s', sound h b s')).
  { intros m Ha Hm. eapply wpm_mono; [apply Hm; by split|]. intros a s' Hs'. by apply gd_sound. }
  destruct action; cbn [run_action permitted may_panic] in *; try (lazymatch goal with |- wpm (false = true) _ _ _ => apply (wpm_may False); [done|] end);
    try (lazymatch goal with
      | |- wpm _ (discard (expand_words_with _ _)) _ _ => apply Hsafe; [exact Hperm|apply safe_expand]
      | |- wpm _ (discard (on_context _)) _ _ => apply Hsafe; [exact Hperm|apply safe_set_var]
      end);
    try (by apply Hsafe; [|by auto using safe_fork, safe_session, steady_safe, steady_configure, steady_send_signal,
      steady_send_group, steady_terminal_signal, steady_foreground, safe_stop_active, safe_take_delivery, safe_take_default,
      safe_sync_memory]);
    try (by apply Hunit; [|by auto using safe_finish_handler, safe_release_expansion, safe_release_exec]).
  - destruct Hperm as [Ha Hv]. eapply wpm_mono; [apply (run_call_ok h b); [by split|done]|]. intros a s' Hs'. by apply gd_sound.
  - destruct Hperm as [[p Hp] Hc]. apply wpm_bind, wpm_current; [|by eexists]. intros p' Hp'. rewrite Hp in Hp'. injection Hp' as <-.
    destruct (gs_contexts _ _ _ Hs _ _ Hp) as [Hpid _]. rewrite Hpid.
    eapply wpm_mono; [eapply (wpm_finish_child h b); [split; [done|by eexists]|done|done|done]|]. by intros a s' [Hs' _].
  - apply Hsafe; [done|]. apply steady_safe, steady_sched. intros c Hc. split; [by apply yield_current_wf|by apply yield_born].
  - unfold discard. apply wpm_bind. eapply wpm_mono; [by apply sound_dispatch|]. done.
Qed.

(** C3: Every action of the machine (a system call of the active process, a fork, the end of a
    process, a signal, a delivery, a change of reserved memory, the expansion of words, an
    assignment, a dispatch), taken when it is permitted, ends, and if it returns, with success or
    with an error, it leaves a machine that satisfies the invariant. Five calls may panic instead:
    a resize, the metadata of a path or of a descriptor, a canonicalization and a change of
    directory; no other action does. The calls are those of [Call]: renaming, copying a tree and
    launching a program are not among them, and removing the root is not permitted. *)
Theorem actions_keep_machine h b s action : sound h b s → permitted s action →
  match run_action action s with
  | Ret (s', _) => sound h b s'
  | Panic => may_panic action = true
  | NoFuel => False
  end.
Proof using Hnode Hredirect.
  intros Hs Hp. pose proof (run_action_ok h b action s Hs Hp) as Hok. unfold wpm in Hok.
  by destruct (run_action action s) as [[s' []]| |].
Qed.

(** C4: A fork is all or nothing. Granted, there is one context more, a copy of the parent's under a
    fresh PID with the same descriptors, and the filesystem is as it was. Refused, for whatever
    reason, the contexts, the open descriptions, the filesystem, the pipes and the memory in use are
    exactly as before, and the parent is still the active process; and so is the scheduler, unless
    it had no room for the child of a parent already suspended for it: then the parent is queued
    again and the next process is picked, so the queues may differ, but the scheduler knows the same
    tasks as before and none of them came to life. It never panics. The process table is not
    claimed: a refused fork may use up a PID. *)
Theorem fork_is_all_or_nothing h b s p command new_shell foreground detached placement :
  good h b s → m_states s !! m_active s = Some p →
  match create_child NODE_SIZE REDIRECT_SIZE command new_shell foreground detached placement s with
  | Ret (s', Ok pid) =>
      good h b s' ∧ m_states s !! pid = None ∧ m_vfs s' = m_vfs s ∧
      ∃ record, pr_pid record = pid ∧
        m_states s' = <[pid := fork_for_child p record new_shell (ps_fds p)
          (sat_add64 (fork_memory_bytes NODE_SIZE REDIRECT_SIZE p) 256) detached]> (m_states s)
  | Ret (s', Err error) =>
      good h b s' ∧ untouched s s' ∧ rs_memory_current (m_resources s') = rs_memory_current (m_resources s) ∧
      rescheduled (m_scheduler s) (m_scheduler s') foreground error
  | _ => False
  end.
Proof using Hnode Hredirect.
  intros Hs Hp. pose proof (wpm_create_child _ _ Hnode Hredirect h b s p command new_shell foreground detached placement Hs Hp) as Hw.
  unfold wpm in Hw. destruct (create_child _ _ _ _ _ _ _ s) as [[s' [pid|error]]| |]; [| |done..].
  - destruct Hw as (Hnone & Hg & _ & Hv & record & Hpid & _ & Hst). split_and!; [done|done|done|]. by exists record.
  - destruct Hw as ((Hg & Hu & _) & _ & Hsched). split_and!; [done|done| |exact Hsched]. rewrite (gd_memory Hg), (gd_memory Hs). unfold held, reserved.
    by rewrite (un_states _ _ Hu), (un_pipes _ _ Hu).
Qed.

(** The timers that are left when those of [task] are cancelled. *)
Definition without_timers (task : Z) (t t' : Timeline) : Prop :=
  (∀ id, tm_pending t' !! id = (kind ← tm_pending t !! id; if owned_by task kind then None else Some kind)) ∧
  tm_ready t' = filter (λ e, owned_by task (se_kind e) = false) (tm_ready t) ∧ tm_monotonic_ns t' = tm_monotonic_ns t.

(** C5: The end of the running process always succeeds and gives back everything it had: its context is
    gone and every other process has the descriptors it had, the memory it held is returned (the
    machine is sound with the same memory outside the contexts), no unlinked file and no pipe is kept
    for it, its pending and ready timers are cancelled and no other timer is, and if a process is
    dispatched it is active and has a context. *)
Theorem exit_returns_everything h b s p status :
  good h b s → m_states s !! m_active s = Some p → sc_current (m_scheduler s) = Some (m_active s) →
  ∃ s', finish_child (m_active s) status s = Ret (s', tt) ∧ sound h b s' ∧
    dom (m_states s') = dom (m_states s) ∖ {[m_active s]} ∧ tidy s' ∧
    ps_fds <$> m_states s' = delete (m_active s) (ps_fds <$> m_states s) ∧
    without_timers (m_active s) (m_clock s) (m_clock s') ∧
    ∀ next, sc_current (m_scheduler s') = Some next → m_active s' = next ∧ is_Some (m_states s' !! next).
Proof.
  intros Hs Hp Hc. pose proof (wpm_finish_child h b s (m_active s) status p Hs eq_refl Hp Hc) as Hw. unfold wpm in Hw.
  destruct (finish_child (m_active s) status s) as [[s' []]| |] eqn:Hrun; [|done..]. exists s'. split; [done|].
  destruct Hw as (Hs' & Hd & Ht & Hn). apply finish_child_calm in Hrun.
  pose proof (f_equal (λ v, v.1.1) Hrun) as Hclock. pose proof (f_equal snd Hrun) as Hfds. unfold view_others in Hclock, Hfds. cbn [fst snd] in Hclock, Hfds.
  split_and!; [done..| | |exact Hn].
  - rewrite <-Hfds. symmetry. apply delete_id. rewrite lookup_fmap. destruct (m_states s' !! m_active s) eqn:Hq; [|done].
    apply elem_of_dom_2 in Hq. rewrite Hd in Hq. apply elem_of_difference in Hq as [_ Hq]. by destruct Hq; apply elem_of_singleton.
  - pose proof (cancel_task_events_spec (m_clock s) (m_active s)) as Hcancel. revert Hcancel. rewrite Hclock.
    destruct (cancel_task_events _ _). intros Hcancel. destruct Hcancel as (H1 & H2 & _ & H3 & _). by split_and!.
Qed.

(** ** Reachable machines *)

(** A machine boots in either clock mode. *)
Inductive reachable : Machine → Prop :=
| reach_boot limits registered mode elapsed s : bootable limits registered →
    with_limits_and_clock limits registered mode elapsed = Ret s → reachable s
| reach_step s action s' : reachable s → permitted s action → run_action action s = Ret (s', tt) → reachable s'.

Lemma reachable_sound s : reachable s → sound [] 0 s.
Proof using Hnode Hredirect.
  induction 1 as [limits registered mode elapsed s Hb Hs|s action s' _ IH Hp Hs].
  - destruct (boot_good limits registered Hb) as (s' & Hs' & Hg). unfold with_limits_and_clock in Hs. rewrite Hs' in Hs.
    injection Hs as <-. destruct mode; [apply Hg|apply sound_host, Hg].
  - pose proof (run_action_ok [] 0 action s IH Hp) as Hok. unfold wpm in Hok. by rewrite Hs in Hok.
Qed.

Lemma table_holders (states : gmap Z ProcessState) a U id :
  holders (MkDescSystem a (ps_fds <$> states) [] U) id = map_sum (λ _ p, table_count (ps_fds p) id) states.
Proof.
  unfold holders. cbn [dy_tables dy_handles]. change (list_count [] id) with 0. rewrite Z.add_0_r.
  induction states as [|pid p states Hp IH] using map_ind; [by rewrite fmap_empty, !map_sum_empty|].
  rewrite fmap_insert, !map_sum_insert; [by rewrite IH|done|by rewrite lookup_fmap, Hp].
Qed.

Lemma sound_counts h b s : sound h b s → ∃ U, counts_ok (refs (m_descriptors s)) (holders (arena_of h U s)) U.
Proof. intros Hs. destruct (gs_desc _ _ _ Hs) as [U HU]. exists U. exact (dw_counts _ HU). Qed.

(** C2: In every machine reached from a booted one, of either clock mode, by permitted actions
    ([Action]: renaming, copying a tree and launching a program are not among them, and removing the
    root is not permitted): the reference count of every open description is the number of
    descriptors that name it in all processes; every descriptor names a live description; the memory in use is exactly what the
    processes hold and the pipes have reserved, within the limit; the disk in use is what is measured
    from scratch, within the limit; and every task that has not exited belongs to a process that
    exists. *)
Theorem reachable_accounts_exact s : reachable s →
  (∀ id e, da_descriptions (m_descriptors s) !! id = Some e →
     de_references e = map_sum (λ _ p, table_count (ps_fds p) id) (m_states s)) ∧
  (∀ pid p fd id, m_states s !! pid = Some p → ft_entries (ps_fds p) !! fd = Some id →
     is_Some (da_descriptions (m_descriptors s) !! id)) ∧
  rs_memory_current (m_resources s) =
    map_sum (λ _ p, context_bytes p) (m_states s) + map_sum (λ _ n, n) (m_pipe_reservations s) ∧
  rs_memory_current (m_resources s) ≤ lim_memory (rs_limits (m_resources s)) ∧
  vf_disk_used (m_vfs s) = measured_usage (m_vfs s) ∧ vf_disk_used (m_vfs s) ≤ vf_disk_limit (m_vfs s) ∧
  (∀ pid, task_live (m_scheduler s) pid → is_Some (m_states s !! pid) ∧ process_live (m_processes s) pid).
Proof using Hnode Hredirect.
  intros Hs%reachable_sound. destruct (sound_counts _ _ _ Hs) as [U Hc]. split_and!.
  - intros id e He. rewrite <-(table_holders _ (m_descriptors s) U). apply (counts_refs _ _ _ _ _ Hc).
    rewrite refs_lookup. by rewrite He.
  - intros pid p fd id Hp Hfd. destruct (gs_desc _ _ _ Hs) as [U' HU].
    destruct (desc_referenced _ _ _ _ pid (ps_fds p) fd id HU) as (e & He & _); [by rewrite lookup_fmap, Hp|done|by eexists].
  - rewrite (gs_memory _ _ _ Hs). unfold held, reserved. lia.
  - apply (gs_limit _ _ _ Hs).
  - symmetry. apply wf_measured, (gs_disk _ _ _ Hs).
  - apply (wf_limit _ (gs_disk _ _ _ Hs)).
  - intros pid Hl. pose proof (gs_tasks _ _ _ Hs pid Hl). split; [done|]. by apply (gs_processes _ _ _ Hs).
Qed.

(** ** Examples *)

Fixpoint run_actions (actions : list Action) (s : Machine) : run Machine :=
  match actions with
  | [] => Ret s
  | action :: actions => '(s, _) ← run_action action s; run_actions actions s
  end.

Definition plain_call (call : Call) : bool :=
  match call with
  | CallRead _ maximum => 0 <=? maximum
  | CallResize _ _ size => 0 <=? size
  | CallRmdir _ _ => false
  | _ => true
  end.

Definition permits (s : Machine) (action : Action) : bool :=
  match action with
  | ActDispatch => true
  | ActExit _ => bool_decide (is_Some (m_states s !! m_active s)) && bool_decide (sc_current (m_scheduler s) = Some (m_active s))
  | ActCall call => bool_decide (is_Some (m_states s !! m_active s)) && plain_call call
  | _ => bool_decide (is_Some (m_states s !! m_active s))
  end.

Fixpoint permits_all (actions : list Action) (s : Machine) : bool :=
  match actions with
  | [] => true
  | action :: actions =>
      permits s action && match run_action action s with Ret (s, _) => permits_all actions s | _ => false end
  end.

Lemma permits_permitted s action : permits s action = true → permitted s action.
Proof.
  destruct action; simpl; try done; rewrite ?andb_true_iff, ?bool_decide_eq_true; try done.
  intros [Ha Hc]. split; [done|]. destruct call; simpl in *; try done; lia.
Qed.

Lemma reachable_run actions s : reachable s → permits_all actions s = true →
  ∃ s', run_actions actions s = Ret s' ∧ reachable s'.
Proof.
  revert s. induction actions as [|action actions IH]; intros s Hs; [by exists s|]. cbn [permits_all run_actions].
  rewrite andb_true_iff. intros [Hp Hr]. unfold mbind, run_bind. destruct (run_action action s) as [[s1 []]| |] eqn:Ha; [|done..].
  apply IH; [|done]. eapply reach_step; [exact Hs|by apply permits_permitted|exact Ha].
Qed.

End system.

(** A booted machine, and a run of it: a file is opened, written, shared with a child and unlinked;
    the child closes it and ends; the parent reaps the child. *)
Definition example_format (seconds : Z) : string := "0".
(** Patterns match their own text only. *)
Definition example_engine : TextEngine :=
  MkEngine (λ pattern, Some (λ text, bool_decide (pattern = "^" +:+ text +:+ "$"))) (λ s, s) (λ s, s) (λ s, s) (λ s, s).
Definition example_options : OpenFile := MkOpenFile true true true false false false.
Definition example_actions : list Action :=
  [ActCall (CallOpen "/" "/tmp/a" example_options); ActCall (CallWrite false 5 [Byte.x61; Byte.x62]);
   ActCall (CallPipe true false); ActFork "cat" false true false Inherit; ActCall (CallUnlink "/" "/tmp/a");
   ActSetVar "x" "b"; ActExpand ["a{$x,c}"; "${y:=$((1+2))}"];
   ActCall (CallClose 5); ActExit 3; ActCall (CallReap 1235)].

Lemma actions_keep_machine_witness : ∃ s s',
  run_action example_format example_engine 200 64 (ActFork "cat" false true false Inherit) s = Ret (s', tt) ∧ sound [] 0 s'.
Proof.
  destruct (example_boot (λ s, match run_action example_format example_engine 200 64 (ActFork "cat" false true false Inherit) s with
    Ret _ => true | _ => false end)) as (s & Hs & Hg & Hr); [vm_compute; reflexivity|].
  pose proof (actions_keep_machine example_format example_engine 200 64 ltac:(lia) ltac:(lia) [] 0 s
    (ActFork "cat" false true false Inherit) (gd_sound _ _ _ Hg) (gd_active _ _ _ Hg)) as Hk.
  destruct (run_action _ _ _ _ _ s) as [[s' []]| |] eqn:Hrun; [|discriminate Hr..].
  exists s, s'. split; [exact Hrun|exact Hk].
Defined.

Lemma fork_is_all_or_nothing_witness : ∃ s s' pid,
  create_child 200 64 "cat" false true false Inherit s = Ret (s', Ok pid) ∧ m_states s !! pid = None ∧ good [] 0 s'.
Proof.
  destruct (example_boot (λ s, match create_child 200 64 "cat" false true false Inherit s with
    Ret (_, Ok _) => true | _ => false end)) as (s & Hs & Hg & Hr); [vm_compute; reflexivity|].
  destruct (gd_active _ _ _ Hg) as [p Hp].
  pose proof (fork_is_all_or_nothing 200 64 ltac:(lia) ltac:(lia) [] 0 s p "cat" false true false Inherit Hg Hp) as Hk.
  destruct (create_child _ _ _ _ _ _ _ s) as [[s' [pid|]]| |] eqn:Hrun; [|discriminate Hr..]. exists s, s', pid.
  destruct Hk as (Hg' & Hn & _). split; [exact Hrun|split; [exact Hn|exact Hg']].
Defined.

Lemma exit_returns_everything_witness : ∃ s s',
  finish_child ROOT_PID 0 s = Ret (s', tt) ∧ dom (m_states s') = dom (m_states s) ∖ {[ROOT_PID]} ∧
  without_timers ROOT_PID (m_clock s) (m_clock s').
Proof.
  destruct (example_boot (λ s, (m_active s =? ROOT_PID) && bool_decide (sc_current (m_scheduler s) = Some (m_active s))))
    as (s & Hs & Hg & Hr); [vm_compute; reflexivity|].
  apply andb_true_iff in Hr as [Ha%Z.eqb_eq Hc%bool_decide_eq_true]. destruct (gd_active _ _ _ Hg) as [p Hp].
  destruct (exit_returns_everything [] 0 s p 0 Hg Hp Hc) as (s' & Hf & _ & Hd & _ & _ & Ht & _). exists s, s'.
  rewrite Ha in Hf, Hd, Ht. split; [exact Hf|split; [exact Hd|exact Ht]].
Defined.

Lemma reachable_accounts_exact_witness : ∃ s s', reachable example_format example_engine 200 64 s' ∧
  run_actions example_format example_engine 200 64 example_actions s = Ret s' ∧
  rs_memory_current (m_resources s') =
    map_sum (λ _ p, context_bytes p) (m_states s') + map_sum (λ _ n, n) (m_pipe_reservations s').
Proof.
  destruct (example_boot (permits_all example_format example_engine 200 64 example_actions)) as (s & Hs & Hg & Hr); [vm_compute; reflexivity|].
  destruct (reachable_run example_format example_engine 200 64 example_actions s) as (s' & Hrun & Hs'); [|exact Hr|].
  { apply (reach_boot _ _ _ _ limits_default [] VirtualTime (λ _, 0%N)); [apply example_bootable|].
    unfold with_limits_and_clock. by rewrite Hs. }
  exists s, s'. split; [exact Hs'|split; [exact Hrun|]].
  destruct (reachable_accounts_exact example_format example_engine 200 64 ltac:(lia) ltac:(lia) s' Hs') as (_ & _ & Hm & _). exact Hm.
Defined.

Lemma close_leaves_nothing_witness : ∃ s s', sys_close 1 s = Ret (s', Ok tt) ∧ tidy s'.
Proof.
  destruct (example_boot (λ s, match m_states s !! m_active s with
    Some p => bool_decide (is_Some (ft_entries (ps_fds p) !! 1)) | None => false end)) as (s & Hs & Hg & Hr); [vm_compute; reflexivity|].
  destruct (m_states s !! m_active s) as [p|] eqn:Hp; [|discriminate Hr]. apply bool_decide_eq_true in Hr.
  destruct (close_leaves_nothing [] 0 s p 1 Hg Hp Hr) as (s' & p' & Hc & _ & Ht & _). exists s, s'. split; [exact Hc|exact Ht].
Defined.
