(* ===== verification/ScriptHost.v ===== *)
(** * Hosts to run scripts on

    The executor is parametric in the commands it runs ([ExecHost.Host]). The first instance has
    [echo], [cat], [true] and [false] and no native images, which is enough for examples of the
    executor. The second is the whole model: a host with no [find], [make] or guests of WebAssembly,
    and no registered commands but [echo] and [printf], runs scripts from their text to their
    output: the parser, the executor, the builtins, the native programs, the scheduler and the
    kernel together. *)

From S2P Require Import Prelude.
From S2P Require Import State.
From S2P Require Import RustStr.
From S2P Require Import Resources.
From S2P Require Import Vfs.
From S2P Require Import Syntax.
From S2P Require Import ShellParser.
From S2P Require Import Machine.
From S2P Require Import ExecData.
From S2P Require Import ExecText.
From S2P Require Import ExecHost.
From S2P Require Import Exec.
From S2P Require Import Driver.
From S2P Require Import Boot.
From S2P Require Import Images.
From S2P Require Import CommandIo.
From S2P Require Import ProgramSystem.
From S2P Require Import NativePrograms.
From S2P Require Import KernelInv.
From S2P Require Import BootInv.
From S2P Require Import KernelSystem.

Definition script_command (argv : list string) (stdin : bytes)
    : stm (World unit Empty_set) (CommandPoll unit * bytes * bytes) :=
  match argv with
  | "echo" :: arguments => mret (CmdReady 0, to_bytes (String.concat " " arguments +:+ newline), [])
  | "cat" :: _ => mret (CmdReady 0, stdin, [])
  | "true" :: _ | [] => mret (CmdReady 0, [], [])
  | "false" :: _ => mret (CmdReady 1, [], [])
  | name :: _ => mret (CmdReady 127, [], to_bytes ("shellsim: " +:+ name +:+ ": command not found" +:+ newline))
  end.

#[export] Instance script_host : Host unit Empty_set := {|
  host_node_size := 200;
  host_redirect_size := 64;
  host_format_seconds := example_format;
  host_engine := example_engine;
  host_aliased := λ _ _, false;
  cmd_poll := script_command;
  cmd_resume := λ _, mret (CmdReady 0);
  cmd_starts_before_input := λ _ _, false;
  cmd_buffers_standard_input := λ _ argv, bool_decide (head argv = Some "cat");
  cmd_execs_native_image := λ _ _, false;
  cmd_exec_argv_image := λ _ _, mret (Err "no native images");
  native_poll := λ native, match native with end;
  native_release_memory := λ native, mret native
|}.

(** The status, the output and the diagnostics of a script on a machine. *)
Definition run_script (m : Machine) (source : string) : run (Z * string * string) :=
  parsed ← parse source;
  match parsed with
  | Ok node =>
      '(_, (status, out, err)) ← exec 2000 node [] (MkWorld m ∅);
      Ret (status, String.string_of_list_byte out, String.string_of_list_byte err)
  | Err error => Ret (2, "", shell_error_display error +:+ newline)
  end.

(** Run [source] on a freshly booted machine. *)
Definition fresh_script (source : string) : run (Z * string * string) :=
  m ← with_limits limits_default []; run_script m source.

(** ** The whole model *)

Definition plain_parts : HostParts :=
  MkHostParts 200 64 example_format example_engine (λ _, None) (λ text _, text) (λ _ _, false) (λ _, false).
Abbreviation plain_native := (NativeProcess unit unit).
Abbreviation plain_world := (World CommandResume plain_native).

(** The commands of a system whose own commands are [commands]: a body may launch programs. *)
Definition plain_commands (commands : string → option (SystemCommand plain_world)) : string → option (SystemCommand plain_world) :=
  @system_table _ (active_system plain_parts commands (λ _ _, tt) (λ _ _, tt)) (λ text _, text).

#[local] Instance plain_host : Host CommandResume plain_native :=
  shell_host plain_parts (plain_commands (plain_commands (λ _, None))) (λ _ _, tt) (λ _ _, tt)
    (λ other, mret (other, PollReady 125)) (λ guest, mret (guest, PollReady 125)) mret.

Definition plain_images : list (string * NativeProgram) :=
  [("/usr/bin/echo", Registered "/usr/bin/echo"); ("/usr/bin/printf", Registered "/usr/bin/printf")].

(** The status, the output and the diagnostics of a script on a freshly booted machine. *)
Definition shell_run (source : string) : run (Z * string * string) :=
  m ← with_limits limits_default plain_images;
  parsed ← parse source;
  match parsed with
  | Ok node =>
      '(_, (status, out, err)) ← exec 3000 node [] (MkWorld m ∅);
      Ret (status, String.string_of_list_byte out, String.string_of_list_byte err)
  | Err error => Ret (2, "", shell_error_display error +:+ newline)
  end.

Definition lines (texts : list string) : string := collect (map (λ text, text +:+ newline) texts).

(** ** Scripts *)

Example script_tests_and_pipes :
  shell_run "x=5; [ $x -eq 5 ] && echo yes; echo one two | cat"
  = Ret (0, lines ["yes"; "one two"], "").
Proof. vm_compute. reflexivity. Qed.

Example script_printf_and_filters :
  shell_run "printf '%s-%d\n' a 1 b 2 > /tmp/f; head -n 1 /tmp/f; cat -n /tmp/f; /usr/bin/echo ext"
  = Ret (0, lines ["a-1"; "     1" +:+ tab +:+ "a-1"; "     2" +:+ tab +:+ "b-2"; "ext"], "").
Proof. vm_compute. reflexivity. Qed.

Example script_nested_shells :
  shell_run "sh -c 'echo $1 $0' n p; f=$(pwd); echo $f; cd /tmp; pwd"
  = Ret (0, lines ["p n"; "/"; "/tmp"], "").
Proof. vm_compute. reflexivity. Qed.

Example script_deadlines :
  shell_run "timeout 5 sleep 2; echo $?; timeout 1 sleep 2; echo $?"
  = Ret (0, lines ["0"; "124"], "").
Proof. vm_compute. reflexivity. Qed.

Example script_xargs_and_tee :
  shell_run "echo a b c | xargs -n 1 echo; echo x | tee /tmp/g | cat; cat /tmp/g"
  = Ret (0, lines ["a"; "b"; "c"; "x"; "x"], "").
Proof. vm_compute. reflexivity. Qed.

Example script_options_and_traps :
  shell_run "trap 'echo bye' EXIT; set -- -a -b v -c; while getopts ab:c o; do echo $o $OPTARG; done; read q r <<< 'u v w'; echo $q,$r"
  = Ret (0, lines ["a"; "b v"; "c"; "u,v w"; "bye"], "").
Proof. vm_compute. reflexivity. Qed.

Example script_reading_lines :
  shell_run "printf 'a b\nc\n' | while read x y; do echo $y $x; done"
  = Ret (0, lines ["b a"; "c"], "").
Proof. vm_compute. reflexivity. Qed.

Example script_launched_programs :
  shell_run "nohup echo hi; nice echo n; env -i A=1; sleep 1 & wait; nosuch; echo $?"
  = Ret (0, lines ["hi"; "n"; "A=1"; "127"], lines ["nosuch: command not found"]).
Proof. vm_compute. reflexivity. Qed.
