(* ===== verification/ExecMachine.v ===== *)
(** * What the executor does to the machine

    The parts of the executor that only expand text or change the shell are [fine]: they return,
    keep the machine in its invariant, and touch nothing but the shell of the active context. The
    parts that call the kernel are [safe]; those of a redirection are also [calm]: they never give
    the processor away, and never unlink an open file. *)

From S2P Require Import Prelude.
From S2P Require Import RustStr.
From S2P Require Import State.
From S2P Require Import Resources.
From S2P Require Import Variables.
From S2P Require Import Scheduler.
From S2P Require Import Descriptors.
From S2P Require Import DescriptorInv.
From S2P Require Import DescriptorSystem.
From S2P Require Import Vfs.
From S2P Require Import VfsSystem.
From S2P Require Import Syntax.
From S2P Require Import ShellParser.
From S2P Require Import ShellSpec.
From S2P Require Import ProcessState.
From S2P Require Import ShellVars.
From S2P Require Import Machine.
From S2P Require Import ExpandText.
From S2P Require Import Expand.
From S2P Require Import Kernel.
From S2P Require Import Lifecycle.
From S2P Require Import KernelInv.
From S2P Require Import KernelSafe.
From S2P Require Import KernelTidy.
From S2P Require Import LifecycleInv.
From S2P Require Import ExpandInv.
From S2P Require Import LifecycleSafe.
From S2P Require Import ExecData.
From S2P Require Import ExecText.
From S2P Require Import ExecVars.

(** ** Moves

    [moves R m]: where [m] returns, it leaves a machine that [R] relates to the one it found. *)

Section moves.
Context (R : relation Machine) `{!PreOrder R}.

Definition moves {A} (m : mach A) : Prop := ∀ s s' a, m s = Ret (s', a) → R s s'.

Lemma moves_ret {A} (a : A) : moves (mret a).
Proof. by intros s s' a' [= <- _]. Qed.

Lemma moves_gets {A} (f : Machine → A) : moves (gets f).
Proof. by intros s s' a' [= <- _]. Qed.

Lemma moves_bind {A B} (m : mach A) (k : A → mach B) : moves m → (∀ a, moves (k a)) → moves (m ≫= k).
Proof.
  intros Hm Hk s s'' b. unfold mbind, stm_bind. destruct (m s) as [[s' a]| |] eqn:Hs; [|done..].
  intros Hb. etrans; [by eapply Hm|by eapply Hk].
Qed.

Lemma moves_try {A B} (m : sys A) (k : A → sys B) : moves m → (∀ a, moves (k a)) → moves (try_bind k m).
Proof. intros Hm Hk. apply moves_bind; [done|]. intros []; [apply Hk|apply moves_ret]. Qed.

Lemma moves_modify f : (∀ s, R s (f s)) → moves (modify f).
Proof. by intros Hf s s' a [= <- _]. Qed.

Lemma moves_current : moves current.
Proof. intros s s' a. unfold current. destruct (_ !! _); [|done]. by intros [= <- _]. Qed.

Lemma moves_lift {A} (f : Machine → run A) : moves (lift_run f).
Proof. intros s s' a. unfold lift_run, mbind, run_bind. destruct (f s); [|done..]. by intros [= <- _]. Qed.

Lemma moves_wpm {A} (m : mach A) s (Q : A → Machine → Prop) :
  moves m → wpm False m s Q → wpm False m s (λ a s', Q a s' ∧ R s s').
Proof. intros Hm. specialize (Hm s). unfold wpm. destruct (m s) as [[s' a]| |]; [|done..]. eauto. Qed.

End moves.

(** Take a call apart. *)
Ltac keep_moving :=
  repeat lazymatch goal with
  | |- ∀ _, _ => intro
  | |- moves _ (mbind _ _) => apply moves_bind
  | |- moves _ (try_bind _ _) => apply moves_try
  | |- PreOrder _ => apply _
  | |- moves _ (mret _) => apply moves_ret
  | |- moves _ (fail _) => apply moves_ret
  | |- moves _ (done_ _) => apply moves_ret
  | |- moves _ descriptor_limit => apply moves_ret
  | |- moves _ (gets _) => apply moves_gets
  | |- moves _ (vfs_get _) => apply moves_gets
  | |- moves _ (arena_get _) => apply moves_gets
  | |- moves _ current => apply moves_current
  | |- moves _ (let _ := _ in _) => cbv zeta
  | |- moves _ (match ?x with _ => _ end) => destruct x eqn:?
  | |- moves _ _ => solve [eauto 2]
  end.

(** ** Calm steps *)

Definition calm (s s' : Machine) : Prop :=
  m_active s' = m_active s ∧ dom (vf_orphaned (m_vfs s')) ⊆ dom (vf_orphaned (m_vfs s)).

#[export] Instance calm_preorder : PreOrder calm.
Proof. split; [by split|]. intros s1 s2 s3 [A1 O1] [A2 O2]. split; [congruence|set_solver]. Qed.

Lemma calm_modify f : (∀ s, m_active (f s) = m_active s) → (∀ s, m_vfs (f s) = m_vfs s) → moves calm (modify f).
Proof. intros Ha Hv. apply moves_modify. intros s. unfold calm. by rewrite Ha, Hv. Qed.

Lemma calm_update f : moves calm (update_current f).
Proof. unfold update_current. keep_moving. by apply calm_modify. Qed.

Lemma calm_vfs_do {A} (f : Vfs → vfs_result A) : (∀ v, orphans_kept v (f v)) → moves calm (vfs_do f).
Proof.
  intros Hf s s' r. unfold vfs_do. specialize (Hf (m_vfs s)). unfold orphans_kept in Hf.
  destruct (f (m_vfs s)) as [v x]. intros [= <- _]. split; [done|]. simpl in *. by rewrite Hf.
Qed.

Lemma calm_arena_do {A} (f : DescriptorArena → arena_result A) : moves calm (arena_do f).
Proof. intros s s' r. unfold arena_do. destruct (f _). by intros [= <- _]. Qed.

Lemma calm_table_do {A} (f : FdTable → DescriptorArena → table_result A) : moves calm (table_do f).
Proof.
  unfold table_do. pose proof calm_update. keep_moving. by apply calm_modify.
Qed.

Lemma calm_wake f : moves calm (wake f).
Proof. intros s s' []. unfold wake, mbind, run_bind. destruct (f _) as [[c n]| |]; [|done..]. by intros [= <-]. Qed.

Lemma calm_sync : moves calm sync_vfs_time.
Proof. apply moves_modify. by intros s. Qed.

Lemma calm_refresh pid : moves calm (refresh_descriptor_snapshot pid).
Proof. by apply calm_modify. Qed.

Lemma calm_refresh_active : moves calm refresh_active.
Proof. unfold refresh_active. pose proof calm_refresh. keep_moving. Qed.

Lemma calm_install fd id : moves calm (install_new_description fd id).
Proof.
  unfold install_new_description. pose proof calm_refresh_active. pose proof @calm_table_do. pose proof @calm_arena_do. keep_moving.
Qed.

Lemma calm_release_pipes closed : moves calm (release_pipes closed).
Proof.
  induction closed as [|pipe closed IH]; cbn [release_pipes]; keep_moving; by apply calm_modify.
Qed.

Lemma calm_wake_locks : moves calm env_wake_file_lock_waiters.
Proof.
  unfold env_wake_file_lock_waiters. apply moves_bind; [try apply _..|pose proof calm_wake; keep_moving].
  intros s s' a. destruct (take_file_lock_changes _) as [x c]. by intros [= <- _].
Qed.

Lemma calm_wake_endpoint endpoint : moves calm (wake_pipe_endpoint endpoint).
Proof.
  unfold wake_pipe_endpoint, release_closed_pipe_memory. pose proof calm_wake. pose proof calm_release_pipes.
  pose proof calm_wake_locks. keep_moving.
Qed.

Lemma calm_retain : moves calm retain_live_orphans.
Proof.
  apply moves_modify. intros s. split; [done|]. cbn [m_vfs set_vfs].
  assert (Hv : vf_orphaned (retain_orphans (m_vfs s) (live_orphans (m_descriptors s))) =
    filter (λ '(i, _), i ∈ live_orphans (m_descriptors s)) (vf_orphaned (m_vfs s)))
    by (unfold retain_orphans; cbv zeta; by destruct (0 <? _)).
  rewrite Hv. apply dom_filter_subseteq.
Qed.

Lemma calm_vfs_write cwd path data mode : moves calm (vfs_do (λ v, vfs_write v cwd path data mode)).
Proof. apply calm_vfs_do. intros v. apply vfs_write_orphans. Qed.

Lemma calm_close fd : moves calm (sys_close fd).
Proof.
  unfold sys_close, process_fd, table_get. pose proof @calm_table_do. pose proof calm_wake_endpoint. pose proof calm_retain.
  pose proof calm_refresh_active. keep_moving.
Qed.

Lemma calm_duplicate source destination : moves calm (sys_duplicate source destination).
Proof.
  unfold sys_duplicate. pose proof @calm_table_do. pose proof calm_wake_endpoint. pose proof calm_refresh_active. keep_moving.
Qed.

Lemma calm_open_at format_seconds fd cwd path options : moves calm (sys_open_file_at format_seconds fd cwd path options).
Proof.
  pose proof calm_install. pose proof @calm_arena_do. pose proof calm_sync. pose proof calm_vfs_write.
  unfold sys_open_file_at, open_synthetic, open_pseudo, open_directory_node, prepare_file, open_regular, in_pseudo.
  keep_moving.
Qed.

(** ** Tame steps

    [tame m]: from a good machine [m] returns, leaves it good, and was calm. *)

Definition tame {A} (m : mach A) : Prop := ∀ h b s, good h b s → wpm False m s (λ _ s', good h b s' ∧ calm s s').

Lemma tame_safe {A} (m : mach A) h b : tame m → safe False h b m.
Proof. intros Hm s Hs. eapply wpm_mono; [by apply Hm|]. by intros a s' []. Qed.

Lemma safe_tame {A} (m : mach A) : (∀ h b, safe False h b m) → moves calm m → tame m.
Proof. intros Hm Hc h b s Hs. apply moves_wpm; [done|]. by apply Hm. Qed.

Lemma runs_tame {A} (m : mach A) : (∀ h b, runs h b m (λ _, True)) → tame m.
Proof.
  intros Hm h b s Hs. eapply wpm_mono; [by apply (Hm h b)|]. intros a s' (Hg & [Hf _ _] & _). split; [done|].
  split; [by apply fixed_active|]. injection Hf as Hv. by rewrite Hv.
Qed.

Lemma tame_ret {A} (a : A) : tame (mret a).
Proof. intros h b s Hs. by apply wpm_ret. Qed.

Lemma tame_bind {A B} (m : mach A) (k : A → mach B) : tame m → (∀ a, tame (k a)) → tame (m ≫= k).
Proof.
  intros Hm Hk h b s Hs. apply wpm_bind. eapply wpm_mono; [by apply Hm|]. intros a s1 [H1 C1].
  eapply wpm_mono; [by apply Hk|]. intros r s2 [H2 C2]. split; [done|by etrans].
Qed.

Lemma tame_try {A B} (m : sys A) (k : A → sys B) : tame m → (∀ a, tame (k a)) → tame (try_bind k m).
Proof. intros Hm Hk. apply tame_bind; [done|]. intros []; [apply Hk|apply tame_ret]. Qed.

Lemma tame_gets {A} (f : Machine → A) : tame (gets f).
Proof. intros h b s Hs. by unfold wpm, gets. Qed.

Lemma tame_current : tame current.
Proof. apply safe_tame; [intros; apply safe_current|apply moves_current, _]. Qed.

Lemma tame_update f : (∀ p, ps_fds (f p) = ps_fds p ∧ same_holdings p (f p)) → tame (update_current f).
Proof. intros Hf. apply safe_tame; [intros; by apply safe_update_context|apply calm_update]. Qed.

Lemma tame_context {A} (f : ProcessState → ProcessState * A) :
  (∀ p, ps_fds (f p).1 = ps_fds p ∧ same_holdings p (f p).1) → tame (on_context f).
Proof.
  intros Hf h b s Hs. unfold on_context. apply wpm_bind, wpm_current; [|apply (gd_active _ _ _ Hs)]. intros p Hp.
  destruct (Hf p) as [Hfds Hh]. destruct (f p) as [p' a]. apply wpm_bind. unfold wpm.
  rewrite (update_current_eq _ _ _ Hp). apply wpm_ret. split; [|by split].
  eapply good_context; [done|exact Hp|done|done].
Qed.

Lemma tame_shell_get {A} (f : ShellState → A) : tame (shell_get f).
Proof. apply tame_bind; [apply tame_current|]. intros p. apply tame_ret. Qed.

Lemma tame_change f : tame (change_shell f).
Proof. by apply tame_context. Qed.

Lemma tame_signals f : tame (on_signals f).
Proof. by apply tame_context. Qed.

Lemma tame_set_var name value : tame (on_context (λ p, (set_var p name value, tt))).
Proof. apply runs_tame. intros h b. apply runs_context. intros p. split; [apply set_var_step|done]. Qed.

Lemma tame_var name : tame (mach_var name).
Proof. apply runs_tame. intros. apply runs_var. Qed.

Create HintDb exec_tame discriminated.
#[export] Hint Constants Opaque : exec_tame.
#[export] Hint Resolve tame_ret tame_gets tame_current tame_shell_get tame_change tame_signals tame_set_var tame_var : exec_tame.

Ltac keep_tame :=
  repeat lazymatch goal with
  | |- ∀ _, _ => intro
  | |- tame (mbind _ _) => apply tame_bind
  | |- tame (try_bind _ _) => apply tame_try
  | |- tame (let _ := _ in _) => cbv zeta
  | |- tame (match ?x with _ => _ end) => destruct x eqn:?
  | |- tame _ => solve [auto 2 with exec_tame]
  end.

Section control.

Lemma tame_control : tame control.
Proof. apply tame_shell_get. Qed.
Lemma tame_on_control f : tame (on_control f).
Proof. apply tame_change. Qed.
Lemma tame_set_exiting status : tame (set_exiting status).
Proof. apply tame_on_control. Qed.
Lemma tame_take_exiting : tame take_exiting.
Proof. pose proof tame_control. pose proof tame_set_exiting. unfold take_exiting. keep_tame. Qed.
Lemma tame_take_returning : tame take_returning.
Proof. pose proof tame_control. pose proof tame_on_control. unfold take_returning. keep_tame. Qed.
Lemma tame_take_error : tame take_expansion_error.
Proof. unfold take_expansion_error. keep_tame. Qed.
Lemma tame_set_error error : tame (set_expansion_error error).
Proof. apply tame_change. Qed.
Lemma tame_should_unwind : tame should_unwind.
Proof. pose proof tame_control. unfold should_unwind, mach_stopped. keep_tame. Qed.
Lemma tame_stopped_status : tame stopped_status.
Proof. apply tame_gets. Qed.
Lemma tame_restore_variables saved : tame (restore_command_variables saved).
Proof. apply tame_change. Qed.

End control.
#[export] Hint Resolve tame_control tame_on_control tame_set_exiting tame_take_exiting tame_take_returning tame_take_error
  tame_set_error tame_should_unwind tame_stopped_status tame_restore_variables : exec_tame.

(** ** Expansion and assignment *)

Section expanding.
Context (engine : TextEngine).

Lemma tame_expand_word word split : tame (expand_word_with engine word split).
Proof. unfold expand_word_with. apply runs_tame. intros h b. exact (fine_expand_word h b _ _ _ _ _ word split). Qed.
Hint Resolve tame_expand_word : exec_tame.

Lemma tame_expand_text word : tame (expand_text engine word).
Proof. unfold expand_text. keep_tame. Qed.
Hint Resolve tame_expand_text : exec_tame.

Lemma tame_expand_values assigns : tame (expand_values engine assigns).
Proof. induction assigns as [|[k v] assigns IH]; cbn [expand_values]; keep_tame. Qed.
Hint Resolve tame_expand_values : exec_tame.

Lemma tame_assign_exported assigns : tame (assign_exported assigns).
Proof. induction assigns as [|[k v] assigns IH]; cbn [assign_exported]; keep_tame. Qed.
Hint Resolve tame_assign_exported : exec_tame.

Lemma tame_install_variables assigns : tame (install_command_variables engine assigns).
Proof. unfold install_command_variables. keep_tame. Qed.

Lemma tame_argv_words double words : tame (expand_argv_words engine double words).
Proof. induction words as [|w words IH]; cbn [expand_argv_words]; keep_tame. Qed.
Hint Resolve tame_argv_words : exec_tame.

Lemma tame_expand_argv words : tame (expand_argv engine words).
Proof. unfold expand_argv. keep_tame. Qed.
Hint Resolve tame_expand_argv : exec_tame.

Lemma tame_array_elem tok : tame (array_elem engine tok).
Proof. unfold array_elem. keep_tame. Qed.
Hint Resolve tame_array_elem : exec_tame.

Lemma tame_array_elems toks : tame (array_elems engine toks).
Proof. induction toks as [|tok toks IH]; cbn [array_elems]; keep_tame. Qed.
Hint Resolve tame_array_elems : exec_tame.

Lemma tame_assignment key value : tame (apply_assignment engine key value).
Proof. unfold apply_assignment, assign_subscript, assign_scalar, parse_array_elems. keep_tame. Qed.

Lemma tame_heredoc_lines lines : tame (heredoc_lines engine lines).
Proof. induction lines as [|line lines IH]; cbn [heredoc_lines]; keep_tame. Qed.
Hint Resolve tame_heredoc_lines : exec_tame.

Lemma tame_heredoc body : tame (expand_heredoc engine body).
Proof. unfold expand_heredoc. keep_tame. Qed.

End expanding.
#[export] Hint Resolve tame_expand_word tame_expand_text tame_install_variables tame_expand_argv tame_assignment
  tame_heredoc : exec_tame.

(** ** Aliases *)

(** A round that goes on has seen another name, and at most 32 are seen. *)
Lemma tame_alias_fuel engine fuel seen argv : (34 ≤ fuel + size seen)%nat → (size seen ≤ 32)%nat →
  tame (expand_alias_fuel engine fuel seen argv).
Proof.
  revert seen argv. induction fuel as [|fuel IH]; intros seen argv Hf Hs; [lia|].
  destruct argv as [|command arguments]; cbn [expand_alias_fuel]; [apply tame_ret|]. keep_tame. apply IH.
  all: apply orb_false_iff in Heqb as [Hnew%bool_decide_eq_false Hsize%Z.ltb_ge].
  - rewrite size_union by set_solver. rewrite size_singleton. lia.
  - lia.
Qed.

Lemma tame_alias engine argv : tame (expand_alias_argv engine argv).
Proof. apply tame_alias_fuel; [rewrite size_empty|rewrite size_empty]; lia. Qed.

(** ** Writing *)

Definition yields {A} (m : mach A) (P : A → Prop) : Prop := ∀ s s' a, m s = Ret (s', a) → P a.

Lemma yields_bind {A B} (m : mach A) (k : A → mach B) P : (∀ a, yields (k a) P) → yields (m ≫= k) P.
Proof.
  intros Hk s s'' b. unfold mbind, stm_bind. destruct (m s) as [[s' a]| |]; [|done..]. apply Hk.
Qed.

Lemma yields_use {A B} (m : mach A) (k : A → mach B) Q P : yields m Q → (∀ a, Q a → yields (k a) P) → yields (m ≫= k) P.
Proof.
  intros Hm Hk s s'' b. unfold mbind, stm_bind. destruct (m s) as [[s' a]| |] eqn:Hs; [|done..].
  apply Hk. by eapply Hm.
Qed.

Lemma yields_ret {A} (a : A) P : P a → yields (mret a) P.
Proof. by intros HP s s' a' [= _ <-]. Qed.

Definition counted (r : result SyscallError (IoPoll Z)) : Prop := match r with Ok (Ready n) => 0 ≤ n | _ => True end.

Lemma yields_try {A} (m : sys A) (k : A → sys (IoPoll Z)) : (∀ a, yields (k a) counted) → yields (try_bind k m) counted.
Proof. intros Hk. apply yields_bind. intros []; [apply Hk|by apply yields_ret]. Qed.

Lemma arena_write_counted id data : yields (arena_do (λ a, arena_write a id data)) counted.
Proof.
  intros s s' r. unfold arena_do, arena_write. repeat case_match; simplify_eq; intros; simplify_eq; simpl; try done; try lia.
  unfold sat_sub. lia.
Qed.

Lemma write_counted aliased fd data : yields (write_fd_checked aliased fd data) counted.
Proof.
  unfold write_fd_checked. apply yields_try. intros id. apply yields_try. intros [file|].
  - unfold write_file_at. destruct (negb _); [by apply yields_ret|]. do 2 (apply yields_try; intros ?).
    do 2 (apply yields_bind; intros ?). destruct (negb _); [by apply yields_ret|]. do 3 (apply yields_bind; intros ?).
    match goal with |- yields (match ?r with _ => _ end) _ => destruct r end.
    + apply yields_try. intros ?. apply yields_ret. simpl. lia.
    + apply yields_bind. intros ?. by apply yields_ret.
  - eapply yields_use; [apply arena_write_counted|]. intros [result|e] Hr; [|by apply yields_ret].
    apply yields_try. intros _. by apply yields_ret.
Qed.

Section writing.
Context (aliased : Machine → Z → bool) (h : list Z) (b : Z).
Notation safe := (safe False h b).

Lemma safe_write_fd fd data : safe (write_fd aliased fd data).
Proof. unfold write_fd. apply safe_bind; [apply safe_gets|]. intros shared. apply safe_write. Qed.

Lemma safe_write_all fuel fd data : (length data ≤ fuel)%nat → safe (write_all_fuel aliased fuel fd data).
Proof.
  revert data. induction fuel as [|fuel IH]; intros [|byte data] Hf; cbn [write_all_fuel]; try apply safe_ret; [simpl in Hf; lia|].
  intros s Hs. apply wpm_bind. pose proof (safe_write_fd fd (byte :: data) s Hs) as Hw.
  assert (Hc : yields (write_fd aliased fd (byte :: data)) counted) by (apply yields_bind; intros; apply write_counted).
  specialize (Hc s). unfold wpm at 1 in Hw. unfold wpm at 1. destruct (write_fd _ _ _ s) as [[s' r]| |]; [|done..].
  specialize (Hc s' r eq_refl). destruct r as [[n|w]|e]; [|by apply safe_ret..]. simpl in Hc.
  destruct (n =? 0) eqn:Hn; [by apply safe_ret|]. apply Z.eqb_neq in Hn. apply IH; [|done].
  rewrite length_drop. simpl in *. lia.
Qed.

Lemma safe_diagnostic message : safe (write_diagnostic aliased message).
Proof.
  unfold write_diagnostic, write_all_fd. apply safe_bind; [by apply safe_write_all|]. intros _. apply safe_ret.
Qed.

(** ** Reading source *)

Lemma safe_parse src : safe (parse_shell_action src).
Proof.
  unfold parse_shell_action. cbv zeta. set (n := sat_add64 8192 _). assert (Hn : 0 ≤ n).
  { unfold n, sat_add64, sat_mul64. pose proof (eq_refl : U64_MAX = 18446744073709551615). pose proof (str_len_nonneg src). lia. }
  intros s Hs. pose proof (gd_base Hs) as Hb. apply wpm_bind. apply (wpm_reserve False h b); [done|done| |].
  - intros r Hr. cbn [negb]. revert Hr. generalize (set_resources s r). clear s Hs. intros s Hs.
    apply wpm_bind, (wpm_charge _ h (b + n)); [done|]. intros r' charged Hg. revert Hg. generalize (set_resources s r').
    clear s Hs r r'. intros s Hs. apply (wpm_borrowed False h b n); [done|done|done| |].
    + destruct charged; [|apply safe_bind; [apply safe_gets|intros; apply safe_ret]].
      apply safe_bind; [|intros; apply safe_ret]. apply safe_run. intros s1 _.
      by destruct (parse_returns src) as (result & -> & _).
    + intros parsed s1 H1. revert s1 H1. change (safe (_ ← match parsed with
        Err (status, _) => change_shell (λ sh, set_last_status sh status) | Ok _ => mret tt end; mret parsed)).
      apply safe_bind; [|intros; apply safe_ret]. destruct parsed as [|[]]; [apply safe_ret|]. apply tame_safe, tame_change.
  - intros r Hr. cbn [negb]. revert Hr. generalize (set_resources s r). clear s Hs. intros s Hs. revert s Hs.
    change (safe (status ← stopped_status; mret (Err (status, "")) : mach (result (Z * string) Node))).
    apply safe_bind; [apply safe_gets|intros; apply safe_ret].
Qed.

End writing.
