(* ===== verification/RedirectSpec.v ===== *)
(** * Redirections are scoped (src/src/exec.rs)

    Beginning redirections saves the descriptor table and the filesystem. A redirection that fails
    undoes what the ones before it did; ending the scope puts the table back. In between the scope
    holds the saved descriptions open and the memory of the snapshot. *)

From S2P Require Import Prelude.
From S2P Require Import RustStr.
From S2P Require Import State.
From S2P Require Import Resources.
From S2P Require Import Descriptors.
From S2P Require Import DescriptorSystem.
From S2P Require Import Vfs.
From S2P Require Import VfsUsage.
From S2P Require Import VfsSystem.
From S2P Require Import Syntax.
From S2P Require Import ProcessState.
From S2P Require Import Machine.
From S2P Require Import Expand.
From S2P Require Import Kernel.
From S2P Require Import KernelInv.
From S2P Require Import BootInv.
From S2P Require Import KernelSafe.
From S2P Require Import LifecycleInv.
From S2P Require Import ExpandInv.
From S2P Require Import LifecycleSafe.
From S2P Require Import KernelSystem.
From S2P Require Import ExecData.
From S2P Require Import ExecText.
From S2P Require Import ExecVars.
From S2P Require Import Redirects.
From S2P Require Import ExecMachine.

Abbreviation wpm := (wpm False).

(** The table of the active process. *)
Definition table_of (s : Machine) : option FdTable := ps_fds <$> m_states s !! m_active s.

(** ** Each redirection is tame *)

Lemma tame_text {A B} (m : texted A) (k : A → texted B) : tame m → (∀ a, tame (k a)) → tame (text_bind k m).
Proof. intros Hm Hk. apply tame_bind; [done|]. intros []; [apply Hk|apply tame_ret]. Qed.

Lemma tame_within {A} what (m : sys A) : tame m → tame (within what m).
Proof. intros Hm. apply tame_bind; [done|]. intros r. apply tame_ret. Qed.

Lemma tame_arena_input data : tame (arena_do (λ a, open_input a data)).
Proof.
  apply safe_tame; [|apply calm_arena_do]. intros. by apply (safe_open _ _ _ (OpenInput data)).
Qed.

Lemma tame_install_new fd id : tame (install_new_description fd id).
Proof. apply safe_tame; [intros; apply safe_install_new|apply calm_install]. Qed.

Definition kept_table (s s' : Machine) : Prop := m_vfs s' = m_vfs s ∧ m_active s' = m_active s ∧ table_of s' = table_of s.

Section redirects.
Context (format_seconds : Z → string) (engine : TextEngine).

Lemma tame_fail_on_error : tame fail_on_expansion_error.
Proof. unfold fail_on_expansion_error, text_error. keep_tame. Qed.

Lemma tame_path word : tame (redirect_path engine word).
Proof.
  unfold redirect_path, text_error. apply tame_bind; [auto with exec_tame|]. intros fields.
  apply tame_text; [apply tame_fail_on_error|]. intros _. keep_tame.
Qed.

Lemma tame_open_redirect fd path op : tame (open_redirect_file format_seconds fd path op).
Proof. apply tame_within, safe_tame; [intros; apply safe_open_at|apply calm_open_at]. Qed.

Lemma tame_dup what source destination : tame (within what (sys_duplicate source destination)).
Proof. apply tame_within, safe_tame; [intros; apply safe_duplicate|apply calm_duplicate]. Qed.

Lemma tame_redirect r : tame (apply_redirect format_seconds engine r).
Proof.
  assert (Hdoc : tame (redirect_document engine r)).
  { unfold redirect_document, document_text. apply tame_bind; [destruct (rd_op r); keep_tame|]. intros text.
    apply tame_text; [apply tame_fail_on_error|]. intros _. apply tame_text; [apply tame_within, tame_arena_input|].
    intros id. apply tame_within, tame_install_new. }
  assert (Hfile : ∀ devices, tame (redirect_file format_seconds engine devices r)).
  { intros devices. unfold redirect_file. apply tame_text; [apply tame_path|]. intros path.
    destruct (if devices then _ else _); [apply tame_dup|apply tame_open_redirect]. }
  unfold apply_redirect. destruct (rd_op r); try done.
  - destruct (parse_i32 _); [apply tame_dup|apply tame_ret].
  - apply tame_within, safe_tame; [intros; apply safe_close|apply calm_close].
Qed.

Lemma tame_redirects redirects : tame (apply_redirects format_seconds engine redirects).
Proof.
  induction redirects as [|r redirects IH]; cbn [apply_redirects]; [apply tame_ret|].
  apply tame_text; [apply tame_redirect|by intros _].
Qed.

(** ** Restoring the table *)

Lemma wpm_fork h b s p (Q : result DescriptorError FdTable → Machine → Prop) : good h b s →
  m_states s !! m_active s = Some p →
  (∀ a, table_wf (ps_fds p) → good (table_ids (ps_fds p) ++ h) b (set_descriptors s a) → Q (Ok (ps_fds p)) (set_descriptors s a)) →
  (∀ e s', good h b s' → m_vfs s' = m_vfs s → table_of s' = table_of s → m_active s' = m_active s → Q (Err e) s') →
  wpm fork_table s Q.
Proof.
  intros Hs Hp Hok Hno. unfold fork_table. apply wpm_bind, wpm_current; [|by eexists]. intros p' Hp'. simplify_eq.
  unfold fork_fds, KernelInv.wpm. destruct (fd_fork (ps_fds p) (m_descriptors s)) as [a [t|e]] eqn:Hf.
  - destruct (sound_fork h b s (m_active s) p a t) as (-> & Hw & Hg & _); [apply (gd_sound _ _ _ Hs)|done..|].
    apply Hok; [done|]. split; [exact Hg|by eexists].
  - apply sound_fork_refused with (h := h) (b := b) (pid := m_active s) in Hf as ->; [|apply (gd_sound _ _ _ Hs)|done].
    destruct s. by apply Hno.
Qed.

(** The table [saved], held apart, becomes the table of the active process; the one it had is closed. *)
Lemma wpm_restore h b s saved (Q : unit → Machine → Prop) : good (table_ids saved ++ h) b s → table_wf saved →
  (∀ s', good h b s' → m_vfs s' = m_vfs s → m_active s' = m_active s → table_of s' = Some saved → Q tt s') →
  wpm (restore_fds saved) s Q.
Proof.
  intros Hs Hw HQ. destruct (gd_active _ _ _ Hs) as [p Hp]. unfold restore_fds.
  apply wpm_bind, wpm_current; [|by eexists]. intros p' Hp'. simplify_eq.
  apply wpm_bind. unfold close_table. apply wpm_modify. set (a := (close_all (ps_fds p) (m_descriptors s)).2).
  pose proof (good_swapped h b s p saved Hs Hp Hw) as Hg. fold a in Hg.
  apply wpm_bind. unfold KernelInv.wpm at 1. rewrite (update_current_eq (λ p, with_fds p saved) (set_descriptors s a) p) by done.
  change (wpm (refresh_descriptor_snapshot (ps_pid p)) (with_table s p saved a) Q).
  eapply (wpm_mono False); [apply (moves_wpm kept_table), (steady_safe _ False h b (steady_refresh _)); [|exact Hg]|].
  - intros s1 s2 x [= <- _]. split_and!; done.
  - intros [] s' [Hg' (Hv & Ha & Ht)]. apply HQ; [done|by rewrite Hv|by rewrite Ha|]. rewrite Ht.
    unfold table_of. cbn [with_table m_states m_active set_states set_descriptors]. by rewrite lookup_insert_eq.
Qed.

(** ** The scope *)

Definition scope_ok (scope : RedirectScope) : Prop := table_wf (rsc_saved scope) ∧ 0 ≤ rsc_reserved_memory scope.

(** [scope] is open over [h] and [b]. *)
Definition scoped (h : list Z) (b : Z) (scope : RedirectScope) (s : Machine) : Prop :=
  scope_ok scope ∧ good (table_ids (rsc_saved scope) ++ h) (b + rsc_reserved_memory scope) s.

Lemma wpm_begin h b s redirects (Q : result string RedirectScope → Machine → Prop) : good h b s →
  (∀ e s', good h b s' → m_vfs s' = m_vfs s → m_active s' = m_active s → table_of s' = table_of s → Q (Err e) s') →
  (∀ scope s', scoped h b scope s' → m_active s' = m_active s → table_of s = Some (rsc_saved scope) → Q (Ok scope) s') →
  wpm (begin_redirects format_seconds engine redirects) s Q.
Proof.
  intros Hs Hno Hyes. unfold begin_redirects. apply wpm_bind, wpm_gets. set (n := sat_add64 _ _).
  assert (Hn : 0 ≤ n).
  { unfold n, sat_add64. pose proof (eq_refl : U64_MAX = 18446744073709551615). destruct (disk_used_range _ (gd_disk Hs)). lia. }
  pose proof (gd_base Hs) as Hb. apply wpm_bind, (wpm_reserve False h b); [done|done| |].
  2: { intros r Hr. apply wpm_ret. by apply Hno. }
  intros r Hr. cbn [negb]. apply wpm_bind, wpm_gets. destruct (gd_active _ _ _ Hs) as [p Hp].
  assert (Ht : table_of s = Some (ps_fds p)) by (unfold table_of; by rewrite Hp).
  apply wpm_bind. eapply (wpm_fork _ (b + n) _ p); [exact Hr|exact Hp| |].
  - intros a Hw Ha. apply wpm_bind. eapply wpm_mono; [by apply tame_redirects|].
    intros [[]|message] s2 [H2 [A2 O2]]; [apply wpm_ret, Hyes; [by split|done|done]|].
    apply wpm_bind. eapply wpm_restore; [exact H2|done|]. intros s3 H3 V3 A3 T3.
    apply wpm_bind, wpm_modify. apply wpm_bind. eapply (wpm_release False h b); [|done|done|].
    + eapply good_vfs; [exact H3|apply (gd_disk Hs)|]. rewrite V3. exact O2.
    + intros r' Hr'. apply wpm_ret. apply Hno; [done|done|etrans; [exact A3|exact A2]|]. rewrite Ht, <-T3. done.
  - intros e s' Hg Hv Htab Hact. apply wpm_bind. eapply (wpm_release False h b); [exact Hg|done|done|].
    intros r' Hr'. apply wpm_ret. by apply Hno.
Qed.

Lemma wpm_end h b s scope (Q : unit → Machine → Prop) : scoped h b scope s → 0 ≤ b →
  (∀ s', good h b s' → m_vfs s' = m_vfs s → m_active s' = m_active s → table_of s' = Some (rsc_saved scope) → Q tt s') →
  wpm (end_redirects scope) s Q.
Proof.
  intros [[Hw Hn] Hs] Hb HQ. unfold end_redirects. apply wpm_bind. eapply wpm_restore; [exact Hs|done|].
  intros s' Hs' Hv Ha Ht. eapply (wpm_release False h b); [exact Hs'|done|done|]. intros r Hr. by apply HQ.
Qed.

Lemma wpm_commit h b s scope (Q : unit → Machine → Prop) : scoped h b scope s → 0 ≤ b →
  (∀ s', good h b s' → m_active s' = m_active s → table_of s' = table_of s → Q tt s') →
  wpm (commit_redirects scope) s Q.
Proof.
  intros [[Hw Hn] Hs] Hb HQ. unfold commit_redirects. apply wpm_bind. unfold close_table. apply wpm_modify.
  eapply (wpm_release False h b); [|done|done|].
  - split; [eapply sound_closed; [|exact Hw]; apply (gd_sound _ _ _ Hs)|apply (gd_active _ _ _ Hs)].
  - intros r Hr. by apply HQ.
Qed.

(** C7: Redirections are all or nothing and last as long as their scope. From any machine in its
    invariant they return. When one of them fails, the ones before it are undone: the filesystem is
    the one before, files they created or truncated included, the process has its descriptor table,
    and the memory of the snapshot and the saved descriptions are given back. When all succeed, the
    scope holds the process's table; from whatever machine the command leaves the scope open in,
    ending it returns, gives the process that table, and gives back what the scope held. *)
Theorem redirections_are_scoped h b s redirects : good h b s →
  match begin_redirects format_seconds engine redirects s with
  | Ret (s', Err _) => good h b s' ∧ m_vfs s' = m_vfs s ∧ m_active s' = m_active s ∧ table_of s' = table_of s
  | Ret (s', Ok scope) =>
      table_of s = Some (rsc_saved scope) ∧ scoped h b scope s' ∧
      ∀ s1, scoped h b scope s1 → ∃ s2, end_redirects scope s1 = Ret (s2, tt) ∧
        good h b s2 ∧ m_vfs s2 = m_vfs s1 ∧ table_of s2 = table_of s
  | _ => False
  end.
Proof.
  intros Hs. pose proof (wpm_begin h b s redirects (λ r s', match r with
    | Err _ => good h b s' ∧ m_vfs s' = m_vfs s ∧ m_active s' = m_active s ∧ table_of s' = table_of s
    | Ok scope => table_of s = Some (rsc_saved scope) ∧ scoped h b scope s' end) Hs) as Hw.
  unfold KernelInv.wpm in Hw. destruct (begin_redirects _ _ _ _) as [[s' [scope|e]]| |]; [|by apply Hw..].
  destruct Hw as [Ht Hsc]; [done|done|]. split_and!; [done|done|]. intros s1 H1.
  pose proof (wpm_end h b s1 scope (λ _ s2, good h b s2 ∧ m_vfs s2 = m_vfs s1 ∧ table_of s2 = table_of s) H1 (gd_base Hs)) as He.
  unfold KernelInv.wpm in He. destruct (end_redirects _ _) as [[s2 []]| |]; [|destruct He; by rewrite ?Ht..].
  exists s2. split; [done|]. apply He. intros. by rewrite Ht.
Qed.

End redirects.

Lemma redirections_are_scoped_witness :
  (∃ s s' e, begin_redirects example_format example_engine [MkRedirect 1 OpWrite "/tmp/a"; MkRedirect 0 OpRead "/tmp/b"] s = Ret (s', Err e) ∧
    m_vfs s' = m_vfs s) ∧
  (∃ s s' scope s2, begin_redirects example_format example_engine [MkRedirect 1 OpWrite "/tmp/a"; MkRedirect 2 OpDupOut "1"] s = Ret (s', Ok scope) ∧
    end_redirects scope s' = Ret (s2, tt) ∧ table_of s2 = table_of s).
Proof.
  split.
  - destruct (example_boot (λ s, match begin_redirects example_format example_engine
        [MkRedirect 1 OpWrite "/tmp/a"; MkRedirect 0 OpRead "/tmp/b"] s with Ret (_, Err _) => true | _ => false end))
      as (s & _ & Hg & Hr); [vm_compute; reflexivity|].
    pose proof (redirections_are_scoped example_format example_engine [] 0 s
      [MkRedirect 1 OpWrite "/tmp/a"; MkRedirect 0 OpRead "/tmp/b"] Hg) as Hk.
    destruct (begin_redirects _ _ _ s) as [[s' [scope|e]]| |] eqn:Hb; [discriminate Hr| |discriminate Hr..].
    exists s, s', e. split; [exact Hb|apply Hk].
  - destruct (example_boot (λ s, match begin_redirects example_format example_engine
        [MkRedirect 1 OpWrite "/tmp/a"; MkRedirect 2 OpDupOut "1"] s with Ret (_, Ok _) => true | _ => false end))
      as (s & _ & Hg & Hr); [vm_compute; reflexivity|].
    pose proof (redirections_are_scoped example_format example_engine [] 0 s
      [MkRedirect 1 OpWrite "/tmp/a"; MkRedirect 2 OpDupOut "1"] Hg) as Hk.
    destruct (begin_redirects _ _ _ s) as [[s' [scope|e]]| |] eqn:Hb; [|discriminate Hr..].
    destruct Hk as (Ht & Hsc & Hend). destruct (Hend s' Hsc) as (s2 & He & _ & _ & Hs2).
    exists s, s', scope, s2. split_and!; [exact Hb|exact He|exact Hs2].
Defined.
