(* ===== verification/DispatchSpec.v ===== *)
(** * Choosing a process always ends (src/src/exec.rs)

    [handle_ready_events] and [dispatch_available] loop over the events that are due and, when time
    may advance, over those that are pending. Handling an event adds none and every round that
    dispatches nothing fires one, so both return; on a real-time machine, or when a guest waits for
    the host, time does not advance and one round is all. A machine in its invariant stays in it, and
    what is dispatched has a context. *)

From S2P Require Import Prelude.
From S2P Require Import State.
From S2P Require Import Process.
From S2P Require Import Clock.
From S2P Require Import Scheduler.
From S2P Require Import Descriptors.
From S2P Require Import DescriptorInv.
From S2P Require Import DescriptorSystem.
From S2P Require Import ProcessState.
From S2P Require Import Machine.
From S2P Require Import Expand.
From S2P Require Import Kernel.
From S2P Require Import Lifecycle.
From S2P Require Import KernelInv.
From S2P Require Import Boot.
From S2P Require Import BootInv.
From S2P Require Import KernelSafe.
From S2P Require Import KernelTidy.
From S2P Require Import LifecycleInv.
From S2P Require Import LifecycleSafe.
From S2P Require Import ExecText.
From S2P Require Import Redirects.
From S2P Require Import Driver.

Abbreviation wpm := (wpm False).

(** ** The clock *)

(** An advance moves events from the pending ones to the ready ones, whatever the timeline. *)
Lemma advance_to_moves t target : ∃ t' r, advance_to t target = Ret (t', r) ∧
  match r with
  | Err _ => t' = t
  | Ok fired => tm_monotonic_ns t' = target ∧ tm_ready t' = tm_ready t ++ fired ∧
      (size (tm_pending t') + length fired = size (tm_pending t))%nat
  end.
Proof.
  unfold advance_to. destruct (_ <? _); [by do 2 eexists|]. cbv zeta.
  destruct (fire_due_spec (due_ids (tm_set_monotonic t target) target) (tm_pending t) (tm_ready t) [])
    as (pending & events & Hf & Hids & _ & _ & Hperm).
  - apply NoDup_filter, btree_keys_NoDup.
  - intros id [_ Hin]%list_elem_of_filter. by apply elem_of_btree_keys in Hin.
  - cbn [tm_pending tm_ready tm_set_monotonic]. rewrite Hf. do 2 eexists. split; [reflexivity|]. cbn. do 2 (split; [done|]).
    apply Permutation_length in Hperm. rewrite length_app, <-Hids, length_fmap in Hperm.
    unfold btree_keys in Hperm. rewrite !length_fmap, !btree_iter_length in Hperm. lia.
Qed.

Lemma advance_next_moves t : ∃ t' r, advance_to_next t = Ret (t', r) ∧
  match r with
  | Err _ => t' = t
  | Ok fired => tm_ready t' = tm_ready t ++ fired ∧ (size (tm_pending t') + length fired = size (tm_pending t))%nat
  end.
Proof.
  unfold advance_to_next. destruct (next_deadline_ns t) as [deadline|].
  { destruct (advance_to_moves t deadline) as (t' & r & -> & Hr). do 2 eexists. split; [reflexivity|]. destruct r as [fired|]; [apply Hr|done]. }
  do 2 eexists. split; [reflexivity|]. cbn. by rewrite app_nil_r, Nat.add_0_r.
Qed.

(** On a well-formed timeline the next deadline fires something, unless nothing is pending. *)
Lemma advance_next_fires t t' : timeline_wf t → advance_to_next t = Ret (t', Ok []) → tm_pending t' = ∅.
Proof.
  intros Hwf. unfold advance_to_next, next_deadline_ns.
  destruct (btree_first (tm_pending t)) as [[first kind]|] eqn:Hfirst; simpl.
  2:{ apply btree_first_None in Hfirst. by intros [= <-]. }
  apply btree_first_Some in Hfirst as [Hf _]. destruct (twf_pending t Hwf first) as [Hlow _]; [eauto|].
  destruct (advance_to_spec t (ev_deadline_ns first)) as (t1 & -> & Hadv); [done..|]. intros [= _ Hnil].
  assert (Hin : MkScheduledEvent first kind ∈ due_events t (ev_deadline_ns first)) by (by apply due_events_elem).
  rewrite Hnil in Hin. by apply elem_of_nil in Hin.
Qed.

Lemma advance_next_wf t t' r : timeline_wf t → advance_to_next t = Ret (t', r) → timeline_wf t'.
Proof.
  intros Hwf. unfold advance_to_next, next_deadline_ns.
  destruct (btree_first (tm_pending t)) as [[first kind]|] eqn:Hfirst; simpl; [|by intros [= <- _]].
  apply btree_first_Some in Hfirst as [Hf _]. destruct (twf_pending t Hwf first) as [Hlow Hmax]; [eauto|].
  destruct (advance_to_spec t (ev_deadline_ns first)) as (t1 & -> & Hadv); [done..|]. intros [= <- _].
  by eapply advanced_wf.
Qed.

Lemma pop_ready_wf t event rest : timeline_wf t → tm_ready t = event :: rest →
  timeline_wf (tm_set_events t (tm_pending t) rest).
Proof.
  intros Hwf Hr. apply tm_set_events_wf; [done|done|intros e He; rewrite Hr; by right|].
  unfold live_ids. cbn [tm_pending tm_ready tm_set_events]. rewrite Hr. cbn [fmap list_fmap].
  apply submseteq_app; [done|]. by apply submseteq_cons.
Qed.

(** ** Handling an event

    An event wakes, interrupts or signals processes; the clock and the host stay. *)

Ltac keep_events :=
  repeat lazymatch goal with
  | |- ∀ _, _ => intro
  | |- keeps_view _ (text_bind _ _) => apply view_bind
  | |- keeps_view _ (text_error _) => apply view_ret
  | |- keeps_view _ (mbind _ _) => apply view_bind
  | |- keeps_view _ (mret _) => apply view_ret
  | |- keeps_view _ (gets _) => apply view_gets
  | |- keeps_view _ (lift_run _) => apply view_lift
  | |- keeps_view _ (match ?x with _ => _ end) => destruct x eqn:?
  | |- keeps_view _ _ => solve [eauto 2]
  end.

Lemma still_set_deadline pid event : keeps_view view_calm (set_state_deadline pid event).
Proof.
  assert (∀ q f, (∀ p, ps_fds (f p) = ps_fds p) → keeps_view view_calm (update_state q f)) by apply still_update.
  unfold set_state_deadline. keep_calm; done.
Qed.

Lemma still_handle event : keeps_view view_calm (handle_event event).
Proof.
  pose proof @still_sched. pose proof still_send_signal. pose proof still_set_deadline.
  assert (∀ pids, keeps_view view_calm (interrupt_each (se_id event) pids)).
  { induction pids as [|pid pids IH]; cbn [interrupt_each]; unfold lived, scheduled; keep_events. }
  assert (∀ targets signal, keeps_view view_calm (signal_all targets signal)).
  { induction targets as [|pid targets IH]; intros signal; cbn [signal_all]; keep_events. }
  unfold handle_event, wake_task, deadline_reached, signal_task, scheduled. keep_events.
Qed.

Lemma steady_text {A B} (m : texted A) (k : A → texted B) : steady m → (∀ a, steady (k a)) → steady (text_bind k m).
Proof. intros Hm Hk. apply steady_bind; [done|]. intros []; [apply Hk|apply steady_ret]. Qed.

Lemma steady_scheduled {A} (m : mach (result SchedulerError A)) : steady m → steady (scheduled m).
Proof. intros Hm. apply steady_bind; [done|]. intros r. apply steady_ret. Qed.

Lemma steady_lived {A} (m : lifecycle A) : steady m → steady (lived m).
Proof. intros Hm. apply steady_bind; [done|]. intros r. apply steady_ret. Qed.

Lemma steady_set_deadline pid event : steady (set_state_deadline pid event).
Proof. unfold set_state_deadline. keep_steady. by apply steady_update. Qed.

Lemma steady_handle event : steady (handle_event event).
Proof.
  assert (Heach : ∀ pids, steady (interrupt_each (se_id event) pids)).
  { induction pids as [|pid pids IH]; cbn [interrupt_each]; [apply steady_ret|].
    apply steady_text; [apply steady_lived, steady_set_deadline|intros _].
    apply steady_text; [apply steady_scheduled, steady_sched_wake|by intros _]. }
  assert (Hall : ∀ targets signal, steady (signal_all targets signal)).
  { induction targets as [|pid targets IH]; intros signal; cbn [signal_all]; keep_steady; done. }
  unfold handle_event, wake_task, deadline_reached, signal_task. destruct (se_kind event).
  - keep_steady. apply steady_scheduled, steady_sched_wake.
  - apply steady_bind; [apply steady_gets|done].
  - apply steady_bind; [|intros; apply steady_ret]. destruct (process_of_task _) as [pid|]; [|apply steady_ret].
    apply steady_bind; [|intros; apply Hall]. intros h b s Hs. unfold KernelInv.wpm, lift_run.
    destruct descendants; [|by split].
    destruct (live_tree_returns (m_processes s) pid (gs_table _ _ _ Hs)) as [tree ->]. by split.
  - apply steady_ret.
Qed.

(** ** Every event that is due *)

Definition events_handled (h : list Z) (b : Z) (s : Machine) {A} (done : A → Prop) (r : A) (s' : Machine) : Prop :=
  sound h b s' ∧ kept s s' ∧ tm_pending (m_clock s') = tm_pending (m_clock s) ∧
  (timeline_wf (m_clock s) → timeline_wf (m_clock s')) ∧ (done r → tm_ready (m_clock s') = []) ∧
  m_host s' = m_host s ∧ tm_monotonic_ns (m_clock s') = tm_monotonic_ns (m_clock s).

Lemma wpm_steady_clock {A} (m : mach A) h b s (Q : A → Machine → Prop) : sound h b s → steady m → keeps_view view_calm m →
  (∀ a s', sound h b s' → kept s s' → m_clock s' = m_clock s → m_host s' = m_host s → Q a s') → wpm m s Q.
Proof.
  intros Hs Hm Hv HQ. specialize (Hm h b s Hs). unfold KernelInv.wpm in *. destruct (m s) as [[s' a]| |] eqn:Heq; [|done..].
  destruct Hm as [Hs' Hk]. apply Hv in Heq. unfold view_calm in Heq. by apply HQ; [..|congruence|congruence].
Qed.

Lemma wpm_handle_fuel fuel h b s : sound h b s → (length (tm_ready (m_clock s)) < fuel)%nat →
  wpm (handle_events_fuel fuel) s (events_handled h b s (λ r, r = Ok tt)).
Proof.
  revert s. induction fuel as [|fuel IH]; intros s Hs Hf; [lia|]. cbn [handle_events_fuel].
  apply wpm_bind. unfold take_ready, pop_ready, KernelInv.wpm at 1.
  destruct (tm_ready (m_clock s)) as [|event rest] eqn:Hr.
  { apply wpm_ret. unfold events_handled. destruct s. by cbn in *. }
  set (s1 := set_clock s _). assert (H1 : sound h b s1) by (by apply sound_clock).
  apply wpm_bind. eapply wpm_steady_clock; [exact H1|apply steady_handle|apply still_handle|].
  intros r s2 H2 K2 C2 V2. assert (Hwf : timeline_wf (m_clock s) → timeline_wf (m_clock s2)).
  { intros Hwf. rewrite C2. by eapply pop_ready_wf. }
  destruct r as [[]|message].
  - eapply wpm_mono; [apply IH; [done|]|]; [rewrite C2; cbn; simpl in Hf; lia|].
    intros r s3 (H3 & K3 & P3 & W3 & D3 & V3 & M3).
    split_and!; [done|by etrans|by rewrite P3, C2|auto|done|by rewrite V3|by rewrite M3, C2].
  - apply wpm_ret. split_and!; [done|done|by rewrite C2|done|done|done|by rewrite C2].
Qed.

Lemma wpm_handle_events h b s : sound h b s → wpm handle_ready_events s (events_handled h b s (λ r, r = Ok tt)).
Proof. intros Hs. unfold handle_ready_events. apply wpm_bind, wpm_gets. apply wpm_handle_fuel; [done|lia]. Qed.

(** ** Dispatching *)

(** Nothing can run. *)
Definition idle (s : Machine) : Prop := sc_current (m_scheduler s) = None ∧ sc_runnable (m_scheduler s) = [].

(** A process was given the processor, or the machine is idle and time does not help. The host is
    not asked, and the clock of a real-time machine does not jump. *)
Definition dispatched (h : list Z) (b : Z) (advance_time : bool) (s : Machine) (r : result string bool) (s' : Machine) : Prop :=
  sound h b s' ∧ (timeline_wf (m_clock s) → timeline_wf (m_clock s')) ∧ m_host s' = m_host s ∧
  (is_Some (hv_real_time (m_host s)) → tm_monotonic_ns (m_clock s') = tm_monotonic_ns (m_clock s)) ∧
  match r with
  | Ok true => good h b s' ∧ sc_current (m_scheduler s') = Some (m_active s')
  | Ok false => idle s' ∧ (advance_time = true → time_is_held s = false → timeline_wf (m_clock s) → tm_pending (m_clock s') = ∅)
  | Err _ => True
  end.

Lemma dispatch_answer c c' r : sched_wf c → dispatch c = (c', r) →
  match r with
  | Ok None => c' = c ∧ sc_current c = None ∧ sc_runnable c = []
  | Ok (Some pid) => sc_current c' = Some pid ∧ task_live c' pid
  | Err _ => True
  end.
Proof.
  intros Hc. unfold dispatch. destruct (sc_current c); [by intros [= <- <-]|].
  destruct (sc_runnable c) as [|pid queue]; [by intros [= <- <-]|].
  destruct (sc_states c !! pid) as [[]|]; intros [= <- <-]; try done.
  split; [done|]. unfold task_live. cbn [sc_states]. by rewrite lookup_insert_eq.
Qed.

Lemma time_free s : time_is_held s = false → hv_real_time (m_host s) = None.
Proof. unfold time_is_held. by destruct (hv_real_time _). Qed.

Lemma wpm_dispatch_fuel fuel h b s advance_time : sound h b s → (size (tm_pending (m_clock s)) < fuel)%nat →
  wpm (dispatch_fuel fuel advance_time) s (dispatched h b advance_time s).
Proof.
  revert s. induction fuel as [|fuel IH]; intros s Hs Hf; [lia|]. cbn [dispatch_fuel].
  apply wpm_bind, wpm_bind. pose proof (steady_sched_dispatch h b s Hs) as Hd. unfold sched_do, KernelInv.wpm at 1. unfold sched_do, KernelInv.wpm in Hd.
  destruct (dispatch (m_scheduler s)) as [c r] eqn:Hdisp.
  pose proof (dispatch_answer _ _ _ (gs_sched _ _ _ Hs) Hdisp) as Hcase. destruct Hd as [H1 _].
  destruct r as [[pid|]|error]; apply wpm_ret; [| |by split_and!].
  - destruct Hcase as [Hcur Hlive].
    assert (Hctx : is_Some (m_states (set_scheduler s c) !! pid)) by (by apply (gs_tasks _ _ _ H1)).
    apply wpm_bind, wpm_bind. unfold activate. apply wpm_bind, wpm_gets.
    rewrite bool_decide_eq_true_2 by done. apply wpm_bind, wpm_modify. do 2 apply wpm_ret.
    split_and!; [by apply sound_active|done|done|done| |done]. split; [by apply sound_active|done].
  - destruct Hcase as (-> & Hcur & Hrun). assert (Hsame : set_scheduler s (m_scheduler s) = s) by (by destruct s).
    rewrite Hsame in *. apply wpm_bind, wpm_gets.
    assert (Hidle : idle s) by done. destruct advance_time; cbn [negb orb]; [|by apply wpm_ret; split_and!].
    destruct (time_is_held s) eqn:Hheld; [apply wpm_ret; split_and!; [done..|]; by intros _ Hfree; rewrite Hfree in Hheld|].
    pose proof (time_free _ Hheld) as Hvirtual.
    apply wpm_bind. unfold timed, KernelInv.wpm at 1.
    destruct (advance_next_moves (m_clock s)) as (t & r & Hadv & Hmoves). rewrite Hadv. cbn [mbind run_bind].
    set (s1 := set_clock _ t). assert (Hs1 : sound h b s1) by (by apply sound_clock).
    destruct r as [[|event fired]|error].
    + apply wpm_ret. split_and!; [done|intros Hwf; by eapply advance_next_wf|done|by rewrite Hvirtual; intros []|by split|].
      intros _ _ Hwf. by eapply advance_next_fires.
    + destruct Hmoves as [_ Hsize]. apply wpm_bind. eapply wpm_mono; [by apply wpm_handle_events|].
      intros [[]|message] s2 (H2 & K2 & P2 & W2 & D2 & V2 & M2).
      * eapply wpm_mono; [apply IH; [done|]|]; [rewrite P2; cbn in *; lia|].
        assert (Hwf' : timeline_wf (m_clock s) → timeline_wf (m_clock s2)) by (intros Hwf; apply W2; by eapply advance_next_wf).
        change (m_host s2 = m_host s) in V2. unfold dispatched, time_is_held. rewrite V2.
        intros r s3 (H3 & W3 & V3 & M3 & C3). split_and!; [done|auto|done|by rewrite Hvirtual; intros []|].
        destruct r as [[]|]; [done| |done]. destruct C3 as [Hi Hp]. split; [done|]. auto.
      * apply wpm_ret. split_and!; [done| |done|by rewrite Hvirtual; intros []|done].
        intros Hwf. apply W2. by eapply advance_next_wf.
    + apply wpm_ret. subst t. by split_and!.
Qed.

(** ** The host's clock *)

(** Where the clock stands once the host was asked. *)
Definition synced_ns (s : Machine) : Z :=
  match hv_real_time (m_host s) with
  | None => tm_monotonic_ns (m_clock s)
  | Some anchor => Z.max (tm_monotonic_ns (m_clock s)) (elapsed_virtual_ns anchor (hv_elapsed (m_host s) 0))
  end.

(** The same machine to its host: only readings of its clock were taken. *)
Definition same_host (v v' : HostView) : Prop := hv_real_time v' = hv_real_time v ∧ hv_requests v' = hv_requests v.

Lemma same_host_held s s' : same_host (m_host s) (m_host s') → time_is_held s' = time_is_held s.
Proof. intros [Hr Hq]. unfold time_is_held, has_unanswered_host_requests. by rewrite Hr, Hq. Qed.

Lemma elapsed_bound anchor reading : elapsed_virtual_ns anchor reading ≤ U64_MAX.
Proof. apply Z.le_min_r. Qed.

Definition synced (h : list Z) (b : Z) (s : Machine) (r : result string unit) (s' : Machine) : Prop :=
  r = Ok tt ∧ sound h b s' ∧ (timeline_wf (m_clock s) → timeline_wf (m_clock s')) ∧
  same_host (m_host s) (m_host s') ∧ tm_monotonic_ns (m_clock s') = synced_ns s.

Lemma wpm_sync_host h b s : sound h b s → wpm sync_host_time s (synced h b s).
Proof.
  intros Hs. unfold sync_host_time, synced, synced_ns. apply wpm_bind, wpm_gets.
  destruct (hv_real_time (m_host s)) as [anchor|] eqn:Hreal; [|by apply wpm_ret].
  apply wpm_bind. unfold read_host_clock, KernelInv.wpm at 1. set (s1 := set_host s _).
  assert (H1 : sound h b s1) by (by apply sound_host). set (target := elapsed_virtual_ns _ _).
  assert (Hhost : same_host (m_host s) (m_host s1)) by done.
  apply wpm_bind, wpm_gets. change (m_clock s1) with (m_clock s). destruct (Z.ltb_spec (tm_monotonic_ns (m_clock s)) target) as [Hlt|Hge].
  - apply wpm_bind. unfold timed, KernelInv.wpm at 1. change (m_clock s1) with (m_clock s).
    destruct (advance_to_moves (m_clock s) target) as (t & r & Hadv & Hmoves). rewrite Hadv. cbn [mbind run_bind].
    destruct r as [fired|e].
    + apply wpm_ret. destruct Hmoves as [Hnow _].
      split_and!; [done|by apply sound_clock| |done|cbn [m_clock set_clock]; lia]. intros Hwf.
      destruct (advance_to_spec (m_clock s) target Hwf) as (t' & Hadv' & Hmoved); [lia|].
      rewrite Hadv' in Hadv. injection Hadv as <- _. eapply advanced_wf; [exact Hwf| |apply elapsed_bound|exact Hmoved]. lia.
    + exfalso. revert Hadv. unfold advance_to. destruct (Z.ltb_spec target (tm_monotonic_ns (m_clock s))); [lia|].
      cbv zeta. by destruct (fire_due _ _ _ _) as [[[]]| |].
  - apply wpm_ret. split_and!; [done|done|done|done|]. change (tm_monotonic_ns (m_clock s) = Z.max (tm_monotonic_ns (m_clock s)) target). lia.
Qed.

(** File-lock waiters wake whoever the active process is. *)
Lemma steady_wake_locks : steady env_wake_file_lock_waiters.
Proof.
  unfold env_wake_file_lock_waiters. apply steady_bind.
  - intros h b s Hs. unfold KernelInv.wpm. destruct (gs_desc _ _ _ Hs) as [U HU].
    pose proof (take_file_lock_changes_inert _ (dw_arena _ HU)) as Hi. cbn [arena_of dy_arena] in Hi.
    destruct (step_ok_inert _ _ HU Hi) as (y & ev & [= <- <-] & Hwf & Ht). apply transition_next in Ht.
    assert (Hk : files_kept (m_descriptors s) (take_file_lock_changes (m_descriptors s)).1) by (by apply files_same).
    unfold take_file_lock_changes. split; [|done].
    eapply sound_arena; [exact Hs|exists U; exact Hwf|exact Ht|]. eapply files_ok_kept; [exact Hk|apply (gs_files _ _ _ Hs)].
  - intros changed. destruct changed; [|apply steady_ret]. by apply (steady_wake _ contains_lock).
Qed.

(** What choosing a process leaves behind. *)
Definition chosen (h : list Z) (b : Z) (advance_time : bool) (s : Machine) (r : result string bool) (s' : Machine) : Prop :=
  sound h b s' ∧ (timeline_wf (m_clock s) → timeline_wf (m_clock s')) ∧ same_host (m_host s) (m_host s') ∧
  (is_Some (hv_real_time (m_host s)) → tm_monotonic_ns (m_clock s') = synced_ns s) ∧
  match r with
  | Ok true => good h b s' ∧ sc_current (m_scheduler s') = Some (m_active s')
  | Ok false => idle s' ∧ (advance_time = true → time_is_held s = false → timeline_wf (m_clock s) → tm_pending (m_clock s') = ∅)
  | Err _ => True
  end.

Lemma wpm_dispatch h b s advance_time : sound h b s →
  wpm (dispatch_available advance_time) s (chosen h b advance_time s).
Proof.
  intros Hs. unfold dispatch_available. apply wpm_bind.
  eapply wpm_steady_clock; [exact Hs|apply steady_wake_locks|apply still_wake_locks|]. intros _ s1 H1 K1 C1 V1.
  apply wpm_bind. eapply wpm_mono; [by apply wpm_sync_host|]. intros r s2 (-> & H2 & W2 & V2 & M2).
  rewrite C1 in W2. unfold synced_ns in M2. rewrite V1, C1 in M2. rewrite V1 in V2.
  apply wpm_bind. eapply wpm_mono; [by apply wpm_handle_events|]. intros [[]|message] s3 (H3 & K3 & P3 & W3 & D3 & V3 & M3).
  - apply wpm_bind, wpm_gets. eapply wpm_mono; [apply wpm_dispatch_fuel; [exact H3|lia]|].
    rewrite <-V3 in V2. unfold dispatched. rewrite (same_host_held s s3 V2), M3, M2.
    intros r s4 (H4 & W4 & V4 & M4 & R4). rewrite <-V4 in V2.
    split_and!; [done|auto|done| |].
    + intros Hreal. apply M4. by rewrite <-V4, (proj1 V2).
    + destruct r as [[]|]; [done| |done]. destruct R4 as [Hi Hp]. split; [done|]. auto.
  - apply wpm_ret. split_and!; [done|auto|by rewrite V3|by rewrite M3|done].
Qed.

(** C8: choosing a process ends, and reports that everything is blocked only when it is so. From a
    machine in its invariant [dispatch_available] returns without panicking, whatever events are due
    or pending and whoever they wake, interrupt or signal. When it reports a process, that process
    runs, is the active one and has a context, so a quantum can be given to it. When it reports none,
    no process runs or is runnable; and if the caller lets time advance and time can jump (the clock
    is virtual and no guest waits for a reply of the host) then no event is pending either, so nothing
    would ever wake a task again. The clock of a real-time machine follows the host: it ends at the
    host's reading, or stays where it was when that is later, whatever is pending. *)
Theorem dispatch_finds_a_process (h : list Z) (b : Z) (s : Machine) (advance_time : bool) :
  sound h b s → timeline_wf (m_clock s) →
  ∃ s' r, dispatch_available advance_time s = Ret (s', r) ∧ sound h b s' ∧ timeline_wf (m_clock s') ∧
    match r with
    | Ok true => good h b s' ∧ sc_current (m_scheduler s') = Some (m_active s')
    | Ok false => sc_current (m_scheduler s') = None ∧ sc_runnable (m_scheduler s') = [] ∧
                  (advance_time = true → hv_real_time (m_host s) = None →
                   has_unanswered_host_requests (m_host s) = false → tm_pending (m_clock s') = ∅)
    | Err _ => True
    end ∧
    ∀ anchor, hv_real_time (m_host s) = Some anchor →
      tm_monotonic_ns (m_clock s') =
        Z.max (tm_monotonic_ns (m_clock s)) (elapsed_virtual_ns anchor (hv_elapsed (m_host s) 0)).
Proof.
  intros Hs Hwf. pose proof (wpm_dispatch h b s advance_time Hs) as Hd. unfold KernelInv.wpm in Hd.
  destruct (dispatch_available advance_time s) as [[s' r]| |]; [|done..]. destruct Hd as (H1 & H2 & _ & H3 & H4).
  exists s', r. split_and!; [done|done|auto| |].
  - destruct r as [[]|]; [done| |done]. destruct H4 as [[Hc Hr] Hp]. split_and!; [done|done|].
    intros Ha Hreal Hno. apply Hp; [done| |done]. unfold time_is_held. by rewrite Hreal, Hno.
  - intros anchor Hreal. rewrite H3; [|by eexists]. unfold synced_ns. by rewrite Hreal.
Qed.

(** A machine whose running task waits for a timer that is due in a second. *)
Definition timer_blocked (s : Machine) : Machine :=
  set_clock (set_scheduler s (block_current (m_scheduler s) (Timer 1000000000)).1)
    (schedule_after timeline_new 1000000000 (WakeTask ROOT_PID)).1.

(** The same on a machine that follows the host, five seconds before its timer. *)
Definition host_blocked (s : Machine) : Machine :=
  set_host (set_clock (timer_blocked s) (schedule_after timeline_new 5000000005 (WakeTask ROOT_PID)).1)
    (MkHostView (Some (MkHostAnchor 0)) (λ _, 5%N) ∅).

Lemma blocked_sound s : good [] 0 s → sound [] 0 (timer_blocked s) ∧ sound [] 0 (host_blocked s).
Proof.
  intros Hg. assert (Hs : sound [] 0 (timer_blocked s)); [|by split; [|apply sound_host, sound_clock]].
  apply sound_clock, sound_scheduler; [by apply gd_sound|apply block_current_wf, (gs_sched _ _ _ (gd_sound _ _ _ Hg))|].
  apply block_born, (gs_sched _ _ _ (gd_sound _ _ _ Hg)).
Qed.

Lemma blocked_clock delay : timeline_wf (schedule_after timeline_new delay (WakeTask ROOT_PID)).1.
Proof.
  assert (H0 : timeline_wf timeline_new) by (apply timeline_new_wf; simpl; mach).
  pose proof (schedule_after_spec timeline_new delay (WakeTask ROOT_PID) H0) as H1.
  destruct (schedule_after _ _ _) as [t [id|e]]; [apply H1|by rewrite H1].
Qed.

Lemma dispatch_finds_a_process_witness :
  (∃ s s', sc_current (m_scheduler s) = None ∧ sc_runnable (m_scheduler s) = [] ∧
    dispatch_available true s = Ret (s', Ok true) ∧ sc_current (m_scheduler s') = Some (m_active s')) ∧
  (∃ s s', dispatch_available true s = Ret (s', Ok false) ∧ tm_monotonic_ns (m_clock s') = 5).
Proof.
  destruct (example_boot (λ s, bool_decide (sc_current (m_scheduler (timer_blocked s)) = None) &&
      bool_decide (sc_runnable (m_scheduler (timer_blocked s)) = []) &&
      match dispatch_available true (timer_blocked s) with Ret (_, Ok true) => true | _ => false end &&
      match dispatch_available true (host_blocked s) with Ret (_, Ok false) => true | _ => false end))
    as (s & _ & Hg & Hr); [vm_compute; reflexivity|].
  apply andb_true_iff in Hr as [[[Hc%bool_decide_eq_true Hq%bool_decide_eq_true]%andb_true_iff Hr]%andb_true_iff Hr'].
  destruct (blocked_sound s Hg) as [Hs Hs']. split.
  - destruct (dispatch_finds_a_process [] 0 (timer_blocked s) true) as (s' & r & Hd & _ & _ & Hk & _); [done|apply blocked_clock|].
    rewrite Hd in Hr. destruct r as [[]|]; try discriminate Hr. exists (timer_blocked s), s'. by destruct Hk.
  - destruct (dispatch_finds_a_process [] 0 (host_blocked s) true) as (s' & r & Hd & _ & _ & _ & Hk); [done|apply blocked_clock|].
    rewrite Hd in Hr'. destruct r as [[]|]; try discriminate Hr'. exists (host_blocked s), s'. split; [exact Hd|].
    rewrite (Hk (MkHostAnchor 0)); reflexivity.
Defined.
