(* ===== verification/ExecFrames.v ===== *)
(** * The stack of a shell is bounded (src/src/exec.rs)

    Whatever a shell runs, its stack holds at most one frame more than the limit: every operation
    that pushes checks the limit, except the ones that put back a frame where one was taken. The
    judgement [frames m n Q] follows the height of the stack through an operation and forgets the
    rest of its state. *)

From stdpp Require Import pretty.
From S2P Require Import Prelude.
From S2P Require Import State.
From S2P Require Import Syntax.
From S2P Require Import ProcessState.
From S2P Require Import ShellVars.
From S2P Require Import Machine.
From S2P Require Import Kernel.
From S2P Require Import Lifecycle.
From S2P Require Import ExecData.
From S2P Require Import ExecText.
From S2P Require Import ExecVars.
From S2P Require Import Redirects.
From S2P Require Import ExecHost.
From S2P Require Import ExecPrep.
From S2P Require Import Exec.
From S2P Require Import BootInv.
From S2P Require Import ScriptHost.

Create HintDb frames.

Section frames.
Context {R N : Type} {H : Host R N}.
Abbreviation sh A := (stm (Shell R N) A).
Implicit Types (x : Shell R N) (c : ShellContinuation R).

Definition height (x : Shell R N) : Z := zlen (sc_frames (x_shell x)).

(** When [m] returns from a stack of height [n], [Q] has of its result and of the height it leaves. *)
Definition frames {A} (m : sh A) (n : Z) (Q : A → Z → Prop) : Prop :=
  ∀ x x' a, height x = n → m x = Ret (x', a) → Q a (height x').

(** ** Rules *)

Lemma frames_mono {A} (m : sh A) n (Q Q' : A → Z → Prop) :
  frames m n Q → (∀ a n', Q a n' → Q' a n') → frames m n Q'.
Proof. intros Hm HQ x x' a Hn Hr. eapply HQ, Hm; done. Qed.

Lemma frames_ret {A} (a : A) n (Q : A → Z → Prop) : Q a n → frames (mret a) n Q.
Proof. intros HQ x x' a' Hn [= <- <-]. by rewrite Hn. Qed.

Lemma frames_bind {A B} (m : sh A) (k : A → sh B) n Q :
  frames m n (λ a n', frames (k a) n' Q) → frames (m ≫= k) n Q.
Proof.
  intros Hm x x' b Hn. unfold mbind, stm_bind. destruct (m x) as [[y a]| |] eqn:Ha; [|done..].
  intros Hk. exact (Hm x y a Hn Ha y x' b eq_refl Hk).
Qed.

Lemma frames_world {A} (m : stm (World R N) A) n (Q : A → Z → Prop) : (∀ a, Q a n) → frames (on_world m) n Q.
Proof.
  intros HQ x x' a Hn. unfold on_world, mbind, run_bind. destruct (m (x_world x)) as [[w b]| |]; [|done..].
  intros [= <- <-]. specialize (HQ b). rewrite <- Hn in HQ. exact HQ.
Qed.

Lemma frames_machine {A} (m : mach A) n (Q : A → Z → Prop) : (∀ a, Q a n) → frames (in_machine m) n Q.
Proof. apply frames_world. Qed.

Lemma frames_ask {A} (f : ShellContinuation R → A) n (Q : A → Z → Prop) : (∀ a, Q a n) → frames (ask f) n Q.
Proof. intros HQ x x' a Hn [= <- <-]. rewrite Hn. apply HQ. Qed.

Lemma frames_edit f n (Q : unit → Z → Prop) :
  (∀ c, zlen (sc_frames (f c)) = zlen (sc_frames c)) → Q tt n → frames (edit f) n Q.
Proof. intros Hf HQ x x' a Hn [= <- <-]. unfold height. cbn. rewrite Hf. unfold height in Hn. by rewrite Hn. Qed.

Lemma frames_put f n (Q : unit → Z → Prop) : Q tt (n + 1) → frames (put_frame f) n Q.
Proof.
  intros HQ x x' a Hn [= <- <-]. unfold height in *. cbn. replace (Z.of_nat (S _)) with (n + 1) by lia. exact HQ.
Qed.

Lemma frames_set fs n (Q : unit → Z → Prop) : Q tt (zlen fs) → frames (edit (λ c, set_frames c fs)) n Q.
Proof. by intros HQ x x' a Hn [= <- <-]. Qed.

Lemma frames_abort n (Q : unit → Z → Prop) : Q tt 0 → frames shell_abort n Q.
Proof.
  intros HQ. unfold shell_abort. apply frames_bind, frames_ask. intros fs.
  apply frames_bind, frames_set, frames_machine. by intros [].
Qed.

Lemma frames_set_result status n (Q : unit → Z → Prop) : Q tt n → frames (set_result status) n Q.
Proof. by apply frames_edit. Qed.

Lemma frames_overflow n (Q : unit → Z → Prop) : Q tt 0 → frames frame_overflow n Q.
Proof.
  intros HQ. unfold frame_overflow. apply frames_bind, frames_machine. intros _.
  apply frames_bind, frames_set_result. by apply frames_abort.
Qed.

Lemma frames_count n (Q : Z → Z → Prop) : Q n n → frames frame_count n Q.
Proof. intros HQ x x' a Hn [= <- <-]. fold (height x). by rewrite Hn. Qed.

Lemma frames_push f n (Q : bool → Z → Prop) :
  (n < MAX_SHELL_FRAMES → Q true (n + 1)) → Q false 0 → frames (push_frame f) n Q.
Proof.
  intros Ht Hf. unfold push_frame. apply frames_bind, frames_count. destruct (_ <=? n) eqn:Hn.
  - apply frames_bind, frames_overflow, frames_ret, Hf.
  - apply frames_bind, frames_put, frames_ret, Ht. bool_to_prop. lia.
Qed.

Lemma frames_capacity k n (Q : bool → Z → Prop) :
  (n + k ≤ MAX_SHELL_FRAMES → Q true n) → Q false 0 → frames (ensure_capacity k) n Q.
Proof.
  intros Ht Hf. unfold ensure_capacity. apply frames_bind, frames_count. destruct (_ <? _) eqn:Hn.
  - apply frames_bind, frames_overflow, frames_ret, Hf.
  - apply frames_ret, Ht. unfold MAX_SHELL_FRAMES in *. mach.
Qed.

(** ** Operations *)

(** Started with room for one more frame, [m] leaves at most one frame too many. *)
Definition bounded {A} (m : sh A) : Prop :=
  ∀ n, 0 ≤ n ≤ MAX_SHELL_FRAMES → frames m n (λ _ n', 0 ≤ n' ≤ MAX_SHELL_FRAMES + 1).

Lemma bounded_at {A} (m : sh A) n :
  bounded m → 0 ≤ n ≤ MAX_SHELL_FRAMES → frames m n (λ _ n', 0 ≤ n' ≤ MAX_SHELL_FRAMES + 1).
Proof. auto. Qed.

(** Follow an operation to its ends; the operations it calls are known. *)
Ltac frames_step :=
  match goal with
  | |- frames (mret _) _ _ => apply frames_ret
  | |- frames (mbind _ _) _ _ => apply frames_bind
  | |- frames (in_machine _) _ _ => apply frames_machine; intros ?
  | |- frames (on_world _) _ _ => apply frames_world; intros ?
  | |- frames (ask _) _ _ => apply frames_ask; intros ?
  | |- frames (put_frame _) _ _ => apply frames_put
  | |- frames (push_frame _) _ _ => apply frames_push; [intros ?|]
  | |- frames (push_ _) _ _ => unfold push_
  | |- frames (fail_expansion _ _) _ _ => unfold fail_expansion
  | |- frames (push_two _ _) _ _ => unfold push_two
  | |- frames (ensure_capacity _) _ _ => apply frames_capacity; [intros ?|]
  | |- frames (set_result _) _ _ => apply frames_set_result
  | |- frames shell_abort _ _ => apply frames_abort
  | |- frames (edit (λ c, set_frames c _)) _ _ => apply frames_set
  | |- frames (edit _) _ _ => apply frames_edit; [done|]
  | |- frames (if ?b then _ else _) _ _ => destruct b
  | |- frames (match ?e with _ => _ end) _ _ => destruct e
  | |- _ ≤ _ => unfold MAX_SHELL_FRAMES in *; lia
  | |- _ ∧ _ => split
  | |- frames _ _ _ => apply bounded_at; [solve [auto with frames]|]
  | _ => progress cbn [negb]
  end.
Ltac frames_go := intros n Hn; repeat frames_step.

Lemma accept_poll_bounded command variables result stdout stderr :
  bounded (accept_poll command variables result stdout stderr).
Proof. unfold accept_poll, enter_inline_command, enter_source, mark_switched, wait_on. frames_go. Qed.
#[local] Hint Resolve accept_poll_bounded : frames.

Lemma resume_command_bounded variables continuation : bounded (resume_command variables continuation).
Proof. unfold resume_command, accept_poll, enter_inline_command, enter_source, mark_switched, wait_on. frames_go. Qed.
#[local] Hint Resolve resume_command_bounded : frames.

Lemma read_program_bounded pending : bounded (read_program pending).
Proof. unfold read_program, run_source, read_on, wait_on. frames_go. Qed.
#[local] Hint Resolve read_program_bounded : frames.

Lemma run_buffered_bounded argv variables stdin reserved : bounded (run_buffered argv variables stdin reserved).
Proof.
  unfold run_buffered, first_argument. frames_go.
Qed.
#[local] Hint Resolve run_buffered_bounded : frames.

Lemma read_command_input_bounded argv variables stdin reserved framing :
  bounded (read_command_input argv variables stdin reserved framing).
Proof.
  unfold read_command_input, first_argument, wait_on. frames_go.
Qed.
#[local] Hint Resolve read_command_input_bounded : frames.

Lemma write_command_output_bounded command variables status stdout stderr o e :
  bounded (write_command_output command variables status stdout stderr o e).
Proof. unfold write_command_output, wait_on. frames_go. Qed.
#[local] Hint Resolve write_command_output_bounded : frames.

(** *** Preparing *)

Lemma run_substitution_bounded source undo wait : bounded (run_substitution source undo wait).
Proof. unfold run_substitution, mark_switched. frames_go. Qed.
#[local] Hint Resolve run_substitution_bounded : frames.

Lemma substitute_bounded source undo replace : bounded (substitute source undo replace).
Proof. unfold substitute. frames_go. Qed.
#[local] Hint Resolve substitute_bounded : frames.

Lemma launch_bounded command : bounded (launch command).
Proof.
  unfold launch, frames_needed, flag. frames_go;
    repeat match goal with H : context [if ?b then _ else _] |- _ => destruct b eqn:? end;
    bool_to_prop; try done; frames_step.
Qed.
#[local] Hint Resolve launch_bounded : frames.

Lemma prepare_command_bounded command : bounded (prepare_command command).
Proof.
  unfold prepare_command, prepare_output. frames_go.
Qed.
#[local] Hint Resolve prepare_command_bounded : frames.

Lemma await_command_substitution_bounded command pid capture variable previous : bounded (await_command_substitution command pid capture variable previous).
Proof. unfold await_command_substitution. frames_go. Qed.
#[local] Hint Resolve await_command_substitution_bounded : frames.

Lemma await_process_substitution_bounded command pid capture location : bounded (await_process_substitution command pid capture location).
Proof. unfold await_process_substitution. frames_go. Qed.
#[local] Hint Resolve await_process_substitution_bounded : frames.

Lemma run_output_substitutions_bounded substitutions command_status : bounded (run_output_substitutions substitutions command_status).
Proof. unfold run_output_substitutions, mark_switched. frames_go. Qed.
#[local] Hint Resolve run_output_substitutions_bounded : frames.

Lemma await_output_substitution_bounded substitutions command_status pid : bounded (await_output_substitution substitutions command_status pid).
Proof. unfold await_output_substitution. frames_go. Qed.
#[local] Hint Resolve await_output_substitution_bounded : frames.

Lemma prepare_for_bounded state : bounded (prepare_for state).
Proof. unfold prepare_for. frames_go. Qed.
#[local] Hint Resolve prepare_for_bounded : frames.

Lemma await_for_substitution_bounded state pid capture variable previous : bounded (await_for_substitution state pid capture variable previous).
Proof. unfold await_for_substitution. frames_go. Qed.
#[local] Hint Resolve await_for_substitution_bounded : frames.

Lemma prepare_case_bounded state : bounded (prepare_case state).
Proof. unfold prepare_case. frames_go. Qed.
#[local] Hint Resolve prepare_case_bounded : frames.

Lemma await_case_substitution_bounded state pid capture variable previous : bounded (await_case_substitution state pid capture variable previous).
Proof. unfold await_case_substitution. frames_go. Qed.
#[local] Hint Resolve await_case_substitution_bounded : frames.

Lemma continue_arithmetic_bounded continuation value : bounded (continue_arithmetic continuation value).
Proof. unfold continue_arithmetic. frames_go. Qed.
#[local] Hint Resolve continue_arithmetic_bounded : frames.

Lemma prepare_arithmetic_bounded state : bounded (prepare_arithmetic state).
Proof. unfold prepare_arithmetic. frames_go. Qed.
#[local] Hint Resolve prepare_arithmetic_bounded : frames.

Lemma await_arithmetic_substitution_bounded state pid capture start finish : bounded (await_arithmetic_substitution state pid capture start finish).
Proof. unfold await_arithmetic_substitution. frames_go. Qed.
#[local] Hint Resolve await_arithmetic_substitution_bounded : frames.

(** *** Commands *)

Lemma eval_external_argv_bounded argv variables : bounded (eval_external_argv argv variables).
Proof. unfold eval_external_argv, exec_in_place, first_argument, exec_failed. frames_go; simpl; frames_step. Qed.
#[local] Hint Resolve eval_external_argv_bounded : frames.

Lemma replace_image_bounded argv : bounded (replace_image argv).
Proof. unfold replace_image, exec_failed. frames_go. Qed.
#[local] Hint Resolve replace_image_bounded : frames.

(** [eval_external_argv] after a frame was pushed. *)
Lemma exec_builtin_bounded argv variables : bounded (exec_builtin argv variables).
Proof. unfold exec_builtin, exec_program, exec_refused. frames_go. Qed.
#[local] Hint Resolve exec_builtin_bounded : frames.

Lemma eval_assignments_bounded assigns temporary status : bounded (eval_assignments assigns temporary status).
Proof. unfold eval_assignments. frames_go. Qed.
#[local] Hint Resolve eval_assignments_bounded : frames.

Lemma dispatch_command_bounded argv variables : bounded (dispatch_command argv variables).
Proof. unfold dispatch_command, call_function. frames_go. Qed.
#[local] Hint Resolve dispatch_command_bounded : frames.

Lemma eval_command_bounded assigns words temporary status : bounded (eval_command assigns words temporary status).
Proof. unfold eval_command, run_words. frames_go. Qed.
#[local] Hint Resolve eval_command_bounded : frames.

Lemma spawn_child_bounded node label reap : bounded (spawn_child node label reap).
Proof. unfold spawn_child, mark_switched. frames_go. Qed.
#[local] Hint Resolve spawn_child_bounded : frames.

Lemma spawn_pipeline_bounded stages : bounded (spawn_pipeline stages).
Proof. unfold spawn_pipeline, pipeline_failed, wait_on. frames_go. Qed.
#[local] Hint Resolve spawn_pipeline_bounded : frames.

Lemma await_child_bounded pid reap : bounded (await_child pid reap).
Proof. unfold await_child, wait_on. frames_go. Qed.
#[local] Hint Resolve await_child_bounded : frames.

Lemma await_pipeline_bounded pids statuses next pipefail : bounded (await_pipeline pids statuses next pipefail).
Proof. unfold await_pipeline, wait_on. frames_go. Qed.
#[local] Hint Resolve await_pipeline_bounded : frames.

(** *** Syntax and constructs *)

Lemma eval_node_bounded node : bounded (eval_node node).
Proof. unfold eval_node, clear_exempt, enter_loop. frames_go. Qed.
#[local] Hint Resolve eval_node_bounded : frames.

Lemma eval_bounded node : bounded (eval node).
Proof. unfold eval, push_if. frames_go. Qed.
#[local] Hint Resolve eval_bounded : frames.

Lemma after_body_bounded again : bounded (after_body again).
Proof. unfold after_body. frames_go. Qed.
#[local] Hint Resolve after_body_bounded : frames.

Lemma check_error_bounded : bounded check_error.
Proof. unfold check_error. frames_go. Qed.
#[local] Hint Resolve check_error_bounded : frames.

Lemma step_bounded frame : bounded (step frame).
Proof.
  destruct frame; cbn [step]; try solve [frames_go];
    unfold finish_time, record_pipe_status, step_sequence, sequence_next, errexit_ends, step_conditional, clear_exempt,
      step_negate, step_if_next, step_if_after, step_while_check, step_while_after_condition, step_for_next,
      step_cfor_check, finish_function, finish_source, finish_exit_trap, finish_error_trap; frames_go.
Qed.
#[local] Hint Resolve step_bounded : frames.

(** *** A quantum *)

Abbreviation capped m := (∀ n, 0 ≤ n ≤ MAX_SHELL_FRAMES + 1 → frames m n (λ _ n', 0 ≤ n' ≤ MAX_SHELL_FRAMES + 1)).

Lemma frames_ask_frames n (Q : list (ShellFrame R) → Z → Prop) : (∀ fs, zlen fs = n → Q fs n) → frames (ask sc_frames) n Q.
Proof. intros HQ x x' a Hn [= <- <-]. unfold height in *. rewrite Hn. by apply HQ. Qed.

Lemma bookkeep_capped fuel : capped (bookkeep fuel).
Proof.
  induction fuel as [|fuel IH]; intros n Hn; cbn [bookkeep]; apply frames_bind, frames_ask_frames; intros [|frame rest] Hl;
    repeat frames_step; [by intros x x' a _|]. cbn [length] in Hl.
  eapply frames_mono; [apply step_bounded; repeat frames_step|]. intros ? n' Hn'. by apply IH.
Qed.

Lemma run_bookkeeping_capped : capped run_bookkeeping.
Proof. intros n Hn. unfold run_bookkeeping. apply frames_bind, frames_ask. intros fs. by apply bookkeep_capped. Qed.

Lemma finish_program_capped : frames finish_program 0 (λ _ n', 0 ≤ n' ≤ MAX_SHELL_FRAMES + 1).
Proof. unfold finish_program. repeat frames_step. Qed.

Lemma poll_round_capped : capped poll_round.
Proof.
  intros n Hn. unfold poll_round, pop_frame, poll_outcome. apply frames_bind, frames_bind, frames_ask_frames.
  intros [|frame rest] Hl; cbn [length] in Hl.
  - apply frames_ret. subst n. apply finish_program_capped.
  - apply frames_bind, frames_set, frames_ret, frames_bind. eapply frames_mono; [apply step_bounded; repeat frames_step|].
    intros ? n' Hn'. apply frames_bind. eapply frames_mono; [by apply run_bookkeeping_capped|].
    intros ? n'' Hn''. repeat frames_step.
Qed.

Lemma poll_rounds_capped budget : capped (poll_rounds budget).
Proof.
  induction budget as [|budget IH]; intros n Hn; cbn [poll_rounds]; [by apply frames_ret|].
  apply frames_bind. eapply frames_mono; [by apply poll_round_capped|].
  intros [outcome|] n' Hn'; [by apply frames_ret|by apply IH].
Qed.

Lemma shell_poll_capped budget : capped (shell_poll budget).
Proof.
  intros n Hn. unfold shell_poll. repeat frames_step.
  eapply frames_mono; [by apply poll_rounds_capped|]. intros [outcome|] n' Hn'; repeat frames_step.
Qed.

Lemma inject_signal_handler_capped body : capped (inject_signal_handler body).
Proof. unfold inject_signal_handler. frames_go. Qed.

(** ** Every stack of a shell

    A shell is started on a program, polled and interrupted by handlers, in whatever worlds the other
    processes leave behind in between. *)
Inductive shell_reachable : ShellContinuation R → Prop :=
| reach_program node : shell_reachable (shell_new node)
| reach_subshell node entry : shell_reachable (set_pipeline_entry (shell_subshell node) entry)
| reach_standard_input : shell_reachable standard_input_program
| reach_poll c w budget x poll :
    shell_reachable c → shell_poll budget (MkShellRun c w) = Ret (x, poll) → shell_reachable (x_shell x)
| reach_handler c w body x :
    shell_reachable c → inject_signal_handler body (MkShellRun c w) = Ret (x, tt) → shell_reachable (x_shell x).

(** C9: However long a shell runs, whatever its commands do, the other processes and the handlers
    that interrupt it, its stack never holds more than one frame over the limit. *)
Theorem frames_never_exceed_limit c : shell_reachable c → zlen (sc_frames c) ≤ MAX_SHELL_FRAMES + 1.
Proof.
  intros Hc. cut (0 ≤ zlen (sc_frames c) ≤ MAX_SHELL_FRAMES + 1); [lia|].
  induction Hc as [| | |c w budget x poll _ IH Hpoll|c w body x _ IH Hrun]; [cbn; repeat frames_step..| |].
  - exact (shell_poll_capped budget _ IH (MkShellRun c w) x poll eq_refl Hpoll).
  - exact (inject_signal_handler_capped body _ IH (MkShellRun c w) x tt eq_refl Hrun).
Qed.

End frames.

Lemma frames_never_exceed_limit_witness : ∃ (s : Machine) x poll,
  shell_poll 3 (MkShellRun (shell_new (NNot (NGroup NEmpty))) (MkWorld s ∅)) = Ret (x, poll) ∧
  0 < zlen (sc_frames (x_shell (R := unit) (N := Empty_set) x)) ≤ MAX_SHELL_FRAMES + 1.
Proof.
  destruct (example_boot (λ s,
    match shell_poll 3 (MkShellRun (shell_new (R := unit) (NNot (NGroup NEmpty))) (MkWorld (N := Empty_set) s ∅)) with
    | Ret (x, _) => 0 <? zlen (sc_frames (x_shell x)) | _ => false end)) as (s & _ & _ & Hr); [vm_compute; reflexivity|].
  destruct (shell_poll 3 _) as [[x poll]| |] eqn:Hpoll; [|discriminate Hr..].
  exists s, x, poll. split; [exact Hpoll|split; [by apply Z.ltb_lt in Hr|]].
  apply frames_never_exceed_limit. eapply reach_poll; [apply reach_program|exact Hpoll].
Defined.
