(* ===== verification/ExecStack.v ===== *)
(** * The frames below the running one (src/src/exec.rs)

    A step works on the frame it was given and on what it pushes: the frames below are as they were
    when it ends, or they are gone, all of them, when the shell was torn down (it ran out of frames,
    or its image was replaced). The judgement [stack m L Q] follows the frames through an operation
    and forgets the rest of its state. *)

From stdpp Require Import pretty.
From S2P Require Import Prelude.
From S2P Require Import State.
From S2P Require Import Syntax.
From S2P Require Import ProcessState.
From S2P Require Import ShellVars.
From S2P Require Import Machine.
From S2P Require Import Kernel.
From S2P Require Import Lifecycle.
From S2P Require Import ExecData.
From S2P Require Import ExecText.
From S2P Require Import ExecVars.
From S2P Require Import Redirects.
From S2P Require Import ExecHost.
From S2P Require Import ExecPrep.
From S2P Require Import Exec.
From S2P Require Import BootInv.
From S2P Require Import ScriptHost.

Create HintDb stack.

Section stack.
Context {R N : Type} {H : Host R N}.
Abbreviation sh A := (stm (Shell R N) A).
Implicit Types (x : Shell R N) (c : ShellContinuation R) (L : list (ShellFrame R)).

Definition frames_of (x : Shell R N) : list (ShellFrame R) := sc_frames (x_shell x).

(** When [m] returns from the frames [L], [Q] has of its result and of the frames it leaves. *)
Definition stack {A} (m : sh A) L (Q : A → list (ShellFrame R) → Prop) : Prop :=
  ∀ x x' a, frames_of x = L → m x = Ret (x', a) → Q a (frames_of x').

(** ** Rules *)

Lemma stack_mono {A} (m : sh A) L (Q Q' : A → list (ShellFrame R) → Prop) :
  stack m L Q → (∀ a L', Q a L' → Q' a L') → stack m L Q'.
Proof. intros Hm HQ x x' a HL Hr. eapply HQ, Hm; done. Qed.

Lemma stack_ret {A} (a : A) L (Q : A → list (ShellFrame R) → Prop) : Q a L → stack (mret a) L Q.
Proof. intros HQ x x' a' HL [= <- <-]. by rewrite HL. Qed.

Lemma stack_bind {A B} (m : sh A) (k : A → sh B) L Q :
  stack m L (λ a L', stack (k a) L' Q) → stack (m ≫= k) L Q.
Proof.
  intros Hm x x' b HL. unfold mbind, stm_bind. destruct (m x) as [[y a]| |] eqn:Ha; [|done..].
  intros Hk. exact (Hm x y a HL Ha y x' b eq_refl Hk).
Qed.

Lemma stack_world {A} (m : stm (World R N) A) L (Q : A → list (ShellFrame R) → Prop) :
  (∀ a, Q a L) → stack (on_world m) L Q.
Proof.
  intros HQ x x' a HL. unfold on_world, mbind, run_bind. destruct (m (x_world x)) as [[w b]| |]; [|done..].
  intros [= <- <-]. specialize (HQ b). rewrite <- HL in HQ. exact HQ.
Qed.

Lemma stack_machine {A} (m : mach A) L (Q : A → list (ShellFrame R) → Prop) : (∀ a, Q a L) → stack (in_machine m) L Q.
Proof. apply stack_world. Qed.

Lemma stack_ask {A} (f : ShellContinuation R → A) L (Q : A → list (ShellFrame R) → Prop) :
  (∀ a, Q a L) → stack (ask f) L Q.
Proof. intros HQ x x' a HL [= <- <-]. rewrite HL. apply HQ. Qed.

Lemma stack_ask_frames L (Q : list (ShellFrame R) → list (ShellFrame R) → Prop) : Q L L → stack (ask sc_frames) L Q.
Proof. intros HQ x x' a HL [= <- <-]. fold (frames_of x). by rewrite HL. Qed.

Lemma stack_edit f L (Q : unit → list (ShellFrame R) → Prop) :
  (∀ c, sc_frames (f c) = sc_frames c) → Q tt L → stack (edit f) L Q.
Proof. intros Hf HQ x x' a HL [= <- <-]. unfold frames_of in *. cbn. by rewrite Hf, HL. Qed.

Lemma stack_put f L (Q : unit → list (ShellFrame R) → Prop) : Q tt (f :: L) → stack (put_frame f) L Q.
Proof. intros HQ x x' a HL [= <- <-]. unfold frames_of in *. cbn. by rewrite HL. Qed.

Lemma stack_set fs L (Q : unit → list (ShellFrame R) → Prop) : Q tt fs → stack (edit (λ c, set_frames c fs)) L Q.
Proof. by intros HQ x x' a HL [= <- <-]. Qed.

Lemma stack_abort L (Q : unit → list (ShellFrame R) → Prop) : Q tt [] → stack shell_abort L Q.
Proof.
  intros HQ. unfold shell_abort. apply stack_bind, stack_ask. intros fs.
  apply stack_bind, stack_set, stack_machine. by intros [].
Qed.

Lemma stack_set_result status L (Q : unit → list (ShellFrame R) → Prop) : Q tt L → stack (set_result status) L Q.
Proof. by apply stack_edit. Qed.

Lemma stack_overflow L (Q : unit → list (ShellFrame R) → Prop) : Q tt [] → stack frame_overflow L Q.
Proof.
  intros HQ. unfold frame_overflow. apply stack_bind, stack_machine. intros _.
  apply stack_bind, stack_set_result. by apply stack_abort.
Qed.

Lemma stack_push f L (Q : bool → list (ShellFrame R) → Prop) : Q true (f :: L) → Q false [] → stack (push_frame f) L Q.
Proof.
  intros Ht Hf. unfold push_frame, frame_count. apply stack_bind, stack_ask. intros n. destruct (_ <=? n).
  - by apply stack_bind, stack_overflow, stack_ret.
  - by apply stack_bind, stack_put, stack_ret.
Qed.

Lemma stack_capacity k L (Q : bool → list (ShellFrame R) → Prop) : Q true L → Q false [] → stack (ensure_capacity k) L Q.
Proof.
  intros Ht Hf. unfold ensure_capacity, frame_count. apply stack_bind, stack_ask. intros n. destruct (_ <? _).
  - by apply stack_bind, stack_overflow, stack_ret.
  - by apply stack_ret.
Qed.

(** ** Operations *)

(** The frames [L'] are some more above [L], or none. *)
Definition above L L' : Prop := (∃ P, L' = P ++ L) ∨ L' = [].

Lemma above_refl L : above L L.
Proof. left. by exists []. Qed.
Lemma above_nil L : above L [].
Proof. by right. Qed.
Lemma above_cons f L L' : above L L' → L' ≠ [] → above L (f :: L').
Proof. intros [[P ->]|]; [|done]. left. by exists (f :: P). Qed.
Lemma above_push f L : above L (f :: L).
Proof. left. by exists [f]. Qed.
Lemma above_push_two f g L : above L (f :: g :: L).
Proof. left. by exists [f; g]. Qed.
Lemma above_more L1 L2 L3 : above L1 L2 → L2 ≠ [] → above L2 L3 → above L1 L3.
Proof. intros [[P ->]|] Hne; [|done]. intros [[P' ->]| ->]; [|by right]. left. exists (P' ++ P). by rewrite app_assoc. Qed.
Lemma above_under f L L' : above (f :: L) L' → above L L'.
Proof. intros [[P ->]| ->]; [|by right]. left. exists (P ++ [f]). by rewrite <-app_assoc. Qed.

(** [m] leaves the frames it found, with more above, or none at all. *)
Definition grounded {A} (m : sh A) : Prop := ∀ L, stack m L (λ _ L', above L L').

Lemma grounded_at {A} (m : sh A) L : grounded m → stack m L (λ _ L', above L L').
Proof. auto. Qed.
Lemma grounded_above {A} (m : sh A) f L : grounded m → stack m (f :: L) (λ _ L', above L L').
Proof. intros Hm. eapply stack_mono; [apply Hm|]. intros ? L'. apply above_under. Qed.
Lemma grounded_above_two {A} (m : sh A) f g L : grounded m → stack m (f :: g :: L) (λ _ L', above L L').
Proof. intros Hm. eapply stack_mono; [apply Hm|]. intros ? L' HL. by do 2 apply above_under in HL. Qed.

Ltac stack_step :=
  match goal with
  | |- stack (mret _) _ _ => apply stack_ret
  | |- stack (mbind _ _) _ _ => apply stack_bind
  | |- stack (in_machine _) _ _ => apply stack_machine; intros ?
  | |- stack (on_world _) _ _ => apply stack_world; intros ?
  | |- stack (ask _) _ _ => apply stack_ask; intros ?
  | |- stack (put_frame _) _ _ => apply stack_put
  | |- stack (push_frame _) _ _ => apply stack_push
  | |- stack (push_ _) _ _ => unfold push_
  | |- stack (fail_expansion _ _) _ _ => unfold fail_expansion
  | |- stack (push_two _ _) _ _ => unfold push_two
  | |- stack (ensure_capacity _) _ _ => apply stack_capacity
  | |- stack (set_result _) _ _ => apply stack_set_result
  | |- stack shell_abort _ _ => apply stack_abort
  | |- stack (edit (λ c, set_frames c _)) _ _ => apply stack_set
  | |- stack (edit _) _ _ => apply stack_edit; [done|]
  | |- stack (if negb true then _ else _) _ _ => cbn [negb]
  | |- stack (if negb false then _ else _) _ _ => cbn [negb]
  | |- stack (if true then _ else _) _ _ => cbn iota
  | |- stack (if false then _ else _) _ _ => cbn iota
  | |- stack (if ?b then _ else _) _ _ => destruct b
  | |- stack (match ?e with _ => _ end) _ _ => destruct e
  | |- above ?L ?L => apply above_refl
  | |- above _ [] => apply above_nil
  | |- above ?L (_ :: ?L) => apply above_push
  | |- above _ (_ :: _ :: _) => apply above_cons; [|done]
  | |- stack _ ?L (λ _ L', above ?L L') => apply grounded_at; solve [auto with stack]
  | |- stack _ (_ :: ?L) (λ _ L', above ?L L') => apply grounded_above; solve [auto with stack]
  | |- stack _ (_ :: _ :: ?L) (λ _ L', above ?L L') => apply grounded_above_two; solve [auto with stack]
  end.
Ltac stack_go := intros L; repeat stack_step.

Lemma accept_poll_grounded command variables result stdout stderr :
  grounded (accept_poll command variables result stdout stderr).
Proof. unfold accept_poll, enter_inline_command, enter_source, mark_switched, wait_on. stack_go. Qed.
#[local] Hint Resolve accept_poll_grounded : stack.

Lemma resume_command_grounded variables continuation : grounded (resume_command variables continuation).
Proof. unfold resume_command, accept_poll, enter_inline_command, enter_source, mark_switched, wait_on. stack_go. Qed.
#[local] Hint Resolve resume_command_grounded : stack.

Lemma read_program_grounded pending : grounded (read_program pending).
Proof. unfold read_program, run_source, read_on, wait_on. stack_go. Qed.
#[local] Hint Resolve read_program_grounded : stack.

Lemma run_buffered_grounded argv variables stdin reserved : grounded (run_buffered argv variables stdin reserved).
Proof.
  unfold run_buffered, first_argument. stack_go.
Qed.
#[local] Hint Resolve run_buffered_grounded : stack.

Lemma read_command_input_grounded argv variables stdin reserved framing :
  grounded (read_command_input argv variables stdin reserved framing).
Proof.
  unfold read_command_input, first_argument, wait_on. stack_go.
Qed.
#[local] Hint Resolve read_command_input_grounded : stack.

Lemma write_command_output_grounded command variables status stdout stderr o e :
  grounded (write_command_output command variables status stdout stderr o e).
Proof. unfold write_command_output, wait_on. stack_go. Qed.
#[local] Hint Resolve write_command_output_grounded : stack.

(** *** Preparing *)

Lemma run_substitution_grounded source undo wait : grounded (run_substitution source undo wait).
Proof. unfold run_substitution, mark_switched. stack_go. Qed.
#[local] Hint Resolve run_substitution_grounded : stack.

Lemma substitute_grounded source undo replace : grounded (substitute source undo replace).
Proof. unfold substitute. stack_go. Qed.
#[local] Hint Resolve substitute_grounded : stack.

Lemma launch_grounded command : grounded (launch command).
Proof. unfold launch. stack_go. Qed.
#[local] Hint Resolve launch_grounded : stack.

Lemma prepare_command_grounded command : grounded (prepare_command command).
Proof.
  unfold prepare_command, prepare_output. stack_go.
Qed.
#[local] Hint Resolve prepare_command_grounded : stack.

Lemma await_command_substitution_grounded command pid capture variable previous : grounded (await_command_substitution command pid capture variable previous).
Proof. unfold await_command_substitution. stack_go. Qed.
#[local] Hint Resolve await_command_substitution_grounded : stack.

Lemma await_process_substitution_grounded command pid capture location : grounded (await_process_substitution command pid capture location).
Proof. unfold await_process_substitution. stack_go. Qed.
#[local] Hint Resolve await_process_substitution_grounded : stack.

Lemma run_output_substitutions_grounded substitutions command_status : grounded (run_output_substitutions substitutions command_status).
Proof. unfold run_output_substitutions, mark_switched. stack_go. Qed.
#[local] Hint Resolve run_output_substitutions_grounded : stack.

Lemma await_output_substitution_grounded substitutions command_status pid : grounded (await_output_substitution substitutions command_status pid).
Proof. unfold await_output_substitution. stack_go. Qed.
#[local] Hint Resolve await_output_substitution_grounded : stack.

Lemma prepare_for_grounded state : grounded (prepare_for state).
Proof. unfold prepare_for. stack_go. Qed.
#[local] Hint Resolve prepare_for_grounded : stack.

Lemma await_for_substitution_grounded state pid capture variable previous : grounded (await_for_substitution state pid capture variable previous).
Proof. unfold await_for_substitution. stack_go. Qed.
#[local] Hint Resolve await_for_substitution_grounded : stack.

Lemma prepare_case_grounded state : grounded (prepare_case state).
Proof. unfold prepare_case. stack_go. Qed.
#[local] Hint Resolve prepare_case_grounded : stack.

Lemma await_case_substitution_grounded state pid capture variable previous : grounded (await_case_substitution state pid capture variable previous).
Proof. unfold await_case_substitution. stack_go. Qed.
#[local] Hint Resolve await_case_substitution_grounded : stack.

Lemma continue_arithmetic_grounded continuation value : grounded (continue_arithmetic continuation value).
Proof. unfold continue_arithmetic. stack_go. Qed.
#[local] Hint Resolve continue_arithmetic_grounded : stack.

Lemma prepare_arithmetic_grounded state : grounded (prepare_arithmetic state).
Proof. unfold prepare_arithmetic. stack_go. Qed.
#[local] Hint Resolve prepare_arithmetic_grounded : stack.

Lemma await_arithmetic_substitution_grounded state pid capture start finish : grounded (await_arithmetic_substitution state pid capture start finish).
Proof. unfold await_arithmetic_substitution. stack_go. Qed.
#[local] Hint Resolve await_arithmetic_substitution_grounded : stack.

(** *** Commands *)

Lemma eval_external_argv_grounded argv variables : grounded (eval_external_argv argv variables).
Proof. unfold eval_external_argv, exec_in_place, first_argument, exec_failed. stack_go; simpl; stack_step. Qed.
#[local] Hint Resolve eval_external_argv_grounded : stack.

Lemma replace_image_grounded argv : grounded (replace_image argv).
Proof. unfold replace_image, exec_failed. stack_go. Qed.
#[local] Hint Resolve replace_image_grounded : stack.

(** [eval_external_argv] after a frame was pushed. *)
Lemma exec_builtin_grounded argv variables : grounded (exec_builtin argv variables).
Proof. unfold exec_builtin, exec_program, exec_refused. stack_go. Qed.
#[local] Hint Resolve exec_builtin_grounded : stack.

Lemma eval_assignments_grounded assigns temporary status : grounded (eval_assignments assigns temporary status).
Proof. unfold eval_assignments. stack_go. Qed.
#[local] Hint Resolve eval_assignments_grounded : stack.

Lemma dispatch_command_grounded argv variables : grounded (dispatch_command argv variables).
Proof. unfold dispatch_command, call_function. stack_go. Qed.
#[local] Hint Resolve dispatch_command_grounded : stack.

Lemma eval_command_grounded assigns words temporary status : grounded (eval_command assigns words temporary status).
Proof. unfold eval_command, run_words. stack_go. Qed.
#[local] Hint Resolve eval_command_grounded : stack.

Lemma spawn_child_grounded node label reap : grounded (spawn_child node label reap).
Proof. unfold spawn_child, mark_switched. stack_go. Qed.
#[local] Hint Resolve spawn_child_grounded : stack.

Lemma spawn_pipeline_grounded stages : grounded (spawn_pipeline stages).
Proof. unfold spawn_pipeline, pipeline_failed, wait_on. stack_go. Qed.
#[local] Hint Resolve spawn_pipeline_grounded : stack.

Lemma await_child_grounded pid reap : grounded (await_child pid reap).
Proof. unfold await_child, wait_on. stack_go. Qed.
#[local] Hint Resolve await_child_grounded : stack.

Lemma await_pipeline_grounded pids statuses next pipefail : grounded (await_pipeline pids statuses next pipefail).
Proof. unfold await_pipeline, wait_on. stack_go. Qed.
#[local] Hint Resolve await_pipeline_grounded : stack.

(** *** Syntax and constructs *)

Lemma eval_node_grounded node : grounded (eval_node node).
Proof. unfold eval_node, clear_exempt, enter_loop. stack_go. Qed.
#[local] Hint Resolve eval_node_grounded : stack.

Lemma eval_grounded node : grounded (eval node).
Proof. unfold eval, push_if. stack_go. Qed.
#[local] Hint Resolve eval_grounded : stack.

Lemma after_body_grounded again : grounded (after_body again).
Proof. unfold after_body. stack_go. Qed.
#[local] Hint Resolve after_body_grounded : stack.

Lemma check_error_grounded : grounded check_error.
Proof. unfold check_error. stack_go. Qed.
#[local] Hint Resolve check_error_grounded : stack.

Lemma step_grounded frame : grounded (step frame).
Proof.
  destruct frame; cbn [step]; try solve [stack_go];
    unfold finish_time, record_pipe_status, step_sequence, sequence_next, errexit_ends, step_conditional, clear_exempt,
      step_negate, step_if_next, step_if_after, step_while_check, step_while_after_condition, step_for_next,
      step_cfor_check, finish_function, finish_source, finish_exit_trap, finish_error_trap; stack_go.
Qed.
#[local] Hint Resolve step_grounded : stack.

(** C6: A step of the shell runs its own frame and nothing below it. Whatever frame it is, and
    whatever the machine and the commands do, the frames that were below it are still there when it
    ends, in place and unchanged, under whatever it pushed; or there is no frame left at all, when the
    step tore the shell down (it ran out of frames, or another program took its place). *)
Theorem step_leaves_the_rest (frame : ShellFrame R) x x' :
  step frame x = Ret (x', tt) → (∃ pushed, frames_of x' = pushed ++ frames_of x) ∨ frames_of x' = [].
Proof. exact (step_grounded frame (frames_of x) x x' tt eq_refl). Qed.

End stack.

Lemma step_leaves_the_rest_witness : ∃ (x x' : Shell unit Empty_set) pushed,
  step (Eval (NNot NEmpty)) x = Ret (x', tt) ∧ frames_of x = [FinishLoop; CheckError] ∧
  frames_of x' = pushed ++ [FinishLoop; CheckError] ∧ length pushed = 2%nat.
Proof.
  set (start := λ s, MkShellRun (R := unit) (N := Empty_set) (continuation_of [FinishLoop; CheckError] false) (MkWorld s ∅)).
  destruct (example_boot (λ s, match step (Eval (NNot NEmpty)) (start s) with
      | Ret (x', _) => Nat.eqb (length (frames_of x')) 4 | _ => false end)) as (s & _ & _ & Hr); [vm_compute; reflexivity|].
  destruct (step (Eval (NNot NEmpty)) (start s)) as [[x' []]| |] eqn:Hs; try discriminate Hr. apply Nat.eqb_eq in Hr.
  destruct (step_leaves_the_rest _ _ _ Hs) as [[pushed Hp]|Hnil]; [|by rewrite Hnil in Hr].
  exists (start s), x', pushed. split; [exact Hs|split; [done|split; [exact Hp|]]].
  rewrite Hp, length_app in Hr. cbn in Hr. lia.
Defined.
