(* ===== verification/ExecSpec.v ===== *)
(** * What a construct of the shell means (src/src/exec.rs)

    The executor takes syntax apart into frames, because a process must be able to stop between any
    two of them. [run_node] says what it is for: the constructs by recursion on the tree, as one would
    write an interpreter that never has to stop. Each [turn] is one quantum of the process, after
    which the others run; a simple command (and a construct with a command substitution in its own
    text) is left to the machine. [run_node_is_implemented] is the refinement: whatever [run_node]
    returns, the machine arrives at by polls, above any frames. *)

From S2P Require Import Prelude.
From S2P Require Import RustStr.
From S2P Require Import Arith.
From S2P Require Import State.
From S2P Require Import Scheduler.
From S2P Require Import Clock.
From S2P Require Import Resources.
From S2P Require Import Syntax.
From S2P Require Import ProcessState.
From S2P Require Import ShellVars.
From S2P Require Import Machine.
From S2P Require Import ExpandText.
From S2P Require Import Expand.
From S2P Require Import Kernel.
From S2P Require Import Lifecycle.
From S2P Require Import ExecData.
From S2P Require Import ExecText.
From S2P Require Import ExecVars.
From S2P Require Import Redirects.
From S2P Require Import ExecHost.
From S2P Require Import ExecPrep.
From S2P Require Import Exec.
From S2P Require Import BootInv.
From S2P Require Import ScriptHost.
From S2P Require Import ExecStack.

(** How deep constructs are nested. *)
Fixpoint node_depth (n : Node) : nat :=
  S match n with
    | NCommand _ _ _ | NArgvCommand _ | NArithmetic _ | NEmpty => 0
    | NPipeline nodes | NSeq nodes => foldr (λ n d, Nat.max (node_depth n) d) 0%nat nodes
    | NAnd l r => Nat.max (node_depth l) (node_depth r)
    | NBackground n | NSubshell n | NGroup n | NNot n | NTimed n _ | NRedirected n _ => node_depth n
    | NIf cond then_ elifs els =>
        Nat.max (Nat.max (node_depth cond) (node_depth then_))
          (Nat.max (foldr (λ e d, Nat.max (Nat.max (node_depth e.1) (node_depth e.2)) d) 0%nat elifs)
             match els with Some els => node_depth els | None => 0%nat end)
    | NOr l r => Nat.max (node_depth l) (node_depth r)
    | NFor _ _ body | NCFor _ _ _ body | NFuncDef _ body => node_depth body
    | NWhile cond body _ => Nat.max (node_depth cond) (node_depth body)
    | NCase _ arms => foldr (λ arm d, Nat.max (node_depth arm.2) d) 0%nat arms
    end.

Section spec.
Context {R N : Type} {H : Host R N}.
Abbreviation act A := (stm (World R N) A).
Abbreviation sh A := (stm (Shell R N) A).

(** What the driver and the other processes do before this shell is polled again. *)
Context (others : act unit).

(** ** The machine *)

Definition quantum : sh unit := _ ← shell_poll SHELL_POLL_QUANTUM; on_world others.
Fixpoint quanta (count : nat) : sh unit :=
  match count with O => mret tt | S count => _ ← quantum; quanta count end.

(** Poll until the frames are down to [height] again; [false] when the shell was torn down. *)
Fixpoint drain_to (fuel : nat) (height : Z) : sh bool :=
  count ← frame_count;
  if count <=? height then mret (count =? height)
  else match fuel with O => out_of_fuel | S fuel => _ ← quantum; drain_to fuel height end.
Definition by_machine (fuel : nat) (node : Node) : sh bool :=
  height ← frame_count; _ ← put_frame (Eval node); drain_to fuel height.

(** ** Turns *)

(** A quantum around some work: [$?] is the status it leaves, and the others run. *)
Definition turn {A} (work : sh A) : sh A :=
  _ ← edit (λ c, set_signals c false false None);
  a ← work;
  status ← ask sc_status;
  _ ← in_machine (change_shell (λ s, set_last_status s status));
  _ ← on_world others;
  mret a.

(** Work that may not find the frames it left: the rest is for when it does. *)
Definition whole (k m : sh bool) : sh bool := done ← m; if done : bool then k else mret false.
Definition once (work : sh unit) : sh bool := _ ← turn work; mret true.

(** [work] with [frames] kept under it. *)
Definition drop_frames (count : nat) : sh unit := edit (λ c, set_frames c (drop count (sc_frames c))).
Definition put_frames (frames : list (ShellFrame R)) : sh unit := edit (λ c, set_frames c (frames ++ sc_frames c)).
Definition under (frame : ShellFrame R) (work : sh bool) : sh bool :=
  _ ← put_frames [frame]; whole (_ ← drop_frames 1; mret true) work.

Notation "m '>>>' k" := (whole k m) (at level 60, right associativity) : stdpp_scope.

(** The budget is charged and the shell must not be leaving; then the construct begins. *)
Definition enter {A} (head : sh A) : sh (option A) :=
  granted ← in_machine admit_work;
  if negb granted then status ← in_machine stopped_status; _ ← set_result status; mret None
  else
    unwind ← in_machine should_unwind;
    if unwind : bool then
      interrupted ← in_machine deadline_interrupted;
      last ← in_machine (shell_get sh_last_status);
      _ ← set_result (if interrupted : bool then 124 else last);
      mret None
    else
      _ ← edit (λ c, set_pipeline_entry c false);
      a ← head;
      mret (Some a).
Definition entered {A} (head : sh A) (k : A → sh bool) : sh bool :=
  a ← turn (enter head); match a with Some a => k a | None => mret true end.

(** ** Decisions *)

Definition conditional_goes (run_on_success : bool) : sh bool :=
  _ ← in_machine lower_cond;
  unwind ← in_machine should_unwind;
  status ← ask sc_status;
  if unwind : bool then mret false
  else if Bool.eqb (status =? 0) run_on_success then _ ← clear_exempt; mret true
  else _ ← edit (λ c, set_exempt c true); mret false.

(** [set -e]: a failure ends the shell before the next command. *)
Definition sequence_goes (later : bool) : sh bool :=
  unwind ← in_machine should_unwind;
  if later && unwind then
    interrupted ← in_machine deadline_interrupted;
    _ ← (if interrupted : bool then set_result 124 else mret tt);
    mret false
  else
    ends ← errexit_ends;
    if later && ends then status ← ask sc_status; _ ← in_machine (set_exiting (Some status)); mret false
    else mret true.

Definition branch_taken : sh (option bool) :=
  _ ← in_machine lower_cond;
  status ← ask sc_status;
  unwind ← in_machine should_unwind;
  mret (if unwind : bool then None else Some (status =? 0)).

Definition while_goes (body_status : Z) : sh bool :=
  unwind ← in_machine should_unwind;
  if unwind : bool then _ ← set_result body_status; mret false else _ ← in_machine raise_cond; mret true.
Definition while_continues (until : bool) (body_status : Z) : sh bool :=
  _ ← in_machine lower_cond;
  status ← ask sc_status;
  unwind ← in_machine should_unwind;
  if xorb until (status =? 0) && negb unwind then mret true else _ ← set_result body_status; mret false.

(** [break] and [continue]: the status of the body when the loop goes round again. *)
Definition loop_again : sh (option Z) :=
  c ← in_machine control;
  if 0 <? ctl_break c then _ ← in_machine (on_control (λ c, ctl_with_break c (ctl_break c - 1))); mret None
  else
    _ ← (if 0 <? ctl_continue c then in_machine (on_control (λ c, ctl_with_continue c (ctl_continue c - 1))) else mret tt);
    unwind ← in_machine should_unwind;
    status ← ask sc_status;
    mret (if unwind : bool then None else Some status).

Definition for_items (words : list string) : sh (option (list string)) :=
  items ← in_machine (expand_words_with host_engine words);
  error ← in_machine take_expansion_error;
  match error with
  | Some error => _ ← fail_expansion error (restore_command_variables []); mret None
  | None => _ ← in_machine (restore_command_variables []); _ ← set_result 0; mret (Some items)
  end.
Definition for_goes (var : string) (item : option string) (body_status : Z) : sh bool :=
  unwind ← in_machine should_unwind;
  match item with
  | Some item =>
      if unwind : bool then _ ← set_result body_status; mret false
      else _ ← in_machine (on_context (λ p, (set_var p var item, tt))); mret true
  | None => _ ← set_result body_status; mret false
  end.

(** A value that cannot be computed is reported, and the loop ends there. *)
Definition arithmetic {A} (condition : bool) (expression : string) (failed : A) (k : Z → sh A) : sh A :=
  value ← (if condition && bool_decide (expression = "") then mret (Ok 1) else in_machine (mach_arith expression));
  match value with
  | Err error =>
      _ ← in_machine (diagnose ("shellsim: ((: " +:+ describe error expression +:+ newline));
      _ ← set_result 1;
      mret failed
  | Ok value => k value
  end.
Definition cfor_starts (init : string) : sh bool := arithmetic false init false (λ _, _ ← set_result 0; mret true).
Definition cfor_goes (body_status : Z) : sh bool :=
  unwind ← in_machine should_unwind; if unwind : bool then _ ← set_result body_status; mret false else mret true.
Definition cfor_continues (cond : string) (body_status : Z) : sh bool :=
  arithmetic true cond false (λ value,
    unwind ← in_machine should_unwind;
    if unwind || (value =? 0) then _ ← set_result body_status; mret false else mret true).
Definition cfor_updates (update : string) : sh bool := arithmetic false update false (λ _, mret true).

Definition case_choice (word : string) (arms : list (list string * Node)) : sh (option Node) :=
  subject ← in_machine (expand_text host_engine word);
  expanded ← in_machine (expand_arms arms);
  error ← in_machine take_expansion_error;
  match error with
  | Some error => _ ← fail_expansion error (restore_command_variables []); mret None
  | None => _ ← in_machine (restore_command_variables []); _ ← set_result 0; mret (select_arm subject expanded)
  end.

Definition redirected (command : PreparedCommand) : sh (option (option RedirectScope)) :=
  scope ← in_machine (open_scope command);
  match scope with
  | Err message =>
      _ ← in_machine (diagnose ("shellsim: redirection: " +:+ message +:+ newline));
      _ ← in_machine (give_command_up command);
      _ ← set_result 1;
      mret None
  | Ok scope => _ ← in_machine (restore_command_variables (pc_temporary command)); mret (Some scope)
  end.

(** ** Constructs *)

Definition redirected_command (inner : Node) (redirects : list Redirect) : PreparedCommand :=
  MkPreparedCommand (Some inner) [] [] redirects [] None [] [].

Definition finds_nothing {A} (r : run (option A)) : bool := match r with Ret None => true | _ => false end.

(** The constructs that are taken apart; their own text has no substitution. *)
Definition is_construct (n : Node) : bool :=
  match n with
  | NCommand _ _ _ | NArgvCommand _ | NPipeline _ | NSubshell _ | NArithmetic _ => false
  | NCFor init cond update _ =>
      finds_nothing (find_command_substitution init) && finds_nothing (find_command_substitution cond) &&
      finds_nothing (find_command_substitution update)
  | NFor _ words _ => finds_nothing (find_each find_command_substitution words)
  | NCase word arms => finds_nothing (case_substitution (MkPreparedCase word arms []))
  | NRedirected inner redirects =>
      let command := redirected_command inner redirects in
      finds_nothing (next_process_substitution command) && finds_nothing (next_command_substitution command)
  | _ => true
  end.

Section constructs.
Context (run : Node → sh bool).

Fixpoint run_sequence (nodes : list Node) (next : nat) (rest : list Node) : sh bool :=
  go ← turn (sequence_goes (negb (Nat.eqb next 0)));
  if negb go then mret true
  else match rest with
       | [] => mret true
       | n :: rest => under (Sequence nodes (S next)) (run n) >>> run_sequence nodes (S next) rest
       end.

Fixpoint run_branches (branches : list (Node * Node)) (els : option Node) (next : nat) (rest : list (Node * Node)) : sh bool :=
  match rest with
  | (cond, body) :: rest =>
      _ ← turn (in_machine raise_cond);
      under (IfAfter branches next els) (run cond) >>>
      (taken ← turn branch_taken;
       match taken with
       | Some true => run body
       | Some false => run_branches branches els (S next) rest
       | None => mret true
       end)
  | [] => match els with Some body => _ ← turn (mret tt); run body | None => once (set_result 0) end
  end.

Fixpoint run_while (fuel : nat) (cond body : Node) (until : bool) (body_status : Z) : sh bool :=
  match fuel with
  | O => out_of_fuel
  | S fuel =>
      go ← turn (while_goes body_status);
      if negb go then mret true
      else
        under (WhileAfterCondition cond body until body_status) (run cond) >>>
        (go ← turn (while_continues until body_status);
         if negb go then mret true
         else
           under (WhileAfterBody cond body until) (run body) >>>
           (again ← turn loop_again;
            match again with Some status => run_while fuel cond body until status | None => mret true end))
  end.

Fixpoint run_for (var : string) (items : list string) (body : Node) (next : nat) (rest : list string) (body_status : Z)
    : sh bool :=
  go ← turn (for_goes var (head rest) body_status);
  if negb go then mret true
  else match rest with
       | [] => mret true
       | _ :: rest =>
           under (ForAfterBody var items body (S next)) (run body) >>>
           (again ← turn loop_again;
            match again with Some status => run_for var items body (S next) rest status | None => mret true end)
       end.

Fixpoint run_cfor (fuel : nat) (cond update : string) (body : Node) (body_status : Z) : sh bool :=
  match fuel with
  | O => out_of_fuel
  | S fuel =>
      go ← turn (cfor_goes body_status);
      if negb go then mret true
      else
        go ← turn (cfor_continues cond body_status);
        if negb go then mret true
        else
          under (CForAfterBody cond update body) (run body) >>>
          (again ← turn loop_again;
           match again with
           | Some status =>
               go ← turn (cfor_updates update);
               if negb go then mret true else run_cfor fuel cond update body status
           | None => mret true
           end)
  end.

Definition in_loop (work : sh bool) : sh bool := under FinishLoop work >>> once (in_machine lower_loop).

Definition run_construct (fuel : nat) (n : Node) : sh bool :=
  match n with
  | NEmpty => entered (set_result 0) (λ _, mret true)
  | NAnd lhs rhs =>
      entered (in_machine raise_cond) (λ _,
        under (Conditional rhs true) (run lhs) >>>
        (go ← turn (conditional_goes true); if go : bool then run rhs else mret true))
  | NOr lhs rhs =>
      entered (in_machine raise_cond) (λ _,
        under (Conditional rhs false) (run lhs) >>>
        (go ← turn (conditional_goes false); if go : bool then run rhs else mret true))
  | NNot inner => entered (in_machine raise_cond) (λ _, under Negate (run inner) >>> once step_negate)
  | NTimed inner posix =>
      entered (in_machine (gets (λ m, MkTimeStart (tm_monotonic_ns (m_clock m)) (process_time_ns (m_resources m)) posix)))
        (λ start, under (FinishTime start) (run inner) >>> once (finish_time start))
  | NSeq nodes => entered (set_result 0) (λ _, run_sequence nodes 0 nodes)
  | NBackground inner => entered (status ← on_world (exec_background inner); set_result status) (λ _, mret true)
  | NGroup inner => entered (mret tt) (λ _, run inner)
  | NIf cond then_ elifs els =>
      let branches := (cond, then_) :: elifs in entered (mret tt) (λ _, run_branches branches els 0 branches)
  | NWhile cond body until =>
      entered (_ ← set_result 0; in_machine raise_loop) (λ _, in_loop (run_while fuel cond body until 0))
  | NFor var words body =>
      entered (in_machine raise_loop) (λ _,
        in_loop (items ← turn (for_items words);
                 match items with Some items => run_for var items body 0 items 0 | None => mret true end))
  | NCFor init cond update body =>
      entered (in_machine raise_loop) (λ _,
        in_loop (go ← turn (cfor_starts init); if negb go then mret true else run_cfor fuel cond update body 0))
  | NCase word arms =>
      entered (mret tt) (λ _,
        chosen ← turn (case_choice word arms); match chosen with Some body => run body | None => mret true end)
  | NFuncDef name body =>
      entered (_ ← in_machine (change_shell (λ s, set_funcs s (<[name := body]> (sh_funcs s)))); set_result 0)
        (λ _, mret true)
  | NRedirected inner redirects =>
      entered (mret tt) (λ _,
        scope ← turn (redirected (redirected_command inner redirects));
        match scope with
        | Some (Some scope) => under (RestoreRedirect scope) (run inner) >>> once (in_machine (end_redirects scope))
        | Some None => run inner
        | None => mret true
        end)
  | _ => by_machine fuel n
  end.

End constructs.

(** [fuel] bounds the nesting, the rounds of every loop and the quanta of every simple command. *)
Fixpoint run_node (fuel : nat) (n : Node) : sh bool :=
  match fuel with
  | O => out_of_fuel
  | S fuel => if is_construct n then run_construct (run_node fuel) fuel n else by_machine fuel n
  end.

(** ** The machine above some frames *)

Implicit Types (x y z : Shell R N) (K L : list (ShellFrame R)).

Definition with_frames L x : Shell R N := set_shell x (set_frames (x_shell x) L).

Lemma with_frames_of x : with_frames (frames_of x) x = x.
Proof. by destruct x as [[] w]. Qed.
Lemma with_frames_twice L K x : with_frames L (with_frames K x) = with_frames L x.
Proof. done. Qed.
Lemma frames_of_with L x : frames_of (with_frames L x) = L.
Proof. done. Qed.

(** The top frame takes a quantum of its own. *)
Definition settled L : Prop := match L with frame :: _ => is_bookkeeping frame = false | [] => True end.

Definition reaches x y : Prop := ∃ count, quanta count x = Ret (y, tt).

Lemma reaches_refl x : reaches x x.
Proof. by exists 0%nat. Qed.

Lemma reaches_quantum x y z : quantum x = Ret (y, tt) → reaches y z → reaches x z.
Proof. intros Hq [count Hc]. exists (S count). cbn [quanta]. unfold mbind, stm_bind. by rewrite Hq. Qed.

Lemma reaches_trans x y z : reaches x y → reaches y z → reaches x z.
Proof.
  intros [count Hc]. revert x Hc. induction count as [|count IH]; intros x; cbn [quanta]; [by intros [= ->]|].
  unfold mbind, stm_bind. destruct (quantum x) as [[x1 []]| |] eqn:Hq; [|done..].
  intros Hc Hz. eapply reaches_quantum; [done|]. by apply IH.
Qed.

(** [work] is what the machine does with the frames [L] above [K]. *)
Definition realizes L (work : sh bool) K : Prop := ∀ x y whole,
  frames_of x = K → work x = Ret (y, whole) → reaches (with_frames (L ++ K) x) y ∧ (whole = true → frames_of y = K).

Lemma realizes_done K : realizes [] (mret true) K.
Proof. intros x y w Hx [= <- <-]. split; [|done]. cbn [app]. rewrite <-Hx, with_frames_of. apply reaches_refl. Qed.

Lemma under_eq f (m : sh bool) x : under f m x =
  match m (with_frames (f :: frames_of x) x) with
  | Ret (y, true) => Ret (with_frames (drop 1 (frames_of y)) y, true)
  | Ret (y, false) => Ret (y, false)
  | Panic => Panic
  | NoFuel => NoFuel
  end.
Proof.
  unfold under, whole, put_frames, mbind, stm_bind. unfold with_frames, frames_of, set_shell.
  cbn [edit modify x_shell app]. by destruct (m _) as [[y []]| |].
Qed.

Lemma whole_eq (k m : sh bool) x : whole k m x =
  match m x with Ret (y, true) => k y | Ret (y, false) => Ret (y, false) | Panic => Panic | NoFuel => NoFuel end.
Proof. unfold whole, mbind, stm_bind. by destruct (m x) as [[y []]| |]. Qed.

Lemma realizes_under f L (m1 m2 : sh bool) K :
  realizes L m1 (f :: K) → realizes [f] m2 K → realizes (L ++ [f]) (under f m1 >>> m2) K.
Proof.
  intros H1 H2 x y w Hx. rewrite whole_eq, under_eq, Hx.
  destruct (m1 _) as [[x1 [|]]| |] eqn:Hm; [| |done..];
    destruct (H1 _ _ _ (frames_of_with _ _) Hm) as [Hr Hk]; rewrite with_frames_twice in Hr; rewrite <-app_assoc; cbn [app].
  - rewrite (Hk eq_refl). cbn [drop]. rewrite drop_0. intros Hm2.
    destruct (H2 _ _ _ (frames_of_with _ _) Hm2) as [Hr2 Hk2]. split; [|done]. eapply reaches_trans; [exact Hr|].
    rewrite with_frames_twice in Hr2. cbn [app] in Hr2. by rewrite <-(Hk eq_refl), with_frames_of in Hr2.
  - by intros [= <- <-].
Qed.

(** ** A quantum is a turn

    Work keeps the frames, and does not make the process wait. *)
Definition keeps {A} (work : sh A) : Prop := ∀ x x' a, work x = Ret (x', a) →
  frames_of x' = frames_of x ∧ sc_blocked_on (x_shell x') = sc_blocked_on (x_shell x).

Lemma keeps_ret {A} (a : A) : keeps (mret a).
Proof. by intros x x' a' [= <- _]. Qed.
Lemma keeps_bind {A B} (m : sh A) (k : A → sh B) : keeps m → (∀ a, keeps (k a)) → keeps (m ≫= k).
Proof.
  intros Hm Hk x x' b. unfold mbind, stm_bind. destruct (m x) as [[y a]| |] eqn:Ha; [|done..].
  intros Hb. destruct (Hm _ _ _ Ha), (Hk _ _ _ _ Hb). by split; etrans.
Qed.
Lemma keeps_world {A} (m : act A) : keeps (on_world m).
Proof. intros x x' a. unfold on_world, mbind, run_bind. destruct (m _) as [[w b]| |]; [|done..]. by intros [= <- _]. Qed.
Lemma keeps_machine {A} (m : mach A) : keeps (in_machine m).
Proof. apply keeps_world. Qed.
Lemma keeps_ask {A} (f : ShellContinuation R → A) : keeps (ask f).
Proof. by intros x x' a [= <- _]. Qed.
Lemma keeps_edit f : (∀ c, sc_frames (f c) = sc_frames c ∧ sc_blocked_on (f c) = sc_blocked_on c) → keeps (edit f).
Proof. intros Hf x x' a [= <- _]. apply Hf. Qed.

Ltac keep :=
  repeat lazymatch goal with
  | |- ∀ _, _ => intro
  | |- keeps (mbind _ _) => apply keeps_bind
  | |- keeps (mret _) => apply keeps_ret
  | |- keeps (in_machine _) => apply keeps_machine
  | |- keeps (on_world _) => apply keeps_world
  | |- keeps (ask _) => apply keeps_ask
  | |- keeps (set_result _) => apply keeps_edit
  | |- keeps clear_exempt => apply keeps_edit
  | |- keeps (edit _) => apply keeps_edit
  | |- keeps (match ?e with _ => _ end) => destruct e
  | |- _ ∧ _ => by split
  | |- keeps _ => solve [eauto 2]
  end.

(** An active process that was written to is there. *)
Lemma change_shell_current f s s' : change_shell f s = Ret (s', tt) → ∃ p, current s' = Ret (s', p).
Proof.
  unfold change_shell, on_context, update_current, mbind, stm_bind, current.
  destruct (m_states s !! m_active s) as [p|] eqn:Hp; [|done]. cbn. rewrite Hp. cbn. intros [= <-]. cbn. rewrite lookup_insert_eq. by eexists.
Qed.

Lemma bind_Ret {A B} (m : sh A) (k : A → sh B) x y a : m x = Ret (y, a) → (m ≫= k) x = k a y.
Proof. intros Hm. unfold mbind, stm_bind. by rewrite Hm. Qed.
Lemma ask_Ret {A} (f : ShellContinuation R → A) x : ask f x = Ret (x, f (x_shell x)).
Proof. done. Qed.
Lemma edit_Ret f x : edit f x = Ret (set_shell x (f (x_shell x)), tt).
Proof. done. Qed.
Lemma in_machine_Ret {A} (m : mach A) x s a : m (w_machine (x_world x)) = Ret (s, a) →
  in_machine m x = Ret (set_world x (set_machine (x_world x) s), a).
Proof. intros Hm. unfold in_machine, on_world, on_machine, mbind, run_bind. by rewrite Hm. Qed.

Lemma settled_bookkeeping x : settled (frames_of x) → run_bookkeeping x = Ret (x, tt).
Proof.
  intros Hs. unfold run_bookkeeping. rewrite (bind_Ret _ _ x x (frames_of x)) by done.
  destruct (frames_of x) as [|f fs] eqn:Hx; cbn [length bookkeep]; rewrite (bind_Ret _ _ x x (frames_of x)) by done;
    rewrite Hx; [done|]. cbn in Hs. by rewrite Hs.
Qed.

(** What a turn does when it returns: the work, [$?], the others. *)
Lemma turn_inv {A} (work : sh A) x y a : turn work x = Ret (y, a) → ∃ z s w,
  work (set_shell x (set_signals (x_shell x) false false None)) = Ret (z, a) ∧
  change_shell (λ s, set_last_status s (sc_status (x_shell z))) (w_machine (x_world z)) = Ret (s, tt) ∧
  others (set_machine (x_world z) s) = Ret (w, tt) ∧ y = set_world z w.
Proof.
  unfold turn. rewrite (bind_Ret _ _ _ _ _ (edit_Ret _ _)). unfold mbind at 1, stm_bind at 1.
  destruct (work _) as [[z b]| |] eqn:Hw; [|done..]. rewrite (bind_Ret _ _ _ _ _ (ask_Ret _ _)).
  destruct (change_shell (λ s, set_last_status s (sc_status (x_shell z))) (w_machine (x_world z))) as [[s []]| |] eqn:Hc.
  2,3: unfold mbind at 1, stm_bind at 1, in_machine, on_world, on_machine, mbind, run_bind; by rewrite Hc.
  rewrite (bind_Ret _ _ _ _ _ (in_machine_Ret _ _ _ _ Hc)).
  unfold mbind at 1, stm_bind at 1, on_world, mbind, run_bind. cbn [x_world set_world].
  destruct (others _) as [[w []]| |] eqn:Ho; [|done..]. intros [= <- <-]. by exists z, s, w.
Qed.

(** The poll after a step that left [z], when nothing waits: it ends with the machine at [s]. *)
Lemma poll_outcome_quiet z s : sc_blocked_on (x_shell z) = None →
  change_shell (λ s, set_last_status s (sc_status (x_shell z))) (w_machine (x_world z)) = Ret (s, tt) →
  ∃ outcome, poll_outcome z = Ret (set_world z (set_machine (x_world z) s), outcome).
Proof.
  intros Hb Hc. unfold poll_outcome. rewrite (bind_Ret _ _ _ _ _ (ask_Ret _ _)).
  rewrite (bind_Ret _ _ _ _ _ (in_machine_Ret _ _ _ _ Hc)). do 3 (case_match; [by eexists|]).
  cbn in Hb |- *. rewrite Hb. by eexists.
Qed.

(** Polling for one round. *)
Lemma shell_poll_round x y o p : poll_round (set_shell x (set_signals (x_shell x) false false None)) = Ret (y, o) →
  current (w_machine (x_world y)) = Ret (w_machine (x_world y), p) →
  ∃ poll, shell_poll SHELL_POLL_QUANTUM x = Ret (y, poll).
Proof.
  intros Hround Hp. unfold shell_poll. rewrite (bind_Ret _ _ _ _ _ (edit_Ret _ _)).
  cbn [Nat.max SHELL_POLL_QUANTUM poll_rounds]. rewrite (bind_Ret _ _ _ y o).
  2: { rewrite (bind_Ret _ _ _ _ _ Hround). by destruct o. }
  destruct o as [o|]; [by eexists|]. rewrite (bind_Ret _ _ _ _ _ (ask_Ret _ _)).
  rewrite (bind_Ret _ _ _ _ _ (in_machine_Ret _ _ _ _ Hp)). eexists. cbn. by destruct y as [c [m programs]].
Qed.

(** When the step of the frame is the work and then some pushes, a quantum of the machine is a turn. *)
Lemma quantum_turn {A} f K (work : sh A) (pushes : A → sh unit) (P : A → list (ShellFrame R)) x y a :
  keeps work → (∀ z, frames_of z = K → step f z = (work ≫= pushes) z) →
  (∀ a z, frames_of z = K → pushes a z = Ret (with_frames (P a ++ K) z, tt)) → settled (P a ++ K) →
  turn work (with_frames K x) = Ret (y, a) →
  quantum (with_frames (f :: K) x) = Ret (with_frames (P a ++ K) y, tt) ∧ frames_of y = K.
Proof.
  intros Hkeep Hstep Hpush Hsettled (z & s & w & Hw & Hc & Ho & ->)%turn_inv.
  destruct (Hkeep _ _ _ Hw) as [Hf Hb]. split; [|done]. set (z' := with_frames (P a ++ K) z).
  assert (Hround : poll_round (set_shell (with_frames (f :: K) x)
      (set_signals (x_shell (with_frames (f :: K) x)) false false None)) = poll_outcome z').
  { unfold poll_round. rewrite (bind_Ret _ _ _ (set_shell (with_frames K x) (set_signals (x_shell (with_frames K x)) false false None)) (Some f)) by done.
    rewrite (bind_Ret _ _ _ z' tt).
    2: { rewrite Hstep by done. rewrite (bind_Ret _ _ _ _ _ Hw). by apply Hpush. }
    by rewrite (bind_Ret _ _ _ _ _ (settled_bookkeeping z' Hsettled)). }
  destruct (poll_outcome_quiet z' s Hb Hc) as [o Hout]. rewrite Hout in Hround.
  destruct (change_shell_current _ _ _ Hc) as [p Hp]. destruct (shell_poll_round _ _ _ p Hround Hp) as [poll Hpoll].
  unfold quantum. rewrite (bind_Ret _ _ _ _ _ Hpoll). unfold on_world, mbind, run_bind. cbn. by rewrite Ho.
Qed.

Section steps.
Context (K : list (ShellFrame R)) (HK : settled K) (Hroom : zlen K + 2 ≤ MAX_SHELL_FRAMES).

(** What the work decides has [Φ]. *)
Lemma realizes_turn_if {A} f (work : sh A) (Φ : A → Prop) (pushes : A → sh unit) (P : A → list (ShellFrame R)) (k : A → sh bool) :
  keeps work → (∀ z z' a, work z = Ret (z', a) → Φ a) → (∀ z, frames_of z = K → step f z = (work ≫= pushes) z) →
  (∀ a z, frames_of z = K → pushes a z = Ret (with_frames (P a ++ K) z, tt)) → (∀ a, settled (P a ++ K)) →
  (∀ a, Φ a → realizes (P a) (k a) K) → realizes [f] (turn work ≫= k) K.
Proof.
  intros Hkeep HΦ Hstep Hpush Hs Hk x y w Hx. unfold mbind at 1, stm_bind.
  destruct (turn work x) as [[x1 a]| |] eqn:Ht; [|done..]. destruct (turn_inv _ _ _ _ Ht) as (z' & _ & _ & Hz & _).
  rewrite <-(with_frames_of x), Hx in Ht. destruct (quantum_turn f K work pushes P x x1 a) as [Hq Hf]; [done..|].
  intros Hy. destruct (Hk a (HΦ _ _ _ Hz) _ _ _ Hf Hy) as [Hr Hw]. split; [|done]. eapply reaches_quantum; [exact Hq|exact Hr].
Qed.

Lemma realizes_turn {A} f (work : sh A) (pushes : A → sh unit) (P : A → list (ShellFrame R)) (k : A → sh bool) :
  keeps work → (∀ z, frames_of z = K → step f z = (work ≫= pushes) z) →
  (∀ a z, frames_of z = K → pushes a z = Ret (with_frames (P a ++ K) z, tt)) → (∀ a, settled (P a ++ K)) →
  (∀ a, realizes (P a) (k a) K) → realizes [f] (turn work ≫= k) K.
Proof. intros. by apply realizes_turn_if with (Φ := λ _, True) (pushes := pushes) (P := P). Qed.

(** Work after which nothing is pushed. *)
Lemma realizes_once f (work : sh unit) :
  keeps work → (∀ z, frames_of z = K → step f z = work z) → realizes [f] (once work) K.
Proof.
  intros Hkeep Hstep. apply realizes_turn with (pushes := λ _, mret tt) (P := λ _, []); [done| | |done|intros; apply realizes_done].
  - intros z Hz. rewrite Hstep by done. unfold mbind, stm_bind. by destruct (work z) as [[z' []]| |].
  - intros _ z <-. cbn [app]. by rewrite with_frames_of.
Qed.

Lemma push_room f z : frames_of z = K → push_ f z = Ret (with_frames (f :: K) z, tt).
Proof.
  intros <-. unfold push_, push_frame, frame_count, mbind, stm_bind, ask, gets.
  replace (MAX_SHELL_FRAMES <=? zlen (sc_frames (x_shell z))) with false; [done|]. symmetry. apply Z.leb_gt.
  unfold frames_of in Hroom. lia.
Qed.

Lemma push_two_room f g z : frames_of z = K → push_two f g z = Ret (with_frames (g :: f :: K) z, tt).
Proof.
  intros <-. unfold push_two, push_, push_frame, frame_count, mbind, stm_bind, ask, gets.
  replace (MAX_SHELL_FRAMES <=? zlen (sc_frames (x_shell z))) with false.
  - cbn -[MAX_SHELL_FRAMES Z.of_nat]. replace (MAX_SHELL_FRAMES <=? _) with false; [done|]. symmetry. apply Z.leb_gt.
    unfold frames_of in Hroom. lia.
  - symmetry. apply Z.leb_gt. unfold frames_of in Hroom. lia.
Qed.

Lemma capacity_room k z : frames_of z = K → 0 ≤ k ≤ 2 → ensure_capacity k z = Ret (z, true).
Proof.
  intros <- Hk. unfold ensure_capacity, frame_count, mbind, stm_bind, ask, gets. unfold frames_of in Hroom.
  replace (MAX_SHELL_FRAMES <? _) with false; [done|]. symmetry. unfold MAX_SHELL_FRAMES in *. mach.
Qed.

(** The step of a frame against the work of its turn, call by call. *)
Lemma same_bind {A B C} (m : sh A) (k : A → sh C) (k' : A → sh B) (h : B → sh C) z :
  keeps m → frames_of z = K → (∀ a z', frames_of z' = K → k a z' = (k' a ≫= h) z') → (m ≫= k) z = ((m ≫= k') ≫= h) z.
Proof.
  intros Hm Hz Hk. unfold mbind, stm_bind in *. destruct (m z) as [[z' a]| |] eqn:Heq; [|done..].
  apply Hk. destruct (Hm _ _ _ Heq) as [-> _]. done.
Qed.

Lemma same_last {B} (m : sh unit) (v : B) (h : B → sh unit) z :
  (∀ z', h v z' = Ret (z', tt)) → m z = ((m ≫= λ _, mret v) ≫= h) z.
Proof. intros Hh. unfold mbind, stm_bind. destruct (m z) as [[z' []]| |]; [|done..]. cbn. by rewrite Hh. Qed.

Definition when_some {A B} (none : B) (some : A → B) (o : option A) : B := match o with Some a => some a | None => none end.

Lemma realizes_entered {A} n (head : sh A) (pushes : A → sh unit) (P : A → list (ShellFrame R)) (k : A → sh bool) :
  checks_error n = false → records_status n = false → keeps head →
  (∀ z, frames_of z = K → eval_node n z = (head ≫= pushes) z) →
  (∀ a z, frames_of z = K → pushes a z = Ret (with_frames (P a ++ K) z, tt)) → (∀ a, settled (P a ++ K)) →
  (∀ a, realizes (P a) (k a) K) → realizes [Eval n] (entered head k) K.
Proof.
  intros Hc Hrec Hkeep Hnode Hpush Hs Hk. unfold entered.
  apply realizes_turn with (pushes := when_some (mret tt) pushes) (P := when_some [] P).
  - unfold enter. keep.
  - intros z Hz. cbn [step]. unfold eval, enter. apply same_bind; [keep|done|]. intros [] z1 Hz1; cbn [negb].
    2: { apply same_bind; [keep|done|]. done. }
    apply same_bind; [keep|done|]. intros [] z2 Hz2.
    + apply same_bind; [keep|done|]. intros interrupted z3 Hz3. apply same_bind; [keep|done|]. done.
    + rewrite (bind_Ret _ _ _ _ _ (ask_Ret _ _)), Hc, Hrec, andb_false_r. cbn [push_if].
      apply same_bind; [keep|done|]. intros [] z3 Hz3. rewrite (bind_Ret _ _ z3 z3 true) by done. cbn [negb].
      rewrite (bind_Ret _ _ z3 z3 true) by done. cbn [negb]. rewrite Hnode by done.
      apply same_bind; [done|done|]. done.
  - intros [a|] z Hz; [by apply Hpush|]. cbn [when_some app]. by rewrite <-Hz, with_frames_of.
  - intros [a|]; [apply Hs|exact HK].
  - intros [a|]; [apply Hk|apply realizes_done].
Qed.
End steps.

(** A search that finds nothing leaves the shell as it was. *)
Lemma found_nothing {A B} (r : run (option A)) (k : option A → sh B) z :
  finds_nothing r = true → (in_machine (lift_run (λ _, r)) ≫= k) z = k None z.
Proof. destruct r as [[]| |]; [done| |done..]. intros _. by destruct z as [c [m programs]]. Qed.

(** ** The constructs *)

Lemma node_depth_pos n : (1 ≤ node_depth n)%nat.
Proof. destruct n; cbn; lia. Qed.

(** [run] says what the machine does with nodes nested at most [d] deep, two frames for each level. *)
Definition implemented (run : Node → sh bool) (d : nat) : Prop := ∀ n K,
  (node_depth n ≤ d)%nat → settled K → zlen K + 2 * Z.of_nat d ≤ MAX_SHELL_FRAMES → realizes [Eval n] (run n) K.

Ltac same := repeat first
  [ reflexivity
  | progress intros
  | lazymatch goal with |- context [match ?e with _ => _ end] => destruct e end
  | apply same_last; reflexivity
  | eapply same_bind; [solve [keep]|eassumption|] ].

Section constructs.
Context (run : Node → sh bool) (d : nat) (Hrun : implemented run d).

(** The frames a construct begins above: two more fit, and those of the nodes inside. *)
Definition roomy K : Prop := settled K ∧ zlen K + 2 ≤ MAX_SHELL_FRAMES ∧ zlen K + 1 + 2 * Z.of_nat d ≤ MAX_SHELL_FRAMES.

Lemma run_here n K : (node_depth n ≤ d)%nat → roomy K → realizes [Eval n] (run n) K.
Proof. intros Hn (H1 & H2 & H3). apply Hrun; [done|done|lia]. Qed.

Lemma run_under f n K : (node_depth n ≤ d)%nat → is_bookkeeping f = false → roomy K → realizes [Eval n] (run n) (f :: K).
Proof. intros Hn Hf (H1 & H2 & H3). apply Hrun; [done|exact Hf|]. cbn [length]. lia. Qed.

Lemma keeps_errexit : keeps errexit_ends.
Proof. unfold errexit_ends. keep. Qed.
#[local] Hint Resolve keeps_errexit : core.

Lemma room_pushes f K z : roomy K → frames_of z = K → push_ f z = Ret (with_frames ([f] ++ K) z, tt).
Proof. intros (? & ? & _) Hz. by apply push_room. Qed.

Lemma room_pushes_two f g K z : roomy K → frames_of z = K →
  push_two f g z = Ret (with_frames ([g; f] ++ K) z, tt).
Proof. intros (? & ? & _) Hz. by apply push_two_room. Qed.

Lemma pushes_nothing K z : frames_of z = K → (mret tt : sh unit) z = Ret (with_frames ([] ++ K) z, tt).
Proof. intros <-. cbn [app]. by rewrite with_frames_of. Qed.

Lemma drop_next {A} (l : list A) next a rest : drop next l = a :: rest → l !! next = Some a ∧ drop (S next) l = rest.
Proof.
  intros Hd. split; [by rewrite <-(Nat.add_0_r next), <-lookup_drop, Hd|].
  by rewrite <-(Nat.add_1_r next), <-drop_drop, Hd.
Qed.
Lemma drop_last {A} (l : list A) next : drop next l = [] → l !! next = None.
Proof. intros Hd. apply lookup_ge_None_2. pose proof (length_drop l next) as Hl. rewrite Hd in Hl. simpl in Hl. lia. Qed.

Definition when (go : bool) (pushes : sh unit) : sh unit := if go then pushes else mret tt.
Definition frames_if (go : bool) (frames : list (ShellFrame R)) : list (ShellFrame R) := if go then frames else [].

(** A turn by the frame [f]: what it pushes for the decision it takes, and with which frames. *)
Ltac begin_turn HK pushed Pushed :=
  apply realizes_turn with (pushes := pushed) (P := Pushed);
  [keep
  |intros ? ?; cbn [step];
   unfold step_sequence, step_conditional, step_if_next, step_if_after, step_while_check, step_while_after_condition,
     after_body, step_for_next, prepare_for, prepare_case, prepare_command;
   try match goal with Hn : _ !! _ = _ |- _ => rewrite Hn end; same
  |intros [] ? ?; first [by apply room_pushes|by apply room_pushes_two|by apply pushes_nothing|idtac]
  |intros []; first [reflexivity|apply HK|idtac]
  |intros []; cbn [negb]; try apply realizes_done].

Lemma realizes_sequence nodes next rest K : roomy K → drop next nodes = rest → Forall (λ n, node_depth n ≤ d)%nat rest →
  realizes [Sequence nodes next] (run_sequence run nodes next rest) K.
Proof.
  intros HK. revert next. induction rest as [|n rest IH]; intros next Hdrop Hd; cbn [run_sequence];
    unfold sequence_goes.
  - apply drop_last in Hdrop.
    begin_turn HK (λ go, when go (sequence_next nodes next)) (λ _ : bool, @nil (ShellFrame R)).
    unfold sequence_next. rewrite Hdrop. by apply pushes_nothing.
  - apply drop_next in Hdrop as [Hn Hdrop]. apply Forall_cons in Hd as [Hdn Hd].
    begin_turn HK (λ go, when go (sequence_next nodes next))
      (λ go, frames_if go [Eval n; Sequence nodes (S next)]).
    + unfold sequence_next. rewrite Hn. by apply room_pushes_two.
    + apply (realizes_under _ [Eval n]); [by apply run_under|]. by apply IH.
Qed.

Lemma realizes_conditional rhs success K : (node_depth rhs ≤ d)%nat → roomy K →
  realizes [Conditional rhs success] (go ← turn (conditional_goes success); if go : bool then run rhs else mret true) K.
Proof.
  intros Hd HK. unfold conditional_goes.
  begin_turn HK (λ go, when go (push_ (Eval rhs))) (λ go, frames_if go [Eval rhs]). by apply run_here.
Qed.

(** A turn that decides nothing, and what it pushes. *)
Lemma realizes_go f (work pushed : sh unit) P (k : sh bool) K : roomy K → keeps work →
  (∀ z, frames_of z = K → step f z = (work ≫= λ _, pushed) z) →
  (∀ z, frames_of z = K → pushed z = Ret (with_frames (P ++ K) z, tt)) → settled (P ++ K) →
  realizes P k K → realizes [f] (_ ← turn work; k) K.
Proof.
  intros HK Hkeep Hstep Hpush Hs Hk. by apply realizes_turn with (pushes := λ _, pushed) (P := λ _, P).
Qed.

Lemma realizes_branches branches els next rest K : roomy K → drop next branches = rest →
  Forall (λ b, node_depth b.1 ≤ d ∧ node_depth b.2 ≤ d)%nat rest → Forall (λ n, node_depth n ≤ d)%nat (option_list els) →
  realizes [IfNext branches next els] (run_branches run branches els next rest) K.
Proof.
  intros HK. revert next. induction rest as [|[cond body] rest IH]; intros next Hdrop Hd Hels; cbn [run_branches].
  - apply drop_last in Hdrop. destruct els as [body|].
    + apply Forall_cons in Hels as [Hbody _]. apply realizes_go with (pushed := push_ (Eval body)) (P := [Eval body]);
        [done|keep| |intros; by apply room_pushes|done|by apply run_here].
      intros z Hz. cbn [step]. unfold step_if_next. by rewrite Hdrop.
    + apply realizes_once; [apply HK..|keep|]. intros z Hz. cbn [step]. unfold step_if_next. by rewrite Hdrop.
  - apply drop_next in Hdrop as [Hn Hdrop]. apply Forall_cons in Hd as [[Hcond Hbody] Hd].
    apply realizes_go with (pushed := push_two (IfAfter branches next els) (Eval cond)) (P := [Eval cond; IfAfter branches next els]);
        [done|keep| |intros; by apply room_pushes_two|done|].
    { intros z Hz. cbn [step]. unfold step_if_next. by rewrite Hn. }
    apply (realizes_under _ [Eval cond]); [by apply run_under|]. unfold branch_taken.
    apply realizes_turn with (pushes := λ taken : option bool, match taken with
        | Some true => push_ (Eval body) | Some false => push_ (IfNext branches (S next) els) | None => mret tt end)
      (P := λ taken : option bool, match taken with
        | Some true => frames_if true [Eval body] | Some false => frames_if true [IfNext branches (S next) els]
        | None => frames_if false [] end); [keep| | | |].
    + intros z Hz. cbn [step]. unfold step_if_after. do 2 (eapply same_bind; [keep|exact Hz|clear z Hz; intros ? z Hz]).
      eapply same_bind; [keep|exact Hz|clear z Hz; intros unwind z Hz]. destruct unwind; [done|]. case_match; [|done].
      rewrite Hn. by destruct z as [c [m programs]].
    + intros [[]|] z Hz; by first [apply room_pushes|apply pushes_nothing].
    + intros [[]|]; first [reflexivity|apply HK].
    + intros [[]|]; [by apply run_here|by apply IH|apply realizes_done].
Qed.

(** After the body of a loop. *)
Lemma realizes_again f (again : Z → ShellFrame R) (k : Z → sh bool) K :
  roomy K → (∀ z, step f z = after_body again z) → (∀ status, is_bookkeeping (again status) = false) →
  (∀ status, realizes [again status] (k status) K) →
  realizes [f] (next ← turn loop_again; match next with Some status => k status | None => mret true end) K.
Proof.
  intros HK Hstep Hb Hk. unfold loop_again.
  apply realizes_turn with (pushes := when_some (mret tt) (λ status, push_ (again status)))
    (P := when_some [] (λ status, [again status])); [keep| | | |].
  - intros z Hz. rewrite Hstep. unfold after_body. same.
  - intros [status|] z Hz; by first [apply room_pushes|apply pushes_nothing].
  - intros [status|]; first [apply Hb|apply HK].
  - intros [status|]; [apply Hk|apply realizes_done].
Qed.

Lemma realizes_while fuel cond body until status K : (node_depth cond ≤ d)%nat → (node_depth body ≤ d)%nat → roomy K →
  realizes [WhileCheck cond body until status] (run_while run fuel cond body until status) K.
Proof.
  intros Hcond Hbody HK. revert status. induction fuel as [|fuel IH]; intros status; cbn [run_while]; [by intros x y w Hx|].
  unfold while_goes.
  begin_turn HK (λ go, when go (push_two (WhileAfterCondition cond body until status) (Eval cond)))
    (λ go, frames_if go [Eval cond; WhileAfterCondition cond body until status]).
  apply (realizes_under _ [Eval cond]); [by apply run_under|]. unfold while_continues.
  begin_turn HK (λ go, when go (push_two (WhileAfterBody cond body until) (Eval body)))
    (λ go, frames_if go [Eval body; WhileAfterBody cond body until]).
  apply (realizes_under _ [Eval body]); [by apply run_under|].
  by apply realizes_again with (again := WhileCheck cond body until).
Qed.

Lemma realizes_for var items body next rest status K : (node_depth body ≤ d)%nat → roomy K → drop next items = rest →
  realizes [ForNext var items body next status] (run_for run var items body next rest status) K.
Proof.
  intros Hbody HK. revert next status. induction rest as [|item rest IH]; intros next status Hdrop; cbn [run_for];
    unfold for_goes; cbn [head].
  - apply drop_last in Hdrop. begin_turn HK (λ go, when go (mret tt)) (λ go, frames_if go []).
  - apply drop_next in Hdrop as [Hn Hdrop].
    begin_turn HK (λ go, when go (push_two (ForAfterBody var items body (S next)) (Eval body)))
      (λ go, frames_if go [Eval body; ForAfterBody var items body (S next)]).
    apply (realizes_under _ [Eval body]); [by apply run_under|].
    apply realizes_again with (again := ForNext var items body (S next)); [done..|]. intros. by apply IH.
Qed.

Lemma keeps_fail error undo : keeps (fail_expansion error undo).
Proof. unfold fail_expansion. keep. Qed.
#[local] Hint Resolve keeps_fail : core.

Lemma realizes_prepare_for var words body K : (node_depth body ≤ d)%nat → roomy K →
  finds_nothing (find_each find_command_substitution words) = true →
  realizes [PrepareFor (MkPreparedFor var words body [])]
    (items ← turn (for_items words);
     match items with Some items => run_for run var items body 0 items 0 | None => mret true end) K.
Proof.
  intros Hbody HK Hnone. unfold for_items.
  apply realizes_turn with (pushes := when_some (mret tt) (λ items, put_frame (ForNext var items body 0 0)))
    (P := when_some [] (λ items, [ForNext var items body 0 0])); [keep| | | |].
  - intros z Hz. cbn [step]. unfold prepare_for. cbn [pf_words pf_var pf_body pf_temporary].
    rewrite found_nothing by done. rewrite (bind_Ret _ _ z z true) by (by eapply capacity_room; [apply HK..| |]). cbn [negb]. same.
  - intros [items|] z Hz; [by rewrite <-Hz|by apply pushes_nothing].
  - intros [items|]; first [reflexivity|apply HK].
  - intros [items|]; [by apply realizes_for|apply realizes_done].
Qed.

Lemma arithmetic_step expression continuation pushed work z :
  finds_nothing (find_command_substitution expression) = true →
  (∀ value z', frames_of z' = frames_of z →
     continue_arithmetic continuation value z' = (work value ≫= λ go, when go pushed) z') →
  step (PrepareArithmetic (MkPreparedArithmetic expression continuation)) z =
    (arithmetic (is_condition continuation) expression false work ≫= λ go, when go pushed) z.
Proof.
  intros Hnone Hk. cbn [step]. unfold prepare_arithmetic, arithmetic. cbn [pr_expression pr_continuation].
  rewrite found_nothing by done. eapply same_bind; [keep|reflexivity|]. intros [value|error] z1 Hz1; [by apply Hk|].
  eapply same_bind; [keep|exact Hz1|]. done.
Qed.

Lemma realizes_cfor fuel cond update body status K :
  finds_nothing (find_command_substitution cond) = true → finds_nothing (find_command_substitution update) = true →
  (node_depth body ≤ d)%nat → roomy K →
  realizes [CForCheck cond update body status] (run_cfor run fuel cond update body status) K.
Proof.
  intros Hcond Hupdate Hbody HK. revert status. induction fuel as [|fuel IH]; intros status; cbn [run_cfor];
    [by intros x y w Hx|]. unfold cfor_goes.
  set (condition := PrepareArithmetic (MkPreparedArithmetic cond (CForCondition cond update body status)) : ShellFrame R).
  begin_turn HK (λ go, when go (push_ condition)) (λ go, frames_if go [condition]).
  apply realizes_turn with (pushes := λ go, when go (push_two (CForAfterBody cond update body) (Eval body)))
    (P := λ go, frames_if go [Eval body; CForAfterBody cond update body]).
  - unfold cfor_continues, arithmetic. keep.
  - intros z Hz. apply arithmetic_step; [done..|]. intros value z' Hz'. cbn [continue_arithmetic].
    eapply same_bind; [keep|exact Hz'|]. intros unwind z1 Hz1. same.
  - intros [] z Hz; by first [apply room_pushes_two|apply pushes_nothing].
  - intros []; first [reflexivity|apply HK].
  - intros []; cbn [negb]; [|apply realizes_done]. apply (realizes_under _ [Eval body]); [by apply run_under|].
    apply realizes_again with
      (again := λ status, PrepareArithmetic (MkPreparedArithmetic update (CForUpdate cond update body status))); [done..|].
    clear status condition. intros status.
    apply realizes_turn with (pushes := λ go, when go (push_ (CForCheck cond update body status)))
      (P := λ go, frames_if go [CForCheck cond update body status]).
    + unfold cfor_updates, arithmetic. keep.
    + intros z Hz. by apply arithmetic_step.
    + intros [] z Hz; by first [apply room_pushes|apply pushes_nothing].
    + intros []; first [reflexivity|apply HK].
    + intros []; [by apply IH|apply realizes_done].
Qed.

Lemma realizes_cfor_start fuel init cond update body K :
  finds_nothing (find_command_substitution init) = true → finds_nothing (find_command_substitution cond) = true →
  finds_nothing (find_command_substitution update) = true → (node_depth body ≤ d)%nat → roomy K →
  realizes [PrepareArithmetic (MkPreparedArithmetic init (CForInit cond update body))]
    (go ← turn (cfor_starts init); if negb go then mret true else run_cfor run fuel cond update body 0) K.
Proof.
  intros Hinit Hcond Hupdate Hbody HK.
  apply realizes_turn with (pushes := λ go, when go (push_ (CForCheck cond update body 0)))
    (P := λ go, frames_if go [CForCheck cond update body 0]).
  - unfold cfor_starts, arithmetic. keep.
  - intros z Hz. by apply arithmetic_step.
  - intros [] z Hz; by first [apply room_pushes|apply pushes_nothing].
  - intros []; first [reflexivity|apply HK].
  - intros []; [by apply realizes_cfor|apply realizes_done].
Qed.

Lemma expand_arms_bodies arms s s' expanded : expand_arms arms s = Ret (s', expanded) → map snd expanded = map snd arms.
Proof.
  revert s s' expanded. induction arms as [|[patterns body] arms IH]; intros s s' expanded; cbn [expand_arms];
    [by intros [= _ <-]|].
  unfold mbind, stm_bind. destruct (expand_each_text patterns s) as [[s1 texts]| |]; [|done..].
  destruct (expand_arms arms s1) as [[s2 rest]| |] eqn:Hr; [|done..]. intros [= _ <-]. cbn. f_equal. by eapply IH.
Qed.

Lemma select_arm_body subject arms body : select_arm subject arms = Some body → body ∈ map snd arms.
Proof.
  induction arms as [|[patterns b] arms IH]; cbn [select_arm map snd]; [done|].
  case_match; [intros [= ->]; by left|]. intros Hs. right. by apply IH.
Qed.

Lemma case_choice_arm word arms z z' body : case_choice word arms z = Ret (z', Some body) → body ∈ map snd arms.
Proof.
  unfold case_choice, mbind, stm_bind. destruct (in_machine (expand_text _ _) z) as [[z1 subject]| |]; [|done..].
  destruct (in_machine (expand_arms arms) z1) as [[z2 expanded]| |] eqn:He; [|done..].
  assert (Hb : map snd expanded = map snd arms).
  { unfold in_machine, on_world, on_machine, mbind, run_bind in He.
    destruct (expand_arms _ _) as [[s1 e]| |] eqn:Hr; [|done..]. injection He as _ <-. by eapply expand_arms_bodies. }
  destruct (in_machine take_expansion_error z2) as [[z3 [error|]]| |]; [| |done..].
  - by destruct (fail_expansion _ _ z3) as [[]| |].
  - destruct (in_machine (restore_command_variables []) z3) as [[z4 []]| |]; [|done..]. cbn. intros [= _ Hs].
    rewrite <-Hb. by eapply select_arm_body.
Qed.

Lemma realizes_case word arms K : Forall (λ n, node_depth n ≤ d)%nat (map snd arms) → roomy K →
  finds_nothing (case_substitution (MkPreparedCase word arms [])) = true →
  realizes [PrepareCase (MkPreparedCase word arms [])]
    (chosen ← turn (case_choice word arms); match chosen with Some body => run body | None => mret true end) K.
Proof.
  intros Harms HK Hnone.
  apply realizes_turn_if with (Φ := λ chosen, ∀ body, chosen = Some body → body ∈ map snd arms)
    (pushes := when_some (mret tt) (λ body, put_frame (Eval body))) (P := when_some [] (λ body, [Eval body])).
  - unfold case_choice. keep.
  - intros z z' chosen Hz body ->. by eapply case_choice_arm.
  - intros z Hz. cbn [step]. unfold prepare_case, case_choice. cbn [pa_word pa_arms pa_temporary].
    rewrite found_nothing by done. rewrite (bind_Ret _ _ z z true) by (by eapply capacity_room; [apply HK..| |]).
    cbn [negb]. same.
  - intros [body|] z Hz; [by rewrite <-Hz|by apply pushes_nothing].
  - intros [body|]; first [reflexivity|apply HK].
  - intros [body|] Hin; [|apply realizes_done]. apply run_here; [|done].
    rewrite Forall_forall in Harms. by apply Harms, Hin.
Qed.

Lemma put_then_machine {A B} f (m : mach A) (k : A → sh B) z :
  (_ ← put_frame f; a ← in_machine m; k a) z = (a ← in_machine m; _ ← put_frame f; k a) z.
Proof.
  unfold put_frame, edit, modify, in_machine, on_world, on_machine, mbind, stm_bind, run_bind. cbn.
  by destruct (m _) as [[s a]| |].
Qed.

Definition scoped_frames (inner : Node) (scope : option RedirectScope) : list (ShellFrame R) :=
  match scope with Some scope => [Eval inner; RestoreRedirect scope] | None => [Eval inner] end.

Lemma redirected_needs inner redirects : 0 ≤ frames_needed (redirected_command inner redirects) ≤ 2.
Proof.
  unfold frames_needed, redirected_command, flag. cbn [pc_redirects pc_output pc_files].
  rewrite (bool_decide_eq_true_2 (@nil string = [])) by done. cbn [negb]. case_match; lia.
Qed.

Lemma realizes_redirected inner redirects K : (node_depth inner ≤ d)%nat → roomy K →
  finds_nothing (next_process_substitution (redirected_command inner redirects)) = true →
  finds_nothing (next_command_substitution (redirected_command inner redirects)) = true →
  realizes [PrepareCommand (redirected_command inner redirects)]
    (scope ← turn (redirected (redirected_command inner redirects));
     match scope with
     | Some (Some scope) => under (RestoreRedirect scope) (run inner) >>> once (in_machine (end_redirects scope))
     | Some None => run inner
     | None => mret true
     end) K.
Proof.
  intros Hinner HK Hprocess Hcommand.
  apply realizes_turn with (pushes := when_some (mret tt) (λ scope, put_frames (scoped_frames inner scope)))
    (P := when_some [] (scoped_frames inner)).
  - unfold redirected. keep.
  - intros z Hz. cbn [step]. unfold prepare_command, redirected.
    rewrite found_nothing by done. rewrite found_nothing by done. rewrite found_nothing by done. unfold launch.
    rewrite (bind_Ret _ _ z z true) by (eapply capacity_room; [apply HK..|done|apply redirected_needs]).
    cbn [negb]. eapply same_bind; [keep|exact Hz|]. intros [scope|message] z1 Hz1; [|same].
    cbn [redirected_command pc_output pc_files pc_body pc_temporary].
    do 2 rewrite (bind_Ret _ _ z1 z1 tt) by done. destruct scope as [scope|].
    + rewrite put_then_machine. eapply same_bind; [keep|exact Hz1|]. done.
    + rewrite (bind_Ret _ _ z1 z1 tt) by done. eapply same_bind; [keep|exact Hz1|]. done.
  - intros [scope|] z Hz; [by rewrite <-Hz|by apply pushes_nothing].
  - intros [[scope|]|]; first [reflexivity|apply HK].
  - intros [[scope|]|]; [|by apply run_here|apply realizes_done].
    apply (realizes_under _ [Eval inner]); [by apply run_under|]. by apply realizes_once; [apply HK..|keep|].
Qed.

Lemma roomy_below K : settled K → zlen K + 2 * Z.of_nat (S d) ≤ MAX_SHELL_FRAMES → roomy K.
Proof. intros HK Hz. split_and!; [done|lia|lia]. Qed.

(** A loop's frames go above [FinishLoop]. *)
Lemma realizes_loop n (before head : sh unit) first (work : sh bool) K :
  checks_error n = false → records_status n = false → is_bookkeeping first = false → (1 ≤ d)%nat → settled K →
  zlen K + 2 * Z.of_nat (S d) ≤ MAX_SHELL_FRAMES → keeps before →
  (∀ z, head z = (_ ← before; in_machine raise_loop) z) → (∀ z, eval_node n z = (_ ← before; enter_loop first) z) →
  (roomy (FinishLoop :: K) → realizes [first] work (FinishLoop :: K)) →
  realizes [Eval n] (entered head (λ _, in_loop work)) K.
Proof.
  intros Hc Hr Hb Hd HK Hroom Hkeep Hhead Hnode Hwork.
  apply realizes_entered with (pushes := λ _, put_frames [first; FinishLoop]) (P := λ _, [first; FinishLoop]);
    [done|done|done| | | |by intros|].
  - assert (Hk : keeps (_ ← before; in_machine raise_loop)) by keep. intros z z' a. rewrite Hhead. apply Hk.
  - intros z Hz. unfold mbind at 1, stm_bind at 1. rewrite Hnode, Hhead. unfold mbind, stm_bind.
    destruct (before z) as [[z1 []]| |] eqn:Hh; [|done..].
    destruct (Hkeep _ _ _ Hh) as [Hz1 _]. rewrite Hz in Hz1. unfold enter_loop.
    rewrite (bind_Ret _ _ z1 z1 true) by (eapply capacity_room; [exact HK| |exact Hz1|]; lia). cbn [negb].
    unfold mbind, stm_bind. by destruct (in_machine raise_loop z1) as [[z2 []]| |].
  - by intros _ z <-.
  - intros _. unfold in_loop. apply (realizes_under _ [first]).
    + apply Hwork. split_and!; [done|cbn [length]; lia..].
    + apply realizes_once; [done|cbn [length]; lia|keep|done].
Qed.

(** A construct whose first turn pushes [P]. *)
Lemma realizes_begun n (head pushed : sh unit) P (k : sh bool) K :
  checks_error n = false → records_status n = false → roomy K → keeps head →
  (∀ z, frames_of z = K → eval_node n z = (_ ← head; pushed) z) →
  (∀ z, frames_of z = K → pushed z = Ret (with_frames (P ++ K) z, tt)) → settled (P ++ K) →
  realizes P k K → realizes [Eval n] (entered head (λ _, k)) K.
Proof.
  intros Hc Hr (HK & _) Hkeep Hnode Hpush Hs Hk.
  by apply realizes_entered with (pushes := λ _, pushed) (P := λ _, P).
Qed.

(** A construct whose only turn is the first. *)
Lemma realizes_whole_turn n (head : sh unit) K :
  checks_error n = false → records_status n = false → roomy K → keeps head →
  (∀ z, eval_node n z = head z) → realizes [Eval n] (entered head (λ _, mret true)) K.
Proof.
  intros Hc Hr HK Hkeep Hnode. apply realizes_begun with (pushed := mret tt) (P := []); try done.
  - intros z _. rewrite Hnode. unfold mbind, stm_bind. by destruct (head z) as [[z' []]| |].
  - intros z Hz. by apply pushes_nothing.
  - apply HK.
  - apply realizes_done.
Qed.

Lemma children_depth n : Forall (λ c, node_depth c < node_depth n)%nat (children n).
Proof.
  assert (Hmax : ∀ {A} (f : A → nat) l, Forall (λ a, f a < S (foldr (λ a d, Nat.max (f a) d) 0 l))%nat l).
  { intros A f l. induction l as [|a l IH]; constructor; cbn; [lia|]. eapply Forall_impl; [exact IH|]. cbn. lia. }
  destruct n as [| |stages|l r|l r|nodes|n|n|n|c t elifs els|v w b|i c u b|c b u|w arms|nm b| |n|n p|n rs|];
    cbn [children node_depth]; try solve [repeat (apply Forall_cons_2; [lia|]); constructor]; try apply Hmax.
  - apply Forall_cons_2; [lia|]. apply Forall_cons_2; [lia|]. apply Forall_app. split.
    + specialize (Hmax _ (λ e : Node * Node, Nat.max (node_depth e.1) (node_depth e.2)) elifs).
      induction elifs as [|[c' b'] elifs IH]; [constructor|]. cbn in *. apply Forall_cons in Hmax as [H1 H2].
      apply Forall_cons_2; [lia|]. apply Forall_cons_2; [lia|].
      assert (Hi : Forall (λ e : Node * Node, Nat.max (node_depth e.1) (node_depth e.2) < S (foldr (λ e d, Nat.max (Nat.max (node_depth e.1) (node_depth e.2)) d) 0 elifs))%nat elifs).
      { clear. induction elifs as [|e elifs IH]; constructor; cbn; [lia|]. eapply Forall_impl; [exact IH|]. cbn. lia. }
      eapply Forall_impl; [by apply IH|]. cbn. lia.
    + destruct els; constructor; [lia|constructor].
  - induction arms as [|[p b] arms IH]; constructor; cbn in *; [lia|]. eapply Forall_impl; [exact IH|]. cbn. lia.
Qed.
Lemma branches_depth elifs els : Forall (λ n, node_depth n ≤ d)%nat (flat_map (λ '(c, b), [c; b]) elifs ++ option_list els) →
  Forall (λ b, node_depth b.1 ≤ d ∧ node_depth b.2 ≤ d)%nat elifs ∧ Forall (λ n, node_depth n ≤ d)%nat (option_list els).
Proof.
  intros [He Hels]%Forall_app. split; [|done]. induction elifs as [|[c b] elifs IH]; [constructor|].
  apply Forall_cons in He as [Hc [Hb He]%Forall_cons]. constructor; [done|by apply IH].
Qed.

Lemma realizes_construct fuel n K : is_construct n = true → (node_depth n ≤ S d)%nat → settled K →
  zlen K + 2 * Z.of_nat (S d) ≤ MAX_SHELL_FRAMES → realizes [Eval n] (run_construct run fuel n) K.
Proof.
  intros Hn Hl HK Hroom. pose proof (roomy_below K HK Hroom) as Hroomy.
  assert (Hkids : Forall (λ c, node_depth c ≤ d)%nat (children n)).
  { eapply Forall_impl; [apply children_depth|]. cbn. lia. }
  assert (Hd : children n = [] ∨ (1 ≤ d)%nat).
  { destruct Hkids as [|c l Hc _]; [by left|right]. pose proof (node_depth_pos c). lia. }
  destruct n as [| | |lhs rhs|lhs rhs|nodes|inner| |inner|cond then_ elifs els|var words body|init cond update body|cond body until|word arms
    |name body| |inner|inner posix|inner redirects|]; try discriminate Hn; cbn [run_construct]; cbn [children] in Hkids, Hd;
    repeat match type of Hkids with Forall _ (_ :: _) => let Hkid := fresh "Hkid" in apply Forall_cons in Hkids as [Hkid Hkids] end.
  - apply realizes_begun with (pushed := push_two (Conditional rhs true) (Eval lhs)) (P := [Eval lhs; Conditional rhs true]);
      [done..|keep|done|intros; by apply room_pushes_two|done|].
    apply (realizes_under _ [Eval lhs]); [by apply run_under|by apply realizes_conditional].
  - apply realizes_begun with (pushed := push_two (Conditional rhs false) (Eval lhs)) (P := [Eval lhs; Conditional rhs false]);
      [done..|keep|done|intros; by apply room_pushes_two|done|].
    apply (realizes_under _ [Eval lhs]); [by apply run_under|by apply realizes_conditional].
  - apply realizes_begun with (pushed := push_ (Sequence nodes 0)) (P := [Sequence nodes 0]);
      [done..|keep|done|intros; by apply room_pushes|done|]. by apply realizes_sequence.
  - by apply realizes_whole_turn; [..|keep|].
  - apply realizes_begun with (pushed := push_ (Eval inner)) (P := [Eval inner]);
      [done..|keep|done|intros; by apply room_pushes|done|by apply run_here].
  - apply branches_depth in Hkids as [Helifs Hels].
    apply realizes_begun with (pushed := push_ (IfNext ((cond, then_) :: elifs) 0 els)) (P := [IfNext ((cond, then_) :: elifs) 0 els]);
      [done..|keep|done|intros; by apply room_pushes|done|]. apply realizes_branches; [done|done| |done]. by constructor.
  - destruct Hd as [?|Hd]; [done|].
    apply realizes_loop with (before := mret tt) (first := PrepareFor (MkPreparedFor var words body [])); try done; [keep|].
    intros Hr. by apply realizes_prepare_for.
  - destruct Hd as [?|Hd]; [done|]. cbn [is_construct] in Hn. apply andb_true_iff in Hn as [[Hinit Hcond]%andb_true_iff Hupdate].
    apply realizes_loop with (before := mret tt)
      (first := PrepareArithmetic (MkPreparedArithmetic init (CForInit cond update body))); try done; [keep|].
    intros Hr. by apply realizes_cfor_start.
  - destruct Hd as [?|Hd]; [done|].
    apply realizes_loop with (before := set_result 0) (first := WhileCheck cond body until 0); try done; [keep|].
    intros Hr. by apply realizes_while.
  - apply realizes_begun with (pushed := push_ (PrepareCase (MkPreparedCase word arms []))) (P := [PrepareCase (MkPreparedCase word arms [])]);
      [done..|keep|done|intros; by apply room_pushes|done|]. by apply realizes_case.
  - by apply realizes_whole_turn; [..|keep|].
  - apply realizes_begun with (pushed := push_two Negate (Eval inner)) (P := [Eval inner; Negate]);
      [done..|keep|done|intros; by apply room_pushes_two|done|].
    apply (realizes_under _ [Eval inner]); [by apply run_under|].
    apply realizes_once; [apply Hroomy..|unfold step_negate; keep|done].
  - apply realizes_entered with (pushes := λ start, push_two (FinishTime start) (Eval inner))
      (P := λ start, [Eval inner; FinishTime start]); [done..|keep|done|intros; by apply room_pushes_two|by intros|].
    intros start. apply (realizes_under _ [Eval inner]); [by apply run_under|].
    apply realizes_once; [apply Hroomy..|unfold finish_time; keep|done].
  - apply andb_true_iff in Hn as [Hprocess Hcommand].
    apply realizes_begun with (pushed := push_ (PrepareCommand (redirected_command inner redirects)))
      (P := [PrepareCommand (redirected_command inner redirects)]);
      [done..|keep|done|intros; by apply room_pushes|done|]. by apply realizes_redirected.
  - by apply realizes_whole_turn; [..|keep|].
Qed.

End constructs.

(** ** Simple commands

    A quantum leaves what was below the frame it ran, or nothing at all. *)

Lemma above_app P K L : above (P ++ K) L → above K L.
Proof. intros [[P' ->]| ->]; [|by right]. left. exists (P' ++ P). by rewrite app_assoc. Qed.

Lemma bookkeep_above fuel K L : settled K → above K L → stack (bookkeep fuel) L (λ _ L', above K L').
Proof.
  intros HK. revert L. induction fuel as [|fuel IH]; intros L HL; cbn [bookkeep]; apply stack_bind, stack_ask_frames;
    destruct L as [|f L]; try by apply stack_ret.
  - destruct (is_bookkeeping f); [by intros x x' a _|by apply stack_ret].
  - destruct (is_bookkeeping f) eqn:Hf; [|by apply stack_ret]. apply stack_bind, stack_set, stack_bind.
    destruct HL as [[[|g P] HP]|HL]; [|simplify_eq/=|done].
    { cbn in HP. subst K. cbn in HK. by rewrite HK in Hf. }
    eapply stack_mono; [apply step_grounded|]. intros ? L' HL'. apply IH. exact (above_app P K L' HL').
Qed.

Lemma quantum_above f P K : settled K → stack quantum (f :: P ++ K) (λ _ L, above K L).
Proof.
  intros HK. unfold quantum, shell_poll. apply stack_bind, stack_bind, stack_edit; [done|].
  cbn [Nat.max SHELL_POLL_QUANTUM poll_rounds]. apply stack_bind, stack_bind. unfold poll_round, pop_frame.
  apply stack_bind, stack_bind, stack_ask_frames, stack_bind, stack_set, stack_ret, stack_bind.
  eapply stack_mono; [apply step_grounded|]. intros ? L HL%above_app.
  apply stack_bind. unfold run_bookkeeping. apply stack_bind, stack_ask. intros fs.
  eapply stack_mono; [by apply bookkeep_above|]. intros ? L' HL'. unfold poll_outcome.
  repeat first [apply stack_bind | apply stack_ret | apply stack_machine; intros ? | apply stack_world; intros ?
    | apply stack_ask; intros ? | apply stack_edit; [done|] | exact HL' | case_match].
Qed.

Lemma drain_reaches fuel K x y w : settled K → above K (frames_of x) → drain_to fuel (zlen K) x = Ret (y, w) →
  reaches x y ∧ (w = true → frames_of y = K).
Proof.
  intros HK. revert x. induction fuel as [|fuel IH]; intros x Hx; cbn [drain_to]; unfold frame_count;
    rewrite (bind_Ret _ _ _ _ _ (ask_Ret _ _)); fold (frames_of x); destruct (_ <=? _) eqn:Hle; try done.
  1, 2: intros [= <- <-]; split; [apply reaches_refl|]; intros Heq%Z.eqb_eq;
    destruct Hx as [[[|f P] HP]|Hnil]; [done| |by rewrite Hnil in *; destruct K];
    rewrite HP, length_app in Heq; simpl in Heq; lia.
  unfold mbind, stm_bind. destruct (quantum x) as [[x1 []]| |] eqn:Hq; [|done..]. intros Hd.
  destruct Hx as [[[|f P] HP]|Hnil]; [| |by rewrite Hnil in Hle; simpl in Hle; bool_to_prop; lia].
  - rewrite HP in Hle. cbn [app] in Hle. bool_to_prop. lia.
  - destruct (IH x1) as [Hr Hk]; [exact (quantum_above f P K HK x x1 tt HP Hq)|done|].
    split; [|done]. by eapply reaches_quantum.
Qed.

Lemma realizes_by_machine fuel n K : settled K → realizes [Eval n] (by_machine fuel n) K.
Proof.
  intros HK x y w Hx. unfold by_machine, frame_count, put_frame. rewrite (bind_Ret _ _ _ _ _ (ask_Ret _ _)).
  rewrite (bind_Ret _ _ _ _ _ (edit_Ret _ _)). fold (frames_of x). rewrite Hx. intros Hd.
  apply drain_reaches with (K := K) in Hd; [exact Hd|done|left; by exists [Eval n]].
Qed.

Lemma run_node_realizes fuel d : implemented (run_node fuel) d.
Proof.
  revert d. induction fuel as [|fuel IH]; intros d n K Hn HK Hroom; cbn [run_node]; [by intros x y w _|].
  destruct (is_construct n) eqn:Hc; [|by apply realizes_by_machine].
  destruct d as [|d]; [pose proof (node_depth_pos n); lia|]. by apply (realizes_construct _ d (IH d)).
Qed.

(** C1: The executor implements the shell's constructs. Run [n] by recursion on the tree, as
    [run_node] does ([if], [while], [for], [case], [&&], [||], [!], sequences, groups, redirections,
    each a turn at a time), on top of any frames with room for the nesting of [n] (two each level):
    the machine that holds those frames and [Eval n] on top arrives, by polls of one quantum each, at
    the very same shell and world, whatever the other processes do between two quanta. When the
    construct was not cut short, the frames below are what they were. *)
Theorem run_node_is_implemented (fuel : nat) (n : Node) x y (complete : bool) :
  settled (frames_of x) → zlen (frames_of x) + 2 * Z.of_nat (node_depth n) ≤ MAX_SHELL_FRAMES →
  run_node fuel n x = Ret (y, complete) →
  (∃ count, quanta count (with_frames (Eval n :: frames_of x) x) = Ret (y, tt)) ∧
  (complete = true → frames_of y = frames_of x).
Proof. intros Hs Hroom Hrun. by apply (run_node_realizes fuel (node_depth n) n (frames_of x)). Qed.

End spec.

(** [for i in a b; do if false; then echo no; else echo "$i"; fi; done && ! false] *)
Definition example_construct : Node :=
  NAnd (NFor "i" ["a"; "b"] (NIf (NCommand [] ["false"] []) (NCommand [] ["echo"; "no"] []) [] (Some (NCommand [] ["echo"; "$i"] []))))
    (NNot (NCommand [] ["false"] [])).

Lemma run_node_is_implemented_witness : ∃ (x y : Shell unit Empty_set) count,
  frames_of x = [] ∧ quanta (mret tt) count (with_frames [Eval example_construct] x) = Ret (y, tt) ∧
  frames_of y = [] ∧ sc_status (x_shell y) = 0.
Proof.
  set (start := λ s, MkShellRun (R := unit) (N := Empty_set) (continuation_of [] false) (MkWorld s ∅)).
  destruct (example_boot (λ s, match run_node (mret tt) 60 example_construct (start s) with
      | Ret (y, true) => sc_status (x_shell y) =? 0 | _ => false end)) as (s & _ & _ & Hr); [vm_compute; reflexivity|].
  destruct (run_node (mret tt) 60 example_construct (start s)) as [[y [|]]| |] eqn:Hrun; try discriminate Hr.
  destruct (run_node_is_implemented (mret tt) 60 example_construct (start s) y true) as [[count Hc] Hf]; [done|done|exact Hrun|].
  exists (start s), y, count. split; [done|split; [exact Hc|split; [by apply Hf|by apply Z.eqb_eq]]].
Defined.
