(* ===== verification/StreamSpec.v ===== *)
(** * What a program may rely on

    [Streams] states what the kernel promises to the programs that only open, read, write and
    charge: calls return, a read gives no more than was asked, a write takes a part of what it was
    given. The promise is indexed by a tape, the history of what the program read and wrote, so that
    a program's theorem can speak of all of it. [recorded] keeps the tape of any system, and
    [poll_write] is specified against the interface. *)

From S2P Require Import Prelude.
From S2P Require Import RustStr.
From S2P Require Import State.
From S2P Require Import Process.
From S2P Require Import Scheduler.
From S2P Require Import Descriptors.
From S2P Require Import Machine.
From S2P Require Import Kernel.
From S2P Require Import ExecData.
From S2P Require Import Images.
From S2P Require Import ProgramSystem.

(** ** Tapes *)

(** An event a program sees: a file it opened, a chunk it read (empty at the end), a chunk it wrote. *)
Inductive TapeEvent :=
| TOpened (path : string)
| TRead (fd : Z) (data : bytes)
| TWrote (fd : Z) (data : bytes).
Abbreviation Tape := (list TapeEvent).

Definition tape_input (t : Tape) : bytes := concat (map (λ e, match e with TRead _ data => data | _ => [] end) t).
Definition tape_output (fd : Z) (t : Tape) : bytes :=
  concat (map (λ e, match e with TWrote fd' data => if fd' =? fd then data else [] | _ => [] end) t).
Definition tape_opened (t : Tape) : list string := concat (map (λ e, match e with TOpened path => [path] | _ => [] end) t).
(** How many reads found the end. *)
Definition tape_ends (t : Tape) : nat := length (concat (map (λ e, match e with TRead _ [] => [tt] | _ => [] end) t)).

Lemma tape_input_app t t' : tape_input (t ++ t') = tape_input t ++ tape_input t'.
Proof. unfold tape_input. by rewrite map_app, concat_app. Qed.
Lemma tape_output_app fd t t' : tape_output fd (t ++ t') = tape_output fd t ++ tape_output fd t'.
Proof. unfold tape_output. by rewrite map_app, concat_app. Qed.
Lemma tape_opened_app t t' : tape_opened (t ++ t') = tape_opened t ++ tape_opened t'.
Proof. unfold tape_opened. by rewrite map_app, concat_app. Qed.
Lemma tape_ends_app t t' : tape_ends (t ++ t') = (tape_ends t + tape_ends t')%nat.
Proof. unfold tape_ends. by rewrite map_app, concat_app, length_app. Qed.

(** ** The interface *)

Definition ready_within {A} (size : A → Z) (maximum : Z) (r : called (IoPoll A)) : Prop :=
  match r with Ok (Ready a) => 0 ≤ size a ≤ maximum | _ => True end.

Definition read_event (fd : Z) (r : called (IoPoll bytes)) : Tape := match r with Ok (Ready data) => [TRead fd data] | _ => [] end.
Definition write_event (fd : Z) (data : bytes) (r : called (IoPoll Z)) : Tape :=
  match r with Ok (Ready n) => [TWrote fd (take (Z.to_nat n) data)] | _ => [] end.
Definition open_event (path : string) (r : called Z) : Tape := match r with Ok _ => [TOpened path] | Err _ => [] end.

Class Streams (W : Type) {S : System W} (I : Tape → W → Prop) := {
  st_read fd maximum t w : I t w → 0 ≤ maximum → wp (sy_read fd maximum) w (λ r w', I (t ++ read_event fd r) w' ∧ ready_within (λ data, zlen data) maximum r);
  st_write fd data t w : I t w → wp (sy_write fd data) w (λ r w', I (t ++ write_event fd data r) w' ∧ ready_within (λ n, n) (zlen data) r);
  st_open_file base path options t w : I t w → wp (sy_open_file base path options) w (λ r w', I (t ++ open_event path r) w');
  st_close fd t w : I t w → wp (sy_close fd) w (λ _ w', I t w');
  st_cwd t w : I t w → wp sy_cwd w (λ _ w', I t w');
  st_charge_cpu n t w : I t w → wp (sy_charge_cpu n) w (λ _ w', I t w');
  st_charge_output n t w : I t w → wp (sy_charge_output n) w (λ _ w', I t w');
  st_output_remaining t w : I t w → wp sy_output_remaining w (λ n w', I t w' ∧ 0 ≤ n);
  st_stop_status t w : I t w → wp sy_stop_status w (λ status w', I t w' ∧ status ≠ 0)
}.

(** ** A system with a tape *)

Section recording.
Context {W : Type} {S : System W}.

Definition silent {A} (m : stm W A) : stm (W * Tape) A := λ x, '(w, a) ← m x.1; Ret ((w, x.2), a).
Definition noted {A} (note : A → Tape) (m : stm W A) : stm (W * Tape) A := λ x, '(w, a) ← m x.1; Ret ((w, x.2 ++ note a), a).

(** The system, with the history of what was opened, read and written. *)
#[export] Instance recorded : System (W * Tape) := {|
  sy_read fd maximum := noted (read_event fd) (sy_read fd maximum);
  sy_write fd data := noted (write_event fd data) (sy_write fd data);
  sy_open_file base path options := noted (open_event path) (sy_open_file base path options);
  sy_close fd := silent (sy_close fd);
  sy_cwd := silent sy_cwd;
  sy_chdir path := silent (sy_chdir path);
  sy_is_directory base path := silent (sy_is_directory base path);
  sy_canonicalize base path strict := silent (sy_canonicalize base path strict);
  sy_environment := silent sy_environment;
  sy_charge_cpu n := silent (sy_charge_cpu n);
  sy_reserve_memory n := silent (sy_reserve_memory n);
  sy_release_memory n := silent (sy_release_memory n);
  sy_output_remaining := silent sy_output_remaining;
  sy_charge_output n := silent (sy_charge_output n);
  sy_stop_status := silent sy_stop_status;
  sy_cpu_used := silent sy_cpu_used;
  sy_disk_used := silent sy_disk_used;
  sy_record_command_usage name cpu disk := silent (sy_record_command_usage name cpu disk);
  sy_schedule_wake duration := silent (sy_schedule_wake duration);
  sy_monotonic_ns := silent sy_monotonic_ns;
  sy_spawn_argv spec := silent (sy_spawn_argv spec);
  sy_exec_argv argv environment := silent (sy_exec_argv argv environment);
  sy_kill target signal := silent (sy_kill target signal);
  sy_ignore_signal signal := silent (sy_ignore_signal signal);
  sy_child_status pid := silent (sy_child_status pid);
  sy_reap_child pid := silent (sy_reap_child pid)
|}.

Lemma wp_silent {A} (m : stm W A) w t (Q : A → W * Tape → Prop) : wp m w (λ a w', Q a (w', t)) → wp (silent m) (w, t) Q.
Proof. intros (w' & a & Hm & HQ). apply (wp_eq _ _ (w', t) a); [|done]. unfold silent. cbn [fst]. by rewrite Hm. Qed.

Lemma wp_noted {A} note (m : stm W A) w t (Q : A → W * Tape → Prop) :
  wp m w (λ a w', Q a (w', t ++ note a)) → wp (noted note m) (w, t) Q.
Proof. intros (w' & a & Hm & HQ). apply (wp_eq _ _ (w', t ++ note a) a); [|done]. unfold noted. cbn [fst]. by rewrite Hm. Qed.

(** What is recorded is what happened. *)
#[export] Instance recorded_streams (J : W → Prop) {HS : Streams W (λ _, J)} : Streams (W * Tape) (λ t x, J x.1 ∧ x.2 = t).
Proof.
  split.
  all: intros; match goal with H : _ ∧ _ |- _ => destruct H as [HJ <-] end.
  all: match goal with |- wp _ ?x _ => destruct x as [w t] end; cbn [fst snd] in *.
  all: first [apply wp_silent|apply wp_noted].
  - eapply wp_mono; [by apply (st_read fd maximum t w)|]. by intros r w' [HI Hr].
  - eapply wp_mono; [by apply (st_write fd data t w)|]. by intros r w' [HI Hr].
  - eapply wp_mono; [by apply (st_open_file base path options t w)|]. done.
  - eapply wp_mono; [by apply (st_close fd t w)|]. done.
  - eapply wp_mono; [by apply (st_cwd t w)|]. done.
  - eapply wp_mono; [by apply (st_charge_cpu n t w)|]. done.
  - eapply wp_mono; [by apply (st_charge_output n t w)|]. done.
  - eapply wp_mono; [by apply (st_output_remaining t w)|]. by intros n w' [HI Hn].
  - eapply wp_mono; [by apply (st_stop_status t w)|]. by intros n w' [HI Hn].
Qed.

End recording.

(** ** Writing *)

Section writing.
Context {W : Type} {S : System W} (I : Tape → W → Prop) {HS : Streams W I}.

Definition wrote (fd : Z) (chunks : list bytes) : Tape := map (TWrote fd) chunks.

Lemma wrote_input fd chunks : tape_input (wrote fd chunks) = [].
Proof. induction chunks as [|c chunks IH]; [done|]. exact IH. Qed.
Lemma wrote_opened fd chunks : tape_opened (wrote fd chunks) = [].
Proof. induction chunks as [|c chunks IH]; [done|]. exact IH. Qed.
Lemma wrote_ends fd chunks : tape_ends (wrote fd chunks) = 0%nat.
Proof. induction chunks as [|c chunks IH]; [done|]. exact IH. Qed.
Lemma wrote_output fd chunks : tape_output fd (wrote fd chunks) = concat chunks.
Proof.
  induction chunks as [|c chunks IH]; [done|]. unfold tape_output in *. cbn [wrote map concat]. rewrite Z.eqb_refl.
  f_equal. exact IH.
Qed.
Lemma wrote_other fd fd' chunks : fd' ≠ fd → tape_output fd (wrote fd' chunks) = [].
Proof.
  intros Hne. induction chunks as [|c chunks IH]; [done|]. unfold tape_output in *. cbn [wrote map concat].
  apply Z.eqb_neq in Hne. rewrite Hne. exact IH.
Qed.

(** How writing left off: it wrote from [offset] to where it is now, and if it is ready it is done
    and says [status], or it failed with another status than success. *)
Definition write_outcome (data : bytes) (offset status : Z) (chunks : list bytes) (r : Z * ShellPoll) : Prop :=
  concat chunks = data_slice data offset r.1 ∧ offset ≤ r.1 ≤ zlen data ∧
  match r.2 with PollReady s => (s = status ∧ r.1 = zlen data) ∨ s ≠ 0 | PollPending | PollBlocked _ => True | _ => False end.

Lemma data_slice_app data a b c : 0 ≤ a → a ≤ b → b ≤ c → c ≤ zlen data →
  data_slice data a b ++ data_slice data b c = data_slice data a c.
Proof.
  intros. unfold data_slice. replace (Z.to_nat b) with (Z.to_nat a + Z.to_nat (b - a))%nat by lia.
  rewrite <-drop_drop, take_take_drop. f_equal. lia.
Qed.

Lemma data_slice_empty data a : data_slice data a a = [].
Proof. unfold data_slice. by rewrite Z.sub_diag. Qed.

Lemma data_slice_length data a b : 0 ≤ a → a ≤ b → b ≤ zlen data → zlen (data_slice data a b) = b - a.
Proof. intros. unfold data_slice. rewrite length_take, length_drop. lia. Qed.

Lemma data_slice_take data a b n : 0 ≤ n → n ≤ b - a → take (Z.to_nat n) (data_slice data a b) = data_slice data a (a + n).
Proof. intros. unfold data_slice. rewrite take_take. f_equal. lia. Qed.

(** The writing so far, then the rest of it. *)
Lemma write_outcome_more data offset n status chunk chunks r : 0 ≤ offset → 0 ≤ n → offset + n ≤ zlen data →
  chunk = data_slice data offset (offset + n) → write_outcome data (offset + n) status chunks r →
  write_outcome data offset status (chunk :: chunks) r.
Proof.
  intros Ho Hn Hl -> (Hc & Hr & Hs). split; [|split; [lia|done]]. cbn [concat]. rewrite Hc. apply data_slice_app; lia.
Qed.

Lemma write_outcome_now data offset status poll : 0 ≤ offset ≤ zlen data →
  match poll with PollReady s => (s = status ∧ offset = zlen data) ∨ s ≠ 0 | PollPending | PollBlocked _ => True | _ => False end →
  write_outcome data offset status [] (offset, poll).
Proof. intros Ho Hp. split; [by rewrite data_slice_empty|]. split; [simpl; lia|done]. Qed.

Definition writing (t : Tape) (fd : Z) (data : bytes) (offset status : Z) (r : Z * ShellPoll) (w : W) : Prop :=
  ∃ chunks, I (t ++ wrote fd chunks) w ∧ write_outcome data offset status chunks r.

Lemma writing_now t fd data offset status poll w : I t w → 0 ≤ offset ≤ zlen data →
  match poll with PollReady s => (s = status ∧ offset = zlen data) ∨ s ≠ 0 | PollPending | PollBlocked _ => True | _ => False end →
  writing t fd data offset status (offset, poll) w.
Proof. intros HI Ho Hp. exists []. cbn [wrote map]. rewrite app_nil_r. split; [done|by apply write_outcome_now]. Qed.

Lemma stopped_at_ok t fd data offset status w : I t w → 0 ≤ offset ≤ zlen data →
  wp (stopped_at offset) w (writing t fd data offset status).
Proof.
  intros HI Ho. unfold stopped_at. apply wp_bind. eapply wp_mono; [by apply (st_stop_status t)|]. intros s w' [HI' Hs].
  apply wp_ret, writing_now; [done..|by right].
Qed.

(** What was written is a part of what was to be written. *)
Lemma writing_more t fd data offset n status chunk r w : 0 ≤ offset → 0 ≤ n → offset + n ≤ zlen data →
  chunk = data_slice data offset (offset + n) → writing (t ++ [TWrote fd chunk]) fd data (offset + n) status r w →
  writing t fd data offset status r w.
Proof.
  intros Ho Hn Hl Hc (chunks & HI & Hw). exists (chunk :: chunks). rewrite <-app_assoc in HI. split; [done|].
  by eapply write_outcome_more.
Qed.

Lemma write_rounds_ok rounds fd data offset quantum status t w : I t w → 0 ≤ offset ≤ zlen data → 0 ≤ quantum →
  quantum < Z.of_nat rounds → wp (write_rounds rounds fd data offset quantum status) w (writing t fd data offset status).
Proof.
  revert offset quantum t w. induction rounds as [|rounds IH]; intros offset quantum t w HI Ho Hq Hr; [lia|].
  cbn [write_rounds]. destruct (zlen data <=? offset) eqn:Hend.
  { apply Z.leb_le in Hend. apply wp_ret, writing_now; [done..|left; lia]. }
  apply Z.leb_gt in Hend. destruct (quantum =? 0) eqn:Hzero; [by apply wp_ret, writing_now|].
  apply Z.eqb_neq in Hzero. apply wp_bind. eapply wp_mono; [by apply (st_output_remaining t)|].
  intros left w1 [HI1 Hl]. cbv zeta. destruct (Z.min left quantum =? 0).
  { apply wp_bind. eapply wp_mono; [by apply (st_charge_output 1 t)|]. intros g w2 HI2. by apply stopped_at_ok. }
  apply wp_bind. eapply wp_mono; [by apply (st_write fd _ t)|]. intros r w2 [HI2 Hr2].
  destruct r as [[n|wait]|error].
  - cbn [ready_within write_event] in *. rewrite data_slice_length in Hr2 by lia.
    rewrite data_slice_take in HI2 by lia.
    destruct (n =? 0) eqn:Hn0.
    + apply Z.eqb_eq in Hn0 as ->. apply wp_ret. apply (writing_more _ _ _ _ 0 _ (data_slice data offset (offset + 0))); [lia..|done|].
      rewrite Z.add_0_r in *. apply writing_now; [done..|by right].
    + apply Z.eqb_neq in Hn0. destruct n as [|m|m]; [done| |lia].
      apply wp_bind. eapply wp_mono; [by apply (st_charge_cpu _ _ _ HI2)|]. intros granted w3 HI3.
      apply wp_bind. apply (wp_mono _ _ (λ _ w4, I (t ++ [TWrote fd (data_slice data offset (offset + Z.pos m))]) w4)).
      { destruct granted; [apply (st_charge_output _ _ _ HI3)|by apply wp_ret]. }
      intros granted' w4 HI4. eapply (wp_mono _ _ (writing _ fd data (offset + Z.pos m) status));
        [|intros r w5; apply writing_more; [lia..|done]].
      destruct granted'; cbn [negb]; [apply IH; [done|lia..]|apply stopped_at_ok; [done|lia]].
  - apply wp_ret. cbn [write_event] in HI2. rewrite app_nil_r in HI2. by apply writing_now.
  - apply wp_ret. cbn [write_event] in HI2. rewrite app_nil_r in HI2. apply writing_now; [done..|]. right.
    by destruct (is_broken error).
Qed.

(** [poll_write] returns; what it wrote goes on from [offset]. *)
Lemma poll_write_ok fd data offset status t w : I t w → 0 ≤ offset ≤ zlen data →
  wp (poll_write fd data offset status) w (writing t fd data offset status).
Proof. intros. by apply write_rounds_ok. Qed.

(** A program that goes on when all is written. *)
Lemma when_written_ok {P} fd data offset (kept : Z → P) k t w (Q : P * ShellPoll → W → Prop) : I t w → 0 ≤ offset ≤ zlen data →
  (∀ chunks w', I (t ++ wrote fd chunks) w' → concat chunks = data_slice data offset (zlen data) → wp (k (zlen data)) w' Q) →
  (∀ chunks offset' poll w', I (t ++ wrote fd chunks) w' → offset ≤ offset' ≤ zlen data →
     concat chunks = data_slice data offset offset' → poll ≠ PollReady 0 → Q (kept offset', poll) w') →
  wp (when_written fd data offset kept k) w Q.
Proof.
  intros HI Ho Hdone Hkept. unfold when_written. apply wp_bind. eapply wp_mono; [by apply poll_write_ok|].
  intros [offset' poll] w' (chunks & HI' & Hc & Hr & Hp). cbn [fst snd] in *.
  destruct poll as [|reason| | |s]; try (apply wp_ret; by eapply Hkept).
  destruct s as [|s|s]; try (apply wp_ret; by eapply Hkept).
  destruct Hp as [[_ Hp]|Hp]; [subst offset'|done]. by eapply Hdone.
Qed.

Lemma stop_poll_ok {P} (p : P) t w (Q : P * ShellPoll → W → Prop) : I t w →
  (∀ status w', I t w' → status ≠ 0 → Q (p, PollReady status) w') → wp (stop_poll p) w Q.
Proof.
  intros HI HQ. unfold stop_poll. apply wp_bind. eapply wp_mono; [by apply (st_stop_status t)|].
  intros s w' [HI' Hs]. apply wp_ret. by apply HQ.
Qed.

End writing.

(** ** A small system

    It reads its chunks in turn, writes three bytes at a time, and grants everything. *)

Abbreviation Small := (list bytes).

#[export] Instance small_system : System Small := {|
  sy_read fd maximum := λ chunks,
    match chunks with
    | [] => Ret ([], Ok (Ready []))
    | chunk :: chunks => Ret (chunks, Ok (Ready (take (Z.to_nat maximum) chunk)))
    end;
  sy_write fd data := mret (Ok (Ready (Z.min 3 (zlen data))));
  sy_open_file base path options := mret (Ok 3);
  sy_close fd := mret (Ok tt);
  sy_cwd := mret "/";
  sy_chdir path := mret (Ok tt);
  sy_is_directory base path := mret true;
  sy_canonicalize base path strict := mret (Ok path);
  sy_environment := mret ∅;
  sy_charge_cpu n := mret true;
  sy_reserve_memory n := mret true;
  sy_release_memory n := mret tt;
  sy_output_remaining := mret 1000000;
  sy_charge_output n := mret true;
  sy_stop_status := mret 137;
  sy_cpu_used := mret 0;
  sy_disk_used := mret 0;
  sy_record_command_usage name cpu disk := mret tt;
  sy_schedule_wake duration := mret (Ok duration);
  sy_monotonic_ns := mret (Ok 0);
  sy_spawn_argv spec := mret (Err SysNoSuchProcess);
  sy_exec_argv argv environment := mret (Err SysNoSuchProcess);
  sy_kill target signal := mret (Err SysNoSuchProcess);
  sy_ignore_signal signal := mret (Ok tt);
  sy_child_status pid := mret (Err SysNoSuchProcess);
  sy_reap_child pid := mret (Err SysNoSuchProcess)
|}.

#[export] Instance small_streams : Streams Small (λ _ _, True).
Proof.
  split; try (intros; apply wp_ret; done).
  - intros fd maximum t [|chunk chunks] _ Hm; (eapply wp_eq; [reflexivity|]; split; [done|]); cbn [ready_within].
    + cbn. lia.
    + rewrite length_take. lia.
  - intros fd data t w _. apply wp_ret. split; [done|]. cbn [ready_within]. lia.
Qed.
