(* ===== verification/FilterSpec.v ===== *)
(** * What [cat] and [head] print

    Over any system that keeps the promises of [Streams], and whatever the rest of the machine does
    between their polls: [cat] writes what it reads, numbered by lines when it is asked to, and
    [head] writes the first lines or bytes of it, no byte lost or repeated over partial writes,
    blocked writes and the ends of sources. *)

From S2P Require Import Prelude.
From S2P Require Import RustStr.
From S2P Require Import State.
From S2P Require Import Scheduler.
From S2P Require Import Descriptors.
From S2P Require Import Kernel.
From S2P Require Import LexerSpec.
From S2P Require Import ExecData.
From S2P Require Import ExecText.
From S2P Require Import ExpandText.
From S2P Require Import ProgramArgs.
From S2P Require Import ProgramSystem.
From S2P Require Import Filters.
From S2P Require Import StreamSpec.

(** ** Lines *)

(** The lines of a text, each with its line feed. *)
Fixpoint split_lines (data : bytes) : list bytes :=
  match data with
  | [] => []
  | b :: data =>
      if bool_decide (b = LINE_FEED) then [b] :: split_lines data
      else match split_lines data with [] => [[b]] | line :: lines => (b :: line) :: lines end
  end.

Fixpoint numbered_lines (n : Z) (lines : list bytes) : bytes :=
  match lines with [] => [] | line :: lines => to_bytes (line_number n) ++ line ++ numbered_lines (sat_add64 n 1) lines end.

(** What [cat] makes of its input. *)
Definition rendered (numbered : bool) (data : bytes) : bytes :=
  if numbered then numbered_lines 1 (split_lines data) else data.

Definition with_byte (b : Byte.byte) (lines : list bytes) : list bytes :=
  match lines with [] => [[b]] | line :: lines => (b :: line) :: lines end.

Lemma number_bytes_lines data : ∀ n,
  (number_bytes data n true).1.1 = numbered_lines n (split_lines data) ∧
  (number_bytes data n false).1.1 = match split_lines data with [] => [] | line :: lines => line ++ numbered_lines n lines end.
Proof.
  induction data as [|b data IH]; intros n; [done|]. cbn [number_bytes split_lines].
  assert (Hfalse : ∀ m, (let '(rest, next_line, at_line_start) := number_bytes data m (bool_decide (b = LINE_FEED)) in
                  b :: rest) = match (if bool_decide (b = LINE_FEED) then [b] :: split_lines data else with_byte b (split_lines data)) with
                  [] => [] | line :: lines => line ++ numbered_lines m lines end).
  { intros m. destruct (IH m) as [Ht Hf]. case_bool_decide.
    - destruct (number_bytes data m true) as [[rest next] start]. cbn [fst] in Ht. by rewrite Ht.
    - destruct (number_bytes data m false) as [[rest next] start]. cbn [fst] in Hf. rewrite Hf. unfold with_byte.
      by destruct (split_lines data). }
  split.
  - specialize (Hfalse (sat_add64 n 1)). destruct (number_bytes data (sat_add64 n 1) _) as [[rest next] start]. cbn [fst].
    rewrite Hfalse. unfold with_byte. case_bool_decide; [done|]. by destruct (split_lines data).
  - specialize (Hfalse n). destruct (number_bytes data n _) as [[rest next] start]. cbn [fst app].
    rewrite Hfalse. unfold with_byte. case_bool_decide; [done|]. by destruct (split_lines data).
Qed.

Lemma number_bytes_app a b n start : number_bytes (a ++ b) n start =
  let '(x, n, start) := number_bytes a n start in let '(y, n, start) := number_bytes b n start in (x ++ y, n, start).
Proof.
  revert n start. induction a as [|c a IH]; intros n start; [cbn; by destruct (number_bytes b n start) as [[]]|].
  cbn [app number_bytes]. destruct (if start then _ else _) as [prefix m]. rewrite IH.
  destruct (number_bytes a m _) as [[x n'] s']. destruct (number_bytes b n' s') as [[y n''] s'']. by rewrite <-app_assoc.
Qed.

Lemma rendered_numbered data : rendered true data = (number_bytes data 1 true).1.1.
Proof. symmetry. apply number_bytes_lines. Qed.

Lemma rendered_prefix numbered a b : rendered numbered a `prefix_of` rendered numbered (a ++ b).
Proof.
  destruct numbered; [|by exists b]. rewrite !rendered_numbered, number_bytes_app.
  destruct (number_bytes a 1 true) as [[x n] s]. destruct (number_bytes b n s) as [[y n'] s']. by exists y.
Qed.

(** ** Polls and what happens between them *)

Section polling.
Context {W : Type} {S : System W} (J : W → Prop) {P : Type} (poll : P → stm (W * Tape) (P * ShellPoll)).

Definition running (o : ShellPoll) : Prop := ∀ status, o ≠ PollReady status.

(** A program polled from its start: what it is, the tape and how the last poll ended. The world
    of a poll is any the rest of the machine may have made of it. *)
Inductive polled (start : P) : P → Tape → ShellPoll → Prop :=
| polled_start : polled start start [] PollPending
| polled_next p t o w w' p' t' o' : polled start p t o → running o → J w → poll p (w, t) = Ret ((w', t'), (p', o')) →
    polled start p' t' o'.

(** The rule: an invariant of the running program, and what it leaves at the end. *)
Lemma polled_rule (Inv : P → Tape → Prop) (End : P → Tape → Z → Prop) start p t o :
  Inv start [] →
  (∀ p t w, Inv p t → J w → wp (poll p) (w, t) (λ r x, match r.2 with PollReady s => End r.1 x.2 s | _ => Inv r.1 x.2 end)) →
  polled start p t o → match o with PollReady s => End p t s | _ => Inv p t end.
Proof.
  intros Hstart Hpoll Hp. induction Hp as [|p t o w w' p' t' o' Hp IH Ho HJ Heq]; [done|].
  assert (HI : Inv p t) by (destruct o; try done; by destruct (Ho status)).
  specialize (Hpoll p t w HI HJ). by apply (wp_Ret _ _ _ _ _ Hpoll Heq).
Qed.

(** Polls in a row, with nothing in between. *)
Fixpoint poll_times (n : nat) (x : W * Tape) (r : P * ShellPoll) : run (W * Tape * (P * ShellPoll)) :=
  match n, r.2 with
  | O, _ | _, PollReady _ => Ret (x, r)
  | Datatypes.S n, _ => '(x, r) ← poll r.1 x; poll_times n x r
  end.

Lemma poll_times_polled n start x p o x' r : (∀ w, J w) → polled start p x.2 o → poll_times n x (p, o) = Ret (x', r) →
  polled start r.1 x'.2 r.2.
Proof.
  intros HJ. revert x p o. induction n as [|n IH]; intros x p o Hp; cbn [poll_times snd fst].
  { by intros [= <- <-]. }
  assert (Hstep : running o → (y ← poll p x; let '(x, r) := y in poll_times n x r) = Ret (x', r) → polled start r.1 x'.2 r.2).
  { intros Ho. destruct x as [w t]. unfold mbind, run_bind. destruct (poll p (w, t)) as [[[w1 t1] [p1 o1]]| |] eqn:Hpoll; [|done..].
    apply IH. by eapply polled_next. }
  destruct o; try (apply Hstep; intros s; done). by intros [= <- <-].
Qed.

End polling.

(** ** Tapes of writes and reads *)

Lemma slice_then_drop data a b : 0 ≤ a → a ≤ b → b ≤ zlen data →
  data_slice data a b ++ drop (Z.to_nat b) data = drop (Z.to_nat a) data.
Proof.
  intros. unfold data_slice. rewrite <-(take_drop (Z.to_nat (b - a)) (drop (Z.to_nat a) data)) at 2.
  rewrite drop_drop. do 2 f_equal. lia.
Qed.

Lemma slice_to_end data a : 0 ≤ a ≤ zlen data → data_slice data a (zlen data) = drop (Z.to_nat a) data.
Proof. intros. unfold data_slice. apply take_ge. rewrite length_drop. lia. Qed.

(** The facts of a tape a program depends on, after writes. *)
Lemma output_wrote t chunks : tape_output 1 (t ++ wrote 1 chunks) = tape_output 1 t ++ concat chunks.
Proof. by rewrite tape_output_app, wrote_output. Qed.
Lemma output_diagnosed t chunks : tape_output 1 (t ++ wrote 2 chunks) = tape_output 1 t.
Proof. by rewrite tape_output_app, wrote_other, app_nil_r. Qed.
Lemma input_wrote t fd chunks : tape_input (t ++ wrote fd chunks) = tape_input t.
Proof. by rewrite tape_input_app, wrote_input, app_nil_r. Qed.
Lemma opened_wrote t fd chunks : tape_opened (t ++ wrote fd chunks) = tape_opened t.
Proof. by rewrite tape_opened_app, wrote_opened, app_nil_r. Qed.
Lemma ends_wrote t fd chunks : tape_ends (t ++ wrote fd chunks) = tape_ends t.
Proof. by rewrite tape_ends_app, wrote_ends, Nat.add_0_r. Qed.

Lemma tape_read t fd data : tape_input (t ++ [TRead fd data]) = tape_input t ++ data ∧
  tape_output 1 (t ++ [TRead fd data]) = tape_output 1 t ∧ tape_opened (t ++ [TRead fd data]) = tape_opened t.
Proof. rewrite tape_input_app, tape_output_app, tape_opened_app. unfold tape_input, tape_output, tape_opened. cbn. by rewrite !app_nil_r. Qed.
Lemma ends_read t fd data : tape_ends (t ++ [TRead fd data]) = (tape_ends t + match data with [] => 1 | _ => 0 end)%nat.
Proof. rewrite tape_ends_app. by destruct data. Qed.
Lemma tape_open t path : tape_input (t ++ [TOpened path]) = tape_input t ∧ tape_output 1 (t ++ [TOpened path]) = tape_output 1 t ∧
  tape_opened (t ++ [TOpened path]) = tape_opened t ++ [path] ∧ tape_ends (t ++ [TOpened path]) = tape_ends t.
Proof.
  rewrite tape_input_app, tape_output_app, tape_opened_app, tape_ends_app. unfold tape_input, tape_output, tape_opened. cbn.
  by rewrite !app_nil_r, Nat.add_0_r.
Qed.

#[export] Hint Rewrite output_wrote output_diagnosed input_wrote opened_wrote ends_wrote ends_read : tape.

(** ** [cat] *)

Definition files (sources : list string) : list string := filter (λ source, is_stdin source = false) sources.

Section cat.
Context {W : Type} {S : System W} (I : Tape → W → Prop) {HS : Streams W I}.
Context (operands : list string) (numbered : bool).

Definition selected_source (current : option (Z * bool)) : nat := match current with Some _ => 1 | None => 0 end.

(** What [cat] has read is written or pending, and each operand was opened and read to its end, is
    being read, or is to be read. *)
Record cat_inv (p : CatProcess) (t : Tape) : Prop := {
  ci_flag : ca_numbered p = numbered;
  ci_offset : 0 ≤ ca_offset p ≤ zlen (ca_pending p);
  ci_diagnostic : 0 ≤ ca_diagnostic_offset p ≤ zlen (ca_diagnostic p);
  ci_output : tape_output 1 t ++ drop (Z.to_nat (ca_offset p)) (ca_pending p) = rendered numbered (tape_input t);
  ci_lines : numbered = true → number_bytes (tape_input t) 1 true = (rendered true (tape_input t), ca_next_line p, ca_at_line_start p);
  ci_stop : ca_stop_after_diagnostic p = true → ca_status p ≠ 0;
  ci_opened : ca_status p = 0 → tape_opened t ++ files (ca_sources p) = files operands;
  ci_ends : ca_status p = 0 → (tape_ends t + selected_source (ca_current p) + length (ca_sources p))%nat = length operands;
  ci_bound : numbered = false → zlen (ca_pending p) ≤ 4096
}.

Definition cat_done (p : CatProcess) : Prop :=
  ca_pending p = [] ∧ ca_sources p = [] ∧ ca_current p = None ∧ ca_status p = 0.

Definition cat_end (p : CatProcess) (t : Tape) (status : Z) : Prop :=
  tape_output 1 t `prefix_of` rendered numbered (tape_input t) ∧ (status = 0 → cat_inv p t ∧ cat_done p).

Definition cat_left (r : CatProcess * ShellPoll) (w : W) : Prop :=
  ∃ t, I t w ∧ match r.2 with PollReady s => cat_end r.1 t s | _ => cat_inv r.1 t end.

Lemma cat_inv_prefix p t : cat_inv p t → tape_output 1 t `prefix_of` rendered numbered (tape_input t).
Proof. intros Hi. rewrite <-(ci_output _ _ Hi). by eexists. Qed.

(** A poll that is not a success leaves the invariant. *)
Lemma cat_leaves p t o w : I t w → cat_inv p t → o ≠ PollReady 0 → cat_left (p, o) w.
Proof.
  intros HI Hi Ho. exists t. split; [done|]. cbn [fst snd]. destruct o; try done. split; [by eapply cat_inv_prefix|]. by intros ->.
Qed.

(** The tape matters through what it says. *)
Lemma cat_inv_tape p t t' : tape_input t' = tape_input t → tape_output 1 t' = tape_output 1 t → tape_opened t' = tape_opened t →
  tape_ends t' = tape_ends t → cat_inv p t → cat_inv p t'.
Proof. intros E1 E2 E3 E4 []. split; try done; rewrite ?E1, ?E2, ?E3, ?E4; done. Qed.

Lemma cat_wrote p t offset chunks : cat_inv p t → ca_offset p ≤ offset ≤ zlen (ca_pending p) →
  concat chunks = data_slice (ca_pending p) (ca_offset p) offset →
  cat_inv (ca_with_pending p (ca_pending p) offset) (t ++ wrote 1 chunks).
Proof.
  intros [] Ho Hc. split; autorewrite with tape; try done; cbn [ca_with_pending ca_offset ca_pending]; [lia|].
  rewrite Hc, <-app_assoc, slice_then_drop by lia. done.
Qed.

Lemma cat_written p t chunks : cat_inv p t → concat chunks = data_slice (ca_pending p) (ca_offset p) (zlen (ca_pending p)) →
  cat_inv (ca_with_pending p [] 0) (t ++ wrote 1 chunks).
Proof.
  intros [] Hc. split; autorewrite with tape; try done; cbn [ca_with_pending ca_offset ca_pending].
  by rewrite Hc, slice_to_end, app_nil_r by lia.
Qed.

Lemma cat_pending_ok p t w : I t w → cat_inv p t →
  wp (when_written 1 (ca_pending p) (ca_offset p) (ca_with_pending p (ca_pending p))
        (λ _, mret (ca_with_pending p [] 0, PollPending))) w cat_left.
Proof.
  intros HI Hi. apply (when_written_ok I _ _ _ _ _ t); [done|apply Hi| |].
  - intros chunks w' HI' Hc. apply wp_ret. eapply cat_leaves; [exact HI'| |done]. by apply cat_written.
  - intros chunks offset poll w' HI' Ho Hc Hp. eapply cat_leaves; [exact HI'| |done]. by apply cat_wrote.
Qed.

Lemma cat_diagnose_ok p t w : I t w → cat_inv p t → wp (cat_diagnose p) w cat_left.
Proof.
  intros HI Hi. unfold cat_diagnose. apply wp_bind. eapply wp_mono; [apply (poll_write_ok I); [exact HI|apply Hi]|].
  intros [offset poll] w' (chunks & HI' & _ & Hr & Hp). cbn [fst snd] in *.
  assert (Hkept : cat_inv (ca_with_diagnostic p (ca_diagnostic p) offset) (t ++ wrote 2 chunks)).
  { destruct Hi. split; autorewrite with tape; try done. cbn [ca_with_diagnostic ca_diagnostic ca_diagnostic_offset]. lia. }
  assert (Hclear : cat_inv (ca_with_diagnostic p [] 0) (t ++ wrote 2 chunks)).
  { destruct Hi. split; autorewrite with tape; try done. }
  apply wp_ret. destruct poll as [|reason| | |s]; try (by eapply cat_leaves).
  destruct s as [|s|s]; try (by eapply cat_leaves).
  destruct (ca_stop_after_diagnostic p) eqn:Hstop; [|by eapply cat_leaves].
  exfalso. destruct Hp as [[Hp _]|Hp]; [|done]. by apply (ci_stop _ _ Hi).
Qed.

Lemma cat_failed p t message : cat_inv p t → ca_diagnostic_offset p = 0 → cat_inv (ca_fail p message) t.
Proof. intros [] Hd. split; try done. cbn [ca_fail ca_with_status ca_with_diagnostic ca_diagnostic_offset]. rewrite Hd. cbn. lia. Qed.

Lemma files_cons source sources : files (source :: sources) = if is_stdin source then files sources else source :: files sources.
Proof. unfold files. rewrite filter_cons. by destruct (is_stdin source). Qed.

Lemma cat_open_ok p t w : I t w → cat_inv p t → ca_pending p = [] → ca_diagnostic p = [] → ca_current p = None →
  wp (cat_open p) w cat_left.
Proof.
  intros HI Hi Hpend Hdiag Hcur. unfold cat_open. destruct (ca_sources p) as [|source sources] eqn:Hs.
  - apply wp_ret. exists t. split; [done|]. cbn [fst snd]. split; [by eapply cat_inv_prefix|]. by intros Hstatus.
  - destruct (is_stdin source) eqn:Hstd.
    + apply wp_ret. eapply cat_leaves; [exact HI| |done]. destruct Hi. split; try done.
      * intros E. rewrite <-(ci_opened0 E), Hs, files_cons, Hstd. done.
      * intros E. rewrite <-(ci_ends0 E), Hs, Hcur. cbn. lia.
    + apply wp_bind. eapply wp_mono; [by apply (st_cwd t)|]. intros base w1 HI1.
      apply wp_bind. eapply wp_mono; [by apply (st_open_file base source read_options t)|]. intros opened w2 HI2.
      apply wp_ret. eapply cat_leaves; [exact HI2| |done]. destruct opened as [fd|error]; cbn [open_event].
      * destruct (tape_open t source) as (E1 & E2 & E3 & E4). destruct Hi. split; try done; rewrite ?E1, ?E2, ?E3, ?E4; try done.
        -- intros E. rewrite <-(ci_opened0 E), Hs, files_cons, Hstd, <-app_assoc. done.
        -- intros E. rewrite <-(ci_ends0 E), Hs, Hcur. cbn. lia.
      * rewrite app_nil_r. destruct Hi. split; try done.
        cbn. destruct ci_diagnostic0 as [Hd1 Hd2]. rewrite Hdiag in Hd2. cbn in Hd2. lia.
Qed.

Lemma close_owned_ok fd owned t w : I t w → wp (close_owned fd owned) w (λ _ w', I t w').
Proof.
  intros HI. unfold close_owned. destruct owned; [|by apply wp_ret].
  apply wp_bind. eapply wp_mono; [by apply (st_close fd t)|]. intros r w' HI'. by apply wp_ret.
Qed.

Lemma cat_took p t fd data : cat_inv p t → ca_pending p = [] → data ≠ [] → (numbered = false → zlen data ≤ 4096) →
  cat_inv (cat_take p data) (t ++ [TRead fd data]).
Proof.
  intros Hi Hpend Hdata Hbound. destruct (tape_read t fd data) as (E1 & E2 & E3).
  assert (E4 : tape_ends (t ++ [TRead fd data]) = tape_ends t) by (rewrite ends_read; destruct data; [done|lia]).
  destruct Hi. assert (Hoff : ca_offset p = 0) by (rewrite Hpend in ci_offset0; cbn in ci_offset0; lia).
  rewrite Hpend, drop_nil, app_nil_r in ci_output0. unfold cat_take. rewrite ci_flag0. destruct numbered eqn:Hnum.
  - destruct (number_bytes data (ca_next_line p) (ca_at_line_start p)) as [[more n] start] eqn:Hn.
    assert (Hall : number_bytes (tape_input t ++ data) 1 true = (rendered true (tape_input t) ++ more, n, start)).
    { rewrite number_bytes_app, (ci_lines0 eq_refl), Hn. done. }
    assert (Hr : rendered true (tape_input t ++ data) = rendered true (tape_input t) ++ more) by (by rewrite rendered_numbered, Hall).
    split; rewrite ?E1, ?E2, ?E3, ?E4, ?Hnum; try done; cbn [ca_with_lines ca_with_pending ca_offset ca_pending]; rewrite ?Hpend, ?Hoff.
    + lia.
    + by rewrite Hr, ci_output0.
    + intros _. rewrite Hall, Hr. done.
  - split; rewrite ?E1, ?E2, ?E3, ?E4, ?Hnum; try done; cbn [ca_with_pending ca_offset ca_pending]; rewrite ?Hoff.
    + lia.
    + by rewrite ci_output0.
Qed.

Lemma cat_read_ok p fd owned t w : I t w → cat_inv p t → ca_pending p = [] → ca_diagnostic p = [] →
  ca_current p = Some (fd, owned) → wp (cat_read p fd owned) w cat_left.
Proof.
  intros HI Hi Hpend Hdiag Hcur. unfold cat_read. apply wp_bind.
  eapply wp_mono; [apply (st_read fd _ t); [exact HI|by destruct (ca_numbered p)]|]. intros r w1 [HI1 Hr].
  destruct r as [[data|wait]|error]; cbn [read_event ready_within] in *.
  - destruct data as [|b data].
    + apply wp_bind. eapply wp_mono; [by apply close_owned_ok|]. intros failed w2 HI2. apply wp_ret.
      eapply cat_leaves; [exact HI2| |done]. destruct (tape_read t fd []) as (E1 & E2 & E3). rewrite app_nil_r in E1.
      destruct Hi. destruct failed; split; rewrite ?E1, ?E2, ?E3, ?ends_read; try done.
      intros E. rewrite <-(ci_ends0 E), Hcur. cbn. lia.
    + apply wp_bind. eapply wp_mono; [by apply (st_charge_cpu _ _ _ HI1)|]. intros granted w2 HI2.
      destruct granted; cbn [negb].
      * apply wp_ret. eapply cat_leaves; [exact HI2| |done]. apply cat_took; [done..|]. intros E.
        rewrite (ci_flag _ _ Hi), E in Hr. lia.
      * apply (stop_poll_ok I _ _ _ _ HI2). intros s w3 HI3 Hs. eexists. split; [exact HI3|]. cbn [fst snd]. split; [|done].
        destruct (tape_read t fd (b :: data)) as (E1 & E2 & _). rewrite E1, E2.
        etrans; [by eapply cat_inv_prefix|apply rendered_prefix].
  - apply wp_ret. rewrite app_nil_r in HI1. by eapply cat_leaves.
  - apply wp_bind. rewrite app_nil_r in HI1. eapply wp_mono; [by apply close_owned_ok|]. intros _f w2 HI2. apply wp_ret.
    eapply cat_leaves; [exact HI2| |done]. destruct Hi. split; try done.
    cbn. destruct ci_diagnostic0 as [Hd1 Hd2]. rewrite Hdiag in Hd2. cbn in Hd2. lia.
Qed.

Lemma cat_poll_ok p t w : I t w → cat_inv p t → wp (cat_poll p) w cat_left.
Proof.
  intros HI Hi. unfold cat_poll. destruct (ca_pending p) as [|b pending] eqn:Hpend.
  - destruct (ca_diagnostic p) as [|d diagnostic] eqn:Hdiag; [|by eapply cat_diagnose_ok].
    destruct (ca_current p) as [[fd owned]|] eqn:Hcur; [by eapply cat_read_ok|by eapply cat_open_ok].
  - rewrite <-Hpend. by eapply cat_pending_ok.
Qed.

Lemma cat_inv_running p t o : running o → match o with PollReady s => cat_end p t s | _ => cat_inv p t end → cat_inv p t.
Proof. intros Ho. destruct o; try done. by destruct (Ho status). Qed.

End cat.

Lemma cat_new_inv args : cat_inv (ca_sources (cat_new args)) (ca_numbered (cat_new args)) (cat_new args) [].
Proof.
  unfold cat_new. destruct (cat_args true args [] false) as [[sources numbered] diagnostic].
  split; cbn; try done; try lia; [by destruct numbered|by intros ->].
Qed.

Lemma cat_polled {W} {S : System W} (J : W → Prop) {HS : Streams W (λ _, J)} args p t o :
  polled J cat_poll (cat_new args) p t o →
  match o with
  | PollReady s => cat_end (ca_sources (cat_new args)) (ca_numbered (cat_new args)) p t s
  | _ => cat_inv (ca_sources (cat_new args)) (ca_numbered (cat_new args)) p t
  end.
Proof.
  apply polled_rule; [apply cat_new_inv|]. intros p' t' w Hi HJ.
  eapply wp_mono; [by apply (cat_poll_ok (λ t x, J x.1 ∧ x.2 = t) (ca_sources (cat_new args)) (ca_numbered (cat_new args)) p' t' (w, t'))|]. by intros r [w' t''] (t1 & [HJ' <-] & Hr).
Qed.

(** C10: Over any system that keeps its promises, whatever the rest of the machine does between the
    polls of [cat], and however its writes are split or blocked: what it wrote is a prefix of its
    input, with its lines numbered if that was asked for; while it runs, the prefix and what is
    pending are exactly its input so far, no more than a chunk is pending without numbering, and
    the next poll returns; when it ends with success it wrote all of its input, opened its file
    operands in order and read every operand to its end. *)
Theorem cat_copies {W} {S : System W} (J : W → Prop) {HS : Streams W (λ _, J)} args p t o :
  polled J cat_poll (cat_new args) p t o →
  let numbered := ca_numbered (cat_new args) in
  let operands := ca_sources (cat_new args) in
  tape_output 1 t `prefix_of` rendered numbered (tape_input t) ∧
  (running o →
     tape_output 1 t ++ drop (Z.to_nat (ca_offset p)) (ca_pending p) = rendered numbered (tape_input t) ∧
     (numbered = false → zlen (ca_pending p) ≤ 4096) ∧ ∀ w, J w → wp (cat_poll p) (w, t) (λ _ x, J x.1)) ∧
  (o = PollReady 0 → tape_output 1 t = rendered numbered (tape_input t) ∧ tape_opened t = files operands ∧
     tape_ends t = length operands).
Proof.
  intros Hp. pose proof (cat_polled J args p t o Hp) as Hi. cbv zeta. split; [|split].
  - destruct o; try (by eapply cat_inv_prefix). apply Hi.
  - intros Ho. apply cat_inv_running in Hi; [|done]. split; [apply Hi|]. split; [apply Hi|]. intros w HJ.
    eapply wp_mono; [by apply (cat_poll_ok (λ t x, J x.1 ∧ x.2 = t) (ca_sources (cat_new args)) (ca_numbered (cat_new args)) p t (w, t))|]. by intros r [w' t''] (t1 & [HJ' _] & _).
  - intros ->. destruct Hi as [_ Hi]. destruct (Hi eq_refl) as [[] (E1 & E2 & E3 & E4)].
    rewrite E1, drop_nil, app_nil_r in ci_output0. specialize (ci_opened0 E4). specialize (ci_ends0 E4).
    rewrite E2, app_nil_r in ci_opened0. rewrite E2, E3 in ci_ends0. cbn in ci_ends0. rewrite !Nat.add_0_r in ci_ends0. done.
Qed.

Definition small_chunks : Small := [to_bytes "one"; to_bytes (" two" +:+ newline +:+ "three")].

Lemma cat_copies_witness : ∃ p t,
  polled (λ _ : Small, True) cat_poll (cat_new ["-n"]) p t (PollReady 0) ∧
  tape_output 1 t = to_bytes ("     1" +:+ tab +:+ "one two" +:+ newline +:+ "     2" +:+ tab +:+ "three") ∧
  tape_output 1 t = rendered true (tape_input t).
Proof.
  assert (Hrun : ∃ x p, poll_times cat_poll 20 (small_chunks, []) (cat_new ["-n"], PollPending) = Ret (x, (p, PollReady 0)) ∧
    tape_output 1 x.2 = to_bytes ("     1" +:+ tab +:+ "one two" +:+ newline +:+ "     2" +:+ tab +:+ "three")).
  { eexists _, _. split; [vm_compute; reflexivity|vm_compute; reflexivity]. }
  destruct Hrun as (x & p & Hrun & Ht). exists p, x.2.
  assert (Hp : polled (λ _ : Small, True) cat_poll (cat_new ["-n"]) p x.2 (PollReady 0)).
  { exact (poll_times_polled _ _ 20 (cat_new ["-n"]) (small_chunks, []) (cat_new ["-n"]) PollPending x (p, PollReady 0)
      (λ _, I) (polled_start _ _ _) Hrun). }
  split; [exact Hp|]. split; [exact Ht|].
  exact (proj1 (proj2 (proj2 (cat_copies (λ _ : Small, True) ["-n"] p x.2 (PollReady 0) Hp)) eq_refl)).
Defined.

(** ** [head] *)

Fixpoint feeds (data : bytes) : nat :=
  match data with [] => 0 | b :: data => (if bool_decide (b = LINE_FEED) then 1 else 0) + feeds data end.

(** The part [head] wants: so many bytes, or so many lines. *)
Definition wanted (byte_limit : option Z) (line_limit : Z) (data : bytes) : bytes :=
  match byte_limit with
  | Some n => take (Z.to_nat n) data
  | None => concat (take (Z.to_nat line_limit) (split_lines data))
  end.

(** No more input can change it. *)
Definition enough (byte_limit : option Z) (line_limit : Z) (data : bytes) : Prop :=
  match byte_limit with Some n => n ≤ zlen data | None => line_limit ≤ Z.of_nat (feeds data) end.

Lemma feeds_app a b : feeds (a ++ b) = (feeds a + feeds b)%nat.
Proof. induction a as [|c a IH]; [done|]. cbn [app feeds]. lia. Qed.

Lemma concat_with_byte k c lines : concat (take (S k) (with_byte c lines)) = c :: concat (take (S k) lines).
Proof. destruct lines; [|done]. cbn. by rewrite take_nil. Qed.

Lemma first_lines_app a b : ∀ k,
  ((feeds a < k)%nat → concat (take k (split_lines (a ++ b))) = a ++ concat (take (k - feeds a) (split_lines b))) ∧
  ((k ≤ feeds a)%nat → concat (take k (split_lines (a ++ b))) = concat (take k (split_lines a))).
Proof.
  induction a as [|c a IH]; intros k.
  { split; cbn [feeds app]; intros Hk; [by rewrite Nat.sub_0_r|]. by replace k with 0%nat by lia. }
  destruct k as [|k]; [split; [lia|done]|]. cbn [app feeds split_lines]. fold (with_byte c (split_lines (a ++ b))).
  fold (with_byte c (split_lines a)). case_bool_decide.
  - destruct (IH k) as [H1 H2]. split; intros Hk; cbn [take concat app Nat.add].
    + rewrite H1 by lia. done.
    + rewrite H2 by lia. done.
  - destruct (IH (S k)) as [H1 H2]. rewrite !concat_with_byte. split; intros Hk; [rewrite H1 by lia; done|by rewrite H2 by lia].
Qed.

Lemma take_lines_eq data : ∀ lines, 1 ≤ lines →
  take_lines data lines = (concat (take (Z.to_nat lines) (split_lines data)), Z.max 0 (lines - Z.of_nat (feeds data))).
Proof.
  induction data as [|b data IH]; intros lines Hl.
  { cbn [take_lines split_lines feeds]. rewrite take_nil. f_equal. lia. }
  cbn [take_lines split_lines feeds]. fold (with_byte b (split_lines data)). case_bool_decide.
  - subst b. replace (Z.to_nat lines) with (S (Z.to_nat (lines - 1))) by lia. destruct (lines - 1 =? 0) eqn:Hone.
    + apply Z.eqb_eq in Hone. rewrite Hone. cbn [take concat app Z.to_nat]. f_equal. lia.
    + apply Z.eqb_neq in Hone. rewrite IH by lia. cbn [take concat app]. f_equal. lia.
  - rewrite IH by lia. replace (Z.to_nat lines) with (S (Z.to_nat (lines - 1))) by lia. rewrite concat_with_byte. f_equal.
Qed.

Section wanted.
Context (bl : option Z) (ll : Z).

Lemma wanted_enough a b : enough bl ll a → wanted bl ll (a ++ b) = wanted bl ll a.
Proof.
  unfold enough, wanted. destruct bl as [n|]; intros He; [|apply first_lines_app; lia].
  rewrite take_app_le by lia. done.
Qed.

(** Before there is enough everything is wanted. *)
Lemma wanted_more a b : ¬ enough bl ll a →
  wanted bl ll a = a ∧ wanted bl ll (a ++ b) = a ++ wanted ((λ n, n - zlen a) <$> bl) (ll - Z.of_nat (feeds a)) b.
Proof.
  unfold enough, wanted. destruct bl as [n|]; cbn [fmap option_fmap option_map]; intros He.
  - split; [apply take_ge; lia|]. rewrite take_app_ge by lia. do 2 f_equal. lia.
  - destruct (first_lines_app a [] (Z.to_nat ll)) as [H0 _]. rewrite app_nil_r in H0. split.
    + rewrite H0 by lia. cbn [split_lines]. by rewrite take_nil, app_nil_r.
    + destruct (first_lines_app a b (Z.to_nat ll)) as [H1 _]. rewrite H1 by lia. do 3 f_equal. lia.
Qed.

Lemma enough_dec data : enough bl ll data ∨ ¬ enough bl ll data.
Proof. unfold enough. destruct bl; lia. Qed.

Lemma wanted_prefix a b : wanted bl ll a `prefix_of` wanted bl ll (a ++ b).
Proof.
  destruct (enough_dec a) as [He|He]; [by rewrite wanted_enough|]. destruct (wanted_more a b He) as [-> ->]. by eexists.
Qed.
End wanted.

Section head.
Context {W : Type} {S : System W} (I : Tape → W → Prop) {HS : Streams W I}.
Context (source : string) (bl : option Z) (ll : Z).
Context (Hbl : ∀ n, bl = Some n → 0 ≤ n) (Hll : 0 ≤ ll).

Definition over (p : HeadProcess) (t : Tape) : Prop :=
  he_status p ≠ 0 ∨ (0 < tape_ends t)%nat ∨ enough bl ll (tape_input t).

(** What is left to take of the source. *)
Definition tracks (p : HeadProcess) (t : Tape) : Prop :=
  match bl with
  | Some n => he_bytes_remaining p = Some (n - zlen (tape_input t)) ∧ zlen (tape_input t) ≤ n
  | None => he_bytes_remaining p = None ∧ he_lines_remaining p = Z.max 0 (ll - Z.of_nat (feeds (tape_input t)))
  end.

Definition placed (p : HeadProcess) (t : Tape) : Prop :=
  match he_current p, he_sources p with
  | None, [] => he_finished_source p = false ∧ over p t
  | None, [s] => s = source ∧ he_finished_source p = false ∧ tape_input t = []
  | Some _, [] => tracks p t ∧ (he_finished_source p = true → over p t)
  | _, _ => False
  end.

(** The wanted part of what was read is written or pending; a source is to be opened, is being
    read, or is over. *)
Record head_inv (p : HeadProcess) (t : Tape) : Prop := {
  hi_modes : he_multiple p = false ∧ he_invalid p = false;
  hi_limits : he_byte_limit p = bl ∧ he_line_limit p = ll;
  hi_offset : 0 ≤ he_offset p ≤ zlen (he_pending p);
  hi_diagnostic : 0 ≤ he_diagnostic_offset p ≤ zlen (he_diagnostic p);
  hi_output : tape_output 1 t ++ drop (Z.to_nat (he_offset p)) (he_pending p) = wanted bl ll (tape_input t);
  hi_placed : placed p t
}.

Definition head_end (p : HeadProcess) (t : Tape) (status : Z) : Prop :=
  tape_output 1 t `prefix_of` wanted bl ll (tape_input t) ∧
  (status = 0 → tape_output 1 t = wanted bl ll (tape_input t) ∧ ((0 < tape_ends t)%nat ∨ enough bl ll (tape_input t))).

Definition head_left (r : HeadProcess * ShellPoll) (w : W) : Prop :=
  ∃ t, I t w ∧ match r.2 with PollReady s => head_end r.1 t s | _ => head_inv r.1 t end.

Lemma head_inv_prefix p t : head_inv p t → tape_output 1 t `prefix_of` wanted bl ll (tape_input t).
Proof. intros Hi. rewrite <-(hi_output _ _ Hi). by eexists. Qed.

Lemma head_leaves p t o w : I t w → head_inv p t → o ≠ PollReady 0 → head_left (p, o) w.
Proof.
  intros HI Hi Ho. exists t. split; [done|]. cbn [fst snd]. destruct o; try done. split; [by eapply head_inv_prefix|]. by intros ->.
Qed.

(** Where a program is depends on few of its fields, and on what the tape says. *)
Lemma placed_same p p' t t' : he_current p' = he_current p → he_sources p' = he_sources p →
  he_finished_source p' = he_finished_source p → he_bytes_remaining p' = he_bytes_remaining p →
  he_lines_remaining p' = he_lines_remaining p → he_status p' = he_status p →
  tape_input t' = tape_input t → tape_ends t' = tape_ends t → placed p t → placed p' t'.
Proof. unfold placed, tracks, over. intros -> -> -> -> -> -> -> ->. done. Qed.

Lemma head_wrote p t offset chunks : head_inv p t → he_offset p ≤ offset ≤ zlen (he_pending p) →
  concat chunks = data_slice (he_pending p) (he_offset p) offset →
  head_inv (he_with_pending p (he_pending p) offset) (t ++ wrote 1 chunks).
Proof.
  intros [] Ho Hc. split; autorewrite with tape; try done; cbn [he_with_pending he_offset he_pending]; [lia| |].
  - rewrite Hc, <-app_assoc, slice_then_drop by lia. done.
  - eapply placed_same; [..|exact hi_placed0]; autorewrite with tape; done.
Qed.

Lemma head_written p t chunks : head_inv p t → concat chunks = data_slice (he_pending p) (he_offset p) (zlen (he_pending p)) →
  head_inv (he_with_pending p [] 0) (t ++ wrote 1 chunks).
Proof.
  intros [] Hc. split; autorewrite with tape; try done; cbn [he_with_pending he_offset he_pending].
  - by rewrite Hc, slice_to_end, app_nil_r by lia.
  - eapply placed_same; [..|exact hi_placed0]; autorewrite with tape; done.
Qed.

Lemma head_pending_ok p t w : I t w → head_inv p t →
  wp (when_written 1 (he_pending p) (he_offset p) (he_with_pending p (he_pending p))
        (λ _, mret (he_with_pending p [] 0, PollPending))) w head_left.
Proof.
  intros HI Hi. apply (when_written_ok I _ _ _ _ _ t); [done|apply Hi| |].
  - intros chunks w' HI' Hc. apply wp_ret. eapply head_leaves; [exact HI'| |done]. by apply head_written.
  - intros chunks offset poll w' HI' Ho Hc Hp. eapply head_leaves; [exact HI'| |done]. by apply head_wrote.
Qed.

Lemma head_diagnosed p t diagnostic offset chunks : head_inv p t → 0 ≤ offset ≤ zlen diagnostic →
  head_inv (he_with_diagnostic p diagnostic offset) (t ++ wrote 2 chunks).
Proof.
  intros [] Ho. split; autorewrite with tape; try done. eapply placed_same; [..|exact hi_placed0]; autorewrite with tape; done.
Qed.

Lemma head_diagnose_ok p t w : I t w → head_inv p t →
  wp (when_written 2 (he_diagnostic p) (he_diagnostic_offset p) (he_with_diagnostic p (he_diagnostic p))
        (λ _, mret (he_with_diagnostic p [] 0, if he_invalid p then PollReady (he_status p) else PollPending))) w head_left.
Proof.
  intros HI Hi. apply (when_written_ok I _ _ _ _ _ t); [done|apply Hi| |].
  - intros chunks w' HI' Hc. apply wp_ret. rewrite (proj2 (hi_modes _ _ Hi)). eapply head_leaves; [exact HI'| |done].
    apply head_diagnosed; [done|cbn; lia].
  - intros chunks offset poll w' HI' Ho Hc Hp. eapply head_leaves; [exact HI'| |done]. apply head_diagnosed; [done|].
    destruct (hi_diagnostic _ _ Hi). lia.
Qed.

Lemma exhausted_enough p t : tracks p t → head_exhausted p = true ↔ enough bl ll (tape_input t).
Proof.
  unfold tracks, head_exhausted, enough. destruct bl as [n|].
  - intros [-> Hn]. rewrite Z.eqb_eq. lia.
  - intros [-> ->]. rewrite Z.eqb_eq. lia.
Qed.

Lemma head_finish_ok p t w : I t w → head_inv p t → he_finished_source p = true → wp (head_finish p) w head_left.
Proof.
  intros HI Hi Hf. unfold head_finish. apply wp_bind. apply (wp_mono _ _ (λ _ w', I t w')).
  { destruct (he_current p) as [[fd owned]|]; [by apply (close_owned_ok I)|by apply wp_ret]. }
  intros failed w1 HI1. apply wp_ret. eapply head_leaves; [exact HI1| |done]. destruct Hi.
  split; try (by destruct failed). unfold placed in *. destruct (he_current p) as [[]|] eqn:Hc.
  - destruct (he_sources p) eqn:Hs; [|done]. destruct hi_placed0 as [_ Ho]. specialize (Ho Hf).
    destruct failed; cbn; rewrite Hs; (split; [done|]); [by left|exact Ho].
  - destruct (he_sources p) as [|s [|]]; [|destruct hi_placed0 as (_ & Hn & _)|done]; [destruct hi_placed0 as [Hn _]|]; congruence.
Qed.

Lemma head_selects_source p t current : head_inv p t → he_current p = None → he_pending p = [] →
  he_sources p = [] ∨ he_sources p = [source] → tape_input t = [] →
  head_inv (head_select (he_with_sources p []) source current) t.
Proof.
  intros [[Hm Hv] [Hb Hl] Hof Hd Hout Hp] Hc Hpend Hs Hin. split; try done; unfold head_select; cbn -[zlen].
  - rewrite Hm, app_nil_r. cbn -[zlen]. exact Hof.
  - rewrite Hm, app_nil_r. exact Hout.
  - unfold placed, tracks. cbn. rewrite Hin, Hb, Hl. split.
    + destruct bl as [n|]; cbn; [split; [f_equal; lia|by apply Hbl]|split; [done|lia]].
    + intros Hf. exfalso. unfold placed in Hp. rewrite Hc in Hp. destruct Hs as [Hs|Hs]; rewrite Hs in Hp; cbn in *; destruct_and?; congruence.
Qed.

Lemma head_took p t fd data : head_inv p t → he_pending p = [] → tracks p t → ¬ enough bl ll (tape_input t) → data ≠ [] →
  (∀ n, he_bytes_remaining p = Some n → zlen data ≤ n) → is_Some (he_current p) → he_sources p = [] → he_finished_source p = false →
  head_inv (head_take p data) (t ++ [TRead fd data]).
Proof.
  intros [] Hpend Ht He Hdata Hmax Hcur Hs Hf. destruct (tape_read t fd data) as (E1 & E2 & _).
  assert (Hoff : he_offset p = 0) by (rewrite Hpend in hi_offset0; cbn in hi_offset0; lia).
  rewrite Hpend, drop_nil, app_nil_r in hi_output0. destruct (wanted_more bl ll (tape_input t) data He) as [Hw Hwa].
  unfold head_take. set (chosen := match he_bytes_remaining p with Some _ => _ | None => _ end).
  destruct chosen as [[taken br] lr] eqn:Hchosen. subst chosen.
  assert (Hall : taken = wanted ((λ n, n - zlen (tape_input t)) <$> bl) (ll - Z.of_nat (feeds (tape_input t))) data ∧
    match bl with
    | Some n => br = Some (n - zlen (tape_input t ++ data)) ∧ zlen (tape_input t ++ data) ≤ n
    | None => br = None ∧ lr = Z.max 0 (ll - Z.of_nat (feeds (tape_input t ++ data)))
    end).
  { unfold tracks, enough in *. destruct bl as [n|]; cbn [fmap option_fmap option_map wanted].
    - destruct Ht as [Hr Hn]. rewrite Hr in Hchosen. specialize (Hmax _ Hr). injection Hchosen as <- <- <-.
      rewrite length_app. split; [by rewrite !take_ge by lia|]. split; [f_equal; lia|lia].
    - destruct Ht as [Hr Hn]. rewrite Hr, Hn, take_lines_eq in Hchosen by lia. injection Hchosen as <- <- <-.
      rewrite feeds_app. split; [do 3 f_equal; lia|]. split; [done|lia]. }
  destruct Hall as [-> Htr]. set (q := he_with_remaining _ br lr).
  assert (Hq : tracks q (t ++ [TRead fd data])) by (unfold tracks; rewrite E1; exact Htr).
  assert (Hcases : head_inv q (t ++ [TRead fd data]) ∧ (head_exhausted q = true → enough bl ll (tape_input (t ++ [TRead fd data])))).
  { split; [|by apply exhausted_enough]. split; try done; rewrite ?E1, ?E2; cbn [q he_with_remaining he_with_pending he_offset he_pending].
    - rewrite Hoff. lia.
    - rewrite Hoff, Hpend, Hwa, hi_output0, Hw. done.
    - unfold placed. cbn. destruct Hcur as [c Hc]. rewrite Hc, Hs. split; [exact Hq|]. by rewrite Hf. }
  destruct Hcases as [Hi Hex]. destruct (head_exhausted q) eqn:Hx; [|exact Hi]. destruct Hi. split; try done.
  unfold placed. cbn. destruct Hcur as [c Hc]. rewrite Hc, Hs. split; [exact Hq|]. intros _. right. right. by apply Hex.
Qed.

Lemma head_open_ok p t w : I t w → head_inv p t → he_pending p = [] → he_diagnostic p = [] → he_current p = None →
  wp (head_open p) w head_left.
Proof.
  intros HI Hi Hpend Hdiag Hcur. pose proof (hi_placed _ _ Hi) as Hp. unfold placed in Hp. rewrite Hcur in Hp.
  pose proof (hi_output _ _ Hi) as Hout. rewrite Hpend, drop_nil, app_nil_r in Hout.
  unfold head_open. destruct (he_sources p) as [|s [|]] eqn:Hs; [| |done].
  - apply wp_ret. exists t. split; [done|]. cbn [fst snd]. split; [by eapply head_inv_prefix|]. intros Hst. split; [done|].
    destruct Hp as [_ [Hp|Hp]]; [done|exact Hp].
  - destruct Hp as (-> & Hf & Hin). destruct (is_stdin source) eqn:Hstd.
    + apply wp_ret. eapply head_leaves; [exact HI| |done]. apply head_selects_source; eauto.
    + apply wp_bind. eapply wp_mono; [by apply (st_cwd t)|]. intros base w1 HI1.
      apply wp_bind. eapply wp_mono; [by apply (st_open_file base source read_options t)|]. intros opened w2 HI2.
      apply wp_ret. eapply head_leaves; [exact HI2| |done]. destruct (tape_open t source) as (E1 & E2 & E3 & E4).
      destruct opened as [fd|error]; cbn [open_event].
      * apply head_selects_source; [|done|done|by right|by rewrite E1]. destruct Hi.
        split; rewrite ?E1, ?E2; try done. eapply placed_same; [..|exact hi_placed0]; done.
      * rewrite app_nil_r. destruct Hi. split; try done.
        -- cbn -[zlen]. destruct hi_diagnostic0 as [Hd1 Hd2]. rewrite Hdiag in Hd2. cbn in Hd2. lia.
        -- unfold placed. cbn. rewrite Hcur. split; [done|]. by left.
Qed.

(** The source is over for a reason. *)
Lemma head_over p p' t t' : head_inv p t → is_Some (he_current p) → he_sources p = [] →
  tape_input t' = tape_input t → tape_output 1 t' = tape_output 1 t → over p' t' → tracks p t →
  p' = he_with_current p (he_current p) true ∨ (∃ d, he_diagnostic p = [] ∧
    p' = he_with_current (he_with_status (he_with_diagnostic p d (he_diagnostic_offset p)) 1) (he_current p) true) → head_inv p' t'.
Proof.
  intros [] [c Hc] Hs E1 E2 Ho Ht Hp'. assert (Htr : tracks p t') by (unfold tracks; by rewrite E1).
  destruct Hp' as [->|(d & Hd & ->)]; split; rewrite ?E1, ?E2; try done.
  - unfold placed. cbn. rewrite Hc, Hs. done.
  - cbn -[zlen]. destruct hi_diagnostic0 as [Hd1 Hd2]. rewrite Hd in Hd2. cbn in Hd2. lia.
  - unfold placed. cbn. rewrite Hc, Hs. done.
Qed.

Lemma head_read_ok p fd owned t w : I t w → head_inv p t → he_pending p = [] → he_diagnostic p = [] →
  he_current p = Some (fd, owned) → he_sources p = [] → he_finished_source p = false → tracks p t → head_exhausted p = false →
  wp (head_read p fd owned) w head_left.
Proof.
  intros HI Hi Hpend Hdiag Hcur Hs Hf Ht Hx.
  assert (He : ¬ enough bl ll (tape_input t)) by (rewrite <-(exhausted_enough p t Ht), Hx; done).
  assert (Hmax : 0 ≤ Z.min (default 4096 (he_bytes_remaining p)) 4096).
  { unfold tracks in Ht. destruct bl as [n|]; destruct Ht as [-> Ht]; cbn [default from_option]; unfold id; lia. }
  unfold head_read. apply wp_bind. eapply wp_mono; [by apply (st_read fd _ t)|]. intros r w1 [HI1 Hr].
  destruct r as [[data|wait]|error]; cbn [read_event ready_within] in *.
  - destruct (tape_read t fd data) as (E1 & E2 & _). destruct data as [|b data].
    + apply wp_ret. eapply head_leaves; [exact HI1| |done]. rewrite app_nil_r in E1. eapply (head_over p); eauto.
      right. left. rewrite ends_read. lia.
    + apply wp_bind. eapply wp_mono; [by apply (st_charge_cpu _ _ _ HI1)|]. intros granted w2 HI2. destruct granted; cbn [negb].
      * apply wp_ret. eapply head_leaves; [exact HI2| |done]. apply head_took; eauto.
        intros n Hn. rewrite Hn in Hr. cbn [default from_option] in Hr. unfold id in Hr. lia.
      * apply (stop_poll_ok I _ _ _ _ HI2). intros s w3 HI3 Hs3. eexists. split; [exact HI3|]. cbn [fst snd]. split; [|done].
        rewrite E1, E2. etrans; [by eapply head_inv_prefix|apply wanted_prefix].
  - apply wp_ret. rewrite app_nil_r in HI1. by eapply head_leaves.
  - apply wp_ret. rewrite app_nil_r in HI1. eapply head_leaves; [exact HI1| |done]. eapply (head_over p); eauto. by left.
Qed.

Lemma head_poll_ok p t w : I t w → head_inv p t → wp (head_poll p) w head_left.
Proof.
  intros HI Hi. unfold head_poll. destruct (he_pending p) as [|b pending] eqn:Hpend; [|rewrite <-Hpend; by eapply head_pending_ok].
  destruct (he_diagnostic p) as [|d diagnostic] eqn:Hdiag; [|rewrite <-Hdiag; by eapply head_diagnose_ok].
  destruct (he_finished_source p) eqn:Hf; [by eapply head_finish_ok|].
  destruct (he_current p) as [[fd owned]|] eqn:Hcur; [|by eapply head_open_ok].
  pose proof (hi_placed _ _ Hi) as Hp. unfold placed in Hp. rewrite Hcur in Hp. destruct (he_sources p) eqn:Hs; [|done].
  destruct Hp as [Ht _]. destruct (head_exhausted p) eqn:Hx; [|by eapply head_read_ok].
  apply wp_ret. eapply head_leaves; [exact HI| |done]. rewrite <-Hcur. eapply (head_over p); eauto. right. right. by apply (exhausted_enough p).
Qed.

Lemma head_inv_running p t o : running o → match o with PollReady s => head_end p t s | _ => head_inv p t end → head_inv p t.
Proof. intros Ho. destruct o; try done. by destruct (Ho status). Qed.

End head.

Lemma parse_unsigned_nonneg maximum s n : parse_unsigned maximum s = Some n → 0 ≤ n.
Proof.
  unfold parse_unsigned, decimal. destruct (match s with String c rest => _ | _ => _ end) as [|c digits]; [done|].
  destruct (decimal_value (String c digits) 0) as [v|] eqn:Hv; [|done]. cbn. case_match; [|done]. intros [= <-].
  by eapply decimal_value_nonneg in Hv.
Qed.

Definition limits_ok (o : HeadOptions) : Prop := 0 ≤ ho_lines o ∧ ∀ n, ho_bytes o = Some n → 0 ≤ n.

Lemma head_lines_ok o value shown o' : head_lines o value shown = Ok o' → limits_ok o'.
Proof.
  unfold head_lines. destruct (parse_unsigned U64_MAX value) as [n|] eqn:Hn; [|done]. intros [= <-].
  split; [by eapply parse_unsigned_nonneg|done].
Qed.

Lemma head_bytes_ok o value o' : limits_ok o → head_bytes o value = Ok o' → limits_ok o'.
Proof.
  intros [Hl _]. unfold head_bytes. destruct (parse_unsigned U64_MAX value) as [n|] eqn:Hn; [|done]. intros [= <-].
  split; [done|]. intros m [= <-]. by eapply parse_unsigned_nonneg.
Qed.

Lemma head_file_ok o file : limits_ok o → limits_ok (head_file o file).
Proof. done. Qed.

Lemma result_bind_Ok {E A B} (r : result E A) (k : A → result E B) b : r ≫= k = Ok b → ∃ a, r = Ok a ∧ k a = Ok b.
Proof. destruct r; [eauto|done]. Qed.

Lemma head_args_ok (m : nat) : ∀ operands args o o', (length args ≤ m)%nat → limits_ok o → head_args operands args o = Ok o' → limits_ok o'.
Proof.
  induction m as [|m IH]; intros operands [|arg args] o o' Hm Ho; cbn [head_args length] in *; try lia; try (by intros [= <-]).
  assert (Hgo : ∀ operands' args' o1, (length args' ≤ m)%nat → limits_ok o1 → head_args operands' args' o1 = Ok o' → limits_ok o')
    by (intros; by eapply IH).
  repeat case_match; subst; cbn [length] in *; intros Heq; try done.
  all: try (apply result_bind_Ok in Heq as (o1 & E1 & Heq)).
  all: eapply Hgo; [..|exact Heq]; try lia; try (by apply head_file_ok).
  all: first [assumption|by eapply head_lines_ok|by eapply head_bytes_ok].
Qed.

Lemma parse_head_options_ok args o : parse_head_options args = Ok o → limits_ok o.
Proof. apply (head_args_ok (length args)); [done|]. split; [cbn; lia|done]. Qed.

Lemma head_new_inv args o : parse_head_options args = Ok o → (length (ho_files o) ≤ 1)%nat →
  head_inv (default "-" (head (ho_files o))) (ho_bytes o) (ho_lines o) (head_new args) [].
Proof.
  intros Ho Hf. unfold head_new. rewrite Ho. destruct (ho_files o) as [|file [|]]; cbn in Hf; [| |lia].
  all: split; try done; try (cbn; lia); cbn [he_pending he_offset tape_input]; unfold wanted; destruct (ho_bytes o); cbn;
    by rewrite ?take_nil.
Qed.

Lemma head_polled {W} {S : System W} (J : W → Prop) {HS : Streams W (λ _, J)} args o p t outcome :
  parse_head_options args = Ok o → (length (ho_files o) ≤ 1)%nat → polled J head_poll (head_new args) p t outcome →
  match outcome with
  | PollReady s => head_end (ho_bytes o) (ho_lines o) p t s
  | _ => head_inv (default "-" (head (ho_files o))) (ho_bytes o) (ho_lines o) p t
  end.
Proof.
  intros Ho Hf. destruct (parse_head_options_ok _ _ Ho) as [Hl Hb]. apply polled_rule; [by apply head_new_inv|].
  intros p' t' w Hi HJ. eapply wp_mono;
    [by apply (head_poll_ok (λ t x, J x.1 ∧ x.2 = t) (default "-" (head (ho_files o))) (ho_bytes o) (ho_lines o) Hb Hl p' t' (w, t'))|].
  by intros r [w' t''] (t1 & [HJ' <-] & Hr).
Qed.

(** C11: Over any system that keeps its promises, whatever happens between the polls of [head] of
    one source: what it wrote is a prefix of the lines or bytes that are wanted of its input, while
    it runs the prefix and what is pending are exactly the wanted part of its input so far and the
    next poll returns, and when it ends with success it wrote the wanted part of its input and no
    more input would change that: it stopped at the end of the source, or as soon as it had enough. *)
Theorem head_selects {W} {S : System W} (J : W → Prop) {HS : Streams W (λ _, J)} args o p t outcome :
  parse_head_options args = Ok o → (length (ho_files o) ≤ 1)%nat → polled J head_poll (head_new args) p t outcome →
  let select := wanted (ho_bytes o) (ho_lines o) in
  tape_output 1 t `prefix_of` select (tape_input t) ∧
  (running outcome → tape_output 1 t ++ drop (Z.to_nat (he_offset p)) (he_pending p) = select (tape_input t) ∧
     ∀ w, J w → wp (head_poll p) (w, t) (λ _ x, J x.1)) ∧
  (outcome = PollReady 0 → tape_output 1 t = select (tape_input t) ∧
     ((0 < tape_ends t)%nat ∨ ∀ more, select (tape_input t ++ more) = tape_output 1 t)).
Proof.
  intros Ho Hf Hp. pose proof (head_polled J args o p t outcome Ho Hf Hp) as Hi.
  destruct (parse_head_options_ok _ _ Ho) as [Hl Hb]. cbv zeta. split; [|split].
  - destruct outcome; try (by eapply head_inv_prefix). apply Hi.
  - intros Hr. apply head_inv_running in Hi; [|done]. split; [apply Hi|]. intros w HJ.
    eapply wp_mono;
      [by apply (head_poll_ok (λ t x, J x.1 ∧ x.2 = t) (default "-" (head (ho_files o))) (ho_bytes o) (ho_lines o) Hb Hl p t (w, t))|].
    by intros r [w' t''] (t1 & [HJ' _] & _).
  - intros ->. destruct Hi as [_ Hi]. destruct (Hi eq_refl) as [Hout Hend]. split; [done|].
    destruct Hend as [Hend|Hend]; [by left|right]. intros more. by rewrite wanted_enough.
Qed.

Lemma head_selects_witness : ∃ p t,
  polled (λ _ : Small, True) head_poll (head_new ["-n"; "1"]) p t (PollReady 0) ∧
  tape_output 1 t = to_bytes ("one two" +:+ newline) ∧ tape_ends t = 0%nat ∧
  tape_output 1 t = wanted None 1 (tape_input t).
Proof.
  assert (Hrun : ∃ x p, poll_times head_poll 20 (small_chunks, []) (head_new ["-n"; "1"], PollPending) = Ret (x, (p, PollReady 0)) ∧
    tape_output 1 x.2 = to_bytes ("one two" +:+ newline) ∧ tape_ends x.2 = 0%nat).
  { eexists _, _. split; [vm_compute; reflexivity|split; vm_compute; reflexivity]. }
  destruct Hrun as (x & p & Hrun & Ht & He). exists p, x.2.
  assert (Hp : polled (λ _ : Small, True) head_poll (head_new ["-n"; "1"]) p x.2 (PollReady 0)).
  { exact (poll_times_polled _ _ 20 (head_new ["-n"; "1"]) (small_chunks, []) (head_new ["-n"; "1"]) PollPending x (p, PollReady 0)
      (λ _, I) (polled_start _ _ _) Hrun). }
  split; [exact Hp|]. split; [exact Ht|]. split; [exact He|].
  refine (proj1 (proj2 (proj2 (head_selects (λ _ : Small, True) ["-n"; "1"] (MkHeadOptions 1 None []) p x.2 (PollReady 0) _ _ Hp)) eq_refl)).
  - vm_compute. reflexivity.
  - cbn. lia.
Defined.
