(* ===== verification/ProgramSafe.v ===== *)
(** * Native programs on the kernel

    The kernel keeps the promises of [Streams]: its calls return, keep the invariant of the machine,
    and read and write within what was asked. So the programs that only move bytes can be polled on
    any machine that satisfies the invariant, which it satisfies afterwards. *)

From S2P Require Import Prelude.
From S2P Require Import RustStr.
From S2P Require Import State.
From S2P Require Import Resources.
From S2P Require Import Process.
From S2P Require Import Scheduler.
From S2P Require Import Descriptors.
From S2P Require Import Paths.
From S2P Require Import Vfs.
From S2P Require Import ProcessState.
From S2P Require Import Machine.
From S2P Require Import Kernel.
From S2P Require Import ExecData.
From S2P Require Import ExecVars.
From S2P Require Import ExecText.
From S2P Require Import ExecHost.
From S2P Require Import Images.
From S2P Require Import CommandIo.
From S2P Require Import Commands.
From S2P Require Import ProgramArgs.
From S2P Require Import ProgramSystem.
From S2P Require Import Filters.
From S2P Require Import NativePrograms.
From S2P Require Import KernelInv.
From S2P Require Import KernelSafe.
From S2P Require Import ExecMachine.
From S2P Require Import Boot.
From S2P Require Import BootInv.
From S2P Require Import KernelSystem.
From S2P Require Import StreamSpec.
From S2P Require Import FilterSpec.

(** ** Reads and writes within bounds *)

Section bounds.

Definition within (maximum : Z) (r : called (IoPoll bytes)) : Prop := ready_within (λ data, zlen data) maximum r.
Definition part_of (data : bytes) (r : called (IoPoll Z)) : Prop := ready_within (λ n, n) (zlen data) r.

Lemma yields_try_ok {A B} (m : sys A) (k : A → sys B) P : (∀ e, P (Err e)) → (∀ a, yields (k a) P) → yields (try_bind k m) P.
Proof. intros He Hk. apply yields_bind. intros []; [apply Hk|by apply yields_ret]. Qed.

Lemma yields_try_use {A B} (m : sys A) (k : A → sys B) Q P : (∀ e, P (Err e)) →
  yields m (λ r, match r with Ok a => Q a | Err _ => True end) → (∀ a, Q a → yields (k a) P) → yields (try_bind k m) P.
Proof. intros He Hm Hk. eapply yields_use; [exact Hm|]. intros []; [apply Hk|intros; by apply yields_ret]. Qed.

Lemma device_read_length stream n : length (device_read stream n).2 = n.
Proof.
  pose proof (device_bytes_length n (dv_state stream)) as Hd. unfold device_read.
  destruct (dv_kind stream), (device_bytes n (dv_state stream)); cbn in *; first [done|apply length_replicate].
Qed.

Lemma arena_read_within a id maximum a' r : 0 ≤ maximum → arena_read a id maximum = Ret (a', Ok (Ready r)) → zlen r ≤ maximum.
Proof.
  intros Hm. unfold arena_read. destruct (da_descriptions a !! id) as [entry|]; [|done].
  destruct (de_description entry); try done.
  - case_match; [done|]. unfold slice, mbind, run_bind. destruct (_ && _ && _) eqn:Hok; [|done]. intros [= _ <-].
    apply andb_true_iff in Hok as [[Hc He]%andb_true_iff Hl]. apply Z.leb_le in Hc, He, Hl.
    rewrite length_take, length_drop. unfold sat_add64 in *. lia.
  - destruct readable; [|done]. intros [= _ <-]. cbn. lia.
  - destruct (negb readable); [done|]. pose proof (device_read_length stream (Z.to_nat maximum)) as Hd.
    destruct (device_read stream (Z.to_nat maximum)) as [s out]. intros [= _ <-]. cbn in Hd. lia.
  - destruct (da_pipes a !! pipe) as [p|]; [|done]. case_match; [done|]. intros [= _ <-]. rewrite length_take. lia.
Qed.

Lemma clipped_within data offset maximum : 0 ≤ maximum → zlen (clipped data offset maximum) ≤ maximum.
Proof. intros. unfold clipped, sat_add64. rewrite length_take, length_drop. lia. Qed.

Definition bytes_within (maximum : Z) (r : called bytes) : Prop := match r with Ok data => zlen data ≤ maximum | Err _ => True end.

Lemma read_range_within v cwd path offset maximum v' r : 0 ≤ maximum →
  read_range v cwd path offset maximum = (v', Ok r) → zlen r ≤ maximum.
Proof.
  intros Hm. unfold read_range. destruct (resolved v cwd path true) as [node|]; [|done].
  destruct (nd_kind <$> node) as [[]|]; intros [= _ <-]; by apply clipped_within.
Qed.

Lemma read_orphan_within v id offset maximum v' r : 0 ≤ maximum →
  read_orphan_range v id offset maximum = Ret (v', Ok r) → zlen r ≤ maximum.
Proof. intros Hm. unfold read_orphan_range. repeat case_match; intros; simplify_eq. by apply clipped_within. Qed.

Lemma read_at_within fd offset maximum : 0 ≤ maximum → yields (read_fd_at_checked fd offset maximum) (bytes_within maximum).
Proof.
  intros Hm. assert (Hq : 0 ≤ Z.min maximum MAX_CAPTURE_BYTES) by (assert (0 ≤ MAX_CAPTURE_BYTES) by done; lia).
  unfold read_fd_at_checked. do 2 (apply yields_try_ok; [done|intros ?]). case_match; [|by apply yields_ret].
  destruct (negb _); [by apply yields_ret|]. cbv zeta. destruct (fs_orphan _) as [id|]; intros s s' r; unfold vfs_run, vfs_do.
  - unfold mbind, run_bind. destruct (read_orphan_range _ _ _ _) as [[v [data|e]]| |] eqn:Hr; [|by intros [= _ <-]|done..].
    intros [= _ <-]. cbn. apply read_orphan_within in Hr; [lia|done].
  - destruct (read_range _ _ _ _ _) as [v [data|e]] eqn:Hr; [|by intros [= _ <-]].
    intros [= _ <-]. cbn. apply read_range_within in Hr; [lia|done].
Qed.

Lemma device_budget_within maximum : 0 ≤ maximum →
  yields (device_budget maximum) (λ r, match r with Ok n => 0 ≤ n ≤ maximum | Err _ => True end).
Proof.
  intros Hm. unfold device_budget. apply (yields_use _ _ (λ n, 0 ≤ n)).
  { intros s s' n [= _ <-]. unfold cpu_remaining, sat_sub. lia. }
  intros remaining Hr. cbv zeta. destruct (_ =? 0); apply yields_bind; intros granted; [by apply yields_ret|].
  assert (0 ≤ DEVICE_READ_QUANTUM) by done. assert (0 ≤ remaining / 2) by (apply Z.div_pos; lia).
  destruct granted; apply yields_ret; [lia|done].
Qed.

Lemma read_within fd maximum : 0 ≤ maximum → yields (read_fd_checked fd maximum) (within maximum).
Proof.
  intros Hm. unfold read_fd_checked. apply yields_try_ok; [done|]. intros id. apply yields_try_ok; [done|]. intros [file|].
  - apply (yields_try_use _ _ (λ data, zlen data ≤ maximum)); [done|by apply read_at_within|]. intros data Hd.
    apply yields_try_ok; [done|]. intros _. apply yields_ret. cbn. lia.
  - apply yields_try_ok; [done|]. intros device.
    apply (yields_try_use _ _ (λ n, 0 ≤ n ≤ maximum)); [done|destruct device; [by apply device_budget_within|apply yields_ret; cbn; lia]|].
    intros n Hn. apply (yields_try_use _ _ (λ r, within maximum (Ok r))); [done| |].
    + intros s s' r. unfold arena_run, mbind, run_bind.
      destruct (arena_read (m_descriptors s) id n) as [[a [[data|wait]|e]]| |] eqn:Hr; intros [= _ <-]; try done.
      cbn. apply arena_read_within in Hr; lia.
    + intros result Hw. apply yields_try_ok; [done|]. intros _. by apply yields_ret.
Qed.

Lemma arena_write_part id data : yields (arena_do (λ a, arena_write a id data)) (part_of data).
Proof.
  intros s s' r. unfold arena_do, arena_write, part_of. repeat case_match; simplify_eq; intros; simplify_eq; cbn; try done; try lia.
  unfold sat_sub. lia.
Qed.

Lemma write_part aliased fd data : yields (write_fd_checked aliased fd data) (part_of data).
Proof.
  unfold write_fd_checked. apply yields_try_ok; [done|]. intros id. apply yields_try_ok; [done|]. intros [file|].
  - unfold write_file_at. destruct (negb _); [by apply yields_ret|]. do 2 (apply yields_try_ok; [done|intros ?]).
    do 2 (apply yields_bind; intros ?). destruct (negb _); [by apply yields_ret|]. do 3 (apply yields_bind; intros ?).
    match goal with |- yields (match ?r with _ => _ end) _ => destruct r end.
    + apply yields_try_ok; [done|]. intros ?. apply yields_ret. cbn. lia.
    + apply yields_bind. intros ?. by apply yields_ret.
  - eapply yields_use; [apply arena_write_part|]. intros [result|e] Hr; [|by apply yields_ret].
    apply yields_try_ok; [done|]. intros _. by apply yields_ret.
Qed.

End bounds.

(** ** The kernel keeps its promises *)

Section kernel.
Context {O G : Type} (parts : HostParts).
Context (system_commands : string → option (SystemCommand (World CommandResume (NativeProcess O G)))).
Context (other_new : NativeProgram → list string → O) (guest_new : string → list string → G).
Context (h : list Z) (b : Z).
Abbreviation world := (World CommandResume (NativeProcess O G)).

Lemma wp_on_machine {A} (m : mach A) (w : world) (P : A → Prop) : safe False h b m → yields m P → good h b (w_machine w) →
  wp (on_machine m) w (λ a w', good h b (w_machine w') ∧ P a).
Proof.
  intros Hs Hy Hg. specialize (Hs _ Hg). specialize (Hy (w_machine w)). unfold wpm in Hs.
  destruct (m (w_machine w)) as [[s a]| |] eqn:Hm; [|done..]. apply (wp_eq _ _ (set_machine w s) a).
  - unfold on_machine, mbind, run_bind. by rewrite Hm.
  - split; [exact Hs|by eapply Hy].
Qed.

Lemma wp_on_machine_safe {A} (m : mach A) (w : world) : safe False h b m → good h b (w_machine w) →
  wp (on_machine m) w (λ _ w', good h b (w_machine w')).
Proof. intros Hs Hg. eapply wp_mono; [apply (wp_on_machine m w (λ _, True)); [done|by intros ? ?|done]|]. by intros a w' [Hg' _]. Qed.

Lemma safe_charge_output n : safe False h b (λ m, let '(r, granted) := charge_output (m_resources m) n in Ret (set_resources m r, granted)).
Proof.
  intros s Hs. unfold wpm. destruct (charge_output (m_resources s) n) as [r granted] eqn:Hr.
  assert (Hsame : rs_memory_current r = rs_memory_current (m_resources s) ∧ rs_limits r = rs_limits (m_resources s)).
  { unfold charge_output in Hr. repeat case_match; simplify_eq; done. }
  destruct Hsame. by apply good_resources.
Qed.

#[export] Instance kernel_streams :
  @Streams world (active_system parts system_commands other_new guest_new) (λ _ w, good h b (w_machine w)).
Proof.
  split.
  - intros fd maximum t w Hg Hm. eapply wp_mono; [apply (wp_on_machine _ w (within maximum)); [by apply safe_read|by apply read_within|done]|].
    done.
  - intros fd data t w Hg. eapply wp_mono; [apply (wp_on_machine _ w (part_of data)); [apply safe_write_fd| |done]|done].
    unfold write_fd. apply yields_bind. intros shared. apply write_part.
  - intros base path options t w Hg. apply wp_on_machine_safe; [apply safe_open_call|done].
  - intros fd t w Hg. apply wp_on_machine_safe; [apply safe_close|done].
  - intros t w Hg. apply wp_on_machine_safe; [|done]. apply safe_bind; [apply safe_current|intros p; apply safe_ret].
  - intros n t w Hg. apply wp_on_machine_safe; [apply safe_charge|done].
  - intros n t w Hg. apply wp_on_machine_safe; [apply safe_charge_output|done].
  - intros t w Hg. eapply wp_mono; [apply (wp_on_machine _ w (λ n, 0 ≤ n)); [apply safe_gets| |done]|done].
    intros s s' n [= _ <-]. unfold output_remaining, sat_sub. lia.
  - intros t w Hg. eapply wp_mono; [apply (wp_on_machine _ w (λ n, n ≠ 0)); [apply safe_gets| |done]|done].
    intros s s' n [= _ <-]. unfold stop_status. by case_match.
Qed.

End kernel.

(** ** Polls return *)

(** Offsets within what they are offsets of: all a poll needs of a program. *)
Definition cursor_ok (data : bytes) (offset : Z) : Prop := 0 ≤ offset ≤ zlen data.
Definition cat_ok (p : CatProcess) : Prop := cursor_ok (ca_pending p) (ca_offset p) ∧ cursor_ok (ca_diagnostic p) (ca_diagnostic_offset p).
Definition tee_ok (p : TeeProcess) : Prop := cursor_ok (te_pending p) (te_offset p) ∧ cursor_ok (te_diagnostic p) (te_diagnostic_offset p).
Definition head_ok (p : HeadProcess) : Prop :=
  cursor_ok (he_pending p) (he_offset p) ∧ cursor_ok (he_diagnostic p) (he_diagnostic_offset p) ∧
  ∀ n, he_bytes_remaining p = Some n ∨ he_byte_limit p = Some n → 0 ≤ n.

(** The programs that only move bytes. *)
Definition filter_ok {O G} (n : NativeProcess O G) : Prop :=
  match n with
  | NStatus _ => True
  | NPwd (Some output) offset | NYes output offset => cursor_ok output offset
  | NPwd None offset => offset = 0
  | NCat p => cat_ok p
  | NTee p => tee_ok p
  | NHead p => head_ok p
  | NFailure _ message offset => cursor_ok message offset
  | _ => False
  end.

Section returning.
Context {W : Type} {S : System W} (J : W → Prop) {HS : Streams W (λ _, J)}.

(** [m] returns, keeps the world in order, and returns what satisfies [Q]. *)
Definition returning {A} (m : stm W A) (Q : A → Prop) : Prop := ∀ w, J w → wp m w (λ a w', J w' ∧ Q a).

Lemma returning_ret {A} (a : A) Q : Q a → returning (mret a) Q.
Proof. intros HQ w HJ. by apply wp_ret. Qed.

Lemma returning_bind {A B} (m : stm W A) (k : A → stm W B) R Q : returning m R → (∀ a, R a → returning (k a) Q) → returning (m ≫= k) Q.
Proof. intros Hm Hk w HJ. apply wp_bind. eapply wp_mono; [by apply Hm|]. intros a w' [HJ' HR]. by apply Hk. Qed.

Lemma returning_any {A} (m : stm W A) : (∀ w, J w → wp m w (λ _ w', J w')) → returning m (λ _, True).
Proof. intros Hm w HJ. eapply wp_mono; [by apply Hm|]. done. Qed.

Lemma returning_read fd maximum : 0 ≤ maximum → returning (sy_read fd maximum) (λ _, True).
Proof. intros Hm. apply returning_any. intros w HJ. eapply wp_mono; [by apply (st_read fd maximum [])|]. by intros r w' [HJ' _]. Qed.
Lemma returning_write fd data : returning (sy_write fd data) (ready_within (λ n, n) (zlen data)).
Proof. intros w HJ. eapply wp_mono; [by apply (st_write fd data [])|]. done. Qed.
Lemma returning_open base path options : returning (sy_open_file base path options) (λ _, True).
Proof. apply returning_any. intros w HJ. eapply wp_mono; [by apply (st_open_file base path options [])|done]. Qed.
Lemma returning_close fd : returning (sy_close fd) (λ _, True).
Proof. apply returning_any. intros w HJ. eapply wp_mono; [by apply (st_close fd [])|done]. Qed.
Lemma returning_cwd : returning sy_cwd (λ _, True).
Proof. apply returning_any. intros w HJ. eapply wp_mono; [by apply (st_cwd [])|done]. Qed.
Lemma returning_charge n : returning (sy_charge_cpu n) (λ _, True).
Proof. apply returning_any. intros w HJ. eapply wp_mono; [by apply (st_charge_cpu n [])|done]. Qed.
Lemma returning_stop {P} (p : P) (Q : P → Prop) : Q p → returning (stop_poll p) (λ r, Q r.1).
Proof.
  intros HQ w HJ. apply (stop_poll_ok (λ _, J) p [] w); [done|]. done.
Qed.

Lemma returning_poll_write fd data offset status : cursor_ok data offset →
  returning (poll_write fd data offset status) (λ r, cursor_ok data r.1).
Proof.
  intros Ho w HJ. eapply wp_mono; [by apply (poll_write_ok (λ _, J) _ _ _ _ [])|].
  intros [o p] w' (chunks & HJ' & _ & Hr & _). split; [done|]. unfold cursor_ok in *. cbn in *. lia.
Qed.

Lemma returning_when_written {P} fd data offset (kept : Z → P) k (Q : P → Prop) : cursor_ok data offset →
  (∀ o, cursor_ok data o → Q (kept o)) → (∀ o, returning (k o) (λ r, Q r.1)) →
  returning (when_written fd data offset kept k) (λ r, Q r.1).
Proof.
  intros Ho Hkept Hk w HJ. apply (when_written_ok (λ _, J) _ _ _ _ _ []); [done|done| |].
  - intros chunks w' HJ' _. by apply Hk.
  - intros chunks o poll w' HJ' Hr _ _. split; [done|]. apply Hkept. unfold cursor_ok in *. lia.
Qed.

Lemma cursor_start data : cursor_ok data 0.
Proof. unfold cursor_ok. lia. Qed.
Lemma cursor_empty data offset : cursor_ok [] offset → cursor_ok data offset.
Proof. unfold cursor_ok. cbn. lia. Qed.
Lemma cursor_app data more offset : cursor_ok data offset → cursor_ok (data ++ more) offset.
Proof. unfold cursor_ok. rewrite length_app. lia. Qed.
Hint Resolve cursor_start cursor_empty cursor_app : cursors.

Lemma returning_close_owned fd owned : returning (close_owned fd owned) (λ _, True).
Proof.
  unfold close_owned. destruct owned; [|by apply returning_ret].
  eapply returning_bind; [apply returning_close|]. intros r _. by apply returning_ret.
Qed.

(** Take a poll apart, call by call. *)
Ltac step_poll :=
  repeat lazymatch goal with
  | |- returning (mret _) _ => apply returning_ret
  | |- returning (stop_poll _) _ => apply returning_stop
  | |- returning (if _ then _ else _) _ => case_match
  | |- returning (match _ with _ => _ end) _ => case_match
  | |- returning (_ ≫= _) _ =>
      eapply returning_bind;
        [first [apply returning_read; first [done|lia] | apply returning_write | apply returning_open | apply returning_close
               | apply returning_cwd | apply returning_charge | apply returning_close_owned]|intros ? ?]
  end.

Lemma cat_returns p : cat_ok p → returning (cat_poll p) (λ r, cat_ok r.1).
Proof.
  intros [Hp Hd]. unfold cat_poll. destruct (ca_pending p) as [|byte pending] eqn:Hpend.
  - destruct (ca_diagnostic p) as [|byte diagnostic] eqn:Hdiag.
    + destruct (ca_current p) as [[fd owned]|].
      * unfold cat_read. eapply returning_bind; [apply returning_read; by destruct (ca_numbered p)|]. intros r _. step_poll.
        all: unfold cat_take, cat_ok in *; repeat case_match; cbn in *; rewrite ?Hpend, ?Hdiag; eauto with cursors.
      * unfold cat_open. step_poll; unfold cat_ok; repeat case_match; cbn in *; rewrite ?Hpend, ?Hdiag; eauto with cursors.
    + unfold cat_diagnose. rewrite Hdiag. eapply returning_bind; [by apply returning_poll_write|]. intros [o poll] Ho.
      apply returning_ret. unfold cat_ok. repeat case_match; cbn in *; rewrite ?Hpend; eauto with cursors.
  - apply returning_when_written; [done|..]; intros; [|apply returning_ret]; unfold cat_ok; cbn; eauto with cursors.
Qed.

Lemma tee_open_returns base paths : ∀ p, tee_ok p → returning (tee_open base paths p) tee_ok.
Proof.
  induction paths as [|path paths IH]; intros p Hp; cbn [tee_open]; [by apply returning_ret|].
  eapply returning_bind; [apply returning_open|]. intros [fd|error] _; apply IH; try done.
  destruct Hp as [Hp Hq]. split; [done|]. cbn. by apply cursor_app.
Qed.

Lemma tee_close_returns fds : ∀ status, returning (tee_close fds status) (λ _, True).
Proof.
  induction fds as [|[path fd] fds IH]; intros status; cbn [tee_close]; [by apply returning_ret|].
  eapply returning_bind; [apply returning_close|]. intros r _. apply IH.
Qed.

Lemma tee_file_returns p path fd : tee_ok p → te_diagnostic p = [] → returning (tee_file p path fd) (λ r, tee_ok r.1).
Proof.
  intros [Hp Hd] Hdiag. unfold tee_file. eapply returning_bind; [apply returning_write|]. intros [[written|wait]|error] Hw.
  - cbn in Hw. rewrite length_drop in Hw. unfold cursor_ok in Hp.
    assert (Hn : cursor_ok (te_pending p) (te_offset p + written)) by (unfold cursor_ok; lia).
    destruct written as [|n|n]; [by apply returning_ret| |lia].
    step_poll; [done|]. unfold tee_ok. cbv zeta. case_match; cbn; eauto with cursors.
  - by apply returning_ret.
  - step_poll. unfold tee_ok. cbn. eauto with cursors.
Qed.

Lemma tee_returns p : tee_ok p → returning (tee_poll p) (λ r, tee_ok r.1).
Proof.
  intros Hok. pose proof Hok as [Hp Hd]. unfold tee_poll. destruct (negb (te_opened p)).
  - unfold tee_start. apply (returning_bind _ _ tee_ok); [|intros q Hq; by apply returning_ret].
    destruct (te_invalid _); [by apply returning_ret|]. step_poll. by apply tee_open_returns.
  - destruct (te_diagnostic p) as [|byte diagnostic] eqn:Hdiag.
    + destruct (te_pending p) as [|byte pending] eqn:Hpend.
      * unfold tee_read. eapply returning_bind; [by apply returning_read|]. intros r _. repeat case_match; subst.
        -- eapply returning_bind; [apply tee_close_returns|]. intros status _. by apply returning_ret.
        -- step_poll; [done|]. unfold tee_ok. cbn. rewrite Hdiag. eauto with cursors.
        -- by apply returning_ret.
        -- apply returning_ret. unfold tee_ok. cbn. rewrite Hpend. eauto with cursors.
      * destruct (te_files p !! te_sink p) as [[path fd]|]; [by apply tee_file_returns|].
        apply (returning_when_written _ _ _ _ _ tee_ok); [by rewrite Hpend|..]; intros; [|apply returning_ret]; unfold tee_ok; cbn;
          rewrite ?Hdiag, ?Hpend in *; eauto with cursors.
    + apply (returning_when_written _ _ _ _ _ tee_ok); [by rewrite Hdiag|..]; intros; [|apply returning_ret]; unfold tee_ok; cbn;
        rewrite ?Hdiag in *; eauto with cursors.
Qed.

Lemma head_took_ok p data : head_ok p → head_ok (head_take p data).
Proof.
  intros (Hp & Hd & Hn). unfold head_take. destruct (he_bytes_remaining p) as [n|] eqn:Hb.
  - assert (0 ≤ n) by (apply Hn; by left).
    case_match; (split; [|split]); cbn; eauto with cursors; (intros m [[= <-]|Hm]; [lia|apply Hn; by right]).
  - destruct (take_lines data (he_lines_remaining p)) as [taken more].
    case_match; (split; [|split]); cbn; eauto with cursors; (intros m [|Hm]; [done|apply Hn; by right]).
Qed.

Lemma head_selected_ok p source sources current : head_ok p → head_ok (head_select (he_with_sources p sources) source current).
Proof. intros (Hp & Hd & Hn). split; [|split]; cbn; eauto with cursors. intros n [Hm|Hm]; apply Hn; by right. Qed.

Lemma head_returns p : head_ok p → returning (head_poll p) (λ r, head_ok r.1).
Proof.
  intros Hok. pose proof Hok as (Hp & Hd & Hn). unfold head_poll. destruct (he_pending p) as [|byte pending] eqn:Hpend.
  - destruct (he_diagnostic p) as [|byte diagnostic] eqn:Hdiag.
    + destruct (he_finished_source p).
      * unfold head_finish. apply (returning_bind _ _ (λ _, True)).
        { destruct (he_current p) as [[fd owned]|]; [apply returning_close_owned|by apply returning_ret]. }
        intros failed _. apply returning_ret. by destruct failed.
      * destruct (he_current p) as [[fd owned]|] eqn:Hcur.
        -- destruct (head_exhausted p); [by apply returning_ret|]. unfold head_read.
           eapply returning_bind; [apply returning_read|].
           { destruct (he_bytes_remaining p) as [n|] eqn:Hb; cbn [default from_option]; unfold id; [specialize (Hn n (or_introl eq_refl))|]; lia. }
           intros r _. step_poll; try done; [by apply head_took_ok|].
           split; [|split]; cbn; rewrite ?Hpend, ?Hdiag in *; eauto with cursors.
        -- unfold head_open. destruct (he_sources p) as [|source sources]; [by apply returning_ret|]. cbv zeta.
           step_poll; [by apply head_selected_ok|]. case_match; [by apply head_selected_ok|].
           split; [|split]; cbn; rewrite ?Hpend, ?Hdiag in *; eauto with cursors.
    + apply (returning_when_written _ _ _ _ _ head_ok); [done|..]; intros; [|apply returning_ret];
        (split; [|split]); cbn; rewrite ?Hdiag, ?Hpend in *; eauto with cursors.
  - apply (returning_when_written _ _ _ _ _ head_ok); [done|..]; intros; [|apply returning_ret];
      (split; [|split]); cbn; rewrite ?Hpend in *; eauto with cursors.
Qed.

Section natives.
Context {O G : Type} (system_commands : string → option (SystemCommand W)).
Context (other_new : NativeProgram → list string → O) (guest_new : string → list string → G).
Context (other_poll : O → stm W (O * ShellPoll)) (guest_poll : G → stm W (G * ShellPoll)).

Lemma returning_as {P} (wrap : P → NativeProcess O G) (m : stm W (P * ShellPoll)) (Q : P → Prop) :
  returning m (λ r, Q r.1) → (∀ p, Q p → filter_ok (wrap p)) → returning (polled_as wrap m) (λ r, filter_ok r.1).
Proof. intros Hm Hw. eapply returning_bind; [exact Hm|]. intros [p poll] HQ. apply returning_ret. by apply Hw. Qed.

Lemma filter_polls n : filter_ok n → returning (native_process_poll system_commands other_poll guest_poll n) (λ r, filter_ok r.1).
Proof.
  intros Hn. destruct n; try done; unfold native_process_poll; (eapply returning_bind; [apply returning_charge|]); intros granted _;
    (destruct granted; [|by apply returning_stop]); cbn [poll_program].
  - by apply returning_ret.
  - eapply (returning_bind _ _ (λ o, cursor_ok o offset)).
    { destruct output; [by apply returning_ret|]. eapply returning_bind; [apply returning_cwd|]. intros cwd _. apply returning_ret.
      cbn in Hn. subst. apply cursor_start. }
    intros o Ho. apply (returning_as _ _ (λ offset, cursor_ok o offset)); [by apply returning_poll_write|done].
  - apply (returning_when_written _ _ _ _ _ filter_ok); [done|done|]. intros. apply returning_ret, cursor_start.
  - by apply (returning_as _ _ cat_ok); [apply cat_returns|].
  - by apply (returning_as _ _ tee_ok); [apply tee_returns|].
  - by apply (returning_as _ _ head_ok); [apply head_returns|].
  - apply (returning_as _ _ (λ offset, cursor_ok message offset)); [by apply returning_poll_write|done].
Qed.

Definition filter_image (image : NativeProgram) : bool :=
  match image with NpTrue | NpFalse | NpPwd | NpYes | NpCat | NpTee | NpHead => true | _ => false end.

Lemma filter_image_ok image argv : filter_image image = true → filter_ok (from_image system_commands other_new image argv : NativeProcess O G).
Proof.
  destruct image; try done; intros _; cbn [from_image].
  - unfold yes_new. case_match; apply cursor_start.
  - unfold cat_new. cbn. destruct (cat_args true (tail argv) [] false) as [[sources numbered] diagnostic]. split; apply cursor_start.
  - unfold tee_new. cbn. destruct (tee_args true (tail argv) [] false) as [[paths append] diagnostic]. split; apply cursor_start.
  - unfold head_new. cbn. destruct (parse_head_options (tail argv)) as [o|e] eqn:Ho.
    + apply parse_head_options_ok in Ho as [_ Ho]. split; [apply cursor_start|split; [apply cursor_start|]]. cbn. intros n [Hn|Hn]; by apply Ho.
    + split; [apply cursor_start|split; [apply cursor_start|]]. intros n [Hn|Hn]; done.
Qed.

End natives.
End returning.

(** C12: A native program that only moves bytes (true, false, pwd, yes, cat, tee, head, and the
    report of a failed launch) never brings the machine down. As it is loaded its cursors are in
    range, and from any machine that satisfies the invariant its poll on the kernel returns, with
    the machine invariant kept and its cursors in range again: whatever the descriptors are, and
    however often reads and writes fail, block or are cut short. *)
Theorem filters_keep_machine {O G} (parts : HostParts)
    (commands : string → option (SystemCommand (World CommandResume (NativeProcess O G))))
    (other_new : NativeProgram → list string → O) (guest_new : string → list string → G)
    (other_poll : O → stm (World CommandResume (NativeProcess O G)) (O * ShellPoll))
    (guest_poll : G → stm (World CommandResume (NativeProcess O G)) (G * ShellPoll)) (h : list Z) (b : Z) image argv n w :
  filter_image image = true →
  filter_ok (from_image commands other_new image argv : NativeProcess O G) ∧
  (filter_ok n → good h b (w_machine w) →
   wp (@native_process_poll _ O G (active_system parts commands other_new guest_new) commands other_poll guest_poll n) w
      (λ r w', good h b (w_machine w') ∧ filter_ok r.1)).
Proof.
  intros Hi. split; [by apply filter_image_ok|]. intros Hn Hg.
  by apply (filter_polls (S := active_system parts commands other_new guest_new) (λ w, good h b (w_machine w))).
Qed.

Lemma filters_keep_machine_witness : ∃ s (w : World CommandResume (NativeProcess unit unit)) (r : NativeProcess unit unit * ShellPoll),
  with_limits limits_default [] = Ret s ∧ good [] 0 (w_machine w) ∧ filter_ok r.1.
Proof.
  destruct (example_boot (λ _, true)) as (s & Hs & Hg & _); [vm_compute; reflexivity|].
  set (commands := λ _ : string, @None (SystemCommand (World CommandResume (NativeProcess unit unit)))).
  pose proof (filters_keep_machine (O := unit) (G := unit)
    (MkHostParts 200 64 example_format example_engine (λ _, None) (λ text _, text) (λ _ _, false) (λ _, false))
    commands (λ _ _, tt) (λ _ _, tt) (λ o, mret (o, PollReady 125)) (λ g, mret (g, PollReady 125)) [] 0 NpYes ["yes"]
    (from_image commands (λ _ _, tt) NpYes ["yes"]) (MkWorld s ∅) eq_refl) as [Hl Hp].
  destruct (Hp Hl Hg) as (w & r & _ & Hw & Hr). exists s, w, r. split; [exact Hs|split; [exact Hw|exact Hr]].
Defined.
