(* ===== verification/CommandSpec.v ===== *)
(** * What the commands of the shell do with their text

    The commands [xargs] builds from its input, the record [read] takes of what the shell buffered
    for it, and the expressions of [test]. *)

From S2P Require Import Prelude.
From S2P Require Import RustStr.
From S2P Require Import State.
From S2P Require Import Descriptors.
From S2P Require Import ShellParser.
From S2P Require Import ExpandText.
From S2P Require Import Expand.
From S2P Require Import Machine.
From S2P Require Import ExecData.
From S2P Require Import ExecText.
From S2P Require Import CommandIo.
From S2P Require Import BuiltinTest.
From S2P Require Import BuiltinRead.
From S2P Require Import ProgramArgs.
From S2P Require Import Resources.
From S2P Require Import Boot.
From S2P Require Import BootInv.
From S2P Require Import KernelSystem.

(** ** [xargs] *)

Section xargs.

(** [l] in runs of [n], in order: every run but the last is full. *)
Definition runs_of (n : nat) (l : list string) (batches : list (list string)) : Prop :=
  concat batches = l ∧
  ∀ i batch, batches !! i = Some batch → (0 < length batch ≤ n)%nat ∧ (S i < length batches → length batch = n)%nat.

Definition commands_len (commands : list (list string)) : Z := foldr (λ command total, words_len command + total) 0 commands.

(** Commands within the limit on the bytes of all of them. *)
Definition within_limit (commands : list (list string)) : result string (list (list string)) :=
  if commands_len commands <=? MAX_ARGUMENT_BYTES then Ok commands else Err arguments_exceed.

Lemma words_len_nonneg words : 0 ≤ words_len words.
Proof. unfold words_len. induction words as [|w words IH]; cbn [foldr]; [done|]. assert (0 ≤ str_len w) by (unfold str_len; lia). lia. Qed.

Lemma words_len_app a b : words_len (a ++ b) = words_len a + words_len b.
Proof. unfold words_len. induction a as [|w a IH]; cbn [app foldr]; lia. Qed.

Lemma commands_len_nonneg commands : 0 ≤ commands_len commands.
Proof. unfold commands_len. induction commands as [|c commands IH]; cbn [foldr]; [done|]. pose proof (words_len_nonneg c). lia. Qed.

(** Adding to a count below the limit passes it exactly when the sum does. *)
Lemma saturated_over used n : 0 ≤ used → 0 ≤ n → (MAX_ARGUMENT_BYTES <? sat_add64 used n) = (MAX_ARGUMENT_BYTES <? used + n).
Proof.
  intros. unfold sat_add64. assert (MAX_ARGUMENT_BYTES < U64_MAX) by done.
  destruct (Z.ltb_spec MAX_ARGUMENT_BYTES (used + n)); [apply Z.ltb_lt|apply Z.ltb_ge]; lia.
Qed.

(** What is left of the limit decides the rest. *)
Definition within_rest (used : Z) (commands : list (list string)) : result string (list (list string)) :=
  if used + commands_len commands <=? MAX_ARGUMENT_BYTES then Ok commands else Err arguments_exceed.

Lemma within_rest_cons used command commands : 0 ≤ used →
  within_rest used (command :: commands) =
    if MAX_ARGUMENT_BYTES <? used + words_len command then Err arguments_exceed
    else commands ← within_rest (used + words_len command) commands; Ok (command :: commands).
Proof.
  intros Hu. unfold within_rest. cbn [commands_len foldr]. pose proof (commands_len_nonneg commands).
  fold (commands_len commands). destruct (Z.ltb_spec MAX_ARGUMENT_BYTES (used + words_len command)) as [Hover|Hfit].
  - destruct (Z.leb_spec (used + (words_len command + commands_len commands)) MAX_ARGUMENT_BYTES); [lia|done].
  - rewrite Z.add_assoc. by destruct (_ <=? _).
Qed.

Lemma runs_of_cons n batch rest batches : (0 < length batch ≤ n)%nat → (rest ≠ [] → length batch = n) → runs_of n rest batches →
  runs_of n (batch ++ rest) (batch :: batches).
Proof.
  intros Hb Hfull [Hc Hi]. split; [cbn; by rewrite Hc|]. intros [|i] b; cbn [lookup list_lookup length].
  - intros [= <-]. split; [done|]. intros Hl. apply Hfull. intros ->. destruct batches as [|b batches]; cbn in Hl; [lia|].
    destruct (Hi 0%nat b eq_refl) as [Hb0 _]. destruct b; [cbn in Hb0; lia|done].
  - intros Hb'. destruct (Hi i b Hb') as [H1 H2]. split; [done|]. intros Hl. apply H2. lia.
Qed.

Lemma batched_commands_eq cmd per : 1 ≤ per → ∀ fuel tokens used, (length tokens ≤ fuel)%nat → 0 ≤ used ≤ MAX_ARGUMENT_BYTES →
  ∃ batches, runs_of (Z.to_nat per) tokens batches ∧
    batched_commands fuel cmd per tokens used = within_rest used (map (app cmd) batches).
Proof.
  intros Hper. induction fuel as [|fuel IH]; intros tokens used Hf Hu.
  { destruct tokens; [|cbn in Hf; lia]. exists []. split; [split; [done|intros i b Hb; done]|].
    cbn. unfold within_rest, commands_len. cbn. by rewrite Z.add_0_r, (proj2 (Z.leb_le _ _) (proj2 Hu)). }
  destruct tokens as [|token tokens].
  { exists []. split; [split; [done|intros i b Hb; done]|].
    cbn. unfold within_rest, commands_len. cbn. by rewrite Z.add_0_r, (proj2 (Z.leb_le _ _) (proj2 Hu)). }
  set (all := token :: tokens) in *. assert (Hall : (1 ≤ length all)%nat) by (cbn; lia).
  cbn [batched_commands]. fold all. change (token :: tokens) with all. set (n := Z.to_nat (Z.min per (zlen all))).
  assert (Hn : (1 ≤ n ≤ length all)%nat) by (unfold n; lia).
  pose proof (words_len_nonneg cmd) as Hw1. pose proof (words_len_nonneg (take n all)) as Hw2.
  assert (Hbatch : (0 < length (take n all) ≤ Z.to_nat per)%nat) by (rewrite length_take; unfold n; lia).
  assert (Hsum : used + words_len (cmd ++ take n all) = used + words_len cmd + words_len (take n all)) by (rewrite words_len_app; lia).
  assert (Hrest : drop n all ≠ [] → length (take n all) = Z.to_nat per).
  { intros Hd. assert (n < length all)%nat. { destruct (decide (n < length all)%nat); [done|]. by rewrite drop_ge in Hd by lia. }
    rewrite length_take. unfold n in *. lia. }
  assert (Hover : (MAX_ARGUMENT_BYTES <? sat_add64 (sat_add64 used (words_len cmd)) (words_len (take n all))) =
                  (MAX_ARGUMENT_BYTES <? used + words_len (cmd ++ take n all))).
  { rewrite Hsum. rewrite saturated_over by (unfold sat_add64; assert (0 ≤ U64_MAX) by done; lia).
    unfold sat_add64. assert (MAX_ARGUMENT_BYTES < U64_MAX) by done.
    destruct (Z.ltb_spec MAX_ARGUMENT_BYTES (used + words_len cmd + words_len (take n all))); [apply Z.ltb_lt|apply Z.ltb_ge]; lia. }
  rewrite Hover. destruct (Z.ltb_spec MAX_ARGUMENT_BYTES (used + words_len (cmd ++ take n all))) as [Ho|Ho].
  - destruct (IH (drop n all) 0) as (batches & Hb & _); [rewrite length_drop; lia|done|].
    exists (take n all :: batches). split; [rewrite <-(take_drop n all) at 1; by apply runs_of_cons|].
    cbn [map]. rewrite within_rest_cons by lia. by rewrite (proj2 (Z.ltb_lt _ _) Ho).
  - assert (Hexact : sat_add64 (sat_add64 used (words_len cmd)) (words_len (take n all)) = used + words_len (cmd ++ take n all)).
    { unfold sat_add64. assert (MAX_ARGUMENT_BYTES < U64_MAX) by done. lia. }
    rewrite Hexact. destruct (IH (drop n all) (used + words_len (cmd ++ take n all))) as (batches & Hb & Heq);
      [rewrite length_drop; lia|pose proof (words_len_nonneg (cmd ++ take n all)); lia|].
    exists (take n all :: batches). split; [rewrite <-(take_drop n all) at 1; by apply runs_of_cons|].
    cbn [map]. rewrite within_rest_cons by lia. rewrite (proj2 (Z.ltb_ge _ _) Ho), Heq. done.
Qed.

Lemma append_len a b : str_len (a +:+ b) = str_len a + str_len b.
Proof. unfold str_len. rewrite length_append. lia. Qed.

Lemma split_once_str_eq pat s l r : split_once_str pat s = Some (l, r) → s = l +:+ pat +:+ r.
Proof.
  revert l r. induction s as [|c s IH]; intros l r; cbn [split_once_str].
  - destruct (strip_prefix pat "") as [rest|] eqn:Hp; [|done]. intros [= <- <-]. by apply strip_prefix_Some in Hp.
  - destruct (strip_prefix pat (String c s)) as [rest|] eqn:Hp.
    + intros [= <- <-]. by apply strip_prefix_Some in Hp.
    + destruct (split_once_str pat s) as [[l' r']|]; [|done]. cbn. intros [= <- <-].
      change (String c s = String c (l' +:+ pat +:+ r')). by rewrite <-(IH _ _ eq_refl).
Qed.

Lemma split_pieces_len fuel pat : ∀ s, let pieces := split_str_fuel fuel pat s in
  (1 ≤ length pieces)%nat ∧ words_len pieces + Z.of_nat (pred (length pieces)) * str_len pat = str_len s.
Proof.
  induction fuel as [|fuel IH]; intros s; cbn [split_str_fuel]; [cbn; lia|].
  destruct (split_once_str pat s) as [[l r]|] eqn:Hs; [|cbn; lia]. destruct (IH r) as [Hl Hlen]. split; [cbn; lia|].
  apply split_once_str_eq in Hs. subst s. rewrite !append_len.
  set (rest := split_str_fuel fuel pat r) in *. change (words_len (l :: rest)) with (str_len l + words_len rest).
  change (pred (length (l :: rest))) with (length rest).
  assert (Z.of_nat (length rest) = 1 + Z.of_nat (pred (length rest))) as -> by lia. lia.
Qed.

Lemma concat_len sep pieces : (1 ≤ length pieces)%nat →
  str_len (String.concat sep pieces) = words_len pieces + Z.of_nat (pred (length pieces)) * str_len sep.
Proof.
  induction pieces as [|a pieces IH]; [cbn; lia|]. intros _. destruct pieces as [|b pieces]; [cbn; lia|].
  change (String.concat sep (a :: b :: pieces)) with (a +:+ sep +:+ String.concat sep (b :: pieces)).
  rewrite !append_len, IH by (cbn; lia). change (words_len (a :: b :: pieces)) with (str_len a + words_len (b :: pieces)).
  cbn [length pred]. lia.
Qed.

(** Replacing takes the matches away and puts as many copies in. *)
Lemma replaced_len marker token arg :
  str_len (replace_all marker token arg) = str_len arg - Z.of_nat (count_matches marker arg) * str_len marker +
    Z.of_nat (count_matches marker arg) * str_len token ∧ Z.of_nat (count_matches marker arg) * str_len marker ≤ str_len arg.
Proof.
  unfold replace_all, count_matches, split_str. destruct (split_pieces_len (String.length arg) marker arg) as [Hl Hlen].
  rewrite concat_len by done. pose proof (words_len_nonneg (split_str_fuel (String.length arg) marker arg)). lia.
Qed.

Lemma str_len_pos s : 0 ≤ str_len s.
Proof. unfold str_len. lia. Qed.

(** What one argument adds to the count of [expanded_bytes]. *)
Definition add_expanded (marker token : string) (total : option Z) (arg : string) : option Z :=
  total ← total;
  let count := Z.of_nat (count_matches marker arg) in
  removed ← (if count * str_len marker <=? U64_MAX then Some (count * str_len marker) else None);
  inserted ← (if count * str_len token <=? U64_MAX then Some (count * str_len token) else None);
  kept ← (if removed <=? str_len arg then checked_add64 (str_len arg - removed) inserted else None);
  checked_add64 total kept.

Definition fits64 (n : Z) : option Z := if n <=? U64_MAX then Some n else None.

Lemma add_expanded_none marker token cmd : foldl (add_expanded marker token) None cmd = None.
Proof. by induction cmd as [|arg cmd IH]. Qed.

Lemma add_expanded_eq marker token t arg : 0 ≤ t → str_len arg ≤ U64_MAX →
  add_expanded marker token (Some t) arg = fits64 (t + str_len (replace_all marker token arg)).
Proof.
  intros Ht Ha. destruct (replaced_len marker token arg) as [Hr Hm]. rewrite Hr. unfold add_expanded, fits64.
  set (count := Z.of_nat (count_matches marker arg)) in *.
  assert (0 ≤ count * str_len token) by (pose proof (str_len_pos token); nia).
  assert (0 ≤ count * str_len marker) by (pose proof (str_len_pos marker); nia).
  cbn [mbind option_bind]. rewrite (proj2 (Z.leb_le (count * str_len marker) U64_MAX)) by lia. cbn [mbind option_bind].
  destruct (Z.leb_spec (count * str_len token) U64_MAX); cbn [mbind option_bind].
  2: { by rewrite (proj2 (Z.leb_gt _ _)) by lia. }
  rewrite (proj2 (Z.leb_le (count * str_len marker) (str_len arg))) by lia. unfold checked_add64.
  destruct (Z.leb_spec (str_len arg - count * str_len marker + count * str_len token) U64_MAX); cbn [mbind option_bind].
  2: { by rewrite (proj2 (Z.leb_gt _ _)) by lia. }
  done.
Qed.

Lemma expanded_bytes_eq cmd marker token : Forall (λ arg, str_len arg ≤ U64_MAX) cmd →
  expanded_bytes cmd marker token = fits64 (words_len (map (replace_all marker token) cmd)).
Proof.
  intros Hlen. change (expanded_bytes cmd marker token) with (foldl (add_expanded marker token) (Some 0) cmd).
  enough (Hgen : ∀ t, 0 ≤ t ≤ U64_MAX →
    foldl (add_expanded marker token) (Some t) cmd = fits64 (t + words_len (map (replace_all marker token) cmd))) by by apply (Hgen 0).
  induction Hlen as [|arg cmd Ha Hc IH]; intros t Ht.
  { cbn. rewrite Z.add_0_r. unfold fits64. by rewrite (proj2 (Z.leb_le _ _) (proj2 Ht)). }
  cbn [foldl map]. rewrite add_expanded_eq by (done || lia). pose proof (words_len_nonneg (map (replace_all marker token) cmd)) as Hw.
  change (words_len (replace_all marker token arg :: map (replace_all marker token) cmd)) with
    (str_len (replace_all marker token arg) + words_len (map (replace_all marker token) cmd)). rewrite Z.add_assoc.
  pose proof (str_len_pos (replace_all marker token arg)).
  unfold fits64 at 1. destruct (Z.leb_spec (t + str_len (replace_all marker token arg)) U64_MAX); [apply IH; lia|].
  rewrite add_expanded_none. unfold fits64. by rewrite (proj2 (Z.leb_gt _ _)) by lia.
Qed.

Lemma replaced_commands_eq cmd marker tokens : Forall (λ arg, str_len arg ≤ U64_MAX) cmd → ∀ used, 0 ≤ used ≤ MAX_ARGUMENT_BYTES →
  replaced_commands cmd marker tokens used = within_rest used (map (λ token, map (replace_all marker token) cmd) tokens).
Proof.
  intros Hlen. induction tokens as [|token tokens IH]; intros used Hu.
  { cbn. unfold within_rest, commands_len. cbn. by rewrite Z.add_0_r, (proj2 (Z.leb_le _ _) (proj2 Hu)). }
  cbn [replaced_commands map]. rewrite expanded_bytes_eq by done. rewrite within_rest_cons by lia. unfold fits64.
  set (n := words_len (map (replace_all marker token) cmd)). assert (Hn : 0 ≤ n) by apply words_len_nonneg.
  assert (Hsmall : MAX_ARGUMENT_BYTES < U64_MAX) by done.
  destruct (Z.leb_spec n U64_MAX) as [Hfit|Hfit]; cbn [default from_option]; unfold id.
  - rewrite saturated_over by lia. destruct (Z.ltb_spec MAX_ARGUMENT_BYTES (used + n)) as [Ho|Ho]; [done|].
    assert (sat_add64 used n = used + n) as -> by (unfold sat_add64; lia). by rewrite IH by lia.
  - rewrite saturated_over by lia. rewrite (proj2 (Z.ltb_lt _ (used + U64_MAX))), (proj2 (Z.ltb_lt _ (used + n))) by lia. done.
Qed.

End xargs.

(** What a command that [xargs] builds from its options is. *)
Definition xargs_command (rest : list string) : list string := match rest with [] => ["echo"] | _ => rest end.
Definition xargs_parsed (args : list string) : result string (XargsOptions * list string) :=
  xargs_options args (MkXargsOptions None None false false).

(** C15: [xargs] runs its command on exactly the words of its input, or says why not. Options that do
    not parse are reported as they are; more than [MAX_TOKENS] words are refused. Without words the
    command is run once, unless the options ask for nothing then, and refused when its own bytes pass
    the limit. With words and no marker, the words, in order, are cut in runs of the size asked for,
    the last one shorter, and each run is appended to the command; with a marker each word gives one
    command with the word for every copy of the marker, and an empty marker is refused. The commands
    are refused exactly when the bytes of all their words together pass the limit, whatever the
    intermediate sums and products overflow (the lengths of the arguments themselves are 64-bit). *)
Theorem xargs_runs_every_word args stdin :
  match xargs_parsed args with
  | Err message => xargs_commands args stdin = Err message
  | Ok (o, rest) =>
      let cmd := xargs_command rest in
      let tokens := xargs_tokens o stdin in
      Forall (λ arg, str_len arg ≤ U64_MAX) cmd →
      ((MAX_TOKENS < length tokens)%nat → xargs_commands args stdin = Err "xargs: too many input arguments") ∧
      (tokens = [] → xargs_commands args stdin =
         if words_len cmd <=? MAX_ARGUMENT_BYTES then Ok (if xo_no_run_if_empty o then [] else [cmd]) else Err arguments_exceed) ∧
      ((length tokens ≤ MAX_TOKENS)%nat → tokens ≠ [] →
         match xo_replace o with
         | None => ∃ batches, runs_of (Z.to_nat (Z.max 1 (default (zlen tokens) (xo_nper o)))) tokens batches ∧
             xargs_commands args stdin = within_limit (map (app cmd) batches)
         | Some marker => xargs_commands args stdin =
             if bool_decide (marker = "") then Err "xargs: empty replacement marker"
             else within_limit (map (λ token, map (replace_all marker token) cmd) tokens)
         end)
  end.
Proof.
  unfold xargs_commands. fold (xargs_parsed args). destruct (xargs_parsed args) as [[o rest]|message]; [|done].
  cbv zeta. intros Hlen. cbn [mbind result_bind]. fold (xargs_command rest). cbv zeta.
  set (cmd := xargs_command rest) in *. set (tokens := xargs_tokens o stdin). split_and!.
  - intros Hmany. by rewrite (proj2 (Nat.ltb_lt _ _) Hmany).
  - intros ->. cbn [length]. rewrite (proj2 (Nat.ltb_ge _ _)) by lia. rewrite bool_decide_true, Z.ltb_antisym by done.
    by destruct (_ <=? _).
  - intros Hcount Hne. rewrite (proj2 (Nat.ltb_ge _ _) Hcount), bool_decide_false by done.
    destruct (xo_replace o) as [marker|].
    + case_bool_decide; [done|]. by rewrite replaced_commands_eq.
    + destruct (batched_commands_eq cmd (Z.max 1 (default (zlen tokens) (xo_nper o))) ltac:(lia)
        (length tokens) tokens 0) as (batches & Hb & Heq); [done|done|]. exists batches. by rewrite Heq.
Qed.

(** Words in runs of two, and a word for every marker. *)
Lemma xargs_runs_every_word_witness :
  (∃ batches, runs_of 2 ["a"; "b"; "c"] batches ∧
     xargs_commands ["-n"; "2"; "touch"] (to_bytes "a b c") = within_limit (map (app ["touch"]) batches)) ∧
  xargs_commands ["-I{}"; "mv"; "{}"; "old{}"] (to_bytes "a b") = Ok [["mv"; "a"; "olda"]; ["mv"; "b"; "oldb"]].
Proof.
  split.
  - pose proof (xargs_runs_every_word ["-n"; "2"; "touch"] (to_bytes "a b c")) as Hx.
    assert (Hp : xargs_parsed ["-n"; "2"; "touch"] = Ok (MkXargsOptions None (Some 2) false false, ["touch"])) by (vm_compute; reflexivity).
    rewrite Hp in Hx. cbv zeta in Hx. destruct Hx as (_ & _ & Hx); [repeat constructor; vm_compute; discriminate|].
    apply Hx; [apply Nat.leb_le; vm_compute; reflexivity|vm_compute; discriminate].
  - pose proof (xargs_runs_every_word ["-I{}"; "mv"; "{}"; "old{}"] (to_bytes "a b")) as Hx.
    assert (Hp : xargs_parsed ["-I{}"; "mv"; "{}"; "old{}"] = Ok (MkXargsOptions (Some "{}") None false false, ["mv"; "{}"; "old{}"]))
      by (vm_compute; reflexivity).
    rewrite Hp in Hx. cbv zeta in Hx. destruct Hx as (_ & _ & Hx); [repeat constructor; vm_compute; discriminate|].
    rewrite Hx; [vm_compute; reflexivity|apply Nat.leb_le; vm_compute; reflexivity|vm_compute; discriminate].
Defined.

(** ** [read] *)

Section read.
Context (delimiter : Byte.byte) (raw : bool).

(** The text of a record: NUL bytes left out, and unless the record is raw a backslash left out
    with the newline after it, if there is one. *)
Definition text_byte (b : Byte.byte) : bytes := if bool_decide (b = null_byte) then [] else [b].
Definition escapes (b : Byte.byte) : bool := negb raw && bool_decide (b = escape_byte).
Fixpoint unescaped (input : bytes) : bytes :=
  match input with
  | [] => []
  | b :: input =>
      if escapes b then
        match input with
        | [] => []
        | c :: rest => (if bool_decide (c = newline_byte) then [] else text_byte c) ++ unescaped rest
        end
      else text_byte b ++ unescaped input
  end.

(** Does [input] end in a backslash that escapes what comes next? *)
Fixpoint escaping (input : bytes) : bool :=
  match input with
  | [] => false
  | b :: input => if escapes b then match input with [] => true | _ :: rest => escaping rest end else escaping input
  end.

Lemma unescaped_snoc b input :
  unescaped (input ++ [b]) = unescaped input ++
    (if escaping input then if bool_decide (b = newline_byte) then [] else text_byte b
     else if escapes b then [] else text_byte b) ∧
  escaping (input ++ [b]) = negb (escaping input) && escapes b.
Proof.
  induction input as [input IH] using (well_founded_induction (well_founded_ltof _ (@length Byte.byte))).
  unfold ltof in IH. destruct input as [|a input]; [cbn; destruct (escapes b); split; by rewrite ?app_nil_r|].
  cbn [app unescaped escaping]. destruct (escapes a).
  - destruct input as [|c rest]; cbn [app unescaped escaping].
    + split; [by rewrite app_nil_r|done].
    + destruct (IH rest) as [Hu He]; [cbn; lia|]. rewrite Hu, He, <-app_assoc. done.
  - destruct (IH input) as [Hu He]; [cbn; lia|]. rewrite Hu, He, app_assoc. done.
Qed.

Let framing := MkReadFraming (Some delimiter) raw.

(** The backslashes counted from the end of the input agree with those met from its start. *)
Lemma trailing_escapes input : negb raw && Nat.odd (length (take_while (λ b, bool_decide (b = Byte.x5c)) (reverse input))) = escaping input.
Proof.
  induction input as [|b input IH] using rev_ind; [by destruct raw|].
  rewrite (proj2 (unescaped_snoc b input)), <-IH, reverse_snoc. cbn [take_while]. unfold escapes, escape_byte.
  destruct (bool_decide (b = Byte.x5c)); [|by rewrite !andb_false_r]. cbn [length]. rewrite Nat.odd_succ, <-Nat.negb_odd.
  by destruct raw, (Nat.odd _).
Qed.

Lemma framing_complete_snoc b input : framing_complete framing (input ++ [b]) = negb (escaping input) && bool_decide (b = delimiter).
Proof.
  unfold framing_complete, framing. cbn [rf_delimiter rf_raw]. rewrite reverse_snoc, <-trailing_escapes, <-Nat.negb_odd.
  by destruct raw, (bool_decide _), (Nat.odd _).
Qed.

(** The scan of a prefix of which no prefix is a whole record. *)
Definition scan_of (input : bytes) : RecordScan := MkScan (unescaped input) (escaping input) false.

Lemma scan_byte_eq b input :
  scan_byte delimiter raw (scan_of input) b =
    if framing_complete framing (input ++ [b]) then MkScan (unescaped input) false true else scan_of (input ++ [b]).
Proof.
  rewrite framing_complete_snoc. unfold scan_of. destruct (unescaped_snoc b input) as [-> ->].
  unfold scan_byte, text_byte. cbn [rs_record rs_escaped]. fold (escapes b).
  destruct (escaping input); cbn [negb andb].
  - by destruct (bool_decide (b = newline_byte)), (bool_decide (b = null_byte)); rewrite ?app_nil_r.
  - destruct (bool_decide (b = delimiter)); [done|].
    by destruct (escapes b), (bool_decide (b = null_byte)); rewrite ?app_nil_r.
Qed.

Context (stdin : bytes) (Hstdin : stdin ≠ []).

(** The part of [stdin] that is scanned: 4 MiB at most. *)
Definition window : bytes := take (Z.to_nat MAX_CAPTURE_BYTES) stdin.

Lemma window_all : zlen stdin ≤ MAX_CAPTURE_BYTES → window = stdin.
Proof. intros Hl. unfold window. rewrite take_ge; [done|]. lia. Qed.

Lemma window_length : (length window ≤ Z.to_nat MAX_CAPTURE_BYTES)%nat.
Proof. unfold window. rewrite length_take. lia. Qed.

Lemma window_lookup n : (n < Z.to_nat MAX_CAPTURE_BYTES)%nat → window !! n = stdin !! n.
Proof. intros Hn. unfold window. by rewrite lookup_take_lt. Qed.

(** The record of the window: the bytes before the delimiter that ends its shortest whole prefix. *)
Definition whole_at (n : nat) : Prop :=
  (n < length window)%nat ∧ framing_complete framing (take (S n) window) = true ∧
  ∀ k, (k ≤ n)%nat → framing_complete framing (take k window) = false.
Definition never_whole : Prop := ∀ k, (k ≤ length window)%nat → framing_complete framing (take k window) = false.

Lemma next_buffered cursor (m : Machine) : next_input cursor stdin m = Ret (m, stdin !! Z.to_nat cursor).
Proof. unfold next_input. by destruct stdin. Qed.

(** A round takes the next byte of the window, if there is one. *)
Lemma record_round n scan (m : Machine) : (n ≤ length window)%nat →
  record_step delimiter raw stdin (Z.of_nat n, scan) m = Ret (m,
    match window !! n with
    | None => ((Z.of_nat n, scan), false)
    | Some b => let scan := scan_byte delimiter raw scan b in ((Z.of_nat (S n), scan), negb (rs_terminated scan))
    end).
Proof.
  intros Hn. pose proof window_length. unfold record_step. destruct (Z.leb_spec MAX_CAPTURE_BYTES (Z.of_nat n)) as [Hmax|Hmax].
  - assert (n = length window) as -> by lia. by rewrite lookup_ge_None_2 by done.
  - unfold mbind, stm_bind. rewrite next_buffered, Nat2Z.id, window_lookup; [|clear -Hmax; lia].
    by destruct (stdin !! n); rewrite ?Nat2Z.inj_succ.
Qed.

Lemma record_loop m : ∀ fuel n, (length window - n < fuel)%nat → (n ≤ length window)%nat →
  (∀ k, (k ≤ n)%nat → framing_complete framing (take k window) = false) →
  (∃ n' c, whole_at n' ∧
     loop fuel (record_step delimiter raw stdin) (Z.of_nat n, scan_of (take n window)) m =
       Ret (m, (c, MkScan (unescaped (take n' window)) false true))) ∨
  (never_whole ∧ ∃ c, loop fuel (record_step delimiter raw stdin) (Z.of_nat n, scan_of (take n window)) m = Ret (m, (c, scan_of window))).
Proof.
  induction fuel as [|fuel IH]; intros n Hf Hn Hno; [lia|]. cbn [loop]. unfold mbind, stm_bind. rewrite record_round by done.
  destruct (window !! n) as [b|] eqn:Hb.
  - pose proof (lookup_lt_Some _ _ _ Hb). cbv zeta. rewrite scan_byte_eq, <-(take_S_r _ _ _ Hb).
    destruct (framing_complete framing (take (S n) window)) eqn:Hw.
    + left. exists n, (Z.of_nat (S n)). done.
    + apply IH; [lia|lia|]. intros k Hk. destruct (decide (k ≤ n)%nat); [by apply Hno|]. by assert (k = S n) as -> by lia.
  - assert (n = length window) as -> by (apply lookup_ge_None_1 in Hb; lia).
    right. rewrite firstn_all. split; [exact Hno|by eexists].
Qed.

(** C14: [read] takes exactly the record its input was gathered for. On input that was buffered for it
    ([stdin] is not empty; without any, [read] asks its descriptor itself), the end of the record is
    the first place where the bytes so far are whole by the framing of the command, which is the
    condition under which the shell stops gathering. The text is what is before the delimiter without
    the escaping backslashes, escaped newlines and NUL bytes, and [read] reports success. [read]
    looks at [MAX_CAPTURE_BYTES] of its input at most, which the shell that gathers does not limit:
    if no prefix of that window is a whole record, the text is the whole window and [read] reports
    that it met the end. A window that holds all of the input is the input ([window_all]). *)
Theorem read_takes_one_record m :
  (∃ n, whole_at n ∧
     read_one_record stdin delimiter raw m = Ret (m, (from_utf8_lossy (unescaped (take n window)), true))) ∨
  (never_whole ∧ read_one_record stdin delimiter raw m = Ret (m, (from_utf8_lossy (unescaped window), false))).
Proof.
  unfold read_one_record. unfold mbind, stm_bind. pose proof window_length as Hlength.
  destruct (record_loop m (S (Z.to_nat MAX_CAPTURE_BYTES)) 0) as [(n & c & Hw & Heq)|(Hno & c & Heq)].
  - lia.
  - lia.
  - intros k Hk. assert (k = 0%nat) as -> by lia. done.
  - left. exists n. split; [done|]. change (scan_of (take 0 window)) with (MkScan [] false false) in Heq.
    change (Z.of_nat 0) with 0 in Heq. by rewrite Heq.
  - right. split; [done|]. change (scan_of (take 0 window)) with (MkScan [] false false) in Heq.
    change (Z.of_nat 0) with 0 in Heq. by rewrite Heq.
Qed.

End read.

(** The escaped newline does not end the record, the next one does. *)
Lemma read_takes_one_record_witness :
  let stdin := to_bytes ("a\" +:+ newline +:+ "b" +:+ newline +:+ "c") in
  ∃ m, with_limits limits_default [] = Ret m ∧ whole_at newline_byte false stdin 4 ∧
  ((∃ n, whole_at newline_byte false stdin n ∧
      read_one_record stdin newline_byte false m = Ret (m, (from_utf8_lossy (unescaped false (take n (window stdin))), true))) ∨
   (never_whole newline_byte false stdin ∧
      read_one_record stdin newline_byte false m = Ret (m, (from_utf8_lossy (unescaped false (window stdin)), false)))).
Proof.
  cbv zeta. destruct (example_boot (λ _, true)) as (m & Hm & _); [vm_compute; reflexivity|].
  exists m. split; [exact Hm|]. split.
  - unfold whole_at. rewrite window_all by (vm_compute; discriminate).
    split; [apply Nat.ltb_lt; vm_compute; reflexivity|]. split; [vm_compute; reflexivity|].
    intros k Hk. do 5 (destruct k as [|k]; [vm_compute; reflexivity|]). lia.
  - apply (read_takes_one_record newline_byte false (to_bytes ("a\" +:+ newline +:+ "b" +:+ newline +:+ "c"))). vm_compute. discriminate.
Defined.

(** ** [test] *)

(** An expression, with its operators as they are written. *)
Inductive test_expr :=
| TPrimary (words : list string)
| TNot (e : test_expr)
| TParens (e : test_expr)
| TAnd (operator : string) (l r : test_expr)
| TOr (operator : string) (l r : test_expr).

Fixpoint tokens (e : test_expr) : list string :=
  match e with
  | TPrimary words => words
  | TNot e => "!" :: tokens e
  | TParens e => "(" :: tokens e ++ [")"]
  | TAnd operator l r | TOr operator l r => tokens l ++ operator :: tokens r
  end.

Fixpoint height (e : test_expr) : nat :=
  match e with
  | TPrimary _ => 1
  | TNot e => S (height e)
  | TParens e => height e
  | TAnd _ l r | TOr _ l r => S (Nat.max (height l) (height r))
  end.

(** How loosely the outermost operator binds. *)
Definition looseness (e : test_expr) : nat := match e with TOr _ _ _ => 2 | TAnd _ _ _ => 1 | _ => 0 end.

Definition plain_token (token : string) : bool :=
  negb (bool_decide (token = "(") || bool_decide (token = ")") || is_and token || is_or token).

(** Expressions with parentheses where the binding of the operators needs them: both associate to
    the right, and [!] takes neither. *)
Fixpoint well_formed (e : test_expr) : Prop :=
  match e with
  | TPrimary words => forallb plain_token words = true ∧ head words ≠ Some "!"
  | TNot e => well_formed e ∧ looseness e = 0%nat
  | TParens e => well_formed e
  | TAnd operator l r => is_and operator = true ∧ well_formed l ∧ well_formed r ∧ looseness l = 0%nat ∧ (looseness r ≤ 1)%nat
  | TOr operator l r => is_or operator = true ∧ well_formed l ∧ well_formed r ∧ (looseness l ≤ 1)%nat
  end.

Section test.
Context (format_seconds : Z → string) (engine : TextEngine).
Context (captures : string → option (string → option (list string))).

(** What the expression means: the operands from left to right, as few as decide the value. Before
    an expression its tokens are scanned, and once more for each pair of parentheses at its ends. *)
Fixpoint eval_tree (e : test_expr) : tested bool :=
  match e with
  | TParens e => _ ←+ charge_scan (tokens (TParens e)); eval_tree e
  | _ =>
      _ ←+ (if enclosed_by_parens (tokens e) then charge_scan (tokens e) else mret (Ok tt));
      _ ←+ charge_scan (tokens e);
      match e with
      | TPrimary words => b ← test_primary format_seconds engine captures words; mret (Ok b)
      | TNot e => b ←+ eval_tree e; mret (Ok (negb b))
      | TAnd _ l r => b ←+ eval_tree l; if b : bool then eval_tree r else mret (Ok false)
      | TOr _ l r => b ←+ eval_tree l; if b : bool then mret (Ok true) else eval_tree r
      | TParens e => eval_tree e
      end
  end.

(** *** Splitting *)

Definition depth_after (d : Z) (l : list string) : Z := foldl paren_depth d l.

Lemma split_operator_app operator p q : ∀ d, split_operator operator d p = None →
  split_operator operator d (p ++ q) = '(l, r) ← split_operator operator (depth_after d p) q; Some (p ++ l, r).
Proof.
  induction p as [|t p IH]; intros d; cbn [split_operator app depth_after foldl]; [by destruct (split_operator operator d q) as [[]|]|].
  destruct (_ && operator t); [done|]. intros Hnone.
  assert (Hp : split_operator operator (paren_depth d t) p = None) by by destruct (split_operator operator (paren_depth d t) p) as [[]|].
  rewrite (IH _ Hp). unfold depth_after. by destruct (split_operator operator (foldl paren_depth (paren_depth d t) p) q) as [[]|].
Qed.

Lemma paren_depth_plain d t : plain_token t = true → paren_depth d t = d.
Proof.
  unfold plain_token, paren_depth. intros Hp.
  destruct (bool_decide (t = "(")), (bool_decide (t = ")")); cbn in Hp; congruence.
Qed.

Lemma paren_depth_operator d t : is_and t = true ∨ is_or t = true → paren_depth d t = d.
Proof. unfold is_and, is_or, paren_depth. intros [H|H]; apply orb_true_iff in H as [H|H]; by apply bool_decide_eq_true in H as ->. Qed.

Lemma depth_after_words d words : forallb plain_token words = true → depth_after d words = d.
Proof.
  unfold depth_after. induction words as [|t words IH]; cbn [forallb foldl]; [done|]. intros [Ht Hw]%andb_true_iff.
  rewrite paren_depth_plain by done. by apply IH.
Qed.

Lemma depth_after_app d p q : depth_after d (p ++ q) = depth_after (depth_after d p) q.
Proof. apply foldl_app. Qed.

Lemma depth_after_tokens e : well_formed e → ∀ d, depth_after d (tokens e) = d.
Proof.
  induction e as [words|e IH|e IH|operator l IHl r IHr|operator l IHl r IHr]; cbn [well_formed tokens].
  - intros [Hw _] d. by apply depth_after_words.
  - intros [Hw _] d. cbn [depth_after foldl]. change (paren_depth d "!") with d. by apply IH.
  - intros Hw d. cbn [depth_after foldl]. change (paren_depth d "(") with (d + 1).
    change (foldl paren_depth (d + 1) (tokens e ++ [")"]) = d). fold (depth_after (d + 1) (tokens e ++ [")"])).
    rewrite depth_after_app, IH by done. change (d + 1 - 1 = d). lia.
  - intros (Ho & Hl & Hr & _) d. rewrite depth_after_app, IHl by done. cbn [depth_after foldl].
    rewrite paren_depth_operator by eauto. by apply IHr.
  - intros (Ho & Hl & Hr & _) d. rewrite depth_after_app, IHl by done. cbn [depth_after foldl].
    rewrite paren_depth_operator by eauto. by apply IHr.
Qed.

(** Does the expression, outside its parentheses, have the operator? *)
Fixpoint meets (operator : string → bool) (e : test_expr) : bool :=
  match e with
  | TPrimary _ | TParens _ => false
  | TNot e => meets operator e
  | TAnd o l r | TOr o l r => operator o || meets operator l || meets operator r
  end.

(** Operators that are written as [is_and] or [is_or] has it. *)
Definition test_operator (operator : string → bool) : Prop := ∀ t, operator t = true → is_and t = true ∨ is_or t = true.

Lemma operator_not_paren operator t : test_operator operator → operator t = true → t ≠ "(" ∧ t ≠ ")" ∧ t ≠ "!".
Proof.
  intros Ho Ht. apply Ho in Ht. unfold is_and, is_or in Ht.
  destruct Ht as [H|H]; apply orb_true_iff in H as [H|H]; apply bool_decide_eq_true in H as ->; done.
Qed.

(** Passing a token that is no operator outside parentheses. *)
Lemma split_operator_pass operator d t l : (d ≠ 0 ∨ operator t = false ∨ t = "(" ∨ t = ")") →
  split_operator operator d (t :: l) = '(a, b) ← split_operator operator (paren_depth d t) l; Some (t :: a, b).
Proof.
  intros Hp. cbn [split_operator]. destruct (_ && operator t) eqn:Hb; [|done].
  apply andb_true_iff in Hb as [[[H1 H2]%andb_true_iff Hd]%andb_true_iff Ht]. apply Z.eqb_eq in Hd. subst d.
  apply negb_true_iff, bool_decide_eq_false in H1, H2. destruct Hp as [?|[?|[?|?]]]; congruence.
Qed.

Lemma split_operator_words operator d words : test_operator operator → forallb plain_token words = true →
  split_operator operator d words = None.
Proof.
  intros Ho. induction words as [|t words IH]; [done|]. cbn [forallb]. intros [Ht Hw]%andb_true_iff.
  rewrite split_operator_pass, paren_depth_plain, IH; [done..|]. right. left. destruct (operator t) eqn:E; [|done].
  apply Ho in E. unfold plain_token in Ht. destruct E as [E|E]; rewrite E, ?orb_true_r in Ht; done.
Qed.

Lemma split_operator_none operator e : test_operator operator → well_formed e → ∀ d, 0 ≤ d → d ≠ 0 ∨ meets operator e = false →
  split_operator operator d (tokens e) = None.
Proof.
  intros Ho. induction e as [words|e IH|e IH|o l IHl r IHr|o l IHl r IHr]; cbn [well_formed tokens meets].
  - intros [Hw _] d _ _. by apply split_operator_words.
  - intros [Hw _] d Hd Hm. rewrite split_operator_pass; [|right; left].
    + change (paren_depth d "!") with d. by rewrite IH.
    + destruct (operator "!") eqn:E; [|done]. by apply (operator_not_paren operator) in E as (_ & _ & ?).
  - intros Hw d Hd _. rewrite split_operator_pass by auto. change (paren_depth d "(") with (d + 1).
    rewrite split_operator_app by (apply IH; [done|lia|left; lia]). rewrite depth_after_tokens by done.
    rewrite split_operator_pass by auto. done.
  - intros (Hop & Hl & Hr & _) d Hd Hm. rewrite !orb_false_iff in Hm.
    rewrite split_operator_app by (apply IHl; tauto). rewrite depth_after_tokens by done.
    rewrite split_operator_pass by tauto. rewrite paren_depth_operator by auto. rewrite IHr by tauto. done.
  - intros (Hop & Hl & Hr & _) d Hd Hm. rewrite !orb_false_iff in Hm.
    rewrite split_operator_app by (apply IHl; tauto). rewrite depth_after_tokens by done.
    rewrite split_operator_pass by tauto. rewrite paren_depth_operator by auto. rewrite IHr by tauto. done.
Qed.

(** The tokens are split at the first operator: what is before it has none. *)
Lemma split_at_operator operator o l r : test_operator operator → operator o = true → well_formed l → meets operator l = false →
  top_level_test_operator operator (tokens l ++ o :: tokens r) = Some (tokens l, tokens r).
Proof.
  intros Ho Hop Hl Hm. unfold top_level_test_operator.
  rewrite split_operator_app by (by apply split_operator_none; [..|right]). rewrite depth_after_tokens by done.
  destruct (operator_not_paren _ _ Ho Hop) as (H1 & H2 & _). cbn [split_operator].
  rewrite !bool_decide_false by done. rewrite Hop. cbn. by rewrite app_nil_r.
Qed.

Lemma or_operator : test_operator is_or.
Proof. intros t Ht. by right. Qed.
Lemma and_operator : test_operator is_and.
Proof. intros t Ht. by left. Qed.

Lemma and_not_or t : is_and t = true → is_or t = false.
Proof. unfold is_and, is_or. intros [H|H]%orb_true_iff; by apply bool_decide_eq_true in H as ->. Qed.

Lemma meets_tight operator e : test_operator operator → well_formed e → looseness e = 0%nat → meets operator e = false.
Proof. intros Ho. induction e; cbn; intros Hw Hl; try done. destruct Hw. by apply IHe. Qed.

Lemma meets_or_tight e : well_formed e → (looseness e ≤ 1)%nat → meets is_or e = false.
Proof.
  induction e as [words|e IH|e IH|o l IHl r IHr|o l IHl r IHr]; cbn [well_formed looseness meets]; intros Hw Hle; try done; [| |lia].
  - destruct Hw as [Hw Hl]. apply IH; [done|lia].
  - destruct Hw as (Ho & Hl & Hr & Hll & Hrl). rewrite and_not_or, IHl, IHr by (done || lia). done.
Qed.

(** *** Parentheses around the whole *)

Lemma wraps_all_pass d t l : 0 < paren_depth d t → wraps_all d (t :: l) = wraps_all (paren_depth d t) l.
Proof. intros Hd. cbn [wraps_all]. by rewrite (proj2 (Z.ltb_lt _ _) Hd), orb_true_r. Qed.

Lemma wraps_all_words d words q : 0 < d → forallb plain_token words = true → wraps_all d (words ++ q) = wraps_all d q.
Proof.
  intros Hd. induction words as [|t words IH]; [done|]. cbn [forallb app]. intros [Ht Hw]%andb_true_iff.
  rewrite wraps_all_pass; rewrite paren_depth_plain by done; [by apply IH|done].
Qed.

Lemma wraps_all_tokens e : well_formed e → ∀ d q, 0 < d → wraps_all d (tokens e ++ q) = wraps_all d q.
Proof.
  induction e as [words|e IH|e IH|o l IHl r IHr|o l IHl r IHr]; cbn [well_formed tokens]; intros Hw d q Hd.
  - destruct Hw. by apply wraps_all_words.
  - cbn [app]. rewrite wraps_all_pass by done. change (paren_depth d "!") with d. apply IH; [apply Hw|done].
  - cbn [app]. assert (Hopen : paren_depth d "(" = d + 1) by done. rewrite wraps_all_pass; rewrite Hopen; [|lia].
    rewrite <-app_assoc, IH by (done || lia). cbn [app].
    assert (Hclose : paren_depth (d + 1) ")" = d) by (change (d + 1 - 1 = d); lia). by rewrite wraps_all_pass; rewrite Hclose.
  - destruct Hw as (Ho & Hl & Hr & _). rewrite <-app_assoc, IHl by done. cbn [app].
    rewrite wraps_all_pass; rewrite paren_depth_operator by auto; [by apply IHr|done].
  - destruct Hw as (Ho & Hl & Hr & _). rewrite <-app_assoc, IHl by done. cbn [app].
    rewrite wraps_all_pass; rewrite paren_depth_operator by auto; [by apply IHr|done].
Qed.

Lemma wraps_all_parens e : well_formed e → wraps_all 0 (tokens (TParens e)) = true.
Proof. intros Hw. cbn [tokens]. rewrite wraps_all_pass by done. change (paren_depth 0 "(") with 1. by rewrite wraps_all_tokens. Qed.

Lemma wraps_all_ends p q : ∀ d, p ≠ [] → q ≠ [] → depth_after d p ≤ 0 → wraps_all d (p ++ q) = false.
Proof.
  induction p as [|t p IH]; intros d Hp Hq Hd; [done|]. cbn [wraps_all app]. destruct p as [|t' p].
  - cbn [app depth_after foldl] in *. rewrite (bool_decide_false (q = [])) by done. by rewrite (proj2 (Z.ltb_ge 0 _) Hd).
  - rewrite IH; [by rewrite andb_false_r|done..].
Qed.

Definition is_parens (e : test_expr) : bool := match e with TParens _ => true | _ => false end.

Lemma operator_ends o l r : well_formed l → o ≠ "(" → enclosed_by_parens (tokens l ++ o :: tokens r) = true →
  wraps_all 0 (tokens l ++ o :: tokens r) = false.
Proof.
  intros Hl Ho He. apply wraps_all_ends; [|done|by rewrite depth_after_tokens].
  intros Hnil. rewrite Hnil in He. unfold enclosed_by_parens in He. cbn [app head] in He.
  apply andb_true_iff in He as [He _]. apply bool_decide_eq_true in He. congruence.
Qed.

(** Parentheses at both ends that do not belong together. *)
Lemma enclosed_apart e : well_formed e → is_parens e = false → enclosed_by_parens (tokens e) = true → wraps_all 0 (tokens e) = false.
Proof.
  destruct e as [words|e|e|o l r|o l r]; cbn [well_formed tokens is_parens]; intros Hw Hp He; try done.
  - exfalso. destruct Hw as [Hw _]. destruct words as [|t words]; [done|]. cbn [forallb] in Hw. apply andb_true_iff in Hw as [Ht _].
    unfold enclosed_by_parens in He. cbn [head] in He. apply andb_true_iff in He as [He _]. apply bool_decide_eq_true in He.
    injection He as ->. done.
  - destruct Hw as (Ho & Hl & _). apply operator_ends; [done| |done]. by apply (operator_not_paren _ _ and_operator).
  - destruct Hw as (Ho & Hl & _). apply operator_ends; [done| |done]. by apply (operator_not_paren _ _ or_operator).
Qed.

Lemma enclosed_parens e : enclosed_by_parens (tokens (TParens e)) = true.
Proof. unfold enclosed_by_parens. cbn [tokens head]. by rewrite last_cons, last_snoc. Qed.

Lemma inner_tokens e : removelast (tail (tokens (TParens e))) = tokens e.
Proof. cbn [tokens tail]. apply removelast_last. Qed.

(** *** Evaluation *)

Lemma attempt_eq {E A B} (k k' : A → stm Machine (result E B)) m m' s :
  m s = m' s → (∀ a s', k a s' = k' a s') → attempt k m s = attempt k' m' s.
Proof. intros Hm Hk. unfold attempt, mbind, stm_bind. rewrite Hm. destruct (m' s) as [[s' [a|]]| |]; [apply Hk|done..]. Qed.

Lemma attempt_assoc {E A B C} (k : B → stm Machine (result E C)) (h : A → stm Machine (result E B)) m s :
  attempt k (attempt h m) s = attempt (λ a, attempt k (h a)) m s.
Proof. unfold attempt, mbind, stm_bind. by destruct (m s) as [[s' [a|]]| |]. Qed.

Notation eval_test := (eval_test format_seconds engine captures).

(** A level of [eval_test] once the parentheses are off. *)
Definition eval_stripped (levels : nat) (a : list string) : tested bool :=
  _ ←+ charge_scan a;
  match top_level_test_operator is_or a with
  | Some (l, r) => b ←+ eval_test levels l; if b : bool then mret (Ok true) else eval_test levels r
  | None =>
      match top_level_test_operator is_and a with
      | Some (l, r) => b ←+ eval_test levels l; if b : bool then eval_test levels r else mret (Ok false)
      | None =>
          if bool_decide (head a = Some "!") then b ←+ eval_test levels (tail a); mret (Ok (negb b))
          else b ← test_primary format_seconds engine captures a; mret (Ok b)
      end
  end.

Lemma strip_apart fuel e s : well_formed e → is_parens e = false →
  strip_parens_fuel (S fuel) (tokens e) s =
    (_ ←+ (if enclosed_by_parens (tokens e) then charge_scan (tokens e) else mret (Ok tt)); mret (Ok (tokens e))) s.
Proof.
  intros Hw Hp. cbn [strip_parens_fuel]. destruct (enclosed_by_parens (tokens e)) eqn:He; [|done].
  by rewrite enclosed_apart.
Qed.

(** The expression on a level of its own: [evaluates] at every level it fits. *)
Definition evaluates (e : test_expr) : Prop := ∀ levels fuel s, (height e ≤ S levels)%nat → (length (tokens e) < fuel)%nat →
  attempt (eval_stripped levels) (strip_parens_fuel fuel (tokens e)) s = eval_tree e s.

Lemma height_pos e : (1 ≤ height e)%nat.
Proof. induction e; cbn; lia. Qed.

Lemma evaluates_test e levels s : evaluates e → (height e ≤ levels)%nat → eval_test levels (tokens e) s = eval_tree e s.
Proof.
  intros He Hh. pose proof (height_pos e). destruct levels as [|levels]; [lia|].
  change (eval_test (S levels) (tokens e) s) with
    (attempt (eval_stripped levels) (strip_parens_fuel (S (length (tokens e))) (tokens e)) s).
  apply He; lia.
Qed.

(** An expression that is not in parentheses, from what its level does. *)
Lemma evaluates_apart e body : well_formed e → is_parens e = false →
  (∀ s, eval_tree e s = (_ ←+ (if enclosed_by_parens (tokens e) then charge_scan (tokens e) else mret (Ok tt));
     _ ←+ charge_scan (tokens e); body) s) →
  (∀ levels s, (height e ≤ S levels)%nat → eval_stripped levels (tokens e) s = (_ ←+ charge_scan (tokens e); body) s) →
  evaluates e.
Proof.
  intros Hw Hp Htree Hbody levels fuel s Hh Hf. destruct fuel as [|fuel]; [lia|].
  rewrite Htree. etransitivity; [apply attempt_eq; [by apply strip_apart|done]|].
  rewrite attempt_assoc. apply attempt_eq; [done|]. intros [] s'. exact (Hbody levels s' Hh).
Qed.

Lemma evaluates_tree e : well_formed e → evaluates e.
Proof.
  induction e as [words|e IH|e IH|o l IHl r IHr|o l IHl r IHr]; intros Hw.
  - refine (evaluates_apart _ (b ← test_primary format_seconds engine captures words; mret (Ok b)) Hw eq_refl (λ _, eq_refl) _).
    destruct Hw as [Hw Hh]. intros levels s _. apply attempt_eq; [done|]. intros [] s'. cbn [tokens]. unfold top_level_test_operator.
    rewrite !split_operator_words by (done || apply or_operator || apply and_operator). by rewrite bool_decide_false.
  - refine (evaluates_apart _ (b ←+ eval_tree e; mret (Ok (negb b))) Hw eq_refl (λ _, eq_refl) _).
    destruct Hw as [Hw Hl]. intros levels s Hh. apply attempt_eq; [done|]. intros [] s'. unfold top_level_test_operator.
    assert (Hno : ∀ operator, test_operator operator → split_operator operator 0 (tokens (TNot e)) = None).
    { intros operator Ho. apply split_operator_none; [done|done|done|]. right. by apply (meets_tight operator e). }
    rewrite !Hno by (apply or_operator || apply and_operator). cbn [tokens head tail]. rewrite bool_decide_true by done.
    apply attempt_eq; [|done]. apply evaluates_test; [by apply IH|cbn in Hh; lia].
  - intros levels fuel s Hh Hf. cbn [well_formed height] in Hw, Hh. destruct fuel as [|fuel]; [lia|]. cbn [strip_parens_fuel].
    rewrite enclosed_parens, wraps_all_parens, inner_tokens by done. rewrite attempt_assoc. cbn [eval_tree].
    apply attempt_eq; [done|]. intros [] s'. apply IH; [done|done|]. cbn [tokens length] in Hf. rewrite length_app in Hf. lia.
  - refine (evaluates_apart _ (b ←+ eval_tree l; if b : bool then eval_tree r else mret (Ok false)) Hw eq_refl (λ _, eq_refl) _).
    destruct Hw as (Ho & Hl & Hr & Hll & Hrl). intros levels s Hh. apply attempt_eq; [done|]. intros [] s'. cbn [tokens].
    assert (Hor : top_level_test_operator is_or (tokens (TAnd o l r)) = None).
    { apply split_operator_none; [apply or_operator|done|done|]. right. by apply meets_or_tight; [|cbn; lia]. }
    cbn [tokens] in Hor. rewrite Hor, split_at_operator; [|apply and_operator|done|done|by apply (meets_tight is_and l and_operator)].
    cbn [height] in Hh. apply attempt_eq; [apply evaluates_test; [by apply IHl|lia]|].
    intros [] s''; [|done]. apply evaluates_test; [by apply IHr|lia].
  - refine (evaluates_apart _ (b ←+ eval_tree l; if b : bool then mret (Ok true) else eval_tree r) Hw eq_refl (λ _, eq_refl) _).
    destruct Hw as (Ho & Hl & Hr & Hll). intros levels s Hh. apply attempt_eq; [done|]. intros [] s'. cbn [tokens].
    rewrite split_at_operator; [|apply or_operator|done|done|by apply meets_or_tight].
    cbn [height] in Hh. apply attempt_eq; [apply evaluates_test; [by apply IHl|lia]|].
    intros [] s''; [done|]. apply evaluates_test; [by apply IHr|lia].
Qed.

(** C13: [test] evaluates an expression by its grammar. The words of any expression that has
    parentheses where the binding of its operators needs them, and that is no deeper than the levels
    there are, are evaluated as the tree of the expression: [!] binds before [-a], and [-a] before
    [-o]; the operands of both are evaluated from the left and only until the value is decided; a
    pair of parentheses takes no level. The scans of the tokens are charged exactly as the tree has
    them, and a stop while one is charged ends the evaluation there. *)
Theorem test_follows_grammar levels e m : well_formed e → (height e ≤ levels)%nat →
  eval_test levels (tokens e) m = eval_tree e m.
Proof. intros Hw Hh. apply evaluates_test; [by apply evaluates_tree|done]. Qed.

End test.

Definition example_test : test_expr :=
  TAnd "-a" (TParens (TOr "-o" (TPrimary ["-z"; "a"]) (TPrimary ["x"; "="; "x"]))) (TNot (TPrimary ["-n"; ""])).

Lemma test_follows_grammar_witness : ∃ m,
  with_limits limits_default [] = Ret m ∧
  tokens example_test = ["("; "-z"; "a"; "-o"; "x"; "="; "x"; ")"; "-a"; "!"; "-n"; ""] ∧
  (let test := eval_test example_format example_engine (λ _, None) MAX_SYNTAX_DEPTH (tokens example_test) in
   test m = eval_tree example_format example_engine (λ _, None) example_test m ∧
   match test m with Ret (_, Ok true) => true | _ => false end = true).
Proof.
  destruct (example_boot (λ m, match eval_test example_format example_engine (λ _, None) MAX_SYNTAX_DEPTH (tokens example_test) m with
    Ret (_, Ok true) => true | _ => false end)) as (m & Hm & _ & Hc); [vm_compute; reflexivity|].
  exists m. split; [exact Hm|]. split; [reflexivity|]. split; [|exact Hc].
  refine (test_follows_grammar example_format example_engine (λ _, None) MAX_SYNTAX_DEPTH example_test m _ _).
  - clear Hm Hc. unfold example_test. cbn [well_formed looseness]. split_and!; first [vm_compute; reflexivity|vm_compute; discriminate|lia].
  - apply Nat.leb_le. vm_compute. reflexivity.
Defined.
